(* ===== verification/_CoqProject ===== *)
-Q . S2P
Prelude.v
Errors.v
Utils.v
Mvcc.v
BadgerApi.v
Codecs.v
MemCodecs.v
MemBadger.v
Badger.v
BadgerReads.v
BadgerWrites.v
Command.v
MemCommand.v
Fsm.v
FsmLog.v
WaterMark.v
Tso.v
TsoSafety.v
TsoHistory.v
TsoConflict.v
Txn.v
Distributed.v
KeyIndex.v
RevBytes.v
KeyTimeline.v
TreeIndex.v
IndexLog.v
RaftApi.v
Config.v
Replication.v
WalRecord.v
MemRaftCodec.v
WalIo.v
WalFrame.v
WalNames.v
Urls.v
MsgCodec.v
RaftUtil.v
Stream.v
Peer.v
Link.v
PeerLog.v
Transport.v
EtcdWal.v
WalRep.v
WalRead.v
WalLog.v
WalCrash.v
Snapshotter.v
Handlers.v
Storage.v
StorageLog.v
StorageCrash.v
StorageMem.v
Node.v
NodeLog.v
NodeEvents.v
Cluster.v
KvPb.v
BoltApi.v
TxBuffer.v
Backend.v
BackendLog.v
LeasePb.v
LeaseQueue.v
Lease.v
LeaseLog.v
KvHash.v
KvStore.v
KvHistory.v
KvReads.v
KvInv.v
KvEvents.v
KvCompact.v
KvSched.v
KvRestore.v
KvOpen.v
KvRun.v
KvHashLog.v
KvLease.v
