(* ===== verification/Prelude.v ===== *)
(** * omashu: a distributed, transactional key-value store, verified

    omashu keeps a multi-version key-value store in BadgerDB and replicates it
    with etcd's raft.  This library models the Go code of the repository and
    proves what makes it correct; where the code does something else than it
    means to, the theorem shows the run that does.

    ** The program and its parts

    A client calls a store.  The single-node store ([src/badger.go]) runs each
    call in a Badger transaction.  The distributed store
    ([src/distributed.go], [src/txn.go]) takes timestamps from the oracle of
    the leader ([src/tso.go]), turns the writes into a command
    ([src/types/methods.go]) and proposes it to the raft node
    ([src/node.go]).  The node persists what raft gives it
    ([src/storage.go], [src/wal.go], over the write-ahead log and the snapshot
    files of etcd under [src/deps/etcd/server/storage/wal] and
    [src/deps/etcd/server/etcdserver/api/snap]), sends the messages
    ([src/transport.go], over etcd's [rafthttp]) and hands the committed
    entries to the state machine ([src/fsm.go]), which applies each in a
    managed Badger transaction at the timestamps the command carries.
    Snapshots are backups of the database ([src/replication.go]).

    ** The files

    Shared: [Prelude] (this file: machine integers, outcomes, the state monad,
    the run of a step function, list and map lemmas, tactics and hints),
    [Errors] ([src/errors.go]), [Utils] ([src/utils/utils.go]).

    Libraries outside the repository, each a class of operations with a class
    of laws, and an instance that shows the laws can hold and makes the
    definitions run: [Mvcc] and [BadgerApi] (BadgerDB, instance [MemBadger]),
    [Codecs] (JSON and Protobuf, instance [MemCodecs]; on top of them
    [src/types/dynamic.go]), [WaterMark] (Badger's [y.WaterMark]), [RaftApi]
    (the raft node, its messages and [MemoryStorage], instance [MemRaft]),
    the marshallers of what raft stores ([RaftCodec] of [WalRecord], instance
    [MemRaftCodec]) and of its messages ([MessageCodec] of [MsgCodec]), the
    marshallers of commands ([Command], instance [MemCommand]), [net/url]
    ([Urls], instance [MemUrl]), [go-semver] ([RaftUtil], instance
    [MemSemver]), google/btree ([TreeIndex], instance [MemBTree]), bbolt
    ([BoltApi], instance [MemBolt]) and the options of Badger ([Config]).

    The store: [Badger] has every operation of [src/badger.go], a method that
    works in a caller's transaction as a computation of the monad [M BTxn];
    [BadgerReads] and [BadgerWrites] prove them against a plain map;
    [Config] has [src/config.go], the constructors of [src/store.go] and the
    opening, closing and garbage collection of [src/badger.go].

    Replication: [Command], [Fsm] and [FsmLog] (commands, the state machine,
    and logs of commands), [Replication] (snapshots of the store), [Tso],
    [TsoSafety], [TsoHistory] and [TsoConflict] (the oracle, its timestamps,
    the oracles of successive leaders, the conflict check), [Txn]
    ([src/txn.go]), [Distributed] (the operations of [src/distributed.go]) and
    [Cluster] (its goroutines and the table of waiting proposals).

    The disk, from the bytes up: [WalRecord] ([walpb]), [WalIo] ([pkg/crc],
    [pkg/ioutil]), [WalFrame] ([encoder.go], [decoder.go]), [WalNames]
    ([util.go]), [EtcdWal] ([wal.go], [repair.go]), with their proofs in
    [WalRep], [WalRead], [WalLog] and, for crashes, [WalCrash]; [Snapshotter]
    ([snapshotter.go], [db.go], [snappb]); [Storage] ([src/wal.go], [src/storage.go]),
    with [StorageLog], [StorageMem] and [StorageCrash].

    The network, all of etcd's [rafthttp] but its probes: [Urls] (URLs,
    identifiers, [urlpick.go]), [MsgCodec] (the two formats of a stream:
    [msgappv2_codec.go], [msg_codec.go]), [RaftUtil] ([util.go]: requests,
    headers, versions), [Stream] ([stream.go], [peer_status.go]), [Peer]
    ([peer.go], [pipeline.go], [remote.go], [snapshot_sender.go] and the
    snapshot message), [Link] (a stream from writer to reader), [PeerLog] (the
    fate of every message handed to a peer), [Transport] ([transport.go], and
    [src/transport.go] above it) and [Handlers] ([http.go], with the theorems
    about a request and its answer).

    The node: [Node] ([src/node.go]: [Start], the ready loop, proposals,
    snapshots, membership), [NodeLog] (the entries through the ready loop) and
    [NodeEvents] (read states, membership changes, refused proposals).

    etcd's key-value store, vendored beside what omashu calls.  Its index:
    [KeyIndex] ([mvcc/revision.go], [mvcc/key_index.go]), [RevBytes] (revisions
    as keys of the backend), [KeyTimeline] (a key index as a timeline),
    [TreeIndex] ([mvcc/index.go]) and [IndexLog] (the index against the history
    of changes).  Its backend, buffers over a bbolt file: [TxBuffer]
    ([backend/tx_buffer.go]), [Backend] ([backend.go], [batch_tx.go],
    [read_tx.go], [schema/bucket.go]) and [BackendLog] (what readers and the
    file see of writers and commits).  The store over both: [KvPb]
    ([mvccpb/kv.pb.go]), the lessor ([LeasePb], [LeaseQueue] and [Lease] for
    [leasepb/lease.pb.go], [lease_queue.go] with the heap of Go's library under
    it, [lease.go], [lessor.go] and [schema/lease.go]; [LeaseLog] for its
    theorems), [KvHash] ([mvcc/hash.go]), [KvStore] ([mvcc/kvstore.go], [kvstore_txn.go],
    [kvstore_compaction.go], [store.go], [pkg/schedule]); its proofs are in
    [KvHistory] (histories of changes, the records they leave and those a
    compaction may drop), [KvReads] (ranges), [KvInv] (the invariant),
    [KvEvents] (transactions, reads and commits), [KvCompact] and [KvSched]
    (compactions and the steps that run them), [KvRestore] and [KvOpen]
    (opening on a file), [KvRun] (the theorems over whole runs), [KvHashLog]
    (checksums) and [KvLease] ([Revoke] of the lessor on the store).

    ** How Go is modelled

    An integer is a [Z] with its conversions written out ([u64], [i64]); a
    [[]byte] is a list of bytes; a struct is a record of its fields; an
    [error] result is an [option error].  Code that mutates an object takes it
    and returns it; a panic is [Panic] and stays one through every bind.  A
    call that takes a mutex is one step; what runs concurrently is a sequence
    of steps in an arbitrary order, so a theorem over all sequences speaks of
    all interleavings of these calls.  A channel is the list of what waits in
    it: a send into a full buffer, or to a receiver that is gone, is [Hang].
    A channel that is replaced while others may still hold the old one keeps
    its number ([Stream]).  A goroutine is the set of rounds of its loop; what
    it tells the outside is appended to a list of effects.  A connection is the
    bytes that were written to it and a place where it breaks.

    ** What the theorems show

    - The store refines a map: reads, scans, counts and pages return exactly
      what the reader's snapshot holds, and every write transaction acts on it
      as its abstract counterpart, errors included.
    - The state machine applies a command whole or not at all; replicas that
      apply the same log agree; a log applied again from any point changes
      nothing; a snapshot followed by the rest of the log ends where the whole
      log does.
    - The oracle's timestamps increase over every history of leaders, also
      while a replaced leader goes on; the conflict check is exact for every
      interleaving although old commits are dropped.
    - A replicated write that is acknowledged acts on the map as the same
      write on one node.
    - The write-ahead log gives back the last hard state and every entry after
      the snapshot it is opened at, over cuts and overwritten entries; a crash
      in the middle of an append loses nothing that was synced once the log is
      repaired; the newest snapshot the log knows of is found past orphaned and
      broken files; the memory storage is at every point what a restart loads.
    - The ready loop applies every committed entry once and in order although
      batches overlap, a restarted node catches up, and a read is answered
      only when its index is applied.
    - What a stream carries is read back unchanged up to the byte where the
      connection breaks, in the compact format too; over a stream raft gets a
      subsequence of what was sent, in order, and all of it while the
      connection holds; every message handed to a peer is waiting, sent, or
      lost with a report.  A post is processed once and its sender knows; a
      stream is set up on both sides or on neither; a snapshot is stored whole
      before raft hears of it.
    - The index of etcd's store answers every read that is not compacted from
      the history of changes, whatever compaction steps run in between; a
      compaction keeps exactly what later reads need; the bytes of revisions
      are ordered like them.
    - The backend shows its readers the last state that a writer released,
      committed or not, and its file is never behind the last forced commit.
    - The whole of etcd's store, opened on whatever file a run may leave,
      answers every sequence of transactions, reads, commits and compactions as
      the history of the changes says, while a compaction runs step by step
      beside them; whenever it stops, the file holds whole transactions up to a
      point not before the last commit; compactions end, and leave exactly the
      needed records; checksums depend on the history alone as long as a key
      exists.  The sequences are those that etcd's server lets through: a
      transaction does not put a key that it has deleted, leases are known to
      the lessor, revisions stay in their 64 bits.
    - The lessor, in every sequence of its calls and the rounds of its loop,
      reports the leases that have expired, only these, and each again until it
      is revoked; its queue is a heap in which every lease is found; the times
      of its leases do not overflow.
    - Departures: a torn record keeps a node from starting, because omashu does
      not repair its log; commands that fail stop the node, reads not met by
      the end of a batch are dropped, a response for a proposal that is no
      longer waiting ends the listener, the wait for the oracle's window can
      last for ever, the logical counter can overflow into a smaller
      timestamp, a transaction registered outside the mutex can miss a
      conflict, a lost update inside one transaction, time-to-live computed by
      each replica on its own clock, a message put into a channel that was
      replaced is neither sent nor reported; etcd's checksums of a store
      without keys depend on how far its compactions have come, a cached read
      buffer outlives a commit, and a limited range of the backend can leave
      out pairs in the middle; a renewal without a checkpointer does not give
      the lease its full time back, and a lease revoked twice without a range
      deleter panics.

    ** Fuel

    Only loops that wait, or read until a sentinel, take fuel.  The polling
    loops of the oracle take the number of clock readings, and the theorems
    either say that the loop has ended or that no number is enough.  The
    iterator loop of [Badger] takes the number of items left and one more, so
    it never runs out.  The unmarshalling loops of [WalRecord] and
    [Snapshotter] take the length of their input, of which a round consumes at
    least one byte; a varint of 64 bits has at most ten bytes; the reading
    loop of [WalFrame] takes the bytes left in the files, of which a round
    reads at least eight; the loop over the entries of an append in [MsgCodec]
    takes the bytes left and one more, and each entry has at least eight; a
    write to the page writer recurs at most once; the chunks of [KvStore] are
    at most the pairs that the reader has, and one more, since each round but
    the last reads a pair.  The heap of [LeaseQueue] moves an item up at most
    its index and one more times, and down at most the length of the heap; a
    round of the search for expired leases takes an item out of the queue or
    moves it past the clock, so the length of the queue and one more is enough,
    which the theorem shows; the search for checkpoints pops an item in each
    round.  The steps of a compaction are counted, not bounded
    by fuel: the theorem gives a number that is enough.  The collector of [Config] loops until Badger has nothing left to collect,
    which only Badger bounds, so its fuel stays an argument.

    ** Not modelled

    - I/O errors, [fsync] and file locks: a file operation succeeds; a crash
      keeps a prefix of the bytes written, and that a checksum tells a record
      that lost its end is a hypothesis.  The laws of Badger leave out its I/O errors
      and [ErrTxnTooBig], and take [Backup] to be available on the managed
      store.  A directory is the list of its files.
    - Metrics, log lines, and the probes of [rafthttp], which only write such.
    - The bytes of HTTP: a request and a response are records of what the code
      sets and reads; a broken transfer ends with an error at some byte.
    - [src/types/types.pb.go], which is generated; the records of its messages
      are in [Command].  [src/logger.go], which only prints.
    - The lessor reads its clock once in a call, and the clock does not go back;
      the order in which Go goes through a map is an argument.  Its state in
      memory is what the theorems over sequences are about: the leases in the
      backend, [Recover] and [Revoke] on the store have definitions, the round
      trip of their encoding, and evaluated runs.
    - The rest of the vendored etcd tree, which omashu does not call: etcd's
      client, its server with its watchers, and its tools. *)

From stdpp Require Export base gmap strings list fin_maps sorting.
From Stdlib Require Export ZArith Lia.
From Stdlib Require Import Strings.Byte.

#[global] Open Scope Z_scope.

(** ** Notations and scopes *)

Declare Scope omashu_scope.
Delimit Scope omashu_scope with omashu.

(** A Go [[]byte] is a list of bytes. *)
Abbreviation bytes := (list Byte.byte).

#[global] Instance byte_eq_dec : EqDecision Byte.byte := Byte.byte_eq_dec.

(** ** Machine integers *)

Definition two64 : Z := 2 ^ 64.
Definition max_u64 : Z := two64 - 1.

(** Conversion to [uint64]: keep the low 64 bits. *)
Definition u64 (z : Z) : Z := z mod two64.

(** Conversion to [int64]: the low 64 bits read in two's complement. *)
Definition i64 (z : Z) : Z := (z + 2 ^ 63) mod two64 - 2 ^ 63.

Definition is_u64 (z : Z) : Prop := 0 <= z < two64.
Definition is_i64 (z : Z) : Prop := - 2 ^ 63 <= z < 2 ^ 63.

(** ** Outcomes of Go code

    A call returns a value, panics, or is still looping when the fuel given
    to the model of its loop is used up. *)
Inductive outcome (A : Type) : Type :=
  | Ret (a : A)
  | Panic (msg : string)
  | Hang.
Arguments Ret {A} _.
Arguments Panic {A} _.
Arguments Hang {A}.

#[global] Instance outcome_ret : MRet outcome := fun A a => Ret a.
#[global] Instance outcome_bind : MBind outcome := fun A B k m =>
  match m with
  | Ret a => k a
  | Panic s => Panic s
  | Hang => Hang
  end.
#[global] Instance outcome_fmap : FMap outcome := fun A B f m =>
  match m with
  | Ret a => Ret (f a)
  | Panic s => Panic s
  | Hang => Hang
  end.

(** As a rewrite rule it keeps the kernel from comparing computations. *)
Lemma ret_bind {A B} (a : A) (k : A -> outcome B) : (Ret a ≫= k) = k a.
Proof. reflexivity. Qed.

(** Code that mutates an object of type [S]: state passing over outcomes. *)
Definition M (S A : Type) : Type := S -> outcome (S * A).

#[global] Instance M_ret {S} : MRet (M S) := fun A a s => Ret (s, a).
#[global] Instance M_bind {S} : MBind (M S) := fun A B k m s =>
  match m s with
  | Ret (s', a) => k a s'
  | Panic msg => Panic msg
  | Hang => Hang
  end.

(** Run an outcome that does not touch the state. *)
Definition lift {S A} (m : outcome A) : M S A := fun s =>
  match m with
  | Ret a => Ret (s, a)
  | Panic msg => Panic msg
  | Hang => Hang
  end.

(** A sequence of steps from a state, with the answer of each. *)
Fixpoint run {I St R} (step : St -> I -> outcome (St * R)) (st : St) (l : list I)
    : outcome (St * list R) :=
  match l with
  | [] => Ret (st, [])
  | x :: l' =>
      '(st', r) ← step st x;
      '(st'', rs) ← run step st' l';
      Ret (st'', r :: rs)
  end.

(** ** The order of keys

    Go strings and byte slices compare lexicographically by byte value. *)
Fixpoint str_ltb (a b : string) : bool :=
  match a, b with
  | _, EmptyString => false
  | EmptyString, String _ _ => true
  | String x a', String y b' =>
      (Ascii.N_of_ascii x <? Ascii.N_of_ascii y)%N
      || ((Ascii.N_of_ascii x =? Ascii.N_of_ascii y)%N && str_ltb a' b')
  end.

Definition str_lt (a b : string) : Prop := str_ltb a b = true.

(** [bytes.HasPrefix] / [strings.HasPrefix]. *)
Definition has_prefix (p s : string) : bool := String.prefix p s.
Arguments has_prefix _ _ : simpl never.

(** ** List helpers *)

Fixpoint drop_while {A} (f : A -> bool) (l : list A) : list A :=
  match l with
  | [] => []
  | x :: l' => if f x then drop_while f l' else l
  end.

Fixpoint take_while {A} (f : A -> bool) (l : list A) : list A :=
  match l with
  | [] => []
  | x :: l' => if f x then x :: take_while f l' else []
  end.

(** ** Automation *)

Create HintDb omashu discriminated.
Create Rewrite HintDb omashu.

(** Split conjunctions and existentials of the context. *)
Ltac destruct_hyps :=
  repeat match goal with
  | H : _ /\ _ |- _ => destruct H
  | H : exists _, _ |- _ => destruct H
  | H : (_, _) = (_, _) |- _ => injection H as H
  | H : Ret _ = Ret _ |- _ => injection H as H
  | H : Some _ = Some _ |- _ => injection H as H
  end; subst.

(** Case analysis on the scrutinee of a [match] or [if] of the goal. *)
Ltac case_goal :=
  match goal with
  | |- context [match ?x with _ => _ end] => destruct x eqn:?
  end.

(** Unfold the model's machine arithmetic and decide. *)
Ltac word := unfold is_u64, is_i64, u64, i64, max_u64, two64 in *; lia.

(** [lia] with divisions and remainders by constants. *)
Ltac div_lia := Z.div_mod_to_equations; lia.

Lemma u64_range z : is_u64 (u64 z).
Proof. unfold is_u64, u64. apply Z.mod_pos_bound. reflexivity. Qed.

Lemma u64_small z : is_u64 z -> u64 z = z.
Proof. unfold is_u64, u64. apply Z.mod_small. Qed.

Lemma i64_small z : is_i64 z -> i64 z = z.
Proof.
  unfold is_i64, i64, two64. intros H. rewrite Z.mod_small by lia. lia.
Qed.

#[export] Hint Resolve u64_range : omashu.
#[export] Hint Rewrite u64_small i64_small using (assumption || word) : omashu.

Lemma answers {A B} (m : outcome (A * B)) b : snd <$> m = Ret b -> exists a, m = Ret (a, b).
Proof. destruct m as [[a b']| |]; simpl; [|done|done]. intros [= <-]. eauto. Qed.

(** *** Runs *)

Lemma run_app {I St R} (step : St -> I -> outcome (St * R)) st l1 l2 :
  run step st (l1 ++ l2) =
  ('(st1, rs1) ← run step st l1;
   '(st2, rs2) ← run step st1 l2;
   Ret (st2, rs1 ++ rs2)).
Proof.
  revert st. induction l1 as [|x l1 IH]; intros st; simpl.
  - by destruct (run step st l2) as [[st2 rs2]| |].
  - destruct (step st x) as [[st' r]| |]; simpl; [|done|done]. rewrite IH.
    destruct (run step st' l1) as [[st1 rs1]| |]; simpl; [|done|done].
    by destruct (run step st1 l2) as [[st2 rs2]| |].
Qed.

(** Two systems whose steps agree run alike. *)
Lemma run_sim {I St St' R} (step : St -> I -> outcome (St * R))
    (step' : St' -> I -> outcome (St' * R)) (rel : St -> St' -> Prop) (ok : I -> Prop) :
  (forall st st' x, rel st st' -> ok x ->
     match step st x, step' st' x with
     | Ret (s, r), Ret (s', r') => r = r' /\ rel s s'
     | Panic m, Panic m' => m = m'
     | Hang, Hang => True
     | _, _ => False
     end) ->
  forall l st st', rel st st' -> Forall ok l ->
  match run step st l, run step' st' l with
  | Ret (s, r), Ret (s', r') => r = r' /\ rel s s'
  | Panic m, Panic m' => m = m'
  | Hang, Hang => True
  | _, _ => False
  end.
Proof.
  intros Hstep l. induction l as [|x l IH]; intros st st' Hr Hok; simpl; [done|].
  apply Forall_cons in Hok as [Hx Hok]. specialize (Hstep st st' x Hr Hx).
  destruct (step st x) as [[s r]| |], (step' st' x) as [[s' r']| |]; simpl; try done.
  destruct Hstep as [<- Hr']. specialize (IH s s' Hr' Hok).
  destruct (run step s l) as [[s2 rs]| |], (run step' s' l) as [[s2' rs']| |]; simpl; try done.
  destruct IH as [<- ?]. done.
Qed.

(** *** Keys are totally ordered *)

Lemma str_lt_irrefl a : ~ str_lt a a.
Proof.
  unfold str_lt. induction a as [|x a IH]; simpl; [done|].
  rewrite N.ltb_irrefl, N.eqb_refl. exact IH.
Qed.

Lemma str_lt_trans a b c : str_lt a b -> str_lt b c -> str_lt a c.
Proof.
  unfold str_lt. revert b c.
  induction a as [|x a IH]; intros [|y b] [|z c]; simpl; try done.
  rewrite !orb_true_iff, !andb_true_iff, !N.ltb_lt, !N.eqb_eq.
  intros [?|[E ?]] [?|[E' ?]]; [left; lia|left; lia|left; lia|].
  right. split; [congruence|eauto].
Qed.

Lemma str_lt_total a b : str_lt a b \/ a = b \/ str_lt b a.
Proof.
  unfold str_lt. revert b. induction a as [|x a IH]; intros [|y b]; simpl; auto.
  rewrite !orb_true_iff, !andb_true_iff, !N.ltb_lt, !N.eqb_eq.
  destruct (N.lt_total (Ascii.N_of_ascii x) (Ascii.N_of_ascii y)) as [?|[E|?]];
    [auto| |auto].
  assert (x = y) as ->.
  { rewrite <- (Ascii.ascii_N_embedding x), <- (Ascii.ascii_N_embedding y). congruence. }
  destruct (IH b) as [?|[->|?]]; auto.
Qed.

Lemma str_ltb_false a b : str_ltb a b = false -> a = b \/ str_lt b a.
Proof.
  intros H. destruct (str_lt_total a b) as [?|[?|?]]; auto.
  unfold str_lt in *. congruence.
Qed.

#[global] Instance str_lt_dec a b : Decision (str_lt a b).
Proof. unfold str_lt. apply _. Defined.

(** *** Prefixes and the order *)

Lemma has_prefix_refl a : has_prefix a a = true.
Proof.
  unfold has_prefix. induction a as [|x a IH]; simpl; [done|].
  destruct (Ascii.ascii_dec x x); [exact IH|done].
Qed.

Lemma has_prefix_empty a : has_prefix "" a = true.
Proof. by destruct a. Qed.

Lemma has_prefix_cons x p y s :
  has_prefix (String x p) (String y s) = true <-> x = y /\ has_prefix p s = true.
Proof.
  unfold has_prefix. simpl. destruct (Ascii.ascii_dec x y); intuition congruence.
Qed.

(** A key with prefix [p] is not below [p]. *)
Lemma prefix_not_below p k : has_prefix p k = true -> str_ltb k p = false.
Proof.
  revert k. induction p as [|x p IH]; intros [|y k]; simpl; try done.
  rewrite has_prefix_cons. intros [-> H].
  rewrite N.ltb_irrefl, N.eqb_refl. simpl. auto.
Qed.

(** Once the order has moved past the keys with prefix [p], it never meets one
    again: the keys with a prefix are contiguous. *)
Lemma prefix_contiguous p k k' :
  str_ltb k p = false -> has_prefix p k = false -> str_lt k k' ->
  has_prefix p k' = false.
Proof.
  unfold str_lt. revert k k'.
  induction p as [|x p IH]; intros [|y k] [|z k']; simpl; try done.
  intros H1 H2 H3. apply not_true_iff_false. rewrite has_prefix_cons.
  intros [-> H4]. rewrite orb_false_iff, andb_false_iff in H1.
  rewrite N.ltb_ge, N.eqb_neq in H1.
  rewrite orb_true_iff, andb_true_iff, N.ltb_lt, N.eqb_eq in H3.
  destruct H1 as [H1 H1']. destruct H3 as [H3|[E H3]]; [lia|].
  assert (y = z) as ->.
  { rewrite <- (Ascii.ascii_N_embedding y), <- (Ascii.ascii_N_embedding z). congruence. }
  destruct H1' as [?|H1']; [done|].
  assert (has_prefix p k = false) as H5.
  { apply not_true_iff_false. intros E'. apply not_true_iff_false in H2. apply H2.
    apply has_prefix_cons. auto. }
  rewrite (IH k k') in H4; [done|assumption..].
Qed.

#[export] Hint Resolve str_lt_trans prefix_not_below : omashu.

(** *** Lists *)

Lemma take_while_all {A} (f : A -> bool) l :
  Forall (fun x => f x = true) l -> take_while f l = l.
Proof. induction 1 as [|x l H _ IH]; simpl; [done|]. by rewrite H, IH. Qed.

Lemma take_while_none {A} (f : A -> bool) l :
  Forall (fun x => f x = false) l -> take_while f l = [].
Proof. destruct 1 as [|x l H _]; simpl; [done|]. by rewrite H. Qed.

Lemma take_while_filter {A} (p : A -> bool) (R : A -> A -> Prop) l : StronglySorted R l ->
  (forall x y, R x y -> p y = true -> p x = true) -> take_while p l = List.filter p l.
Proof.
  intros Hs Hp. induction Hs as [|x l Hs IH Hx]; [done|]. cbn [take_while List.filter].
  destruct (p x) eqn:E; [by rewrite IH|]. symmetry.
  rewrite Forall_forall in Hx. assert (forall y, y ∈ l -> p y = false) as Hn.
  { intros y Hy. destruct (p y) eqn:Ey; [|done]. by rewrite (Hp x y (Hx y Hy) Ey) in E. }
  clear -Hn. induction l as [|y l IH]; [done|]. cbn. rewrite Hn by left.
  apply IH. intros z Hz. apply Hn. by right.
Qed.

Lemma drop_while_filter {A} (p : A -> bool) (R : A -> A -> Prop) l : StronglySorted R l ->
  (forall x y, R x y -> p y = true -> p x = true) -> drop_while p l = List.filter (fun x => negb (p x)) l.
Proof.
  intros Hs Hp. induction Hs as [|x l Hs IH Hx]; [done|]. cbn [drop_while List.filter].
  destruct (p x) eqn:E; [done|]. cbn [negb]. f_equal. rewrite Forall_forall in Hx.
  assert (forall y, y ∈ l -> p y = false) as Hn.
  { intros y Hy. destruct (p y) eqn:Ey; [|done]. by rewrite (Hp x y (Hx y Hy) Ey) in E. }
  clear -Hn. induction l as [|y l IH]; [done|]. cbn. rewrite Hn by left. cbn. f_equal.
  apply IH. intros z Hz. apply Hn. by right.
Qed.

Lemma drop_while_suffix {A} (f : A -> bool) l : exists pre, l = pre ++ drop_while f l.
Proof.
  induction l as [|x l [pre IH]]; simpl; [by exists []|].
  destruct (f x); [exists (x :: pre); simpl; congruence|by exists []].
Qed.

Lemma length_drop_while {A} (f : A -> bool) l : (length (drop_while f l) <= length l)%nat.
Proof. induction l as [|x l IH]; simpl; [lia|]. destruct (f x); simpl; lia. Qed.

(** *** Bit operations on disjoint fields *)

(** Or-ing a field into the low [n] bits that a left shift cleared is an
    addition. *)
Lemma lor_shiftl_add a b n :
  0 <= n -> 0 <= b < 2 ^ n -> Z.lor (Z.shiftl a n) b = a * 2 ^ n + b.
Proof.
  intros Hn Hb. pose proof (Z.add_lor_land (Z.shiftl a n) b) as E.
  assert (Z.land (Z.shiftl a n) b = 0) as E0.
  { apply Z.bits_inj'. intros i Hi. rewrite Z.land_spec, Z.bits_0.
    destruct (Z.lt_ge_cases i n).
    - rewrite Z.shiftl_spec_low by lia. done.
    - rewrite <- (Z.mod_small b (2 ^ n)) by lia.
      rewrite Z.mod_pow2_bits_high by lia. apply andb_false_r. }
  rewrite E0, Z.shiftl_mul_pow2 in E by lia.
  rewrite Z.shiftl_mul_pow2 by lia. lia.
Qed.
