(* ===== verification/Errors.v ===== *)
(** * Error values

    The sentinel errors of [errors.go], the errors of BadgerDB the code
    compares with or returns, and the errors other calls make.  A Go [error]
    result is an [option error]: [None] is [nil]. *)

From S2P Require Import Prelude.

(** The errors of package [badger] that omashu names. *)
Inductive badger_error : Type :=
  | ErrKeyNotFound
  | ErrReadOnlyTxn
  | ErrDiscardedTxn
  | ErrEmptyKey
  | ErrConflict.

(** [errors.go], and the errors of the libraries. *)
Inductive error : Type :=
  | ErrMissingRaftConf
  | ErrMissingCluster
  | ErrMissingBaseDir
  | ErrMissingSchemaConfig
  | ErrNotLeader
  | ErrProposeTimeout
  | ErrBatchTooBig
  | ErrUnknownOp
  | ErrUnknownProtoMsg
  | BadgerError (e : badger_error)
  (** [ctx.Err()] of a cancelled context. *)
  | CtxErr
  (** Any other error: [errors.New], [fmt.Errorf] or a library's. *)
  | OtherError (msg : string).

#[global] Instance badger_error_eq_dec : EqDecision badger_error.
Proof. solve_decision. Defined.

#[global] Instance error_eq_dec : EqDecision error.
Proof. solve_decision. Defined.

(** [errors.Is(err, badger.ErrKeyNotFound)], and [err == badger.ErrKeyNotFound]. *)
Definition is_key_not_found (e : error) : bool :=
  match e with
  | BadgerError ErrKeyNotFound => true
  | _ => false
  end.

(** Go's results [(A, error)] whose value is used only without an error. *)
Definition result (A : Type) : Type := error + A.

(** An error ends the function. *)
#[global] Instance result_bind : MBind (sum error) := fun A B k m =>
  match m with inr a => k a | inl e => inl e end.
