(* ===== verification/Utils.v ===== *)
(** * utils/utils.go

    The big-endian conversion of counters and of the persisted timestamp
    bound, and the file helpers, over a file system whose paths are lists of
    names. *)

From S2P Require Import Prelude Errors.
From Stdlib Require Import Strings.Byte.

(** ** Bytes and integers *)

(** Go's conversion [byte(z)]. *)
Definition byte_of_Z (z : Z) : Byte.byte :=
  default Byte.x00 (Byte.of_N (Z.to_N (z mod 256))).

Definition Z_of_byte (b : Byte.byte) : Z := Z.of_N (Byte.to_N b).

(** [binary.BigEndian.PutUint64] into a fresh slice of 8 bytes. *)
Definition Uint64ToBytes (v : Z) : bytes :=
  map (fun s => byte_of_Z (Z.shiftr v s)) [56; 48; 40; 32; 24; 16; 8; 0].

(** The value of a big-endian byte string. *)
Definition be_value (b : bytes) : Z :=
  fold_left (fun acc x => Z.lor (Z.shiftl acc 8) (Z_of_byte x)) b 0.

(** [binary.BigEndian.Uint64] reads the first eight bytes, and panics when the
    slice is shorter. *)
Definition BytesToUint64 (b : bytes) : outcome Z :=
  if (length b <? 8)%nat
  then Panic "index out of range [7]"
  else Ret (be_value (take 8 b)).

(** ** Files *)

Module Files.

(** A path is the list of its names; a node of the tree is a directory or a
    file with its contents. *)
Definition path : Type := list string.

Inductive fnode : Type :=
  | FDir
  | FFile (content : bytes).

Definition fs : Type := gmap path fnode.

(** [os.Stat] followed by [info.IsDir()]. *)
Definition IsDirExists (f : fs) (p : path) : bool :=
  match f !! p with
  | Some FDir => true
  | _ => false
  end.

(** [os.Stat] succeeds. *)
Definition IsFileExists (f : fs) (p : path) : bool :=
  match f !! p with
  | Some _ => true
  | None => false
  end.

(** [os.MkdirAll]: make each parent in turn; a file in the way is an error. *)
Fixpoint mkdir_from (f : fs) (parent rest : path) : option error * fs :=
  match rest with
  | [] => (None, f)
  | n :: rest' =>
      let p := parent ++ [n] in
      match f !! p with
      | Some FDir => mkdir_from f p rest'
      | Some (FFile _) => (Some (OtherError "not a directory"), f)
      | None => mkdir_from (<[p := FDir]> f) p rest'
      end
  end.

Definition CreateDir (f : fs) (p : path) : option error * fs := mkdir_from f [] p.

Definition CreateDirIfNotExists (f : fs) (p : path) : option error * fs :=
  if negb (IsDirExists f p) then CreateDir f p else (None, f).

(** [os.OpenFile] with [O_CREATE|O_EXCL|O_WRONLY]: the file must not exist. *)
Definition CreateFile (f : fs) (p : path) : option error * fs :=
  if IsFileExists f p then (Some (OtherError "file exists"), f)
  else if IsDirExists f (removelast p) then (None, <[p := FFile []]> f)
  else (Some (OtherError "no such file or directory"), f).

(** [os.OpenFile] with [O_APPEND|O_WRONLY]: the file must exist. *)
Definition OpenFile (f : fs) (p : path) : option error * fs :=
  match f !! p with
  | Some (FFile _) => (None, f)
  | Some FDir => (Some (OtherError "is a directory"), f)
  | None => (Some (OtherError "no such file or directory"), f)
  end.

Definition CreateFileIfNotExists (f : fs) (p : path) : option error * fs :=
  if negb (IsFileExists f p) then CreateFile f p else OpenFile f p.

(** The name of [q] in [dir], when [q] is a child of [dir]. *)
Definition child_name (dir q : path) : option string :=
  match last q with
  | Some n => if decide (q = dir ++ [n]) then Some n else None
  | None => None
  end.

(** The entries of a directory, with whether each is a directory. *)
Definition dir_entries (f : fs) (dir : path) : list (string * bool) :=
  omap (fun '(q, nd) =>
          n ← child_name dir q;
          Some (n, match nd with FDir => true | FFile _ => false end))
       (map_to_list f).

(** [os.RemoveAll]: the path and everything below it. *)
Definition RemoveAll (f : fs) (p : path) : fs :=
  filter (fun '(q, _) => ~ (p `prefix_of` q)) f.

(** The loop of [RemoveMatchFile] over the entries. *)
Fixpoint remove_entries (f : fs) (dir : path) (remove : string -> bool)
    (es : list (string * bool)) : fs :=
  match es with
  | [] => f
  | (n, isdir) :: es' =>
      if isdir then remove_entries f dir remove es'
      else if remove n then remove_entries (RemoveAll f (dir ++ [n])) dir remove es'
      else remove_entries f dir remove es'
  end.

Definition RemoveMatchFile (f : fs) (dir : path) (remove : string -> bool)
    : option error * fs :=
  if IsDirExists f dir
  then (None, remove_entries f dir remove (dir_entries f dir))
  else (Some (OtherError "no such file or directory"), f).

End Files.

(** ** Lemmas *)

Lemma Z_of_byte_range b : 0 <= Z_of_byte b < 256.
Proof. unfold Z_of_byte. pose proof (Byte.to_N_bounded b). lia. Qed.

Lemma Z_of_byte_of_Z z : Z_of_byte (byte_of_Z z) = z mod 256.
Proof.
  unfold Z_of_byte, byte_of_Z. pose proof (Z.mod_pos_bound z 256 eq_refl).
  destruct (Byte.of_N (Z.to_N (z mod 256))) eqn:E; simpl.
  - apply Byte.to_of_N in E. lia.
  - apply Byte.of_N_None_iff in E. lia.
Qed.

Lemma byte_of_Z_of_byte b : byte_of_Z (Z_of_byte b) = b.
Proof.
  unfold byte_of_Z. rewrite Z.mod_small by apply Z_of_byte_range.
  unfold Z_of_byte. rewrite N2Z.id, Byte.of_to_N. done.
Qed.

(** The value of eight bytes as a sum of powers of 256. *)
Lemma be_value_step a b : Z.lor (Z.shiftl a 8) (Z_of_byte b) = a * 256 + Z_of_byte b.
Proof. rewrite lor_shiftl_add; [reflexivity|lia|apply Z_of_byte_range]. Qed.

Lemma be_value_app b x : be_value (b ++ [x]) = be_value b * 256 + Z_of_byte x.
Proof. unfold be_value. rewrite fold_left_app. simpl. apply be_value_step. Qed.

Lemma be_value_range b : 0 <= be_value b < 256 ^ Z.of_nat (length b).
Proof.
  induction b as [|x b IH] using rev_ind; [done|].
  rewrite be_value_app, length_app. simpl length.
  pose proof (Z_of_byte_range x).
  replace (Z.of_nat (length b + 1)) with (Z.succ (Z.of_nat (length b))) by lia.
  rewrite Z.pow_succ_r by lia. lia.
Qed.

Lemma Uint64ToBytes_length v : length (Uint64ToBytes v) = 8%nat.
Proof. reflexivity. Qed.

#[export] Hint Resolve Z_of_byte_range be_value_range : omashu.
#[export] Hint Rewrite Z_of_byte_of_Z byte_of_Z_of_byte : omashu.

(** Appending the next byte of [v] to its leading bytes. *)
Lemma shiftr_step v s t : 0 <= s -> t = s + 8 ->
  Z.shiftr v t * 256 + Z.shiftr v s mod 256 = Z.shiftr v s.
Proof.
  intros Hs ->. rewrite <- Z.shiftr_shiftr by lia.
  rewrite (Z.shiftr_div_pow2 (Z.shiftr v s)) by lia. change (2 ^ 8) with 256. div_lia.
Qed.

Lemma be_value_Uint64ToBytes v : is_u64 v -> be_value (Uint64ToBytes v) = v.
Proof.
  intros Hv. unfold be_value, Uint64ToBytes. simpl map. simpl fold_left.
  rewrite !be_value_step, !Z_of_byte_of_Z.
  assert (Z.shiftr v 64 = 0) as E.
  { rewrite Z.shiftr_div_pow2 by lia. apply Z.div_small. exact Hv. }
  rewrite <- E at 1.
  rewrite (shiftr_step v 56 64), (shiftr_step v 48 56), (shiftr_step v 40 48),
    (shiftr_step v 32 40), (shiftr_step v 24 32), (shiftr_step v 16 24),
    (shiftr_step v 8 16), (shiftr_step v 0 8) by lia.
  apply Z.shiftr_0_r.
Qed.

Lemma be_value_inj b c : length b = length c -> be_value b = be_value c -> b = c.
Proof.
  revert c. induction b as [|x b IH] using rev_ind; intros c Hl E.
  - by destruct c.
  - destruct c as [|y c _] using rev_ind; rewrite ?length_app in Hl; simpl in Hl; [lia|].
    rewrite !be_value_app in E.
    pose proof (Z_of_byte_range x). pose proof (Z_of_byte_range y).
    f_equal; [apply IH; lia|].
    rewrite <- (byte_of_Z_of_byte x), <- (byte_of_Z_of_byte y). do 2 f_equal. lia.
Qed.

Lemma Uint64ToBytes_be_value b : length b = 8%nat -> Uint64ToBytes (be_value b) = b.
Proof.
  intros Hl. apply be_value_inj; [by rewrite Hl|].
  apply be_value_Uint64ToBytes. pose proof (be_value_range b) as H.
  rewrite Hl in H. exact H.
Qed.

Lemma BytesToUint64_8 b : length b = 8%nat -> BytesToUint64 b = Ret (be_value b).
Proof. intros Hl. unfold BytesToUint64. rewrite Hl. simpl. by rewrite take_ge by lia. Qed.

Lemma BytesToUint64_Uint64ToBytes v : is_u64 v -> BytesToUint64 (Uint64ToBytes v) = Ret v.
Proof. intros Hv. rewrite BytesToUint64_8 by done. by rewrite be_value_Uint64ToBytes. Qed.

#[export] Hint Resolve BytesToUint64_Uint64ToBytes : omashu.
#[export] Hint Rewrite BytesToUint64_Uint64ToBytes using (assumption || word) : omashu.
