(* ===== verification/Mvcc.v ===== *)
(** * Multi-version histories

    The abstract state of a multi-version store: for each key the versions
    written, by commit timestamp.  This is the vocabulary in which the
    BadgerDB contract ([BadgerApi]) and the store's theorems are stated. *)

From S2P Require Import Prelude.

(** One version of a key: a value or a tombstone, and, if it has a time to
    live, the instant it was stored and the duration. *)
Record version := Version {
  ver_value : option bytes;
  ver_ttl : option (Z * Z)
}.

#[global] Instance version_eq_dec : EqDecision version.
Proof. solve_decision. Defined.

Definition tombstone : version := Version None None.

(** All versions of all keys, by commit timestamp. *)
Abbreviation history := (gmap string (gmap Z version)).

(** The newer of two candidates. *)
Definition newer (a b : option (Z * version)) : option (Z * version) :=
  match a, b with
  | Some (t, _), Some (t', _) => if t <? t' then b else a
  | None, _ => b
  | _, None => a
  end.

(** The version of one key that a read at [ts] sees: the newest one not after
    [ts]. *)
Definition latest (ts : Z) (vs : gmap Z version) : option (Z * version) :=
  map_fold (fun t v acc => newer acc (if t <=? ts then Some (t, v) else None)) None vs.

(** The versions a read at [ts] sees, tombstones included. *)
Definition snap_at (h : history) (ts : Z) : gmap string version :=
  omap (fun vs => snd <$> latest ts vs) h.

(** Record a transaction's writes as versions at its commit timestamp. *)
Definition add_versions (cts : Z) (ws : gmap string version) (h : history) : history :=
  merge (fun w old =>
           match w with
           | Some v => Some (<[cts := v]> (default ∅ old))
           | None => old
           end) ws h.

(** No version is newer than [c]. *)
Definition hist_le (h : history) (c : Z) : Prop :=
  forall k vs t v, h !! k = Some vs -> vs !! t = Some v -> t <= c.

(** ** What a read at a timestamp sees *)

Lemma latest_spec ts vs :
  match latest ts vs with
  | Some (t, v) => vs !! t = Some v /\ t <= ts /\
                   forall t' v', vs !! t' = Some v' -> t' <= ts -> t' <= t
  | None => forall t v, vs !! t = Some v -> ts < t
  end.
Proof.
  unfold latest.
  apply (map_fold_weak_ind (fun r vs =>
    match r with
    | Some (t, v) => vs !! t = Some v /\ t <= ts /\
                     forall t' v', vs !! t' = Some v' -> t' <= ts -> t' <= t
    | None => forall t v, vs !! t = Some v -> ts < t
    end)).
  - intros t v. by rewrite lookup_empty.
  - intros i x m r Hi IH.
    destruct (Z.leb_spec i ts); destruct r as [[t v]|]; simpl.
    + destruct IH as (Ht & Hle & Hmax). destruct (Z.ltb_spec t i).
      * split; [by rewrite lookup_insert_eq|]. split; [lia|]. intros t' v'.
        rewrite lookup_insert. case_decide; [lia|]. intros ? ?.
        specialize (Hmax t' v'). lia || (assert (t' <= t) by eauto; lia).
      * assert (i <> t) by (intros ->; congruence).
        split; [by rewrite lookup_insert_ne|]. split; [done|]. intros t' v'.
        rewrite lookup_insert. case_decide; [lia|eauto].
    + split; [by rewrite lookup_insert_eq|]. split; [lia|]. intros t' v'.
      rewrite lookup_insert. case_decide; [lia|]. intros ? ?.
      specialize (IH t' v' ltac:(done)). lia.
    + destruct IH as (Ht & Hle & Hmax). assert (i <> t) by lia.
      split; [by rewrite lookup_insert_ne|]. split; [done|]. intros t' v'.
      rewrite lookup_insert. case_decide; [lia|eauto].
    + intros t v. rewrite lookup_insert. case_decide; [lia|eauto].
Qed.

Lemma latest_Some ts vs t v :
  latest ts vs = Some (t, v) <->
  vs !! t = Some v /\ t <= ts /\ (forall t' v', vs !! t' = Some v' -> t' <= ts -> t' <= t).
Proof.
  pose proof (latest_spec ts vs) as H. split.
  - intros E. by rewrite E in H.
  - intros (H1 & H2 & H3). destruct (latest ts vs) as [[t' v']|].
    + destruct H as (H1' & H2' & H3').
      assert (t = t') as -> by (pose proof (H3 t' v' H1' H2'); pose proof (H3' t v H1 H2); lia).
      congruence.
    + specialize (H t v H1). lia.
Qed.

Lemma latest_None ts vs :
  latest ts vs = None <-> forall t v, vs !! t = Some v -> ts < t.
Proof.
  pose proof (latest_spec ts vs) as H. split.
  - intros E. by rewrite E in H.
  - intros H'. destruct (latest ts vs) as [[t v]|]; [|done].
    destruct H as (H1 & H2 & _). specialize (H' t v H1). lia.
Qed.

(** A version written after [ts] does not change a read at [ts]. *)
Lemma latest_insert_after ts c v vs :
  ts < c -> latest ts (<[c := v]> vs) = latest ts vs.
Proof.
  intros Hc. destruct (latest ts vs) as [[t w]|] eqn:E.
  - apply latest_Some in E as (H1 & H2 & H3). apply latest_Some.
    assert (c <> t) by lia. rewrite lookup_insert_ne by done. split; [done|].
    split; [done|]. intros t' v'. rewrite lookup_insert. case_decide; [lia|eauto].
  - rewrite latest_None in *. intros t w. rewrite lookup_insert.
    case_decide; [lia|eauto].
Qed.

(** A version with no newer one up to [ts] is what a read at [ts] sees. *)
Lemma latest_insert_newest ts c v vs :
  c <= ts -> (forall t w, vs !! t = Some w -> t <= ts -> t <= c) ->
  latest ts (<[c := v]> vs) = Some (c, v).
Proof.
  intros Hc Hn. apply latest_Some. split; [by rewrite lookup_insert_eq|].
  split; [done|]. intros t w. rewrite lookup_insert. case_decide; [lia|eauto].
Qed.

(** A version below one that is already there up to [ts] changes nothing. *)
Lemma latest_insert_older ts c v vs t w :
  vs !! t = Some w -> c < t <= ts -> latest ts (<[c := v]> vs) = latest ts vs.
Proof.
  intros Ht Hc. destruct (latest ts vs) as [[t0 w0]|] eqn:E.
  - apply latest_Some in E as (H1 & H2 & H3).
    pose proof (H3 t w Ht ltac:(lia)). apply latest_Some.
    rewrite lookup_insert_ne by lia. split; [done|]. split; [done|].
    intros t' v'. rewrite lookup_insert. case_decide; [lia|eauto].
  - pose proof (proj1 (latest_None ts vs) E _ _ Ht). lia.
Qed.

(** ** Lookups *)

Lemma lookup_snap_at h ts k :
  snap_at h ts !! k = vs ← h !! k; snd <$> latest ts vs.
Proof. apply lookup_omap. Qed.

Lemma lookup_add_versions c ws (h : history) k :
  add_versions c ws h !! k =
  match ws !! k with
  | Some v => Some (<[c := v]> (default ∅ (h !! k)))
  | None => h !! k
  end.
Proof.
  unfold add_versions. rewrite lookup_merge.
  destruct (ws !! k), (h !! k); done.
Qed.

Lemma add_versions_empty c h : add_versions c ∅ h = h.
Proof. apply map_eq. intros k. by rewrite lookup_add_versions, lookup_empty. Qed.

(** Recording the same writes twice is recording them once. *)
Lemma add_versions_idem c ws h :
  add_versions c ws (add_versions c ws h) = add_versions c ws h.
Proof.
  apply map_eq. intros k. rewrite !lookup_add_versions.
  destruct (ws !! k); [|done]. simpl. by rewrite insert_insert_eq.
Qed.

(** Commits at different timestamps commute. *)
Lemma add_versions_comm c c' ws ws' h : c <> c' ->
  add_versions c ws (add_versions c' ws' h) = add_versions c' ws' (add_versions c ws h).
Proof.
  intros Hne. apply map_eq. intros k. rewrite !lookup_add_versions.
  destruct (ws !! k) as [v|], (ws' !! k) as [v'|]; try done.
  simpl. by rewrite insert_insert_ne.
Qed.

(** Commits after [ts] do not change a read at [ts]. *)
Lemma snap_at_add_after h c ws ts : ts < c ->
  snap_at (add_versions c ws h) ts = snap_at h ts.
Proof.
  intros Hc. apply map_eq. intros k. rewrite !lookup_snap_at, lookup_add_versions.
  destruct (ws !! k) as [v|]; [|done]. simpl. rewrite latest_insert_after by done.
  destruct (h !! k) as [vs|]; simpl; [done|].
  destruct (latest ts ∅) as [[t w]|] eqn:E; [|done].
  by apply latest_Some in E as [? _].
Qed.

(** A commit newer than every version is what reads from it on see. *)
Lemma snap_at_add_newest h c ws ts : hist_le h c -> c <= ts ->
  snap_at (add_versions c ws h) ts = ws ∪ snap_at h ts.
Proof.
  intros Hh Hc. apply map_eq. intros k.
  rewrite lookup_union, !lookup_snap_at, lookup_add_versions.
  destruct (ws !! k) as [v|]; simpl.
  - rewrite latest_insert_newest; [|done|].
    + simpl. by destruct (h !! k ≫= _).
    + intros t w Ht _. destruct (h !! k) as [vs|] eqn:E; simpl in Ht; [eauto|].
      by rewrite lookup_empty in Ht.
  - by rewrite (left_id_L None _).
Qed.

Lemma hist_le_add h c c' ws :
  hist_le h c -> c <= c' -> hist_le (add_versions c' ws h) c'.
Proof.
  intros Hh Hc k vs t v. rewrite lookup_add_versions.
  destruct (ws !! k) as [w|].
  - intros [= <-]. rewrite lookup_insert. case_decide; [lia|].
    destruct (h !! k) as [vs0|] eqn:E; simpl; [|by rewrite lookup_empty].
    intros Ht. specialize (Hh _ _ _ _ E Ht). lia.
  - intros E Ht. specialize (Hh _ _ _ _ E Ht). lia.
Qed.

Lemma hist_le_mono h c c' : hist_le h c -> c <= c' -> hist_le h c'.
Proof. intros Hh Hc k vs t v Hk Ht. specialize (Hh _ _ _ _ Hk Ht). lia. Qed.

Lemma hist_le_empty c : hist_le ∅ c.
Proof. intros k vs t v. by rewrite lookup_empty. Qed.

(** Reads after the last version see the same. *)
Lemma snap_at_settled h t r r' : hist_le h t -> t <= r -> t <= r' ->
  snap_at h r = snap_at h r'.
Proof.
  intros Hh Hr Hr'. apply map_eq. intros k. rewrite !lookup_snap_at.
  destruct (h !! k) as [vs|] eqn:E; simpl; [|done].
  assert (latest r vs = latest r' vs) as ->; [|done].
  pose proof (latest_spec r vs) as Hx. pose proof (latest_spec r' vs) as Hy.
  destruct (latest r vs) as [[a v]|], (latest r' vs) as [[a' v']|]; try done.
  - destruct Hx as (Ha & _ & Hm), Hy as (Ha' & _ & Hm').
    pose proof (Hh _ _ _ _ E Ha). pose proof (Hh _ _ _ _ E Ha').
    assert (a <= a') by (eapply Hm'; [done|lia]).
    assert (a' <= a) by (eapply Hm; [done|lia]).
    assert (a = a') as -> by lia. congruence.
  - destruct Hx as (Ha & _). pose proof (Hy _ _ Ha). pose proof (Hh _ _ _ _ E Ha). lia.
  - destruct Hy as (Ha & _). pose proof (Hx _ _ Ha). pose proof (Hh _ _ _ _ E Ha). lia.
Qed.

#[export] Hint Resolve hist_le_empty hist_le_add : omashu.
#[export] Hint Rewrite @add_versions_empty @add_versions_idem : omashu.
