(* ===== verification/BadgerApi.v ===== *)
(** * The BadgerDB interface

    BadgerDB is a library outside the repository.  Its operations that omashu
    calls are the class [BadgerAPI]; [BadgerLaws] states what its
    documentation promises of them, in terms of an abstract multi-version
    state ([history]).  [MemBadger] is a small in-memory instance: it shows
    that the laws can hold together and lets the model be run on concrete
    inputs. *)

From S2P Require Import Prelude Errors Mvcc.

(** ** The operations *)

(** [badger.NewEntry] and [Entry.WithTTL]. *)
Record entry := Entry {
  e_key : string;
  e_value : bytes;
  e_ttl : option Z
}.

Definition NewEntry (k : string) (v : bytes) : entry := Entry k v None.
Definition WithTTL (d : Z) (e : entry) : entry := Entry (e_key e) (e_value e) (Some d).

Class BadgerAPI := {
  DB : Type;
  BTxn : Type;
  Iter : Type;
  Item : Type;

  (** [ttl_live set d now]: an entry stored at [set] with time to live [d] has
      not expired at [now]. *)
  ttl_live : Z -> Z -> Z -> bool;
  (** Keys Badger accepts (non-empty, of legal size and not reserved). *)
  key_ok : string -> bool;
  (** The option [DetectConflicts] the database was opened with. *)
  detect_conflicts : DB -> bool;

  DB_NewTransaction : DB -> bool -> BTxn;
  DB_NewTransactionAt : DB -> Z -> bool -> BTxn;
  Txn_Get : Z -> BTxn -> string -> BTxn * result Item;
  Txn_SetEntry : Z -> BTxn -> entry -> BTxn * option error;
  Txn_Delete : BTxn -> string -> BTxn * option error;
  Txn_Commit : DB -> BTxn -> DB * option error;
  Txn_CommitAt : DB -> BTxn -> Z -> DB * option error;

  NewIterator : Z -> BTxn -> bool -> BTxn * Iter;
  It_Seek : Iter -> string -> Iter;
  It_ValidForPrefix : Iter -> string -> bool;
  It_Next : Iter -> Iter;
  It_Item : Iter -> option Item;
  Item_Key : Item -> string;
  Item_ValueCopy : Item -> result bytes;

  DB_Backup : DB -> Z -> result (Z * bytes);
  DB_Load : DB -> bytes -> nat -> DB * option error;
  DB_DropAll : DB -> DB * option error;

  (** What a database, a transaction and an iterator stand for. *)
  hist : DB -> history;
  txn_hist : BTxn -> history;
  txn_snap : BTxn -> gmap string version;
  txn_pending : BTxn -> gmap string version;
  txn_update : BTxn -> bool;
  It_all : Iter -> list Item;
  It_rest : Iter -> list Item
}.

(** ** Derived notions *)

Section Views.
Context `{BadgerAPI}.

(** What a reader at instant [now] gets from a version. *)
Definition live (now : Z) (v : version) : option bytes :=
  match ver_ttl v with
  | Some (set, d) => if ttl_live set d now then ver_value v else None
  | None => ver_value v
  end.

(** The key-value map a transaction sees: its own writes over its snapshot. *)
Definition txn_view (now : Z) (t : BTxn) : gmap string bytes :=
  omap (live now) (txn_pending t ∪ txn_snap t).

(** The key-value map a reader at [ts] sees. *)
Definition view_at (now : Z) (h : history) (ts : Z) : gmap string bytes :=
  omap (live now) (snap_at h ts).

(** The current contents. *)
Definition view (now : Z) (db : DB) : gmap string bytes := view_at now (hist db) max_u64.

(** Two transactions that stand for the same thing: reads leave a transaction
    so. *)
Definition same_txn (t t' : BTxn) : Prop :=
  txn_hist t' = txn_hist t /\ txn_snap t' = txn_snap t /\
  txn_pending t' = txn_pending t /\ txn_update t' = txn_update t.

(** [t'] is [t] with the write of [v] at [k]. *)
Definition wrote (t t' : BTxn) (k : string) (v : version) : Prop :=
  txn_hist t' = txn_hist t /\ txn_snap t' = txn_snap t /\
  txn_pending t' = <[k := v]> (txn_pending t) /\ txn_update t' = txn_update t.

(** The version an entry stored at [now] becomes. *)
Definition entry_version (now : Z) (e : entry) : version :=
  Version (Some (e_value e)) ((fun d => (now, d)) <$> e_ttl e).

(** [DB.View]: run a function in a read-only transaction at the latest
    timestamp and relay its result. *)
Definition DB_View {A} (db : DB) (f : M BTxn A) : outcome A :=
  snd <$> f (DB_NewTransaction db false).

(** [DB.Update]: run a function in a read-write transaction; commit unless it
    returns an error, which is relayed. *)
Definition DB_Update (db : DB) (f : M BTxn (option error)) : outcome (DB * option error) :=
  match f (DB_NewTransaction db true) with
  | Ret (t, None) => Ret (Txn_Commit db t)
  | Ret (_, Some e) => Ret (db, Some e)
  | Panic s => Panic s
  | Hang => Hang
  end.

End Views.

(** ** What Badger promises *)

Class BadgerLaws `{B : BadgerAPI} : Prop := {
  key_ok_empty : key_ok "" = false;

  new_txn : forall db u,
    txn_hist (DB_NewTransaction db u) = hist db /\
    txn_snap (DB_NewTransaction db u) = snap_at (hist db) max_u64 /\
    txn_pending (DB_NewTransaction db u) = ∅ /\
    txn_update (DB_NewTransaction db u) = u;

  new_txn_at : forall db ts u,
    txn_hist (DB_NewTransactionAt db ts u) = hist db /\
    txn_snap (DB_NewTransactionAt db ts u) = snap_at (hist db) ts /\
    txn_pending (DB_NewTransactionAt db ts u) = ∅ /\
    txn_update (DB_NewTransactionAt db ts u) = u;

  (** A read of a legal key gives the value the transaction sees. *)
  txn_get_ok : forall now t k, key_ok k = true ->
    match Txn_Get now t k, txn_view now t !! k with
    | (t', inl e), None => same_txn t t' /\ e = BadgerError ErrKeyNotFound
    | (t', inr it), Some v => same_txn t t' /\ Item_ValueCopy it = inr v
    | _, _ => False
    end;

  txn_set_ok : forall now t e, txn_update t = true -> key_ok (e_key e) = true ->
    exists t', Txn_SetEntry now t e = (t', None) /\
               wrote t t' (e_key e) (entry_version now e);
  txn_set_readonly : forall now t e, txn_update t = false ->
    Txn_SetEntry now t e = (t, Some (BadgerError ErrReadOnlyTxn));
  txn_set_empty : forall now t e, txn_update t = true -> e_key e = "" ->
    Txn_SetEntry now t e = (t, Some (BadgerError ErrEmptyKey));

  txn_delete_ok : forall t k, txn_update t = true -> key_ok k = true ->
    exists t', Txn_Delete t k = (t', None) /\ wrote t t' k tombstone;
  txn_delete_readonly : forall t k, txn_update t = false ->
    Txn_Delete t k = (t, Some (BadgerError ErrReadOnlyTxn));
  txn_delete_empty : forall t, txn_update t = true ->
    Txn_Delete t "" = (t, Some (BadgerError ErrEmptyKey));

  (** With no other commit since the transaction began, a commit succeeds and
      its writes become the latest versions. *)
  commit_ok : forall db t, txn_hist t = hist db ->
    exists db', Txn_Commit db t = (db', None) /\
      snap_at (hist db') max_u64 = txn_pending t ∪ snap_at (hist db) max_u64 /\
      detect_conflicts db' = detect_conflicts db;

  (** A managed commit records the writes at the given timestamp. *)
  commit_at_ok : forall db t cts, detect_conflicts db = false ->
    exists db', Txn_CommitAt db t cts = (db', None) /\
      hist db' = add_versions cts (txn_pending t) (hist db) /\
      detect_conflicts db' = false;

  (** An iterator goes over what its transaction sees, in key order. *)
  iter_same : forall now t pf, same_txn t (fst (NewIterator now t pf));
  iter_sorted : forall now t pf,
    StronglySorted str_lt (map Item_Key (It_all (snd (NewIterator now t pf))));
  iter_items : forall now t pf k v,
    txn_view now t !! k = Some v <->
    exists it, it ∈ It_all (snd (NewIterator now t pf)) /\
               Item_Key it = k /\ Item_ValueCopy it = inr v;
  iter_values : forall now t pf it, it ∈ It_all (snd (NewIterator now t pf)) ->
    key_ok (Item_Key it) = true /\ exists v, Item_ValueCopy it = inr v;
  seek_all : forall it k, It_all (It_Seek it k) = It_all it;
  seek_rest : forall it k,
    It_rest (It_Seek it k) = drop_while (fun x => str_ltb (Item_Key x) k) (It_all it);
  next_rest : forall it, It_rest (It_Next it) = tail (It_rest it);
  valid_prefix : forall it p,
    It_ValidForPrefix it p =
      match It_rest it with x :: _ => has_prefix p (Item_Key x) | [] => false end;
  item_rest : forall it, It_Item it = head (It_rest it);

  (** A full backup loaded into an empty database gives, from its last version
      on, the same contents, and no version that was not backed up. *)
  drop_all_ok : forall db, exists db', DB_DropAll db = (db', None) /\ hist db' = ∅ /\
    detect_conflicts db' = detect_conflicts db;
  backup_ok : forall db, exists upto data,
    DB_Backup db 0 = inr (upto, data) /\ upto <= max_u64;
  load_ok : forall db upto data db0 n, DB_Backup db 0 = inr (upto, data) ->
    hist db0 = ∅ ->
    exists db', DB_Load db0 data n = (db', None) /\
      (forall now ts, upto <= ts -> view_at now (hist db') ts = view_at now (hist db) ts) /\
      (forall k vs t v, hist db' !! k = Some vs -> vs !! t = Some v ->
         exists vs0, hist db !! k = Some vs0 /\ vs0 !! t = Some v) /\
      detect_conflicts db' = detect_conflicts db0
}.
