(* ===== verification/Codecs.v ===== *)
(** * The JSON and Protobuf libraries, and types/dynamic.go

    [encoding/json] and [google.golang.org/protobuf] enter as interfaces: the
    operations the code calls, and what their documentation promises.  On top
    of the Protobuf interface, [types/dynamic.go]: the process-wide descriptor
    store and the merge of a delta into a stored message. *)

From S2P Require Import Prelude Errors.

(** ** JSON *)

Class JsonLib := {
  (** A decoded JSON value ([any]). *)
  any : Type;
  (** [json.Unmarshal] into a [map[string]any]; [None] is the nil map, which
      the document [null] leaves. *)
  json_Unmarshal : bytes -> result (option (gmap string any));
  (** [json.Marshal] of a [map[string]any]. *)
  json_Marshal : option (gmap string any) -> result bytes
}.

Class JsonLaws `{J : JsonLib} : Prop := {
  (** What was marshalled unmarshals to the same map. *)
  json_roundtrip : forall m b, json_Marshal m = inr b -> json_Unmarshal b = inr m
}.

(** ** Protobuf *)

Class ProtoLib := {
  Message : Type;
  FieldDescriptor : Type;
  Descriptor : Type;
  GoType : Type;
  descriptor_eq_dec :: EqDecision Descriptor;
  gotype_eq_dec :: EqDecision GoType;
  field_eq_dec :: EqDecision FieldDescriptor;

  (** [reflect.TypeOf], [ProtoReflect().Descriptor()] and [proto.MessageName]. *)
  TypeOf : Message -> GoType;
  msg_Descriptor : Message -> Descriptor;
  MessageName : Message -> string;
  (** The populated fields, in the order [Range] visits them. *)
  msg_Range : Message -> list FieldDescriptor;
  fd_IsList : FieldDescriptor -> bool;
  (** [Mutable(fd).List().Truncate(0)]. *)
  msg_TruncateList : Message -> FieldDescriptor -> Message;
  proto_Merge : Message -> Message -> Message;
  proto_Clone : Message -> Message;
  proto_Reset : Message -> Message;
  proto_Marshal : Message -> result bytes;
  (** [proto.Unmarshal(b, m)]: decode [b] as a message of the type of [m]. *)
  proto_Unmarshal : bytes -> Message -> result Message;

  (** [FileDescriptorSet], [protodesc.NewFiles] and [FindDescriptorByName]:
      [inr None] is [protoregistry.NotFound], and a descriptor that is not a
      message's is [inr (Some None)]. *)
  FileDescriptorSet : Type;
  Files : Type;
  protodesc_NewFiles : FileDescriptorSet -> result Files;
  FindDescriptorByName : Files -> string -> result (option (option Descriptor));
  dynamicpb_NewMessage : Descriptor -> Message;

  (** The elements of a list field. *)
  field_elem : Type;
  msg_List : Message -> FieldDescriptor -> list field_elem;
  (** The value of a field that is not a list. *)
  field_value : Type;
  msg_Value : Message -> FieldDescriptor -> field_value
}.

Class ProtoLaws `{P : ProtoLib} : Prop := {
  (** Truncating a list empties it and leaves the rest of the message. *)
  truncate_list_same : forall m fd, fd_IsList fd = true ->
    msg_List (msg_TruncateList m fd) fd = [];
  truncate_list_other : forall m fd fd', fd <> fd' ->
    msg_List (msg_TruncateList m fd) fd' = msg_List m fd';
  truncate_value : forall m fd fd',
    msg_Value (msg_TruncateList m fd) fd' = msg_Value m fd';
  truncate_descriptor : forall m fd,
    msg_Descriptor (msg_TruncateList m fd) = msg_Descriptor m;
  (** A list field that [Range] does not visit is empty. *)
  range_list : forall m fd, fd_IsList fd = true -> fd ∉ msg_Range m -> msg_List m fd = [];
  (** [proto.Merge] appends lists. *)
  merge_list : forall a b fd, fd_IsList fd = true ->
    msg_List (proto_Merge a b) fd = msg_List a fd ++ msg_List b fd
}.

(** ** types/dynamic.go *)

Module Dynamic.
Section WithProto.
Context `{ProtoLib}.

Definition protoDescriptorStore : Type := list FileDescriptorSet.

(** The package-level singleton, [nil] until the first call; [once.Do] makes
    later calls no-ops. *)
Definition NewProtoDescriptorStore (cache : option protoDescriptorStore)
    (set : list FileDescriptorSet) : option protoDescriptorStore :=
  match cache with
  | Some s => Some s
  | None => Some set
  end.

Definition GetProtoDescriptorStore (cache : option protoDescriptorStore)
    : option protoDescriptorStore := cache.

(** Methods of a nil [*protoDescriptorStore] read [p.store] and panic. *)
Definition with_store {A} (p : option protoDescriptorStore)
    (f : protoDescriptorStore -> A) : outcome A :=
  match p with
  | Some s => Ret (f s)
  | None => Panic "nil pointer dereference"
  end.

Fixpoint IsValidMessage_loop (store : list FileDescriptorSet) (msgName : string)
    : result bool :=
  match store with
  | [] => inr false
  | set :: store' =>
      match protodesc_NewFiles set with
      | inl err => inl err
      | inr files =>
          match FindDescriptorByName files msgName with
          | inl err => inl err
          | inr None => IsValidMessage_loop store' msgName
          | inr (Some (Some _)) => inr true
          | inr (Some None) => IsValidMessage_loop store' msgName
          end
      end
  end.

Definition IsValidMessage (p : option protoDescriptorStore) (msgName : string)
    : outcome (result bool) :=
  with_store p (fun s => IsValidMessage_loop s msgName).

Fixpoint GetMessage_loop (store : list FileDescriptorSet) (msgName : string)
    : result Message :=
  match store with
  | [] => inl (OtherError "proto: not found")
  | set :: store' =>
      match protodesc_NewFiles set with
      | inl err => inl err
      | inr files =>
          match FindDescriptorByName files msgName with
          | inl err => inl err
          | inr None => GetMessage_loop store' msgName
          | inr (Some (Some md)) => inr (dynamicpb_NewMessage md)
          | inr (Some None) => GetMessage_loop store' msgName
          end
      end
  end.

Definition GetMessageFromDescriptorSet (p : option protoDescriptorStore)
    (msgName : string) : outcome (result Message) :=
  with_store p (fun s => GetMessage_loop s msgName).

(** The closure that [Range] runs on each populated field of the delta. *)
Definition truncate_lists (original : Message) (fds : list FieldDescriptor) : Message :=
  fold_left (fun m fd => if fd_IsList fd then msg_TruncateList m fd else m) fds original.

Definition MergeProtobufMessages (original delta : Message) : result Message :=
  if decide (msg_Descriptor original = msg_Descriptor delta)
  then inr (proto_Merge (truncate_lists original (msg_Range delta)) delta)
  else inl (OtherError "message types do not match for merging").

Definition MergeProtoDelta (stored : bytes) (delta : Message) : result bytes :=
  let base := proto_Reset (proto_Clone delta) in
  if decide (TypeOf base = TypeOf delta) then
    match proto_Unmarshal stored base with
    | inl err => inl err
    | inr base' =>
        match MergeProtobufMessages base' delta with
        | inl err => inl err
        | inr merged => proto_Marshal merged
        end
    end
  else inl (OtherError "message types do not match for merging").

End WithProto.

(** *** Lemmas *)

Section Laws.
Context `{P : ProtoLib} `{!ProtoLaws}.

Lemma truncate_lists_list m fds fd : fd_IsList fd = true ->
  msg_List (truncate_lists m fds) fd =
  if decide (fd ∈ fds) then [] else msg_List m fd.
Proof.
  intros Hl. unfold truncate_lists. revert m.
  induction fds as [|x fds IH]; intros m; simpl; [done|].
  rewrite IH. destruct (decide (fd = x)) as [->|Hne].
  - rewrite Hl, (decide_True (P := x ∈ x :: fds)) by set_solver.
    rewrite truncate_list_same by done. by case_decide.
  - assert (msg_List (if fd_IsList x then msg_TruncateList m x else m) fd = msg_List m fd)
      as -> by (destruct (fd_IsList x); [by apply truncate_list_other|done]).
    destruct (decide (fd ∈ fds)), (decide (fd ∈ x :: fds)); set_solver.
Qed.

Lemma merge_list_field o d m fd :
  MergeProtobufMessages o d = inr m -> fd_IsList fd = true ->
  msg_List m fd = if decide (fd ∈ msg_Range d) then msg_List d fd else msg_List o fd.
Proof.
  unfold MergeProtobufMessages. case_decide; [|done]. intros [= <-] Hl.
  rewrite merge_list, truncate_lists_list by done. case_decide; [done|].
  rewrite (range_list d fd) by done. apply app_nil_r.
Qed.

End Laws.
End Dynamic.
