(* ===== verification/MemCodecs.v ===== *)
(** * Concrete codecs

    Instances of the JSON and Protobuf interfaces over generic encodings.
    Like [MemBadger] they are not models of the libraries: they show that the
    laws can hold and make the definitions runnable. *)

From S2P Require Import Prelude Errors Codecs.
From Stdlib Require Import Strings.Byte.

(** ** Bytes *)

#[global] Program Instance byte_countable : Countable Byte.byte :=
  inj_countable Byte.to_N Byte.of_N _.
Next Obligation. apply Byte.of_to_N. Qed.

Fixpoint pos_bytes (p : positive) : bytes :=
  match p with
  | xH => []
  | xO p' => Byte.x00 :: pos_bytes p'
  | xI p' => Byte.x01 :: pos_bytes p'
  end.

Fixpoint bytes_pos (b : bytes) : positive :=
  match b with
  | [] => xH
  | x :: b' => if decide (x = Byte.x00) then xO (bytes_pos b') else xI (bytes_pos b')
  end.

Lemma bytes_pos_bytes p : bytes_pos (pos_bytes p) = p.
Proof. induction p as [p IH|p IH|]; simpl; [by rewrite IH..|done]. Qed.

(** ** JSON: objects of numbers *)

#[global] Instance MemJson : JsonLib := {
  any := Z;
  json_Unmarshal := fun b =>
    match decode (bytes_pos b) with
    | Some m => inr m
    | None => inl (OtherError "invalid character")
    end;
  json_Marshal := fun m => inr (pos_bytes (encode m))
}.

#[global] Instance MemJsonLaws : JsonLaws (J := MemJson).
Proof.
  split. intros m b [= <-]. simpl. by rewrite bytes_pos_bytes, decode_encode.
Qed.

(** ** Protobuf: messages of numbers and lists of numbers *)

Record pmsg := PMsg {
  pm_desc : nat;
  pm_lists : gmap nat (list Z);
  pm_vals : gmap nat Z
}.

#[global] Program Instance pmsg_countable_eq : EqDecision pmsg.
Next Obligation. solve_decision. Defined.

#[global] Program Instance pmsg_countable : Countable pmsg :=
  inj_countable (fun m => (pm_desc m, pm_lists m, pm_vals m))
    (fun p => Some (PMsg p.1.1 p.1.2 p.2)) _.
Next Obligation. by intros []. Qed.

#[global] Instance MemProto : ProtoLib := {
  Message := pmsg;
  FieldDescriptor := bool * nat;
  Descriptor := nat;
  GoType := nat;
  TypeOf := pm_desc;
  msg_Descriptor := pm_desc;
  MessageName := fun m => if decide (pm_desc m = 0%nat) then "Counter" else "Other";
  msg_Range := fun m =>
    (pair true <$> (map_to_list (filter (fun kv => snd kv <> []) (pm_lists m))).*1)
    ++ (pair false <$> (map_to_list (pm_vals m)).*1);
  fd_IsList := fst;
  msg_TruncateList := fun m fd =>
    if fd.1 then PMsg (pm_desc m) (delete fd.2 (pm_lists m)) (pm_vals m) else m;
  proto_Merge := fun a b =>
    PMsg (pm_desc a) (union_with (fun x y => Some (x ++ y)) (pm_lists a) (pm_lists b))
         (pm_vals b ∪ pm_vals a);
  proto_Clone := fun m => m;
  proto_Reset := fun m => PMsg (pm_desc m) ∅ ∅;
  proto_Marshal := fun m => inr (pos_bytes (encode (pm_lists m, pm_vals m)));
  proto_Unmarshal := fun b m =>
    match decode (bytes_pos b) with
    | Some (l, v) => inr (PMsg (pm_desc m) l v)
    | None => inl (OtherError "cannot parse invalid wire-format data")
    end;
  FileDescriptorSet := list (string * option nat);
  Files := list (string * option nat);
  protodesc_NewFiles := inr;
  FindDescriptorByName := fun fs n =>
    inr (snd <$> head (filter (fun p => fst p = n) fs));
  dynamicpb_NewMessage := fun d => PMsg d ∅ ∅;
  field_elem := Z;
  msg_List := fun m fd => if fd.1 then default [] (pm_lists m !! fd.2) else [];
  field_value := option Z;
  msg_Value := fun m fd => if fd.1 then None else pm_vals m !! fd.2
}.

#[global] Instance MemProtoLaws : ProtoLaws (P := MemProto).
Proof.
  split; simpl.
  - intros m [b n]. simpl. intros ->. simpl. by rewrite lookup_delete_eq.
  - intros m [[] n] [[] n'] Hne; simpl; try done.
    by rewrite lookup_delete_ne by congruence.
  - by intros m [[] n] [[] n'].
  - by intros m [[] n].
  - intros m [b n]. simpl. intros -> Hni.
    destruct (pm_lists m !! n) as [l|] eqn:E; simpl; [|done].
    destruct l as [|x l]; [done|]. exfalso. apply Hni.
    apply elem_of_app. left. apply list_elem_of_fmap_2.
    apply list_elem_of_fmap. exists (n, x :: l). split; [done|].
    apply elem_of_map_to_list, map_lookup_filter_Some. done.
  - intros a b [[] n]; simpl; [|done]. intros _.
    rewrite lookup_union_with.
    destruct (pm_lists a !! n), (pm_lists b !! n); simpl; by rewrite ?app_nil_r.
Qed.
