(* ===== verification/MemBadger.v ===== *)
(** * An in-memory instance of the BadgerDB interface

    A direct implementation of [BadgerAPI] over histories.  It is not a model
    of BadgerDB's code: it shows that [BadgerLaws] is satisfiable, and it makes
    every definition that takes the interface runnable on concrete data. *)

From S2P Require Import Prelude Errors Mvcc BadgerApi MemCodecs.
From Stdlib Require Import Strings.Byte.

(** ** Serialisation of histories *)

#[global] Program Instance version_countable : Countable version :=
  inj_countable (fun v => (ver_value v, ver_ttl v)) (fun p => Some (Version p.1 p.2)) _.
Next Obligation. by intros []. Qed.

(** ** The instance *)

Record mem_db := MemDB { mem_hist : history; mem_detect : bool }.

Record mem_txn := MemTxn {
  mt_hist : history;
  mt_snap : gmap string version;
  mt_pending : gmap string version;
  mt_update : bool
}.

Record mem_iter := MemIter { mi_all : list (string * bytes); mi_rest : list (string * bytes) }.

Definition mem_live (now : Z) (v : version) : option bytes :=
  match ver_ttl v with
  | Some (set, d) => if now <? set + d then ver_value v else None
  | None => ver_value v
  end.

(** The map a transaction sees; the empty key is never a key. *)
Definition mem_view (now : Z) (t : mem_txn) : gmap string bytes :=
  omap (mem_live now) (delete "" (mt_pending t) ∪ delete "" (mt_snap t)).

Definition item_le (a b : string * bytes) : Prop := ~ str_lt (fst b) (fst a).

#[global] Instance item_le_dec a b : Decision (item_le a b).
Proof. unfold item_le. apply _. Defined.

Definition sorted_items (m : gmap string bytes) : list (string * bytes) :=
  merge_sort item_le (map_to_list m).

Definition mem_write (t : mem_txn) (k : string) (v : version) : mem_txn * option error :=
  if negb (mt_update t) then (t, Some (BadgerError ErrReadOnlyTxn))
  else if decide (k = "") then (t, Some (BadgerError ErrEmptyKey))
  else (MemTxn (mt_hist t) (mt_snap t) (<[k := v]> (mt_pending t)) (mt_update t), None).

Definition mem_begin (db : mem_db) (ts : Z) (u : bool) : mem_txn :=
  MemTxn (delete "" (mem_hist db)) (snap_at (delete "" (mem_hist db)) ts) ∅ u.

Definition mem_commit (db : mem_db) (t : mem_txn) (cts : Z) : mem_db * option error :=
  (MemDB (add_versions cts (delete "" (mt_pending t)) (mem_hist db)) (mem_detect db), None).

#[global] Instance MemBadger : BadgerAPI := {
  DB := mem_db;
  BTxn := mem_txn;
  Iter := mem_iter;
  Item := string * bytes;
  ttl_live := fun set d now => now <? set + d;
  key_ok := fun k => bool_decide (k <> "");
  detect_conflicts := mem_detect;
  DB_NewTransaction := fun db u => mem_begin db max_u64 u;
  DB_NewTransactionAt := fun db ts u => mem_begin db ts u;
  Txn_Get := fun now t k =>
    match mem_view now t !! k with
    | Some v => (t, inr (k, v))
    | None => (t, inl (BadgerError ErrKeyNotFound))
    end;
  Txn_SetEntry := fun now t e =>
    mem_write t (e_key e) (Version (Some (e_value e)) ((fun d => (now, d)) <$> e_ttl e));
  Txn_Delete := fun t k => mem_write t k tombstone;
  Txn_Commit := fun db t => mem_commit db t max_u64;
  Txn_CommitAt := fun db t cts => mem_commit db t cts;
  NewIterator := fun now t pf =>
    let items := sorted_items (mem_view now t) in (t, MemIter items items);
  It_Seek := fun it k =>
    MemIter (mi_all it) (drop_while (fun x => str_ltb (fst x) k) (mi_all it));
  It_ValidForPrefix := fun it p =>
    match mi_rest it with x :: _ => has_prefix p (fst x) | [] => false end;
  It_Next := fun it => MemIter (mi_all it) (tail (mi_rest it));
  It_Item := fun it => head (mi_rest it);
  Item_Key := fst;
  Item_ValueCopy := fun x => inr (snd x);
  DB_Backup := fun db since => inr (0, pos_bytes (encode (mem_hist db)));
  DB_Load := fun db data n =>
    match decode (bytes_pos data) with
    | Some h => (MemDB h (mem_detect db), None)
    | None => (db, Some (OtherError "corrupt backup"))
    end;
  DB_DropAll := fun db => (MemDB ∅ (mem_detect db), None);
  hist := fun db => delete "" (mem_hist db);
  txn_hist := mt_hist;
  txn_snap := fun t => delete "" (mt_snap t);
  txn_pending := fun t => delete "" (mt_pending t);
  txn_update := mt_update;
  It_all := mi_all;
  It_rest := mi_rest
}.

(** A database with one version, at [ts], of each of the given entries. *)
Definition mem_seed (ts : Z) (kvs : list (string * bytes)) (detect : bool) : mem_db :=
  MemDB (add_versions ts (list_to_map (prod_map id (fun v => Version (Some v) None) <$> kvs)) ∅)
        detect.

(** ** The laws hold *)

Lemma item_le_trans : Transitive item_le.
Proof.
  intros a b c Hab Hbc H. unfold item_le in *.
  destruct (str_lt_total (fst a) (fst b)) as [?|[E|?]]; [|congruence|done].
  apply Hbc. eauto using str_lt_trans.
Qed.

Lemma item_le_total : Total item_le.
Proof.
  intros a b. unfold item_le.
  destruct (decide (str_lt (fst b) (fst a))) as [H|H]; [|by left].
  right. intros H'. exact (str_lt_irrefl _ (str_lt_trans _ _ _ H H')).
Qed.

Lemma sorted_items_elem m k v : (k, v) ∈ sorted_items m <-> m !! k = Some v.
Proof.
  unfold sorted_items. rewrite merge_sort_Permutation. apply elem_of_map_to_list.
Qed.

Lemma sorted_items_sorted m : StronglySorted str_lt (map fst (sorted_items m)).
Proof.
  assert (StronglySorted item_le (sorted_items m)) as Hs.
  { apply StronglySorted_merge_sort; [apply item_le_trans|apply item_le_total]. }
  assert (NoDup (map fst (sorted_items m))) as Hn.
  { unfold sorted_items. change (map fst ?l) with (fst <$> l).
    rewrite merge_sort_Permutation. apply NoDup_fst_map_to_list. }
  induction Hs as [|x l Hs IH Hx]; simpl in *; [constructor|].
  apply NoDup_cons in Hn as [Hni Hn]. constructor; [auto|].
  apply Forall_map, Forall_forall. intros y Hy.
  rewrite Forall_forall in Hx. specialize (Hx y Hy). unfold item_le in Hx.
  destruct (str_lt_total (fst x) (fst y)) as [?|[E|?]]; [done| |done].
  exfalso. apply Hni. rewrite E. by apply list_elem_of_fmap_2.
Qed.

Lemma mem_view_empty_key now t : mem_view now t !! "" = None.
Proof.
  unfold mem_view. rewrite lookup_omap, lookup_union, !lookup_delete_eq. done.
Qed.

Lemma snap_at_delete (h : history) ts k :
  snap_at (delete k h) ts = delete k (snap_at h ts).
Proof.
  apply map_eq. intros j. rewrite lookup_snap_at, !lookup_delete.
  case_decide; [done|]. by rewrite lookup_snap_at.
Qed.

Lemma add_versions_delete c ws (h : history) k :
  delete k (add_versions c (delete k ws) h) = add_versions c (delete k ws) (delete k h).
Proof.
  apply map_eq. intros j. rewrite lookup_delete, !lookup_add_versions, !lookup_delete.
  by case_decide.
Qed.

Lemma delete_delete (m : gmap string version) k : delete k (delete k m) = delete k m.
Proof. apply map_eq. intros j. rewrite !lookup_delete. by case_decide. Qed.

Lemma mem_write_ok t k v : mt_update t = true -> k <> "" ->
  exists t', mem_write t k v = (t', None) /\ wrote (t : BTxn) (t' : BTxn) k v.
Proof.
  intros Hu Hk. unfold mem_write. rewrite Hu. simpl.
  rewrite decide_False by done. eexists. split; [done|].
  unfold wrote. simpl. by rewrite delete_insert_ne by done.
Qed.

(** A commit at the largest timestamp is what the latest reads see. *)
Lemma snap_at_add_max ws (h : history) :
  snap_at (add_versions max_u64 ws h) max_u64 = ws ∪ snap_at h max_u64.
Proof.
  apply map_eq. intros k.
  rewrite lookup_union, !lookup_snap_at, lookup_add_versions.
  destruct (ws !! k) as [v|]; simpl.
  - rewrite latest_insert_newest by (intros; lia). simpl. by destruct (h !! k ≫= _).
  - by rewrite (left_id_L None _).
Qed.

#[global] Instance MemBadgerLaws : BadgerLaws (B := MemBadger).
Proof.
  split; simpl.
  - reflexivity.
  - intros db u. repeat split; simpl;
      by rewrite ?snap_at_delete, ?delete_delete, ?delete_empty.
  - intros db ts u. repeat split; simpl;
      by rewrite ?snap_at_delete, ?delete_delete, ?delete_empty.
  - intros now t k _. change (@txn_view MemBadger now t) with (mem_view now t).
    destruct (mem_view now t !! k); simpl; repeat split; done.
  - intros now t e Hu Hk%bool_decide_eq_true. by apply mem_write_ok.
  - intros now t e Hu. unfold mem_write. by rewrite Hu.
  - intros now t e Hu Hk. unfold mem_write. rewrite Hu. simpl. by repeat case_decide.
  - intros t k Hu Hk%bool_decide_eq_true. by apply mem_write_ok.
  - intros t k Hu. unfold mem_write. by rewrite Hu.
  - intros t Hu. unfold mem_write. rewrite Hu. simpl. by repeat case_decide.
  - intros db t _. eexists. split; [done|]. split; [|done]. simpl.
    by rewrite add_versions_delete, snap_at_add_max.
  - intros db t cts Hd. eexists. split; [done|]. split; [|done]. simpl.
    apply add_versions_delete.
  - intros now t pf. repeat split.
  - intros now t pf. apply sorted_items_sorted.
  - intros now t pf k v. change (@txn_view MemBadger now t) with (mem_view now t).
    rewrite <- sorted_items_elem. split.
    + intros Hin. by exists (k, v).
    + intros ([k' v'] & Hin & E & E'). simpl in *. by simplify_eq.
  - intros now t pf [k v] Hin%sorted_items_elem. split; [|eauto].
    apply bool_decide_eq_true. simpl. intros ->.
    by rewrite mem_view_empty_key in Hin.
  - done.
  - done.
  - done.
  - done.
  - done.
  - intros db. eexists. split; [done|]. split; [|done]. simpl. apply delete_empty.
  - intros db. do 2 eexists. split; [done|]. unfold max_u64, two64. lia.
  - intros db upto data db0 n [= <- <-] _.
    rewrite bytes_pos_bytes, decode_encode. eexists. split; [done|]. split; [done|].
    split; [|done]. simpl. eauto.
Qed.
