(* ===== verification/Badger.v ===== *)
(** * badger.go: the single-node store

    Every operation of [Badger], over the BadgerDB interface.  A method that
    works inside a caller's transaction is a computation of [M BTxn]; one that
    opens its own takes the database and returns the new one. *)

From S2P Require Import Prelude Errors Utils Mvcc BadgerApi Codecs.

(** What the outside world answers while a call runs: the clock, and whether
    [ctx.Done()] is closed at the [i]-th time the call polls it. *)
Record env := Env {
  now : Z;
  ctx_done : nat -> bool
}.

(** How the body of an iteration ends. *)
Inductive ctrl (R : Type) : Type :=
  | Continue
  | Break
  | Return (r : R).
Arguments Continue {R}.
Arguments Break {R}.
Arguments Return {R} _.

Definition MaxBatchSize : nat := 100.

Module Badger.

(** The state of the paginated scan: the prefix the loop tests, the items
    counted, the cursor to return and the state of the callback. *)
Record scan (P : Type) := Scan {
  prefixBytes : string;
  iterNum : Z;
  nextCursor : string;
  callback : P
}.
Arguments Scan {P} _ _ _ _.
Arguments prefixBytes {P} _.
Arguments iterNum {P} _.
Arguments nextCursor {P} _.
Arguments callback {P} _.

Section WithBadger.
Context `{BadgerAPI}.

(** ** Iteration

    [for it.Seek(p); it.ValidForPrefix(p); it.Next() { body }]: [pfx s] is the
    prefix the loop tests, [i] counts the rounds. *)
Fixpoint iter_loop {S R} (fuel : nat) (pfx : S -> string)
    (body : nat -> Item -> S -> outcome (S * ctrl R)) (i : nat) (it : Iter) (s : S)
    : outcome (S * option R) :=
  match fuel with
  | O => Hang
  | Datatypes.S fuel' =>
      if It_ValidForPrefix it (pfx s) then
        match It_Item it with
        | None => Panic "nil item"
        | Some x =>
            match body i x s with
            | Ret (s', Continue) => iter_loop fuel' pfx body (Datatypes.S i) (It_Next it) s'
            | Ret (s', Break) => Ret (s', None)
            | Ret (s', Return r) => Ret (s', Some r)
            | Panic msg => Panic msg
            | Hang => Hang
            end
        end
      else Ret (s, None)
  end.

(** The iterator yields no more items than it holds. *)
Definition for_prefix {S R} (seek : string) (pfx : S -> string)
    (body : nat -> Item -> S -> outcome (S * ctrl R)) (it : Iter) (s : S)
    : outcome (S * option R) :=
  iter_loop (Datatypes.S (length (It_all it))) pfx body 0 (It_Seek it seek) s.

(** The [Badger] struct: the part of it that operations read or change. *)
Record store := Store {
  managed : bool;
  db : DB;
  (** [oracle != nil]. *)
  oracle_set : bool
}.

(** ** DBReadOps *)

Definition Count_loop (e : env) (prefix : string) : M BTxn (nat * option error) :=
  fun t =>
    let '(t', it) := NewIterator (now e) t false in
    r ← for_prefix prefix (fun _ => prefix)
          (fun i _ count =>
             Ret (if ctx_done e i then (count, Return CtxErr)
                  else (Datatypes.S count, Continue))) it 0%nat;
    Ret (t', r).

Definition Count (e : env) (b : store) (prefix : string) : outcome nat :=
  r ← DB_View (db b) (Count_loop e prefix);
  match r with
  | (_, Some _) => Ret 0%nat
  | (count, None) => Ret count
  end.

Definition Exists (e : env) (b : store) (key : string) : outcome bool :=
  DB_View (db b) (fun t =>
    let '(t', r) := Txn_Get (now e) t key in
    match r with
    | inl _ => Ret (t', false)
    | inr _ => Ret (t', true)
    end).

Definition HasChild (e : env) (b : store) (prefix : string) : outcome bool :=
  DB_View (db b) (fun t =>
    let '(t', it) := NewIterator (now e) t false in
    r ← for_prefix prefix (fun _ => prefix)
          (fun _ _ _ => Ret (true, @Return unit tt)) it false;
    Ret (t', fst r)).

(** [(value, found, err)]: [inr None] is a missing key. *)
Definition GetWithTxn (e : env) (key : string) : M BTxn (result (option bytes)) :=
  fun t =>
    let '(t', r) := Txn_Get (now e) t key in
    match r with
    | inl err => if is_key_not_found err then Ret (t', inr None) else Ret (t', inl err)
    | inr item =>
        match Item_ValueCopy item with
        | inl err => Ret (t', inl err)
        | inr value => Ret (t', inr (Some value))
        end
    end.

Definition Get (e : env) (b : store) (key : string) : outcome (result (option bytes)) :=
  DB_View (db b) (GetWithTxn e key).

Definition GetByPrefixWithTxn (e : env) (prefix : string)
    : M BTxn (result (gmap string bytes)) :=
  fun t =>
    let '(t', it) := NewIterator (now e) t true in
    r ← for_prefix prefix (fun _ => prefix)
          (fun i item result =>
             Ret (if ctx_done e i then (result, Return CtxErr)
                  else match Item_ValueCopy item with
                       | inl err => (result, Return err)
                       | inr v => (<[Item_Key item := v]> result, Continue)
                       end)) it ∅;
    Ret (t', match r with (result, None) => inr result | (_, Some err) => inl err end).

Definition GetByPrefix (e : env) (b : store) (prefix : string)
    : outcome (result (gmap string bytes)) :=
  DB_View (db b) (GetByPrefixWithTxn e prefix).

Definition GetKeysByPrefixWithTxn (e : env) (prefix : string)
    : M BTxn (result (list string)) :=
  fun t =>
    let '(t', it) := NewIterator (now e) t false in
    r ← for_prefix prefix (fun _ => prefix)
          (fun i item keys =>
             Ret (if ctx_done e i then (keys, Return CtxErr)
                  else (keys ++ [Item_Key item], Continue))) it [];
    Ret (t', match r with (keys, None) => inr keys | (_, Some err) => inl err end).

Definition GetKeysByPrefix (e : env) (b : store) (prefix : string)
    : outcome (result (list string)) :=
  DB_View (db b) (GetKeysByPrefixWithTxn e prefix).

(** The loop of [BulkGet] over the keys, polling the context at each. *)
Fixpoint BulkGet_loop (e : env) (i : nat) (keys : list string)
    (result : gmap string bytes) : M BTxn (gmap string bytes * option error) :=
  match keys with
  | [] => mret (result, None)
  | k :: keys' =>
      if ctx_done e i then mret (result, Some CtxErr)
      else
        r ← GetWithTxn e k;
        match r with
        | inl err => mret (result, Some err)
        | inr (Some value) => BulkGet_loop e (Datatypes.S i) keys' (<[k := value]> result)
        | inr None => BulkGet_loop e (Datatypes.S i) keys' result
        end
  end.

(** The map collected so far is returned with the error. *)
Definition BulkGet (e : env) (b : store) (keys : list string)
    : outcome (gmap string bytes * option error) :=
  DB_View (db b) (BulkGet_loop e 0 keys ∅).

Definition IterateByPrefix_body {P} (e : env) (prefix : string) (limit : option Z)
    (process : P -> string -> bytes -> P * bool) (i : nat) (item : Item) (s : scan P)
    : outcome (scan P * ctrl error) :=
  Ret (if ctx_done e i then (s, Return CtxErr)
       else
         let s := Scan prefix (iterNum s) (nextCursor s) (callback s) in
         let k := Item_Key item in
         let full := match limit with Some l => l <=? iterNum s | None => false end in
         if full then (Scan prefix (iterNum s) k (callback s), Break)
         else match Item_ValueCopy item with
              | inl err => (s, Return err)
              | inr v =>
                  let '(p, ok) := process (callback s) k v in
                  (Scan prefix (if ok : bool then iterNum s + 1 else iterNum s)
                        (nextCursor s) p, Continue)
              end).

(** [IterateByPrefix] with a callback whose effects are a state [P]; the
    result is the next cursor. *)
Definition IterateByPrefix {P} (e : env) (b : store) (prefix startCursor : string)
    (limit : option Z) (process : P -> string -> bytes -> P * bool) (p : P)
    : outcome (P * result string) :=
  r ← DB_View (db b) (fun t =>
    let '(t', it) := NewIterator (now e) t true in
    let start := if decide (startCursor = "") then prefix else startCursor in
    r ← for_prefix start prefixBytes (IterateByPrefix_body e prefix limit process) it
          (Scan start 0 "" p);
    Ret (t', r));
  Ret (match r with
       | (s, Some err) => (callback s, inl err)
       | (s, None) =>
           let exhausted := match limit with Some l => iterNum s <? l | None => false end in
           (callback s, inr (if exhausted then "" else nextCursor s))
       end).

(** ** DBWriteOps *)

Definition panic_managed {A} : outcome A := Panic "operation not supported in managed db".

(** [NewTransaction]: commit when the operations return no error. *)
Definition NewTransaction (b : store) (performOps : M BTxn (option error))
    : outcome (store * option error) :=
  match performOps (DB_NewTransaction (db b) true) with
  | Ret (_, Some err) => Ret (b, Some err)
  | Ret (txn, None) =>
      let '(db', err) := Txn_Commit (db b) txn in
      Ret (Store (managed b) db' (oracle_set b), err)
  | Panic msg => Panic msg
  | Hang => Hang
  end.

(** [bdb.db.Update]. *)
Definition Update (b : store) (f : M BTxn (option error)) : outcome (store * option error) :=
  '(db', err) ← DB_Update (db b) f;
  Ret (Store (managed b) db' (oracle_set b), err).

Definition SetWithTxn (e : env) (key : string) (value : bytes) (ttl : list Z)
    : M BTxn (option error) :=
  fun t =>
    let entry := NewEntry key value in
    let entry := match ttl with d :: _ => WithTTL d entry | [] => entry end in
    Ret (Txn_SetEntry (now e) t entry).

Definition Set_ (e : env) (b : store) (key : string) (value : bytes) (ttl : list Z)
    : outcome (store * option error) :=
  if managed b then panic_managed else Update b (SetWithTxn e key value ttl).

Definition DecrByWithTxn (e : env) (key : string) (delta : Z) : M BTxn (option error) :=
  r ← GetWithTxn e key;
  match r with
  | inl err => mret (Some err)
  | inr (Some b) =>
      currentVal ← lift (BytesToUint64 b);
      let delta := if currentVal <? delta then 0 else u64 (currentVal - delta) in
      SetWithTxn e key (Uint64ToBytes delta) []
  | inr None => SetWithTxn e key (Uint64ToBytes 0) []
  end.

Definition DecrBy (e : env) (b : store) (key : string) (delta : Z)
    : outcome (store * option error) :=
  if managed b then panic_managed else NewTransaction b (DecrByWithTxn e key delta).

Definition IncrByWithTxn (e : env) (key : string) (delta : Z) : M BTxn (option error) :=
  r ← GetWithTxn e key;
  match r with
  | inl err => mret (Some err)
  | inr (Some b) =>
      currentVal ← lift (BytesToUint64 b);
      SetWithTxn e key (Uint64ToBytes (u64 (currentVal + delta))) []
  | inr None => SetWithTxn e key (Uint64ToBytes delta) []
  end.

Definition IncrBy (e : env) (b : store) (key : string) (delta : Z)
    : outcome (store * option error) :=
  if managed b then panic_managed else NewTransaction b (IncrByWithTxn e key delta).

(** ** DBDeleteOps *)

Definition DeleteWithTxn (key : string) : M BTxn (option error) :=
  fun t => Ret (Txn_Delete t key).

Definition Delete (b : store) (key : string) : outcome (store * option error) :=
  if managed b then panic_managed
  else
    '(b', err) ← Update b (DeleteWithTxn key);
    match err with
    | None => Ret (b', None)
    | Some err => if is_key_not_found err then Ret (b', None) else Ret (b', Some err)
    end.

(** The body of the scan of [DeleteByPrefixWithTxn]: a cancelled context ends
    it with no error. *)
Definition delete_body (e : env) (i : nat) (item : Item) (txn : BTxn)
    : outcome (BTxn * ctrl (option error)) :=
  if ctx_done e i then Ret (txn, Return None)
  else
    '(txn', err) ← DeleteWithTxn (Item_Key item) txn;
    Ret (txn', match err with
               | None => Continue
               | Some err => if is_key_not_found err then Continue else Return (Some err)
               end).

Definition DeleteByPrefixWithTxn (e : env) (prefix : string) : M BTxn (option error) :=
  fun t =>
    let '(t', it) := NewIterator (now e) t false in
    r ← for_prefix prefix (fun _ => prefix) (delete_body e) it t';
    Ret (match r with (txn, Some err) => (txn, err) | (txn, None) => (txn, None) end).

Definition DeleteByPrefix (e : env) (b : store) (prefix : string)
    : outcome (store * option error) :=
  if managed b then panic_managed else Update b (DeleteByPrefixWithTxn e prefix).

(** ** Reads and writes at a timestamp *)

Definition newReadOnlyTransactionAt {A} (b : store) (readTs : Z) (performOps : M BTxn A)
    : outcome A :=
  snd <$> performOps (DB_NewTransactionAt (db b) readTs false).

Definition newTransactionAt (b : store) (readTs commitTs : Z)
    (performOps : M BTxn (option error)) : outcome (store * option error) :=
  match performOps (DB_NewTransactionAt (db b) readTs true) with
  | Ret (_, Some err) => Ret (b, Some err)
  | Ret (txn, None) =>
      let '(db', err) := Txn_CommitAt (db b) txn commitTs in
      Ret (Store (managed b) db' (oracle_set b), err)
  | Panic msg => Panic msg
  | Hang => Hang
  end.

(** [newReadonlyTransaction] commits a read-only transaction. *)
Definition newReadonlyTransaction (b : store) (performOps : M BTxn (option error))
    : outcome (store * option error) :=
  match performOps (DB_NewTransaction (db b) false) with
  | Ret (_, Some err) => Ret (b, Some err)
  | Ret (txn, None) =>
      let '(db', err) := Txn_Commit (db b) txn in
      Ret (Store (managed b) db' (oracle_set b), err)
  | Panic msg => Panic msg
  | Hang => Hang
  end.

Definition getKeysByPrefixAt (e : env) (b : store) (prefix : string) (readTs : Z)
    : outcome (result (list string)) :=
  newReadOnlyTransactionAt b readTs (GetKeysByPrefixWithTxn e prefix).

Definition getAt (e : env) (b : store) (key : string) (readTs : Z)
    : outcome (result (option bytes)) :=
  newReadOnlyTransactionAt b readTs (GetWithTxn e key).

Definition getByPrefixAt (e : env) (b : store) (prefix : string) (readTs : Z)
    : outcome (result (gmap string bytes)) :=
  newReadOnlyTransactionAt b readTs (GetByPrefixWithTxn e prefix).

Definition setOracle (b : store) : outcome store :=
  if negb (managed b) then Panic "operation not supported"
  else Ret (Store (managed b) (db b) true).

End WithBadger.

(** ** Partial updates *)

Section WithCodecs.
Context `{BadgerAPI} `{JsonLib} `{ProtoLib}.

(** [maps.Copy] into a nil map panics unless there is nothing to copy. *)
Definition maps_Copy (dst : option (gmap string any)) (src : gmap string any)
    : outcome (option (gmap string any)) :=
  match dst with
  | Some m => Ret (Some (src ∪ m))
  | None => if decide (src = ∅) then Ret None
            else Panic "assignment to entry in nil map"
  end.

Definition UpdateJsonWithTxn (e : env) (key : string) (delta : gmap string any)
    (ttl : list Z) : M BTxn (option error) :=
  r ← GetWithTxn e key;
  match r with
  | inl err => mret (Some err)
  | inr stored =>
      let full := match stored with
                  | Some fullMsgBytes => json_Unmarshal fullMsgBytes
                  | None => inr (Some ∅)
                  end in
      match full with
      | inl err => mret (Some err)
      | inr fullMsg =>
          merged ← lift (maps_Copy fullMsg delta);
          match json_Marshal merged with
          | inl err => mret (Some err)
          | inr mergedBytes => SetWithTxn e key mergedBytes ttl
          end
      end
  end.

Definition UpdateJson (e : env) (b : store) (key : string) (delta : gmap string any)
    (ttl : list Z) : outcome (store * option error) :=
  if managed b then panic_managed
  else NewTransaction b (UpdateJsonWithTxn e key delta ttl).

Definition UpdateProtobufWithTxn (e : env) (key : string) (delta : Message)
    (ttl : list Z) : M BTxn (option error) :=
  r ← GetWithTxn e key;
  match r with
  | inl err => mret (Some err)
  | inr stored =>
      let merged := match stored with
                    | Some fullMsgBytes => Dynamic.MergeProtoDelta fullMsgBytes delta
                    | None => proto_Marshal delta
                    end in
      match merged with
      | inl err => mret (Some err)
      | inr mergedBytes => SetWithTxn e key mergedBytes ttl
      end
  end.

Definition UpdateProtobuf (e : env) (b : store) (key : string) (delta : Message)
    (ttl : list Z) : outcome (store * option error) :=
  if managed b then panic_managed
  else NewTransaction b (UpdateProtobufWithTxn e key delta ttl).

End WithCodecs.

(** ** Iteration lemmas

    Under the laws an iterator loop is a loop over the list of the items left,
    so it never runs out of fuel. *)

Section Loops.
Context `{BadgerLaws}.

(** A loop body over a list of items, with the prefix test of the source. *)
Fixpoint list_loop {S R} (pfx : S -> string)
    (body : nat -> Item -> S -> outcome (S * ctrl R)) (i : nat) (l : list Item) (s : S)
    : outcome (S * option R) :=
  match l with
  | [] => Ret (s, None)
  | x :: l' =>
      if has_prefix (pfx s) (Item_Key x) then
        match body i x s with
        | Ret (s', Continue) => list_loop pfx body (Datatypes.S i) l' s'
        | Ret (s', Break) => Ret (s', None)
        | Ret (s', Return r) => Ret (s', Some r)
        | Panic msg => Panic msg
        | Hang => Hang
        end
      else Ret (s, None)
  end.

Lemma iter_loop_list {S R} fuel pfx (body : nat -> Item -> S -> outcome (S * ctrl R)) i it s :
  (length (It_rest it) < fuel)%nat ->
  iter_loop fuel pfx body i it s = list_loop pfx body i (It_rest it) s.
Proof.
  revert i it s. induction fuel as [|fuel IH]; intros i it s Hlen; [lia|].
  simpl. rewrite valid_prefix, item_rest.
  destruct (It_rest it) as [|x l] eqn:E; simpl in *; [done|].
  destruct (has_prefix _ _); [|done].
  destruct (body i x s) as [[s' []]| |]; try done.
  rewrite IH; rewrite next_rest, E; simpl; [done|lia].
Qed.

Lemma for_prefix_list {S R} seek pfx (body : nat -> Item -> S -> outcome (S * ctrl R)) it s :
  for_prefix seek pfx body it s =
  list_loop pfx body 0 (drop_while (fun x => str_ltb (Item_Key x) seek) (It_all it)) s.
Proof.
  unfold for_prefix. rewrite iter_loop_list; rewrite seek_rest; [done|].
  pose proof (length_drop_while (fun x => str_ltb (Item_Key x) seek) (It_all it)). lia.
Qed.

(** The items of an iterator whose key has prefix [p]. *)
Definition prefix_items (p : string) (l : list Item) : list Item :=
  filter (fun x => has_prefix p (Item_Key x) = true) l.

Lemma prefix_items_none p x l :
  Forall (str_lt (Item_Key x)) (map Item_Key l) ->
  str_ltb (Item_Key x) p = false -> has_prefix p (Item_Key x) = false ->
  prefix_items p l = [].
Proof.
  intros Hl H1 H2. unfold prefix_items. rewrite Forall_map in Hl.
  induction Hl as [|y l Hy _ IH]; [done|]. rewrite filter_cons, decide_False; [done|].
  simpl in Hy. rewrite (prefix_contiguous p (Item_Key x) (Item_Key y)) by assumption. done.
Qed.

(** The block of keys a prefix scan visits is all the keys with the prefix. *)
Lemma scan_block p l :
  StronglySorted str_lt (map Item_Key l) ->
  take_while (fun x => has_prefix p (Item_Key x))
    (drop_while (fun x => str_ltb (Item_Key x) p) l) = prefix_items p l.
Proof.
  induction l as [|x l IH]; simpl; [done|]. intros Hs.
  apply StronglySorted_inv in Hs as [Hs Hx]. unfold prefix_items in *.
  rewrite filter_cons. destruct (str_ltb (Item_Key x) p) eqn:Elt.
  - rewrite IH by assumption. rewrite decide_False; [done|].
    intros E. apply prefix_not_below in E. congruence.
  - simpl. destruct (has_prefix p (Item_Key x)) eqn:Ep.
    + rewrite decide_True by done. f_equal.
      rewrite <- IH by assumption. f_equal.
      destruct l as [|y l']; [done|]. simpl. simpl in Hx.
      apply Forall_cons in Hx as [Hy _].
      destruct (str_ltb (Item_Key y) p) eqn:Ey; [|done].
      assert (str_lt (Item_Key x) p) as Hxp by eauto using str_lt_trans.
      unfold str_lt in Hxp. congruence.
    + rewrite decide_False by done. symmetry. by apply prefix_items_none with x.
Qed.

(** A loop whose body never breaks or returns is a left fold. *)
Lemma list_loop_fold {S R} p (body : nat -> Item -> S -> outcome (S * ctrl R)) (f : S -> Item -> S) i l s :
  (forall i x s, x ∈ l -> body i x s = Ret (f s x, Continue)) ->
  list_loop (fun _ => p) body i l s =
  Ret (foldl f s (take_while (fun x => has_prefix p (Item_Key x)) l), None).
Proof.
  revert i s. induction l as [|x l IH]; intros i s Hb; simpl; [done|].
  destruct (has_prefix p (Item_Key x)); [|done]. simpl.
  rewrite Hb by set_solver. apply IH. set_solver.
Qed.

Lemma for_prefix_fold {S R} p (body : nat -> Item -> S -> outcome (S * ctrl R)) (f : S -> Item -> S) it s :
  StronglySorted str_lt (map Item_Key (It_all it)) ->
  (forall i x s, x ∈ It_all it -> body i x s = Ret (f s x, Continue)) ->
  for_prefix p (fun _ => p) body it s = Ret (foldl f s (prefix_items p (It_all it)), None).
Proof.
  intros Hs Hb. rewrite for_prefix_list, (list_loop_fold _ _ f).
  - by rewrite scan_block.
  - intros i x s' Hx. apply Hb.
    destruct (drop_while_suffix (fun x => str_ltb (Item_Key x) p) (It_all it)) as [pre ->].
    set_solver.
Qed.

End Loops.
End Badger.
