(* ===== verification/BadgerReads.v ===== *)
(** * The reads of badger.go, against the map a reader sees

    Point reads, prefix scans, counts and paginated scans, each equated with a
    function of [txn_view], the key-value map of the reader's snapshot. *)

From S2P Require Import Prelude Errors Utils Mvcc BadgerApi MemBadger Badger.

(** A call during which the context is never cancelled. *)
Definition not_cancelled (e : env) : Prop := forall i, ctx_done e i = false.

(** The part of a map under a prefix. *)
Definition under {A} (p : string) (m : gmap string A) : gmap string A :=
  filter (fun kv => has_prefix p kv.1 = true) m.

Module Reads.
Export Badger.

Section WithLaws.
Context `{BadgerLaws}.

Lemma same_txn_refl t : same_txn t t.
Proof. done. Qed.

Lemma same_txn_trans t t' t'' : same_txn t t' -> same_txn t' t'' -> same_txn t t''.
Proof. unfold same_txn. intros (?&?&?&?) (?&?&?&?). repeat split; congruence. Qed.

Lemma same_txn_view now t t' : same_txn t t' -> txn_view now t' = txn_view now t.
Proof. unfold txn_view. by intros (_&->&->&_). Qed.

Hint Resolve same_txn_refl same_txn_trans : omashu.

(** ** Items and the map they hold *)

Definition item_value (x : Item) : bytes :=
  match Item_ValueCopy x with inr v => v | inl _ => [] end.

Lemma sorted_nodup (l : list string) : StronglySorted str_lt l -> NoDup l.
Proof.
  induction 1 as [|x l _ IH Hx]; constructor; [|done].
  intros Hin. rewrite Forall_forall in Hx. by apply (str_lt_irrefl x), Hx.
Qed.

Lemma iter_nodup now t pf : NoDup (map Item_Key (It_all (snd (NewIterator now t pf)))).
Proof. apply sorted_nodup, iter_sorted. Qed.

Lemma map_prefix_items p l :
  map Item_Key (prefix_items p l) =
  filter (fun k => has_prefix p k = true) (map Item_Key l).
Proof.
  unfold prefix_items. induction l as [|x l IH]; [done|].
  simpl. rewrite !filter_cons. case_decide; simpl; by rewrite IH.
Qed.

Lemma elem_prefix_items p l x :
  x ∈ prefix_items p l <-> x ∈ l /\ has_prefix p (Item_Key x) = true.
Proof. unfold prefix_items. rewrite list_elem_of_filter. tauto. Qed.

(** The items with a prefix are the entries of the view under it. *)
Lemma prefix_items_view now t pf p k v :
  under p (txn_view now t) !! k = Some v <->
  exists x, x ∈ prefix_items p (It_all (snd (NewIterator now t pf))) /\
            Item_Key x = k /\ Item_ValueCopy x = inr v.
Proof.
  unfold under. rewrite map_lookup_filter_Some. simpl.
  rewrite (iter_items now t pf k v). setoid_rewrite elem_prefix_items. split.
  - intros [(x & Hx & <- & Hv) Hp]. eauto.
  - intros (x & [Hx Hp] & <- & Hv). eauto.
Qed.

(** Inserting items one after the other builds the map they hold. *)
Lemma foldl_insert_lookup (l : list Item) (m : gmap string bytes) k :
  NoDup (map Item_Key l) ->
  foldl (fun m x => <[Item_Key x := item_value x]> m) m l !! k =
  match list_find (fun x => Item_Key x = k) l with
  | Some (_, x) => Some (item_value x)
  | None => m !! k
  end.
Proof.
  revert m. induction l as [|x l IH]; intros m Hnd; simpl; [done|].
  simpl in Hnd. apply NoDup_cons in Hnd as [Hx Hnd]. rewrite IH by assumption.
  destruct (decide (Item_Key x = k)) as [<-|Hk].
  - assert (list_find (fun y => Item_Key y = Item_Key x) l = None) as ->.
    { apply list_find_None, Forall_forall. intros y Hy E. apply Hx.
      rewrite <- E. by apply list_elem_of_fmap_2. }
    apply lookup_insert_eq.
  - rewrite lookup_insert_ne by done.
    destruct (list_find _ l) as [[j y]|]; done.
Qed.

Lemma foldl_insert_view now t pf p :
  foldl (fun m x => <[Item_Key x := item_value x]> m) ∅
    (prefix_items p (It_all (snd (NewIterator now t pf)))) = under p (txn_view now t).
Proof.
  apply map_eq. intros k. rewrite foldl_insert_lookup.
  2: { rewrite map_prefix_items. apply NoDup_filter, iter_nodup. }
  symmetry. destruct (list_find _ _) as [[j x]|] eqn:E.
  - apply list_find_Some in E as (E & Hk & _). apply list_elem_of_lookup_2 in E.
    apply (prefix_items_view now t pf). exists x. split; [done|]. split; [done|].
    apply elem_prefix_items in E as [E _].
    destruct (iter_values now t pf x E) as [_ [v Hv]]. unfold item_value. by rewrite Hv.
  - rewrite lookup_empty. apply eq_None_not_Some. intros [v Hv].
    apply (prefix_items_view now t pf) in Hv as (x & Hx & Hk & _).
    apply list_find_None in E. rewrite Forall_forall in E. by apply (E x).
Qed.

(** ** Point reads *)

Lemma GetWithTxn_spec e k t : key_ok k = true ->
  exists t', GetWithTxn e k t = Ret (t', inr (txn_view (now e) t !! k)) /\ same_txn t t'.
Proof.
  intros Hk. pose proof (txn_get_ok (now e) t k Hk) as Hget. unfold GetWithTxn.
  destruct (Txn_Get (now e) t k) as [t' [err|x]], (txn_view (now e) t !! k); try done.
  - destruct Hget as [Hs ->]. simpl. eauto.
  - destruct Hget as [Hs ->]. eauto.
Qed.

Lemma new_txn_view now db u : txn_view now (DB_NewTransaction db u) = view now db.
Proof.
  unfold txn_view, view, view_at.
  destruct (new_txn db u) as (_ & -> & -> & _). by rewrite map_empty_union.
Qed.

Lemma new_txn_at_view now db ts u :
  txn_view now (DB_NewTransactionAt db ts u) = view_at now (hist db) ts.
Proof.
  unfold txn_view, view_at.
  destruct (new_txn_at db ts u) as (_ & -> & -> & _). by rewrite map_empty_union.
Qed.

(** ** Prefix scans *)

Ltac open_scan pf :=
  match goal with
  | |- context [NewIterator ?n ?t pf] =>
      pose proof (iter_same n t pf); pose proof (iter_sorted n t pf);
      destruct (NewIterator n t pf) as [t' it] eqn:?E; simpl in *
  end.

Lemma GetByPrefixWithTxn_spec e p t : not_cancelled e ->
  exists t', GetByPrefixWithTxn e p t = Ret (t', inr (under p (txn_view (now e) t))) /\
             same_txn t t'.
Proof.
  intros Hc. unfold GetByPrefixWithTxn.
  pose proof (foldl_insert_view (now e) t true p) as Hf.
  pose proof (iter_values (now e) t true) as Hv. open_scan true.
  rewrite (for_prefix_fold p _ (fun m x => <[Item_Key x := item_value x]> m)).
  - simpl. rewrite Hf. eauto.
  - done.
  - intros i x m Hx. rewrite Hc. unfold item_value.
    destruct (Hv x Hx) as [_ [v ->]]. done.
Qed.

Lemma foldl_snoc_map {X Y} (f : X -> Y) l acc :
  foldl (fun acc x => acc ++ [f x]) acc l = acc ++ map f l.
Proof.
  revert acc. induction l as [|x l IH]; intros acc; simpl; [by rewrite app_nil_r|].
  rewrite IH, <- (assoc_L (++)). done.
Qed.

(** The keys of a scan: those of the view under the prefix, in order, once. *)
Definition keys_under (p : string) (m : gmap string bytes) (keys : list string) : Prop :=
  StronglySorted str_lt keys /\
  forall k, k ∈ keys <-> has_prefix p k = true /\ is_Some (m !! k).

Lemma filter_sorted (P : string -> Prop) `{!forall x, Decision (P x)} l :
  StronglySorted str_lt l -> StronglySorted str_lt (filter P l).
Proof.
  induction 1 as [|x l _ IH Hx]; [constructor|].
  rewrite filter_cons. case_decide; [|done]. constructor; [done|].
  apply Forall_forall. intros y Hy. apply list_elem_of_filter in Hy as [_ Hy].
  rewrite Forall_forall in Hx. auto.
Qed.

Lemma keys_under_items now t pf p :
  keys_under p (txn_view now t)
    (map Item_Key (prefix_items p (It_all (snd (NewIterator now t pf))))).
Proof.
  split.
  - rewrite map_prefix_items. apply filter_sorted, iter_sorted.
  - intros k. rewrite map_prefix_items, list_elem_of_filter.
    apply and_iff_compat_l. split.
    + intros Hk. apply list_elem_of_fmap in Hk as (x & -> & Hx).
      destruct (iter_values now t pf x Hx) as [_ [v Hv]].
      exists v. apply (iter_items now t pf). eauto.
    + intros [v Hv]. apply (iter_items now t pf) in Hv as (x & Hx & <- & _).
      by apply list_elem_of_fmap_2.
Qed.

Lemma GetKeysByPrefixWithTxn_spec e p t : not_cancelled e ->
  exists t' keys, GetKeysByPrefixWithTxn e p t = Ret (t', inr keys) /\
    same_txn t t' /\ keys_under p (txn_view (now e) t) keys.
Proof.
  intros Hc. unfold GetKeysByPrefixWithTxn.
  pose proof (keys_under_items (now e) t false p) as Hk. open_scan false.
  rewrite (for_prefix_fold p _ (fun acc x => acc ++ [Item_Key x])).
  - simpl. rewrite foldl_snoc_map. simpl. eauto 10.
  - done.
  - intros i x m Hx. by rewrite Hc.
Qed.

(** A sorted list of the keys of a map has one element per key. *)
Lemma keys_under_length p (m : gmap string bytes) keys :
  keys_under p m keys -> length keys = size (under p m).
Proof.
  intros [Hs Hk]. rewrite <- size_dom.
  rewrite <- (size_list_to_set (C := gset string) keys) by by apply sorted_nodup.
  f_equal. apply set_eq. intros k. rewrite elem_of_list_to_set, Hk, elem_of_dom.
  unfold under. unfold is_Some. setoid_rewrite map_lookup_filter_Some. simpl. split.
  - intros [Hp [v Hv]]. eauto.
  - intros (v & Hv & Hp). eauto.
Qed.

Lemma foldl_count {X} (l : list X) n : foldl (fun c _ => S c) n l = (n + length l)%nat.
Proof. revert n. induction l as [|x l IH]; intros n; simpl; [lia|]. rewrite IH. lia. Qed.

Lemma Count_loop_spec e p t : not_cancelled e ->
  exists t', Count_loop e p t = Ret (t', (size (under p (txn_view (now e) t)), None)).
Proof.
  intros Hc. unfold Count_loop.
  pose proof (keys_under_length _ _ _ (keys_under_items (now e) t false p)) as Hk.
  open_scan false. rewrite (for_prefix_fold p _ (fun c _ => S c)).
  - simpl. rewrite foldl_count, <- Hk, length_map. eauto.
  - done.
  - intros i x m Hx. by rewrite Hc.
Qed.

(** ** Paginated scans *)

(** The entries of a map under a prefix, in key order. *)
Definition entries_under (p : string) (m : gmap string bytes) (kvs : list (string * bytes))
    : Prop :=
  StronglySorted str_lt kvs.*1 /\ forall k v, (k, v) ∈ kvs <-> under p m !! k = Some v.

Definition item_kv (x : Item) : string * bytes := (Item_Key x, item_value x).

Lemma entries_under_items now t pf p :
  entries_under p (txn_view now t)
    (map item_kv (prefix_items p (It_all (snd (NewIterator now t pf))))).
Proof.
  split.
  - destruct (keys_under_items now t pf p) as [Hs _].
    rewrite <- list_fmap_compose. exact Hs.
  - intros k v. rewrite (prefix_items_view now t pf), list_elem_of_fmap. split.
    + intros (x & [= -> ->] & Hx). exists x. split; [done|]. split; [done|].
      apply elem_prefix_items in Hx as [Hx _].
      destruct (iter_values now t pf x Hx) as [_ [v Hv]]. unfold item_value. by rewrite Hv.
    + intros (x & Hx & <- & Hv). exists x. unfold item_kv, item_value. by rewrite Hv.
Qed.

Lemma entries_under_length p m kvs : entries_under p m kvs -> length kvs = size (under p m).
Proof.
  intros [Hs Hk]. rewrite <- (length_fmap fst kvs). apply keys_under_length. split; [done|].
  intros k. rewrite list_elem_of_fmap. split.
  - intros ([k' v] & -> & Hkv). apply Hk in Hkv. unfold under in Hkv.
    apply map_lookup_filter_Some in Hkv as [Hv Hp]. simpl in *. eauto.
  - intros [Hp [v Hv]]. exists (k, v). split; [done|]. apply Hk. unfold under.
    by apply map_lookup_filter_Some.
Qed.

Section Pages.
Context {P : Type} (e : env) (b : store) (prefix : string).
Context (process : P -> string -> bytes -> P * bool).

(** What the callback has done after a list of entries. *)
Definition visit (p : P) (kvs : list (string * bytes)) : P :=
  foldl (fun p kv => fst (process p kv.1 kv.2)) p kvs.

(** One page over a list of entries: the callback's state and the entries the
    page leaves. *)
Fixpoint page (limit : option Z) (n : Z) (p : P) (kvs : list (string * bytes))
    : P * Z * list (string * bytes) :=
  match kvs with
  | [] => (p, n, [])
  | kv :: kvs' =>
      if match limit with Some l => l <=? n | None => false end then (p, n, kvs)
      else let '(p', ok) := process p kv.1 kv.2 in
           page limit (if ok : bool then n + 1 else n) p' kvs'
  end.

Definition cursor (kvs : list (string * bytes)) : string :=
  match kvs with kv :: _ => kv.1 | [] => "" end.

(** A client that asks for page after page until the cursor is empty. *)
Fixpoint scan_all (fuel : nat) (limit : Z) (start : string) (p : P) : outcome (result P) :=
  match fuel with
  | O => Hang
  | S fuel' =>
      r ← IterateByPrefix e b prefix start (Some limit) process p;
      match r with
      | (_, inl err) => Ret (inl err)
      | (p', inr next) =>
          if decide (next = "") then Ret (inr p') else scan_all fuel' limit next p'
      end
  end.

Lemma page_split limit n p kvs p' n' rest : page limit n p kvs = (p', n', rest) ->
  exists d, kvs = d ++ rest /\ p' = visit p d /\
    (rest <> [] -> exists l, limit = Some l /\ l <= n').
Proof.
  revert n p. induction kvs as [|kv kvs IH]; simpl; intros n p Hp.
  - simplify_eq. by exists [].
  - destruct (match limit with Some l => l <=? n | None => false end) eqn:El.
    + simplify_eq. exists []. split; [done|]. split; [done|]. intros _.
      destruct limit as [l|]; [|done]. exists l. split; [done|lia].
    + destruct (process p kv.1 kv.2) as [q ok] eqn:Eq.
      apply IH in Hp as (d & -> & -> & Hr). exists (kv :: d).
      split; [done|]. split; [|done]. unfold visit. simpl. by rewrite Eq.
Qed.

(** A page with a positive limit moves forward. *)
Lemma page_progress l n p kvs p' n' rest : n < l -> kvs <> [] ->
  page (Some l) n p kvs = (p', n', rest) -> (length rest < length kvs)%nat.
Proof.
  intros Hn Hne Hp. destruct kvs as [|kv kvs]; [done|]. simpl in Hp.
  destruct (l <=? n) eqn:El; [lia|]. destruct (process p kv.1 kv.2) as [q ok].
  apply page_split in Hp as (d & -> & _). rewrite length_cons, length_app. lia.
Qed.

(** The loop of the scan, over a block of items whose values can be read, is
    a page. *)
Lemma scan_loop limit i (l : list Item) s :
  not_cancelled e -> prefixBytes s = prefix -> nextCursor s = "" ->
  (forall x, x ∈ l -> exists v, Item_ValueCopy x = inr v) ->
  let '(p', n', rest) := page limit (iterNum s) (callback s)
     (map item_kv (take_while (fun x => has_prefix prefix (Item_Key x)) l)) in
  list_loop prefixBytes (IterateByPrefix_body e prefix limit process) i l s =
  Ret (Scan prefix n' (cursor rest) p', None).
Proof.
  intros Hc. revert i s. induction l as [|x l IH]; intros i [q n c p] Hq Hcur Hv;
    simpl in *; subst; [done|].
  destruct (has_prefix prefix (Item_Key x)); simpl; [|done].
  unfold IterateByPrefix_body at 1. rewrite Hc. simpl.
  destruct (match limit with Some l => l <=? n | None => false end); [done|].
  destruct (Hv x) as [v Ev]; [set_solver|]. unfold item_kv, item_value. simpl. rewrite Ev.
  destruct (process p (Item_Key x) v) as [p' ok]. simpl.
  apply (IH (S i) (Scan prefix _ "" p')); [done|done|set_solver].
Qed.

(** *** Resuming at a cursor *)

Lemma prefix_items_split (l i1 i2 : list Item) x :
  prefix_items prefix l = i1 ++ x :: i2 ->
  exists pre post, l = pre ++ x :: post /\ prefix_items prefix post = i2.
Proof.
  unfold prefix_items. revert i1. induction l as [|y l IH]; intros i1 Hf; simpl in Hf.
  - by destruct i1.
  - rewrite filter_cons in Hf. case_decide.
    + destruct i1 as [|z i1]; simplify_eq/=; [by exists [], l|].
      destruct (IH i1) as (pre & post & -> & E); [done|]. by exists (z :: pre), post.
    + destruct (IH i1) as (pre & post & -> & E); [done|]. by exists (y :: pre), post.
Qed.

Lemma seek_present pre x (post : list Item) :
  StronglySorted str_lt (map Item_Key (pre ++ x :: post)) ->
  drop_while (fun y => str_ltb (Item_Key y) (Item_Key x)) (pre ++ x :: post) = x :: post.
Proof.
  induction pre as [|y pre IH]; simpl; intros Hs.
  - destruct (str_ltb (Item_Key x) (Item_Key x)) eqn:E; [|done].
    by apply str_lt_irrefl in E.
  - apply StronglySorted_inv in Hs as [Hs Hy]. rewrite map_app in Hy. simpl in Hy.
    apply Forall_app in Hy as [_ Hy]. apply Forall_cons in Hy as [Hy _].
    rewrite Hy. auto.
Qed.

Lemma sorted_app_r (l1 l2 : list string) :
  StronglySorted str_lt (l1 ++ l2) -> StronglySorted str_lt l2.
Proof. induction l1 as [|x l1 IH]; simpl; [done|]. intros [? _]%StronglySorted_inv. auto. Qed.

Lemma block_at_cursor pre x (post : list Item) :
  StronglySorted str_lt (map Item_Key (pre ++ x :: post)) ->
  has_prefix prefix (Item_Key x) = true ->
  take_while (fun y => has_prefix prefix (Item_Key y)) (x :: post) =
  x :: prefix_items prefix post.
Proof.
  intros Hs Hp. rewrite map_app in Hs. apply sorted_app_r in Hs.
  pose proof (scan_block prefix (x :: post) Hs) as E.
  assert (drop_while (fun y => str_ltb (Item_Key y) prefix) (x :: post) = x :: post) as Ed
    by (simpl; by rewrite prefix_not_below).
  rewrite Ed in E. rewrite E.
  unfold prefix_items. by rewrite filter_cons, decide_True.
Qed.

(** The loop starts with the cursor as its prefix; the cursor being a key with
    the prefix, the first round goes the same way. *)
Lemma first_round limit i x l n c p : not_cancelled e ->
  has_prefix prefix (Item_Key x) = true ->
  list_loop prefixBytes (IterateByPrefix_body e prefix limit process) i (x :: l)
    (Scan (Item_Key x) n c p) =
  list_loop prefixBytes (IterateByPrefix_body e prefix limit process) i (x :: l)
    (Scan prefix n c p).
Proof.
  intros Hc Hp. simpl. rewrite has_prefix_refl, Hp.
  unfold IterateByPrefix_body. rewrite Hc. done.
Qed.

Definition entries : list (string * bytes) :=
  map item_kv (prefix_items prefix
    (It_all (snd (NewIterator (now e) (DB_NewTransaction (db b) false) true)))).

(** Where a page may start: at the beginning, or at a remaining entry. *)
Definition resumes (start : string) (kvs : list (string * bytes)) : Prop :=
  (start = "" /\ kvs = entries) \/
  (start <> "" /\ start = cursor kvs /\ exists d, entries = d ++ kvs).

Lemma page_cursor limit p kvs p' n' rest : page limit 0 p kvs = (p', n', rest) ->
  (if match limit with Some l => n' <? l | None => false end then "" else cursor rest)
  = cursor rest.
Proof.
  intros Hp. apply page_split in Hp as (d & _ & _ & Hr).
  destruct rest as [|kv rest]; [by repeat case_match|].
  destruct Hr as (l & -> & Hl); [done|]. destruct (n' <? l) eqn:E; [lia|done].
Qed.

Lemma IterateByPrefix_page limit start p kvs : not_cancelled e -> resumes start kvs ->
  let '(p', n', rest) := page limit 0 p kvs in
  IterateByPrefix e b prefix start limit process p = Ret (p', inr (cursor rest)).
Proof.
  intros Hc Hr. unfold IterateByPrefix, DB_View. unfold resumes, entries in Hr.
  pose proof (iter_values (now e) (DB_NewTransaction (db b) false) true) as Hv.
  pose proof (iter_sorted (now e) (DB_NewTransaction (db b) false) true) as Hs.
  destruct (NewIterator _ _ true) as [t' it]. simpl in *. rewrite for_prefix_list.
  assert (forall i (l : list Item) s, l `suffix_of` It_all it -> prefixBytes s = prefix ->
    nextCursor s = "" -> iterNum s = 0 -> callback s = p ->
    map item_kv (take_while (fun x => has_prefix prefix (Item_Key x)) l) = kvs ->
    let '(p', n', rest) := page limit 0 p kvs in
    list_loop prefixBytes (IterateByPrefix_body e prefix limit process) i l s =
    Ret (Scan prefix n' (cursor rest) p', None)) as Hloop.
  { intros i l s [pre Hl] Hs1 Hs2 Hs3 Hs4 <-. rewrite <- Hs3, <- Hs4.
    apply scan_loop; [done..|]. intros x Hx. apply Hv. rewrite Hl.
    apply elem_of_app. auto. }
  destruct (page limit 0 p kvs) as [[p' n'] rest] eqn:Ep.
  apply page_cursor in Ep.
  destruct Hr as [[-> ->]|(Hne & Hst & d & Hd)].
  - rewrite decide_True by done. rewrite Hloop; try done.
    + simpl. by rewrite Ep.
    + destruct (drop_while_suffix (fun x => str_ltb (Item_Key x) prefix) (It_all it)) as [pre E].
      by exists pre.
    + by rewrite scan_block.
  - destruct kvs as [|kv kvs]; [done|]. simpl in Hst.
    apply (fmap_app_inv item_kv) in Hd as (i1 & i2 & -> & Hi2 & Hi).
    symmetry in Hi2. apply fmap_cons_inv in Hi2 as (x & i2' & -> & -> & ->).
    assert (has_prefix prefix (Item_Key x) = true) as Hp.
    { apply (elem_prefix_items prefix (It_all it) x). rewrite Hi.
      apply elem_of_app. right. left. }
    apply prefix_items_split in Hi as (pre & post & Hall & Hpost).
    rewrite decide_False by done. subst start. simpl in *. rewrite Hall in Hs |- *.
    rewrite seek_present by done.
    rewrite (first_round limit 0 x post 0 "" p Hc Hp). rewrite Hloop; try done.
    + simpl. by rewrite Ep.
    + by exists pre.
    + rewrite (block_at_cursor pre) by done. by rewrite Hpost.
Qed.

Lemma entries_cursor_ok d kv kvs : entries = d ++ kv :: kvs -> kv.1 <> "".
Proof.
  intros E Hk. assert (kv ∈ entries) as Hin by (rewrite E; apply elem_of_app; right; left).
  apply list_elem_of_fmap in Hin as (x & -> & Hx). apply elem_prefix_items in Hx as [Hx _].
  destruct (iter_values _ _ _ _ Hx) as [Hok _]. simpl in Hk.
  rewrite Hk, key_ok_empty in Hok. done.
Qed.

Lemma visit_app p d kvs : visit p (d ++ kvs) = visit (visit p d) kvs.
Proof. apply foldl_app. Qed.

Lemma scan_all_spec fuel limit start p kvs :
  not_cancelled e -> 0 < limit -> resumes start kvs -> (length kvs < fuel)%nat ->
  scan_all fuel limit start p = Ret (inr (visit p kvs)).
Proof.
  intros Hc Hl. revert start p kvs.
  induction fuel as [|fuel IH]; intros start p kvs Hr Hf; [lia|]. simpl.
  pose proof (IterateByPrefix_page (Some limit) start p kvs Hc Hr) as Hp.
  destruct (page (Some limit) 0 p kvs) as [[p' n'] rest] eqn:Ep. rewrite Hp. simpl.
  destruct (page_split _ _ _ _ _ _ _ Ep) as (d & -> & -> & _). rewrite visit_app.
  destruct rest as [|kv rest]; simpl; [done|].
  assert (exists d', entries = d' ++ kv :: rest) as [d' Hd'].
  { destruct Hr as [[_ <-]|(_ & _ & d' & ->)]; [eauto|].
    exists (d' ++ d). by rewrite <- app_assoc. }
  pose proof (entries_cursor_ok _ _ _ Hd') as Hne. rewrite decide_False by done.
  rewrite (IH _ _ (kv :: rest)); [done|right; eauto|].
  apply page_progress in Ep; [lia|lia|by destruct d].
Qed.

Lemma entries_spec : entries_under prefix (view (now e) (db b)) entries.
Proof. rewrite <- (new_txn_view (now e) (db b) false). apply entries_under_items. Qed.

End Pages.
(** ** The operations of the store *)

Lemma HasChild_loop p l s :
  list_loop (fun _ : bool => p) (fun _ _ _ => Ret (true, @Return unit tt)) 0 l s =
  match take_while (fun x => has_prefix p (Item_Key x)) l with
  | [] => Ret (s, None)
  | _ => Ret (true, Some tt)
  end.
Proof. destruct l as [|x l]; simpl; [done|]. by destruct (has_prefix p (Item_Key x)). Qed.

Lemma HasChild_spec e b p :
  HasChild e b p = Ret (bool_decide (under p (view (now e) (db b)) <> ∅)).
Proof.
  unfold HasChild, DB_View. rewrite <- (new_txn_view (now e) (db b) false).
  pose proof (entries_under_length _ _ _
    (entries_under_items (now e) (DB_NewTransaction (db b) false) false p)) as Hlen.
  open_scan false. rewrite for_prefix_list, HasChild_loop, scan_block by done.
  rewrite length_map in Hlen. symmetry in Hlen.
  destruct (prefix_items p (It_all it)); simpl in *.
  - apply map_size_empty_iff in Hlen. by rewrite Hlen, bool_decide_false by naive_solver.
  - rewrite bool_decide_true; [done|]. intros E0. by rewrite E0, map_size_empty in Hlen.
Qed.

(** Prefix reads are exact.  While the context is not cancelled,
    [GetByPrefix] returns the entries of the current contents whose key has the
    prefix, [GetKeysByPrefix] their keys in strictly increasing order, [Count]
    their number, and [HasChild] whether there is one; none of them panics or
    loops. *)
Theorem prefix_reads_exact (e : env) (b : store) (p : string) :
  not_cancelled e ->
  GetByPrefix e b p = Ret (inr (under p (view (now e) (db b)))) /\
  (exists keys, GetKeysByPrefix e b p = Ret (inr keys) /\
                keys_under p (view (now e) (db b)) keys) /\
  Count e b p = Ret (size (under p (view (now e) (db b)))) /\
  HasChild e b p = Ret (bool_decide (under p (view (now e) (db b)) <> ∅)).
Proof.
  intros Hc. split; [|split; [|split; [|apply HasChild_spec]]];
    rewrite <- (new_txn_view (now e) (db b) false).
  - unfold GetByPrefix, DB_View.
    by destruct (GetByPrefixWithTxn_spec e p (DB_NewTransaction (db b) false)) as (t' & -> & _).
  - unfold GetKeysByPrefix, DB_View.
    destruct (GetKeysByPrefixWithTxn_spec e p (DB_NewTransaction (db b) false))
      as (t' & keys & -> & _ & Hk); [done|]. by exists keys.
  - unfold Count, DB_View.
    by destruct (Count_loop_spec e p (DB_NewTransaction (db b) false)) as (t' & ->).
Qed.

(** C28: pagination neither loses nor repeats an entry.  A client that calls
    [IterateByPrefix] with a positive limit, passing each returned cursor to the
    next call until it is empty, terminates after at most one call per entry
    plus one, and its callback has then run once on every entry under the
    prefix, in key order, whatever the callback does and whichever items it
    declines to count. *)
Theorem pages_cover_prefix {P} (e : env) (b : store) (prefix : string) (limit : Z)
    (process : P -> string -> bytes -> P * bool) (p : P) :
  not_cancelled e -> 0 < limit ->
  exists kvs, entries_under prefix (view (now e) (db b)) kvs /\
    scan_all e b prefix process (S (size (under prefix (view (now e) (db b))))) limit "" p =
    Ret (inr (visit process p kvs)).
Proof.
  intros Hc Hl. pose proof (entries_spec e b prefix) as He.
  exists (entries e b prefix). split; [done|].
  apply scan_all_spec; [done|done|by left|].
  rewrite (entries_under_length _ _ _ He). lia.
Qed.

End WithLaws.

(** ** Witnesses *)

Definition quiet (n : Z) : env := Env n (fun _ => false).

Definition sample : store :=
  Store false (mem_seed 5 [("a/1", [Byte.x01]); ("a/2", [Byte.x02]); ("a/3", [Byte.x03]);
                           ("b", [])] true) false.

Lemma prefix_reads_exact_witness :
  GetByPrefix (quiet 0) sample "a/" =
    Ret (inr (under "a/" (view (now (quiet 0)) (db sample)))) /\
  Count (quiet 0) sample "a/" = Ret 3%nat.
Proof.
  destruct (prefix_reads_exact (quiet 0) sample "a/") as (H1 & _ & H2 & _); [done|].
  split; [exact H1|]. rewrite H2. vm_compute. reflexivity.
Defined.

(** Pages of two entries, with a callback that collects keys. *)
Definition collect (acc : list string) (k : string) (v : bytes) : list string * bool :=
  (acc ++ [k], true).

Lemma pages_cover_prefix_witness :
  scan_all (quiet 0) sample "a/" collect 4 2 "" [] = Ret (inr ["a/1"; "a/2"; "a/3"]) /\
  exists kvs, entries_under "a/" (view (now (quiet 0)) (db sample)) kvs /\
    scan_all (quiet 0) sample "a/" collect
      (S (size (under "a/" (view (now (quiet 0)) (db sample))))) 2 "" [] =
    Ret (inr (visit collect [] kvs)).
Proof.
  split; [vm_compute; reflexivity|].
  apply (pages_cover_prefix (quiet 0) sample "a/" 2 collect []); [done|lia].
Defined.

End Reads.
