(* ===== verification/BadgerWrites.v ===== *)
(** * The writes of badger.go refine an abstract map

    An abstract transaction is a function of the snapshot it reads and of the
    writes it has buffered.  [refines] relates a computation on Badger
    transactions to such a function; it is closed under sequencing, so the
    read-modify-write operations of [Badger] are related operation by
    operation, and the store built from them to a plain map. *)

From S2P Require Import Prelude Errors Utils Mvcc BadgerApi MemBadger Codecs.
From S2P Require Import MemCodecs Badger BadgerReads.

(** ** Abstract transactions *)

(** Buffered writes, threaded through a computation. *)
Abbreviation writes := (gmap string version).
Definition atxn (A : Type) : Type := gmap string version -> M writes A.

Module Spec.
Section Ops.
Context `{BadgerAPI}.

Definition read (now : Z) (sn p : gmap string version) : gmap string bytes :=
  omap (live now) (p ∪ sn).

Definition get (now : Z) (k : string) : atxn (result (option bytes)) :=
  fun sn p => Ret (p, inr (read now sn p !! k)).

Definition put (now : Z) (k : string) (v : bytes) (ttl : list Z) : atxn (option error) :=
  fun sn p => Ret (<[k := Version (Some v) ((fun d => (now, d)) <$> head ttl)]> p, None).

Definition del (k : string) : atxn (option error) :=
  fun sn p => Ret (<[k := tombstone]> p, None).

(** Every key under the prefix gets a tombstone. *)
Definition del_prefix (now : Z) (prefix : string) : atxn (option error) :=
  fun sn p => Ret (((fun _ => tombstone) <$> under prefix (read now sn p)) ∪ p, None).

(** A counter: eight big-endian bytes; a missing key counts as zero. *)
Definition counter (now : Z) (k : string) (f : Z -> Z) (init : Z) : atxn (option error) :=
  fun sn p =>
    match read now sn p !! k with
    | Some b => if (length b <? 8)%nat then Panic "index out of range [7]"
                else put now k (Uint64ToBytes (f (be_value (take 8 b)))) [] sn p
    | None => put now k (Uint64ToBytes init) [] sn p
    end.

Definition incr (now : Z) (k : string) (d : Z) : atxn (option error) :=
  counter now k (fun c => u64 (c + d)) d.

Definition decr (now : Z) (k : string) (d : Z) : atxn (option error) :=
  counter now k (fun c => Z.max 0 (c - d)) 0.

End Ops.

Section Merges.
Context `{BadgerAPI} `{JsonLib} `{ProtoLib}.

(** The object the stored bytes hold: [None] is the JSON [null]. *)
Definition json_object (stored : option bytes) : result (option (gmap string any)) :=
  match stored with Some b => json_Unmarshal b | None => inr (Some ∅) end.

Definition update_json (now : Z) (k : string) (delta : gmap string any) (ttl : list Z)
    : atxn (option error) :=
  fun sn p =>
    match json_object (read now sn p !! k) with
    | inl err => Ret (p, Some err)
    | inr None =>
        if decide (delta = ∅) then
          match json_Marshal None with
          | inl err => Ret (p, Some err)
          | inr b => put now k b ttl sn p
          end
        else Panic "assignment to entry in nil map"
    | inr (Some o) =>
        match json_Marshal (Some (delta ∪ o)) with
        | inl err => Ret (p, Some err)
        | inr b => put now k b ttl sn p
        end
    end.

Definition update_proto (now : Z) (k : string) (delta : Message) (ttl : list Z)
    : atxn (option error) :=
  fun sn p =>
    match (match read now sn p !! k with
           | Some b => Dynamic.MergeProtoDelta b delta
           | None => proto_Marshal delta
           end) with
    | inl err => Ret (p, Some err)
    | inr b => put now k b ttl sn p
    end.

End Merges.
End Spec.

(** ** Refinement of computations *)

Section Refinement.
Context `{BadgerLaws}.

(** The transaction keeps its snapshot and stays read-write. *)
Definition frame (t t' : BTxn) : Prop :=
  txn_hist t' = txn_hist t /\ txn_snap t' = txn_snap t /\ txn_update t' = true.

Definition refines {A} (m : M BTxn A) (f : atxn A) : Prop :=
  forall t, txn_update t = true ->
    match m t, f (txn_snap t) (txn_pending t) with
    | Ret (t', a), Ret (p', a') => a = a' /\ txn_pending t' = p' /\ frame t t'
    | Panic s, Panic s' => s = s'
    | Hang, Hang => True
    | _, _ => False
    end.

Lemma refines_same {A} (m : M BTxn A) f :
  (forall t, txn_update t = true -> exists t' a, m t = Ret (t', a) /\ same_txn t t' /\
     f (txn_snap t) (txn_pending t) = Ret (txn_pending t, a)) ->
  refines m f.
Proof.
  intros Hm t Ht. destruct (Hm t Ht) as (t' & a & -> & (?&?&?&?) & ->).
  unfold frame. repeat split; congruence.
Qed.

Lemma refines_ret {A} (a : A) : refines (mret a) (fun _ => mret a).
Proof. intros t Ht. unfold frame. simpl. auto. Qed.

Lemma refines_bind {A C} (m : M BTxn A) f (k : A -> M BTxn C) (g : A -> atxn C) :
  refines m f -> (forall a, refines (k a) (g a)) ->
  refines (m ≫= k) (fun sn => f sn ≫= (fun a => g a sn)).
Proof.
  intros Hm Hk t Ht. specialize (Hm t Ht).
  unfold mbind, M_bind. destruct (m t) as [[t' a]| |], (f _ _) as [[p' a']| |]; try done.
  destruct Hm as (<- & <- & Hh & Hs & Hu). specialize (Hk a t' Hu).
  rewrite Hs in Hk. destruct (k a t') as [[t2 c]| |], (g a _ _) as [[p2 c']| |]; try done.
  destruct Hk as (-> & -> & Hh' & Hs' & Hu'). unfold frame. repeat split; congruence.
Qed.

Lemma refines_ext {A} (m : M BTxn A) f f' :
  (forall sn p, f sn p = f' sn p) -> refines m f -> refines m f'.
Proof. intros E Hm t Ht. rewrite <- E. by apply Hm. Qed.

(** ** The operations *)

Lemma refines_get e k : key_ok k = true -> refines (Badger.GetWithTxn e k) (Spec.get (now e) k).
Proof.
  intros Hk. apply refines_same. intros t Ht.
  destruct (Reads.GetWithTxn_spec e k t Hk) as (t' & -> & Hs). eauto 10.
Qed.

Lemma refines_put e k v ttl : key_ok k = true ->
  refines (Badger.SetWithTxn e k v ttl) (Spec.put (now e) k v ttl).
Proof.
  intros Hk t Ht. unfold Badger.SetWithTxn.
  set (en := match ttl with d :: _ => _ | [] => _ end).
  assert (e_key en = k /\ e_value en = v /\ e_ttl en = head ttl) as (E1 & E2 & E3)
    by (destruct ttl; done).
  destruct (txn_set_ok (now e) t en Ht) as (t' & -> & Hh & Hs & Hp & Hu);
    [by rewrite E1|].
  simpl. rewrite Hp, E1. unfold entry_version. rewrite E2, E3.
  unfold frame. repeat split; congruence.
Qed.

Lemma refines_del k : key_ok k = true -> refines (Badger.DeleteWithTxn k) (Spec.del k).
Proof.
  intros Hk t Ht. unfold Badger.DeleteWithTxn.
  destruct (txn_delete_ok t k Ht Hk) as (t' & -> & Hh & Hs & Hp & Hu).
  unfold frame. repeat split; congruence.
Qed.

(** A read followed by what depends on it. *)
Lemma refines_get_bind {A} e k (c : result (option bytes) -> M BTxn A)
    (g : option bytes -> atxn A) (f : atxn A) :
  key_ok k = true -> (forall o, refines (c (inr o)) (g o)) ->
  (forall sn p, g (Spec.read (now e) sn p !! k) sn p = f sn p) ->
  refines (Badger.GetWithTxn e k ≫= c) f.
Proof.
  intros Hk Hc Hf t Ht. unfold mbind, M_bind.
  destruct (Reads.GetWithTxn_spec e k t Hk) as (t1 & -> & Hh & Hs & Hp & Hu).
  specialize (Hc (txn_view (now e) t !! k) t1). rewrite Hu, Hs, Hp in Hc.
  specialize (Hc Ht). change (txn_view (now e) t) with
    (Spec.read (now e) (txn_snap t) (txn_pending t)) in Hc. rewrite Hf in Hc.
  change (txn_view (now e) t) with (Spec.read (now e) (txn_snap t) (txn_pending t)).
  destruct (c _ t1) as [[t2 a]| |], (f _ _) as [[p2 a']| |]; try done.
  destruct Hc as (-> & -> & Hh' & Hs' & Hu'). unfold frame. repeat split; congruence.
Qed.

Lemma refines_lift_bind {A C} (o : outcome A) (k : A -> M BTxn C) (f : atxn C) :
  match o with
  | Ret a => refines (k a) f
  | Panic s => forall sn p, f sn p = Panic s
  | Hang => forall sn p, f sn p = Hang
  end -> refines (lift o ≫= k) f.
Proof.
  destruct o as [a|s|]; intros Hk t Ht; unfold mbind, M_bind, lift; simpl.
  - by apply Hk.
  - by rewrite Hk.
  - by rewrite Hk.
Qed.

(** The common part of the counters: [h] computes the stored bytes' successor. *)
Lemma refines_counter e k (h : Z -> Z) f init :
  key_ok k = true -> (forall c, is_u64 c -> h c = f c) ->
  refines (r ← Badger.GetWithTxn e k;
           match r with
           | inl err => mret (Some err)
           | inr (Some b) =>
               c ← lift (BytesToUint64 b);
               Badger.SetWithTxn e k (Uint64ToBytes (h c)) []
           | inr None => Badger.SetWithTxn e k (Uint64ToBytes init) []
           end) (Spec.counter (now e) k f init).
Proof.
  intros Hk Hf. eapply (refines_get_bind _ _ _ (fun o sn p =>
    match o with
    | Some b => if (length b <? 8)%nat then Panic "index out of range [7]"
                else Spec.put (now e) k (Uint64ToBytes (f (be_value (take 8 b)))) [] sn p
    | None => Spec.put (now e) k (Uint64ToBytes init) [] sn p
    end)); [done| |done].
  intros [b|]; [|by apply refines_put]. apply refines_lift_bind.
  unfold BytesToUint64. destruct (length b <? 8)%nat eqn:El; [done|].
  apply Nat.ltb_ge in El. rewrite Hf; [by apply refines_put|].
  pose proof (be_value_range (take 8 b)) as Hr. rewrite length_take_le in Hr by done.
  exact Hr.
Qed.

Lemma refines_incr e k d : key_ok k = true ->
  refines (Badger.IncrByWithTxn e k d) (Spec.incr (now e) k d).
Proof. intros Hk. by apply (refines_counter e k (fun c => u64 (c + d))). Qed.

Lemma refines_decr e k d : key_ok k = true -> is_u64 d ->
  refines (Badger.DecrByWithTxn e k d) (Spec.decr (now e) k d).
Proof.
  intros Hk Hd.
  apply (refines_counter e k (fun c => if c <? d then 0 else u64 (c - d))); [done|].
  intros c Hc. destruct (c <? d) eqn:E; [lia|]. rewrite u64_small by word. lia.
Qed.

(** ** Deleting a prefix *)

Lemma del_loop e prefix i (l : list Item) t :
  not_cancelled e -> (forall x, x ∈ l -> key_ok (Item_Key x) = true) -> txn_update t = true ->
  exists t', Badger.list_loop (fun _ => prefix) (Badger.delete_body e) i l t = Ret (t', None) /\
    frame t t' /\
    txn_pending t' = foldl (fun p x => <[Item_Key x := tombstone]> p) (txn_pending t)
      (take_while (fun x => has_prefix prefix (Item_Key x)) l).
Proof.
  intros Hc. revert i t. induction l as [|x l IH]; intros i t Hl Ht; simpl.
  - exists t. unfold frame. auto.
  - destruct (has_prefix prefix (Item_Key x)); [|exists t; unfold frame; auto].
    unfold Badger.delete_body at 1. rewrite Hc. unfold Badger.DeleteWithTxn.
    destruct (txn_delete_ok t (Item_Key x) Ht) as (t1 & -> & Hh & Hs & Hp & Hu);
      [apply Hl; left|].
    simpl. destruct (IH (S i) t1) as (t' & -> & (Hh' & Hs' & Hu') & Hp');
      [by intros; apply Hl; right|congruence|].
    exists t'. split; [done|]. split; [unfold frame; repeat split; congruence|].
    by rewrite Hp', Hp.
Qed.

(** The scan cut short at the [n]-th key of the block. *)
Lemma del_loop_cut e prefix n i (l : list Item) t :
  (forall j, (j < n)%nat -> ctx_done e (i + j)%nat = false) -> ctx_done e (i + n)%nat = true ->
  (n < length (take_while (fun x => has_prefix prefix (Item_Key x)) l))%nat ->
  (forall x, x ∈ l -> key_ok (Item_Key x) = true) -> txn_update t = true ->
  exists t', Badger.list_loop (fun _ => prefix) (Badger.delete_body e) i l t =
      Ret (t', Some None) /\
    frame t t' /\
    txn_pending t' = foldl (fun p x => <[Item_Key x := tombstone]> p) (txn_pending t)
      (take n (take_while (fun x => has_prefix prefix (Item_Key x)) l)).
Proof.
  revert n i t. induction l as [|x l IH]; intros n i t Hlt Hn Hlen Hl Ht; simpl in *; [lia|].
  destruct (has_prefix prefix (Item_Key x)); simpl in *; [|lia].
  unfold Badger.delete_body at 1. destruct n as [|n].
  - rewrite Nat.add_0_r in Hn. rewrite Hn. exists t. unfold frame. auto.
  - pose proof (Hlt 0%nat) as H0. rewrite Nat.add_0_r in H0. rewrite H0 by lia.
    unfold Badger.DeleteWithTxn.
    destruct (txn_delete_ok t (Item_Key x) Ht) as (t1 & -> & Hh & Hs & Hp & Hu);
      [apply Hl; left|].
    simpl. destruct (IH n (S i) t1) as (t' & -> & (Hh' & Hs' & Hu') & Hp').
    + intros j Hj. replace (S i + j)%nat with (i + S j)%nat by lia. apply Hlt. lia.
    + by replace (S i + n)%nat with (i + S n)%nat by lia.
    + lia.
    + by intros; apply Hl; right.
    + congruence.
    + exists t'. split; [done|]. split; [unfold frame; repeat split; congruence|].
      by rewrite Hp', Hp.
Qed.

Lemma foldl_tombstones (l : list Item) (p : gmap string version) k :
  foldl (fun p x => <[Item_Key x := tombstone]> p) p l !! k =
  if decide (k ∈ map Item_Key l) then Some tombstone else p !! k.
Proof.
  revert p. induction l as [|x l IH]; intros p; cbn [foldl map].
  - rewrite decide_False; [done|apply not_elem_of_nil].
  - rewrite IH. destruct (decide (k ∈ map Item_Key l)) as [Hk|Hk].
    + rewrite decide_True; [done|by right].
    + destruct (decide (k = Item_Key x)) as [->|Hne].
      * rewrite decide_True by left. apply lookup_insert_eq.
      * rewrite lookup_insert_ne by done. rewrite decide_False; [done|].
        intros [?|?]%elem_of_cons; done.
Qed.

Lemma refines_del_prefix e prefix : not_cancelled e ->
  refines (Badger.DeleteByPrefixWithTxn e prefix) (Spec.del_prefix (now e) prefix).
Proof.
  intros Hc t Ht. unfold Badger.DeleteByPrefixWithTxn.
  pose proof (iter_same (now e) t false) as (Hh & Hs & Hp & Hu).
  pose proof (iter_values (now e) t false) as Hv.
  pose proof (iter_sorted (now e) t false) as Hst.
  pose proof (Reads.keys_under_items (now e) t false prefix) as [_ Hk].
  destruct (NewIterator (now e) t false) as [t0 it]. simpl in *.
  rewrite Badger.for_prefix_list.
  destruct (del_loop e prefix 0
    (drop_while (fun x => str_ltb (Item_Key x) prefix) (It_all it)) t0)
    as (t' & -> & (Hh' & Hs' & Hu') & Hp'); [done| |congruence|].
  { intros x Hx. apply Hv.
    destruct (drop_while_suffix (fun x => str_ltb (Item_Key x) prefix) (It_all it)) as [pre ->].
    apply elem_of_app. auto. }
  simpl. split; [done|]. split; [|unfold frame; repeat split; congruence].
  rewrite Hp', Badger.scan_block, Hp by done. apply map_eq. intros k.
  rewrite foldl_tombstones, lookup_union, lookup_fmap. unfold under.
  destruct (decide (k ∈ _)) as [Hin|Hin]; rewrite Hk in Hin.
  - destruct Hin as [Hpre [v Hval]].
    erewrite (map_lookup_filter_Some_2 _ _ k v); [simpl; by destruct (txn_pending t !! k)|done|done].
  - rewrite map_lookup_filter_None_2; [simpl; by destruct (txn_pending t !! k)|].
    destruct (Spec.read _ _ _ !! k) as [v|] eqn:Er; [|by left]. right. intros v' E Hpre.
    apply Hin. split; [done|]. eauto.
Qed.

End Refinement.

(** ** Merges *)

Section MergeRefinement.
Context `{BadgerLaws} `{JsonLib} `{ProtoLib}.

Lemma refines_update_json e k delta ttl : key_ok k = true ->
  refines (Badger.UpdateJsonWithTxn e k delta ttl) (Spec.update_json (now e) k delta ttl).
Proof.
  intros Hk. eapply (refines_get_bind _ _ _ (fun o sn p =>
    match Spec.json_object o with
    | inl err => Ret (p, Some err)
    | inr None => if decide (delta = ∅) then
          match json_Marshal None with
          | inl err => Ret (p, Some err)
          | inr b => Spec.put (now e) k b ttl sn p
          end else Panic "assignment to entry in nil map"
    | inr (Some o) =>
        match json_Marshal (Some (delta ∪ o)) with
        | inl err => Ret (p, Some err)
        | inr b => Spec.put (now e) k b ttl sn p
        end
    end)); [done| |done].
  intros o. unfold Spec.json_object.
  destruct (match o with Some b => _ | None => _ end) as [err|[m|]];
    [apply refines_ret| |]; apply refines_lift_bind; simpl.
  - destruct (json_Marshal _); [apply refines_ret|by apply refines_put].
  - destruct (decide (delta = ∅)); [|done].
    destruct (json_Marshal None); [apply refines_ret|by apply refines_put].
Qed.

Lemma refines_update_proto e k delta ttl : key_ok k = true ->
  refines (Badger.UpdateProtobufWithTxn e k delta ttl) (Spec.update_proto (now e) k delta ttl).
Proof.
  intros Hk. eapply (refines_get_bind _ _ _ (fun o sn p =>
    match (match o with Some b => Dynamic.MergeProtoDelta b delta | None => proto_Marshal delta end) with
    | inl err => Ret (p, Some err)
    | inr b => Spec.put (now e) k b ttl sn p
    end)); [done| |done].
  intros o. simpl.
  destruct (match o with Some b => _ | None => _ end); [apply refines_ret|by apply refines_put].
Qed.

End MergeRefinement.

(** ** The single-node store is a map *)

Module Writes.
Section Store.
Context `{BadgerLaws} `{JsonLib} `{ProtoLib}.

(** The mutating calls of the [Database] interface. *)
Inductive op : Type :=
  | OSet (k : string) (v : bytes) (ttl : list Z)
  | OUpdateJson (k : string) (delta : gmap string any) (ttl : list Z)
  | OUpdateProtobuf (k : string) (delta : Message) (ttl : list Z)
  | OIncrBy (k : string) (d : Z)
  | ODecrBy (k : string) (d : Z)
  | ODelete (k : string)
  | ODeleteByPrefix (p : string).

Definition run_op (e : env) (b : Badger.store) (o : op) : outcome (Badger.store * option error) :=
  match o with
  | OSet k v ttl => Badger.Set_ e b k v ttl
  | OUpdateJson k delta ttl => Badger.UpdateJson e b k delta ttl
  | OUpdateProtobuf k delta ttl => Badger.UpdateProtobuf e b k delta ttl
  | OIncrBy k d => Badger.IncrBy e b k d
  | ODecrBy k d => Badger.DecrBy e b k d
  | ODelete k => Badger.Delete b k
  | ODeleteByPrefix p => Badger.DeleteByPrefix e b p
  end.

Definition spec_op (now : Z) (o : op) : atxn (option error) :=
  match o with
  | OSet k v ttl => Spec.put now k v ttl
  | OUpdateJson k delta ttl => Spec.update_json now k delta ttl
  | OUpdateProtobuf k delta ttl => Spec.update_proto now k delta ttl
  | OIncrBy k d => Spec.incr now k d
  | ODecrBy k d => Spec.decr now k d
  | ODelete k => Spec.del k
  | ODeleteByPrefix p => Spec.del_prefix now p
  end.

(** Keys Badger accepts, deltas that fit [uint64]. *)
Definition legal (o : op) : Prop :=
  match o with
  | OSet k _ _ | OUpdateJson k _ _ | OUpdateProtobuf k _ _ | ODelete k => key_ok k = true
  | OIncrBy k d | ODecrBy k d => key_ok k = true /\ is_u64 d
  | ODeleteByPrefix _ => True
  end.

(** A step of the abstract store: all the writes of the operation, or none. *)
Definition spec_step (now : Z) (m : gmap string version) (o : op)
    : outcome (gmap string version * option error) :=
  match spec_op now o m ∅ with
  | Ret (p, None) => Ret (p ∪ m, None)
  | Ret (_, Some err) => Ret (m, Some err)
  | Panic s => Panic s
  | Hang => Hang
  end.

Definition contents (b : Badger.store) : gmap string version :=
  snap_at (hist (Badger.db b)) max_u64.

(** Both stop the same way, and a store that stops is the map that stops. *)
Definition agree {A} (x : outcome (Badger.store * A)) (y : outcome (gmap string version * A))
    : Prop :=
  match x, y with
  | Ret (b, a), Ret (m, a') => a = a' /\ contents b = m /\ Badger.managed b = false
  | Panic s, Panic s' => s = s'
  | Hang, Hang => True
  | _, _ => False
  end.

(** Running a refined transaction and committing it is an abstract step. *)
Lemma NewTransaction_step (b : Badger.store) (m : M BTxn (option error)) f :
  Badger.managed b = false -> refines m f ->
  agree (Badger.NewTransaction b m)
    match f (contents b) ∅ with
    | Ret (p, None) => Ret (p ∪ contents b, None)
    | Ret (_, Some err) => Ret (contents b, Some err)
    | Panic s => Panic s
    | Hang => Hang
    end.
Proof.
  intros Hb Hm. unfold Badger.NewTransaction.
  destruct (new_txn (Badger.db b) true) as (Hh & Hs & Hp & Hu).
  specialize (Hm _ Hu). rewrite Hs, Hp in Hm. fold (contents b) in Hm.
  destruct (m _) as [[t' a]| |], (f _ _) as [[p' a']| |]; try done.
  destruct Hm as (<- & <- & Hh' & Hs' & Hu'). destruct a as [err|]; [done|].
  destruct (commit_ok (Badger.db b) t') as (db' & -> & Hsnap & _); [congruence|].
  done.
Qed.

Lemma Update_NewTransaction (b : Badger.store) m : Badger.Update b m = Badger.NewTransaction b m.
Proof.
  unfold Badger.Update, DB_Update, Badger.NewTransaction.
  destruct (m _) as [[t' [err|]]| |]; simpl; [by destruct b| |done|done].
  by destruct (Txn_Commit _ _).
Qed.

Lemma Delete_quiet b k : Badger.managed b = false -> key_ok k = true ->
  Badger.Delete b k = Badger.NewTransaction b (Badger.DeleteWithTxn k).
Proof.
  intros Hb Hk. unfold Badger.Delete. rewrite Hb, Update_NewTransaction.
  pose proof (NewTransaction_step b _ _ Hb (refines_del k Hk)) as Ha. simpl in Ha.
  destruct (Badger.NewTransaction _ _) as [[b' a]| |]; [|done|done].
  destruct Ha as [-> _]. done.
Qed.

Lemma step_refines e b o : not_cancelled e -> Badger.managed b = false -> legal o ->
  agree (run_op e b o) (spec_step (now e) (contents b) o).
Proof.
  intros Hc Hb Hl. destruct o; simpl in Hl; unfold run_op, spec_step, Badger.Set_,
    Badger.UpdateJson, Badger.UpdateProtobuf, Badger.IncrBy, Badger.DecrBy,
    Badger.DeleteByPrefix; rewrite ?Delete_quiet, ?Hb, ?Update_NewTransaction by done;
    apply NewTransaction_step; try done.
  - by apply refines_put.
  - by apply refines_update_json.
  - by apply refines_update_proto.
  - apply refines_incr, Hl.
  - destruct Hl. by apply refines_decr.
  - by apply refines_del.
  - by apply refines_del_prefix.
Qed.


(** Write calls on a managed store panic: only Raft may write to it. *)
Lemma managed_writes_panic (e : env) (b : Badger.store) (o : op) :
  Badger.managed b = true ->
  run_op e b o = Panic "operation not supported in managed db".
Proof.
  intros Hb. destruct o; unfold run_op, Badger.Set_, Badger.UpdateJson, Badger.UpdateProtobuf,
    Badger.IncrBy, Badger.DecrBy, Badger.Delete, Badger.DeleteByPrefix; by rewrite Hb.
Qed.

(** A cancelled [DeleteByPrefix] reports success.  When the context is
    cancelled at the [n]-th matching key, the call returns no error and
    commits: the first [n] keys under the prefix are deleted and the others
    stay. *)
Theorem cancelled_delete_commits_part (e : env) (b : Badger.store) (p : string) (n : nat) :
  Badger.managed b = false ->
  (forall j, (j < n)%nat -> ctx_done e j = false) -> ctx_done e n = true ->
  (n < size (under p (view (now e) (Badger.db b))))%nat ->
  exists b' keys, Badger.DeleteByPrefix e b p = Ret (b', None) /\
    Reads.keys_under p (view (now e) (Badger.db b)) keys /\
    forall k, contents b' !! k =
      if decide (k ∈ take n keys) then Some tombstone else contents b !! k.
Proof.
  intros Hb Hlt Hn Hlen. unfold Badger.DeleteByPrefix. rewrite Hb, Update_NewTransaction.
  unfold Badger.NewTransaction, Badger.DeleteByPrefixWithTxn.
  rewrite <- (Reads.new_txn_view (now e) (Badger.db b) true) in *.
  destruct (new_txn (Badger.db b) true) as (Hh0 & Hs0 & Hp0 & Hu0).
  set (t := DB_NewTransaction (Badger.db b) true) in *.
  pose proof (iter_same (now e) t false) as (Hh & Hs & Hp & Hu).
  pose proof (iter_values (now e) t false) as Hv.
  pose proof (iter_sorted (now e) t false) as Hst.
  pose proof (Reads.keys_under_items (now e) t false p) as Hk.
  destruct (NewIterator (now e) t false) as [t0 it]. simpl in *.
  rewrite Badger.for_prefix_list.
  destruct (del_loop_cut e p n 0
    (drop_while (fun x => str_ltb (Item_Key x) p) (It_all it)) t0)
    as (t' & -> & (Hh' & Hs' & Hu') & Hp'); [done|done| | |congruence|].
  { rewrite Badger.scan_block by done. apply Reads.keys_under_length in Hk.
    rewrite length_map in Hk. congruence. }
  { intros x Hx. apply Hv.
    destruct (drop_while_suffix (fun x => str_ltb (Item_Key x) p) (It_all it)) as [pre ->].
    apply elem_of_app. auto. }
  simpl. destruct (commit_ok (Badger.db b) t') as (db' & -> & Hsnap & _); [congruence|].
  eexists _, _. split; [reflexivity|]. split; [exact Hk|]. intros k. unfold contents. simpl.
  rewrite Hsnap, Hp', Badger.scan_block, Hp, Hp0, lookup_union, foldl_tombstones by done.
  rewrite <- firstn_map. case_decide; [by destruct (_ !! k)|].
  rewrite lookup_empty. by destruct (_ !! k).
Qed.

(** What [Get] answers, from the contents. *)
Lemma Get_contents e b k : key_ok k = true ->
  Badger.Get e b k = Ret (inr (omap (live (now e)) (contents b) !! k)).
Proof.
  intros Hk. unfold Badger.Get, DB_View.
  destruct (Reads.GetWithTxn_spec e k (DB_NewTransaction (Badger.db b) false) Hk)
    as (t' & -> & _).
  by rewrite (Reads.new_txn_view (now e) (Badger.db b) false).
Qed.

(** Counters.  On a counter that holds [c], [IncrBy d] then [Get] reads
    [c + d] modulo 2^64 and [DecrBy d] then [Get] reads [c - d], or zero where
    that is negative; an absent counter becomes [d], respectively zero. *)
Theorem counter_reads_back (e e' : env) (b : Badger.store) (k : string) (d : Z) (c : option Z) :
  Badger.managed b = false -> key_ok k = true -> is_u64 d ->
  (forall z, c = Some z -> is_u64 z) ->
  view (now e) (Badger.db b) !! k = Uint64ToBytes <$> c ->
  (exists b', Badger.IncrBy e b k d = Ret (b', None) /\
     Badger.Get e' b' k =
       Ret (inr (Some (Uint64ToBytes match c with Some z => u64 (z + d) | None => d end)))) /\
  (exists b', Badger.DecrBy e b k d = Ret (b', None) /\
     Badger.Get e' b' k =
       Ret (inr (Some (Uint64ToBytes match c with Some z => Z.max 0 (z - d) | None => 0 end)))).
Proof.
  intros Hb Hk Hd Hc Hv.
  assert (forall f init m, refines m (Spec.counter (now e) k f init) ->
    exists b', Badger.NewTransaction b m = Ret (b', None) /\
      Badger.Get e' b' k =
        Ret (inr (Some (Uint64ToBytes match c with Some z => f z | None => init end)))) as Hg.
  { intros f init m Hm. pose proof (NewTransaction_step b _ _ Hb Hm) as Ha.
    unfold Spec.counter, Spec.read in Ha. rewrite map_empty_union in Ha.
    change (omap (live (now e)) (contents b)) with (view (now e) (Badger.db b)) in Ha.
    assert (agree (Badger.NewTransaction b m)
      (Ret (<[k := Version (Some (Uint64ToBytes
          match c with Some z => f z | None => init end)) None]> ∅ ∪ contents b, None))) as Ha'.
    { rewrite Hv in Ha. destruct c as [z|]; [|exact Ha].
      rewrite <- (be_value_Uint64ToBytes z) by auto. exact Ha. }
    destruct (Badger.NewTransaction b m) as [[b' a]| |]; [|done|done].
    destruct Ha' as (-> & Hcon & _). exists b'. split; [done|].
    rewrite Get_contents, Hcon, lookup_omap, lookup_union, lookup_insert_eq by done.
    by destruct (contents b !! k). }
  unfold Badger.IncrBy, Badger.DecrBy. rewrite Hb. split.
  - apply (Hg (fun z => u64 (z + d)) d). by apply refines_incr.
  - apply (Hg (fun z => Z.max 0 (z - d)) 0). by apply refines_decr.
Qed.

End Store.

(** ** Witnesses *)

Definition sample_ops : list (env * op (H0 := MemJson) (H1 := MemProto)) :=
  [(Reads.quiet 1, OSet "c" (Uint64ToBytes 7) []);
   (Reads.quiet 2, OIncrBy "c" 5);
   (Reads.quiet 3, ODecrBy "c" 100);
   (Reads.quiet 4, ODeleteByPrefix "a/")].


(** A context cancelled at the second key. *)
Definition cancelled_at_1 : env := Env 0 (fun i => (1 <=? i)%nat).

Lemma cancelled_delete_commits_part_witness :
  exists b' keys, Badger.DeleteByPrefix cancelled_at_1 Reads.sample "a/" = Ret (b', None) /\
    Reads.keys_under "a/" (view (now cancelled_at_1) (Badger.db Reads.sample)) keys /\
    forall k, contents b' !! k =
      if decide (k ∈ take 1 keys) then Some tombstone else contents Reads.sample !! k.
Proof.
  apply (cancelled_delete_commits_part cancelled_at_1 Reads.sample "a/" 1).
  - reflexivity.
  - intros j Hj. replace j with 0%nat by lia. reflexivity.
  - reflexivity.
  - vm_compute. lia.
Defined.

Lemma counter_reads_back_witness :
  exists b', Badger.DecrBy (Reads.quiet 1) Reads.sample "n" 3 = Ret (b', None) /\
    Badger.Get (Reads.quiet 2) b' "n" = Ret (inr (Some (Uint64ToBytes 0))).
Proof.
  apply (counter_reads_back (Reads.quiet 1) (Reads.quiet 2) Reads.sample "n" 3 None);
    [reflexivity|reflexivity|word|done|vm_compute; reflexivity].
Defined.

End Writes.
