(* ===== verification/Command.v ===== *)
(** * types/methods.go and types.proto: the commands of the Raft log

    [Command] is the message every log entry carries, with its constructors,
    its encoding and the decoding of update deltas. *)

From S2P Require Import Prelude Errors Codecs.

(** ** types.proto *)

(** Proto3 enums are open: a decoded value may be none of the declared ones. *)
Inductive CommandType : Type :=
  | CommandType_UNKNOWN
  | CommandType_SET
  | CommandType_DELETE
  | CommandType_DECR_BY
  | CommandType_INCR_BY
  | CommandType_TRANSACTION
  | CommandType_DELETE_BY_PREFIX
  | CommandType_UPDATE
  | CommandType_undeclared (n : Z).

Inductive UpdateDeltaType : Type :=
  | UpdateDeltaType_UNKNOWN_DELTA
  | UpdateDeltaType_JSON
  | UpdateDeltaType_PROTOBUF
  | UpdateDeltaType_undeclared (n : Z).

#[global] Instance CommandType_eq_dec : EqDecision CommandType.
Proof. solve_decision. Defined.

#[global] Instance UpdateDeltaType_eq_dec : EqDecision UpdateDeltaType.
Proof. solve_decision. Defined.

Record UpdateMeta := MkUpdateMeta {
  UpdateDeltaType_ : UpdateDeltaType;
  MessageName_ : string
}.

(** [google.protobuf.Duration] and its conversions from and to
    [time.Duration]. *)
Class DurationLib := {
  Duration : Type;
  durationpb_New : Z -> Duration;
  AsDuration : Duration -> Z
}.

Class DurationLaws `{D : DurationLib} : Prop := {
  duration_roundtrip : forall d, is_i64 d -> AsDuration (durationpb_New d) = d
}.

Inductive Command `{DurationLib} : Type := MkCommand {
  Id : string;
  Type_ : CommandType;
  Key : string;
  Value : bytes;
  Prefix : string;
  IncrOrDecrDelta : Z;
  Ttl : option Duration;
  ReadTs : Z;
  CommitTs : Z;
  UpdateMeta_ : option UpdateMeta;
  SubCommands : list Command
}.

(** The wire format of the generated message type. *)
Class CommandCodec `{DurationLib} := {
  command_Marshal : Command -> result bytes;
  command_Unmarshal : bytes -> result Command
}.

Class CommandCodecLaws `{C : CommandCodec} : Prop := {
  command_roundtrip : forall c b, command_Marshal c = inr b -> command_Unmarshal b = inr c
}.

(** ** types/methods.go *)

Module Commands.
Section WithDuration.
Context `{DurationLib}.

(** [&Command{...}]: the fields not set are zero. *)
Definition blank (id : string) (t : CommandType) : Command :=
  MkCommand _ id t "" [] "" 0 None 0 0 None [].

(** The commands take the identifier [getNewCmdId] made. *)
Definition NewSetCommand (id : string) (key : string) (value : bytes) (ttl : list Z)
    : Command :=
  MkCommand _ id CommandType_SET key value "" 0 (durationpb_New <$> head ttl) 0 0 None [].

Definition NewUpdateCommand (id : string) (key : string) (delta : bytes)
    (deltaType : UpdateDeltaType) (msgName : string) (ttl : list Z) : Command :=
  MkCommand _ id CommandType_UPDATE key delta "" 0 (durationpb_New <$> head ttl) 0 0
    (Some (MkUpdateMeta deltaType msgName)) [].

Definition NewDeleteCommand (id : string) (key : string) : Command :=
  MkCommand _ id CommandType_DELETE key [] "" 0 None 0 0 None [].

Definition NewDeleteByPrefixCommand (id : string) (prefix : string) : Command :=
  MkCommand _ id CommandType_DELETE_BY_PREFIX "" [] prefix 0 None 0 0 None [].

Definition NewIncrByCommand (id : string) (key : string) (delta : Z) : Command :=
  MkCommand _ id CommandType_INCR_BY key [] "" delta None 0 0 None [].

Definition NewDecrByCommand (id : string) (key : string) (delta : Z) : Command :=
  MkCommand _ id CommandType_DECR_BY key [] "" delta None 0 0 None [].

Definition NewTransactionCommand (id : string) : Command :=
  blank id CommandType_TRANSACTION.

(** Assignments [c.SubCommands = ...], [c.ReadTs = ...] and [c.CommitTs = ...]. *)
Definition with_subs (c : Command) (subs : list Command) : Command :=
  MkCommand _ (Id c) (Type_ c) (Key c) (Value c) (Prefix c) (IncrOrDecrDelta c) (Ttl c)
    (ReadTs c) (CommitTs c) (UpdateMeta_ c) subs.

Definition with_ts (c : Command) (readTs commitTs : Z) : Command :=
  MkCommand _ (Id c) (Type_ c) (Key c) (Value c) (Prefix c) (IncrOrDecrDelta c) (Ttl c)
    readTs commitTs (UpdateMeta_ c) (SubCommands c).

(** A nil or TRANSACTION sub-command panics. *)
Definition AddSubCommand (c : Command) (subCmd : option Command) : outcome Command :=
  match subCmd with
  | None => Panic "dev stage panic: invalid sub command"
  | Some sub =>
      if decide (Type_ sub = CommandType_TRANSACTION)
      then Panic "dev stage panic: invalid sub command"
      else Ret (with_subs c (SubCommands c ++ [sub]))
  end.

End WithDuration.

Section WithCodecs.
Context `{CommandCodec} `{JsonLib} `{ProtoLib}.

Definition Encode (c : Command) : result bytes := command_Marshal c.
Definition DecodeCommand (data : bytes) : result Command := command_Unmarshal data.

(** What [UnmarshalUpdateDelta] returns as [any]. *)
Inductive delta : Type :=
  | DeltaJson (m : option (gmap string any))
  | DeltaProto (m : Message).

Definition UnmarshalUpdateDelta (cache : option Dynamic.protoDescriptorStore) (c : Command)
    : outcome (result delta) :=
  match UpdateMeta_ c with
  | None => Ret (inl (OtherError "invalid update command"))
  | Some meta =>
      if decide (Type_ c <> CommandType_UPDATE)
      then Ret (inl (OtherError "invalid update command"))
      else if decide (UpdateDeltaType_ meta = UpdateDeltaType_UNKNOWN_DELTA)
      then Ret (inl (OtherError "invalid update command"))
      else if decide (UpdateDeltaType_ meta = UpdateDeltaType_JSON) then
        match json_Unmarshal (Value c) with
        | inl err => Ret (inl err)
        | inr deltaJson => Ret (inr (DeltaJson deltaJson))
        end
      else
        r ← Dynamic.GetMessageFromDescriptorSet
              (Dynamic.GetProtoDescriptorStore cache) (MessageName_ meta);
        match r with
        | inl err => Ret (inl err)
        | inr msg =>
            match proto_Unmarshal (Value c) msg with
            | inl err => Ret (inl err)
            | inr msg => Ret (inr (DeltaProto msg))
            end
        end
  end.

End WithCodecs.
End Commands.
