(* ===== verification/MemCommand.v ===== *)
(** * A concrete wire format for commands

    Instances of the duration and command-codec interfaces of [Command]: they
    show that the laws can hold and make [Fsm.Apply] runnable. *)

From S2P Require Import Prelude Errors Codecs Command MemCodecs.

#[global] Instance MemDuration : DurationLib := {
  Duration := Z;
  durationpb_New := id;
  AsDuration := id
}.

#[global] Instance MemDurationLaws : DurationLaws (D := MemDuration).
Proof. by split. Qed.

Definition type_code (t : CommandType) : nat + Z :=
  match t with
  | CommandType_UNKNOWN => inl 0
  | CommandType_SET => inl 1
  | CommandType_DELETE => inl 2
  | CommandType_DECR_BY => inl 3
  | CommandType_INCR_BY => inl 4
  | CommandType_TRANSACTION => inl 5
  | CommandType_DELETE_BY_PREFIX => inl 6
  | CommandType_UPDATE => inl 7
  | CommandType_undeclared n => inr n
  end%nat.

Definition code_type (c : nat + Z) : CommandType :=
  match c with
  | inl 1 => CommandType_SET
  | inl 2 => CommandType_DELETE
  | inl 3 => CommandType_DECR_BY
  | inl 4 => CommandType_INCR_BY
  | inl 5 => CommandType_TRANSACTION
  | inl 6 => CommandType_DELETE_BY_PREFIX
  | inl 7 => CommandType_UPDATE
  | inl _ => CommandType_UNKNOWN
  | inr n => CommandType_undeclared n
  end%nat.

Definition delta_code (t : UpdateDeltaType) : nat + Z :=
  match t with
  | UpdateDeltaType_UNKNOWN_DELTA => inl 0
  | UpdateDeltaType_JSON => inl 1
  | UpdateDeltaType_PROTOBUF => inl 2
  | UpdateDeltaType_undeclared n => inr n
  end%nat.

Definition code_delta (c : nat + Z) : UpdateDeltaType :=
  match c with
  | inl 1 => UpdateDeltaType_JSON
  | inl 2 => UpdateDeltaType_PROTOBUF
  | inl _ => UpdateDeltaType_UNKNOWN_DELTA
  | inr n => UpdateDeltaType_undeclared n
  end%nat.

(** The scalar fields of a command. *)
Definition flat : Type :=
  (string * (nat + Z) * string * bytes * string) *
  (Z * option Z * Z * Z * option ((nat + Z) * string)).

Definition flatten (c : Command) : flat :=
  ((Id c, type_code (Type_ c), Key c, Value c, Prefix c),
   (IncrOrDecrDelta c, Ttl c, ReadTs c, CommitTs c,
    (fun m => (delta_code (UpdateDeltaType_ m), MessageName_ m)) <$> UpdateMeta_ c)).

Definition unflatten (f : flat) (subs : list Command) : Command :=
  let '((id, t, k, v, p), (d, ttl, r, ct, meta)) := f in
  MkCommand _ id (code_type t) k v p d ttl r ct
    ((fun m => MkUpdateMeta (code_delta m.1) m.2) <$> meta) subs.

Fixpoint to_tree (c : Command) : gen_tree flat :=
  match c with
  | MkCommand _ _ _ _ _ _ _ _ _ _ _ subs =>
      GenNode 0 (GenLeaf (flatten c) :: map to_tree subs)
  end.

Fixpoint of_tree (t : gen_tree flat) : option Command :=
  match t with
  | GenNode _ (GenLeaf f :: ts) => unflatten f <$> mapM of_tree ts
  | _ => None
  end.

Lemma unflatten_flatten c : unflatten (flatten c) (SubCommands c) = c.
Proof.
  destruct c as [id t k v p d ttl r ct meta subs]. unfold flatten, unflatten. simpl.
  f_equal.
  - by destruct t.
  - destruct meta as [[dt n]|]; simpl; [|done]. do 2 f_equal. by destruct dt.
Qed.

Fixpoint of_to_tree (c : Command) : of_tree (to_tree c) = Some c.
Proof.
  rewrite <- (unflatten_flatten c) at 2.
  destruct c as [id t k v p d ttl r ct meta subs]. simpl.
  assert (mapM of_tree (map to_tree subs) = Some subs) as ->; [|done].
  induction subs as [|s subs IH]; simpl; [done|]. rewrite (of_to_tree s). simpl.
  by rewrite IH.
Qed.

#[global] Instance MemCommand : CommandCodec := {
  command_Marshal := fun c => inr (pos_bytes (encode (to_tree c)));
  command_Unmarshal := fun b =>
    match decode (bytes_pos b) ≫= of_tree with
    | Some c => inr c
    | None => inl (OtherError "cannot parse invalid wire-format data")
    end
}.

#[global] Instance MemCommandLaws : CommandCodecLaws (C := MemCommand).
Proof.
  split. intros c b [= <-]. simpl. rewrite bytes_pos_bytes, decode_encode. simpl.
  by rewrite of_to_tree.
Qed.
