(* ===== verification/Fsm.v ===== *)
(** * fsm.go: applying committed commands

    The state machine that Raft replicates: [Apply] decodes an entry and runs
    it in a managed Badger transaction that reads at the command's [ReadTs]
    and commits at its [CommitTs]. *)

From S2P Require Import Prelude Errors Utils Mvcc BadgerApi MemBadger Codecs.
From S2P Require Import MemCodecs Badger BadgerReads BadgerWrites Command.

Module Fsm.
Section WithLibs.
Context `{BadgerAPI} `{JsonLib} `{ProtoLib} `{CommandCodec}.

(** The process-wide descriptor store [applyUpdate] looks messages up in. *)
Context (cache : option Dynamic.protoDescriptorStore).

Definition getTtl (cmd : Command) : list Z :=
  match Ttl cmd with
  | Some d => [AsDuration d]
  | None => []
  end.

(** The body of the update transaction, which [applyUpdate] and
    [applyTransaction] share; reading [cmd.UpdateMeta.UpdateDeltaType] of a nil
    meta panics. *)
Definition update_txn (e : env) (cmd : Command) : M BTxn (option error) :=
  match UpdateMeta_ cmd with
  | None => lift (Panic "nil pointer dereference")
  | Some meta =>
      match UpdateDeltaType_ meta with
      | UpdateDeltaType_PROTOBUF =>
          r ← lift (Commands.UnmarshalUpdateDelta cache cmd);
          match r with
          | inl err => mret (Some err)
          | inr (Commands.DeltaProto msg) =>
              Badger.UpdateProtobufWithTxn e (Key cmd) msg (getTtl cmd)
          | inr (Commands.DeltaJson _) => lift (Panic "nil message")
          end
      | UpdateDeltaType_JSON =>
          r ← lift (Commands.UnmarshalUpdateDelta cache cmd);
          match r with
          | inl err => mret (Some err)
          | inr (Commands.DeltaJson msg) =>
              Badger.UpdateJsonWithTxn e (Key cmd) (default ∅ msg) (getTtl cmd)
          | inr (Commands.DeltaProto _) =>
              Badger.UpdateJsonWithTxn e (Key cmd) ∅ (getTtl cmd)
          end
      | _ => mret (Some ErrUnknownOp)
      end
  end.

Definition applySet (e : env) (b : Badger.store) (cmd : Command)
    : outcome (Badger.store * option error) :=
  Badger.newTransactionAt b (ReadTs cmd) (CommitTs cmd)
    (Badger.SetWithTxn e (Key cmd) (Value cmd) (getTtl cmd)).

Definition applyUpdate (e : env) (b : Badger.store) (cmd : Command)
    : outcome (Badger.store * option error) :=
  Badger.newTransactionAt b (ReadTs cmd) (CommitTs cmd) (update_txn e cmd).

Definition applyDelete (e : env) (b : Badger.store) (cmd : Command)
    : outcome (Badger.store * option error) :=
  Badger.newTransactionAt b (ReadTs cmd) (CommitTs cmd) (Badger.DeleteWithTxn (Key cmd)).

Definition applyDeleteByPrefix (e : env) (b : Badger.store) (cmd : Command)
    : outcome (Badger.store * option error) :=
  Badger.newTransactionAt b (ReadTs cmd) (CommitTs cmd)
    (Badger.DeleteByPrefixWithTxn e (Prefix cmd)).

Definition applyIncrBy (e : env) (b : Badger.store) (cmd : Command)
    : outcome (Badger.store * option error) :=
  Badger.newTransactionAt b (ReadTs cmd) (CommitTs cmd)
    (Badger.IncrByWithTxn e (Key cmd) (IncrOrDecrDelta cmd)).

Definition applyDecrBy (e : env) (b : Badger.store) (cmd : Command)
    : outcome (Badger.store * option error) :=
  Badger.newTransactionAt b (ReadTs cmd) (CommitTs cmd)
    (Badger.DecrByWithTxn e (Key cmd) (IncrOrDecrDelta cmd)).

(** One iteration of the loop of [applyTransaction]. *)
Definition sub_txn (e : env) (subCmd : Command) : M BTxn (option error) :=
  match Type_ subCmd with
  | CommandType_SET =>
      Badger.SetWithTxn e (Key subCmd) (Value subCmd) (getTtl subCmd)
  | CommandType_UPDATE => update_txn e subCmd
  | CommandType_DELETE => Badger.DeleteWithTxn (Key subCmd)
  | CommandType_INCR_BY =>
      Badger.IncrByWithTxn e (Key subCmd) (IncrOrDecrDelta subCmd)
  | CommandType_DECR_BY =>
      Badger.DecrByWithTxn e (Key subCmd) (IncrOrDecrDelta subCmd)
  | _ => mret (Some ErrUnknownOp)
  end.

Fixpoint sub_txns (e : env) (subs : list Command) : M BTxn (option error) :=
  match subs with
  | [] => mret None
  | sub :: subs' =>
      err ← sub_txn e sub;
      match err with
      | Some err => mret (Some err)
      | None => sub_txns e subs'
      end
  end.

Definition applyTransaction (e : env) (b : Badger.store) (cmd : Command)
    : outcome (Badger.store * option error) :=
  Badger.newTransactionAt b (ReadTs cmd) (CommitTs cmd) (sub_txns e (SubCommands cmd)).

(** The dispatch of [Apply]. *)
Definition apply_cmd (e : env) (b : Badger.store) (c : Command)
    : outcome (Badger.store * option error) :=
  match Type_ c with
  | CommandType_SET => applySet e b c
  | CommandType_UPDATE => applyUpdate e b c
  | CommandType_DELETE => applyDelete e b c
  | CommandType_DELETE_BY_PREFIX => applyDeleteByPrefix e b c
  | CommandType_INCR_BY => applyIncrBy e b c
  | CommandType_DECR_BY => applyDecrBy e b c
  | CommandType_TRANSACTION => applyTransaction e b c
  | _ => Ret (b, Some ErrUnknownOp)
  end.

Definition Apply (e : env) (b : Badger.store) (data : bytes)
    : outcome (Badger.store * option error) :=
  match Commands.DecodeCommand data with
  | inl err => Ret (b, Some err)
  | inr c => apply_cmd e b c
  end.

(** ** What a command means

    The writes of a command, as a function of the snapshot it reads. *)

Definition update_spec (now : Z) (cmd : Command) : atxn (option error) :=
  fun sn p =>
    match UpdateMeta_ cmd with
    | None => Panic "nil pointer dereference"
    | Some meta =>
        match UpdateDeltaType_ meta with
        | UpdateDeltaType_JSON | UpdateDeltaType_PROTOBUF =>
            match Commands.UnmarshalUpdateDelta cache cmd with
            | Ret (inl err) => Ret (p, Some err)
            | Ret (inr (Commands.DeltaJson m)) =>
                Spec.update_json now (Key cmd) (default ∅ m) (getTtl cmd) sn p
            | Ret (inr (Commands.DeltaProto m)) =>
                Spec.update_proto now (Key cmd) m (getTtl cmd) sn p
            | Panic s => Panic s
            | Hang => Hang
            end
        | _ => Ret (p, Some ErrUnknownOp)
        end
    end.

Definition sub_spec (now : Z) (c : Command) : atxn (option error) :=
  match Type_ c with
  | CommandType_SET => Spec.put now (Key c) (Value c) (getTtl c)
  | CommandType_UPDATE => update_spec now c
  | CommandType_DELETE => Spec.del (Key c)
  | CommandType_INCR_BY => Spec.incr now (Key c) (IncrOrDecrDelta c)
  | CommandType_DECR_BY => Spec.decr now (Key c) (IncrOrDecrDelta c)
  | _ => fun _ p => Ret (p, Some ErrUnknownOp)
  end.

Fixpoint subs_spec (now : Z) (subs : list Command) : atxn (option error) :=
  match subs with
  | [] => fun _ p => Ret (p, None)
  | c :: subs' => fun sn p =>
      match sub_spec now c sn p with
      | Ret (p', None) => subs_spec now subs' sn p'
      | r => r
      end
  end.

Definition cmd_spec (now : Z) (c : Command) : atxn (option error) :=
  match Type_ c with
  | CommandType_DELETE_BY_PREFIX => Spec.del_prefix now (Prefix c)
  | CommandType_TRANSACTION => subs_spec now (SubCommands c)
  | _ => sub_spec now c
  end.

(** Keys Badger accepts and deltas that fit [uint64]. *)
Definition legal_sub (c : Command) : Prop :=
  match Type_ c with
  | CommandType_SET | CommandType_UPDATE | CommandType_DELETE
  | CommandType_INCR_BY | CommandType_DECR_BY =>
      key_ok (Key c) = true /\ is_u64 (IncrOrDecrDelta c)
  | _ => True
  end.

Definition legal_cmd (c : Command) : Prop :=
  match Type_ c with
  | CommandType_DELETE_BY_PREFIX => True
  | CommandType_TRANSACTION => Forall legal_sub (SubCommands c)
  | _ => legal_sub c
  end.

(** The transaction body [apply_cmd] runs. *)
Definition cmd_txn (e : env) (c : Command) : M BTxn (option error) :=
  match Type_ c with
  | CommandType_DELETE_BY_PREFIX => Badger.DeleteByPrefixWithTxn e (Prefix c)
  | CommandType_TRANSACTION => sub_txns e (SubCommands c)
  | _ => sub_txn e c
  end.

End WithLibs.

(** ** The operations refine their meaning *)

Section Refinement.
Context `{BadgerLaws} `{JsonLib} `{ProtoLib} `{CommandCodec}.
Context (cache : option Dynamic.protoDescriptorStore).

Lemma UnmarshalUpdateDelta_json c d meta :
  UpdateMeta_ c = Some meta -> UpdateDeltaType_ meta = UpdateDeltaType_JSON ->
  Commands.UnmarshalUpdateDelta cache c = Ret (inr d) -> exists m, d = Commands.DeltaJson m.
Proof.
  intros Hm Hd. unfold Commands.UnmarshalUpdateDelta. rewrite Hm, Hd.
  case_decide; [done|]. rewrite decide_False, decide_True by done.
  destruct (json_Unmarshal (Value c)); naive_solver.
Qed.

Lemma UnmarshalUpdateDelta_proto c d meta :
  UpdateMeta_ c = Some meta -> UpdateDeltaType_ meta = UpdateDeltaType_PROTOBUF ->
  Commands.UnmarshalUpdateDelta cache c = Ret (inr d) -> exists m, d = Commands.DeltaProto m.
Proof.
  intros Hm Hd. unfold Commands.UnmarshalUpdateDelta. rewrite Hm, Hd.
  case_decide; [done|]. rewrite !decide_False by done.
  destruct (Dynamic.GetMessageFromDescriptorSet _ _) as [[?|m]| |]; simpl; try done.
  destruct (proto_Unmarshal (Value c) m); naive_solver.
Qed.

Lemma refines_panic {A} s : refines (A := A) (lift (Panic s)) (fun _ _ => Panic s).
Proof. intros t Ht. reflexivity. Qed.

Lemma refines_update e c : key_ok (Key c) = true ->
  refines (update_txn cache e c) (update_spec cache (now e) c).
Proof.
  intros Hk. unfold update_txn, update_spec.
  destruct (UpdateMeta_ c) as [meta|] eqn:Em; [|apply refines_panic].
  destruct (UpdateDeltaType_ meta) eqn:Ed; try apply refines_ret;
    apply refines_lift_bind;
    destruct (Commands.UnmarshalUpdateDelta cache c) as [[err|d]|s|] eqn:Eu;
    try done; try apply refines_ret.
  - destruct (UnmarshalUpdateDelta_json c d meta) as [m ->]; [done..|].
    by apply refines_update_json.
  - destruct (UnmarshalUpdateDelta_proto c d meta) as [m ->]; [done..|].
    by apply refines_update_proto.
Qed.

Lemma refines_sub e c : legal_sub c ->
  refines (sub_txn cache e c) (sub_spec cache (now e) c).
Proof.
  unfold legal_sub, sub_txn, sub_spec. intros Hl.
  destruct (Type_ c); try apply refines_ret; destruct Hl as [Hk Hd].
  - by apply refines_put.
  - by apply refines_del.
  - by apply refines_decr.
  - by apply refines_incr.
  - by apply refines_update.
Qed.

Lemma refines_subs e subs : Forall legal_sub subs ->
  refines (sub_txns cache e subs) (subs_spec cache (now e) subs).
Proof.
  induction 1 as [|c subs Hc _ IH]; simpl; [apply refines_ret|].
  eapply refines_ext; [|apply (refines_bind _ _ _
    (fun err => match err with Some err => fun _ => mret (Some err)
                          | None => subs_spec cache (now e) subs end)
    (refines_sub e c Hc))].
  - intros sn p. unfold mbind, M_bind.
    by destruct (sub_spec cache (now e) c sn p) as [[p' [err|]]| |].
  - intros [err|]; [apply refines_ret|exact IH].
Qed.

Lemma refines_cmd e c : not_cancelled e -> legal_cmd c ->
  refines (cmd_txn cache e c) (cmd_spec cache (now e) c).
Proof.
  intros Hc Hl. unfold cmd_txn, cmd_spec, legal_cmd in *.
  destruct (Type_ c); try by apply refines_sub.
  - by apply refines_subs.
  - by apply refines_del_prefix.
Qed.

(** A command of a type [Apply] knows runs in one transaction; any other is
    rejected, as its transaction would be. *)
Lemma apply_cmd_txn e b c :
  apply_cmd cache e b c = Badger.newTransactionAt b (ReadTs c) (CommitTs c) (cmd_txn cache e c).
Proof.
  unfold apply_cmd, cmd_txn, sub_txn, applySet, applyUpdate, applyDelete,
    applyDeleteByPrefix, applyIncrBy, applyDecrBy, applyTransaction.
  by destruct (Type_ c).
Qed.

(** A managed transaction of a refined body: its writes enter the history at
    the commit timestamp, or nothing does. *)
Lemma newTransactionAt_step b r c (m : M BTxn (option error)) f :
  detect_conflicts (Badger.db b) = false -> refines m f ->
  match f (snap_at (hist (Badger.db b)) r) ∅ with
  | Ret (p, None) => exists b', Badger.newTransactionAt b r c m = Ret (b', None) /\
      hist (Badger.db b') = add_versions c p (hist (Badger.db b)) /\
      detect_conflicts (Badger.db b') = false
  | Ret (_, Some err) => Badger.newTransactionAt b r c m = Ret (b, Some err)
  | Panic s => Badger.newTransactionAt b r c m = Panic s
  | Hang => Badger.newTransactionAt b r c m = Hang
  end.
Proof.
  intros Hb Hm. unfold Badger.newTransactionAt.
  destruct (new_txn_at (Badger.db b) r true) as (Hh & Hs & Hp & Hu).
  specialize (Hm _ Hu). rewrite Hs, Hp in Hm.
  destruct (m _) as [[t' a]| |], (f _ _) as [[p' a']| |]; try done; [|by subst].
  destruct Hm as (<- & <- & _). destruct a as [err|]; [done|].
  destruct (commit_at_ok (Badger.db b) t' c Hb) as (db' & -> & Hh' & Hd'). eauto.
Qed.

End Refinement.
End Fsm.
