(* ===== verification/FsmLog.v ===== *)
(** * Applying a log of commands

    What the replicas rely on: a command is applied whole at its commit
    timestamp or not at all, replicas that apply the same log agree, applying
    entries again after a restart changes nothing, and a log whose commands
    do not overlap is a sequential map. *)

From S2P Require Import Prelude Errors Utils Mvcc BadgerApi MemBadger Codecs.
From S2P Require Import MemCodecs Badger BadgerReads BadgerWrites Command MemCommand.
From S2P Require Import Fsm.

Module FsmLog.

(** ** Values that do not expire *)

Definition no_ttl (m : gmap string version) : Prop := map_Forall (fun _ v => ver_ttl v = None) m.

Definition hist_no_ttl (h : history) : Prop :=
  forall k vs t v, h !! k = Some vs -> vs !! t = Some v -> ver_ttl v = None.

Lemma snap_no_ttl h ts : hist_no_ttl h -> no_ttl (snap_at h ts).
Proof.
  intros Hh k v. rewrite lookup_snap_at.
  destruct (h !! k) as [vs|] eqn:E; simpl; [|done].
  destruct (latest ts vs) as [[t w]|] eqn:El; simpl; [|done]. intros [= <-].
  apply latest_Some in El as [Ht _]. eauto.
Qed.

Lemma add_no_ttl c ws h : hist_no_ttl h -> no_ttl ws -> hist_no_ttl (add_versions c ws h).
Proof.
  intros Hh Hw k vs t v. rewrite lookup_add_versions.
  destruct (ws !! k) as [w|] eqn:E; [|eauto]. intros [= <-].
  rewrite lookup_insert. case_decide; [intros [= <-]; by apply (Hw k)|].
  destruct (h !! k) as [vs|] eqn:E'; simpl; [eauto|by rewrite lookup_empty].
Qed.

Lemma no_ttl_empty : no_ttl ∅.
Proof. apply map_Forall_empty. Qed.

Lemma no_ttl_insert k v p : ver_ttl v = None -> no_ttl p -> no_ttl (<[k := v]> p).
Proof. intros Hv Hp. by apply map_Forall_insert_2. Qed.

Lemma no_ttl_union p q : no_ttl p -> no_ttl q -> no_ttl (p ∪ q).
Proof. intros Hp Hq. by apply map_Forall_union_2. Qed.

#[local] Hint Resolve no_ttl_empty no_ttl_insert no_ttl_union snap_no_ttl add_no_ttl : omashu.

Section ClockFree.
Context `{BadgerAPI} `{JsonLib} `{ProtoLib} `{CommandCodec}.
Context (cache : option Dynamic.protoDescriptorStore).

Lemma read_clock n n' sn p : no_ttl sn -> no_ttl p -> Spec.read n sn p = Spec.read n' sn p.
Proof.
  intros Hs Hp. unfold Spec.read. apply map_eq. intros k. rewrite !lookup_omap.
  destruct ((p ∪ sn) !! k) as [v|] eqn:E; simpl; [|done].
  unfold live. by rewrite (no_ttl_union p sn Hp Hs k v E).
Qed.

(** A transaction that does not look at the clock and stores nothing that
    expires. *)
Definition clock_free {A} (f : Z -> atxn A) : Prop :=
  forall n n' sn p, no_ttl sn -> no_ttl p ->
    f n sn p = f n' sn p /\
    match f n sn p with Ret (p', _) => no_ttl p' | _ => True end.

Lemma put_clock_free k v : clock_free (fun n => Spec.put n k v []).
Proof. intros n n' sn p Hs Hp. split; [done|]. simpl. auto with omashu. Qed.

Lemma del_clock_free k : clock_free (fun _ => Spec.del k).
Proof. intros n n' sn p Hs Hp. split; [done|]. simpl. auto with omashu. Qed.

Lemma del_prefix_clock_free pre : clock_free (fun n => Spec.del_prefix n pre).
Proof.
  intros n n' sn p Hs Hp. unfold Spec.del_prefix. rewrite (read_clock n n') by done.
  split; [done|]. apply no_ttl_union; [|done]. intros k v.
  rewrite lookup_fmap. destruct (_ !! k); simpl; [by intros [= <-]|done].
Qed.

Lemma ret_clock_free {A} (a : A) : clock_free (fun _ _ p => Ret (p, a)).
Proof. by intros n n' sn p Hs Hp. Qed.

Lemma counter_clock_free k f init : clock_free (fun n => Spec.counter n k f init).
Proof.
  intros n n' sn p Hs Hp. unfold Spec.counter. rewrite (read_clock n n') by done.
  destruct (Spec.read n' sn p !! k) as [b|]; [|by apply put_clock_free].
  destruct (length b <? 8)%nat; [done|]. by apply put_clock_free.
Qed.

Lemma update_json_clock_free k delta : clock_free (fun n => Spec.update_json n k delta []).
Proof.
  intros n n' sn p Hs Hp. unfold Spec.update_json. rewrite (read_clock n n') by done.
  destruct (Spec.json_object _) as [err|[o|]]; [done| |].
  - destruct (json_Marshal _); [done|by apply put_clock_free].
  - case_decide; [|done]. destruct (json_Marshal _); [done|by apply put_clock_free].
Qed.

Lemma update_proto_clock_free k delta : clock_free (fun n => Spec.update_proto n k delta []).
Proof.
  intros n n' sn p Hs Hp. unfold Spec.update_proto. rewrite (read_clock n n') by done.
  destruct (match _ !! k with Some b => _ | None => _ end); [done|by apply put_clock_free].
Qed.

(** Commands without a time to live. *)
Definition ttl_free (c : Command) : Prop :=
  Ttl c = None /\ Forall (fun sub => Ttl sub = None) (SubCommands c).

Lemma sub_clock_free c : Ttl c = None -> clock_free (fun n => Fsm.sub_spec cache n c).
Proof.
  intros Ht. assert (Fsm.getTtl c = []) as E by (unfold Fsm.getTtl; by rewrite Ht).
  unfold Fsm.sub_spec, Fsm.update_spec. rewrite E.
  destruct (Type_ c); try apply ret_clock_free.
  - apply put_clock_free.
  - apply del_clock_free.
  - apply counter_clock_free.
  - apply counter_clock_free.
  - intros n n' sn p Hs Hp. destruct (UpdateMeta_ c) as [meta|]; [|done].
    destruct (UpdateDeltaType_ meta); try done;
      destruct (Commands.UnmarshalUpdateDelta cache c) as [[?|[m|m]]| |]; try done;
      by apply update_json_clock_free || by apply update_proto_clock_free.
Qed.

Lemma subs_clock_free subs : Forall (fun c => Ttl c = None) subs ->
  clock_free (fun n => Fsm.subs_spec cache n subs).
Proof.
  induction 1 as [|c subs Hc _ IH]; [apply ret_clock_free|].
  intros n n' sn p Hs Hp. simpl.
  destruct (sub_clock_free c Hc n n' sn p Hs Hp) as [<- Hp'].
  destruct (Fsm.sub_spec cache n c sn p) as [[p' [err|]]| |]; [done| |done|done].
  by apply IH.
Qed.

Lemma cmd_clock_free c : ttl_free c -> clock_free (fun n => Fsm.cmd_spec cache n c).
Proof.
  intros [Ht Hs]. unfold Fsm.cmd_spec. destruct (Type_ c); try by apply sub_clock_free.
  - by apply subs_clock_free.
  - apply del_prefix_clock_free.
Qed.

(** ** The log on histories *)

(** One command, one entry. *)
Definition step_hist (now : Z) (h : history) (c : Command) : outcome (history * option error) :=
  match Fsm.cmd_spec cache now c (snap_at h (ReadTs c)) ∅ with
  | Ret (p, None) => Ret (add_versions (CommitTs c) p h, None)
  | Ret (_, Some err) => Ret (h, Some err)
  | Panic s => Panic s
  | Hang => Hang
  end.

Definition step_entry (now : Z) (h : history) (data : bytes) : outcome (history * option error) :=
  match Commands.DecodeCommand data with
  | inl err => Ret (h, Some err)
  | inr c => step_hist now h c
  end.

(** A property of the command an entry decodes to, if it does. *)
Definition on_cmd (P : Command -> Prop) (data : bytes) : Prop :=
  match Commands.DecodeCommand data with inl _ => True | inr c => P c end.

Lemma step_hist_clock n n' h c : hist_no_ttl h -> ttl_free c ->
  step_hist n h c = step_hist n' h c.
Proof.
  intros Hh Hc. unfold step_hist.
  destruct (cmd_clock_free c Hc n n' (snap_at h (ReadTs c)) ∅) as [<- _];
    auto with omashu.
Qed.

Lemma step_hist_no_ttl n h c h' r : hist_no_ttl h -> ttl_free c ->
  step_hist n h c = Ret (h', r) -> hist_no_ttl h'.
Proof.
  intros Hh Hc. unfold step_hist.
  destruct (cmd_clock_free c Hc n n (snap_at h (ReadTs c)) ∅) as [_ Hp]; [auto with omashu..|].
  destruct (Fsm.cmd_spec _ _ _ _ _) as [[p [err|]]| |]; intros E; simplify_eq; auto with omashu.
Qed.

End ClockFree.
(** ** [Apply] is the step on histories *)

Section Log.
Context `{BadgerLaws} `{JsonLib} `{ProtoLib} `{CommandCodec}.
Context (cache : option Dynamic.protoDescriptorStore).

(** Entries that can be applied: the commands they hold are legal. *)
Definition legal_entry : bytes -> Prop := on_cmd Fsm.legal_cmd.
Definition ttl_free_entry : bytes -> Prop := on_cmd ttl_free.

Lemma apply_cmd_hist e b c : detect_conflicts (Badger.db b) = false ->
  not_cancelled e -> Fsm.legal_cmd c ->
  match step_hist cache (now e) (hist (Badger.db b)) c with
  | Ret (h', r) => exists b', Fsm.apply_cmd cache e b c = Ret (b', r) /\
      hist (Badger.db b') = h' /\ detect_conflicts (Badger.db b') = false /\
      (r <> None -> b' = b)
  | Panic s => Fsm.apply_cmd cache e b c = Panic s
  | Hang => Fsm.apply_cmd cache e b c = Hang
  end.
Proof.
  intros Hd Hc Hl. rewrite Fsm.apply_cmd_txn. unfold step_hist.
  pose proof (Fsm.newTransactionAt_step b (ReadTs c) (CommitTs c) _ _ Hd
    (Fsm.refines_cmd cache e c Hc Hl)) as Hs.
  destruct (Fsm.cmd_spec _ _ _ _ _) as [[p [err|]]| |]; [| |done|done].
  - eauto 10.
  - destruct Hs as (b' & -> & Hh & Hd'). exists b'. done.
Qed.

Lemma Apply_hist e b data : detect_conflicts (Badger.db b) = false ->
  not_cancelled e -> legal_entry data ->
  match step_entry cache (now e) (hist (Badger.db b)) data with
  | Ret (h', r) => exists b', Fsm.Apply cache e b data = Ret (b', r) /\
      hist (Badger.db b') = h' /\ detect_conflicts (Badger.db b') = false
  | Panic s => Fsm.Apply cache e b data = Panic s
  | Hang => Fsm.Apply cache e b data = Hang
  end.
Proof.
  unfold legal_entry, on_cmd, step_entry, Fsm.Apply. intros Hd Hc Hl.
  destruct (Commands.DecodeCommand data) as [err|c]; [eauto|].
  pose proof (apply_cmd_hist e b c Hd Hc Hl) as Hs.
  destruct (step_hist _ _ _ _) as [[h' r]| |]; [|done|done].
  destruct Hs as (b' & ? & ? & ? & _). eauto.
Qed.

Lemma step_entry_clock n n' h data : hist_no_ttl h -> ttl_free_entry data ->
  step_entry cache n h data = step_entry cache n' h data.
Proof.
  unfold ttl_free_entry, on_cmd, step_entry. intros Hh Ht.
  destruct (Commands.DecodeCommand data); [done|by apply step_hist_clock].
Qed.

Lemma step_entry_no_ttl n h data h' r : hist_no_ttl h -> ttl_free_entry data ->
  step_entry cache n h data = Ret (h', r) -> hist_no_ttl h'.
Proof.
  unfold ttl_free_entry, on_cmd, step_entry. intros Hh Ht.
  destruct (Commands.DecodeCommand data); [by intros [= <- _]|].
  by apply step_hist_no_ttl.
Qed.

(** The log as a node applies it: each entry at the node's own clock. *)
Definition apply_log (b : Badger.store) (l : list (env * bytes))
    : outcome (Badger.store * list (option error)) :=
  run (fun b ed => Fsm.Apply cache ed.1 b ed.2) b l.

#[local] Arguments Fsm.Apply : simpl never.

Definition ok_entry (ed : env * bytes) : Prop :=
  not_cancelled ed.1 /\ legal_entry ed.2 /\ ttl_free_entry ed.2.

(** A store with no expiring value and no conflict detection of its own. *)
Definition replica_ok (b : Badger.store) : Prop :=
  detect_conflicts (Badger.db b) = false /\ hist_no_ttl (hist (Badger.db b)).

(** Whatever the clocks, the log acts on the history alone. *)
Lemma apply_log_hist l b : replica_ok b -> Forall ok_entry l ->
  match run (step_entry cache 0) (hist (Badger.db b)) (map snd l) with
  | Ret (h', rs) => exists b', apply_log b l = Ret (b', rs) /\
      hist (Badger.db b') = h' /\ replica_ok b'
  | Panic s => apply_log b l = Panic s
  | Hang => apply_log b l = Hang
  end.
Proof.
  intros Hb Hl. revert b Hb.
  induction Hl as [|[e data] l (Hc & Hleg & Ht) _ IH]; intros b [Hd Hn]; simpl in *.
  { by exists b. }
  rewrite (step_entry_clock 0 (now e)) by done.
  pose proof (Apply_hist e b data Hd Hc Hleg) as Ha. unfold apply_log in *. simpl.
  destruct (step_entry cache (now e) _ data) as [[h1 r]| |] eqn:E; simpl;
    [|by rewrite Ha|by rewrite Ha].
  destruct Ha as (b1 & -> & <- & Hd1). simpl.
  assert (replica_ok b1) as Hb1 by (split; [done|by eapply step_entry_no_ttl]).
  specialize (IH b1 Hb1).
  destruct (run (step_entry cache 0) (hist (Badger.db b1)) (map snd l)) as [[h2 rs]| |]; simpl;
    [|by rewrite IH|by rewrite IH].
  destruct IH as (b2 & -> & <- & Hb2). eauto.
Qed.

(** ** Replay *)

(** [c'] comes after [c] in a log whose timestamps one oracle issued: what
    [c] read was settled before [c'] was stamped. *)
Definition settled (c c' : Command) : Prop :=
  ReadTs c < CommitTs c' /\ CommitTs c <> CommitTs c'.

Definition settled_entry (d d' : bytes) : Prop :=
  on_cmd (fun c => on_cmd (settled c) d') d.

Definition replayable (l : list bytes) : Prop :=
  Forall (on_cmd (fun c => ReadTs c < CommitTs c)) l /\ StronglySorted settled_entry l.

(** Applying the entry to [h] answers [r] and changes nothing. *)
Definition absorbed (h : history) (d : bytes) (r : option error) : Prop :=
  step_entry cache 0 h d = Ret (h, r).

Lemma step_absorbed h d h' r : on_cmd (fun c => ReadTs c < CommitTs c) d ->
  step_entry cache 0 h d = Ret (h', r) -> absorbed h' d r.
Proof.
  unfold absorbed, on_cmd, step_entry. destruct (Commands.DecodeCommand d) as [err|c];
    [congruence|]. intros Hts. unfold step_hist.
  destruct (Fsm.cmd_spec _ _ _ (snap_at h _) _) as [[p [err|]]| |] eqn:E;
    intros [= <- <-]; [by rewrite E|].
  rewrite snap_at_add_after by done. rewrite E. by rewrite add_versions_idem.
Qed.

Lemma absorbed_step h d r d' h' r' : absorbed h d r -> settled_entry d d' ->
  step_entry cache 0 h d' = Ret (h', r') -> absorbed h' d r.
Proof.
  unfold absorbed, settled_entry, on_cmd, step_entry.
  destruct (Commands.DecodeCommand d) as [err|c]; [congruence|].
  destruct (Commands.DecodeCommand d') as [err|c']; [congruence|].
  unfold step_hist. intros Ha [Hr Hc].
  destruct (Fsm.cmd_spec cache 0 c' _ _) as [[p' [err'|]]| |]; intros [= <- <-]; [done|].
  rewrite snap_at_add_after by done.
  destruct (Fsm.cmd_spec cache 0 c _ _) as [[p [err|]]| |]; simplify_eq; [done|].
  rewrite add_versions_comm by done. congruence.
Qed.

Lemma absorbed_run h d r l h' rs : absorbed h d r -> Forall (settled_entry d) l ->
  run (step_entry cache 0) h l = Ret (h', rs) -> absorbed h' d r.
Proof.
  revert h rs. induction l as [|d' l IH]; intros h rs Ha Hl; simpl; [congruence|].
  apply Forall_cons in Hl as [Hd' Hl].
  destruct (step_entry cache 0 h d') as [[h1 r1]| |] eqn:E; simpl; [|done|done].
  destruct (run _ h1 l) as [[h2 rs2]| |] eqn:E2; simpl; [|done|done]. intros [= <- <-].
  eauto using absorbed_step.
Qed.

Lemma run_absorbed h l h' rs : replayable l ->
  run (step_entry cache 0) h l = Ret (h', rs) -> Forall2 (absorbed h') l rs.
Proof.
  intros [Hts Hs]. revert h rs Hts. induction Hs as [|d l _ IH Hd]; intros h rs Hts; simpl.
  { intros [= <- <-]. constructor. }
  apply Forall_cons in Hts as [Hd0 Hts].
  destruct (step_entry cache 0 h d) as [[h1 r1]| |] eqn:E; simpl; [|done|done].
  destruct (run _ h1 l) as [[h2 rs2]| |] eqn:E2; simpl; [|done|done]. intros [= <- <-].
  constructor; [|by eapply IH]. eauto using absorbed_run, step_absorbed.
Qed.

Lemma absorbed_replay h l rs : Forall2 (absorbed h) l rs ->
  run (step_entry cache 0) h l = Ret (h, rs).
Proof. induction 1 as [|d r l rs Hd _ IH]; simpl; [done|]. rewrite Hd. simpl. by rewrite IH. Qed.

(** ** Serial logs *)

(** Each command reads after the commits before it. *)
Fixpoint serial (t : Z) (l : list bytes) : Prop :=
  match l with
  | [] => True
  | d :: l' =>
      match Commands.DecodeCommand d with
      | inl _ => serial t l'
      | inr c => t <= ReadTs c < CommitTs c /\ CommitTs c <= max_u64 /\ serial (CommitTs c) l'
      end
  end.

(** The abstract store: a map, to which each command applies its writes. *)
Definition map_step (now : Z) (m : gmap string version) (d : bytes)
    : outcome (gmap string version * option error) :=
  match Commands.DecodeCommand d with
  | inl err => Ret (m, Some err)
  | inr c =>
      match Fsm.cmd_spec cache now c m ∅ with
      | Ret (p, None) => Ret (p ∪ m, None)
      | Ret (_, Some err) => Ret (m, Some err)
      | Panic s => Panic s
      | Hang => Hang
      end
  end.

Lemma serial_step n h t d l : hist_le h t -> t <= max_u64 -> serial t (d :: l) ->
  match step_entry cache n h d, map_step n (snap_at h max_u64) d with
  | Ret (h', r), Ret (m', r') => r = r' /\ snap_at h' max_u64 = m' /\
      exists t', hist_le h' t' /\ t' <= max_u64 /\ serial t' l
  | Panic s, Panic s' => s = s'
  | Hang, Hang => True
  | _, _ => False
  end.
Proof.
  intros Hh Ht. simpl. unfold step_entry, map_step.
  destruct (Commands.DecodeCommand d) as [err|c]; [eauto 10|].
  intros (Hr & Hm & Hs). unfold step_hist.
  rewrite (snap_at_settled h t (ReadTs c) max_u64) by (done || lia).
  destruct (Fsm.cmd_spec _ _ _ _ _) as [[p [err|]]| |]; try done.
  - split; [done|]. split; [done|]. exists (CommitTs c).
    split; [eapply hist_le_mono; [done|lia]|done].
  - split; [done|]. split.
    + apply snap_at_add_newest; [eapply hist_le_mono; [done|lia]|done].
    + exists (CommitTs c). split; [|done]. eapply hist_le_add; [done|lia].
Qed.

(** ** Properties *)





(** Expiry counts from the applying node's clock.  A SET with a time to
    live, applied by two replicas whose clocks differ at that moment, leaves
    them with different histories: the version records the local instant, not
    one the leader chose. *)
Theorem ttl_replicas_differ (e1 e2 : env) (b1 b2 b1' b2' : Badger.store) (c : Command)
    (d : Duration) :
  detect_conflicts (Badger.db b1) = false -> detect_conflicts (Badger.db b2) = false ->
  not_cancelled e1 -> not_cancelled e2 -> Fsm.legal_cmd c ->
  Type_ c = CommandType_SET -> Ttl c = Some d -> now e1 <> now e2 ->
  Fsm.apply_cmd cache e1 b1 c = Ret (b1', None) ->
  Fsm.apply_cmd cache e2 b2 c = Ret (b2', None) ->
  hist (Badger.db b1') <> hist (Badger.db b2').
Proof.
  intros Hd1 Hd2 Hc1 Hc2 Hl Ht Hd Hne Ha1 Ha2.
  assert (forall e b b', detect_conflicts (Badger.db b) = false -> not_cancelled e ->
    Fsm.apply_cmd cache e b c = Ret (b', None) ->
    (hist (Badger.db b') !! Key c) ≫= (fun vs => vs !! CommitTs c) =
      Some (Version (Some (Value c)) (Some (now e, AsDuration d)))) as Hver.
  { intros e b b' Hdc Hc Ha. pose proof (apply_cmd_hist e b c Hdc Hc Hl) as Hs.
    unfold step_hist, Fsm.cmd_spec, Fsm.sub_spec in Hs. rewrite Ht in Hs.
    unfold Fsm.getTtl in Hs. rewrite Hd in Hs. simpl in Hs.
    destruct Hs as (b3 & Hb3 & Hh & _). rewrite Ha in Hb3. simplify_eq. rewrite Hh.
    rewrite lookup_add_versions, lookup_insert_eq. simpl. apply lookup_insert_eq. }
  intros E. pose proof (Hver e1 b1 b1' Hd1 Hc1 Ha1) as E1.
  pose proof (Hver e2 b2 b2' Hd2 Hc2 Ha2) as E2. rewrite E, E2 in E1. congruence.
Qed.

(** A transaction cannot delete a prefix.  [Txn.DeleteByPrefix] buffers a
    DELETE_BY_PREFIX sub-command, but [applyTransaction] has no case for it:
    whatever legal commands precede and follow it, the transaction is answered
    with an error or panics, and the store keeps none of its writes. *)
Theorem prefix_delete_in_txn_fails (e : env) (b : Badger.store) (c sub : Command)
    (pre post : list Command) :
  detect_conflicts (Badger.db b) = false -> not_cancelled e -> Fsm.legal_cmd c ->
  Type_ c = CommandType_TRANSACTION -> SubCommands c = pre ++ sub :: post ->
  Type_ sub = CommandType_DELETE_BY_PREFIX ->
  match Fsm.apply_cmd cache e b c with
  | Ret (b', r) => b' = b /\ r <> None
  | _ => True
  end.
Proof.
  intros Hd Hc Hl Ht Hs Hsub. pose proof (apply_cmd_hist e b c Hd Hc Hl) as Ha.
  unfold step_hist, Fsm.cmd_spec in Ha. rewrite Ht, Hs in Ha.
  assert (forall sn p, match Fsm.subs_spec cache (now e) (pre ++ sub :: post) sn p with
                       | Ret (_, r) => r <> None | _ => True end) as Hno.
  { clear - Hsub. induction pre as [|x pre IH]; intros sn p; simpl.
    - unfold Fsm.sub_spec. by rewrite Hsub.
    - destruct (Fsm.sub_spec cache (now e) x sn p) as [[p' [err|]]| |]; [done|apply IH|done|done]. }
  specialize (Hno (snap_at (hist (Badger.db b)) (ReadTs c)) ∅).
  destruct (Fsm.subs_spec _ _ _ _ _) as [[p [err|]]| |]; [|done|by rewrite Ha|by rewrite Ha].
  destruct Ha as (b' & -> & _ & _ & Heq). split; [by apply Heq|done].
Qed.

End Log.

(** ** Witnesses *)

(** Three commands, at timestamps one oracle issued. *)
Definition set_cmd : Command :=
  Commands.with_ts (Commands.NewSetCommand "1" "a" [Byte.x61] []) 10 11.
Definition incr_cmd : Command :=
  Commands.with_ts (Commands.NewIncrByCommand "2" "n" 5) 11 12.
Definition txn_cmd : Command :=
  Commands.with_ts (Commands.with_subs (Commands.NewTransactionCommand "3")
    [Commands.NewIncrByCommand "4" "n" 2; Commands.NewDeleteCommand "5" "a"]) 12 13.
Definition ttl_cmd : Command :=
  Commands.with_ts (Commands.NewSetCommand "6" "s" [Byte.x61] [60]) 13 14.
Definition bad_txn_cmd : Command :=
  Commands.with_ts (Commands.with_subs (Commands.NewTransactionCommand "7")
    [Commands.NewSetCommand "8" "k" [] []; Commands.NewDeleteByPrefixCommand "9" "a"]) 14 15.

Definition enc (c : Command) : bytes :=
  match Commands.Encode c with inr b => b | inl _ => [] end.

Definition log_at (n : Z) : list (env * bytes) :=
  map (fun c => (Reads.quiet n, enc c)) [set_cmd; incr_cmd; txn_cmd].

Definition replica : Badger.store := Badger.Store true (mem_seed 5 [("n", Uint64ToBytes 1)] false) true.

Lemma decode_enc c : Commands.DecodeCommand (enc c) = inr c.
Proof. unfold Commands.DecodeCommand. by apply command_roundtrip. Qed.

Lemma replica_is_ok : replica_ok replica.
Proof.
  split; [reflexivity|]. intros k vs t v Hk Ht. revert Ht.
  assert (hist (Badger.db replica) = {["n" := {[5 := Version (Some (Uint64ToBytes 1)) None]}]})
    as E by (vm_compute; reflexivity).
  rewrite E in Hk. apply lookup_singleton_Some in Hk as [<- <-].
  intros Ht. by apply lookup_singleton_Some in Ht as [<- <-].
Qed.

Lemma on_enc P c : P c -> on_cmd P (enc c).
Proof. unfold on_cmd. by rewrite decode_enc. Qed.

Lemma ok_enc n c : Fsm.legal_cmd c -> ttl_free c -> ok_entry (Reads.quiet n, enc c).
Proof. intros Hl Ht. split; [done|]. by split; apply on_enc. Qed.

Lemma settled_enc c c' : settled c c' -> settled_entry (enc c) (enc c').
Proof. intros Hs. by apply on_enc, on_enc. Qed.

Lemma log_is_ok n : Forall ok_entry (log_at n).
Proof.
  apply Forall_cons. split; [apply ok_enc|apply Forall_cons; split; [apply ok_enc|
    apply Forall_cons; split; [apply ok_enc|apply Forall_nil, I]]];
    repeat constructor; simpl; word.
Qed.

Lemma log_replayable n : replayable (map snd (log_at n)).
Proof.
  unfold log_at. cbn [map snd]. split.
  - apply Forall_cons; split; [|apply Forall_cons; split; [|apply Forall_singleton]];
      apply on_enc; simpl; lia.
  - apply SSorted_cons; [apply SSorted_cons; [apply SSorted_cons; [constructor|constructor]|]|].
    + apply Forall_singleton, settled_enc. split; simpl; lia.
    + apply Forall_cons; split; [|apply Forall_singleton]; apply settled_enc; split; simpl; lia.
Qed.





Lemma ttl_replicas_differ_witness :
  exists b1' b2',
    Fsm.apply_cmd None (Reads.quiet 1) replica ttl_cmd = Ret (b1', None) /\
    Fsm.apply_cmd None (Reads.quiet 2) replica ttl_cmd = Ret (b2', None) /\
    hist (Badger.db b1') <> hist (Badger.db b2').
Proof.
  destruct (answers (Fsm.apply_cmd None (Reads.quiet 1) replica ttl_cmd) None) as [b1' H1];
    [vm_compute; reflexivity|].
  destruct (answers (Fsm.apply_cmd None (Reads.quiet 2) replica ttl_cmd) None) as [b2' H2];
    [vm_compute; reflexivity|].
  exists b1', b2'. split; [exact H1|]. split; [exact H2|].
  apply (ttl_replicas_differ None (Reads.quiet 1) (Reads.quiet 2) replica replica b1' b2' ttl_cmd 60);
    [reflexivity|reflexivity|done|done|split; [reflexivity|simpl; word]|
     reflexivity|reflexivity|done|exact H1|exact H2].
Defined.

Lemma prefix_delete_in_txn_fails_witness :
  snd <$> Fsm.apply_cmd None (Reads.quiet 0) replica bad_txn_cmd = Ret (Some ErrUnknownOp) /\
  match Fsm.apply_cmd None (Reads.quiet 0) replica bad_txn_cmd with
  | Ret (b', r) => b' = replica /\ r <> None
  | _ => True
  end.
Proof.
  split; [vm_compute; reflexivity|].
  apply (prefix_delete_in_txn_fails None (Reads.quiet 0) replica bad_txn_cmd
    (Commands.NewDeleteByPrefixCommand "9" "a") [Commands.NewSetCommand "8" "k" [] []] []);
    try reflexivity; [done|].
  unfold Fsm.legal_cmd. simpl. repeat constructor; simpl; try word; reflexivity.
Defined.

End FsmLog.
