(* ===== verification/WaterMark.v ===== *)
(** * The watermark interface (y.WaterMark)

    BadgerDB's watermarks are outside the repository.  A watermark counts, for
    each index, the [Begin]s and [Done]s it was sent; [DoneUntil] moves up as a
    background routine works through them.  The laws state what the oracle
    relies on: an index begun above everything seen so far holds [DoneUntil]
    down until it is done. *)

From S2P Require Import Prelude Errors.

Class WaterMarkLib := {
  WM : Type;
  wm_Begin : WM -> Z -> WM;
  wm_Done : WM -> Z -> WM;
  wm_SetDoneUntil : WM -> Z -> WM;
  wm_DoneUntil : WM -> Z;
  (** [WaitForMark(ctx, index)], given whether the context is cancelled; [Hang]
      is a call that is still blocked. *)
  wm_WaitForMark : WM -> bool -> Z -> outcome (option error);
  (** The background routine handles what it was sent so far. *)
  wm_process : WM -> WM;

  (** Begins minus dones of an index, and the highest index it was given. *)
  wm_pending : WM -> Z -> Z;
  wm_last : WM -> Z;
  (** [i] is pending and was begun when no higher index had been. *)
  wm_guarded : WM -> Z -> Prop
}.

Class WaterMarkLaws `{L : WaterMarkLib} : Prop := {
  pending_begin : forall w i j,
    wm_pending (wm_Begin w i) j = wm_pending w j + (if decide (i = j) then 1 else 0);
  pending_done : forall w i j,
    wm_pending (wm_Done w i) j = wm_pending w j - (if decide (i = j) then 1 else 0);
  pending_process : forall w j, wm_pending (wm_process w) j = wm_pending w j;
  last_begin : forall w i, wm_last (wm_Begin w i) = Z.max (wm_last w) i;
  last_done : forall w i, wm_last (wm_Done w i) = wm_last w;
  last_process : forall w, wm_last (wm_process w) = wm_last w;

  begin_guards : forall w i, wm_last w <= i -> 0 <= wm_pending w i -> wm_guarded (wm_Begin w i) i;
  begin_keeps : forall w i j, wm_last w <= j -> wm_guarded w i -> wm_guarded (wm_Begin w j) i;
  done_keeps : forall w i j, wm_guarded w i -> 0 < wm_pending (wm_Done w j) i ->
    wm_guarded (wm_Done w j) i;
  process_keeps : forall w i, wm_guarded w i -> wm_guarded (wm_process w) i;
  guarded_until : forall w i, wm_guarded w i -> wm_DoneUntil w <= i;
  set_until : forall w i, wm_DoneUntil (wm_SetDoneUntil w i) = i;
  set_pending : forall w i j, wm_pending (wm_SetDoneUntil w i) j = wm_pending w j;
  set_last : forall w i, wm_last (wm_SetDoneUntil w i) = Z.max (wm_last w) i;
  wait_done : forall w c i, wm_WaitForMark w c i = Ret None -> i <= wm_DoneUntil w
}.

(** ** A concrete watermark

    It processes at once: [DoneUntil] is the index below the least pending
    one, or the highest index when none is. *)

Record mem_wm := MemWM { mw_until : Z; mw_pend : gmap Z Z; mw_last : Z }.

Definition mw_count (w : mem_wm) (i : Z) : Z := default 0 (mw_pend w !! i).

Definition mw_least (m : gmap Z Z) (d : Z) : Z :=
  map_fold (fun i c acc => if 0 <? c then Z.min acc i else acc) d m.

Definition mw_advance (w : mem_wm) : mem_wm :=
  MemWM (Z.max (mw_until w) (mw_least (mw_pend w) (mw_last w))) (mw_pend w) (mw_last w).

(** A watermark is never past the highest index it was given. *)
Definition mw_add (w : mem_wm) (i d : Z) (last : Z) : mem_wm :=
  MemWM (Z.min (mw_until w) (mw_last w)) (<[i := mw_count w i + d]> (mw_pend w)) last.

#[global] Instance MemWaterMark : WaterMarkLib := {
  WM := mem_wm;
  wm_Begin := fun w i => mw_add w i 1 (Z.max (mw_last w) i);
  wm_Done := fun w i => mw_advance (mw_add w i (-1) (mw_last w));
  wm_SetDoneUntil := fun w i => MemWM i (mw_pend w) (Z.max (mw_last w) i);
  wm_DoneUntil := mw_until;
  wm_WaitForMark := fun w cancelled i =>
    if i <=? mw_until w then Ret None else if cancelled then Ret (Some CtxErr) else Hang;
  wm_process := mw_advance;
  wm_pending := mw_count;
  wm_last := mw_last;
  wm_guarded := fun w i => 0 < mw_count w i /\ mw_until w <= i
}.

Lemma mw_least_le m d i c : m !! i = Some c -> 0 < c -> mw_least m d <= i.
Proof.
  unfold mw_least.
  apply (map_fold_weak_ind (fun acc m => m !! i = Some c -> 0 < c -> acc <= i)).
  - by rewrite lookup_empty.
  - intros j x m' acc _ IH. rewrite lookup_insert. case_decide as E.
    + intros [= ->] Hc. subst. destruct (0 <? c) eqn:E'; lia.
    + intros Hm Hc. specialize (IH Hm Hc). destruct (0 <? x); lia.
Qed.

Lemma mw_count_pos w i : 0 < mw_count w i -> mw_least (mw_pend w) (mw_last w) <= i.
Proof.
  unfold mw_count. destruct (mw_pend w !! i) as [c|] eqn:E; simpl; [|lia].
  intros Hc. by eapply mw_least_le.
Qed.

Lemma mw_count_add w i d l j :
  mw_count (mw_add w i d l) j = mw_count w j + (if decide (i = j) then d else 0).
Proof.
  unfold mw_add, mw_count at 1. simpl. rewrite lookup_insert.
  case_decide; subst; simpl; [done|]. unfold mw_count. lia.
Qed.

Lemma mw_guarded_advance w i : 0 < mw_count w i -> mw_until w <= i ->
  0 < mw_count (mw_advance w) i /\ mw_until (mw_advance w) <= i.
Proof.
  intros Hc Hu. split; [exact Hc|]. simpl. pose proof (mw_count_pos w i Hc). lia.
Qed.

#[global] Instance MemWaterMarkLaws : WaterMarkLaws (L := MemWaterMark).
Proof.
  split; simpl; try done.
  - intros w i j. apply mw_count_add.
  - intros w i j. change (mw_count (mw_add w i (-1) (mw_last w)) j =
      mw_count w j - (if decide (i = j) then 1 else 0)).
    rewrite mw_count_add. case_decide; lia.
  - intros w i Hl Hp. rewrite mw_count_add, decide_True by done. lia.
  - intros w i j Hl [Hc Hu]. rewrite mw_count_add. case_decide; lia.
  - intros w i j [Hc Hu] Hp. apply mw_guarded_advance; [exact Hp|simpl; lia].
  - intros w i [Hc Hu]. by apply mw_guarded_advance.
  - intros w i [Hc Hu]. exact Hu.
  - intros w c i. destruct (i <=? mw_until w) eqn:E; [lia|]. by destruct c.
Qed.

Definition mw_fresh (i : Z) : mem_wm := MemWM i ∅ i.
