(* ===== verification/Tso.v ===== *)
(** * tso.go: the timestamp oracle

    Hybrid timestamps, their allocation inside the persisted window, read
    timestamps, and the conflict check of commits.  A call that takes [tso.mu]
    is one function of the state; the readings of the wall clock it makes are
    a stream, and a polling loop that has not ended after [fuel] readings is a
    [Hang]. *)

From S2P Require Import Prelude Errors Utils Codecs Command MemCommand WaterMark.

(** ** timeStamp *)

Definition LOGICAL_BITS : Z := 18.
Definition MAX_LOGICAL : Z := Z.shiftl 1 LOGICAL_BITS - 1.
(** [defaultUpperBoundWindow.Milliseconds()]. *)
Definition defaultUpperBoundWindow : Z := 2000.
Definition persistentKey : string := "_tso_last_timestamp".

(** Two [int64]s. *)
Record timeStamp := TimeStamp { physical : Z; logical : Z }.

Definition newEmptyTimeStamp : timeStamp := TimeStamp 0 0.
Definition Reset (newTs : Z) : timeStamp := TimeStamp newTs 0.
Definition Incr (ts : timeStamp) : timeStamp := TimeStamp (physical ts) (i64 (logical ts + 1)).
Definition ExceedLogicalMax (ts : timeStamp) : bool := MAX_LOGICAL <? logical ts.
Definition Compose (ts : timeStamp) : Z :=
  u64 (Z.lor (i64 (Z.shiftl (physical ts) LOGICAL_BITS)) (logical ts)).

(** ** The oracle *)

Record committedTxn := CommittedTxn { ts : Z; conflictKeys : gset string }.

(** The states of [stopNotifier]. *)
Inductive notifier : Type := NilChan | OpenChan | ClosedChan.

Record TSO `{WaterMarkLib} := MkTSO {
  current : timeStamp;
  saved : timeStamp;
  txnMark : WM;
  readMark : WM;
  readers : gset Z;
  lastCleanupTs : Z;
  stopNotifier : notifier;
  committedTxns : list committedTxn
}.

Module Tso.
Section WithMarks.
Context `{WaterMarkLib}.

(** Field assignments. *)
Definition set_current (t : TSO) (c : timeStamp) : TSO :=
  MkTSO _ c (saved t) (txnMark t) (readMark t) (readers t) (lastCleanupTs t) (stopNotifier t)
    (committedTxns t).
Definition set_saved (t : TSO) (s : timeStamp) : TSO :=
  MkTSO _ (current t) s (txnMark t) (readMark t) (readers t) (lastCleanupTs t) (stopNotifier t)
    (committedTxns t).
Definition set_txnMark (t : TSO) (w : WM) : TSO :=
  MkTSO _ (current t) (saved t) w (readMark t) (readers t) (lastCleanupTs t) (stopNotifier t)
    (committedTxns t).
Definition set_readMark (t : TSO) (w : WM) : TSO :=
  MkTSO _ (current t) (saved t) (txnMark t) w (readers t) (lastCleanupTs t) (stopNotifier t)
    (committedTxns t).
Definition set_readers (t : TSO) (r : gset Z) : TSO :=
  MkTSO _ (current t) (saved t) (txnMark t) (readMark t) r (lastCleanupTs t) (stopNotifier t)
    (committedTxns t).
Definition set_committed (t : TSO) (last : Z) (l : list committedTxn) : TSO :=
  MkTSO _ (current t) (saved t) (txnMark t) (readMark t) (readers t) last (stopNotifier t) l.
Definition set_notifier (t : TSO) (n : notifier) : TSO :=
  MkTSO _ (current t) (saved t) (txnMark t) (readMark t) (readers t) (lastCleanupTs t) n
    (committedTxns t).

Definition newTSO (txn read : WM) : TSO :=
  MkTSO _ newEmptyTimeStamp newEmptyTimeStamp txn read ∅ 0 NilChan [].

(** *** Allocation *)

(** A polling loop: read the clock until [p] holds of the reading. *)
Fixpoint await (fuel : nat) (clock : nat -> Z) (i : nat) (p : Z -> bool)
    : outcome (nat * Z) :=
  match fuel with
  | O => Hang
  | S fuel' =>
      if p (clock i) then Ret (S i, clock i) else await fuel' clock (S i) p
  end.

(** [tso.mu] is held throughout, so [saved] does not change in the loops. *)
Definition allocate (fuel : nat) (clock : nat -> Z) (tso : TSO) : outcome (TSO * Z) :=
  let cur := if physical (current tso) <? clock 0%nat then Reset (clock 0%nat)
             else current tso in
  '(i, cur) ← (if physical (saved tso) <=? physical cur then
                 '(i, now) ← await fuel clock 1 (fun now => now <? physical (saved tso));
                 Ret (i, Reset now)
               else Ret (1%nat, cur));
  cur ← (if ExceedLogicalMax cur then
           '(_, now) ← await fuel clock i (fun now => physical cur <? now);
           Ret (Reset now)
         else Ret cur);
  let cur := Incr cur in
  Ret (set_current tso cur, Compose cur).

(** *** Reads *)

Definition currentReadTs (tso : TSO) : Z := Compose (current tso).
Definition CurrentReadTs (tso : TSO) : Z := currentReadTs tso.

(** [ReadTs] in its three steps: under [tso.mu], then [readMark.Begin] with the
    mutex released, then the wait for the commits below. *)
Definition ReadTs_lock (tso : TSO) : TSO * Z :=
  let readTs := currentReadTs tso in
  (set_readers tso ({[readTs]} ∪ readers tso), readTs).

Definition ReadTs_begin (tso : TSO) (readTs : Z) : TSO :=
  set_readMark tso (wm_Begin (readMark tso) readTs).

Definition ReadTs_wait (tso : TSO) (cancelled : bool) (readTs : Z)
    : outcome (TSO * result Z) :=
  err ← wm_WaitForMark (txnMark tso) cancelled readTs;
  match err with
  | Some err => Ret (set_readMark tso (wm_Done (readMark tso) readTs), inl err)
  | None => Ret (tso, inr readTs)
  end.

Definition ReadTs (tso : TSO) (cancelled : bool) : outcome (TSO * result Z) :=
  let '(tso, readTs) := ReadTs_lock tso in
  ReadTs_wait (ReadTs_begin tso readTs) cancelled readTs.

Definition DiscardAt (tso : TSO) : Z := wm_DoneUntil (readMark tso).

Definition doneRead (tso : TSO) (readTs : Z) : TSO :=
  if decide (readTs ∈ readers tso) then
    set_readers (set_readMark tso (wm_Done (readMark tso) readTs)) (readers tso ∖ {[readTs]})
  else tso.

Definition DoneRead (tso : TSO) (readTs : Z) : TSO := doneRead tso readTs.

(** *** Commits *)

(** The inner loop over [txn.reads]. *)
Definition touches (reads : list string) (keys : gset string) : bool :=
  existsb (fun key => bool_decide (key ∈ keys)) reads.

Fixpoint hasConflict_loop (committed : list committedTxn) (readTs : Z) (reads : list string)
    : bool :=
  match committed with
  | [] => false
  | c :: committed' =>
      if ts c <=? readTs then hasConflict_loop committed' readTs reads
      else if touches reads (conflictKeys c) then true
      else hasConflict_loop committed' readTs reads
  end.

Definition hasConflict (tso : TSO) (readTs : Z) (reads : list string) : bool :=
  if (length reads =? 0)%nat then false
  else hasConflict_loop (committedTxns tso) readTs reads.

Definition cleanupCommittedTransactions (tso : TSO) : TSO :=
  let maxReadTs := wm_DoneUntil (readMark tso) in
  if maxReadTs =? lastCleanupTs tso then tso
  else set_committed tso maxReadTs
         (filter (fun c => ~ ts c <= maxReadTs) (committedTxns tso)).

(** [None] is a conflict. *)
Definition newCommitTs (fuel : nat) (clock : nat -> Z) (tso : TSO) (readTs : Z)
    (reads : list string) (keys : gset string) : outcome (TSO * option Z) :=
  if hasConflict tso readTs reads then Ret (tso, None)
  else
    let tso := cleanupCommittedTransactions (doneRead tso readTs) in
    '(tso, cts) ← allocate fuel clock tso;
    let tso := set_txnMark tso (wm_Begin (txnMark tso) cts) in
    Ret (set_committed tso (lastCleanupTs tso) (committedTxns tso ++ [CommittedTxn cts keys]),
         Some cts).

Definition DoneCommit (tso : TSO) (cts : Z) : TSO :=
  set_txnMark tso (wm_Done (txnMark tso) cts).

(** [Commit(txn, fn)]: [DoneCommit] is deferred to the return of [fn]. *)
Definition Commit {T} (fuel : nat) (clock : nat -> Z) (tso : TSO) (readTs : Z)
    (reads : list string) (keys : gset string) (fn : Z -> T * option error) (txn : T)
    : outcome (TSO * T * option error) :=
  '(tso, r) ← newCommitTs fuel clock tso readTs reads keys;
  match r with
  | None => Ret (tso, txn, Some (BadgerError ErrConflict))
  | Some cts => let '(txn, err) := fn cts in Ret (DoneCommit tso cts, txn, err)
  end.

(** *** The window *)

(** The bound to persist, when the present one is not sufficient. *)
Definition window_due (tso : TSO) : option Z :=
  let cur := physical (current tso) in
  let sav := physical (saved tso) in
  let upperBound := i64 (cur + defaultUpperBoundWindow) in
  if negb (sav =? 0) && (upperBound <=? sav) then None else Some upperBound.

(** [UpdateWindow]; [persist] is the transaction that stores the bound. *)
Definition UpdateWindow (persist : TSO -> Z -> outcome (TSO * option error)) (tso : TSO)
    : outcome (TSO * option error) :=
  match window_due tso with
  | None => Ret (tso, None)
  | Some upperBound =>
      '(tso, err) ← persist tso upperBound;
      match err with
      | Some err => Ret (tso, Some err)
      | None => Ret (set_saved tso (Reset upperBound), None)
      end
  end.

(** What the goroutine of [windowUpdator] can receive. *)
Inductive wu_event : Type :=
  | WTick
  | WStopped
  | WCancelled.

(** A round of [windowUpdator], and whether it goes on; [stopNotifier] is
    received from once it is closed.  An error is only logged. *)
Definition windowUpdator (persist : TSO -> Z -> outcome (TSO * option error)) (ev : wu_event)
    (tso : TSO) : outcome (TSO * bool) :=
  match ev with
  | WTick => '(tso, _) ← UpdateWindow persist tso; Ret (tso, true)
  | WStopped => Ret (tso, match stopNotifier tso with ClosedChan => false | _ => true end)
  | WCancelled => Ret (tso, false)
  end.

Definition Close (tso : TSO) : outcome TSO :=
  match stopNotifier tso with
  | NilChan => Ret tso
  | OpenChan => Ret (set_notifier tso ClosedChan)
  | ClosedChan => Panic "close of closed channel"
  end.

End WithMarks.

Section Startup.
Context `{WaterMarkLib} `{DurationLib}.

(** [propose] is [proposeAndWait]; [id] the new command's identifier. *)
Definition persistUpperboundOnStartup (propose : Command -> outcome (option error))
    (id : string) (tso : TSO) : outcome (TSO * option error) :=
  let cur := physical (current tso) in
  let tso := set_current tso (Incr (current tso)) in
  let cts := Compose (current tso) in
  let upperBound := i64 (cur + defaultUpperBoundWindow) in
  let cmd := Commands.with_ts
    (Commands.NewSetCommand id persistentKey (Uint64ToBytes (u64 upperBound)) []) cts cts in
  err ← propose cmd;
  match err with
  | Some err => Ret (tso, Some err)
  | None => Ret (set_saved tso (Reset upperBound), None)
  end.

(** [StartServing]: [val] is what [getVal(persistentKey)] answered, [now] the
    reading of the clock.  The sleep of [calibrate] changes no state. *)
Definition StartServing (val : result (option bytes)) (now : Z)
    (propose : Command -> outcome (option error)) (id : string) (tso : TSO)
    : outcome (TSO * option error) :=
  let tso := set_notifier tso OpenChan in
  match val with
  | inl err => Ret (tso, Some err)
  | inr found =>
      tso ← (match found with
             | Some b =>
                 last ← BytesToUint64 b;
                 let last := i64 last in
                 let tso := set_saved tso (Reset last) in
                 let cur := if now <=? last then i64 (last + 1) else now in
                 Ret (set_current tso (Reset cur))
             | None => Ret (set_current tso (Reset now))
             end);
      '(tso, err) ← persistUpperboundOnStartup propose id tso;
      match err with
      | Some err => Ret (tso, Some err)
      | None =>
          let lastIndex := Compose (current tso) in
          let tso := set_readMark tso (wm_SetDoneUntil (readMark tso) lastIndex) in
          Ret (set_txnMark tso (wm_SetDoneUntil (txnMark tso) lastIndex), None)
      end
  end.

End Startup.
End Tso.
