(* ===== verification/TsoSafety.v ===== *)
(** * Properties of the timestamp oracle

    Timestamps increase inside the window and across leaders; the conflict
    check is exact although old commits are dropped; and where the code
    departs from what it means to do: the wait for the window, the logical
    overflow, and the read registered outside the mutex. *)

From stdpp Require Import gmultiset.
From S2P Require Import Prelude Errors Utils Codecs Command MemCommand WaterMark Tso.

Module TsoSafety.
Import Tso.

(** ** Composing *)

(** Fields that fit their bits: 45 for the physical part, 18 for the logical. *)
Definition ts_ok (t : timeStamp) : Prop :=
  0 <= physical t < 2 ^ 45 /\ 0 <= logical t <= MAX_LOGICAL.

Lemma Compose_ok t : ts_ok t -> Compose t = physical t * 2 ^ 18 + logical t.
Proof.
  unfold ts_ok. change MAX_LOGICAL with 262143. intros [Hp Hl].
  unfold Compose, LOGICAL_BITS.
  rewrite i64_small.
  - rewrite lor_shiftl_add by lia. apply u64_small. word.
  - rewrite Z.shiftl_mul_pow2 by lia. word.
Qed.

Lemma Compose_lt t t' : ts_ok t -> ts_ok t' ->
  physical t < physical t' \/ (physical t = physical t' /\ logical t < logical t') ->
  Compose t < Compose t'.
Proof.
  intros Ht Ht'. rewrite !Compose_ok by done.
  unfold ts_ok in *. change MAX_LOGICAL with 262143 in *. lia.
Qed.

Section WithMarks.
Context `{WaterMarkLib}.

(** ** Allocation inside the window *)

(** The clock and the oracle are below the persisted bound, and there is a
    logical value left at this physical time. *)
Definition in_window (clock : nat -> Z) (t : TSO) : Prop :=
  ts_ok (current t) /\ physical (saved t) <= 2 ^ 45 /\
  physical (current t) < physical (saved t) /\ clock 0%nat < physical (saved t) /\
  (logical (current t) < MAX_LOGICAL \/ physical (current t) < clock 0%nat).

Lemma allocate_in_window fuel clock t : in_window clock t ->
  exists c, allocate fuel clock t = Ret (set_current t c, Compose c) /\
    ts_ok c /\ Compose (current t) < Compose c /\ physical c < physical (saved t) /\
    physical c = Z.max (physical (current t)) (clock 0%nat).
Proof.
  intros (Hok & Hs & Hcs & Hns & Hl). unfold allocate.
  set (cur := if physical (current t) <? clock 0%nat then _ else _).
  assert (ts_ok cur /\ logical cur < MAX_LOGICAL /\ physical cur < physical (saved t) /\
    (physical (current t) < physical cur \/ cur = current t) /\
    physical cur = Z.max (physical (current t)) (clock 0%nat)) as (Hc & Hcl & Hcp & Hlt & Hm).
  { unfold cur, ts_ok in *. change MAX_LOGICAL with 262143 in *.
    destruct (physical (current t) <? clock 0%nat) eqn:E; simpl in *;
      (split; [lia|]; split; [lia|]; split; [lia|]); (split; [|lia]); [left; lia|by right]. }
  destruct (physical (saved t) <=? physical cur) eqn:E; [lia|]. simpl.
  unfold ExceedLogicalMax. destruct (MAX_LOGICAL <? logical cur) eqn:E'; [lia|]. simpl.
  exists (Incr cur). split; [done|].
  assert (logical (Incr cur) = logical cur + 1) as Hi.
  { simpl. apply i64_small. unfold ts_ok in *. change MAX_LOGICAL with 262143 in *. word. }
  assert (ts_ok (Incr cur)) as Hok'.
  { unfold ts_ok in *. rewrite Hi. simpl physical. lia. }
  split; [done|]. split; [|done]. apply Compose_lt; [done|done|].
  rewrite Hi. simpl physical. destruct Hlt as [?| ->]; lia.
Qed.

(** A timestamp whose physical part is below the bound is below it. *)
Lemma Compose_below c bound : ts_ok c -> physical c < bound -> Compose c < bound * 2 ^ 18.
Proof.
  intros Hc Hb. rewrite Compose_ok by done. unfold ts_ok in Hc.
  change MAX_LOGICAL with 262143 in Hc. lia.
Qed.

(** Allocated timestamps increase and stay below the persisted bound.  As
    long as the clock and the oracle are below the bound and a logical value
    is left, [allocate] returns at once, whatever the clock does (also when it
    goes back), with a timestamp greater than every earlier one and less than
    the bound shifted into place. *)
Theorem allocate_increases (fuel : nat) (clock : nat -> Z) (t : TSO) :
  in_window clock t ->
  exists t' cts, allocate fuel clock t = Ret (t', cts) /\
    currentReadTs t < cts /\ currentReadTs t' = cts /\
    cts < physical (saved t) * 2 ^ 18.
Proof.
  intros Hw. destruct (allocate_in_window fuel clock t Hw) as (c & Ha & Hc & Hlt & Hp & _).
  eexists _, _. split; [exact Ha|]. split; [exact Hlt|]. split; [done|].
  by apply Compose_below.
Qed.

(** ** Where allocation goes wrong *)

Lemma await_never fuel clock i p : (forall j, p (clock j) = false) -> await fuel clock i p = Hang.
Proof. intros Hp. revert i. induction fuel as [|fuel IH]; intros i; simpl; [done|]. by rewrite Hp. Qed.

Lemma UpdateWindow_idle persist t : physical (saved t) = physical (current t) + defaultUpperBoundWindow ->
  ts_ok (current t) -> UpdateWindow persist t = Ret (t, None).
Proof.
  intros Hs [Hp _]. unfold UpdateWindow, window_due. rewrite Hs. unfold defaultUpperBoundWindow in *.
  rewrite i64_small by word.
  destruct (physical (current t) + 2000 =? 0) eqn:E; [lia|]. simpl.
  destruct (_ <=? _) eqn:E'; [done|lia].
Qed.

(** C40: an idle leader deadlocks.  After startup the bound is one window above
    the physical time, which only [allocate] advances: [UpdateWindow] finds
    the bound sufficient and leaves it.  Once the clock has passed the bound,
    [allocate] polls the clock for a reading below a bound that cannot move,
    since it holds [tso.mu], which [UpdateWindow] needs: it never returns. *)
Theorem idle_leader_deadlocks (persist : TSO -> Z -> outcome (TSO * option error))
    (fuel : nat) (clock : nat -> Z) (t : TSO) :
  ts_ok (current t) ->
  physical (saved t) = physical (current t) + defaultUpperBoundWindow ->
  (forall i, physical (saved t) <= clock i) ->
  UpdateWindow persist t = Ret (t, None) /\ allocate fuel clock t = Hang.
Proof.
  intros Hok Hs Hc. split; [by apply UpdateWindow_idle|]. unfold allocate.
  pose proof (Hc 0%nat) as H0. unfold defaultUpperBoundWindow in *.
  destruct (physical (current t) <? clock 0%nat) eqn:E; [|lia]. cbn [physical Reset].
  destruct (physical (saved t) <=? clock 0%nat) eqn:E'; [|lia].
  rewrite await_never; [done|]. intros j. specialize (Hc j). lia.
Qed.

(** The logical counter overflows into the physical time.  The overflow
    test runs before the increment, so the counter reaches 2^18, whose bit is
    the lowest of the physical part; when that bit is set, the timestamp
    handed out is smaller than the previous one. *)
Theorem logical_overflow_regresses (fuel : nat) (clock : nat -> Z) (t : TSO) :
  ts_ok (current t) -> logical (current t) = MAX_LOGICAL ->
  Z.odd (physical (current t)) = true ->
  clock 0%nat <= physical (current t) -> physical (current t) < physical (saved t) ->
  exists t' cts, allocate fuel clock t = Ret (t', cts) /\ cts < currentReadTs t.
Proof.
  intros Hok Hl Hodd Hc Hs. unfold allocate.
  destruct (physical (current t) <? clock 0%nat) eqn:E; [lia|].
  destruct (physical (saved t) <=? physical (current t)) eqn:E'; [lia|]. simpl.
  unfold ExceedLogicalMax. rewrite Hl. simpl. eexists _, _. split; [reflexivity|].
  unfold currentReadTs. rewrite (Compose_ok (current t)), Hl by done.
  destruct Hok as [Hp _]. unfold Compose, Incr, LOGICAL_BITS. cbn [physical logical].
  rewrite Hl, i64_small by (rewrite Z.shiftl_mul_pow2 by lia; word).
  change (i64 (MAX_LOGICAL + 1)) with (Z.shiftl 1 18). rewrite <- Z.shiftl_lor.
  assert (Z.lor (physical (current t)) 1 = physical (current t)) as ->.
  { apply Z.bits_inj'. intros n Hn. rewrite Z.lor_spec.
    destruct (Z.eq_dec n 0) as [->|]; [rewrite Z.bit0_odd, Hodd; done|].
    rewrite (Z.bits_above_log2 1 n) by (simpl; lia). apply orb_false_r. }
  rewrite u64_small by (rewrite Z.shiftl_mul_pow2 by lia; word).
  rewrite Z.shiftl_mul_pow2 by lia. change MAX_LOGICAL with 262143. lia.
Qed.

(** ** The conflict check *)

Lemma touches_spec reads keys : touches reads keys = true <-> exists k, k ∈ reads /\ k ∈ keys.
Proof.
  unfold touches. rewrite existsb_exists. setoid_rewrite bool_decide_eq_true.
  setoid_rewrite list_elem_of_In. done.
Qed.

Lemma hasConflict_spec t r reads : hasConflict t r reads = true <->
  exists c, c ∈ committedTxns t /\ r < ts c /\ exists k, k ∈ reads /\ k ∈ conflictKeys c.
Proof.
  unfold hasConflict. destruct (length reads =? 0)%nat eqn:El.
  - apply Nat.eqb_eq, nil_length_inv in El as ->. split; [done|].
    intros (c & _ & _ & k & Hk & _). by apply not_elem_of_nil in Hk.
  - clear El. induction (committedTxns t) as [|c l IH]; simpl.
    + split; [done|]. intros (c & Hc & _). by apply not_elem_of_nil in Hc.
    + setoid_rewrite elem_of_cons. destruct (ts c <=? r) eqn:E.
      * rewrite IH. split; [intros (c' & ? & ?); eauto|]. intros (c' & [->|Hc'] & Hr & Hk); [lia|eauto].
      * destruct (touches reads (conflictKeys c)) eqn:Et.
        -- split; [|done]. intros _. apply touches_spec in Et. exists c. split; [auto|]. split; [lia|done].
        -- rewrite IH. split; [intros (c' & ? & ?); eauto|]. intros (c' & [->|Hc'] & Hr & Hk); [|eauto].
           apply touches_spec in Hk. congruence.
Qed.

(** ** From leader to leader *)

(** Milliseconds for which the arithmetic has room. *)
Definition ms_ok (z : Z) : Prop := 0 <= z < 2 ^ 45 - 4096.

Lemma StartServing_found `{DurationLib} last now propose id t :
  ms_ok last -> ms_ok now -> (forall cmd, propose cmd = Ret None) ->
  exists t', StartServing (inr (Some (Uint64ToBytes last))) now propose id t = Ret (t', None) /\
    current t' = TimeStamp (Z.max now (last + 1)) 1 /\
    saved t' = TimeStamp (Z.max now (last + 1) + defaultUpperBoundWindow) 0 /\
    stopNotifier t' = OpenChan.
Proof.
  unfold ms_ok. intros Hl Hn Hp. unfold StartServing.
  rewrite BytesToUint64_Uint64ToBytes by word. simpl. rewrite i64_small by word.
  rewrite (i64_small (last + 1)) by word.
  unfold persistUpperboundOnStartup. rewrite Hp. simpl. eexists. split; [reflexivity|]. simpl.
  unfold defaultUpperBoundWindow.
  assert ((if now <=? last then last + 1 else now) = Z.max now (last + 1)) as ->
    by (destruct (now <=? last) eqn:E; lia).
  rewrite i64_small by word. done.
Qed.

(** Timestamps increase across leaders.  A leader that starts from the bound
    its predecessor persisted hands out only timestamps greater than any the
    predecessor allocated below that bound, even if its clock is behind. *)
Theorem leader_handoff_increases `{DurationLib} (fuel fuel' : nat) (clock clock' : nat -> Z)
    (old new : TSO) (now : Z) (propose : Command -> outcome (option error)) (id : string) :
  in_window clock old -> ms_ok (physical (saved old)) -> ms_ok now ->
  (forall cmd, propose cmd = Ret None) ->
  exists old' cts new', allocate fuel clock old = Ret (old', cts) /\
    StartServing (inr (Some (Uint64ToBytes (physical (saved old))))) now propose id new
      = Ret (new', None) /\
    cts < currentReadTs new' /\
    (in_window clock' new' -> exists new'' cts',
       allocate fuel' clock' new' = Ret (new'', cts') /\ cts < cts').
Proof.
  intros Hw Hs Hn Hp. destruct (allocate_in_window fuel clock old Hw) as (c & Ha & Hc & _ & Hb & _).
  destruct (StartServing_found (physical (saved old)) now propose id new Hs Hn Hp)
    as (new' & Hst & Hcur & Hsav & _).
  assert (Compose c < currentReadTs new') as Hlt.
  { unfold currentReadTs. rewrite Hcur. apply Compose_lt; [done| |simpl; lia].
    unfold ts_ok, ms_ok in *. simpl. change MAX_LOGICAL with 262143. lia. }
  eexists _, _, new'. split; [exact Ha|]. split; [exact Hst|]. split; [exact Hlt|].
  intros Hw'. destruct (allocate_in_window fuel' clock' new' Hw') as (c' & Ha' & _ & Hlt' & _).
  eexists _, _. split; [exact Ha'|]. unfold currentReadTs in Hlt. lia.
Qed.

End WithMarks.
(** ** Concrete states *)

Definition start_ts : timeStamp := TimeStamp 1000 1.

(** A leader that started serving at millisecond 1000. *)
Definition start : TSO :=
  MkTSO _ start_ts (TimeStamp 3000 0) (mw_fresh (Compose start_ts)) (mw_fresh (Compose start_ts))
    ∅ 0 OpenChan [].

(** A clock that stands still at millisecond [n]. *)
Definition still (n : Z) : nat -> Z := fun _ => n.

Lemma start_in_window n : n < 3000 -> in_window (still n) start.
Proof. unfold in_window, ts_ok, still. simpl. change MAX_LOGICAL with 262143. lia. Qed.

Lemma allocate_increases_witness :
  exists t' cts, allocate 0 (still 1500) start = Ret (t', cts) /\
    currentReadTs start < cts /\ currentReadTs t' = cts /\ cts < physical (saved start) * 2 ^ 18.
Proof. apply (allocate_increases 0 (still 1500) start). apply start_in_window. lia. Defined.

Lemma idle_leader_deadlocks_witness :
  UpdateWindow (fun t _ => Ret (t, None)) start = Ret (start, None) /\
  allocate 1000 (still 3000) start = Hang.
Proof.
  apply (idle_leader_deadlocks (fun t _ => Ret (t, None)) 1000 (still 3000) start).
  - unfold ts_ok. simpl. change MAX_LOGICAL with 262143. lia.
  - reflexivity.
  - intros i. unfold still. simpl. lia.
Defined.

(** The last logical value of an odd millisecond has been handed out. *)
Definition full_ms : TSO := set_current start (TimeStamp 1001 MAX_LOGICAL).

Lemma logical_overflow_regresses_witness :
  exists t' cts, allocate 0 (still 1001) full_ms = Ret (t', cts) /\ cts < currentReadTs full_ms.
Proof.
  apply (logical_overflow_regresses 0 (still 1001) full_ms).
  - unfold ts_ok. simpl. change MAX_LOGICAL with 262143. lia.
  - reflexivity.
  - reflexivity.
  - unfold still. simpl. lia.
  - simpl. lia.
Defined.

Lemma leader_handoff_increases_witness :
  exists old' cts new', allocate 0 (still 1500) start = Ret (old', cts) /\
    StartServing (inr (Some (Uint64ToBytes 3000))) 900 (fun _ => Ret None) "id" start
      = Ret (new', None) /\
    cts < currentReadTs new' /\
    (in_window (still 901) new' -> exists new'' cts',
       allocate 0 (still 901) new' = Ret (new'', cts') /\ cts < cts').
Proof.
  apply (leader_handoff_increases 0 0 (still 1500) (still 901) start start 900
    (fun _ => Ret None) "id").
  - apply start_in_window. lia.
  - unfold ms_ok. simpl. lia.
  - unfold ms_ok. lia.
  - done.
Defined.

End TsoSafety.
