(* ===== verification/TsoHistory.v ===== *)
(** * The oracles of a cluster over time

    Every node that becomes leader starts its own oracle from the bound that
    is in the store.  A leader hands out timestamps to commits, and extends
    the bound from time to time with a transaction of its own, during which
    it goes on handing out.  A leader that was replaced does not know it at
    once and may still hand out timestamps; only its transactions fail, since
    raft does not commit them.  The theorem: in all such histories the
    timestamps of a leader increase, and are greater than all timestamps of
    the leaders before it. *)

From S2P Require Import Prelude Errors Utils Codecs Command MemCommand WaterMark Tso TsoSafety.

Module TsoHistory.
Import Tso TsoSafety.

Section History.
Context `{WaterMarkLib} `{DurationLib}.
Implicit Types (t : TSO) (clock : nat -> Z) (persisted : option Z).

(** ** What a leader does *)

(** The readings of a call are dates, and do not go back. *)
Definition clock_ok (clock : nat -> Z) : Prop :=
  forall i, ms_ok (clock i) /\ clock 0%nat <= clock i.

(** Fewer than 2^18 timestamps were handed out in this millisecond. *)
Definition room (clock : nat -> Z) (t : TSO) : Prop :=
  logical (current t) < MAX_LOGICAL \/ physical (current t) < clock 0%nat.

(** Commits that get the timestamps [cs]. *)
Inductive commits : TSO -> list Z -> TSO -> Prop :=
  | commits_nil t : commits t [] t
  | commits_cons fuel clock t readTs reads keys t1 cts cs t2 :
      clock_ok clock -> room clock t ->
      newCommitTs fuel clock t readTs reads keys = Ret (t1, Some cts) ->
      commits t1 cs t2 -> commits t (cts :: cs) t2.

(** ** The cluster *)

(** The oracle of a leader, and the timestamps it has handed out. *)
Record leader := Leader {
  oracle : TSO;
  issued : list Z
}.

Definition hand_out (l : leader) (t : TSO) (cs : list Z) : leader := Leader t (issued l ++ cs).

Definition stored (persisted : option Z) : result (option bytes) :=
  inr (Uint64ToBytes <$> persisted).

(** The bound in the store, and the leaders so far, the last one first. *)
Inductive history : option Z -> list leader -> Prop :=
  | no_leader : history None []
  (** A node becomes leader, with an oracle that may have served before; its
      first timestamp is that of the command that persists its bound. *)
  | elected persisted ls t0 now id t :
      history persisted ls -> ms_ok now -> (forall b, persisted = Some b -> ms_ok b) ->
      StartServing (stored persisted) now (fun _ => Ret None) id t0 = Ret (t, None) ->
      history (Some (physical (saved t))) (Leader t [Compose (current t)] :: ls)
  (** The command fails, and may have been committed nevertheless. *)
  | not_elected persisted ls t0 now id t e (committed : bool) :
      history persisted ls -> ms_ok now -> (forall b, persisted = Some b -> ms_ok b) ->
      StartServing (stored persisted) now (fun _ => Ret (Some e)) id t0 = Ret (t, Some e) ->
      history (if committed then Some (physical (current t) + defaultUpperBoundWindow)
               else persisted) ls
  (** Any leader commits, also one that was replaced. *)
  | committed persisted ls1 l ls2 cs t :
      history persisted (ls1 ++ l :: ls2) -> commits (oracle l) cs t ->
      history persisted (ls1 ++ hand_out l t cs :: ls2)
  (** The leader extends its window: the transaction succeeds, or it fails and
      may have been committed; commits go on meanwhile. *)
  | extended persisted l ls cs t1 err ub (committed : bool) t :
      history persisted (l :: ls) -> commits (oracle l) cs t1 ->
      window_due (oracle l) = Some ub -> (err = None -> committed = true) ->
      windowUpdator (fun _ _ => Ret (t1, err)) WTick (oracle l) = Ret (t, true) ->
      history (if committed then Some ub else persisted) (hand_out l t cs :: ls)
  (** A leader that was replaced tries to. *)
  | not_extended persisted l1 ls1 l ls2 cs t1 e t :
      history persisted (l1 :: ls1 ++ l :: ls2) -> commits (oracle l) cs t1 ->
      window_due (oracle l) <> None ->
      windowUpdator (fun _ _ => Ret (t1, Some e)) WTick (oracle l) = Ret (t, true) ->
      history persisted (l1 :: ls1 ++ hand_out l t cs :: ls2).

(** ** One leader *)

(** In the window, with room for the arithmetic. *)
Definition serving (t : TSO) : Prop :=
  ts_ok (current t) /\ physical (current t) <= 2 ^ 45 - 4096 /\
  physical (current t) < physical (saved t) <= 2 ^ 45.

Lemma allocate_serving fuel clock t t' cts : clock_ok clock -> room clock t -> serving t ->
  allocate fuel clock t = Ret (t', cts) ->
  exists c, t' = set_current t c /\ cts = Compose c /\ ts_ok c /\ Compose (current t) < cts /\
    physical c <= 2 ^ 45 - 4096 /\ physical (current t) <= physical c < physical (saved t).
Proof.
  intros Hc Hr (Hok & Hb & Hs & Hm) Ha.
  destruct (Z.lt_ge_cases (clock 0%nat) (physical (saved t))) as [Hlt|Hge].
  - destruct (allocate_in_window fuel clock t) as (c & E & Hcok & Hinc & Hp & Hx);
      [done|].
    rewrite E in Ha. injection Ha as <- <-. exists c. repeat (split; [done|]).
    destruct (Hc 0%nat) as [Hk _]. unfold ms_ok in Hk. lia.
  - exfalso. unfold allocate in Ha.
    destruct (Z.ltb_spec (physical (current t)) (clock 0%nat)); [|lia]. cbn [physical Reset] in Ha.
    destruct (Z.leb_spec (physical (saved t)) (clock 0%nat)); [|lia].
    rewrite await_never in Ha; [done|]. intros j. apply Z.ltb_ge. destruct (Hc j). lia.
Qed.

Lemma newCommitTs_serving fuel clock t readTs reads keys t' cts :
  clock_ok clock -> room clock t -> serving t ->
  newCommitTs fuel clock t readTs reads keys = Ret (t', Some cts) ->
  serving t' /\ saved t' = saved t /\ Compose (current t) < cts /\ cts = Compose (current t').
Proof.
  intros Hc Hr Hs E. unfold newCommitTs in E. destruct (hasConflict t readTs reads); [done|].
  set (t1 := cleanupCommittedTransactions (doneRead t readTs)) in E.
  assert (current t1 = current t /\ saved t1 = saved t) as [Ec Es].
  { unfold t1, cleanupCommittedTransactions, doneRead.
    by destruct (decide _), (_ =? _). }
  destruct (allocate fuel clock t1) as [[t2 c2]| |] eqn:Ea; [|done..].
  rewrite ret_bind in E. injection E as <- <-.
  apply allocate_serving in Ea as (c & -> & -> & Hok & Hlt & Hb & Hp); [|done| |].
  - rewrite Ec in Hlt, Hp. destruct Hs as (_ & _ & _ & Hm). unfold serving. cbn in *.
    rewrite Es in *. split; [split; [done|lia]|done].
  - unfold room in *. by rewrite Ec.
  - unfold serving in *. by rewrite Ec, Es.
Qed.

Lemma commits_serving t cs t' : commits t cs t' -> serving t ->
  serving t' /\ saved t' = saved t /\ StronglySorted Z.lt cs /\
  Compose (current t) <= Compose (current t') /\
  Forall (fun c => Compose (current t) < c <= Compose (current t')) cs.
Proof.
  induction 1 as [t|fuel clock t readTs reads keys t1 cts cs t2 Hc Hr E _ IH]; intros Hs.
  - split; [done|]. split; [done|]. split; [constructor|]. split; [done|constructor].
  - destruct (newCommitTs_serving _ _ _ _ _ _ _ _ Hc Hr Hs E) as (Hs1 & Es & Hlt & ->).
    destruct (IH Hs1) as (Hs2 & Es2 & Hsort & Hle & Hall). split; [done|].
    split; [congruence|]. split; [|split; [lia|]].
    + constructor; [done|]. eapply Forall_impl; [exact Hall|]. simpl. lia.
    + constructor; [lia|]. eapply Forall_impl; [exact Hall|]. simpl. lia.
Qed.

(** ** The leaders in a row *)

(** What a leader that started at millisecond [lo] has handed out. *)
Definition leader_ok (lo : Z) (l : leader) : Prop :=
  serving (oracle l) /\ StronglySorted Z.lt (issued l) /\
  lo * 2 ^ 18 <= Compose (current (oracle l)) /\
  Forall (fun c => lo * 2 ^ 18 <= c <= Compose (current (oracle l))) (issued l).

Fixpoint chain (bound : Z) (ls : list leader) : Prop :=
  match ls with
  | [] => True
  | l :: ls => exists lo, leader_ok lo l /\ physical (saved (oracle l)) <= bound /\ chain lo ls
  end.

Lemma chain_weaken b b' ls : b <= b' -> chain b ls -> chain b' ls.
Proof.
  destruct ls as [|l ls]; [done|]. intros Hb (lo & Hl & Hs & Hc).
  exists lo. split; [done|]. split; [lia|done].
Qed.

Lemma hand_out_ok lo l cs t1 t : leader_ok lo l -> commits (oracle l) cs t1 ->
  current t = current t1 -> serving t -> leader_ok lo (hand_out l t cs).
Proof.
  intros (Hs & Hi & Hlo & Hall) Hc Et Ht.
  destruct (commits_serving _ _ _ Hc Hs) as (_ & _ & Hsort & Hle & Hcs).
  unfold leader_ok. cbn [hand_out oracle issued]. rewrite Et. split; [done|]. split; [|split; [lia|]].
  - apply StronglySorted_app. split; [|done]. intros x y Hx Hy.
    rewrite Forall_forall in Hall, Hcs. specialize (Hall x Hx). specialize (Hcs y Hy). simpl in *. lia.
  - apply Forall_app. split; (eapply Forall_impl; [eassumption|]; simpl; lia).
Qed.

Lemma chain_commits b ls1 l ls2 cs t : chain b (ls1 ++ l :: ls2) -> commits (oracle l) cs t ->
  chain b (ls1 ++ hand_out l t cs :: ls2).
Proof.
  intros Hch Hc. revert b Hch. induction ls1 as [|x ls1 IH]; intros b (lo & Hl & Hs & Hch).
  - pose proof Hl as (Hsv & _). destruct (commits_serving _ _ _ Hc Hsv) as (Ht & Es & _).
    exists lo. split; [by eapply hand_out_ok|]. cbn [hand_out oracle]. by rewrite Es.
  - exists lo. split; [done|]. split; [done|]. by apply IH.
Qed.

Lemma StartServing_at persisted now e id t0 t :
  ms_ok now -> (forall b, persisted = Some b -> ms_ok b) ->
  StartServing (stored persisted) now (fun _ => Ret e) id t0 = Ret (t, e) ->
  let cur := match persisted with Some b => Z.max now (b + 1) | None => now end in
  current t = TimeStamp cur 1 /\
  (e = None -> saved t = TimeStamp (cur + defaultUpperBoundWindow) 0).
Proof.
  unfold ms_ok, stored, StartServing, persistUpperboundOnStartup, defaultUpperBoundWindow.
  intros Hn Hp E. destruct persisted as [b|]; cbn [fmap option_fmap option_map] in E; cbv zeta.
  - specialize (Hp b eq_refl). rewrite BytesToUint64_Uint64ToBytes, !ret_bind in E by word.
    rewrite (i64_small b), (i64_small (b + 1)) in E by word.
    assert ((if now <=? b then b + 1 else now) = Z.max now (b + 1)) as Em
      by (destruct (Z.leb_spec now b); lia).
    rewrite Em in E. destruct e; injection E as <-; cbn; rewrite ?i64_small by word; done.
  - rewrite !ret_bind in E. destruct e; injection E as <-; cbn; rewrite ?i64_small by word; done.
Qed.

(** The leaders are below the bound in the store. *)
Definition below (persisted : option Z) (ls : list leader) : Prop :=
  match persisted with Some b => 0 <= b /\ chain b ls | None => ls = [] end.

Lemma elected_below persisted ls now id t0 t : below persisted ls -> ms_ok now ->
  (forall b, persisted = Some b -> ms_ok b) ->
  StartServing (stored persisted) now (fun _ => Ret None) id t0 = Ret (t, None) ->
  below (Some (physical (saved t))) (Leader t [Compose (current t)] :: ls).
Proof.
  intros Hb Hn Hp E. destruct (StartServing_at _ _ _ _ _ _ Hn Hp E) as [Ec Es].
  specialize (Es eq_refl). set (cur := match persisted with Some b => _ | None => _ end) in *.
  assert (0 <= cur <= 2 ^ 45 - 4096 /\ chain cur ls) as [Hcur Hch].
  { unfold cur, ms_ok in *. destruct persisted as [b|].
    - specialize (Hp b eq_refl). split; [lia|]. eapply chain_weaken; [|apply Hb]. lia.
    - simpl in Hb. subst ls. split; [lia|done]. }
  assert (ts_ok (current t)) as Hok
    by (rewrite Ec; split; simpl; [lia|change MAX_LOGICAL with 262143; lia]).
  assert (Compose (current t) = cur * 2 ^ 18 + 1) as Ecomp by (by rewrite Compose_ok, Ec).
  unfold defaultUpperBoundWindow in Es. split; [rewrite Es; simpl; lia|].
  exists cur. split; [|split; [done|done]]. unfold leader_ok, serving. cbn [oracle issued].
  rewrite Ecomp, Ec, Es in *. cbn [physical] in *. split; [split; [done|lia]|].
  split; [repeat constructor|]. split; [lia|]. constructor; [lia|constructor].
Qed.

Lemma window_due_serving t ub : serving t -> window_due t = Some ub ->
  ub = physical (current t) + defaultUpperBoundWindow /\ physical (saved t) < ub.
Proof.
  unfold serving, ts_ok, window_due, defaultUpperBoundWindow. intros Hs.
  rewrite i64_small by word. destruct (Z.eqb_spec (physical (saved t)) 0); [lia|].
  destruct (Z.leb_spec (physical (current t) + 2000) (physical (saved t))); [done|].
  cbn. intros [= <-]. lia.
Qed.

Lemma extended_below persisted l ls cs t1 err ub (committed : bool) t :
  below persisted (l :: ls) -> commits (oracle l) cs t1 -> window_due (oracle l) = Some ub ->
  (err = None -> committed = true) ->
  windowUpdator (fun _ _ => Ret (t1, err)) WTick (oracle l) = Ret (t, true) ->
  below (if committed then Some ub else persisted) (hand_out l t cs :: ls).
Proof.
  intros Hb Hc Hw Hcom E. destruct persisted as [b|]; [|done].
  destruct Hb as [Hb (lo & Hl & Hs & Hch)]. pose proof Hl as (Hsv & _).
  destruct (commits_serving _ _ _ Hc Hsv) as (Ht & Es & _).
  destruct (window_due_serving _ _ Hsv Hw) as [Eub Hlt].
  cbn [windowUpdator] in E. unfold UpdateWindow in E. rewrite Hw, ret_bind in E.
  assert (current t = current t1 /\ serving t /\
    physical (saved t) <= (if committed then ub else b)) as (Ec & Hst & Hsb).
  { unfold serving, defaultUpperBoundWindow in *. rewrite Es in Ht.
    destruct err as [err|]; injection E as <-.
    - rewrite Es. split; [done|]. split; [done|]. destruct committed; lia.
    - rewrite (Hcom eq_refl). cbn. split; [done|]. split; [|lia].
      split; [apply Ht|]. split; [apply Ht|]. lia. }
  assert (chain (if committed then ub else b) (hand_out l t cs :: ls)) as Hch'.
  { exists lo. split; [by eapply hand_out_ok|]. done. }
  destruct committed; split; [|done|done|done]. unfold serving, ts_ok in Hsv. lia.
Qed.

Lemma history_below persisted ls : history persisted ls -> below persisted ls.
Proof.
  induction 1 as [|p ls t0 now id t _ IH Hn Hp E|p ls t0 now id t e com _ IH Hn Hp E
    |p ls1 l ls2 cs t _ IH Hc|p l ls cs t1 err ub com t _ IH Hc Hw Hcom E
    |p l1 ls1 l ls2 cs t1 e t _ IH Hc Hw E].
  - done.
  - by eapply elected_below.
  - destruct com; [|done]. destruct (StartServing_at _ _ _ _ _ _ Hn Hp E) as [Ec _].
    rewrite Ec. cbn [physical]. unfold ms_ok, defaultUpperBoundWindow in *.
    destruct p as [b|]; cbn in *.
    + split; [lia|]. eapply chain_weaken; [|apply IH]. lia.
    + subst ls. split; [lia|done].
  - destruct p as [b|]; [|by destruct ls1]. destruct IH as [Hb IH].
    split; [done|]. by apply chain_commits.
  - by eapply extended_below.
  - destruct p as [b|]; [|done]. destruct IH as [Hb IH]. split; [done|].
    cbn [windowUpdator] in E. unfold UpdateWindow in E.
    destruct (window_due (oracle l)); [|done]. rewrite !ret_bind in E. injection E as <-.
    by apply (chain_commits b (l1 :: ls1)).
Qed.

(** All timestamps, in the order of the leaders. *)
Definition all_issued (ls : list leader) : list Z := concat (rev (map issued ls)).

Lemma chain_sorted b ls : chain b ls ->
  StronglySorted Z.lt (all_issued ls) /\ Forall (fun c => c < b * 2 ^ 18) (all_issued ls).
Proof.
  unfold all_issued. revert b. induction ls as [|l ls IH]; intros b Hch.
  { split; constructor. }
  destruct Hch as (lo & (Hs & Hi & Hlo & Hall) & Hsb & Hch). cbn [map rev].
  rewrite concat_app. cbn [concat]. rewrite app_nil_r.
  assert (Compose (current (oracle l)) < b * 2 ^ 18) as Hlt.
  { destruct Hs as (Hok & _ & Hp). apply Compose_below; [done|lia]. }
  destruct (IH lo Hch) as [Hsort Hold]. rewrite Forall_forall in Hall, Hold.
  split.
  - apply StronglySorted_app. split; [|done]. intros x y Hx Hy.
    specialize (Hold x Hx). specialize (Hall y Hy). simpl in *. lia.
  - apply Forall_app. rewrite !Forall_forall. split; intros x Hx.
    + specialize (Hold x Hx). simpl in *. lia.
    + specialize (Hall x Hx). simpl in *. lia.
Qed.


End History.

(** ** Two leaders *)

(** The first leader starts at millisecond 1000, commits, and extends its
    window; the second starts with a clock that is behind, and then the first
    commits once more. *)
Definition first : TSO := newTSO (mw_fresh 0) (mw_fresh 0).

Definition ret {A} (a : A) (o : outcome A) : A := match o with Ret a => a | _ => a end.

Definition leads (p : option Z) (now : Z) : TSO :=
  fst (ret (first, None) (StartServing (stored p) now (fun _ => Ret None) "id" first)).
Definition commit_at (n : Z) (t : TSO) : TSO * option Z :=
  ret (t, None) (newCommitTs 0 (still n) t 0 [] ∅).

Definition first1 : TSO := leads None 1000.
Definition first2 : TSO := fst (commit_at 1500 first1).
Definition first3 : TSO := set_saved first2 (Reset 3500).
Definition second : TSO := leads (Some 3500) 900.
Definition first4 : TSO := fst (commit_at 1500 first3).

Lemma still_ok n : ms_ok n -> clock_ok (still n).
Proof. intros Hn i. by split. Qed.

Lemma commits_one n t t' c : ms_ok n -> room (still n) t ->
  newCommitTs 0 (still n) t 0 [] ∅ = Ret (t', Some c) -> commits t [c] t'.
Proof.
  intros Hn Hr E. eapply commits_cons; [by apply still_ok|exact Hr|exact E|constructor].
Qed.

Definition leaders : list leader :=
  [Leader second [Compose (current second)];
   Leader first4 [Compose (current first1); Compose (current first2); Compose (current first4)]].

Lemma elected_at p ls now b : history p ls -> ms_ok now -> (forall b, p = Some b -> ms_ok b) ->
  StartServing (stored p) now (fun _ => Ret None) "id" first = Ret (leads p now, None) ->
  physical (saved (leads p now)) = b ->
  history (Some b) (Leader (leads p now) [Compose (current (leads p now))] :: ls).
Proof. intros Hh Hn Hp E <-. by eapply elected. Qed.

(** Computes both sides of an equation. *)
Local Ltac computed := match goal with |- _ = ?y => vm_cast_no_check (eq_refl y) end.

Lemma two_leaders : history (Some 5501) leaders.
Proof.
  assert (history (Some 3000) [Leader first1 [Compose (current first1)]]) as H1.
  { apply (elected_at None [] 1000 3000);
      [apply no_leader|unfold ms_ok; lia|done|computed|computed]. }
  assert (commits first1 [Compose (current first2)] first2) as C1.
  { apply (commits_one 1500); [unfold ms_ok; lia|left; by apply Z.ltb_lt; computed|computed]. }
  pose proof (committed (Some 3000) [] _ [] _ _ H1 C1) as H2.
  assert (window_due first2 = Some 3500) as D1 by computed.
  assert (windowUpdator (fun _ _ => Ret (first2, None)) WTick first2 = Ret (first3, true)) as D2
    by computed.
  pose proof (extended (Some 3000) _ [] [] first2 None 3500 true first3 H2 (commits_nil _)
    D1 (fun _ => eq_refl) D2) as H3.
  pose proof (elected_at (Some 3500) _ 900 5501 H3) as H4.
  assert (commits first3 [Compose (current first4)] first4) as C2.
  { apply (commits_one 1500); [unfold ms_ok; lia|left; by apply Z.ltb_lt; computed|computed]. }
  refine (committed (Some 5501) [_] _ [] _ _ (H4 _ _ _ _) C2); [unfold ms_ok; lia| |computed..].
  intros b [= <-]. unfold ms_ok. lia.
Qed.


End TsoHistory.
