(* ===== verification/TsoConflict.v ===== *)
(** * The conflict check of the oracle

    The oracle and its clients as a transition system: transactions begin,
    commit, are refused and are discarded in any order, and the oracle drops
    commits no transaction in flight can conflict with.  An invariant shows
    that the check still sees every commit that matters. *)

From stdpp Require Import gmultiset.
From S2P Require Import Prelude Errors Utils WaterMark Tso TsoSafety.

Module TsoConflict.
Import Tso TsoSafety.

Section System.
Context `{WaterMarkLaws}.

(** The oracle, the read timestamps of the transactions in flight, those of
    the transactions that committed but were not discarded yet, and every
    commit ever made. *)
Record sys := Sys {
  tso : TSO;
  active : gmultiset Z;
  zombies : gmultiset Z;
  commits : list committedTxn
}.

Inductive step : sys -> sys -> Prop :=
  (** [BeginTxn]: [ReadTs] takes a timestamp and registers the read at once. *)
  | step_begin t A Zb Cs t1 r :
      ReadTs_lock t = (t1, r) ->
      step (Sys t A Zb Cs) (Sys (ReadTs_begin t1 r) ({[+ r +]} ⊎ A) Zb Cs)
  (** [ReadTs] gives up waiting. *)
  | step_begin_fails t A Zb Cs t1 r t2 err :
      ReadTs_lock t = (t1, r) ->
      ReadTs_wait (ReadTs_begin t1 r) true r = Ret (t2, inl err) ->
      step (Sys t A Zb Cs) (Sys t2 A Zb Cs)
  (** [newCommitTs] succeeds, inside the window. *)
  | step_commit t A Zb Cs r reads keys fuel clock t' cts :
      r ∈ A -> in_window clock t ->
      newCommitTs fuel clock t r reads keys = Ret (t', Some cts) ->
      step (Sys t A Zb Cs)
           (Sys t' (A ∖ {[+ r +]}) ({[+ r +]} ⊎ Zb) (Cs ++ [CommittedTxn cts keys]))
  (** [Discard] without a commit, and after one. *)
  | step_discard t A Zb Cs r :
      r ∈ A -> step (Sys t A Zb Cs) (Sys (DoneRead t r) (A ∖ {[+ r +]}) Zb Cs)
  | step_discard_committed t A Zb Cs r :
      r ∈ Zb -> step (Sys t A Zb Cs) (Sys (DoneRead t r) A (Zb ∖ {[+ r +]}) Cs)
  (** [DoneCommit], the watermarks' routines, and a new bound. *)
  | step_done_commit t A Zb Cs cts : step (Sys t A Zb Cs) (Sys (DoneCommit t cts) A Zb Cs)
  | step_process t A Zb Cs :
      step (Sys t A Zb Cs) (Sys (set_readMark t (wm_process (readMark t))) A Zb Cs)
  | step_window t A Zb Cs s : step (Sys t A Zb Cs) (Sys (set_saved t s) A Zb Cs).

(** A leader that has started serving. *)
Definition initial (s : sys) : Prop :=
  active s = ∅ /\ zombies s = ∅ /\ commits s = [] /\
  committedTxns (tso s) = [] /\ readers (tso s) = ∅ /\ ts_ok (current (tso s)) /\
  wm_last (readMark (tso s)) <= currentReadTs (tso s) /\
  forall r, 0 <= wm_pending (readMark (tso s)) r.

Definition reachable (s0 s : sys) : Prop := rtc step s0 s.

(** ** The invariant *)

Record inv (s : sys) : Prop := Inv {
  inv_ts : ts_ok (current (tso s));
  inv_last : wm_last (readMark (tso s)) <= currentReadTs (tso s);
  (** Every transaction in flight still holds the read watermark down. *)
  inv_pending : forall r, Z.of_nat (multiplicity r (active s)) <= wm_pending (readMark (tso s)) r;
  inv_active : forall r, r ∈ active s -> r <= currentReadTs (tso s);
  inv_guarded : forall r, r ∈ active s -> wm_guarded (readMark (tso s)) r;
  (** A second [DoneRead] of a committed transaction finds nothing. *)
  inv_zombies : forall r, r ∈ zombies s -> (r ∉ readers (tso s)) /\ r < currentReadTs (tso s);
  inv_commits : forall c, c ∈ commits s -> ts c <= currentReadTs (tso s);
  inv_known : forall c, c ∈ committedTxns (tso s) -> c ∈ commits s;
  (** Commits a transaction in flight can conflict with are kept. *)
  inv_kept : forall c r, c ∈ commits s -> r ∈ active s -> r < ts c -> c ∈ committedTxns (tso s)
}.

Lemma initial_inv s : initial s -> inv s.
Proof.
  intros (HA & HZ & HL & HC & HR & Hts & Hlast & Hp).
  split; rewrite ?HA, ?HZ, ?HL, ?HC; try done; multiset_solver.
Qed.

(** ** The parts of a step *)

Lemma doneRead_current t r : current (doneRead t r) = current t.
Proof. unfold doneRead. by case_decide. Qed.

Lemma doneRead_committed t r : committedTxns (doneRead t r) = committedTxns t.
Proof. unfold doneRead. by case_decide. Qed.

Lemma doneRead_saved t r : saved (doneRead t r) = saved t.
Proof. unfold doneRead. by case_decide. Qed.

Lemma doneRead_last t r : wm_last (readMark (doneRead t r)) = wm_last (readMark t).
Proof. unfold doneRead. case_decide; [apply last_done|done]. Qed.

Lemma doneRead_readers t r r' : r' ∈ readers (doneRead t r) -> r' ∈ readers t /\ r' <> r.
Proof.
  unfold doneRead. case_decide; simpl; [set_solver|]. intros Hr. split; [done|]. by intros ->.
Qed.

Lemma multiplicity_remove (A : gmultiset Z) r r' :
  Z.of_nat (multiplicity r' (A ∖ {[+ r +]})) =
  Z.max 0 (Z.of_nat (multiplicity r' A) - (if decide (r = r') then 1 else 0)).
Proof.
  rewrite multiplicity_difference, multiplicity_singleton.
  repeat case_decide; subst; done || lia.
Qed.

Lemma elem_multiplicity (A : gmultiset Z) r : r ∈ A <-> (0 < Z.of_nat (multiplicity r A)).
Proof. rewrite elem_of_multiplicity. lia. Qed.

(** Ending one transaction in flight at [r] keeps the others' marks. *)
Lemma doneRead_marks t r (A : gmultiset Z) : r ∈ A ->
  (forall r', Z.of_nat (multiplicity r' A) <= wm_pending (readMark t) r') ->
  (forall r', r' ∈ A -> wm_guarded (readMark t) r') ->
  (forall r', Z.of_nat (multiplicity r' (A ∖ {[+ r +]})) <= wm_pending (readMark (doneRead t r)) r') /\
  (forall r', r' ∈ A ∖ {[+ r +]} -> wm_guarded (readMark (doneRead t r)) r').
Proof.
  intros Hr Hp Hg. assert (forall r', Z.of_nat (multiplicity r' (A ∖ {[+ r +]})) <=
    wm_pending (readMark (doneRead t r)) r') as Hp'.
  { intros r'. rewrite multiplicity_remove. specialize (Hp r').
    apply elem_multiplicity in Hr. unfold doneRead.
    destruct (decide (r ∈ readers t)); simpl; [rewrite pending_done|];
      case_decide; subst; lia. }
  split; [exact Hp'|]. intros r' Hr'.
  assert (r' ∈ A) as HrA by (apply elem_multiplicity in Hr'; apply elem_multiplicity;
    rewrite multiplicity_remove in Hr'; case_decide; lia).
  specialize (Hp' r'). apply elem_multiplicity in Hr'. revert Hp'. unfold doneRead.
  destruct (decide (r ∈ readers t)); simpl; intros Hp'; [|by apply Hg].
  apply done_keeps; [by apply Hg|lia].
Qed.

(** The cleanup drops only commits at or below the read watermark. *)
Lemma cleanup_spec t c r : wm_DoneUntil (readMark t) <= r -> r < ts c ->
  c ∈ committedTxns t -> c ∈ committedTxns (cleanupCommittedTransactions t).
Proof.
  intros Hu Hr Hc. unfold cleanupCommittedTransactions. case_match; [done|]. simpl.
  apply list_elem_of_filter. split; [lia|done].
Qed.

Lemma cleanup_sub t c : c ∈ committedTxns (cleanupCommittedTransactions t) -> c ∈ committedTxns t.
Proof.
  unfold cleanupCommittedTransactions. case_match; [done|]. simpl.
  by intros [_ ?]%list_elem_of_filter.
Qed.

Lemma cleanup_fields t :
  current (cleanupCommittedTransactions t) = current t /\
  saved (cleanupCommittedTransactions t) = saved t /\
  readMark (cleanupCommittedTransactions t) = readMark t /\
  readers (cleanupCommittedTransactions t) = readers t.
Proof. unfold cleanupCommittedTransactions. by case_match. Qed.

(** What a successful [newCommitTs] inside the window does. *)
Lemma newCommitTs_spec fuel clock t r reads keys t' cts : in_window clock t ->
  newCommitTs fuel clock t r reads keys = Ret (t', Some cts) ->
  currentReadTs t < cts /\ currentReadTs t' = cts /\ ts_ok (current t') /\
  readMark t' = readMark (doneRead t r) /\ readers t' = readers (doneRead t r) /\
  committedTxns t' = committedTxns (cleanupCommittedTransactions (doneRead t r))
                     ++ [CommittedTxn cts keys].
Proof.
  intros Hw. unfold newCommitTs. destruct (hasConflict t r reads); [done|].
  destruct (cleanup_fields (doneRead t r)) as (Ec & Es & Em & Er).
  destruct (allocate_in_window fuel clock (cleanupCommittedTransactions (doneRead t r)))
    as (c & -> & Hc & Hlt & _).
  { unfold in_window in *. rewrite Ec, Es, doneRead_current, doneRead_saved. exact Hw. }
  simpl. intros [= <- <-]. rewrite Ec, doneRead_current in Hlt. simpl. by rewrite Em, Er.
Qed.

Lemma begin_inv t A Zb Cs t1 r : ReadTs_lock t = (t1, r) ->
  inv (Sys t A Zb Cs) -> inv (Sys (ReadTs_begin t1 r) ({[+ r +]} ⊎ A) Zb Cs).
Proof.
  intros [= <- <-] [Hts Hlast Hp Hact Hg Hz Hc Hk Hkept]. simpl in *.
  split; simpl; try done.
  - rewrite last_begin. unfold currentReadTs in *. simpl. lia.
  - intros r. rewrite pending_begin, multiplicity_disj_union, multiplicity_singleton.
    specialize (Hp r). repeat case_decide; subst; done || lia.
  - intros r. rewrite gmultiset_elem_of_disj_union, gmultiset_elem_of_singleton.
    intros [->|Hr]; [done|by apply Hact].
  - intros r. rewrite gmultiset_elem_of_disj_union, gmultiset_elem_of_singleton.
    intros [->|Hr].
    + apply begin_guards; [done|]. specialize (Hp (currentReadTs t)). lia.
    + apply begin_keeps; [done|by apply Hg].
  - intros r Hr. destruct (Hz r Hr) as [Hn Hlt]. split; [|done]. set_unfold.
    intros [->|?]; [lia|done].
  - intros c r Hcin. rewrite gmultiset_elem_of_disj_union, gmultiset_elem_of_singleton.
    intros [->|Hr] Hlt; [specialize (Hc c Hcin); lia|eauto].
Qed.

Lemma begin_fails_inv t A Zb Cs t1 r t2 err : ReadTs_lock t = (t1, r) ->
  ReadTs_wait (ReadTs_begin t1 r) true r = Ret (t2, inl err) ->
  inv (Sys t A Zb Cs) -> inv (Sys t2 A Zb Cs).
Proof.
  intros [= <- <-] Hw [Hts Hlast Hp Hact Hg Hz Hc Hk Hkept]. simpl in *. revert Hw.
  unfold ReadTs_wait. destruct (wm_WaitForMark _ _ _) as [[e|]| |]; simpl; try done.
  intros [= <- <-].
  assert (forall r, wm_pending (wm_Done (wm_Begin (readMark t) (currentReadTs t)) (currentReadTs t)) r
    = wm_pending (readMark t) r) as Hsame.
  { intros r. rewrite pending_done, pending_begin. case_decide; lia. }
  split; simpl; try done.
  - rewrite last_done, last_begin. unfold currentReadTs in *. simpl. lia.
  - intros r. by rewrite Hsame.
  - intros r Hr. apply done_keeps; [apply begin_keeps; [done|by apply Hg]|].
    rewrite Hsame. apply elem_multiplicity in Hr. specialize (Hp r). lia.
  - intros r Hr. destruct (Hz r Hr) as [Hn Hlt]. split; [|done]. set_unfold.
    intros [->|?]; [lia|done].
Qed.

Lemma commit_inv t A Zb Cs r reads keys fuel clock t' cts : r ∈ A -> in_window clock t ->
  newCommitTs fuel clock t r reads keys = Ret (t', Some cts) ->
  inv (Sys t A Zb Cs) ->
  inv (Sys t' (A ∖ {[+ r +]}) ({[+ r +]} ⊎ Zb) (Cs ++ [CommittedTxn cts keys])).
Proof.
  intros Hr Hw Hn [Hts Hlast Hp Hact Hg Hz Hc Hk Hkept]. simpl in *.
  destruct (newCommitTs_spec _ _ _ _ _ _ _ _ Hw Hn) as (Hlt & Hcur & Hok & Em & Er & El).
  destruct (doneRead_marks t r A Hr Hp Hg) as [Hp' Hg'].
  assert (forall r', r' ∈ A ∖ {[+ r +]} -> r' ∈ A) as Hsub by multiset_solver.
  split; simpl; rewrite ?Em, ?Er, ?El; try done.
  - rewrite Hcur, doneRead_last. lia.
  - intros r' Hr'. rewrite Hcur. specialize (Hact r' (Hsub r' Hr')). lia.
  - intros r'. rewrite gmultiset_elem_of_disj_union, gmultiset_elem_of_singleton, Hcur.
    intros [->|Hr']; (split; [intros [? ?]%doneRead_readers|]).
    + done.
    + specialize (Hact r Hr). lia.
    + by apply (Hz r').
    + destruct (Hz r' Hr'). lia.
  - intros c. rewrite Hcur, elem_of_app, list_elem_of_singleton.
    intros [Hin|Heq]; [specialize (Hc c Hin); lia|by rewrite Heq].
  - intros c. rewrite !elem_of_app. intros [Hin|?]; [left|by right].
    apply Hk. apply cleanup_sub in Hin. by rewrite doneRead_committed in Hin.
  - intros c r'. rewrite !elem_of_app. intros [Hin|?] Hr' Hlt'; [left|by right].
    apply cleanup_spec with r'; [|done|].
    + by apply guarded_until, Hg'.
    + rewrite doneRead_committed. eauto.
Qed.

Lemma discard_inv t A Zb Cs r : r ∈ A -> inv (Sys t A Zb Cs) ->
  inv (Sys (DoneRead t r) (A ∖ {[+ r +]}) Zb Cs).
Proof.
  intros Hr [Hts Hlast Hp Hact Hg Hz Hc Hk Hkept]. simpl in *. unfold DoneRead.
  destruct (doneRead_marks t r A Hr Hp Hg) as [Hp' Hg'].
  assert (forall r', r' ∈ A ∖ {[+ r +]} -> r' ∈ A) as Hsub by multiset_solver.
  split; simpl; unfold currentReadTs in *;
    rewrite ?doneRead_current, ?doneRead_committed, ?doneRead_last; try done; eauto.
  intros r' Hr'. destruct (Hz r' Hr') as [Hn Hlt]. split; [|done].
  by intros [? ?]%doneRead_readers.
Qed.

Lemma step_inv s s' : step s s' -> inv s -> inv s'.
Proof.
  intros Hst. destruct Hst as [| | |t A Zb Cs r Hr|t A Zb Cs r Hr| |t A Zb Cs|].
  - by apply begin_inv.
  - by eapply begin_fails_inv.
  - by eapply commit_inv.
  - by apply discard_inv.
  - intros [Hts Hlast Hp Hact Hg Hz Hc Hk Hkept]. simpl in *.
    assert (DoneRead t r = t) as ->.
    { unfold DoneRead, doneRead. rewrite decide_False; [done|]. by apply (Hz r Hr). }
    split; simpl; try done. intros r' Hr'. apply Hz. multiset_solver.
  - intros [Hts Hlast Hp Hact Hg Hz Hc Hk Hkept]. by split.
  - intros [Hts Hlast Hp Hact Hg Hz Hc Hk Hkept]. simpl in *.
    split; simpl; try done.
    + by rewrite last_process.
    + intros r. by rewrite pending_process.
    + intros r Hr. by apply process_keeps, Hg.
  - intros [Hts Hlast Hp Hact Hg Hz Hc Hk Hkept]. by split.
Qed.

Lemma reachable_inv s0 s : initial s0 -> reachable s0 s -> inv s.
Proof.
  intros H0 Hr. apply initial_inv in H0. induction Hr as [|s1 s2 s3 Hst _ IH]; [done|].
  apply IH. by eapply step_inv.
Qed.

(** ** The check *)


End System.
(** ** Concrete runs *)

Definition start_sys : sys := Sys start ∅ ∅ [].

Lemma start_initial : initial start_sys.
Proof.
  repeat split; vm_compute; congruence.
Qed.

Definition begun2 : TSO :=
  let t := ReadTs_begin (ReadTs_lock start).1 (Compose start_ts) in
  ReadTs_begin (ReadTs_lock t).1 (Compose start_ts).

Lemma second_reader (r : Z) : r ∈ ({[+ r +]} ⊎ ({[+ r +]} ⊎ (∅ : gmultiset Z))) ∖ {[+ r +]}.
Proof. multiset_solver. Qed.


(** [ReadTs] releases [tso.mu] before it sends [readMark.Begin].  T1 has taken
    its timestamp; T2 begins at the same one, commits a write of [x] and is
    discarded; T3 begins and commits; only then T1's [Begin] is sent. *)
Definition late_begin : outcome (TSO * Z * option Z) :=
  let '(t, r1) := ReadTs_lock start in
  let '(t, r2) := ReadTs_lock t in
  let t := ReadTs_begin t r2 in
  '(t, c2) ← newCommitTs 1 (still 1001) t r2 [] {["x"]};
  let t := DoneRead t r2 in
  let '(t, r3) := ReadTs_lock t in
  let t := ReadTs_begin t r3 in
  '(t, c3) ← newCommitTs 1 (still 1002) t r3 [] {["y"]};
  let t := DoneRead t r3 in
  Ret (ReadTs_begin t r1, r1, c2).

(** A read registered late misses a conflict.  When the [readMark.Begin] of a
    transaction is delayed past two other commits, the commit that wrote a key
    it read after its timestamp has been dropped, and the check lets it
    commit: a lost update. *)
Example late_begin_misses_conflict :
  match late_begin with
  | Ret (t, r1, Some c2) => r1 < c2 /\ hasConflict t r1 ["x"] = false
  | _ => False
  end.
Proof. vm_compute. split; reflexivity. Qed.

End TsoConflict.
