(* ===== verification/Txn.v ===== *)
(** * txn.go: client transactions of the distributed store

    A transaction reads at the timestamp the oracle gave it, buffers its writes
    as sub-commands, and at [Commit] asks the oracle for a commit timestamp. *)

From S2P Require Import Prelude Errors Utils Mvcc BadgerApi Codecs Badger.
From S2P Require Import BadgerReads Command MemCommand Fsm WaterMark Tso TsoSafety.

(** The fields of [Txn] that its methods use. *)
Record Txn `{DurationLib} := MkTxn {
  cmd : Command;
  readTs : Z;
  commitTs : Z;
  reads : list string;
  t_conflictKeys : gset string;
  writes : list string;
  update : bool;
  discarded : bool
}.

Module Txns.

(** ** Writes *)

Section Buffer.
Context `{DurationLib}.

Definition set_cmd (t : Txn) (c : Command) : Txn :=
  MkTxn _ c (readTs t) (commitTs t) (reads t) (t_conflictKeys t) (writes t) (update t)
    (discarded t).

Definition addReadKey (t : Txn) (key : string) : Txn :=
  MkTxn _ (cmd t) (readTs t) (commitTs t) (reads t ++ [key]) (t_conflictKeys t) (writes t)
    (update t) (discarded t).

Definition AddWriteKey (t : Txn) (key : string) : Txn :=
  MkTxn _ (cmd t) (readTs t) (commitTs t) (reads t) (t_conflictKeys t) (writes t ++ [key])
    (update t) (discarded t).

Definition validate (t : Txn) (key : string) : Txn * option error :=
  if negb (update t) then (t, Some (BadgerError ErrReadOnlyTxn))
  else if discarded t then (t, Some (BadgerError ErrDiscardedTxn))
  else if decide (key = "") then (t, Some (BadgerError ErrEmptyKey))
  else (MkTxn _ (cmd t) (readTs t) (commitTs t) (reads t) ({[key]} ∪ t_conflictKeys t)
          (writes t ++ [key]) (update t) (discarded t), None).

(** [txn.cmd.AddSubCommand(sub)]. *)
Definition buffer (t : Txn) (sub : Command) : outcome (Txn * option error) :=
  c ← Commands.AddSubCommand (cmd t) (Some sub);
  Ret (set_cmd t c, None).

Definition IncrBy (id : string) (key : string) (delta : Z) : M Txn (option error) := fun t =>
  match validate t key with
  | (t, Some err) => Ret (t, Some err)
  | (t, None) => buffer t (Commands.NewIncrByCommand id key delta)
  end.

Definition DecrBy (id : string) (key : string) (delta : Z) : M Txn (option error) := fun t =>
  match validate t key with
  | (t, Some err) => Ret (t, Some err)
  | (t, None) => buffer t (Commands.NewDecrByCommand id key delta)
  end.

Definition Set_ (id : string) (key : string) (value : bytes) (ttl : list Z)
    : M Txn (option error) := fun t =>
  match validate t key with
  | (t, Some err) => Ret (t, Some err)
  | (t, None) => buffer t (Commands.NewSetCommand id key value ttl)
  end.

Definition Delete (id : string) (key : string) : M Txn (option error) := fun t =>
  match validate t key with
  | (t, Some err) => Ret (t, Some err)
  | (t, None) => buffer t (Commands.NewDeleteCommand id key)
  end.

(** The loop of [DeleteByPrefix] over the keys found. *)
Fixpoint validate_all (t : Txn) (keys : list string) : Txn * option error :=
  match keys with
  | [] => (t, None)
  | key :: keys' =>
      match validate t key with
      | (t, Some err) => (t, Some err)
      | (t, None) => validate_all t keys'
      end
  end.

(** [getKeys] is [db.GetKeysByPrefixWithTxn], which registers the keys read. *)
Definition DeleteByPrefix (getKeys : M Txn (result (list string))) (id : string)
    (prefix : string) : M Txn (option error) := fun t =>
  '(t, r) ← getKeys t;
  match r with
  | inl err => Ret (t, Some err)
  | inr keys =>
      match validate_all t keys with
      | (t, Some err) => Ret (t, Some err)
      | (t, None) => buffer t (Commands.NewDeleteByPrefixCommand id prefix)
      end
  end.

End Buffer.

Section Updates.
Context `{DurationLib} `{JsonLib} `{ProtoLib}.

Definition UpdateJson (id : string) (key : string) (delta : option (gmap string any))
    (ttl : list Z) : M Txn (option error) := fun t =>
  match validate t key with
  | (t, Some err) => Ret (t, Some err)
  | (t, None) =>
      match json_Marshal delta with
      | inl err => Ret (t, Some err)
      | inr b => buffer t (Commands.NewUpdateCommand id key b UpdateDeltaType_JSON "" ttl)
      end
  end.

Definition UpdateProtobuf (cache : option Dynamic.protoDescriptorStore) (id : string)
    (key : string) (deltaProtoMsg : Message) (ttl : list Z) : M Txn (option error) := fun t =>
  match validate t key with
  | (t, Some err) => Ret (t, Some err)
  | (t, None) =>
      match proto_Marshal deltaProtoMsg with
      | inl err => Ret (t, Some err)
      | inr delta =>
          let msgName := MessageName deltaProtoMsg in
          valid ← Dynamic.IsValidMessage (Dynamic.GetProtoDescriptorStore cache) msgName;
          match valid with
          | inl _ => Ret (t, Some ErrUnknownProtoMsg)
          | inr false => Ret (t, Some ErrUnknownProtoMsg)
          | inr true =>
              buffer t (Commands.NewUpdateCommand id key delta UpdateDeltaType_PROTOBUF msgName ttl)
          end
      end
  end.

End Updates.

(** ** Beginning and ending *)

Section Lifecycle.
Context `{DurationLib} `{WaterMarkLib}.

(** [BeginTxn]; [cancelled] tells whether the context ends the wait. *)
Definition BeginTxn (tso : TSO) (cancelled : bool) (id : string) (upd : bool)
    : outcome (TSO * result Txn) :=
  '(tso, r) ← Tso.ReadTs tso cancelled;
  match r with
  | inl err => Ret (tso, inl err)
  | inr rts =>
      let c := Commands.with_ts (Commands.NewTransactionCommand id) rts 0 in
      Ret (tso, inr (MkTxn _ c rts 0 [] ∅ [] upd false))
  end.

Definition Discard (tso : TSO) (t : Txn) : TSO * Txn :=
  if discarded t then (tso, t)
  else (Tso.DoneRead tso (readTs t),
        MkTxn _ (cmd t) (readTs t) (commitTs t) (reads t) (t_conflictKeys t) (writes t)
          (update t) true).

(** The closure [Commit] passes to the oracle. *)
Definition stamp (t : Txn) (cts : Z) : Txn :=
  MkTxn _ (Commands.with_ts (cmd t) (ReadTs (cmd t)) cts) (readTs t) cts (reads t)
    (t_conflictKeys t) (writes t) (update t) (discarded t).

(** [inr None] is [(nil, nil)]: nothing to write. *)
Definition Commit (fuel : nat) (clock : nat -> Z) (tso : TSO) (t : Txn)
    : outcome (TSO * Txn * result (option Command)) :=
  if discarded t then Ret (tso, t, inl (BadgerError ErrDiscardedTxn))
  else
    '(tso, t, r) ←
      (if (length (writes t) =? 0)%nat && (length (SubCommands (cmd t)) =? 0)%nat
       then Ret (tso, t, inr None)
       else if (MaxBatchSize <? length (SubCommands (cmd t)))%nat
       then Ret (tso, t, inl ErrBatchTooBig)
       else
         '(tso, t, err) ← Tso.Commit fuel clock tso (readTs t) (reads t) (t_conflictKeys t)
                            (fun cts => (stamp t cts, None)) t;
         match err with
         | Some err => Ret (tso, t, inl err)
         | None => Ret (tso, t, inr (Some (cmd t)))
         end);
    let '(tso, t) := Discard tso t in
    Ret (tso, t, r).

End Lifecycle.

(** ** Properties *)

Section Laws.
Context `{DurationLib} `{WaterMarkLaws}.
Import TsoSafety.

Lemma cleanup_kept t :
  let t' := Tso.cleanupCommittedTransactions t in
  current t' = current t /\ saved t' = saved t /\ txnMark t' = txnMark t /\
  forall k, k ∈ committedTxns t' -> k ∈ committedTxns t.
Proof.
  unfold Tso.cleanupCommittedTransactions. case_match; [done|]. simpl.
  repeat split; try done. by intros k [_ ?]%list_elem_of_filter.
Qed.

Lemma doneRead_fields t r :
  let t' := Tso.doneRead t r in
  current t' = current t /\ saved t' = saved t /\ txnMark t' = txnMark t /\
  committedTxns t' = committedTxns t.
Proof. unfold Tso.doneRead. by case_decide. Qed.

(** A commit the oracle accepts. *)
Lemma oracle_accepts {T} fuel clock tso r rs keys (fn : Z -> T * option error) txn :
  in_window clock tso -> Tso.hasConflict tso r rs = false ->
  exists tso' cts, Tso.Commit fuel clock tso r rs keys fn txn =
      Ret (tso', (fn cts).1, (fn cts).2) /\
    Tso.currentReadTs tso < cts /\ Tso.currentReadTs tso' = cts /\
    txnMark tso' = wm_Done (wm_Begin (txnMark tso) cts) cts /\
    forall k, k ∈ committedTxns tso' -> k ∈ committedTxns tso \/ ts k = cts.
Proof.
  intros Hw Hc. unfold Tso.Commit, Tso.newCommitTs. rewrite Hc.
  destruct (cleanup_kept (Tso.doneRead tso r)) as (Ec & Es & Em & Ek).
  destruct (doneRead_fields tso r) as (Ec' & Es' & Em' & Ek').
  destruct (allocate_in_window fuel clock (Tso.cleanupCommittedTransactions (Tso.doneRead tso r)))
    as (c & -> & _ & Hlt & _).
  { unfold in_window in *. by rewrite Ec, Es, Ec', Es'. }
  simpl. destruct (fn (Compose c)) as [txn' err] eqn:E. eexists _, (Compose c). rewrite E.
  split; [reflexivity|]. rewrite Ec, Ec' in Hlt. split; [done|]. split; [done|]. simpl.
  split; [by rewrite Em, Em'|]. intros k [Hk|Hk]%elem_of_app.
  - left. apply Ek in Hk. by rewrite Ek' in Hk.
  - apply list_elem_of_singleton in Hk as ->. by right.
Qed.

(** What [Commit] answers, and whether it took a timestamp. *)
Definition commit_answer (tso : TSO) (t : Txn) : error + option unit :=
  if (length (writes t) =? 0)%nat && (length (SubCommands (cmd t)) =? 0)%nat then inr None
  else if (MaxBatchSize <? length (SubCommands (cmd t)))%nat then inl ErrBatchTooBig
  else if Tso.hasConflict tso (readTs t) (reads t) then inl (BadgerError ErrConflict)
  else inr (Some tt).

Lemma Discard_spec tso t : discarded t = false ->
  exists tso' t', Discard tso t = (tso', t') /\ discarded t' = true /\
    current tso' = current tso /\ txnMark tso' = txnMark tso /\
    committedTxns tso' = committedTxns tso.
Proof.
  intros Hd. unfold Discard. rewrite Hd. eexists _, _. split; [reflexivity|].
  split; [done|]. unfold Tso.DoneRead.
  by destruct (doneRead_fields tso (readTs t)) as (? & _ & ? & ?).
Qed.

(** A commit that goes through. *)
Lemma Commit_accepts fuel clock tso t : discarded t = false -> in_window clock tso ->
  (0 < length (SubCommands (cmd t)) <= MaxBatchSize)%nat ->
  Tso.hasConflict tso (readTs t) (reads t) = false ->
  exists tso' t' cts,
    Commit fuel clock tso t =
      Ret (tso', t', inr (Some (Commands.with_ts (cmd t) (ReadTs (cmd t)) cts))) /\
    readTs t' = readTs t /\ commitTs t' = cts /\ discarded t' = true /\
    Tso.currentReadTs tso < cts /\ Tso.currentReadTs tso' = cts.
Proof.
  intros Hd Hw Hlen Hc. unfold Commit. rewrite Hd.
  destruct (length (SubCommands (cmd t)) =? 0)%nat eqn:E; [apply Nat.eqb_eq in E; lia|].
  rewrite andb_false_r.
  destruct (MaxBatchSize <? _)%nat eqn:E'; [apply Nat.ltb_lt in E'; lia|].
  destruct (oracle_accepts fuel clock tso (readTs t) (reads t) (t_conflictKeys t)
    (fun cts => (stamp t cts, None)) t Hw Hc) as (tso1 & cts & -> & Hlt & Hcur & _). simpl.
  unfold Discard. simpl. rewrite Hd. eexists _, _, cts. split; [reflexivity|].
  repeat split; try done. unfold Tso.currentReadTs, Tso.DoneRead in *.
  by destruct (doneRead_fields tso1 (readTs t)) as (-> & _).
Qed.

(** C35: what [Commit] does.  A transaction that is still open is discarded in
    every case, so a second [Commit] is refused.  With nothing to write, with
    more than [MaxBatchSize] sub-commands, or in conflict, it answers so and
    takes no timestamp; otherwise the buffered sub-commands come back
    unchanged, stamped with a timestamp above the current one (so above the
    transaction's read timestamp), which becomes the current one. *)
Theorem commit_outcomes (fuel fuel' : nat) (clock clock' : nat -> Z) (tso : TSO) (t : Txn) :
  discarded t = false -> in_window clock tso ->
  exists tso' t' r, Commit fuel clock tso t = Ret (tso', t', r) /\
    discarded t' = true /\
    Commit fuel' clock' tso' t' = Ret (tso', t', inl (BadgerError ErrDiscardedTxn)) /\
    match commit_answer tso t with
    | inl err => r = inl err /\ current tso' = current tso
    | inr None => r = inr None /\ current tso' = current tso
    | inr (Some _) => exists c, r = inr (Some c) /\
        SubCommands c = SubCommands (cmd t) /\ ReadTs c = ReadTs (cmd t) /\
        Tso.currentReadTs tso < CommitTs c /\ Tso.currentReadTs tso' = CommitTs c
    end.
Proof.
  intros Hd Hw.
  assert (forall tso1 t1 (r : result (option Command)), discarded t1 = false ->
    exists tso' t', (let '(a, b) := Discard tso1 t1 in Ret (a, b, r)) = Ret (tso', t', r) /\
      discarded t' = true /\
      Commit fuel' clock' tso' t' = Ret (tso', t', inl (BadgerError ErrDiscardedTxn)) /\
      current tso' = current tso1) as Hend.
  { intros tso1 t1 r Hd1. destruct (Discard_spec tso1 t1 Hd1) as (tso' & t' & -> & Hd' & Hc & _).
    exists tso', t'. split; [done|]. split; [done|]. split; [|done].
    unfold Commit. by rewrite Hd'. }
  unfold Commit at 1, commit_answer. rewrite Hd.
  destruct ((length (writes t) =? 0)%nat && _).
  { destruct (Hend tso t (inr None) Hd) as (? & ? & Heq & ? & ? & ?). eauto 10. }
  destruct (MaxBatchSize <? _)%nat.
  { destruct (Hend tso t (inl ErrBatchTooBig) Hd) as (? & ? & Heq & ? & ? & ?). eauto 10. }
  destruct (Tso.hasConflict tso (readTs t) (reads t)) eqn:Ec.
  { unfold Tso.Commit, Tso.newCommitTs. rewrite Ec. simpl.
    destruct (Hend tso t (inl (BadgerError ErrConflict)) Hd) as (? & ? & Heq & ? & ? & ?).
    eauto 10. }
  destruct (oracle_accepts fuel clock tso (readTs t) (reads t) (t_conflictKeys t)
    (fun cts => (stamp t cts, None)) t Hw Ec) as (tso1 & cts & -> & Hlt & Hcur & _). simpl.
  destruct (Hend tso1 (stamp t cts) (inr (Some (cmd (stamp t cts)))) Hd)
    as (tso' & t' & Heq & Hd' & Hag & Hc). exists tso', t', (inr (Some (cmd (stamp t cts)))).
  split; [exact Heq|]. split; [done|]. split; [done|]. eexists. split; [reflexivity|].
  simpl. split; [done|]. split; [done|]. split; [done|].
  unfold Tso.currentReadTs in *. by rewrite Hc.
Qed.

(** A commit counts as settled before it is proposed.  When [Commit]
    returns, its command has not been proposed to Raft, yet the oracle holds
    no mark for it (the [DoneCommit] is deferred inside the oracle's own
    [Commit]), the next reader gets the commit's own timestamp, and no
    transaction that reads there can be found in conflict with it: if the
    reader looks at the store before the command is applied, it misses the
    write and still commits. *)
Theorem commit_settles_before_proposal (fuel : nat) (clock : nat -> Z) (tso : TSO) (t : Txn)
    (tso' : TSO) (t' : Txn) (c : Command) (rs : list string) :
  discarded t = false -> in_window clock tso ->
  (forall k, k ∈ committedTxns tso -> ts k <= Tso.currentReadTs tso) ->
  Commit fuel clock tso t = Ret (tso', t', inr (Some c)) ->
  wm_pending (txnMark tso') (CommitTs c) = wm_pending (txnMark tso) (CommitTs c) /\
  (Tso.ReadTs_lock tso').2 = CommitTs c /\
  Tso.hasConflict tso' (CommitTs c) rs = false.
Proof.
  intros Hd Hw Hts. unfold Commit. rewrite Hd.
  destruct ((length (writes t) =? 0)%nat && _);
    [simpl; destruct (Discard tso t); intros; simplify_eq|].
  destruct (MaxBatchSize <? _)%nat; [simpl; destruct (Discard tso t); intros; simplify_eq|].
  destruct (Tso.hasConflict tso (readTs t) (reads t)) eqn:Ec.
  { unfold Tso.Commit, Tso.newCommitTs. rewrite Ec. simpl.
    destruct (Discard tso t); intros; simplify_eq. }
  destruct (oracle_accepts fuel clock tso (readTs t) (reads t) (t_conflictKeys t)
    (fun cts => (stamp t cts, None)) t Hw Ec) as (tso1 & cts & -> & Hlt & Hcur & Hm & Hk). simpl.
  destruct (Discard_spec tso1 (stamp t cts)) as (tso2 & t2 & -> & _ & Hc2 & Hm2 & Hk2); [done|].
  intros [= <- <- <-]. simpl. split; [|split].
  - rewrite Hm2, Hm, pending_done, pending_begin. lia.
  - unfold Tso.currentReadTs in *. by rewrite Hc2.
  - apply not_true_iff_false. rewrite hasConflict_spec. rewrite Hk2.
    intros (k & Hin & Hgt & _). destruct (Hk k Hin) as [Hin'|Heq]; [|lia].
    specialize (Hts k Hin'). lia.
Qed.

End Laws.
(** ** Witnesses *)

(** A transaction that began on [TsoSafety.start] and set one key. *)
Definition sample_txn : Txn :=
  let c := Commands.with_ts (Commands.NewTransactionCommand "t") (Compose TsoSafety.start_ts) 0 in
  MkTxn _ (Commands.with_subs c [Commands.NewSetCommand "s" "a" [Byte.x61] []])
    (Compose TsoSafety.start_ts) 0 [] {["a"]} ["a"] true false.

Lemma commit_outcomes_witness :
  exists tso' t' r,
    Commit 0 (TsoSafety.still 1500) TsoSafety.start sample_txn = Ret (tso', t', r) /\
    discarded t' = true /\
    Commit 0 (TsoSafety.still 1500) tso' t' =
      Ret (tso', t', inl (BadgerError ErrDiscardedTxn)) /\
    exists c, r = inr (Some c) /\ SubCommands c = SubCommands (cmd sample_txn) /\
      ReadTs c = ReadTs (cmd sample_txn) /\
      Tso.currentReadTs TsoSafety.start < CommitTs c /\ Tso.currentReadTs tso' = CommitTs c.
Proof.
  apply (commit_outcomes 0 0 (TsoSafety.still 1500) (TsoSafety.still 1500) TsoSafety.start
    sample_txn); [reflexivity|]. apply TsoSafety.start_in_window. lia.
Defined.

Lemma commit_settles_before_proposal_witness :
  exists tso' t' c,
    Commit 0 (TsoSafety.still 1500) TsoSafety.start sample_txn = Ret (tso', t', inr (Some c)) /\
    wm_pending (txnMark tso') (CommitTs c) = wm_pending (txnMark TsoSafety.start) (CommitTs c) /\
    (Tso.ReadTs_lock tso').2 = CommitTs c /\ Tso.hasConflict tso' (CommitTs c) ["a"] = false.
Proof.
  assert (TsoSafety.in_window (TsoSafety.still 1500) TsoSafety.start) as Hw
    by (apply TsoSafety.start_in_window; lia).
  destruct (answers (Commit 0 (TsoSafety.still 1500) TsoSafety.start sample_txn)
    (inr (Some (cmd (stamp sample_txn (1500 * 2 ^ 18 + 1)))))) as [[tso' t'] Hc];
    [vm_compute; reflexivity|].
  eexists tso', t', _. split; [exact Hc|].
  apply (commit_settles_before_proposal 0 (TsoSafety.still 1500) TsoSafety.start sample_txn
    tso' t' _ ["a"] eq_refl Hw); [|exact Hc].
  intros k Hk. by apply not_elem_of_nil in Hk.
Defined.

End Txns.
