(* ===== verification/Distributed.v ===== *)
(** * distributed.go: the replicated store

    Reads, transactions and single-operation writes of [DistributedBadger]
    over the local store, the oracle and the Raft node.  The node enters
    through what it answers: whether it leads, how the read-index protocol
    and a proposal end. *)

From S2P Require Import Prelude Errors Utils Mvcc BadgerApi MemBadger Codecs.
From S2P Require Import MemCodecs Badger BadgerReads BadgerWrites Command MemCommand.
From S2P Require Import Fsm FsmLog WaterMark Tso TsoSafety Txn.

(** What a call meets. *)
Record call := Call {
  c_env : env;
  (** [node.IsLeader()]. *)
  is_leader : bool;
  (** How [waitForReadState] ends. *)
  read_state : option error;
  (** Whether the context ends the wait of [BeginTxn]. *)
  cancelled : bool;
  fuel : nat;
  clock : nat -> Z;
  (** The identifiers [uuid.New] makes. *)
  txn_id : string;
  sub_id : string;
  (** What comes back on the proposal's channel; [None] is the timeout. *)
  reply : option (option error)
}.

Module Dist.

Section Store.
Context `{BadgerAPI} `{JsonLib} `{ProtoLib} `{CommandCodec} `{WaterMarkLib}.

(** The store of the state machine, the oracle, and the requests sent to the
    node's proposal channel. *)
Record dist := MkDist {
  fsm_db : Badger.store;
  d_tso : TSO;
  proposed : list (string * bytes)
}.

Definition set_tso (s : dist) (t : TSO) : dist := MkDist (fsm_db s) t (proposed s).

(** ** Reads *)

Definition Count (v : call) (s : dist) (prefix : string) : outcome nat :=
  Badger.Count (c_env v) (fsm_db s) prefix.

Definition Exists (v : call) (s : dist) (key : string) : outcome bool :=
  match read_state v with
  | Some _ => Ret false
  | None => Badger.Exists (c_env v) (fsm_db s) key
  end.

Definition HasChild (v : call) (s : dist) (prefix : string) : outcome bool :=
  Badger.HasChild (c_env v) (fsm_db s) prefix.

Definition getVal (v : call) (s : dist) (key : string) (skipLinearizable : bool)
    : outcome (result (option bytes)) :=
  match (if skipLinearizable then None else read_state v) with
  | Some err => Ret (inl err)
  | None => Badger.Get (c_env v) (fsm_db s) key
  end.

Definition Get (v : call) (s : dist) (key : string) : outcome (result (option bytes)) :=
  getVal v s key false.

(** The key is registered only when it was found. *)
Definition GetWithTxn (v : call) (s : dist) (key : string) : M Txn (result (option bytes)) :=
  fun t =>
    match read_state v with
    | Some err => Ret (t, inl err)
    | None =>
        r ← Badger.getAt (c_env v) (fsm_db s) key (readTs t);
        match r with
        | inl err => Ret (t, inl err)
        | inr None => Ret (t, inr None)
        | inr (Some b) => Ret (Txns.addReadKey t key, inr (Some b))
        end
    end.

Definition GetByPrefix (v : call) (s : dist) (prefix : string)
    : outcome (result (gmap string bytes)) :=
  Badger.GetByPrefix (c_env v) (fsm_db s) prefix.

(** [for k := range result { txn.addReadKey(k) }]. *)
Definition add_reads (t : Txn) (keys : list string) : Txn := fold_left Txns.addReadKey keys t.

Definition GetByPrefixWithTxn (v : call) (s : dist) (prefix : string)
    : M Txn (result (gmap string bytes)) :=
  fun t =>
    r ← Badger.getByPrefixAt (c_env v) (fsm_db s) prefix (readTs t);
    match r with
    | inl err => Ret (t, inl err)
    | inr m => Ret (add_reads t (map_to_list m).*1, inr m)
    end.

Definition GetKeysByPrefix (v : call) (s : dist) (prefix : string)
    : outcome (result (list string)) :=
  Badger.GetKeysByPrefix (c_env v) (fsm_db s) prefix.

Definition GetKeysByPrefixWithTxn (v : call) (s : dist) (prefix : string)
    : M Txn (result (list string)) :=
  fun t =>
    r ← Badger.getKeysByPrefixAt (c_env v) (fsm_db s) prefix (readTs t);
    match r with
    | inl err => Ret (t, inl err)
    | inr keys => Ret (add_reads t keys, inr keys)
    end.

Definition BulkGet (v : call) (s : dist) (keys : list string)
    : outcome (gmap string bytes * option error) :=
  Badger.BulkGet (c_env v) (fsm_db s) keys.

Definition IterateByPrefix {P} (v : call) (s : dist) (prefix startCursor : string)
    (limit : option Z) (process : P -> string -> bytes -> P * bool) (p : P)
    : outcome (P * result string) :=
  Badger.IterateByPrefix (c_env v) (fsm_db s) prefix startCursor limit process p.

(** ** Transactions *)

(** The operations run inside a transaction; they do not change the store. *)
Definition ops : Type := dist -> M Txn (option error).

Definition proposeAndWait (v : call) (s : dist) (c : Command) : outcome (dist * option error) :=
  match Commands.Encode c with
  | inl err => Ret (s, Some err)
  | inr b =>
      let s := MkDist (fsm_db s) (d_tso s) (proposed s ++ [(Id c, b)]) in
      match reply v with
      | Some err => Ret (s, err)
      | None => Ret (s, Some ErrProposeTimeout)
      end
  end.

(** The deferred [txn.Discard()]. *)
Definition discard_txn (s : dist) (t : Txn) : dist :=
  set_tso s (Txns.Discard (d_tso s) t).1.

Definition NewTransaction (v : call) (s : dist) (performOps : ops)
    : outcome (dist * option error) :=
  if negb (is_leader v) then Ret (s, Some ErrNotLeader)
  else
    '(tso, r) ← Txns.BeginTxn (d_tso s) (cancelled v) (txn_id v) true;
    let s := set_tso s tso in
    match r with
    | inl err => Ret (s, Some err)
    | inr t =>
        '(t, err) ← performOps s t;
        match err with
        | Some err => Ret (discard_txn s t, Some err)
        | None =>
            '(tso, t, r) ← Txns.Commit (fuel v) (clock v) (d_tso s) t;
            let s := set_tso s tso in
            match r with
            | inl err => Ret (discard_txn s t, Some err)
            | inr None => Panic "nil pointer dereference"
            | inr (Some c) =>
                '(s, err) ← proposeAndWait v s c;
                Ret (discard_txn s t, err)
            end
        end
    end.

(** Reading the field of the nil command [Commit] returns when there is
    nothing to write panics here too. *)
Definition proposeTxnSubCommand (v : call) (s : dist) (performOps : ops)
    : outcome (dist * option error) :=
  '(tso, r) ← Txns.BeginTxn (d_tso s) (cancelled v) (txn_id v) true;
  let s := set_tso s tso in
  match r with
  | inl err => Ret (s, Some err)
  | inr t =>
      '(t, err) ← performOps s t;
      match err with
      | Some err => Ret (discard_txn s t, Some err)
      | None =>
          '(tso, t, r) ← Txns.Commit (fuel v) (clock v) (d_tso s) t;
          let s := set_tso s tso in
          match r with
          | inl err => Ret (discard_txn s t, Some err)
          | inr None => Panic "nil pointer dereference"
          | inr (Some txnCmd) =>
              match SubCommands txnCmd with
              | [] => Ret (discard_txn s t, None)
              | c :: _ =>
                  '(s, err) ← proposeAndWait v s
                                (Commands.with_ts c (readTs t) (commitTs t));
                  Ret (discard_txn s t, err)
              end
          end
      end
  end.

(** ** Single-operation writes *)

Definition leader_only (v : call) (s : dist) (performOps : ops)
    : outcome (dist * option error) :=
  if negb (is_leader v) then Ret (s, Some ErrNotLeader)
  else proposeTxnSubCommand v s performOps.

Definition DecrBy (v : call) (s : dist) (key : string) (delta : Z) :=
  leader_only v s (fun _ => Txns.DecrBy (sub_id v) key delta).

Definition IncrBy (v : call) (s : dist) (key : string) (delta : Z) :=
  leader_only v s (fun _ => Txns.IncrBy (sub_id v) key delta).

Definition Set_ (v : call) (s : dist) (key : string) (value : bytes) (ttl : list Z) :=
  leader_only v s (fun _ => Txns.Set_ (sub_id v) key value ttl).

Definition UpdateJson (v : call) (s : dist) (key : string) (delta : option (gmap string any))
    (ttl : list Z) :=
  leader_only v s (fun _ => Txns.UpdateJson (sub_id v) key delta ttl).

(** A nil delta is accepted and ignored, after the leader check. *)
Definition UpdateProtobuf (cache : option Dynamic.protoDescriptorStore) (v : call) (s : dist)
    (key : string) (delta : option Message) (ttl : list Z) :=
  if negb (is_leader v) then Ret (s, Some ErrNotLeader)
  else
    match delta with
    | None => Ret (s, None)
    | Some delta =>
        proposeTxnSubCommand v s (fun _ => Txns.UpdateProtobuf cache (sub_id v) key delta ttl)
    end.

Definition Delete (v : call) (s : dist) (key : string) :=
  leader_only v s (fun _ => Txns.Delete (sub_id v) key).

Definition DeleteByPrefix (v : call) (s : dist) (prefix : string) :=
  leader_only v s (fun s =>
    Txns.DeleteByPrefix (GetKeysByPrefixWithTxn v s prefix) (sub_id v) prefix).

End Store.
(** ** Properties *)

Section Laws.
Context `{BadgerLaws} `{JsonLaws} `{ProtoLib} `{CommandCodecLaws} `{!DurationLaws} `{WaterMarkLaws}.

(** A leader that can serve a transaction at once: the window is open and the
    commits below the current timestamp are done. *)
Definition serving (v : call) (s : dist) : Prop :=
  is_leader v = true /\ TsoSafety.in_window (clock v) (d_tso s) /\
  wm_WaitForMark (txnMark (d_tso s)) (cancelled v) (Tso.currentReadTs (d_tso s)) = Ret None.

Lemma BeginTxn_serving v s upd : serving v s ->
  exists tso, Txns.BeginTxn (d_tso s) (cancelled v) (txn_id v) upd =
    Ret (tso, inr (MkTxn _ (Commands.with_ts (Commands.NewTransactionCommand (txn_id v))
           (Tso.currentReadTs (d_tso s)) 0) (Tso.currentReadTs (d_tso s)) 0 [] ∅ [] upd false)) /\
    current tso = current (d_tso s) /\ saved tso = saved (d_tso s) /\
    TsoSafety.in_window (clock v) tso.
Proof.
  intros (_ & Hw & Hwait). unfold Txns.BeginTxn, Tso.ReadTs, Tso.ReadTs_wait. simpl.
  rewrite Hwait. simpl. eexists. split; [reflexivity|]. done.
Qed.

(** An operation that buffers the one sub-command [sub] for [key]. *)
Definition buffers_one (op : M Txn (option error)) (key : string) (sub : Command) : Prop :=
  Type_ sub <> CommandType_TRANSACTION /\
  forall t, op t = match Txns.validate t key with
                   | (t, Some err) => Ret (t, Some err)
                   | (t, None) => Txns.buffer t sub
                   end.

(** A single-operation write on a serving leader proposes that command,
    stamped with the current timestamp and a greater one. *)
Lemma leader_write v s (op : M Txn (option error)) key sub data :
  serving v s -> buffers_one op key sub -> key <> "" ->
  (forall cts, Commands.Encode (Commands.with_ts sub (Tso.currentReadTs (d_tso s)) cts) = inr (data cts)) ->
  exists s' cts, leader_only v s (fun _ => op) =
      Ret (s', default (Some ErrProposeTimeout) (reply v)) /\
    Tso.currentReadTs (d_tso s) < cts /\ Tso.currentReadTs (d_tso s') = cts /\
    fsm_db s' = fsm_db s /\ proposed s' = proposed s ++ [(Id sub, data cts)].
Proof.
  intros Hs [Hty Hop] Hkey Henc. unfold leader_only.
  pose proof Hs as (-> & _). simpl. unfold proposeTxnSubCommand.
  destruct (BeginTxn_serving v s true Hs) as (tso & -> & Hcur & _ & Hw). simpl.
  rewrite Hop. unfold Txns.validate. simpl. rewrite decide_False by done.
  unfold Txns.buffer, Commands.AddSubCommand. rewrite decide_False by done. simpl.
  match goal with |- context [Txns.Commit _ _ _ ?t] => set (txn := t) end.
  destruct (Txns.Commit_accepts (fuel v) (clock v) tso txn)
    as (tso' & t' & cts & -> & Hr & Hc & Hd & Hlt & Hcur'); [done|done| |done|].
  { simpl. unfold MaxBatchSize. lia. }
  simpl. rewrite Hr, Hc. simpl. unfold proposeAndWait. rewrite Henc.
  assert (forall x, Txns.Discard x t' = (x, t')) as Hdis
    by (intros x; unfold Txns.Discard; by rewrite Hd).
  eexists _, cts. unfold discard_txn.
  destruct (reply v) as [err|]; simpl; (split; [reflexivity|]); rewrite Hdis; simpl;
    unfold Tso.currentReadTs in *; rewrite <- Hcur; auto.
Qed.

(** *** A write and its application *)

(** The call of the replicated store for a write of the [Database] interface. *)
Definition dist_op (cache : option Dynamic.protoDescriptorStore) (v : call) (s : dist)
    (o : Writes.op) : outcome (dist * option error) :=
  match o with
  | Writes.OSet k val ttl => Set_ v s k val ttl
  | Writes.OUpdateJson k delta ttl => UpdateJson v s k (Some delta) ttl
  | Writes.OUpdateProtobuf k delta ttl => UpdateProtobuf cache v s k (Some delta) ttl
  | Writes.OIncrBy k d => IncrBy v s k d
  | Writes.ODecrBy k d => DecrBy v s k d
  | Writes.ODelete k => Delete v s k
  | Writes.ODeleteByPrefix p => DeleteByPrefix v s p
  end.

(** The key and the sub-command of a write that reads nothing on the leader. *)
Definition sub_of (id : string) (o : Writes.op) : option (string * Command) :=
  match o with
  | Writes.OSet k val ttl => Some (k, Commands.NewSetCommand id k val ttl)
  | Writes.OUpdateJson k delta ttl =>
      match json_Marshal (Some delta) with
      | inr b => Some (k, Commands.NewUpdateCommand id k b UpdateDeltaType_JSON "" ttl)
      | inl _ => None
      end
  | Writes.OIncrBy k d => Some (k, Commands.NewIncrByCommand id k d)
  | Writes.ODecrBy k d => Some (k, Commands.NewDecrByCommand id k d)
  | Writes.ODelete k => Some (k, Commands.NewDeleteCommand id k)
  | _ => None
  end.

(** Times to live that fit [time.Duration]. *)
Definition ttl_fits (o : Writes.op) : Prop :=
  match o with
  | Writes.OSet _ _ ttl | Writes.OUpdateJson _ _ ttl => Forall is_i64 ttl
  | _ => True
  end.

Lemma dist_op_buffers cache v s o k sub : sub_of (sub_id v) o = Some (k, sub) ->
  exists op, dist_op cache v s o = leader_only v s (fun _ => op) /\ buffers_one op k sub.
Proof.
  destruct o as [k' val ttl|k' delta ttl|k' delta ttl|k' d|k' d|k'|p]; simpl; try done.
  1,3-5: intros [= <- <-]; eexists; (split; [reflexivity|split; done]).
  destruct (json_Marshal (Some delta)) as [|b] eqn:E; [done|]. intros [= <- <-].
  eexists. split; [reflexivity|]. split; [done|]. intros t. unfold Txns.UpdateJson. by rewrite E.
Qed.

Lemma getTtl_head c ttl : Forall is_i64 ttl -> Ttl c = durationpb_New <$> head ttl ->
  Fsm.getTtl c = match ttl with d :: _ => [d] | [] => [] end.
Proof.
  intros Hf Ht. unfold Fsm.getTtl. rewrite Ht. destruct Hf as [|d ttl Hd _]; simpl; [done|].
  by rewrite duration_roundtrip.
Qed.

Lemma put_head n k val ttl sn p :
  Spec.put n k val (match ttl with d :: _ => [d] | [] => [] end) sn p = Spec.put n k val ttl sn p.
Proof. by destruct ttl. Qed.

(** The command means what the operation does. *)
Lemma sub_of_spec cache id o k sub r c n sn p :
  sub_of id o = Some (k, sub) -> ttl_fits o ->
  Fsm.cmd_spec cache n (Commands.with_ts sub r c) sn p = Writes.spec_op n o sn p.
Proof.
  destruct o as [k' val ttl|k' delta ttl|k' delta ttl|k' d|k' d|k'|pre]; simpl; try done.
  - intros [= <- <-] Ht. unfold Fsm.cmd_spec, Fsm.sub_spec. simpl.
    rewrite (getTtl_head _ ttl) by done. apply put_head.
  - destruct (json_Marshal (Some delta)) as [|b] eqn:E; [done|]. intros [= <- <-] Ht.
    unfold Fsm.cmd_spec, Fsm.sub_spec, Fsm.update_spec. simpl.
    unfold Commands.UnmarshalUpdateDelta. simpl. rewrite (json_roundtrip _ _ E). simpl.
    rewrite (getTtl_head _ ttl) by done. unfold Spec.update_json. clear E.
    destruct (Spec.json_object _) as [|[o|]]; [done| |];
      [|case_decide; [|done]]; destruct (json_Marshal _); try done; apply put_head.
  - by intros [= <- <-].
  - by intros [= <- <-].
  - by intros [= <- <-].
Qed.

Lemma sub_of_legal id o k sub r c : sub_of id o = Some (k, sub) -> Writes.legal o ->
  Fsm.legal_cmd (Commands.with_ts sub r c) /\ k <> "".
Proof.
  assert (forall k, key_ok k = true -> k <> "") as Hne.
  { intros k0 Hk ->. by rewrite key_ok_empty in Hk. }
  destruct o as [k' val ttl|k' delta ttl|k' delta ttl|k' d|k' d|k'|pre]; simpl; try done;
    [|destruct (json_Marshal (Some delta)); [done|]|..]; intros [= <- <-] Hl;
    (split; [|apply Hne; try apply Hl; done]); unfold Fsm.legal_cmd, Fsm.legal_sub; simpl;
    first [exact Hl | split; [exact Hl|word]].
Qed.

(** Applying one command that reads after every commit. *)
Lemma Apply_serial cache e b c data : detect_conflicts (Badger.db b) = false ->
  not_cancelled e -> Fsm.legal_cmd c -> Commands.Encode c = inr data ->
  hist_le (hist (Badger.db b)) (ReadTs c) -> ReadTs c < CommitTs c <= max_u64 ->
  match Fsm.Apply cache e b data,
        (match Fsm.cmd_spec cache (now e) c (Writes.contents b) ∅ with
         | Ret (p, None) => Ret (p ∪ Writes.contents b, None)
         | Ret (_, Some err) => Ret (Writes.contents b, Some err)
         | Panic m => Panic m
         | Hang => Hang
         end) with
  | Ret (b', r), Ret (m, r') => r = r' /\ Writes.contents b' = m
  | Panic m, Panic m' => m = m'
  | Hang, Hang => True
  | _, _ => False
  end.
Proof.
  intros Hd Hc Hl Henc Hle Hts. unfold Fsm.Apply, Commands.DecodeCommand.
  rewrite (command_roundtrip c data Henc).
  pose proof (FsmLog.apply_cmd_hist cache e b c Hd Hc Hl) as Ha.
  unfold FsmLog.step_hist in Ha.
  rewrite (snap_at_settled _ (ReadTs c) (ReadTs c) max_u64) in Ha by (done || lia).
  fold (Writes.contents b) in Ha.
  destruct (Fsm.cmd_spec _ _ _ _ _) as [[p [err|]]|m|]; [| |by rewrite Ha|by rewrite Ha].
  - destruct Ha as (b' & -> & _ & _ & Heq). by rewrite Heq.
  - destruct Ha as (b' & -> & Hh & _). split; [done|]. unfold Writes.contents. rewrite Hh.
    apply snap_at_add_newest; [|lia]. eapply hist_le_mono; [done|lia].
Qed.

Lemma currentReadTs_max t : Tso.currentReadTs t <= max_u64.
Proof. unfold Tso.currentReadTs, Compose. pose proof (u64_range (Z.lor (i64 (Z.shiftl (physical (current t)) LOGICAL_BITS)) (logical (current t)))). word. Qed.


(** A transaction that writes nothing crashes the leader.  [Commit] answers
    (nil, nil) for it, and [NewTransaction] reads a field of the nil command:
    whatever the transaction only reads, the call panics. *)
Theorem read_only_transaction_panics (v : call) (s : dist) (performOps : ops) :
  serving v s ->
  (forall s t, exists t', performOps s t = Ret (t', None) /\ writes t' = writes t /\
     cmd t' = cmd t /\ discarded t' = discarded t) ->
  NewTransaction v s performOps = Panic "nil pointer dereference".
Proof.
  intros Hs Hops. unfold NewTransaction. pose proof Hs as (-> & _). simpl.
  destruct (BeginTxn_serving v s true Hs) as (tso & -> & _). simpl.
  match goal with |- context [performOps ?s0 ?t0] =>
    destruct (Hops s0 t0) as (t' & -> & Hw & Hc & Hd) end. simpl.
  unfold Txns.Commit. rewrite Hd, Hw, Hc. simpl. unfold Txns.Discard. by rewrite Hd.
Qed.

(** Reading an absent key does not protect it.  [GetWithTxn] of a key with no
    value at the read timestamp answers "not found" and leaves the
    transaction as it was, so that a later commit of that key is not a
    conflict for a transaction that read nothing else. *)
Theorem absent_read_unprotected (v : call) (s : dist) (t : Txn) (key : string) (tso : TSO) :
  read_state v = None -> key_ok key = true -> reads t = [] ->
  view_at (now (c_env v)) (hist (Badger.db (fsm_db s))) (readTs t) !! key = None ->
  GetWithTxn v s key t = Ret (t, inr None) /\
  Tso.hasConflict tso (readTs t) (reads t) = false.
Proof.
  intros Hr Hk Hreads Hv. unfold GetWithTxn. rewrite Hr.
  unfold Badger.getAt, Badger.newReadOnlyTransactionAt.
  destruct (Reads.GetWithTxn_spec (c_env v) key
    (DB_NewTransactionAt (Badger.db (fsm_db s)) (readTs t) false) Hk) as (t' & -> & _).
  rewrite Reads.new_txn_at_view, Hv. simpl. split; [done|].
  unfold Tso.hasConflict. by rewrite Hreads.
Qed.

End Laws.
(** ** Concrete runs *)

(** A leader at millisecond 1500; its requests are acknowledged. *)
Definition leader_call : call :=
  Call (Reads.quiet 0) true None false 1 (TsoSafety.still 1500) "txn" "sub" (Some None).

Definition leader : dist := MkDist FsmLog.replica TsoSafety.start [].

Lemma leader_serving : serving leader_call leader.
Proof.
  split; [reflexivity|]. split; [apply TsoSafety.start_in_window; lia|vm_compute; reflexivity].
Qed.

Lemma replica_below t : 5 <= t -> hist_le (hist (Badger.db FsmLog.replica)) t.
Proof.
  intros Ht.
  assert (hist (Badger.db FsmLog.replica) = {["n" := {[5 := Version (Some (Uint64ToBytes 1)) None]}]})
    as -> by (vm_compute; reflexivity).
  intros k vs t' v [<- <-]%lookup_singleton_Some [<- _]%lookup_singleton_Some. lia.
Qed.

Definition incr_op : Writes.op (H0 := MemJson) (H1 := MemProto) := Writes.OIncrBy "n" 5.


Lemma read_only_transaction_panics_witness :
  NewTransaction leader_call leader (fun _ => mret None) = Panic "nil pointer dereference".
Proof.
  apply (read_only_transaction_panics leader_call leader (fun _ => mret None) leader_serving).
  intros s t. exists t. done.
Defined.

Definition open_txn : Txn :=
  MkTxn _ (Commands.with_ts (Commands.NewTransactionCommand "t") 100 0) 100 0 [] ∅ [] true false.

Lemma absent_read_unprotected_witness :
  GetWithTxn leader_call leader "absent" open_txn = Ret (open_txn, inr None) /\
  Tso.hasConflict (Tso.set_committed TsoSafety.start 0 [CommittedTxn 200 {["absent"]}])
    (readTs open_txn) (reads open_txn) = false.
Proof.
  apply (absent_read_unprotected leader_call leader open_txn "absent");
    [reflexivity|reflexivity|reflexivity|vm_compute; reflexivity].
Defined.

(** Two transactions that each add to a counter they read.  The second begins
    after the first's [Commit] returned and before its command is applied. *)
Definition add_to_n (v : call) (s : dist) (d : Z) : M Txn (option error) :=
  r ← GetWithTxn v s "n";
  match r with
  | inr (Some b) =>
      c ← lift (BytesToUint64 b);
      Txns.Set_ (sub_id v) "n" (Uint64ToBytes (c + d)) []
  | _ => mret (Some ErrUnknownOp)
  end.

Definition lost_update : outcome (result (option bytes)) :=
  let s := leader in
  '(t, r1) ← Txns.BeginTxn (d_tso s) false "t1" true;
  match r1 with
  | inl err => Ret (inl err)
  | inr txn1 =>
      '(txn1, _) ← add_to_n leader_call s 1 txn1;
      '(t, _, cmd1) ← Txns.Commit 1 (TsoSafety.still 1500) t txn1;
      '(t, r2) ← Txns.BeginTxn t false "t2" true;
      match r2, cmd1 with
      | inr txn2, inr (Some cmd1) =>
          '(txn2, _) ← add_to_n leader_call s 10 txn2;
          '(t, _, cmd2) ← Txns.Commit 1 (TsoSafety.still 1500) t txn2;
          match cmd2 with
          | inr (Some cmd2) =>
              '(b, _) ← Fsm.apply_cmd None (Reads.quiet 0) (fsm_db s) cmd1;
              '(b, _) ← Fsm.apply_cmd None (Reads.quiet 0) b cmd2;
              Badger.Get (Reads.quiet 0) b "n"
          | inr None => Ret (inr None)
          | inl err => Ret (inl err)
          end
      | _, _ => Ret (inl ErrUnknownOp)
      end
  end.

(** An update is lost.  From a counter at 1, a transaction that adds 1 and a
    transaction that adds 10, each reading the counter and registering the
    read, both commit without a conflict, and the counter ends at 11: the
    first addition is lost, because the second began after the first's
    [Commit] and before its command was applied. *)
Example transaction_update_lost :
  lost_update = Ret (inr (Some (Uint64ToBytes 11))).
Proof. vm_compute. reflexivity. Qed.

End Dist.
