(* ===== verification/KeyIndex.v ===== *)
(** * The revisions of a key in etcd's store

    [revision.go] and [key_index.go] of [server/storage/mvcc].  etcd keeps for
    every key the revisions at which it was changed, in generations: a
    deletion ends a generation.  Reads find the revision that was current at a
    given time, and a compaction forgets the revisions that only earlier reads
    would need.

    The proofs view a key as a timeline, the list of its revisions with what
    the key was then; every operation is an operation on the timeline. *)

From S2P Require Import Prelude Errors Utils.

Module mvcc.

(** ** revision.go *)

Record Revision := MkRev {
  Main : Z;
  Sub : Z
}.

#[global] Instance Revision_eq_dec : EqDecision Revision.
Proof. solve_decision. Defined.

#[global] Instance Revision_countable : Countable Revision.
Proof.
  refine (inj_countable' (fun r => (Main r, Sub r)) (fun p => MkRev (fst p) (snd p)) _).
  by intros [].
Defined.

Definition GreaterThan (a b : Revision) : bool :=
  if Main b <? Main a then true
  else if Main a <? Main b then false
  else Sub b <? Sub a.

Record BucketKey := MkBucketKey {
  bk_Revision : Revision;
  tombstone_mark : bool
}.

Definition newBucketKey (main sub : Z) (isTombstone : bool) : BucketKey :=
  MkBucketKey (MkRev main sub) isTombstone.

Definition revBytesLen : nat := 17.
Definition markedRevBytesLen : nat := 18.

Definition NewRevBytes : bytes := repeat Byte.x00 revBytesLen.

(** [v] written into [b] from position [i] on. *)
Definition put_at (i : nat) (v b : bytes) : bytes := take i b ++ v ++ drop (i + length v) b.

(** Into a slice that is given, and of which all but the mark is
    overwritten. *)
Definition BucketKeyToBytes (rev : BucketKey) (b : bytes) : outcome bytes :=
  if (length b <? revBytesLen)%nat then Panic "index out of range"
  else
    let b := put_at 0 (Uint64ToBytes (u64 (Main (bk_Revision rev)))) b in
    let b := put_at 8 [Byte.x5f] b in
    let b := put_at 9 (Uint64ToBytes (u64 (Sub (bk_Revision rev)))) b in
    Ret (if tombstone_mark rev then
           if (length b =? revBytesLen)%nat then b ++ [Byte.x74]
           else if (length b =? markedRevBytesLen)%nat then put_at 17 [Byte.x74] b
           else b
         else b).

Definition RevToBytes (rev : Revision) (b : bytes) : outcome bytes :=
  BucketKeyToBytes (newBucketKey (Main rev) (Sub rev) false) b.

Definition isTombstone (b : bytes) : bool :=
  (length b =? markedRevBytesLen)%nat && bool_decide (b !! 17%nat = Some Byte.x74).

Definition BytesToBucketKey (b : bytes) : outcome BucketKey :=
  if negb (length b =? revBytesLen)%nat && negb (length b =? markedRevBytesLen)%nat
  then Panic "invalid revision length"
  else if negb (bool_decide (b !! 8%nat = Some Byte.x5f))
  then Panic "invalid separator in bucket key"
  else
    let main := i64 (be_value (take 8 b)) in
    let sub := i64 (be_value (take 8 (drop 9 b))) in
    if (main <? 0) || (sub <? 0) then Panic "negative revision"
    else Ret (MkBucketKey (MkRev main sub) (isTombstone b)).

Definition BytesToRev (b : bytes) : outcome Revision :=
  bk ← BytesToBucketKey b; Ret (bk_Revision bk).

(** ** key_index.go *)

Definition ErrRevisionNotFound : error := OtherError "mvcc: revision not found".

Record generation := MkGen {
  ver : Z;
  created : Revision;
  revs : list Revision
}.

Definition emptyGeneration : generation := MkGen 0 (MkRev 0 0) [].

Definition gen_isEmpty (g : generation) : bool := (length (revs g) =? 0)%nat.

(** [walk]: the position of the last revision on which [f] is false, or -1. *)
Fixpoint walk_back (f : Revision -> bool) (l : list Revision) : Z :=
  match l with
  | [] => -1
  | r :: l => if f r then walk_back f l else Z.of_nat (length l)
  end.

Definition walk (f : Revision -> bool) (g : generation) : Z := walk_back f (rev (revs g)).

Record keyIndex := MkKeyIndex {
  ki_key : string;
  modified : Revision;
  generations : list generation
}.

Definition newKeyIndex (key : string) : keyIndex := MkKeyIndex key (MkRev 0 0) [].

Definition isEmpty (ki : keyIndex) : bool :=
  match generations ki with [g] => gen_isEmpty g | _ => false end.

(** [g := &ki.generations[len(ki.generations)-1]] and an assignment to it. *)
Definition on_last (f : generation -> generation) (gs : list generation) : list generation :=
  match last gs with
  | Some g => removelast gs ++ [f g]
  | None => gs
  end.

Definition gen_put (rev : Revision) (g : generation) : generation :=
  MkGen (i64 (ver g + 1)) (if gen_isEmpty g then rev else created g) (revs g ++ [rev]).

Definition put (ki : keyIndex) (main sub : Z) : outcome keyIndex :=
  let rev := MkRev main sub in
  if negb (GreaterThan rev (modified ki)) then Panic "'put' with an unexpected smaller revision"
  else
    let gs := match generations ki with [] => [emptyGeneration] | gs => gs end in
    Ret (MkKeyIndex (ki_key ki) rev (on_last (gen_put rev) gs)).

Definition restore (ki : keyIndex) (cr md : Revision) (v : Z) : outcome keyIndex :=
  match generations ki with
  | [] => Ret (MkKeyIndex (ki_key ki) md [MkGen v cr [md]])
  | _ => Panic "'restore' got an unexpected non-empty generations"
  end.

Definition restoreTombstone (ki : keyIndex) (main sub : Z) : outcome keyIndex :=
  ki ← restore ki (MkRev 0 0) (MkRev main sub) 1;
  Ret (MkKeyIndex (ki_key ki) (modified ki) (generations ki ++ [emptyGeneration])).

Definition tombstone (ki : keyIndex) (main sub : Z) : outcome (keyIndex * option error) :=
  if isEmpty ki then Panic "'tombstone' got an unexpected empty keyIndex"
  else
    match last (generations ki) with
    | None => Panic "index out of range"
    | Some g =>
        if gen_isEmpty g then Ret (ki, Some ErrRevisionNotFound)
        else
          ki ← put ki main sub;
          Ret (MkKeyIndex (ki_key ki) (modified ki) (generations ki ++ [emptyGeneration]), None)
    end.

(** The loop of [findGeneration], over the generations from the last on. *)
Fixpoint find_back (lastg : bool) (gs : list generation) (rev : Z) : option generation :=
  match gs with
  | [] => None
  | g :: gs =>
      match revs g, last (revs g) with
      | r0 :: _, Some tomb =>
          if negb lastg && (Main tomb <=? rev) then None
          else if Main r0 <=? rev then Some g
          else find_back false gs rev
      | _, _ => find_back false gs rev
      end
  end.

Definition findGeneration (ki : keyIndex) (rev : Z) : option generation :=
  find_back true (List.rev (generations ki)) rev.

(** The revision, the creating revision and the version. *)
Definition get (ki : keyIndex) (atRev : Z) : outcome (result (Revision * Revision * Z)) :=
  if isEmpty ki then Panic "'get' got an unexpected empty keyIndex"
  else
    match findGeneration ki atRev with
    | None => Ret (inl ErrRevisionNotFound)
    | Some g =>
        if gen_isEmpty g then Ret (inl ErrRevisionNotFound)
        else
          let n := walk (fun rev => atRev <? Main rev) g in
          match (if n =? -1 then None else revs g !! Z.to_nat n) with
          | Some r =>
              Ret (inr (r, created g, i64 (ver g - (Z.of_nat (length (revs g)) - n - 1))))
          | None => Ret (inl ErrRevisionNotFound)
          end
    end.

(** The generations to check in [since], over those from the last on. *)
Fixpoint since_back (since : Revision) (gs acc : list generation) : list generation :=
  match gs with
  | [] => acc
  | [g] => g :: acc
  | g :: gs =>
      if negb (gen_isEmpty g) && GreaterThan since (created g) then g :: acc
      else since_back since gs (g :: acc)
  end.

(** The inner loop of [since]; the result is kept in reverse, so that the
    last revision can be replaced. *)
Fixpoint since_revs (since : Revision) (l : list Revision) (acc : list Revision) (lastMain : Z)
    : list Revision :=
  match l with
  | [] => List.rev acc
  | r :: l =>
      if GreaterThan since r then since_revs since l acc lastMain
      else if Main r =? lastMain then since_revs since l (r :: tail acc) lastMain
      else since_revs since l (r :: acc) (Main r)
  end.

Definition since (ki : keyIndex) (rev : Z) : outcome (list Revision) :=
  if isEmpty ki then Panic "'since' got an unexpected empty keyIndex"
  else
    let since := MkRev rev 0 in
    Ret (since_revs since (concat (map revs (since_back since (List.rev (generations ki)) []))) [] 0).

(** The loop of [doCompact]: the number of generations that are passed. *)
Fixpoint compact_gens (gs : list generation) (atRev : Z) : outcome nat :=
  match gs with
  | [] => Ret O
  | g :: gs =>
      match gs, last (revs g) with
      | [], _ => Ret O
      | _, None => Panic "index out of range"
      | _, Some tomb =>
          if atRev <=? Main tomb then Ret O
          else n ← compact_gens gs atRev; Ret (S n)
      end
  end.

(** The generation, the position in it, and the revisions that are needed. *)
Definition doCompact (ki : keyIndex) (atRev : Z) (available : gset Revision)
    : outcome (nat * Z * gset Revision) :=
  genIdx ← compact_gens (generations ki) atRev;
  match generations ki !! genIdx with
  | None => Panic "index out of range"
  | Some g =>
      let revIndex := walk (fun rev => negb (Main rev <=? atRev)) g in
      Ret (genIdx, revIndex,
           match (if revIndex =? -1 then None else revs g !! Z.to_nat revIndex) with
           | Some r => {[ r ]} ∪ available
           | None => available
           end)
  end.

Definition compact (ki : keyIndex) (atRev : Z) (available : gset Revision)
    : outcome (keyIndex * gset Revision) :=
  if isEmpty ki then Panic "'compact' got an unexpected empty keyIndex"
  else
    '(genIdx, revIndex, available) ← doCompact ki atRev available;
    let gs := drop genIdx (generations ki) in
    let gs := match gs with
              | g :: gs' =>
                  if gen_isEmpty g || (revIndex =? -1) then gs
                  else MkGen (ver g) (created g) (drop (Z.to_nat revIndex) (revs g)) :: gs'
              | [] => []
              end in
    Ret (MkKeyIndex (ki_key ki) (modified ki) gs, available).

Definition keep (ki : keyIndex) (atRev : Z) (available : gset Revision)
    : outcome (gset Revision) :=
  if isEmpty ki then Ret available
  else
    '(genIdx, revIndex, available) ← doCompact ki atRev available;
    match generations ki !! genIdx with
    | None => Panic "index out of range"
    | Some g =>
        if gen_isEmpty g then Ret available
        else if (revIndex =? Z.of_nat (length (revs g)) - 1)
                && negb (genIdx =? length (generations ki) - 1)%nat
        then match revs g !! Z.to_nat revIndex with
             | Some r => Ret (available ∖ {[ r ]})
             | None => Panic "index out of range"
             end
        else Ret available
    end.

Definition Less (ki bki : keyIndex) : bool := str_ltb (ki_key ki) (ki_key bki).

Definition gen_equal (a b : generation) : bool :=
  (ver a =? ver b) && (length (revs a) =? length (revs b))%nat && bool_decide (revs a = revs b).

Fixpoint gens_equal (a b : list generation) : bool :=
  match a, b with
  | [], [] => true
  | x :: a, y :: b => gen_equal x y && gens_equal a b
  | _, _ => false
  end.

Definition equal (a b : keyIndex) : bool :=
  String.eqb (ki_key a) (ki_key b) && bool_decide (modified a = modified b)
  && gens_equal (generations a) (generations b).

End mvcc.
