(* ===== verification/RevBytes.v ===== *)
(** * Revisions as keys of the backend

    etcd stores a change under its revision.  The bytes of a revision decode
    to it, and the backend, which orders its keys by their bytes, orders the
    changes by revision. *)

From S2P Require Import Prelude Errors Utils KeyIndex.
From Stdlib Require Import Strings.Byte.

Module RevBytes.
Import mvcc.

(** [bytes.Compare(a, b) < 0], the order of the backend's keys. *)
Fixpoint bytes_ltb (a b : bytes) : bool :=
  match a, b with
  | _, [] => false
  | [], _ :: _ => true
  | x :: a, y :: b =>
      (Z_of_byte x <? Z_of_byte y) || ((Z_of_byte x =? Z_of_byte y) && bytes_ltb a b)
  end.

Lemma be_value_cons x b : be_value (x :: b) = Z_of_byte x * 256 ^ Z.of_nat (length b) + be_value b.
Proof.
  induction b as [|y b IH] using rev_ind.
  - pose proof (be_value_app [] x) as E. cbn [app] in E. rewrite E. cbn. lia.
  - rewrite app_comm_cons, !be_value_app, IH, length_app. cbn [length].
    rewrite Nat2Z.inj_add, Z.pow_add_r by lia. change (256 ^ Z.of_nat 1) with 256. ring.
Qed.

(** Strings of the same length are ordered like their values. *)
Lemma bytes_ltb_value a b : length a = length b -> bytes_ltb a b = (be_value a <? be_value b).
Proof.
  revert b. induction a as [|x a IH]; intros [|y b] Hl; try done. injection Hl as Hl.
  cbn [bytes_ltb]. rewrite !be_value_cons, (IH b Hl), Hl.
  pose proof (be_value_range a) as Ha. pose proof (be_value_range b) as Hb. rewrite Hl in Ha.
  set (p := 256 ^ Z.of_nat (length b)) in *.
  destruct (Z.ltb_spec (Z_of_byte x) (Z_of_byte y)) as [Hlt|Hge]; cbn [orb].
  - symmetry. apply Z.ltb_lt. nia.
  - destruct (Z.eqb_spec (Z_of_byte x) (Z_of_byte y)) as [->|Hne]; cbn [andb].
    + destruct (Z.ltb_spec (be_value a) (be_value b)); symmetry;
        [apply Z.ltb_lt|apply Z.ltb_ge]; lia.
    + symmetry. apply Z.ltb_ge. nia.
Qed.

Lemma bytes_ltb_app a b s t : length a = length b ->
  bytes_ltb (a ++ s) (b ++ t) = (be_value a <? be_value b) || ((be_value a =? be_value b) && bytes_ltb s t).
Proof.
  intros Hl. rewrite <- bytes_ltb_value by done. revert b Hl.
  induction a as [|x a IH]; intros [|y b] Hl; try done. injection Hl as Hl.
  cbn [app bytes_ltb]. rewrite (IH b Hl), !be_value_cons, Hl.
  pose proof (be_value_range a) as Ha. pose proof (be_value_range b) as Hb. rewrite Hl in Ha.
  set (p := 256 ^ Z.of_nat (length b)) in *.
  destruct (Z.ltb_spec (Z_of_byte x) (Z_of_byte y)) as [Hlt|Hge]; cbn [orb]; [done|].
  destruct (Z.eqb_spec (Z_of_byte x) (Z_of_byte y)) as [->|Hne]; cbn [andb].
  - do 2 f_equal. destruct (Z.eqb_spec (be_value a) (be_value b)) as [->|Hn]; symmetry;
      [apply Z.eqb_refl|apply Z.eqb_neq; lia].
  - destruct (Z.eqb_spec (Z_of_byte x * p + be_value a) (Z_of_byte y * p + be_value b)); [nia|done].
Qed.

(** The revisions that etcd uses. *)
Definition valid (k : BucketKey) : Prop :=
  0 <= Main (bk_Revision k) < 2 ^ 63 /\ 0 <= Sub (bk_Revision k) < 2 ^ 63.

Lemma u64_rev z : 0 <= z < 2 ^ 63 -> u64 z = z.
Proof. intros Hz. apply u64_small. word. Qed.

Definition key_bytes (k : BucketKey) : bytes :=
  Uint64ToBytes (Main (bk_Revision k)) ++ [Byte.x5f] ++ Uint64ToBytes (Sub (bk_Revision k))
  ++ if tombstone_mark k then [Byte.x74] else [].

Lemma bytes_of_key k : valid k -> BucketKeyToBytes k NewRevBytes = Ret (key_bytes k).
Proof.
  intros [Hm Hs]. unfold BucketKeyToBytes, key_bytes. rewrite !u64_rev by done. cbn -[byte_of_Z].
  by destruct (tombstone_mark k).
Qed.

Lemma bytes_to_key k : valid k -> BytesToBucketKey (key_bytes k) = Ret k.
Proof.
  intros [Hm Hs]. unfold key_bytes. destruct k as [[m s] t]. cbn [bk_Revision Main Sub tombstone_mark] in *.
  pose proof (be_value_Uint64ToBytes m ltac:(word)) as Em.
  pose proof (be_value_Uint64ToBytes s ltac:(word)) as Es.
  pose proof (Uint64ToBytes_length m) as Lm. pose proof (Uint64ToBytes_length s) as Ls.
  unfold BytesToBucketKey, isTombstone. rewrite !length_app, Lm, Ls.
  rewrite (take_app_length' _ _ 8), Em by done.
  replace ((Uint64ToBytes m ++ _) !! 8%nat) with (Some Byte.x5f) by (symmetry; by apply list_lookup_middle).
  replace (drop 9 _) with (Uint64ToBytes s ++ if t then [Byte.x74] else []).
  2: { rewrite app_assoc, drop_app_length'; [done|]. by rewrite length_app, Lm. }
  rewrite (take_app_length' _ _ 8), Es, !i64_small by (done || word).
  rewrite (proj2 (Z.ltb_ge m 0)), (proj2 (Z.ltb_ge s 0)) by lia. cbn [orb].
  rewrite (bool_decide_true (Some Byte.x5f = _)) by done.
  destruct t; cbn [length Nat.add Nat.eqb negb andb]; reflexivity.
Qed.

Lemma key_bytes_ltb a b : valid a -> valid b ->
  bytes_ltb (key_bytes a) (key_bytes b) = true <->
    GreaterThan (bk_Revision b) (bk_Revision a) = true \/
    bk_Revision a = bk_Revision b /\ tombstone_mark a = false /\ tombstone_mark b = true.
Proof.
  intros [Ha1 Ha2] [Hb1 Hb2]. unfold key_bytes.
  destruct a as [[am as_] at_], b as [[bm bs] bt]. cbn [bk_Revision Main Sub tombstone_mark] in *.
  rewrite bytes_ltb_app by (by rewrite !Uint64ToBytes_length). cbn [app bytes_ltb].
  rewrite Z.ltb_irrefl, Z.eqb_refl. cbn [orb andb].
  rewrite bytes_ltb_app by (by rewrite !Uint64ToBytes_length).
  rewrite !be_value_Uint64ToBytes by word. unfold GreaterThan. cbn [Main Sub].
  destruct (Z.ltb_spec am bm); cbn [orb]; [split; [by left|done]|].
  destruct (Z.eqb_spec am bm) as [->|Hne]; cbn [andb].
  - rewrite Z.ltb_irrefl. destruct (Z.ltb_spec as_ bs); cbn [orb]; [split; [by left|done]|].
    destruct (Z.eqb_spec as_ bs) as [->|Hne]; cbn [andb].
    + destruct at_, bt; vm_compute (bytes_ltb _ _); naive_solver.
    + split; [done|]. intros [?|[[= ?] _]]; done.
  - rewrite (proj2 (Z.ltb_lt bm am)) by lia. split; [done|]. intros [?|[[= ?] _]]; done.
Qed.

(** The bytes that a change is stored under decode to its revision and its
    mark, and are ordered like the revisions; a marked revision comes right
    after the same one without a mark. *)
Theorem bucket_keys_ordered a b : valid a -> valid b -> exists x y,
  BucketKeyToBytes a NewRevBytes = Ret x /\ BucketKeyToBytes b NewRevBytes = Ret y /\
  BytesToBucketKey x = Ret a /\
  (bytes_ltb x y = true <->
     GreaterThan (bk_Revision b) (bk_Revision a) = true \/
     bk_Revision a = bk_Revision b /\ tombstone_mark a = false /\ tombstone_mark b = true).
Proof.
  intros Ha Hb. exists (key_bytes a), (key_bytes b). split; [by apply bytes_of_key|].
  split; [by apply bytes_of_key|]. split; [by apply bytes_to_key|by apply key_bytes_ltb].
Qed.

Lemma bucket_keys_ordered_witness : exists x y,
  BucketKeyToBytes (newBucketKey 255 7 true) NewRevBytes = Ret x /\
  BucketKeyToBytes (newBucketKey 256 0 false) NewRevBytes = Ret y /\
  BytesToBucketKey x = Ret (newBucketKey 255 7 true) /\ bytes_ltb x y = true.
Proof.
  destruct (bucket_keys_ordered (newBucketKey 255 7 true) (newBucketKey 256 0 false))
    as (x & y & Ex & Ey & Eb & Hlt); [split; cbn; lia|split; cbn; lia|].
  exists x, y. do 3 (split; [assumption|]). apply Hlt. left. reflexivity.
Defined.

End RevBytes.
