(* ===== verification/KeyTimeline.v ===== *)
(** * Timelines of keys

    A timeline lists the revisions of a key in order, each with the creating
    revision and the version the key had from then on, or nothing when it was
    deleted.  The operations of a [keyIndex] act on its timeline: [put] and
    [tombstone] append to it, [get] reads it, and [compact] cuts it at the
    front without changing what later reads see. *)

From S2P Require Import Prelude Errors Utils KeyIndex.

Module Timeline.
Import mvcc.

(** ** Timelines *)

Definition entry : Type := Revision * option (Revision * Z).

(** The key at a revision: the last entry that is not later. *)
Definition upto (c : Z) (e : entry) : Prop := Main (fst e) <= c.
#[global] Instance upto_dec c e : Decision (upto c e).
Proof. unfold upto. apply _. Defined.

Definition at_rev (tl : list entry) (c : Z) : option entry := last (filter (upto c) tl).

Definition read (tl : list entry) (c : Z) : option (Revision * Revision * Z) :=
  match at_rev tl c with
  | Some (r, Some (cr, v)) => Some (r, cr, v)
  | _ => None
  end.

(** What a put at [r] makes of the key. *)
Definition next (tl : list entry) (r : Revision) : entry :=
  match last tl with
  | Some (_, Some (cr, v)) => (r, Some (cr, i64 (v + 1)))
  | _ => (r, Some (r, 1))
  end.

(** The last entry up to [c] that reads at [c] and later need: a deletion
    before [c] is not needed, one at [c] is kept. *)
Definition kept (c : Z) (tl : list entry) : option entry :=
  match at_rev tl c with
  | None => None
  | Some e => if decide (snd e = None /\ Main (fst e) < c) then None else Some e
  end.

Definition trim (c : Z) (tl : list entry) : list entry :=
  option_list (kept c tl) ++ filter (fun e => ~ upto c e) tl.

Definition kept_set (c : Z) (tl : list entry) : gset Revision :=
  list_to_set (map fst (option_list (kept c tl))).

Definition rev_lt (a b : Revision) : Prop := GreaterThan b a = true.

(** Entries follow each other, and nothing happens to a key in the revision in
    which it was deleted any more. *)
Definition before (e e' : entry) : Prop :=
  rev_lt (fst e) (fst e') /\ (snd e = None -> Main (fst e) < Main (fst e')).

Lemma rev_lt_spec a b : rev_lt a b <-> Main a < Main b \/ Main a = Main b /\ Sub a < Sub b.
Proof.
  unfold rev_lt, GreaterThan. destruct (Z.ltb_spec (Main a) (Main b)); [split; [lia|done]|].
  destruct (Z.ltb_spec (Main b) (Main a)); [split; [done|lia]|]. rewrite Z.ltb_lt. lia.
Qed.

Lemma before_Main e e' : before e e' -> Main (fst e) <= Main (fst e').
Proof. intros [H%rev_lt_spec _]. lia. Qed.

(** ** Lists *)

Lemma filter_none {A} (P : A -> Prop) `{forall x, Decision (P x)} l :
  Forall (fun x => ~ P x) l -> filter P l = [].
Proof. induction 1; [done|]. by rewrite filter_cons_False. Qed.

Lemma last_filter_mid {A} (P : A -> Prop) `{forall x, Decision (P x)} a x b :
  P x -> Forall (fun y => ~ P y) b -> last (filter P (a ++ x :: b)) = Some x.
Proof.
  intros Hx Hb. rewrite filter_app, filter_cons_True by done.
  rewrite (filter_none P b Hb). apply last_snoc.
Qed.

Lemma filter_all {A} (P : A -> Prop) `{forall x, Decision (P x)} l :
  Forall P l -> filter P l = l.
Proof. induction 1; [done|]. rewrite filter_cons_True by done. by f_equal. Qed.

Lemma snoc_inv {A} (l : list A) : l = [] \/ exists l' x, l = l' ++ [x].
Proof. destruct l as [|x l] using rev_ind; [by left|right; eauto]. Qed.

Lemma walk_back_spec f l : let n := walk_back f (rev l) in
  (n = -1 /\ Forall (fun r => f r = true) l) \/
  exists l1 r l2, l = l1 ++ r :: l2 /\ n = Z.of_nat (length l1) /\ f r = false /\
    Forall (fun r => f r = true) l2.
Proof.
  cbv zeta. induction l as [|x l IH] using rev_ind; [left; split; [done|constructor]|].
  rewrite rev_app_distr. cbn [rev app walk_back]. destruct (f x) eqn:Ef.
  - destruct IH as [[-> Hl]|(l1 & r & l2 & -> & -> & Hr & Hl2)].
    + left. split; [done|]. apply Forall_app. by repeat constructor.
    + right. exists l1, r, (l2 ++ [x]). rewrite <- app_assoc. split; [done|]. split; [done|].
      split; [done|]. apply Forall_app. by repeat constructor.
  - right. exists l, x, []. rewrite length_rev. by repeat constructor.
Qed.

Lemma walk_bound f g : walk f g < Z.of_nat (length (revs g)) /\ -1 <= walk f g.
Proof.
  unfold walk. destruct (walk_back_spec f (revs g)) as [[-> _]|(l1 & r & l2 & E & -> & _)]; [lia|].
  rewrite E, length_app. cbn [length]. lia.
Qed.

(** ** The timeline of generations *)

Fixpoint number (cr : Revision) (v : Z) (l : list Revision) : list entry :=
  match l with
  | [] => []
  | r :: l => (r, Some (cr, i64 v)) :: number cr (v + 1) l
  end.

Definition opened (g : generation) : list entry :=
  number (created g) (ver g - Z.of_nat (length (revs g)) + 1) (revs g).

Definition closed (g : generation) : list entry :=
  match last (revs g) with
  | Some t => removelast (opened g) ++ [(t, None)]
  | None => []
  end.

Definition timeline_of (cs : list generation) (g : generation) : list entry :=
  concat (map closed cs) ++ opened g.

Definition timeline (ki : keyIndex) : list entry :=
  match last (generations ki) with
  | Some g => timeline_of (removelast (generations ki)) g
  | None => []
  end.

(** A key index: its generations but the last one end with a deletion, and it
    was last modified at the end of its timeline. *)
Definition ki_ok (ki : keyIndex) : Prop :=
  (generations ki = [] \/ exists cs g, generations ki = cs ++ [g] /\
     Forall (fun g => revs g <> []) cs /\ (revs g = [] -> ver g = 0)) /\
  StronglySorted before (timeline ki) /\
  (forall e, last (timeline ki) = Some e -> modified ki = fst e).

Lemma timeline_snoc k m cs g : timeline (MkKeyIndex k m (cs ++ [g])) = timeline_of cs g.
Proof. unfold timeline. cbn [generations]. by rewrite last_snoc, removelast_last. Qed.

Lemma number_app cr v a b :
  number cr v (a ++ b) = number cr v a ++ number cr (v + Z.of_nat (length a)) b.
Proof.
  revert v. induction a as [|x a IH]; intros v; cbn [app number length]; [by rewrite Z.add_0_r|].
  rewrite IH. do 3 f_equal. lia.
Qed.

Lemma number_fst cr v l : map fst (number cr v l) = l.
Proof. revert v. induction l as [|x l IH]; intros v; [done|]. cbn. by rewrite IH. Qed.

Lemma closed_gen_snoc v cr l t :
  closed (MkGen v cr (l ++ [t])) = number cr (v - Z.of_nat (length l)) l ++ [(t, None)].
Proof.
  unfold closed, opened. cbn [revs ver created]. rewrite last_snoc, length_app, number_app.
  cbn [number length]. rewrite removelast_last. do 3 f_equal. lia.
Qed.

Lemma i64_add a b : i64 (i64 a + b) = i64 (a + b).
Proof.
  unfold i64, two64. replace ((a + 2 ^ 63) mod 2 ^ 64 - 2 ^ 63 + b + 2 ^ 63)
    with ((a + 2 ^ 63) mod 2 ^ 64 + b) by lia.
  rewrite Z.add_mod_idemp_l by lia. do 2 f_equal. lia.
Qed.

Lemma number_i64 cr v v' l : i64 v = i64 v' -> number cr v l = number cr v' l.
Proof.
  revert v v'. induction l as [|r l IH]; intros v v' E; [done|]. cbn [number]. rewrite E.
  f_equal. apply IH. by rewrite <- (i64_add v), <- (i64_add v'), E.
Qed.

(** *** Appending *)

Lemma before_trans e1 e2 e3 : before e1 e2 -> before e2 e3 -> before e1 e3.
Proof.
  unfold before. rewrite !rev_lt_spec. intros [H1 H1'] [H2 H2']. split; [lia|].
  intros E. specialize (H1' E). lia.
Qed.

Lemma sorted_snoc tl e : StronglySorted before tl ->
  (forall x, last tl = Some x -> before x e) -> StronglySorted before (tl ++ [e]).
Proof.
  intros Hs Hl. apply StronglySorted_app. split; [|split; [done|repeat constructor]].
  intros x y Hx ->%list_elem_of_singleton.
  destruct (snoc_inv tl) as [->|(tl' & z & ->)]; [by apply not_elem_of_nil in Hx|].
  specialize (Hl z (last_snoc _ _)). apply elem_of_app in Hx as [Hx| ->%list_elem_of_singleton]; [|done].
  apply StronglySorted_app in Hs as (Hs & _).
  eapply before_trans; [|exact Hl]. apply Hs; [done|by left].
Qed.

Lemma last_closed g : revs g <> [] -> exists l t, closed g = l ++ [(t, None)].
Proof.
  intros Hg. unfold closed. destruct (snoc_inv (revs g)) as [?|(l & t & ->)]; [done|].
  rewrite last_snoc. eauto.
Qed.

Lemma last_closeds cs : Forall (fun g => revs g <> []) cs ->
  cs = [] \/ exists l t, concat (map closed cs) = l ++ [(t, None)].
Proof.
  intros Hcs. destruct (snoc_inv cs) as [->|(cs' & g & ->)]; [by left|right].
  apply Forall_app in Hcs as [_ [Hg _]%Forall_cons]. destruct (last_closed g Hg) as (l & t & E).
  rewrite map_app, concat_app. cbn. rewrite E, app_nil_r, app_assoc. eauto.
Qed.

Lemma opened_snoc v cr l r : opened (MkGen (i64 (v + 1)) cr (l ++ [r]))
  = opened (MkGen v cr l) ++ [(r, Some (cr, i64 (v + 1)))].
Proof.
  unfold opened. cbn [revs ver created]. rewrite number_app, length_app. cbn [number length]. f_equal.
  - apply number_i64.
    replace (i64 (v + 1) - Z.of_nat (length l + 1) + 1) with (i64 (v + 1) + - Z.of_nat (length l)) by lia.
    rewrite i64_add. f_equal. lia.
  - replace (i64 (v + 1) - Z.of_nat (length l + 1) + 1 + Z.of_nat (length l))
      with (i64 (v + 1) + 0) by lia. by rewrite i64_add, Z.add_0_r.
Qed.

Lemma last_opened v cr l x :
  last (opened (MkGen v cr (l ++ [x]))) = Some (x, Some (cr, i64 v)).
Proof.
  unfold opened. cbn [revs ver created]. rewrite number_app, length_app. cbn [number length].
  rewrite last_snoc. repeat f_equal. lia.
Qed.

Lemma last_timeline_of cs g : Forall (fun g => revs g <> []) cs ->
  match last (revs g) with
  | Some x => last (timeline_of cs g) = Some (x, Some (created g, i64 (ver g)))
  | None => timeline_of cs g = [] \/ exists t, last (timeline_of cs g) = Some (t, None)
  end.
Proof.
  intros Hcs. unfold timeline_of. destruct g as [v cr l].
  destruct (snoc_inv l) as [->|(l' & x & ->)]; cbn [revs].
  - cbn [opened number revs]. rewrite app_nil_r.
    destruct (last_closeds cs Hcs) as [->|(l & t & ->)]; [by left|right]. exists t. apply last_snoc.
  - rewrite last_snoc, last_app, last_opened. done.
Qed.

Lemma next_put cs g r : Forall (fun g => revs g <> []) cs -> (revs g = [] -> ver g = 0) ->
  timeline_of cs (gen_put r g) = timeline_of cs g ++ [next (timeline_of cs g) r].
Proof.
  intros Hcs Hv. pose proof (last_timeline_of cs g Hcs) as Hl.
  assert (timeline_of cs (gen_put r g) = timeline_of cs g ++
    [(r, Some (if gen_isEmpty g then r else created g, i64 (ver g + 1)))]) as ->.
  { unfold timeline_of. rewrite <- app_assoc. f_equal. destruct g as [v cr l]. unfold gen_put.
    cbn [revs ver created gen_isEmpty]. rewrite opened_snoc. unfold gen_isEmpty. cbn [revs].
    by destruct l as [|x l]. }
  do 2 f_equal. unfold next. destruct (snoc_inv (revs g)) as [El|(l & x & El)]; rewrite El in Hl.
  - unfold gen_isEmpty. rewrite El, (Hv El). by destruct Hl as [->|[t ->]].
  - rewrite last_snoc in Hl. rewrite Hl, i64_add. unfold gen_isEmpty. rewrite El, length_app.
    cbn [length]. by rewrite Nat.add_1_r.
Qed.

Lemma next_fst tl r : fst (next tl r) = r /\ snd (next tl r) <> None.
Proof. unfold next. by destruct (last tl) as [[? [[]|]]|]. Qed.

(** A change of the key that may follow its timeline. *)
Definition follows (tl : list entry) (m r : Revision) : Prop :=
  rev_lt m r /\ forall t, last tl = Some (t, None) -> Main t < Main r.

Lemma ki_ok_snoc k m gs cs g tl e : generations (MkKeyIndex k m gs) = cs ++ [g] ->
  Forall (fun g => revs g <> []) cs -> (revs g = [] -> ver g = 0) ->
  timeline (MkKeyIndex k m gs) = tl ++ [e] -> fst e = m ->
  StronglySorted before tl -> (forall x, last tl = Some x -> before x e) ->
  ki_ok (MkKeyIndex k m gs).
Proof.
  intros Eg Hcs Hv Et Em Hs Hb. split; [right; eauto|]. rewrite Et. split; [by apply sorted_snoc|].
  intros x Hx. rewrite last_snoc in Hx. by injection Hx as <-.
Qed.

Lemma put_spec ki main sub : let r := MkRev main sub in
  ki_ok ki -> follows (timeline ki) (modified ki) r ->
  exists ki', put ki main sub = Ret ki' /\ ki_key ki' = ki_key ki /\ ki_ok ki' /\
    timeline ki' = timeline ki ++ [next (timeline ki) r] /\
    exists cs g, generations ki' = cs ++ [g] /\ revs g <> [].
Proof.
  intros r (Hg & Hs & Hm) [Hr Hgap]. unfold put. fold r. rewrite Hr. cbn [negb].
  destruct ki as [k m gs]. cbn [ki_key modified generations] in *.
  set (gs' := match gs with [] => _ | _ => _ end).
  assert (exists cs g, gs' = cs ++ [g] /\
    Forall (fun g => revs g <> []) cs /\ (revs g = [] -> ver g = 0) /\
    timeline (MkKeyIndex k m gs) = timeline_of cs g) as (cs & g & -> & Hcs & Hv & Et).
  { destruct Hg as [->|(cs & g & -> & Hcs & Hv)].
    - by exists [], emptyGeneration.
    - exists cs, g. split; [by destruct cs|]. split; [done|]. split; [done|]. apply timeline_snoc. }
  unfold on_last. rewrite last_snoc, removelast_last. eexists. split; [reflexivity|].
  rewrite Et in *. destruct (next_fst (timeline_of cs g) r) as [Ef Hn].
  assert (revs (gen_put r g) <> []) as Hne by (cbn; by destruct (revs g)).
  split; [done|]. split; [|split].
  - eapply ki_ok_snoc; [reflexivity|done|by intros ?| |exact Ef|exact Hs|].
    + rewrite timeline_snoc. by apply next_put.
    + intros [x xs] Hx. unfold before. rewrite Ef. cbn [fst snd]. split.
      * specialize (Hm _ Hx). cbn in Hm. by rewrite <- Hm.
      * intros ->. by apply Hgap.
  - rewrite timeline_snoc. by apply next_put.
  - eauto.
Qed.

Lemma put_snoc k m cs g main sub : rev_lt m (MkRev main sub) ->
  put (MkKeyIndex k m (cs ++ [g])) main sub
    = Ret (MkKeyIndex k (MkRev main sub) (cs ++ [gen_put (MkRev main sub) g])).
Proof.
  intros Hr. unfold put. cbn [modified generations ki_key]. rewrite Hr. cbn [negb].
  set (gs' := match cs ++ [g] with [] => _ | _ => _ end).
  assert (gs' = cs ++ [g]) as -> by (by unfold gs'; destruct cs).
  unfold on_last. by rewrite last_snoc, removelast_last.
Qed.

Lemma closed_put r g : revs g <> [] -> closed (gen_put r g) = opened g ++ [(r, None)].
Proof.
  intros Hg. unfold gen_put. rewrite closed_gen_snoc. f_equal. unfold opened, gen_isEmpty.
  assert (length (revs g) =? 0 = false)%nat as -> by (apply Nat.eqb_neq; by destruct (revs g)).
  apply number_i64. unfold Z.sub. rewrite i64_add. f_equal. lia.
Qed.

Lemma not_isEmpty ki : timeline ki <> [] -> isEmpty ki = false.
Proof.
  unfold isEmpty, gen_isEmpty, timeline. destruct (generations ki) as [|g [|? ?]]; [done| |done].
  cbn. unfold timeline_of, opened. cbn. by destruct (revs g).
Qed.

(** A deletion of a key that exists. *)
Lemma tombstone_spec ki main sub : let r := MkRev main sub in
  ki_ok ki -> follows (timeline ki) (modified ki) r -> timeline ki <> [] ->
  (exists t, last (timeline ki) = Some (t, None)) /\
    tombstone ki main sub = Ret (ki, Some ErrRevisionNotFound) \/
  (exists x, last (timeline ki) = Some x /\ snd x <> None) /\
  exists ki', tombstone ki main sub = Ret (ki', None) /\ ki_key ki' = ki_key ki /\ ki_ok ki' /\
    timeline ki' = timeline ki ++ [(r, None)].
Proof.
  intros r Hok Hf Hne. pose proof Hok as (Hg & Hs & Hm). unfold tombstone.
  destruct ki as [k m gs]. cbn [ki_key modified generations] in *.
  destruct Hg as [->|(cs & g & -> & Hcs & Hv)]; [done|].
  rewrite timeline_snoc in *. pose proof (last_timeline_of cs g Hcs) as Hl.
  rewrite not_isEmpty by (by rewrite timeline_snoc).
  rewrite last_snoc. destruct (snoc_inv (revs g)) as [El|(l & x & El)]; unfold gen_isEmpty;
    rewrite El in *.
  - left. cbn in *. destruct Hl as [|Hl]; done.
  - right. rewrite last_snoc in Hl. split; [by eexists|].
    rewrite length_app, Nat.add_1_r. cbn [Nat.eqb].
    rewrite put_snoc by apply Hf. rewrite ret_bind. cbn [ki_key modified generations]. fold r.
    eexists. split; [reflexivity|]. split; [done|].
    assert (revs g <> []) as Hg by (rewrite El; by destruct l).
    assert (timeline (MkKeyIndex k r ((cs ++ [gen_put r g]) ++ [emptyGeneration]))
      = timeline_of cs g ++ [(r, None)]) as Et.
    { rewrite timeline_snoc. unfold timeline_of. rewrite map_app, concat_app. cbn [map concat].
      rewrite closed_put by done. by rewrite !app_nil_r, app_assoc. }
    split; [|exact Et]. eapply ki_ok_snoc; [reflexivity| |done|exact Et|done|exact Hs|].
    + apply Forall_app. split; [done|]. repeat constructor. cbn. by destruct (revs g).
    + intros y Hy. rewrite Hl in Hy. injection Hy as <-. unfold before. cbn. split; [|done].
      specialize (Hm _ Hl). cbn in Hm. rewrite <- Hm. apply Hf.
Qed.

(** *** Reading *)

Lemma at_rev_skip a b c : Forall (fun e => ~ upto c e) b -> at_rev (a ++ b) c = at_rev a c.
Proof. intros Hb. unfold at_rev. by rewrite filter_app, (filter_none _ b Hb), app_nil_r. Qed.

Lemma sorted_later e l c : StronglySorted before (e :: l) -> ~ upto c e ->
  Forall (fun e => ~ upto c e) (e :: l).
Proof.
  intros [_ Hl]%StronglySorted_inv He. constructor; [done|]. eapply Forall_impl; [exact Hl|].
  intros x Hx%before_Main. unfold upto in *. lia.
Qed.

Lemma number_later cr v l c : Forall (fun r => (c <? Main r) = true) l ->
  Forall (fun e => ~ upto c e) (number cr v l).
Proof.
  intros Hl. revert v. induction Hl as [|r l Hr Hl IH]; intros v; constructor; [|apply IH].
  unfold upto. cbn. lia.
Qed.

(** The read of a generation. *)
Definition gen_get (g : generation) (c : Z) : result (Revision * Revision * Z) :=
  let n := walk (fun rev => c <? Main rev) g in
  match (if n =? -1 then None else revs g !! Z.to_nat n) with
  | Some r => inr (r, created g, i64 (ver g - (Z.of_nat (length (revs g)) - n - 1)))
  | None => inl ErrRevisionNotFound
  end.

Definition answer (tl : list entry) (c : Z) : result (Revision * Revision * Z) :=
  match read tl c with Some x => inr x | None => inl ErrRevisionNotFound end.

Lemma gen_get_spec pre g r0 l c : revs g = r0 :: l -> Main r0 <= c ->
  gen_get g c = answer (pre ++ opened g) c.
Proof.
  intros Eg Hr. unfold gen_get, walk.
  destruct (walk_back_spec (fun rev => c <? Main rev) (revs g))
    as [[-> Hall]|(l1 & r & l2 & El & -> & Hf & Hl2)].
  { rewrite Eg in Hall. apply Forall_cons in Hall as [Hx _]. lia. }
  rewrite (proj2 (Z.eqb_neq _ _)) by lia. rewrite Nat2Z.id, El, list_lookup_middle by done.
  unfold answer, read, at_rev, opened. rewrite El, number_app. cbn [number]. rewrite app_assoc.
  rewrite last_filter_mid; [|unfold upto; cbn; lia|by apply number_later].
  do 2 f_equal. rewrite length_app. cbn [length]. f_equal. lia.
Qed.

Lemma closed_opened g t l c : revs g = l ++ [t] -> c < Main t ->
  filter (upto c) (closed g) = filter (upto c) (opened g).
Proof.
  intros Eg Ht. destruct g as [v cr rs]. cbn [revs] in Eg. subst rs. rewrite closed_gen_snoc.
  unfold opened. cbn [revs ver created]. rewrite number_app, !filter_app, length_app.
  cbn [number length].
  rewrite !(filter_none _ [_]) by (repeat constructor; unfold upto; cbn; lia).
  do 2 f_equal. repeat f_equal. lia.
Qed.

Lemma closed_head g r0 l : revs g = r0 :: l -> exists o es, closed g = (r0, o) :: es.
Proof.
  intros Eg. destruct g as [v cr rs]. cbn [revs] in Eg.
  destruct (snoc_inv rs) as [->|(l' & t & ->)]; [done|]. rewrite closed_gen_snoc.
  destruct l' as [|x l']; cbn in *; injection Eg as <- _; eauto.
Qed.

Lemma answer_none tl c : read tl c = None -> answer tl c = inl ErrRevisionNotFound.
Proof. unfold answer. by intros ->. Qed.

Definition found (o : option generation) (c : Z) : result (Revision * Revision * Z) :=
  match o with Some g => gen_get g c | None => inl ErrRevisionNotFound end.

Lemma get_found ki c : isEmpty ki = false -> get ki c = Ret (found (findGeneration ki c) c).
Proof.
  intros E. unfold get. rewrite E. destruct (findGeneration ki c) as [g|]; [|done].
  cbn [found]. unfold gen_get, gen_isEmpty, walk.
  destruct (revs g) as [|r0 l] eqn:Eg; [done|]. cbn [length Nat.eqb].
  destruct (if _ =? -1 then _ else _); done.
Qed.

Lemma find_back_closed rcs c : Forall (fun g => revs g <> []) rcs ->
  StronglySorted before (concat (map closed (rev rcs))) ->
  found (find_back false rcs c) c = answer (concat (map closed (rev rcs))) c.
Proof.
  induction rcs as [|g rcs IH]; intros Hne Hs; [done|].
  apply Forall_cons in Hne as [Hg Hne]. cbn [rev find_back] in *.
  rewrite map_app, concat_app in *. cbn [map concat] in *. rewrite app_nil_r in *.
  apply StronglySorted_app in Hs as (_ & Hs1 & Hs2).
  destruct (revs g) as [|r0 l0] eqn:Eg; [done|].
  destruct (snoc_inv (revs g)) as [E0|(l & t & El)]; [congruence|].
  rewrite <- Eg, El, last_snoc. cbn [negb andb].
  destruct (Z.leb_spec (Main t) c) as [Ht|Ht].
  - symmetry. apply answer_none. unfold read, at_rev.
    destruct g as [v cr rs]. cbn [revs] in El. subst rs. rewrite closed_gen_snoc, app_assoc.
    by rewrite last_filter_mid.
  - destruct (Z.leb_spec (Main r0) c) as [Hr|Hr].
    + cbn [found]. rewrite (gen_get_spec (concat (map closed (rev rcs))) g r0 l0 c Eg Hr).
      unfold answer, read, at_rev. by rewrite !filter_app, (closed_opened g t l c El Ht).
    + rewrite (IH Hne Hs1). unfold answer, read. rewrite at_rev_skip; [done|].
      destruct (closed_head g r0 l0 Eg) as (o & es & E). rewrite E in *.
      apply sorted_later; [done|]. unfold upto. cbn. lia.
Qed.

Lemma get_spec ki c : ki_ok ki -> timeline ki <> [] -> get ki c = Ret (answer (timeline ki) c).
Proof.
  intros (Hg & Hs & _) Hne. destruct ki as [k m gs]. cbn [generations] in Hg.
  destruct Hg as [->|(cs & g & -> & Hcs & Hv)]; [done|]. rewrite timeline_snoc in *.
  rewrite get_found by (apply not_isEmpty; by rewrite timeline_snoc). f_equal.
  unfold findGeneration. cbn [generations]. rewrite rev_app_distr. cbn [rev app find_back].
  assert (Forall (fun g => revs g <> []) (rev cs)) as Hr by (by apply Forall_rev).
  pose proof (find_back_closed (rev cs) c Hr) as Hf. rewrite rev_involutive in Hf.
  unfold timeline_of in *. apply StronglySorted_app in Hs as (_ & Hs1 & Hs2).
  specialize (Hf Hs1). destruct (revs g) as [|r0 l0] eqn:Eg.
  { unfold opened. by rewrite Eg, app_nil_r. }
  destruct (last (r0 :: l0)) as [t|] eqn:El; [|by apply last_None in El]. cbn [negb andb].
  destruct (Z.leb_spec (Main r0) c) as [Hc|Hc].
  - cbn [found]. by eapply gen_get_spec.
  - rewrite Hf. unfold answer, read. rewrite at_rev_skip; [done|].
    unfold opened in *. rewrite Eg in *. cbn [number] in *.
    apply sorted_later; [done|]. unfold upto. cbn. lia.
Qed.

(** *** Compaction *)

Lemma trim_skip c A T : Forall (upto c) A ->
  (A = [] \/ exists l t, A = l ++ [(t, None)] /\ Main t < c) ->
  kept c (A ++ T) = kept c T /\ trim c (A ++ T) = trim c T.
Proof.
  intros HA Hl.
  assert (filter (fun e => ~ upto c e) (A ++ T) = filter (fun e => ~ upto c e) T) as Ef.
  { rewrite filter_app, (filter_none _ A); [done|]. eapply Forall_impl; [exact HA|]. tauto. }
  assert (kept c (A ++ T) = kept c T) as Ek.
  { unfold kept, at_rev. rewrite filter_app, (filter_all _ A HA), last_app.
    destruct (last (filter (upto c) T)); [done|].
    destruct Hl as [->|(l & t & -> & Ht)]; [done|]. rewrite last_snoc. by rewrite decide_True. }
  unfold trim. by rewrite Ek, Ef.
Qed.

Lemma trim_cut c N e L : Forall (upto c) N -> upto c e -> Forall (fun x => ~ upto c x) L ->
  (snd e = None -> c <= Main (fst e)) ->
  kept c (N ++ e :: L) = Some e /\ trim c (N ++ e :: L) = e :: L.
Proof.
  intros HN He HL Ht.
  assert (kept c (N ++ e :: L) = Some e) as Ek.
  { unfold kept, at_rev. rewrite last_filter_mid by done. rewrite decide_False; [done|].
    intros [E Hlt]. specialize (Ht E). lia. }
  split; [done|]. unfold trim. rewrite Ek. cbn [option_list app]. f_equal.
  rewrite filter_app, filter_cons_False by tauto.
  rewrite (filter_none _ N), filter_all by (done || (eapply Forall_impl; [exact HN|]; tauto)). done.
Qed.

Lemma trim_none c L : Forall (fun x => ~ upto c x) L -> kept c L = None /\ trim c L = L.
Proof.
  intros HL. assert (kept c L = None) as Ek by (unfold kept, at_rev; by rewrite (filter_none _ L HL)).
  split; [done|]. unfold trim. by rewrite Ek, filter_all.
Qed.

Lemma opened_app v cr a b : opened (MkGen v cr (a ++ b))
  = number cr (v - Z.of_nat (length (a ++ b)) + 1) a ++ opened (MkGen v cr b).
Proof.
  unfold opened. cbn [revs ver created]. rewrite number_app. do 2 f_equal. rewrite length_app. lia.
Qed.

Lemma closed_app v cr a b t : closed (MkGen v cr (a ++ b ++ [t]))
  = number cr (v - Z.of_nat (length (a ++ b))) a ++ closed (MkGen v cr (b ++ [t])).
Proof.
  rewrite app_assoc, !closed_gen_snoc, number_app, <- app_assoc. do 3 f_equal. rewrite length_app. lia.
Qed.

Lemma sorted_upto A e B c : StronglySorted before (A ++ e :: B) -> upto c e -> Forall (upto c) A.
Proof.
  intros (Hab & _ & _)%StronglySorted_app He. apply Forall_forall. intros x Hx.
  specialize (Hab x e Hx (list_elem_of_here _ _)). apply before_Main in Hab. unfold upto in *. lia.
Qed.

Lemma sorted_after_tomb A t B c : StronglySorted before (A ++ (t, None) :: B) -> c <= Main t ->
  Forall (fun x => ~ upto c x) B.
Proof.
  intros (_ & _ & [_ HB]%StronglySorted_inv)%StronglySorted_app Hc.
  eapply Forall_impl; [exact HB|]. intros x [_ Hx]. specialize (Hx eq_refl). unfold upto. cbn in *. lia.
Qed.

Lemma compact_gens_spec cs g c : Forall (fun g => revs g <> []) cs -> exists cs1 cs2,
  cs = cs1 ++ cs2 /\ compact_gens (cs ++ [g]) c = Ret (length cs1) /\
  Forall (fun h => exists t, last (revs h) = Some t /\ Main t < c) cs1 /\
  match cs2 with [] => True | h :: _ => exists t, last (revs h) = Some t /\ c <= Main t end.
Proof.
  induction 1 as [|h cs Hh Hcs IH].
  - exists [], []. by repeat constructor.
  - destruct IH as (cs1 & cs2 & -> & E & H1 & H2).
    destruct (last (revs h)) as [t|] eqn:Et; [|by apply last_None in Et].
    cbn [app compact_gens]. rewrite Et. destruct (Z.leb_spec c (Main t)) as [Hc|Hc].
    + exists [], (h :: cs1 ++ cs2). split; [done|]. split; [by destruct ((cs1 ++ cs2) ++ [g]) eqn:?; [|]|].
      split; [constructor|]. by exists t.
    + exists (h :: cs1), cs2. split; [done|]. rewrite E, ret_bind.
      split; [by destruct ((cs1 ++ cs2) ++ [g]) eqn:E'; [destruct cs1, cs2|]|].
      split; [|done]. constructor; [by exists t|done].
Qed.

(** The entries of a generation, ended by a deletion or not. *)
Definition entries_of (cl : bool) (g : generation) : list entry :=
  if cl then closed g else opened g.

Lemma entries_fst cl g : map fst (entries_of cl g) = revs g.
Proof.
  destruct cl; cbn [entries_of]; [|apply number_fst]. destruct g as [v cr l].
  destruct (snoc_inv l) as [->|(l' & t & ->)]; [done|].
  rewrite closed_gen_snoc, map_app, number_fst. done.
Qed.

Lemma entries_cut cl v cr l1 r l2 : exists N o L,
  entries_of cl (MkGen v cr (l1 ++ r :: l2)) = N ++ (r, o) :: L /\
  entries_of cl (MkGen v cr (r :: l2)) = (r, o) :: L /\
  (o = None <-> cl = true /\ l2 = []).
Proof.
  destruct cl; cbn [entries_of].
  - destruct (snoc_inv l2) as [->|(l2' & t & ->)].
    + exists (number cr (v - Z.of_nat (length l1)) l1), None, []. split; [apply closed_gen_snoc|]. by split.
    + change (r :: l2' ++ [t]) with ((r :: l2') ++ [t]).
      rewrite (closed_app v cr l1 (r :: l2') t), (closed_gen_snoc v cr (r :: l2') t). cbn [number app].
      do 3 eexists. split; [done|]. split; [done|]. split; [done|]. intros [_ ?]. by destruct l2'.
  - rewrite opened_app. unfold opened at 1 2. cbn [revs ver created number].
    do 3 eexists. split; [done|]. split; [done|]. split; [done|]. by intros [? _].
Qed.

Lemma later_entries c l : Forall (fun r => c < Main r) (map fst l) ->
  Forall (fun e : entry => ~ upto c e) l.
Proof.
  rewrite Forall_map. intros Hl. eapply Forall_impl; [exact Hl|].
  intros e He. unfold upto. cbn in He. lia.
Qed.

Definition cut_gen (h : generation) (n : Z) : generation :=
  if gen_isEmpty h || (n =? -1) then h
  else MkGen (ver h) (created h) (drop (Z.to_nat n) (revs h)).

Lemma cut_gen_spec cl h R c : StronglySorted before (entries_of cl h ++ R) ->
  (if cl then exists t, last (revs h) = Some t /\ c <= Main t else R = []) ->
  let n := walk (fun r => negb (Main r <=? c)) h in
  let T := entries_of cl h ++ R in
  let T' := entries_of cl (cut_gen h n) ++ R in
  (exists pre, T = pre ++ T') /\ trim c T = T' /\
  (if n =? -1 then None else revs h !! Z.to_nat n) = fst <$> kept c T /\
  (forall e, kept c T = Some e ->
     snd e = None <-> cl = true /\ n = Z.of_nat (length (revs h)) - 1) /\
  (revs (cut_gen h n) = [] <-> revs h = []) /\ (revs h = [] -> cut_gen h n = h).
Proof.
  intros Hs Hcl n T T'.
  assert (Forall (fun e => ~ upto c e) R) as HR.
  { destruct cl; [|subst R; constructor]. destruct Hcl as (t & Et & Ht).
    destruct h as [v cr l]. cbn [revs] in Et. apply last_Some in Et as [l' ->].
    cbn [entries_of] in Hs. rewrite closed_gen_snoc, <- app_assoc in Hs. by eapply sorted_after_tomb. }
  assert (revs h = [] -> cut_gen h n = h) as Hempty.
  { intros E. unfold cut_gen, gen_isEmpty. by rewrite E. }
  destruct (walk_back_spec (fun r => negb (Main r <=? c)) (revs h))
    as [[En Hall]|(l1 & r & l2 & El & En & Hr & Hl2)]; fold (walk (fun r => negb (Main r <=? c)) h) in En;
    fold n in En.
  - assert (cut_gen h n = h) as Eh by (unfold cut_gen; by rewrite En, orb_true_r).
    assert (Forall (fun e => ~ upto c e) T) as HT.
    { apply Forall_app. split; [|done]. apply later_entries. rewrite entries_fst.
      eapply Forall_impl; [exact Hall|]. cbn. lia. }
    destruct (trim_none c T HT) as [Ek Etr]. unfold T'. rewrite Eh, En, Ek. fold T.
    split; [by exists []|]. split; [done|]. by split.
  - destruct h as [v cr l]. cbn [revs] in El. subst l.
    assert (cut_gen (MkGen v cr (l1 ++ r :: l2)) n = MkGen v cr (r :: l2)) as Eh.
    { unfold cut_gen, gen_isEmpty. cbn [revs ver created]. rewrite En, length_app, Nat.add_comm.
      cbn [length Nat.add Nat.eqb orb]. rewrite (proj2 (Z.eqb_neq _ _)) by lia.
      by rewrite Nat2Z.id, drop_app_length. }
    destruct (entries_cut cl v cr l1 r l2) as (N & o & L & E1 & E2 & Ho).
    unfold T' in *. rewrite Eh, E2. unfold T in *. rewrite E1, <- app_assoc in Hs |- *. cbn [app] in *.
    assert (upto c (r, o)) as Hu by (unfold upto; cbn; lia).
    destruct (trim_cut c N (r, o) (L ++ R)) as [Ek Etr];
      [by eapply sorted_upto|done| |intros En'|].
    + apply Forall_app. split; [|done]. apply later_entries.
      assert (map fst L = l2) as ->.
      { pose proof (entries_fst cl (MkGen v cr (r :: l2))) as Ef. rewrite E2 in Ef. by injection Ef. }
      eapply Forall_impl; [exact Hl2|]. cbn. lia.
    + destruct (proj1 Ho En') as [-> ->]. destruct Hcl as (t & Et & Ht). cbn [revs] in Et.
      rewrite last_snoc in Et. by injection Et as ->.
    + split; [by exists N|]. split; [done|]. unfold entry in *. rewrite Ek. cbn [revs fmap option_fmap option_map fst].
      rewrite En, (proj2 (Z.eqb_neq _ _)), Nat2Z.id, list_lookup_middle by lia.
      split; [done|]. split; [|split; [split; intros E; by destruct l1|intros E; by destruct l1]].
      intros e [= <-]. cbn [snd]. rewrite Ho, length_app. cbn [length].
      split; (intros [-> E]; split; [done|]); [subst l2; cbn; lia|]. destruct l2; [done|]. cbn in E. lia.
Qed.

Lemma closeds_skip cs c : StronglySorted before (concat (map closed cs)) ->
  Forall (fun h => exists t, last (revs h) = Some t /\ Main t < c) cs ->
  Forall (upto c) (concat (map closed cs)) /\
  (concat (map closed cs) = [] \/ exists l t, concat (map closed cs) = l ++ [(t, None)] /\ Main t < c).
Proof.
  intros Hs Hcs. destruct (snoc_inv cs) as [->|(cs' & h & ->)]; [split; [constructor|by left]|].
  apply Forall_app in Hcs as [_ [(t & Et & Ht) _]%Forall_cons].
  destruct h as [v cr l]. cbn [revs] in Et. apply last_Some in Et as [l' ->].
  rewrite map_app, concat_app in *. cbn [map concat] in *.
  rewrite closed_gen_snoc, app_nil_r, app_assoc in *. split; [|right; eauto].
  assert (upto c (t, None)) as Hu by (unfold upto; cbn; lia).
  apply Forall_app. split; [by eapply sorted_upto|by constructor].
Qed.

Lemma compact_result k m tl A T T' c cs g : tl = A ++ T -> Forall (upto c) A ->
  (A = [] \/ exists l t, A = l ++ [(t, None)] /\ Main t < c) ->
  StronglySorted before tl -> (forall e, last tl = Some e -> m = fst e) ->
  (exists pre, T = pre ++ T') -> trim c T = T' -> timeline_of cs g = T' ->
  Forall (fun g => revs g <> []) cs -> (revs g = [] -> ver g = 0) ->
  let ki := MkKeyIndex k m (cs ++ [g]) in
  ki_ok ki /\ timeline ki = trim c tl /\ kept c T = kept c tl /\
  (timeline ki = [] -> isEmpty ki = true).
Proof.
  intros -> HA Hl Hs Hm [pre ->] Et ET Hcs Hv ki.
  destruct (trim_skip c A (pre ++ T') HA Hl) as [-> ->].
  assert (timeline ki = T') as Ek by (unfold ki; by rewrite timeline_snoc).
  split; [|rewrite Ek; split; [done|]; split; [done|]].
  - split; [right; eauto|]. rewrite Ek, app_assoc in *. apply StronglySorted_app in Hs as (_ & _ & Hs).
    split; [done|]. intros e He. apply Hm. by rewrite last_app, He.
  - intros E0. rewrite E0 in ET. unfold timeline_of in ET. apply app_nil in ET as [E1 E2].
    assert (cs = []) as ->.
    { destruct (last_closeds cs Hcs) as [?|(l & t & E)]; [done|]. rewrite E in E1. by destruct l. }
    unfold opened in E2. unfold ki, isEmpty, gen_isEmpty. cbn. by destruct (revs g).
Qed.

(** The generation that a compaction cuts, the others after it, and what
    replacing it by a cut one makes of the timeline. *)
Lemma split_gens cs g c : Forall (fun g => revs g <> []) cs -> (revs g = [] -> ver g = 0) ->
  match cs with [] => True | h :: _ => exists t, last (revs h) = Some t /\ c <= Main t end ->
  exists cl h R rest, cs ++ [g] = h :: rest /\ timeline_of cs g = entries_of cl h ++ R /\
    (if cl then exists t, last (revs h) = Some t /\ c <= Main t else R = []) /\
    (cl = true <-> rest <> []) /\
    forall h', (revs h' = [] <-> revs h = []) -> (revs h = [] -> h' = h) ->
      exists cs' g', h' :: rest = cs' ++ [g'] /\ timeline_of cs' g' = entries_of cl h' ++ R /\
        Forall (fun g => revs g <> []) cs' /\ (revs g' = [] -> ver g' = 0).
Proof.
  intros Hcs Hv Hc. destruct cs as [|h cs].
  - exists false, g, [], []. split; [done|]. split; [unfold timeline_of; cbn; by rewrite app_nil_r|].
    split; [done|]. split; [done|]. intros h' Hi Hh. exists [], h'. split; [done|].
    split; [unfold timeline_of; cbn; by rewrite app_nil_r|]. split; [done|].
    intros E. pose proof (proj1 Hi E) as E'. rewrite (Hh E'). by apply Hv.
  - apply Forall_cons in Hcs as [Hh0 Hcs].
    exists true, h, (timeline_of cs g), (cs ++ [g]). split; [done|].
    split; [unfold timeline_of; cbn; by rewrite app_assoc|]. split; [done|].
    split; [split; [by destruct cs|done]|].
    intros h' Hi _. exists (h' :: cs), g. split; [done|].
    split; [unfold timeline_of; cbn; by rewrite app_assoc|]. split; [|done].
    constructor; [|done]. intros E. by apply Hh0, Hi.
Qed.

(** What [doCompact] finds: the generation with its position, the entry that
    is kept, and whether that is a deletion. *)
Lemma doCompact_spec ki c av : ki_ok ki -> timeline ki <> [] ->
  exists cs h rest n,
    generations ki = cs ++ h :: rest /\
    doCompact ki c av = Ret (length cs, n, kept_set c (timeline ki) ∪ av) /\
    (forall e, kept c (timeline ki) = Some e -> revs h !! Z.to_nat n = Some (fst e) /\
       (snd e = None <-> rest <> [] /\ n = Z.of_nat (length (revs h)) - 1)) /\
    (kept c (timeline ki) = None -> n = -1) /\
    let ki' := MkKeyIndex (ki_key ki) (modified ki) (cut_gen h n :: rest) in
    ki_ok ki' /\ timeline ki' = trim c (timeline ki) /\ (timeline ki' = [] -> isEmpty ki' = true).
Proof.
  intros (Hg & Hs & Hm) Hne. destruct ki as [k m gs]. cbn [generations ki_key modified] in *.
  destruct Hg as [->|(cs & g & -> & Hcs & Hv)]; [done|]. rewrite timeline_snoc in *.
  unfold doCompact. cbn [generations].
  destruct (compact_gens_spec cs g c Hcs) as (cs1 & cs2 & -> & -> & H1 & H2).
  rewrite ret_bind. apply Forall_app in Hcs as [_ Hcs2].
  assert (timeline_of (cs1 ++ cs2) g = concat (map closed cs1) ++ timeline_of cs2 g) as Etl.
  { unfold timeline_of. by rewrite map_app, concat_app, app_assoc. }
  rewrite Etl in *. pose proof Hs as (_ & Hs1 & Hs2)%StronglySorted_app.
  destruct (closeds_skip cs1 c Hs1 H1) as [HA Hl].
  destruct (split_gens cs2 g c Hcs2 Hv H2) as (cl & h & R & rest & E2 & ET & Hcl & Hrest & Hcut).
  rewrite <- app_assoc, E2, list_lookup_middle by done. rewrite ET in *.
  destruct (cut_gen_spec cl h R c Hs2 Hcl) as (Hpre & Etr & Ek & Hd & Hi & Hh).
  set (n := walk (fun r => negb (Main r <=? c)) h) in *.
  destruct (Hcut (cut_gen h n) Hi Hh) as (cs' & g' & E' & ET' & Hcs' & Hv').
  destruct (compact_result k m _ _ _ _ c cs' g' eq_refl HA Hl Hs Hm Hpre Etr ET' Hcs' Hv')
    as (Hok & Etl' & Ekept & Hem).
  exists cs1, h, rest, n. split; [done|]. rewrite Ek, <- Ekept in *.
  split; [|split; [|split]].
  - do 3 f_equal. unfold kept_set. rewrite <- Ekept. destruct (kept c (entries_of cl h ++ R)) as [e|].
    + apply (f_equal (.∪ av)). symmetry. apply list_to_set_singleton_L.
    + symmetry. apply union_empty_l_L.
  - intros e Ee. rewrite <- Hrest. split; [|by apply Hd]. rewrite Ee in Ek.
    destruct (n =? -1); [done|exact Ek].
  - intros En. rewrite En in Ek. destruct (Z.eqb_spec n (-1)) as [|Hn]; [done|].
    apply lookup_ge_None in Ek. pose proof (walk_bound (fun r => negb (Main r <=? c)) h) as Hb.
    fold n in Hb. lia.
  - rewrite E'. done.
Qed.

Lemma elem_of_kept_set c tl r : r ∈ kept_set c tl <-> exists o, kept c tl = Some (r, o).
Proof.
  unfold kept_set. rewrite elem_of_list_to_set. destruct (kept c tl) as [[r' o]|]; cbn.
  - rewrite list_elem_of_singleton. naive_solver.
  - rewrite elem_of_nil. naive_solver.
Qed.

Lemma compact_spec ki c av : ki_ok ki -> timeline ki <> [] ->
  exists ki', compact ki c av = Ret (ki', kept_set c (timeline ki) ∪ av) /\
    ki_key ki' = ki_key ki /\ ki_ok ki' /\ timeline ki' = trim c (timeline ki) /\
    (timeline ki' = [] -> isEmpty ki' = true).
Proof.
  intros Hok Hne. destruct (doCompact_spec ki c av Hok Hne) as (cs & h & rest & n & Eg & E & _ & _ & Hki).
  unfold compact. rewrite (not_isEmpty ki) by done. rewrite E, ret_bind, Eg, drop_app_length.
  eexists. split; [|split; [|exact Hki]]; [|done].
  do 3 f_equal. unfold cut_gen. by destruct (gen_isEmpty h || (n =? -1)).
Qed.

(** What is kept for a hash leaves the deletion at [c] out. *)
Lemma keep_spec ki c av : ki_ok ki -> timeline ki <> [] ->
  keep ki c av = Ret (match kept c (timeline ki) with
                      | Some (r, None) => av ∖ {[r]}
                      | Some (r, Some _) => {[r]} ∪ av
                      | None => av
                      end).
Proof.
  intros Hok Hne.
  destruct (doCompact_spec ki c av Hok Hne) as (cs & h & rest & n & Eg & E & Hk & Hn & _).
  unfold keep. rewrite (not_isEmpty ki) by done. rewrite E, ret_bind, Eg, list_lookup_middle by done.
  rewrite length_app. cbn [length]. unfold kept_set, gen_isEmpty.
  destruct (kept c (timeline ki)) as [[r o]|] eqn:Ek.
  - destruct (Hk _ eq_refl) as [Hr Ho]. cbn [fst snd] in *.
    destruct (revs h) as [|r0 l] eqn:Eh; [done|]. rewrite <- Eh in *. rewrite Hr.
    change (list_to_set (map fst (option_list (Some (r, o)))) : gset Revision) with ({[r]} ∪ ∅ : gset Revision).
    destruct o as [x|].
    + assert ((n =? Z.of_nat (length (revs h)) - 1) && negb (length cs =? length cs + S (length rest) - 1)%nat
        = false) as ->; [|].
      { apply not_true_iff_false. intros [Ha Hb]%andb_true_iff. apply Z.eqb_eq in Ha.
        apply negb_true_iff, Nat.eqb_neq in Hb. assert (Some x = None); [|done]. apply Ho.
        split; [|done]. intros ->. cbn in Hb. lia. }
      rewrite Eh. cbn [length Nat.eqb]. f_equal. by rewrite union_empty_r_L.
    + destruct (proj1 Ho eq_refl) as [Hrest ->]. rewrite Z.eqb_refl.
      destruct (Nat.eqb_spec (length cs) (length cs + S (length rest) - 1)) as [E'|_];
        [destruct rest; [done|cbn in E'; lia]|]. rewrite Eh. cbn [length Nat.eqb negb andb].
      f_equal. set_solver.
  - rewrite (Hn eq_refl). 
    change (list_to_set (map fst (option_list (@None entry))) : gset Revision) with (∅ : gset Revision).
    destruct (revs h) as [|r0 l]; cbn [length Nat.eqb]; [by rewrite union_empty_l_L|].
    rewrite (proj2 (Z.eqb_neq _ _)) by lia. cbn [andb]. by rewrite union_empty_l_L.
Qed.

(** The revisions of a timeline are those of the generations. *)
Lemma timeline_revs ki r : (exists g, g ∈ generations ki /\ r ∈ revs g) -> r ∈ map fst (timeline ki).
Proof.
  intros (g & Hg & Hr). unfold timeline.
  destruct (snoc_inv (generations ki)) as [E|(cs & g' & E)]; rewrite E in *;
    [by apply not_elem_of_nil in Hg|].
  rewrite last_snoc, removelast_last. unfold timeline_of. rewrite map_app, elem_of_app.
  apply elem_of_app in Hg as [Hg| ->%list_elem_of_singleton]; [left|right; by rewrite (entries_fst false)].
  clear E. induction cs as [|h cs IH]; [by apply not_elem_of_nil in Hg|].
  cbn [map concat]. rewrite map_app, elem_of_app. rewrite (entries_fst true).
  apply elem_of_cons in Hg as [->|Hg]; [by left|right; by apply IH].
Qed.

Lemma elem_of_trim c tl e : e ∈ trim c tl -> kept c tl = Some e \/ c < Main (fst e).
Proof.
  unfold trim. rewrite elem_of_app. intros [He|[Hu _]%list_elem_of_filter]; [left|right; unfold upto in Hu; lia].
  destruct (kept c tl) as [e'|]; [|by apply not_elem_of_nil in He].
  by apply list_elem_of_singleton in He as ->.
Qed.

End Timeline.
