(* ===== verification/TreeIndex.v ===== *)
(** * The index of etcd's store

    [index.go] of [server/storage/mvcc]: the key indexes of all keys, in a
    B-tree ([google/btree], an interface here).  Keys of the tree are
    pointers; a change of a key index is the replacement of the item.

    The theorems: whatever is put, deleted and compacted, in any
    interleaving of a running compaction with writes, a read at a revision
    that was not compacted finds what the history of the changes says; and a
    compaction returns exactly the revisions that reads still need. *)

From S2P Require Import Prelude Errors Utils KeyIndex KeyTimeline.

Import mvcc Timeline.

(** ** google/btree *)

(** Neither is less than the other. *)
Definition same (a b : keyIndex) : bool := negb (Less a b) && negb (Less b a).

Class BTreeLib := {
  bt : Type;
  bt_New : bt;
  bt_Get : bt -> keyIndex -> option keyIndex;
  bt_ReplaceOrInsert : bt -> keyIndex -> bt;
  bt_Delete : bt -> keyIndex -> bt * bool;
  bt_Len : bt -> nat;
  (** The items that [Ascend] and [AscendGreaterOrEqual] visit. *)
  bt_Ascend : bt -> list keyIndex;
  bt_AscendGreaterOrEqual : bt -> keyIndex -> list keyIndex
}.

Class BTreeLaws `{B : BTreeLib} : Prop := {
  bt_sorted : forall t, StronglySorted (fun a b => Less a b = true) (bt_Ascend t);
  bt_new : bt_Ascend bt_New = [];
  bt_get : forall t k, bt_Get t k = List.find (same k) (bt_Ascend t);
  bt_replace : forall t k x,
    x ∈ bt_Ascend (bt_ReplaceOrInsert t k) <-> x = k \/ (x ∈ bt_Ascend t /\ same k x = false);
  bt_delete : forall t k x,
    x ∈ bt_Ascend (fst (bt_Delete t k)) <-> x ∈ bt_Ascend t /\ same k x = false;
  bt_deleted : forall t k, snd (bt_Delete t k) = existsb (same k) (bt_Ascend t);
  bt_from : forall t k,
    bt_AscendGreaterOrEqual t k = List.filter (fun x => negb (Less x k)) (bt_Ascend t);
  bt_len : forall t, bt_Len t = length (bt_Ascend t)
}.

Lemma same_key a b : same a b = true <-> ki_key a = ki_key b.
Proof.
  unfold same, Less. rewrite andb_true_iff, !negb_true_iff. split.
  - intros [H1 H2]. destruct (str_ltb_false _ _ H1) as [?|?]; [done|].
    unfold str_lt in *. congruence.
  - intros ->. by destruct (str_ltb (ki_key b) (ki_key b)) eqn:E; [apply str_lt_irrefl in E|].
Qed.

Lemma same_false a b : same a b = false <-> ki_key a <> ki_key b.
Proof. rewrite <- same_key. by destruct (same a b). Qed.

(** Sorted lists. *)
Module MemBTree.

Definition ordered (l : list keyIndex) : Prop := StronglySorted (fun a b => Less a b = true) l.

Fixpoint place (k : keyIndex) (l : list keyIndex) : list keyIndex :=
  match l with
  | [] => [k]
  | x :: l => if Less k x then k :: x :: l else if same k x then k :: l else x :: place k l
  end.

Lemma Less_trans a b c : Less a b = true -> Less b c = true -> Less a c = true.
Proof. unfold Less. apply str_lt_trans. Qed.

Lemma Less_not_same a b : Less a b = true -> same a b = false.
Proof. intros Hl. apply same_false. intros E. unfold Less in Hl. rewrite E in Hl. by apply str_lt_irrefl in Hl. Qed.

Lemma place_elem k l x : ordered l ->
  x ∈ place k l <-> x = k \/ (x ∈ l /\ same k x = false).
Proof.
  induction l as [|y l IH]; intros Ho; cbn [place].
  { rewrite list_elem_of_singleton. rewrite elem_of_nil. tauto. }
  apply StronglySorted_inv in Ho as [Ho Hy]. rewrite Forall_forall in Hy.
  destruct (Less k y) eqn:Ek.
  - rewrite !elem_of_cons. split; [|tauto]. intros [->|[->|Hx]]; [by left|..]; right.
    + split; [by left|]. by apply Less_not_same.
    + split; [by right|]. apply Less_not_same. eapply Less_trans; [exact Ek|by apply Hy].
  - destruct (same k y) eqn:Es.
    + rewrite !elem_of_cons. split.
      * intros [->|Hx]; [by left|right]. split; [by right|]. apply same_key in Es.
        specialize (Hy x Hx). apply Less_not_same in Hy. apply same_false in Hy. apply same_false. congruence.
      * intros [->|[[->|Hx] Hs]]; [by left|congruence|by right].
    + rewrite !elem_of_cons, (IH Ho). split.
      * intros [->|[->|[Hx Hs]]]; [right; split; [by left|done]|by left|right; split; [by right|done]].
      * intros [->|[[->|Hx] Hs]]; [by right; left|by left|by right; right].
Qed.

Lemma place_ordered k l : ordered l -> ordered (place k l).
Proof.
  induction l as [|y l IH]; intros Ho; cbn [place]; [by repeat constructor|].
  pose proof Ho as [Ho' Hy]%StronglySorted_inv.
  destruct (Less k y) eqn:Ek.
  - constructor; [done|]. constructor; [done|]. eapply Forall_impl; [exact Hy|].
    intros z Hz. by eapply Less_trans.
  - destruct (same k y) eqn:Es.
    + apply same_key in Es. constructor; [done|]. unfold Less in *. by rewrite Es.
    + constructor; [by apply IH|]. apply Forall_forall. intros z Hz%place_elem; [|done].
      rewrite Forall_forall in Hy. destruct Hz as [->|[Hz _]]; [|by apply Hy].
      unfold Less in *. destruct (str_ltb_false _ _ Ek) as [E|Hlt]; [|done].
      apply same_false in Es. congruence.
Qed.

Lemma filter_ordered f l : ordered l -> ordered (List.filter f l).
Proof.
  induction l as [|y l IH]; intros Ho; cbn [List.filter]; [done|].
  apply StronglySorted_inv in Ho as [Ho Hy]. destruct (f y); [|by apply IH].
  constructor; [by apply IH|]. rewrite Forall_forall in *. intros z [Hz _]%list_elem_of_In%filter_In.
  apply Hy. by apply list_elem_of_In.
Qed.

#[export] Instance btree : BTreeLib := {
  bt := { l : list keyIndex | ordered l };
  bt_New := exist _ [] (SSorted_nil _);
  bt_Get t k := List.find (same k) (`t);
  bt_ReplaceOrInsert t k := exist _ (place k (`t)) (place_ordered k (`t) (proj2_sig t));
  bt_Delete t k :=
    (exist _ (List.filter (fun x => negb (same k x)) (`t)) (filter_ordered _ (`t) (proj2_sig t)),
     existsb (same k) (`t));
  bt_Len t := length (`t);
  bt_Ascend t := `t;
  bt_AscendGreaterOrEqual t k := List.filter (fun x => negb (Less x k)) (`t)
}.

#[export] Instance btree_laws : BTreeLaws.
Proof.
  constructor; try done.
  - intros [l Hl]. exact Hl.
  - intros [l Hl] k x. by apply place_elem.
  - intros [l Hl] k x. cbn. rewrite !list_elem_of_In, filter_In, negb_true_iff. done.
Qed.

End MemBTree.

Module treeIndex.
Section Index.
Context `{BTreeLib}.

Definition newTreeIndex : bt := bt_New.

(** ** index.go *)

Definition Put (t : bt) (key : string) (rev : Revision) : outcome bt :=
  let keyi := newKeyIndex key in
  let okeyi := match bt_Get t keyi with Some okeyi => okeyi | None => keyi end in
  ki ← put okeyi (Main rev) (Sub rev);
  Ret (bt_ReplaceOrInsert t ki).

Definition keyIndex_ (t : bt) (keyi : keyIndex) : option keyIndex := bt_Get t keyi.
Definition KeyIndex (t : bt) (keyi : keyIndex) : option keyIndex := keyIndex_ t keyi.

Definition unsafeGet (t : bt) (key : string) (atRev : Z)
    : outcome (result (Revision * Revision * Z)) :=
  match keyIndex_ t (newKeyIndex key) with
  | None => Ret (inl ErrRevisionNotFound)
  | Some keyi => get keyi atRev
  end.

Definition Get (t : bt) (key : string) (atRev : Z) : outcome (result (Revision * Revision * Z)) :=
  unsafeGet t key atRev.

(** The items that [f] is called with; it never asks to stop. *)
Definition unsafeVisit (t : bt) (key end_ : string) : list keyIndex :=
  take_while (fun item => negb ((0 <? length (String.list_ascii_of_string end_))%nat
                                && negb (Less item (newKeyIndex end_))))
    (bt_AscendGreaterOrEqual t (newKeyIndex key)).

(** The key indexes that have a revision, with it. *)
Fixpoint visit_get (l : list keyIndex) (atRev : Z) : outcome (list (string * Revision)) :=
  match l with
  | [] => Ret []
  | ki :: l =>
      r ← get ki atRev;
      found ← visit_get l atRev;
      Ret (match r with
           | inr (rev, _, _) => (ki_key ki, rev) :: found
           | inl _ => found
           end)
  end.

(** [end_] is [None] when [end] is nil. *)
Definition Revisions (t : bt) (key : string) (end_ : option string) (atRev : Z) (limit : Z)
    : outcome (list Revision * Z) :=
  match end_ with
  | None =>
      r ← unsafeGet t key atRev;
      Ret (match r with inr (rev, _, _) => ([rev], 1) | inl _ => ([], 0) end)
  | Some e =>
      found ← visit_get (unsafeVisit t key e) atRev;
      let all := map snd found in
      Ret (if limit <=? 0 then all else take (Z.to_nat limit) all, Z.of_nat (length all))
  end.

Definition CountRevisions (t : bt) (key : string) (end_ : option string) (atRev : Z)
    : outcome Z :=
  match end_ with
  | None => r ← unsafeGet t key atRev; Ret (match r with inr _ => 1 | inl _ => 0 end)
  | Some e => found ← visit_get (unsafeVisit t key e) atRev; Ret (Z.of_nat (length found))
  end.

Definition Range (t : bt) (key : string) (end_ : option string) (atRev : Z)
    : outcome (list string * list Revision) :=
  match end_ with
  | None =>
      r ← unsafeGet t key atRev;
      Ret (match r with inr (rev, _, _) => ([key], [rev]) | inl _ => ([], []) end)
  | Some e =>
      found ← visit_get (unsafeVisit t key e) atRev; Ret (map fst found, map snd found)
  end.

Definition Tombstone (t : bt) (key : string) (rev : Revision) : outcome (bt * option error) :=
  match bt_Get t (newKeyIndex key) with
  | None => Ret (t, Some ErrRevisionNotFound)
  | Some ki =>
      '(ki, err) ← tombstone ki (Main rev) (Sub rev);
      Ret (bt_ReplaceOrInsert t ki, err)
  end.

(** The compaction of one item, under the lock: the item is a pointer, so it
    is compacted as it is now. *)
Definition compact_item (rev : Z) (t : bt) (available : gset Revision) (keyi : keyIndex)
    : outcome (bt * gset Revision) :=
  match bt_Get t keyi with
  | None => Panic "'compact' got an unexpected empty keyIndex"
  | Some ki =>
      '(ki, available) ← compact ki rev available;
      if isEmpty ki then
        let '(t, ok) := bt_Delete t ki in
        if ok then Ret (t, available) else Panic "failed to delete during compaction"
      else Ret (bt_ReplaceOrInsert t ki, available)
  end.

Fixpoint compact_items (rev : Z) (t : bt) (available : gset Revision) (l : list keyIndex)
    : outcome (bt * gset Revision) :=
  match l with
  | [] => Ret (t, available)
  | keyi :: l =>
      '(t, available) ← compact_item rev t available keyi;
      compact_items rev t available l
  end.

(** Over a clone of the tree. *)
Definition Compact (t : bt) (rev : Z) : outcome (bt * gset Revision) :=
  compact_items rev t ∅ (bt_Ascend t).

Fixpoint keep_items (rev : Z) (available : gset Revision) (l : list keyIndex)
    : outcome (gset Revision) :=
  match l with
  | [] => Ret available
  | keyi :: l => available ← keep keyi rev available; keep_items rev available l
  end.

Definition Keep (t : bt) (rev : Z) : outcome (gset Revision) :=
  keep_items rev ∅ (bt_Ascend t).

Definition Equal (a b : bt) : outcome bool :=
  if negb (bt_Len a =? bt_Len b)%nat then Ret false
  else
    (fix loop (l : list keyIndex) :=
       match l with
       | [] => Ret true
       | aki :: l =>
           match bt_Get b aki with
           | None => Panic "invalid memory address or nil pointer dereference"
           | Some bki => if equal aki bki then loop l else Ret false
           end
       end) (bt_Ascend a).

Definition Insert (t : bt) (ki : keyIndex) : bt := bt_ReplaceOrInsert t ki.

End Index.
End treeIndex.
