(* ===== verification/IndexLog.v ===== *)
(** * The index against the history of changes

    A history is the list of the changes of keys in the order of their
    revisions; the state at a revision is the map that the changes up to it
    leave.  The theorems relate every read of the index to it. *)

From S2P Require Import Prelude Errors Utils KeyIndex KeyTimeline TreeIndex.

Module IndexLog.
Import mvcc Timeline treeIndex.

(** ** Histories *)

Inductive change : Type :=
  | CPut (k : string) (r : Revision)
  | CDel (k : string) (r : Revision).

Definition c_key (x : change) : string := match x with CPut k _ | CDel k _ => k end.
Definition c_rev (x : change) : Revision := match x with CPut _ r | CDel _ r => r end.

(** The revision of the last change of a key, the one that created it, and how
    often it was put since. *)
Abbreviation kstate := (Revision * Revision * Z)%type.

Definition apply_change (m : gmap string kstate) (x : change) : gmap string kstate :=
  match x with
  | CPut k r =>
      <[k := match m !! k with
             | Some (_, c, v) => (r, c, i64 (v + 1))
             | None => (r, r, 1)
             end]> m
  | CDel k _ => delete k m
  end.

Definition state_at (h : list change) (c : Z) : gmap string kstate :=
  fold_left apply_change (filter (fun x => Main (c_rev x) <= c) h) ∅.

(** *** The timeline of a key *)

Definition add_entry (k : string) (tl : list entry) (x : change) : list entry :=
  if decide (c_key x = k)
  then tl ++ [match x with CPut _ r => next tl r | CDel _ r => (r, None) end] else tl.

Definition key_timeline (k : string) (h : list change) : list entry :=
  fold_left (add_entry k) h [].

Lemma key_timeline_snoc k h x : key_timeline k (h ++ [x]) = add_entry k (key_timeline k h) x.
Proof. unfold key_timeline. by rewrite fold_left_app. Qed.

Lemma add_entry_other k tl x : c_key x <> k -> add_entry k tl x = tl.
Proof. intros. unfold add_entry. by rewrite decide_False. Qed.

Lemma key_timeline_from k h e : e ∈ key_timeline k h ->
  exists x, x ∈ h /\ c_key x = k /\ c_rev x = fst e /\ (snd e = None <-> x = CDel k (fst e)).
Proof.
  induction h as [|x h IH] using rev_ind; [by intros ?%not_elem_of_nil|].
  rewrite key_timeline_snoc. unfold add_entry. destruct (decide (c_key x = k)) as [Ek|Ek].
  - intros [He|He%list_elem_of_singleton]%elem_of_app.
    + destruct (IH He) as (y & Hy & Hs). exists y. split; [|done]. apply elem_of_app. by left.
    + exists x. split; [apply elem_of_app; right; by left|]. split; [done|]. subst e.
      destruct x as [k' r|k' r]; cbn in *; subst k'.
      * destruct (next_fst (key_timeline k h) r) as [-> Hn]. by split.
      * done.
  - intros He. destruct (IH He) as (y & Hy & Hs). exists y. split; [|done].
    apply elem_of_app. by left.
Qed.

(** The revisions of a history follow each other, and a key is not changed any
    more in the revision that deletes it. *)
Definition comes_before (x y : change) : Prop :=
  rev_lt (c_rev x) (c_rev y) /\ (x = CDel (c_key y) (c_rev x) -> Main (c_rev x) < Main (c_rev y)).

Definition ordered (h : list change) : Prop := StronglySorted comes_before h.

Lemma ordered_snoc h x : ordered (h ++ [x]) -> ordered h /\ forall y, y ∈ h -> comes_before y x.
Proof.
  intros (Hs & Ho & _)%StronglySorted_app. split; [done|]. intros y Hy. apply Hs; [done|by left].
Qed.

(** A revision changes one key. *)
Lemma ordered_rev h x y : ordered h -> x ∈ h -> y ∈ h -> c_rev x = c_rev y -> x = y.
Proof.
  intros Ho. induction Ho as [|z h Ho IH Hz]; [by intros ?%not_elem_of_nil|].
  rewrite Forall_forall in Hz.
  assert (forall w, w ∈ h -> c_rev z <> c_rev w) as Hn.
  { intros w Hw E. destruct (Hz w Hw) as [Hlt _]. apply rev_lt_spec in Hlt. rewrite E in Hlt. lia. }
  intros [->|Hx]%elem_of_cons [->|Hy]%elem_of_cons E; [done|..|by apply IH].
  - by destruct (Hn y Hy).
  - by destruct (Hn x Hx).
Qed.

Lemma read_timeline k h c : ordered h -> read (key_timeline k h) c = state_at h c !! k.
Proof.
  induction h as [|x h IH] using rev_ind; intros Ho; [done|].
  apply ordered_snoc in Ho as [Ho Hx]. specialize (IH Ho).
  rewrite key_timeline_snoc. unfold state_at in *. rewrite filter_app, fold_left_app.
  destruct (decide (Main (c_rev x) <= c)) as [Hc|Hc].
  - rewrite (filter_cons_True _ x []) by done. cbn [fold_left filter].
    rewrite filter_nil. cbn [fold_left].
    assert (Forall (upto c) (key_timeline k h)) as Hall.
    { apply Forall_forall. intros e (y & Hy & _ & Er & _)%key_timeline_from.
      destruct (Hx y Hy) as [Hlt%rev_lt_spec _]. unfold upto. rewrite <- Er. lia. }
    assert (at_rev (key_timeline k h) c = last (key_timeline k h)) as El
      by (unfold at_rev; by rewrite filter_all).
    unfold add_entry. destruct (decide (c_key x = k)) as [Ek|Ek].
    + unfold read, at_rev. rewrite last_filter_mid; [| |constructor].
      * unfold read in IH. rewrite El in IH. destruct x as [k' r|k' r]; cbn in *; subst k'.
        -- rewrite lookup_insert_eq. unfold next. rewrite <- IH.
           by destruct (last (key_timeline k h)) as [[? [[]|]]|].
        -- by rewrite lookup_delete_eq.
      * unfold upto. destruct x as [k' r|k' r]; cbn in *; [|done].
        by destruct (next_fst (key_timeline k h) r) as [-> _].
    + rewrite IH. destruct x as [k' r|k' r]; cbn in *.
      * by rewrite lookup_insert_ne.
      * by rewrite lookup_delete_ne.
  - rewrite (filter_cons_False _ x []) by done. rewrite filter_nil. cbn [fold_left].
    rewrite <- IH. unfold add_entry. destruct (decide (c_key x = k)) as [Ek|Ek]; [|done].
    unfold read. rewrite at_rev_skip; [done|]. repeat constructor. unfold upto.
    destruct x as [k' r|k' r]; cbn in *; [|done].
    by destruct (next_fst (key_timeline k h) r) as [-> _].
Qed.

(** ** A compacted timeline *)

(** [tl] is what is left of [full] after compactions up to [lvl]: an end of
    it, which only lacks a deletion when it is empty, and answers every read
    from [lvl] on. *)
Definition remains (lvl : Z) (tl full : list entry) : Prop :=
  (exists pre, full = pre ++ tl) /\
  (tl = [] -> forall r x, last full <> Some (r, Some x)) /\
  forall c, lvl <= c -> kept c tl = kept c full.

Lemma read_kept tl c : read tl c =
  match kept c tl with Some (r, Some (cr, v)) => Some (r, cr, v) | _ => None end.
Proof.
  unfold read, kept. destruct (at_rev tl c) as [[r [[cr v]|]]|]; [|by case_decide|done].
  rewrite decide_False; [done|]. by intros [? _].
Qed.

Lemma remains_refl lvl tl : remains lvl tl tl.
Proof. split; [by exists []|]. split; [|done]. by intros ->. Qed.

Lemma remains_read lvl tl full c : remains lvl tl full -> lvl <= c -> read tl c = read full c.
Proof. intros (_ & _ & Hk) Hc. by rewrite !read_kept, Hk. Qed.

Lemma remains_last lvl tl full : remains lvl tl full ->
  last tl = last full \/ (tl = [] /\ forall r x, last full <> Some (r, Some x)).
Proof.
  intros ([pre ->] & Hl & _). destruct (snoc_inv tl) as [->|(tl' & e & ->)].
  - right. split; [done|]. by apply Hl.
  - left. by rewrite app_assoc, !last_snoc.
Qed.

Lemma remains_next lvl tl full r : remains lvl tl full -> next tl r = next full r.
Proof.
  intros [E|[-> Hl]]%remains_last; unfold next; [by rewrite E|].
  cbn. destruct (last full) as [[r' [[cr v]|]]|] eqn:E; try done. by destruct (Hl r' (cr, v)).
Qed.

Lemma kept_snoc c tl e : kept c (tl ++ [e]) =
  if decide (upto c e) then kept c [e] else kept c tl.
Proof.
  unfold kept. destruct (decide (upto c e)) as [He|He].
  - unfold at_rev. by rewrite filter_app, !(filter_cons_True _ e []), filter_nil, last_snoc.
  - by rewrite at_rev_skip by (by repeat constructor).
Qed.

Lemma remains_snoc lvl tl full e : remains lvl tl full -> remains lvl (tl ++ [e]) (full ++ [e]).
Proof.
  intros ([pre ->] & _ & Hk). split; [exists pre; by rewrite app_assoc|].
  split; [by destruct tl|]. intros c Hc. rewrite !kept_snoc. by rewrite Hk.
Qed.

Lemma last_filter_later c c' tl : c <= c' ->
  StronglySorted before tl ->
  at_rev tl c' = match last (filter (upto c') (filter (fun e => ~ upto c e) tl)) with
                 | Some e => Some e
                 | None => at_rev tl c
                 end.
Proof.
  intros Hc. induction tl as [|e tl IH] using rev_ind; intros Hs; [done|].
  apply StronglySorted_app in Hs as (Hb & Hs & _). specialize (IH Hs).
  destruct (decide (upto c e)) as [He|He].
  - assert (Forall (upto c) tl) as Htl.
    { apply Forall_forall. intros x Hx. specialize (Hb x e Hx (list_elem_of_here _ _)).
      apply before_Main in Hb. unfold upto in *. lia. }
    assert (upto c' e) as He' by (unfold upto in *; lia).
    rewrite (filter_none (fun e => ~ upto c e)); [|apply Forall_app; split].
    + cbn. unfold at_rev. by rewrite !last_filter_mid.
    + eapply Forall_impl; [exact Htl|]. tauto.
    + repeat constructor. tauto.
  - rewrite filter_app, (filter_cons_True (fun e => ~ upto c e) e []), filter_nil, filter_app by done.
    destruct (decide (upto c' e)) as [He'|He'].
    + rewrite (filter_cons_True (upto c') e []), filter_nil, last_snoc by done.
      unfold at_rev. by rewrite last_filter_mid.
    + rewrite (filter_cons_False (upto c') e []), filter_nil, app_nil_r by done.
      rewrite !at_rev_skip by (by repeat constructor). exact IH.
Qed.

Lemma kept_trim c c' tl : c <= c' -> StronglySorted before tl -> kept c' (trim c tl) = kept c' tl.
Proof.
  intros Hc Hs. unfold kept at 1 2. rewrite (last_filter_later c c' tl Hc Hs).
  set (later := filter (fun e => ~ upto c e) tl). unfold trim, at_rev at 1. fold later.
  rewrite filter_app, last_app.
  destruct (last (filter (upto c') later)) as [e|]; [done|].
  unfold kept. destruct (at_rev tl c) as [e|] eqn:Ee; [|done].
  assert (upto c e) as He.
  { unfold at_rev in Ee. apply last_Some in Ee as [l E].
    assert (e ∈ filter (upto c) tl) as Hin by (rewrite E; apply elem_of_app; right; by left).
    by apply list_elem_of_filter in Hin as [? _]. }
  destruct (decide (snd e = None /\ Main (fst e) < c)) as [[E1 E2]|Hn]; cbn [option_list].
  - rewrite decide_True; [done|]. split; [done|lia].
  - change (option_list (Some e)) with [e]. rewrite filter_cons_True, filter_nil by (unfold upto in *; lia). done.
Qed.

Lemma trim_suffix c tl : StronglySorted before tl -> exists pre, tl = pre ++ trim c tl.
Proof.
  intros Hs. assert (tl = filter (upto c) tl ++ filter (fun e => ~ upto c e) tl) as E.
  { induction tl as [|e tl IH]; [done|]. pose proof Hs as [Hs' He]%StronglySorted_inv.
    destruct (decide (upto c e)) as [Hu|Hu].
    - rewrite filter_cons_True, filter_cons_False by tauto. cbn. f_equal. by apply IH.
    - pose proof (sorted_later e tl c Hs Hu) as Hl. rewrite (filter_none (upto c) _ Hl).
      by rewrite filter_all. }
  unfold trim, kept, at_rev. destruct (snoc_inv (filter (upto c) tl)) as [E0|(l & e & E0)];
    rewrite E0 in *; cbn [last].
  - by exists [].
  - rewrite last_snoc. case_decide; [exists (l ++ [e]); exact E|].
    exists l. etransitivity; [exact E|]. by rewrite <- app_assoc.
Qed.

Lemma remains_trim lvl c tl full : remains lvl tl full -> lvl <= c -> StronglySorted before tl ->
  remains c (trim c tl) full.
Proof.
  intros Hr Hc Hs. pose proof Hr as ([pre E] & Hl & Hk).
  destruct (trim_suffix c tl Hs) as [pre' E']. split; [|split].
  - exists (pre ++ pre'). by rewrite <- app_assoc, <- E'.
  - intros E0 r x Hlast. destruct (remains_last _ _ _ Hr) as [El|[-> Hn]]; [|by eapply Hn].
    rewrite E0, app_nil_r in E'. unfold trim in E0. apply app_nil in E0 as [E1 E2].
    rewrite <- El in Hlast. apply last_Some in Hlast as [l ->].
    assert (upto c (r, Some x)) as Hu.
    { destruct (decide (upto c (r, Some x))) as [?|Hn]; [done|].
      rewrite filter_app, filter_cons_True in E2 by done. by destruct (filter _ l). }
    rewrite kept_snoc, decide_True in E1 by done. unfold kept, at_rev in E1.
    rewrite filter_cons_True, filter_nil in E1 by done. cbn [last] in E1.
    rewrite decide_False in E1; [done|]. by intros [? _].
  - intros c' Hc'. rewrite kept_trim by done. apply Hk. lia.
Qed.

(** ** Timelines that differ in the creating revisions *)

(** An index that was read back from the file knows a creating revision only
    up to [R]. *)
Section Like.
Context (R : Revision -> Revision -> Prop) `{!Reflexive R}.

Definition alike (e e' : entry) : Prop :=
  fst e = fst e' /\ option_Forall2 (fun p q => R (fst p) (fst q) /\ snd p = snd q) (snd e) (snd e').

Definition like (tl tl' : list entry) : Prop := Forall2 alike tl tl'.

Lemma alike_refl e : alike e e.
Proof. destruct e as [r [[cr v]|]]; split; by repeat constructor. Qed.

Lemma like_refl tl : like tl tl.
Proof. induction tl; constructor; [apply alike_refl|done]. Qed.

Lemma alike_None e e' : alike e e' -> snd e = None <-> snd e' = None.
Proof. intros [_ Hs]. by inversion Hs. Qed.

Lemma alike_before a a' b b' : alike a a' -> alike b b' -> before a b -> before a' b'.
Proof.
  unfold before. intros Ha Hb. pose proof (alike_None _ _ Ha) as Hn.
  destruct Ha as [-> _], Hb as [-> _]. by rewrite Hn.
Qed.

Lemma like_sorted tl tl' : like tl tl' -> StronglySorted before tl -> StronglySorted before tl'.
Proof.
  induction 1 as [|e e' tl tl' He Hl IH]; intros Hs; [constructor|].
  apply StronglySorted_inv in Hs as [Hs Hb]. constructor; [by apply IH|].
  clear IH Hs. induction Hl as [|x x' tl tl' Hx Hl IH]; [constructor|].
  apply Forall_cons in Hb as [Hb1 Hb]. constructor; [by eapply alike_before|by apply IH].
Qed.

Lemma like_filter (P : entry -> Prop) `{forall x, Decision (P x)} tl tl' :
  (forall e e', alike e e' -> P e <-> P e') -> like tl tl' -> like (filter P tl) (filter P tl').
Proof.
  intros HP. induction 1 as [|e e' tl tl' He Hl IH]; [constructor|].
  destruct (decide (P e)) as [Hp|Hp]; pose proof Hp as Hp'; rewrite (HP e e' He) in Hp'.
  - rewrite !filter_cons_True by done. by constructor.
  - by rewrite !filter_cons_False.
Qed.

Lemma like_last tl tl' : like tl tl' -> option_Forall2 alike (last tl) (last tl').
Proof.
  intros Hl. destruct (snoc_inv tl) as [->|(l & e & ->)].
  - inversion Hl. constructor.
  - apply Forall2_app_inv_l in Hl as (l1 & l2 & _ & He & ->).
    apply Forall2_cons_inv_l in He as (e' & l3 & He & Hn & ->). inversion Hn. subst.
    rewrite !last_snoc. by constructor.
Qed.

Lemma alike_upto c e e' : alike e e' -> upto c e <-> upto c e'.
Proof. intros [E _]. unfold upto. by rewrite E. Qed.

Lemma like_at_rev c tl tl' : like tl tl' -> option_Forall2 alike (at_rev tl c) (at_rev tl' c).
Proof. intros Hl. apply like_last, like_filter; [intros ? ?; apply alike_upto|done]. Qed.

Lemma like_kept c tl tl' : like tl tl' -> option_Forall2 alike (kept c tl) (kept c tl').
Proof.
  intros Hl%(like_at_rev c). unfold kept. inversion Hl as [e e' He|]; [|constructor].
  pose proof (alike_None _ _ He) as Hn. pose proof He as [Ef _].
  case_decide as H1; case_decide as H2; rewrite ?Hn, ?Ef in H1; try done; by constructor.
Qed.

Lemma like_trim c tl tl' : like tl tl' -> like (trim c tl) (trim c tl').
Proof.
  intros Hl. unfold trim. apply Forall2_app.
  - destruct (like_kept c _ _ Hl); [by apply Forall2_cons|]; apply Forall2_nil; done.
  - apply like_filter; [|done]. intros e e' He. by rewrite (alike_upto c e e' He).
Qed.

Lemma like_next tl tl' r : like tl tl' -> alike (next tl r) (next tl' r).
Proof.
  intros Hl%like_last. unfold next. destruct Hl as [[r1 o] [r1' o'] [_ Ho]|]; [|apply alike_refl].
  cbn in Ho. destruct Ho as [[cr v] [cr' v'] [Hc Hv]|]; [|apply alike_refl].
  cbn in *. subst. split; [done|]. by constructor.
Qed.

(** What a read finds, up to the creating revision. *)
Definition same_state (x y : kstate) : Prop :=
  fst (fst x) = fst (fst y) /\ R (snd (fst x)) (snd (fst y)) /\ snd x = snd y.

Lemma like_read c tl tl' : like tl tl' -> option_Forall2 same_state (read tl c) (read tl' c).
Proof.
  intros Hl%(like_at_rev c). unfold read. destruct Hl as [[r o] [r' o'] [Er Ho]|]; [|constructor].
  cbn in *. subst r'. destruct Ho as [[cr v] [cr' v'] [Hc Hv]|]; [|constructor].
  cbn in *. subst. by constructor.
Qed.

Lemma like_nil tl tl' : like tl tl' -> tl = [] <-> tl' = [].
Proof. by destruct 1. Qed.

End Like.

(** ** The tree *)

Section Index.
Context `{BTreeLaws} (R : Revision -> Revision -> Prop) `{!Reflexive R}.
Implicit Types (t : bt) (k : string) (ki : keyIndex) (h : list change).

Definition item t k : option keyIndex := bt_Get t (newKeyIndex k).

Lemma item_Some t k ki : item t k = Some ki <-> ki ∈ bt_Ascend t /\ ki_key ki = k.
Proof.
  unfold item. rewrite bt_get. pose proof (bt_sorted t) as Hs. split.
  - intros [Hin Hk]%find_some. apply list_elem_of_In in Hin. apply same_key in Hk. by split.
  - intros [Hin Hk]. induction (bt_Ascend t) as [|x l IH]; [by apply not_elem_of_nil in Hin|].
    apply StronglySorted_inv in Hs as [Hs Hx]. cbn [find].
    apply elem_of_cons in Hin as [<-|Hin].
    + assert (same (newKeyIndex k) ki = true) as -> by (apply same_key; by rewrite Hk). done.
    + assert (same (newKeyIndex k) x = false) as ->; [|by apply IH].
      apply same_false. cbn. rewrite Forall_forall in Hx. specialize (Hx ki Hin).
      intros E. unfold Less in Hx. rewrite <- E, Hk in Hx. by apply str_lt_irrefl in Hx.
Qed.

Lemma item_None t k : item t k = None <-> forall ki, ki ∈ bt_Ascend t -> ki_key ki <> k.
Proof.
  split.
  - intros E ki Hin Hk. assert (item t k = Some ki) by (by apply item_Some). congruence.
  - intros Hn. destruct (item t k) as [ki|] eqn:E; [|done].
    apply item_Some in E as [Hin Hk]. by destruct (Hn ki).
Qed.

Lemma item_eq t t' k : (forall ki, ki_key ki = k -> ki ∈ bt_Ascend t' <-> ki ∈ bt_Ascend t) ->
  item t' k = item t k.
Proof.
  intros Heq. destruct (item t k) as [ki|] eqn:E.
  - apply item_Some in E as [Hin Hk]. apply item_Some. split; [by apply Heq|done].
  - rewrite item_None in *. intros ki Hin Hk. apply (E ki); [by apply Heq|done].
Qed.

Lemma item_replace t ki k : item (bt_ReplaceOrInsert t ki) k
  = if decide (ki_key ki = k) then Some ki else item t k.
Proof.
  case_decide as Hk.
  - apply item_Some. split; [|done]. apply bt_replace. by left.
  - apply item_eq. intros x Hx. rewrite bt_replace. split.
    + intros [->|[? _]]; done.
    + intros Hin. right. split; [done|]. apply same_false. congruence.
Qed.

Lemma item_delete t ki k : item (fst (bt_Delete t ki)) k
  = if decide (ki_key ki = k) then None else item t k.
Proof.
  case_decide as Hk.
  - apply item_None. intros x [_ Hs]%bt_delete. apply same_false in Hs. congruence.
  - apply item_eq. intros x Hx. rewrite bt_delete. split; [tauto|].
    intros Hin. split; [done|]. apply same_false. congruence.
Qed.

(** ** The operations, and what they mean for the history *)

Inductive op : Type :=
  | OPut (k : string) (r : Revision)
  | OTombstone (k : string) (r : Revision)
  (** The step of a running compaction for a key. *)
  | OCompact (k : string) (c : Z).

Definition step t (o : op) : outcome (bt * option error) :=
  match o with
  | OPut k r => t ← Put t k r; Ret (t, None)
  | OTombstone k r => Tombstone t k r
  | OCompact k c =>
      match item t k with
      | None => Ret (t, None)
      | Some ki => '(t, _) ← compact_item c t ∅ ki; Ret (t, None)
      end
  end.

(** The changes so far, the last revision, and the revision up to which keys
    were compacted. *)
Record log := MkLog {
  hist : list change;
  lastRev : Revision;
  lvl : Z
}.

Definition exists_now (l : log) (k : string) : bool :=
  bool_decide (is_Some (state_at (hist l) (Main (lastRev l)) !! k)).

Definition spec_step (l : log) (o : op) : log * option error :=
  match o with
  | OPut k r => (MkLog (hist l ++ [CPut k r]) r (lvl l), None)
  | OTombstone k r =>
      if exists_now l k then (MkLog (hist l ++ [CDel k r]) r (lvl l), None)
      else (l, Some ErrRevisionNotFound)
  | OCompact k c => (MkLog (hist l) (lastRev l) c, None)
  end.

(** Changes come at increasing revisions, later than what is compacted, and a
    key does not change any more in the revision that deletes it; what is
    compacted has happened. *)
Definition legal_op (l : log) (o : op) : Prop :=
  match o with
  | OPut k r | OTombstone k r =>
      rev_lt (lastRev l) r /\ lvl l < Main r /\
      forall r', CDel k r' ∈ hist l -> Main r' < Main r
  | OCompact _ c => lvl l <= c <= Main (lastRev l)
  end.

Fixpoint legal (l : log) (ops : list op) : Prop :=
  match ops with
  | [] => True
  | o :: ops => legal_op l o /\ legal (fst (spec_step l o)) ops
  end.

Fixpoint spec_run (l : log) (ops : list op) : log * list (option error) :=
  match ops with
  | [] => (l, [])
  | o :: ops =>
      let '(l, r) := spec_step l o in
      let '(l, rs) := spec_run l ops in (l, r :: rs)
  end.

(** ** The invariant *)

Definition item_ok (l : log) (k : string) (o : option keyIndex) : Prop :=
  match o with
  | Some ki => ki_key ki = k /\ ki_ok ki /\ timeline ki <> [] /\
      exists tl, like R (timeline ki) tl /\ remains (lvl l) tl (key_timeline k (hist l))
  | None => remains (lvl l) [] (key_timeline k (hist l))
  end.

Definition rep t (l : log) : Prop :=
  ordered (hist l) /\ (forall x, x ∈ hist l -> c_rev x = lastRev l \/ rev_lt (c_rev x) (lastRev l)) /\
  (lastRev l = MkRev 0 0 \/ rev_lt (MkRev 0 0) (lastRev l)) /\
  forall k, item_ok l k (item t k).

Definition empty_log : log := MkLog [] (MkRev 0 0) 0.

Lemma rep_new : rep bt_New empty_log.
Proof.
  split; [constructor|]. split; [by intros x ?%not_elem_of_nil|]. split; [by left|].
  intros k. assert (item bt_New k = None) as ->; [|apply remains_refl].
  apply item_None. rewrite bt_new. by intros ki ?%not_elem_of_nil.
Qed.

Lemma rev_lt_trans a b c : rev_lt a b -> rev_lt b c -> rev_lt a c.
Proof. rewrite !rev_lt_spec. lia. Qed.

Lemma remains_mono lvl lvl' tl full : lvl <= lvl' -> remains lvl tl full -> remains lvl' tl full.
Proof. intros Hl (Hp & He & Hk). split; [done|]. split; [done|]. intros c Hc. apply Hk. lia. Qed.

Lemma rep_bound t l k e : rep t l -> e ∈ key_timeline k (hist l) ->
  fst e = lastRev l \/ rev_lt (fst e) (lastRev l).
Proof.
  intros (_ & Hb & _) (x & Hx & _ & <- & _)%key_timeline_from. by apply Hb.
Qed.

(** What exists now is what the timeline ends with. *)
Lemma exists_last t l k : rep t l ->
  exists_now l k = true <-> exists r x, last (key_timeline k (hist l)) = Some (r, Some x).
Proof.
  intros Hr. pose proof Hr as (Ho & _). unfold exists_now.
  rewrite bool_decide_eq_true, <- read_timeline by done. unfold read, at_rev.
  rewrite filter_all.
  - destruct (last (key_timeline k (hist l))) as [[r [[cr v]|]]|]; split;
      try (intros [? ?]; done); try (intros (? & ? & ?); done); eauto.
  - apply Forall_forall. intros e He.
    destruct (rep_bound t l k e Hr He) as [E|E%rev_lt_spec]; unfold upto; [rewrite E|]; lia.
Qed.

(** A change that may come next may follow the timeline of its key. *)
Lemma rep_follows t l k r ki tl : rep t l -> legal_op l (OPut k r) -> ki_ok ki ->
  (timeline ki = [] -> modified ki = MkRev 0 0) ->
  like R (timeline ki) tl -> (exists pre, key_timeline k (hist l) = pre ++ tl) ->
  follows (timeline ki) (modified ki) r.
Proof.
  intros Hr (Hlt & _ & Hdel) (_ & _ & Hm) Hem Hlk [pre E].
  assert (forall e, last (timeline ki) = Some e -> exists e', alike R e e' /\ e' ∈ key_timeline k (hist l)) as Hin.
  { intros e Ee. pose proof (like_last _ _ _ Hlk) as Hl. rewrite Ee in Hl. inversion Hl as [? e' He Ee' Ee2|].
    exists e'. split; [done|]. symmetry in Ee2. apply last_Some in Ee2 as [l' El].
    rewrite E, El. apply elem_of_app. right. apply elem_of_app. right. by left. }
  split.
  - destruct (snoc_inv (timeline ki)) as [E0|(tl0 & e & E0)].
    + rewrite (Hem E0). destruct Hr as (_ & _ & [Hz|Hz] & _); [by rewrite <- Hz|].
      by eapply rev_lt_trans.
    + assert (last (timeline ki) = Some e) as El by (rewrite E0; apply last_snoc).
      rewrite (Hm e El). destruct (Hin e El) as (e' & [-> _] & He').
      destruct (rep_bound t l k e' Hr He') as [-> |Hb]; [done|]. by eapply rev_lt_trans.
  - intros t' El. apply Hdel. apply Hin in El as (e' & Ha & (x & Hx & _ & _ & Hd)%key_timeline_from).
    pose proof Ha as [Ef _]. apply alike_None in Ha. cbn in *. rewrite <- Ef in Hd.
    by rewrite <- (proj1 Hd (proj1 Ha eq_refl)).
Qed.

(** The history grows by a change. *)
Lemma rep_change t t' l x ki : rep t l -> rev_lt (lastRev l) (c_rev x) ->
  (forall r, CDel (c_key x) r ∈ hist l -> Main r < Main (c_rev x)) ->
  (forall k, c_key x <> k -> item t' k = item t k) ->
  item_ok (MkLog (hist l ++ [x]) (c_rev x) (lvl l)) (c_key x) (Some ki) ->
  item t' (c_key x) = Some ki ->
  rep t' (MkLog (hist l ++ [x]) (c_rev x) (lvl l)).
Proof.
  intros (Ho & Hb & Hz & Hi) Hlt Hdel Hother Hki Hitem. split; [|split; [|split]]; cbn [hist lastRev lvl].
  - apply StronglySorted_app. split; [|split; [done|repeat constructor]].
    intros y z Hy ->%list_elem_of_singleton. split.
    + destruct (Hb y Hy) as [-> |Hy']; [done|]. by eapply rev_lt_trans.
    + intros E. apply Hdel. by rewrite <- E.
  - intros y [Hy| ->%list_elem_of_singleton]%elem_of_app; [right|by left].
    destruct (Hb y Hy) as [-> |Hy']; [done|]. by eapply rev_lt_trans.
  - right. destruct Hz as [<- |Hz]; [done|]. by eapply rev_lt_trans.
  - intros k. destruct (decide (c_key x = k)) as [<-|Hk]; [by rewrite Hitem|].
    rewrite Hother by done. specialize (Hi k). unfold item_ok in *. cbn [hist lvl] in *.
    by rewrite key_timeline_snoc, add_entry_other.
Qed.

Lemma rep_ext t t' l : (forall k, item t' k = item t k) -> rep t l -> rep t' l.
Proof.
  intros Hi (Ho & Hb & Hz & Hk). do 3 (split; [done|]). intros k. by rewrite Hi.
Qed.

Lemma put_step t l k r : rep t l -> legal_op l (OPut k r) ->
  exists t', Put t k r = Ret t' /\ rep t' (MkLog (hist l ++ [CPut k r]) r (lvl l)).
Proof.
  intros Hr Hlegal. pose proof Hr as (_ & _ & _ & Hi). specialize (Hi k). unfold Put. fold (item t k).
  assert (exists ki, match item t k with Some ki => ki | None => newKeyIndex k end = ki /\
    ki_key ki = k /\ ki_ok ki /\ (timeline ki = [] -> modified ki = MkRev 0 0) /\
    exists tl, like R (timeline ki) tl /\ remains (lvl l) tl (key_timeline k (hist l)))
    as (ki & -> & Hk & Hok & Hem & tl & Hlk & Hrem).
  { destruct (item t k) as [ki|]; cbn [item_ok] in Hi.
    - destruct Hi as (? & ? & ? & ?). by exists ki.
    - exists (newKeyIndex k). split; [done|]. split; [done|].
      split; [split; [by left|split; [constructor|done]]|]. split; [done|]. exists []. by split; [constructor|]. }
  pose proof Hrem as (Hpre & _).
  destruct (put_spec ki (Main r) (Sub r) Hok) as (ki' & -> & Hk' & Hok' & Et & _).
  { destruct r. by eapply rep_follows. }
  rewrite ret_bind. eexists. split; [reflexivity|].
  replace (MkRev (Main r) (Sub r)) with r in Et by (by destruct r).
  apply (rep_change t _ l (CPut k r) ki' Hr); cbn [c_key c_rev].
  - apply Hlegal.
  - apply Hlegal.
  - intros k' Hn. rewrite item_replace, decide_False; [done|]. congruence.
  - cbn [item_ok hist lvl]. split; [congruence|]. split; [done|].
    split; [rewrite Et; by destruct (timeline ki)|].
    exists (tl ++ [next tl r]). rewrite Et, key_timeline_snoc. unfold add_entry. rewrite decide_True by done.
    rewrite <- (remains_next _ _ _ r Hrem). split; [|by apply remains_snoc].
    apply Forall2_app; [done|]. constructor; [by apply like_next|constructor].
  - rewrite item_replace, decide_True; [done|]. congruence.
Qed.

Lemma tombstone_step t l k r : rep t l -> legal_op l (OTombstone k r) ->
  exists t', Tombstone t k r = Ret (t', snd (spec_step l (OTombstone k r))) /\
    rep t' (fst (spec_step l (OTombstone k r))).
Proof.
  intros Hr Hlegal. pose proof Hr as (_ & _ & _ & Hi). specialize (Hi k). cbn [spec_step].
  pose proof (exists_last t l k Hr) as Hex. unfold Tombstone. fold (item t k).
  destruct (item t k) as [ki|] eqn:Ei; cbn [item_ok] in Hi.
  - destruct Hi as (Hk & Hok & Hne & tl & Hlk & Hrem). pose proof Hrem as (Hpre & _).
    assert (option_Forall2 (alike R) (last (timeline ki)) (last (key_timeline k (hist l)))) as El.
    { destruct (remains_last _ _ _ Hrem) as [<-|[E _]]; [by apply like_last|].
      by apply (like_nil _ _ _ Hlk) in E. }
    destruct (tombstone_spec ki (Main r) (Sub r) Hok) as [[[t' Et] ->]|[(x & Ex & Hx) (ki' & -> & Hk' & Hok' & Et)]].
    + destruct r. by eapply rep_follows.
    + done.
    + rewrite ret_bind. destruct (exists_now l k).
      { destruct (proj1 Hex eq_refl) as (? & ? & E). rewrite Et, E in El. inversion El as [? ? Ha|].
        by apply alike_None, proj1 in Ha; specialize (Ha eq_refl). }
      eexists. split; [reflexivity|]. apply (rep_ext t); [|done]. intros k'.
      rewrite item_replace. case_decide as E; [|done]. by rewrite <- E, Hk, Ei.
    + rewrite ret_bind. replace (MkRev (Main r) (Sub r)) with r in Et by (by destruct r).
      assert (exists_now l k = true) as ->.
      { apply Hex. rewrite Ex in El. inversion El as [? [r' [y|]] Ha|]; [eauto|].
        by apply alike_None, proj2 in Ha; specialize (Ha eq_refl). }
      eexists. split; [reflexivity|].
      apply (rep_change t _ l (CDel k r) ki' Hr); cbn [c_key c_rev].
      * apply Hlegal.
      * apply Hlegal.
      * intros k' Hn. rewrite item_replace, decide_False; [done|]. congruence.
      * cbn [item_ok hist lvl]. split; [congruence|]. split; [done|].
        split; [rewrite Et; by destruct (timeline ki)|].
        exists (tl ++ [(r, None)]). rewrite Et, key_timeline_snoc. unfold add_entry. rewrite decide_True by done.
        split; [|by apply remains_snoc]. apply Forall2_app; [done|]. constructor; [|constructor]. by apply alike_refl.
      * rewrite item_replace, decide_True; [done|]. congruence.
  - destruct (exists_now l k).
    { destruct (proj1 Hex eq_refl) as (r' & x & E). destruct Hi as (_ & Hl & _).
      by destruct (Hl eq_refl r' x). }
    eexists. by split.
Qed.

(** The compaction of a key. *)
Lemma compact_item_spec t l k c av ki : rep t l -> lvl l <= c -> item t k = Some ki ->
  exists t', compact_item c t av ki = Ret (t', kept_set c (timeline ki) ∪ av) /\
    (forall k', k <> k' -> item t' k' = item t k') /\
    item_ok (MkLog (hist l) (lastRev l) c) k (item t' k) /\
    (forall ki', item t' k = Some ki' -> timeline ki' = trim c (timeline ki)).
Proof.
  intros (_ & _ & _ & Hi) Hc Ei. specialize (Hi k). rewrite Ei in Hi. cbn [item_ok] in Hi.
  destruct Hi as (Hk & Hok & Hne & tl & Hlk & Hrem).
  assert (bt_Get t ki = Some ki) as Eg.
  { rewrite bt_get, <- Ei. unfold item. rewrite bt_get.
    assert (forall x, same ki x = same (newKeyIndex k) x) as E.
    { intros x. unfold same, Less. cbn. by rewrite Hk. }
    clear -E. induction (bt_Ascend t) as [|x xs IH]; [done|]. cbn. by rewrite E, IH. }
  unfold compact_item. rewrite Eg. pose proof Hok as (_ & Hs & _).
  destruct (compact_spec ki c av Hok Hne) as (ki' & -> & Hk' & Hok' & Et & Hem). rewrite ret_bind.
  pose proof (remains_trim _ c _ _ Hrem Hc (like_sorted _ _ _ Hlk Hs)) as Hrem'.
  pose proof (like_trim _ c _ _ Hlk) as Hlk'. rewrite <- Et in Hlk'.
  destruct (isEmpty ki') eqn:Ee.
  - assert (timeline ki' = []) as E0.
    { destruct (timeline ki') eqn:E; [done|]. rewrite not_isEmpty in Ee by (by rewrite E). done. }
    pose proof (bt_deleted t ki') as Hd. destruct (bt_Delete t ki') as [t' ok] eqn:Ed. cbn [snd] in Hd.
    assert (ok = true) as ->.
    { rewrite Hd. apply existsb_exists. exists ki. apply item_Some in Ei as [Hin _].
      split; [by apply list_elem_of_In|]. by apply same_key. }
    pose proof (item_delete t ki') as Hid. rewrite Ed in Hid. cbn [fst] in Hid.
    eexists. split; [reflexivity|]. split.
    + intros k' Hn. rewrite Hid, decide_False; [done|]. congruence.
    + rewrite Hid, decide_True by congruence. cbn [item_ok hist lvl].
      by rewrite (proj1 (like_nil _ _ _ Hlk') E0) in Hrem'.
  - eexists. split; [reflexivity|]. split.
    + intros k' Hn. rewrite item_replace, decide_False; [done|]. congruence.
    + rewrite item_replace, decide_True by congruence. cbn [item_ok hist lvl].
      split; [|by intros ? [= <-]]. split; [congruence|]. split; [done|]. split; [|by eauto].
      intros E0. specialize (Hem E0). congruence.
Qed.

Lemma rep_compact t t' l k c : rep t l -> lvl l <= c ->
  (forall k', k <> k' -> item t' k' = item t k') ->
  item_ok (MkLog (hist l) (lastRev l) c) k (item t' k) ->
  rep t' (MkLog (hist l) (lastRev l) c).
Proof.
  intros (Ho & Hb & Hz & Hi) Hc Hother Hk. do 3 (split; [done|]). intros k'.
  destruct (decide (k = k')) as [<-|Hn]; [done|]. rewrite Hother by done. specialize (Hi k').
  destruct (item t k') as [ki|]; cbn [item_ok hist lvl] in *.
  - destruct Hi as (? & ? & ? & tl & ? & Hr). do 3 (split; [done|]). exists tl. split; [done|]. by eapply remains_mono.
  - by eapply remains_mono.
Qed.

Lemma rep_step t l o : rep t l -> legal_op l o ->
  exists t', step t o = Ret (t', snd (spec_step l o)) /\ rep t' (fst (spec_step l o)).
Proof.
  intros Hr Hl. destruct o as [k r|k r|k c]; cbn [step].
  - destruct (put_step t l k r Hr Hl) as (t' & -> & Hr'). rewrite ret_bind. eauto.
  - by apply tombstone_step.
  - destruct (item t k) as [ki|] eqn:Ei; cbn [spec_step fst snd].
    + destruct (compact_item_spec t l k c ∅ ki Hr (proj1 Hl) Ei) as (t' & -> & Ho & Hk & _).
      rewrite ret_bind. eexists. split; [reflexivity|]. eapply rep_compact; [exact Hr|apply Hl|exact Ho|exact Hk].
    + eexists. split; [reflexivity|]. eapply (rep_compact t); [exact Hr|apply Hl|done|].
      pose proof Hr as (_ & _ & _ & Hi). specialize (Hi k). rewrite Ei in *. cbn [item_ok hist lvl] in *.
      eapply remains_mono; [apply Hl|exact Hi].
Qed.

Lemma rep_run t l ops : rep t l -> legal l ops ->
  exists t', run step t ops = Ret (t', snd (spec_run l ops)) /\ rep t' (fst (spec_run l ops)).
Proof.
  revert t l. induction ops as [|o ops IH]; intros t l Hr Hl; cbn [run spec_run].
  - eexists. by split.
  - destruct Hl as [Ho Hl]. destruct (rep_step t l o Hr Ho) as (t1 & -> & Hr1). rewrite ret_bind.
    destruct (IH t1 _ Hr1 Hl) as (t2 & -> & Hr2). rewrite ret_bind.
    destruct (spec_step l o) as [l1 r1]. cbn [fst snd] in *.
    destruct (spec_run l1 ops) as [l2 rs]. cbn [fst snd] in *. eexists. by split.
Qed.

(** ** Reads *)

(** The keys from [key] on that are below [e], all of them when it is empty. *)
Definition in_range (key e k : string) : bool :=
  negb (str_ltb k key) && (String.eqb e "" || str_ltb k e).

Lemma visit_filter t key e :
  unsafeVisit t key e = List.filter (fun x => in_range key e (ki_key x)) (bt_Ascend t).
Proof.
  unfold unsafeVisit. rewrite bt_from.
  rewrite (take_while_filter _ (fun a b => Less a b = true)).
  - induction (bt_Ascend t) as [|x l IH]; [done|]. cbn [List.filter].
    assert (in_range key e (ki_key x) = negb (Less x (newKeyIndex key)) &&
      negb ((0 <? length (String.list_ascii_of_string e))%nat && negb (Less x (newKeyIndex e)))) as ->.
    { unfold in_range, Less. destruct e as [|ch e]; [done|]. cbn [ki_key newKeyIndex].
      cbn -[str_ltb]. by rewrite negb_involutive. }
    destruct (Less x (newKeyIndex key)); [exact IH|]. cbn [negb andb List.filter]. by rewrite IH.
  - apply MemBTree.filter_ordered, bt_sorted.
  - intros x y Hxy. destruct e as [|ch e]; [done|]. cbn. rewrite !negb_involutive.
    intros Hy. by eapply MemBTree.Less_trans.
Qed.

Definition reading (c : Z) (ki : keyIndex) : option (string * Revision) :=
  (fun x => (ki_key ki, fst (fst x))) <$> read (timeline ki) c.

Lemma omap_reading c ki l : omap (reading c) (ki :: l) =
  match read (timeline ki) c with
  | Some x => (ki_key ki, fst (fst x)) :: omap (reading c) l
  | None => omap (reading c) l
  end.
Proof.
  change (omap (reading c) (ki :: l)) with
    (match reading c ki with Some x => x :: omap (reading c) l | None => omap (reading c) l end).
  unfold reading at 1. by destruct (read (timeline ki) c).
Qed.

Lemma visit_get_spec l c : Forall (fun ki => ki_ok ki /\ timeline ki <> []) l ->
  visit_get l c = Ret (omap (reading c) l).
Proof.
  induction 1 as [|ki l [Hok Hne] _ IH]; [done|]. cbn [visit_get].
  rewrite (get_spec ki c Hok Hne), ret_bind, IH, ret_bind, omap_reading. unfold answer.
  by destruct (read (timeline ki) c) as [[[r cr] v]|].
Qed.

Lemma rep_items t l : rep t l -> Forall (fun ki => ki_ok ki /\ timeline ki <> []) (bt_Ascend t).
Proof.
  intros (_ & _ & _ & Hi). apply Forall_forall. intros ki Hin. specialize (Hi (ki_key ki)).
  rewrite (proj2 (item_Some t (ki_key ki) ki)) in Hi by done. by destruct Hi as (_ & ? & ? & _).
Qed.

Lemma item_read t l k c : rep t l -> lvl l <= c ->
  option_Forall2 (same_state R)
    match item t k with Some ki => read (timeline ki) c | None => None end (state_at (hist l) c !! k).
Proof.
  intros (Ho & _ & _ & Hi) Hc. rewrite <- read_timeline by done. specialize (Hi k).
  destruct (item t k) as [ki|]; cbn [item_ok] in Hi.
  - destruct Hi as (_ & _ & _ & tl & Hlk & Hr). rewrite <- (remains_read _ _ _ c Hr Hc). by apply like_read.
  - rewrite <- (remains_read _ _ _ c Hi Hc). constructor.
Qed.

Lemma Get_spec t l k c : rep t l -> lvl l <= c ->
  exists o, Get t k c = Ret (match o with Some x => inr x | None => inl ErrRevisionNotFound end) /\
    option_Forall2 (same_state R) o (state_at (hist l) c !! k).
Proof.
  intros Hr Hc. eexists. split; [|exact (item_read t l k c Hr Hc)]. unfold Get, unsafeGet, keyIndex_.
  fold (item t k). destruct (item t k) as [ki|] eqn:Ei; [|done].
  pose proof (rep_items t l Hr) as Hall. rewrite Forall_forall in Hall.
  apply item_Some in Ei as [Hin _]. destruct (Hall ki Hin) as [Hok Hne]. by apply get_spec.
Qed.

(** The keys of a range with their revisions, in order. *)
Definition range_of (m : gmap string kstate) (key e : string) (found : list (string * Revision))
    : Prop :=
  StronglySorted str_lt (map fst found) /\
  forall k r, (k, r) ∈ found <->
    in_range key e k = true /\ exists cr v, m !! k = Some (r, cr, v).

Lemma visit_spec t l key e c : rep t l -> lvl l <= c -> exists found,
  visit_get (unsafeVisit t key e) c = Ret found /\ range_of (state_at (hist l) c) key e found.
Proof.
  intros Hr Hc. pose proof (rep_items t l Hr) as Hall. rewrite visit_filter.
  assert (Forall (fun ki => ki_ok ki /\ timeline ki <> [])
    (List.filter (fun x => in_range key e (ki_key x)) (bt_Ascend t))) as Hf.
  { rewrite Forall_forall in *. intros ki [Hin _]%list_elem_of_In%filter_In.
    apply Hall. by apply list_elem_of_In. }
  eexists. split; [by apply visit_get_spec|]. split.
  - pose proof (MemBTree.filter_ordered (fun x => in_range key e (ki_key x)) _ (bt_sorted t)) as Hs.
    unfold MemBTree.ordered in Hs. clear -Hs.
    induction Hs as [|ki l Hs IH Hk]; [constructor|]. rewrite omap_reading.
    destruct (read (timeline ki) c) as [[[r cr] v]|]; [|done]. cbn [map fst].
    constructor; [done|]. apply Forall_forall. intros k Hin.
    apply list_elem_of_In, in_map_iff in Hin as ([k' r'] & <- & Hin%list_elem_of_In).
    apply list_elem_of_omap in Hin as (kj & Hkj & E). rewrite Forall_forall in Hk.
    specialize (Hk kj Hkj). unfold reading in E. destruct (read (timeline kj) c); [|done].
    cbn in E. injection E as <- _. exact Hk.
  - intros k r. rewrite list_elem_of_omap. split.
    + intros (ki & [Hin Hrg]%list_elem_of_In%filter_In & E). unfold reading in E.
      destruct (read (timeline ki) c) as [[[r' cr] v]|] eqn:Er; [|done]. cbn in E.
      injection E as <- <-. split; [done|]. apply list_elem_of_In in Hin.
      pose proof (item_read t l (ki_key ki) c Hr Hc) as Hi.
      rewrite (proj2 (item_Some t (ki_key ki) ki)), Er in Hi by done.
      inversion Hi as [? [[r0 cr0] v0] [E1 _] E2 E3|]. cbn in E1. subst r0. eauto.
    + intros [Hrg (cr & v & E)]. pose proof (item_read t l k c Hr Hc) as Hi. rewrite E in Hi.
      destruct (item t k) as [ki|] eqn:Ei; [|by inversion Hi].
      apply item_Some in Ei as [Hin Hk]. exists ki. split.
      * apply list_elem_of_In, filter_In. split; [by apply list_elem_of_In|]. by rewrite Hk.
      * unfold reading. rewrite Hk. inversion Hi as [x ? [E1 _] E2 E3|]. cbn in E1. cbn. by rewrite E1.
Qed.

(** ** Compaction *)

(** The changes that a compaction at [c] has to keep: the last one of every
    key that exists at [c], and the deletions at [c]. *)
Definition live (h : list change) (c : Z) (r : Revision) : Prop :=
  exists k cr v, state_at h c !! k = Some (r, cr, v).

Definition deleted (h : list change) (c : Z) (r : Revision) : Prop :=
  Main r = c /\ exists k, CDel k r ∈ h.

Lemma kept_live h k c r : ordered h ->
  (exists x, kept c (key_timeline k h) = Some (r, Some x)) <->
  exists cr v, state_at h c !! k = Some (r, cr, v).
Proof.
  intros Ho. rewrite <- read_timeline, read_kept by done. split.
  - intros [[cr v] ->]. eauto.
  - intros (cr & v & E). destruct (kept c (key_timeline k h)) as [[r' [[cr' v']|]]|]; [|done..].
    injection E as <- <- <-. eauto.
Qed.

Lemma kept_elem c tl e : kept c tl = Some e -> e ∈ tl /\ upto c e /\ (snd e = None -> c <= Main (fst e)).
Proof.
  unfold kept. destruct (at_rev tl c) as [e'|] eqn:E; [|done]. case_decide as Hd; [done|].
  intros [= ->]. unfold at_rev in E. apply last_Some in E as [l E].
  assert (e ∈ filter (upto c) tl) as Hin by (rewrite E; apply elem_of_app; right; by left).
  apply list_elem_of_filter in Hin as [Hu Hin]. split; [done|]. split; [done|].
  intros En. destruct (Z.lt_ge_cases (Main (fst e)) c); [|done]. by destruct Hd.
Qed.

Lemma kept_deleted h k c r : ordered h ->
  kept c (key_timeline k h) = Some (r, None) <-> Main r = c /\ CDel k r ∈ h.
Proof.
  intros Ho. split.
  - intros (Hin & Hu & Hd)%kept_elem. specialize (Hd eq_refl). unfold upto in Hu. cbn in *.
    split; [lia|]. apply key_timeline_from in Hin as (x & Hx & _ & _ & E). cbn in E.
    by rewrite <- (proj1 E eq_refl).
  - intros [Hr Hin]. induction h as [|x h IH] using rev_ind; [by apply not_elem_of_nil in Hin|].
    apply ordered_snoc in Ho as [Ho Hx]. rewrite key_timeline_snoc. unfold add_entry.
    apply elem_of_app in Hin as [Hin|<-%list_elem_of_singleton].
    + specialize (IH Ho Hin). case_decide as Ek; [|done]. rewrite kept_snoc, decide_False; [done|].
      destruct (Hx _ Hin) as [_ Hlt]. rewrite Ek in Hlt. specialize (Hlt eq_refl). unfold upto.
      destruct x as [k' r'|k' r']; cbn in *; [|lia].
      destruct (next_fst (key_timeline k h) r') as [-> _]. lia.
    + rewrite decide_True, kept_snoc, decide_True by (done || (unfold upto; cbn; lia)).
      unfold kept, at_rev. rewrite filter_cons_True by (unfold upto; cbn; lia). rewrite filter_nil.
      cbn [last]. rewrite decide_False; [done|]. cbn. intros [_ ?]. lia.
Qed.

(** What is kept of an index is what is kept of the history. *)
Lemma kept_item t l c r (d : bool) : rep t l -> lvl l <= c ->
  (exists ki o, ki ∈ bt_Ascend t /\ kept c (timeline ki) = Some (r, o) /\ bool_decide (o = None) = d) <->
  exists k o, kept c (key_timeline k (hist l)) = Some (r, o) /\ bool_decide (o = None) = d.
Proof.
  assert (forall (o o' : option entry), option_Forall2 (alike R) o o' ->
    (exists x, o = Some (r, x) /\ bool_decide (x = None) = d) <->
    (exists x, o' = Some (r, x) /\ bool_decide (x = None) = d)) as Hsim.
  { intros o o' Ho. inversion Ho as [[r1 x1] [r2 x2] Ha|]; [|naive_solver].
    pose proof (alike_None _ _ _ Ha) as Hn. destruct Ha as [E _]. cbn in E, Hn. subst r2.
    split; intros (x & [= -> <-] & Hd); eexists; (split; [reflexivity|]); rewrite <- Hd; by apply bool_decide_ext. }
  intros (_ & _ & _ & Hi) Hc. split.
  - intros (ki & o & Hin & E & Ed). specialize (Hi (ki_key ki)).
    rewrite (proj2 (item_Some t (ki_key ki) ki)) in Hi by done.
    destruct Hi as (_ & _ & _ & tl & Hlk & _ & _ & Hk). apply (like_kept _ c), Hsim in Hlk.
    exists (ki_key ki). rewrite <- Hk by done. apply Hlk. eauto.
  - intros (k & o & E & Ed). specialize (Hi k). destruct (item t k) as [ki|] eqn:Ei; cbn [item_ok] in Hi.
    + destruct Hi as (_ & _ & _ & tl & Hlk & _ & _ & Hk). apply item_Some in Ei as [Hin _].
      apply (like_kept _ c), Hsim in Hlk. exists ki. destruct (proj2 Hlk) as (x & Ex & Hx).
      { exists o. by rewrite Hk. }
      eauto.
    + destruct Hi as (_ & _ & Hk). by rewrite <- Hk in E.
Qed.

Lemma rep_mono t l c : rep t l -> lvl l <= c -> rep t (MkLog (hist l) (lastRev l) c).
Proof.
  intros (Ho & Hb & Hz & Hi) Hc. do 3 (split; [done|]). intros k. specialize (Hi k).
  destruct (item t k) as [ki|]; cbn [item_ok hist lvl] in *.
  - destruct Hi as (? & ? & ? & tl & ? & Hr). do 3 (split; [done|]). exists tl. split; [done|]. by eapply remains_mono.
  - by eapply remains_mono.
Qed.

Lemma compact_items_spec c xs t l av : rep t l -> lvl l <= c ->
  (forall ki, ki ∈ xs -> item t (ki_key ki) = Some ki) -> NoDup (map ki_key xs) ->
  exists t' av', compact_items c t av xs = Ret (t', av') /\
    rep t' (MkLog (hist l) (lastRev l) c) /\
    (forall r, r ∈ av' <-> r ∈ av \/ exists ki o, ki ∈ xs /\ kept c (timeline ki) = Some (r, o)) /\
    (forall k, k ∉ map ki_key xs -> item t' k = item t k) /\
    (forall ki ki', ki ∈ xs -> item t' (ki_key ki) = Some ki' -> timeline ki' = trim c (timeline ki)).
Proof.
  revert t l av. induction xs as [|ki xs IH]; intros t l av Hr Hc Hx Hnd.
  - exists t, av. split; [done|]. split; [by apply rep_mono|]. split; [intros r; split; [by left|]|].
    + intros [?|(ki & o & ?%not_elem_of_nil & _)]; done.
    + split; [done|]. by intros ki ki' ?%not_elem_of_nil.
  - cbn [map] in Hnd. apply NoDup_cons in Hnd as [Hn Hnd]. cbn [compact_items].
    destruct (compact_item_spec t l (ki_key ki) c av ki Hr Hc) as (t1 & -> & Hother & Hk & Htrim);
      [apply Hx; by left|]. rewrite ret_bind.
    destruct (IH t1 (MkLog (hist l) (lastRev l) c) (kept_set c (timeline ki) ∪ av))
      as (t' & av' & E & Hr' & Hav & Hkeep & Hcut); [by eapply rep_compact|done| |done|].
    { intros kj Hj. rewrite Hother; [apply Hx; by right|]. intros E. apply Hn. rewrite E.
      apply list_elem_of_In, in_map, list_elem_of_In, Hj. }
    exists t', av'. split; [done|]. split; [done|]. split; [|split].
    { intros r. rewrite Hav, elem_of_union, elem_of_kept_set. split.
    + intros [[[o Eo]|?]|(kj & o & Hj & Eo)]; [|by left|]; right.
      * exists ki, o. split; [by left|done].
      * exists kj, o. split; [by right|done].
    + intros [?|(kj & o & [->|Hj]%elem_of_cons & Eo)]; [by left; right|left; left; eauto|right; eauto]. }
    + cbn [map]. intros k [Hk1 Hk2]%not_elem_of_cons. rewrite Hkeep by done. by apply Hother.
    + intros kj kj' [->|Hj]%elem_of_cons Ej; [|by eapply Hcut]. apply Htrim. by rewrite <- Hkeep.
Qed.

Lemma keep_items_spec c xs av : Forall (fun ki => ki_ok ki /\ timeline ki <> []) xs ->
  (forall ki r, ki ∈ xs -> kept c (timeline ki) = Some (r, None) -> r ∉ av) ->
  (forall ki kj r x, ki ∈ xs -> kj ∈ xs -> kept c (timeline ki) = Some (r, Some x) ->
     kept c (timeline kj) <> Some (r, None)) ->
  exists av', keep_items c av xs = Ret av' /\
    forall r, r ∈ av' <-> r ∈ av \/ exists ki x, ki ∈ xs /\ kept c (timeline ki) = Some (r, Some x).
Proof.
  intros Hok. revert av. induction Hok as [|ki xs [Hok Hne] _ IH]; intros av Hd Hx.
  - exists av. split; [done|]. intros r. split; [by left|].
    intros [?|(ki & o & ?%not_elem_of_nil & _)]; done.
  - cbn [keep_items]. rewrite keep_spec, ret_bind by done.
    assert (forall ki kj r x, ki ∈ xs -> kj ∈ xs -> kept c (timeline ki) = Some (r, Some x) ->
      kept c (timeline kj) <> Some (r, None)) as Hx'.
    { intros ki' kj r x Hi Hj. apply Hx; by right. }
    set (av1 := match kept c (timeline ki) with
                | Some (r, None) => av ∖ {[r]} | Some (r, Some _) => {[r]} ∪ av | None => av end).
    assert (forall r, r ∈ av1 <-> r ∈ av \/ exists x, kept c (timeline ki) = Some (r, Some x)) as H1.
    { intros r. unfold av1. destruct (kept c (timeline ki)) as [[r' [x|]]|] eqn:Ek.
      - rewrite elem_of_union, elem_of_singleton. naive_solver.
      - rewrite elem_of_difference, elem_of_singleton. pose proof (Hd ki r' (list_elem_of_here _ _) Ek).
        naive_solver.
      - naive_solver. }
    destruct (IH av1) as (av' & E & Hav); [|done|].
    { intros kj r Hj Ej [Hr|(x & Ex)]%H1; [by eapply Hd; [right|..]|].
      by eapply (Hx ki kj r x); [left|right|..]. }
    exists av'. split; [done|]. intros r. rewrite Hav, H1. split.
    + intros [[?|(x & Ex)]|(kj & x & Hj & Ex)]; [by left|..]; right;
        [exists ki, x; split; [by left|done]|exists kj, x; split; [by right|done]].
    + intros [?|(kj & x & [->|Hj]%elem_of_cons & Ex)]; [by left; left|left; right; eauto|right; eauto].
Qed.

Lemma item_keys t : NoDup (map ki_key (bt_Ascend t)).
Proof.
  pose proof (bt_sorted t) as Hs. induction Hs as [|ki l Hs IH Hk]; [constructor|].
  cbn [map]. constructor; [|done]. intros Hin%list_elem_of_In%in_map_iff.
  destruct Hin as (kj & E & Hj%list_elem_of_In). rewrite Forall_forall in Hk.
  specialize (Hk kj Hj). unfold Less in Hk. rewrite E in Hk. by apply str_lt_irrefl in Hk.
Qed.

Lemma live_kept t l c r : rep t l -> lvl l <= c ->
  (exists ki x, ki ∈ bt_Ascend t /\ kept c (timeline ki) = Some (r, Some x)) <-> live (hist l) c r.
Proof.
  intros Hr Hc. pose proof Hr as (Ho & _). pose proof (kept_item t l c r false Hr Hc) as Hk. split.
  - intros (ki & x & Hin & E). destruct (proj1 Hk) as (k & [y|] & Ey & Hy); [by exists ki, (Some x)| |done].
    exists k. apply kept_live; eauto.
  - intros (k & [x Ex]%kept_live); [|done].
    destruct (proj2 Hk) as (ki & [y|] & Hin & Ey & Hy); [by exists k, (Some x)|eauto|done].
Qed.

Lemma deleted_kept t l c r : rep t l -> lvl l <= c ->
  (exists ki, ki ∈ bt_Ascend t /\ kept c (timeline ki) = Some (r, None)) <-> deleted (hist l) c r.
Proof.
  intros Hr Hc. pose proof Hr as (Ho & _). pose proof (kept_item t l c r true Hr Hc) as Hk. split.
  - intros (ki & Hin & E). destruct (proj1 Hk) as (k & o & Eo & ->%bool_decide_eq_true); [by exists ki, None|].
    apply kept_deleted in Eo as [? ?]; [|done]. split; eauto.
  - intros (? & k & ?). destruct (proj2 Hk) as (ki & o & Hin & Eo & ->%bool_decide_eq_true); [|eauto].
    exists k, None. split; [by apply kept_deleted|done].
Qed.

(** No deletion has the revision of a live put. *)
Lemma live_not_deleted t l c r : rep t l -> live (hist l) c r -> ~ deleted (hist l) c r.
Proof.
  intros (Ho & _) (k & Hk%kept_live) (_ & k' & Hd); [|done]. destruct Hk as [x Hx].
  apply kept_elem in Hx as (Hin & _). apply key_timeline_from in Hin as (y & Hy & Ek & Er & En).
  cbn in Er. assert (y = CDel k' r) as -> by (by apply (ordered_rev (hist l))).
  cbn in Ek. subst k'. by specialize (proj2 En eq_refl).
Qed.

Lemma Compact_spec t l c : rep t l -> lvl l <= c ->
  exists t' av, Compact t c = Ret (t', av) /\ rep t' (MkLog (hist l) (lastRev l) c) /\
    (forall r, r ∈ av <-> live (hist l) c r \/ deleted (hist l) c r) /\
    forall ki g r, ki ∈ bt_Ascend t' -> g ∈ generations ki -> r ∈ revs g -> c < Main r \/ r ∈ av.
Proof.
  intros Hr Hc. unfold Compact.
  destruct (compact_items_spec c (bt_Ascend t) t l ∅ Hr Hc) as (t' & av & E & Hr' & Hav & Hother & Hcut).
  { intros ki Hin. by apply item_Some. }
  { apply item_keys. }
  exists t', av. split; [done|]. split; [done|]. split.
  - intros r. rewrite Hav, <- (live_kept t l c r), <- (deleted_kept t l c r) by done.
    rewrite elem_of_empty. split.
    + intros [[]|(ki & [x|] & Hin & Ek)]; [left|right]; eauto.
    + intros [(ki & x & ? & ?)|(ki & ? & ?)]; right; eauto.
  - intros ki g r Hin Hg Hrg. assert (item t' (ki_key ki) = Some ki) as Ei by (by apply item_Some).
    destruct (item t (ki_key ki)) as [k0|] eqn:E0.
    + apply item_Some in E0 as [Hin0 Hk0]. rewrite <- Hk0 in Ei. specialize (Hcut k0 ki Hin0 Ei).
      assert (r ∈ map fst (timeline ki)) as (e & -> & He)%list_elem_of_fmap
        by (apply timeline_revs; eauto).
      rewrite Hcut in He. apply elem_of_trim in He as [Ek|?]; [right|by left].
      apply Hav. right. destruct e. eauto.
    + rewrite item_None in E0. rewrite Hother in Ei; [|].
      * apply item_Some in Ei as [Hin0 _]. by destruct (E0 ki Hin0).
      * intros (k0 & E1 & Hin0%list_elem_of_In)%list_elem_of_In%in_map_iff. by destruct (E0 k0 Hin0).
Qed.

Lemma Keep_spec t l c : rep t l -> lvl l <= c ->
  exists kp, Keep t c = Ret kp /\ forall r, r ∈ kp <-> live (hist l) c r.
Proof.
  intros Hr Hc. unfold Keep.
  destruct (keep_items_spec c (bt_Ascend t) ∅ (rep_items t l Hr)) as (kp & E & Hk).
  { intros ki r _ _. apply not_elem_of_empty. }
  { intros ki kj r x Hi Hj Ei Ej. apply (live_not_deleted t l c r Hr).
    - apply (live_kept t l c r Hr Hc). eauto.
    - apply (deleted_kept t l c r Hr Hc). eauto. }
  exists kp. split; [done|]. intros r. rewrite Hk, elem_of_empty, (live_kept t l c r Hr Hc). tauto.
Qed.

End Index.

(** ** Runs *)

Section Runs.
Context `{BTreeLaws}.

Lemma exact_state x y : same_state eq x y -> x = y.
Proof. destruct x as [[? ?] ?], y as [[? ?] ?]. intros (? & ? & ?). cbn in *. congruence. Qed.

Lemma exact_Get t l k c : rep eq t l -> lvl l <= c ->
  Get t k c = Ret (match state_at (hist l) c !! k with
                   | Some x => inr x
                   | None => inl ErrRevisionNotFound
                   end).
Proof.
  intros Hr Hc. destruct (Get_spec eq t l k c Hr Hc) as (o & -> & Ho).
  by destruct Ho as [x y ->%exact_state|].
Qed.

(** C15: whatever puts, deletions and steps of a running compaction are made in
    an order that etcd makes them, none panics, a deletion fails exactly when
    the key does not exist, and every read at or after the compacted revision
    answers from the state that the changes up to that revision leave: a key
    with its last, its creating revision and its version, or none; a range with
    exactly its keys in order; the count; and the revisions, cut at the limit. *)
Theorem index_refines_history ops : legal empty_log ops ->
  let l := fst (spec_run empty_log ops) in
  exists t, run step newTreeIndex ops = Ret (t, snd (spec_run empty_log ops)) /\
  forall c, lvl l <= c ->
    (forall k, Get t k c = Ret (match state_at (hist l) c !! k with
                                | Some x => inr x
                                | None => inl ErrRevisionNotFound
                                end)) /\
    forall key e, exists found, range_of (state_at (hist l) c) key e found /\
      Range t key (Some e) c = Ret (map fst found, map snd found) /\
      CountRevisions t key (Some e) c = Ret (Z.of_nat (length found)) /\
      forall limit, Revisions t key (Some e) c limit =
        Ret (if limit <=? 0 then map snd found else take (Z.to_nat limit) (map snd found),
             Z.of_nat (length found)).
Proof.
  intros Hl l. destruct (rep_run eq bt_New empty_log ops (rep_new eq) Hl) as (t & Et & Hr).
  exists t. split; [exact Et|]. intros c Hc. split; [intros k; by apply exact_Get|].
  intros key e. destruct (visit_spec eq t _ key e c Hr Hc) as (found & E & Hf). exists found.
  split; [exact Hf|]. unfold Range, CountRevisions, Revisions. rewrite E, !ret_bind.
  split; [done|]. split; [done|]. intros limit. by rewrite ret_bind, length_map.
Qed.

(** C27: a compaction at a revision that is not compacted yet returns exactly
    the changes that reads at it and later need, the last ones of the keys
    that exist there and the deletions made there; it leaves in the index no
    other revision up to it; and every later read answers as before.  The
    revisions kept for a hash are those of the keys that exist. *)
Theorem compaction_exact ops c : legal empty_log ops ->
  lvl (fst (spec_run empty_log ops)) <= c ->
  let h := hist (fst (spec_run empty_log ops)) in
  exists t t' av kp, run step newTreeIndex ops = Ret (t, snd (spec_run empty_log ops)) /\
    Compact t c = Ret (t', av) /\ Keep t c = Ret kp /\
    (forall r, r ∈ av <-> live h c r \/ deleted h c r) /\ (forall r, r ∈ kp <-> live h c r) /\
    (forall ki g r, ki ∈ bt_Ascend t' -> g ∈ generations ki -> r ∈ revs g -> c < Main r \/ r ∈ av) /\
    forall k rev, c <= rev -> Get t' k rev = Get t k rev.
Proof.
  intros Hl Hc h. destruct (rep_run eq bt_New empty_log ops (rep_new eq) Hl) as (t & Et & Hr).
  destruct (Compact_spec eq t _ c Hr Hc) as (t' & av & Ec & Hr' & Hav & Hcut).
  destruct (Keep_spec eq t _ c Hr Hc) as (kp & Ek & Hkp).
  exists t, t', av, kp. do 6 (split; [done|]). intros k rev Hrev.
  rewrite (exact_Get t' _ k rev Hr') by done. rewrite (exact_Get t _ k rev Hr) by lia. done.
Qed.

End Runs.

(** ** On a concrete tree *)

(** A key that is put, updated, deleted and created again, one that is put
    and deleted, and the compaction of the first one in between. *)
Definition sample_ops : list op :=
  [OPut "a" (MkRev 2 0); OPut "b" (MkRev 2 1); OPut "a" (MkRev 3 0); OTombstone "a" (MkRev 4 0);
   OTombstone "a" (MkRev 5 0); OCompact "a" 3; OPut "a" (MkRev 5 0); OTombstone "b" (MkRev 6 0)].

Lemma sample_legal : legal empty_log sample_ops.
Proof.
  unfold sample_ops. cbn [legal].
  repeat (split; [|]);
    repeat match goal with
    | |- rev_lt _ _ => vm_compute; reflexivity
    | |- forall r', CDel _ _ ∈ _ -> _ =>
        intros r' Hin; apply list_elem_of_In in Hin; vm_compute in Hin;
        repeat (destruct Hin as [Hin|Hin]; [first [discriminate Hin | injection Hin; intros; subst; vm_compute; reflexivity]|]);
        destruct Hin
    | |- (_ <= _)%Z => vm_compute; discriminate
    | |- (_ < _)%Z => vm_compute; reflexivity
    | |- _ /\ _ => split
    | |- True => exact I
    end.
Qed.

Lemma index_refines_history_witness : exists t,
  run (@step MemBTree.btree) newTreeIndex sample_ops
    = Ret (t, [None; None; None; None; Some ErrRevisionNotFound; None; None; None]) /\
  Get t "a" 3 = Ret (inr (MkRev 3 0, MkRev 2 0, 2)) /\ Get t "a" 4 = Ret (inl ErrRevisionNotFound) /\
  Get t "a" 6 = Ret (inr (MkRev 5 0, MkRev 5 0, 1)) /\ Get t "b" 6 = Ret (inl ErrRevisionNotFound).
Proof.
  destruct (@index_refines_history MemBTree.btree MemBTree.btree_laws sample_ops sample_legal) as (t & Et & Hg).
  exists t. split; [exact Et|].
  split; [exact (proj1 (Hg 3 ltac:(vm_compute; discriminate)) "a")|].
  split; [exact (proj1 (Hg 4 ltac:(vm_compute; discriminate)) "a")|].
  split; [exact (proj1 (Hg 6 ltac:(vm_compute; discriminate)) "a")|].
  exact (proj1 (Hg 6 ltac:(vm_compute; discriminate)) "b").
Defined.

Lemma compaction_exact_witness : exists t t' av kp,
  run (@step MemBTree.btree) newTreeIndex sample_ops
    = Ret (t, [None; None; None; None; Some ErrRevisionNotFound; None; None; None]) /\
  Compact t 4 = Ret (t', av) /\ Keep t 4 = Ret kp /\
  MkRev 2 1 ∈ av /\ MkRev 4 0 ∈ av /\ MkRev 2 1 ∈ kp /\ Get t' "b" 5 = Get t "b" 5.
Proof.
  destruct (@compaction_exact MemBTree.btree MemBTree.btree_laws sample_ops 4 sample_legal ltac:(vm_compute; discriminate))
    as (t & t' & av & kp & Et & Ec & Ek & Hav & Hkp & _ & Hg).
  exists t, t', av, kp. split; [exact Et|]. split; [exact Ec|]. split; [exact Ek|].
  split; [apply Hav; left; exists "b", (MkRev 2 1), 1; vm_compute; reflexivity|].
  split; [apply Hav; right; split; [reflexivity|]; exists "a"; apply list_elem_of_In; vm_compute; tauto|].
  split; [apply Hkp; exists "b", (MkRev 2 1), 1; vm_compute; reflexivity|].
  apply Hg. vm_compute. discriminate.
Defined.

End IndexLog.
