(* ===== verification/RaftApi.v ===== *)
(** * The raft library

    The message types of [go.etcd.io/raft/v3/raftpb], the calls omashu makes
    on a [raft.Node] and the in-memory log [raft.MemoryStorage].  The library
    is outside the repository: its data are records, its functions are the
    operations of the classes below, and the laws state what its
    documentation promises.  [MemRaft] at the end is an instance that can be
    run. *)

From S2P Require Import Prelude Errors.

(** ** Messages *)

Module raftpb.

Inductive EntryType : Type :=
  | EntryNormal
  | EntryConfChange
  | EntryConfChangeV2.

Record Entry := MkEntry {
  Term : Z;
  Index : Z;
  Type_ : EntryType;
  Data : bytes
}.

Record HardState := MkHardState {
  hs_Term : Z;
  hs_Vote : Z;
  hs_Commit : Z
}.

Definition emptyState : HardState := MkHardState 0 0 0.

Record ConfState := MkConfState {
  Voters : list Z;
  Learners : list Z
}.

Record SnapshotMetadata := MkMeta {
  md_ConfState : ConfState;
  md_Index : Z;
  md_Term : Z
}.

Record Snapshot := MkSnapshot {
  sn_Data : bytes;
  Metadata : SnapshotMetadata
}.

Definition emptySnapshot : Snapshot := MkSnapshot [] (MkMeta (MkConfState [] []) 0 0).

Inductive ConfChangeType : Type :=
  | ConfChangeAddNode
  | ConfChangeRemoveNode
  | ConfChangeUpdateNode
  | ConfChangeAddLearnerNode.

Record ConfChange := MkConfChange {
  cc_Type : ConfChangeType;
  NodeID : Z;
  Context_ : string
}.

(** The kinds of message are many; the code looks for these. *)
Inductive MessageType : Type :=
  | MsgProp
  | MsgApp
  | MsgSnap
  | MsgHeartbeat
  | OtherMsg (kind : Z).

(** [Responses] belongs to asynchronous storage writes, which are not used. *)
Record Message := MkMessage {
  m_Type : MessageType;
  m_To : Z;
  m_From : Z;
  m_Term : Z;
  m_LogTerm : Z;
  m_Index : Z;
  m_Entries : list Entry;
  m_Commit : Z;
  m_Vote : Z;
  m_Snapshot : option Snapshot;
  m_Reject : bool;
  m_RejectHint : Z;
  m_Context : bytes
}.

(** The zero message; [MsgHup] is kind 0. *)
Definition emptyMessage : Message :=
  MkMessage (OtherMsg 0) 0 0 0 0 0 [] 0 0 None false 0 [].

Definition set_Snapshot (m : Message) (s : option Snapshot) : Message :=
  MkMessage (m_Type m) (m_To m) (m_From m) (m_Term m) (m_LogTerm m) (m_Index m) (m_Entries m)
    (m_Commit m) (m_Vote m) s (m_Reject m) (m_RejectHint m) (m_Context m).

#[global] Instance EntryType_eq_dec : EqDecision EntryType.
Proof. solve_decision. Defined.
#[global] Instance Entry_eq_dec : EqDecision Entry.
Proof. solve_decision. Defined.
#[global] Instance HardState_eq_dec : EqDecision HardState.
Proof. solve_decision. Defined.
#[global] Instance ConfState_eq_dec : EqDecision ConfState.
Proof. solve_decision. Defined.
#[global] Instance SnapshotMetadata_eq_dec : EqDecision SnapshotMetadata.
Proof. solve_decision. Defined.
#[global] Instance Snapshot_eq_dec : EqDecision Snapshot.
Proof. solve_decision. Defined.
#[global] Instance MessageType_eq_dec : EqDecision MessageType.
Proof. solve_decision. Defined.
#[global] Instance Message_eq_dec : EqDecision Message.
Proof. solve_decision. Defined.

End raftpb.

(** A read index confirmed by the leader. *)
Record ReadState := MkReadState {
  rs_Index : Z;
  RequestCtx : string
}.

(** The batch of work [raft.Node] hands out; [rd_Lead] is the leader of its
    soft state, when that changed. *)
Record Ready := MkReady {
  rd_Lead : option Z;
  rd_HardState : raftpb.HardState;
  rd_ReadStates : list ReadState;
  rd_Entries : list raftpb.Entry;
  rd_Snapshot : raftpb.Snapshot;
  rd_CommittedEntries : list raftpb.Entry;
  rd_Messages : list raftpb.Message
}.

(** [raft.Config], but for the logger and the storage: the library reads the
    storage it is given through the methods of the [raft.Storage] interface. *)
Record raft_Config := MkRaftConfig {
  rc_ID : Z;
  ElectionTick : Z;
  HeartbeatTick : Z;
  rc_Applied : Z;
  AsyncStorageWrites : bool;
  MaxSizePerMsg : Z;
  MaxCommittedSizePerReady : Z;
  MaxUncommittedEntriesSize : Z;
  MaxInflightMsgs : Z;
  MaxInflightBytes : Z;
  CheckQuorum : bool;
  PreVote : bool;
  ReadOnlyOption : Z;
  DisableProposalForwarding : bool;
  DisableConfChangeValidation : bool;
  StepDownOnRemoval : bool
}.

(** ** The package's functions and [raft.Node] *)

Class RaftLib := {
  IsEmptySnap : raftpb.Snapshot -> bool;
  IsEmptyHardState : raftpb.HardState -> bool;
  MustSync : raftpb.HardState -> raftpb.HardState -> nat -> bool;

  RNode : Type;
  StartNode : raft_Config -> list Z -> RNode;
  RestartNode : raft_Config -> RNode;
  RN_Tick : RNode -> RNode;
  RN_Step : RNode -> raftpb.Message -> RNode * option error;
  RN_ReportUnreachable : RNode -> Z -> RNode;
  RN_ReportSnapshot : RNode -> Z -> bool -> RNode;
  RN_Stop : RNode -> RNode;
  RN_Propose : RNode -> bytes -> RNode * option error;
  RN_ProposeConfChange : RNode -> raftpb.ConfChange -> RNode * option error;
  RN_ApplyConfChange : RNode -> raftpb.ConfChange -> RNode * raftpb.ConfState;
  RN_ReadIndex : RNode -> string -> RNode * option error;
  RN_Advance : RNode -> RNode;
  RN_Lead : RNode -> Z;

  ConfChange_Unmarshal : bytes -> result raftpb.ConfChange
}.

Class RaftLaws `{L : RaftLib} : Prop := {
  IsEmptySnap_spec : forall s,
    IsEmptySnap s = true <-> raftpb.md_Index (raftpb.Metadata s) = 0;
  IsEmptyHardState_spec : forall st,
    IsEmptyHardState st = true <-> st = raftpb.emptyState;
  MustSync_entries : forall st prev n, (0 < n)%nat -> MustSync st prev n = true
}.

(** ** [raft.MemoryStorage] *)

Class MemoryStorageLib := {
  MStorage : Type;
  NewMemoryStorage : MStorage;
  MS_InitialState : MStorage -> raftpb.HardState * raftpb.ConfState;
  MS_SetHardState : MStorage -> raftpb.HardState -> MStorage * option error;
  MS_Entries : MStorage -> Z -> Z -> Z -> result (list raftpb.Entry);
  MS_Term : MStorage -> Z -> result Z;
  MS_LastIndex : MStorage -> Z;
  MS_FirstIndex : MStorage -> Z;
  MS_Snapshot : MStorage -> raftpb.Snapshot;
  MS_ApplySnapshot : MStorage -> raftpb.Snapshot -> MStorage * option error;
  MS_Compact : MStorage -> Z -> outcome (MStorage * option error);
  MS_Append : MStorage -> list raftpb.Entry -> outcome (MStorage * option error);

  (** What a storage stands for: the last index compacted away with its
      term, the entries after it, the latest snapshot and the hard state. *)
  ms_offset : MStorage -> Z;
  ms_offset_term : MStorage -> Z;
  ms_log : MStorage -> list raftpb.Entry;
  ms_hard : MStorage -> raftpb.HardState
}.

Definition ErrSnapOutOfDate : error := OtherError "requested index is older than the existing snapshot".
Definition ErrCompacted : error := OtherError "requested index is unavailable due to compaction".
Definition ErrUnavailable : error := OtherError "requested entry at index is unavailable".

(** [l] holds the entries of indices [from], [from + 1], … *)
Fixpoint contiguous (from : Z) (l : list raftpb.Entry) : Prop :=
  match l with
  | [] => True
  | e :: l' => raftpb.Index e = from /\ contiguous (from + 1) l'
  end.

Lemma contiguous_app from a b :
  contiguous from (a ++ b) <-> contiguous from a /\ contiguous (from + Z.of_nat (length a)) b.
Proof.
  revert from. induction a as [|e a IH]; intros from; simpl.
  - rewrite Z.add_0_r. tauto.
  - rewrite IH. replace (from + 1 + Z.of_nat (length a)) with (from + Z.of_nat (S (length a))) by lia.
    tauto.
Qed.

Lemma contiguous_take from n l : contiguous from l -> contiguous from (take n l).
Proof. intros H. rewrite <- (take_drop n l) in H. by apply contiguous_app in H as [H _]. Qed.

(** Writing entries over a log whose first entry has index [from]: an entry
    replaces the one at its index and cuts what followed. *)
Definition overlay (from : Z) (log ents : list raftpb.Entry) : list raftpb.Entry :=
  match ents with
  | [] => log
  | e :: _ => take (Z.to_nat (raftpb.Index e - from)) log ++ ents
  end.

Class MemoryStorageLaws `{S : MemoryStorageLib} : Prop := {
  new_storage :
    ms_offset NewMemoryStorage = 0 /\ ms_offset_term NewMemoryStorage = 0 /\
    ms_log NewMemoryStorage = [] /\ ms_hard NewMemoryStorage = raftpb.emptyState /\
    MS_Snapshot NewMemoryStorage = raftpb.emptySnapshot;

  initial_state : forall s,
    MS_InitialState s =
      (ms_hard s, raftpb.md_ConfState (raftpb.Metadata (MS_Snapshot s)));
  first_index : forall s, MS_FirstIndex s = ms_offset s + 1;
  last_index : forall s, MS_LastIndex s = ms_offset s + Z.of_nat (length (ms_log s));

  set_hard_state : forall s st, exists s',
    MS_SetHardState s st = (s', None) /\ ms_hard s' = st /\
    ms_offset s' = ms_offset s /\ ms_offset_term s' = ms_offset_term s /\
    ms_log s' = ms_log s /\ MS_Snapshot s' = MS_Snapshot s;

  term_compacted : forall s i, i < ms_offset s -> MS_Term s i = inl ErrCompacted;
  term_offset : forall s, MS_Term s (ms_offset s) = inr (ms_offset_term s);
  term_entry : forall s i e, ms_log s !! i = Some e ->
    MS_Term s (ms_offset s + 1 + Z.of_nat i) = inr (raftpb.Term e);
  term_unavailable : forall s i, MS_LastIndex s < i -> MS_Term s i = inl ErrUnavailable;

  (** "ApplySnapshot overwrites the contents of this Storage object with those
      of the given snapshot." *)
  apply_snapshot_old : forall s sn,
    raftpb.md_Index (raftpb.Metadata sn)
      <= raftpb.md_Index (raftpb.Metadata (MS_Snapshot s)) ->
    MS_ApplySnapshot s sn = (s, Some ErrSnapOutOfDate);
  apply_snapshot_new : forall s sn,
    raftpb.md_Index (raftpb.Metadata (MS_Snapshot s))
      < raftpb.md_Index (raftpb.Metadata sn) ->
    exists s', MS_ApplySnapshot s sn = (s', None) /\
      MS_Snapshot s' = sn /\ ms_log s' = [] /\
      ms_offset s' = raftpb.md_Index (raftpb.Metadata sn) /\
      ms_offset_term s' = raftpb.md_Term (raftpb.Metadata sn) /\
      ms_hard s' = ms_hard s;

  (** "Compact discards all log entries prior to compactIndex." *)
  compact_done : forall s i, i <= ms_offset s ->
    MS_Compact s i = Ret (s, Some ErrCompacted);
  compact_beyond : forall s i, MS_LastIndex s < i -> ms_offset s < i ->
    exists msg, MS_Compact s i = Panic msg;
  compact_ok : forall s i, ms_offset s < i -> i <= MS_LastIndex s ->
    exists s' t, MS_Compact s i = Ret (s', None) /\
      MS_Term s i = inr t /\ ms_offset s' = i /\ ms_offset_term s' = t /\
      ms_log s' = drop (Z.to_nat (i - ms_offset s)) (ms_log s) /\
      ms_hard s' = ms_hard s /\ MS_Snapshot s' = MS_Snapshot s;

  (** Entries are appended; those that overlap the log replace it, and those
      already compacted are skipped. *)
  append_ok : forall s ents, contiguous (ms_offset s + 1) (ms_log s) ->
    match ents with
    | [] => True
    | e :: _ => ms_offset s < raftpb.Index e /\ raftpb.Index e <= MS_LastIndex s + 1
    end ->
    (exists from, contiguous from ents) ->
    exists s', MS_Append s ents = Ret (s', None) /\
      ms_log s' = overlay (ms_offset s + 1) (ms_log s) ents /\
      ms_offset s' = ms_offset s /\ ms_offset_term s' = ms_offset_term s /\
      ms_hard s' = ms_hard s /\ MS_Snapshot s' = MS_Snapshot s;

  (** Appending past the end of the log panics: "missing log entry". *)
  append_gap : forall s e ents, 0 <= ms_offset s -> contiguous (raftpb.Index e) (e :: ents) ->
    MS_LastIndex s + 1 < raftpb.Index e -> exists msg, MS_Append s (e :: ents) = Panic msg
}.

(** ** An instance *)

Module MemRaft.

(** *** The log in memory *)

Record store := Store {
  st_offset : Z;
  st_offset_term : Z;
  st_log : list raftpb.Entry;
  st_snap : raftpb.Snapshot;
  st_hard : raftpb.HardState
}.

Definition last_idx (s : store) : Z := st_offset s + Z.of_nat (length (st_log s)).

Definition term_at (s : store) (i : Z) : result Z :=
  if i <? st_offset s then inl ErrCompacted
  else if i =? st_offset s then inr (st_offset_term s)
  else match st_log s !! Z.to_nat (i - st_offset s - 1) with
       | Some e => inr (raftpb.Term e)
       | None => inl ErrUnavailable
       end.

Definition entries_between (s : store) (lo hi : Z) : result (list raftpb.Entry) :=
  if lo <=? st_offset s then inl ErrCompacted
  else inr (take (Z.to_nat (hi - lo)) (drop (Z.to_nat (lo - st_offset s - 1)) (st_log s))).

Definition apply_snapshot (s : store) (sn : raftpb.Snapshot) : store * option error :=
  let md := raftpb.Metadata sn in
  if raftpb.md_Index md <=? raftpb.md_Index (raftpb.Metadata (st_snap s))
  then (s, Some ErrSnapOutOfDate)
  else (Store (raftpb.md_Index md) (raftpb.md_Term md) [] sn (st_hard s), None).

Definition compact (s : store) (i : Z) : outcome (store * option error) :=
  if i <=? st_offset s then Ret (s, Some ErrCompacted)
  else if last_idx s <? i then Panic "compact index is out of bound lastindex"
  else match term_at s i with
       | inr t => Ret (Store i t (drop (Z.to_nat (i - st_offset s)) (st_log s)) (st_snap s)
                         (st_hard s), None)
       | inl e => Panic "unexpected term error"
       end.

Definition append (s : store) (ents : list raftpb.Entry) : outcome (store * option error) :=
  let kept := drop_while (fun e => raftpb.Index e <=? st_offset s) ents in
  match kept with
  | [] => Ret (s, None)
  | e :: _ =>
      if last_idx s + 1 <? raftpb.Index e then Panic "missing log entry"
      else Ret (Store (st_offset s) (st_offset_term s)
                  (overlay (st_offset s + 1) (st_log s) kept) (st_snap s) (st_hard s), None)
  end.

#[export] Instance storage : MemoryStorageLib := {
  MStorage := store;
  NewMemoryStorage := Store 0 0 [] raftpb.emptySnapshot raftpb.emptyState;
  MS_InitialState s := (st_hard s, raftpb.md_ConfState (raftpb.Metadata (st_snap s)));
  MS_SetHardState s st :=
    (Store (st_offset s) (st_offset_term s) (st_log s) (st_snap s) st, None);
  MS_Entries s lo hi _ := entries_between s lo hi;
  MS_Term := term_at;
  MS_LastIndex := last_idx;
  MS_FirstIndex s := st_offset s + 1;
  MS_Snapshot := st_snap;
  MS_ApplySnapshot := apply_snapshot;
  MS_Compact := compact;
  MS_Append := append;
  ms_offset := st_offset;
  ms_offset_term := st_offset_term;
  ms_log := st_log;
  ms_hard := st_hard
}.

Lemma term_at_entry s i e : st_log s !! i = Some e ->
  term_at s (st_offset s + 1 + Z.of_nat i) = inr (raftpb.Term e).
Proof.
  intros E. unfold term_at.
  destruct (Z.ltb_spec (st_offset s + 1 + Z.of_nat i) (st_offset s)); [lia|].
  destruct (Z.eqb_spec (st_offset s + 1 + Z.of_nat i) (st_offset s)); [lia|].
  replace (Z.to_nat (st_offset s + 1 + Z.of_nat i - st_offset s - 1)) with i by lia.
  by rewrite E.
Qed.

Lemma term_at_last s i : st_offset s < i -> i <= last_idx s -> exists t, term_at s i = inr t.
Proof.
  unfold last_idx. intros H1 H2.
  destruct (st_log s !! Z.to_nat (i - st_offset s - 1)) as [e|] eqn:E.
  - exists (raftpb.Term e). rewrite <- (term_at_entry s _ e E). f_equal. lia.
  - apply lookup_ge_None in E. lia.
Qed.

#[export] Instance storage_laws : MemoryStorageLaws.
Proof.
  constructor; simpl; intros.
  - done.
  - done.
  - done.
  - done.
  - eexists. split; [reflexivity|done].
  - unfold term_at. destruct (Z.ltb_spec i (st_offset s)); [done|lia].
  - unfold term_at. by rewrite Z.ltb_irrefl, Z.eqb_refl.
  - by apply term_at_entry.
  - unfold term_at. unfold last_idx in *.
    destruct (Z.ltb_spec i (st_offset s)); [lia|].
    destruct (Z.eqb_spec i (st_offset s)); [lia|].
    rewrite lookup_ge_None_2 by lia. done.
  - unfold apply_snapshot. rewrite (proj2 (Z.leb_le _ _)) by done. done.
  - unfold apply_snapshot. rewrite (proj2 (Z.leb_gt _ _)) by done.
    eexists. split; [reflexivity|done].
  - unfold compact. rewrite (proj2 (Z.leb_le _ _)) by done. done.
  - unfold compact. rewrite (proj2 (Z.leb_gt _ _)), (proj2 (Z.ltb_lt _ _)) by done. eauto.
  - unfold compact. rewrite (proj2 (Z.leb_gt _ _)), (proj2 (Z.ltb_ge _ _)) by done.
    destruct (term_at_last s i) as [t Et]; [done..|]. rewrite Et. eexists _, t. done.
  - unfold append. destruct ents as [|e ents]; simpl; [by eexists|].
    rewrite (proj2 (Z.leb_gt _ _)) by lia. rewrite (proj2 (Z.ltb_ge _ _)) by lia.
    eexists. split; [reflexivity|done].
  - unfold append, last_idx in *. simpl. rewrite (proj2 (Z.leb_gt _ _)) by lia.
    rewrite (proj2 (Z.ltb_lt _ _)) by lia. eauto.
Qed.

(** *** The node: its state is the configuration; with nobody to vote there is
    no leader, and proposals are dropped *)

Definition change (cs : raftpb.ConfState) (cc : raftpb.ConfChange) : raftpb.ConfState :=
  let others := filter (fun i => i <> raftpb.NodeID cc) (raftpb.Voters cs) in
  match raftpb.cc_Type cc with
  | raftpb.ConfChangeAddNode =>
      raftpb.MkConfState (others ++ [raftpb.NodeID cc]) (raftpb.Learners cs)
  | raftpb.ConfChangeRemoveNode => raftpb.MkConfState others (raftpb.Learners cs)
  | raftpb.ConfChangeUpdateNode => cs
  | raftpb.ConfChangeAddLearnerNode =>
      raftpb.MkConfState others (raftpb.Learners cs ++ [raftpb.NodeID cc])
  end.

(** A change is two bytes: its kind and the node. *)
Definition decode_change (b : bytes) : result raftpb.ConfChange :=
  match b with
  | [k; i] =>
      let id := Z.of_N (Byte.to_N i) in
      match Byte.to_N k with
      | 0%N => inr (raftpb.MkConfChange raftpb.ConfChangeAddNode id "http://peer")
      | 1%N => inr (raftpb.MkConfChange raftpb.ConfChangeRemoveNode id "")
      | 2%N => inr (raftpb.MkConfChange raftpb.ConfChangeUpdateNode id "http://peer")
      | _ => inr (raftpb.MkConfChange raftpb.ConfChangeAddLearnerNode id "")
      end
  | _ => inl (OtherError "unexpected EOF")
  end.

#[export] Instance raft : RaftLib := {
  IsEmptySnap s := raftpb.md_Index (raftpb.Metadata s) =? 0;
  IsEmptyHardState st := bool_decide (st = raftpb.emptyState);
  MustSync st prev n :=
    negb (n =? 0)%nat || negb (raftpb.hs_Vote st =? raftpb.hs_Vote prev)
    || negb (raftpb.hs_Term st =? raftpb.hs_Term prev);
  RNode := raftpb.ConfState;
  StartNode _ peers := raftpb.MkConfState peers [];
  RestartNode _ := raftpb.MkConfState [] [];
  RN_Tick n := n;
  RN_Step n _ := (n, None);
  RN_ReportUnreachable n _ := n;
  RN_ReportSnapshot n _ _ := n;
  RN_Stop n := n;
  RN_Propose n _ := (n, match raftpb.Voters n with
                        | [] => Some (OtherError "raft proposal dropped")
                        | _ => None
                        end);
  RN_ProposeConfChange n _ := (n, None);
  RN_ApplyConfChange n cc := (change n cc, change n cc);
  RN_ReadIndex n _ := (n, None);
  RN_Advance n := n;
  RN_Lead n := 0;
  ConfChange_Unmarshal := decode_change
}.

#[export] Instance raft_laws : RaftLaws.
Proof.
  constructor; simpl; intros.
  - apply Z.eqb_eq.
  - apply bool_decide_eq_true.
  - destruct n; [lia|done].
Qed.

End MemRaft.
