(* ===== verification/Config.v ===== *)
(** * Configuration, opening and garbage collection

    [src/config.go], the constructors of [src/store.go], and of
    [src/badger.go] the functions that open, close and collect the database.
    The options of Badger are a type of that library. *)

From S2P Require Import Prelude Errors Mvcc BadgerApi MemBadger Codecs MemCodecs Badger RaftApi.

(** ** Badger's options, opening, and its value log *)

Class BadgerOpen `{BadgerAPI} := {
  Options : Type;
  WithDir : Options -> string -> Options;
  WithLogger : Options -> bool -> Options;
  opt_Dir : Options -> string;
  opt_InMemory : Options -> bool;
  badger_Open : Options -> result DB;
  badger_OpenManaged : Options -> result DB;
  DB_Close : DB -> DB * option error;
  DB_SetDiscardTs : DB -> Z -> DB;
  DB_RunValueLogGC : DB -> Z -> DB * option error;
  DB_Size : DB -> Z * Z
}.

(** The [With] functions return a copy with the one field set. *)
Class BadgerOpenLaws `{O : BadgerOpen} : Prop := {
  WithDir_dir : forall o d, opt_Dir (WithDir o d) = d;
  WithDir_mem : forall o d, opt_InMemory (WithDir o d) = opt_InMemory o;
  WithLogger_dir : forall o b, opt_Dir (WithLogger o b) = opt_Dir o;
  WithLogger_mem : forall o b, opt_InMemory (WithLogger o b) = opt_InMemory o
}.

(** ** config.go *)

Definition SchemaTypeJson : string := "json".
Definition SchemaTypeProtobuf : string := "protobuf".

Definition DBSubDir : string := "db".

Record Cluster := MkCluster {
  GetID : Z;
  GetName : string;
  IsNodeRemoved : Z -> bool
}.

Record RaftConfig := MkRaftCfg {
  rcfg : raft_Config;
  Nodename : string;
  Peers : gmap Z string
}.

Record SchemaConfig `{ProtoLib} := MkSchemaConfig {
  sc_Type : string;
  ProtoSchemaList : list FileDescriptorSet
}.

(** [GCDiscardRatio] in thousandths; the hooks: whether they are set. *)
Record Config `{BadgerOpen} `{ProtoLib} := MkConfig {
  cfg_Name : string;
  BaseDir : string;
  cfg_Logger : bool;
  GCInterval : Z;
  GCDiscardRatio : Z;
  BadgerOptions : Options;
  RaftConfig_ : option RaftConfig;
  Cluster_ : option Cluster;
  SchemaConfig_ : option SchemaConfig;
  OnLeaderChange : bool;
  OnRemovedSelf : bool
}.

Module Config.
Section Config.
Context `{BO : BadgerOpen} `{P : ProtoLib}.

(** The defaults, once the required fields are there. *)
Definition with_defaults (cfg : Config) : Config :=
  let name := if decide (cfg_Name cfg = "") then "omashu" else cfg_Name cfg in
  let opts := WithDir (BadgerOptions cfg) (BaseDir cfg +:+ "/" +:+ DBSubDir) in
  let opts := WithLogger opts (cfg_Logger cfg) in
  MkConfig _ _ _ name (if opt_InMemory opts then "" else BaseDir cfg) true (GCInterval cfg)
    (GCDiscardRatio cfg) opts (RaftConfig_ cfg) (Cluster_ cfg) (SchemaConfig_ cfg)
    (OnLeaderChange cfg) (OnRemovedSelf cfg).

(** [cache] is the descriptor store of the process. *)
Definition validate (cache : option Dynamic.protoDescriptorStore) (cfg : Config)
    (distributed : bool) : option Dynamic.protoDescriptorStore * Config * option error :=
  match Cluster_ cfg with
  | None => (cache, cfg, Some ErrMissingCluster)
  | Some _ =>
  if decide (BaseDir cfg = "") then (cache, cfg, Some ErrMissingBaseDir) else
  match SchemaConfig_ cfg with
  | None => (cache, cfg, Some ErrMissingSchemaConfig)
  | Some sc =>
      let proto := bool_decide (sc_Type sc = SchemaTypeProtobuf) in
      if proto && (length (ProtoSchemaList sc) =? 0)%nat
      then (cache, cfg, Some ErrMissingSchemaConfig)
      else
        let cache := if proto then Dynamic.NewProtoDescriptorStore cache (ProtoSchemaList sc)
                     else cache in
        match distributed, RaftConfig_ cfg with
        | true, None => (cache, cfg, Some ErrMissingRaftConf)
        | _, _ => (cache, with_defaults cfg, None)
        end
  end
  end.

(** Nanoseconds; the product is one of [int]s. *)
Definition PeerDialTimeout (cfg : Config) : outcome Z :=
  match RaftConfig_ cfg with
  | None => Panic "RaftConfig is required for distributed mode"
  | Some rc => Ret (i64 (10 ^ 9 + i64 (i64 (ElectionTick (rcfg rc) * HeartbeatTick (rcfg rc)) * 10 ^ 6)))
  end.

(** ** Opening *)

(** The store and what its garbage collector is set up with. *)
Record instance := MkInstance {
  in_store : Badger.store;
  path : string;
  gcInterval : Z;
  gcDiscardRatio : Z
}.

Definition initBadger (managed : bool) (cfg : Config) : result instance :=
  db ← (if managed then badger_OpenManaged (BadgerOptions cfg)
        else badger_Open (BadgerOptions cfg));
  inr (MkInstance (Badger.Store managed db false) (opt_Dir (BadgerOptions cfg))
         (GCInterval cfg) (GCDiscardRatio cfg)).

Definition NewBadger (cache : option Dynamic.protoDescriptorStore) (cfg : Config)
    : option Dynamic.protoDescriptorStore * Config * result instance :=
  let '(cache, cfg, err) := validate cache cfg false in
  (cache, cfg, match err with Some e => inl e | None => initBadger false cfg end).

(** Up to [initDistributed]. *)
Definition open_distributed (cache : option Dynamic.protoDescriptorStore) (cfg : Config)
    : option Dynamic.protoDescriptorStore * Config * result instance :=
  let '(cache, cfg, err) := validate cache cfg true in
  (cache, cfg, match err with Some e => inl e | None => initBadger true cfg end).

Definition with_db (i : instance) (d : DB) : instance :=
  MkInstance (Badger.Store (Badger.managed (in_store i)) d (Badger.oracle_set (in_store i)))
    (path i) (gcInterval i) (gcDiscardRatio i).

Definition Close (i : instance) : instance := with_db i (DB_Close (Badger.db (in_store i))).1.

(** ** The value-log collector *)

(** [for err == nil { err = RunValueLogGC }]. *)
Fixpoint gc_loop (fuel : nat) (ratio : Z) (d : DB) : outcome DB :=
  match fuel with
  | O => Hang
  | S fuel =>
      match DB_RunValueLogGC d ratio with
      | (d', None) => gc_loop fuel ratio d'
      | (d', Some _) => Ret d'
      end
  end.

Definition abs (a b : Z) : Z := if b <? a then a - b else b - a.

(** One tick: [discardAt] is the oracle's watermark, [lastSz] the size at the
    last report. *)
Definition runGC (fuel : nat) (discardAt : Z) (i : instance) (lastSz : Z)
    : outcome (instance * Z) :=
  let b := in_store i in
  if Badger.managed b && negb (Badger.oracle_set b) then Ret (i, lastSz)
  else
    let d := if Badger.managed b then DB_SetDiscardTs (Badger.db b) discardAt else Badger.db b in
    d ← gc_loop fuel (gcDiscardRatio i) d;
    let sz := (DB_Size d).2 in
    Ret (with_db i d, if 512 * 2 ^ 20 <? abs lastSz sz then sz else lastSz).

(** The routine until the context is done, one watermark for each tick;
    [time.NewTicker] panics unless the interval is positive. *)
Definition runVlogGC (fuel : nat) (ticks : list Z) (i : instance) : outcome instance :=
  if gcInterval i <=? 0 then Panic "non-positive interval for NewTicker"
  else
    '(i, _) ← foldr (fun discardAt k il =>
                       '(i, lastSz) ← runGC fuel discardAt il.1 il.2; k (i, lastSz))
                    (fun il => Ret il) ticks (i, 0);
    Ret i.

(** ** Properties *)

(** A configuration [validate] accepts. *)
Definition complete (cfg : Config) (distributed : bool) : Prop :=
  is_Some (Cluster_ cfg) /\ BaseDir cfg <> "" /\
  (exists sc, SchemaConfig_ cfg = Some sc /\
     (sc_Type sc = SchemaTypeProtobuf -> ProtoSchemaList sc <> [])) /\
  (distributed = true -> is_Some (RaftConfig_ cfg)).

End Config.

Section Validation.
Context `{BL : BadgerOpenLaws} `{P : ProtoLib}.

Lemma validate_complete cache cfg distributed : complete cfg distributed ->
  exists cache', validate cache cfg distributed = (cache', with_defaults cfg, None).
Proof.
  intros ([c Ec] & Hb & (sc & Es & Hp) & Hr). unfold validate.
  rewrite Ec, decide_False, Es by done.
  assert (bool_decide (sc_Type sc = SchemaTypeProtobuf) &&
    (length (ProtoSchemaList sc) =? 0)%nat = false) as ->.
  { destruct (bool_decide_reflect (sc_Type sc = SchemaTypeProtobuf)); [|done].
    destruct (ProtoSchemaList sc); [tauto|done]. }
  destruct distributed; [|eauto]. destruct Hr as [rc ->]; eauto.
Qed.

Lemma validate_cases cache cfg distributed :
  match validate cache cfg distributed with
  | (_, cfg', None) => complete cfg distributed /\ cfg' = with_defaults cfg
  | (_, cfg', Some err) => cfg' = cfg /\
      err ∈ [ErrMissingCluster; ErrMissingBaseDir; ErrMissingSchemaConfig; ErrMissingRaftConf]
  end.
Proof.
  unfold validate, complete.
  destruct (Cluster_ cfg) as [c|]; [|split; [done|set_solver]].
  destruct (decide (BaseDir cfg = "")) as [Eb|Eb]; [split; [done|set_solver]|].
  destruct (SchemaConfig_ cfg) as [sc|]; [|split; [done|set_solver]].
  destruct (bool_decide (sc_Type sc = SchemaTypeProtobuf) && (length (ProtoSchemaList sc) =? 0)%nat)
    eqn:Ep; [split; [done|set_solver]|].
  assert (sc_Type sc = SchemaTypeProtobuf -> ProtoSchemaList sc <> []) as Hp.
  { intros Et Es. by rewrite bool_decide_true, Es in Ep. }
  destruct distributed; destruct (RaftConfig_ cfg) as [rc|]; try (split; [done|set_solver]);
    (split; [|done]); (split; [by eexists|]); (split; [done|]);
    (split; [by exists sc|]); by eauto.
Qed.

Lemma revalidate_in_memory cache cfg distributed :
  opt_InMemory (BadgerOptions cfg) = true -> is_Some (Cluster_ cfg) ->
  validate cache (with_defaults cfg) distributed
    = (cache, with_defaults cfg, Some ErrMissingBaseDir).
Proof.
  intros Hm [c Ec]. unfold validate. cbn [Cluster_ BaseDir with_defaults].
  rewrite Ec, WithLogger_mem, WithDir_mem, Hm. by rewrite decide_True.
Qed.


End Validation.

(** ** An in-memory database *)

#[global] Instance MemOpen : BadgerOpen := {
  Options := string * bool;
  WithDir o d := (d, o.2);
  WithLogger o _ := o;
  opt_Dir := fst;
  opt_InMemory := snd;
  badger_Open _ := inr (MemDB ∅ true);
  badger_OpenManaged _ := inr (MemDB ∅ false);
  DB_Close d := (d, None);
  DB_SetDiscardTs d _ := d;
  DB_RunValueLogGC d _ := (d, Some (OtherError "Value log GC attempt did not result in any cleanup"));
  DB_Size _ := (0, 0)
}.

#[global] Instance MemOpenLaws : BadgerOpenLaws.
Proof. by split. Qed.

Definition in_memory : Config :=
  MkConfig _ _ _ "" "/data" false 60 500 ("", true) None
    (Some (MkCluster 1 "one" (fun _ => false))) (Some (MkSchemaConfig _ SchemaTypeJson [])) false false.

End Config.
