(* ===== verification/Replication.v ===== *)
(** * Snapshots of the store

    The replicator ([src/replication.go]) and the state machine's snapshot
    methods ([FSM.CreateSnapshot], [FSM.RestoreSnapshot] of [src/fsm.go]): a
    snapshot is a full backup, restoring drops everything and loads it.  A
    replica that receives a snapshot and then the rest of the log must end
    where the replicas that applied the whole log do. *)

From S2P Require Import Prelude Errors Utils Mvcc BadgerApi MemBadger Codecs.
From S2P Require Import MemCodecs Badger BadgerReads BadgerWrites Command MemCommand.
From S2P Require Import Fsm FsmLog RaftApi.

(** ** Operations *)

Module Replicate.
Section Replicate.
Context `{BadgerAPI}.

Definition maxRestorePendingTxns : nat := 256.

Definition TakeSnapshot (b : Badger.store) : result (Z * bytes) := DB_Backup (Badger.db b) 0.

Definition with_db (b : Badger.store) (d : DB) : Badger.store :=
  Badger.Store (Badger.managed b) d (Badger.oracle_set b).

Definition Restore (b : Badger.store) (data : bytes) : Badger.store * option error :=
  match DB_DropAll (Badger.db b) with
  | (d, Some _) =>
      (with_db b d,
       Some (OtherError "failed to drop existing data before snapshot restore"))
  | (d, None) =>
      let '(d', err) := DB_Load d data maxRestorePendingTxns in (with_db b d', err)
  end.

(** The two methods of the state machine: [NewReplicator] does not fail. *)
Definition RestoreSnapshot (b : Badger.store) (snapshot : raftpb.Snapshot)
    : Badger.store * option error :=
  Restore b (raftpb.sn_Data snapshot).

Definition CreateSnapshot (b : Badger.store) : result (Z * bytes) := TakeSnapshot b.

End Replicate.

(** ** What a command computes depends on what can be read *)

Section View.
Context `{BadgerAPI} `{JsonLib} `{ProtoLib} `{CommandCodec}.
Context (cache : option Dynamic.protoDescriptorStore).

Definition view_only {A} (n : Z) (f : atxn A) : Prop :=
  forall sn sn' p, omap (live n) sn = omap (live n) sn' -> f sn p = f sn' p.

Lemma read_view n sn sn' p : omap (live n) sn = omap (live n) sn' ->
  Spec.read n sn p = Spec.read n sn' p.
Proof.
  intros E. apply map_eq. intros k. unfold Spec.read. rewrite !lookup_omap, !lookup_union.
  apply (f_equal (lookup k)) in E. rewrite !lookup_omap in E.
  destruct (p !! k), (sn !! k), (sn' !! k); done.
Qed.

Lemma del_prefix_view n pre : view_only n (Spec.del_prefix n pre).
Proof. intros sn sn' p E. unfold Spec.del_prefix. by rewrite (read_view n sn sn' p E). Qed.

Lemma counter_view n k f init : view_only n (Spec.counter n k f init).
Proof. intros sn sn' p E. unfold Spec.counter. by rewrite (read_view n sn sn' p E). Qed.

Lemma sub_view n c : view_only n (Fsm.sub_spec cache n c).
Proof.
  unfold Fsm.sub_spec, Fsm.update_spec.
  destruct (Type_ c); try done; try apply counter_view.
  intros sn sn' p E. destruct (UpdateMeta_ c) as [meta|]; [|done].
  destruct (UpdateDeltaType_ meta); try done;
    destruct (Commands.UnmarshalUpdateDelta cache c) as [[?|[m|m]]| |]; try done;
    unfold Spec.update_json, Spec.update_proto; by rewrite (read_view n sn sn' p E).
Qed.

Lemma subs_view n subs : view_only n (Fsm.subs_spec cache n subs).
Proof.
  induction subs as [|c subs IH]; [done|]. intros sn sn' p E. simpl.
  rewrite (sub_view n c sn sn' p E).
  destruct (Fsm.sub_spec cache n c sn' p) as [[p' [err|]]| |]; try done. by apply IH.
Qed.

Lemma cmd_view n c : view_only n (Fsm.cmd_spec cache n c).
Proof.
  unfold Fsm.cmd_spec. destruct (Type_ c); try apply sub_view; [apply subs_view|apply del_prefix_view].
Qed.

(** Two histories a reader after [t] cannot tell apart. *)
Definition alike (t : Z) (h h' : history) : Prop :=
  hist_le h t /\ hist_le h' t /\
  forall n, omap (live n) (snap_at h max_u64) = omap (live n) (snap_at h' max_u64).

Lemma alike_step n t h h' d l : alike t h h' -> t <= max_u64 -> FsmLog.serial t (d :: l) ->
  match FsmLog.step_entry cache n h d, FsmLog.step_entry cache n h' d with
  | Ret (h1, r), Ret (h1', r') => r = r' /\
      exists t', alike t' h1 h1' /\ t' <= max_u64 /\ FsmLog.serial t' l
  | Panic s, Panic s' => s = s'
  | Hang, Hang => True
  | _, _ => False
  end.
Proof.
  intros (Hh & Hh' & Hv) Ht. simpl. unfold FsmLog.step_entry.
  destruct (Commands.DecodeCommand d) as [err|c]; [unfold alike; eauto 10|].
  intros (Hr & Hm & Hs). unfold FsmLog.step_hist.
  rewrite (snap_at_settled h t (ReadTs c) max_u64), (snap_at_settled h' t (ReadTs c) max_u64)
    by (done || lia).
  rewrite (cmd_view n c _ (snap_at h' max_u64) ∅ (Hv n)).
  destruct (Fsm.cmd_spec _ _ _ _ _) as [[p [err|]]| |]; try done.
  - split; [done|]. exists (CommitTs c). split; [|done].
    split; [eapply hist_le_mono; [done|lia]|]. split; [eapply hist_le_mono; [done|lia]|done].
  - split; [done|]. exists (CommitTs c). split; [|done].
    split; [eapply hist_le_add; [done|lia]|]. split; [eapply hist_le_add; [done|lia]|].
    intros m. rewrite !snap_at_add_newest by (done || (eapply hist_le_mono; [done|lia])).
    by apply (read_view m _ _ p).
Qed.

Lemma alike_run n t h h' l : alike t h h' -> t <= max_u64 -> FsmLog.serial t l ->
  match run (FsmLog.step_entry cache n) h l, run (FsmLog.step_entry cache n) h' l with
  | Ret (h1, rs), Ret (h1', rs') => rs = rs' /\ exists t', alike t' h1 h1'
  | Panic s, Panic s' => s = s'
  | Hang, Hang => True
  | _, _ => False
  end.
Proof.
  revert t h h'. induction l as [|d l IH]; intros t h h' Ha Ht Hs; [simpl; eauto|].
  pose proof (alike_step n t h h' d l Ha Ht Hs) as Hst. cbn [run].
  destruct (FsmLog.step_entry cache n h d) as [[h1 r]| |],
    (FsmLog.step_entry cache n h' d) as [[h1' r']| |]; try done.
  destruct Hst as (<- & t' & Ha' & Ht' & Hs'). simpl.
  specialize (IH t' h1 h1' Ha' Ht' Hs').
  destruct (run _ h1 l) as [[h2 rs]| |], (run _ h1' l) as [[h2' rs']| |]; try done.
  by destruct IH as [<- ?].
Qed.

End View.

(** ** A replica brought up to date by a snapshot *)

Section Transfer.
Context `{BadgerLaws} `{JsonLib} `{ProtoLib} `{CommandCodec}.
Context (cache : option Dynamic.protoDescriptorStore).

Lemma Restore_backup b1 b2 upto data t :
  TakeSnapshot b1 = inr (upto, data) -> upto <= max_u64 ->
  FsmLog.replica_ok b1 -> detect_conflicts (Badger.db b2) = false ->
  hist_le (hist (Badger.db b1)) t ->
  exists b2', Restore b2 data = (b2', None) /\ FsmLog.replica_ok b2' /\
    (forall now ts, upto <= ts ->
       view_at now (hist (Badger.db b2')) ts = view_at now (hist (Badger.db b1)) ts) /\
    alike t (hist (Badger.db b1)) (hist (Badger.db b2')).
Proof.
  intros E Hu [_ Hn] Hd Hle. unfold Restore.
  destruct (drop_all_ok (Badger.db b2)) as (d & -> & Hh & Ed).
  destruct (load_ok _ _ _ d maxRestorePendingTxns E Hh) as (d' & -> & Hv & Hsub & Ed').
  eexists. split; [reflexivity|]. split; [split; [simpl; congruence|]|].
  - intros k vs u v Hk Ht. destruct (Hsub k vs u v Hk Ht) as (vs0 & ? & ?). eauto.
  - split; [exact Hv|]. split; [exact Hle|]. split.
    + intros k vs u v Hk Ht. destruct (Hsub k vs u v Hk Ht) as (vs0 & ? & ?). eauto.
    + intros n. symmetry. apply (Hv n max_u64 Hu).
Qed.


End Transfer.

(** *** A follower with a stale key *)

Definition stale_follower : Badger.store :=
  Badger.Store true (mem_seed 3 [("stale", [])] false) true.

End Replicate.
