(* ===== verification/WalRecord.v ===== *)
(** * walpb/record.pb.go and walpb/record.go

    The records of the write-ahead log on the wire: the varints, the encoding
    of [walpb.Record] and [walpb.Snapshot] and their decoding loops, unknown
    fields included.  [raftpb.ConfState] is marshalled by the raft library: the
    class [RaftCodec] holds its marshallers and those of entries, hard states
    and snapshots.  The theorems are the round trips and the exactness of
    [Size]. *)

From S2P Require Import Prelude Errors Utils RaftApi.
From Stdlib Require Import Strings.Byte.

Definition EOF : error := OtherError "EOF".
Definition ErrUnexpectedEOF : error := OtherError "unexpected EOF".
Definition ErrInvalidLengthRecord : error :=
  OtherError "proto: negative length found during unmarshaling".
Definition ErrIntOverflowRecord : error := OtherError "proto: integer overflow".
Definition ErrUnexpectedEndOfGroupRecord : error :=
  OtherError "proto: unexpected end of group".
Definition ErrCRCMismatch : error := OtherError "walpb: crc mismatch".

(** ** Varints *)

Definition u32 (z : Z) : Z := z mod 2 ^ 32.

(** The loop of [encodeVarintRecord]; ten groups of seven bits hold 64. *)
Fixpoint put_varint (fuel : nat) (v : Z) : bytes :=
  match fuel with
  | O => []
  | S f =>
      if 128 <=? v
      then byte_of_Z (Z.lor (Z.land v 127) 128) :: put_varint f (Z.shiftr v 7)
      else [byte_of_Z v]
  end.

Definition encodeVarintRecord (v : Z) : bytes := put_varint 10 v.

(** [math_bits.Len64]. *)
Definition Len64 (x : Z) : Z := if x =? 0 then 0 else Z.log2 x + 1.

Definition sovRecord (x : Z) : Z := (Len64 (Z.lor x 1) + 6) / 7.

(** The loop that reads a varint, [shift] going up by seven until 64; the
    variable it accumulates in has the width of [wrap]. *)
Fixpoint get_varint (fuel : nat) (wrap : Z -> Z) (shift acc : Z) (b : bytes)
    : result (Z * bytes) :=
  match fuel with
  | O => inl ErrIntOverflowRecord
  | S f =>
      match b with
      | [] => inl ErrUnexpectedEOF
      | x :: b' =>
          let acc' := Z.lor acc (wrap (Z.shiftl (Z.land (Z_of_byte x) 127) shift)) in
          if Z_of_byte x <? 128 then inr (acc', b')
          else get_varint f wrap (shift + 7) acc' b'
      end
  end.

Definition read_varint (wrap : Z -> Z) (b : bytes) : result (Z * bytes) :=
  get_varint 10 wrap 0 0 b.

(** ** Records *)

Module walpb.

Record Record_ := MkRecord {
  Type_ : Z;
  Crc : Z;
  Data : option bytes;
  XXX_unrecognized : bytes
}.

Definition rec_Reset : Record_ := MkRecord 0 0 None [].

(** A length-delimited field after its tag. *)
Definition put_bytes (b : bytes) : bytes :=
  encodeVarintRecord (Z.of_nat (length b)) ++ b.

Definition Record_Marshal (m : Record_) : bytes :=
  x08 :: encodeVarintRecord (u64 (Type_ m)) ++
  x10 :: encodeVarintRecord (Crc m) ++
  match Data m with Some d => x1a :: put_bytes d | None => [] end ++
  XXX_unrecognized m.

Definition Record_Size (m : Record_) : Z :=
  1 + sovRecord (u64 (Type_ m)) + (1 + sovRecord (Crc m)) +
  match Data m with
  | Some d => let l := Z.of_nat (length d) in 1 + l + sovRecord l
  | None => 0
  end + Z.of_nat (length (XXX_unrecognized m)).

(** [skipRecord]: the length of the field at the head of the buffer, groups
    and all; [i] is the index reached, [depth] the open groups.  Every round
    reads at least one byte, so the length of the buffer bounds the rounds. *)
Fixpoint skip_loop (fuel : nat) (dAtA : bytes) (i depth : Z) : result Z :=
  match fuel with
  | O => inl ErrUnexpectedEOF
  | S f =>
      let l := Z.of_nat (length dAtA) in
      if i <? l then
        '(wire, r) ← read_varint u64 (drop (Z.to_nat i) dAtA);
        let i1 := l - Z.of_nat (length r) in
        let continue i2 depth' :=
          if i2 <? 0 then inl ErrInvalidLengthRecord
          else if depth' =? 0 then inr i2
          else skip_loop f dAtA i2 depth' in
        match Z.land wire 7 with
        | 0 => '(_, r') ← read_varint u64 r; continue (l - Z.of_nat (length r')) depth
        | 1 => continue (i64 (i1 + 8)) depth
        | 2 =>
            '(n, r') ← read_varint i64 r;
            if n <? 0 then inl ErrInvalidLengthRecord
            else continue (i64 (l - Z.of_nat (length r') + n)) depth
        | 3 => continue i1 (depth + 1)
        | 4 => if depth =? 0 then inl ErrUnexpectedEndOfGroupRecord
               else continue i1 (depth - 1)
        | 5 => continue (i64 (i1 + 4)) depth
        | _ => inl (OtherError "proto: illegal wireType")
        end
      else inl ErrUnexpectedEOF
  end.

Definition skipRecord (dAtA : bytes) : result Z :=
  skip_loop (S (length dAtA)) dAtA 0 0.

(** The bytes of a length-delimited field, with what follows; [l] is the
    length of the whole message and [r] what is left of it after the length
    [n]. *)
Definition take_field (l n : Z) (r : bytes) : result (bytes * bytes) :=
  if n <? 0 then inl ErrInvalidLengthRecord
  else
    let iNdEx := l - Z.of_nat (length r) in
    let postIndex := i64 (iNdEx + n) in
    if postIndex <? 0 then inl ErrInvalidLengthRecord
    else if l <? postIndex then inl ErrUnexpectedEOF
    else inr (take (Z.to_nat n) r, drop (Z.to_nat n) r).

(** An unknown field that starts at [at_]: it is skipped and kept. *)
Definition unknown_field (l : Z) (at_ : bytes) : result (bytes * bytes) :=
  skippy ← skipRecord at_;
  let iNdEx := l - Z.of_nat (length at_) in
  if (skippy <? 0) || (i64 (iNdEx + skippy) <? 0) then inl ErrInvalidLengthRecord
  else if l <? i64 (iNdEx + skippy) then inl ErrUnexpectedEOF
  else inr (take (Z.to_nat skippy) at_, drop (Z.to_nat skippy) at_).

(** [int32(wire >> 3)]. *)
Definition fieldNum (wire : Z) : Z := (Z.shiftr wire 3 + 2 ^ 31) mod 2 ^ 32 - 2 ^ 31.

Definition wrong_type {A} (w : Z) (field : string) : result A :=
  inl (OtherError ("proto: wrong wireType for field " ++ field)).

(** [Record.Unmarshal]: a round per field; [b] is what is left. *)
Fixpoint Record_loop (fuel : nat) (l : Z) (m : Record_) (b : bytes) : result Record_ :=
  match fuel, b with
  | _, [] => inr m
  | O, _ => inl ErrUnexpectedEOF
  | S f, _ =>
      '(wire, r) ← read_varint u64 b;
      let w := Z.land wire 7 in
      if w =? 4 then inl (OtherError "proto: Record: wiretype end group for non-group")
      else if fieldNum wire <=? 0 then inl (OtherError "proto: Record: illegal tag")
      else match fieldNum wire with
      | 1 =>
          if negb (w =? 0) then wrong_type w "Type" else
          '(v, r') ← read_varint i64 r;
          Record_loop f l (MkRecord v (Crc m) (Data m) (XXX_unrecognized m)) r'
      | 2 =>
          if negb (w =? 0) then wrong_type w "Crc" else
          '(v, r') ← read_varint u32 r;
          Record_loop f l (MkRecord (Type_ m) v (Data m) (XXX_unrecognized m)) r'
      | 3 =>
          if negb (w =? 2) then wrong_type w "Data" else
          '(n, r') ← read_varint i64 r;
          '(d, r'') ← take_field l n r';
          Record_loop f l (MkRecord (Type_ m) (Crc m) (Some d) (XXX_unrecognized m)) r''
      | _ =>
          '(u, r') ← unknown_field l b;
          Record_loop f l (MkRecord (Type_ m) (Crc m) (Data m) (XXX_unrecognized m ++ u)) r'
      end
  end.

(** Decoding into a record that was reset. *)
Definition Record_Unmarshal (b : bytes) : result Record_ :=
  Record_loop (length b) (Z.of_nat (length b)) rec_Reset b.

(** [Record.Validate]. *)
Definition Validate (m : Record_) (crc : Z) : option error :=
  if Crc m =? crc then None else Some ErrCRCMismatch.

(** ** Snapshot records *)

Record Snapshot := MkSnapshot {
  Index : Z;
  Term : Z;
  ConfState : option raftpb.ConfState;
  sn_unrecognized : bytes
}.

Definition empty_Snapshot : Snapshot := MkSnapshot 0 0 None [].

(** [ValidateSnapshotForWrite]: a snapshot other than the initial one carries
    its configuration. *)
Definition ValidateSnapshotForWrite (e : Snapshot) : option error :=
  match ConfState e with
  | None => if 0 <? Index e
            then Some (OtherError "Saved (not-initial) snapshot is missing ConfState: ")
            else None
  | Some _ => None
  end.

End walpb.

(** ** The raft library's marshallers *)

Class RaftCodec := {
  ConfState_Marshal : raftpb.ConfState -> bytes;
  ConfState_Unmarshal : raftpb.ConfState -> bytes -> result raftpb.ConfState;
  Entry_Marshal : raftpb.Entry -> bytes;
  Entry_Unmarshal : bytes -> result raftpb.Entry;
  HardState_Marshal : raftpb.HardState -> bytes;
  HardState_Unmarshal : bytes -> result raftpb.HardState;
  Snapshot_Marshal : raftpb.Snapshot -> bytes;
  Snapshot_Unmarshal : bytes -> result raftpb.Snapshot
}.

Definition emptyConfState : raftpb.ConfState := raftpb.MkConfState [] [].

(** Decoding what was encoded gives the message back. *)
Class RaftCodecLaws `{C : RaftCodec} : Prop := {
  confstate_codec : forall c, ConfState_Unmarshal emptyConfState (ConfState_Marshal c) = inr c;
  entry_codec : forall e, Entry_Unmarshal (Entry_Marshal e) = inr e;
  hardstate_codec : forall s, HardState_Unmarshal (HardState_Marshal s) = inr s;
  snapshot_codec : forall s, Snapshot_Unmarshal (Snapshot_Marshal s) = inr s
}.

Module WalSnapshot.
Import walpb.
Section Snap.
Context `{C : RaftCodec}.

Definition Snapshot_Marshal_ (m : Snapshot) : bytes :=
  x08 :: encodeVarintRecord (Index m) ++
  x10 :: encodeVarintRecord (Term m) ++
  match ConfState m with Some c => x1a :: put_bytes (ConfState_Marshal c) | None => [] end ++
  sn_unrecognized m.

Definition Snapshot_Size (m : Snapshot) : Z :=
  1 + sovRecord (Index m) + (1 + sovRecord (Term m)) +
  match ConfState m with
  | Some c => let l := Z.of_nat (length (ConfState_Marshal c)) in 1 + l + sovRecord l
  | None => 0
  end + Z.of_nat (length (sn_unrecognized m)).

Fixpoint Snapshot_loop (fuel : nat) (l : Z) (m : Snapshot) (b : bytes) : result Snapshot :=
  match fuel, b with
  | _, [] => inr m
  | O, _ => inl ErrUnexpectedEOF
  | S f, _ =>
      '(wire, r) ← read_varint u64 b;
      let w := Z.land wire 7 in
      if w =? 4 then inl (OtherError "proto: Snapshot: wiretype end group for non-group")
      else if fieldNum wire <=? 0 then inl (OtherError "proto: Snapshot: illegal tag")
      else match fieldNum wire with
      | 1 =>
          if negb (w =? 0) then wrong_type w "Index" else
          '(v, r') ← read_varint u64 r;
          Snapshot_loop f l (MkSnapshot v (Term m) (ConfState m) (sn_unrecognized m)) r'
      | 2 =>
          if negb (w =? 0) then wrong_type w "Term" else
          '(v, r') ← read_varint u64 r;
          Snapshot_loop f l (MkSnapshot (Index m) v (ConfState m) (sn_unrecognized m)) r'
      | 3 =>
          if negb (w =? 2) then wrong_type w "ConfState" else
          '(n, r') ← read_varint i64 r;
          '(d, r'') ← take_field l n r';
          c ← ConfState_Unmarshal (default emptyConfState (ConfState m)) d;
          Snapshot_loop f l (MkSnapshot (Index m) (Term m) (Some c) (sn_unrecognized m)) r''
      | _ =>
          '(u, r') ← unknown_field l b;
          Snapshot_loop f l
            (MkSnapshot (Index m) (Term m) (ConfState m) (sn_unrecognized m ++ u)) r'
      end
  end.

Definition Snapshot_Unmarshal_ (b : bytes) : result Snapshot :=
  Snapshot_loop (length b) (Z.of_nat (length b)) empty_Snapshot b.

End Snap.
End WalSnapshot.

(** ** Round trips *)

Section Varints.

Lemma land_127 v : 0 <= v -> Z.land v 127 = v mod 128.
Proof. intros Hv. change 127 with (Z.ones 7). by rewrite Z.land_ones. Qed.

Lemma lor_128 r : 0 <= r < 128 -> Z.lor r 128 = 128 + r.
Proof.
  intros Hr. rewrite Z.lor_comm. change 128 with (Z.shiftl 1 7) at 1.
  rewrite lor_shiftl_add by lia. lia.
Qed.

Lemma put_varint_cons f v : 128 <= v ->
  put_varint (S f) v = byte_of_Z (128 + v mod 128) :: put_varint f (v / 128).
Proof.
  intros Hv. simpl. rewrite (proj2 (Z.leb_le _ _)) by done.
  rewrite land_127, lor_128, Z.shiftr_div_pow2 by div_lia. done.
Qed.

Lemma put_varint_last f v : v < 128 -> put_varint (S f) v = [byte_of_Z v].
Proof. intros Hv. simpl. by rewrite (proj2 (Z.leb_gt _ _)). Qed.

Lemma land_low x : 0 <= x < 256 -> Z.land x 127 = x mod 128.
Proof. intros ?. apply land_127. lia. Qed.

Lemma lor_mul_add v shift acc : 0 <= shift -> 0 <= acc < 2 ^ shift ->
  Z.lor acc (v * 2 ^ shift) = acc + v * 2 ^ shift.
Proof.
  intros Hs Ha. rewrite Z.lor_comm, <- Z.shiftl_mul_pow2, lor_shiftl_add by lia.
  rewrite Z.shiftl_mul_pow2 by lia. lia.
Qed.

(** Reading back a varint, whatever the width of the accumulator, as long as
    the value fits it. *)
Lemma get_put_varint wrap f v shift acc rest :
  0 <= v < 2 ^ (7 * Z.of_nat (S f)) -> 0 <= shift -> 0 <= acc < 2 ^ shift ->
  (forall z, 0 <= z <= v * 2 ^ shift -> wrap z = z) ->
  get_varint (S f) wrap shift acc (put_varint (S f) v ++ rest)
    = inr (acc + v * 2 ^ shift, rest).
Proof.
  revert v shift acc. induction f as [|f IH]; intros v shift acc Hv Hs Ha Hw.
  - rewrite put_varint_last by (simpl in Hv; lia).
    cbn [app get_varint]. rewrite Z_of_byte_of_Z, (Z.mod_small v 256) by (simpl in Hv; lia).
    rewrite land_low, (Z.mod_small v 128) by (simpl in Hv; lia).
    rewrite Z.shiftl_mul_pow2, Hw by lia. rewrite (proj2 (Z.ltb_lt _ _)) by (simpl in Hv; lia).
    by rewrite lor_mul_add.
  - assert (0 < 2 ^ shift) as Hp by (apply Z.pow_pos_nonneg; lia).
    destruct (Z.lt_ge_cases v 128).
    + rewrite put_varint_last by lia. set (n := S f). cbn [app get_varint].
      rewrite Z_of_byte_of_Z, (Z.mod_small v 256) by lia.
      rewrite land_low, (Z.mod_small v 128) by lia.
      rewrite Z.shiftl_mul_pow2, Hw by lia. rewrite (proj2 (Z.ltb_lt _ _)) by lia.
      by rewrite lor_mul_add.
    + rewrite put_varint_cons by lia. cbn [app]. remember (S f) as n.
      cbn [get_varint]. subst n.
      rewrite Z_of_byte_of_Z, (Z.mod_small (128 + v mod 128) 256) by div_lia.
      rewrite land_low by div_lia.
      replace ((128 + v mod 128) mod 128) with (v mod 128) by div_lia.
      assert (0 <= v mod 128 <= v) as Hm by div_lia.
      rewrite Z.shiftl_mul_pow2, Hw by (lia || nia).
      rewrite (proj2 (Z.ltb_ge _ _)) by div_lia.
      rewrite lor_mul_add by lia.
      assert (2 ^ (shift + 7) = 128 * 2 ^ shift) as E7.
      { rewrite Z.pow_add_r by lia. lia. }
      rewrite IH; rewrite ?E7.
      * do 2 f_equal. pose proof (Z.div_mod v 128). nia.
      * split; [apply Z.div_pos; lia|]. apply Z.div_lt_upper_bound; [lia|].
        replace (7 * Z.of_nat (S (S f))) with (7 + 7 * Z.of_nat (S f)) in Hv by lia.
        rewrite Z.pow_add_r in Hv by lia. lia.
      * lia.
      * pose proof (Z.mod_pos_bound v 128). nia.
      * intros z Hz. apply Hw. pose proof (Z.div_mod v 128).
        pose proof (Z.mod_pos_bound v 128). nia.
Qed.

Lemma read_encode wrap v rest : is_u64 v ->
  (forall z, 0 <= z <= v -> wrap z = z) ->
  read_varint wrap (encodeVarintRecord v ++ rest) = inr (v, rest).
Proof.
  intros Hv Hw. unfold read_varint, encodeVarintRecord. rewrite get_put_varint; [f_equal; f_equal; lia|..].
  - change (2 ^ (7 * Z.of_nat 10)) with (2 ^ 70). unfold is_u64, two64 in Hv. lia.
  - lia.
  - lia.
  - intros z Hz. apply Hw. lia.
Qed.

Lemma read_u64 v rest : is_u64 v -> read_varint u64 (encodeVarintRecord v ++ rest) = inr (v, rest).
Proof. intros Hv. apply read_encode; [done|]. intros z Hz. apply u64_small. word. Qed.

Lemma read_i64 v rest : 0 <= v < 2 ^ 63 ->
  read_varint i64 (encodeVarintRecord v ++ rest) = inr (v, rest).
Proof. intros Hv. apply read_encode; [word|]. intros z Hz. apply i64_small. word. Qed.

Lemma read_u32 v rest : 0 <= v < 2 ^ 32 ->
  read_varint u32 (encodeVarintRecord v ++ rest) = inr (v, rest).
Proof.
  intros Hv. apply read_encode; [word|]. intros z Hz. apply Z.mod_small. lia.
Qed.

(** [sovRecord] is the length of the encoding. *)
Lemma length_put_varint f v : 0 <= v < 2 ^ (7 * Z.of_nat (S f)) ->
  Z.of_nat (length (put_varint (S f) v)) = Z.log2 (Z.max v 1) / 7 + 1.
Proof.
  revert v. induction f as [|f IH]; intros v Hv.
  - rewrite put_varint_last by (simpl in Hv; lia). simpl length.
    assert (Z.log2 (Z.max v 1) < 7) by (apply Z.log2_lt_pow2; simpl in Hv; lia).
    pose proof (Z.log2_nonneg (Z.max v 1)). rewrite Z.div_small by lia. lia.
  - destruct (Z.lt_ge_cases v 128).
    + rewrite put_varint_last by lia. simpl length.
      assert (Z.log2 (Z.max v 1) < 7) by (apply Z.log2_lt_pow2; lia).
      pose proof (Z.log2_nonneg (Z.max v 1)). rewrite Z.div_small by lia. lia.
    + rewrite put_varint_cons by lia. cbn [length]. rewrite Nat2Z.inj_succ, IH.
      * rewrite (Z.max_l v 1) by lia. rewrite (Z.max_l (v / 128)) by div_lia.
        replace (Z.log2 v) with (Z.log2 (v / 128) + 7).
        { div_lia. }
        change 128 with (2 ^ 7). rewrite <- Z.shiftr_div_pow2 by lia.
        rewrite Z.log2_shiftr by lia.
        assert (7 <= Z.log2 v) by (apply Z.log2_le_pow2; lia). lia.
      * replace (7 * Z.of_nat (S (S f))) with (7 + 7 * Z.of_nat (S f)) in Hv by lia.
        rewrite Z.pow_add_r in Hv by lia. split; [div_lia|].
        apply Z.div_lt_upper_bound; lia.
Qed.

Lemma sov_exact v : is_u64 v -> Z.of_nat (length (encodeVarintRecord v)) = sovRecord v.
Proof.
  intros Hv. unfold encodeVarintRecord. rewrite length_put_varint.
  2:{ change (2 ^ (7 * Z.of_nat 10)) with (2 ^ 70). unfold is_u64, two64 in Hv. lia. }
  unfold sovRecord, Len64.
  assert (Z.lor v 1 <> 0) as Hne.
  { rewrite Z.lor_eq_0_iff. lia. }
  rewrite (proj2 (Z.eqb_neq _ _)) by done.
  assert (Z.log2 (Z.lor v 1) = Z.log2 (Z.max v 1)) as ->.
  { rewrite Z.log2_lor by (unfold is_u64 in Hv; lia). change (Z.log2 1) with 0.
    destruct (Z.le_gt_cases v 0).
    - replace v with 0 by (unfold is_u64 in Hv; lia). done.
    - rewrite !Z.max_l; [done|lia|apply Z.log2_nonneg]. }
  replace (Z.log2 (Z.max v 1) + 1 + 6) with (Z.log2 (Z.max v 1) + 1 * 7) by lia.
  rewrite Z.div_add by lia. done.
Qed.

End Varints.

#[export] Hint Rewrite read_u64 read_i64 read_u32 using (assumption || word || lia) : omashu.

Module RecordCodec.
Import walpb.

(** Records as the log writes them: the fields fit their types, the data is
    far below the largest length, and there is nothing unknown. *)
Definition fits (m : Record_) : Prop :=
  0 <= Type_ m < 2 ^ 63 /\ 0 <= Crc m < 2 ^ 32 /\
  Z.of_nat (length (default [] (Data m))) < 2 ^ 62 /\ XXX_unrecognized m = [].

Lemma read_tag b r : Z_of_byte b < 128 -> read_varint u64 (b :: r) = inr (Z_of_byte b, r).
Proof.
  intros Hb. pose proof (Z_of_byte_range b). unfold read_varint. cbn [get_varint].
  rewrite (proj2 (Z.ltb_lt _ _)) by done. rewrite land_low, Z.mod_small by lia.
  rewrite Z.shiftl_0_r, Z.lor_0_l, u64_small by word. done.
Qed.

Lemma take_field_app d r l : Z.of_nat (length d + length r) <= l < 2 ^ 63 ->
  take_field l (Z.of_nat (length d)) (d ++ r) = inr (d, r).
Proof.
  intros Hl. unfold take_field. rewrite length_app.
  rewrite (proj2 (Z.ltb_ge _ _)) by lia.
  replace (l - Z.of_nat (length d + length r) + Z.of_nat (length d))
    with (l - Z.of_nat (length r)) by lia.
  rewrite i64_small by word.
  rewrite (proj2 (Z.ltb_ge _ _)), (proj2 (Z.ltb_ge _ _)) by lia.
  rewrite Nat2Z.id. by rewrite take_app_length, drop_app_length.
Qed.

(** Read the tag [b] of the next field and select its case. *)
Ltac next_field b :=
  rewrite read_tag by done; unfold mbind, result_bind at 1;
  let z := eval vm_compute in (Z_of_byte b) in change (Z_of_byte b) with z;
  simpl fieldNum; cbn -[read_varint encodeVarintRecord put_bytes take_field].

Lemma loop_type f l m v r : 0 <= v < 2 ^ 63 ->
  Record_loop (S f) l m (x08 :: encodeVarintRecord v ++ r)
  = Record_loop f l (MkRecord v (Crc m) (Data m) (XXX_unrecognized m)) r.
Proof.
  intros Hv. cbn [Record_loop]. next_field x08.
  rewrite read_i64 by done. done.
Qed.

Lemma loop_crc f l m v r : 0 <= v < 2 ^ 32 ->
  Record_loop (S f) l m (x10 :: encodeVarintRecord v ++ r)
  = Record_loop f l (MkRecord (Type_ m) v (Data m) (XXX_unrecognized m)) r.
Proof.
  intros Hv. cbn [Record_loop]. next_field x10.
  rewrite read_u32 by done. done.
Qed.

Lemma loop_data f l m d r : Z.of_nat (length d + length r) <= l < 2 ^ 63 ->
  Record_loop (S f) l m (x1a :: put_bytes d ++ r)
  = Record_loop f l (MkRecord (Type_ m) (Crc m) (Some d) (XXX_unrecognized m)) r.
Proof.
  intros Hv. cbn [Record_loop]. next_field x1a.
  unfold put_bytes. rewrite <- app_assoc, read_i64 by lia.
  cbn -[read_varint encodeVarintRecord put_bytes take_field].
  rewrite take_field_app by done. done.
Qed.

Lemma length_varint v : (1 <= length (encodeVarintRecord v) <= 10)%nat.
Proof.
  unfold encodeVarintRecord.
  assert (forall f w, (1 <= length (put_varint (S f) w) <= S f)%nat) as H.
  { induction f as [|f IH]; intros w; [simpl; destruct (128 <=? w); simpl; lia|].
    remember (S f) as n. simpl. destruct (128 <=? w); simpl; [|lia].
    specialize (IH (Z.shiftr w 7)). lia. }
  apply H.
Qed.

(** Three rounds read the three fields. *)
Lemma Record_fields n m : fits m ->
  Record_loop (S (S (S n))) (Z.of_nat (length (Record_Marshal m))) rec_Reset (Record_Marshal m)
  = inr m.
Proof.
  intros (Ht & Hc & Hd & Hu). destruct m as [t c d u].
  cbn [Type_ Crc Data XXX_unrecognized] in *. subst u.
  unfold Record_Marshal; cbn [Type_ Crc Data XXX_unrecognized].
  rewrite (u64_small t) by word.
  rewrite !app_nil_r. match goal with |- Record_loop _ ?x _ _ = _ => set (l := x) end.
  rewrite loop_type by done. cbn [rec_Reset Type_ Crc Data XXX_unrecognized].
  destruct d as [d|].
  - rewrite loop_crc by done. cbn [rec_Reset Type_ Crc Data XXX_unrecognized].
    rewrite <- (app_nil_r (put_bytes d)), loop_data; [by destruct n|]. subst l. cbn [length].
    pose proof (length_varint t). pose proof (length_varint c).
    pose proof (length_varint (Z.of_nat (length d))).
    unfold put_bytes. rewrite !length_app. cbn [length]. rewrite !length_app. cbn [length].
    rewrite !length_app. simpl in Hd. lia.
  - rewrite loop_crc by done. by destruct n.
Qed.

Lemma Record_roundtrip m : fits m -> Record_Unmarshal (Record_Marshal m) = inr m.
Proof.
  intros Hm. unfold Record_Unmarshal.
  assert (exists n, length (Record_Marshal m) = S (S (S n))) as [n En].
  { exists (length (Record_Marshal m) - 3)%nat. unfold Record_Marshal. simpl length.
    rewrite length_app. simpl length.
    pose proof (length_varint (u64 (Type_ m))). lia. }
  rewrite En at 1. by apply Record_fields.
Qed.

(** [Size] is exact: the buffer that [Marshal] fills from its end is neither
    too short nor too long. *)
Lemma Record_Size_exact m : 0 <= Crc m < 2 ^ 32 ->
  Z.of_nat (length (default [] (Data m))) < 2 ^ 62 ->
  Z.of_nat (length (Record_Marshal m)) = Record_Size m.
Proof.
  intros Hc Hd. unfold Record_Marshal, Record_Size. simpl length. rewrite length_app.
  simpl length. rewrite !length_app.
  pose proof (sov_exact (u64 (Type_ m)) (u64_range _)) as E1.
  pose proof (sov_exact (Crc m) ltac:(word)) as E2.
  destruct (Data m) as [d|]; simpl in Hd |- *.
  - pose proof (sov_exact (Z.of_nat (length d)) ltac:(word)) as E3.
    unfold put_bytes. rewrite length_app. lia.
  - lia.
Qed.

End RecordCodec.

Module SnapshotCodec.
Import walpb WalSnapshot RecordCodec.
Section Snap.
Context `{HC : RaftCodecLaws}.

(** Snapshot records as the log writes them. *)
Definition snap_fits (m : Snapshot) : Prop :=
  is_u64 (Index m) /\ is_u64 (Term m) /\ sn_unrecognized m = [] /\
  match ConfState m with
  | Some c => Z.of_nat (length (ConfState_Marshal c)) < 2 ^ 31
  | None => True
  end.

Lemma sloop_index f l m v r : is_u64 v ->
  Snapshot_loop (S f) l m (x08 :: encodeVarintRecord v ++ r)
  = Snapshot_loop f l (MkSnapshot v (Term m) (ConfState m) (sn_unrecognized m)) r.
Proof. intros Hv. cbn [Snapshot_loop]. next_field x08. rewrite read_u64 by done. done. Qed.

Lemma sloop_term f l m v r : is_u64 v ->
  Snapshot_loop (S f) l m (x10 :: encodeVarintRecord v ++ r)
  = Snapshot_loop f l (MkSnapshot (Index m) v (ConfState m) (sn_unrecognized m)) r.
Proof. intros Hv. cbn [Snapshot_loop]. next_field x10. rewrite read_u64 by done. done. Qed.

Lemma sloop_conf f l m c r :
  Z.of_nat (length (ConfState_Marshal c) + length r) <= l < 2 ^ 63 -> ConfState m = None ->
  Snapshot_loop (S f) l m (x1a :: put_bytes (ConfState_Marshal c) ++ r)
  = Snapshot_loop f l (MkSnapshot (Index m) (Term m) (Some c) (sn_unrecognized m)) r.
Proof.
  intros Hv Hm. cbn [Snapshot_loop]. next_field x1a.
  unfold put_bytes. rewrite <- app_assoc, read_i64 by lia.
  cbn -[read_varint encodeVarintRecord put_bytes take_field].
  rewrite take_field_app by done. cbn. rewrite Hm. cbn. rewrite confstate_codec. done.
Qed.

Lemma Snapshot_fields n m : snap_fits m ->
  Snapshot_loop (S (S (S n))) (Z.of_nat (length (Snapshot_Marshal_ m))) empty_Snapshot
    (Snapshot_Marshal_ m) = inr m.
Proof.
  intros (Hi & Ht & Hu & Hc). destruct m as [i t d u].
  cbn [Index Term ConfState sn_unrecognized] in *. subst u.
  unfold Snapshot_Marshal_; cbn [Index Term ConfState sn_unrecognized].
  rewrite !app_nil_r.
  match goal with |- Snapshot_loop _ ?x _ _ = _ => set (l := x) end.
  rewrite sloop_index by done. cbn [empty_Snapshot Index Term ConfState sn_unrecognized].
  destruct d as [d|].
  - rewrite sloop_term by done. cbn [empty_Snapshot Index Term ConfState sn_unrecognized].
    rewrite <- (app_nil_r (put_bytes _)), sloop_conf; [by destruct n| |done]. subst l.
    cbn [length]. pose proof (length_varint t). pose proof (length_varint i).
    pose proof (length_varint (Z.of_nat (length (ConfState_Marshal d)))).
    unfold put_bytes. rewrite !length_app. cbn [length]. rewrite !length_app. cbn [length].
    rewrite !length_app. lia.
  - rewrite sloop_term by done. by destruct n.
Qed.

Lemma Snapshot_roundtrip m : snap_fits m ->
  Snapshot_Unmarshal_ (Snapshot_Marshal_ m) = inr m.
Proof.
  intros Hm. unfold Snapshot_Unmarshal_.
  assert (exists n, length (Snapshot_Marshal_ m) = S (S (S n))) as [n En].
  { exists (length (Snapshot_Marshal_ m) - 3)%nat. unfold Snapshot_Marshal_. simpl length.
    rewrite length_app. simpl length.
    pose proof (length_varint (Index m)). lia. }
  rewrite En at 1. by apply Snapshot_fields.
Qed.

End Snap.
End SnapshotCodec.
