(* ===== verification/MemRaftCodec.v ===== *)
(** * Concrete marshallers for the raft messages

    An instance of [RaftCodec] over generic encodings: it shows that the laws
    can hold and makes the log runnable. *)

From S2P Require Import Prelude Errors RaftApi WalRecord MemCodecs.

#[global] Instance EntryType_countable : Countable raftpb.EntryType.
Proof.
  refine (inj_countable'
    (fun t => match t with
              | raftpb.EntryNormal => 0%N
              | raftpb.EntryConfChange => 1%N
              | raftpb.EntryConfChangeV2 => 2%N
              end)
    (fun n => match n with
              | 0%N => raftpb.EntryNormal
              | 1%N => raftpb.EntryConfChange
              | _ => raftpb.EntryConfChangeV2
              end) _).
  by intros [].
Defined.

#[global] Instance Entry_countable : Countable raftpb.Entry.
Proof.
  refine (inj_countable'
    (fun e => (raftpb.Term e, raftpb.Index e, raftpb.Type_ e, raftpb.Data e))
    (fun '(t, i, k, d) => raftpb.MkEntry t i k d) _).
  by intros [].
Defined.

#[global] Instance HardState_countable : Countable raftpb.HardState.
Proof.
  refine (inj_countable'
    (fun s => (raftpb.hs_Term s, raftpb.hs_Vote s, raftpb.hs_Commit s))
    (fun '(t, v, c) => raftpb.MkHardState t v c) _).
  by intros [].
Defined.

#[global] Instance ConfState_countable : Countable raftpb.ConfState.
Proof.
  refine (inj_countable'
    (fun c => (raftpb.Voters c, raftpb.Learners c))
    (fun '(v, l) => raftpb.MkConfState v l) _).
  by intros [].
Defined.

#[global] Instance Snapshot_countable : Countable raftpb.Snapshot.
Proof.
  refine (inj_countable'
    (fun s => (raftpb.sn_Data s, raftpb.md_ConfState (raftpb.Metadata s),
               raftpb.md_Index (raftpb.Metadata s), raftpb.md_Term (raftpb.Metadata s)))
    (fun '(d, c, i, t) => raftpb.MkSnapshot d (raftpb.MkMeta c i t)) _).
  by intros [? []].
Defined.

Definition marshal {A} `{Countable A} (a : A) : bytes := pos_bytes (encode a).

Definition unmarshal {A} `{Countable A} (b : bytes) : result A :=
  match decode (bytes_pos b) with
  | Some a => inr a
  | None => inl (OtherError "unexpected EOF")
  end.

Lemma unmarshal_marshal {A} `{Countable A} (a : A) : unmarshal (marshal a) = inr a.
Proof. unfold unmarshal, marshal. by rewrite bytes_pos_bytes, decode_encode. Qed.

#[global] Instance MemRaftCodec : RaftCodec := {
  ConfState_Marshal := marshal;
  ConfState_Unmarshal := fun _ => unmarshal;
  Entry_Marshal := marshal;
  Entry_Unmarshal := unmarshal;
  HardState_Marshal := marshal;
  HardState_Unmarshal := unmarshal;
  Snapshot_Marshal := marshal;
  Snapshot_Unmarshal := unmarshal
}.

#[global] Instance MemRaftCodecLaws : RaftCodecLaws.
Proof. constructor; intros; apply unmarshal_marshal. Qed.
