(* ===== verification/WalIo.v ===== *)
(** * pkg/crc and pkg/ioutil of etcd

    The rolling checksum of the write-ahead log ([pkg/crc/crc.go] over Go's
    [hash/crc32]) and the writer that flushes in whole pages
    ([pkg/ioutil/pagewriter.go]).  The theorems show that the page writer
    loses and reorders nothing, keeps inside its buffer, and that a write that
    reaches the file ends at a page boundary. *)

From S2P Require Import Prelude Errors Utils.
From Stdlib Require Import Strings.Byte.

(** ** The checksum *)

(** [hash/crc32] with the Castagnoli polynomial, in its reversed form. *)
Definition castagnoli : Z := 0x82f63b78.

(** The entry of the table for a byte: eight divisions steps. *)
Fixpoint crc_steps (n : nat) (x : Z) : Z :=
  match n with
  | O => x
  | S n' => crc_steps n' (if Z.odd x then Z.lxor (Z.shiftr x 1) castagnoli else Z.shiftr x 1)
  end.

Definition crc_byte (crc : Z) (b : Byte.byte) : Z :=
  Z.lxor (crc_steps 8 (Z.land (Z.lxor crc (Z_of_byte b)) 255)) (Z.shiftr crc 8).

Definition not32 (x : Z) : Z := Z.lxor x (2 ^ 32 - 1).

(** [crc32.Update]. *)
Definition crc32_Update (crc : Z) (p : bytes) : Z :=
  not32 (fold_left crc_byte p (not32 crc)).

(** The digest of [crc.go] is its running checksum: [New] starts from a
    previous one, [Write] updates it, [Sum32] returns it. *)
Definition crc_New (prev : Z) : Z := prev.
Definition crc_Write (crc : Z) (p : bytes) : Z := crc32_Update crc p.
Definition crc_Sum32 (crc : Z) : Z := crc.

(** ** Open files *)

(** An open file: its contents and the position of the next write. *)
Record file := File {
  f_data : bytes;
  f_pos : nat
}.

(** Writing at the position overwrites or extends; past the end the gap is
    zero. *)
Definition f_Write (f : file) (p : bytes) : file :=
  File (resize (f_pos f) x00 (f_data f) ++ p ++ drop (f_pos f + length p) (f_data f))
       (f_pos f + length p).

Definition f_Truncate (f : file) (n : nat) : file :=
  File (resize n x00 (f_data f)) (f_pos f).

Definition f_Seek (f : file) (n : nat) : file := File (f_data f) n.

(** [fileutil.Preallocate] with extension: the file gets the given size, the
    new part zero. *)
Definition f_Preallocate (f : file) (n : nat) : file :=
  File (resize (Nat.max n (length (f_data f))) x00 (f_data f)) (f_pos f).

(** [fileutil.ZeroToEnd]: cut the file at the position and extend it again;
    its size and position stay. *)
Definition ZeroToEnd (f : file) : file :=
  let off := f_pos f in
  f_Seek (f_Preallocate (f_Truncate f off) (length (f_data f))) off.

(** ** The page writer *)

Definition defaultBufferBytes : Z := 128 * 1024.

(** The pending bytes are [buf]; [pageOffset] is the offset in its page of the
    position the buffer will be written at. *)
Record PageWriter := MkPageWriter {
  pageOffset : Z;
  pageBytes : Z;
  buf : bytes
}.

Definition buffered (pw : PageWriter) : Z := Z.of_nat (length (buf pw)).

Definition NewPageWriter (pb off : Z) : outcome PageWriter :=
  if 0 <? pb then Ret (MkPageWriter off pb [])
  else Panic "invalid pageBytes value, it must be greater than 0".

Definition flush (pw : PageWriter) (f : file) : PageWriter * file :=
  match buf pw with
  | [] => (pw, f)
  | b => (MkPageWriter ((pageOffset pw + buffered pw) mod pageBytes pw) (pageBytes pw) [],
          f_Write f b)
  end.

(** [Write]; the call it ends with, on less than a page and with an empty
    buffer, is the second and last. *)
Fixpoint pw_Write (fuel : nat) (pw : PageWriter) (f : file) (p : bytes)
    : outcome (PageWriter * file) :=
  match fuel with
  | O => Hang
  | S fuel' =>
      let n := Z.of_nat (length p) in
      if n + buffered pw <=? defaultBufferBytes
      then Ret (MkPageWriter (pageOffset pw) (pageBytes pw) (buf pw ++ p), f)
      else
        let slack := pageBytes pw - (pageOffset pw + buffered pw) mod pageBytes pw in
        if negb (slack =? pageBytes pw) && (n <? slack)
        then Ret (MkPageWriter (pageOffset pw) (pageBytes pw) (buf pw ++ p), f)
        else
          let s := if slack =? pageBytes pw then O else Z.to_nat slack in
          let '(pw1, f1) :=
            flush (MkPageWriter (pageOffset pw) (pageBytes pw) (buf pw ++ take s p)) f in
          let p1 := drop s p in
          let n1 := Z.of_nat (length p1) in
          if pageBytes pw1 <? n1
          then
            let c := Z.to_nat (n1 / pageBytes pw1 * pageBytes pw1) in
            pw_Write fuel' pw1 (f_Write f1 (take c p1)) (drop c p1)
          else pw_Write fuel' pw1 f1 p1
  end.

Definition Write (pw : PageWriter) (f : file) (p : bytes) : outcome (PageWriter * file) :=
  pw_Write 2 pw f p.

(** ** Checksums are 32 bits *)

Definition is_u32 (z : Z) : Prop := 0 <= z < 2 ^ 32.

Lemma lxor_bound n a b : 0 <= n -> 0 <= a < 2 ^ n -> 0 <= b < 2 ^ n -> 0 <= Z.lxor a b < 2 ^ n.
Proof.
  intros Hn Ha Hb. assert (0 <= Z.lxor a b) as Hx by (apply Z.lxor_nonneg; lia).
  split; [done|]. destruct (Z.eq_dec (Z.lxor a b) 0) as [->|]; [lia|].
  apply Z.log2_lt_pow2; [lia|]. pose proof (Z.log2_lxor a b ltac:(lia) ltac:(lia)).
  assert (forall x, 0 <= x < 2 ^ n -> x = 0 \/ Z.log2 x < n) as Hl.
  { intros x Hx'. destruct (Z.eq_dec x 0); [auto|]. right. apply Z.log2_lt_pow2; lia. }
  destruct (Hl a Ha) as [->|], (Hl b Hb) as [->|]; simpl in *; rewrite ?Z.lxor_0_l, ?Z.lxor_0_r in *; try lia.
Qed.

Lemma crc_steps_u32 n x : is_u32 x -> is_u32 (crc_steps n x).
Proof.
  revert x. induction n as [|n IH]; intros x Hx; simpl; [done|]. apply IH.
  assert (is_u32 (Z.shiftr x 1)) as Hs.
  { unfold is_u32 in *. rewrite Z.shiftr_div_pow2 by lia. change (2 ^ 1) with 2. div_lia. }
  destruct (Z.odd x); [|done]. apply lxor_bound; [lia|done|]. unfold castagnoli. lia.
Qed.

Lemma crc_byte_u32 c b : is_u32 c -> is_u32 (crc_byte c b).
Proof.
  intros Hc. unfold crc_byte. apply lxor_bound; [lia|apply crc_steps_u32|].
  - change 255 with (Z.ones 8). rewrite Z.land_ones by lia. unfold is_u32. div_lia.
  - unfold is_u32 in *. rewrite Z.shiftr_div_pow2 by lia. change (2 ^ 8) with 256. div_lia.
Qed.

Lemma crc_fold_u32 p c : is_u32 c -> is_u32 (fold_left crc_byte p c).
Proof. revert c. induction p as [|b p IH]; intros c Hc; simpl; [done|]. auto using crc_byte_u32. Qed.

Lemma not32_u32 x : is_u32 x -> is_u32 (not32 x).
Proof. intros ?. apply lxor_bound; unfold is_u32 in *; lia. Qed.

Lemma crc_Write_u32 c p : is_u32 c -> is_u32 (crc_Write c p).
Proof. intros ?. unfold crc_Write, crc32_Update. auto using not32_u32, crc_fold_u32. Qed.

(** Writing in two parts is writing the whole. *)
Lemma crc_Write_app c p q : crc_Write (crc_Write c p) q = crc_Write c (p ++ q).
Proof.
  unfold crc_Write, crc32_Update, not32. rewrite fold_left_app.
  rewrite !Z.lxor_assoc, Z.lxor_nilpotent, Z.lxor_0_r. done.
Qed.

Lemma crc_Write_nil c : crc_Write c [] = c.
Proof.
  unfold crc_Write, crc32_Update, not32. simpl.
  by rewrite Z.lxor_assoc, Z.lxor_nilpotent, Z.lxor_0_r.
Qed.

#[export] Hint Resolve crc_Write_u32 : omashu.

(** ** Files *)

Definition pos_ok (f : file) : Prop := (f_pos f <= length (f_data f))%nat.

Lemma f_Write_nil f : pos_ok f -> f_Write f [] = f.
Proof.
  destruct f as [d n]. unfold f_Write, pos_ok; simpl. intros H.
  rewrite Nat.add_0_r, resize_le, take_drop by done. done.
Qed.

Lemma f_Write_pos_ok f p : pos_ok (f_Write f p).
Proof. unfold pos_ok, f_Write; simpl. rewrite !length_app, length_resize. lia. Qed.

Lemma f_Write_app f p q : f_Write (f_Write f p) q = f_Write f (p ++ q).
Proof.
  destruct f as [d n]. unfold f_Write; simpl. f_equal; [|rewrite length_app; lia].
  rewrite resize_le by (rewrite !length_app, length_resize; lia).
  rewrite (take_app_ge (resize _ _ _)) by (rewrite length_resize; lia).
  rewrite length_resize. replace (n + length p - n)%nat with (length p) by lia.
  rewrite take_app_length. rewrite <- !app_assoc. do 2 f_equal.
  f_equal. rewrite length_app.
  rewrite (drop_app_ge (resize _ _ _)) by (rewrite length_resize; lia).
  rewrite length_resize. rewrite drop_app_ge by lia. rewrite drop_drop. f_equal. lia.
Qed.

(** What was written so far. *)
Lemma f_Write_prefix f p : pos_ok f ->
  take (f_pos (f_Write f p)) (f_data (f_Write f p)) = take (f_pos f) (f_data f) ++ p.
Proof.
  destruct f as [d n]. unfold f_Write, pos_ok; simpl. intros H.
  rewrite resize_le by done. rewrite take_app_ge by (rewrite length_take; lia).
  rewrite length_take. replace (n + length p - min n (length d))%nat with (length p) by lia.
  by rewrite take_app_length.
Qed.

(** ** The page writer *)

(** A writer whose pages fit the buffer, and whose buffer went past the
    watermark only to fill the page the watermark is in. *)
Definition pw_ok (pw : PageWriter) : Prop :=
  0 < pageBytes pw <= defaultBufferBytes /\ 0 <= pageOffset pw /\
  (buffered pw <= defaultBufferBytes \/
   (pageOffset pw + buffered pw) / pageBytes pw
     = (pageOffset pw + defaultBufferBytes) / pageBytes pw).

(** The buffer of [defaultBufferBytes + pageBytes] bytes never overflows. *)
Lemma pw_capacity pw : pw_ok pw -> buffered pw <= defaultBufferBytes + pageBytes pw.
Proof.
  intros (Hb & Ho & [H|H]); [lia|].
  pose proof (Z.div_mod (pageOffset pw + buffered pw) (pageBytes pw)).
  pose proof (Z.div_mod (pageOffset pw + defaultBufferBytes) (pageBytes pw)).
  pose proof (Z.mod_pos_bound (pageOffset pw + buffered pw) (pageBytes pw)).
  pose proof (Z.mod_pos_bound (pageOffset pw + defaultBufferBytes) (pageBytes pw)).
  nia.
Qed.

Lemma flush_spec pw f : pw_ok pw -> pos_ok f ->
  exists off, flush pw f = (MkPageWriter off (pageBytes pw) [], f_Write f (buf pw)) /\
    0 <= off /\ off mod pageBytes pw = (pageOffset pw + buffered pw) mod pageBytes pw.
Proof.
  intros (Hb & Ho & _) Hf. unfold flush, buffered. destruct pw as [o pb [|x b]]; simpl in *.
  - exists o. rewrite f_Write_nil, Z.add_0_r by done. auto.
  - eexists. split; [reflexivity|]. split; [apply Z.mod_pos_bound; lia|apply Z.mod_mod; lia].
Qed.

(** A write that fits goes to the buffer. *)
Lemma pw_Write_fits n pw f p :
  Z.of_nat (length p) + buffered pw <= defaultBufferBytes ->
  pw_Write (S n) pw f p = Ret (MkPageWriter (pageOffset pw) (pageBytes pw) (buf pw ++ p), f).
Proof. intros H. simpl. by rewrite (proj2 (Z.leb_le _ _)). Qed.

(** The slack of the page is the distance to its end. *)
Lemma slack_spec x pb : 0 < pb ->
  let slack := pb - x mod pb in
  0 < slack <= pb /\ (x + slack) mod pb = 0 /\ (slack = pb -> x mod pb = 0).
Proof.
  intros Hp slack. pose proof (Z.mod_pos_bound x pb Hp). subst slack.
  split; [lia|]. split; [|lia].
  replace (x + (pb - x mod pb)) with (0 + (x / pb + 1) * pb)
    by (pose proof (Z.div_mod x pb); lia).
  rewrite Z.mod_add by lia. apply Z.mod_0_l. lia.
Qed.

(** What one write does: [w] reaches the file, the rest is pending. *)
Definition write_step (pw : PageWriter) (f : file) (p : bytes) (pw' : PageWriter) (w : bytes)
    : Prop :=
  buf pw ++ p = w ++ buf pw' /\ pageBytes pw' = pageBytes pw /\
  pageOffset pw' mod pageBytes pw
    = (pageOffset pw + Z.of_nat (length w)) mod pageBytes pw /\
  (w = [] \/ (pageOffset pw + Z.of_nat (length w)) mod pageBytes pw = 0) /\ pw_ok pw'.

(** Filling the slack of the watermark's page keeps inside that page. *)
Lemma partial_ok pw p : pw_ok pw ->
  let slack := pageBytes pw - (pageOffset pw + buffered pw) mod pageBytes pw in
  Z.of_nat (length p) < slack ->
  defaultBufferBytes < Z.of_nat (length p) + buffered pw ->
  pw_ok (MkPageWriter (pageOffset pw) (pageBytes pw) (buf pw ++ p)).
Proof.
  intros (Hb & Ho & Hc) slack Hs Hn. split; [done|]. split; [done|]. right.
  unfold buffered in *. simpl. rewrite length_app, Nat2Z.inj_add.
  set (x := pageOffset pw + Z.of_nat (length (buf pw))) in *.
  set (pb := pageBytes pw) in *. set (y := pageOffset pw + defaultBufferBytes) in *.
  set (n := Z.of_nat (length p)) in *.
  assert ((x + n) / pb = x / pb) as E.
  { symmetry. apply (Z.div_unique _ _ _ (x mod pb + n)); [|pose proof (Z.div_mod x pb); lia].
    pose proof (Z.mod_pos_bound x pb). lia. }
  replace (pageOffset pw + (Z.of_nat (length (buf pw)) + n)) with (x + n) by (subst x; lia).
  destruct Hc as [Hc|Hc]; [|congruence].
  apply Z.le_antisymm.
  - rewrite E. apply Z.div_le_mono; [lia|]. subst x y. lia.
  - apply Z.div_le_mono; [lia|]. subst x y. lia.
Qed.

(** Filling the page up to its end and flushing leaves the writer at a page
    boundary. *)
Lemma flush_aligned pw f b : 0 < pageBytes pw -> 0 <= pageOffset pw -> pos_ok f ->
  (pageOffset pw + Z.of_nat (length b)) mod pageBytes pw = 0 ->
  exists off, flush (MkPageWriter (pageOffset pw) (pageBytes pw) b) f
      = (MkPageWriter off (pageBytes pw) [], f_Write f b) /\
    0 <= off /\ off mod pageBytes pw = 0.
Proof.
  intros Hb Ho Hf Hal. unfold flush, buffered; cbn [buf pageOffset pageBytes].
  destruct b as [|x b].
  - exists (pageOffset pw). rewrite f_Write_nil by done. simpl in Hal.
    rewrite Z.add_0_r in Hal. done.
  - eexists. split; [reflexivity|]. split; [apply Z.mod_pos_bound; lia|].
    by rewrite Z.mod_mod by lia.
Qed.

(** Sending [s] bytes to fill the page and [c] bytes of whole pages. *)
Lemma pages_step pw f p s c off : pw_ok pw -> (s + c <= length p)%nat ->
  0 <= off -> off mod pageBytes pw = 0 ->
  (pageOffset pw + buffered pw + Z.of_nat s) mod pageBytes pw = 0 ->
  Z.of_nat c mod pageBytes pw = 0 ->
  Z.of_nat (length (drop c (drop s p))) <= defaultBufferBytes ->
  write_step pw f p (MkPageWriter off (pageBytes pw) (drop c (drop s p)))
    (buf pw ++ take s p ++ take c (drop s p)).
Proof.
  intros (Hb & Ho & _) Hc Hoff Eoff Hal Hcm Hlen.
  unfold write_step; cbn [pageBytes pageOffset buf].
  assert ((pageOffset pw + Z.of_nat (length (buf pw ++ take s p ++ take c (drop s p))))
            mod pageBytes pw = 0) as E.
  { rewrite !length_app, !length_take, !Nat2Z.inj_add.
    rewrite !Nat.min_l by (rewrite ?length_drop in *; lia).
    replace (pageOffset pw + (Z.of_nat (length (buf pw)) + (Z.of_nat s + Z.of_nat c)))
      with ((pageOffset pw + buffered pw + Z.of_nat s) + Z.of_nat c) by (unfold buffered; lia).
    rewrite Z.add_mod, Hal, Hcm by lia. apply Z.mod_0_l. lia. }
  rewrite E. rewrite <- !app_assoc, take_drop, take_drop.
  repeat split; auto; cbn; lia.
Qed.

(** The case that flushes: the page is filled, whole pages go out, the tail
    stays. *)
Lemma Write_flushes pw f p s : pw_ok pw -> pos_ok f -> (s <= length p)%nat ->
  (pageOffset pw + buffered pw + Z.of_nat s) mod pageBytes pw = 0 ->
  exists pw' w,
    (let '(pw1, f1) :=
       flush (MkPageWriter (pageOffset pw) (pageBytes pw) (buf pw ++ take s p)) f in
     let p1 := drop s p in
     if pageBytes pw1 <? Z.of_nat (length p1)
     then let c := Z.to_nat (Z.of_nat (length p1) / pageBytes pw1 * pageBytes pw1) in
          pw_Write 1 pw1 (f_Write f1 (take c p1)) (drop c p1)
     else pw_Write 1 pw1 f1 p1) = Ret (pw', f_Write f w) /\
    write_step pw f p pw' w.
Proof.
  intros Hok Hf Hs Hal. pose proof Hok as (Hb & Ho & _).
  destruct (flush_aligned pw f (buf pw ++ take s p)) as (off & -> & Hoff & Eoff);
    [lia|done|done| |].
  { rewrite length_app, length_take, <- Hal. f_equal. unfold buffered. lia. }
  cbn [pageBytes pageOffset buf].
  set (n := Z.of_nat (length (drop s p))) in *.
  pose proof (Z.div_mod n (pageBytes pw) ltac:(lia)).
  pose proof (Z.mod_pos_bound n (pageBytes pw) ltac:(lia)).
  assert (0 <= n / pageBytes pw) by (apply Z.div_pos; lia).
  destruct (Z.ltb_spec (pageBytes pw) n) as [Hlt|Hge].
  - set (c := Z.to_nat _).
    assert (Z.of_nat c = n / pageBytes pw * pageBytes pw) as Ec
      by (subst c; rewrite Z2Nat.id; [done|nia]).
    assert (Z.of_nat (length (drop c (drop s p))) <= defaultBufferBytes) as Hl.
    { rewrite length_drop. lia. }
    rewrite pw_Write_fits by (unfold buffered; cbn [buf length]; lia).
    rewrite f_Write_app, <- app_assoc. cbn [buf pageOffset pageBytes]. rewrite app_nil_l.
    eexists _, _. split; [reflexivity|].
    assert (c <= length (drop s p))%nat as Hc by lia. rewrite length_drop in Hc.
    apply pages_step; [done|lia|done..| |done].
    rewrite Ec, Z.mod_mul by lia. done.
  - rewrite pw_Write_fits by (unfold buffered; cbn [buf length]; lia).
    cbn [buf pageOffset pageBytes]. rewrite app_nil_l.
    eexists _, _. split; [reflexivity|].
    pose proof (pages_step pw f p s 0 off) as Hstep. rewrite take_0, app_nil_r, drop_0 in Hstep.
    apply Hstep; [done|lia|done..|apply Z.mod_0_l; lia|lia].
Qed.

Lemma Write_spec pw f p : pw_ok pw -> pos_ok f ->
  exists pw' w, Write pw f p = Ret (pw', f_Write f w) /\ write_step pw f p pw' w.
Proof.
  intros Hok Hf. pose proof Hok as (Hb & Ho & Hc).
  pose proof (slack_spec (pageOffset pw + buffered pw) (pageBytes pw) ltac:(lia)) as (Hs1 & Hs2 & Hs3).
  unfold Write. generalize (eq_refl 1%nat). generalize 1%nat at 1.
  intros k Ek. change 2%nat with (S 1). rewrite <- Ek. cbn [pw_Write]. rewrite Ek.
  cbv zeta.
  assert (pw_ok (MkPageWriter (pageOffset pw) (pageBytes pw) (buf pw ++ p)) ->
    exists pw' w, Ret (MkPageWriter (pageOffset pw) (pageBytes pw) (buf pw ++ p), f)
      = Ret (pw', f_Write f w) /\ write_step pw f p pw' w) as Hbuf.
  { intros H. eexists _, []. rewrite f_Write_nil by done. split; [reflexivity|].
    unfold write_step; cbn [length buf pageBytes pageOffset app].
    rewrite Z.add_0_r. repeat split; auto; apply H. }
  set (slack := pageBytes pw - _) in *.
  destruct (Z.leb_spec (Z.of_nat (length p) + buffered pw) defaultBufferBytes) as [Hle|Hgt].
  { apply Hbuf. split; [done|]. split; [done|]. left. unfold buffered in *; simpl.
    rewrite length_app. lia. }
  destruct (Z.eqb_spec slack (pageBytes pw)) as [E|E]; simpl.
  - apply (Write_flushes pw f p 0); [done..|lia|]. rewrite Z.add_0_r. auto.
  - destruct (Z.ltb_spec (Z.of_nat (length p)) slack).
    + apply Hbuf. by apply partial_ok.
    + apply (Write_flushes pw f p (Z.to_nat slack)); [done..|lia|].
      rewrite Z2Nat.id by lia. done.
Qed.

(** A sequence of writes. *)
Fixpoint write_all (pw : PageWriter) (f : file) (ps : list bytes)
    : outcome (PageWriter * file) :=
  match ps with
  | [] => Ret (pw, f)
  | p :: ps' => '(pw', f') ← Write pw f p; write_all pw' f' ps'
  end.

Lemma write_all_spec ps : forall pw f, pw_ok pw -> pos_ok f ->
  exists pw' w, write_all pw f ps = Ret (pw', f_Write f w) /\
    write_step pw f (concat ps) pw' w.
Proof.
  induction ps as [|p ps IH]; intros pw f Hok Hf; simpl.
  - exists pw, []. rewrite f_Write_nil by done. split; [done|].
    unfold write_step. rewrite app_nil_r. simpl. rewrite Z.add_0_r. split_and!; auto; apply Hok.
  - destruct (Write_spec pw f p Hok Hf) as (pw1 & w1 & -> & E1 & Ep1 & Eo1 & Ea1 & Hok1).
    simpl. destruct (IH pw1 (f_Write f w1) Hok1 (f_Write_pos_ok _ _))
      as (pw2 & w2 & -> & E2 & Ep2 & Eo2 & Ea2 & Hok2).
    exists pw2, (w1 ++ w2). rewrite f_Write_app. split; [done|].
    rewrite Ep1 in *. destruct Hok as (Hpb & _ & _).
    assert ((pageOffset pw1 + Z.of_nat (length w2)) mod pageBytes pw
            = (pageOffset pw + Z.of_nat (length (w1 ++ w2))) mod pageBytes pw) as E.
    { rewrite length_app, Nat2Z.inj_add, Z.add_assoc, Z.add_mod, Eo1, <- Z.add_mod by lia. done. }
    split; [rewrite app_assoc, E1, <- app_assoc, E2; apply app_assoc|].
    rewrite Ep2. repeat split; [rewrite Eo2; exact E| |apply Hok2..].
    destruct Ea2 as [->|Ea2]; [|right; congruence]. rewrite app_nil_r. done.
Qed.

(** The page writer loses, duplicates and reorders nothing and stays within
    its buffer.  After any sequence of writes a flush leaves in the file
    exactly the bytes written, in order; before the flush the file has grown
    only up to a page boundary, so that a crash between flushes tears no page,
    and the pending bytes fit the buffer of [defaultBufferBytes + pageBytes]
    bytes the code copies them into. *)
Theorem page_writer_exact pw f ps :
  pw_ok pw -> pos_ok f -> buf pw = [] ->
  exists pw' f', write_all pw f ps = Ret (pw', f') /\
    snd (flush pw' f') = f_Write f (concat ps) /\
    buffered pw' <= defaultBufferBytes + pageBytes pw /\
    (f' = f \/
     (pageOffset pw + Z.of_nat (f_pos f' - f_pos f)) mod pageBytes pw = 0).
Proof.
  intros Hok Hf Hb.
  destruct (write_all_spec ps pw f Hok Hf) as (pw' & w & E & Ew & Ep & Eo & Ea & Hok').
  exists pw', (f_Write f w). split; [done|].
  destruct (flush_spec pw' (f_Write f w)) as (off & -> & _); [done|apply f_Write_pos_ok|].
  rewrite Hb in Ew. simpl in Ew. rewrite Ew, f_Write_app. split; [done|].
  split; [rewrite <- Ep; by apply pw_capacity|].
  destruct Ea as [->|Ea]; [left; by apply f_Write_nil|right].
  simpl. by replace (f_pos f + length w - f_pos f)%nat with (length w) by lia.
Qed.

(** A writer with pages of four bytes at the start of an empty file, and the
    writes of a length and a record. *)
Lemma page_writer_exact_witness :
  exists pw' f', write_all (MkPageWriter 0 4 []) (File [] 0) [[x01; x02]; [x03]] = Ret (pw', f') /\
    snd (flush pw' f') = File [x01; x02; x03] 3.
Proof.
  destruct (page_writer_exact (MkPageWriter 0 4 []) (File [] 0) [[x01; x02]; [x03]])
    as (pw' & f' & E & Ef & _).
  - split; [simpl; unfold defaultBufferBytes; lia|]. split; [done|]. left. vm_compute. discriminate.
  - unfold pos_ok; simpl; lia.
  - reflexivity.
  - exists pw', f'. split; [exact E|]. rewrite Ef. reflexivity.
Defined.
