(* ===== verification/WalFrame.v ===== *)
(** * encoder.go and decoder.go of etcd's write-ahead log

    A record is written as a little-endian length field, whose top byte holds
    the padding, then the marshalled record padded to eight bytes; its
    checksum continues that of the records before it.  The decoder reads the
    segments one after the other, takes a zero length for the end of a
    segment, and tells a torn write from corruption.  The theorems show that
    the decoder gives back what the encoder wrote, and that a segment cut
    anywhere decodes to its whole records and then to an unexpected end. *)

From S2P Require Import Prelude Errors Utils RaftApi WalRecord WalIo.
From Stdlib Require Import Strings.Byte.
Import walpb.

Definition MetadataType : Z := 1.
Definition EntryType : Z := 2.
Definition StateType : Z := 3.
Definition CrcType : Z := 4.
Definition SnapshotType : Z := 5.

Definition minSectorSize : Z := 512.
Definition frameSizeBytes : Z := 8.
Definition walPageBytes : Z := 8 * minSectorSize.

(** ** The encoder *)

Record encoder := MkEncoder {
  bw : PageWriter;
  ecrc : Z
}.

Definition newEncoder (prevCrc pageOffset : Z) : encoder :=
  MkEncoder (MkPageWriter pageOffset walPageBytes []) (crc_New prevCrc).

Definition newFileEncoder (f : file) (prevCrc : Z) : encoder :=
  newEncoder prevCrc (Z.of_nat (f_pos f)).

Definition encodeFrameSize (dataBytes : Z) : Z * Z :=
  let lenField := u64 dataBytes in
  let padBytes := (8 - dataBytes mod 8) mod 8 in
  if negb (padBytes =? 0)
  then (Z.lor lenField (u64 (Z.shiftl (Z.lor 0x80 padBytes) 56)), padBytes)
  else (lenField, padBytes).

Definition prepareDataWithPadding (data : bytes) : bytes * Z :=
  let '(lenField, padBytes) := encodeFrameSize (Z.of_nat (length data)) in
  if negb (padBytes =? 0)
  then (data ++ replicate (Z.to_nat padBytes) x00, lenField)
  else (data, lenField).

(** [binary.LittleEndian.PutUint64]. *)
Definition PutUint64LE (v : Z) : bytes := rev (Uint64ToBytes v).

Definition write (w : PageWriter) (f : file) (data : bytes) (lenField : Z)
    : outcome (PageWriter * file) :=
  '(w1, f1) ← Write w f (PutUint64LE lenField);
  Write w1 f1 data.

(** The record as it is written: its checksum continues the encoder's. *)
Definition with_crc (rec : Record_) (crc : Z) : Record_ :=
  MkRecord (Type_ rec) crc (Data rec) (XXX_unrecognized rec).

Definition encode (e : encoder) (f : file) (rec : Record_) : outcome (encoder * file) :=
  let crc := crc_Write (ecrc e) (default [] (Data rec)) in
  let data := Record_Marshal (with_crc rec (crc_Sum32 crc)) in
  let '(data', lenField) := prepareDataWithPadding data in
  '(w, f') ← write (bw e) f data' lenField;
  Ret (MkEncoder w crc, f').

Definition encoder_flush (e : encoder) (f : file) : encoder * file :=
  let '(w, f') := flush (bw e) f in (MkEncoder w (ecrc e), f').

(** ** The decoder *)

(** A reader over a file: the file's size and what is left to read. *)
Record FileBufReader := MkReader {
  br_size : Z;
  br_rest : bytes
}.

Record decoder := MkDecoder {
  brs : list FileBufReader;
  lastValidOff : Z;
  dcrc : Z;
  continueOnCrcError : bool
}.

Definition NewDecoderAdvanced (cont : bool) (files : list bytes) : decoder :=
  MkDecoder (map (fun b => MkReader (Z.of_nat (length b)) b) files) 0 (crc_New 0) cont.

Definition NewDecoder (files : list bytes) : decoder := NewDecoderAdvanced false files.

(** [binary.Read] of an [int64]: no byte left is [EOF], some but not all is
    [ErrUnexpectedEOF]. *)
Definition readInt64 (b : bytes) : result (Z * bytes) :=
  match b with
  | [] => inl EOF
  | _ => if (length b <? 8)%nat then inl ErrUnexpectedEOF
         else inr (i64 (be_value (rev (take 8 b))), drop 8 b)
  end.

Definition decodeFrameSize (lenField : Z) : Z * Z :=
  let recBytes :=
    i64 (Z.land (u64 lenField) (Z.lxor max_u64 (u64 (Z.shiftl 0xff 56)))) in
  let padBytes :=
    if lenField <? 0 then i64 (Z.land (Z.shiftr (u64 lenField) 56) 0x7) else 0 in
  (recBytes, padBytes).

(** The chunks of [data] between sector boundaries, [data] starting at
    [fileOff] of the file; each takes at least a byte. *)
Fixpoint sectors (fuel : nat) (fileOff : Z) (data : bytes) : list bytes :=
  match fuel, data with
  | _, [] => []
  | O, _ => []
  | S fuel', _ =>
      let chunkLen := Z.to_nat (minSectorSize - fileOff mod minSectorSize) in
      let chunkLen := Nat.min chunkLen (length data) in
      take chunkLen data
        :: sectors fuel' (fileOff + Z.of_nat chunkLen) (drop chunkLen data)
  end.

Definition all_zero (b : bytes) : bool := forallb (fun x => bool_decide (x = x00)) b.

Definition isTornEntry (d : decoder) (data : bytes) : bool :=
  if negb (length (brs d) =? 1)%nat then false
  else existsb all_zero (sectors (length data) (lastValidOff d + frameSizeBytes) data).

(** [decodeRecord] on the decoder [MkDecoder rs off crc cont]: it moves to the
    next file at the end of one. *)
Fixpoint decodeRecord (rs : list FileBufReader) (off crc : Z) (cont : bool)
    : decoder * (Record_ * option error) :=
  match rs with
  | [] => (MkDecoder [] off crc cont, (rec_Reset, Some EOF))
  | br :: rs' =>
      let next :=
        match rs' with
        | [] => (MkDecoder [] off crc cont, (rec_Reset, Some EOF))
        | _ => decodeRecord rs' 0 crc cont
        end in
      match readInt64 (br_rest br) with
      | inl e =>
          if decide (e = EOF) then next
          else (MkDecoder (MkReader (br_size br) [] :: rs') off crc cont, (rec_Reset, Some e))
      | inr (l, r) =>
          if l =? 0 then next
          else
            let '(recBytes, padBytes) := decodeFrameSize l in
            let stop e := (MkDecoder (MkReader (br_size br) r :: rs') off crc cont,
                           (rec_Reset, Some e)) in
            let n := Z.to_nat (recBytes + padBytes) in
            if br_size br - off - padBytes <? recBytes then stop ErrUnexpectedEOF
            else if (length r <? n)%nat then stop ErrUnexpectedEOF
            else
              let data := take n r in
              let rs1 := MkReader (br_size br) (drop n r) :: rs' in
              let torn := isTornEntry (MkDecoder rs1 off crc cont) data in
              let off1 := off + frameSizeBytes + recBytes + padBytes in
              match Record_Unmarshal (take (Z.to_nat recBytes) data) with
              | inl e =>
                  (MkDecoder rs1 off crc cont,
                   (rec_Reset, Some (if torn then ErrUnexpectedEOF else e)))
              | inr rec =>
                  if Type_ rec =? CrcType then (MkDecoder rs1 off1 crc cont, (rec, None))
                  else
                    let crc' := crc_Write crc (default [] (Data rec)) in
                    match Validate rec (crc_Sum32 crc') with
                    | Some e =>
                        (MkDecoder rs1 (if cont then off1 else off) crc' cont,
                         (if cont then rec else rec_Reset,
                          Some (if torn then ErrUnexpectedEOF else e)))
                    | None => (MkDecoder rs1 off1 crc' cont, (rec, None))
                    end
              end
      end
  end.

Definition Decode (d : decoder) : decoder * (Record_ * option error) :=
  decodeRecord (brs d) (lastValidOff d) (dcrc d) (continueOnCrcError d).

Definition UpdateCRC (d : decoder) (prevCrc : Z) : decoder :=
  MkDecoder (brs d) (lastValidOff d) (crc_New prevCrc) (continueOnCrcError d).

Definition LastCRC (d : decoder) : Z := crc_Sum32 (dcrc d).
Definition LastOffset (d : decoder) : Z := lastValidOff d.

(** ** Frames *)

(** The bytes [encode] gives to the writer for a record whose checksum is
    set. *)
Definition frame (rec : Record_) : bytes :=
  let '(data, lenField) := prepareDataWithPadding (Record_Marshal rec) in
  PutUint64LE lenField ++ data.

Definition pad (n : Z) : Z := (8 - n mod 8) mod 8.

Lemma encodeFrameSize_spec n : 0 <= n < 2 ^ 56 ->
  encodeFrameSize n = (if pad n =? 0 then n else n + (128 + pad n) * 2 ^ 56, pad n).
Proof.
  intros Hn. unfold encodeFrameSize. fold (pad n). rewrite u64_small by word.
  assert (0 <= pad n < 8) as Hp by (unfold pad; div_lia).
  destruct (Z.eqb_spec (pad n) 0) as [E|E]; simpl; [done|]. f_equal.
  assert (Z.lor 128 (pad n) = 128 + pad n) as ->.
  { rewrite Z.lor_comm, lor_128 by lia. done. }
  rewrite Z.shiftl_mul_pow2, u64_small by word.
  by rewrite lor_mul_add.
Qed.

Lemma mask56 : Z.lxor max_u64 (u64 (Z.shiftl 0xff 56)) = Z.ones 56.
Proof. reflexivity. Qed.

(** The length field determines the sizes of record and padding. *)
Lemma frame_size_roundtrip n : 0 < n < 2 ^ 56 ->
  let l := i64 (fst (encodeFrameSize n)) in
  decodeFrameSize l = (n, snd (encodeFrameSize n)) /\ l <> 0.
Proof.
  intros Hn. rewrite encodeFrameSize_spec by lia. simpl fst. simpl snd.
  assert (0 <= pad n < 8) as Hp by (unfold pad; div_lia).
  unfold decodeFrameSize. rewrite mask56, Z.land_ones by lia.
  destruct (Z.eqb_spec (pad n) 0) as [E|E].
  - rewrite (i64_small n), u64_small, Z.mod_small, i64_small by word.
    rewrite (proj2 (Z.ltb_ge _ _)) by lia. rewrite E. split; [done|lia].
  - assert (i64 (n + (128 + pad n) * 2 ^ 56) = n + (128 + pad n) * 2 ^ 56 - 2 ^ 64) as ->.
    { unfold i64, two64. set (z := n + _).
      rewrite <- (Z.mod_unique (z + 2 ^ 63) (2 ^ 64) 1 (z - 2 ^ 63)) by lia. lia. }
    assert (u64 (n + (128 + pad n) * 2 ^ 56 - 2 ^ 64) = n + (128 + pad n) * 2 ^ 56) as ->.
    { unfold u64, two64. symmetry. apply (Z.mod_unique _ _ (-1)); lia. }
    rewrite Z.mod_add, Z.mod_small, i64_small by word.
    rewrite (proj2 (Z.ltb_lt _ _)) by lia.
    rewrite Z.shiftr_div_pow2, Z.div_add, Z.div_small by lia.
    change 7 with (Z.ones 3). rewrite Z.land_ones by lia.
    rewrite Z.add_0_l. change (2 ^ 3) with 8.
    replace ((128 + pad n) mod 8) with (pad n) by div_lia.
    rewrite i64_small by word. split; [done|lia].
Qed.

Lemma length_PutUint64LE v : length (PutUint64LE v) = 8%nat.
Proof. reflexivity. Qed.

Lemma readInt64_frame v r : is_u64 v -> readInt64 (PutUint64LE v ++ r) = inr (i64 v, r).
Proof.
  intros Hv. unfold readInt64.
  destruct (PutUint64LE v ++ r) eqn:E; [apply (f_equal length) in E; rewrite length_app in E; done|].
  rewrite <- E. rewrite length_app, length_PutUint64LE. rewrite (proj2 (Nat.ltb_ge _ _)) by lia.
  rewrite (take_app_length' _ _ 8), (drop_app_length' _ _ 8) by done.
  unfold PutUint64LE. rewrite rev_involutive, be_value_Uint64ToBytes by done. done.
Qed.

Lemma prepare_spec b : Z.of_nat (length b) < 2 ^ 56 ->
  prepareDataWithPadding b =
    (b ++ replicate (Z.to_nat (pad (Z.of_nat (length b)))) x00,
     fst (encodeFrameSize (Z.of_nat (length b)))).
Proof.
  intros Hb. unfold prepareDataWithPadding. rewrite encodeFrameSize_spec by lia. simpl fst.
  destruct (Z.eqb_spec (pad (Z.of_nat (length b))) 0) as [E|E]; simpl; [|done].
  by rewrite E, app_nil_r.
Qed.

(** The length of a frame: the marshalled record rounded up to eight bytes,
    and the length field. *)
Definition frame_len (rec : Record_) : Z :=
  let n := Z.of_nat (length (Record_Marshal rec)) in 8 + n + pad n.

Definition small (rec : Record_) : Prop :=
  RecordCodec.fits rec /\ Z.of_nat (length (Record_Marshal rec)) < 2 ^ 56.

Lemma frame_spec rec : small rec ->
  let n := Z.of_nat (length (Record_Marshal rec)) in
  frame rec = PutUint64LE (fst (encodeFrameSize n)) ++
              Record_Marshal rec ++ replicate (Z.to_nat (pad n)) x00.
Proof. intros [_ Hn]. unfold frame. by rewrite prepare_spec. Qed.

Lemma length_frame rec : small rec -> Z.of_nat (length (frame rec)) = frame_len rec.
Proof.
  intros Hs. rewrite frame_spec by done. unfold frame_len.
  rewrite !length_app, length_replicate, length_PutUint64LE.
  assert (0 <= pad (Z.of_nat (length (Record_Marshal rec))) < 8) by (unfold pad; div_lia).
  lia.
Qed.

Lemma marshal_pos rec : (0 < length (Record_Marshal rec))%nat.
Proof. simpl. lia. Qed.

Lemma frame_size_u64 n : 0 <= n < 2 ^ 56 -> is_u64 (fst (encodeFrameSize n)).
Proof.
  intros Hn. rewrite encodeFrameSize_spec by done. simpl.
  assert (0 <= pad n < 8) by (unfold pad; div_lia). destruct (pad n =? 0); word.
Qed.

(** Frames keep the file aligned to eight bytes. *)
Lemma frame_len_aligned rec : frame_len rec mod 8 = 0.
Proof. unfold frame_len, pad. div_lia. Qed.

(** ** Decoding what was encoded *)

(** A checksum that continues [crc], as the encoder sets it; a checksum record
    carries the chain itself. *)
Definition links (crc : Z) (rec : Record_) : Prop :=
  if Type_ rec =? CrcType then Crc rec = crc /\ Data rec = None
  else Crc rec = crc_Write crc (default [] (Data rec)).

Lemma decode_frame rs' size off crc cont rec rest :
  small rec -> off + frame_len rec <= size ->
  Type_ rec = CrcType \/ links crc rec ->
  decodeRecord (MkReader size (frame rec ++ rest) :: rs') off crc cont =
    (MkDecoder (MkReader size rest :: rs') (off + frame_len rec)
       (if Type_ rec =? CrcType then crc else Crc rec) cont, (rec, None)).
Proof.
  intros Hs Hsz Hl. pose proof Hs as [Hfit Hn].
  set (n := Z.of_nat (length (Record_Marshal rec))).
  assert (0 <= pad n < 8) as Hp by (unfold pad; div_lia).
  assert (0 < n) as Hn0 by (pose proof (marshal_pos rec); lia).
  destruct (frame_size_roundtrip n) as [Efs Hne]; [lia|].
  rewrite encodeFrameSize_spec in Efs at 2 by lia. simpl snd in Efs.
  cbn [decodeRecord br_rest br_size]. rewrite frame_spec by done. fold n.
  rewrite <- !app_assoc, readInt64_frame by (apply frame_size_u64; lia).
  rewrite (proj2 (Z.eqb_neq _ _)) by done. rewrite Efs.
  unfold frame_len in Hsz |- *. fold n in Hsz |- *.
  rewrite (proj2 (Z.ltb_ge _ _)) by lia.
  rewrite (app_assoc (Record_Marshal rec)).
  set (data := Record_Marshal rec ++ replicate (Z.to_nat (pad n)) x00).
  assert (length data = Z.to_nat (n + pad n)) as Ed.
  { subst data. rewrite length_app, length_replicate. lia. }
  rewrite (proj2 (Nat.ltb_ge _ _)) by (rewrite length_app; lia).
  rewrite (take_app_length' data), (drop_app_length' data) by done.
  assert (take (Z.to_nat n) data = Record_Marshal rec) as ->.
  { subst data. rewrite take_app_length' by lia. done. }
  rewrite RecordCodec.Record_roundtrip by done.
  replace (off + frameSizeBytes + n + pad n) with (off + (8 + n + pad n))
    by (unfold frameSizeBytes; lia).
  destruct (Z.eqb_spec (Type_ rec) CrcType) as [E|E]; [done|].
  destruct Hl as [?|Hl]; [done|]. unfold links in Hl.
  rewrite (proj2 (Z.eqb_neq _ _)) in Hl by done. unfold Validate, crc_Sum32.
  rewrite <- Hl, Z.eqb_refl. done.
Qed.

(** A segment: its records and the zeros after them. *)
Abbreviation segment := (list Record_ * nat)%type.

Definition seg_bytes (s : segment) : bytes :=
  concat (map frame (fst s)) ++ replicate (snd s) x00.

(** The zeros are none or at least a length field. *)
Definition seg_ok (s : segment) : Prop :=
  Forall small (fst s) /\ (snd s = 0%nat \/ (8 <= snd s)%nat).

Definition reader_of (s : segment) : FileBufReader :=
  MkReader (Z.of_nat (length (seg_bytes s))) (seg_bytes s).

(** The last file holds records and, after them, the bytes [t]. *)
Definition file_bytes (rs : list Record_) (t : bytes) : bytes := concat (map frame rs) ++ t.

(** The decoder has the segments [pre] and then the last file left to read,
    the first of them from its current offset on. *)
Definition stream_at (d : decoder) (pre : list segment) (rs : list Record_) (t : bytes) : Prop :=
  let last := file_bytes rs t in
  match pre with
  | [] => brs d = [MkReader (lastValidOff d + Z.of_nat (length last)) last]
  | s :: pre' =>
      brs d = MkReader (lastValidOff d + Z.of_nat (length (seg_bytes s))) (seg_bytes s)
                :: map reader_of pre' ++ [MkReader (Z.of_nat (length last)) last]
  end.

(** Where reading ends: after the records of the last file. *)
Definition frames_len (rs : list Record_) : Z := Z.of_nat (length (concat (map frame rs))).

Definition end_off (off : Z) (pre : list segment) (rs : list Record_) : Z :=
  match pre with [] => off | _ => 0 end + frames_len rs.

Definition records (segs : list segment) : list Record_ := concat (map fst segs).

(** What the last call finds there. *)
Definition at_end (t : bytes) (off crc : Z) (cont : bool) : decoder * (Record_ * option error) :=
  decodeRecord [MkReader (off + Z.of_nat (length t)) t] off crc cont.

(** At the end of its records a segment reads as ended. *)
Lemma decode_end rs' size off crc cont z : (z = 0 \/ 8 <= z)%nat ->
  decodeRecord (MkReader size (replicate z x00) :: rs') off crc cont =
  match rs' with
  | [] => (MkDecoder [] off crc cont, (rec_Reset, Some EOF))
  | _ => decodeRecord rs' 0 crc cont
  end.
Proof.
  intros [->|Hz]; [by destruct rs'|]. cbn [decodeRecord br_rest].
  replace z with (8 + (z - 8))%nat by lia. rewrite replicate_add.
  change (replicate 8 x00) with (PutUint64LE 0).
  rewrite readInt64_frame by done. by destruct rs'.
Qed.

Lemma seg_bytes_cons r rs z : seg_bytes (r :: rs, z) = frame r ++ seg_bytes (rs, z).
Proof. unfold seg_bytes. simpl. by rewrite app_assoc. Qed.

Lemma file_bytes_cons r rs t : file_bytes (r :: rs) t = frame r ++ file_bytes rs t.
Proof. unfold file_bytes. simpl. by rewrite app_assoc. Qed.

Lemma frames_len_cons r rs : small r -> frames_len (r :: rs) = frame_len r + frames_len rs.
Proof. intros Hr. unfold frames_len. simpl. rewrite length_app, Nat2Z.inj_add, length_frame; done. Qed.

Lemma at_end_zeros z off crc cont : (z = 0 \/ 8 <= z)%nat ->
  at_end (replicate z x00) off crc cont = (MkDecoder [] off crc cont, (rec_Reset, Some EOF)).
Proof. intros Hz. unfold at_end. by rewrite decode_end. Qed.

(** A decoder whose next bytes are the frame of [r]. *)
Lemma decode_next d r rest rs' : small r -> Type_ r = CrcType \/ links (dcrc d) r ->
  let size := lastValidOff d + Z.of_nat (length (frame r ++ rest)) in
  brs d = MkReader size (frame r ++ rest) :: rs' ->
  let off := lastValidOff d + frame_len r in
  Decode d = (MkDecoder (MkReader (off + Z.of_nat (length rest)) rest :: rs') off
                (if Type_ r =? CrcType then dcrc d else Crc r) (continueOnCrcError d), (r, None)).
Proof.
  intros Hr Hl size E off. unfold Decode. rewrite E. subst size off.
  rewrite length_app, Nat2Z.inj_add, length_frame, Z.add_assoc by done.
  apply decode_frame; [done|lia|done].
Qed.

(** One call of [Decode]: the next record, or the end. *)
Lemma Decode_stream pre rs t : forall d,
  stream_at d pre rs t -> Forall seg_ok pre -> Forall small rs ->
  match records pre ++ rs with
  | [] => Decode d = at_end t (end_off (lastValidOff d) pre rs) (dcrc d) (continueOnCrcError d)
  | r :: rest =>
      Type_ r = CrcType \/ links (dcrc d) r ->
      exists d' pre' rs', Decode d = (d', (r, None)) /\
        stream_at d' pre' rs' t /\ Forall seg_ok pre' /\ Forall small rs' /\
        records pre' ++ rs' = rest /\
        end_off (lastValidOff d') pre' rs' = end_off (lastValidOff d) pre rs /\
        dcrc d' = (if Type_ r =? CrcType then dcrc d else Crc r) /\
        continueOnCrcError d' = continueOnCrcError d
  end.
Proof.
  induction pre as [|[ss z] pre IH]; intros d Hat Hok Hsm.
  - unfold stream_at in Hat. destruct rs as [|r rs]; cbn [records map concat app].
    + unfold Decode, at_end, end_off, frames_len. rewrite Hat. simpl. by rewrite !Z.add_0_r.
    + intros Hl. apply Forall_cons in Hsm as [Hr Hsm]. rewrite file_bytes_cons in Hat.
      rewrite (decode_next d r _ _ Hr Hl Hat).
      eexists _, [], rs. split; [reflexivity|]. cbn [lastValidOff dcrc continueOnCrcError].
      split_and!; try done.
      * unfold end_off. rewrite frames_len_cons by done. lia.
  - apply Forall_cons in Hok as [[Hss Hz] Hok]. unfold stream_at in Hat.
    unfold records. cbn [map concat fst]. fold (records pre). destruct ss as [|r ss]; cbn [app].
    + specialize (IH (MkDecoder (tl (brs d)) 0 (dcrc d) (continueOnCrcError d))).
      assert (Decode d = Decode (MkDecoder (tl (brs d)) 0 (dcrc d) (continueOnCrcError d))) as E.
      { unfold Decode at 1. rewrite Hat. change (seg_bytes ([], z)) with (replicate z x00).
        rewrite decode_end by done. simpl. by destruct pre. }
      rewrite E. cbn [lastValidOff dcrc continueOnCrcError] in IH.
      assert (end_off 0 pre rs = end_off (lastValidOff d) (([], z) :: pre) rs) as <-
        by (unfold end_off; by destruct pre).
      apply IH; [|done|done]. rewrite Hat. unfold stream_at; cbn [brs lastValidOff tl].
      rewrite !Z.add_0_l. destruct pre; [done|]. simpl. unfold reader_of at 1. done.
    + intros Hl. apply Forall_cons in Hss as [Hr Hss]. rewrite seg_bytes_cons in Hat.
      rewrite (decode_next d r _ _ Hr Hl Hat).
      eexists _, ((ss, z) :: pre), rs. split; [reflexivity|].
      cbn [lastValidOff dcrc continueOnCrcError]. split_and!; try done.
      * by apply Forall_cons.
Qed.

(** ** Reading loops

    The code reads a log with the loop
    [for err = decoder.Decode(rec); err == nil; err = decoder.Decode(rec)];
    its body is a switch on the record's type that may return early.  The loop
    ends with what it gathered and the error of the last [Decode].  Every
    round reads at least eight bytes, so the bytes left bound the rounds. *)
Fixpoint decode_loop {A R} (fuel : nat) (body : A -> Record_ -> decoder -> outcome (decoder * (R + A)))
    (a : A) (d : decoder) : outcome (decoder * (R + A * error)) :=
  match fuel with
  | O => Hang
  | S f =>
      match Decode d with
      | (d', (_, Some e)) => Ret (d', inr (a, e))
      | (d', (rec, None)) =>
          '(d'', r) ← body a rec d';
          match r with
          | inr a' => decode_loop f body a' d''
          | inl x => Ret (d'', inl x)
          end
      end
  end.

Definition bytes_left (d : decoder) : nat :=
  S (sum_list (map (fun r => length (br_rest r)) (brs d))).

Definition loop {A R} (body : A -> Record_ -> decoder -> outcome (decoder * (R + A)))
    (a : A) (d : decoder) : outcome (decoder * (R + A * error)) :=
  decode_loop (bytes_left d) body a d.

(** Checksums chain from [crc] on. *)
Fixpoint chained (crc : Z) (rs : list Record_) : Prop :=
  match rs with
  | [] => True
  | r :: rs' => links crc r /\ chained (Crc r) rs'
  end.

(** The checksum after the records. *)
Definition last_crc (crc : Z) (rs : list Record_) : Z := fold_left (fun _ r => Crc r) rs crc.

(** What a switch gathers over the records of a log. *)
Fixpoint gather {A R X} (step : A -> X -> R + A) (a : A) (rs : list X) : R + A :=
  match rs with
  | [] => inr a
  | r :: rs' =>
      match step a r with
      | inr a' => gather step a' rs'
      | inl x => inl x
      end
  end.

(** A switch that, on the records [good], checks and resets the decoder's
    checksum at checksum records and does not touch the decoder at others. *)
Definition switches {A R} (good : Record_ -> Prop)
    (body : A -> Record_ -> decoder -> outcome (decoder * (R + A)))
    (step : A -> Record_ -> R + A) : Prop :=
  forall a r d, good r ->
    (Type_ r = CrcType -> dcrc d = 0 \/ dcrc d = Crc r ->
     body a r d = Ret (UpdateCRC d (Crc r), inr a) /\ step a r = inr a) /\
    (Type_ r <> CrcType -> body a r d = Ret (d, step a r)).

Section Loops.
Context {A R : Type} (good : Record_ -> Prop)
  (body : A -> Record_ -> decoder -> outcome (decoder * (R + A)))
  (step : A -> Record_ -> R + A).
Context (Hsw : switches good body step).

(** The decoder is on the chain, or fresh and at a checksum record. *)
Definition in_chain (d : decoder) (rs : list Record_) (crc : Z) : Prop :=
  chained crc rs /\
  (dcrc d = crc \/ dcrc d = 0 /\ exists r rs', rs = r :: rs' /\ Type_ r = CrcType).

Lemma decode_loop_stream fuel : forall pre rs t d a crc,
  stream_at d pre rs t -> Forall seg_ok pre -> Forall small rs ->
  Forall good (records pre ++ rs) -> in_chain d (records pre ++ rs) crc ->
  (length (records pre ++ rs) < fuel)%nat ->
  match gather step a (records pre ++ rs) with
  | inr a' => forall d' r e,
      at_end t (end_off (lastValidOff d) pre rs) (last_crc (dcrc d) (records pre ++ rs))
        (continueOnCrcError d) = (d', (r, Some e)) ->
      decode_loop fuel body a d = Ret (d', inr (a', e))
  | inl x => exists d', decode_loop fuel body a d = Ret (d', inl x)
  end.
Proof.
  induction fuel as [|fuel IH]; intros pre rs t d a crc Hat Hok Hsm Hg [Hch Hd] Hf; [lia|].
  pose proof (Decode_stream pre rs t d Hat Hok Hsm) as Hdec. cbn [decode_loop].
  destruct (records pre ++ rs) as [|r rest] eqn:Er; cbn [gather last_crc fold_left].
  { intros d' r e E. by rewrite Hdec, E. }
  destruct Hch as [Hl Hch]. apply Forall_cons in Hg as [Hr Hg].
  destruct Hdec as (d' & pre' & rs' & -> & Hat' & Hok' & Hsm' & Ers & Eoff & Ecrc & Econt).
  { destruct Hd as [->|[_ (r' & rs' & [= <- <-] & ?)]]; auto. }
  destruct (Hsw a r d' Hr) as [Hc Hnc]. simpl in Hf.
  destruct (Z.eqb_spec (Type_ r) CrcType) as [Et|Et].
  - destruct Hc as [-> ->]; [done| |].
    { unfold links in Hl. rewrite Et, Z.eqb_refl in Hl. destruct Hl as [Hl _].
      rewrite Ecrc. destruct Hd as [->|[-> _]]; auto. }
    simpl. specialize (IH pre' rs' t (UpdateCRC d' (Crc r)) a (Crc r)). rewrite Ers in IH.
    unfold in_chain in IH. simpl in IH. rewrite Eoff, Econt in IH.
    apply IH; auto; lia.
  - rewrite Hnc by done. simpl. destruct (step a r) as [x|a']; [eauto|].
    specialize (IH pre' rs' t d' a' (Crc r)). rewrite Ers in IH.
    unfold in_chain in IH. rewrite Eoff, Econt, Ecrc in IH. apply IH; auto; lia.
Qed.

End Loops.

Lemma frames_count rs : Forall small rs -> (length rs <= length (concat (map frame rs)))%nat.
Proof.
  induction 1 as [|r rs Hr _ IH]; simpl; [lia|]. rewrite length_app.
  pose proof (length_frame r Hr) as E. unfold frame_len in E.
  assert (0 <= pad (Z.of_nat (length (Record_Marshal r)))) by (unfold pad; div_lia). lia.
Qed.

Lemma records_le_bytes segs : Forall seg_ok segs ->
  (length (records segs) <= sum_list (map (fun s => length (seg_bytes s)) segs))%nat.
Proof.
  induction 1 as [|[rs z] segs [Hsm _] _ IH]; [done|].
  unfold records in *. simpl. rewrite length_app.
  pose proof (frames_count rs Hsm).
  assert (length (concat (map frame rs)) <= length (seg_bytes (rs, z)))%nat
    by (unfold seg_bytes; rewrite length_app; simpl; lia). lia.
Qed.

(** Reading a whole log with a fresh decoder. *)
Lemma loop_log {A R} good body (step : A -> Record_ -> R + A) pre rs t a crc :
  switches good body step -> Forall seg_ok pre -> Forall small rs ->
  Forall good (records pre ++ rs) -> chained crc (records pre ++ rs) ->
  (exists r rest, records pre ++ rs = r :: rest /\ Type_ r = CrcType) ->
  let dec := NewDecoder (map seg_bytes pre ++ [file_bytes rs t]) in
  match gather step a (records pre ++ rs) with
  | inr a' => forall d' r e,
      at_end t (frames_len rs) (last_crc 0 (records pre ++ rs)) false = (d', (r, Some e)) ->
      loop body a dec = Ret (d', inr (a', e))
  | inl x => exists d', loop body a dec = Ret (d', inl x)
  end.
Proof.
  intros Hsw Hok Hsm Hg Hch Hhd dec. unfold loop.
  assert (brs dec = map reader_of pre ++
    [MkReader (Z.of_nat (length (file_bytes rs t))) (file_bytes rs t)]) as Eb.
  { unfold dec, NewDecoder, NewDecoderAdvanced; cbn [brs]. by rewrite map_app, map_map. }
  assert (end_off 0 pre rs = frames_len rs) as Eo by (unfold end_off; by destruct pre).
  pose proof (decode_loop_stream good body step Hsw (bytes_left dec) pre rs t dec a crc) as H.
  simpl lastValidOff in H. rewrite Eo in H. apply H; try done.
  - unfold stream_at. rewrite Eb. destruct pre as [|s pre]; [done|]. simpl.
    unfold reader_of at 1. done.
  - split; [done|]. right. auto.
  - unfold bytes_left. rewrite Eb, map_app, sum_list_with_app, map_map, length_app. simpl.
    pose proof (records_le_bytes pre Hok). pose proof (frames_count rs Hsm).
    unfold reader_of, file_bytes; simpl. rewrite length_app. lia.
Qed.

(** ** Torn records

    A crash leaves a prefix of the last frame, followed by nothing or by the
    zeros the segment was preallocated with. *)

(** The marshalled record of which only the first [k] bytes were written. *)
Definition torn_record (r : Record_) (k : nat) : bytes :=
  let b := Record_Marshal r in take k b ++ replicate (length b - k) x00.

(** The bytes lost are zeros anyway, or the checksum tells. *)
Definition detected (crc : Z) (r : Record_) (k : nat) : Prop :=
  torn_record r k = Record_Marshal r \/
  match Record_Unmarshal (torn_record r k) with
  | inl _ => True
  | inr rec => Type_ rec <> CrcType /\
               Validate rec (crc_Sum32 (crc_Write crc (default [] (Data rec)))) <> None
  end.

(** The last call ends with [ErrUnexpectedEOF] and stays at [off]. *)
Definition torn (t : bytes) (off crc : Z) : Prop :=
  exists d, at_end t off crc false = (d, (rec_Reset, Some ErrUnexpectedEOF)) /\
    lastValidOff d = off.

Lemma all_zero_replicate n : all_zero (replicate n x00) = true.
Proof. by induction n. Qed.

(** The first sector that was not written is all zero. *)
Lemma zero_sector fuel : forall fileOff a z, 0 <= fileOff -> (0 < z)%nat ->
  (length a + z <= fuel)%nat -> (fileOff + Z.of_nat (length a)) mod minSectorSize = 0 ->
  existsb all_zero (sectors fuel fileOff (a ++ replicate z x00)) = true.
Proof.
  unfold minSectorSize. induction fuel as [|fuel IH]; intros o a z Ho Hz Hf Hb; [lia|].
  destruct (a ++ replicate z x00) as [|x l] eqn:E.
  { apply (f_equal length) in E. rewrite length_app, length_replicate in E. simpl in E. lia. }
  cbn [sectors]. rewrite <- E. clear x l E. unfold minSectorSize.
  rewrite length_app, length_replicate.
  set (c := Nat.min (Z.to_nat (512 - o mod 512)) (length a + z)).
  pose proof (Z.mod_pos_bound o 512 ltac:(lia)). cbn [existsb].
  destruct a as [|x a].
  { simpl app. rewrite take_replicate, all_zero_replicate. done. }
  assert (Z.to_nat (512 - o mod 512) <= length (x :: a))%nat as Hc.
  { simpl length in *. pose proof (Z.div_mod o 512). pose proof (Z.div_mod (o + Z.of_nat (S (length a))) 512). lia. }
  assert (c = Z.to_nat (512 - o mod 512)) as Ec by lia. clearbody c.
  rewrite (drop_app_le (x :: a)) by lia. rewrite IH; [apply orb_true_r|lia|done| |].
  - rewrite length_drop. lia.
  - rewrite length_drop, Nat2Z.inj_sub by lia.
    replace (o + Z.of_nat c + (Z.of_nat (length (x :: a)) - Z.of_nat c))
      with (o + Z.of_nat (length (x :: a))) by lia. done.
Qed.

(** Fewer bytes than the frame has. *)
Lemma short_torn r t off crc : small r -> (0 < length t < length (frame r))%nat ->
  (length t < 8)%nat \/ take 8 t = take 8 (frame r) -> torn t off crc.
Proof.
  intros Hs Hl Ht. unfold torn, at_end. cbn [decodeRecord br_rest br_size].
  destruct (decide (length t < 8)%nat) as [H8|H8].
  { assert (readInt64 t = inl ErrUnexpectedEOF) as ->.
    { unfold readInt64. destruct t; [simpl in Hl; lia|]. by rewrite (proj2 (Nat.ltb_lt _ _)). }
    rewrite decide_False by done. eexists. split; [reflexivity|done]. }
  destruct Ht as [?|Ht]; [lia|]. pose proof Hs as [_ Hn].
  set (n := Z.of_nat (length (Record_Marshal r))) in *.
  assert (0 < n) as Hn0 by (pose proof (marshal_pos r); lia).
  pose proof (length_frame r Hs) as El. unfold frame_len in El. fold n in El.
  rewrite frame_spec in Ht by done. fold n in Ht.
  rewrite (take_app_length' _ _ 8) in Ht by done.
  rewrite <- (take_drop 8 t), Ht, readInt64_frame by (apply frame_size_u64; lia).
  destruct (frame_size_roundtrip n) as [Efs Hne]; [lia|].
  rewrite encodeFrameSize_spec in Efs at 2 by lia. simpl snd in Efs.
  rewrite (proj2 (Z.eqb_neq _ _)) by done. rewrite Efs.
  destruct (_ <? n); [eexists; split; [reflexivity|done]|].
  assert (0 <= pad n < 8) as Hp by (unfold pad; div_lia).
  rewrite (proj2 (Nat.ltb_lt _ _)) by (rewrite length_drop; lia).
  eexists. split; [reflexivity|done].
Qed.

(** The frame is followed by zeros from a sector boundary on. *)
Lemma zeroed_torn r k z off crc : small r -> 0 <= off ->
  (k < length (Record_Marshal r))%nat -> (length (frame r) <= 8 + k + z)%nat ->
  (off + 8 + Z.of_nat k) mod minSectorSize = 0 ->
  torn_record r k <> Record_Marshal r -> detected crc r k ->
  torn (take (8 + k) (frame r) ++ replicate z x00) off crc.
Proof.
  intros Hs Ho Hk Hz Hb Hne [?|Hdet]; [done|]. pose proof Hs as [_ Hn].
  set (b := Record_Marshal r) in *. set (n := Z.of_nat (length b)) in *.
  assert (0 <= pad n < 8) as Hp by (unfold pad; div_lia).
  pose proof (length_frame r Hs) as El. unfold frame_len in El. fold b n in El.
  rewrite frame_spec by done. fold b n. rewrite (take_app_ge _ _ (8 + k)), length_PutUint64LE by (simpl; lia).
  replace (8 + k - 8)%nat with k by lia. rewrite take_app_le by lia. rewrite <- app_assoc.
  unfold torn, at_end. cbn [decodeRecord br_rest br_size].
  rewrite readInt64_frame by (apply frame_size_u64; lia).
  destruct (frame_size_roundtrip n) as [Efs Hl0]; [lia|].
  rewrite encodeFrameSize_spec in Efs at 2 by lia. simpl snd in Efs.
  rewrite (proj2 (Z.eqb_neq _ _)) by done. rewrite Efs.
  rewrite !length_app, length_take, length_replicate, length_PutUint64LE, Nat.min_l by lia.
  rewrite (proj2 (Z.ltb_ge _ _)), (proj2 (Nat.ltb_ge _ _)) by lia.
  rewrite take_app_ge, length_take, Nat.min_l, take_replicate by (rewrite ?length_take; lia).
  set (data := take k b ++ _).
  assert (take (Z.to_nat n) data = torn_record r k) as ->.
  { subst data. unfold torn_record. fold b. rewrite take_app_ge, length_take, Nat.min_l
      by (rewrite ?length_take; lia). f_equal. rewrite take_replicate. f_equal. lia. }
  assert (isTornEntry (MkDecoder [MkReader (off + Z.of_nat (8 + (k + z)))
    (drop (Z.to_nat (n + pad n)) (take k b ++ replicate z x00))] off crc false) data = true) as ->.
  { unfold isTornEntry; cbn [brs length negb Nat.eqb lastValidOff]. apply zero_sector.
    - unfold frameSizeBytes. lia.
    - lia.
    - unfold data. rewrite length_app, length_replicate. lia.
    - rewrite length_take, Nat.min_l by lia. unfold frameSizeBytes. done. }
  destruct (Record_Unmarshal (torn_record r k)) as [e|rec]; [by eexists|].
  destruct Hdet as [Ht Hv]. rewrite (proj2 (Z.eqb_neq _ _)) by done.
  destruct (Validate _ _) as [e|]; [by eexists|done].
Qed.

(** What a crash leaves of a frame: a torn record, or the whole frame because
    the bytes that were lost are zeros. *)
Lemma tear r k z off crc : small r -> 0 <= off -> off mod 8 = 0 ->
  (0 < k < length (frame r))%nat ->
  z = 0%nat \/ (off + Z.of_nat k) mod minSectorSize = 0 /\ (off + Z.of_nat (k + z)) mod 8 = 0 /\
               detected crc r (k - 8) ->
  let t := take k (frame r) ++ replicate z x00 in
  torn t off crc \/
  exists z', t = frame r ++ replicate z' x00 /\ Z.of_nat z' mod 8 = 0.
Proof.
  intros Hs Ho Ho8 Hk Hz t. pose proof Hs as [_ Hn].
  pose proof (length_frame r Hs) as El. pose proof (frame_len_aligned r) as Ha.
  unfold frame_len in El, Ha. set (n := Z.of_nat (length (Record_Marshal r))) in *.
  assert (0 <= pad n < 8) as Hp by (unfold pad; div_lia).
  set (L := length (frame r)) in *.
  assert (length t = k + z)%nat as Et.
  { unfold t. rewrite length_app, length_take, length_replicate. lia. }
  destruct (decide (k + z < L)%nat) as [Hlt|Hge].
  - left. destruct Hz as [->|(Hb & _ & _)].
    + apply (short_torn r); [done|lia|]. unfold t. rewrite app_nil_r.
      destruct (decide (k < 8)%nat); [left; rewrite length_take; lia|right].
      rewrite take_take. f_equal. lia.
    + apply (short_torn r); [done|lia|right]. unfold t.
      assert (8 <= k)%nat by (unfold minSectorSize in Hb; div_lia).
      rewrite take_app_le, take_take by (rewrite length_take; lia). f_equal. lia.
  - destruct Hz as [->|(Hb & Hz8 & Hd)]; [lia|].
    assert (8 <= k < 8 + length (Record_Marshal r))%nat as Hk8
      by (unfold minSectorSize in Hb; div_lia).
    destruct (decide (torn_record r (k - 8) = Record_Marshal r)) as [Er|Er].
    + right. exists (k + z - L)%nat. split; [|rewrite Nat2Z.inj_sub by lia; div_lia].
      unfold t. rewrite frame_spec by done. fold n.
      rewrite take_app_ge, length_PutUint64LE by (simpl; lia).
      rewrite take_app_le by lia. rewrite <- !app_assoc. f_equal.
      rewrite <- Er at 2. unfold torn_record. rewrite <- !app_assoc. f_equal.
      rewrite <- !replicate_add. f_equal. lia.
    + left. unfold t. replace k with (8 + (k - 8))%nat by lia.
      apply zeroed_torn; [done|done|lia|lia| |done|done].
      replace (off + 8 + Z.of_nat (k - 8)) with (off + Z.of_nat k) by lia. done.
Qed.

#[global] Instance detected_dec crc r k : Decision (detected crc r k).
Proof.
  unfold detected. apply or_dec; [apply _|]. destruct (Record_Unmarshal _); apply _.
Defined.

(** Past its end nothing of the record is lost. *)
Lemma detected_all crc r : Forall (detected crc r) (seq 0 (length (Record_Marshal r))) ->
  forall k, detected crc r k.
Proof.
  intros H k. destruct (decide (k < length (Record_Marshal r))%nat) as [Hk|Hk].
  - apply (proj1 (Forall_forall _ _) H). apply elem_of_seq. lia.
  - left. unfold torn_record. rewrite take_ge by lia.
    replace (_ - k)%nat with 0%nat by lia. apply app_nil_r.
Qed.
