(* ===== verification/WalNames.v ===== *)
(** * util.go of etcd's write-ahead log

    Segment files are named by their sequence number and the index of their
    first entry, in sixteen hexadecimal digits each.  The theorems show that
    names parse back, sort by sequence number, and what [searchIndex] and
    [isValidSeq] decide. *)

From S2P Require Import Prelude Errors.
From Stdlib Require Import Ascii.

Definition errBadWALName : error := OtherError "bad wal name".
Definition ErrFileNotFound : error := OtherError "wal: file not found".

(** ** Formatting and scanning *)

(** A digit of [%x]. *)
Definition hex_char (d : Z) : Ascii.ascii :=
  Ascii.ascii_of_N (Z.to_N (if d <? 10 then 48 + d else 87 + d)).

(** The value of a digit, in either case. *)
Definition hex_value (c : Ascii.ascii) : option Z :=
  let n := Z.of_N (Ascii.N_of_ascii c) in
  if (48 <=? n) && (n <=? 57) then Some (n - 48)
  else if (97 <=? n) && (n <=? 102) then Some (n - 87)
  else if (65 <=? n) && (n <=? 70) then Some (n - 55)
  else None.

(** The low [4 * n] bits of [v] as [n] digits, before [rest]. *)
Fixpoint put_hex (n : nat) (v : Z) (rest : string) : string :=
  match n with
  | O => rest
  | S n' =>
      String (hex_char (Z.land (Z.shiftr v (4 * Z.of_nat n')) 15)) (put_hex n' v rest)
  end.

(** [fmt.Sprintf("%016x-%016x.wal", seq, index)]. *)
Definition walName (seq index : Z) : string :=
  put_hex 16 seq (String "-"%char (put_hex 16 index ".wal")).

Arguments walName _ _ : simpl never.

(** [fmt.Sscanf] of [%016x]: at most sixteen digits, at least one. *)
Fixpoint get_hex (width : nat) (acc : Z) (got : bool) (s : string) : option (Z * string) :=
  let stop := if got then Some (acc, s) else None in
  match width, s with
  | S w, String c s' =>
      match hex_value c with
      | Some d => get_hex w (acc * 16 + d) true s'
      | None => stop
      end
  | _, _ => stop
  end.

(** The scanner skips the blanks before a number, a line break excepted. *)
Fixpoint skip_space (s : string) : string :=
  match s with
  | String c s' =>
      if bool_decide (Ascii.N_of_ascii c ∈ [9; 11; 12; 13; 32]%N) then skip_space s' else s
  | EmptyString => s
  end.

Definition scan_hex (s : string) : option (Z * string) := get_hex 16 0 false (skip_space s).

(** [strings.HasSuffix]. *)
Fixpoint has_suffix (suf s : string) : bool :=
  bool_decide (s = suf) ||
  match s with
  | String _ s' => has_suffix suf s'
  | EmptyString => false
  end.

Definition parseWALName (str : string) : result (Z * Z) :=
  if negb (has_suffix ".wal" str) then inl errBadWALName
  else
    match scan_hex str with
    | Some (seq, String "-"%char r) =>
        match scan_hex r with
        | Some (index, r') =>
            if has_prefix ".wal" r' then inr (seq, index)
            else inl (OtherError "input does not match format")
        | None => inl (OtherError "expected integer")
        end
    | Some _ => inl (OtherError "input does not match format")
    | None => inl (OtherError "expected integer")
    end.

(** ** Selecting files *)

(** [searchIndex]: from the last name down, the first whose index is not above
    the given one. *)
Fixpoint search_down (names : list string) (index : Z) (i : nat) : outcome (option nat) :=
  match i with
  | O => Ret None
  | S i' =>
      match names !! i' with
      | None => Panic "index out of range"
      | Some name =>
          match parseWALName name with
          | inl _ => Panic "failed to parse WAL file name"
          | inr (_, curIndex) =>
              if curIndex <=? index then Ret (Some i') else search_down names index i'
          end
      end
  end.

Definition searchIndex (names : list string) (index : Z) : outcome (option nat) :=
  search_down names index (length names).

(** [isValidSeq]: from the second name on, each sequence number follows the
    last; the zero that a first file may have counts as none. *)
Fixpoint valid_from (lastSeq : Z) (names : list string) : outcome bool :=
  match names with
  | [] => Ret true
  | name :: names' =>
      match parseWALName name with
      | inl _ => Panic "failed to parse WAL file name"
      | inr (curSeq, _) =>
          if negb (lastSeq =? 0) && negb (lastSeq =? u64 (curSeq - 1)) then Ret false
          else valid_from curSeq names'
      end
  end.

Definition isValidSeq (names : list string) : outcome bool := valid_from 0 names.

Definition is_wal_name (name : string) : bool :=
  match parseWALName name with inr _ => true | inl _ => false end.

Definition checkWALNames (names : list string) : list string :=
  List.filter is_wal_name names.

(** ** Names parse back *)

Lemma hex_value_char d : 0 <= d < 16 -> hex_value (hex_char d) = Some d.
Proof.
  intros Hd. assert (d ∈ [0;1;2;3;4;5;6;7;8;9;10;11;12;13;14;15]) as H.
  { rewrite !elem_of_cons, elem_of_nil. lia. }
  rewrite !elem_of_cons, elem_of_nil in H.
  repeat (destruct H as [->|H]; [reflexivity|]). done.
Qed.

Lemma land_15 v : Z.land v 15 = v mod 16.
Proof. change 15 with (Z.ones 4). by rewrite Z.land_ones. Qed.

Lemma put_hex_step n v :
  v mod 16 ^ Z.of_nat (S n)
  = (v / 16 ^ Z.of_nat n) mod 16 * 16 ^ Z.of_nat n + v mod 16 ^ Z.of_nat n.
Proof.
  rewrite Nat2Z.inj_succ, Z.pow_succ_r by lia.
  assert (0 < 16 ^ Z.of_nat n) by (apply Z.pow_pos_nonneg; lia).
  rewrite Z.mul_comm, Z.rem_mul_r by lia. lia.
Qed.

Lemma digit_shift n v : Z.land (Z.shiftr v (4 * Z.of_nat n)) 15 = (v / 16 ^ Z.of_nat n) mod 16.
Proof.
  rewrite land_15, Z.shiftr_div_pow2 by lia. rewrite Z.pow_mul_r by lia. done.
Qed.

Lemma get_put_hex n v acc got rest : (0 < n)%nat \/ got = true ->
  get_hex n acc got (put_hex n v rest)
  = Some (acc * 16 ^ Z.of_nat n + v mod 16 ^ Z.of_nat n, rest).
Proof.
  revert acc got. induction n as [|n IH]; intros acc got Hg.
  - destruct Hg as [?| ->]; [lia|]. simpl. rewrite Z.mod_1_r. do 2 f_equal. lia.
  - cbn [put_hex get_hex]. rewrite digit_shift, hex_value_char by (apply Z.mod_pos_bound; lia).
    rewrite IH by auto. do 2 f_equal. rewrite (put_hex_step n v).
    rewrite Nat2Z.inj_succ, Z.pow_succ_r by lia. lia.
Qed.

Lemma hex_char_not_space d : 0 <= d < 16 ->
  bool_decide (Ascii.N_of_ascii (hex_char d) ∈ [9; 11; 12; 13; 32]%N) = false.
Proof.
  intros Hd. assert (d ∈ [0;1;2;3;4;5;6;7;8;9;10;11;12;13;14;15]) as H.
  { rewrite !elem_of_cons, elem_of_nil. lia. }
  rewrite !elem_of_cons, elem_of_nil in H.
  repeat (destruct H as [->|H]; [reflexivity|]). done.
Qed.

Lemma scan_put_hex v rest : is_u64 v -> scan_hex (put_hex 16 v rest) = Some (v, rest).
Proof.
  intros Hv. unfold scan_hex.
  assert (skip_space (put_hex 16 v rest) = put_hex 16 v rest) as ->.
  { change (put_hex 16 v rest) with
      (String (hex_char (Z.land (Z.shiftr v (4 * Z.of_nat 15)) 15)) (put_hex 15 v rest)).
    cbn [skip_space]. rewrite hex_char_not_space; [done|]. rewrite land_15.
    apply Z.mod_pos_bound. lia. }
  rewrite get_put_hex by (left; lia). rewrite Z.mod_small by exact Hv. done.
Qed.

Lemma put_hex_suffix suf n v rest : has_suffix suf rest = true ->
  has_suffix suf (put_hex n v rest) = true.
Proof.
  intros H. induction n as [|n IH]; [done|]. cbn [put_hex has_suffix]. rewrite IH.
  apply orb_true_r.
Qed.

Lemma walName_suffix seq index : has_suffix ".wal" (walName seq index) = true.
Proof.
  unfold walName. apply put_hex_suffix. cbn [has_suffix]. rewrite put_hex_suffix by done.
  apply orb_true_r.
Qed.

(** A name that ends in [.broken] ends in no suffix with another last letter. *)
Fixpoint last_char (s : string) : option Ascii.ascii :=
  match s with
  | EmptyString => None
  | String c EmptyString => Some c
  | String _ s' => last_char s'
  end.

Lemma last_char_app s c t : last_char (s ++ String c t) = last_char (String c t).
Proof.
  induction s as [|d s IH]; [done|]. destruct s as [|e s]; [done|]. exact IH.
Qed.

Lemma suffix_last suf s : suf <> "" -> has_suffix suf s = true -> last_char s = last_char suf.
Proof.
  intros Hn. induction s as [|c s IH]; intros H; cbn [has_suffix] in H;
    apply orb_true_iff in H as [H|H]; try done.
  1,2: apply bool_decide_eq_true in H; by rewrite H.
  specialize (IH H). destruct s; [|done]. destruct suf; done.
Qed.

Lemma broken_suffix suf n : suf <> "" -> last_char suf <> Some "n"%char ->
  has_suffix suf (n ++ ".broken") = false.
Proof.
  intros Hn Hl. apply not_true_iff_false. intros H. apply suffix_last in H; [|done].
  rewrite last_char_app in H. done.
Qed.

Lemma parse_walName seq index : is_u64 seq -> is_u64 index ->
  parseWALName (walName seq index) = inr (seq, index).
Proof.
  intros Hs Hi. unfold parseWALName. rewrite walName_suffix. simpl negb. cbv iota.
  unfold walName. rewrite scan_put_hex by done. rewrite scan_put_hex by done. done.
Qed.

(** *** Names sort by sequence number *)

Lemma hex_char_lt a b : 0 <= a -> a < b < 16 ->
  (Ascii.N_of_ascii (hex_char a) < Ascii.N_of_ascii (hex_char b))%N.
Proof.
  intros Ha Hb. unfold hex_char.
  rewrite !Ascii.N_ascii_embedding by (destruct (a <? 10), (b <? 10); lia).
  destruct (Z.ltb_spec a 10), (Z.ltb_spec b 10); lia.
Qed.

Lemma put_hex_lt n v w r1 r2 : v mod 16 ^ Z.of_nat n < w mod 16 ^ Z.of_nat n ->
  str_lt (put_hex n v r1) (put_hex n w r2).
Proof.
  unfold str_lt. induction n as [|n IH]; intros H.
  - simpl in H. rewrite !Z.mod_1_r in H. lia.
  - cbn [put_hex str_ltb]. rewrite !digit_shift. rewrite !put_hex_step in H.
    assert (0 < 16 ^ Z.of_nat n) as Hp by (apply Z.pow_pos_nonneg; lia).
    pose proof (Z.mod_pos_bound v _ Hp). pose proof (Z.mod_pos_bound w _ Hp).
    set (a := (v / 16 ^ Z.of_nat n) mod 16) in *. set (b := (w / 16 ^ Z.of_nat n) mod 16) in *.
    assert (0 <= a < 16 /\ 0 <= b < 16) as [Ha Hb] by (split; apply Z.mod_pos_bound; lia).
    destruct (Z.lt_trichotomy a b) as [?|[E|?]].
    + rewrite (proj2 (N.ltb_lt _ _)); [done|]. apply hex_char_lt; lia.
    + rewrite E, N.ltb_irrefl, N.eqb_refl. simpl. apply IH. nia.
    + nia.
Qed.

Lemma walName_lt s1 i1 s2 i2 : 0 <= s1 -> s1 < s2 < two64 ->
  str_lt (walName s1 i1) (walName s2 i2).
Proof.
  intros H1 H2. apply put_hex_lt. change (16 ^ Z.of_nat 16) with two64.
  rewrite !Z.mod_small by lia. lia.
Qed.

(** *** The searches *)

Definition names_of (l : list (Z * Z)) : list string := map (fun p => walName (fst p) (snd p)) l.

Definition u64_pairs (l : list (Z * Z)) : Prop :=
  Forall (fun p => is_u64 (fst p) /\ is_u64 (snd p)) l.

Lemma names_parse l i s x : u64_pairs l -> l !! i = Some (s, x) ->
  names_of l !! i = Some (walName s x) /\ parseWALName (walName s x) = inr (s, x).
Proof.
  intros Hl E. unfold names_of. rewrite list_lookup_fmap, E. split; [done|].
  eapply Forall_lookup_1 in Hl; [|exact E]. destruct Hl as [Hs Hx]. by apply parse_walName.
Qed.

(** [searchIndex] finds the last name whose index is not above the given one. *)
Lemma search_down_spec l index n : u64_pairs l -> (n <= length l)%nat ->
  match search_down (names_of l) index n with
  | Ret (Some k) =>
      (k < n)%nat /\ (exists s x, l !! k = Some (s, x) /\ x <= index) /\
      forall j s x, (k < j < n)%nat -> l !! j = Some (s, x) -> index < x
  | Ret None => forall j s x, (j < n)%nat -> l !! j = Some (s, x) -> index < x
  | _ => False
  end.
Proof.
  intros Hl. induction n as [|n IH]; intros Hn; [simpl; intros; lia|]. cbn [search_down].
  destruct (l !! n) as [[s x]|] eqn:E; [|apply lookup_ge_None in E; lia].
  destruct (names_parse l n s x Hl E) as [-> ->].
  destruct (Z.leb_spec x index) as [Hle|Hgt].
  - split; [lia|]. split; [eauto|]. intros; lia.
  - specialize (IH ltac:(lia)).
    destruct (search_down (names_of l) index n) as [[k|]| |]; [| |done|done].
    + destruct IH as (Hk & Hx & Hlater). split; [lia|]. split; [done|].
      intros j s' x' Hj E'. destruct (decide (j = n)) as [->|]; [congruence|].
      eapply Hlater; [|exact E']. lia.
    + intros j s' x' Hj E'. destruct (decide (j = n)) as [->|]; [congruence|].
      eapply IH; [|exact E']. lia.
Qed.

Lemma search_exists l index : u64_pairs l ->
  (exists j s x, l !! j = Some (s, x) /\ x <= index) ->
  exists k s x, searchIndex (names_of l) index = Ret (Some k) /\ l !! k = Some (s, x) /\
    x <= index /\ forall j s' x', (k < j)%nat -> l !! j = Some (s', x') -> index < x'.
Proof.
  intros Hl (j & s & x & E & Hx). unfold searchIndex.
  assert (length (names_of l) = length l) as -> by apply length_map.
  pose proof (search_down_spec l index (length l) Hl ltac:(lia)) as H.
  apply lookup_lt_Some in E as Hj.
  destruct (search_down (names_of l) index (length l)) as [[k|]| |]; [| |done|done].
  - destruct H as (Hk & (s' & x' & E' & Hx') & Hlater). exists k, s', x'.
    split; [done|]. split; [done|]. split; [done|].
    intros j' s'' x'' Hj' E''. eapply Hlater; [|exact E''].
    apply lookup_lt_Some in E''. lia.
  - specialize (H j s x Hj E). lia.
Qed.

(** Sequence numbers that go up by one pass. *)
Fixpoint consecutive (from : Z) (l : list (Z * Z)) : Prop :=
  match l with
  | [] => True
  | (s, _) :: l' => s = from /\ consecutive (from + 1) l'
  end.

Lemma valid_consecutive l from last : u64_pairs l -> consecutive from l ->
  (last = 0 \/ 1 <= from /\ last = from - 1) -> valid_from last (names_of l) = Ret true.
Proof.
  revert from last. induction l as [|[s x] l IH]; intros from last Hl Hc Hlast; [done|].
  apply Forall_cons in Hl as [[Hs Hx] Hl]. simpl in Hs, Hx, Hc. destruct Hc as [-> Hc].
  cbn [names_of map valid_from fst snd]. rewrite parse_walName by done.
  assert (negb (last =? 0) && negb (last =? u64 (from - 1)) = false) as ->.
  { destruct Hlast as [->|[? ->]]; [done|].
    destruct (Z.eqb_spec (from - 1) 0); [done|]. rewrite u64_small by word.
    rewrite Z.eqb_refl. done. }
  apply IH with (from := from + 1); [done..|]. right. word.
Qed.

Lemma checkWALNames_all l : u64_pairs l -> checkWALNames (names_of l) = names_of l.
Proof.
  induction 1 as [|[s x] l [Hs Hx] _ IH]; [done|]. simpl in Hs, Hx.
  unfold checkWALNames, names_of in *. cbn [map List.filter fst snd]. unfold is_wal_name at 1.
  rewrite parse_walName by done. by rewrite IH.
Qed.

Lemma consecutive_drop k l from : consecutive from l -> consecutive (from + Z.of_nat k) (drop k l).
Proof.
  revert from l. induction k as [|k IH]; intros from l H; [rewrite Z.add_0_r; done|].
  destruct l as [|[s x] l]; [done|]. destruct H as [_ H]. cbn [drop].
  replace (from + Z.of_nat (S k)) with (from + 1 + Z.of_nat k) by lia. by apply IH.
Qed.

Lemma consecutive_lookup l from k s x : consecutive from l -> l !! k = Some (s, x) ->
  s = from + Z.of_nat k.
Proof.
  revert from k. induction l as [|[s' x'] l IH]; intros from k H E; [done|].
  destruct H as [-> H]. destruct k as [|k]; simpl in E; [injection E as <- <-; lia|].
  apply (IH _ _ H) in E. lia.
Qed.

Lemma consecutive_snoc l from x : consecutive from l ->
  consecutive from (l ++ [(from + Z.of_nat (length l), x)]).
Proof.
  revert from. induction l as [|[s' x'] l IH]; intros from H.
  - simpl. split; [lia|done].
  - destruct H as [-> H]. simpl. split; [done|].
    specialize (IH (from + 1) H).
    replace (from + 1 + Z.of_nat (length l)) with (from + Z.of_nat (S (length l))) in IH by lia.
    exact IH.
Qed.
