(* ===== verification/Urls.v ===== *)
(** * URLs and member identifiers

    The [types] package of etcd's client ([urls.go], [id.go]) over [net/url],
    and [urlpick.go] of its [rafthttp]: checked and sorted lists of URLs,
    identifiers as hexadecimal strings, and the picker that moves on to the
    next URL when one does not answer. *)

From S2P Require Import Prelude Errors WalNames.
From Stdlib Require Import Ascii.

(** ** net/url *)

Class UrlLib := {
  URL : Type;
  url_Parse : string -> result URL;
  u_Scheme : URL -> string;
  u_Host : URL -> string;
  u_Path : URL -> string;
  (** The copy with another [Path]. *)
  u_WithPath : URL -> string -> URL;
  u_String : URL -> string;
  (** The comparison of two structures. *)
  url_same : URL -> URL -> bool;
  (** Whether [net.SplitHostPort] splits it. *)
  SplitHostPort : string -> bool;
  TrimSpace : string -> string
}.

(** A path that needs no escaping. *)
Definition plain_char (c : Ascii.ascii) : bool :=
  let n := Z.of_N (Ascii.N_of_ascii c) in
  ((97 <=? n) && (n <=? 122)) || ((48 <=? n) && (n <=? 57)) || (n =? 47).

Definition plain_path (p : string) : bool :=
  has_prefix "/" p && forallb plain_char (String.list_ascii_of_string p).

Class UrlLaws `{U : UrlLib} : Prop := {
  (** A parsed URL whose path is replaced by a plain one is parsed back. *)
  with_path : forall s u p, url_Parse s = inr u -> plain_path p = true ->
    exists u', url_Parse (u_String (u_WithPath u p)) = inr u' /\ u_Path u' = p
}.

(** URLs of the form [http://host:port/path]. *)
Module MemUrl.

Record mem_url := Url {
  mu_base : string;
  mu_path : string
}.

Definition scheme_end : string := "http://".

(** The string up to the first slash, and the rest. *)
Fixpoint cut_slash (s : string) : string * string :=
  match s with
  | EmptyString => (EmptyString, EmptyString)
  | String c s' =>
      if (Ascii.N_of_ascii c =? 47)%N then (EmptyString, s)
      else let '(a, b) := cut_slash s' in (String c a, b)
  end.

Fixpoint trim_prefix (p s : string) : string :=
  match p, s with
  | String _ p', String _ s' => trim_prefix p' s'
  | _, _ => s
  end.

Definition parse_url (s : string) : result mem_url :=
  if has_prefix scheme_end s then
    let '(h, p) := cut_slash (trim_prefix scheme_end s) in
    inr (Url h p)
  else inl (OtherError "parse").

#[export] Instance url : UrlLib := {
  URL := mem_url;
  url_Parse := parse_url;
  u_Scheme _ := "http";
  u_Host := mu_base;
  u_Path := mu_path;
  u_WithPath u p := Url (mu_base u) p;
  u_String u := (scheme_end ++ mu_base u ++ mu_path u)%string;
  url_same u v := String.eqb (mu_base u) (mu_base v) && String.eqb (mu_path u) (mu_path v);
  SplitHostPort s := existsb (fun c => (Ascii.N_of_ascii c =? 58)%N) (String.list_ascii_of_string s);
  TrimSpace s := s
}.

Lemma cut_slash_path q : has_prefix "/" q = true -> cut_slash q = ("", q).
Proof. destruct q as [|c q]; [done|]. by intros [<- _]%has_prefix_cons. Qed.

Lemma cut_slash_base s h p : cut_slash s = (h, p) -> forall q, has_prefix "/" q = true ->
  cut_slash (h ++ q)%string = (h, q).
Proof.
  revert h p. induction s as [|c s IH]; intros h p E q Hq; cbn [cut_slash] in E.
  - injection E as <- <-. by apply cut_slash_path.
  - destruct (Ascii.N_of_ascii c =? 47)%N eqn:Ec.
    + injection E as <- <-. by apply cut_slash_path.
    + destruct (cut_slash s) as [a b] eqn:Es. injection E as <- <-.
      change (cut_slash (String c (a ++ q)%string) = (String c a, q)).
      cbn [cut_slash]. by rewrite Ec, (IH a b eq_refl q Hq).
Qed.

Lemma has_prefix_app a b : has_prefix a (a ++ b) = true.
Proof.
  induction a as [|c a IH]; [apply has_prefix_empty|]. by apply has_prefix_cons.
Qed.

#[export] Instance url_laws : UrlLaws.
Proof.
  constructor. intros s u p E Hp. apply andb_true_iff in Hp as [Hp _].
  cbn [url_Parse url u_WithPath u_String u_Path] in *. unfold parse_url in *.
  destruct (has_prefix scheme_end s); [|done].
  destruct (cut_slash (trim_prefix scheme_end s)) as [h q] eqn:Es. injection E as <-.
  cbn [mu_base mu_path].
  assert (has_prefix scheme_end (scheme_end ++ h ++ p) = true) as -> by apply has_prefix_app.
  assert (trim_prefix scheme_end (scheme_end ++ h ++ p) = (h ++ p)%string) as -> by reflexivity.
  rewrite (cut_slash_base _ _ _ Es p Hp). eauto.
Qed.

End MemUrl.

(** ** urls.go *)

Module urls.
Section Urls.
Context `{UrlLib}.

Definition check_url (s : string) : result URL :=
  let s := TrimSpace s in
  u ← url_Parse s;
  if decide (u_Scheme u ∈ ["http"; "https"]) then
    if negb (SplitHostPort (u_Host u))
    then inl (OtherError "URL address does not have the form host:port")
    else if negb (bool_decide (u_Path u = "")) then inl (OtherError "URL must not contain a path")
    else inr u
  else if decide (u_Scheme u ∈ ["unix"; "unixs"]) then inr u
  else inl (OtherError "URL scheme must be http, https, unix, or unixs").

Fixpoint check_urls (strs : list string) : result (list URL) :=
  match strs with
  | [] => inr []
  | s :: strs => u ← check_url s; us ← check_urls strs; inr (u :: us)
  end.

(** [us.Sort()], by the strings. *)
Fixpoint insert_url (u : URL) (us : list URL) : list URL :=
  match us with
  | [] => [u]
  | v :: us' => if str_ltb (u_String v) (u_String u) then v :: insert_url u us' else u :: us
  end.

Definition Sort (us : list URL) : list URL := foldr insert_url [] us.

Definition NewURLs (strs : list string) : result (list URL) :=
  match strs with
  | [] => inl (OtherError "no valid URLs given")
  | _ => us ← check_urls strs; inr (Sort us)
  end.

Definition MustNewURLs (strs : list string) : outcome (list URL) :=
  match NewURLs strs with
  | inl err => Panic "invalid URLs"
  | inr us => Ret us
  end.

Definition StringSlice (us : list URL) : list string := map u_String us.

Definition URLs_String (us : list URL) : string := String.concat "," (StringSlice us).

End Urls.
End urls.

(** ** id.go *)

Module ID.

(** [strconv.FormatUint(v, 16)]: a number of 64 bits has at most sixteen
    digits. *)
Fixpoint format_hex (fuel : nat) (v : Z) (rest : string) : string :=
  match fuel with
  | O => rest
  | S fuel =>
      if v <? 16 then String (hex_char v) rest
      else format_hex fuel (v / 16) (String (hex_char (v mod 16)) rest)
  end.

Definition ID_String (i : Z) : string := format_hex 16 i "".

Definition ErrSyntax : error := OtherError "invalid syntax".
Definition ErrRange : error := OtherError "value out of range".

(** [strconv.ParseUint(s, 16, 64)]. *)
Fixpoint parse_hex (n : Z) (s : string) : result Z :=
  match s with
  | EmptyString => inr n
  | String c s =>
      match hex_value c with
      | None => inl ErrSyntax
      | Some d => if 2 ^ 60 <=? n then inl ErrRange else parse_hex (n * 16 + d) s
      end
  end.

Definition IDFromString (s : string) : result Z :=
  match s with
  | EmptyString => inl ErrSyntax
  | _ => parse_hex 0 s
  end.

(** [Less] of the positions that [sort.Sort] compares. *)
Definition IDSlice_Less (p : list Z) (i j : nat) : outcome bool :=
  match p !! i, p !! j with
  | Some a, Some b => Ret (a <? b)
  | _, _ => Panic "index out of range"
  end.

Definition IDSlice_String (p : list Z) : string :=
  match p with
  | [] => ""
  | i :: p => fold_left (fun b j => (b ++ "," ++ ID_String j)%string) p (ID_String i)
  end.

Lemma parse_format n v rest : (0 < n)%nat -> 0 <= v < 16 ^ Z.of_nat n -> is_u64 v ->
  parse_hex 0 (format_hex n v rest) = parse_hex v rest.
Proof.
  revert v rest. induction n as [|n IH]; intros v rest Hn Hv Hu; [lia|]. cbn [format_hex].
  destruct (Z.ltb_spec v 16) as [Hs|Hs].
  { cbn [parse_hex]. by rewrite hex_value_char by lia. }
  destruct n as [|n]; [change (16 ^ Z.of_nat 1) with 16 in Hv; lia|].
  rewrite Nat2Z.inj_succ, Z.pow_succ_r in Hv by lia.
  rewrite IH; [|lia|div_lia|unfold is_u64, two64 in *; div_lia].
  cbn [parse_hex]. rewrite hex_value_char by (apply Z.mod_pos_bound; lia).
  destruct (Z.leb_spec (2 ^ 60) (v / 16)).
  { exfalso. unfold is_u64, two64 in Hu. change (2 ^ 64) with (16 * 2 ^ 60) in Hu. div_lia. }
  f_equal. pose proof (Z.div_mod v 16). lia.
Qed.

Lemma format_hex_cons n v rest : (0 < n)%nat -> exists c s, format_hex n v rest = String c s.
Proof.
  revert v rest. induction n as [|n IH]; intros v rest Hn; [lia|]. cbn [format_hex].
  destruct (v <? 16); [eauto|]. destruct n as [|n]; [simpl; eauto|]. apply IH. lia.
Qed.

Lemma IDFromString_String i : is_u64 i -> IDFromString (ID_String i) = inr i.
Proof.
  intros Hi. unfold ID_String. destruct (format_hex_cons 16 i "" ltac:(lia)) as (c & s & E).
  pose proof (parse_format 16 i "" ltac:(lia)) as Hp. rewrite E in *. unfold IDFromString.
  rewrite Hp; [done| |done]. unfold is_u64, two64 in Hi. exact Hi.
Qed.

Lemma ID_String_inj i j : is_u64 i -> is_u64 j -> ID_String i = ID_String j -> i = j.
Proof.
  intros Hi Hj E. pose proof (IDFromString_String i Hi) as Ei.
  rewrite E, (IDFromString_String j Hj) in Ei. congruence.
Qed.

End ID.

(** ** urlpick.go *)

Section UrlPick.
Context `{UrlLib}.

Record urlPicker := MkPicker {
  p_urls : list URL;
  picked : nat
}.

Definition newURLPicker (us : list URL) : urlPicker := MkPicker us 0.

Definition update (p : urlPicker) (us : list URL) : urlPicker := MkPicker us 0.

Definition pick (p : urlPicker) : outcome URL :=
  match p_urls p !! picked p with
  | Some u => Ret u
  | None => Panic "index out of range"
  end.

Definition unreachable (p : urlPicker) (u : URL) : outcome urlPicker :=
  v ← pick p;
  Ret (if url_same u v
       then MkPicker (p_urls p) ((picked p + 1) mod length (p_urls p))%nat
       else p).

(** A picker with URLs never panics, and keeps its URLs. *)
Definition picker_ok (p : urlPicker) : Prop := (picked p < length (p_urls p))%nat.

Lemma pick_ok p : picker_ok p -> exists u, pick p = Ret u /\ u ∈ p_urls p.
Proof.
  intros Hp. unfold pick. destruct (lookup_lt_is_Some_2 _ _ Hp) as [u E]. rewrite E.
  exists u. split; [done|]. by eapply list_elem_of_lookup_2.
Qed.

Lemma unreachable_ok p u : picker_ok p ->
  exists p', unreachable p u = Ret p' /\ picker_ok p' /\ p_urls p' = p_urls p.
Proof.
  intros Hp. unfold unreachable. destruct (pick_ok p Hp) as (v & -> & _). rewrite ret_bind.
  eexists. split; [reflexivity|]. destruct (url_same u v); [|done]. split; [|done].
  unfold picker_ok in *. simpl. apply Nat.mod_upper_bound. lia.
Qed.

End UrlPick.
