(* ===== verification/MsgCodec.v ===== *)
(** * The codecs of the raft streams

    [msgappv2_codec.go], [msg_codec.go] and [coder.go] of etcd's [rafthttp],
    with [pkg/pbutil].  A stream carries messages over a connection: the
    encoder writes them into it, the decoder reads them out.  The encoder of
    append messages keeps the term and the index of the last entry it sent and
    leaves them out of the next message when they follow; the decoder keeps
    the same numbers.  The theorems show that what was written is read back,
    and that a connection that breaks at any byte yields the messages that
    went through whole, then an error, and never another message. *)

From S2P Require Import Prelude Errors Utils RaftApi WalRecord MemCodecs MemRaftCodec.

(** ** Marshalling of messages *)

Class MessageCodec := {
  Message_Marshal : raftpb.Message -> bytes;
  Message_Unmarshal : bytes -> result raftpb.Message
}.

Class MessageCodecLaws `{C : MessageCodec} : Prop := {
  message_codec : forall m, Message_Unmarshal (Message_Marshal m) = inr m
}.

(** The instance by generic encodings. *)
#[global] Instance MessageType_countable : Countable raftpb.MessageType.
Proof.
  refine (inj_countable'
    (fun t => match t with
              | raftpb.MsgProp => inl 0%N
              | raftpb.MsgApp => inl 1%N
              | raftpb.MsgSnap => inl 2%N
              | raftpb.MsgHeartbeat => inl 3%N
              | raftpb.OtherMsg k => inr k
              end)
    (fun s => match s with
              | inl 0%N => raftpb.MsgProp
              | inl 1%N => raftpb.MsgApp
              | inl 2%N => raftpb.MsgSnap
              | inl _ => raftpb.MsgHeartbeat
              | inr k => raftpb.OtherMsg k
              end) _).
  by intros [].
Defined.

#[global] Instance Message_countable : Countable raftpb.Message.
Proof.
  refine (inj_countable'
    (fun m => (raftpb.m_Type m, (raftpb.m_To m, raftpb.m_From m, raftpb.m_Term m),
               (raftpb.m_LogTerm m, raftpb.m_Index m, raftpb.m_Entries m),
               (raftpb.m_Commit m, raftpb.m_Vote m, raftpb.m_Snapshot m),
               (raftpb.m_Reject m, raftpb.m_RejectHint m, raftpb.m_Context m)))
    (fun '(ty, (a, b, c), (d, e, f), (g, h, i), (j, k, l)) =>
       raftpb.MkMessage ty a b c d e f g h i j k l) _).
  by intros [].
Defined.

#[global] Instance MemMessageCodec : MessageCodec := {
  Message_Marshal := marshal;
  Message_Unmarshal := unmarshal
}.

#[global] Instance MemMessageCodecLaws : MessageCodecLaws.
Proof. constructor; intros; apply unmarshal_marshal. Qed.

Module codec.

(** ** Readers and writers *)

(** What is still to come from a reader, and the error after it. *)
Record reader := Reader {
  r_bytes : bytes;
  r_end : error
}.

(** What was written to a writer, how much of it was flushed, and how many
    bytes it will take before it fails, if it will. *)
Record writer := Writer {
  w_out : bytes;
  w_flushed : nat;
  w_left : option nat
}.

Definition errWrite : error := OtherError "write: broken pipe".

(** A computation that can fail with an error and keeps its state then. *)
Definition io (S A : Type) : Type := S -> outcome (S * result A).

Definition io_ret {S A} (a : A) : io S A := fun s => Ret (s, inr a).
Definition io_err {S A} (e : error) : io S A := fun s => Ret (s, inl e).
Definition io_panic {S A} (msg : string) : io S A := fun _ => Panic msg.

#[global] Instance io_bind {S} : MBind (io S) := fun A B k m s =>
  '(s, r) ← m s;
  match r with
  | inr a => k a s
  | inl e => Ret (s, inl e)
  end.

Definition Flush (w : writer) : writer := Writer (w_out w) (length (w_out w)) (w_left w).

(** [w.Write(p)]. *)
Definition w_Write (p : bytes) (w : writer) : writer * result unit :=
  match w_left w with
  | None => (Writer (w_out w ++ p) (w_flushed w) None, inr tt)
  | Some n =>
      if (length p <=? n)%nat
      then (Writer (w_out w ++ p) (w_flushed w) (Some (n - length p)%nat), inr tt)
      else (Writer (w_out w ++ take n p) (w_flushed w) (Some O), inl errWrite)
  end.

(** [io.ReadFull] of [n] bytes: none of them is [EOF], some is
    [ErrUnexpectedEOF]; any other error of the reader is returned as it is. *)
Definition ReadFull (n : Z) (r : reader) : reader * result bytes :=
  if n <=? Z.of_nat (length (r_bytes r))
  then (Reader (drop (Z.to_nat n) (r_bytes r)) (r_end r), inr (take (Z.to_nat n) (r_bytes r)))
  else (Reader [] (r_end r),
        inl (match r_bytes r with
             | [] => r_end r
             | _ => if decide (r_end r = EOF) then ErrUnexpectedEOF else r_end r
             end)).

(** [make] of [int(n)] elements. *)
Definition make_len {S} (n : Z) : io S unit :=
  if i64 n <? 0 then io_panic "makeslice: len out of range" else io_ret tt.

(** ** pbutil.go *)

(** The marshallers of the generated code do not fail. *)
Definition MustUnmarshal {S A} (unm : bytes -> result A) (b : bytes) : io S A :=
  match unm b with
  | inr a => io_ret a
  | inl _ => io_panic "unmarshal should never fail"
  end.

(** ** msgappv2_codec.go *)

Definition msgTypeLinkHeartbeat : Z := 0.
Definition msgTypeAppEntries : Z := 1.
Definition msgTypeApp : Z := 2.
Definition msgAppV2BufSize : Z := 1024 * 1024.

(** From [stream.go]: the message that keeps a link alive. *)
Definition linkHeartbeatMessage : raftpb.Message :=
  raftpb.MkMessage raftpb.MsgHeartbeat 0 0 0 0 0 [] 0 0 None false 0 [].

Definition isLinkHeartbeatMessage (m : raftpb.Message) : bool :=
  bool_decide (raftpb.m_Type m = raftpb.MsgHeartbeat) &&
  (raftpb.m_From m =? 0) && (raftpb.m_To m =? 0).

Section MsgAppV2.
Context `{RaftCodec} `{MessageCodec}.

Record msgAppV2Encoder := MkV2Encoder {
  enc_w : writer;
  enc_term : Z;
  enc_index : Z
}.

Definition newMsgAppV2Encoder (w : writer) : msgAppV2Encoder := MkV2Encoder w 0 0.

Definition enc_Write (p : bytes) : io msgAppV2Encoder unit := fun enc =>
  let '(w, r) := w_Write p (enc_w enc) in
  Ret (MkV2Encoder w (enc_term enc) (enc_index enc), r).

Definition enc_uint8 (v : Z) : io msgAppV2Encoder unit := enc_Write [byte_of_Z v].

(** [binary.BigEndian.PutUint64] and the write. *)
Definition enc_uint64 (v : Z) : io msgAppV2Encoder unit := enc_Write (Uint64ToBytes v).

Definition enc_set (term index : Z) : io msgAppV2Encoder unit := fun enc =>
  Ret (MkV2Encoder (enc_w enc) term index, inr tt).

Definition enc_incr : io msgAppV2Encoder unit := fun enc =>
  Ret (MkV2Encoder (enc_w enc) (enc_term enc) (u64 (enc_index enc + 1)), inr tt).

(** [Size] is the length of what [Marshal] gives; an entry that fits the
    buffer is marshalled into it, the bytes are the same. *)
Fixpoint enc_entries (es : list raftpb.Entry) : io msgAppV2Encoder unit :=
  match es with
  | [] => io_ret tt
  | e :: es =>
      _ ← enc_uint64 (Z.of_nat (length (Entry_Marshal e)));
      _ ← enc_Write (Entry_Marshal e);
      _ ← enc_incr;
      enc_entries es
  end.

(** The index after a message: that of its last entry. *)
Definition last_index (m : raftpb.Message) : Z :=
  match last (raftpb.m_Entries m) with
  | Some e => raftpb.Index e
  | None => raftpb.m_Index m
  end.

Definition v2_encode (m : raftpb.Message) : io msgAppV2Encoder unit := fun enc =>
  (if isLinkHeartbeatMessage m then enc_uint8 msgTypeLinkHeartbeat
   else if (enc_index enc =? raftpb.m_Index m) && (enc_term enc =? raftpb.m_LogTerm m)
           && (raftpb.m_LogTerm m =? raftpb.m_Term m)
   then
     _ ← enc_uint8 msgTypeAppEntries;
     _ ← enc_uint64 (Z.of_nat (length (raftpb.m_Entries m)));
     _ ← enc_entries (raftpb.m_Entries m);
     enc_uint64 (raftpb.m_Commit m)
   else
     _ ← enc_uint8 msgTypeApp;
     _ ← enc_uint64 (Z.of_nat (length (Message_Marshal m)));
     _ ← enc_Write (Message_Marshal m);
     enc_set (raftpb.m_Term m) (last_index m)) enc.

Record msgAppV2Decoder := MkV2Decoder {
  dec_r : reader;
  local : Z;
  remote : Z;
  dec_term : Z;
  dec_index : Z
}.

Definition newMsgAppV2Decoder (r : reader) (local remote : Z) : msgAppV2Decoder :=
  MkV2Decoder r local remote 0 0.

Definition dec_full (n : Z) : io msgAppV2Decoder bytes := fun dec =>
  let '(r, b) := ReadFull n (dec_r dec) in
  Ret (MkV2Decoder r (local dec) (remote dec) (dec_term dec) (dec_index dec), b).

Definition dec_uint64 : io msgAppV2Decoder Z := b ← dec_full 8; io_ret (be_value b).

Definition dec_set (term index : Z) : io msgAppV2Decoder unit := fun dec =>
  Ret (MkV2Decoder (dec_r dec) (local dec) (remote dec) term index, inr tt).

Definition dec_incr : io msgAppV2Decoder unit := fun dec =>
  Ret (MkV2Decoder (dec_r dec) (local dec) (remote dec) (dec_term dec)
         (u64 (dec_index dec + 1)), inr tt).

(** A size below that of the buffer needs no allocation. *)
Definition dec_entry : io msgAppV2Decoder raftpb.Entry :=
  size ← dec_uint64;
  _ ← (if size <? msgAppV2BufSize then io_ret tt else make_len size);
  buf ← dec_full size;
  _ ← dec_incr;
  MustUnmarshal Entry_Unmarshal buf.

(** [l] entries.  A round takes at least eight bytes, so the bytes that are
    left bound the number of rounds. *)
Fixpoint dec_entries (fuel : nat) (l : Z) : io msgAppV2Decoder (list raftpb.Entry) :=
  match fuel with
  | O => fun _ => Hang
  | S fuel =>
      if l <=? 0 then io_ret []
      else e ← dec_entry; es ← dec_entries fuel (l - 1); io_ret (e :: es)
  end.

Definition dec_appEntries (m : raftpb.Message) : io msgAppV2Decoder raftpb.Message :=
  l ← dec_uint64;
  _ ← make_len l;
  es ← (fun dec => dec_entries (Datatypes.S (length (r_bytes (dec_r dec)))) l dec);
  commit ← dec_uint64;
  io_ret (raftpb.MkMessage (raftpb.m_Type m) (raftpb.m_To m) (raftpb.m_From m)
            (raftpb.m_Term m) (raftpb.m_LogTerm m) (raftpb.m_Index m) es commit 0 None false 0 []).

Definition dec_app : io msgAppV2Decoder raftpb.Message :=
  size ← dec_uint64;
  _ ← make_len size;
  buf ← dec_full size;
  m ← MustUnmarshal Message_Unmarshal buf;
  _ ← dec_set (raftpb.m_Term m) (last_index m);
  io_ret m.

Definition v2_decode : io msgAppV2Decoder raftpb.Message :=
  b ← dec_full 1;
  let typ := be_value b in
  if typ =? msgTypeLinkHeartbeat then io_ret linkHeartbeatMessage
  else if typ =? msgTypeAppEntries then fun dec =>
    dec_appEntries (raftpb.MkMessage raftpb.MsgApp (local dec) (remote dec) (dec_term dec)
                      (dec_term dec) (dec_index dec) [] 0 0 None false 0 []) dec
  else if typ =? msgTypeApp then dec_app
  else io_err (OtherError "failed to parse type in msgappv2 stream").

(** ** msg_codec.go *)

Definition readBytesLimit : Z := 512 * 1024 * 1024.
Definition ErrExceedSizeLimit : error := OtherError "rafthttp: error limit exceeded".

Definition m_encode (m : raftpb.Message) : io writer unit :=
  let write p := fun w => Ret (w_Write p w) in
  _ ← write (Uint64ToBytes (Z.of_nat (length (Message_Marshal m))));
  write (Message_Marshal m).

Definition decodeLimit (numBytes : Z) : io reader raftpb.Message :=
  let full n := fun r => Ret (ReadFull n r) in
  b ← full 8;
  let l := be_value b in
  if numBytes <? l then io_err ErrExceedSizeLimit
  else
    _ ← make_len l;
    buf ← full l;
    match Message_Unmarshal buf with
    | inr m => io_ret m
    | inl e => io_err e
    end.

Definition m_decode : io reader raftpb.Message := decodeLimit readBytesLimit.

(** ** coder.go *)

(** The two implementations of each interface. *)
Inductive encoder : Type :=
  | V2Encoder (e : msgAppV2Encoder)
  | MessageEncoder (w : writer).

Inductive decoder : Type :=
  | V2Decoder (d : msgAppV2Decoder)
  | MessageDecoder (r : reader).

Definition on_state {S T A} (f : S -> T) (p : outcome (S * A)) : outcome (T * A) :=
  '(s, a) ← p; Ret (f s, a).

Definition encode (m : raftpb.Message) : io encoder unit := fun enc =>
  match enc with
  | V2Encoder e => on_state V2Encoder (v2_encode m e)
  | MessageEncoder w => on_state MessageEncoder (m_encode m w)
  end.

Definition decode : io decoder raftpb.Message := fun dec =>
  match dec with
  | V2Decoder d => on_state V2Decoder (v2_decode d)
  | MessageDecoder r => on_state MessageDecoder (m_decode r)
  end.

End MsgAppV2.

(** ** What a codec writes and reads *)

(** [c] writes [p], as far as the writer takes it, and leads from the states
    [mk] to the states [mk'] when it took all of it; [out] is the writer of a
    state. *)
Definition emits {S} (out : S -> writer) (mk : writer -> S) (c : io S unit) (p : bytes)
    (mk' : writer -> S) : Prop :=
  forall w, exists s, c (mk w) = Ret (s, snd (w_Write p w)) /\ out s = fst (w_Write p w) /\
    (snd (w_Write p w) = inr tt -> s = mk' (fst (w_Write p w))).

(** The error of a reader that ends with [e] within what was asked of it. *)
Definition ended (e err : error) : Prop := err = e \/ (e = EOF /\ err = ErrUnexpectedEOF).

(** [c] reads [p] as [a], and answers the end of the reader when the bytes end
    before [p] does. *)
Definition consumes {S A} (mk : reader -> S) (c : io S A) (p : bytes) (mk' : reader -> S) (a : A)
    : Prop :=
  (forall rest e, c (mk (Reader (p ++ rest) e)) = Ret (mk' (Reader rest e), inr a)) /\
  (forall k e, (k < length p)%nat ->
     exists s err, c (mk (Reader (take k p) e)) = Ret (s, inl err) /\ ended e err).

Lemma w_Write_app p q w : w_Write (p ++ q) w =
  match w_Write p w with
  | (w', inr _) => w_Write q w'
  | (w', inl e) => (w', inl e)
  end.
Proof.
  unfold w_Write. destruct w as [o f [n|]]; simpl; [|by rewrite app_assoc].
  rewrite length_app. destruct (Nat.leb_spec (length p) n) as [Hp|Hp]; simpl.
  - destruct (Nat.leb_spec (length p + length q) n), (Nat.leb_spec (length q) (n - length p));
      try lia; rewrite <- app_assoc; [do 3 f_equal; lia|].
    by rewrite take_app_ge by lia.
  - destruct (Nat.leb_spec (length p + length q) n); [lia|]. by rewrite take_app_le by lia.
Qed.

Lemma emits_ret {S} out (mk : writer -> S) :
  (forall w, out (mk w) = w) -> emits out mk (io_ret tt) [] mk.
Proof.
  intros Ho w. exists (mk w). assert (w_Write [] w = (w, inr tt)) as ->.
  { unfold w_Write. destruct w as [o f [n|]]; simpl; rewrite app_nil_r; [|done].
    do 3 f_equal. lia. }
  done.
Qed.

Lemma emits_bind {S} out (mk mk1 mk2 : writer -> S) c d p q :
  emits out mk c p mk1 -> emits out mk1 d q mk2 ->
  emits out mk (c ≫= fun _ => d) (p ++ q) mk2.
Proof.
  intros Hc Hd w. destruct (Hc w) as (s & Ec & Ho & Hs). rewrite w_Write_app.
  unfold mbind, io_bind. rewrite Ec, ret_bind.
  destruct (w_Write p w) as [w1 [e|[]]] eqn:E1; cbn [fst snd] in *; [by exists s|].
  rewrite (Hs eq_refl). apply Hd.
Qed.

Lemma consumes_ret {S A} (mk : reader -> S) (a : A) : consumes mk (io_ret a) [] mk a.
Proof. split; [done|]. simpl. lia. Qed.

Lemma consumes_bind {S A B} (mk mk1 mk2 : reader -> S) (c : io S A) (f : A -> io S B) p q a b :
  consumes mk c p mk1 a -> consumes mk1 (f a) q mk2 b ->
  consumes mk (c ≫= f) (p ++ q) mk2 b.
Proof.
  intros [Hc Hk] [Hd Hl]. unfold mbind, io_bind. split.
  - intros rest e. rewrite <- app_assoc, Hc, ret_bind. apply Hd.
  - intros k e Hlen. rewrite length_app in Hlen. destruct (decide (k < length p)%nat) as [Hp|Hp].
    + rewrite take_app_le by lia. destruct (Hk k e Hp) as (s & err & -> & He).
      rewrite ret_bind. eauto.
    + rewrite take_app_ge, Hc, ret_bind by lia. apply Hl. lia.
Qed.

(** The rest reads nothing. *)
Lemma consumes_then {S A B} (mk mk1 mk2 : reader -> S) (c : io S A) (f : A -> io S B) p a b :
  consumes mk c p mk1 a -> consumes mk1 (f a) [] mk2 b -> consumes mk (c ≫= f) p mk2 b.
Proof. intros Hc Hf. rewrite <- (app_nil_r p). eapply consumes_bind; eauto. Qed.

Lemma consumes_ext {S A} (mk mk' : reader -> S) (c c' : io S A) p a :
  (forall r, c (mk r) = c' (mk r)) -> consumes mk c' p mk' a -> consumes mk c p mk' a.
Proof.
  intros E [Hc Hk]. split; intros; rewrite E; [apply Hc|by apply Hk].
Qed.

(** [io.ReadFull], behind any projection of the state. *)
Lemma ReadFull_app p rest e :
  ReadFull (Z.of_nat (length p)) (Reader (p ++ rest) e) = (Reader rest e, inr p).
Proof.
  unfold ReadFull. cbn [r_bytes r_end]. rewrite length_app.
  destruct (Z.leb_spec (Z.of_nat (length p)) (Z.of_nat (length p + length rest))); [|lia].
  by rewrite Nat2Z.id, drop_app_length, take_app_length.
Qed.

Lemma ReadFull_cut p k e : (k < length p)%nat -> exists err,
  ReadFull (Z.of_nat (length p)) (Reader (take k p) e) = (Reader [] e, inl err) /\ ended e err.
Proof.
  intros Hk. unfold ReadFull. cbn [r_bytes r_end]. rewrite length_take.
  destruct (Z.leb_spec (Z.of_nat (length p)) (Z.of_nat (k `min` length p))); [lia|].
  eexists. split; [reflexivity|]. unfold ended. destruct (take k p); [by left|].
  case_decide; [by right|by left].
Qed.

Section Laws.
Context `{RaftCodecLaws} `{MessageCodecLaws}.

(** *** Frames *)

Definition entry_frame (e : raftpb.Entry) : bytes :=
  Uint64ToBytes (Z.of_nat (length (Entry_Marshal e))) ++ Entry_Marshal e.

Definition message_frame (m : raftpb.Message) : bytes :=
  Uint64ToBytes (Z.of_nat (length (Message_Marshal m))) ++ Message_Marshal m.

Definition entries_frame (m : raftpb.Message) : bytes :=
  Uint64ToBytes (Z.of_nat (length (raftpb.m_Entries m)))
  ++ (raftpb.m_Entries m ≫= entry_frame) ++ Uint64ToBytes (raftpb.m_Commit m).

Definition follows_on (s : Z * Z) (m : raftpb.Message) : bool :=
  (snd s =? raftpb.m_Index m) && (fst s =? raftpb.m_LogTerm m)
  && (raftpb.m_LogTerm m =? raftpb.m_Term m).

(** The bytes of a message after the term and index [s], and the term and
    index after it. *)
Definition v2_frame (s : Z * Z) (m : raftpb.Message) : bytes :=
  if isLinkHeartbeatMessage m then [byte_of_Z msgTypeLinkHeartbeat]
  else if follows_on s m then byte_of_Z msgTypeAppEntries :: entries_frame m
  else byte_of_Z msgTypeApp :: message_frame m.

Definition incr_by (n : nat) (i : Z) : Z := Nat.iter n (fun i => u64 (i + 1)) i.

Definition v2_next (s : Z * Z) (m : raftpb.Message) : Z * Z :=
  if isLinkHeartbeatMessage m then s
  else if follows_on s m then (fst s, incr_by (length (raftpb.m_Entries m)) (snd s))
  else (raftpb.m_Term m, last_index m).

Definition v2_enc (s : Z * Z) (w : writer) : msgAppV2Encoder := MkV2Encoder w (fst s) (snd s).
Definition v2_dec (lo re : Z) (s : Z * Z) (r : reader) : msgAppV2Decoder :=
  MkV2Decoder r lo re (fst s) (snd s).

Lemma enc_Write_emits s p : emits enc_w (v2_enc s) (enc_Write p) p (v2_enc s).
Proof. intros w. unfold enc_Write. cbn. destruct (w_Write p w). eauto. Qed.

Lemma enc_set_emits s t i : emits enc_w (v2_enc s) (enc_set t i) [] (v2_enc (t, i)).
Proof.
  intros w. destruct (emits_ret enc_w (v2_enc (t, i)) ltac:(done) w) as (s' & [= <- <-] & Ho & Hs).
  eexists. split; [reflexivity|]. done.
Qed.

Lemma enc_incr_emits s :
  emits enc_w (v2_enc s) enc_incr [] (v2_enc (fst s, u64 (snd s + 1))).
Proof. apply (enc_set_emits s (fst s) (u64 (snd s + 1))). Qed.

Lemma enc_entries_emits es s : emits enc_w (v2_enc s) (enc_entries es) (es ≫= entry_frame)
  (v2_enc (fst s, incr_by (length es) (snd s))).
Proof.
  revert s. induction es as [|e es IH]; intros s; cbn [enc_entries].
  { destruct s. by apply emits_ret. }
  rewrite bind_cons. unfold entry_frame at 1. rewrite <- app_assoc.
  eapply emits_bind; [apply enc_Write_emits|].
  eapply emits_bind; [apply enc_Write_emits|].
  apply (emits_bind _ _ (v2_enc (fst s, u64 (snd s + 1))) _ enc_incr _ []);
    [apply enc_incr_emits|].
  replace (incr_by (length (e :: es)) (snd s)) with (incr_by (length es) (u64 (snd s + 1)))
    by (unfold incr_by; cbn [length]; by rewrite Nat.iter_succ_r). apply (IH (_, _)).
Qed.

Lemma v2_encode_emits s m :
  emits enc_w (v2_enc s) (v2_encode m) (v2_frame s m) (v2_enc (v2_next s m)).
Proof.
  intros w. unfold v2_encode, v2_frame, v2_next, follows_on. cbn [enc_index enc_term v2_enc].
  destruct (isLinkHeartbeatMessage m); [apply enc_Write_emits|].
  destruct (_ && _ && _).
  - refine (emits_bind _ _ _ _ _ _ [_] _ (enc_Write_emits _ _) _ w).
    eapply emits_bind; [apply enc_Write_emits|].
    eapply emits_bind; [apply enc_entries_emits|]. apply enc_Write_emits.
  - refine (emits_bind _ _ _ _ _ _ [_] _ (enc_Write_emits _ _) _ w).
    eapply emits_bind; [apply enc_Write_emits|].
    pose proof (emits_bind _ _ _ _ _ _ _ _ (enc_Write_emits s (Message_Marshal m))
      (enc_set_emits s (raftpb.m_Term m) (last_index m))) as He.
    by rewrite app_nil_r in He.
Qed.

Lemma m_encode_emits m :
  emits (fun w => w) (fun w => w) (m_encode m) (message_frame m) (fun w => w).
Proof.
  assert (forall p, emits (fun w => w) (fun w => w) (fun w => Ret (w_Write p w)) p (fun w => w))
    as Hw.
  { intros p w. exists (fst (w_Write p w)). by destruct (w_Write p w) as [w' r]. }
  eapply emits_bind; apply Hw.
Qed.

(** *** Reading a frame *)

Section Dec.
Context (lo re : Z).
Let mk := v2_dec lo re.

Lemma dec_full_consumes s p n : n = Z.of_nat (length p) ->
  consumes (mk s) (dec_full n) p (mk s) p.
Proof.
  intros ->. unfold dec_full. split.
  - intros rest e. cbn [dec_r mk v2_dec]. by rewrite ReadFull_app.
  - intros k e Hk. cbn [dec_r mk v2_dec].
    destruct (ReadFull_cut p k e Hk) as (err & -> & He). eauto.
Qed.

Lemma dec_uint64_consumes s v : is_u64 v ->
  consumes (mk s) dec_uint64 (Uint64ToBytes v) (mk s) v.
Proof.
  intros Hv. eapply consumes_then; [by apply dec_full_consumes; rewrite Uint64ToBytes_length|].
  rewrite be_value_Uint64ToBytes by done. apply consumes_ret.
Qed.

Lemma make_len_consumes {S} (f : reader -> S) n : 0 <= n < 2 ^ 63 ->
  consumes f (make_len n) [] f tt.
Proof.
  intros Hn. unfold make_len. rewrite i64_small by word.
  destruct (Z.ltb_spec n 0); [lia|]. apply consumes_ret.
Qed.

Lemma dec_set_consumes s t i : consumes (mk s) (dec_set t i) [] (mk (t, i)) tt.
Proof. split; [done|simpl; lia]. Qed.

Lemma dec_incr_consumes s :
  consumes (mk s) dec_incr [] (mk (fst s, u64 (snd s + 1))) tt.
Proof. split; [done|simpl; lia]. Qed.

Lemma MustUnmarshal_consumes {S A} (f : reader -> S) (unm : bytes -> result A) b a :
  unm b = inr a -> consumes f (MustUnmarshal unm b) [] f a.
Proof. intros E. unfold MustUnmarshal. rewrite E. apply consumes_ret. Qed.

(** Sizes that a Go slice can have. *)
Definition fits {A} (l : list A) : Prop := Z.of_nat (length l) < 2 ^ 63.

Lemma fits_check {A} (l : list A) : (Z.of_nat (length l) <? 2 ^ 63) = true -> fits l.
Proof. unfold fits. apply Z.ltb_lt. Qed.

Lemma fits_u64 {A} (l : list A) : fits l -> is_u64 (Z.of_nat (length l)).
Proof. unfold fits. word. Qed.

Lemma dec_entry_consumes s e : fits (Entry_Marshal e) ->
  consumes (mk s) dec_entry (entry_frame e) (mk (fst s, u64 (snd s + 1))) e.
Proof.
  intros Hf. unfold dec_entry, entry_frame.
  eapply consumes_bind; [apply dec_uint64_consumes; by apply fits_u64|].
  apply (consumes_bind _ (mk s) _ _ _ [] _ tt).
  { destruct (_ <? _); [apply consumes_ret|]. apply make_len_consumes. split; [lia|exact Hf]. }
  eapply consumes_then; [by apply dec_full_consumes|].
  eapply consumes_then; [apply dec_incr_consumes|].
  apply MustUnmarshal_consumes, entry_codec.
Qed.

(** The loop over the entries, with at least the rounds that the bytes allow. *)
Lemma dec_entries_full es s fuel rest e : Forall (fun x => fits (Entry_Marshal x)) es ->
  (length es < fuel)%nat ->
  dec_entries fuel (Z.of_nat (length es)) (mk s (Reader ((es ≫= entry_frame) ++ rest) e))
    = Ret (mk (fst s, incr_by (length es) (snd s)) (Reader rest e), inr es).
Proof.
  intros Hes. revert s fuel. induction Hes as [|x es Hx _ IH]; intros s fuel Hf.
  { destruct fuel; [simpl in Hf; lia|]. by destruct s. }
  destruct fuel as [|fuel]; [simpl in Hf; lia|]. cbn [dec_entries].
  destruct (Z.leb_spec (Z.of_nat (length (x :: es))) 0); [simpl in *; lia|].
  rewrite bind_cons, <- app_assoc. unfold mbind at 1, io_bind at 1.
  rewrite (proj1 (dec_entry_consumes s x Hx)), ret_bind.
  unfold mbind at 1, io_bind at 1.
  replace (Z.of_nat (length (x :: es)) - 1) with (Z.of_nat (length es)) by (simpl; lia).
  rewrite IH by (simpl in Hf; lia). rewrite ret_bind. unfold io_ret. do 3 f_equal.
  unfold incr_by. cbn [length fst snd]. by rewrite Nat.iter_succ_r.
Qed.

Lemma dec_entries_cut es s fuel k e : Forall (fun x => fits (Entry_Marshal x)) es ->
  (k < length (es ≫= entry_frame))%nat -> (k < fuel)%nat -> exists s' err,
  dec_entries fuel (Z.of_nat (length es)) (mk s (Reader (take k (es ≫= entry_frame)) e))
    = Ret (s', inl err) /\ ended e err.
Proof.
  intros Hes. revert s fuel k. induction Hes as [|x es Hx _ IH]; intros s fuel k Hk Hf;
    [simpl in Hk; lia|].
  destruct fuel as [|fuel]; [lia|]. cbn [dec_entries].
  destruct (Z.leb_spec (Z.of_nat (length (x :: es))) 0); [simpl in *; lia|].
  rewrite bind_cons in Hk |- *. rewrite length_app in Hk.
  unfold mbind at 1, io_bind at 1. destruct (decide (k < length (entry_frame x))%nat) as [Hp|Hp].
  - rewrite take_app_le by lia.
    destruct (proj2 (dec_entry_consumes s x Hx) k e Hp) as (s' & err & -> & He).
    rewrite ret_bind. eauto.
  - rewrite take_app_ge, (proj1 (dec_entry_consumes s x Hx)), ret_bind by lia.
    unfold mbind at 1, io_bind at 1.
    replace (Z.of_nat (length (x :: es)) - 1) with (Z.of_nat (length es)) by (simpl; lia).
    assert (8 <= length (entry_frame x))%nat.
    { unfold entry_frame. rewrite length_app, Uint64ToBytes_length. lia. }
    destruct (IH (fst s, u64 (snd s + 1)) fuel (k - length (entry_frame x))%nat)
      as (s' & err & -> & He); [lia..|]. rewrite ret_bind. eauto.
Qed.

Lemma entry_frames_long es : (length es <= length (es ≫= entry_frame))%nat.
Proof.
  induction es as [|x es IH]; [done|]. rewrite bind_cons, length_app. unfold entry_frame at 1.
  rewrite length_app, Uint64ToBytes_length. simpl. lia.
Qed.

Lemma dec_entries_consumes es s : Forall (fun x => fits (Entry_Marshal x)) es ->
  consumes (mk s)
    (fun dec => dec_entries (Datatypes.S (length (r_bytes (dec_r dec)))) (Z.of_nat (length es)) dec)
    (es ≫= entry_frame) (mk (fst s, incr_by (length es) (snd s))) es.
Proof.
  intros Hes. split.
  - intros rest e. apply dec_entries_full; [done|]. cbn [dec_r mk v2_dec r_bytes].
    rewrite length_app. pose proof (entry_frames_long es). lia.
  - intros k e Hk. apply dec_entries_cut; [done..|]. cbn [dec_r mk v2_dec r_bytes].
    rewrite length_take. lia.
Qed.

(** What the append stream is meant for: heartbeats of the link, and append
    messages from the peer that writes to the one that reads. *)
Definition v2_carries (m : raftpb.Message) : Prop :=
  m = linkHeartbeatMessage \/
  (raftpb.m_Type m = raftpb.MsgApp /\ raftpb.m_From m = re /\ raftpb.m_To m = lo /\
   raftpb.m_Vote m = 0 /\ raftpb.m_Snapshot m = None /\ raftpb.m_Reject m = false /\
   raftpb.m_RejectHint m = 0 /\ raftpb.m_Context m = [] /\ is_u64 (raftpb.m_Commit m) /\
   fits (raftpb.m_Entries m) /\ Forall (fun x => fits (Entry_Marshal x)) (raftpb.m_Entries m) /\
   fits (Message_Marshal m)).

(** The message that the decoder makes up around the entries. *)
Lemma follows_on_message s m : v2_carries m -> isLinkHeartbeatMessage m = false ->
  follows_on s m = true ->
  raftpb.MkMessage raftpb.MsgApp lo re (fst s) (fst s) (snd s) (raftpb.m_Entries m)
    (raftpb.m_Commit m) 0 None false 0 [] = m.
Proof.
  intros [->|(? & ? & ? & ? & ? & ? & ? & ? & _)] Hl Hf; [done|].
  unfold follows_on in Hf. rewrite !andb_true_iff, !Z.eqb_eq in Hf.
  destruct Hf as [[? ?] ?], m; simpl in *. congruence.
Qed.

Lemma v2_decode_consumes s m : v2_carries m ->
  consumes (mk s) v2_decode (v2_frame s m) (mk (v2_next s m)) m.
Proof.
  intros Hm. assert (forall v, 0 <= v < 256 ->
    consumes (mk s) (dec_full 1) [byte_of_Z v] (mk s) [byte_of_Z v]) as H1.
  { intros v Hv. by apply dec_full_consumes. }
  unfold v2_frame, v2_next, v2_decode. destruct (isLinkHeartbeatMessage m) eqn:El.
  { eapply consumes_then; [by apply H1|].
    destruct Hm as [->|(Ht & _)]; [apply consumes_ret|].
    unfold isLinkHeartbeatMessage in El. by rewrite Ht in El. }
  destruct (follows_on s m) eqn:Ef.
  - refine (consumes_bind _ _ _ _ _ [_] _ _ _ (H1 msgTypeAppEntries ltac:(done)) _).
    pose proof (follows_on_message s m Hm El Ef) as Em.
    destruct Hm as [->|(_ & _ & _ & _ & _ & _ & _ & _ & Hc & Hn & Hes & _)]; [done|].
    apply (consumes_ext _ _ _ (dec_appEntries (raftpb.MkMessage raftpb.MsgApp lo re (fst s)
      (fst s) (snd s) [] 0 0 None false 0 []))); [done|]. unfold dec_appEntries, entries_frame. eapply consumes_bind; [apply dec_uint64_consumes; by apply fits_u64|].
    eapply (consumes_bind _ _ _ _ _ []); [apply make_len_consumes; split; [lia|exact Hn]|].
    eapply consumes_bind; [by apply dec_entries_consumes|].
    eapply consumes_then; [by apply dec_uint64_consumes|]. cbn. rewrite Em. apply consumes_ret.
  - refine (consumes_bind _ _ _ _ _ [_] _ _ _ (H1 msgTypeApp ltac:(done)) _).
    destruct Hm as [->|(_ & _ & _ & _ & _ & _ & _ & _ & _ & _ & _ & Hn)]; [done|].
    unfold message_frame. eapply consumes_bind; [apply dec_uint64_consumes; by apply fits_u64|].
    eapply (consumes_bind _ _ _ _ _ []); [apply make_len_consumes; split; [lia|exact Hn]|].
    eapply consumes_then; [by apply dec_full_consumes|].
    eapply consumes_then; [apply MustUnmarshal_consumes, message_codec|].
    eapply consumes_then; [apply dec_set_consumes|]. apply consumes_ret.
Qed.

End Dec.

Lemma decodeLimit_consumes limit m :
  Z.of_nat (length (Message_Marshal m)) <= limit < 2 ^ 63 ->
  consumes (fun r => r) (decodeLimit limit) (message_frame m) (fun r => r) m.
Proof.
  intros [Hm Hl]. assert (forall p n, n = Z.of_nat (length p) ->
    consumes (fun r => r) (fun r => Ret (ReadFull n r)) p (fun r => r) p) as Hf.
  { intros p n ->. split.
    - intros rest e. by rewrite ReadFull_app.
    - intros k e Hk. destruct (ReadFull_cut p k e Hk) as (err & -> & He). eauto. }
  unfold decodeLimit, message_frame.
  eapply consumes_bind; [by apply Hf; rewrite Uint64ToBytes_length|]. cbv zeta.
  rewrite be_value_Uint64ToBytes by word.
  destruct (Z.ltb_spec limit (Z.of_nat (length (Message_Marshal m)))); [lia|].
  eapply (consumes_bind _ _ _ _ _ []); [apply make_len_consumes; lia|].
  eapply consumes_then; [exact (Hf (Message_Marshal m) _ eq_refl)|]. cbv beta.
  rewrite message_codec. apply consumes_ret.
Qed.

Lemma m_decode_consumes m : Z.of_nat (length (Message_Marshal m)) <= readBytesLimit ->
  consumes (fun r => r) m_decode (message_frame m) (fun r => r) m.
Proof. intros Hm. apply decodeLimit_consumes. unfold readBytesLimit in *. lia. Qed.

(** *** Both codecs *)

(** What encoder and decoder of a connection have in common. *)
Inductive wire : Type :=
  | V2Wire (s : Z * Z)
  | MessageWire.

Definition mk_enc (c : wire) (w : writer) : encoder :=
  match c with
  | V2Wire s => V2Encoder (v2_enc s w)
  | MessageWire => MessageEncoder w
  end.

Definition mk_dec (lo re : Z) (c : wire) (r : reader) : decoder :=
  match c with
  | V2Wire s => V2Decoder (v2_dec lo re s r)
  | MessageWire => MessageDecoder r
  end.

Definition enc_out (e : encoder) : writer :=
  match e with
  | V2Encoder e => enc_w e
  | MessageEncoder w => w
  end.

Definition frame (c : wire) (m : raftpb.Message) : bytes :=
  match c with V2Wire s => v2_frame s m | MessageWire => message_frame m end.

Definition next (c : wire) (m : raftpb.Message) : wire :=
  match c with V2Wire s => V2Wire (v2_next s m) | MessageWire => MessageWire end.

(** The messages a stream is for; the general stream takes all up to its
    limit. *)
Definition carries (lo re : Z) (c : wire) (m : raftpb.Message) : Prop :=
  match c with
  | V2Wire _ => v2_carries lo re m
  | MessageWire => Z.of_nat (length (Message_Marshal m)) <= readBytesLimit
  end.

Lemma carries_next lo re c m m' : carries lo re (next c m) m' <-> carries lo re c m'.
Proof. by destruct c. Qed.

Lemma encode_emits c m : emits enc_out (mk_enc c) (encode m) (frame c m) (mk_enc (next c m)).
Proof.
  intros w. unfold encode, on_state. destruct c as [s|]; cbn [mk_enc frame next].
  - destruct (v2_encode_emits s m w) as (x & -> & Ho & Hs). rewrite ret_bind.
    eexists. split; [done|]. split; [done|]. intros Hr. by rewrite (Hs Hr).
  - destruct (m_encode_emits m w) as (x & -> & Ho & Hs). rewrite ret_bind.
    eexists. split; [done|]. split; [done|]. intros Hr. by rewrite (Hs Hr).
Qed.

Lemma decode_consumes lo re c m : carries lo re c m ->
  consumes (mk_dec lo re c) decode (frame c m) (mk_dec lo re (next c m)) m.
Proof.
  unfold decode, on_state. destruct c as [s|]; cbn [mk_dec frame next carries]; intros Hm.
  - destruct (v2_decode_consumes lo re s m Hm) as [H1 H2]. split.
    + intros rest e. cbn [mk_dec]. by rewrite H1, ret_bind.
    + intros k e Hk. cbn [mk_dec]. destruct (H2 k e Hk) as (x & err & -> & He).
      rewrite ret_bind. eauto.
  - destruct (m_decode_consumes m Hm) as [H1 H2]. split.
    + intros rest e. cbn [mk_dec]. by rewrite H1, ret_bind.
    + intros k e Hk. cbn [mk_dec]. destruct (H2 k e Hk) as (x & err & -> & He).
      rewrite ret_bind. eauto.
Qed.

Lemma frame_nonempty c m : (0 < length (frame c m))%nat.
Proof.
  destruct c; cbn [frame].
  - unfold v2_frame. destruct (isLinkHeartbeatMessage m), (follows_on s m); simpl; lia.
  - unfold message_frame. rewrite length_app, Uint64ToBytes_length. lia.
Qed.

(** *** A stream of messages *)

Fixpoint frames (c : wire) (ms : list raftpb.Message) : bytes :=
  match ms with
  | [] => []
  | m :: ms => frame c m ++ frames (next c m) ms
  end.

(** The encoder writes the messages up to the first error. *)
Fixpoint encode_all (ms : list raftpb.Message) : io encoder unit :=
  match ms with
  | [] => io_ret tt
  | m :: ms => _ ← encode m; encode_all ms
  end.

(** The decoder reads until an error; a message takes at least a byte. *)
Fixpoint decode_upto (fuel : nat) (d : decoder) : outcome (list raftpb.Message * error) :=
  match fuel with
  | O => Hang
  | S fuel =>
      '(d, r) ← decode d;
      match r with
      | inr m => '(ms, e) ← decode_upto fuel d; Ret (m :: ms, e)
      | inl e => Ret ([], e)
      end
  end.

Definition dec_in (d : decoder) : reader :=
  match d with V2Decoder d => dec_r d | MessageDecoder r => r end.

Definition decode_all (d : decoder) : outcome (list raftpb.Message * error) :=
  decode_upto (Datatypes.S (length (r_bytes (dec_in d)))) d.

Fixpoint nexts (c : wire) (ms : list raftpb.Message) : wire :=
  match ms with [] => c | m :: ms => nexts (next c m) ms end.

Lemma nexts_app c a b : nexts c (a ++ b) = nexts (nexts c a) b.
Proof. revert c. induction a as [|m a IH]; intros c; [done|]. apply IH. Qed.

Lemma frames_app c a b : frames c (a ++ b) = frames c a ++ frames (nexts c a) b.
Proof.
  revert c. induction a as [|m a IH]; intros c; [done|]. cbn [frames nexts app].
  by rewrite IH, app_assoc.
Qed.

(** One more message on a connection: it goes through whole, or the connection
    fails within it. *)
Lemma encode_one c ms m w : w_out w = frames c ms ->
  exists e r, encode m (mk_enc (nexts c ms) w) = Ret (e, r) /\
    ((r = inr tt /\ exists w', e = mk_enc (nexts c (ms ++ [m])) w' /\
        w_out w' = frames c (ms ++ [m])) \/
     (r = inl errWrite /\ exists n, w_out (enc_out e) = take n (frames c (ms ++ [m])))).
Proof.
  intros Hw. destruct (encode_emits (nexts c ms) m w) as (e & E & Ho & Hs).
  exists e, (snd (w_Write (frame (nexts c ms) m) w)). split; [done|].
  rewrite nexts_app, frames_app, <- Hw. cbn [nexts frames]. rewrite app_nil_r.
  unfold w_Write in *. destruct (w_left w) as [n|].
  - destruct (length (frame (nexts c ms) m) <=? n)%nat.
    + left. split; [done|]. eexists. split; [by apply Hs|done].
    + right. split; [done|]. exists (length (w_out w) + n)%nat. rewrite Ho. cbn.
      rewrite take_app_ge by lia. do 2 f_equal. lia.
  - left. split; [done|]. eexists. split; [by apply Hs|done].
Qed.

Lemma encode_total m x : exists y r, encode m x = Ret (y, r).
Proof.
  assert (exists c w, x = mk_enc c w) as (c & w & ->).
  { destruct x as [[w a b]|w]; [by exists (V2Wire (a, b)), w|by exists MessageWire, w]. }
  destruct (encode_emits c m w) as (s & E & _). eauto.
Qed.

Lemma encode_all_emits ms c :
  emits enc_out (mk_enc c) (encode_all ms) (frames c ms) (mk_enc (nexts c ms)).
Proof.
  revert c. induction ms as [|m ms IH]; intros c; cbn [encode_all frames nexts].
  - apply emits_ret. by destruct c.
  - eapply emits_bind; [apply encode_emits|]. apply IH.
Qed.

Lemma decode_empty lo re c e : decode (mk_dec lo re c (Reader [] e))
  = Ret (mk_dec lo re c (Reader [] e), inl e).
Proof. by destruct c as [[]|]. Qed.

Lemma carries_nexts lo re c a m : carries lo re (nexts c a) m <-> carries lo re c m.
Proof.
  revert c. induction a as [|x a IH]; intros c; [done|]. cbn [nexts]. by rewrite IH, carries_next.
Qed.

(** The next message of a connection that ends after [k] bytes. *)
Lemma decode_front lo re c ms k e : Forall (carries lo re c) ms ->
  (exists d err, decode (mk_dec lo re c (Reader (take k (frames c ms)) e)) = Ret (d, inl err)) \/
  (exists m ms', ms = m :: ms' /\ (length (frame c m) <= k)%nat /\
     decode (mk_dec lo re c (Reader (take k (frames c ms)) e))
     = Ret (mk_dec lo re (next c m)
              (Reader (take (k - length (frame c m)) (frames (next c m) ms')) e), inr m)).
Proof.
  intros Hms. destruct Hms as [|m ms Hm _]; cbn [frames].
  { left. rewrite take_nil, decode_empty. eauto. }
  destruct (decode_consumes lo re c m Hm) as [H1 H2].
  destruct (decide (k < length (frame c m))%nat) as [Hk|Hk].
  - left. rewrite take_app_le by lia. destruct (H2 k e Hk) as (d & err & -> & _). eauto.
  - right. exists m, ms. split; [done|]. split; [lia|]. by rewrite take_app_ge, H1 by lia.
Qed.

(** A reader that ends after [k] bytes of the frames. *)
Lemma decode_upto_frames lo re ms c k e fuel : Forall (carries lo re c) ms ->
  (k < fuel)%nat -> (k <= length (frames c ms))%nat ->
  exists j err, decode_upto fuel (mk_dec lo re c (Reader (take k (frames c ms)) e))
      = Ret (take j ms, err) /\ ended e err /\
    (length (frames c (take j ms)) <= k)%nat /\
    ((j < length ms)%nat -> (k < length (frames c (take (Datatypes.S j) ms)))%nat) /\
    (k = length (frames c (take j ms)) -> err = e) /\ (j <= length ms)%nat.
Proof.
  revert c k fuel. induction ms as [|m ms IH]; intros c k fuel Hms Hf Hk.
  { exists O, e. destruct fuel as [|fuel]; [lia|]. cbn [decode_upto frames take] in *.
    rewrite take_nil, decode_empty, ret_bind. simpl. split; [done|]. split; [by left|]. split; [lia|].
    split; [lia|]. split; [done|lia]. }
  inversion_clear Hms as [|? ? Hm Hms'].
  destruct fuel as [|fuel]; [lia|]. cbn [decode_upto frames] in *. rewrite length_app in Hk.
  pose proof (frame_nonempty c m) as Hpos.
  destruct (decode_consumes lo re c m Hm) as [H1 H2].
  destruct (decide (k < length (frame c m))%nat) as [Hp|Hp].
  - rewrite take_app_le by lia. destruct (H2 k e Hp) as (x & err & Ed & He).
    exists O, err. rewrite Ed, ret_bind. split; [done|]. split; [done|]. cbn [take frames].
    split; [simpl; lia|]. rewrite take_0, app_nil_r. split; [lia|]. split; [|simpl; lia].
    intros E0. assert (k = O) as -> by exact E0. rewrite take_0 in Ed.
    rewrite decode_empty in Ed. by injection Ed.
  - rewrite take_app_ge, H1, ret_bind by lia.
    destruct (IH (next c m) (k - length (frame c m))%nat fuel) as (j & err & E & He & Ha & Hb & Hc & Hd).
    + eapply Forall_impl; [exact Hms'|]. intros m'. apply carries_next.
    + lia.
    + lia.
    + exists (Datatypes.S j), err. rewrite E, ret_bind. split; [done|]. split; [done|].
      cbn [take frames]. rewrite !length_app. split; [lia|].
      split; [simpl; intros; specialize (Hb ltac:(lia)); simpl in *; lia|].
      split; [intros; apply Hc; lia|simpl; lia].
Qed.

Lemma decode_all_prefix lo re ms c k e : Forall (carries lo re c) ms ->
  exists j err, decode_all (mk_dec lo re c (Reader (take k (frames c ms)) e))
      = Ret (take j ms, err) /\ ended e err /\
    (length (frames c (take j ms)) <= k)%nat /\
    ((j < length ms)%nat -> (k < length (frames c (take (Datatypes.S j) ms)))%nat) /\
    ((length (frames c ms) <= k)%nat -> j = length ms /\ err = e).
Proof.
  intros Hms. unfold decode_all.
  assert (dec_in (mk_dec lo re c (Reader (take k (frames c ms)) e))
    = Reader (take k (frames c ms)) e) as -> by (by destruct c). cbn [r_bytes].
  rewrite length_take. assert (take k (frames c ms) = take (k `min` length (frames c ms))
    (frames c ms)) as ->.
  { destruct (decide (k <= length (frames c ms))%nat); [by rewrite Nat.min_l|].
    by rewrite !take_ge by lia. }
  destruct (decode_upto_frames lo re ms c (k `min` length (frames c ms)) e
    (Datatypes.S (k `min` length (frames c ms))) Hms)
    as (j & err & E & He & Ha & Hb & Hc & Hd); [lia..|].
  exists j, err. split; [exact E|]. split; [exact He|]. split; [lia|].
  assert (forall i, (length (frames c (take i ms)) <= length (frames c ms))%nat) as Hle.
  { clear. intros i. revert c i. induction ms as [|m ms IH]; intros c [|i]; simpl; try lia.
    rewrite !length_app. specialize (IH (next c m) i). lia. }
  specialize (Hle (Datatypes.S j)). split; [lia|]. intros Hk.
  assert (j = length ms) as -> by lia. split; [done|]. apply Hc. rewrite firstn_all. lia.
Qed.

(** C20: a broken stream loses only its end.  Messages are written to a
    connection until it fails, after any number of bytes, and the peer reads
    any first part of what was written: it decodes exactly the first messages,
    in order and unchanged, and then answers the error of the connection, or
    [ErrUnexpectedEOF]; a message is missing only when its last byte did not
    arrive.  A connection that did not fail and is read to its end yields
    every message. *)
Theorem broken_stream_exact (lo re : Z) (c : wire) (ms : list raftpb.Message)
    (left : option nat) (k : nat) (e : error) :
  Forall (carries lo re c) ms ->
  exists enc r j err,
    encode_all ms (mk_enc c (Writer [] 0 left)) = Ret (enc, r) /\
    decode_all (mk_dec lo re c (Reader (take k (w_out (enc_out enc))) e))
      = Ret (take j ms, err) /\
    ended e err /\
    ((j < length ms)%nat ->
       (length (take k (w_out (enc_out enc))) < length (frames c (take (Datatypes.S j) ms)))%nat) /\
    (r = inr tt -> (length (w_out (enc_out enc)) <= k)%nat -> j = length ms /\ err = e).
Proof.
  intros Hms. destruct (encode_all_emits ms c (Writer [] 0 left)) as (enc & Ee & Ho & _).
  exists enc, (snd (w_Write (frames c ms) (Writer [] 0 left))).
  assert (exists n, w_out (enc_out enc) = take n (frames c ms) /\
    (snd (w_Write (frames c ms) (Writer [] 0 left)) = inr tt -> (length (frames c ms) <= n)%nat))
    as (n & En & Hn).
  { rewrite Ho. unfold w_Write. destruct left as [n|]; cbn [w_left w_out app].
    - destruct (Nat.leb_spec (length (frames c ms)) n).
      + exists n. cbn. rewrite take_ge by lia. auto.
      + exists n. split; [done|]. simpl. done.
    - exists (length (frames c ms)). cbn. rewrite firstn_all. auto. }
  rewrite En, take_take. set (k' := (k `min` n)%nat).
  destruct (decode_all_prefix lo re ms c k' e Hms) as (j & err & E & He & _ & Hb & Hc).
  exists j, err. split; [exact Ee|]. split; [exact E|]. split; [exact He|]. split.
  - intros Hj. rewrite length_take. specialize (Hb Hj). lia.
  - intros Hr Hk. apply Hc. specialize (Hn Hr). rewrite length_take in Hk. lia.
Qed.

End Laws.

(** *** Appends from node 1 to node 2 *)

Definition append_to (term logterm index : Z) (es : list raftpb.Entry) (commit : Z)
    : raftpb.Message :=
  raftpb.MkMessage raftpb.MsgApp 2 1 term logterm index es commit 0 None false 0 [].

Definition some_entry (term index : Z) : raftpb.Entry :=
  raftpb.MkEntry term index raftpb.EntryNormal [Byte.x61].

(** A first append, one that follows it, and a heartbeat of the link. *)
Definition appends : list raftpb.Message :=
  [append_to 5 4 10 [some_entry 5 11] 9; append_to 5 5 11 [some_entry 5 12; some_entry 5 13] 11;
   linkHeartbeatMessage; append_to 5 5 13 [] 13].

Lemma appends_carried : Forall (carries 2 1 (V2Wire (0, 0))) appends.
Proof.
  assert (forall t l i es n, is_u64 n -> fits es ->
    Forall (fun x => fits (Entry_Marshal x)) es -> fits (Message_Marshal (append_to t l i es n)) ->
    carries 2 1 (V2Wire (0, 0)) (append_to t l i es n)) as Ha.
  { intros t l i es n Hn He Hf Hm. right. by repeat (split; [done|]). }
  unfold appends. repeat apply Forall_cons_2; try apply Forall_nil_2; try by left.
  all: apply Ha; [done|by apply fits_check| |by apply fits_check; vm_compute].
  all: repeat (apply Forall_cons_2; [by apply fits_check; vm_compute|]); apply Forall_nil_2.
Qed.

Lemma broken_stream_exact_witness : exists enc,
  encode_all appends (mk_enc (V2Wire (0, 0)) (Writer [] 0 None)) = Ret (enc, inr tt) /\
  decode_all (mk_dec 2 1 (V2Wire (0, 0)) (Reader (take 4000 (w_out (enc_out enc))) EOF))
    = Ret (appends, EOF).
Proof.
  destruct (broken_stream_exact 2 1 (V2Wire (0, 0)) appends None 4000 EOF appends_carried)
    as (enc & r & j & err & E & D & _ & _ & F).
  assert (r = inr tt /\ (length (w_out (enc_out enc)) <= 4000)%nat) as [-> Hl].
  { vm_compute in E. injection E as <- <-. split; [done|]. by apply Nat.leb_le; vm_compute. }
  destruct (F eq_refl Hl) as [-> ->]. exists enc. split; [exact E|exact D].
Defined.

End codec.
