(* ===== verification/RaftUtil.v ===== *)
(** * Requests, responses and versions of the raft transport

    [util.go] of etcd's [rafthttp] and the version check of [http.go], over
    [net/http] as far as it is used: a request and a response with their
    headers.  Versions are those of [go-semver]. *)

From S2P Require Import Prelude Errors Urls WalRecord MsgCodec.
From Stdlib Require Import Ascii.

(** ** go-semver *)

Record semver := MkSemver {
  Major : Z;
  Minor : Z;
  Patch : Z;
  PreRelease : string
}.

(** [&semver.Version{Major: a, Minor: b}]. *)
Definition major_minor (a b : Z) : semver := MkSemver a b 0 "".

Class SemverLib := {
  NewVersion : string -> result semver;
  LessThan : semver -> semver -> bool;
  v_String : semver -> string
}.

(** The versions the code knows of. *)
Definition known_minors : list (Z * Z * string) :=
  [(2, 0, "2.0.0"); (2, 1, "2.1.0"); (2, 2, "2.2.0"); (2, 3, "2.3.0"); (3, 0, "3.0.0");
   (3, 1, "3.1.0"); (3, 2, "3.2.0"); (3, 3, "3.3.0"); (3, 4, "3.4.0"); (3, 5, "3.5.0");
   (3, 6, "3.6.0")].

Class SemverLaws `{V : SemverLib} : Prop := {
  (** Versions are ordered by their numbers first. *)
  semver_less : forall a b c d,
    LessThan (major_minor a b) (major_minor c d) = (a <? c) || ((a =? c) && (b <? d));
  semver_string : forall a b s, (a, b, s) ∈ known_minors -> v_String (major_minor a b) = s;
  semver_local : NewVersion "3.6.8" = inr (MkSemver 3 6 8 "");
  semver_min_cluster : NewVersion "3.0.0" = inr (MkSemver 3 0 0 "");
  semver_oldest : NewVersion "2.0.0" = inr (MkSemver 2 0 0 "")
}.

(** Versions of one digit each. *)
Module MemSemver.

Definition digit (c : Ascii.ascii) : Z := Z.of_N (Ascii.N_of_ascii c) - 48.
Definition char_of (d : Z) : Ascii.ascii := Ascii.ascii_of_N (Z.to_N (d + 48)).

#[export] Instance versions : SemverLib := {
  NewVersion s :=
    match s with
    | String a (String "."%char (String b (String "."%char (String c EmptyString)))) =>
        inr (MkSemver (digit a) (digit b) (digit c) "")
    | _ => inl (OtherError "not in dotted-tri format")
    end;
  LessThan u v :=
    (Major u <? Major v) || ((Major u =? Major v) && (Minor u <? Minor v))
    || ((Major u =? Major v) && (Minor u =? Minor v) && (Patch u <? Patch v));
  v_String v :=
    String (char_of (Major v)) (String "."%char (String (char_of (Minor v)) (String "."%char
      (String (char_of (Patch v)) EmptyString))))
}.

#[export] Instance versions_laws : SemverLaws.
Proof.
  constructor; [| |reflexivity..].
  - intros a b c d. cbn. by rewrite andb_false_r, orb_false_r.
  - intros a b s H. unfold known_minors in H. rewrite !elem_of_cons, elem_of_nil in H.
    destruct_or! H; try done; injection H as -> -> ->; reflexivity.
Qed.

End MemSemver.

(** ** net/http *)

Definition header : Type := gmap string string.

(** [h.Get(k)]: an absent header is empty. *)
Definition h_Get (h : header) (k : string) : string := default "" (h !! k).

Record request := Request {
  rq_Method : string;
  rq_Path : string;
  rq_Header : header;
  rq_Body : codec.reader
}.

Record response := Response {
  rs_Status : Z;
  rs_Header : header;
  rs_Body : string
}.

Definition StatusOK : Z := 200.
Definition StatusNoContent : Z := 204.
Definition StatusBadRequest : Z := 400.
Definition StatusForbidden : Z := 403.
Definition StatusNotFound : Z := 404.
Definition StatusMethodNotAllowed : Z := 405.
Definition StatusGone : Z := 410.
Definition StatusPreconditionFailed : Z := 412.
Definition StatusInternalServerError : Z := 500.

Definition newline : Ascii.ascii := Ascii.ascii_of_nat 10.

(** [http.Error(w, msg, code)], on the headers set so far. *)
Definition http_Error (h : header) (msg : string) (code : Z) : response :=
  Response code h (msg ++ String newline "").

(** [strings.TrimSuffix(s, "\n")]. *)
Fixpoint trim_newline (s : string) : string :=
  match s with
  | EmptyString => EmptyString
  | String c EmptyString => if Ascii.eqb c newline then EmptyString else s
  | String c s' => String c (trim_newline s')
  end.

(** [strings.Join(l, ",")] and [strings.Split(s, ",")]. *)
Fixpoint join_comma (l : list string) : string :=
  match l with
  | [] => ""
  | [s] => s
  | s :: l => (s ++ "," ++ join_comma l)%string
  end.

Fixpoint split_comma (s : string) : list string :=
  match s with
  | EmptyString => [""]
  | String c s =>
      if Ascii.eqb c ","%char then "" :: split_comma s
      else match split_comma s with
           | w :: ws => String c w :: ws
           | [] => [String c ""]
           end
  end.

(** ** util.go *)

Definition errMemberRemoved : error :=
  OtherError "the member has been permanently removed from the cluster".
Definition errMemberNotFound : error := OtherError "member not found".
Definition errIncompatibleVersion : error := OtherError "incompatible version".
Definition ErrClusterIDMismatch : error := OtherError "cluster ID mismatch".

(** [err.Error()], of the errors that are sent over the network. *)
Definition error_text (e : error) : string :=
  match e with OtherError msg => msg | _ => "" end.

Definition version_Version : string := "3.6.8".
Definition version_MinClusterVersion : string := "3.0.0".

Section Util.
Context `{UrlLib} `{SemverLib}.

(** Nothing is set without URLs. *)
Definition setPeerURLsHeader (h : header) (urls : option (list URL)) : header :=
  match urls with
  | None => h
  | Some us => <["X-PeerURLs" := join_comma (urls.StringSlice us)]> h
  end.

(** The headers that every request carries. *)
Definition request_headers (from cid : Z) (h : header) : header :=
  <["X-Etcd-Cluster-ID" := ID.ID_String cid]>
    (<["X-Min-Cluster-Version" := version_MinClusterVersion]>
      (<["X-Server-Version" := version_Version]>
        (<["X-Server-From" := ID.ID_String from]> h))).

(** [http.NewRequest] parses the URL. *)
Definition NewRequest (method : string) (u : URL) (body : codec.reader) : result request :=
  u' ← url_Parse (u_String u); inr (Request method (u_Path u') ∅ body).

(** The error panics through the logger, and without one through the nil
    request. *)
Definition createPostRequest (u : URL) (path : string) (body : codec.reader) (ct : string)
    (urls : option (list URL)) (from cid : Z) : outcome request :=
  match NewRequest "POST" (u_WithPath u path) body with
  | inl _ => Panic "unexpected new request error"
  | inr req =>
      Ret (Request (rq_Method req) (rq_Path req)
             (setPeerURLsHeader
                (request_headers from cid (<["Content-Type" := ct]> (rq_Header req))) urls)
             (rq_Body req))
  end.

Definition checkPostResponse (resp : response) : option error :=
  let st := rs_Status resp in
  if st =? StatusPreconditionFailed then
    let text := trim_newline (rs_Body resp) in
    if String.eqb text (error_text errIncompatibleVersion) then Some errIncompatibleVersion
    else if String.eqb text (error_text ErrClusterIDMismatch) then Some ErrClusterIDMismatch
    else Some (OtherError "unhandled error when precondition failed")
  else if st =? StatusForbidden then Some errMemberRemoved
  else if st =? StatusNoContent then None
  else Some (OtherError "unexpected http status while posting").

(** The channel has no buffer in omashu: the error is received when the ready
    loop is waiting for it, and is dropped otherwise. *)
Definition reportCriticalError (listening : bool) (err : error) : list error :=
  if listening then [err] else [].

Definition compareMajorMinorVersion (a b : semver) : Z :=
  let na := major_minor (Major a) (Minor a) in
  let nb := major_minor (Major b) (Minor b) in
  if LessThan na nb then -1 else if LessThan nb na then 1 else 0.

(** [semver.Must(semver.NewVersion(s))]. *)
Definition semver_Must (s : string) : outcome semver :=
  match NewVersion s with
  | inr v => Ret v
  | inl _ => Panic "not in dotted-tri format"
  end.

Definition version_of (h : header) (k : string) : outcome semver :=
  let verStr := h_Get h k in
  semver_Must (if String.eqb verStr "" then "2.0.0" else verStr).

Definition serverVersion (h : header) : outcome semver := version_of h "X-Server-Version".
Definition minClusterVersion (h : header) : outcome semver := version_of h "X-Min-Cluster-Version".

Definition checkVersionCompatibility (server minCluster : semver) : outcome (option error) :=
  localServer ← semver_Must version_Version;
  localMinCluster ← semver_Must version_MinClusterVersion;
  Ret (if compareMajorMinorVersion server localMinCluster =? -1
       then Some (OtherError "remote version is too low")
       else if compareMajorMinorVersion minCluster localServer =? 1
       then Some (OtherError "local version is too low")
       else None).

(** The remote that a request announces. *)
Definition addRemoteFromRequest (h : header) : option (Z * list string) :=
  match ID.IDFromString (h_Get h "X-Server-From") with
  | inl _ => None
  | inr from =>
      let urls := h_Get h "X-PeerURLs" in
      if String.eqb urls "" then None else Some (from, split_comma urls)
  end.

(** ** http.go: the check of a request *)

Definition checkClusterCompatibilityFromHeader (h : header) (cid : Z) : outcome (option error) :=
  remoteServer ← serverVersion h;
  remoteMinClusterVer ← minClusterVersion h;
  err ← checkVersionCompatibility remoteServer remoteMinClusterVer;
  Ret (match err with
       | Some _ => Some errIncompatibleVersion
       | None =>
           if String.eqb (h_Get h "X-Etcd-Cluster-ID") (ID.ID_String cid) then None
           else Some ErrClusterIDMismatch
       end).

End Util.

(** ** What the checks decide *)

Section Laws.
Context `{UrlLaws} `{SemverLaws}.

Lemma compare_spec a b : compareMajorMinorVersion a b =
  if (Major a <? Major b) || ((Major a =? Major b) && (Minor a <? Minor b)) then -1
  else if (Major b <? Major a) || ((Major b =? Major a) && (Minor b <? Minor a)) then 1 else 0.
Proof. unfold compareMajorMinorVersion. by rewrite !semver_less. Qed.

Lemma ID_String_eqb a b : is_u64 a -> is_u64 b ->
  String.eqb (ID.ID_String a) (ID.ID_String b) = (a =? b).
Proof.
  intros Ha Hb. destruct (Z.eqb_spec a b) as [->|Hn]; [apply String.eqb_refl|].
  apply String.eqb_neq. intros E. by apply ID.ID_String_inj in E.
Qed.

(** A request with the headers of this version passes exactly when the
    clusters are the same. *)
Lemma own_headers_checked h cid cid' :
  h !! "X-Server-Version" = Some version_Version ->
  h !! "X-Min-Cluster-Version" = Some version_MinClusterVersion ->
  h !! "X-Etcd-Cluster-ID" = Some (ID.ID_String cid) -> is_u64 cid -> is_u64 cid' ->
  checkClusterCompatibilityFromHeader h cid'
    = Ret (if cid =? cid' then None else Some ErrClusterIDMismatch).
Proof.
  intros E1 E2 E3 Hc Hc'. unfold checkClusterCompatibilityFromHeader, serverVersion,
    minClusterVersion, version_of, h_Get. rewrite E1, E2, E3. cbn [default Datatypes.id].
  assert (String.eqb version_Version "" = false) as -> by reflexivity.
  assert (String.eqb version_MinClusterVersion "" = false) as -> by reflexivity.
  unfold checkVersionCompatibility, semver_Must, version_Version, version_MinClusterVersion.
  rewrite semver_local, semver_min_cluster, !ret_bind, !compare_spec.
  by rewrite ID_String_eqb.
Qed.

End Laws.
