(* ===== verification/Stream.v ===== *)
(** * Streams between peers

    [stream.go] and [peer_status.go] of etcd's [rafthttp].  A stream is a long
    answer to a request: the peer that serves it writes messages into it (the
    stream writer), the one that dialled reads them (the stream reader).  Each
    is a goroutine; a step of the model is one round of its loop. *)

From S2P Require Import Prelude Errors Utils RaftApi WalRecord Urls MsgCodec RaftUtil.
From Stdlib Require Import Ascii.

Module stream.

(** What a peer does to the outside: its calls of the [Raft] interface, the
    errors it reports, and the messages it wrote to a stream or posted. *)
Inductive effect : Type :=
  | ReportUnreachable (id : Z)
  | ReportSnapshot (id : Z) (finished : bool)
  | Process (m : raftpb.Message)
  | ErrorC (e : error)
  | Wrote (m : raftpb.Message)
  | Posted (m : raftpb.Message).

(** ** peer_status.go *)

Record peerStatus := MkStatus {
  active : bool;
  since : option Z
}.

Definition newPeerStatus : peerStatus := MkStatus false None.

Definition activate (now : Z) (s : peerStatus) : peerStatus :=
  if active s then s else MkStatus true (Some now).

Definition deactivate (s : peerStatus) : peerStatus :=
  if active s then MkStatus false None else s.

(** ** Stream types *)

(** A string in the source, of which these are the values. *)
Inductive streamType : Type :=
  | streamTypeMessage
  | streamTypeMsgAppV2.

#[global] Instance streamType_eq_dec : EqDecision streamType.
Proof. solve_decision. Defined.

Definition streamBufSize : Z := 4096.

Definition errUnsupportedStreamType : error := OtherError "unsupported stream type".

(** The key is [major.minor.patch]. *)
Definition supportedStream (v : string) : list streamType :=
  if decide (v ∈ ["2.1.0"; "2.2.0"; "2.3.0"; "3.0.0"; "3.1.0"; "3.2.0"; "3.3.0"; "3.4.0";
                  "3.5.0"; "3.6.0"])
  then [streamTypeMsgAppV2; streamTypeMessage] else [].

Definition RaftPrefix : string := "/raft".
Definition RaftStreamPrefix : string := "/raft/stream".
Definition RaftSnapshotPrefix : string := "/raft/snapshot".

Definition endpoint (t : streamType) : string :=
  match t with
  | streamTypeMsgAppV2 => "/raft/stream/msgapp"
  | streamTypeMessage => "/raft/stream/message"
  end.

Definition isMsgApp (m : raftpb.Message) : bool := bool_decide (raftpb.m_Type m = raftpb.MsgApp).
Definition isMsgSnap (m : raftpb.Message) : bool := bool_decide (raftpb.m_Type m = raftpb.MsgSnap).

(** [len(c)] of a channel with a buffer, and a send that does not wait. *)
Definition chan : Type := list raftpb.Message.

Definition try_send (cap : Z) (c : chan) (m : raftpb.Message) : option chan :=
  if Z.of_nat (length c) <? cap then Some (c ++ [m]) else None.

Section Stream.
Context `{RaftCodec} `{MessageCodec} `{UrlLib} `{SemverLib}.

(** ** The stream writer *)

(** [msgc] is the channel that the writer reads from, [replaced] the channels
    it read from before: who has picked one of them can still send into it.
    [enc] is the encoder of the goroutine; its writer is the last connection.
    The goroutine listens on [msgc] and on the ticker exactly while
    [working]. *)
Record streamWriter := MkStreamWriter {
  sw_peerID : Z;
  working : bool;
  msgc : chan;
  replaced : list chan;
  enc : option codec.encoder;
  batched : Z;
  sw_done : bool
}.

Definition startStreamWriter (id : Z) : streamWriter :=
  MkStreamWriter id false [] [] None 0 false.

Definition with_enc (cw : streamWriter) (e : codec.encoder) (b : Z) : streamWriter :=
  MkStreamWriter (sw_peerID cw) (working cw) (msgc cw) (replaced cw) (Some e) b (sw_done cw).

Definition with_msgc (cw : streamWriter) (c : chan) : streamWriter :=
  MkStreamWriter (sw_peerID cw) (working cw) c (replaced cw) (enc cw) (batched cw) (sw_done cw).

Definition closeUnlocked (cw : streamWriter) : streamWriter * list effect :=
  if working cw then
    (MkStreamWriter (sw_peerID cw) false [] (replaced cw ++ [msgc cw]) (enc cw) (batched cw)
       (sw_done cw),
     match msgc cw with [] => [] | _ => [ReportUnreachable (sw_peerID cw)] end)
  else (cw, []).

Definition flush_enc (e : codec.encoder) : codec.encoder :=
  match e with
  | codec.V2Encoder e =>
      codec.V2Encoder (codec.MkV2Encoder (codec.Flush (codec.enc_w e)) (codec.enc_term e)
                         (codec.enc_index e))
  | codec.MessageEncoder w => codec.MessageEncoder (codec.Flush w)
  end.

(** [case <-heartbeatc]. *)
Definition on_heartbeat (st : peerStatus) (cw : streamWriter)
    : outcome (peerStatus * streamWriter * list effect) :=
  match working cw, enc cw with
  | true, Some e =>
      '(e, r) ← codec.encode codec.linkHeartbeatMessage e;
      match r with
      | inr _ => Ret (st, with_enc cw (flush_enc e) 0, [])
      | inl _ =>
          let '(cw, fx) := closeUnlocked (with_enc cw e (batched cw)) in
          Ret (deactivate st, cw, fx)
      end
  | _, _ => Ret (st, cw, [])
  end.

(** [case m := <-msgc]. *)
Definition on_message (st : peerStatus) (cw : streamWriter)
    : outcome (peerStatus * streamWriter * list effect) :=
  match working cw, enc cw, msgc cw with
  | true, Some e, m :: rest =>
      let cw := with_msgc cw rest in
      '(e, r) ← codec.encode m e;
      match r with
      | inr _ =>
          let cw :=
            match rest with
            | [] => with_enc cw (flush_enc e) 0
            | _ => if streamBufSize / 2 <? batched cw then with_enc cw (flush_enc e) 0
                   else with_enc cw e (batched cw + 1)
            end in
          Ret (st, cw, [Wrote m])
      | inl _ =>
          let '(cw, fx) := closeUnlocked (with_enc cw e (batched cw)) in
          Ret (deactivate st, cw, fx ++ [ReportUnreachable (raftpb.m_To m)])
      end
  | _, _, _ => Ret (st, cw, [])
  end.

Record outgoingConn := MkConn {
  c_t : streamType;
  c_Writer : codec.writer
}.

Definition new_encoder (conn : outgoingConn) : codec.encoder :=
  match c_t conn with
  | streamTypeMsgAppV2 => codec.V2Encoder (codec.newMsgAppV2Encoder (c_Writer conn))
  | streamTypeMessage => codec.MessageEncoder (c_Writer conn)
  end.

(** [case conn := <-cw.connc]. *)
Definition on_conn (now : Z) (conn : outgoingConn) (st : peerStatus) (cw : streamWriter)
    : peerStatus * streamWriter * list effect :=
  let '(cw, fx) := closeUnlocked cw in
  (activate now st,
   MkStreamWriter (sw_peerID cw) true (msgc cw) (replaced cw) (Some (new_encoder conn))
     (batched cw) (sw_done cw),
   fx).

(** [case <-cw.stopc]. *)
Definition on_stop (cw : streamWriter) : streamWriter * list effect :=
  let '(cw, fx) := closeUnlocked cw in
  (MkStreamWriter (sw_peerID cw) (working cw) (msgc cw) (replaced cw) (enc cw) (batched cw) true,
   fx).

(** [attach] hands the connection to the goroutine, unless it has ended. *)
Definition attach (now : Z) (conn : outgoingConn) (st : peerStatus) (cw : streamWriter)
    : peerStatus * streamWriter * list effect * bool :=
  if sw_done cw then (st, cw, [], false) else (on_conn now conn st cw, true).

(** The channel to send into, by its number, and whether the writer works. *)
Definition writec (cw : streamWriter) : nat * bool := (length (replaced cw), working cw).

(** A send into the channel with a number; [None] when it is full. *)
Definition send_to (cw : streamWriter) (n : nat) (m : raftpb.Message) : option streamWriter :=
  match replaced cw !! n with
  | None => with_msgc cw <$> try_send streamBufSize (msgc cw) m
  | Some c =>
      (fun c => MkStreamWriter (sw_peerID cw) (working cw) (msgc cw) (<[n := c]> (replaced cw))
                  (enc cw) (batched cw) (sw_done cw)) <$> try_send streamBufSize c m
  end.

(** ** The stream reader *)

Record streamReader := MkStreamReader {
  typ : streamType;
  sr_paused : bool;
  closer : option codec.decoder;
  cancelled : bool;
  sr_done : bool
}.

Definition newStreamReader (t : streamType) : streamReader :=
  MkStreamReader t false None false false.

Definition with_closer (cr : streamReader) (d : option codec.decoder) : streamReader :=
  MkStreamReader (typ cr) (sr_paused cr) d (cancelled cr) (sr_done cr).

Definition set_sr_paused (b : bool) (cr : streamReader) : streamReader :=
  MkStreamReader (typ cr) b (closer cr) (cancelled cr) (sr_done cr).

Definition new_decoder (t : streamType) (local remote : Z) (r : codec.reader) : codec.decoder :=
  match t with
  | streamTypeMsgAppV2 => codec.V2Decoder (codec.newMsgAppV2Decoder r local remote)
  | streamTypeMessage => codec.MessageDecoder r
  end.

(** The start of [decodeLoop]: the body becomes what [stop] closes, unless the
    reader is stopped already. *)
Definition decode_start (local remote : Z) (r : codec.reader) (cr : streamReader)
    : streamReader * option error :=
  if cancelled cr then (cr, Some EOF)
  else (with_closer cr (Some (new_decoder (typ cr) local remote r)), None).

Definition recvBufSize : Z := 4096.
Definition maxPendingProposals : Z := 4096.

(** The received messages of a peer, and the proposals. *)
Record inbox := MkInbox {
  recvc : chan;
  propc : chan
}.

(** A message that is received: dropped when its channel is full. *)
Definition receive (m : raftpb.Message) (b : inbox) : inbox :=
  if decide (raftpb.m_Type m = raftpb.MsgProp)
  then match try_send maxPendingProposals (propc b) m with
       | Some c => MkInbox (recvc b) c
       | None => b
       end
  else match try_send recvBufSize (recvc b) m with
       | Some c => MkInbox c (propc b)
       | None => b
       end.

(** A round of the loop of [decodeLoop]; an error closes the connection and
    ends the loop. *)
Definition decode_round (cr : streamReader) (b : inbox)
    : outcome (streamReader * inbox * option error) :=
  match closer cr with
  | None => Ret (cr, b, None)
  | Some d =>
      '(d, r) ← codec.decode d;
      match r with
      | inl err => Ret (with_closer cr None, b, Some err)
      | inr m =>
          let cr := with_closer cr (Some d) in
          if sr_paused cr then Ret (cr, b, None)
          else if codec.isLinkHeartbeatMessage m then Ret (cr, b, None)
          else Ret (cr, receive m b, None)
      end
  end.

(** [strings.Contains]. *)
Fixpoint contains (sub s : string) : bool :=
  has_prefix sub s || match s with String _ s' => contains sub s' | EmptyString => false end.

Definition IsClosedConnError (e : error) : bool :=
  contains "use of closed network connection" (error_text e).

(** What [run] does about the error that ended [decodeLoop]. *)
Definition after_decode (err : error) (st : peerStatus) : peerStatus :=
  if bool_decide (err = EOF) || IsClosedConnError err then st else deactivate st.

(** After a round [run] waits, and ends when the context is cancelled. *)
Definition after_wait (cr : streamReader) : streamReader :=
  if cancelled cr
  then MkStreamReader (typ cr) (sr_paused cr) (closer cr) (cancelled cr) true else cr.

(** [stop] cancels, closes the connection, and waits for the goroutine. *)
Definition sr_stop (cr : streamReader) : streamReader :=
  MkStreamReader (typ cr) (sr_paused cr) None true true.

Definition checkStreamSupport (v : semver) (t : streamType) : bool :=
  bool_decide (t ∈ supportedStream (v_String (major_minor (Major v) (Minor v)))).

(** The request of [dial]. *)
Definition dial_request (u : URL) (t : streamType) (id cid peerID : Z)
    (us : option (list URL)) : result request :=
  req ← NewRequest "GET" (u_WithPath u (endpoint t ++ "/" ++ ID.ID_String id)%string)
          (codec.Reader [] EOF);
  inr (Request (rq_Method req) (rq_Path req)
         (setPeerURLsHeader
            (<["X-Raft-To" := ID.ID_String peerID]> (request_headers id cid (rq_Header req))) us)
         (rq_Body req)).

(** What [dial] makes of the answer: the URL is given up in every case but
    success. *)
Definition dial_answer (t : streamType) (resp : response) (body : codec.reader)
    : outcome (result codec.reader) :=
  rv ← serverVersion (rs_Header resp);
  lv ← semver_Must version_Version;
  Ret (if (compareMajorMinorVersion rv lv =? -1) && negb (checkStreamSupport rv t)
       then inl errUnsupportedStreamType
       else
         let st := rs_Status resp in
         if st =? StatusGone then inl errMemberRemoved
         else if st =? StatusOK then inr body
         else if st =? StatusNotFound then inl (OtherError "peer failed to find local node")
         else if st =? StatusPreconditionFailed then
           let text := trim_newline (rs_Body resp) in
           if String.eqb text (error_text errIncompatibleVersion)
           then inl errIncompatibleVersion
           else if String.eqb text (error_text ErrClusterIDMismatch)
           then inl ErrClusterIDMismatch
           else inl (OtherError "unhandled error when precondition failed")
         else inl (OtherError "unhandled http status")).

(** [dial].  [rt] is the round trip; an error while the body of a refusal is
    read is one of the round trip. *)
Definition dial (rt : request -> result (response * codec.reader)) (listening : bool)
    (id cid peerID : Z) (us : option (list URL)) (cr : streamReader) (p : urlPicker)
    : outcome (urlPicker * result codec.reader * list effect) :=
  u ← pick p;
  match dial_request u (typ cr) id cid peerID us with
  | inl e => p ← unreachable p u; Ret (p, inl e, [])
  | inr req =>
      if cancelled cr then Ret (p, inl (OtherError "stream reader is stopped"), [])
      else
        match rt req with
        | inl e => p ← unreachable p u; Ret (p, inl e, [])
        | inr (resp, body) =>
            r ← dial_answer (typ cr) resp body;
            match r with
            | inr body => Ret (p, inr body, [])
            | inl e =>
                p ← unreachable p u;
                Ret (p, inl e,
                     if decide (e = errMemberRemoved)
                     then map ErrorC (reportCriticalError listening e) else [])
            end
        end
  end.

(** A round of [run] up to the reading of messages; it ends with the wait when
    there is nothing to read. *)
Definition on_dial (rt : request -> result (response * codec.reader)) (listening : bool) (now : Z)
    (id cid peerID : Z) (us : option (list URL)) (st : peerStatus) (cr : streamReader)
    (p : urlPicker) : outcome (peerStatus * streamReader * urlPicker * list effect) :=
  '(p, r, fx) ← dial rt listening id cid peerID us cr p;
  match r with
  | inl e =>
      Ret (if decide (e = errUnsupportedStreamType) then st else deactivate st, after_wait cr, p, fx)
  | inr body =>
      let st := activate now st in
      match decode_start id peerID body cr with
      | (cr, None) => Ret (st, cr, p, fx)
      | (cr, Some err) => Ret (after_decode err st, after_wait cr, p, fx)
      end
  end.

End Stream.

End stream.
