(* ===== verification/Peer.v ===== *)
(** * Peers

    [peer.go], [pipeline.go], [remote.go] and [snapshot_sender.go] of etcd's
    [rafthttp], with [snap/message.go] and [pkg/ioutil/readcloser.go].  A peer
    sends a message through one of two streams, or through the pipeline, a
    queue from which four goroutines post messages one by one.  The operations
    and the rounds of the goroutines are steps of the peer; what they do to
    the outside is appended to [p_fx]. *)

From S2P Require Import Prelude Errors Utils RaftApi WalRecord Urls MsgCodec RaftUtil Stream.

Module peer.
Import stream.

Section Peer.
Context `{RaftCodec} `{MessageCodec} `{UrlLib} `{SemverLib}.

(** The reports for a message that is dropped. *)
Definition dropped (m : raftpb.Message) : list effect :=
  ReportUnreachable (raftpb.m_To m)
  :: if isMsgSnap m then [ReportSnapshot (raftpb.m_To m) false] else [].

(** ** pipeline.go *)

Definition connPerPipeline : nat := 4.
Definition pipelineBufSize : Z := 64.

(** The queue, the messages that are being posted with the URL each goes to,
    the number of goroutines that have not returned, and whether [stopc] is
    closed. *)
Record pipeline := MkPipeline {
  pl_msgc : chan;
  inflight : list (raftpb.Message * URL);
  handlers : nat;
  pl_stopped : bool
}.

Definition pl_start : pipeline := MkPipeline [] [] connPerPipeline false.

(** The goroutines return in the steps that follow. *)
Definition pl_stop (pl : pipeline) : outcome pipeline :=
  if pl_stopped pl then Panic "close of closed channel"
  else Ret (MkPipeline (pl_msgc pl) (inflight pl) (handlers pl) true).

(** [case m := <-p.msgc] of an idle goroutine, up to the request. *)
Definition h_take (id cid : Z) (us : option (list URL)) (p : urlPicker) (pl : pipeline)
    : outcome (pipeline * option request) :=
  match pl_msgc pl with
  | m :: rest =>
      if (length (inflight pl) <? handlers pl)%nat then
        u ← pick p;
        req ← createPostRequest u RaftPrefix (codec.Reader (Message_Marshal m) EOF)
                "application/protobuf" us id cid;
        Ret (MkPipeline rest (inflight pl ++ [(m, u)]) (handlers pl) (pl_stopped pl), Some req)
      else Ret (pl, None)
  | [] => Ret (pl, None)
  end.

(** The rest of [post]: [rt] is the answer, or the error of the round trip or
    of reading the body. *)
Definition post_end (listening : bool) (rt : result response) (u : URL) (p : urlPicker)
    : outcome (urlPicker * option error * list effect) :=
  match rt with
  | inl e => p ← unreachable p u; Ret (p, Some e, [])
  | inr resp =>
      match checkPostResponse resp with
      | None => Ret (p, None, [])
      | Some e =>
          p ← unreachable p u;
          Ret (p, Some e, if decide (e = errMemberRemoved)
                          then map ErrorC (reportCriticalError listening e) else [])
      end
  end.

(** The rest of the round of [handle]. *)
Definition handle_end (now : Z) (m : raftpb.Message) (err : option error) (st : peerStatus)
    : peerStatus * list effect :=
  match err with
  | Some _ =>
      (deactivate st, dropped m)
  | None =>
      (activate now st,
       Posted m :: if isMsgSnap m then [ReportSnapshot (raftpb.m_To m) true] else [])
  end.

(** The answer for the [i]-th message that is being posted. *)
Definition h_done (listening : bool) (now : Z) (i : nat) (rt : result response)
    (st : peerStatus) (p : urlPicker) (pl : pipeline)
    : outcome (peerStatus * urlPicker * pipeline * list effect) :=
  match inflight pl !! i with
  | None => Ret (st, p, pl, [])
  | Some (m, u) =>
      '(p, err, fx) ← post_end listening rt u p;
      let '(st, fx') := handle_end now m err st in
      Ret (st, p,
           MkPipeline (pl_msgc pl) (delete i (inflight pl)) (handlers pl) (pl_stopped pl),
           fx ++ fx')
  end.

(** [case <-p.stopc] of an idle goroutine. *)
Definition h_exit (pl : pipeline) : pipeline :=
  if pl_stopped pl && (length (inflight pl) <? handlers pl)%nat
  then MkPipeline (pl_msgc pl) (inflight pl) (handlers pl - 1) true else pl.

(** ** remote.go *)

Record remote := MkRemote {
  g_picker : urlPicker;
  g_status : peerStatus;
  g_pipeline : pipeline
}.

Definition startRemote (us : list URL) : remote :=
  MkRemote (newURLPicker us) newPeerStatus pl_start.

Definition with_pipeline (g : remote) (pl : pipeline) : remote :=
  MkRemote (g_picker g) (g_status g) pl.

(** A message that finds the queue full is dropped; only the log tells. *)
Definition g_send (g : remote) (m : raftpb.Message) : remote :=
  let pl := g_pipeline g in
  match try_send pipelineBufSize (pl_msgc pl) m with
  | Some c => with_pipeline g (MkPipeline c (inflight pl) (handlers pl) (pl_stopped pl))
  | None => g
  end.

Definition g_stop (g : remote) : outcome remote :=
  pl ← pl_stop (g_pipeline g); Ret (with_pipeline g pl).

Definition g_Pause (g : remote) : outcome remote := g_stop g.

Definition g_Resume (g : remote) : remote := with_pipeline g pl_start.

(** ** peer.go *)

(** A channel that a send has picked. *)
Inductive slot : Type :=
  | SlotV2 (n : nat)
  | SlotMessage (n : nat)
  | SlotPipeline.

Record peer := MkPeer {
  p_id : Z;
  p_status : peerStatus;
  p_picker : urlPicker;
  msgAppV2Writer : streamWriter;
  p_writer : streamWriter;
  p_pipeline : pipeline;
  snap_stopped : bool;
  msgAppV2Reader : streamReader;
  msgAppReader : streamReader;
  p_inbox : inbox;
  p_paused : bool;
  p_stopped : bool;
  p_fx : list effect
}.

Definition startPeer (us : list URL) (peerID : Z) : peer :=
  MkPeer peerID newPeerStatus (newURLPicker us) (startStreamWriter peerID)
    (startStreamWriter peerID) pl_start false (newStreamReader streamTypeMsgAppV2)
    (newStreamReader streamTypeMessage) (MkInbox [] []) false false [].

Definition add_fx (fx : list effect) (p : peer) : peer :=
  MkPeer (p_id p) (p_status p) (p_picker p) (msgAppV2Writer p) (p_writer p) (p_pipeline p)
    (snap_stopped p) (msgAppV2Reader p) (msgAppReader p) (p_inbox p) (p_paused p) (p_stopped p)
    (p_fx p ++ fx).

Definition set_status (st : peerStatus) (p : peer) : peer :=
  MkPeer (p_id p) st (p_picker p) (msgAppV2Writer p) (p_writer p) (p_pipeline p)
    (snap_stopped p) (msgAppV2Reader p) (msgAppReader p) (p_inbox p) (p_paused p) (p_stopped p)
    (p_fx p).

Definition set_picker (k : urlPicker) (p : peer) : peer :=
  MkPeer (p_id p) (p_status p) k (msgAppV2Writer p) (p_writer p) (p_pipeline p)
    (snap_stopped p) (msgAppV2Reader p) (msgAppReader p) (p_inbox p) (p_paused p) (p_stopped p)
    (p_fx p).

(** The writer, and the reader, of a type. *)
Definition writer_of (t : streamType) (p : peer) : streamWriter :=
  match t with streamTypeMsgAppV2 => msgAppV2Writer p | streamTypeMessage => p_writer p end.

Definition set_writer (t : streamType) (cw : streamWriter) (p : peer) : peer :=
  let '(w2, w) := match t with
                  | streamTypeMsgAppV2 => (cw, p_writer p)
                  | streamTypeMessage => (msgAppV2Writer p, cw)
                  end in
  MkPeer (p_id p) (p_status p) (p_picker p) w2 w (p_pipeline p) (snap_stopped p)
    (msgAppV2Reader p) (msgAppReader p) (p_inbox p) (p_paused p) (p_stopped p) (p_fx p).

Definition reader_of (t : streamType) (p : peer) : streamReader :=
  match t with streamTypeMsgAppV2 => msgAppV2Reader p | streamTypeMessage => msgAppReader p end.

Definition set_reader (t : streamType) (cr : streamReader) (p : peer) : peer :=
  let '(r2, r) := match t with
                  | streamTypeMsgAppV2 => (cr, msgAppReader p)
                  | streamTypeMessage => (msgAppV2Reader p, cr)
                  end in
  MkPeer (p_id p) (p_status p) (p_picker p) (msgAppV2Writer p) (p_writer p) (p_pipeline p)
    (snap_stopped p) r2 r (p_inbox p) (p_paused p) (p_stopped p) (p_fx p).

Definition set_pipeline (pl : pipeline) (p : peer) : peer :=
  MkPeer (p_id p) (p_status p) (p_picker p) (msgAppV2Writer p) (p_writer p) pl
    (snap_stopped p) (msgAppV2Reader p) (msgAppReader p) (p_inbox p) (p_paused p) (p_stopped p)
    (p_fx p).

Definition set_inbox (b : inbox) (p : peer) : peer :=
  MkPeer (p_id p) (p_status p) (p_picker p) (msgAppV2Writer p) (p_writer p) (p_pipeline p)
    (snap_stopped p) (msgAppV2Reader p) (msgAppReader p) b (p_paused p) (p_stopped p) (p_fx p).

Definition set_paused (b : bool) (p : peer) : peer :=
  MkPeer (p_id p) (p_status p) (p_picker p) (msgAppV2Writer p) (p_writer p) (p_pipeline p)
    (snap_stopped p) (set_sr_paused b (msgAppV2Reader p)) (set_sr_paused b (msgAppReader p))
    (p_inbox p) b (p_stopped p) (p_fx p).

(** [pick]: snapshots always go through the pipeline. *)
Definition pick_chan (p : peer) (m : raftpb.Message) : slot :=
  if isMsgSnap m then SlotPipeline
  else
    let '(n, ok) := writec (msgAppV2Writer p) in
    if ok && isMsgApp m then SlotV2 n
    else
      let '(n, ok) := writec (p_writer p) in
      if ok then SlotMessage n else SlotPipeline.

(** The send into the picked channel; [None] when it is full. *)
Definition put_slot (p : peer) (s : slot) (m : raftpb.Message) : option peer :=
  match s with
  | SlotV2 n =>
      (fun cw => set_writer streamTypeMsgAppV2 cw p) <$> send_to (msgAppV2Writer p) n m
  | SlotMessage n =>
      (fun cw => set_writer streamTypeMessage cw p) <$> send_to (p_writer p) n m
  | SlotPipeline =>
      let pl := p_pipeline p in
      (fun c => set_pipeline (MkPipeline c (inflight pl) (handlers pl) (pl_stopped pl)) p)
        <$> try_send pipelineBufSize (pl_msgc pl) m
  end.

Definition put (p : peer) (s : slot) (m : raftpb.Message) : peer :=
  match put_slot p s m with
  | Some p => p
  | None => add_fx (dropped m) p
  end.

Definition send (p : peer) (m : raftpb.Message) : peer :=
  if p_paused p then p else put p (pick_chan p m) m.

Definition p_update (p : peer) (us : list URL) : peer := set_picker (update (p_picker p) us) p.

(** The answer says whether the connection was taken; the caller's is closed
    when it was not. *)
Definition attachOutgoingConn (now : Z) (conn : outgoingConn) (p : peer) : peer * bool :=
  let '(st, cw, fx, ok) := attach now conn (p_status p) (writer_of (c_t conn) p) in
  (add_fx fx (set_writer (c_t conn) cw (set_status st p)), ok).

Definition Pause (p : peer) : peer := set_paused true p.
Definition Resume (p : peer) : peer := set_paused false p.

Definition stop (p : peer) : outcome peer :=
  if p_stopped p then Panic "close of closed channel"
  else
    let '(w2, fx2) := on_stop (msgAppV2Writer p) in
    let '(w, fx) := on_stop (p_writer p) in
    pl ← pl_stop (p_pipeline p);
    Ret (MkPeer (p_id p) (p_status p) (p_picker p) w2 w pl true
           (sr_stop (msgAppV2Reader p)) (sr_stop (msgAppReader p)) (p_inbox p) (p_paused p) true
           (p_fx p ++ fx2 ++ fx)).

(** ** The goroutines of a peer *)

(** What the transport tells its peers about itself. *)
Record local_info := MkLocal {
  l_ID : Z;
  l_ClusterID : Z;
  l_URLs : option (list URL)
}.

(** A round of a stream writer. *)
Definition writer_round (t : streamType)
    (f : peerStatus -> streamWriter -> outcome (peerStatus * streamWriter * list effect))
    (p : peer) : outcome peer :=
  if sw_done (writer_of t p) then Ret p
  else
    '(st, cw, fx) ← f (p_status p) (writer_of t p);
    Ret (add_fx fx (set_writer t cw (set_status st p))).

Definition pipeline_take (l : local_info) (p : peer) : outcome (peer * option request) :=
  '(pl, req) ← h_take (l_ID l) (l_ClusterID l) (l_URLs l) (p_picker p) (p_pipeline p);
  Ret (set_pipeline pl p, req).

Definition pipeline_done (listening : bool) (now : Z) (i : nat) (rt : result response) (p : peer)
    : outcome peer :=
  '(st, k, pl, fx) ← h_done listening now i rt (p_status p) (p_picker p) (p_pipeline p);
  Ret (add_fx fx (set_pipeline pl (set_picker k (set_status st p)))).

(** [dial], unless the reader reads already or has ended. *)
Definition reader_dial (l : local_info) (rt : request -> result (response * codec.reader))
    (listening : bool) (now : Z) (t : streamType) (p : peer) : outcome peer :=
  if sr_done (reader_of t p) || bool_decide (is_Some (closer (reader_of t p))) then Ret p
  else
  '(st, cr, k, fx) ← on_dial rt listening now (l_ID l) (l_ClusterID l) (p_id p) (l_URLs l)
                       (p_status p) (reader_of t p) (p_picker p);
  Ret (add_fx fx (set_reader t cr (set_picker k (set_status st p)))).

(** A round of [decodeLoop], and of [run] when it ends. *)
Definition reader_round (t : streamType) (p : peer) : outcome peer :=
  '(cr, b, err) ← decode_round (reader_of t p) (p_inbox p);
  let p := set_inbox b (set_reader t cr p) in
  Ret (match err with
       | None => p
       | Some e => set_reader t (after_wait cr) (set_status (after_decode e (p_status p)) p)
       end).

(** The two goroutines that hand received messages to raft. *)
Definition process_recv (p : peer) : peer :=
  if p_stopped p then p
  else match recvc (p_inbox p) with
       | m :: c => add_fx [Process m] (set_inbox (MkInbox c (propc (p_inbox p))) p)
       | [] => p
       end.

Definition process_prop (p : peer) : peer :=
  if p_stopped p then p
  else match propc (p_inbox p) with
       | m :: c => add_fx [Process m] (set_inbox (MkInbox (recvc (p_inbox p)) c) p)
       | [] => p
       end.

(** ** snap/message.go and pkg/ioutil/readcloser.go *)

Definition ErrShortRead : error := OtherError "ioutil: short read".
Definition ErrExpectEOF : error := OtherError "ioutil: expect EOF".

(** Reading an [exactReadCloser] to its end: the underlying reader gives the
    chunks, then [EOF]. *)
Fixpoint exact_read (br total : Z) (chunks : list bytes) : bytes * error :=
  match chunks with
  | [] => ([], if total <? br then ErrExpectEOF else if br <? total then ErrShortRead else EOF)
  | c :: cs =>
      let br := br + Z.of_nat (length c) in
      if total <? br then ([], ErrExpectEOF)
      else if (br <? total) && (length c =? 0)%nat then ([], ErrShortRead)
      else let '(b, e) := exact_read br total cs in (c ++ b, e)
  end.

(** A snapshot message: the chunks its reader will give, the size announced,
    and what was sent to [closeC]. *)
Record snap_Message := MkSnapMessage {
  sm_Message : raftpb.Message;
  sm_chunks : list bytes;
  sm_rcSize : Z;
  closeC : list bool
}.

Definition NewMessage (rs : raftpb.Message) (chunks : list bytes) (rcSize : Z) : snap_Message :=
  MkSnapMessage rs chunks rcSize [].

(** [closeC] has a buffer of one. *)
Definition CloseWithError (cerr err : option error) (m : snap_Message) : outcome snap_Message :=
  let err := match cerr with Some e => Some e | None => err end in
  match closeC m with
  | [] => Ret (MkSnapMessage (sm_Message m) (sm_chunks m) (sm_rcSize m)
                 [match err with None => true | Some _ => false end])
  | _ => Hang
  end.

(** ** snapshot_sender.go *)

Definition errStopped : error := OtherError "stopped".

(** The message of a merged snapshot, then the snapshot. *)
Definition createSnapBody (merged : snap_Message) : outcome codec.reader :=
  '(buf, _) ← codec.m_encode (sm_Message merged) (codec.Writer [] 0 None);
  let '(b, e) := exact_read 0 (sm_rcSize merged) (sm_chunks merged) in
  Ret (codec.Reader (codec.w_out buf ++ b) e).

(** [post]: stopped before the answer, or the answer. *)
Definition snap_post (stopped : bool) (rt : request -> result response) (req : request)
    : option error :=
  if stopped then Some errStopped
  else match rt req with
       | inl e => Some e
       | inr resp => checkPostResponse resp
       end.

(** [cerr] is what closing the reader of the snapshot answers. *)
Definition snap_send (l : local_info) (listening : bool) (now : Z)
    (rt : request -> result response) (cerr : option error) (merged : snap_Message) (p : peer)
    : outcome (peer * snap_Message) :=
  let m := sm_Message merged in
  body ← createSnapBody merged;
  u ← pick (p_picker p);
  req ← createPostRequest u RaftSnapshotPrefix body "application/octet-stream" (l_URLs l)
          (l_ID l) (l_ClusterID l);
  let err := snap_post (snap_stopped p) rt req in
  merged ← CloseWithError cerr err merged;
  match err with
  | Some e =>
      let fx := if decide (e = errMemberRemoved)
                then map ErrorC (reportCriticalError listening e) else [] in
      k ← unreachable (p_picker p) u;
      Ret (add_fx (fx ++ [ReportUnreachable (raftpb.m_To m); ReportSnapshot (raftpb.m_To m) false])
             (set_status (deactivate (p_status p)) (set_picker k p)), merged)
  | None =>
      Ret (add_fx [ReportSnapshot (raftpb.m_To m) true]
             (set_status (activate now (p_status p)) p), merged)
  end.

End Peer.

(** ** Stopping *)

Section Running.
Context `{UrlLib}.

(** Not stopped: stopping it does not panic. *)
Definition running (p : peer) : Prop :=
  p_stopped p = false /\ pl_stopped (p_pipeline p) = false.

Definition g_running (g : remote) : Prop := pl_stopped (g_pipeline g) = false.

Lemma stop_running p : running p -> exists p', stop p = Ret p'.
Proof.
  intros [H1 H2]. unfold stop, pl_stop. rewrite H1, H2.
  destruct (on_stop (msgAppV2Writer p)), (on_stop (p_writer p)). rewrite ret_bind. eauto.
Qed.

Lemma g_stop_running g : g_running g -> exists g', g_stop g = Ret g'.
Proof. unfold g_running, g_stop, pl_stop. intros ->. rewrite ret_bind. eauto. Qed.

Lemma send_running p m : running p -> running (send p m).
Proof.
  intros Hp. unfold send, put. destruct (p_paused p); [done|].
  destruct (put_slot p (pick_chan p m) m) as [q|] eqn:E; [|done].
  unfold put_slot in E. destruct (pick_chan p m);
    apply fmap_Some in E as (x & _ & ->); exact Hp.
Qed.

Lemma g_send_running g m : g_running g -> g_running (g_send g m).
Proof. unfold g_running, g_send. by destruct (try_send _ _ m). Qed.

End Running.

(** ** A peer without streams *)

Section Fresh.
Context `{UrlLib}.

(** No stream is connected, and the queue is within its bound. *)
Definition unconnected (p : peer) : Prop :=
  p_paused p = false /\ working (msgAppV2Writer p) = false /\ working (p_writer p) = false /\
  Z.of_nat (length (pl_msgc (p_pipeline p))) <= pipelineBufSize.

Lemma send_unconnected p m : unconnected p -> unconnected (send p m) /\
  pl_msgc (p_pipeline (send p m)) = take 64 (pl_msgc (p_pipeline p) ++ [m]) /\
  p_fx (send p m) = p_fx p ++ (drop (64 - length (pl_msgc (p_pipeline p))) [m] ≫= dropped).
Proof.
  intros (Hp & H2 & H1 & Hl). unfold send. rewrite Hp.
  assert (pick_chan p m = SlotPipeline) as ->.
  { unfold pick_chan, writec. destruct (isMsgSnap m); [done|]. by rewrite H2, H1. }
  unfold put, put_slot, try_send, pipelineBufSize in *.
  destruct (Z.ltb_spec (Z.of_nat (length (pl_msgc (p_pipeline p)))) 64) as [Hs|Hs]; cbn.
  - rewrite drop_ge, app_nil_r by (simpl; lia). split.
    + repeat (split; [done|]). cbn. rewrite length_app. simpl. unfold pipelineBufSize. lia.
    + rewrite take_ge; [done|]. rewrite length_app. simpl. lia.
  - assert (length (pl_msgc (p_pipeline p)) = 64%nat) as E by lia. rewrite E.
    split; [by repeat (split; [done|])|]. split.
    + by rewrite take_app_le, take_ge by lia.
    + rewrite Nat.sub_diag, drop_0, bind_cons. cbn [mbind list_bind].
      by rewrite app_nil_r.
Qed.

Lemma sends_unconnected ms p : unconnected p ->
  let p' := fold_left send ms p in
  pl_msgc (p_pipeline p') = take 64 (pl_msgc (p_pipeline p) ++ ms) /\
  p_fx p' = p_fx p ++ (drop (64 - length (pl_msgc (p_pipeline p))) ms ≫= dropped).
Proof.
  revert p. induction ms as [|m ms IH]; intros p Hp; cbv zeta.
  { simpl. rewrite drop_nil, !app_nil_r. split; [|done]. symmetry. apply take_ge.
    destruct Hp as (_ & _ & _ & Hl). unfold pipelineBufSize in Hl. lia. }
  destruct (send_unconnected p m Hp) as (Hu & Em & Ef). cbn [fold_left].
  destruct (IH _ Hu) as [-> ->]. rewrite Em, Ef. clear Em Ef IH Hu.
  destruct Hp as (_ & _ & _ & Hl). unfold pipelineBufSize in Hl.
  set (q := pl_msgc (p_pipeline p)) in *. rewrite length_take, length_app. cbn [length].
  destruct (decide (length q < 64)%nat) as [Hq|Hq].
  - rewrite (take_ge (q ++ [m])), <- app_assoc by (rewrite length_app; simpl; lia).
    split; [done|]. rewrite drop_ge, app_nil_r by (simpl; lia).
    replace (64 - length q)%nat with (S (63 - length q)) by lia. cbn [drop].
    do 3 f_equal. lia.
  - assert (take 64 (q ++ [m]) = q) as -> by (rewrite take_app_le, take_ge by lia; done).
    rewrite !take_app_le by lia. split; [done|].
    replace (64 - length q)%nat with O by lia.
    replace (64 - 64 `min` (length q + 1))%nat with O by lia. cbn [drop].
    rewrite !bind_cons, <- app_assoc. cbn [mbind list_bind]. by rewrite app_nil_r.
Qed.

End Fresh.
End peer.
