(* ===== verification/Link.v ===== *)
(** * The link between two peers

    The two ends of a stream together: what one peer sends, the other hands to
    raft.  The writer and the reader run on their own; the reader gets any
    first part of what the writer put on the connection, and then the error
    that ended it, so that a connection may break at any point. *)

From S2P Require Import Prelude Errors Utils RaftApi WalRecord MemRaftCodec Urls MsgCodec RaftUtil.
From S2P Require Import Stream Peer.

Module Link.
Import stream.

Section Link.
Context `{RaftCodecLaws} `{MessageCodecLaws}.
Context (lo re : Z) (t : streamType) (e : error).
Implicit Types (m : raftpb.Message) (ms : list raftpb.Message) (cw : streamWriter).

(** ** The writer on one connection *)

Inductive writer_event : Type :=
  | WSend (m : raftpb.Message)
  | WMessage
  | WHeartbeat.

(** A message is sent as [peer.send] does while the writer works. *)
Definition writer_step (s : peerStatus * streamWriter) (ev : writer_event)
    : outcome (peerStatus * streamWriter * list effect) :=
  let '(st, cw) := s in
  match ev with
  | WSend m =>
      if working cw then
        match send_to cw (fst (writec cw)) m with
        | Some cw => Ret (st, cw, [])
        | None => Ret (st, cw, [ReportUnreachable (raftpb.m_To m)])
        end
      else Ret (st, cw, [])
  | WMessage => on_message st cw
  | WHeartbeat => on_heartbeat st cw
  end.

Definition sent (evs : list writer_event) : list raftpb.Message :=
  omap (fun ev => match ev with WSend m => Some m | _ => None end) evs.

Definition heartbeat m : Prop := codec.isLinkHeartbeatMessage m = true.

Definition wire_of (t : streamType) : codec.wire :=
  match t with streamTypeMsgAppV2 => codec.V2Wire (0, 0) | streamTypeMessage => codec.MessageWire end.

(** The bytes that the writer has put on its connection. *)
Definition on_wire cw : bytes :=
  match enc cw with Some x => codec.w_out (codec.enc_out x) | None => [] end.

Lemma new_encoder_wire w : new_encoder (MkConn t w) = codec.mk_enc (wire_of t) w.
Proof. by destruct t. Qed.

Lemma new_decoder_wire r : new_decoder t lo re r = codec.mk_dec lo re (wire_of t) r.
Proof. by destruct t. Qed.

Lemma flush_mk_enc c w : flush_enc (codec.mk_enc c w) = codec.mk_enc c (codec.Flush w).
Proof. by destruct c. Qed.

Lemma enc_out_mk c w : codec.enc_out (codec.mk_enc c w) = w.
Proof. by destruct c. Qed.

(** Messages that the stream is for; raft sends no link heartbeats. *)
Definition sendable m : Prop := codec.carries lo re (wire_of t) m /\ ~ heartbeat m.

Definition payload ms : list raftpb.Message := filter (fun m => ~ heartbeat m) ms.

(** [ms] are the messages written so far, [acc] those accepted: while the
    writer works, what was written and what waits is what was accepted. *)
Definition writing (cw : streamWriter) (ms acc : list raftpb.Message) : Prop :=
  Forall (codec.carries lo re (wire_of t)) ms /\ Forall sendable acc /\
  payload ms `prefix_of` acc /\
  (exists n, on_wire cw = take n (codec.frames (wire_of t) ms)) /\
  (working cw = true -> acc = payload ms ++ msgc cw /\
     exists w, enc cw = Some (codec.mk_enc (codec.nexts (wire_of t) ms) w) /\
       codec.w_out w = codec.frames (wire_of t) ms).

Lemma stream_payload_app a b : payload (a ++ b) = payload a ++ payload b.
Proof. apply filter_app. Qed.

Lemma payload_sendable m : ~ heartbeat m -> payload [m] = [m].
Proof. intros Hm. unfold payload. by rewrite filter_cons_True, filter_nil. Qed.

(** A message [x] is written by a writer that works: [rest] waits then. *)
Lemma writing_step cw ms acc x w :
  writing cw ms acc -> codec.w_out w = codec.frames (wire_of t) ms ->
  codec.carries lo re (wire_of t) x -> payload (ms ++ [x]) `prefix_of` acc ->
  exists e r, codec.encode x (codec.mk_enc (codec.nexts (wire_of t) ms) w) = Ret (e, r) /\
    (r = inr tt /\ (forall cw', enc cw' = Some e \/ enc cw' = Some (flush_enc e) ->
        acc = payload (ms ++ [x]) ++ msgc cw' -> writing cw' (ms ++ [x]) acc) \/
     (exists err, r = inl err) /\ (forall cw', enc cw' = Some e -> working cw' = false ->
        writing cw' (ms ++ [x]) acc)).
Proof.
  intros (Hc & Ha & _) Hw Hx Hp.
  assert (Forall (codec.carries lo re (wire_of t)) (ms ++ [x])) as Hc'.
  { by apply Forall_app; split; [|constructor]. }
  destruct (codec.encode_one (wire_of t) ms x w Hw) as (e0 & r & E & [(-> & w' & -> & Hw')|(-> & n & Hn)]).
  - eexists _, _. split; [exact E|]. left. split; [done|]. intros cw' He Hm.
    assert (exists w'', enc cw' = Some (codec.mk_enc (codec.nexts (wire_of t) (ms ++ [x])) w'') /\
      codec.w_out w'' = codec.frames (wire_of t) (ms ++ [x])) as (w'' & Ew & Ho).
    { rewrite flush_mk_enc in He. destruct He as [-> | ->]; eauto. }
    split; [done|]. split; [done|]. split; [done|]. split.
    + exists (length (codec.frames (wire_of t) (ms ++ [x]))). unfold on_wire.
      by rewrite Ew, enc_out_mk, Ho, firstn_all.
    + intros _. split; [done|]. eauto.
  - eexists _, _. split; [exact E|]. right. split; [eauto|]. intros cw' He Hf.
    split; [done|]. split; [done|]. split; [done|]. split; [|congruence].
    exists n. unfold on_wire. by rewrite He.
Qed.

Lemma writer_step_ok st cw ms acc ev : writing cw ms acc ->
  codec.carries lo re (wire_of t) codec.linkHeartbeatMessage -> Forall sendable (sent [ev]) ->
  exists st' cw' fx ms' acc', writer_step (st, cw) ev = Ret (st', cw', fx) /\
    writing cw' ms' acc' /\ (acc' = acc \/ acc' = acc ++ sent [ev]).
Proof.
  intros Hinv Hhb Hev. pose proof Hinv as (Hc & Ha & Hp & Hn & Hw).
  assert (forall (st' : peerStatus) (fx : list effect), exists st'' cw' fx' ms' acc', Ret (st', cw, fx) = Ret (st'', cw', fx') /\
    writing cw' ms' acc' /\ (acc' = acc \/ acc' = acc ++ sent [ev])) as Hsame.
  { intros st' fx. exists st', cw, fx, ms, acc. auto. }
  destruct ev as [m| |]; cbn [writer_step].
  - destruct (working cw) eqn:Ew; [|apply Hsame]. unfold send_to, writec. cbn [fst].
    rewrite lookup_ge_None_2 by lia. unfold try_send.
    destruct (Z.of_nat (length (msgc cw)) <? streamBufSize); [|apply Hsame]. cbn.
    exists st, (with_msgc cw (msgc cw ++ [m])), [], ms, (acc ++ [m]).
    destruct (Hw eq_refl) as (Hacc & w & He & Ho). split; [done|]. split; [|by right].
    split; [done|]. split; [by apply Forall_app|]. split; [by apply prefix_app_r|].
    split; [done|]. intros _. split; [|by exists w]. cbn [msgc with_msgc].
    by rewrite Hacc, app_assoc.
  - unfold on_message. destruct (working cw) eqn:Ew; [|apply Hsame].
    destruct (Hw eq_refl) as (Hacc & w & He & Ho). rewrite He.
    destruct (msgc cw) as [|m rest] eqn:Em; [apply Hsame|]. rewrite Hacc in Ha.
    apply Forall_app in Ha as [_ [[Hm Hh] _]%Forall_cons].
    assert (payload (ms ++ [m]) = payload ms ++ [m]) as Epl
      by (by rewrite stream_payload_app, payload_sendable).
    destruct (writing_step cw ms acc m w Hinv Ho Hm) as (x & r & E & Hr).
    { rewrite Epl, Hacc. exists rest. by rewrite <- app_assoc. }
    rewrite E, ret_bind. destruct Hr as [[-> Hr]|[[err ->] Hr]].
    + eexists st, _, [Wrote m], (ms ++ [m]), acc. split; [reflexivity|]. split; [|by left].
      assert (acc = payload (ms ++ [m]) ++ rest) as Eacc.
      { rewrite Epl, <- app_assoc. exact Hacc. }
      apply Hr; destruct rest; try (destruct (_ <? _)); cbn; auto.
    + unfold closeUnlocked. cbn [working with_enc with_msgc]. rewrite Ew.
      eexists _, _, _, (ms ++ [m]), acc. split; [reflexivity|]. split; [|by left]. by apply Hr.
  - unfold on_heartbeat. destruct (working cw) eqn:Ew; [|apply Hsame].
    destruct (Hw eq_refl) as (Hacc & w & He & Ho). rewrite He.
    assert (payload (ms ++ [codec.linkHeartbeatMessage]) = payload ms) as Epl
      by (rewrite stream_payload_app; apply app_nil_r).
    destruct (writing_step cw ms acc codec.linkHeartbeatMessage w Hinv Ho Hhb) as (x & r & E & Hr);
      [by rewrite Epl|].
    rewrite E, ret_bind. destruct Hr as [[-> Hr]|[[err ->] Hr]].
    + eexists st, _, [], (ms ++ [_]), acc. split; [reflexivity|]. split; [|by left].
      apply Hr; [by right|]. by rewrite Epl.
    + unfold closeUnlocked. cbn [working with_enc]. rewrite Ew.
      eexists _, _, _, (ms ++ [_]), acc. split; [reflexivity|]. split; [|by left]. by apply Hr.
Qed.

Lemma writer_run_ok evs st cw ms acc : writing cw ms acc ->
  codec.carries lo re (wire_of t) codec.linkHeartbeatMessage -> Forall sendable (sent evs) ->
  exists st' cw' fxs ms' acc', run writer_step (st, cw) evs = Ret (st', cw', fxs) /\
    writing cw' ms' (acc ++ acc') /\ sublist acc' (sent evs).
Proof.
  intros Hw Hhb. revert st cw ms acc Hw. induction evs as [|ev evs IH]; intros st cw ms acc Hw Hs.
  { exists st, cw, [], ms, []. rewrite app_nil_r. split; [done|]. split; [done|constructor]. }
  assert (sent (ev :: evs) = sent [ev] ++ sent evs) as Es by (by destruct ev).
  rewrite Es in Hs |- *. apply Forall_app in Hs as [H1 H2].
  destruct (writer_step_ok st cw ms acc ev Hw Hhb H1) as (st1 & cw1 & fx & ms1 & acc1 & E & Hw1 & Ha).
  destruct (IH st1 cw1 ms1 acc1 Hw1 H2) as (st' & cw' & fxs & ms' & acc' & E' & Hw' & Hs').
  cbn [run]. rewrite E, ret_bind, E', ret_bind.
  destruct Ha as [-> | ->].
  - exists st', cw', (fx :: fxs), ms', acc'. split; [done|]. split; [done|].
    by apply sublist_inserts_l.
  - rewrite <- app_assoc in Hw'. exists st', cw', (fx :: fxs), ms', (sent [ev] ++ acc').
    split; [done|]. split; [done|]. by apply sublist_app.
Qed.

(** A connection is given to a writer that works or has nothing queued. *)
Lemma attached_writing now st cw left : (working cw = false -> msgc cw = []) ->
  forall st' cw' fx, on_conn now (MkConn t (codec.Writer [] 0 left)) st cw = (st', cw', fx) ->
  writing cw' [] [].
Proof.
  intros Hi st' cw' fx E. unfold on_conn in E.
  assert (msgc (fst (closeUnlocked cw)) = []) as Hm.
  { unfold closeUnlocked. destruct (working cw); [done|]. by apply Hi. }
  destruct (closeUnlocked cw) as [cw1 fx1]. injection E as <- <- <-. cbn [fst] in Hm.
  split; [constructor|]. split; [constructor|]. split; [by exists []|]. split.
  - exists O. unfold on_wire. cbn [enc]. by rewrite new_encoder_wire, enc_out_mk.
  - intros _. cbn [msgc]. split; [by rewrite Hm|]. eexists. cbn [enc].
    rewrite new_encoder_wire. by split.
Qed.

(** ** The reader *)

Context `{UrlLib}.

Inductive reader_event : Type :=
  | RRound
  | RRecv
  | RProp
  | RPause (paused : bool).

Definition reader_step (p : peer.peer) (ev : reader_event) : outcome (peer.peer * unit) :=
  p ← match ev with
      | RRound => peer.reader_round t p
      | RRecv => Ret (peer.process_recv p)
      | RProp => Ret (peer.process_prop p)
      | RPause b => Ret (if b then peer.Pause p else peer.Resume p)
      end;
  Ret (p, tt).

(** What was handed to raft, among the effects of a peer. *)
Definition processed (fx : list effect) : list raftpb.Message :=
  omap (fun x => match x with Process m => Some m | _ => None end) fx.

Definition proposal m : Prop := raftpb.m_Type m = raftpb.MsgProp.
Definition proposals ms : list raftpb.Message := filter proposal ms.
Definition others ms : list raftpb.Message := filter (fun m => ~ proposal m) ms.

(** [a] was read from the connection, of which [b] may follow. *)
Definition reading_at (cl : option codec.decoder) (fx : list effect) (ib : inbox) (k : nat)
    (a b : list raftpb.Message) : Prop :=
  let c := codec.nexts (wire_of t) a in
  (cl = None \/ cl = Some (codec.mk_dec lo re c (codec.Reader (take k (codec.frames c b)) e))) /\
  Forall (codec.carries lo re (wire_of t)) b /\
  sublist (others (processed fx) ++ recvc ib) (others (payload a)) /\
  sublist (proposals (processed fx) ++ propc ib) (proposals (payload a)).

Definition reading (p : peer.peer) : nat -> list raftpb.Message -> list raftpb.Message -> Prop :=
  reading_at (closer (peer.reader_of t p)) (peer.p_fx p) (peer.p_inbox p).

Lemma processed_app a b : processed (a ++ b) = processed a ++ processed b.
Proof. apply omap_app. Qed.

Lemma filter_sublist (P : raftpb.Message -> Prop) `{!forall m, Decision (P m)} a b :
  sublist a b -> sublist (filter P a) (filter P b).
Proof.
  induction 1 as [|m a b _ IH|m a b _ IH]; [constructor| |];
    rewrite ?filter_cons; case_decide; try done; by constructor.
Qed.

Lemma others_app a b : others (a ++ b) = others a ++ others b.
Proof. apply filter_app. Qed.

Lemma proposals_app a b : proposals (a ++ b) = proposals a ++ proposals b.
Proof. apply filter_app. Qed.

(** The messages of a sublist of others are others. *)
Lemma others_head a m b l : sublist (a ++ m :: b) (others l) -> ~ proposal m.
Proof.
  intros Hs. assert (m ∈ others l) as Hm.
  { eapply elem_of_sublist; [|exact Hs]. set_solver. }
  apply list_elem_of_filter in Hm as [Hm _]. exact Hm.
Qed.

Lemma proposals_head a m b l : sublist (a ++ m :: b) (proposals l) -> proposal m.
Proof.
  intros Hs. assert (m ∈ proposals l) as Hm.
  { eapply elem_of_sublist; [|exact Hs]. set_solver. }
  apply list_elem_of_filter in Hm as [Hm _]. exact Hm.
Qed.

Lemma others_payload_snoc a m : ~ heartbeat m ->
  others (payload (a ++ [m])) = others (payload a) ++ others [m] /\
  proposals (payload (a ++ [m])) = proposals (payload a) ++ proposals [m].
Proof.
  intros Hm. rewrite stream_payload_app, (payload_sendable m Hm). by rewrite others_app, proposals_app.
Qed.

Lemma receive_ok m b x y a : ~ heartbeat m ->
  sublist (x ++ recvc b) (others (payload a)) -> sublist (y ++ propc b) (proposals (payload a)) ->
  sublist (x ++ recvc (receive m b)) (others (payload (a ++ [m]))) /\
  sublist (y ++ propc (receive m b)) (proposals (payload (a ++ [m]))).
Proof.
  intros Hm Hx Hy. destruct (others_payload_snoc a m Hm) as [-> ->]. unfold receive, try_send.
  destruct (decide (raftpb.m_Type m = raftpb.MsgProp)) as [Hp|Hp].
  - destruct (_ <? _); cbn [recvc propc]; (split; [by apply sublist_inserts_r|]);
      [|by apply sublist_inserts_r].
    rewrite app_assoc. unfold proposals at 2. rewrite filter_cons_True, filter_nil by done.
    by apply sublist_app.
  - destruct (_ <? _); cbn [recvc propc]; (split; [|by apply sublist_inserts_r]);
      [|by apply sublist_inserts_r].
    rewrite app_assoc. unfold others at 2. rewrite filter_cons_True, filter_nil by done.
    by apply sublist_app.
Qed.

(** A message that is read and not kept. *)
Lemma skip_ok m x y a :
  sublist x (others (payload a)) -> sublist y (proposals (payload a)) ->
  sublist x (others (payload (a ++ [m]))) /\ sublist y (proposals (payload (a ++ [m]))).
Proof.
  intros Hx Hy. rewrite stream_payload_app, others_app, proposals_app.
  split; by apply sublist_inserts_r.
Qed.

(** The peer after a round. *)
Definition round_of (cr : streamReader) (ib : inbox) (err : option error) (p : peer.peer)
    : peer.peer :=
  let p := peer.set_inbox ib (peer.set_reader t cr p) in
  match err with
  | None => p
  | Some x =>
      peer.set_reader t (after_wait cr)
        (peer.set_status (after_decode x (peer.p_status p)) p)
  end.

Lemma reading_round cr ib err p k a b :
  reading_at (closer cr) (peer.p_fx p) ib k a b -> reading (round_of cr ib err p) k a b.
Proof.
  intros Hr. unfold reading, round_of. destruct err as [x|]; [|by destruct t].
  assert (closer (after_wait cr) = closer cr) as E by (unfold after_wait; by destruct (cancelled cr)).
  rewrite <- E in Hr. by destruct t.
Qed.

Lemma reader_round_ok p k a b : reading p k a b ->
  exists p' k' a' b', peer.reader_round t p = Ret p' /\ reading p' k' a' b' /\ a ++ b = a' ++ b'.
Proof.
  intros (Hc & Hb & Hr & Hp). unfold peer.reader_round, decode_round.
  destruct Hc as [E | E]; rewrite E.
  { rewrite ret_bind. exists (round_of (peer.reader_of t p) (peer.p_inbox p) None p), k, a, b.
    split; [done|]. split; [|done]. apply reading_round. split; [by left|]. done. }
  set (c := codec.nexts (wire_of t) a) in *.
  assert (Forall (codec.carries lo re c) b) as Hb'.
  { eapply Forall_impl; [exact Hb|]. intros m. apply codec.carries_nexts. }
  destruct (codec.decode_front lo re c b k e Hb') as [(d & err & ->)|(m & b' & -> & Hk & ->)];
    rewrite !ret_bind.
  { exists (round_of (with_closer (peer.reader_of t p) None) (peer.p_inbox p) (Some err) p), k, a, b.
    split; [done|]. split; [|done]. apply reading_round. split; [by left|]. done. }
  set (d := codec.mk_dec _ _ _ _). apply Forall_cons in Hb as [_ Hb].
  set (cr := with_closer (peer.reader_of t p) (Some d)). cbv zeta. fold cr.
  assert (forall ib, sublist (others (processed (peer.p_fx p)) ++ recvc ib)
      (others (payload (a ++ [m]))) ->
    sublist (proposals (processed (peer.p_fx p)) ++ propc ib) (proposals (payload (a ++ [m]))) ->
    reading (round_of cr ib None p) (k - length (codec.frame c m))%nat (a ++ [m]) b') as Hgo.
  { intros ib X1 X2. apply reading_round. split; [right|done]. unfold cr, d.
    cbn [closer with_closer]. by rewrite codec.nexts_app. }
  destruct (sr_paused cr).
  { rewrite ret_bind. destruct (skip_ok m _ _ a Hr Hp) as [X1 X2].
    eexists _, _, (a ++ [m]), b'. split; [done|]. split; [exact (Hgo _ X1 X2)|].
    by rewrite <- app_assoc. }
  destruct (codec.isLinkHeartbeatMessage m) eqn:Eh; rewrite ret_bind.
  - destruct (skip_ok m _ _ a Hr Hp) as [X1 X2].
    eexists _, _, (a ++ [m]), b'. split; [done|]. split; [exact (Hgo _ X1 X2)|].
    by rewrite <- app_assoc.
  - destruct (receive_ok m (peer.p_inbox p) _ _ a ltac:(unfold heartbeat; congruence) Hr Hp)
      as [X1 X2].
    eexists _, _, (a ++ [m]), b'. split; [done|]. split; [exact (Hgo _ X1 X2)|].
    by rewrite <- app_assoc.
Qed.

Lemma process_recv_ok p k a b : reading p k a b -> reading (peer.process_recv p) k a b.
Proof.
  intros (Hc & Hb & Hr & Hp). unfold peer.process_recv.
  destruct (peer.p_stopped p); [done|]. destruct (recvc (peer.p_inbox p)) as [|m l] eqn:E;
    [split; [done|]; split; [done|]; by rewrite E|].
  pose proof (others_head _ _ _ _ Hr) as Hm.
  assert (closer (peer.reader_of t (peer.add_fx [Process m]
    (peer.set_inbox (MkInbox l (propc (peer.p_inbox p))) p))) = closer (peer.reader_of t p)) as Ec
    by (by destruct t).
  unfold reading. rewrite Ec. split; [done|]. split; [done|]. cbn [peer.p_fx peer.p_inbox
    peer.add_fx peer.set_inbox recvc propc]. rewrite processed_app, others_app, proposals_app.
  unfold others at 2, proposals at 2. cbn [processed omap list_omap].
  rewrite filter_cons_True, filter_cons_False, !filter_nil, app_nil_r, <- app_assoc by tauto. done.
Qed.

Lemma process_prop_ok p k a b : reading p k a b -> reading (peer.process_prop p) k a b.
Proof.
  intros (Hc & Hb & Hr & Hp). unfold peer.process_prop.
  destruct (peer.p_stopped p); [done|]. destruct (propc (peer.p_inbox p)) as [|m l] eqn:E;
    [split; [done|]; split; [done|]; by rewrite E|].
  pose proof (proposals_head _ _ _ _ Hp) as Hm.
  assert (closer (peer.reader_of t (peer.add_fx [Process m]
    (peer.set_inbox (MkInbox (recvc (peer.p_inbox p)) l) p))) = closer (peer.reader_of t p)) as Ec
    by (by destruct t).
  unfold reading. rewrite Ec. split; [done|]. split; [done|]. cbn [peer.p_fx peer.p_inbox
    peer.add_fx peer.set_inbox recvc propc]. rewrite processed_app, others_app, proposals_app.
  unfold others at 2, proposals at 2. cbn [processed omap list_omap].
  rewrite filter_cons_False, filter_cons_True, !filter_nil, app_nil_r, <- app_assoc by tauto. done.
Qed.

Lemma reader_step_ok p k a b ev : reading p k a b ->
  exists p' k' a' b', reader_step p ev = Ret (p', tt) /\ reading p' k' a' b' /\ a ++ b = a' ++ b'.
Proof.
  intros Hr. unfold reader_step. destruct ev as [| | |x].
  - destruct (reader_round_ok p k a b Hr) as (p' & k' & a' & b' & -> & Hr' & Ha).
    rewrite ret_bind. eauto 10.
  - rewrite ret_bind. eexists _, k, a, b. split; [done|]. split; [|done]. by apply process_recv_ok.
  - rewrite ret_bind. eexists _, k, a, b. split; [done|]. split; [|done]. by apply process_prop_ok.
  - rewrite ret_bind. eexists _, k, a, b. split; [done|]. split; [|done].
    assert (closer (peer.reader_of t (if x then peer.Pause p else peer.Resume p))
      = closer (peer.reader_of t p)) as Ec by (by destruct x, t).
    unfold reading. rewrite Ec. by destruct x.
Qed.

Lemma reader_run_ok evs p k a b : reading p k a b ->
  exists p' us k' a' b', run reader_step p evs = Ret (p', us) /\ reading p' k' a' b' /\
    a ++ b = a' ++ b'.
Proof.
  revert p k a b. induction evs as [|ev evs IH]; intros p k a b Hr.
  { exists p, [], k, a, b. split; [reflexivity|]. split; [exact Hr|reflexivity]. }
  destruct (reader_step_ok p k a b ev Hr) as (p1 & k1 & a1 & b1 & E & Hr1 & Ha).
  destruct (IH p1 k1 a1 b1 Hr1) as (p' & us & k' & a' & b' & E' & Hr' & Ha').
  cbn [run]. rewrite E, ret_bind, E', ret_bind. eexists _, _, k', a', b'.
  split; [done|]. split; [done|]. congruence.
Qed.

(** The peer that has dialled and reads [body]. *)
Definition dialled (us : list URL) (body : bytes) : peer.peer :=
  peer.set_reader t (with_closer (newStreamReader t)
    (Some (new_decoder t lo re (codec.Reader body e)))) (peer.startPeer us re).

Lemma dialled_reading us n k ms : Forall (codec.carries lo re (wire_of t)) ms ->
  reading (dialled us (take k (take n (codec.frames (wire_of t) ms)))) (k `min` n) [] ms.
Proof.
  intros Hms. rewrite take_take. set (p := dialled _ _).
  assert (closer (peer.reader_of t p) = Some (codec.mk_dec lo re (wire_of t) (codec.Reader
    (take (k `min` n) (codec.frames (wire_of t) ms)) e)) /\ peer.p_fx p = [] /\
    peer.p_inbox p = MkInbox [] []) as (Ec & Ef & Ei).
  { unfold p, dialled. rewrite new_decoder_wire. by destruct t. }
  unfold reading. rewrite Ec, Ef, Ei. split; [by right|]. split; [done|]. split; constructor.
Qed.


(** ** Delivery *)

(** The bytes that were flushed to the connection. *)
Definition flushed cw : nat :=
  match enc cw with Some x => codec.w_flushed (codec.enc_out x) | None => O end.

Lemma run_step {I St R} (step : St -> I -> outcome (St * R)) st x st' r l res :
  step st x = Ret (st', r) -> run step st' l = Ret res ->
  run step st (x :: l) = Ret (res.1, r :: res.2).
Proof. intros E1 E2. cbn [run]. rewrite E1, ret_bind, E2, ret_bind. by destruct res. Qed.

(** Sending fills the queue. *)
Lemma sends_queue ms st cw : working cw = true ->
  Z.of_nat (length (msgc cw) + length ms) <= streamBufSize ->
  exists fxs, run writer_step (st, cw) (map WSend ms) = Ret (st, with_msgc cw (msgc cw ++ ms), fxs) /\
    concat fxs = [].
Proof.
  revert cw. induction ms as [|m ms IH]; intros cw Hw Hl.
  { exists []. split; [|done]. cbn. rewrite app_nil_r. by destruct cw. }
  destruct (IH (with_msgc cw (msgc cw ++ [m])) Hw) as (fxs & E & Ef).
  { cbn [msgc with_msgc]. rewrite length_app. simpl in *. lia. }
  exists ([] :: fxs). split; [|done]. cbn [map].
  rewrite (run_step _ _ _ (st, with_msgc cw (msgc cw ++ [m])) [] _ _) with (2 := E).
  - cbn [fst snd msgc with_msgc]. rewrite <- app_assoc. done.
  - cbn [writer_step]. rewrite Hw. unfold send_to, writec. cbn [fst].
    rewrite lookup_ge_None_2 by lia. unfold try_send.
    destruct (Z.ltb_spec (Z.of_nat (length (msgc cw))) streamBufSize); [done|]. simpl in *. lia.
Qed.

(** The rounds of the writer empty it onto a connection that does not fail. *)
Lemma rounds_write q st cw c w : working cw = true -> msgc cw = q ->
  enc cw = Some (codec.mk_enc c w) -> codec.w_left w = None ->
  (q = [] -> codec.w_flushed w = length (codec.w_out w)) ->
  exists cw' fxs, run writer_step (st, cw) (replicate (length q) WMessage) = Ret (st, cw', fxs) /\
    msgc cw' = [] /\ concat fxs = map Wrote q /\
    on_wire cw' = codec.w_out w ++ codec.frames c q /\ flushed cw' = length (on_wire cw').
Proof.
  revert cw c w. induction q as [|m q IH]; intros cw c w Hw Hm He Hl Hf.
  { exists cw, []. split; [done|]. split; [done|]. split; [done|]. unfold on_wire, flushed.
    rewrite He, enc_out_mk. cbn [codec.frames]. rewrite app_nil_r. auto. }
  destruct (codec.encode_emits c m w) as (x & E & Ho & Hs).
  unfold codec.w_Write in E, Hs, Ho. rewrite Hl in E, Hs, Ho. cbn [fst snd] in *.
  rewrite (Hs eq_refl) in E.
  set (w1 := codec.Writer (codec.w_out w ++ codec.frame c m) (codec.w_flushed w) None) in *.
  assert (exists cw1 w2, writer_step (st, cw) WMessage = Ret (st, cw1, [Wrote m]) /\
    working cw1 = true /\ msgc cw1 = q /\ enc cw1 = Some (codec.mk_enc (codec.next c m) w2) /\
    codec.w_left w2 = None /\ codec.w_out w2 = codec.w_out w1 /\
    (q = [] -> codec.w_flushed w2 = length (codec.w_out w2))) as
    (cw1 & w2 & E1 & Hw1 & Hm1 & He1 & Hl2 & Ho2 & Hf2).
  { cbn [writer_step]. unfold on_message. rewrite Hw, He, Hm, E, ret_bind, flush_mk_enc.
    destruct q as [|m' q']; [|destruct (_ <? _)].
    - eexists _, (codec.Flush w1). split; [reflexivity|]. auto 10.
    - eexists _, (codec.Flush w1). split; [reflexivity|]. auto 10.
    - eexists _, w1. split; [reflexivity|]. do 5 (split; [done|]). done. }
  destruct (IH cw1 _ w2 Hw1 Hm1 He1 Hl2 Hf2) as (cw' & fxs & E' & Hm' & Hx & Hon & Hfl).
  exists cw', ([Wrote m] :: fxs). cbn [length replicate]. split.
  { by rewrite (run_step _ _ _ _ _ _ _ E1 E'). }
  split; [done|]. split; [cbn; by rewrite Hx|]. split; [|done].
  rewrite Hon, Ho2. cbn [codec.frames]. by rewrite app_assoc.
Qed.

(** The rounds of the reader move what is on the connection to the inbox. *)
Lemma rounds_read b p c :
  closer (peer.reader_of t p) = Some (codec.mk_dec lo re c (codec.Reader (codec.frames c b) e)) ->
  sr_paused (peer.reader_of t p) = false -> Forall (codec.carries lo re c) b ->
  Forall (fun m => ~ heartbeat m) b ->
  Z.of_nat (length (recvc (peer.p_inbox p)) + length b) <= recvBufSize ->
  Z.of_nat (length (propc (peer.p_inbox p)) + length b) <= maxPendingProposals ->
  exists p' us, run reader_step p (replicate (length b) RRound) = Ret (p', us) /\
    recvc (peer.p_inbox p') = recvc (peer.p_inbox p) ++ others b /\
    propc (peer.p_inbox p') = propc (peer.p_inbox p) ++ proposals b /\
    peer.p_fx p' = peer.p_fx p /\ peer.p_stopped p' = peer.p_stopped p.
Proof.
  revert p c. induction b as [|m b IH]; intros p c Hc Hp Hb Hh Hr Hq.
  { exists p, []. split; [done|]. by rewrite !app_nil_r. }
  apply Forall_cons in Hb as [Hm Hb]. apply Forall_cons in Hh as [Hhm Hh].
  destruct (codec.decode_consumes lo re c m Hm) as [Hd _].
  cbn [codec.frames] in Hc.
  set (d := codec.mk_dec lo re (codec.next c m) (codec.Reader (codec.frames (codec.next c m) b) e)).
  set (p1 := round_of (with_closer (peer.reader_of t p) (Some d)) (receive m (peer.p_inbox p)) None p).
  assert (reader_step p RRound = Ret (p1, tt)) as E1.
  { unfold reader_step, peer.reader_round, decode_round. rewrite Hc, Hd, ret_bind.
    cbn [sr_paused with_closer]. rewrite Hp. unfold heartbeat in Hhm.
    apply not_true_is_false in Hhm. by rewrite Hhm, !ret_bind. }
  assert (closer (peer.reader_of t p1) = Some d /\ sr_paused (peer.reader_of t p1) = false /\
    peer.p_inbox p1 = receive m (peer.p_inbox p) /\ peer.p_fx p1 = peer.p_fx p /\
    peer.p_stopped p1 = peer.p_stopped p) as (Hc1 & Hp1 & Hi1 & Hf1 & Hs1).
  { clearbody d. clear - Hp. unfold p1, round_of.
    repeat split; by destruct t. }
  assert (recvc (receive m (peer.p_inbox p)) = recvc (peer.p_inbox p) ++ others [m] /\
    propc (receive m (peer.p_inbox p)) = propc (peer.p_inbox p) ++ proposals [m]) as [Er Eq].
  { unfold receive, try_send. unfold others, proposals. rewrite !filter_cons, !filter_nil.
    unfold proposal. destruct (decide (raftpb.m_Type m = raftpb.MsgProp)) as [Ht|Ht].
    - destruct (Z.ltb_spec (Z.of_nat (length (propc (peer.p_inbox p)))) maxPendingProposals);
        [|simpl in *; lia]. rewrite decide_False, app_nil_r by tauto. done.
    - destruct (Z.ltb_spec (Z.of_nat (length (recvc (peer.p_inbox p)))) recvBufSize);
        [|simpl in *; lia]. rewrite decide_True, app_nil_r by tauto. done. }
  destruct (IH p1 (codec.next c m) Hc1 Hp1) as (p' & us & E & Hr' & Hq' & Hf' & Hs').
  - eapply Forall_impl; [exact Hb|]. intros x. apply codec.carries_next.
  - done.
  - rewrite Hi1, Er, length_app. cbn [length] in *.
    assert (length (others [m]) <= 1)%nat by apply length_filter. lia.
  - rewrite Hi1, Eq, length_app. cbn [length] in *.
    assert (length (proposals [m]) <= 1)%nat by apply length_filter. lia.
  - exists p', (tt :: us). cbn [length replicate]. split; [by rewrite (run_step _ _ _ _ _ _ _ E1 E)|].
    rewrite Hr', Hq', Hf', Hs', Hi1, Er, Eq, Hf1, Hs1, <- !app_assoc.
    by rewrite <- others_app, <- proposals_app.
Qed.

(** The goroutines of the inbox hand all of it to raft. *)
Lemma rounds_process_recv n p : peer.p_stopped p = false ->
  (length (recvc (peer.p_inbox p)) <= n)%nat ->
  exists p' us, run reader_step p (replicate n RRecv) = Ret (p', us) /\
    peer.p_fx p' = peer.p_fx p ++ map Process (recvc (peer.p_inbox p)) /\
    propc (peer.p_inbox p') = propc (peer.p_inbox p) /\ peer.p_stopped p' = false.
Proof.
  revert p. induction n as [|n IH]; intros p Hs Hl.
  { destruct (recvc (peer.p_inbox p)); [|simpl in Hl; lia]. exists p, [].
    split; [done|]. by rewrite app_nil_r. }
  destruct (IH (peer.process_recv p)) as (p' & us & E & Hf & Hq & Hs').
  { unfold peer.process_recv. rewrite Hs. by destruct (recvc (peer.p_inbox p)). }
  { unfold peer.process_recv. rewrite Hs.
    destruct (recvc (peer.p_inbox p)) as [|m l] eqn:Er; [rewrite Er; simpl; lia|].
    simpl in *. lia. }
  exists p', (tt :: us). cbn [replicate]. split.
  { assert (reader_step p RRecv = Ret (peer.process_recv p, tt)) as E1 by done.
    by rewrite (run_step _ _ _ _ _ _ _ E1 E). }
  rewrite Hf, Hq. split; [|split; [|done]]; unfold peer.process_recv; rewrite Hs;
    destruct (recvc (peer.p_inbox p)) as [|m l] eqn:Er; cbn; rewrite ?Er, <- ?app_assoc; done.
Qed.

Lemma rounds_process_prop n p : peer.p_stopped p = false ->
  (length (propc (peer.p_inbox p)) <= n)%nat ->
  exists p' us, run reader_step p (replicate n RProp) = Ret (p', us) /\
    peer.p_fx p' = peer.p_fx p ++ map Process (propc (peer.p_inbox p)).
Proof.
  revert p. induction n as [|n IH]; intros p Hs Hl.
  { destruct (propc (peer.p_inbox p)); [|simpl in Hl; lia]. exists p, [].
    split; [done|]. by rewrite app_nil_r. }
  destruct (IH (peer.process_prop p)) as (p' & us & E & Hf).
  { unfold peer.process_prop. rewrite Hs. by destruct (propc (peer.p_inbox p)). }
  { unfold peer.process_prop. rewrite Hs.
    destruct (propc (peer.p_inbox p)) as [|m l] eqn:Er; [rewrite Er; simpl; lia|].
    simpl in *. lia. }
  exists p', (tt :: us). cbn [replicate]. split.
  { assert (reader_step p RProp = Ret (peer.process_prop p, tt)) as E1 by done.
    by rewrite (run_step _ _ _ _ _ _ _ E1 E). }
  rewrite Hf. unfold peer.process_prop; rewrite Hs;
    destruct (propc (peer.p_inbox p)) as [|m l] eqn:Er; cbn; rewrite ?Er, <- ?app_assoc; done.
Qed.


End Link.

(** ** Appends from node 1 to node 2 *)

Import MemUrl.

Definition raft_appends : list raftpb.Message :=
  filter (fun m => ~ heartbeat m) codec.appends.

Lemma raft_appends_sendable : Forall (sendable 2 1 streamTypeMsgAppV2) raft_appends.
Proof.
  pose proof codec.appends_carried as Hc. rewrite Forall_forall in Hc. apply Forall_forall.
  intros m [Hm Hi]%list_elem_of_filter. split; [by apply Hc|done].
Qed.



End Link.
