(* ===== verification/PeerLog.v ===== *)
(** * What becomes of the messages given to a peer

    The sending side of a peer as a transition system: sends, the rounds of
    the two stream writers and of the pipeline, connections, pauses and the
    end.  A send picks a channel and then sends into it, and the writer may
    replace the channel in between.  The theorems account for every message:
    it waits, was written, was posted, or was dropped and reported to raft,
    except when it went into a replaced channel. *)

From S2P Require Import Prelude Errors Utils RaftApi WalRecord MemRaftCodec Urls MsgCodec RaftUtil.
From S2P Require Import Stream Peer.

Module PeerLog.
Import stream peer.

Section PeerLog.
Context `{RaftCodecLaws} `{MessageCodecLaws} `{UrlLaws} `{SemverLib}.
Implicit Types (m : raftpb.Message) (p : peer.peer) (cw : streamWriter).

(** The peer, and the send that has picked its channel. *)
Definition sstate : Type := peer.peer * option (slot * raftpb.Message).

Inductive event : Type :=
  | Pick (m : raftpb.Message)
  | Put
  | Attach (now : Z) (conn : outgoingConn)
  | Heartbeat (t : streamType)
  | Message (t : streamType)
  | Take (l : local_info)
  | Done (listening : bool) (now : Z) (i : nat) (rt : result response)
  | Exit
  | PauseTo (b : bool)
  | Update (us : list URL)
  | StopPeer.

Definition on_peer (s : sstate) (o : outcome peer.peer) : outcome (sstate * unit) :=
  p ← o; Ret ((p, snd s), tt).

(** [Pick] and [Put] are the two halves of [send]; one goroutine sends. *)
Definition step (s : sstate) (ev : event) : outcome (sstate * unit) :=
  let '(p, pend) := s in
  match ev with
  | Pick m =>
      Ret (match pend with
           | None => (p, if p_paused p then None else Some (pick_chan p m, m))
           | Some _ => s
           end, tt)
  | Put =>
      Ret (match pend with
           | Some (sl, m) => (put p sl m, None)
           | None => s
           end, tt)
  | Attach now conn => on_peer s (Ret (fst (attachOutgoingConn now conn p)))
  | Heartbeat t => on_peer s (writer_round t on_heartbeat p)
  | Message t => on_peer s (writer_round t on_message p)
  | Take l => on_peer s ('(p, _) ← pipeline_take l p; Ret p)
  | Done listening now i rt => on_peer s (pipeline_done listening now i rt p)
  | Exit => on_peer s (Ret (set_pipeline (h_exit (p_pipeline p)) p))
  | PauseTo b => on_peer s (Ret (if b then Pause p else Resume p))
  | Update us => on_peer s (Ret (p_update p us))
  | StopPeer => on_peer s (if p_stopped p then Ret p else stop p)
  end.

(** The message that an event brings. *)
Definition entered (s : sstate) (ev : event) : list raftpb.Message :=
  match ev, snd s with
  | Pick m, None => if p_paused (fst s) then [] else [m]
  | _, _ => []
  end.

(** The messages that are still to be sent. *)
Definition in_pipeline (pl : pipeline) : list raftpb.Message := pl_msgc pl ++ (inflight pl).*1.

Definition waiting (s : sstate) : list raftpb.Message :=
  match snd s with Some (_, m) => [m] | None => [] end
  ++ msgc (msgAppV2Writer (fst s)) ++ msgc (p_writer (fst s)) ++ in_pipeline (p_pipeline (fst s)).

(** What was sent, among the effects. *)
Definition went_out (fx : list effect) : list raftpb.Message :=
  omap (fun x => match x with Wrote m => Some m | Posted m => Some m | _ => None end) fx.

(** The send in progress goes into a channel that was replaced. *)
Definition stale (s : sstate) : bool :=
  match snd s with
  | Some (SlotV2 n, _) => (n <? length (replaced (msgAppV2Writer (fst s))))%nat
  | Some (SlotMessage n, _) => (n <? length (replaced (p_writer (fst s))))%nat
  | _ => false
  end.

(** From [s] to [s'] every message is accounted for: those that are lost are
    reported in the effects [fx] of the step. *)
Definition accounted (s s' : sstate) (new : list raftpb.Message) (fx : list effect)
    (silent : list raftpb.Message) : Prop :=
  exists lost, new ++ waiting s ≡ₚ waiting s' ++ went_out fx ++ lost ++ silent /\
    Forall (fun m => ReportUnreachable (raftpb.m_To m) ∈ fx) lost.

(** ** A peer in service *)

(** The URLs are parsed ones, the writers report the peer, and the messages
    are for it. *)
Definition parsed (us : list URL) : Prop :=
  us <> [] /\ Forall (fun u => exists x, url_Parse x = inr u) us.

Definition serving (s : sstate) : Prop :=
  let p := fst s in
  picker_ok (p_picker p) /\ parsed (p_urls (p_picker p)) /\
  sw_peerID (msgAppV2Writer p) = p_id p /\ sw_peerID (p_writer p) = p_id p /\
  Forall (fun m => raftpb.m_To m = p_id p) (waiting s) /\
  (p_stopped p = false -> pl_stopped (p_pipeline p) = false).

(** The events that keep it so, for the peer [id]. *)
Definition proper (id : Z) (ev : event) : Prop :=
  match ev with
  | Pick m => raftpb.m_To m = id
  | Update us => parsed us
  | _ => True
  end.

(** ** Counting messages *)

Definition cnt (l : list raftpb.Message) m : nat := count_occ (fun a b => decide (a = b)) l m.

Lemma cnt_app a b m : cnt (a ++ b) m = (cnt a m + cnt b m)%nat.
Proof. apply count_occ_app. Qed.

Lemma cnt_cons x a m : cnt (x :: a) m = (cnt [x] m + cnt a m)%nat.
Proof. apply (cnt_app [x] a). Qed.

Lemma cnt_nil m : cnt [] m = O.
Proof. done. Qed.

Lemma perm_cnt a b : a ≡ₚ b <-> forall m, cnt a m = cnt b m.
Proof. apply Permutation_count_occ. Qed.

Ltac use_counts x :=
  repeat match goal with
         | Hp : _ ≡ₚ _ |- _ => apply (fun P => proj1 (perm_cnt _ _) P x) in Hp
         end.

Ltac split_counts x :=
  repeat first
    [ rewrite cnt_app in * | rewrite cnt_nil in *
    | match goal with
      | |- context [cnt (?a :: ?l) x] =>
          lazymatch l with [] => fail | _ => rewrite (cnt_cons a l x) end
      | Hc : context [cnt (?a :: ?l) x] |- _ =>
          lazymatch l with [] => fail | _ => rewrite (cnt_cons a l x) in Hc end
      end ].

Ltac perm :=
  let x := fresh "x" in apply perm_cnt; intros x; use_counts x; split_counts x; lia.

Lemma went_out_app a b : went_out (a ++ b) = went_out a ++ went_out b.
Proof. apply omap_app. Qed.

(** ** The stream writers *)

(** From [cw] to [cw'], with the effects [fx]. *)
Definition writer_acc (cw cw' : streamWriter) (fx : list effect) : Prop :=
  sw_peerID cw' = sw_peerID cw /\
  exists lost, msgc cw ≡ₚ msgc cw' ++ went_out fx ++ lost /\
    Forall (fun m => raftpb.m_To m = sw_peerID cw -> ReportUnreachable (raftpb.m_To m) ∈ fx) lost.

Lemma close_acc cw : writer_acc cw (fst (closeUnlocked cw)) (snd (closeUnlocked cw)).
Proof.
  unfold closeUnlocked. destruct (working cw); cbn [fst snd].
  - split; [done|]. exists (msgc cw). cbn [msgc]. split; [by destruct (msgc cw)|].
    apply Forall_forall. intros m Hm Ht. rewrite Ht.
    destruct (msgc cw); [by apply elem_of_nil in Hm|]. set_solver.
  - split; [done|]. exists []. cbn. by rewrite app_nil_r.
Qed.

Lemma on_conn_acc now conn st cw : let '(_, cw', fx) := on_conn now conn st cw in
  writer_acc cw cw' fx.
Proof.
  unfold on_conn. pose proof (close_acc cw) as Hc.
  destruct (closeUnlocked cw) as [cw' fx]. exact Hc.
Qed.

Lemma on_stop_acc cw : writer_acc cw (fst (on_stop cw)) (snd (on_stop cw)).
Proof.
  unfold on_stop. pose proof (close_acc cw) as Hc.
  destruct (closeUnlocked cw) as [cw' fx]. exact Hc.
Qed.

Lemma same_acc cw cw' : sw_peerID cw' = sw_peerID cw -> msgc cw' = msgc cw -> writer_acc cw cw' [].
Proof. intros Hi Hm. split; [done|]. exists []. rewrite Hm. by rewrite !app_nil_r. Qed.

Lemma on_heartbeat_acc st cw : exists st' cw' fx, on_heartbeat st cw = Ret (st', cw', fx) /\
  writer_acc cw cw' fx.
Proof.
  unfold on_heartbeat. destruct (working cw), (enc cw) as [x|];
    try (eexists _, _, _; split; [done|]; by apply same_acc).
  destruct (codec.encode_total codec.linkHeartbeatMessage x) as (y & r & ->). rewrite ret_bind.
  destruct r as [err|[]].
  - pose proof (close_acc (with_enc cw y (batched cw))) as Hc.
    destruct (closeUnlocked (with_enc cw y (batched cw))) as [cw' fx].
    eexists _, _, _. split; [done|]. exact Hc.
  - eexists _, _, _. split; [done|]. by apply same_acc.
Qed.

Lemma on_message_acc st cw : exists st' cw' fx, on_message st cw = Ret (st', cw', fx) /\
  writer_acc cw cw' fx.
Proof.
  unfold on_message. destruct (working cw), (enc cw) as [x|], (msgc cw) as [|m rest] eqn:Em;
    try (eexists _, _, _; split; [done|]; by apply same_acc).
  destruct (codec.encode_total m x) as (y & r & ->). rewrite ret_bind. destruct r as [err|[]].
  - pose proof (close_acc (with_enc (with_msgc cw rest) y (batched (with_msgc cw rest)))) as Hc.
    destruct (closeUnlocked _) as [cw' fx]. destruct Hc as (Hi & lost & Hp & Hl).
    eexists _, _, _. split; [done|]. split; [done|]. exists (m :: lost).
    cbn [fst snd msgc with_enc with_msgc sw_peerID] in *. rewrite Em, went_out_app. split; [perm|].
    constructor; [intros _; apply elem_of_app; right; by left|].
    eapply Forall_impl; [exact Hl|]. intros m' Hm' Ht. apply elem_of_app. left. by apply Hm'.
  - eexists _, _, _. split; [done|]. split; [by destruct rest; try destruct (_ <? _)|].
    exists []. rewrite Em, app_nil_r. split; [|done].
    assert (forall c : streamWriter, msgc c = rest -> m :: rest ≡ₚ msgc c ++ went_out [Wrote m])
      as Hr by (intros c ->; cbn; perm).
    apply Hr. by destruct rest; try destruct (_ <? _).
Qed.

(** ** A step of the peer *)

(** Everything of [serving] but the addresses, which the account gives. *)
Definition sound (p : peer.peer) : Prop :=
  picker_ok (p_picker p) /\ parsed (p_urls (p_picker p)) /\
  sw_peerID (msgAppV2Writer p) = p_id p /\ sw_peerID (p_writer p) = p_id p /\
  (p_stopped p = false -> pl_stopped (p_pipeline p) = false).

Lemma serving_sound s : serving s <->
  sound (fst s) /\ Forall (fun m => raftpb.m_To m = p_id (fst s)) (waiting s).
Proof. unfold serving, sound. cbv zeta. tauto. Qed.

(** The effects that a step added. *)
Definition grown (p p' : peer.peer) (fx : list effect) : Prop :=
  p_id p' = p_id p /\ p_fx p' = p_fx p ++ fx.

Lemma accounted_addressed s s' new fx silent a : accounted s s' new fx silent ->
  Forall (fun m => raftpb.m_To m = a) (new ++ waiting s) ->
  Forall (fun m => raftpb.m_To m = a) (waiting s').
Proof. intros (lost & Hp & _) Ha. rewrite Hp in Ha. by apply Forall_app in Ha as [? _]. Qed.

(** Nothing that waits is touched. *)
Lemma untouched s s' : waiting s' ≡ₚ waiting s -> accounted s s' [] [] [].
Proof. intros Hp. exists []. split; [cbn; perm|done]. Qed.

Lemma writer_lift t st cw' fx p pend : sound p -> writer_acc (writer_of t p) cw' fx ->
  Forall (fun m => raftpb.m_To m = p_id p) (waiting (p, pend)) ->
  let p' := add_fx fx (set_writer t cw' (set_status st p)) in
  sound p' /\ grown p p' fx /\ accounted (p, pend) (p', pend) [] fx [].
Proof.
  intros (Hk & Hu & Hv & Hw & Hs) (Hi & lost & Hp & Hl) Ha. cbv zeta.
  assert (sw_peerID (writer_of t p) = p_id p) as Hid by (by destruct t).
  split; [destruct t; cbn in *; unfold sound; cbn; by rewrite ?Hi|].
  split; [by destruct t|]. exists lost. unfold waiting in *. cbn [fst snd] in *.
  split; [destruct t; cbn in *; perm|].
  rewrite !Forall_app in Ha. destruct Ha as (_ & Ha2 & Haw & _).
  assert (Forall (fun m => raftpb.m_To m = p_id p) lost) as Hlo.
  { assert (Forall (fun m => raftpb.m_To m = p_id p) (msgc (writer_of t p))) as Hall
      by (by destruct t). rewrite Hp in Hall. by apply Forall_app in Hall as [_ [_ ?]%Forall_app]. }
  apply Forall_forall. intros m Hm. rewrite Forall_forall in Hl, Hlo.
  apply Hl; [done|]. rewrite Hid. by apply Hlo.
Qed.

Lemma writer_round_ok t f p pend : sound p ->
  Forall (fun m => raftpb.m_To m = p_id p) (waiting (p, pend)) ->
  (forall st cw, exists st' cw' fx, f st cw = Ret (st', cw', fx) /\ writer_acc cw cw' fx) ->
  exists p' fx, writer_round t f p = Ret p' /\ sound p' /\ grown p p' fx /\
    accounted (p, pend) (p', pend) [] fx [].
Proof.
  intros Hs Ha Hf. unfold writer_round. destruct (sw_done (writer_of t p)).
  { exists p, []. split; [done|]. split; [done|]. split; [split; [done|]; by rewrite app_nil_r|].
    by apply untouched. }
  destruct (Hf (p_status p) (writer_of t p)) as (st' & cw' & fx & -> & Hacc). rewrite ret_bind.
  eexists _, fx. split; [done|]. by apply writer_lift.
Qed.

Lemma attach_ok now conn p pend : sound p ->
  Forall (fun m => raftpb.m_To m = p_id p) (waiting (p, pend)) ->
  let p' := fst (attachOutgoingConn now conn p) in
  exists fx, sound p' /\ grown p p' fx /\ accounted (p, pend) (p', pend) [] fx [].
Proof.
  intros Hs Ha. unfold attachOutgoingConn, attach.
  pose proof (on_conn_acc now conn (p_status p) (writer_of (c_t conn) p)) as Hc.
  destruct (sw_done (writer_of (c_t conn) p)).
  - exists []. by apply (writer_lift (c_t conn) (p_status p)); [|apply same_acc|].
  - destruct (on_conn now conn (p_status p) (writer_of (c_t conn) p)) as [[st' cw'] fx].
    exists fx. by apply writer_lift.
Qed.

(** Setting the pipeline, the picker or the status. *)
Lemma pipeline_lift pl k st fx lost p pend : sound p -> picker_ok k -> p_urls k = p_urls (p_picker p) ->
  pl_stopped pl = pl_stopped (p_pipeline p) ->
  in_pipeline (p_pipeline p) ≡ₚ in_pipeline pl ++ went_out fx ++ lost ->
  Forall (fun m => ReportUnreachable (raftpb.m_To m) ∈ fx) lost ->
  let p' := add_fx fx (set_pipeline pl (set_picker k (set_status st p))) in
  sound p' /\ grown p p' fx /\ accounted (p, pend) (p', pend) [] fx [].
Proof.
  intros (Hk & Hu & Hv & Hw & Hs) Hk' Eu Es Hp Hl. cbv zeta.
  split; [split; [done|]; split; [cbn; by rewrite Eu|]; split; [done|]; split; [done|];
    cbn; by rewrite Es|].
  split; [done|]. exists lost. split; [|done]. unfold waiting. cbn [fst snd]. cbn. perm.
Qed.

Lemma post_request_ok u us l m : parsed us -> u ∈ us -> exists req,
  createPostRequest u RaftPrefix (codec.Reader (Message_Marshal m) EOF) "application/protobuf"
    (l_URLs l) (l_ID l) (l_ClusterID l) = Ret req.
Proof.
  intros [_ Hus] Hu. rewrite Forall_forall in Hus. destruct (Hus u Hu) as [x Ex].
  destruct (with_path x u RaftPrefix Ex) as (u' & Eu & _); [reflexivity|].
  unfold createPostRequest, NewRequest. rewrite Eu. eauto.
Qed.

Lemma take_ok l p pend : sound p -> exists p' req fx, pipeline_take l p = Ret (p', req) /\
  sound p' /\ grown p p' fx /\ accounted (p, pend) (p', pend) [] fx [].
Proof.
  intros Hs. pose proof Hs as (Hk & Hu & _). unfold pipeline_take, h_take.
  assert (forall req : option request, exists p' req' fx,
    Ret (set_pipeline (p_pipeline p) p, req) = Ret (p', req') /\ sound p' /\ grown p p' fx /\
    accounted (p, pend) (p', pend) [] fx []) as Hsame.
  { intros req. eexists _, _, []. split; [done|]. split; [done|].
    split; [split; [done|]; by rewrite app_nil_r|]. by apply untouched. }
  destruct (pl_msgc (p_pipeline p)) as [|m rest] eqn:Em; [apply Hsame|].
  destruct (length (inflight (p_pipeline p)) <? handlers (p_pipeline p))%nat; [|apply Hsame].
  destruct (pick_ok _ Hk) as (u & -> & Hin). rewrite ret_bind.
  destruct (post_request_ok u _ l m Hu Hin) as [req ->]. rewrite !ret_bind.
  eexists _, _, []. split; [done|].
  pose proof (pipeline_lift (MkPipeline rest (inflight (p_pipeline p) ++ [(m, u)])
    (handlers (p_pipeline p)) (pl_stopped (p_pipeline p))) (p_picker p) (p_status p) [] [] p pend
    Hs Hk eq_refl eq_refl) as Hl.
  destruct Hl as (Hs' & Hg & Ha); [|done|].
  { unfold in_pipeline. cbn. rewrite Em, fmap_app. cbn. perm. }
  split; [exact Hs'|]. split; [|exact Ha].
  split; [done|]. cbn. by rewrite app_nil_r.
Qed.

Lemma post_end_ok listening rt u k : picker_ok k -> exists k' err fx,
  post_end listening rt u k = Ret (k', err, fx) /\ picker_ok k' /\ p_urls k' = p_urls k /\
  went_out fx = [].
Proof.
  intros Hk. unfold post_end. destruct (unreachable_ok k u Hk) as (k' & Eu & Hk' & Eus).
  destruct rt as [err|resp]; [rewrite Eu, ret_bind; by eexists _, _, _|].
  destruct (checkPostResponse resp) as [err|]; [|by eexists _, _, _].
  rewrite Eu, ret_bind. eexists _, _, _. split; [done|]. split; [done|]. split; [done|].
  destruct (decide _); [|done]. unfold reportCriticalError. by destruct listening.
Qed.

Lemma done_ok listening now j rt p pend : sound p ->
  exists p' fx, pipeline_done listening now j rt p = Ret p' /\
    sound p' /\ grown p p' fx /\ accounted (p, pend) (p', pend) [] fx [].
Proof.
  intros Hs. pose proof Hs as (Hk & _). unfold pipeline_done, h_done.
  destruct (inflight (p_pipeline p) !! j) as [[m u]|] eqn:Ej.
  2:{ rewrite ret_bind. eexists _, []. split; [done|].
      apply (pipeline_lift (p_pipeline p) (p_picker p) (p_status p) [] []); try done.
      cbn. perm. }
  destruct (post_end_ok listening rt u _ Hk) as (k' & err & fx & -> & Hk' & Eu & Ew).
  rewrite ret_bind. cbv beta iota.
  set (pl := MkPipeline (pl_msgc (p_pipeline p)) (delete j (inflight (p_pipeline p)))
    (handlers (p_pipeline p)) (pl_stopped (p_pipeline p))).
  assert (in_pipeline (p_pipeline p) ≡ₚ in_pipeline pl ++ [m]) as Hp.
  { unfold in_pipeline, pl. cbn [pl_msgc inflight].
    assert ((inflight (p_pipeline p)).*1 ≡ₚ m :: (delete j (inflight (p_pipeline p))).*1) as Hd.
    { exact (fmap_Permutation fst _ _ (delete_Permutation _ _ _ Ej)). }
    perm. }
  destruct err as [err|]; cbn [handle_end]; rewrite ret_bind; eexists _, _; (split; [done|]).
  - apply (pipeline_lift pl k' (deactivate (p_status p)) _ [m]); try done.
    + assert (went_out (dropped m) = []) as Ed by (unfold dropped; by destruct (isMsgSnap m)).
      rewrite went_out_app, Ew, Ed. perm.
    + constructor; [|done]. apply elem_of_app. right. by left.
  - apply (pipeline_lift pl k' (activate now (p_status p)) _ []); try done.
    rewrite went_out_app, Ew. destruct (isMsgSnap m); change (went_out _) with [m]; perm.
Qed.

Lemma stop_ok p pend : sound p -> Forall (fun m => raftpb.m_To m = p_id p) (waiting (p, pend)) ->
  exists p' fx, (if p_stopped p then Ret p else stop p) = Ret p' /\
    sound p' /\ grown p p' fx /\ accounted (p, pend) (p', pend) [] fx [].
Proof.
  intros Hs Ha. destruct (p_stopped p) eqn:Est.
  { exists p, []. split; [done|]. split; [done|]. split; [split; [done|]; by rewrite app_nil_r|].
    by apply untouched. }
  pose proof Hs as (Hk & Hu & Hv & Hw & Hst).
  unfold stop, pl_stop. rewrite Est, (Hst Est).
  destruct (on_stop_acc (msgAppV2Writer p)) as (Hi2 & lost2 & Hp2 & Hl2).
  destruct (on_stop_acc (p_writer p)) as (Hi & lost & Hp & Hl).
  destruct (on_stop (msgAppV2Writer p)) as [w2 fx2], (on_stop (p_writer p)) as [w fx].
  cbn [fst snd] in *. rewrite ret_bind. eexists _, (fx2 ++ fx). split; [done|].
  split; [split; [done|]; split; [done|]; cbn; rewrite Hi2, Hi; by auto|].
  split; [done|]. exists (lost2 ++ lost). unfold waiting, in_pipeline in *.
  cbn [fst snd msgAppV2Writer p_writer p_pipeline pl_msgc inflight] in *.
  rewrite went_out_app. split; [perm|]. rewrite !Forall_app in Ha. destruct Ha as (_ & Ha2 & Haw & _).
  rewrite Hp2, !Forall_app in Ha2. rewrite Hp, !Forall_app in Haw.
  destruct Ha2 as (_ & _ & Ha2), Haw as (_ & _ & Haw). rewrite Forall_forall in *.
  intros m [Hm|Hm]%elem_of_app; apply elem_of_app; [left|right].
  - apply (Hl2 m Hm). rewrite Hv. by apply Ha2.
  - apply (Hl m Hm). rewrite Hw. by apply Haw.
Qed.

(** A send into a channel: into the current one, into a replaced one, or
    refused because the channel is full. *)
Lemma send_to_cases cw n m :
  (exists cw', send_to cw n m = Some cw' /\ sw_peerID cw' = sw_peerID cw /\
     (msgc cw' = msgc cw ++ [m] \/
      ((n <? length (replaced cw))%nat = true /\ msgc cw' = msgc cw))) \/
  send_to cw n m = None.
Proof.
  unfold send_to, try_send. destruct (replaced cw !! n) as [c|] eqn:E.
  - destruct (_ <? _); [|by right]. left. eexists. split; [reflexivity|]. split; [done|]. right.
    split; [|done]. apply Nat.ltb_lt. by eapply lookup_lt_Some.
  - destruct (_ <? _); [|by right]. left. eexists. split; [reflexivity|]. split; [done|]. by left.
Qed.

Lemma put_ok p sl m : sound p -> exists fx silent,
  sound (put p sl m) /\ grown p (put p sl m) fx /\
  accounted (p, Some (sl, m)) (put p sl m, None) [] fx silent /\
  (silent <> [] -> stale (p, Some (sl, m)) = true).
Proof.
  intros Hs. pose proof Hs as (Hk & Hu & Hv & Hw & Hst). unfold put.
  assert (forall p' : peer.peer, sound p' -> grown p p' [] ->
    waiting (p, Some (sl, m)) ≡ₚ waiting (p', None) -> exists fx silent,
    sound p' /\ grown p p' fx /\ accounted (p, Some (sl, m)) (p', None) [] fx silent /\
    (silent <> [] -> stale (p, Some (sl, m)) = true)) as Hkept.
  { intros p' Hs' Hg Hp. exists [], []. split; [done|]. split; [done|]. split; [|done].
    exists []. split; [cbn [app went_out omap list_omap]; by rewrite app_nil_r|done]. }
  assert (forall p' : peer.peer, sound p' -> grown p p' [] ->
    waiting (p, Some (sl, m)) ≡ₚ m :: waiting (p', None) -> stale (p, Some (sl, m)) = true ->
    exists fx silent, sound p' /\ grown p p' fx /\
    accounted (p, Some (sl, m)) (p', None) [] fx silent /\
    (silent <> [] -> stale (p, Some (sl, m)) = true)) as Hlost.
  { intros p' Hs' Hg Hp Hl. exists [], [m]. split; [done|]. split; [done|]. split; [|done].
    exists []. split; [|done]. change (went_out []) with (@nil raftpb.Message). perm. }
  destruct (put_slot p sl m) as [p'|] eqn:E; [unfold put_slot in E; destruct sl as [n|n|]|].
  - destruct (send_to_cases (msgAppV2Writer p) n m) as [(cw' & Es & Hi & Hc)|Es]; rewrite Es in E;
      [|done]. injection E as <-.
    destruct Hc as [Hc|[Hlt Hc]]; [apply Hkept|apply Hlost; [..|exact Hlt]]; try (split; [done|];
      split; [done|]; cbn; by rewrite Hi); try (split; [done|]; cbn; by rewrite app_nil_r);
      unfold waiting; cbn [fst snd]; cbn; rewrite Hc; perm.
  - destruct (send_to_cases (p_writer p) n m) as [(cw' & Es & Hi & Hc)|Es]; rewrite Es in E;
      [|done]. injection E as <-.
    destruct Hc as [Hc|[Hlt Hc]]; [apply Hkept|apply Hlost; [..|exact Hlt]]; try (split; [done|];
      split; [done|]; cbn; by rewrite Hi); try (split; [done|]; cbn; by rewrite app_nil_r);
      unfold waiting; cbn [fst snd]; cbn; rewrite Hc; perm.
  - unfold try_send in E. destruct (_ <? _); [|done]. injection E as <-.
    apply Hkept; [done|split; [done|]; cbn; by rewrite app_nil_r|].
    unfold waiting, in_pipeline. cbn [fst snd set_pipeline p_pipeline msgAppV2Writer p_writer
      pl_msgc inflight]. perm.
  - exists (dropped m), []. split; [done|]. split; [done|]. split; [|done]. exists [m].
    assert (went_out (dropped m) = []) as Ed by (unfold dropped; by destruct (isMsgSnap m)).
    rewrite Ed. split; [|constructor; [by left|done]].
    unfold waiting. cbn [fst snd add_fx p_pipeline msgAppV2Writer p_writer]. perm.
Qed.

Lemma h_exit_same pl : pl_stopped (h_exit pl) = pl_stopped pl /\
  in_pipeline (h_exit pl) = in_pipeline pl.
Proof. unfold h_exit. destruct (pl_stopped pl) eqn:E, (_ <? _)%nat; by rewrite ?E. Qed.

(** The effects [fx] and the silent losses of an event. *)
Definition explained (s : sstate) (ev : event) (s' : sstate) : Prop :=
  exists fx silent, grown (fst s) (fst s') fx /\ accounted s s' (entered s ev) fx silent /\
    (silent <> [] -> ev = Put /\ stale s = true).

(** Sound, with the account of the event. *)
Definition stepped (s : sstate) (ev : event) (r : outcome (sstate * unit)) : Prop :=
  exists s', r = Ret (s', tt) /\ sound (fst s') /\ explained s ev s'.

Lemma peer_event p pend ev p' fx o : o = Ret p' -> sound p' -> grown p p' fx ->
  accounted (p, pend) (p', pend) [] fx [] -> entered (p, pend) ev = [] ->
  stepped (p, pend) ev (on_peer (p, pend) o).
Proof.
  intros -> Hs Hg Ha He. exists (p', pend). split; [done|]. split; [done|]. exists fx, [].
  by rewrite He.
Qed.

Lemma quiet_event p pend ev p' : sound p' -> p_id p' = p_id p -> p_fx p' = p_fx p ->
  waiting (p', pend) ≡ₚ waiting (p, pend) -> entered (p, pend) ev = [] ->
  stepped (p, pend) ev (on_peer (p, pend) (Ret p')).
Proof.
  intros Hs Hi Hf Hp He. eapply peer_event; [done|done| |by apply untouched|done].
  split; [done|]. by rewrite app_nil_r.
Qed.

Lemma send_event p pend ev : sound p -> ev = Put \/ (exists m, ev = Pick m) ->
  stepped (p, pend) ev (step (p, pend) ev).
Proof.
  intros Hs Hev. assert (grown p p []) as Hg by (split; [done|]; by rewrite app_nil_r).
  assert (forall pend', entered (p, pend) ev ++ waiting (p, pend) ≡ₚ waiting (p, pend') ->
    stepped (p, pend) ev (Ret ((p, pend'), tt))) as Hgo.
  { intros pend' Hp. exists (p, pend'). split; [done|]. split; [done|]. exists [], [].
    split; [done|]. split; [|done]. exists []. split; [|done].
    change (went_out []) with (@nil raftpb.Message). by rewrite !app_nil_r. }
  destruct Hev as [->|[m ->]]; destruct pend as [[sl m']|]; cbn [step]; try by apply Hgo.
  - destruct (put_ok p sl m' Hs) as (fx & silent & Hs' & Hgr & Ha & Hst).
    exists (put p sl m', None). split; [done|]. split; [done|]. exists fx, silent.
    split; [done|]. split; [done|]. auto.
  - destruct (p_paused p) eqn:E; apply Hgo; unfold entered; cbn [fst snd]; by rewrite E.
Qed.

Lemma step_stepped p pend ev : sound p ->
  Forall (fun m => raftpb.m_To m = p_id p) (waiting (p, pend)) -> proper (p_id p) ev ->
  stepped (p, pend) ev (step (p, pend) ev).
Proof.
  intros Hs Hw Hpr. destruct ev; try (apply send_event; eauto; fail); cbn [step].
  - destruct (attach_ok now conn p pend Hs Hw) as (fx & Hs' & Hg & Ha). by eapply peer_event.
  - destruct (writer_round_ok t on_heartbeat p pend Hs Hw on_heartbeat_acc)
      as (p' & fx & E & Hs' & Hg & Ha). by eapply peer_event.
  - destruct (writer_round_ok t on_message p pend Hs Hw on_message_acc)
      as (p' & fx & E & Hs' & Hg & Ha). by eapply peer_event.
  - destruct (take_ok l p pend Hs) as (p' & req & fx & E & Hs' & Hg & Ha).
    eapply peer_event; [by rewrite E|done..].
  - destruct (done_ok listening now i rt p pend Hs) as (p' & fx & E & Hs' & Hg & Ha).
    by eapply peer_event.
  - destruct (h_exit_same (p_pipeline p)) as [Es Ei]. apply quiet_event; try done.
    + destruct Hs as (? & ? & ? & ? & Hst). repeat (split; [done|]). cbn. by rewrite Es.
    + unfold waiting. cbn [fst snd set_pipeline p_pipeline msgAppV2Writer p_writer]. by rewrite Ei.
  - apply quiet_event; by destruct b.
  - apply quiet_event; try done. destruct Hs as (? & ? & ? & ? & Hst), Hpr as [Hne Hus].
    split; [|by repeat (split; [done|])]. unfold picker_ok. cbn. destruct us; [done|simpl; lia].
  - destruct (stop_ok p pend Hs Hw) as (p' & fx & E & Hs' & Hg & Ha). by eapply peer_event.
Qed.

Lemma step_ok s ev : serving s -> proper (p_id (fst s)) ev ->
  exists s', step s ev = Ret (s', tt) /\ serving s' /\ explained s ev s'.
Proof.
  intros [Hs Hw]%serving_sound Hpr. destruct s as [p pend]. cbn [fst] in *.
  destruct (step_stepped p pend ev Hs Hw Hpr) as (s' & E & Hs' & Hx).
  exists s'. split; [done|]. split; [|done]. apply serving_sound. split; [done|].
  destruct Hx as (fx & silent & [Hi _] & Ha & _). cbn [fst] in Hi. rewrite Hi.
  eapply accounted_addressed; [exact Ha|]. apply Forall_app. split; [|done]. unfold entered.
  destruct ev; try constructor. cbn [fst snd]. destruct pend; [constructor|].
  destruct (p_paused p); by repeat constructor.
Qed.

Lemma run_serving evs s : serving s -> Forall (proper (p_id (fst s))) evs ->
  exists s' us, run step s evs = Ret (s', us) /\ serving s' /\ p_id (fst s') = p_id (fst s).
Proof.
  revert s. induction evs as [|ev evs IH]; intros s Hs Hp; [by exists s, []|].
  apply Forall_cons in Hp as [Hp Hps]. destruct (step_ok s ev Hs Hp) as (s1 & E & Hs1 & Hx).
  destruct Hx as (fx & silent & [Hi _] & _). rewrite <- Hi in Hps.
  destruct (IH s1 Hs1 Hps) as (s' & us & E' & Hs' & Hi'). exists s', (tt :: us).
  cbn [run]. rewrite E, ret_bind, E', ret_bind. split; [done|]. split; [done|]. congruence.
Qed.

Lemma start_serving us peerID : parsed us -> serving (startPeer us peerID, None).
Proof.
  intros Hu. apply serving_sound. split; [|constructor].
  split; [|by repeat (split; [done|])]. unfold picker_ok. cbn.
  destruct Hu as [Hne _]. destruct us; [done|simpl; lia].
Qed.

(** C21: no message of a peer is lost without a report.  After any sequence of
    sends, rounds of the writers and of the pipeline, answers, connections,
    pauses and changes of the URLs, a peer with URLs has not panicked, and in
    the next step, whatever it is, every message that waited or is given is
    still waiting, or was written to a stream, or was posted, or is lost and
    reported unreachable in that same step.  The only exception is a send that
    goes into a channel which was replaced after the send had picked it. *)
Theorem losses_reported (us : list URL) (peerID : Z) (evs : list event) (ev : event) :
  parsed us -> Forall (proper peerID) evs -> proper peerID ev ->
  exists s us' s', run step (startPeer us peerID, None) evs = Ret (s, us') /\
    step s ev = Ret (s', tt) /\ explained s ev s'.
Proof.
  intros Hu Hps Hp. destruct (run_serving evs _ (start_serving us peerID Hu) Hps)
    as (s & us' & E & Hs & Hi). cbn in Hi.
  destruct (step_ok s ev Hs) as (s' & E' & _ & Hx); [by rewrite Hi|].
  by exists s, us', s'.
Qed.

(** A replaced channel swallows messages.  A send has picked the channel
    of a stream, and the writer has replaced it (the connection broke or a new
    one came) before the message is put into it: the message is in no queue
    any more, and nothing is reported to raft. *)
Theorem replaced_channel_swallows (p : peer.peer) (sl : slot) (m : raftpb.Message) :
  stale (p, Some (sl, m)) = true -> is_Some (put_slot p sl m) ->
  exists p', step (p, Some (sl, m)) Put = Ret ((p', None), tt) /\ p_fx p' = p_fx p /\
    waiting (p, Some (sl, m)) ≡ₚ m :: waiting (p', None).
Proof.
  intros Hst [p' Hp]. exists p'. cbn [step]. unfold put. rewrite Hp. split; [done|].
  unfold put_slot in Hp. unfold stale in Hst. cbn [fst snd] in Hst. destruct sl as [n|n|]; [| |done].
  all: apply Nat.ltb_lt in Hst; apply fmap_Some in Hp as (cw & Hs & ->);
    unfold send_to in Hs; destruct (lookup_lt_is_Some_2 _ _ Hst) as [c Ec]; rewrite Ec in Hs;
    apply fmap_Some in Hs as (c' & _ & ->); split; [done|]; unfold waiting; cbn [fst snd]; cbn; perm.
Qed.

End PeerLog.

(** ** Node 1 sends to node 2 *)

Import MemUrl MemSemver.

Definition urls_two : list URL := [Url "b:7002" ""].

Lemma urls_two_parsed : parsed urls_two.
Proof. split; [done|]. constructor; [|constructor]. by exists "http://b:7002". Qed.

(** A stream that takes [n] bytes. *)
Definition a_stream (n : nat) : outgoingConn :=
  MkConn streamTypeMsgAppV2 (codec.Writer [] 0 (Some n)).

Definition an_append : raftpb.Message := codec.append_to 5 4 10 [codec.some_entry 5 11] 9.

(** The stream breaks in the middle of a message while another one waits. *)
Lemma losses_reported_witness : exists s us' s',
  run step (startPeer urls_two 2, None)
    [Attach 7 (a_stream 20); Pick an_append; Put; Pick an_append; Put] = Ret (s, us') /\
  step s (Message streamTypeMsgAppV2) = Ret (s', tt) /\
  explained s (Message streamTypeMsgAppV2) s'.
Proof.
  apply (losses_reported urls_two 2); [apply urls_two_parsed| |done].
  by repeat constructor.
Defined.

(** The stream is replaced between the two halves of a send. *)
Definition restreamed : peer.peer :=
  fst (attachOutgoingConn 8 (a_stream 20)
         (fst (attachOutgoingConn 7 (a_stream 20) (startPeer urls_two 2)))).

Lemma replaced_channel_swallows_witness : exists p',
  run step (startPeer urls_two 2, None)
      [Attach 7 (a_stream 20); Pick an_append; Attach 8 (a_stream 20)]
    = Ret ((restreamed, Some (SlotV2 0, an_append)), [tt; tt; tt]) /\
  step (restreamed, Some (SlotV2 0, an_append)) Put = Ret ((p', None), tt) /\
  p_fx p' = p_fx restreamed /\
  waiting (restreamed, Some (SlotV2 0, an_append)) ≡ₚ an_append :: waiting (p', None).
Proof.
  destruct (replaced_channel_swallows restreamed (SlotV2 0) an_append) as (p' & E & Hf & Hw);
    [reflexivity|by eexists|].
  exists p'. split; [reflexivity|]. split; [exact E|]. split; [exact Hf|exact Hw].
Defined.

End PeerLog.
