(* ===== verification/Transport.v ===== *)
(** * The peer transport

    [src/transport.go] and, below it, [transport.go] of etcd's [rafthttp]: the
    tables of peers and remotes, whose operations are in [Peer].  The theorem
    follows the messages of a started transport into the queues of its
    peers. *)

From S2P Require Import Prelude Errors RaftApi Urls RaftUtil Stream Peer.

(** ** rafthttp *)

Module rafthttp.
Section Rafthttp.
Context `{UrlLib}.

(** *** transport.go *)

(** The two maps; [None] is the nil map of a transport that is not started or
    that was stopped.  [tr_logs]: whether [Logger] is set. *)
Record Transport := MkTransport {
  tr_logs : bool;
  remotes : option (gmap Z peer.remote);
  peers : option (gmap Z peer.peer)
}.

Definition with_peers (t : Transport) (m : gmap Z peer.peer) : Transport :=
  MkTransport (tr_logs t) (remotes t) (Some m).

Definition with_remotes (t : Transport) (m : gmap Z peer.remote) : Transport :=
  MkTransport (tr_logs t) (Some m) (peers t).

Definition Start (t : Transport) : Transport := MkTransport (tr_logs t) (Some ∅) (Some ∅).

Definition Get (t : Transport) (id : Z) : option peer.peer := peers t ≫= (.!! id).

Definition send_one (t : Transport) (m : raftpb.Message) : Transport :=
  let to := raftpb.m_To m in
  if to =? 0 then t
  else match peers t ≫= (.!! to), remotes t ≫= (.!! to) with
       | Some p, _ => MkTransport (tr_logs t) (remotes t) (<[to := peer.send p m]> <$> peers t)
       | None, Some g => MkTransport (tr_logs t) (<[to := peer.g_send g m]> <$> remotes t) (peers t)
       | None, None => t
       end.

Definition Send (t : Transport) (msgs : list raftpb.Message) : Transport :=
  fold_left send_one msgs t.

(** [stop] of each, in some order: one that is stopped already panics. *)
Fixpoint stop_each {A} (stop : A -> outcome A) (l : list A) : outcome unit :=
  match l with
  | [] => Ret tt
  | x :: l => _ ← stop x; stop_each stop l
  end.

Definition values {A} (m : option (gmap Z A)) : list A :=
  match m with Some m => (map_to_list m).*2 | None => [] end.

Definition Stop (t : Transport) : outcome Transport :=
  _ ← stop_each peer.g_stop (values (remotes t));
  _ ← stop_each peer.stop (values (peers t));
  Ret (MkTransport (tr_logs t) None None).

Definition CutPeer (t : Transport) (id : Z) : outcome Transport :=
  let t' := match peers t ≫= (.!! id) with
            | Some p => MkTransport (tr_logs t) (remotes t) (<[id := peer.Pause p]> <$> peers t)
            | None => t
            end in
  match remotes t ≫= (.!! id) with
  | Some g => g ← peer.g_Pause g;
              Ret (MkTransport (tr_logs t') (<[id := g]> <$> remotes t') (peers t'))
  | None => Ret t'
  end.

Definition MendPeer (t : Transport) (id : Z) : Transport :=
  MkTransport (tr_logs t) (alter peer.g_Resume id <$> remotes t)
    (alter peer.Resume id <$> peers t).

(** The URLs of a new or changed peer: an error panics only through the
    logger; without one the peer gets no URL. *)
Definition peer_urls (t : Transport) (us : list string) : outcome (list URL) :=
  match urls.NewURLs us with
  | inr l => Ret l
  | inl _ => if tr_logs t then Panic "failed NewURLs" else Ret []
  end.

Definition AddRemote (t : Transport) (id : Z) (us : list string) : outcome Transport :=
  match remotes t with
  | None => Ret t
  | Some rs =>
      match peers t ≫= (.!! id), rs !! id with
      | None, None => l ← peer_urls t us; Ret (with_remotes t (<[id := peer.startRemote l]> rs))
      | _, _ => Ret t
      end
  end.

Definition AddPeer (t : Transport) (id : Z) (us : list string) : outcome Transport :=
  match peers t with
  | None => Panic "transport stopped"
  | Some ps =>
      match ps !! id with
      | Some _ => Ret t
      | None => l ← peer_urls t us; Ret (with_peers t (<[id := peer.startPeer l id]> ps))
      end
  end.

(** [removePeer]: an unknown peer is no error. *)
Definition RemovePeer (t : Transport) (id : Z) : outcome Transport :=
  match peers t with
  | None => Ret t
  | Some ps =>
      match ps !! id with
      | None => Ret t
      | Some p => _ ← peer.stop p; Ret (with_peers t (delete id ps))
      end
  end.

Fixpoint remove_each (ids : list Z) (t : Transport) : outcome Transport :=
  match ids with
  | [] => Ret t
  | i :: ids => t ← RemovePeer t i; remove_each ids t
  end.

Definition RemoveAllPeers (t : Transport) : outcome Transport :=
  remove_each (match peers t with Some ps => (map_to_list ps).*1 | None => [] end) t.

Definition UpdatePeer (t : Transport) (id : Z) (us : list string) : outcome Transport :=
  match peers t ≫= (.!! id) with
  | None => Ret t
  | Some p =>
      l ← peer_urls t us;
      Ret (MkTransport (tr_logs t) (remotes t) (<[id := peer.p_update p l]> <$> peers t))
  end.

Definition ActiveSince (t : Transport) (id : Z) : option Z :=
  p ← Get t id; stream.since (peer.p_status p).

(** The sender of the peer is started with the message ([inr]), or the
    message is closed ([inl]). *)
Definition SendSnapshot (t : Transport) (m : peer.snap_Message)
    : outcome (peer.snap_Message + peer.peer) :=
  match Get t (raftpb.m_To (peer.sm_Message m)) with
  | None => m ← peer.CloseWithError None (Some errMemberNotFound) m; Ret (inl m)
  | Some p => Ret (inr p)
  end.

Definition Pause (t : Transport) : Transport :=
  MkTransport (tr_logs t) (remotes t) (fmap (M := gmap Z) peer.Pause <$> peers t).

Definition Resume (t : Transport) : Transport :=
  MkTransport (tr_logs t) (remotes t) (fmap (M := gmap Z) peer.Resume <$> peers t).

Definition ActivePeers (t : Transport) : nat :=
  length (filter (fun p => is_Some (stream.since (peer.p_status p))) (values (peers t))).

End Rafthttp.
End rafthttp.

(** ** Omashu's transport *)

Module Transport.
Section Transport.
Context `{UrlLib}.

(** [peers] is the map of the configuration; [server]: the host served, when
    the server was made; [raftTr] is nil before [Start]. *)
Record Transport := MkTransport {
  id : Z;
  raftTr : option rafthttp.Transport;
  server : option string;
  peers : gmap Z string
}.

Definition NewTransport (id : Z) (peers : gmap Z string) : Transport :=
  MkTransport id None None peers.

Definition with_raft (tr : Transport) (t : rafthttp.Transport) : Transport :=
  MkTransport (id tr) (Some t) (server tr) (peers tr).

Definition with_raft_peers (tr : Transport) (t : rafthttp.Transport) (ps : gmap Z string)
    : Transport :=
  MkTransport (id tr) (Some t) (server tr) ps.

(** A call through the pointer [raftTr]. *)
Definition on_raft {A} (tr : Transport) (f : rafthttp.Transport -> outcome A) : outcome A :=
  match raftTr tr with
  | Some t => f t
  | None => Panic "invalid memory address or nil pointer dereference"
  end.

(** The peers but the node itself; each is added on its own, so the order of
    the map does not matter. *)
Fixpoint add_peers (self : Z) (l : list (Z * string)) (t : rafthttp.Transport)
    : outcome rafthttp.Transport :=
  match l with
  | [] => Ret t
  | (i, a) :: l =>
      t' ← (if i =? self then Ret t else rafthttp.AddPeer t i [a]);
      add_peers self l t'
  end.

(** [node.errChan <- err]: the channel has no buffer, and [listening] says
    whether the ready loop is there to receive. *)
Definition report (listening : bool) : outcome unit := if listening then Ret tt else Hang.

(** [started] is what [raftTr.Start()] answers.  After an error is reported
    the function goes on. *)
Definition Start (listening : bool) (started : option error) (tr : Transport)
    : outcome Transport :=
  let t := rafthttp.MkTransport false None None in
  _ ← (match started with Some _ => report listening | None => Ret tt end);
  let t := match started with Some _ => t | None => rafthttp.Start t end in
  let addr := peers tr !! id tr in
  _ ← (match addr with Some _ => Ret tt | None => report listening end);
  let parsed := url_Parse (default "" addr) in
  _ ← (match parsed with inl _ => report listening | inr _ => Ret tt end);
  t ← add_peers (id tr) (map_to_list (peers tr)) t;
  match parsed with
  | inl _ => Panic "invalid memory address or nil pointer dereference"
  | inr u => Ret (MkTransport (id tr) (Some t) (Some (u_Host u)) (peers tr))
  end.

Definition Send (tr : Transport) (messages : list raftpb.Message) : outcome Transport :=
  on_raft tr (fun t => Ret (with_raft tr (rafthttp.Send t messages))).

Definition AddPeer (tr : Transport) (i : Z) (addr : string) : outcome Transport :=
  on_raft tr (fun t =>
    t' ← rafthttp.AddPeer t i [addr];
    Ret (with_raft_peers tr t' (<[i := addr]> (peers tr)))).

Definition RemovePeer (tr : Transport) (i : Z) : outcome Transport :=
  on_raft tr (fun t =>
    t' ← rafthttp.RemovePeer t i; Ret (with_raft_peers tr t' (delete i (peers tr)))).

Definition UpdatePeer (tr : Transport) (i : Z) (addr : string) : outcome Transport :=
  on_raft tr (fun t =>
    t' ← rafthttp.UpdatePeer t i [addr];
    Ret (with_raft_peers tr t' (<[i := addr]> (peers tr)))).

(** [shutdown] is what the server's [Shutdown] answers. *)
Definition Stop (shutdown : option error) (tr : Transport)
    : outcome (Transport * option error) :=
  on_raft tr (fun t =>
    t' ← rafthttp.Stop t;
    Ret (with_raft tr t', match server tr with Some _ => shutdown | None => None end)).

End Transport.

(** ** A transport that is up *)

Section Up.
Context `{UrlLib}.
Implicit Types (t : rafthttp.Transport).

(** Started and not stopped, with peers that are not stopped. *)
Definition table_up t : Prop :=
  rafthttp.tr_logs t = false /\
  exists rs ps, rafthttp.remotes t = Some rs /\ rafthttp.peers t = Some ps /\
    map_Forall (fun _ => peer.g_running) rs /\ map_Forall (fun _ => peer.running) ps.

Definition transport_up (tr : Transport) : Prop := exists t, raftTr tr = Some t /\ table_up t.

Lemma peer_urls_up t us : rafthttp.tr_logs t = false -> exists l, rafthttp.peer_urls t us = Ret l.
Proof. intros E. unfold rafthttp.peer_urls. destruct (urls.NewURLs us); rewrite ?E; eauto. Qed.

Lemma table_AddPeer_up t i us : table_up t ->
  exists t', rafthttp.AddPeer t i us = Ret t' /\ table_up t'.
Proof.
  intros (Hl & rs & ps & Er & Ep & Hr & Hp). unfold rafthttp.AddPeer. rewrite Ep.
  destruct (ps !! i).
  - exists t. split; [done|]. split; [done|]. by exists rs, ps.
  - destruct (peer_urls_up t us Hl) as [l ->]. rewrite ret_bind. eexists. split; [done|].
    split; [done|]. eexists rs, _. split; [done|]. split; [done|]. split; [done|].
    by apply map_Forall_insert_2.
Qed.

Lemma AddPeer_up tr i a : transport_up tr ->
  exists tr', AddPeer tr i a = Ret tr' /\ transport_up tr'.
Proof.
  intros (t & Et & Ht). unfold AddPeer, on_raft. rewrite Et.
  destruct (table_AddPeer_up t i [a] Ht) as (t' & -> & Ht'). rewrite ret_bind.
  eexists. split; [done|]. by exists t'.
Qed.

Lemma RemovePeer_up tr i : transport_up tr ->
  exists tr', RemovePeer tr i = Ret tr' /\ transport_up tr'.
Proof.
  intros (t & Et & Hl & rs & ps & Er & Ep & Hr & Hp). unfold RemovePeer, on_raft. rewrite Et.
  unfold rafthttp.RemovePeer. rewrite Ep. destruct (ps !! i) as [p|] eqn:Ei.
  - destruct (peer.stop_running p (Hp _ _ Ei)) as [p' ->]. rewrite !ret_bind.
    eexists. split; [done|]. eexists. split; [done|]. split; [done|]. eexists rs, _.
    split; [done|]. split; [done|]. split; [done|]. by apply map_Forall_delete.
  - rewrite ret_bind. eexists. split; [done|]. exists t. split; [done|]. split; [done|].
    by exists rs, ps.
Qed.

Lemma UpdatePeer_up tr i a : transport_up tr ->
  exists tr', UpdatePeer tr i a = Ret tr' /\ transport_up tr'.
Proof.
  intros (t & Et & Hl & rs & ps & Er & Ep & Hr & Hp). unfold UpdatePeer, on_raft. rewrite Et.
  unfold rafthttp.UpdatePeer. rewrite Ep. cbn [mbind option_bind].
  destruct (ps !! i) as [p|] eqn:Ei.
  - destruct (peer_urls_up t [a] Hl) as [l ->]. rewrite !ret_bind. eexists. split; [done|].
    eexists. split; [done|]. split; [done|]. eexists rs, _. split; [done|]. split; [done|].
    split; [done|]. apply map_Forall_insert_2; [exact (Hp _ _ Ei)|done].
  - rewrite ret_bind. eexists. split; [done|]. exists t. split; [done|]. split; [done|].
    by exists rs, ps.
Qed.

Lemma send_one_up t m : table_up t -> table_up (rafthttp.send_one t m).
Proof.
  intros (Hl & rs & ps & Er & Ep & Hr & Hp). unfold rafthttp.send_one.
  destruct (raftpb.m_To m =? 0); [split; [done|]; by exists rs, ps|].
  rewrite Ep, Er. cbn [mbind option_bind]. destruct (ps !! raftpb.m_To m) as [p|] eqn:Ei.
  - split; [done|]. eexists rs, _. split; [done|]. split; [done|]. split; [done|].
    apply map_Forall_insert_2; [|done]. apply peer.send_running. exact (Hp _ _ Ei).
  - destruct (rs !! raftpb.m_To m) as [g|] eqn:Eg; [|split; [done|]; by exists rs, ps].
    split; [done|]. eexists _, ps. split; [done|]. split; [done|]. split; [|done].
    apply map_Forall_insert_2; [|done]. apply peer.g_send_running. exact (Hr _ _ Eg).
Qed.

Lemma sends_up msgs t : table_up t -> table_up (rafthttp.Send t msgs).
Proof.
  revert t. induction msgs as [|m msgs IH]; intros t Ht; [done|].
  by apply IH, send_one_up.
Qed.

Lemma Send_up tr msgs : transport_up tr ->
  exists tr', Send tr msgs = Ret tr' /\ transport_up tr'.
Proof.
  intros (t & Et & Ht). unfold Send, on_raft. rewrite Et.
  eexists. split; [done|]. exists (rafthttp.Send t msgs). split; [done|]. by apply sends_up.
Qed.

Lemma stop_each_ok {A} (stop : A -> outcome A) (l : list A) :
  Forall (fun x => exists x', stop x = Ret x') l -> rafthttp.stop_each stop l = Ret tt.
Proof. induction 1 as [|x l [x' E] _ IH]; [done|]. cbn [rafthttp.stop_each]. by rewrite E. Qed.

Lemma values_Forall {A} (P : A -> Prop) (m : gmap Z A) : map_Forall (fun _ => P) m ->
  Forall P (rafthttp.values (Some m)).
Proof.
  intros Hm. apply Forall_forall. intros x [[i y] [-> Hi]]%list_elem_of_fmap.
  apply elem_of_map_to_list in Hi. exact (Hm _ _ Hi).
Qed.

Lemma Stop_up tr shutdown : transport_up tr ->
  exists tr' r, Stop shutdown tr = Ret (tr', r) /\
    exists t, raftTr tr' = Some t /\ rafthttp.peers t = None.
Proof.
  intros (t & Et & _ & rs & ps & Er & Ep & Hr & Hp). unfold Stop, on_raft. rewrite Et.
  unfold rafthttp.Stop. rewrite Er, Ep, !stop_each_ok.
  - rewrite !ret_bind. eexists _, _. split; [done|]. by eexists.
  - eapply Forall_impl; [by apply values_Forall|]. apply peer.g_stop_running.
  - eapply Forall_impl; [by apply values_Forall|]. apply peer.stop_running.
Qed.

End Up.

(** ** Delivery *)

Section Delivery.
Context `{UrlLib}.
Implicit Types (m : raftpb.Message) (t : rafthttp.Transport).

(** The messages addressed to [i]. *)
Definition addressed (i : Z) (msgs : list raftpb.Message) : list raftpb.Message :=
  filter (fun m => raftpb.m_To m = i) msgs.

Lemma send_one_get t m i p : i <> 0 -> rafthttp.Get t i = Some p ->
  rafthttp.Get (rafthttp.send_one t m) i = Some (fold_left peer.send (addressed i [m]) p).
Proof.
  unfold rafthttp.Get, rafthttp.send_one, addressed. intros Hi E.
  rewrite filter_cons, filter_nil. case_decide as Hm; cbn [fold_left].
  - rewrite Hm, (proj2 (Z.eqb_neq i 0)) by done. rewrite E.
    destruct (rafthttp.peers t) as [ps|]; [|done]. simpl. by rewrite lookup_insert_eq.
  - destruct (raftpb.m_To m =? 0); [done|].
    destruct (rafthttp.peers t ≫= (.!! raftpb.m_To m)) as [q|],
      (rafthttp.remotes t ≫= (.!! raftpb.m_To m)); simpl; try done;
      destruct (rafthttp.peers t) as [ps|]; try done; simpl in *;
      by rewrite ?lookup_insert_ne.
Qed.

Lemma send_one_none t m i : rafthttp.Get t i = None ->
  rafthttp.Get (rafthttp.send_one t m) i = None.
Proof.
  unfold rafthttp.Get, rafthttp.send_one. intros E. destruct (raftpb.m_To m =? 0); [done|].
  destruct (rafthttp.peers t ≫= (.!! raftpb.m_To m)) as [q|] eqn:Eq,
    (rafthttp.remotes t ≫= (.!! raftpb.m_To m)); simpl; try done;
    destruct (rafthttp.peers t) as [ps|]; try done; simpl in *;
    (destruct (decide (raftpb.m_To m = i)) as [Ei|]; [rewrite Ei in *; first [done|congruence]|by rewrite ?lookup_insert_ne]).
Qed.

Lemma Send_get msgs t i p : i <> 0 -> rafthttp.Get t i = Some p ->
  rafthttp.Get (rafthttp.Send t msgs) i = Some (fold_left peer.send (addressed i msgs) p).
Proof.
  intros Hi. revert t p. unfold rafthttp.Send.
  induction msgs as [|m msgs IH]; intros t p E; cbn [fold_left]; [done|].
  rewrite (IH _ _ (send_one_get t m i p Hi E)), <- fold_left_app. do 2 f_equal.
  unfold addressed. by rewrite <- (filter_app _ [m] msgs).
Qed.

Lemma Send_none msgs t i : rafthttp.Get t i = None ->
  rafthttp.Get (rafthttp.Send t msgs) i = None.
Proof.
  revert t. unfold rafthttp.Send. induction msgs as [|m msgs IH]; intros t E; simpl; [done|].
  apply IH. by apply send_one_none.
Qed.

(** The URLs of an address; none when it is no URL. *)
Definition urls_of (a : string) : list URL :=
  match urls.NewURLs [a] with inr l => l | inl _ => [] end.

Lemma add_peers_get self l t ps : rafthttp.tr_logs t = false -> rafthttp.peers t = Some ps ->
  NoDup l.*1 -> (forall i, i ∈ l.*1 -> ps !! i = None) ->
  exists t', add_peers self l t = Ret t' /\
    (forall i a, (i, a) ∈ l -> i <> self ->
       rafthttp.Get t' i = Some (peer.startPeer (urls_of a) i)) /\
    (forall i, i ∉ l.*1 \/ i = self -> rafthttp.Get t' i = ps !! i).
Proof.
  intros Hl. revert t ps Hl. induction l as [|[j b] l IH]; intros t ps Hl Hps Hnd Hfr.
  { exists t. split; [done|]. split; [by intros ?? ?%not_elem_of_nil|].
    intros i _. unfold rafthttp.Get. by rewrite Hps. }
  simpl in Hnd. apply NoDup_cons in Hnd as [Hj Hnd]. cbn [add_peers].
  assert (exists t1, (if j =? self then Ret t else rafthttp.AddPeer t j [b]) = Ret t1 /\
    rafthttp.tr_logs t1 = false /\
    rafthttp.peers t1 = Some (if j =? self then ps
                              else <[j := peer.startPeer (urls_of b) j]> ps))
    as (t1 & -> & Hl1 & Hps1).
  { destruct (j =? self); [eauto|]. unfold rafthttp.AddPeer. rewrite Hps, (Hfr j) by (left; done).
    unfold rafthttp.peer_urls, urls_of. rewrite Hl.
    destruct (urls.NewURLs [b]); simpl; eexists; (split; [reflexivity|]); done. }
  rewrite ret_bind. destruct (IH t1 _ Hl1 Hps1 Hnd) as (t' & E & H1 & H2).
  { intros i Hi. assert (ps !! i = None) by (apply Hfr; by right).
    destruct (j =? self); [done|]. rewrite lookup_insert_ne; [done|]. by intros ->. }
  exists t'. split; [exact E|]. split.
  - intros i a [[= -> ->]|Hin]%elem_of_cons Hi; [|by apply H1].
    rewrite H2 by (by left). rewrite (proj2 (Z.eqb_neq j self)) by done. by rewrite lookup_insert_eq.
  - intros i Hi. simpl in Hi. rewrite not_elem_of_cons in Hi. rewrite H2 by tauto.
    destruct (Z.eqb_spec j self) as [->|Hne]; [done|]. rewrite lookup_insert_ne; [done|].
    destruct Hi as [[? _]|]; congruence.
Qed.

Lemma add_peers_up self l t t' : table_up t -> add_peers self l t = Ret t' -> table_up t'.
Proof.
  revert t. induction l as [|[i a] l IH]; intros t Ht; cbn [add_peers]; [by intros [= <-]|].
  destruct (i =? self); [rewrite ret_bind; by apply IH|].
  destruct (table_AddPeer_up t i [a] Ht) as (t1 & -> & Ht1). rewrite ret_bind. by apply IH.
Qed.

(** The queue of the pipeline to the peer [i], and what the peer has reported. *)
Definition queued (tr : Transport) (i : Z) : option (list raftpb.Message * list stream.effect) :=
  t ← raftTr tr; p ← rafthttp.Get t i;
  Some (peer.pl_msgc (peer.p_pipeline p), peer.p_fx p).

Lemma Start_ok self members addr u listening :
  members !! self = Some addr -> url_Parse addr = inr u ->
  exists t, Start listening None (NewTransport self members)
      = Ret (MkTransport self (Some t) (Some (u_Host u)) members) /\
    table_up t /\
    (forall i a, members !! i = Some a -> i <> self ->
       rafthttp.Get t i = Some (peer.startPeer (urls_of a) i)) /\
    (forall i, members !! i = None \/ i = self -> rafthttp.Get t i = None).
Proof.
  intros Es Eu. unfold Start. cbn [peers id NewTransport]. rewrite Es. cbn [default].
  unfold Datatypes.id. rewrite Eu, !ret_bind.
  destruct (add_peers_get self (map_to_list members)
    (rafthttp.MkTransport false (Some ∅) (Some ∅)) ∅) as (t & E & H1 & H2);
    [done|done|apply NoDup_fst_map_to_list|intros; apply lookup_empty|].
  unfold rafthttp.Start. cbn [rafthttp.tr_logs]. rewrite E, ret_bind. exists t.
  split; [done|]. split.
  { eapply add_peers_up; [|exact E]. split; [done|]. by exists ∅, ∅. }
  split.
  - intros i a Hi. by apply H1, elem_of_map_to_list.
  - intros i Hi. rewrite H2; [apply lookup_empty|]. destruct Hi as [Hi|]; [left|by right].
    intros [[i' b] [-> Hin]]%list_elem_of_fmap. apply elem_of_map_to_list in Hin. simpl in *. congruence.
Qed.

(** Messages reach the peers they are for.  A transport started with the
    addresses of the members, its own among them, serves at its own host and
    queues for each other member exactly the messages addressed to it, in the
    order they were given, up to the bound of the queue; each one beyond it is
    reported to raft as unreachable, a snapshot also as failed.  Nothing is
    queued for the node itself or for an unknown node. *)
Theorem transport_delivers (self : Z) (members : gmap Z string) (addr : string) (u : URL)
    (listening : bool) (msgs : list raftpb.Message) :
  members !! self = Some addr -> url_Parse addr = inr u -> members !! 0 = None ->
  exists tr tr', Start listening None (NewTransport self members) = Ret tr /\
    server tr = Some (u_Host u) /\ Send tr msgs = Ret tr' /\
    forall i, queued tr' i =
      if bool_decide (i <> self)
      then (fun _ => (take 64 (addressed i msgs), drop 64 (addressed i msgs) ≫= peer.dropped))
             <$> members !! i
      else None.
Proof.
  intros Es Eu E0. destruct (Start_ok self members addr u listening Es Eu)
    as (t & E & _ & H1 & H2).
  eexists _, _. split; [exact E|]. split; [done|]. split; [done|]. intros i.
  unfold queued. cbn [raftTr with_raft mbind option_bind].
  destruct (bool_decide_reflect (i <> self)) as [Hi|Hi];
    [destruct (members !! i) as [a|] eqn:Ei; cbn [fmap option_fmap option_map]|].
  - rewrite (Send_get msgs t i (peer.startPeer (urls_of a) i)); [|intros ->; congruence|by apply H1].
    cbn [mbind option_bind].
    destruct (peer.sends_unconnected (addressed i msgs) (peer.startPeer (urls_of a) i))
      as [-> ->]; [|done]. by repeat (split; [done|]).
  - rewrite Send_none; [done|]. apply H2. by left.
  - rewrite Send_none; [done|]. apply H2. right. destruct (decide (i = self)); [done|tauto].
Qed.

End Delivery.

(** *** Three nodes *)

Import MemUrl.

Definition three_nodes : gmap Z string :=
  list_to_map [(1, "http://a:7001"); (2, "http://b:7002"); (3, "http://c:7003")].

Definition to_ (i : Z) : raftpb.Message :=
  raftpb.MkMessage raftpb.MsgApp i 1 0 0 0 [] 0 0 None false 0 [].

Lemma transport_delivers_witness : exists tr tr',
  Start false None (NewTransport 1 three_nodes) = Ret tr /\ server tr = Some "a:7001" /\
  Send tr [to_ 2; to_ 3; to_ 2; to_ 9] = Ret tr' /\ queued tr' 2 = Some ([to_ 2; to_ 2], []) /\
  queued tr' 1 = None /\ queued tr' 9 = None.
Proof.
  destruct (transport_delivers (H := url) 1 three_nodes "http://a:7001" (MemUrl.Url "a:7001" "")
    false [to_ 2; to_ 3; to_ 2; to_ 9]) as (tr & tr' & E & Hs & E' & H); [reflexivity..|].
  exists tr, tr'. rewrite !H. auto 10.
Defined.
End Transport.
