(* ===== verification/EtcdWal.v ===== *)
(** * wal.go and repair.go of etcd's write-ahead log

    The log of omashu's raft node: a directory of segment files, appended to
    through the encoder, cut when a segment is full and read back through the
    decoder.  Records are marshalled into bytes and the bytes of the files are
    what reading starts from.

    The size of a segment is a variable of the package and a parameter here.
    Disk errors and locks held by other processes are not modelled: a file
    operation succeeds, and [fsync] is no operation. *)

From S2P Require Import Prelude Errors Utils RaftApi WalRecord WalIo WalFrame WalNames.
From Stdlib Require Import Strings.Byte.
Import walpb.

Definition ErrMetadataConflict : error := OtherError "wal: conflicting metadata found".
Definition ErrSnapshotMismatch : error := OtherError "wal: snapshot mismatch".
Definition ErrSnapshotNotFound : error := OtherError "wal: snapshot not found".
Definition ErrSliceOutOfRange : error := OtherError "wal: slice bounds out of range".
Definition ErrDecoderNotFound : error := OtherError "wal: decoder not found".
Definition ErrExist : error := OtherError "file already exists".

(** ** The directory: its files in the order of their names *)

Definition dir : Type := list (string * bytes).

Fixpoint dir_get (d : dir) (n : string) : option bytes :=
  match d with
  | [] => None
  | (m, b) :: d' => if decide (m = n) then Some b else dir_get d' n
  end.

Fixpoint dir_put (d : dir) (n : string) (b : bytes) : dir :=
  match d with
  | [] => [(n, b)]
  | (m, c) :: d' =>
      if decide (m = n) then (n, b) :: d'
      else if str_ltb n m then (n, b) :: (m, c) :: d'
      else (m, c) :: dir_put d' n b
  end.

(** [fileutil.ReadDir]. *)
Definition ReadDir (d : dir) : list string := map fst d.

(** [wal.Exist]: there is a file with the extension [.wal]. *)
Definition Exist (d : dir) : bool := existsb (has_suffix ".wal") (ReadDir d).

Definition readWALNames (d : dir) : result (list string) :=
  match checkWALNames (ReadDir d) with
  | [] => inl ErrFileNotFound
  | wnames => inr wnames
  end.

(** ** The log *)

(** The locked files are named; in read mode there are no locks, and the list
    holds [None]s.  [w_pos] is the position in the last locked file. *)
Record WAL := MkWAL {
  w_dir : dir;
  w_metadata : option bytes;
  w_state : raftpb.HardState;
  w_start : Snapshot;
  w_decoder : option decoder;
  w_enti : Z;
  w_encoder : option encoder;
  w_locks : list (option string);
  w_pos : nat
}.

Definition tail (w : WAL) : option string :=
  match last (w_locks w) with Some (Some n) => Some n | _ => None end.

Definition nil_deref {A} : outcome A := Panic "invalid memory address or nil pointer dereference".

Definition tail_file (w : WAL) : outcome file :=
  match tail w with
  | Some n => match dir_get (w_dir w) n with
              | Some b => Ret (File b (w_pos w))
              | None => nil_deref
              end
  | None => nil_deref
  end.

Definition put_tail (w : WAL) (f : file) : WAL :=
  match tail w with
  | Some n => MkWAL (dir_put (w_dir w) n (f_data f)) (w_metadata w) (w_state w) (w_start w)
                (w_decoder w) (w_enti w) (w_encoder w) (w_locks w) (f_pos f)
  | None => w
  end.

Definition set_encoder (w : WAL) (e : encoder) : WAL :=
  MkWAL (w_dir w) (w_metadata w) (w_state w) (w_start w) (w_decoder w) (w_enti w) (Some e)
    (w_locks w) (w_pos w).
Definition set_enti (w : WAL) (i : Z) : WAL :=
  MkWAL (w_dir w) (w_metadata w) (w_state w) (w_start w) (w_decoder w) i (w_encoder w)
    (w_locks w) (w_pos w).
Definition set_state (w : WAL) (st : raftpb.HardState) : WAL :=
  MkWAL (w_dir w) (w_metadata w) st (w_start w) (w_decoder w) (w_enti w) (w_encoder w)
    (w_locks w) (w_pos w).
Definition set_locks (w : WAL) (ls : list (option string)) : WAL :=
  MkWAL (w_dir w) (w_metadata w) (w_state w) (w_start w) (w_decoder w) (w_enti w)
    (w_encoder w) ls (w_pos w).

(** [w.encoder.encode(rec)]. *)
Definition w_encode (w : WAL) (rec : Record_) : outcome WAL :=
  match w_encoder w with
  | None => nil_deref
  | Some e =>
      f ← tail_file w;
      '(e', f') ← encode e f rec;
      Ret (set_encoder (put_tail w f') e')
  end.

Definition record (type : Z) (data : option bytes) : Record_ := MkRecord type 0 data [].

(** The encoder sets the checksum of the record it writes; that of a checksum
    record is the one the encoder was created with. *)
Definition saveCrc (w : WAL) (prevCrc : Z) : outcome WAL :=
  w_encode w (MkRecord CrcType prevCrc None []).

(** [w.sync()]: flush the encoder. *)
Definition sync (w : WAL) : outcome WAL :=
  match w_encoder w with
  | None => Ret w
  | Some e =>
      f ← tail_file w;
      let '(e', f') := encoder_flush e f in
      Ret (set_encoder (put_tail w f') e')
  end.

Section Wal.
Context `{L : RaftLib} `{C : RaftCodec}.
Variable SegmentSizeBytes : nat.

Definition saveEntry (w : WAL) (e : raftpb.Entry) : outcome WAL :=
  w1 ← w_encode w (record EntryType (Some (Entry_Marshal e)));
  Ret (set_enti w1 (raftpb.Index e)).

Definition saveState (w : WAL) (s : raftpb.HardState) : outcome WAL :=
  if IsEmptyHardState s then Ret w
  else w_encode (set_state w s) (record StateType (Some (HardState_Marshal s))).

Definition SaveSnapshot (w : WAL) (e : Snapshot) : outcome (WAL * option error) :=
  match ValidateSnapshotForWrite e with
  | Some err => Ret (w, Some err)
  | None =>
      w1 ← w_encode w (record SnapshotType (Some (WalSnapshot.Snapshot_Marshal_ e)));
      let w2 := if w_enti w1 <? Index e then set_enti w1 (Index e) else w1 in
      w3 ← sync w2;
      Ret (w3, None)
  end.

(** The sequence number of the last locked file. *)
Definition seq (w : WAL) : outcome Z :=
  match tail w with
  | None => Ret 0
  | Some n => match parseWALName n with
              | inr (s, _) => Ret s
              | inl _ => Panic "failed to parse WAL name"
              end
  end.

(** [w.fp.Open()]: a fresh file of the size of a segment, all zero. *)
Definition fp_Open : file := f_Preallocate (File [] 0) SegmentSizeBytes.

(** [cut]: the file is truncated at the position reached before the buffer is
    flushed; the new segment, written under a temporary name and renamed,
    starts with the checksum, the metadata and the hard state. *)
Definition cut (w : WAL) : outcome WAL :=
  f ← tail_file w;
  let off := f_pos f in
  w1 ← sync (put_tail w (f_Truncate f off));
  s ← seq w1;
  let fpath := walName (u64 (s + 1)) (u64 (w_enti w1 + 1)) in
  match w_encoder w1 with
  | None => nil_deref
  | Some e =>
      let prevCrc := crc_Sum32 (ecrc e) in
      let nf := fp_Open in
      let w2 := MkWAL (dir_put (w_dir w1) fpath (f_data nf)) (w_metadata w1) (w_state w1)
                  (w_start w1) (w_decoder w1) (w_enti w1) (Some (newFileEncoder nf prevCrc))
                  (w_locks w1 ++ [Some fpath]) (f_pos nf) in
      w3 ← saveCrc w2 prevCrc;
      w4 ← w_encode w3 (record MetadataType (w_metadata w3));
      w5 ← saveState w4 (w_state w4);
      w6 ← sync w5;
      f6 ← tail_file w6;
      match w_encoder w6 with
      | None => nil_deref
      | Some e6 => Ret (set_encoder w6 (newFileEncoder f6 (crc_Sum32 (ecrc e6))))
      end
  end.

Fixpoint save_entries (w : WAL) (ents : list raftpb.Entry) : outcome WAL :=
  match ents with
  | [] => Ret w
  | e :: ents' => w1 ← saveEntry w e; save_entries w1 ents'
  end.

Definition Save (w : WAL) (st : raftpb.HardState) (ents : list raftpb.Entry) : outcome WAL :=
  if IsEmptyHardState st && (length ents =? 0)%nat then Ret w
  else
    let mustSync := MustSync st (w_state w) (length ents) in
    w1 ← save_entries w ents;
    w2 ← saveState w1 st;
    f ← tail_file w2;
    if Z.of_nat (f_pos f) <? Z.of_nat SegmentSizeBytes then
      if mustSync then sync w2 else Ret w2
    else cut w2.

(** [Create]: the first segment is written in a temporary directory that then
    replaces the directory, so that creation is atomic. *)
Definition Create (d : dir) (metadata : option bytes) : outcome (dir * result WAL) :=
  if Exist d then Ret (d, inl ErrExist)
  else
    let p := walName 0 0 in
    let f := f_Preallocate (File [] 0) SegmentSizeBytes in
    let w := MkWAL [(p, f_data f)] metadata raftpb.emptyState empty_Snapshot None 0
               (Some (newFileEncoder f 0)) [Some p] (f_pos f) in
    w1 ← saveCrc w 0;
    w2 ← w_encode w1 (record MetadataType metadata);
    '(w3, err) ← SaveSnapshot w2 empty_Snapshot;
    match err with
    | Some e => Ret (d, inl e)
    | None => Ret (w_dir w3, inr w3)
    end.

(** *** Opening *)

Definition selectWALFiles (d : dir) (snap : Snapshot) : outcome (result (list string * nat)) :=
  match readWALNames d with
  | inl e => Ret (inl e)
  | inr names =>
      found ← searchIndex names (Index snap);
      match found with
      | None => Ret (inl (OtherError "wal: file not found which matches the snapshot index"))
      | Some nameIndex =>
          ok ← isValidSeq (drop nameIndex names);
          if negb ok
          then Ret (inl (OtherError "wal: file sequence numbers do not increase continuously"))
          else Ret (inr (names, nameIndex))
      end
  end.

(** [openWALFiles]: the contents of the files from [nameIndex] on, and their
    locks. *)
Definition openWALFiles (d : dir) (names : list string) (nameIndex : nat) (write : bool)
    : list bytes * list (option string) :=
  let ns := drop nameIndex names in
  (omap (dir_get d) ns, if write then map Some ns else map (fun _ => None) ns).

Definition openAtIndex (d : dir) (snap : Snapshot) (write : bool) : outcome (result WAL) :=
  r ← selectWALFiles d snap;
  match r with
  | inl e => Ret (inl e)
  | inr (names, nameIndex) =>
      let '(rs, ls) := openWALFiles d names nameIndex write in
      Ret (inr (MkWAL d None raftpb.emptyState snap (Some (NewDecoder rs)) 0 None ls 0))
  end.

Definition Open (d : dir) (snap : Snapshot) : outcome (result WAL) := openAtIndex d snap true.
Definition OpenForRead (d : dir) (snap : Snapshot) : outcome (result WAL) :=
  openAtIndex d snap false.

(** *** Reading *)

(** What the loop of [ReadAll] gathers. *)
Record gathered := MkGathered {
  g_ents : list raftpb.Entry;
  g_state : raftpb.HardState;
  g_metadata : option bytes;
  g_match : bool;
  g_enti : Z
}.

(** What [ReadAll] returns. *)
Definition read_result : Type :=
  option bytes * raftpb.HardState * list raftpb.Entry * option error.

(** A return from inside the loop, with the index of the last entry read. *)
Definition early : Type := Z * read_result.

Definition failed (a : gathered) (e : error) : early :=
  (g_enti a, (None, raftpb.emptyState, [], Some e)).

(** The case of entries: those above the start are placed at their offset and
    cut what was there. *)
Definition read_entry (start : Snapshot) (a : gathered) (e : raftpb.Entry) : early + gathered :=
  let put ents :=
    inr (MkGathered ents (g_state a) (g_metadata a) (g_match a) (raftpb.Index e)) in
  if Index start <? raftpb.Index e then
    let offset := u64 (raftpb.Index e - Index start - 1) in
    if Z.of_nat (length (g_ents a)) <? offset
    then inl (g_enti a, (None, g_state a, g_ents a, Some ErrSliceOutOfRange))
    else put (take (Z.to_nat offset) (g_ents a) ++ [e])
  else put (g_ents a).

Definition read_metadata (a : gathered) (data : option bytes) : early + gathered :=
  match g_metadata a with
  | Some m =>
      if decide (m = default [] data)
      then inr (MkGathered (g_ents a) (g_state a) data (g_match a) (g_enti a))
      else inl (failed a ErrMetadataConflict)
  | None => inr (MkGathered (g_ents a) (g_state a) data (g_match a) (g_enti a))
  end.

Definition read_snapshot (start : Snapshot) (a : gathered) (snap : Snapshot) : early + gathered :=
  if Index snap =? Index start then
    if negb (Term snap =? Term start) then inl (failed a ErrSnapshotMismatch)
    else inr (MkGathered (g_ents a) (g_state a) (g_metadata a) true (g_enti a))
  else inr a.

(** The case of checksum records, shared by the loops: the decoder's checksum,
    unless it is that of a new decoder, must be the record's. *)
Definition check_crc {A R} (d : decoder) (rec : Record_) (bad : R) (a : A)
    : outcome (decoder * (R + A)) :=
  let crc := LastCRC d in
  if negb (crc =? 0) && match Validate rec crc with Some _ => true | None => false end
  then Ret (d, inl bad)
  else Ret (UpdateCRC d (Crc rec), inr a).

Definition must {A} (r : result A) : outcome A :=
  match r with inr a => Ret a | inl _ => Panic "unmarshal should never fail" end.

Definition read_body (start : Snapshot) (a : gathered) (rec : Record_) (d : decoder)
    : outcome (decoder * (early + gathered)) :=
  let data := default [] (Data rec) in
  if Type_ rec =? EntryType then
    e ← must (Entry_Unmarshal data); Ret (d, read_entry start a e)
  else if Type_ rec =? StateType then
    s ← must (HardState_Unmarshal data);
    Ret (d, inr (MkGathered (g_ents a) s (g_metadata a) (g_match a) (g_enti a)))
  else if Type_ rec =? MetadataType then Ret (d, read_metadata a (Data rec))
  else if Type_ rec =? CrcType then check_crc d rec (failed a ErrCRCMismatch) a
  else if Type_ rec =? SnapshotType then
    s ← must (WalSnapshot.Snapshot_Unmarshal_ data); Ret (d, read_snapshot start a s)
  else Ret (d, inl (failed a (OtherError "unexpected block type"))).

(** The log after reading: start and decoder are cleared, and in write mode the
    encoder continues the decoder's checksum at the position reached. *)
Definition opened (w : WAL) (d : dir) (metadata : option bytes) (enti : Z) (pos : nat)
    (enc : option encoder) : WAL :=
  MkWAL d metadata (w_state w) empty_Snapshot None enti enc (w_locks w) pos.

Definition ReadAll (w : WAL) : outcome (WAL * read_result) :=
  match w_decoder w with
  | None => Ret (w, (None, raftpb.emptyState, [], Some ErrDecoderNotFound))
  | Some dec =>
      let a0 := MkGathered [] raftpb.emptyState None false (w_enti w) in
      '(d, r) ← loop (read_body (w_start w)) a0 dec;
      let stop enti res :=
        Ret (MkWAL (w_dir w) (w_metadata w) (w_state w) (w_start w) (Some d) enti
               (w_encoder w) (w_locks w) (w_pos w), res) in
      match r with
      | inl (enti, res) => stop enti res
      | inr (a, err) =>
          let fail e := stop (g_enti a) (None, raftpb.emptyState, [], Some e) in
          let notfound := if g_match a then None else Some ErrSnapshotNotFound in
          match tail w with
          | None =>
              if negb (bool_decide (err = EOF)) && negb (bool_decide (err = ErrUnexpectedEOF))
              then fail err
              else Ret (opened w (w_dir w) (g_metadata a) (g_enti a) (w_pos w) (w_encoder w),
                        (g_metadata a, g_state a, g_ents a, notfound))
          | Some n =>
              if negb (bool_decide (err = EOF)) then fail err
              else
                f ← tail_file w;
                let f' := ZeroToEnd (f_Seek f (Z.to_nat (LastOffset d))) in
                (** the result of creating the encoder replaces [notfound] *)
                Ret (opened w (dir_put (w_dir w) n (f_data f')) (g_metadata a) (g_enti a)
                       (f_pos f') (Some (newFileEncoder f' (LastCRC d))),
                     (g_metadata a, g_state a, g_ents a, None))
          end
      end
  end.

(** [ValidSnapshotEntries]: the loop gathers the snapshot records and the last
    hard state; the snapshots above its commit index are dropped. *)
Definition snaps_body (a : list Snapshot * raftpb.HardState) (rec : Record_) (d : decoder)
    : outcome (decoder * (error + list Snapshot * raftpb.HardState)) :=
  let data := default [] (Data rec) in
  if Type_ rec =? SnapshotType then
    s ← must (WalSnapshot.Snapshot_Unmarshal_ data); Ret (d, inr (fst a ++ [s], snd a))
  else if Type_ rec =? StateType then
    s ← must (HardState_Unmarshal data); Ret (d, inr (fst a, s))
  else if Type_ rec =? CrcType then check_crc d rec ErrCRCMismatch a
  else Ret (d, inr a).

Definition ValidSnapshotEntries (d : dir) : outcome (result (list Snapshot)) :=
  match readWALNames d with
  | inl e => Ret (inl e)
  | inr names =>
      let '(rs, _) := openWALFiles d names 0 false in
      '(_, r) ← loop snaps_body ([], raftpb.emptyState) (NewDecoder rs);
      match r with
      | inl e => Ret (inl e)
      | inr ((snaps, state), err) =>
          if negb (bool_decide (err = EOF)) && negb (bool_decide (err = ErrUnexpectedEOF))
          then Ret (inl err)
          else Ret (inr (List.filter (fun s => Index s <=? raftpb.hs_Commit state) snaps))
      end
  end.

(** [Verify]. *)
Definition verify_body (snap : Snapshot) (a : option bytes * bool * raftpb.HardState)
    (rec : Record_) (d : decoder)
    : outcome (decoder * (error + option bytes * bool * raftpb.HardState)) :=
  let '(metadata, matched, state) := a in
  let data := default [] (Data rec) in
  if Type_ rec =? MetadataType then
    match metadata with
    | Some m => if decide (m = data) then Ret (d, inr (Data rec, matched, state))
                else Ret (d, inl ErrMetadataConflict)
    | None => Ret (d, inr (Data rec, matched, state))
    end
  else if Type_ rec =? CrcType then check_crc d rec ErrCRCMismatch a
  else if Type_ rec =? SnapshotType then
    s ← must (WalSnapshot.Snapshot_Unmarshal_ data);
    if Index s =? Index snap then
      if negb (Term s =? Term snap) then Ret (d, inl ErrSnapshotMismatch)
      else Ret (d, inr (metadata, true, state))
    else Ret (d, inr a)
  else if Type_ rec =? EntryType then Ret (d, inr a)
  else if Type_ rec =? StateType then
    s ← must (HardState_Unmarshal data); Ret (d, inr (metadata, matched, s))
  else Ret (d, inl (OtherError "unexpected block type")).

Definition Verify (dr : dir) (snap : Snapshot) : outcome (result raftpb.HardState) :=
  sel ← selectWALFiles dr snap;
  match sel with
  | inl e => Ret (inl e)
  | inr (names, nameIndex) =>
      let '(rs, _) := openWALFiles dr names nameIndex false in
      '(_, r) ← loop (verify_body snap) (None, false, raftpb.emptyState) (NewDecoder rs);
      match r with
      | inl e => Ret (inl e)
      | inr ((_, matched, state), err) =>
          if negb (bool_decide (err = EOF)) && negb (bool_decide (err = ErrUnexpectedEOF))
          then Ret (inl err)
          else if negb matched then Ret (inl ErrSnapshotNotFound)
          else Ret (inr state)
      end
  end.

End Wal.

(** *** Releasing, closing, repairing *)

(** The loop of [ReleaseLockTo]: the position of the first lock whose index is
    not below the given one. *)
Fixpoint first_at (ls : list (option string)) (index : Z) (i : nat)
    : outcome (result (option nat)) :=
  match ls with
  | [] => Ret (inr None)
  | None :: _ => nil_deref
  | Some n :: ls' =>
      match parseWALName n with
      | inl e => Ret (inl e)
      | inr (_, lockIndex) =>
          if index <=? lockIndex then Ret (inr (Some i)) else first_at ls' index (S i)
      end
  end.

Definition ReleaseLockTo (w : WAL) (index : Z) : outcome (WAL * option error) :=
  match w_locks w with
  | [] => Ret (w, None)
  | ls =>
      found ← first_at ls index 0;
      match found with
      | inl e => Ret (w, Some e)
      | inr r =>
          let smaller := match r with
                         | Some i => Z.of_nat i - 1
                         | None => Z.of_nat (length ls) - 1
                         end in
          if smaller <=? 0 then Ret (w, None)
          else Ret (set_locks w (drop (Z.to_nat smaller) ls), None)
      end
  end.

(** [Close]; a log opened for reading only holds no directory. *)
Definition Close (w : WAL) : outcome (WAL * option error) :=
  match tail w with
  | Some _ => w1 ← sync w; Ret (w1, None)
  | None => Ret (w, Some (OtherError "invalid argument"))
  end.

(** [Repair]: read the last file; at an unexpected end keep a copy and cut the
    file after the last whole record. *)
Definition repair_body (lastOffset : Z) (rec : Record_) (d : decoder)
    : outcome (decoder * (bool + Z)) :=
  if Type_ rec =? CrcType then
    '(d', r) ← check_crc d rec false lastOffset;
    match r with
    | inl b => Ret (d', inl b)
    | inr _ => Ret (d', inr (LastOffset d'))
    end
  else Ret (d, inr (LastOffset d)).

Definition Repair (d : dir) : outcome (dir * bool) :=
  match readWALNames d with
  | inl _ => Ret (d, false)
  | inr names =>
      match last names ≫= fun n => b ← dir_get d n; Some (n, b) with
      | None => Ret (d, false)
      | Some (n, b) =>
          '(_, r) ← loop repair_body 0 (NewDecoder [b]);
          match r with
          | inl ok => Ret (d, ok)
          | inr (lastOffset, err) =>
              if decide (err = EOF) then Ret (d, true)
              else if decide (err = ErrUnexpectedEOF)
              then
                let d1 := dir_put d (n ++ ".broken") b in
                Ret (dir_put d1 n (resize (Z.to_nat lastOffset) x00 b), true)
              else Ret (d, false)
          end
      end
  end.
