(* ===== verification/WalRep.v ===== *)
(** * The files of the write-ahead log

    What the bytes of the segment files stand for: the records the log was
    asked to write, their checksums chained over the segments.  [rep] relates
    a log open for appending to the records of its segments, and the lemmas
    show that writing a record, flushing and cutting keep it. *)

From S2P Require Import Prelude Errors Utils RaftApi WalRecord WalIo WalFrame WalNames EtcdWal.
From Stdlib Require Import Strings.Byte.
Import walpb.

(** ** Records as they were asked for *)

Inductive lrec : Type :=
  | LCrc
  | LMeta (m : option bytes)
  | LState (s : raftpb.HardState)
  | LEntry (e : raftpb.Entry)
  | LSnap (s : Snapshot).

(** A segment: the index in its name and its records. *)
Abbreviation lseg := (Z * list lrec)%type.

Section Raw.
Context `{C : RaftCodec}.

Definition raw (l : lrec) : Record_ :=
  match l with
  | LCrc => record CrcType None
  | LMeta m => record MetadataType m
  | LState s => record StateType (Some (HardState_Marshal s))
  | LEntry e => record EntryType (Some (Entry_Marshal e))
  | LSnap s => record SnapshotType (Some (WalSnapshot.Snapshot_Marshal_ s))
  end.

(** The record written after a chain of checksums that ends in [crc]. *)
Definition stamp (crc : Z) (l : lrec) : Record_ :=
  with_crc (raw l) (crc_Write crc (default [] (Data (raw l)))).

Fixpoint stamps (crc : Z) (ls : list lrec) : list Record_ :=
  match ls with
  | [] => []
  | l :: ls' => let r := stamp crc l in r :: stamps (Crc r) ls'
  end.

Definition crc_after (crc : Z) (ls : list lrec) : Z := last_crc crc (stamps crc ls).

(** The data is far from the limits of the format. *)
Definition lrec_ok (l : lrec) : Prop :=
  Z.of_nat (length (default [] (Data (raw l)))) < 2 ^ 48 /\
  match l with LSnap s => SnapshotCodec.snap_fits s | _ => True end.

Lemma stamps_app crc a b : stamps crc (a ++ b) = stamps crc a ++ stamps (crc_after crc a) b.
Proof.
  revert crc. induction a as [|l a IH]; intros crc; [done|]. cbn [app stamps].
  rewrite IH. done.
Qed.

Lemma crc_after_app crc a b : crc_after crc (a ++ b) = crc_after (crc_after crc a) b.
Proof. unfold crc_after, last_crc. by rewrite stamps_app, fold_left_app. Qed.

Lemma chained_stamps crc ls : chained crc (stamps crc ls).
Proof.
  revert crc. induction ls as [|l ls IH]; intros crc; [done|]. cbn [stamps chained].
  split; [|apply IH]. unfold links. destruct l; simpl; try done.
  by rewrite crc_Write_nil.
Qed.

Lemma stamp_u32 crc l : is_u32 crc -> is_u32 (Crc (stamp crc l)).
Proof. intros H. unfold stamp; simpl. by apply crc_Write_u32. Qed.

Lemma stamp_small crc l : is_u32 crc -> lrec_ok l -> small (stamp crc l).
Proof.
  intros Hc [Hl _]. pose proof (stamp_u32 crc l Hc) as Hu.
  assert (RecordCodec.fits (stamp crc l)) as Hf.
  { split; [destruct l; simpl; unfold CrcType, MetadataType, StateType, EntryType, SnapshotType; lia|]. split; [exact Hu|].
    split; [destruct l; simpl in *; lia|by destruct l]. }
  split; [done|]. rewrite RecordCodec.Record_Size_exact.
  - unfold Record_Size. destruct Hf as (Ht & Hcr & Hd & Hun). rewrite Hun. simpl length.
    assert (forall v, is_u64 v -> sovRecord v <= 10) as Hs.
    { intros v Hv. rewrite <- sov_exact by done. pose proof (RecordCodec.length_varint v). lia. }
    pose proof (Hs (u64 (Type_ (stamp crc l))) (u64_range _)).
    pose proof (Hs (Crc (stamp crc l)) ltac:(word)).
    assert (Data (stamp crc l) = Data (raw l)) as Ed by done. rewrite Ed.
    destruct (Data (raw l)) as [b|] eqn:E; cbv zeta; [simpl in Hl|lia].
    pose proof (Hs (Z.of_nat (length b)) ltac:(word)). lia.
  - exact Hu.
  - destruct l; simpl in *; lia.
Qed.

Lemma stamps_small crc ls : is_u32 crc -> Forall lrec_ok ls ->
  Forall small (stamps crc ls) /\ is_u32 (crc_after crc ls).
Proof.
  revert crc. induction ls as [|l ls IH]; intros crc Hc Hl; [done|].
  apply Forall_cons in Hl as [Hl Hls]. cbn [stamps].
  destruct (IH (Crc (stamp crc l))) as [H1 H2]; [by apply stamp_u32|done|].
  split; [|done]. apply Forall_cons. split; [by apply stamp_small|done].
Qed.

(** ** Segments *)

Definition all_recs (ss : list lseg) : list lrec := concat (map snd ss).

Fixpoint stamp_segs (crc : Z) (ss : list lseg) : list (list Record_) :=
  match ss with
  | [] => []
  | s :: ss' => stamps crc (snd s) :: stamp_segs (crc_after crc (snd s)) ss'
  end.

Lemma stamp_segs_app crc a b :
  stamp_segs crc (a ++ b) = stamp_segs crc a ++ stamp_segs (crc_after crc (all_recs a)) b.
Proof.
  revert crc. induction a as [|s a IH]; intros crc; [done|]. cbn [app stamp_segs].
  rewrite IH. unfold all_recs. simpl. by rewrite crc_after_app.
Qed.

Lemma concat_stamp_segs crc ss : concat (stamp_segs crc ss) = stamps crc (all_recs ss).
Proof.
  revert crc. induction ss as [|s ss IH]; intros crc; [done|]. simpl.
  rewrite IH. unfold all_recs. simpl. by rewrite stamps_app.
Qed.

Lemma length_stamp_segs crc ss : length (stamp_segs crc ss) = length ss.
Proof. revert crc. induction ss as [|s ss IH]; intros crc; [done|]. simpl. by rewrite IH. Qed.

(** The sequence numbers and indices of the names, from [from] on. *)
Fixpoint pairs (from : Z) (ss : list lseg) : list (Z * Z) :=
  match ss with
  | [] => []
  | s :: ss' => (from, fst s) :: pairs (from + 1) ss'
  end.

Lemma pairs_app from a b : pairs from (a ++ b) = pairs from a ++ pairs (from + Z.of_nat (length a)) b.
Proof.
  revert from. induction a as [|s a IH]; intros from; [simpl; by rewrite Z.add_0_r|].
  cbn [app pairs]. rewrite IH. simpl. do 3 f_equal. lia.
Qed.

Lemma length_pairs from ss : length (pairs from ss) = length ss.
Proof. revert from. induction ss as [|s ss IH]; intros from; [done|]. simpl. by rewrite IH. Qed.

Lemma pairs_lookup from ss k s : ss !! k = Some s -> pairs from ss !! k = Some (from + Z.of_nat k, fst s).
Proof.
  revert from k. induction ss as [|s' ss IH]; intros from k E; [done|].
  destruct k as [|k]; simpl in *; [injection E as ->; do 2 f_equal; lia|].
  rewrite (IH _ _ E). do 2 f_equal. lia.
Qed.

Lemma pairs_consecutive from ss : consecutive from (pairs from ss).
Proof. revert from. induction ss as [|s ss IH]; intros from; [done|]. simpl. auto. Qed.

Lemma pairs_u64 from ss : 0 <= from -> from + Z.of_nat (length ss) < two64 ->
  Forall (fun s => is_u64 (fst s)) ss -> u64_pairs (pairs from ss).
Proof.
  revert from. induction ss as [|s ss IH]; intros from H0 H1 H; [constructor|].
  apply Forall_cons in H as [Hs H]. simpl in H1. constructor; simpl.
  - split; [unfold is_u64; lia|done].
  - apply IH; [lia|lia|done].
Qed.

Definition seg_names (ss : list lseg) : list string := names_of (pairs 0 ss).

Definition contents (crc : Z) (ss : list lseg) : list bytes :=
  map (fun rs => concat (map frame rs)) (stamp_segs crc ss).

End Raw.

(** ** Directories *)

Definition above (d : dir) (n : string) : Prop :=
  Forall (fun m => m <> n /\ str_ltb n m = false) (map fst d).

Lemma dir_get_last d n b : above d n -> dir_get (d ++ [(n, b)]) n = Some b.
Proof.
  unfold above. induction d as [|[m c] d IH]; intros H; simpl; [by rewrite decide_True|].
  apply Forall_cons in H as [[Hm _] H]. simpl in Hm. rewrite decide_False by done. auto.
Qed.

Lemma dir_put_last d n b b' : above d n -> dir_put (d ++ [(n, b)]) n b' = d ++ [(n, b')].
Proof.
  unfold above. induction d as [|[m c] d IH]; intros H; simpl; [by rewrite decide_True|].
  apply Forall_cons in H as [[Hm Hl] H]. simpl in Hm, Hl.
  rewrite decide_False, Hl by done. f_equal. auto.
Qed.

Lemma dir_put_new d n b : above d n -> dir_put d n b = d ++ [(n, b)].
Proof.
  unfold above. induction d as [|[m c] d IH]; intros H; simpl; [done|].
  apply Forall_cons in H as [[Hm Hl] H]. simpl in Hm, Hl.
  rewrite decide_False, Hl by done. f_equal. auto.
Qed.

Lemma str_lt_above m n : str_lt m n -> m <> n /\ str_ltb n m = false.
Proof.
  intros H. split.
  - intros ->. by apply str_lt_irrefl in H.
  - apply not_true_iff_false. intros H'. eapply str_lt_irrefl, str_lt_trans; eassumption.
Qed.

Lemma names_below from ss s i : 0 <= from -> from + Z.of_nat (length ss) <= s < two64 ->
  Forall (fun m => str_lt m (walName s i)) (names_of (pairs from ss)).
Proof.
  revert from. induction ss as [|x ss IH]; intros from H0 H; [constructor|].
  simpl in H. cbn [pairs names_of map fst snd]. constructor.
  - apply walName_lt; lia.
  - apply IH; lia.
Qed.

Section Rep.
Context `{HC : RaftCodecLaws} `{HL : RaftLaws}.

Definition tail_name (older : list lseg) (idx : Z) : string :=
  walName (Z.of_nat (length older)) idx.

Lemma seg_names_snoc older idx tl :
  seg_names (older ++ [(idx, tl)]) = seg_names older ++ [tail_name older idx].
Proof. unfold seg_names, names_of. rewrite pairs_app, map_app. done. Qed.

Lemma length_seg_names ss : length (seg_names ss) = length ss.
Proof. unfold seg_names, names_of. by rewrite length_map, length_pairs. Qed.

Lemma length_contents crc ss : length (contents crc ss) = length ss.
Proof. unfold contents. by rewrite length_map, length_stamp_segs. Qed.

(** The closed segments of the directory. *)
Definition closed (older : list lseg) : dir := zip (seg_names older) (contents 0 older).

Lemma closed_above older s i : Z.of_nat (length older) <= s < two64 ->
  above (closed older) (walName s i).
Proof.
  intros H. unfold above, closed.
  assert (map fst (zip (seg_names older) (contents 0 older)) = seg_names older) as ->.
  { apply fst_zip. rewrite length_seg_names, length_contents. done. }
  eapply Forall_impl; [apply (names_below 0 older s i); lia|].
  intros m Hm. by apply str_lt_above.
Qed.

(** The records before the last segment. *)
Definition crc_before (older : list lseg) : Z := crc_after 0 (all_recs older).

(** A log open for appending whose segments hold the records [older] and, in
    the last, [tl]: the closed segments end with their last record; the last
    one is preallocated with zeros and its end may still be in the buffer. *)
Record rep_with (w : WAL) (older : list lseg) (idx : Z) (tl : list lrec)
    (f : file) (e : encoder) (z k : nat) : Prop := {
  rep_dir : w_dir w = closed older ++ [(tail_name older idx, f_data f)];
  rep_pos : w_pos w = f_pos f;
  rep_pos_ok : pos_ok f;
  rep_encoder : w_encoder w = Some e;
  rep_pw : pw_ok (bw e) /\ pageBytes (bw e) = walPageBytes;
  rep_page : Z.of_nat (f_pos f) mod walPageBytes = pageOffset (bw e) mod walPageBytes;
  rep_bytes : take (f_pos f) (f_data f) ++ buf (bw e)
              = concat (map frame (stamps (crc_before older) tl));
  rep_zeros : drop (f_pos f) (f_data f) = replicate z x00;
  rep_zeros_ok : z = 0%nat \/ Z.of_nat (f_pos f + z) mod 8 = 0;
  rep_crc : ecrc e = crc_after (crc_before older) tl;
  rep_locks : (k <= length older)%nat /\
              w_locks w = map Some (drop k (seg_names older ++ [tail_name older idx]));
  rep_ok : Forall lrec_ok (all_recs older ++ tl);
  rep_idx : Forall (fun s => is_u64 (fst s)) older /\ is_u64 idx;
  rep_count : Z.of_nat (length older) + 1 < two64
}.

Definition rep (w : WAL) (older : list lseg) (idx : Z) (tl : list lrec) : Prop :=
  exists f e z k, rep_with w older idx tl f e z k.

Lemma rep_tail w older idx tl f e z k : rep_with w older idx tl f e z k ->
  tail w = Some (tail_name older idx).
Proof.
  intros H. unfold tail. destruct (rep_locks _ _ _ _ _ _ _ _ H) as [Hk ->].
  rewrite drop_app_le by (rewrite length_seg_names; lia).
  rewrite map_app. simpl. by rewrite last_snoc.
Qed.

Lemma rep_above w older idx tl f e z k : rep_with w older idx tl f e z k ->
  above (closed older) (tail_name older idx).
Proof. intros H. apply closed_above. pose proof (rep_count _ _ _ _ _ _ _ _ H). lia. Qed.

Lemma rep_tail_file w older idx tl f e z k : rep_with w older idx tl f e z k ->
  tail_file w = Ret f.
Proof.
  intros H. unfold tail_file. rewrite (rep_tail _ _ _ _ _ _ _ _ H).
  rewrite (rep_dir _ _ _ _ _ _ _ _ H), dir_get_last by eauto using rep_above.
  rewrite (rep_pos _ _ _ _ _ _ _ _ H). by destruct f.
Qed.

Lemma rep_put_tail w older idx tl f e z k f' : rep_with w older idx tl f e z k ->
  put_tail w f' = MkWAL (closed older ++ [(tail_name older idx, f_data f')]) (w_metadata w)
    (w_state w) (w_start w) (w_decoder w) (w_enti w) (w_encoder w) (w_locks w) (f_pos f').
Proof.
  intros H. unfold put_tail. rewrite (rep_tail _ _ _ _ _ _ _ _ H).
  by rewrite (rep_dir _ _ _ _ _ _ _ _ H), dir_put_last by eauto using rep_above.
Qed.


(** What writing leaves alone. *)
Definition same_log (w w' : WAL) : Prop :=
  w_metadata w' = w_metadata w /\ w_state w' = w_state w /\ w_start w' = w_start w /\
  w_decoder w' = w_decoder w /\ w_enti w' = w_enti w.

Lemma f_Write_zeros f p z : pos_ok f -> drop (f_pos f) (f_data f) = replicate z x00 ->
  drop (f_pos (f_Write f p)) (f_data (f_Write f p)) = replicate (z - length p) x00.
Proof.
  unfold pos_ok, f_Write; simpl. intros Hp Hz. rewrite resize_le by done.
  rewrite app_assoc, drop_app_length'.
  - rewrite <- drop_drop, Hz. by rewrite drop_replicate.
  - rewrite length_app, length_take. lia.
Qed.

Lemma zeros_ok_write f p z : pos_ok f ->
  z = 0%nat \/ Z.of_nat (f_pos f + z) mod 8 = 0 ->
  (z - length p)%nat = 0%nat \/ Z.of_nat (f_pos (f_Write f p) + (z - length p)) mod 8 = 0.
Proof.
  intros Hp [->|Hz]; [left; lia|].
  destruct (decide (z <= length p)%nat); [left; lia|right]. simpl.
  by replace (f_pos f + length p + (z - length p))%nat with (f_pos f + z)%nat by lia.
Qed.

(** Encoding a record: the frame goes to the page writer. *)
Lemma encode_spec e f l : pw_ok (bw e) -> pos_ok f -> is_u32 (ecrc e) -> lrec_ok l ->
  exists pw' p, encode e f (raw l) = Ret (MkEncoder pw' (Crc (stamp (ecrc e) l)), f_Write f p) /\
    write_step (bw e) f (frame (stamp (ecrc e) l)) pw' p.
Proof.
  intros Hpw Hf Hc Hl. pose proof (stamp_small _ l Hc Hl) as Hs.
  unfold encode. change (with_crc _ _) with (stamp (ecrc e) l).
  rewrite prepare_spec by apply Hs. unfold write.
  pose proof (write_all_spec [PutUint64LE (fst (encodeFrameSize
    (Z.of_nat (length (Record_Marshal (stamp (ecrc e) l))))));
    Record_Marshal (stamp (ecrc e) l) ++ replicate (Z.to_nat (pad (Z.of_nat
      (length (Record_Marshal (stamp (ecrc e) l)))))) x00] (bw e) f Hpw Hf)
    as (pw' & p & E & Hstep).
  rewrite frame_spec by done. cbn [concat] in Hstep. rewrite app_nil_r in Hstep.
  exists pw', p. split; [|exact Hstep].
  cbn [write_all] in E. unfold mbind, outcome_bind in E |- *.
  destruct (Write (bw e) f _) as [[w1 f1]| |]; [|done|done].
  destruct (Write w1 f1 _) as [[w2 f2]| |]; [|done|done].
  injection E as -> ->. done.
Qed.

Lemma take_frames crc tl l : concat (map frame (stamps crc (tl ++ [l])))
  = concat (map frame (stamps crc tl)) ++ frame (stamp (crc_after crc tl) l).
Proof. rewrite stamps_app, map_app, concat_app. simpl. by rewrite app_nil_r. Qed.

Lemma rep_crc_u32 w older idx tl f e z k : rep_with w older idx tl f e z k ->
  is_u32 (crc_before older) /\ is_u32 (ecrc e).
Proof.
  intros H. destruct (proj1 (Forall_app _ _ _) (rep_ok _ _ _ _ _ _ _ _ H)) as [H1 H2].
  destruct (stamps_small 0 (all_recs older)) as [_ Hu]; [done|done|].
  split; [done|]. rewrite (rep_crc _ _ _ _ _ _ _ _ H).
  by destruct (stamps_small (crc_before older) tl).
Qed.

(** Appending bytes through the page writer, as encoding and flushing do. *)
Lemma rep_write w older idx tl tl' f e z k p pw' :
  rep_with w older idx tl f e z k ->
  pw_ok pw' -> pageBytes pw' = walPageBytes ->
  pageOffset pw' mod walPageBytes
    = (pageOffset (bw e) + Z.of_nat (length p)) mod walPageBytes ->
  concat (map frame (stamps (crc_before older) tl'))
    = (take (f_pos f) (f_data f) ++ p) ++ buf pw' ->
  Forall lrec_ok (all_recs older ++ tl') ->
  let e' := MkEncoder pw' (crc_after (crc_before older) tl') in
  let w' := set_encoder (put_tail w (f_Write f p)) e' in
  rep_with w' older idx tl' (f_Write f p) e' (z - length p) k /\ same_log w w' /\
  w_locks w' = w_locks w.
Proof.
  intros H Hpw Hpb Hpo Eb Hok e' w'. pose proof (rep_pos_ok _ _ _ _ _ _ _ _ H) as Hp.
  subst w'. rewrite (rep_put_tail _ _ _ _ _ _ _ _ _ H).
  split; [|split; [repeat split|done]]. constructor; simpl; try done.
  - apply f_Write_pos_ok.
  - rewrite Hpo, Nat2Z.inj_add, Z.add_mod, (rep_page _ _ _ _ _ _ _ _ H), <- Z.add_mod by done. done.
  - pose proof (f_Write_prefix f p Hp) as E. simpl in E. rewrite E. by symmetry.
  - apply (f_Write_zeros f p z Hp). apply H.
  - apply (zeros_ok_write f p z Hp). apply H.
  - apply H.
  - apply H.
  - apply H.
Qed.

Lemma encode_rep w older idx tl f e z k l : rep_with w older idx tl f e z k -> lrec_ok l ->
  exists w' f' e' z', w_encode w (raw l) = Ret w' /\
    rep_with w' older idx (tl ++ [l]) f' e' z' k /\ same_log w w' /\ w_locks w' = w_locks w.
Proof.
  intros H Hl. destruct (rep_crc_u32 _ _ _ _ _ _ _ _ H) as [_ Hu].
  destruct (rep_pw _ _ _ _ _ _ _ _ H) as [Hpw Hpb].
  destruct (encode_spec e f l Hpw (rep_pos_ok _ _ _ _ _ _ _ _ H) Hu Hl)
    as (pw' & p & E & Ew & Ep & Eo & _ & Hpw').
  rewrite Hpb in Eo. unfold w_encode. rewrite (rep_encoder _ _ _ _ _ _ _ _ H), (rep_tail_file _ _ _ _ _ _ _ _ H).
  cbn [mbind outcome_bind]. rewrite E. cbn [mbind outcome_bind].
  rewrite (rep_crc _ _ _ _ _ _ _ _ H) in *.
  assert (Crc (stamp (crc_after (crc_before older) tl) l)
          = crc_after (crc_before older) (tl ++ [l])) as -> by (by rewrite crc_after_app).
  destruct (rep_write _ _ _ _ (tl ++ [l]) _ _ _ _ p pw' H) as (H1 & H2 & H3).
  - done.
  - by rewrite Ep.
  - exact Eo.
  - rewrite take_frames, <- (rep_bytes _ _ _ _ _ _ _ _ H), <- app_assoc, Ew, app_assoc. done.
  - rewrite app_assoc. apply Forall_app. split; [apply H|by constructor].
  - eexists _, _, _, _. split; [reflexivity|]. split; [exact H1|done].
Qed.

Lemma sync_rep w older idx tl f e z k : rep_with w older idx tl f e z k ->
  exists w' f' e', sync w = Ret w' /\
    rep_with w' older idx tl f' e' (z - length (buf (bw e))) k /\
    buf (bw e') = [] /\ same_log w w' /\ w_locks w' = w_locks w.
Proof.
  intros H. destruct (rep_pw _ _ _ _ _ _ _ _ H) as [Hpw Hpb].
  unfold sync. rewrite (rep_encoder _ _ _ _ _ _ _ _ H), (rep_tail_file _ _ _ _ _ _ _ _ H).
  simpl. unfold encoder_flush.
  destruct (flush_spec (bw e) f Hpw (rep_pos_ok _ _ _ _ _ _ _ _ H)) as (off & -> & Ho & Eo).
  rewrite Hpb in Eo. rewrite (rep_crc _ _ _ _ _ _ _ _ H).
  destruct (rep_write _ _ _ _ tl _ _ _ _ (buf (bw e)) (MkPageWriter off (pageBytes (bw e)) []) H)
    as (H1 & H2 & H3).
  - destruct Hpw as (Hb & _ & _). split; [done|]. split; [done|]. left.
    unfold buffered, defaultBufferBytes; simpl; lia.
  - done.
  - exact Eo.
  - simpl. rewrite app_nil_r. symmetry. apply H.
  - apply H.
  - eexists _, _, _. split; [reflexivity|]. split; [exact H1|done].
Qed.


(** The files do not depend on the fields of the log in memory. *)
Lemma rep_with_fields w older idx tl f e z k w' : rep_with w older idx tl f e z k ->
  w_dir w' = w_dir w -> w_pos w' = w_pos w -> w_encoder w' = w_encoder w ->
  w_locks w' = w_locks w -> rep_with w' older idx tl f e z k.
Proof. intros [] E1 E2 E3 E4. constructor; congruence || done || (rewrite E4; done). Qed.

Lemma truncate_rep w older idx tl f e z k : rep_with w older idx tl f e z k ->
  let f' := f_Truncate f (f_pos f) in
  let w' := put_tail w f' in
  rep_with w' older idx tl f' e 0 k /\ same_log w w' /\ w_locks w' = w_locks w.
Proof.
  intros H f' w'. pose proof (rep_pos_ok _ _ _ _ _ _ _ _ H) as Hp. unfold pos_ok in Hp.
  subst w'. rewrite (rep_put_tail _ _ _ _ _ _ _ _ _ H).
  split; [|split; [repeat split|done]]. subst f'. unfold f_Truncate.
  rewrite resize_le by done.
  constructor; simpl; try done; try apply H.
  - unfold pos_ok; simpl. rewrite length_take. lia.
  - rewrite take_take, Nat.min_id. apply H.
  - apply drop_ge. rewrite length_take. lia.
  - by left.
Qed.

Lemma closed_snoc older idx tl :
  closed (older ++ [(idx, tl)]) = closed older ++
    [(tail_name older idx, concat (map frame (stamps (crc_before older) tl)))].
Proof.
  unfold closed. rewrite seg_names_snoc. unfold contents. rewrite stamp_segs_app, map_app.
  rewrite zip_with_app by (rewrite length_map, length_stamp_segs, length_seg_names; done).
  done.
Qed.

(** A flushed segment without zeros holds its records and nothing more. *)
Lemma rep_exact w older idx tl f e k : rep_with w older idx tl f e 0 k -> buf (bw e) = [] ->
  f_data f = concat (map frame (stamps (crc_before older) tl)).
Proof.
  intros H Hb. rewrite <- (rep_bytes _ _ _ _ _ _ _ _ H), Hb, app_nil_r.
  rewrite take_ge; [done|]. pose proof (f_equal length (rep_zeros _ _ _ _ _ _ _ _ H)) as E.
  rewrite length_drop in E. simpl in E. lia.
Qed.

Lemma rep_seq w older idx tl f e z k : rep_with w older idx tl f e z k ->
  seq w = Ret (Z.of_nat (length older)).
Proof.
  intros H. unfold seq. rewrite (rep_tail _ _ _ _ _ _ _ _ H). unfold tail_name.
  pose proof (rep_count _ _ _ _ _ _ _ _ H). destruct (rep_idx _ _ _ _ _ _ _ _ H) as [_ Hi].
  rewrite parse_walName; [done|unfold is_u64; lia|done].
Qed.

Lemma all_recs_snoc older idx tl : all_recs (older ++ [(idx, tl)]) = all_recs older ++ tl.
Proof. unfold all_recs. rewrite map_app, concat_app. simpl. by rewrite app_nil_r. Qed.

Lemma new_encoder_ok f crc : pw_ok (bw (newFileEncoder f crc)).
Proof.
  split; [simpl; unfold walPageBytes, minSectorSize, defaultBufferBytes; lia|].
  split; [simpl; lia|]. left. unfold buffered, defaultBufferBytes; simpl; lia.
Qed.

(** The fresh segment of a cut, before anything is written to it. *)
Lemma fresh_segment w older idx tl f e k n i : rep_with w older idx tl f e 0 k ->
  buf (bw e) = [] -> is_u64 i -> Z.of_nat n mod 8 = 0 -> Z.of_nat (length older) + 2 < two64 ->
  let nf := fp_Open n in
  let fpath := walName (Z.of_nat (length older) + 1) i in
  rep_with (MkWAL (dir_put (w_dir w) fpath (f_data nf)) (w_metadata w) (w_state w)
              (w_start w) (w_decoder w) (w_enti w) (Some (newFileEncoder nf (ecrc e)))
              (w_locks w ++ [Some fpath]) (f_pos nf))
    (older ++ [(idx, tl)]) i [] nf (newFileEncoder nf (ecrc e)) n k.
Proof.
  intros H Hb Hi Hn Hcnt nf fpath.
  assert (closed (older ++ [(idx, tl)]) = w_dir w) as Ec.
  { rewrite closed_snoc, (rep_dir _ _ _ _ _ _ _ _ H), (rep_exact _ _ _ _ _ _ _ H Hb). done. }
  assert (tail_name (older ++ [(idx, tl)]) i = fpath) as En.
  { unfold tail_name, fpath. f_equal. rewrite length_app. simpl. lia. }
  assert (crc_before (older ++ [(idx, tl)]) = ecrc e) as Er.
  { unfold crc_before. rewrite all_recs_snoc, crc_after_app. symmetry. apply H. }
  assert (f_data nf = replicate n x00) as Ef.
  { unfold nf, fp_Open, f_Preallocate; simpl. by rewrite Nat.max_0_r, resize_nil. }
  constructor; cbn [w_dir w_pos w_encoder w_locks]; rewrite ?Er; try done.
  - rewrite En, <- Ec. apply dir_put_new, closed_above. rewrite length_app; simpl. lia.
  - unfold pos_ok. simpl. lia.
  - split; [apply new_encoder_ok|done].
  - right. simpl. done.
  - destruct (rep_locks _ _ _ _ _ _ _ _ H) as [Hk ->]. rewrite length_app. simpl. split; [lia|].
    rewrite En, seg_names_snoc. rewrite (drop_app_le (_ ++ [_]) [_]).
    + by rewrite map_app.
    + rewrite length_app, length_seg_names. simpl. lia.
  - rewrite app_nil_r, all_recs_snoc. apply H.
  - destruct (rep_idx _ _ _ _ _ _ _ _ H) as [H1 H2]. split; [|done].
    apply Forall_app. split; [done|by constructor].
  - rewrite length_app. simpl. lia.
Qed.


(** ** The operations *)

(** What appending keeps: the metadata and the locks. *)
Definition kept (w w' : WAL) : Prop :=
  w_metadata w' = w_metadata w /\ w_locks w' = w_locks w.

Lemma encode_step w older idx tl l : rep w older idx tl -> lrec_ok l ->
  exists w', w_encode w (raw l) = Ret w' /\ rep w' older idx (tl ++ [l]) /\ kept w w' /\
    w_state w' = w_state w /\ w_enti w' = w_enti w.
Proof.
  intros (f & e & z & k & H) Hl.
  destruct (encode_rep _ _ _ _ _ _ _ _ l H Hl) as (w' & f' & e' & z' & E & Hr & Hs & Hlk).
  exists w'. split; [done|]. split; [by exists f', e', z', k|].
  destruct Hs as (? & ? & ? & ? & ?). done.
Qed.

Lemma rep_set_enti w older idx tl i : rep w older idx tl -> rep (set_enti w i) older idx tl.
Proof. intros (f & e & z & k & H). exists f, e, z, k. by apply (rep_with_fields w). Qed.

Lemma rep_set_state w older idx tl st : rep w older idx tl -> rep (set_state w st) older idx tl.
Proof. intros (f & e & z & k & H). exists f, e, z, k. by apply (rep_with_fields w). Qed.

Lemma saveEntry_rep w older idx tl e : rep w older idx tl -> lrec_ok (LEntry e) ->
  exists w', saveEntry w e = Ret w' /\ rep w' older idx (tl ++ [LEntry e]) /\ kept w w' /\
    w_state w' = w_state w /\ w_enti w' = raftpb.Index e.
Proof.
  intros H Hl. destruct (encode_step w older idx tl (LEntry e) H Hl) as (w' & E & Hr & Hk & Hs & _).
  unfold saveEntry. simpl raw in E. rewrite E. cbn [mbind outcome_bind].
  eexists. split; [reflexivity|]. split; [by apply rep_set_enti|]. done.
Qed.

(** The index of the last entry saved. *)
Definition last_entry (enti : Z) (ents : list raftpb.Entry) : Z :=
  fold_left (fun _ e => raftpb.Index e) ents enti.

Lemma save_entries_rep ents : forall w older idx tl, rep w older idx tl ->
  Forall (fun e => lrec_ok (LEntry e)) ents ->
  exists w', save_entries w ents = Ret w' /\ rep w' older idx (tl ++ map LEntry ents) /\
    kept w w' /\ w_state w' = w_state w /\ w_enti w' = last_entry (w_enti w) ents.
Proof.
  induction ents as [|e ents IH]; intros w older idx tl H Hok; cbn [save_entries map].
  - exists w. rewrite app_nil_r. repeat split; auto.
  - apply Forall_cons in Hok as [He Hok].
    destruct (saveEntry_rep w older idx tl e H He) as (w1 & -> & H1 & [K1 K2] & S1 & E1).
    cbn [mbind outcome_bind].
    destruct (IH w1 older idx _ H1 Hok) as (w2 & -> & H2 & [K3 K4] & S2 & E2).
    exists w2. rewrite <- app_assoc in H2. simpl in H2. split; [done|]. split; [done|].
    split; [split; congruence|]. split; [congruence|]. rewrite E2, E1. done.
Qed.

(** The record a hard state is saved as, if it is. *)
Definition state_recs (st : raftpb.HardState) : list lrec :=
  if IsEmptyHardState st then [] else [LState st].

Definition new_state (w : WAL) (st : raftpb.HardState) : raftpb.HardState :=
  if IsEmptyHardState st then w_state w else st.

Lemma saveState_rep w older idx tl st : rep w older idx tl -> lrec_ok (LState st) ->
  exists w', saveState w st = Ret w' /\ rep w' older idx (tl ++ state_recs st) /\ kept w w' /\
    w_state w' = new_state w st /\ w_enti w' = w_enti w.
Proof.
  intros H Hl. unfold saveState, state_recs, new_state. destruct (IsEmptyHardState st).
  - exists w. rewrite app_nil_r. repeat split; auto.
  - destruct (encode_step (set_state w st) older idx tl (LState st)) as (w' & E & Hr & Hk & Hs & He);
      [by apply rep_set_state|done|].
    exists w'. auto.
Qed.

Lemma sync_step w older idx tl : rep w older idx tl ->
  exists w', sync w = Ret w' /\ rep w' older idx tl /\ kept w w' /\
    w_state w' = w_state w /\ w_enti w' = w_enti w.
Proof.
  intros (f & e & z & k & H).
  destruct (sync_rep _ _ _ _ _ _ _ _ H) as (w' & f' & e' & E & Hr & _ & Hs & Hlk).
  exists w'. split; [done|]. split; [by eexists _, _, _, _|].
  destruct Hs as (? & ? & ? & ? & ?). done.
Qed.

Lemma SaveSnapshot_rep w older idx tl s : rep w older idx tl -> lrec_ok (LSnap s) ->
  ValidateSnapshotForWrite s = None ->
  exists w', SaveSnapshot w s = Ret (w', None) /\ rep w' older idx (tl ++ [LSnap s]) /\
    kept w w' /\ w_state w' = w_state w /\ w_enti w' = Z.max (w_enti w) (Index s).
Proof.
  intros H Hl Hv. unfold SaveSnapshot. rewrite Hv.
  destruct (encode_step w older idx tl (LSnap s) H Hl) as (w1 & E & H1 & [K1 K2] & S1 & E1).
  simpl raw in E. rewrite E. cbn [mbind outcome_bind].
  set (w2 := if w_enti w1 <? Index s then _ else _).
  assert (rep w2 older idx (tl ++ [LSnap s]) /\ w_metadata w2 = w_metadata w1 /\
    w_locks w2 = w_locks w1 /\ w_state w2 = w_state w1 /\
    w_enti w2 = Z.max (w_enti w) (Index s)) as (H2 & M2 & L2 & S2 & E2).
  { subst w2. destruct (Z.ltb_spec (w_enti w1) (Index s)); simpl.
    - split; [by apply rep_set_enti|]. repeat split; auto. lia.
    - repeat split; auto. lia. }
  destruct (sync_step _ _ _ _ H2) as (w3 & -> & H3 & [K3 K4] & S3 & E3). cbn [mbind outcome_bind].
  exists w3. split; [done|]. split; [done|]. unfold kept. repeat split; congruence.
Qed.


(** The head of a segment that a cut starts. *)
Definition head_recs (w : WAL) : list lrec :=
  [LCrc; LMeta (w_metadata w)] ++ state_recs (w_state w).

Definition meta_ok (w : WAL) : Prop :=
  lrec_ok (LMeta (w_metadata w)) /\ lrec_ok (LState (w_state w)).

(** Writing the head and flushing it: the encoder is then made anew. *)
Lemma head_rep w older idx n : rep w older idx [] -> meta_ok w ->
  exists w', (w3 ← saveCrc w n;
    w4 ← w_encode w3 (record MetadataType (w_metadata w3));
    w5 ← saveState w4 (w_state w4);
    w6 ← sync w5;
    f6 ← tail_file w6;
    match w_encoder w6 with
    | None => nil_deref
    | Some e6 => Ret (set_encoder w6 (newFileEncoder f6 (crc_Sum32 (ecrc e6))))
    end) = Ret w' /\ rep w' older idx (head_recs w) /\ w_metadata w' = w_metadata w /\
    w_state w' = w_state w /\ w_enti w' = w_enti w.
Proof.
  intros H [Hm Hs].
  destruct (encode_step w older idx [] LCrc H) as (w3 & E3 & H3 & [K3 _] & S3 & T3).
  { split; [simpl; lia|done]. }
  change (saveCrc w n) with (w_encode w (raw LCrc)). rewrite E3. cbn [mbind outcome_bind].
  destruct (encode_step w3 older idx _ (LMeta (w_metadata w3)) H3) as (w4 & E4 & H4 & [K4 _] & S4 & T4).
  { by rewrite K3. }
  simpl raw in E4. rewrite E4. cbn [mbind outcome_bind].
  destruct (saveState_rep w4 older idx _ (w_state w4) H4) as (w5 & E5 & H5 & [K5 _] & S5 & T5).
  { by rewrite S4, S3. }
  rewrite E5. cbn [mbind outcome_bind]. destruct H5 as (f & e & z & k & H5).
  destruct (sync_rep _ _ _ _ _ _ _ _ H5) as (w6 & f6 & e6 & -> & H6 & Hb & Hsame & _).
  cbn [mbind outcome_bind]. rewrite (rep_tail_file _ _ _ _ _ _ _ _ H6).
  cbn [mbind outcome_bind]. rewrite (rep_encoder _ _ _ _ _ _ _ _ H6).
  destruct Hsame as (M6 & S6 & _ & _ & T6).
  eexists. split; [reflexivity|]. split; [|simpl; unfold new_state in S5;
    destruct (IsEmptyHardState (w_state w4)); repeat split; congruence].
  exists f6, (newFileEncoder f6 (ecrc e6)), (z - length (buf (bw e)))%nat, k.
  unfold head_recs. rewrite K3, S4, S3 in H6. rewrite <- !app_assoc in H6. destruct H6.
  constructor; try done.
  - split; [apply new_encoder_ok|done].
  - rewrite Hb in rep_bytes0. exact rep_bytes0.
Qed.

Lemma cut_rep n w older idx tl : rep w older idx tl -> meta_ok w ->
  is_u64 (w_enti w + 1) -> Z.of_nat n mod 8 = 0 -> Z.of_nat (length older) + 2 < two64 ->
  exists w', cut n w = Ret w' /\
    rep w' (older ++ [(idx, tl)]) (w_enti w + 1) (head_recs w) /\
    w_metadata w' = w_metadata w /\ w_state w' = w_state w /\ w_enti w' = w_enti w.
Proof.
  intros (f & e & z & k & H) Hm Hi Hn Hcnt. unfold cut.
  rewrite (rep_tail_file _ _ _ _ _ _ _ _ H). cbn [mbind outcome_bind].
  destruct (truncate_rep _ _ _ _ _ _ _ _ H) as (H0 & (M0 & S0 & _ & _ & T0) & _).
  destruct (sync_rep _ _ _ _ _ _ _ _ H0) as (w1 & f1 & e1 & -> & H1 & Hb & Hs1 & _).
  destruct Hs1 as (M1 & S1 & _ & _ & T1). cbn [mbind outcome_bind].
  rewrite (rep_seq _ _ _ _ _ _ _ _ H1). cbn [mbind outcome_bind].
  rewrite (rep_encoder _ _ _ _ _ _ _ _ H1).
  assert (u64 (w_enti w1 + 1) = w_enti w + 1) as ->
    by (rewrite T1, T0; by apply u64_small).
  rewrite (u64_small (Z.of_nat (length older) + 1)) by (unfold is_u64; lia).
  pose proof (fresh_segment w1 older idx tl f1 e1 k n (w_enti w + 1) H1 Hb Hi Hn Hcnt) as H2.
  cbv zeta in H2 |- *. match type of H2 with rep_with ?x _ _ _ _ _ _ _ => set (w2 := x) in * end.
  destruct (head_rep w2 (older ++ [(idx, tl)]) (w_enti w + 1) (crc_Sum32 (ecrc e1)))
    as (w' & E & Hr & M & S' & T).
  - by eexists _, _, _, _.
  - destruct Hm as [Hm1 Hm2]. unfold meta_ok, w2; simpl. rewrite M1, S1, M0, S0. done.
  - exists w'. split; [exact E|].
    unfold head_recs, w2 in *; simpl in *. rewrite M1, S1, M0, S0 in *. split; [done|].
    repeat split; congruence.
Qed.


(** ** The log as a list of segments of records *)

Record llog := MkLog {
  ll_older : list lseg;
  ll_idx : Z;
  ll_tl : list lrec;
  ll_enti : Z;
  ll_state : raftpb.HardState;
  ll_meta : option bytes
}.

Definition rep_log (w : WAL) (lg : llog) : Prop :=
  rep w (ll_older lg) (ll_idx lg) (ll_tl lg) /\ w_enti w = ll_enti lg /\
  w_state w = ll_state lg /\ w_metadata w = ll_meta lg /\
  lrec_ok (LMeta (ll_meta lg)) /\ lrec_ok (LState (ll_state lg)).

Definition add (lg : llog) (ls : list lrec) (enti : Z) (st : raftpb.HardState) : llog :=
  MkLog (ll_older lg) (ll_idx lg) (ll_tl lg ++ ls) enti st (ll_meta lg).

Definition cut_log (lg : llog) : llog :=
  MkLog (ll_older lg ++ [(ll_idx lg, ll_tl lg)]) (ll_enti lg + 1)
    ([LCrc; LMeta (ll_meta lg)] ++ state_recs (ll_state lg)) (ll_enti lg) (ll_state lg)
    (ll_meta lg).

(** The log after saving a hard state and entries, before a cut. *)
Definition saved (lg : llog) (st : raftpb.HardState) (ents : list raftpb.Entry) : llog :=
  add lg (map LEntry ents ++ state_recs st) (last_entry (ll_enti lg) ents)
    (if IsEmptyHardState st then ll_state lg else st).

Lemma Save_rep n w lg st ents : rep_log w lg ->
  Forall (fun e => lrec_ok (LEntry e)) ents -> lrec_ok (LState st) ->
  is_u64 (last_entry (ll_enti lg) ents + 1) -> Z.of_nat n mod 8 = 0 ->
  Z.of_nat (length (ll_older lg)) + 2 < two64 ->
  exists w' lg', Save n w st ents = Ret w' /\ rep_log w' lg' /\
    (lg' = saved lg st ents \/ lg' = cut_log (saved lg st ents)).
Proof.
  intros (H & Ee & Es & Em & Hm & Hst) Hents Hs Hi Hn Hcnt. unfold Save.
  destruct (IsEmptyHardState st && (length ents =? 0)%nat) eqn:E0.
  { apply andb_true_iff in E0 as [E1 E2]. apply Nat.eqb_eq in E2. destruct ents; [|done].
    exists w, lg. split; [done|]. split; [done|]. left. unfold saved, add, state_recs.
    rewrite E1. simpl. rewrite app_nil_r. by destruct lg. }
  destruct (save_entries_rep ents w _ _ _ H Hents) as (w1 & -> & H1 & [K1 _] & S1 & T1).
  cbn [mbind outcome_bind].
  destruct (saveState_rep w1 _ _ _ st H1 Hs) as (w2 & -> & H2 & [K2 _] & S2 & T2).
  cbn [mbind outcome_bind]. rewrite <- app_assoc in H2.
  assert (rep_log w2 (saved lg st ents)) as HR.
  { unfold rep_log, saved, new_state in *; simpl. rewrite T2, T1, S2, S1, K2, K1, Ee, Es.
    destruct (IsEmptyHardState st); refine (conj H2 (conj _ (conj _ (conj _ (conj Hm _))))); done. }
  pose proof H2 as (f & e & z & k & Hw). rewrite (rep_tail_file _ _ _ _ _ _ _ _ Hw).
  cbn [mbind outcome_bind]. destruct (_ <? _).
  - destruct (MustSync _ _ _);
      [|exists w2, (saved lg st ents); split; [done|]; split; [exact HR|by left]].
    destruct (sync_step w2 _ _ _ H2) as (w3 & -> & H3 & [K3 _] & S3 & T3).
    exists w3, (saved lg st ents). split; [done|]. split; [|by left].
    destruct HR as (_ & R1 & R2 & R3 & R4 & R5). unfold rep_log.
    rewrite T3, S3, K3. done.
  - destruct HR as (_ & R1 & R2 & R3 & R4 & R5).
    destruct (cut_rep n w2 _ _ _ H2) as (w' & -> & H' & M & S' & T).
    + unfold meta_ok. by rewrite R2, R3.
    + by rewrite R1.
    + done.
    + done.
    + exists w', (cut_log (saved lg st ents)). split; [done|]. split; [|by right].
      unfold rep_log, head_recs in *; simpl in *. rewrite R1, R2, R3 in *. rewrite M, S', T. done.
Qed.

Lemma SaveSnapshot_log w lg s : rep_log w lg -> lrec_ok (LSnap s) ->
  ValidateSnapshotForWrite s = None ->
  exists w', SaveSnapshot w s = Ret (w', None) /\
    rep_log w' (add lg [LSnap s] (Z.max (ll_enti lg) (Index s)) (ll_state lg)).
Proof.
  intros (H & Ee & Es & Em & Hm & Hst) Hs Hv.
  destruct (SaveSnapshot_rep w _ _ _ s H Hs Hv) as (w' & -> & H' & [K _] & S' & T).
  exists w'. split; [done|]. unfold rep_log; simpl. rewrite T, S', K, Ee. done.
Qed.

(** A log just created: one segment with its head and the initial snapshot. *)
Definition created (m : option bytes) : llog :=
  MkLog [] 0 [LCrc; LMeta m; LSnap empty_Snapshot] 0 raftpb.emptyState m.

Lemma Create_rep n d m : Exist d = false -> lrec_ok (LMeta m) ->
  lrec_ok (LState raftpb.emptyState) -> lrec_ok (LSnap empty_Snapshot) -> Z.of_nat n mod 8 = 0 ->
  exists w, Create n d m = Ret (w_dir w, inr w) /\ rep_log w (created m).
Proof.
  intros Hd Hm Hst Hsn Hn. unfold Create. rewrite Hd.
  set (f := f_Preallocate (File [] 0) n).
  set (w0 := MkWAL [(walName 0 0, f_data f)] m raftpb.emptyState empty_Snapshot None 0
               (Some (newFileEncoder f 0)) [Some (walName 0 0)] (f_pos f)).
  assert (rep w0 [] 0 []) as H0.
  { exists f, (newFileEncoder f 0), n, O.
    assert (f_data f = replicate n x00) as Ef.
    { unfold f, f_Preallocate; simpl. by rewrite Nat.max_0_r, resize_nil. }
    constructor; simpl; try done.
    - unfold pos_ok; simpl; lia.
    - split; [apply (new_encoder_ok f 0)|done].
    - by right. }
  destruct (encode_step w0 [] 0 [] LCrc H0) as (w1 & E1 & H1 & [K1 _] & S1 & T1).
  { split; [simpl; lia|done]. }
  change (saveCrc w0 0) with (w_encode w0 (raw LCrc)). rewrite E1. cbn [mbind outcome_bind].
  destruct (encode_step w1 [] 0 _ (LMeta m) H1 Hm) as (w2 & E2 & H2 & [K2 _] & S2 & T2).
  simpl raw in E2. rewrite E2. cbn [mbind outcome_bind].
  destruct (SaveSnapshot_rep w2 [] 0 _ empty_Snapshot H2 Hsn) as (w3 & E3 & H3 & [K3 _] & S3 & T3).
  { done. }
  rewrite E3. cbn [mbind outcome_bind].
  exists w3. split; [done|]. unfold rep_log, created; simpl.
  rewrite T3, S3, K3, T2, S2, K2, T1, S1, K1. done.
Qed.

End Rep.
