(* ===== verification/WalRead.v ===== *)
(** * Reading the write-ahead log back

    What [Open] with [ReadAll], [ValidSnapshotEntries] and [Verify] find in
    the files of a log that was written and closed. *)

From S2P Require Import Prelude Errors Utils RaftApi WalRecord WalIo WalFrame WalNames EtcdWal.
From S2P Require Import WalRep.
From Stdlib Require Import Strings.Byte.
Import walpb.

Section Read.
Context `{HC : RaftCodecLaws} `{HL : RaftLaws}.

(** ** The directory after closing *)

Definition lsegs (lg : llog) : list lseg := ll_older lg ++ [(ll_idx lg, ll_tl lg)].

Definition older_segs (lg : llog) : list segment :=
  map (fun rs => (rs, 0%nat)) (stamp_segs 0 (ll_older lg)).

Definition tail_recs (lg : llog) : list Record_ := stamps (crc_before (ll_older lg)) (ll_tl lg).

(** The files, the last one with the bytes [t] after its records. *)
Definition files_of (lg : llog) (t : bytes) : list bytes :=
  map seg_bytes (older_segs lg) ++ [file_bytes (tail_recs lg) t].

Definition disk_with (lg : llog) (t : bytes) : dir := zip (seg_names (lsegs lg)) (files_of lg t).

Definition disk (lg : llog) (z : nat) : dir := disk_with lg (replicate z x00).

Lemma length_older_segs lg : length (older_segs lg) = length (ll_older lg).
Proof. unfold older_segs. by rewrite length_map, length_stamp_segs. Qed.

Lemma length_files_of lg t : length (files_of lg t) = length (lsegs lg).
Proof. unfold files_of, lsegs. rewrite !length_app, length_map, length_older_segs. done. Qed.

Lemma disk_closed lg t :
  disk_with lg t = closed (ll_older lg) ++
    [(tail_name (ll_older lg) (ll_idx lg), file_bytes (tail_recs lg) t)].
Proof.
  unfold disk_with, files_of, lsegs. rewrite seg_names_snoc.
  rewrite zip_with_app by (rewrite length_map, length_older_segs, length_seg_names; done).
  f_equal. unfold closed, contents, older_segs. f_equal. rewrite map_map. apply map_ext.
  intros rs. unfold seg_bytes. simpl. apply app_nil_r.
Qed.

(** The zeros left in the last segment. *)
Definition zeros_ok (z : nat) : Prop := Z.of_nat z mod 8 = 0.

Lemma frames_aligned rs : Forall small rs -> Z.of_nat (length (concat (map frame rs))) mod 8 = 0.
Proof.
  induction 1 as [|r rs Hr _ IH]; [done|]. simpl. rewrite length_app, Nat2Z.inj_add.
  rewrite length_frame by done. pose proof (frame_len_aligned r).
  rewrite Z.add_mod, IH, H by lia. done.
Qed.

Lemma Close_disk w lg : rep_log w lg ->
  exists w' z, Close w = Ret (w', None) /\ w_dir w' = disk lg z /\ zeros_ok z.
Proof.
  intros ((f & e & z & k & H) & _). unfold Close. rewrite (rep_tail _ _ _ _ _ _ _ _ H).
  destruct (sync_rep _ _ _ _ _ _ _ _ H) as (w' & f' & e' & -> & H' & Hb & _).
  cbn [mbind outcome_bind]. set (z' := (z - length (buf (bw e)))%nat) in *.
  exists w', z'. split; [done|].
  pose proof (rep_bytes _ _ _ _ _ _ _ _ H') as Eb. rewrite Hb, app_nil_r in Eb.
  split.
  - unfold disk. rewrite disk_closed, (rep_dir _ _ _ _ _ _ _ _ H'). do 3 f_equal.
    unfold file_bytes, tail_recs. rewrite <- Eb, <- (rep_zeros _ _ _ _ _ _ _ _ H').
    by rewrite take_drop.
  - unfold zeros_ok. destruct (rep_zeros_ok _ _ _ _ _ _ _ _ H') as [->|Hz]; [done|].
    destruct (proj1 (Forall_app _ _ _) (rep_ok _ _ _ _ _ _ _ _ H')) as [Ho Ht].
    destruct (rep_crc_u32 _ _ _ _ _ _ _ _ H') as [Hu _].
    destruct (stamps_small _ _ Hu Ht) as [Hsm _].
    pose proof (frames_aligned _ Hsm) as Ha. rewrite <- Eb, length_take in Ha.
    pose proof (rep_pos_ok _ _ _ _ _ _ _ _ H') as Hp. unfold pos_ok in Hp.
    rewrite Nat.min_l in Ha by done.
    by rewrite Nat2Z.inj_add, Z.add_mod, Ha, Z.add_0_l, Z.mod_mod in Hz by lia.
Qed.

(** ** Selecting the files *)

Definition names_ok (lg : llog) : Prop :=
  Z.of_nat (length (lsegs lg)) < two64 /\ Forall (fun s => is_u64 (fst s)) (lsegs lg).

Lemma rep_names_ok w lg : rep_log w lg -> names_ok lg.
Proof.
  intros ((f & e & z & k & H) & _). unfold names_ok, lsegs.
  pose proof (rep_count _ _ _ _ _ _ _ _ H). destruct (rep_idx _ _ _ _ _ _ _ _ H) as [H1 H2].
  rewrite length_app. simpl. split; [lia|]. apply Forall_app. split; [done|by constructor].
Qed.

Lemma lsegs_u64 lg : names_ok lg -> u64_pairs (pairs 0 (lsegs lg)).
Proof. intros [H1 H2]. apply pairs_u64; [done|exact H1|done]. Qed.

Lemma seg_names_NoDup lg : names_ok lg -> NoDup (seg_names (lsegs lg)).
Proof.
  intros H. apply NoDup_alt. intros i j n Ei Ej.
  assert (forall k, seg_names (lsegs lg) !! k = Some n -> parseWALName n = inr (Z.of_nat k,
    default 0 (snd <$> pairs 0 (lsegs lg) !! k))) as Hp.
  { intros k E. unfold seg_names, names_of in E. rewrite list_lookup_fmap in E.
    destruct (pairs 0 (lsegs lg) !! k) as [[s x]|] eqn:Ep; simpl in *; [|done].
    injection E as <-. destruct (names_parse _ k s x (lsegs_u64 _ H) Ep) as [_ ->].
    pose proof (consecutive_lookup _ 0 k s x (pairs_consecutive _ _) Ep). do 2 f_equal. lia. }
  pose proof (Hp i Ei) as H1. rewrite (Hp j Ej) in H1. injection H1 as E _. lia.
Qed.

Lemma dir_get_zip ns bs i n b : NoDup ns -> ns !! i = Some n -> bs !! i = Some b ->
  dir_get (zip ns bs) n = Some b.
Proof.
  revert bs i. induction ns as [|m ns IH]; intros bs i Hnd En Eb; [done|].
  apply NoDup_cons in Hnd as [Hm Hnd]. destruct bs as [|c bs]; [done|].
  destruct i as [|i]; simpl in *.
  - injection En as ->. injection Eb as ->. by rewrite decide_True.
  - rewrite decide_False; [eauto|]. intros ->. apply Hm. by eapply list_elem_of_lookup_2.
Qed.

Lemma open_files ns bs k : NoDup ns -> length ns = length bs ->
  omap (dir_get (zip ns bs)) (drop k ns) = drop k bs.
Proof.
  intros Hnd Hl. assert (forall m j, (j + m = length ns)%nat ->
    omap (dir_get (zip ns bs)) (drop j ns) = drop j bs) as H.
  { induction m as [|m IH]; intros j Hj.
    - rewrite !drop_ge by lia. done.
    - destruct (lookup_lt_is_Some_2 ns j) as [n En]; [lia|].
      destruct (lookup_lt_is_Some_2 bs j) as [b Eb]; [lia|].
      rewrite (drop_S ns n j En), (drop_S bs b j Eb). simpl.
      rewrite (dir_get_zip ns bs j n b Hnd En Eb). f_equal. apply IH. lia. }
  destruct (decide (k <= length ns)%nat).
  - apply (H (length ns - k)%nat). lia.
  - rewrite !drop_ge by lia. done.
Qed.

Lemma disk_names lg t : ReadDir (disk_with lg t) = seg_names (lsegs lg).
Proof. apply fst_zip. by rewrite length_seg_names, length_files_of. Qed.

Lemma read_names lg t : names_ok lg ->
  readWALNames (disk_with lg t) = inr (seg_names (lsegs lg)).
Proof.
  intros H. unfold readWALNames. rewrite disk_names.
  unfold seg_names at 1. rewrite checkWALNames_all by (by apply lsegs_u64).
  fold (seg_names (lsegs lg)).
  destruct (seg_names (lsegs lg)) eqn:E; [|done].
  apply (f_equal length) in E. rewrite length_seg_names in E. unfold lsegs in E.
  rewrite length_app in E. simpl in E. lia.
Qed.

(** The files from the last segment whose index is not above the given one. *)
Lemma select_files lg t snap : names_ok lg ->
  (exists j s, lsegs lg !! j = Some s /\ fst s <= Index snap) ->
  exists k s, selectWALFiles (disk_with lg t) snap = Ret (inr (seg_names (lsegs lg), k)) /\
    lsegs lg !! k = Some s /\ fst s <= Index snap /\
    forall j s', (k < j)%nat -> lsegs lg !! j = Some s' -> Index snap < fst s'.
Proof.
  intros H (j & s & Ej & Hs). unfold selectWALFiles. rewrite read_names by done.
  destruct (search_exists (pairs 0 (lsegs lg)) (Index snap) (lsegs_u64 _ H))
    as (k & sq & x & Es & Ek & Hx & Hlater).
  { exists j, (0 + Z.of_nat j), (fst s). split; [by apply pairs_lookup|done]. }
  fold (seg_names (lsegs lg)) in Es. rewrite Es. cbn [mbind outcome_bind].
  destruct (lookup_lt_is_Some_2 (lsegs lg) k) as [s0 E0].
  { apply lookup_lt_Some in Ek. by rewrite length_pairs in Ek. }
  assert (x = fst s0) as ->.
  { pose proof (pairs_lookup 0 _ _ _ E0) as E. rewrite E in Ek. congruence. }
  assert (drop k (seg_names (lsegs lg)) = names_of (drop k (pairs 0 (lsegs lg)))) as ->.
  { unfold seg_names, names_of. by rewrite skipn_map. }
  unfold isValidSeq. rewrite (valid_consecutive _ (0 + Z.of_nat k) 0).
  - cbn [mbind outcome_bind negb]. exists k, s0. split; [done|]. split; [done|].
    split; [done|]. intros j' s' Hj' E'. eapply Hlater; [exact Hj'|by apply pairs_lookup].
  - apply Forall_drop. by apply lsegs_u64.
  - apply consecutive_drop, pairs_consecutive.
  - by left.
Qed.


(** ** Reading records *)

(** Every segment starts with a checksum record. *)
Definition headed (lg : llog) : Prop :=
  Forall (fun s => exists rest, snd s = LCrc :: rest) (lsegs lg).

Definition recs_ok (lg : llog) : Prop := Forall lrec_ok (all_recs (lsegs lg)).

Lemma rep_recs_ok w lg : rep_log w lg -> recs_ok lg.
Proof.
  intros ((f & e & z & k & H) & _). unfold recs_ok, lsegs. rewrite all_recs_snoc. apply H.
Qed.

(** What a body does to a record, whatever the decoder. *)
Definition step_of {A R} (body : A -> Record_ -> decoder -> outcome (decoder * (R + A)))
    (a : A) (r : Record_) : R + A :=
  match body a r (MkDecoder [] 0 0 false) with
  | Ret (_, x) => x
  | _ => inr a
  end.

(** A record of the log. *)
Definition written (r : Record_) : Prop := exists c l, lrec_ok l /\ r = stamp c l.

(** A body that acts on the written records as [lstep] on the records asked
    for. *)
Definition acts {A R} (body : A -> Record_ -> decoder -> outcome (decoder * (R + A)))
    (lstep : A -> lrec -> R + A) : Prop :=
  forall a c l d, lrec_ok l ->
    match l with
    | LCrc =>
        (dcrc d = 0 \/ dcrc d = Crc (stamp c l) ->
         body a (stamp c l) d = Ret (UpdateCRC d (Crc (stamp c l)), inr a)) /\ lstep a l = inr a
    | _ => body a (stamp c l) d = Ret (d, lstep a l)
    end.

Lemma type_crc c l : Type_ (stamp c l) = CrcType <-> l = LCrc.
Proof. split; [by destruct l|by intros ->]. Qed.

Lemma acts_step {A R} body (lstep : A -> lrec -> R + A) a c l : acts body lstep -> lrec_ok l ->
  step_of body a (stamp c l) = lstep a l.
Proof.
  intros Ha Hl. unfold step_of. specialize (Ha a c l (MkDecoder [] 0 0 false) Hl).
  destruct l; try by rewrite Ha. destruct Ha as [Ha ->]. rewrite Ha by auto. done.
Qed.

Lemma acts_switches {A R} body (lstep : A -> lrec -> R + A) : acts body lstep ->
  switches written body (step_of body).
Proof.
  intros Ha a r d (c & l & Hl & ->). split.
  - intros Et Hd. apply type_crc in Et. subst l. rewrite (acts_step body lstep) by done.
    destruct (Ha a c LCrc d Hl) as [H ->]. rewrite H by done. done.
  - intros Et. rewrite (acts_step body lstep) by done. specialize (Ha a c l d Hl).
    by destruct l.
Qed.

Lemma gather_stamps {A R} body (lstep : A -> lrec -> R + A) ls : forall a c,
  acts body lstep -> Forall lrec_ok ls ->
  gather (step_of body) a (stamps c ls) = gather lstep a ls.
Proof.
  induction ls as [|l ls IH]; intros a c Ha Hls; [done|].
  apply Forall_cons in Hls as [Hl Hls]. cbn [stamps gather].
  rewrite (acts_step body lstep) by done. destruct (lstep a l); [done|]. by apply IH.
Qed.

Lemma stamps_written c ls : Forall lrec_ok ls -> Forall written (stamps c ls).
Proof.
  intros H. revert c. induction H as [|l ls Hl _ IH]; intros c; [constructor|].
  cbn [stamps]. constructor; [by exists c, l|apply IH].
Qed.

Lemma stamp_segs_drop k c ss :
  drop k (stamp_segs c ss) = stamp_segs (crc_after c (all_recs (take k ss))) (drop k ss).
Proof.
  revert c ss. induction k as [|k IH]; intros c ss; [done|].
  destruct ss as [|s ss]; [done|]. cbn [stamp_segs drop take]. rewrite IH.
  unfold all_recs. simpl. by rewrite crc_after_app.
Qed.

Lemma all_recs_split k ss : all_recs ss = all_recs (take k ss) ++ all_recs (drop k ss).
Proof. unfold all_recs. rewrite <- concat_app, <- map_app, take_drop. done. Qed.

(** The records of the segments from the [k]-th on. *)
Definition suffix (lg : llog) (k : nat) : list lrec := all_recs (drop k (lsegs lg)).

Definition crc_at (lg : llog) (k : nat) : Z := crc_after 0 (all_recs (take k (lsegs lg))).

Lemma records_drop lg k : (k <= length (ll_older lg))%nat ->
  records (drop k (older_segs lg)) ++ tail_recs lg = stamps (crc_at lg k) (suffix lg k).
Proof.
  intros Hk. unfold records, crc_at, suffix, lsegs. rewrite <- skipn_map.
  assert (map fst (older_segs lg) = stamp_segs 0 (ll_older lg)) as ->.
  { unfold older_segs. rewrite map_map. simpl. by rewrite map_id. }
  rewrite stamp_segs_drop, concat_stamp_segs, take_app_le, drop_app_le, all_recs_snoc by done.
  rewrite stamps_app. f_equal. unfold tail_recs, crc_before.
  by rewrite (all_recs_split k (ll_older lg)), crc_after_app.
Qed.

Lemma segs_ok lg : recs_ok lg -> Forall seg_ok (older_segs lg) /\ Forall small (tail_recs lg).
Proof.
  intros Hr. unfold recs_ok, lsegs in Hr. rewrite all_recs_snoc in Hr.
  apply Forall_app in Hr as [Ho Ht].
  assert (forall c, is_u32 c -> Forall seg_ok (map (fun rs => (rs, 0%nat)) (stamp_segs c (ll_older lg)))
    /\ is_u32 (crc_after c (all_recs (ll_older lg)))) as H.
  { induction (ll_older lg) as [|s ss IH]; intros c Hc; [split; [constructor|done]|].
    unfold all_recs in *. simpl in Ho |- *. apply Forall_app in Ho as [Hs Ho].
    destruct (stamps_small c (snd s) Hc Hs) as [Hsm Hu].
    destruct (IH Ho _ Hu) as [H1 H2]. rewrite crc_after_app. split; [|done].
    constructor; [|done]. split; [done|by left]. }
  destruct (H 0 ltac:(done)) as [H1 H2]. split; [done|]. by destruct (stamps_small _ _ H2 Ht).
Qed.

Lemma zeros_end z : zeros_ok z -> (z = 0 \/ 8 <= z)%nat.
Proof.
  unfold zeros_ok. intros Hz. destruct (decide (8 <= z)%nat); [by right|left].
  rewrite Z.mod_small in Hz by lia. lia.
Qed.

Lemma suffix_head lg k : headed lg -> (k < length (lsegs lg))%nat ->
  exists rest, suffix lg k = LCrc :: rest.
Proof.
  intros Hh Hk. destruct (lookup_lt_is_Some_2 _ _ Hk) as [s Es]. unfold suffix.
  rewrite (drop_S _ _ _ Es). unfold all_recs. simpl.
  eapply Forall_lookup_1 in Hh as [rest ->]; [|exact Es]. simpl. eauto.
Qed.

(** Reading the segments from the [k]-th on with a loop. *)
Lemma read_suffix {A R} body (lstep : A -> lrec -> R + A) lg t k a :
  acts body lstep -> recs_ok lg -> headed lg -> (k < length (lsegs lg))%nat ->
  let dec := NewDecoder (drop k (files_of lg t)) in
  match gather lstep a (suffix lg k) with
  | inr a' => forall d' r e,
      at_end t (frames_len (tail_recs lg)) (crc_after 0 (all_recs (lsegs lg))) false
        = (d', (r, Some e)) ->
      loop body a dec = Ret (d', inr (a', e))
  | inl x => exists d', loop body a dec = Ret (d', inl x)
  end.
Proof.
  intros Ha Hr Hh Hk dec. destruct (suffix_head lg k Hh Hk) as [rest Esf].
  assert (k <= length (ll_older lg))%nat as Hk'.
  { unfold lsegs in Hk. rewrite length_app in Hk. simpl in Hk. lia. }
  assert (Forall lrec_ok (suffix lg k)) as Hsf.
  { unfold suffix. unfold recs_ok in Hr. rewrite (all_recs_split k) in Hr.
    apply Forall_app in Hr as [_ Hr]. exact Hr. }
  destruct (segs_ok lg Hr) as [Hok Hsm].
  pose proof (loop_log written body (step_of body) (drop k (older_segs lg)) (tail_recs lg) t a
    (crc_at lg k) (acts_switches body lstep Ha) (Forall_drop _ _ _ Hok) Hsm) as H.
  rewrite records_drop, (gather_stamps body lstep) in H by done.
  specialize (H (stamps_written _ _ Hsf) (chained_stamps _ _)).
  assert (dec = NewDecoder (map seg_bytes (drop k (older_segs lg)) ++
    [file_bytes (tail_recs lg) t])) as ->.
  { subst dec. unfold files_of. rewrite drop_app_le, skipn_map; [done|].
    by rewrite length_map, length_older_segs. }
  assert (last_crc 0 (stamps (crc_at lg k) (suffix lg k)) = crc_after 0 (all_recs (lsegs lg)))
    as Ec.
  { rewrite (all_recs_split k), crc_after_app. fold (suffix lg k). by rewrite Esf. }
  rewrite Ec in H. apply H. rewrite Esf. cbn [stamps]. eauto.
Qed.

(** Reading a log whose last file ends with its records or with zeros. *)
Lemma read_zeros {A R} body (lstep : A -> lrec -> R + A) lg z k a a' :
  acts body lstep -> recs_ok lg -> headed lg -> zeros_ok z -> (k < length (lsegs lg))%nat ->
  gather lstep a (suffix lg k) = inr a' ->
  loop body a (NewDecoder (drop k (files_of lg (replicate z x00))))
    = Ret (MkDecoder [] (frames_len (tail_recs lg)) (crc_after 0 (all_recs (lsegs lg))) false,
           inr (a', EOF)).
Proof.
  intros Ha Hr Hh Hz Hk Hg.
  pose proof (read_suffix body lstep lg (replicate z x00) k a Ha Hr Hh Hk) as H. cbv zeta in H.
  rewrite Hg in H. eapply H. apply at_end_zeros. by apply zeros_end.
Qed.

(** ** The switches on the records asked for *)

Definition lread (start : Snapshot) (a : gathered) (l : lrec) : early + gathered :=
  match l with
  | LCrc => inr a
  | LMeta m => read_metadata a m
  | LState s => inr (MkGathered (g_ents a) s (g_metadata a) (g_match a) (g_enti a))
  | LEntry e => read_entry start a e
  | LSnap s => read_snapshot start a s
  end.

Definition lsnaps (a : list Snapshot * raftpb.HardState) (l : lrec)
    : error + list Snapshot * raftpb.HardState :=
  match l with
  | LSnap s => inr (fst a ++ [s], snd a)
  | LState s => inr (fst a, s)
  | _ => inr a
  end.

Lemma check_crc_ok {A R} c d (bad : R) (a : A) : dcrc d = 0 \/ dcrc d = Crc (stamp c LCrc) ->
  check_crc d (stamp c LCrc) bad a = Ret (UpdateCRC d (Crc (stamp c LCrc)), inr a).
Proof.
  unfold check_crc, LastCRC, crc_Sum32. intros [->|E]; [done|]. rewrite E.
  unfold Validate. rewrite Z.eqb_refl. by rewrite andb_false_r.
Qed.

Lemma read_acts start : acts (read_body start) (lread start).
Proof.
  intros a c l d Hl. destruct l as [|m|s|e|s]; unfold read_body.
  - split; [|done]. intros Hd. by apply check_crc_ok.
  - done.
  - cbn. by rewrite hardstate_codec.
  - cbn. by rewrite entry_codec.
  - cbn [stamp with_crc raw record Type_ Data]. cbn -[WalSnapshot.Snapshot_Unmarshal_ WalSnapshot.Snapshot_Marshal_].
    rewrite SnapshotCodec.Snapshot_roundtrip by apply Hl. done.
Qed.

Lemma snaps_acts : acts snaps_body lsnaps.
Proof.
  intros a c l d Hl. destruct l as [|m|s|e|s]; unfold snaps_body.
  - split; [|done]. intros Hd. by apply check_crc_ok.
  - done.
  - cbn. by rewrite hardstate_codec.
  - done.
  - cbn -[WalSnapshot.Snapshot_Unmarshal_ WalSnapshot.Snapshot_Marshal_].
    rewrite SnapshotCodec.Snapshot_roundtrip by apply Hl. done.
Qed.

(** ** Opening and reading *)

Definition fresh_gather : gathered := MkGathered [] raftpb.emptyState None false 0.

(** The log opened at the [k]-th segment. *)
Definition at_open (lg : llog) (t : bytes) (snap : Snapshot) (k : nat) : WAL :=
  MkWAL (disk_with lg t) None raftpb.emptyState snap
    (Some (NewDecoder (drop k (files_of lg t)))) 0 None
    (map Some (drop k (seg_names (lsegs lg)))) 0.

Lemma Open_disk lg t snap : names_ok lg ->
  (exists j s, lsegs lg !! j = Some s /\ fst s <= Index snap) ->
  exists k s, lsegs lg !! k = Some s /\ fst s <= Index snap /\
    (forall j s', (k < j)%nat -> lsegs lg !! j = Some s' -> Index snap < fst s') /\
    Open (disk_with lg t) snap = Ret (inr (at_open lg t snap k)).
Proof.
  intros Hn Hex.
  destruct (select_files lg t snap Hn Hex) as (k & s & E & Ek & Hs & Hlater).
  exists k, s. split; [done|]. split; [done|]. split; [done|].
  unfold Open, openAtIndex. rewrite E. cbn [mbind outcome_bind]. unfold openWALFiles.
  assert (omap (dir_get (disk_with lg t)) (drop k (seg_names (lsegs lg)))
          = drop k (files_of lg t)) as ->; [|done].
  apply open_files; [by apply seg_names_NoDup|].
  by rewrite length_seg_names, length_files_of.
Qed.

(** The log ready for appending after it was read. *)
Definition reopened (lg : llog) (a : gathered) : llog :=
  MkLog (ll_older lg) (ll_idx lg) (ll_tl lg) (g_enti a) raftpb.emptyState (g_metadata a).

Lemma zero_tail b z :
  ZeroToEnd (f_Seek (File (b ++ replicate z x00) 0) (length b)) = File (b ++ replicate z x00) (length b).
Proof.
  unfold ZeroToEnd, f_Seek, f_Preallocate, f_Truncate; simpl. f_equal.
  rewrite (resize_le (b ++ _)) by (rewrite length_app; lia).
  rewrite take_app_length, length_app, length_replicate.
  rewrite Nat.max_l by lia. rewrite resize_ge by lia. do 2 f_equal. lia.
Qed.

Lemma at_open_tail lg t snap k : (k < length (lsegs lg))%nat ->
  tail (at_open lg t snap k) = Some (tail_name (ll_older lg) (ll_idx lg)).
Proof.
  intros Hk. unfold tail, at_open; cbn [w_locks]. unfold lsegs in *. rewrite seg_names_snoc.
  rewrite length_app in Hk. simpl in Hk.
  rewrite drop_app_le by (rewrite length_seg_names; lia). rewrite map_app. simpl.
  by rewrite last_snoc.
Qed.

Lemma tail_above lg : names_ok lg ->
  above (closed (ll_older lg)) (tail_name (ll_older lg) (ll_idx lg)).
Proof.
  intros [Hn _]. unfold lsegs in Hn. rewrite length_app in Hn. simpl in Hn.
  apply closed_above. lia.
Qed.

Lemma at_open_file lg t snap k : names_ok lg -> (k < length (lsegs lg))%nat ->
  tail_file (at_open lg t snap k) = Ret (File (file_bytes (tail_recs lg) t) 0).
Proof.
  intros Hn Hk. unfold tail_file. rewrite at_open_tail by done. unfold at_open; cbn [w_dir w_pos].
  rewrite disk_closed, dir_get_last; [done|by apply tail_above].
Qed.

(** A log read to its end is ready for appending. *)
Lemma reopen_rep lg z snap k a f : names_ok lg -> recs_ok lg -> zeros_ok z ->
  (k < length (lsegs lg))%nat ->
  f = File (file_bytes (tail_recs lg) (replicate z x00)) (length (concat (map frame (tail_recs lg)))) ->
  rep (opened (at_open lg (replicate z x00) snap k) (disk lg z) (g_metadata a) (g_enti a)
         (f_pos f) (Some (newFileEncoder f (crc_after 0 (all_recs (lsegs lg))))))
    (ll_older lg) (ll_idx lg) (ll_tl lg).
Proof.
  intros Hn Hr Hz Hk ->. unfold lsegs in Hk. rewrite length_app in Hk. simpl in Hk.
  destruct (segs_ok lg Hr) as [_ Hsm].
  eexists (File _ _), _, z, k.
  constructor; unfold opened, at_open; cbn [w_dir w_pos w_encoder w_locks f_pos f_data]; try done.
  - apply disk_closed.
  - unfold pos_ok; simpl. unfold file_bytes. rewrite length_app. lia.
  - split; [apply new_encoder_ok|done].
  - simpl. unfold file_bytes. by rewrite app_nil_r, take_app_length.
  - unfold file_bytes. by rewrite drop_app_length.
  - right. rewrite Nat2Z.inj_add, Z.add_mod, Hz, frames_aligned by done. done.
  - simpl. unfold crc_New, lsegs. rewrite all_recs_snoc, crc_after_app. done.
  - split; [lia|]. unfold lsegs. by rewrite seg_names_snoc.
  - unfold recs_ok, lsegs in Hr. by rewrite all_recs_snoc in Hr.
  - destruct Hn as [_ Hn]. unfold lsegs in Hn. apply Forall_app in Hn as [H1 H2].
    split; [done|]. apply Forall_cons in H2 as [H2 _]. exact H2.
  - destruct Hn as [Hn _]. unfold lsegs in Hn. rewrite length_app in Hn. simpl in Hn. lia.
Qed.

Lemma ReadAll_disk lg z snap k a :
  names_ok lg -> recs_ok lg -> headed lg -> zeros_ok z -> (k < length (lsegs lg))%nat ->
  gather (lread snap) fresh_gather (suffix lg k) = inr a ->
  exists w', ReadAll (at_open lg (replicate z x00) snap k)
      = Ret (w', (g_metadata a, g_state a, g_ents a, None)) /\
    rep w' (ll_older lg) (ll_idx lg) (ll_tl lg) /\ w_enti w' = g_enti a /\
    w_state w' = raftpb.emptyState /\ w_metadata w' = g_metadata a.
Proof.
  intros Hn Hr Hh Hz Hk Hg. unfold ReadAll. cbn [at_open w_decoder w_start w_enti].
  fold fresh_gather. rewrite (read_zeros _ (lread snap) lg z k fresh_gather a) by
    first [apply read_acts|done]. rewrite ret_bind. cbv beta iota.
  fold (at_open lg (replicate z x00) snap k).
  rewrite at_open_tail, at_open_file by done. rewrite bool_decide_true by done. cbn [negb].
  rewrite ret_bind. unfold LastOffset, frames_len; cbn [lastValidOff].
  rewrite Nat2Z.id. unfold file_bytes. rewrite zero_tail. cbn [f_data f_pos].
  assert (dir_put (w_dir (at_open lg (replicate z x00) snap k))
    (tail_name (ll_older lg) (ll_idx lg))
    (concat (map frame (tail_recs lg)) ++ replicate z x00) = disk lg z) as ->.
  { unfold at_open, disk; cbn [w_dir]. rewrite disk_closed, dir_put_last; [done|].
    by apply tail_above. }
  eexists. split; [reflexivity|]. split; [|done].
  by apply (reopen_rep lg z snap k a (File (file_bytes (tail_recs lg) (replicate z x00)) _)).
Qed.

(** A log whose last file ends in an error other than its end is refused. *)
Lemma ReadAll_torn lg t snap k a d e :
  recs_ok lg -> headed lg -> (k < length (lsegs lg))%nat ->
  gather (lread snap) fresh_gather (suffix lg k) = inr a ->
  at_end t (frames_len (tail_recs lg)) (crc_after 0 (all_recs (lsegs lg))) false
    = (d, (rec_Reset, Some e)) -> e <> EOF ->
  exists w', ReadAll (at_open lg t snap k) = Ret (w', (None, raftpb.emptyState, [], Some e)).
Proof.
  intros Hr Hh Hk Hg He Hne. unfold ReadAll. cbn [at_open w_decoder w_start w_enti].
  pose proof (read_suffix (read_body snap) (lread snap) lg t k fresh_gather (read_acts snap)
    Hr Hh Hk) as H. cbv zeta in H. rewrite Hg in H. fold fresh_gather.
  rewrite (H _ _ _ He), ret_bind. cbv beta iota. fold (at_open lg t snap k).
  rewrite at_open_tail by done. rewrite bool_decide_false by done. cbn [negb]. eauto.
Qed.

End Read.
