(* ===== verification/WalLog.v ===== *)
(** * Recovery from the write-ahead log

    The log seen through its operations: it is created, hard states, entries
    and snapshots are saved, it is closed, and it is opened at a snapshot and
    read.  The theorems show that reading finds the last hard state and every
    entry of the raft log after the snapshot, although only the segments from
    the one the snapshot's index selects are read. *)

From S2P Require Import Prelude Errors Utils RaftApi WalRecord WalIo WalFrame WalNames EtcdWal.
From S2P Require Import WalRep WalRead MemRaftCodec.
From Stdlib Require Import Strings.Byte.
Import walpb.

Module WalLog.

(** ** The raft log that the records describe *)

(** The index of the last entry: an entry sets it, a snapshot ahead of it moves
    it. *)
Definition enti_step (enti : Z) (l : lrec) : Z :=
  match l with
  | LEntry e => raftpb.Index e
  | LSnap s => Z.max enti (Index s)
  | _ => enti
  end.

Definition enti_of (enti : Z) (ls : list lrec) : Z := fold_left enti_step ls enti.

(** The entries after index [i]: an entry cuts the log at its index; an entry
    at or below [i], or a snapshot ahead of the log, leaves none. *)
Definition live_step (i : Z) (st : Z * list raftpb.Entry) (l : lrec) : Z * list raftpb.Entry :=
  let '(enti, acc) := st in
  (enti_step enti l,
   match l with
   | LEntry e =>
       if raftpb.Index e <=? i then []
       else take (Z.to_nat (raftpb.Index e - i - 1)) acc ++ [e]
   | LSnap s => if enti <? Index s then [] else acc
   | _ => acc
   end).

Definition live_from (i : Z) (st : Z * list raftpb.Entry) (ls : list lrec) :=
  fold_left (live_step i) ls st.

Definition live (i : Z) (ls : list lrec) : list raftpb.Entry := snd (live_from i (0, []) ls).

(** The last hard state. *)
Definition state_step (st : raftpb.HardState) (l : lrec) : raftpb.HardState :=
  match l with LState s => s | _ => st end.

Definition state_of (st : raftpb.HardState) (ls : list lrec) : raftpb.HardState :=
  fold_left state_step ls st.

(** What raft keeps to when it writes: an entry is above every snapshot saved
    (committed entries are not rewritten) and follows an entry of the log; the
    snapshots go up, and one ahead of the log is not above [i], the snapshot
    to be opened. *)
Fixpoint valid (i floor enti : Z) (ls : list lrec) : Prop :=
  match ls with
  | [] => True
  | l :: ls' =>
      match l with
      | LEntry e =>
          floor < raftpb.Index e /\ raftpb.Index e <= enti + 1 /\ raftpb.Index e + 1 < two64 /\
          valid i floor (raftpb.Index e) ls'
      | LSnap s =>
          floor <= Index s /\ Index s + 1 < two64 /\ (Index s <= enti \/ Index s <= i) /\
          valid i (Index s) (Z.max enti (Index s)) ls'
      | _ => valid i floor enti ls'
      end
  end.

Definition floor_step (floor : Z) (l : lrec) : Z :=
  match l with LSnap s => Index s | _ => floor end.

Definition floor_of (floor : Z) (ls : list lrec) : Z := fold_left floor_step ls floor.

(** Entries and snapshots are all that these depend on. *)
Definition is_es (l : lrec) : bool :=
  match l with LEntry _ | LSnap _ => true | _ => false end.

Definition es (ls : list lrec) : list lrec := List.filter is_es ls.

Lemma es_app a b : es (a ++ b) = es a ++ es b.
Proof. apply List.filter_app. Qed.

Lemma valid_es i ls : forall floor enti, valid i floor enti (es ls) <-> valid i floor enti ls.
Proof.
  induction ls as [|l ls IH]; intros floor enti; [done|].
  destruct l; simpl; rewrite ?IH; done.
Qed.

Lemma enti_es ls : forall enti, enti_of enti (es ls) = enti_of enti ls.
Proof.
  induction ls as [|l ls IH]; intros enti; [done|]. destruct l; simpl; apply IH.
Qed.

Lemma live_es i ls : forall st, live_from i st (es ls) = live_from i st ls.
Proof.
  induction ls as [|l ls IH]; intros [enti acc]; [done|]. destruct l; simpl; apply IH.
Qed.

Lemma valid_app i a b : forall floor enti, valid i floor enti (a ++ b) <->
  valid i floor enti a /\ valid i (floor_of floor a) (enti_of enti a) b.
Proof.
  induction a as [|l a IH]; intros floor enti; [simpl; tauto|].
  destruct l; simpl; rewrite ?IH; tauto.
Qed.

(** After a snapshot the log stays at or above it. *)
Lemma valid_above i ls : forall floor enti, valid i floor enti ls -> floor <= enti ->
  floor <= floor_of floor ls /\ floor_of floor ls <= enti_of enti ls.
Proof.
  induction ls as [|l ls IH]; intros floor enti Hv H; [simpl; lia|].
  destruct l as [|m|s|e|s]; simpl in *; try (by apply IH).
  - destruct Hv as (H1 & H2 & _ & Hv). apply IH; [done|lia].
  - destruct Hv as (H1 & _ & H2 & Hv). apply IH in Hv; [|lia]. lia.
Qed.

(** ** Reading a stretch of the log *)

Definition has_snap (i : Z) (ls : list lrec) : bool :=
  existsb (fun l => match l with LSnap s => Index s =? i | _ => false end) ls.

(** The records agree with the snapshot to open and with the metadata. *)
Definition agrees (start : Snapshot) (m : option bytes) (ls : list lrec) : Prop :=
  Forall (fun l => match l with
                   | LSnap s => Index s = Index start -> Term s = Term start
                   | LMeta m' => m' = m
                   | _ => True
                   end) ls.

Lemma take_prefix {A} n (a b : list A) : a `prefix_of` b -> (n <= length a)%nat ->
  take n b = take n a.
Proof. intros [c ->] H. by rewrite take_app_le. Qed.

(** One entry: it is never out of range, and what is kept are the live
    entries. *)
Lemma read_entry_live start enti acc a e :
  let i := Index start in
  0 <= i < two64 -> 0 <= raftpb.Index e < two64 ->
  length acc = Z.to_nat (enti - i) -> acc `prefix_of` g_ents a -> raftpb.Index e <= enti + 1 ->
  contiguous (i + 1) (g_ents a) ->
  exists ents, read_entry start a e
      = inr (MkGathered ents (g_state a) (g_metadata a) (g_match a) (raftpb.Index e)) /\
    let acc' := snd (live_step i (enti, acc) (LEntry e)) in
    acc' `prefix_of` ents /\ length acc' = Z.to_nat (raftpb.Index e - i) /\
    contiguous (i + 1) ents.
Proof.
  intros i Hi He Hlen Hpre Hle Hct. unfold read_entry. fold i. cbn [live_step snd].
  destruct (Z.leb_spec (raftpb.Index e) i) as [Hb|Hb].
  - rewrite (proj2 (Z.ltb_ge _ _)) by lia. eexists. split; [reflexivity|].
    split; [apply prefix_nil|]. split; [simpl; lia|done].
  - rewrite (proj2 (Z.ltb_lt _ _)) by lia. rewrite u64_small by (unfold is_u64; lia).
    assert (Z.to_nat (raftpb.Index e - i - 1) <= length acc)%nat as Hoff by lia.
    pose proof (prefix_length _ _ Hpre).
    rewrite (proj2 (Z.ltb_ge _ _)) by lia. eexists. split; [reflexivity|].
    split; [by rewrite (take_prefix _ acc (g_ents a))|]. split.
    + rewrite length_app, length_take. simpl. lia.
    + apply contiguous_app. split; [by apply contiguous_take|]. rewrite length_take. simpl. lia.
Qed.

(** What reading has gathered so far: the live entries and perhaps, after them,
    entries that were overwritten from below. *)
Definition gathers (start : Snapshot) (m : option bytes) (enti : Z) (acc : list raftpb.Entry)
    (a : gathered) : Prop :=
  length acc = Z.to_nat (enti - Index start) /\ acc `prefix_of` g_ents a /\ g_metadata a = m /\
  contiguous (Index start + 1) (g_ents a).

Lemma lread_step start m floor enti acc a l :
  let i := Index start in
  0 <= i < two64 -> 0 <= floor -> valid i floor enti [l] -> agrees start m [l] ->
  gathers start m enti acc a ->
  exists a', lread start a l = inr a' /\
    gathers start m (enti_step enti l) (snd (live_step i (enti, acc) l)) a' /\
    g_state a' = state_step (g_state a) l /\ g_match a' = g_match a || has_snap i [l].
Proof.
  intros i Hi Hfl Hv Hag (Hlen & Hpre & Hm & Hct). apply Forall_cons in Hag as [Hag _].
  destruct l as [|m0|s|e|s]; cbn [lread state_step enti_step live_step snd has_snap existsb].
  - exists a. rewrite orb_false_r. done.
  - subst m0. unfold read_metadata. exists (MkGathered (g_ents a) (g_state a) m (g_match a) (g_enti a)).
    rewrite orb_false_r. split; [|done]. rewrite Hm. destruct m as [b|]; [|done].
    by rewrite decide_True.
  - eexists. rewrite orb_false_r. split; [reflexivity|]. done.
  - simpl in Hv. destruct Hv as (H1 & H2 & H3 & _).
    destruct (read_entry_live start enti acc a e) as (ents & -> & Hp & Hl & Hc); [done|lia|done..|].
    eexists. rewrite orb_false_r. split; [reflexivity|]. done.
  - simpl in Hv. destruct Hv as (H1 & H2 & H3 & _). unfold read_snapshot. fold i.
    assert (gathers start m (Z.max enti (Index s)) (if enti <? Index s then [] else acc) a) as Hg.
    { destruct (Z.ltb_spec enti (Index s)).
      - split; [simpl; lia|]. split; [apply prefix_nil|done].
      - rewrite Z.max_l by lia. done. }
    destruct (Z.eqb_spec (Index s) i) as [E|E].
    + rewrite (proj2 (Z.eqb_eq (Term s) (Term start))) by (by apply Hag). simpl.
      eexists. split; [reflexivity|]. split; [exact Hg|]. split; [done|]. simpl.
      by rewrite orb_true_r.
    + exists a. rewrite orb_false_r. done.
Qed.

Lemma read_valid start m ls : forall floor enti acc a,
  let i := Index start in
  0 <= i < two64 -> 0 <= floor -> valid i floor enti ls -> agrees start m ls ->
  gathers start m enti acc a ->
  exists a', gather (lread start) a ls = inr a' /\
    gathers start m (enti_of enti ls) (snd (live_from i (enti, acc) ls)) a' /\
    g_state a' = state_of (g_state a) ls /\ g_match a' = g_match a || has_snap i ls.
Proof.
  induction ls as [|l ls IH]; intros floor enti acc a i Hi Hfl Hv Hag Hg.
  { exists a. simpl. rewrite orb_false_r. done. }
  change (l :: ls) with ([l] ++ ls) in *. apply valid_app in Hv as [Hv1 Hv2].
  apply Forall_app in Hag as [Hag1 Hag2].
  destruct (lread_step start m floor enti acc a l Hi Hfl Hv1 Hag1 Hg) as (a1 & E & Hg1 & Hs1 & Hm1).
  assert (0 <= floor_step floor l) as Hfl'.
  { destruct l; simpl; try done. simpl in Hv1. lia. }
  destruct (IH _ _ _ a1 Hi Hfl' Hv2 Hag2 Hg1) as (a2 & E2 & Hg2 & Hs2 & Hm2).
  exists a2. cbn [app gather]. rewrite E. split; [done|].
  assert (live_step i (enti, acc) l = (enti_step enti l, snd (live_step i (enti, acc) l))) as El
    by done.
  unfold enti_of, live_from, state_of in *. cbn [fold_left]. rewrite El.
  split; [exact Hg2|]. rewrite Hs2, Hs1. split; [done|].
  rewrite Hm2, Hm1. unfold has_snap. cbn [existsb]. by rewrite orb_false_r, orb_assoc.
Qed.


(** ** Runs *)

Inductive wal_op : Type :=
  | OpSave (st : raftpb.HardState) (ents : list raftpb.Entry)
  | OpSnap (s : Snapshot).

Section Runs.
Context `{HC : RaftCodecLaws} `{HL : RaftLaws}.
Variable n : nat.

Definition op_recs (op : wal_op) : list lrec :=
  match op with
  | OpSave st ents => map LEntry ents ++ state_recs st
  | OpSnap s => [LSnap s]
  end.

Definition run_op (w : WAL) (op : wal_op) : outcome WAL :=
  match op with
  | OpSave st ents => Save n w st ents
  | OpSnap s => '(w', _) ← SaveSnapshot w s; Ret w'
  end.

Fixpoint run_ops (w : WAL) (ops : list wal_op) : outcome WAL :=
  match ops with
  | [] => Ret w
  | op :: ops' => w' ← run_op w op; run_ops w' ops'
  end.

(** A log created in an empty directory, and the operations on it. *)
Definition wal_run (m : option bytes) (ops : list wal_op) : outcome WAL :=
  '(_, r) ← Create n [] m;
  match r with
  | inr w => run_ops w ops
  | inl _ => Panic "create"
  end.

(** The records the operations ask for, with the initial snapshot. *)
Definition hist_recs (ops : list wal_op) : list lrec :=
  LSnap empty_Snapshot :: concat (map op_recs ops).

(** The records fit the format, and snapshots carry their configuration. *)
Definition op_ok (op : wal_op) : Prop :=
  match op with
  | OpSave st ents => Forall (fun e => lrec_ok (LEntry e)) ents /\ lrec_ok (LState st)
  | OpSnap s => lrec_ok (LSnap s) /\ ValidateSnapshotForWrite s = None
  end.

(** *** The invariant of the segments *)

Record inv (lg : llog) (ops : list wal_op) : Prop := {
  inv_es : es (all_recs (lsegs lg)) = es (hist_recs ops);
  inv_enti : ll_enti lg = enti_of 0 (all_recs (lsegs lg));
  inv_idx : forall k sg, lsegs lg !! k = Some sg ->
    fst sg = if (k =? 0)%nat then 0 else enti_of 0 (all_recs (take k (lsegs lg))) + 1;
  inv_state : forall k, (k < length (lsegs lg))%nat ->
    state_of raftpb.emptyState (suffix lg k) = ll_state lg;
  inv_last : ll_state lg = state_of raftpb.emptyState (hist_recs ops);
  inv_head : Forall (fun sg => exists rest, snd sg = LCrc :: LMeta (ll_meta lg) :: rest) (lsegs lg);
  inv_meta : Forall (fun l => match l with LMeta m' => m' = ll_meta lg | _ => True end)
               (all_recs (lsegs lg));
  inv_count : (length (ll_older lg) <= length ops)%nat
}.

Lemma lsegs_add lg ls enti st :
  lsegs (add lg ls enti st) = ll_older lg ++ [(ll_idx lg, ll_tl lg ++ ls)].
Proof. done. Qed.

Lemma all_add lg ls enti st :
  all_recs (lsegs (add lg ls enti st)) = all_recs (lsegs lg) ++ ls.
Proof. unfold lsegs; simpl. by rewrite !all_recs_snoc, app_assoc. Qed.

Lemma suffix_add lg ls enti st k : (k < length (lsegs lg))%nat ->
  suffix (add lg ls enti st) k = suffix lg k ++ ls.
Proof.
  intros Hk. unfold suffix, lsegs in *; simpl. rewrite length_app in Hk. simpl in Hk.
  rewrite !drop_app_le by lia. by rewrite !all_recs_snoc, app_assoc.
Qed.

Lemma hist_snoc ops op : hist_recs (ops ++ [op]) = hist_recs ops ++ op_recs op.
Proof. unfold hist_recs. rewrite map_app, concat_app. simpl. by rewrite app_nil_r. Qed.

(** Records that are not metadata. *)
Definition plain (ls : list lrec) : Prop :=
  Forall (fun l => match l with LMeta _ => False | _ => True end) ls.

Lemma op_plain op : plain (op_recs op).
Proof.
  destruct op as [st ents|s]; simpl; [|by repeat constructor]. apply Forall_app. split.
  - induction ents; simpl; by constructor.
  - unfold state_recs. destruct (IsEmptyHardState st); repeat constructor.
Qed.

Lemma inv_add lg ops op enti st : inv lg ops ->
  enti = enti_of (ll_enti lg) (op_recs op) -> st = state_of (ll_state lg) (op_recs op) ->
  inv (add lg (op_recs op) enti st) (ops ++ [op]).
Proof.
  intros [Hes Hen Hix Hst Hla Hhd Hme Hct] -> ->. constructor.
  - by rewrite all_add, hist_snoc, !es_app, Hes.
  - rewrite all_add. cbn [add ll_enti]. rewrite Hen. unfold enti_of. by rewrite fold_left_app.
  - intros k sg. rewrite lsegs_add. intros E.
    destruct (decide (k < length (ll_older lg))%nat) as [Hk|Hk].
    + rewrite lookup_app_l in E by done. rewrite take_app_le by lia.
      specialize (Hix k sg). unfold lsegs in Hix. rewrite lookup_app_l, take_app_le in Hix by lia.
      auto.
    + rewrite lookup_app_r in E by lia. apply list_lookup_singleton_Some in E as [E <-].
      specialize (Hix k (ll_idx lg, ll_tl lg)). unfold lsegs in Hix.
      replace k with (length (ll_older lg)) in * by lia.
      rewrite lookup_app_r, Nat.sub_diag in Hix by lia. rewrite take_app_length in *.
      apply Hix. done.
  - intros k Hk. assert (k < length (lsegs lg))%nat as Hk'.
    { rewrite lsegs_add in Hk. unfold lsegs. rewrite length_app in *. done. }
    rewrite suffix_add by done. unfold state_of. rewrite fold_left_app.
    fold (state_of raftpb.emptyState (suffix lg k)). by rewrite Hst.
  - cbn [add ll_state]. rewrite hist_snoc, Hla. unfold state_of. by rewrite fold_left_app.
  - rewrite lsegs_add. unfold lsegs in Hhd. apply Forall_app in Hhd as [H1 H2].
    apply Forall_app. split; [done|]. constructor; [|constructor].
    apply Forall_cons in H2 as [[rest E] _]. simpl in E |- *. exists (rest ++ op_recs op).
    by rewrite E.
  - rewrite all_add. apply Forall_app. split; [done|].
    eapply Forall_impl; [apply op_plain|]. by intros [].
  - rewrite length_app. simpl. lia.
Qed.

Lemma es_head m st : es ([LCrc; LMeta m] ++ state_recs st) = [].
Proof. unfold state_recs. by destruct (IsEmptyHardState st). Qed.

Lemma state_head m st : state_of raftpb.emptyState ([LCrc; LMeta m] ++ state_recs st) = st.
Proof.
  unfold state_recs. destruct (IsEmptyHardState st) eqn:E; [|done].
  apply IsEmptyHardState_spec in E. done.
Qed.

Lemma state_again m st st0 : st0 = st ->
  state_of st0 ([LCrc; LMeta m] ++ state_recs st) = st.
Proof. intros ->. unfold state_recs. by destruct (IsEmptyHardState st). Qed.


Lemma lsegs_cut lg : lsegs (cut_log lg) = lsegs lg ++
  [(ll_enti lg + 1, [LCrc; LMeta (ll_meta lg)] ++ state_recs (ll_state lg))].
Proof. done. Qed.

Lemma inv_cut lg ops : inv lg ops -> (length (ll_older lg) < length ops)%nat ->
  inv (cut_log lg) ops.
Proof.
  intros [Hes Hen Hix Hst Hla Hhd Hme Hct] Hc.
  set (hd := [LCrc; LMeta (ll_meta lg)] ++ state_recs (ll_state lg)).
  assert (all_recs (lsegs (cut_log lg)) = all_recs (lsegs lg) ++ hd) as Eall.
  { rewrite lsegs_cut. apply all_recs_snoc. }
  constructor.
  - rewrite Eall, es_app. unfold hd. by rewrite es_head, app_nil_r.
  - rewrite <- enti_es, Eall, es_app. unfold hd. rewrite es_head, app_nil_r, enti_es. done.
  - intros k sg E. rewrite lsegs_cut in *.
    destruct (decide (k < length (lsegs lg))%nat) as [Hk|Hk].
    + rewrite lookup_app_l in E by done. rewrite take_app_le by lia. auto.
    + rewrite lookup_app_r in E by lia. apply list_lookup_singleton_Some in E as [E <-].
      replace k with (length (lsegs lg)) by lia. rewrite take_app_length.
      rewrite (proj2 (Nat.eqb_neq _ _)).
      * by rewrite <- Hen.
      * unfold lsegs. rewrite length_app. simpl. lia.
  - intros k Hk. unfold suffix. rewrite lsegs_cut in *. rewrite length_app in Hk. simpl in Hk.
    destruct (decide (k < length (lsegs lg))%nat) as [Hk'|Hk'].
    + rewrite drop_app_le, all_recs_snoc by lia. unfold state_of. rewrite fold_left_app.
      apply state_again. by apply Hst.
    + rewrite drop_app_ge by lia. replace (k - length (lsegs lg))%nat with 0%nat by lia.
      unfold all_recs; cbn [drop map concat snd]. rewrite app_nil_r. apply state_head.
  - done.
  - rewrite lsegs_cut. apply Forall_app. split; [done|]. constructor; [|constructor]. by eexists.
  - rewrite Eall. apply Forall_app. split; [done|]. unfold hd, state_recs.
    destruct (IsEmptyHardState (ll_state lg)); by repeat constructor.
  - unfold cut_log; simpl. rewrite length_app. simpl. lia.
Qed.

Lemma inv_created m : inv (created m) [].
Proof.
  constructor; try done.
  - intros [|k] sg E; [|by destruct k]. by injection E as <-.
  - intros [|k] Hk; [done|]. simpl in Hk. lia.
  - constructor; [|constructor]. by eexists.
  - by repeat constructor.
Qed.

(** The indices stay in range. *)
Lemma valid_bound i ls : forall floor enti, valid i floor enti ls -> 0 <= floor -> 0 <= enti ->
  enti + 1 < two64 -> 0 <= enti_of enti ls /\ enti_of enti ls + 1 < two64.
Proof.
  induction ls as [|l ls IH]; intros floor enti Hv Hf He Hb; [simpl; lia|].
  destruct l as [|m|s|e|s]; simpl in *; try (by eapply IH; eauto).
  - destruct Hv as (H1 & H2 & H3 & Hv). eapply IH; [exact Hv|lia..].
  - destruct Hv as (H1 & H2 & H3 & Hv). eapply IH; [exact Hv|lia..].
Qed.

Lemma last_entry_enti enti ents st :
  last_entry enti ents = enti_of enti (map LEntry ents ++ state_recs st).
Proof.
  unfold enti_of. rewrite fold_left_app. unfold last_entry.
  assert (forall x, fold_left enti_step (state_recs st) x = x) as ->.
  { intros x. unfold state_recs. by destruct (IsEmptyHardState st). }
  revert enti. induction ents as [|e ents IH]; intros enti; simpl; [done|]. apply IH.
Qed.

Lemma saved_state st0 ents st :
  (if IsEmptyHardState st then st0 else st) = state_of st0 (map LEntry ents ++ state_recs st).
Proof.
  unfold state_of. rewrite fold_left_app.
  assert (fold_left state_step (map LEntry ents) st0 = st0) as ->.
  { induction ents as [|e ents IH]; simpl; done. }
  unfold state_recs. by destruct (IsEmptyHardState st).
Qed.

(** The segments that represent the log after the operations [ops]. *)
Definition represents (w : WAL) (ops : list wal_op) (m : option bytes) : Prop :=
  exists lg, rep_log w lg /\ inv lg ops /\ ll_meta lg = m.

Lemma run_op_rep w ops m op i : represents w ops m -> op_ok op ->
  valid i 0 0 (hist_recs (ops ++ [op])) -> Z.of_nat n mod 8 = 0 ->
  Z.of_nat (length ops) + 2 < two64 ->
  exists w', run_op w op = Ret w' /\ represents w' (ops ++ [op]) m.
Proof.
  intros (lg & Hr & Hi & Em) Hok Hv Hn Hc. pose proof (inv_count _ _ Hi).
  assert (0 <= enti_of 0 (hist_recs (ops ++ [op])) /\
          enti_of 0 (hist_recs (ops ++ [op])) + 1 < two64) as Hb.
  { eapply valid_bound; [exact Hv|lia|lia|reflexivity]. }
  rewrite hist_snoc in Hb. unfold enti_of in Hb. rewrite fold_left_app in Hb.
  fold (enti_of 0 (hist_recs ops)) in Hb.
  assert (enti_of 0 (hist_recs ops) = ll_enti lg) as El.
  { rewrite (inv_enti _ _ Hi), <- (enti_es (all_recs _)), (inv_es _ _ Hi). by rewrite enti_es. }
  rewrite El in Hb. fold (enti_of (ll_enti lg) (op_recs op)) in Hb.
  destruct op as [st ents|s]; cbn [run_op op_recs] in *.
  - destruct Hok as [Ho1 Ho2].
    destruct (Save_rep n w lg st ents Hr Ho1 Ho2) as (w' & lg' & E & Hr' & Hlg).
    + rewrite (last_entry_enti _ ents st). unfold is_u64. lia.
    + done.
    + lia.
    + exists w'. split; [done|]. exists lg'. split; [done|].
      assert (inv (saved lg st ents) (ops ++ [OpSave st ents])) as Hs.
      { apply (inv_add lg ops (OpSave st ents)); [done|apply last_entry_enti|apply saved_state]. }
      destruct Hlg as [->| ->]; [done|]. split; [|done]. apply inv_cut; [done|].
      simpl. rewrite length_app. simpl. lia.
  - destruct Hok as [Ho1 Ho2]. destruct (SaveSnapshot_log w lg s Hr Ho1 Ho2) as (w' & -> & Hr').
    cbn [mbind outcome_bind]. exists w'. split; [done|]. eexists. split; [exact Hr'|].
    split; [|done]. by apply (inv_add lg ops (OpSnap s)).
Qed.

Lemma run_ops_rep ops2 : forall w ops1 m i, represents w ops1 m -> Forall op_ok ops2 ->
  valid i 0 0 (hist_recs (ops1 ++ ops2)) -> Z.of_nat n mod 8 = 0 ->
  Z.of_nat (length (ops1 ++ ops2)) + 2 < two64 ->
  exists w', run_ops w ops2 = Ret w' /\ represents w' (ops1 ++ ops2) m.
Proof.
  induction ops2 as [|op ops2 IH]; intros w ops1 m i Hr Hok Hv Hn Hc; cbn [run_ops].
  - rewrite app_nil_r. eauto.
  - apply Forall_cons in Hok as [Ho Hok].
    rewrite cons_middle, app_assoc in Hv, Hc.
    assert (valid i 0 0 (hist_recs (ops1 ++ [op]))) as Hv1.
    { unfold hist_recs in *. rewrite map_app, concat_app, app_comm_cons in Hv.
      by apply valid_app in Hv as [Hv _]. }
    destruct (run_op_rep w ops1 m op i Hr Ho Hv1 Hn) as (w1 & -> & Hr1).
    { rewrite !length_app in Hc. simpl in Hc. lia. }
    cbn [mbind outcome_bind]. rewrite (cons_middle op), app_assoc. by eapply IH.
Qed.


(** *** Reading after closing *)

(** The records of the selected segments are those of the log with the segment
    heads. *)
Lemma suffix_valid lg ops start k : inv lg ops -> valid (Index start) 0 0 (hist_recs ops) ->
  (forall s', LSnap s' ∈ hist_recs ops -> Index s' = Index start -> Term s' = Term start) ->
  let pre := all_recs (take k (lsegs lg)) in
  valid (Index start) 0 0 pre /\
  valid (Index start) (floor_of 0 pre) (enti_of 0 pre) (suffix lg k) /\
  agrees start (ll_meta lg) pre /\ agrees start (ll_meta lg) (suffix lg k) /\
  live_from (Index start) (live_from (Index start) (0, []) pre) (suffix lg k)
    = live_from (Index start) (0, []) (hist_recs ops).
Proof.
  intros Hi Hv Ht pre.
  assert (pre ++ suffix lg k = all_recs (lsegs lg)) as Eall by (symmetry; apply all_recs_split).
  assert (valid (Index start) 0 0 (pre ++ suffix lg k)) as Hva.
  { rewrite Eall. apply valid_es. rewrite (inv_es _ _ Hi). by apply valid_es. }
  apply valid_app in Hva as [Hv1 Hv2]. split; [done|]. split; [done|].
  assert (agrees start (ll_meta lg) (pre ++ suffix lg k)) as Hag.
  { rewrite Eall. apply Forall_forall. intros l Hl.
    pose proof (proj1 (Forall_forall _ _) (inv_meta _ _ Hi) l Hl) as Hm.
    destruct l as [|m'|st|e|s']; try done. intros E. apply Ht; [|done].
    apply list_elem_of_In. apply list_elem_of_In in Hl.
    assert (In (LSnap s') (es (all_recs (lsegs lg)))) as Hin by (apply filter_In; done).
    rewrite (inv_es _ _ Hi) in Hin. by apply filter_In in Hin as [Hin _]. }
  apply Forall_app in Hag as [Ha1 Ha2]. split; [done|]. split; [done|].
  unfold live_from at 1 2. rewrite <- fold_left_app, Eall.
  fold (live_from (Index start) (0, []) (all_recs (lsegs lg))).
  by rewrite <- live_es, (inv_es _ _ Hi), live_es.
Qed.

Lemma live_enti i ls : forall st, fst (live_from i st ls) = enti_of (fst st) ls.
Proof. induction ls as [|l ls IH]; intros [e0 a0]; [done|]. simpl. apply (IH (_, _)). Qed.

(** Below the snapshot nothing is live. *)
Lemma live_below start m ls : 0 <= Index start < two64 -> valid (Index start) 0 0 ls ->
  agrees start m ls -> enti_of 0 ls <= Index start ->
  live_from (Index start) (0, []) ls = (enti_of 0 ls, []).
Proof.
  intros Hs Hv Ha Hle.
  destruct (read_valid start m ls 0 0 [] (MkGathered [] raftpb.emptyState m false 0))
    as (a & _ & (Hlen & _) & _); [done|done|done|done|by split; [simpl; lia|]|].
  destruct (live_from (Index start) (0, []) ls) as [en acc] eqn:E. simpl in Hlen.
  assert (en = enti_of 0 ls) as ->.
  { pose proof (live_enti (Index start) ls (0, [])) as H. by rewrite E in H. }
  destruct acc; [done|]. simpl in Hlen. lia.
Qed.

(** Reading the segments that the snapshot selects. *)
Lemma read_selected lg ops start k sg : inv lg ops -> valid (Index start) 0 0 (hist_recs ops) ->
  0 <= Index start < two64 ->
  (forall s', LSnap s' ∈ hist_recs ops -> Index s' = Index start -> Term s' = Term start) ->
  lsegs lg !! k = Some sg -> fst sg <= Index start ->
  exists a, gather (lread start) fresh_gather (suffix lg k) = inr a /\
    g_metadata a = ll_meta lg /\ g_state a = ll_state lg /\
    live (Index start) (hist_recs ops) `prefix_of` g_ents a /\
    contiguous (Index start + 1) (g_ents a).
Proof.
  intros Hi Hv Hs Ht Ek Hle.
  destruct (suffix_valid lg ops start k Hi Hv Ht) as (Hv1 & Hv2 & Ha1 & Ha2 & El).
  set (pre := all_recs (take k (lsegs lg))) in *.
  assert (enti_of 0 pre <= Index start) as Hpre.
  { pose proof (inv_idx _ _ Hi k sg Ek) as Hx.
    destruct (Nat.eqb_spec k 0) as [->|]; [simpl; lia|fold pre in Hx; lia]. }
  rewrite (live_below start (ll_meta lg)) in El by done.
  pose proof (proj1 (Forall_lookup _ _) (inv_head _ _ Hi) k sg Ek) as [rest Eh].
  assert (exists more, suffix lg k = LCrc :: LMeta (ll_meta lg) :: rest ++ more) as [more Es].
  { unfold suffix. rewrite (drop_S _ _ _ Ek). unfold all_recs. simpl. rewrite Eh. by eexists. }
  assert (0 <= floor_of 0 pre) as Hfl by (by apply (valid_above _ _ 0 0 Hv1)).
  destruct (read_valid start (ll_meta lg) (rest ++ more) (floor_of 0 pre) (enti_of 0 pre) []
    (MkGathered [] raftpb.emptyState (ll_meta lg) false 0)) as (a & E & Hg & Est & _).
  - done.
  - done.
  - by rewrite Es in Hv2.
  - rewrite Es in Ha2. apply Forall_cons in Ha2 as [_ Ha2]. by apply Forall_cons in Ha2 as [_ Ha2].
  - split; [simpl; lia|done].
  - exists a. rewrite Es. cbn [gather lread]. split; [exact E|].
    destruct Hg as (_ & Hp & Hm & Hct). split; [done|]. split.
    + rewrite Est. rewrite <- (inv_state _ _ Hi k) by (by apply lookup_lt_Some in Ek).
      by rewrite Es.
    + unfold live. rewrite <- El, Es. split; [exact Hp|done].
Qed.


Lemma created_ok m : lrec_ok (LMeta m) -> lrec_ok (LState raftpb.emptyState) ->
  Z.of_nat n mod 8 = 0 ->
  exists w, Create n [] m = Ret (w_dir w, inr w) /\ represents w [] m.
Proof.
  intros Hm Hs Hn. destruct (Create_rep n [] m) as (w & E & Hr); try done.
  exists w. split; [done|]. exists (created m). split; [done|]. split; [apply inv_created|done].
Qed.

Lemma run_represents m ops i : lrec_ok (LMeta m) -> lrec_ok (LState raftpb.emptyState) ->
  Forall op_ok ops -> valid i 0 0 (hist_recs ops) -> Z.of_nat n mod 8 = 0 ->
  Z.of_nat (length ops) + 2 < two64 ->
  exists w, wal_run m ops = Ret w /\ represents w ops m.
Proof.
  intros Hm Hs Hok Hv Hn Hc. destruct (created_ok m Hm Hs Hn) as (w0 & E0 & H0).
  destruct (run_ops_rep ops w0 [] m i H0 Hok Hv Hn Hc) as (w & E & Hr).
  exists w. split; [|done]. unfold wal_run. rewrite E0. exact E.
Qed.

Lemma inv_headed lg ops : inv lg ops -> headed lg.
Proof.
  intros H. eapply Forall_impl; [apply (inv_head _ _ H)|]. intros sg [rest E]. eauto.
Qed.

Lemma snap_in_range i s ls : forall floor enti, valid i floor enti ls -> 0 <= floor ->
  LSnap s ∈ ls -> 0 <= Index s < two64.
Proof.
  induction ls as [|l ls IH]; intros floor enti Hv Hf Hin; [by apply not_elem_of_nil in Hin|].
  apply elem_of_cons in Hin as [<-|Hin].
  - simpl in Hv. lia.
  - destruct l as [|m|st|e|s']; simpl in Hv; try (by eapply IH; eauto).
    + destruct Hv as (? & ? & ? & Hv). by eapply IH; eauto.
    + destruct Hv as (? & ? & ? & Hv). eapply IH; [exact Hv|lia|done].
Qed.

(** Opening at a snapshot selects a segment. *)
Lemma open_selected lg ops t s : names_ok lg -> inv lg ops -> 0 <= Index s ->
  exists k sg, lsegs lg !! k = Some sg /\ fst sg <= Index s /\
    Open (disk_with lg t) s = Ret (inr (at_open lg t s k)).
Proof.
  intros Hno Hi Hs. destruct (Open_disk lg t s Hno) as (k & sg & Ek & Hk & _ & Eo); [|eauto].
  destruct (lookup_lt_is_Some_2 (lsegs lg) 0) as [sg0 E0].
  { unfold lsegs. rewrite length_app. simpl. lia. }
  exists 0%nat, sg0. split; [done|]. rewrite (inv_idx _ _ Hi 0 sg0 E0). simpl. lia.
Qed.

(** Opening and reading the files of a log. *)
Lemma read_disk lg ops s z : names_ok lg -> recs_ok lg -> inv lg ops -> zeros_ok z ->
  valid (Index s) 0 0 (hist_recs ops) -> 0 <= Index s < two64 ->
  (forall s', LSnap s' ∈ hist_recs ops -> Index s' = Index s -> Term s' = Term s) ->
  exists k w ents, (k < length (lsegs lg))%nat /\
    Open (disk lg z) s = Ret (inr (at_open lg (replicate z x00) s k)) /\
    ReadAll (at_open lg (replicate z x00) s k)
      = Ret (w, (ll_meta lg, state_of raftpb.emptyState (hist_recs ops), ents, None)) /\
    live (Index s) (hist_recs ops) `prefix_of` ents /\ contiguous (Index s + 1) ents.
Proof.
  intros Hno Hro Hi Hz Hv Hs Ht. pose proof (inv_headed lg ops Hi) as Hhd.
  destruct (open_selected lg ops (replicate z x00) s Hno Hi) as (k & sg & Ek & Hk & Eo); [lia|].
  destruct (read_selected lg ops s k sg Hi Hv Hs Ht Ek Hk) as (a & Ea & Ema & Esa & Hp & Hct).
  apply lookup_lt_Some in Ek as Hkl.
  destruct (ReadAll_disk lg z s k a Hno Hro Hhd Hz Hkl Ea) as (w & Er & _).
  exists k, w, (g_ents a). split; [done|]. split; [exact Eo|]. split; [|done].
  by rewrite Er, Ema, Esa, (inv_last _ _ Hi).
Qed.

(** C11: what the write-ahead log recovers.  Let a log be created, hard states,
    entries and snapshots be saved to it in any order raft may ask for
    ([valid]: entries continue or overwrite the log above the snapshots taken),
    over as many segments as it takes, and the log be closed.  Opening it at a
    snapshot that was saved and reading it succeeds and returns the metadata,
    the last hard state saved, and the entries after the snapshot: every live
    entry of the raft log, in order, before any other.  Only the segments from
    the one the index selects are read, from their bytes. *)
Theorem log_read_back m ops s :
  Z.of_nat n mod 8 = 0 -> Z.of_nat (length ops) + 2 < two64 ->
  lrec_ok (LMeta m) -> lrec_ok (LState raftpb.emptyState) -> Forall op_ok ops ->
  valid (Index s) 0 0 (hist_recs ops) -> LSnap s ∈ hist_recs ops ->
  (forall s', LSnap s' ∈ hist_recs ops -> Index s' = Index s -> Term s' = Term s) ->
  exists w w1 w2 w3 ents,
    wal_run m ops = Ret w /\ Close w = Ret (w1, None) /\
    Open (w_dir w1) s = Ret (inr w2) /\
    ReadAll w2 = Ret (w3, (m, state_of raftpb.emptyState (hist_recs ops), ents, None)) /\
    live (Index s) (hist_recs ops) `prefix_of` ents.
Proof.
  intros Hn Hc Hm Hst Hok Hv Hin Ht.
  destruct (run_represents m ops _ Hm Hst Hok Hv Hn Hc) as (w & E & lg & Hr & Hi & Em).
  destruct (Close_disk w lg Hr) as (w1 & z & Ec & Ed & Hz).
  pose proof (snap_in_range _ s _ 0 0 Hv ltac:(lia) Hin) as Hsr.
  destruct (read_disk lg ops s z (rep_names_ok w lg Hr) (rep_recs_ok w lg Hr) Hi Hz Hv Hsr Ht)
    as (k & w3 & ents & _ & Eo & Er & Hp & _).
  eexists w, w1, _, w3, ents. rewrite Ed. split; [done|]. split; [done|]. split; [exact Eo|].
  split; [|done]. by rewrite Er, Em.
Qed.

End Runs.

Import MemRaft.

(** A log with segments of 64 bytes: three entries, the last rewritten by a new
    leader, a snapshot after the second. *)
Definition ent (t i : Z) : raftpb.Entry := raftpb.MkEntry t i raftpb.EntryNormal [x00].

Definition sample_snap : Snapshot :=
  MkSnapshot 2 1 (Some (raftpb.MkConfState [1] [])) [].

Definition sample_ops : list wal_op :=
  [OpSave (raftpb.MkHardState 1 1 0) [ent 1 1; ent 1 2; ent 1 3];
   OpSave (raftpb.MkHardState 1 1 2) [];
   OpSnap sample_snap;
   OpSave (raftpb.MkHardState 2 0 2) [ent 2 3]].

Lemma log_read_back_witness :
  live 2 (hist_recs sample_ops) = [ent 2 3] /\
  exists w w1 w2 w3 ents,
    wal_run 64 None sample_ops = Ret w /\ Close w = Ret (w1, None) /\
    Open (w_dir w1) sample_snap = Ret (inr w2) /\
    ReadAll w2 = Ret (w3, (None, raftpb.MkHardState 2 0 2, ents, None)) /\
    [ent 2 3] `prefix_of` ents.
Proof.
  assert (El : live 2 (hist_recs sample_ops) = [ent 2 3]) by (vm_compute; reflexivity).
  assert (Es : raftpb.MkHardState 2 0 2 = state_of raftpb.emptyState (hist_recs sample_ops))
    by (vm_compute; reflexivity).
  split; [exact El|]. rewrite <- El, Es.
  apply (log_read_back 64 None sample_ops sample_snap).
  - reflexivity.
  - reflexivity.
  - split; [reflexivity|exact I].
  - split; [vm_compute; reflexivity|exact I].
  - repeat (constructor; simpl); try (split; vm_compute; reflexivity || exact I).
    all: vm_compute; try reflexivity; try exact I; intuition discriminate.
  - vm_compute. intuition discriminate.
  - vm_compute. repeat constructor.
  - intros s' Hin E. vm_compute in Hin.
    repeat (apply elem_of_cons in Hin as [Hin|Hin]; [try discriminate Hin|]).
    all: first [by apply not_elem_of_nil in Hin|injection Hin as ->; first [reflexivity|discriminate E]].
Defined.

(** A run, its close, and the recovery at a snapshot, in one. *)
Definition recover (n : nat) (m : option bytes) (ops : list wal_op) (s : Snapshot) :
    outcome (error + (option bytes * raftpb.HardState * list raftpb.Entry * option error)) :=
  w ← wal_run n m ops;
  '(w, _) ← Close w;
  r ← Open (w_dir w) s;
  match r with
  | inl e => Ret (inl e)
  | inr w => '(_, res) ← ReadAll w; Ret (inr res)
  end.

Definition stale_snap : Snapshot :=
  MkSnapshot 2 2 (Some (raftpb.MkConfState [1] [])) [].

(** A leader of term 2 replaces the entries from index 2, that entry commits,
    and the node takes a snapshot at index 2. *)
Definition stale_ops : list wal_op :=
  [OpSave (raftpb.MkHardState 1 1 1) [ent 1 1; ent 1 2; ent 1 3];
   OpSave (raftpb.MkHardState 2 0 2) [ent 2 2];
   OpSnap stale_snap].

(** The entries past the live ones are not ruled out.  Reading skips an
    entry at or below the snapshot's index without cutting the entries already
    gathered, so an entry that such an entry had overwritten comes back: the
    raft log after the snapshot is empty, and the recovery returns the entry of
    term 1 that the leader of term 2 had removed. *)
Theorem stale_tail_recovered :
  live 2 (hist_recs stale_ops) = [] /\
  recover 64 None stale_ops stale_snap
    = Ret (inr (None, raftpb.MkHardState 2 0 2, [ent 1 3], None)).
Proof. split; vm_compute; reflexivity. Qed.

End WalLog.
