(* ===== verification/WalCrash.v ===== *)
(** * The write-ahead log after a crash

    A process that dies while it appends leaves a prefix of the bytes it was
    asked to write: whole pages of its buffer, the rest of the preallocated
    segment being zero, or a file cut short.  The theorems show that [Repair]
    gives back a log that holds everything flushed before, and of the batch
    that was being written a prefix; and that opening the log without
    repairing it answers [ErrUnexpectedEOF]. *)

From S2P Require Import Prelude Errors Utils RaftApi WalRecord WalIo WalFrame WalNames EtcdWal.
From S2P Require Import WalRep WalRead WalLog.
From Stdlib Require Import Strings.Byte.
Import walpb WalLog.

Module WalCrash.

(** ** Where a crash cuts the bytes of a segment *)

(** The records wholly before [q], and what is left of the next. *)
Lemma cut_frames rs : forall q, Forall small rs -> (q <= length (concat (map frame rs)))%nat ->
  exists rs1 rs2, rs = rs1 ++ rs2 /\
    (take q (concat (map frame rs)) = concat (map frame rs1) \/
     exists r rs3 k, rs2 = r :: rs3 /\ (0 < k < length (frame r))%nat /\
       take q (concat (map frame rs)) = concat (map frame rs1) ++ take k (frame r)).
Proof.
  induction rs as [|r rs IH]; intros q Hs Hq.
  { exists [], []. split; [done|left]. by destruct q. }
  apply Forall_cons in Hs as [Hr Hs]. cbn [map concat] in *.
  destruct (decide (q = 0)%nat) as [->|Hq0]; [exists [], (r :: rs); split; [done|by left]|].
  destruct (decide (q < length (frame r))%nat) as [Hlt|Hge].
  - exists [], (r :: rs). split; [done|right]. exists r, rs, q. split; [done|]. split; [lia|].
    by rewrite take_app_le by lia.
  - destruct (IH (q - length (frame r))%nat Hs) as (rs1 & rs2 & -> & H).
    { rewrite length_app in Hq. lia. }
    exists (r :: rs1), rs2. split; [done|]. rewrite take_app_ge by lia. cbn [map concat].
    destruct H as [-> |(r' & rs3 & k & -> & Hk & ->)]; [by left|right].
    exists r', rs3, k. rewrite app_assoc. done.
Qed.

Section Crash.
Context `{HC : RaftCodecLaws} `{HL : RaftLaws}.

Lemma stamps_split c ls : forall rs1 rs2, stamps c ls = rs1 ++ rs2 ->
  exists j, rs1 = stamps c (take j ls) /\ rs2 = stamps (crc_after c (take j ls)) (drop j ls).
Proof.
  intros rs1 rs2 E. exists (length rs1).
  assert (forall j, take j (stamps c ls) = stamps c (take j ls)) as Ht.
  { intros j. clear E. revert c ls. induction j as [|j IH]; intros c ls; [done|].
    destruct ls as [|l ls]; [done|]. cbn [stamps take]. by rewrite IH. }
  assert (rs1 = stamps c (take (length rs1) ls)) as E1.
  { rewrite <- Ht, E. by rewrite take_app_length. }
  split; [done|]. apply (app_inv_head rs1). rewrite <- E. rewrite E1 at 1.
  rewrite <- stamps_app, take_drop. done.
Qed.

(** The bytes of the last segment: those written and those still pending. *)
Definition pending (w : WAL) : bytes :=
  match w_encoder w with Some e => buf (bw e) | None => [] end.

Definition chain (w : WAL) : Z := match w_encoder w with Some e => ecrc e | None => 0 end.

Definition stream (w : WAL) : bytes :=
  match tail_file w with Ret f => take (f_pos f) (f_data f) ++ pending w | _ => [] end.

(** The directory after a crash that leaves the first [q] of these bytes, and
    [z] zeros after them. *)
Definition crash (w : WAL) (q z : nat) : dir :=
  match tail w with
  | Some n => dir_put (w_dir w) n (take q (stream w) ++ replicate z x00)
  | None => w_dir w
  end.

(** From [w], which is flushed, to [w'] the log was appended to: the bytes of
    [w] are there; after them the file ends, or the zeros start at the end of
    what is there or at a sector. *)
Definition crash_point (w w' : WAL) (q z : nat) : Prop :=
  (w_pos w <= q <= length (stream w'))%nat /\
  (z = 0%nat \/
   (Z.of_nat q mod minSectorSize = 0 \/ q = w_pos w \/ q = length (stream w')) /\
   Z.of_nat (q + z) mod 8 = 0).

(** No entry of the batch that lost its end passes for another record. *)
Definition checksums_tell (c : Z) (es : list raftpb.Entry) : Prop :=
  forall j e k, es !! j = Some e ->
    let c' := crc_after c (map LEntry (take j es)) in detected c' (stamp c' (LEntry e)) k.

Lemma rep_stream w older idx tl f e z k : rep_with w older idx tl f e z k ->
  stream w = concat (map frame (stamps (crc_before older) tl)).
Proof.
  intros H. unfold stream, pending. rewrite (rep_tail_file _ _ _ _ _ _ _ _ H).
  rewrite (rep_encoder _ _ _ _ _ _ _ _ H). apply H.
Qed.

Lemma crash_closed w older idx tl f e z k q z' : rep_with w older idx tl f e z k ->
  crash w q z' = closed older ++ [(tail_name older idx,
    take q (concat (map frame (stamps (crc_before older) tl))) ++ replicate z' x00)].
Proof.
  intros H. unfold crash. rewrite (rep_tail _ _ _ _ _ _ _ _ H), (rep_stream _ _ _ _ _ _ _ _ H).
  by rewrite (rep_dir _ _ _ _ _ _ _ _ H), dir_put_last by eauto using rep_above.
Qed.

(** The last file after a crash: whole records, then zeros or a torn record. *)
Definition file_end (lg : llog) (t : bytes) : Prop :=
  (exists z, t = replicate z x00 /\ zeros_ok z) \/
  torn t (frames_len (tail_recs lg)) (crc_after 0 (all_recs (lsegs lg))).

(** The log with the first [j] entries of the batch. *)
Definition with_batch (lg : llog) (es : list raftpb.Entry) (j : nat) : llog :=
  let op := OpSave raftpb.emptyState (take j es) in
  add lg (op_recs op) (enti_of (ll_enti lg) (op_recs op)) (state_of (ll_state lg) (op_recs op)).

Lemma batch_recs es : op_recs (OpSave raftpb.emptyState es) = map LEntry es.
Proof.
  unfold op_recs, state_recs. rewrite (proj2 (IsEmptyHardState_spec _) eq_refl). apply app_nil_r.
Qed.

Lemma batch_tail lg es j : tail_recs (with_batch lg es j)
  = tail_recs lg ++ stamps (crc_after (crc_before (ll_older lg)) (ll_tl lg)) (take j (map LEntry es)).
Proof.
  unfold with_batch. rewrite batch_recs. unfold tail_recs, add; cbn [ll_older ll_tl].
  rewrite stamps_app, firstn_map. done.
Qed.

Lemma batch_crc lg es j : crc_after 0 (all_recs (lsegs (with_batch lg es j)))
  = crc_after (crc_after (crc_before (ll_older lg)) (ll_tl lg)) (take j (map LEntry es)).
Proof.
  unfold with_batch. rewrite batch_recs. unfold lsegs, add; cbn [ll_older ll_tl ll_idx].
  rewrite all_recs_snoc, !crc_after_app, firstn_map. done.
Qed.

Lemma crash_disk w' lg es q z j t :
  rep w' (ll_older lg) (ll_idx lg) (ll_tl lg ++ map LEntry es) ->
  take q (stream w') ++ replicate z x00 = file_bytes (tail_recs (with_batch lg es j)) t ->
  crash w' q z = disk_with (with_batch lg es j) t.
Proof.
  intros (f & e & zf & k & H) E. rewrite disk_closed, (crash_closed _ _ _ _ _ _ _ _ _ _ H).
  by rewrite <- (rep_stream _ _ _ _ _ _ _ _ H), E.
Qed.

(** A flushed log has written all its bytes. *)
Lemma flushed_pos w lg : rep_log w lg -> pending w = [] ->
  w_pos w = length (concat (map frame (tail_recs lg))) /\
  chain w = crc_after (crc_before (ll_older lg)) (ll_tl lg).
Proof.
  intros ((f & e & z & k & H) & _) Hp. unfold pending in Hp. unfold chain.
  rewrite (rep_encoder _ _ _ _ _ _ _ _ H) in *. split; [|apply H].
  pose proof (rep_bytes _ _ _ _ _ _ _ _ H) as Eb. rewrite Hp, app_nil_r in Eb.
  unfold tail_recs. rewrite <- Eb, (rep_pos _ _ _ _ _ _ _ _ H).
  pose proof (rep_pos_ok _ _ _ _ _ _ _ _ H) as Hpos. unfold pos_ok in Hpos.
  rewrite length_take. lia.
Qed.

Lemma next_stamp c es j r rs :
  r :: rs = stamps (crc_after c (take j (map LEntry es))) (drop j (map LEntry es)) ->
  exists e, es !! j = Some e /\ r = stamp (crc_after c (take j (map LEntry es))) (LEntry e).
Proof.
  intros E. rewrite skipn_map in E. destruct (drop j es) as [|e es'] eqn:Ed; [done|].
  injection E as -> _. exists e. split; [|done].
  rewrite <- (Nat.add_0_r j), <- lookup_drop, Ed. done.
Qed.

(** What the appended log was asked to write: the bytes flushed, and those of
    the batch. *)
Lemma stream_parts w w' lg es : rep_log w lg -> pending w = [] ->
  rep w' (ll_older lg) (ll_idx lg) (ll_tl lg ++ map LEntry es) ->
  let c := crc_after (crc_before (ll_older lg)) (ll_tl lg) in
  let A := concat (map frame (tail_recs lg)) in
  let rs := stamps c (map LEntry es) in
  chain w = c /\ w_pos w = length A /\ Z.of_nat (length A) mod 8 = 0 /\ Forall small rs /\
  stream w' = A ++ concat (map frame rs).
Proof.
  intros Hr Hp (f & e & zf & k & H) c A rs. destruct (flushed_pos w lg Hr Hp) as [Epos Ech].
  destruct (rep_crc_u32 _ _ _ _ _ _ _ _ H) as [Hu _].
  destruct (proj1 (Forall_app _ _ _) (rep_ok _ _ _ _ _ _ _ _ H)) as [_ Ht].
  destruct (stamps_small _ _ Hu Ht) as [Hs _]. rewrite stamps_app in Hs.
  apply Forall_app in Hs as [Hs1 Hs2]. split; [done|]. split; [done|].
  split; [by apply frames_aligned|]. split; [done|].
  by rewrite (rep_stream _ _ _ _ _ _ _ _ H), stamps_app, map_app, concat_app.
Qed.

Lemma crash_shape w w' lg es q z : rep_log w lg -> pending w = [] ->
  rep w' (ll_older lg) (ll_idx lg) (ll_tl lg ++ map LEntry es) ->
  checksums_tell (chain w) es -> crash_point w w' q z ->
  exists j t, crash w' q z = disk_with (with_batch lg es j) t /\ file_end (with_batch lg es j) t.
Proof.
  intros Hr Hp Hr' Hck [Hq Hz].
  destruct (stream_parts w w' lg es Hr Hp Hr') as (Ech & Epos & HA & Hs2 & Est).
  set (c := crc_after (crc_before (ll_older lg)) (ll_tl lg)) in *.
  set (A := concat (map frame (tail_recs lg))) in *.
  set (B := concat (map frame (stamps c (map LEntry es)))) in *.
  rewrite Est, length_app in Hq. rewrite Epos in Hq.
  assert (take q (stream w') = A ++ take (q - length A) B) as Etk.
  { rewrite Est, take_app_ge by lia. done. }
  destruct (cut_frames _ (q - length A) Hs2) as (rs1 & rs2 & Esp & Hcut); [fold B; lia|].
  destruct (stamps_split _ _ _ _ Esp) as (j & E1 & E2). fold B in Hcut.
  rewrite Esp in Hs2. apply Forall_app in Hs2 as [Hs21 Hs22].
  pose proof (frames_aligned _ Hs21) as HR. set (R := concat (map frame rs1)) in *.
  assert (concat (map frame (tail_recs (with_batch lg es j))) = A ++ R) as Ef.
  { rewrite batch_tail. fold c. rewrite <- E1, map_app, concat_app. done. }
  destruct Hcut as [Hcut|(r & rs3 & k & -> & Hk & Hcut)].
  - exists j, (replicate z x00). split; [|left; exists z; split; [done|]].
    + apply crash_disk; [done|]. unfold file_bytes. rewrite Ef, Etk, Hcut. done.
    + pose proof (f_equal length Hcut) as El. rewrite length_take in El. unfold zeros_ok.
      destruct Hz as [->|[_ Hz]]; [done|]. div_lia.
  - pose proof (f_equal length Hcut) as El.
    rewrite length_take, length_app, length_take, Nat.min_l in El by lia.
    assert (length R + length (frame r) <= length B)%nat as HB.
    { unfold B. rewrite Esp, map_app, concat_app. cbn [map concat]. rewrite !length_app. fold R. lia. }
    destruct (next_stamp _ _ _ _ _ E2) as (e & Ej & Er).
    apply Forall_cons in Hs22 as [Hsr _].
    destruct (tear r k z (Z.of_nat (length A + length R)) (crc_after c (take j (map LEntry es))))
      as [Ht|(z' & Et & Hz')]; [done|lia|div_lia|lia| | |].
    + destruct Hz as [?|[Hz Hz8]]; [by left|right].
      replace (Z.of_nat (length A + length R) + Z.of_nat k) with (Z.of_nat q) by lia.
      replace (Z.of_nat (length A + length R) + Z.of_nat (k + z)) with (Z.of_nat (q + z)) by lia.
      rewrite Est, length_app in Hz. split; [destruct Hz as [?|[?|?]]; [done|lia..]|].
      split; [done|]. rewrite Er, firstn_map, <- Ech. by apply Hck.
    + exists j, (take k (frame r) ++ replicate z x00). split; [|right].
      * apply crash_disk; [done|]. unfold file_bytes. rewrite Ef, Etk, Hcut, !app_assoc. done.
      * rewrite batch_crc. unfold frames_len. rewrite Ef, length_app. exact Ht.
    + exists (S j), (replicate z' x00). split; [|left; by exists z'].
      apply crash_disk; [done|]. unfold file_bytes.
      rewrite batch_tail. fold c.
      rewrite Etk, Hcut, (take_S_r _ _ (LEntry e)), stamps_app, <- E1
        by (by rewrite list_lookup_fmap, Ej).
      rewrite !map_app, !concat_app. fold A R. cbn [stamps map concat].
      rewrite <- Er, app_nil_r, <- !app_assoc, Et. done.
Qed.

(** ** Repair *)

(** The loop of [Repair] without the offset it keeps. *)
Definition scan_body (a : unit) (rec : Record_) (d : decoder)
    : outcome (decoder * (unit + unit)) :=
  if Type_ rec =? CrcType then check_crc d rec () () else Ret (d, inr ()).

Lemma scan_acts : acts scan_body (fun _ _ => inr ()).
Proof.
  intros [] c l d Hl. destruct l; unfold scan_body; try done.
  split; [|done]. intros Hd. by apply check_crc_ok.
Qed.

Lemma gather_scan (ls : list lrec) : gather (fun (_ : unit) _ => @inr unit unit ()) () ls = inr ().
Proof. by induction ls. Qed.

(** With one file left, an error leaves the offset and a record the file. *)
Lemma one_file d d' r : length (brs d) = 1%nat -> continueOnCrcError d = false ->
  Decode d = (d', r) -> continueOnCrcError d' = false /\
  match snd r with
  | Some _ => lastValidOff d' = lastValidOff d
  | None => length (brs d') = 1%nat
  end.
Proof.
  destruct d as [[|br [|]] off crc cont]; simpl; try done. intros _ -> E.
  unfold Decode in E; cbn [brs lastValidOff dcrc continueOnCrcError decodeRecord] in E.
  destruct (readInt64 (br_rest br)) as [e|[l r0]];
    [destruct (decide (e = EOF)); by injection E as <- <-|].
  destruct (l =? 0); [by injection E as <- <-|].
  destruct (decodeFrameSize l) as [rb pb].
  destruct (_ <? rb); [by injection E as <- <-|].
  destruct (_ <? _)%nat; [by injection E as <- <-|].
  destruct (Record_Unmarshal _) as [e|rec]; [by injection E as <- <-|].
  destruct (Type_ rec =? CrcType); [by injection E as <- <-|].
  destruct (Validate _ _); by injection E as <- <-.
Qed.

Lemma scan_step rec d : exists d' x, scan_body () rec d = Ret (d', x) /\
  brs d' = brs d /\ continueOnCrcError d' = continueOnCrcError d /\
  match x with
  | inr _ => forall a, repair_body a rec d = Ret (d', inr (LastOffset d'))
  | inl _ => True
  end.
Proof.
  unfold scan_body, repair_body, check_crc. destruct (Type_ rec =? CrcType); [|by eexists _, _].
  destruct (negb _ && _); by eexists _, _.
Qed.

Lemma repair_scan fuel : forall d d' e, length (brs d) = 1%nat -> continueOnCrcError d = false ->
  decode_loop fuel scan_body () d = Ret (d', inr ((), e)) ->
  decode_loop fuel repair_body (LastOffset d) d = Ret (d', inr (LastOffset d', e)).
Proof.
  induction fuel as [|fuel IH]; intros d d' e H1 Hc E; [done|]. cbn [decode_loop] in *.
  destruct (Decode d) as [d1 [rec [err|]]] eqn:Ed.
  - injection E as <- <-. destruct (one_file _ _ _ H1 Hc Ed) as [_ Ho]. simpl in Ho.
    unfold LastOffset. by rewrite Ho.
  - destruct (one_file _ _ _ H1 Hc Ed) as [Hc1 H2]. simpl in H2.
    destruct (scan_step rec d1) as (d2 & x & Es & E1 & E2 & Er).
    rewrite Es, ret_bind in E. cbv beta iota in E. destruct x as [[]|[]]; [done|].
    rewrite Er, ret_bind. cbv beta iota. apply IH; congruence.
Qed.

(** The loop over the last file. *)
Lemma repair_loop lg t d r e : recs_ok lg -> headed lg ->
  at_end t (frames_len (tail_recs lg)) (crc_after 0 (all_recs (lsegs lg))) false = (d, (r, Some e)) ->
  loop repair_body 0 (NewDecoder [file_bytes (tail_recs lg) t]) = Ret (d, inr (LastOffset d, e)).
Proof.
  intros Hr Hh He. unfold loop. apply (repair_scan _ (NewDecoder _)); [done|done|].
  pose proof (read_suffix scan_body (fun _ _ => inr ()) lg t (length (ll_older lg)) () scan_acts
    Hr Hh) as H. cbv zeta in H. rewrite gather_scan in H. unfold loop in H.
  assert (drop (length (ll_older lg)) (files_of lg t) = [file_bytes (tail_recs lg) t]) as E.
  { unfold files_of. rewrite drop_app_length'; [done|]. by rewrite length_map, length_older_segs. }
  rewrite E in H. eapply H; [|exact He]. unfold lsegs. rewrite length_app. simpl. lia.
Qed.

Lemma last_file lg t : names_ok lg ->
  last (seg_names (lsegs lg)) = Some (tail_name (ll_older lg) (ll_idx lg)) /\
  dir_get (disk_with lg t) (tail_name (ll_older lg) (ll_idx lg)) = Some (file_bytes (tail_recs lg) t).
Proof.
  intros Hn. unfold lsegs. rewrite seg_names_snoc, last_snoc. split; [done|].
  rewrite disk_closed. by apply dir_get_last, tail_above.
Qed.

Lemma Repair_clean lg z : names_ok lg -> recs_ok lg -> headed lg -> zeros_ok z ->
  Repair (disk lg z) = Ret (disk lg z, true).
Proof.
  intros Hn Hr Hh Hz. unfold Repair, disk. rewrite read_names by done.
  destruct (last_file lg (replicate z x00) Hn) as [-> Eg]. cbn [mbind option_bind]. rewrite Eg.
  cbn [mbind option_bind]. erewrite repair_loop by
    first [done|apply at_end_zeros; by apply zeros_end]. by rewrite ret_bind.
Qed.

(** The file kept under another name. *)
Definition broken (lg : llog) : string := (tail_name (ll_older lg) (ll_idx lg) ++ ".broken")%string.

Lemma str_lt_app s c t : str_lt s (s ++ String c t).
Proof.
  unfold str_lt. induction s as [|x s IH]; simpl; [done|]. rewrite N.eqb_refl, IH.
  apply orb_true_r.
Qed.

Lemma broken_above lg t : names_ok lg -> above (disk_with lg t) (broken lg).
Proof.
  intros [Hn _]. unfold above. change (map fst (disk_with lg t)) with (ReadDir (disk_with lg t)).
  unfold lsegs in Hn. rewrite length_app in Hn. simpl in Hn.
  rewrite disk_names. unfold lsegs. rewrite seg_names_snoc. apply Forall_app. split.
  - eapply Forall_impl; [apply (names_below 0 (ll_older lg) (Z.of_nat (length (ll_older lg))) (ll_idx lg)); lia|].
    intros m Hm. apply str_lt_above. eapply str_lt_trans; [exact Hm|apply str_lt_app].
  - constructor; [|constructor]. apply str_lt_above, str_lt_app.
Qed.

Lemma dir_put_at d n b b' rest : above d n ->
  dir_put (d ++ (n, b) :: rest) n b' = d ++ (n, b') :: rest.
Proof.
  unfold above. induction d as [|[m c] d IH]; intros H; simpl; [by rewrite decide_True|].
  apply Forall_cons in H as [[Hm Hl] H]. simpl in Hm, Hl.
  rewrite decide_False, Hl by done. f_equal. auto.
Qed.

Lemma Repair_torn lg t : names_ok lg -> recs_ok lg -> headed lg ->
  torn t (frames_len (tail_recs lg)) (crc_after 0 (all_recs (lsegs lg))) ->
  Repair (disk_with lg t)
    = Ret (disk lg 0 ++ [(broken lg, file_bytes (tail_recs lg) t)], true).
Proof.
  intros Hn Hr Hh (d & Ed & Eo). unfold Repair. rewrite read_names by done.
  destruct (last_file lg t Hn) as [-> Eg]. cbn [mbind option_bind]. rewrite Eg.
  cbn [mbind option_bind]. rewrite (repair_loop lg t _ _ _ Hr Hh Ed), ret_bind. cbv beta iota.
  rewrite decide_False, decide_True by done. unfold LastOffset. rewrite Eo.
  fold (broken lg). do 3 f_equal. unfold frames_len. rewrite Nat2Z.id.
  rewrite (dir_put_new (disk_with lg t)) by (by apply broken_above).
  unfold file_bytes at 2. rewrite resize_le, take_app_length by (rewrite length_app; lia).
  unfold disk. rewrite !disk_closed, <- !app_assoc. cbn [app].
  rewrite dir_put_at by (by apply tail_above). unfold file_bytes at 2. by rewrite app_nil_r.
Qed.

(** ** Opening a directory with another file in it *)

Definition in_dir (w : WAL) (d : dir) : WAL :=
  MkWAL d (w_metadata w) (w_state w) (w_start w) (w_decoder w) (w_enti w) (w_encoder w)
    (w_locks w) (w_pos w).

(** A file that is no segment changes nothing. *)
Definition extends (d d' : dir) : Prop :=
  readWALNames d' = readWALNames d /\
  forall n b, dir_get d n = Some b -> dir_get d' n = Some b.

Lemma broken_extends lg b : names_ok lg ->
  extends (disk lg 0) (disk lg 0 ++ [(broken lg, b)]).
Proof.
  intros Hn. split.
  - assert (is_wal_name (broken lg) = false) as E.
    { unfold is_wal_name, parseWALName, broken. by rewrite broken_suffix. }
    unfold readWALNames, ReadDir, checkWALNames. rewrite map_app, List.filter_app.
    cbn [map fst List.filter]. by rewrite E, app_nil_r.
  - intros m c. generalize (disk lg 0) as d. intros d.
    induction d as [|[k x] d IH]; simpl; [done|]. by destruct (decide (k = m)).
Qed.

Lemma omap_extends d d' (ns : list string) : extends d d' -> (forall n, n ∈ ns -> is_Some (dir_get d n)) ->
  omap (dir_get d') ns = omap (dir_get d) ns.
Proof.
  intros [_ Eg]. induction ns as [|n ns IH]; intros Hall; [done|]. simpl.
  destruct (Hall n) as [b E]; [by left|]. rewrite E, (Eg n b E). f_equal. apply IH.
  intros m Hm. apply Hall. by right.
Qed.

Lemma segs_there lg t n : names_ok lg -> n ∈ seg_names (lsegs lg) ->
  is_Some (dir_get (disk_with lg t) n).
Proof.
  intros Hn Hin. apply list_elem_of_lookup in Hin as [i Ei].
  destruct (lookup_lt_is_Some_2 (files_of lg t) i) as [b Eb].
  { rewrite length_files_of, <- length_seg_names. by eapply lookup_lt_Some. }
  exists b. unfold disk_with. eapply dir_get_zip; [by apply seg_names_NoDup|done..].
Qed.

Lemma Open_extends lg t d' snap w : names_ok lg -> extends (disk_with lg t) d' ->
  Open (disk_with lg t) snap = Ret (inr w) -> Open d' snap = Ret (inr (in_dir w d')).
Proof.
  intros Hn He Eo. unfold Open, openAtIndex, selectWALFiles in *. rewrite (proj1 He).
  rewrite read_names in * by done.
  destruct (searchIndex _ _) as [[k|]| |]; try done. rewrite !ret_bind in Eo |- *.
  destruct (isValidSeq _) as [[]| |]; try done. rewrite !ret_bind in Eo |- *.
  cbn [negb] in Eo |- *. rewrite !ret_bind in Eo |- *. cbv beta iota in Eo |- *.
  unfold openWALFiles in *. rewrite (omap_extends (disk_with lg t) d'); [|done|].
  - injection Eo as <-. done.
  - intros n Hin. apply segs_there; [done|]. rewrite <- (take_drop k (seg_names _)).
    apply elem_of_app. by right.
Qed.

Lemma ReadAll_in_dir w d n b w1 res : tail w = Some n -> dir_get (w_dir w) n = Some b ->
  dir_get d n = Some b -> ReadAll w = Ret (w1, res) ->
  exists w2, ReadAll (in_dir w d) = Ret (w2, res).
Proof.
  intros Ht Hb Hd E. unfold ReadAll in *. change (w_decoder (in_dir w d)) with (w_decoder w).
  destruct (w_decoder w) as [dec|]; [|injection E as <- <-; eauto].
  change (w_start (in_dir w d)) with (w_start w). change (w_enti (in_dir w d)) with (w_enti w).
  destruct (loop _ _ dec) as [[d1 r]| |]; [|done|done]. rewrite ret_bind in E |- *.
  cbv beta iota in E |- *. destruct r as [[en rr]|[a err]]; [injection E as <- <-; eauto|].
  change (tail (in_dir w d)) with (tail w). rewrite Ht in *.
  destruct (negb (bool_decide (err = EOF))); [injection E as <- <-; eauto|].
  unfold tail_file in *. change (tail (in_dir w d)) with (tail w). rewrite Ht in *.
  cbn [in_dir w_dir w_pos]. rewrite Hb in E. rewrite Hd. rewrite ret_bind in E |- *.
  injection E as <- <-. eauto.
Qed.

(** ** The states a killed process leaves *)

Lemma encode_pos w older idx tl f e z k l w' : rep_with w older idx tl f e z k -> lrec_ok l ->
  w_encode w (raw l) = Ret w' ->
  (w_pos w <= w_pos w')%nat /\
  (w_pos w' = w_pos w \/ Z.of_nat (w_pos w') mod walPageBytes = 0).
Proof.
  intros H Hl. destruct (rep_crc_u32 _ _ _ _ _ _ _ _ H) as [_ Hu].
  destruct (rep_pw _ _ _ _ _ _ _ _ H) as [Hpw Hpb].
  destruct (encode_spec e f l Hpw (rep_pos_ok _ _ _ _ _ _ _ _ H) Hu Hl)
    as (pw' & p & E & _ & _ & _ & Ha & _).
  unfold w_encode. rewrite (rep_encoder _ _ _ _ _ _ _ _ H), (rep_tail_file _ _ _ _ _ _ _ _ H).
  rewrite ret_bind, E, ret_bind. cbv beta iota. rewrite (rep_put_tail _ _ _ _ _ _ _ _ _ H).
  intros [= <-]. simpl. rewrite (rep_pos _ _ _ _ _ _ _ _ H). split; [lia|].
  destruct Ha as [->|Ha]; [left; simpl; lia|right].
  rewrite Hpb, <- Z.add_mod_idemp_l, <- (rep_page _ _ _ _ _ _ _ _ H), Z.add_mod_idemp_l in Ha by done.
  by rewrite Nat2Z.inj_add.
Qed.

Lemma save_entries_pos es : forall w older idx tl w', rep w older idx tl ->
  Forall (fun e => lrec_ok (LEntry e)) es -> save_entries w es = Ret w' ->
  (w_pos w <= w_pos w')%nat /\
  (w_pos w' = w_pos w \/ Z.of_nat (w_pos w') mod walPageBytes = 0).
Proof.
  induction es as [|x es IH]; intros w older idx tl w' H Hok E; cbn [save_entries] in E.
  { injection E as <-. auto. }
  apply Forall_cons in Hok as [Hx Hok].
  destruct (saveEntry_rep w older idx tl x H Hx) as (w1 & E1 & H1 & _).
  rewrite E1, ret_bind in E. destruct (IH w1 older idx _ w' H1 Hok E) as [Hle Hpg].
  destruct H as (f & e & z & k & H). unfold saveEntry in E1.
  destruct (w_encode w _) as [w0| |] eqn:E0; [|done|done]. rewrite ret_bind in E1.
  injection E1 as <-. destruct (encode_pos _ _ _ _ _ _ _ _ (LEntry x) w0 H Hx E0) as [Hle0 Hpg0].
  simpl in *. split; [lia|]. destruct Hpg as [->|?]; auto.
Qed.

Lemma sector_page q : q mod walPageBytes = 0 -> q mod minSectorSize = 0.
Proof. unfold walPageBytes, minSectorSize. div_lia. Qed.

(** Killing the process is such a crash. *)
Lemma killed w w' older idx tl es : rep w older idx tl ->
  Forall (fun e => lrec_ok (LEntry e)) es -> save_entries w es = Ret w' ->
  exists z, w_dir w' = crash w' (w_pos w') z /\ crash_point w w' (w_pos w') z.
Proof.
  intros H Hok E. destruct (save_entries_pos es w older idx tl w' H Hok E) as [Hle Hpg].
  destruct (save_entries_rep es w older idx tl H Hok) as (w0 & E0 & (f & e & z & k & H') & _).
  rewrite E in E0. injection E0 as <-. exists z.
  rewrite (crash_closed _ _ _ _ _ _ _ _ _ _ H'), (rep_pos _ _ _ _ _ _ _ _ H') in *.
  unfold crash_point. rewrite (rep_stream _ _ _ _ _ _ _ _ H').
  pose proof (rep_bytes _ _ _ _ _ _ _ _ H') as Eb. pose proof (rep_pos_ok _ _ _ _ _ _ _ _ H') as Hp.
  unfold pos_ok in Hp. rewrite <- Eb. split.
  - rewrite (rep_dir _ _ _ _ _ _ _ _ H'). do 3 f_equal.
    rewrite take_app_le, take_take, Nat.min_id by (rewrite length_take; lia).
    rewrite <- (rep_zeros _ _ _ _ _ _ _ _ H'). by rewrite take_drop.
  - split; [rewrite length_app, length_take; lia|].
    destruct (rep_zeros_ok _ _ _ _ _ _ _ _ H') as [?|Hz]; [by left|right]. split; [|done].
    destruct Hpg as [?|Hpg]; [right; by left|left]. by apply sector_page.
Qed.

(** ** Recovery *)

Lemma batch_facts lg ops es j : names_ok lg -> recs_ok lg -> inv lg ops ->
  Forall (fun e => lrec_ok (LEntry e)) es ->
  names_ok (with_batch lg es j) /\ recs_ok (with_batch lg es j) /\
  inv (with_batch lg es j) (ops ++ [OpSave raftpb.emptyState (take j es)]).
Proof.
  intros [Hn1 Hn2] Hr Hi Hes. split; [|split; [|by apply inv_add]].
  - unfold names_ok, lsegs, with_batch, add in *. cbn [ll_older ll_idx ll_tl] in *.
    rewrite length_app in *. apply Forall_app in Hn2 as [H1 H2]. split; [done|].
    apply Forall_app. split; [done|]. apply Forall_cons in H2 as [H2 _]. by constructor.
  - unfold recs_ok, with_batch in *. rewrite all_add, batch_recs. apply Forall_app.
    split; [done|]. apply Forall_map. by apply Forall_take.
Qed.

(** Reading a crashed log after its repair, and before it. *)
Lemma crashed_read lg ops s t : names_ok lg -> recs_ok lg -> inv lg ops -> file_end lg t ->
  valid (Index s) 0 0 (hist_recs ops) -> 0 <= Index s < two64 ->
  (forall s', LSnap s' ∈ hist_recs ops -> Index s' = Index s -> Term s' = Term s) ->
  exists d z w2 w3 ents, Repair (disk_with lg t) = Ret (d, true) /\
    zeros_ok z /\ extends (disk lg z) d /\ Open d s = Ret (inr w2) /\
    ReadAll w2 = Ret (w3, (ll_meta lg, state_of raftpb.emptyState (hist_recs ops), ents, None)) /\
    live (Index s) (hist_recs ops) `prefix_of` ents /\ contiguous (Index s + 1) ents /\
    (d = disk_with lg t \/ exists w4 w5, Open (disk_with lg t) s = Ret (inr w4) /\
       ReadAll w4 = Ret (w5, (None, raftpb.emptyState, [], Some ErrUnexpectedEOF))).
Proof.
  intros Hn Hr Hi Hend Hv Hs Ht. pose proof (inv_headed lg ops Hi) as Hh.
  destruct Hend as [(z & -> & Hz)|Htorn].
  - destruct (read_disk lg ops s z Hn Hr Hi Hz Hv Hs Ht) as (k & w & ents & _ & Eo & Er & Hp & Hct).
    eexists _, z, _, w, ents. split; [by apply Repair_clean|]. split; [done|].
    split; [by split|]. split; [exact Eo|].
    split; [exact Er|]. split; [done|]. split; [done|by left].
  - destruct (read_disk lg ops s 0 Hn Hr Hi eq_refl Hv Hs Ht) as (k & w & ents & Hk & Eo & Er & Hp & Hct).
    pose proof (broken_extends lg (file_bytes (tail_recs lg) t) Hn) as Hx.
    destruct (last_file lg [] Hn) as [_ Eg].
    destruct (ReadAll_in_dir _ (disk lg 0 ++ [(broken lg, file_bytes (tail_recs lg) t)])
      _ _ _ _ (at_open_tail lg [] s k Hk) Eg (proj2 Hx _ _ Eg) Er) as (w3 & Er3).
    eexists _, 0%nat, _, w3, ents. split; [by apply Repair_torn|]. split; [done|].
    split; [exact Hx|]. split; [exact (Open_extends lg [] _ s _ Hn Hx Eo)|]. split; [exact Er3|].
    split; [done|]. split; [done|right].
    destruct (open_selected lg ops t s Hn Hi) as (k' & sg & Ek & Hk' & Eo'); [lia|].
    destruct (read_selected lg ops s k' sg Hi Hv Hs Ht Ek Hk') as (a & Ea & _).
    destruct Htorn as (d & Ed & _). apply lookup_lt_Some in Ek.
    destruct (ReadAll_torn lg t s k' a d _ Hr Hh Ek Ea Ed) as (w5 & E5); [done|].
    eexists _, w5. split; [exact Eo'|exact E5].
Qed.

Lemma state_entries ls es : forall st,
  state_of st (ls ++ map LEntry es) = state_of st ls.
Proof.
  intros st. unfold state_of. rewrite fold_left_app.
  generalize (fold_left state_step ls st). induction es; intros st'; [done|]. apply IHes.
Qed.

(** What a crash in the middle of an append loses.  Let a log be created,
    operations be run on it in any order raft may ask for, and let it be
    flushed; then entries are appended and the process dies.  The last file
    keeps what was flushed and any number of the bytes after it, up to the end
    of the file, or followed by zeros from a sector on ([crash_point]; killing
    the process at any point leaves such a file).  [Repair] succeeds, and the
    repaired log, opened at a saved snapshot, reads back with its metadata, its
    last hard state, and the live entries of everything flushed and of a prefix
    of the batch.  Unless the file needed no repair, opening it without is
    refused with [ErrUnexpectedEOF].  The checksums are assumed to tell a
    record that lost its end. *)
Theorem crash_recovers n m ops es s w :
  Z.of_nat n mod 8 = 0 -> Z.of_nat (length ops) + 2 < two64 ->
  lrec_ok (LMeta m) -> lrec_ok (LState raftpb.emptyState) -> Forall op_ok ops ->
  Forall (fun e => lrec_ok (LEntry e)) es ->
  valid (Index s) 0 0 (hist_recs ops ++ map LEntry es) -> LSnap s ∈ hist_recs ops ->
  (forall s', LSnap s' ∈ hist_recs ops -> Index s' = Index s -> Term s' = Term s) ->
  wal_run n m ops = Ret w -> pending w = [] -> checksums_tell (chain w) es ->
  exists w', save_entries w es = Ret w' /\
    (exists z, w_dir w' = crash w' (w_pos w') z /\ crash_point w w' (w_pos w') z) /\
    forall q z, crash_point w w' q z ->
    exists j d w2 w3 ents,
      Repair (crash w' q z) = Ret (d, true) /\ Open d s = Ret (inr w2) /\
      ReadAll w2 = Ret (w3, (m, state_of raftpb.emptyState (hist_recs ops), ents, None)) /\
      live (Index s) (hist_recs ops ++ map LEntry (take j es)) `prefix_of` ents /\
      (d = crash w' q z \/ exists w4 w5, Open (crash w' q z) s = Ret (inr w4) /\
         ReadAll w4 = Ret (w5, (None, raftpb.emptyState, [], Some ErrUnexpectedEOF))).
Proof.
  intros Hn Hc Hm Hst Hok Hes Hv Hin Ht Erun Hpe Hck.
  apply valid_app in Hv as [Hv1 Hv2].
  destruct (run_represents n m ops _ Hm Hst Hok Hv1 Hn Hc) as (w0 & E0 & lg & Hr & Hi & Em).
  rewrite Erun in E0. injection E0 as <-.
  destruct (save_entries_rep es w _ _ _ (proj1 Hr) Hes) as (w' & Es & Hr' & _).
  exists w'. split; [done|]. split; [exact (killed w w' _ _ _ es (proj1 Hr) Hes Es)|].
  intros q z Hcp. destruct (crash_shape w w' lg es q z Hr Hpe Hr' Hck Hcp) as (j & t & Ec & Hend).
  destruct (batch_facts lg ops es j (rep_names_ok w lg Hr) (rep_recs_ok w lg Hr) Hi Hes)
    as (Hn' & Hro' & Hi').
  assert (hist_recs (ops ++ [OpSave raftpb.emptyState (take j es)])
    = hist_recs ops ++ map LEntry (take j es)) as Eh by (by rewrite hist_snoc, batch_recs).
  destruct (crashed_read _ _ s t Hn' Hro' Hi' Hend) as (d & z' & w2 & w3 & ents & E1 & _ & _ & E2 & E3 & Hp & _ & Hu).
  - rewrite Eh. apply valid_app. split; [done|]. rewrite <- (take_drop j es), map_app in Hv2.
    by apply valid_app in Hv2 as [Hv2 _].
  - exact (snap_in_range _ s _ 0 0 Hv1 ltac:(lia) Hin).
  - rewrite Eh. intros s' [Hs'|Hs']%elem_of_app; [by apply Ht|].
    apply list_elem_of_In, in_map_iff in Hs' as (x & Ex & _). done.
  - rewrite <- Ec in *. rewrite Eh in *. exists j, d, w2, w3, ents. split; [done|].
    split; [done|]. split; [|done]. rewrite E3, state_entries.
    change (ll_meta (with_batch lg es j)) with (ll_meta lg). by rewrite Em.
Qed.

End Crash.

End WalCrash.
