(* ===== verification/Snapshotter.v ===== *)
(** * snapshotter.go and snappb of etcd

    Snapshot files: a raft snapshot marshalled inside a checksummed envelope,
    in a file named by its term and index.  The theorems show that the newest
    snapshot the log knows of is found again, past orphaned and torn files. *)

From S2P Require Import Prelude Errors Utils RaftApi WalRecord WalIo WalNames EtcdWal WalRep.
From S2P Require Import MemRaftCodec Urls MsgCodec.
From Stdlib Require Import Strings.Byte Ascii.

Definition ErrNoSnapshot : error := OtherError "snap: no available snapshot".
Definition ErrEmptySnapshot : error := OtherError "snap: empty snapshot".
Definition ErrSnapCRCMismatch : error := OtherError "snap: crc mismatch".
Definition ErrNotExist : error := OtherError "file does not exist".

(** ** The envelope: snap.pb.go

    The generator emits for this package the helpers it emits for the records
    of the log, with the same error messages. *)
Module snappb.
Import walpb.

Record Snapshot := MkSnapshot {
  Crc : Z;
  Data : option bytes;
  XXX_unrecognized : bytes
}.

Definition empty_Snapshot : Snapshot := MkSnapshot 0 None [].

Definition encodeVarintSnap (v : Z) : bytes := put_varint 10 v.

Definition sovSnap (x : Z) : Z := (Len64 (Z.lor x 1) + 6) / 7.

Definition Marshal (m : Snapshot) : bytes :=
  x08 :: encodeVarintSnap (Crc m) ++
  match Data m with
  | Some d => x12 :: encodeVarintSnap (Z.of_nat (length d)) ++ d
  | None => []
  end ++ XXX_unrecognized m.

Definition Size (m : Snapshot) : Z :=
  1 + sovSnap (Crc m) +
  match Data m with
  | Some d => let l := Z.of_nat (length d) in 1 + l + sovSnap l
  | None => 0
  end + Z.of_nat (length (XXX_unrecognized m)).

Definition skipSnap (dAtA : bytes) : result Z := skip_loop (S (length dAtA)) dAtA 0 0.

(** An unknown field is skipped and kept. *)
Definition unknown_snap (l : Z) (at_ : bytes) : result (bytes * bytes) :=
  skippy ← skipSnap at_;
  let iNdEx := l - Z.of_nat (length at_) in
  if (skippy <? 0) || (i64 (iNdEx + skippy) <? 0) then inl ErrInvalidLengthRecord
  else if l <? i64 (iNdEx + skippy) then inl ErrUnexpectedEOF
  else inr (take (Z.to_nat skippy) at_, drop (Z.to_nat skippy) at_).

Fixpoint Unmarshal_loop (fuel : nat) (l : Z) (m : Snapshot) (b : bytes) : result Snapshot :=
  match fuel, b with
  | _, [] => inr m
  | O, _ => inl ErrUnexpectedEOF
  | S f, _ =>
      '(wire, r) ← read_varint u64 b;
      let w := Z.land wire 7 in
      if w =? 4 then inl (OtherError "proto: snapshot: wiretype end group for non-group")
      else if fieldNum wire <=? 0 then inl (OtherError "proto: snapshot: illegal tag")
      else match fieldNum wire with
      | 1 =>
          if negb (w =? 0) then wrong_type w "Crc" else
          '(v, r') ← read_varint u32 r;
          Unmarshal_loop f l (MkSnapshot v (Data m) (XXX_unrecognized m)) r'
      | 2 =>
          if negb (w =? 2) then wrong_type w "Data" else
          '(n, r') ← read_varint i64 r;
          '(d, r'') ← take_field l n r';
          Unmarshal_loop f l (MkSnapshot (Crc m) (Some d) (XXX_unrecognized m)) r''
      | _ =>
          '(u, r') ← unknown_snap l b;
          Unmarshal_loop f l (MkSnapshot (Crc m) (Data m) (XXX_unrecognized m ++ u)) r'
      end
  end.

(** Decoding into a fresh message; every round reads at least a byte. *)
Definition Unmarshal (b : bytes) : result Snapshot :=
  Unmarshal_loop (length b) (Z.of_nat (length b)) empty_Snapshot b.

End snappb.

(** ** Files of the directory *)

Definition dir_del (d : dir) (n : string) : dir :=
  List.filter (fun f => negb (bool_decide (fst f = n))) d.

(** [os.Rename]: the target is replaced; a missing source is an error and
    changes nothing. *)
Definition dir_rename (d : dir) (a b : string) : dir :=
  match dir_get d a with
  | Some c => dir_put (dir_del d a) b c
  | None => d
  end.

Definition snapSuffix : string := ".snap".

(** [fmt.Sprintf("%016x-%016x%s", term, index, snapSuffix)]. *)
Definition snapName (term index : Z) : string :=
  put_hex 16 term (String "-"%char (put_hex 16 index snapSuffix)).

Arguments snapName _ _ : simpl never.

(** [sort.Sort(sort.Reverse(...))]: the names from the greatest down. *)
Fixpoint insert_desc (x : string) (l : list string) : list string :=
  match l with
  | [] => [x]
  | y :: l' => if str_ltb y x then x :: l else y :: insert_desc x l'
  end.

Definition sort_desc (l : list string) : list string := foldr insert_desc [] l.

Module Snap.
Section Snap.
Context `{L : RaftLib} `{C : RaftCodec}.

(** What [save] writes for a snapshot. *)
Definition snap_file (s : raftpb.Snapshot) : bytes :=
  let b := Snapshot_Marshal s in
  snappb.Marshal (snappb.MkSnapshot (crc32_Update 0 b) (Some b) []).

Definition name_of (s : raftpb.Snapshot) : string :=
  snapName (raftpb.md_Term (raftpb.Metadata s)) (raftpb.md_Index (raftpb.Metadata s)).

Definition save (d : dir) (s : raftpb.Snapshot) : dir := dir_put d (name_of s) (snap_file s).

Definition SaveSnap (d : dir) (s : raftpb.Snapshot) : dir :=
  if IsEmptySnap s then d else save d s.

Definition Read_file (b : bytes) : result raftpb.Snapshot :=
  if (length b =? 0)%nat then inl ErrEmptySnapshot
  else
    serialized ← snappb.Unmarshal b;
    let data := default [] (snappb.Data serialized) in
    if (length data =? 0)%nat || (snappb.Crc serialized =? 0) then inl ErrEmptySnapshot
    else if negb (crc32_Update 0 data =? snappb.Crc serialized) then inl ErrSnapCRCMismatch
    else Snapshot_Unmarshal data.

Definition Read (d : dir) (name : string) : result raftpb.Snapshot :=
  match dir_get d name with
  | None => inl ErrNotExist
  | Some b => Read_file b
  end.

(** [loadSnap]: a file that cannot be read is renamed. *)
Definition loadSnap (d : dir) (name : string) : dir * result raftpb.Snapshot :=
  match Read d name with
  | inl e => (dir_rename d name (name ++ ".broken"), inl e)
  | inr s => (d, inr s)
  end.

(** [cleanupSnapdir]: files left by a defragmentation are removed. *)
Definition cleanupSnapdir (d : dir) : dir * list string :=
  (List.filter (fun f => negb (has_prefix "db.tmp" (fst f))) d,
   List.filter (fun n => negb (has_prefix "db.tmp" n)) (ReadDir d)).

Definition checkSuffix (names : list string) : list string :=
  List.filter (has_suffix snapSuffix) names.

Definition snapNames (d : dir) : dir * result (list string) :=
  let '(d1, filenames) := cleanupSnapdir d in
  match checkSuffix filenames with
  | [] => (d1, inl ErrNoSnapshot)
  | snaps => (d1, inr (sort_desc snaps))
  end.

(** The loop of [loadMatching]. *)
Fixpoint load_first (d : dir) (matchFn : raftpb.Snapshot -> bool) (names : list string)
    : dir * result raftpb.Snapshot :=
  match names with
  | [] => (d, inl ErrNoSnapshot)
  | name :: names' =>
      match loadSnap d name with
      | (d1, inr s) => if matchFn s then (d1, inr s) else load_first d1 matchFn names'
      | (d1, inl _) => load_first d1 matchFn names'
      end
  end.

Definition loadMatching (d : dir) (matchFn : raftpb.Snapshot -> bool)
    : dir * result raftpb.Snapshot :=
  match snapNames d with
  | (d1, inl e) => (d1, inl e)
  | (d1, inr names) => load_first d1 matchFn names
  end.

Definition Load (d : dir) : dir * result raftpb.Snapshot := loadMatching d (fun _ => true).

(** The predicate of [LoadNewestAvailable]: the log has a record of the
    snapshot. *)
Definition in_wal (walSnaps : list walpb.Snapshot) (s : raftpb.Snapshot) : bool :=
  existsb (fun w => (raftpb.md_Term (raftpb.Metadata s) =? walpb.Term w) &&
                    (raftpb.md_Index (raftpb.Metadata s) =? walpb.Index w)) (rev walSnaps).

Definition LoadNewestAvailable (d : dir) (walSnaps : list walpb.Snapshot)
    : dir * result raftpb.Snapshot := loadMatching d (in_wal walSnaps).

(** [strings.TrimSuffix(s, suf)] of a string that ends with [suf]. *)
Definition trim_suffix (suf s : string) : string :=
  String.substring 0 (String.length s - String.length suf) s.

(** [ReleaseSnapDBs]: database files of snapshots below the given one are
    removed; a name that does not parse is left. *)
Definition released (index : Z) (name : string) : bool :=
  has_suffix ".snap.db" name &&
  match ID.IDFromString (trim_suffix ".snap.db" name) with
  | inr i => i <? index
  | inl _ => false
  end.

Definition ReleaseSnapDBs (d : dir) (s : raftpb.Snapshot) : dir :=
  List.filter (fun f => negb (released (raftpb.md_Index (raftpb.Metadata s)) (fst f))) d.

(** *** db.go *)

Definition ErrNoDBSnapshot : error := OtherError "snap: snapshot file doesn't exist".

Definition dbFilePath (id : Z) : string := put_hex 16 id ".snap.db".

(** [tmp] is the name that [os.CreateTemp] chooses. *)
Definition SaveDBFrom (tmp : string) (d : dir) (r : codec.reader) (id : Z) : dir * (Z * option error) :=
  let d := dir_put d tmp (codec.r_bytes r) in
  let n := Z.of_nat (length (codec.r_bytes r)) in
  if negb (bool_decide (codec.r_end r = EOF)) then (dir_del d tmp, (n, Some (codec.r_end r)))
  else
    match dir_get d (dbFilePath id) with
    | Some _ => (dir_del d tmp, (n, None))
    | None => (dir_rename d tmp (dbFilePath id), (n, None))
    end.

Definition DBFilePath (d : dir) (id : Z) : result string :=
  match dir_get d (dbFilePath id) with
  | Some _ => inr (dbFilePath id)
  | None => inl ErrNoDBSnapshot
  end.

End Snap.

(** ** The envelope reads back *)

Section Envelope.
Import walpb RecordCodec.

Lemma loop_snap_crc f l m v r : 0 <= v < 2 ^ 32 ->
  snappb.Unmarshal_loop (S f) l m (x08 :: snappb.encodeVarintSnap v ++ r)
  = snappb.Unmarshal_loop f l (snappb.MkSnapshot v (snappb.Data m) (snappb.XXX_unrecognized m)) r.
Proof.
  intros Hv. cbn [snappb.Unmarshal_loop]. unfold snappb.encodeVarintSnap.
  fold (encodeVarintRecord v). next_field x08. rewrite read_u32 by done. done.
Qed.

Lemma loop_snap_data f l m d r : Z.of_nat (length d + length r) <= l < 2 ^ 63 ->
  snappb.Unmarshal_loop (S f) l m
    (x12 :: snappb.encodeVarintSnap (Z.of_nat (length d)) ++ d ++ r)
  = snappb.Unmarshal_loop f l
      (snappb.MkSnapshot (snappb.Crc m) (Some d) (snappb.XXX_unrecognized m)) r.
Proof.
  intros Hv. cbn [snappb.Unmarshal_loop]. unfold snappb.encodeVarintSnap.
  fold (encodeVarintRecord (Z.of_nat (length d))). next_field x12.
  rewrite read_i64 by lia. cbn -[read_varint encodeVarintRecord put_bytes take_field].
  rewrite take_field_app by done. done.
Qed.

Lemma envelope_roundtrip crc d : 0 <= crc < 2 ^ 32 -> Z.of_nat (length d) < 2 ^ 62 ->
  snappb.Unmarshal (snappb.Marshal (snappb.MkSnapshot crc (Some d) []))
  = inr (snappb.MkSnapshot crc (Some d) []).
Proof.
  intros Hc Hd. unfold snappb.Unmarshal.
  set (b := snappb.Marshal _).
  assert (exists n, length b = S (S n) /\ Z.of_nat (length d) <= Z.of_nat (length b) < 2 ^ 63)
    as (n & En & Hb).
  { unfold b, snappb.Marshal. cbn [snappb.Crc snappb.Data snappb.XXX_unrecognized].
    rewrite app_nil_r. cbn [length]. rewrite length_app. cbn [length]. rewrite length_app.
    unfold snappb.encodeVarintSnap. fold (encodeVarintRecord crc).
    fold (encodeVarintRecord (Z.of_nat (length d))).
    pose proof (length_varint crc). pose proof (length_varint (Z.of_nat (length d))).
    eexists (_ - 2)%nat. split; [|lia].
    instantiate (1 := S (length (encodeVarintRecord crc) +
      S (length (encodeVarintRecord (Z.of_nat (length d))) + length d))). lia. }
  rewrite En at 1. unfold b at 2, snappb.Marshal.
  cbn [snappb.Crc snappb.Data snappb.XXX_unrecognized]. rewrite app_nil_r.
  rewrite loop_snap_crc by done.
  pose proof (fun l m => loop_snap_data n l m d []) as E. rewrite app_nil_r in E.
  rewrite E; [by destruct n|]. cbn [length]. rewrite Nat.add_0_r. exact Hb.
Qed.

End Envelope.

(** Snapshots as they are saved: not empty, of legal size, and with a checksum
    other than zero, which [Read] takes for a missing one. *)
Definition snap_ok `{RaftLib} `{RaftCodec} (s : raftpb.Snapshot) : Prop :=
  IsEmptySnap s = false /\ is_u64 (raftpb.md_Term (raftpb.Metadata s)) /\
  is_u64 (raftpb.md_Index (raftpb.Metadata s)) /\
  0 < Z.of_nat (length (Snapshot_Marshal s)) < 2 ^ 62 /\ crc32_Update 0 (Snapshot_Marshal s) <> 0.

Lemma Read_snap_file `{HC : RaftCodecLaws} `{RaftLib} s : snap_ok s ->
  Read_file (snap_file s) = inr s.
Proof.
  intros (_ & _ & _ & Hl & Hc). unfold Read_file, snap_file.
  pose proof (crc_Write_u32 0 (Snapshot_Marshal s) ltac:(done)) as Hu.
  unfold crc_Write in Hu.
  rewrite (proj2 (Nat.eqb_neq _ _)) by (unfold snappb.Marshal; simpl; lia).
  rewrite envelope_roundtrip by (done || lia). unfold mbind, result_bind.
  cbn [snappb.Crc snappb.Data default].
  unfold id. rewrite (proj2 (Nat.eqb_neq _ _)) by lia. rewrite (proj2 (Z.eqb_neq _ _)) by done. cbn [orb].
  rewrite Z.eqb_refl. apply snapshot_codec.
Qed.

(** ** Directories and names *)

Lemma dir_get_put d n b m : dir_get (dir_put d n b) m = if decide (m = n) then Some b else dir_get d m.
Proof.
  induction d as [|[k c] d IH]; simpl; [by destruct (decide (m = n)), (decide (n = m)); subst|].
  destruct (decide (k = n)) as [->|Hk].
  - simpl. destruct (decide (n = m)), (decide (m = n)); congruence || done.
  - destruct (str_ltb n k); simpl.
    + destruct (decide (n = m)), (decide (m = n)); congruence || done.
    + rewrite IH. destruct (decide (k = m)), (decide (m = n)); congruence || done.
Qed.

Lemma names_put d n b m : m ∈ ReadDir (dir_put d n b) <-> m = n \/ m ∈ ReadDir d.
Proof.
  unfold ReadDir. induction d as [|[k c] d IH]; simpl; [set_solver|].
  destruct (decide (k = n)) as [->|Hk]; [set_solver|].
  destruct (str_ltb n k); simpl; [set_solver|]. rewrite !elem_of_cons, IH. set_solver.
Qed.

Lemma dir_get_del d n m : dir_get (dir_del d n) m = if decide (m = n) then None else dir_get d m.
Proof.
  unfold dir_del. induction d as [|[k c] d IH]; simpl; [by destruct (decide (m = n))|].
  destruct (bool_decide_reflect (k = n)) as [->|Hk]; simpl.
  - rewrite IH. destruct (decide (m = n)), (decide (n = m)); congruence || done.
  - rewrite IH. destruct (decide (k = m)), (decide (m = n)); congruence || done.
Qed.

(** Saving a database is atomic: with a name for the temporary file that is
    not in use, the directory holds the new file whole, when all of it was
    read and there was none, and otherwise what it held before. *)
Lemma SaveDBFrom_atomic tmp d r id x : dir_get d tmp = None -> tmp <> dbFilePath id ->
  dir_get (fst (SaveDBFrom tmp d r id)) x =
  if bool_decide (codec.r_end r = EOF /\ x = dbFilePath id /\ dir_get d x = None)
  then Some (codec.r_bytes r) else dir_get d x.
Proof.
  intros Ht Hn. unfold SaveDBFrom, dir_rename.
  destruct (bool_decide_reflect (codec.r_end r = EOF)) as [He|He]; cbn [negb fst].
  - rewrite !dir_get_put, decide_False, decide_True by done.
    destruct (dir_get d (dbFilePath id)) eqn:Ed; cbn [fst].
    + rewrite dir_get_del, dir_get_put, bool_decide_eq_false_2 by (intros (_ & -> & ?); congruence).
      case_decide as Hx; [by rewrite Hx|done].
    + rewrite dir_get_put, dir_get_del, dir_get_put. case_decide as Hx.
      * by rewrite bool_decide_eq_true_2 by (by rewrite Hx).
      * rewrite bool_decide_eq_false_2 by (intros (_ & ? & _); done).
        case_decide as Hx'; [by rewrite Hx'|done].
  - rewrite bool_decide_eq_false_2 by (by intros (? & _)).
    rewrite dir_get_del, dir_get_put. case_decide as Hx; [by rewrite Hx|done].
Qed.

Lemma dir_get_name d n b : dir_get d n = Some b -> n ∈ ReadDir d.
Proof.
  unfold ReadDir. induction d as [|[k c] d IH]; simpl; [done|].
  destruct (decide (k = n)) as [->|]; [by left|]. right. auto.
Qed.

Lemma dir_get_filter f d m : f m = true ->
  dir_get (List.filter (fun x => f (fst x)) d) m = dir_get d m.
Proof.
  intros Hf. induction d as [|[k c] d IH]; simpl; [done|].
  destruct (f k) eqn:E; simpl; rewrite IH; [done|].
  destruct (decide (k = m)); [congruence|done].
Qed.

Lemma broken_not_snap n : has_suffix snapSuffix (n ++ ".broken") = false.
Proof. by apply broken_suffix. Qed.

Lemma rename_get d n m : has_suffix snapSuffix m = true -> m <> n ->
  dir_get (dir_rename d n (n ++ ".broken")) m = dir_get d m.
Proof.
  intros Hm Hn. unfold dir_rename. destruct (dir_get d n); [|done].
  rewrite dir_get_put, decide_False, dir_get_del, decide_False; [done|done|].
  intros ->. by rewrite broken_not_snap in Hm.
Qed.

Lemma rename_gone d n : has_suffix snapSuffix n = true ->
  dir_get (dir_rename d n (n ++ ".broken")) n = None.
Proof.
  intros Hn. unfold dir_rename. destruct (dir_get d n) eqn:E; [|done].
  rewrite dir_get_put, decide_False, dir_get_del, decide_True; [done|done|].
  intros E'. pose proof (broken_not_snap n) as H. by rewrite <- E', Hn in H.
Qed.

(** *** Sorting *)

Definition desc : list string -> Prop := StronglySorted (fun a b => str_ltb a b = false).

Lemma insert_desc_in x l y : y ∈ insert_desc x l <-> y = x \/ y ∈ l.
Proof.
  induction l as [|z l IH]; simpl; [set_solver|].
  destruct (str_ltb z x); [set_solver|]. rewrite !elem_of_cons, IH. set_solver.
Qed.

Lemma sort_desc_in l y : y ∈ sort_desc l <-> y ∈ l.
Proof. induction l as [|x l IH]; simpl; [done|]. rewrite insert_desc_in, IH. set_solver. Qed.

Lemma insert_desc_sorted x l : desc l -> desc (insert_desc x l).
Proof.
  induction 1 as [|y l Hl IH Hy]; simpl; [repeat constructor|].
  destruct (str_ltb y x) eqn:E.
  - constructor; [by constructor|]. constructor.
    + by apply str_lt_above in E as [_ E].
    + eapply Forall_impl; [exact Hy|]. intros z Hz. apply not_true_iff_false. intros Hxz.
      apply not_true_iff_false in Hz. apply Hz. eapply str_lt_trans; [exact E|exact Hxz].
  - constructor; [done|]. apply Forall_forall. intros z Hz. apply insert_desc_in in Hz as [->|Hz].
    + done.
    + by eapply Forall_forall in Hy.
Qed.

Lemma sort_desc_sorted l : desc (sort_desc l).
Proof. induction l as [|x l IH]; simpl; [constructor|]. by apply insert_desc_sorted. Qed.

(** ** Loading *)

Section Loading.
Context `{HC : RaftCodecLaws} `{HL : RaftLaws}.

(** The same snapshot files can be read. *)
Definition same_reads (d d' : dir) : Prop :=
  forall m s, has_suffix snapSuffix m = true -> Read d' m = inr s <-> Read d m = inr s.

Lemma loadSnap_reads d n : has_suffix snapSuffix n = true ->
  same_reads d (fst (loadSnap d n)) /\ snd (loadSnap d n) = Read d n.
Proof.
  intros Hn. unfold loadSnap. destruct (Read d n) as [e|s] eqn:E; [|done]. split; [|done].
  intros m s Hm. simpl. unfold Read in *. destruct (decide (m = n)) as [->|Hne].
  - rewrite rename_gone by done. split; intros H; [done|]. by rewrite H in E.
  - by rewrite rename_get.
Qed.

(** The loop finds the first name whose file reads and matches. *)
Lemma load_first_spec f names : forall d, Forall (fun n => has_suffix snapSuffix n = true) names ->
  desc names ->
  same_reads d (fst (load_first d f names)) /\
  match snd (load_first d f names) with
  | inr s => f s = true /\ exists n, n ∈ names /\ Read d n = inr s /\
      forall n' s', n' ∈ names -> Read d n' = inr s' -> f s' = true -> str_ltb n n' = false
  | inl e => e = ErrNoSnapshot /\ forall n s, n ∈ names -> Read d n = inr s -> f s = false
  end.
Proof.
  induction names as [|n names IH]; intros d Hs Hd; cbn [load_first].
  { split; [done|]. split; [done|]. intros n s Hn. by apply not_elem_of_nil in Hn. }
  apply Forall_cons in Hs as [Hn Hs]. apply StronglySorted_inv in Hd as [Hd Hmax].
  destruct (loadSnap_reads d n Hn) as [Hr He]. destruct (loadSnap d n) as [d1 r]. simpl in Hr, He.
  subst r. destruct (IH d1 Hs Hd) as [H1 H2].
  assert (same_reads d (fst (load_first d1 f names))) as Hsame.
  { intros m s Hm. by rewrite (H1 m s Hm), (Hr m s Hm). }
  assert (forall m s, m ∈ names -> Read d1 m = inr s <-> Read d m = inr s) as Hrd.
  { intros m s Hm. apply Hr. by eapply Forall_forall in Hs. }
  destruct (Read d n) as [e|s] eqn:E; [|destruct (f s) eqn:Ef].
  2:{ split; [exact Hr|]. split; [done|]. exists n. split; [left|]. split; [done|].
      intros n' s' Hn' _ _. apply elem_of_cons in Hn' as [->|Hn'].
      - apply not_true_iff_false, str_lt_irrefl.
      - by eapply Forall_forall in Hmax. }
  all: split; [exact Hsame|].
  all: destruct (snd (load_first d1 f names)) as [e'|s1].
  1,3: (destruct H2 as [-> H2]; split; [done|]; intros m s0 Hm Hm1;
    apply elem_of_cons in Hm as [->|Hm]; [congruence|]; apply (H2 m s0 Hm); by apply Hrd).
  all: destruct H2 as (Hf & m & Hm & Hrm & Hle); split; [done|]; exists m;
    split; [by right|]; split; [by apply Hrd|].
  all: intros n' s' Hn' Hr' Hf'; apply elem_of_cons in Hn' as [->|Hn'];
    [congruence|]; apply (Hle n' s' Hn'); [by apply Hrd|done].
Qed.

(** The whole search, over the files of the directory. *)
Lemma loadMatching_spec f d :
  same_reads (fst (cleanupSnapdir d)) (fst (loadMatching d f)) /\
  let is_snap n := n ∈ ReadDir d /\ has_prefix "db.tmp" n = false /\ has_suffix snapSuffix n = true in
  match snd (loadMatching d f) with
  | inr s => f s = true /\ exists n, is_snap n /\ Read d n = inr s /\
      forall n' s', is_snap n' -> Read d n' = inr s' -> f s' = true -> str_ltb n n' = false
  | inl e => e = ErrNoSnapshot /\ forall n s, is_snap n -> Read d n = inr s -> f s = false
  end.
Proof.
  unfold loadMatching, snapNames. destruct (cleanupSnapdir d) as [d1 fs] eqn:Ec.
  injection Ec as <- <-. cbn [fst].
  set (names := checkSuffix _). set (d1 := List.filter _ d).
  set (is_snap := fun n => n ∈ ReadDir d /\ has_prefix "db.tmp" n = false /\ has_suffix snapSuffix n = true).
  assert (forall n, n ∈ names <-> is_snap n) as Hin.
  { intros n. unfold names, checkSuffix, is_snap.
    rewrite !list_elem_of_In, !filter_In, negb_true_iff. tauto. }
  assert (forall n, is_snap n -> Read d1 n = Read d n) as Hrd.
  { intros n (_ & Hp & _). unfold Read, d1.
    rewrite (dir_get_filter (fun n => negb (has_prefix "db.tmp" n))) by (by rewrite Hp). done. }
  destruct names as [|n0 ns] eqn:En.
  - cbn [fst snd]. split; [done|]. split; [done|]. intros n s Hn. apply Hin in Hn.
    by apply not_elem_of_nil in Hn.
  - rewrite <- En in *. clearbody names.
    destruct (load_first_spec f (sort_desc names) d1) as [H1 H2].
    { apply Forall_forall. intros n Hn. apply sort_desc_in, Hin in Hn. apply Hn. }
    { apply sort_desc_sorted. }
    split; [exact H1|]. cbv zeta.
    destruct (snd (load_first d1 f (sort_desc names))) as [e|s].
    + destruct H2 as [-> H2]. split; [done|]. intros n s Hn Hr. apply (H2 n s).
      * by apply sort_desc_in, Hin.
      * by rewrite Hrd.
    + destruct H2 as (Hf & n & Hn & Hr & Hle). split; [done|]. exists n.
      apply sort_desc_in, Hin in Hn. split; [exact Hn|]. split; [by rewrite <- Hrd|].
      intros n' s' Hn' Hr' Hf'. apply (Hle n' s'); [by apply sort_desc_in, Hin|by rewrite Hrd|done].
Qed.

(** *** Names order as term and index *)

Definition key (s : raftpb.Snapshot) : Z * Z :=
  (raftpb.md_Term (raftpb.Metadata s), raftpb.md_Index (raftpb.Metadata s)).

Definition key_le (a b : Z * Z) : Prop := fst a < fst b \/ (fst a = fst b /\ snd a <= snd b).

Lemma put_hex_same n v r1 r2 : str_ltb (put_hex n v r1) (put_hex n v r2) = str_ltb r1 r2.
Proof.
  induction n as [|n IH]; [done|]. cbn [put_hex str_ltb]. by rewrite N.ltb_irrefl, N.eqb_refl, IH.
Qed.

Lemma snapName_lt t1 i1 t2 i2 : is_u64 t1 -> is_u64 i1 -> is_u64 t2 -> is_u64 i2 ->
  t1 < t2 \/ (t1 = t2 /\ i1 < i2) -> str_ltb (snapName t1 i1) (snapName t2 i2) = true.
Proof.
  unfold is_u64. intros H1 H2 H3 H4 [H|[-> H]]; unfold snapName.
  - apply put_hex_lt. change (16 ^ Z.of_nat 16) with two64. rewrite !Z.mod_small; lia.
  - rewrite put_hex_same. cbn [str_ltb]. rewrite N.ltb_irrefl, N.eqb_refl. cbn [orb andb].
    apply put_hex_lt. change (16 ^ Z.of_nat 16) with two64. rewrite !Z.mod_small; lia.
Qed.

Lemma name_le s s' : snap_ok s -> snap_ok s' -> str_ltb (name_of s) (name_of s') = false ->
  key_le (key s') (key s).
Proof.
  intros (_ & Ht & Hi & _) (_ & Ht' & Hi' & _) H. unfold key_le, key; simpl.
  destruct (Z.lt_trichotomy (raftpb.md_Term (raftpb.Metadata s)) (raftpb.md_Term (raftpb.Metadata s')))
    as [Hlt|[E|Hlt]].
  - unfold name_of in H. rewrite snapName_lt in H by auto. done.
  - destruct (Z.le_gt_cases (raftpb.md_Index (raftpb.Metadata s')) (raftpb.md_Index (raftpb.Metadata s)));
      [lia|]. unfold name_of in H. rewrite snapName_lt in H by auto. done.
  - lia.
Qed.

Lemma name_key s s' : snap_ok s -> snap_ok s' -> name_of s = name_of s' -> key s = key s'.
Proof.
  intros Hs Hs' E.
  assert (str_ltb (name_of s) (name_of s') = false) as H1.
  { rewrite E. apply not_true_iff_false, str_lt_irrefl. }
  assert (str_ltb (name_of s') (name_of s) = false) as H2.
  { rewrite E. apply not_true_iff_false, str_lt_irrefl. }
  apply name_le in H1, H2; try done. unfold key_le, key in *; simpl in *. f_equal; lia.
Qed.

Lemma hex_char_not_dot z : hex_char (Z.land z 15) <> "."%char.
Proof.
  rewrite land_15. pose proof (Z.mod_pos_bound z 16 eq_refl) as H.
  intros E. pose proof (hex_value_char _ H) as E'. rewrite E in E'. done.
Qed.

Lemma name_is_snap s : has_prefix "db.tmp" (name_of s) = false /\
  has_suffix snapSuffix (name_of s) = true.
Proof.
  unfold name_of, snapName. split.
  - apply not_true_iff_false. unfold has_prefix. cbn [put_hex String.prefix].
    repeat match goal with |- context [ascii_dec ?a ?b] => destruct (ascii_dec a b); try done end.
    match goal with E : "."%char = _ |- _ => by destruct (hex_char_not_dot _ (eq_sym E)) end.
  - apply put_hex_suffix. cbn [has_suffix]. rewrite put_hex_suffix by done. apply orb_true_r.
Qed.

Lemma in_wal_key ws s s' : key s = key s' -> in_wal ws s = in_wal ws s'.
Proof. unfold in_wal, key. by intros [= -> ->]. Qed.

(** *** What the saves leave *)

Definition saved (snaps : list raftpb.Snapshot) (d : dir) : dir := fold_left SaveSnap snaps d.

Lemma saved_snoc snaps s d : IsEmptySnap s = false ->
  saved (snaps ++ [s]) d = dir_put (saved snaps d) (name_of s) (snap_file s).
Proof. intros E. unfold saved. rewrite fold_left_app. simpl. unfold SaveSnap. by rewrite E. Qed.

Lemma saved_read snaps : Forall snap_ok snaps ->
  (forall n s, Read (saved snaps []) n = inr s -> s ∈ snaps /\ n = name_of s) /\
  (forall s, s ∈ snaps -> exists s', s' ∈ snaps /\ name_of s' = name_of s /\
     Read (saved snaps []) (name_of s) = inr s') /\
  (forall n, n ∈ ReadDir (saved snaps []) <-> exists s, s ∈ snaps /\ n = name_of s).
Proof.
  induction snaps as [|s snaps IH] using rev_ind; intros Hok.
  { split; [done|]. split; [intros s Hs; by apply not_elem_of_nil in Hs|].
    intros n. split; [intros H; by apply not_elem_of_nil in H|].
    intros (s & Hs & _). by apply not_elem_of_nil in Hs. }
  apply Forall_app in Hok as [Hok Hs]. apply Forall_cons in Hs as [Hs _].
  destruct (IH Hok) as (I1 & I2 & I3). rewrite saved_snoc by apply Hs.
  assert (forall n, Read (dir_put (saved snaps []) (name_of s) (snap_file s)) n
    = if decide (n = name_of s) then inr s else Read (saved snaps []) n) as Hr.
  { intros n. unfold Read. rewrite dir_get_put. destruct (decide (n = name_of s)); [|done].
    by apply Read_snap_file. }
  split; [|split].
  - intros n s0. rewrite Hr. destruct (decide (n = name_of s)) as [->|].
    + intros [= ->]. split; [|done]. apply elem_of_app. right. by left.
    + intros H. destruct (I1 _ _ H) as [H1 H2]. split; [|done]. apply elem_of_app. by left.
  - intros s0 Hs0. rewrite Hr. destruct (decide (name_of s0 = name_of s)) as [E|E].
    + exists s. split; [apply elem_of_app; right; by left|done].
    + apply elem_of_app in Hs0 as [Hs0|Hs0].
      * destruct (I2 _ Hs0) as (s' & H1 & H2). exists s'. split; [apply elem_of_app; by left|done].
      * apply list_elem_of_singleton in Hs0 as ->. done.
  - intros n. rewrite names_put, I3. split.
    + intros [->|(s0 & H1 & ->)]; [exists s|exists s0]; (split; [apply elem_of_app|done]); auto.
      right. by left.
    + intros (s0 & H1 & ->). apply elem_of_app in H1 as [H1|H1]; [right; eauto|].
      apply list_elem_of_singleton in H1 as ->. by left.
Qed.

Definition put_files (junk : list (string * bytes)) (d : dir) : dir :=
  fold_left (fun d f => dir_put d (fst f) (snd f)) junk d.

(** Files that are no snapshots: what is in them does not read. *)
Definition unreadable (snaps : list raftpb.Snapshot) (f : string * bytes) : Prop :=
  (exists e, Read_file (snd f) = inl e) /\ Forall (fun s => name_of s <> fst f) snaps.

Lemma junk_reads snaps junk d : Forall (unreadable snaps) junk ->
  (forall n s, Read (put_files junk d) n = inr s -> Read d n = inr s) /\
  (forall s, s ∈ snaps -> Read (put_files junk d) (name_of s) = Read d (name_of s)) /\
  (forall n, n ∈ ReadDir d -> n ∈ ReadDir (put_files junk d)).
Proof.
  revert d. induction junk as [|[n b] junk IH]; intros d Hj; [done|].
  apply Forall_cons in Hj as [[[e He] Hn] Hj]. simpl in He, Hn. unfold put_files in *.
  cbn [fold_left fst snd]. destruct (IH (dir_put d n b) Hj) as (I1 & I2 & I3). split; [|split].
  - intros m s H. apply I1 in H. unfold Read in H. rewrite dir_get_put in H.
    destruct (decide (m = n)); [congruence|done].
  - intros s Hs. rewrite I2 by done. unfold Read. rewrite dir_get_put.
    rewrite decide_False; [done|]. by eapply Forall_forall in Hn.
  - intros m Hm. apply I3, names_put. by right.
Qed.

(** A directory whose readable snapshot files are those of [snaps], under
    their names. *)
Definition holds (snaps : list raftpb.Snapshot) (d : dir) : Prop :=
  (forall n s, Read d n = inr s -> s ∈ snaps /\ n = name_of s) /\
  (forall s, s ∈ snaps -> exists s', s' ∈ snaps /\ name_of s' = name_of s /\
     Read d (name_of s) = inr s') /\
  (forall s, s ∈ snaps -> name_of s ∈ ReadDir d).

Lemma saved_holds snaps : Forall snap_ok snaps -> holds snaps (saved snaps []).
Proof.
  intros Hok. destruct (saved_read snaps Hok) as (S1 & S2 & S3).
  split; [done|]. split; [done|]. intros s Hs. apply S3. eauto.
Qed.

(** The outcome of the search in such a directory. *)
Definition newest (snaps : list raftpb.Snapshot) (walSnaps : list walpb.Snapshot) (d d' : dir)
    (r : result raftpb.Snapshot) : Prop :=
  (forall s, s ∈ snaps -> Read d' (name_of s) = Read d (name_of s)) /\
  match r with
  | inr s => s ∈ snaps /\ Read d (name_of s) = inr s /\ in_wal walSnaps s = true /\
      forall s', s' ∈ snaps -> in_wal walSnaps s' = true -> key_le (key s') (key s)
  | inl e => e = ErrNoSnapshot /\ forall s, s ∈ snaps -> in_wal walSnaps s = false
  end.

Lemma load_newest snaps walSnaps d : Forall snap_ok snaps -> holds snaps d ->
  newest snaps walSnaps d (fst (LoadNewestAvailable d walSnaps))
    (snd (LoadNewestAvailable d walSnaps)).
Proof.
  intros Hok (H1 & H2 & H3).
  destruct (loadMatching_spec (in_wal walSnaps) d) as [Hr Hm]. cbv zeta in Hm.
  unfold LoadNewestAvailable. destruct (loadMatching d (in_wal walSnaps)) as [d' r].
  cbn [fst snd] in *.
  assert (forall s, s ∈ snaps -> name_of s ∈ ReadDir d /\
    has_prefix "db.tmp" (name_of s) = false /\ has_suffix snapSuffix (name_of s) = true) as Hsn.
  { intros s Hs. split; [auto|apply name_is_snap]. }
  assert (forall s, s ∈ snaps -> exists s', s' ∈ snaps /\ key s' = key s /\
    Read d (name_of s) = inr s') as Hrd.
  { intros s Hs. destruct (H2 s Hs) as (s' & Hs' & En & E). exists s'. split; [done|].
    split; [|done]. apply name_key; [by eapply Forall_forall in Hok..|done]. }
  split.
  - intros s Hs. destruct (Hrd s Hs) as (s' & _ & _ & E). rewrite E.
    destruct (Hsn s Hs) as (_ & Hp & Hx). apply (Hr _ s' Hx). unfold Read, cleanupSnapdir; cbn [fst].
    rewrite (dir_get_filter (fun n => negb (has_prefix "db.tmp" n))) by (by rewrite Hp). exact E.
  - destruct r as [e|s].
    + destruct Hm as [-> Hm]. split; [done|]. intros s Hs.
      destruct (Hrd s Hs) as (s' & _ & Ek & E). rewrite (in_wal_key _ s s') by done.
      by apply (Hm (name_of s)); [apply Hsn|].
    + destruct Hm as (Hf & n & Hn & Hn' & Hle). destruct (H1 n s Hn') as [Hs ->].
      split; [done|]. split; [done|]. split; [done|]. intros s' Hs' Hw.
      destruct (Hrd s' Hs') as (s2 & Hs2 & Ek & E). rewrite <- Ek.
      rewrite <- (in_wal_key walSnaps s2 s') in Hw by done.
      destruct (H1 _ _ E) as [_ En].
      apply name_le; [by eapply Forall_forall in Hok..|]. rewrite <- En.
      apply (Hle _ s2); [by apply Hsn|done|done].
Qed.

(** C33: the newest snapshot is found again.  After any snapshots were saved,
    whatever other files a crash has left in the directory (files that do not
    read, such as a torn snapshot), [LoadNewestAvailable] returns a saved
    snapshot that the log has a record of, and of those the one of the highest
    term and index; when the log has a record of none it answers
    [ErrNoSnapshot].  No snapshot file is lost by the search. *)
Theorem newest_snapshot_loaded snaps junk walSnaps :
  Forall snap_ok snaps -> Forall (unreadable snaps) junk ->
  let d := put_files junk (saved snaps []) in
  let '(d', r) := LoadNewestAvailable d walSnaps in
  (forall s, s ∈ snaps -> Read d' (name_of s) = Read d (name_of s)) /\
  match r with
  | inr s => s ∈ snaps /\ Read d (name_of s) = inr s /\ in_wal walSnaps s = true /\
      forall s', s' ∈ snaps -> in_wal walSnaps s' = true -> key_le (key s') (key s)
  | inl e => e = ErrNoSnapshot /\ forall s, s ∈ snaps -> in_wal walSnaps s = false
  end.
Proof.
  intros Hok Hj d. destruct (saved_holds snaps Hok) as (S1 & S2 & S3).
  destruct (junk_reads snaps junk (saved snaps []) Hj) as (J1 & J2 & J3). fold d in J1, J2, J3.
  assert (holds snaps d) as Hd.
  { split; [intros n s Hr; by apply S1, J1|]. split; [|auto].
    intros s Hs. rewrite J2 by done. auto. }
  pose proof (load_newest snaps walSnaps d Hok Hd) as H.
  destruct (LoadNewestAvailable d walSnaps) as [d' r]. exact H.
Qed.

End Loading.
(** ** A crash after the second snapshot's file *)

Import MemRaft.

Definition snap_at (t i : Z) : raftpb.Snapshot :=
  raftpb.MkSnapshot [x61] (raftpb.MkMeta (raftpb.MkConfState [1] []) i t).

Definition torn : string * bytes := (snapName 3 9, take 4 (snap_file (snap_at 3 9))).

Lemma newest_snapshot_loaded_witness :
  let d := put_files [torn] (saved [snap_at 1 2; snap_at 2 5] []) in
  snd (LoadNewestAvailable d [walpb.MkSnapshot 2 1 None []]) = inr (snap_at 1 2) /\
  let '(d', r) := LoadNewestAvailable d [walpb.MkSnapshot 2 1 None []] in
  (forall s, s ∈ [snap_at 1 2; snap_at 2 5] -> Read d' (name_of s) = Read d (name_of s)) /\
  match r with
  | inr s => s ∈ [snap_at 1 2; snap_at 2 5] /\ Read d (name_of s) = inr s /\
      in_wal [walpb.MkSnapshot 2 1 None []] s = true /\
      forall s', s' ∈ [snap_at 1 2; snap_at 2 5] ->
        in_wal [walpb.MkSnapshot 2 1 None []] s' = true -> key_le (key s') (key s)
  | inl e => e = ErrNoSnapshot /\ forall s, s ∈ [snap_at 1 2; snap_at 2 5] ->
      in_wal [walpb.MkSnapshot 2 1 None []] s = false
  end.
Proof.
  split; [vm_compute; reflexivity|].
  apply (newest_snapshot_loaded [snap_at 1 2; snap_at 2 5] [torn]
           [walpb.MkSnapshot 2 1 None []]).
  - repeat constructor; try (vm_compute; intuition (reflexivity || discriminate)).
  - constructor; [|constructor]. split; [eexists; vm_compute; reflexivity|].
    repeat constructor; vm_compute; discriminate.
Defined.

End Snap.
