(* ===== verification/Handlers.v ===== *)
(** * The HTTP handlers of the raft transport

    [http.go] of etcd's [rafthttp], and [Handler] of its [transport.go]: the
    server side of posts, snapshots and streams.  The theorems put the two
    sides together: a request that a peer makes, answered by the handler of
    another node, and what the peer makes of the answer. *)

From S2P Require Import Prelude Errors Utils RaftApi WalRecord MemRaftCodec WalNames EtcdWal Urls.
From S2P Require Import MsgCodec RaftUtil Stream Peer Transport Snapshotter.
From Stdlib Require Import Ascii.

Module handlers.
Import stream.

(** ** Package path *)

(** The last slash: what is up to it, and what follows it. *)
Fixpoint path_split (s : string) : option (string * string) :=
  match s with
  | EmptyString => None
  | String c s =>
      match path_split s with
      | Some (a, b) => Some (String c a, b)
      | None => if Ascii.eqb c "/"%char then Some (String c "", s) else None
      end
  end.

Fixpoint split_slash (s : string) : list string :=
  match s with
  | EmptyString => [""]
  | String c s =>
      if Ascii.eqb c "/"%char then "" :: split_slash s
      else match split_slash s with
           | w :: ws => String c w :: ws
           | [] => [String c ""]
           end
  end.

Fixpoint join_slash (l : list string) : string :=
  match l with
  | [] => ""
  | [s] => s
  | s :: l => (s ++ "/" ++ join_slash l)%string
  end.

(** The elements of a clean path, the last one first: a dot is dropped, and
    two dots drop the element before them. *)
Fixpoint clean_elems (rooted : bool) (acc : list string) (l : list string) : list string :=
  match l with
  | [] => acc
  | e :: l =>
      clean_elems rooted
        (if String.eqb e "" || String.eqb e "." then acc
         else if String.eqb e ".." then
           match acc with
           | x :: acc' => if String.eqb x ".." then e :: acc else acc'
           | [] => if rooted then [] else [e]
           end
         else e :: acc) l
  end.

(** [path.Clean]. *)
Definition path_Clean (s : string) : string :=
  let rooted := has_prefix "/" s in
  let body := join_slash (rev (clean_elems rooted [] (split_slash s))) in
  if rooted then String "/"%char body else if String.eqb body "" then "." else body.

(** [path.Dir] and [path.Base]. *)
Definition path_Dir (s : string) : string :=
  match path_split s with Some (d, _) => path_Clean d | None => path_Clean "" end.

Fixpoint trim_slashes (l : list Ascii.ascii) : list Ascii.ascii :=
  match l with
  | c :: l' => if Ascii.eqb c "/"%char then trim_slashes l' else l
  | [] => []
  end.

Definition path_Base (s : string) : string :=
  if String.eqb s "" then "."
  else
    let s := String.string_of_list_ascii (rev (trim_slashes (rev (String.list_ascii_of_string s)))) in
    let f := match path_split s with Some (_, f) => f | None => s end in
    if String.eqb f "" then "/" else f.

(** ** The state machine behind the handlers *)

(** The answer of [Raft.Process]: an error may write the response itself. *)
Inductive answer : Type :=
  | Processed
  | Failed (e : error)
  | Wrote_response (resp : response).

Record raft := MkRaft {
  r_Process : raftpb.Message -> answer;
  r_IsIDRemoved : Z -> bool
}.

(** What a handler did: the transport and the snapshot directory after it, its
    calls, and the response; [aborted]: it panicked after the response to
    close the connection. *)
Record served {U : UrlLib} := Served {
  sv_tr : rafthttp.Transport;
  sv_fx : list effect;
  sv_resp : response;
  aborted : bool
}.

Section Handlers.
Context `{RaftCodec} `{MessageCodec} `{UrlLib} `{SemverLib}.

Definition answered (t : rafthttp.Transport) (fx : list effect) (resp : response)
    : outcome served := Ret (Served _ t fx resp false).

Definition method_not_allowed (allow : string) : response :=
  http_Error (<["Allow" := allow]> ∅) "Method Not Allowed" StatusMethodNotAllowed.

Definition add_remote (t : rafthttp.Transport) (h : header) : outcome rafthttp.Transport :=
  match addRemoteFromRequest h with
  | None => Ret t
  | Some (from, us) => rafthttp.AddRemote t from us
  end.

(** [io.ReadAll] of the body; the limited reader only bounds each read. *)
Definition ReadAll (r : codec.reader) : result bytes :=
  if decide (codec.r_end r = EOF) then inr (codec.r_bytes r) else inl (codec.r_end r).

(** [pipelineHandler.ServeHTTP]. *)
Definition pipeline_ServeHTTP (cid : Z) (r : raft) (t : rafthttp.Transport) (req : request)
    : outcome served :=
  if negb (String.eqb (rq_Method req) "POST") then answered t [] (method_not_allowed "POST")
  else
    let h : header := <["X-Etcd-Cluster-ID" := ID.ID_String cid]> ∅ in
    err ← checkClusterCompatibilityFromHeader (rq_Header req) cid;
    match err with
    | Some e => answered t [] (http_Error h (error_text e) StatusPreconditionFailed)
    | None =>
        t ← add_remote t (rq_Header req);
        match ReadAll (rq_Body req) with
        | inl _ => answered t [] (http_Error h "error reading raft message" StatusBadRequest)
        | inr b =>
            match Message_Unmarshal b with
            | inl _ => answered t [] (http_Error h "error unmarshalling raft message" StatusBadRequest)
            | inr m =>
                match r_Process r m with
                | Processed => answered t [Process m] (Response StatusNoContent h "")
                | Wrote_response resp => answered t [Process m] resp
                | Failed _ =>
                    Ret (Served _ t [Process m]
                           (http_Error h "error processing raft message" StatusInternalServerError)
                           true)
                end
            end
        end
    end.

Definition snapshotLimitByte : Z := 1 * 1024 * 1024 * 1024 * 1024.

(** [snapshotHandler.ServeHTTP]: the message, then the database. *)
Definition snapshot_ServeHTTP (cid : Z) (r : raft) (tmp : string) (d : dir)
    (t : rafthttp.Transport) (req : request) : outcome (dir * served) :=
  let reply d t fx resp := Ret (d, Served _ t fx resp false) in
  if negb (String.eqb (rq_Method req) "POST") then reply d t [] (method_not_allowed "POST")
  else
    let h : header := <["X-Etcd-Cluster-ID" := ID.ID_String cid]> ∅ in
    err ← checkClusterCompatibilityFromHeader (rq_Header req) cid;
    match err with
    | Some e => reply d t [] (http_Error h (error_text e) StatusPreconditionFailed)
    | None =>
        t ← add_remote t (rq_Header req);
        '(body, dm) ← codec.decodeLimit snapshotLimitByte (rq_Body req);
        match dm with
        | inl _ => reply d t [] (http_Error h "failed to decode raft message" StatusBadRequest)
        | inr m =>
            if negb (isMsgSnap m)
            then reply d t [] (http_Error h "wrong raft message type" StatusBadRequest)
            else
              match raftpb.m_Snapshot m with
              | None => Panic "invalid memory address or nil pointer dereference"
              | Some s =>
                  let '(d, (_, err)) :=
                    Snap.SaveDBFrom tmp d body (raftpb.md_Index (raftpb.Metadata s)) in
                  match err with
                  | Some _ =>
                      reply d t [] (http_Error h "failed to save KV snapshot" StatusInternalServerError)
                  | None =>
                      match r_Process r m with
                      | Processed => reply d t [Process m] (Response StatusNoContent h "")
                      | Wrote_response resp => reply d t [Process m] resp
                      | Failed _ =>
                          reply d t [Process m]
                            (http_Error h "failed to process raft message" StatusInternalServerError)
                      end
                  end
              end
        end
    end.

(** The type of stream that a path asks for. *)
Definition stream_of (p : string) : option streamType :=
  if String.eqb (path_Dir p) (endpoint streamTypeMsgAppV2) then Some streamTypeMsgAppV2
  else if String.eqb (path_Dir p) (endpoint streamTypeMessage) then Some streamTypeMessage
  else None.

(** [streamHandler.ServeHTTP], up to the wait for the end of the connection:
    [w] is the writer of the response, whose header was flushed. *)
Definition stream_ServeHTTP (now : Z) (w : codec.writer) (id cid : Z) (r : raft)
    (t : rafthttp.Transport) (req : request) : outcome served :=
  if negb (String.eqb (rq_Method req) "GET") then answered t [] (method_not_allowed "GET")
  else
    let h : header :=
      <["X-Etcd-Cluster-ID" := ID.ID_String cid]> (<["X-Server-Version" := version_Version]> ∅) in
    err ← checkClusterCompatibilityFromHeader (rq_Header req) cid;
    match err with
    | Some e => answered t [] (http_Error h (error_text e) StatusPreconditionFailed)
    | None =>
        match stream_of (rq_Path req) with
        | None => answered t [] (http_Error h "invalid path" StatusNotFound)
        | Some ty =>
            match ID.IDFromString (path_Base (rq_Path req)) with
            | inl _ => answered t [] (http_Error h "invalid from" StatusNotFound)
            | inr from =>
                if r_IsIDRemoved r from
                then answered t [] (http_Error h "removed member" StatusGone)
                else
                  match rafthttp.Get t from with
                  | None =>
                      let us := h_Get (rq_Header req) "X-PeerURLs" in
                      t ← (if String.eqb us "" then Ret t
                           else rafthttp.AddRemote t from (split_comma us));
                      answered t [] (http_Error h "error sender not found" StatusNotFound)
                  | Some p =>
                      if negb (String.eqb (h_Get (rq_Header req) "X-Raft-To") (ID.ID_String id))
                      then answered t [] (http_Error h "to field mismatch" StatusPreconditionFailed)
                      else
                        let p := fst (peer.attachOutgoingConn now (MkConn ty w) p) in
                        answered (rafthttp.MkTransport (rafthttp.tr_logs t) (rafthttp.remotes t)
                                    (<[from := p]> <$> rafthttp.peers t))
                          [] (Response StatusOK h "")
                  end
            end
        end
    end.

(** [Handler]: which handler serves a path. *)
Inductive route : Type :=
  | ToPipeline
  | ToStream
  | ToSnapshot
  | ToProbing
  | NotFound.

Definition Handler (path : string) : route :=
  if String.eqb path RaftPrefix then ToPipeline
  else if has_prefix (RaftStreamPrefix ++ "/") path then ToStream
  else if String.eqb path RaftSnapshotPrefix then ToSnapshot
  else if String.eqb path "/raft/probing" then ToProbing
  else NotFound.

(** [Process] and [IsIDRemoved] of omashu's node ([src/node.go]): the step of
    raft, and the members removed from the cluster. *)
Definition node_raft (Step : raftpb.Message -> option error) (removed : Z -> bool) : raft :=
  MkRaft (fun m => match Step m with None => Processed | Some e => Failed e end) removed.

End Handlers.

(** ** Paths of streams *)

Definition no_slash (s : string) : Prop :=
  Forall (fun c => Ascii.eqb c "/"%char = false) (String.list_ascii_of_string s).

Lemma path_split_none s : no_slash s -> path_split s = None.
Proof.
  unfold no_slash. induction s as [|c s IH]; [done|]. cbn [String.list_ascii_of_string path_split].
  intros [Hc Hs]%Forall_cons. by rewrite (IH Hs), Hc.
Qed.

Lemma path_split_app d f : no_slash f ->
  path_split (d ++ String "/"%char f) = Some (d ++ "/", f)%string.
Proof.
  intros Hf. induction d as [|c d IH].
  - change (path_split (String "/"%char f) = Some ("/", f)%string). cbn [path_split].
    by rewrite (path_split_none f Hf).
  - change ((String c d) ++ String "/"%char f)%string with (String c (d ++ String "/"%char f)).
    cbn [path_split]. by rewrite IH.
Qed.

(** The characters of an identifier. *)
Lemma hex_char_facts d : 0 <= d < 16 ->
  plain_char (hex_char d) = true /\ Ascii.eqb (hex_char d) "/"%char = false.
Proof.
  intros Hd. assert (d ∈ [0;1;2;3;4;5;6;7;8;9;10;11;12;13;14;15]) as Hi.
  { rewrite !elem_of_cons, elem_of_nil. lia. }
  rewrite !elem_of_cons, elem_of_nil in Hi.
  repeat (destruct Hi as [->|Hi]; [by split|]). done.
Qed.

Lemma format_hex_chars (P : Ascii.ascii -> Prop) n v rest :
  (forall d, 0 <= d < 16 -> P (hex_char d)) -> 0 <= v ->
  Forall P (String.list_ascii_of_string rest) ->
  Forall P (String.list_ascii_of_string (ID.format_hex n v rest)).
Proof.
  intros HP. revert v rest. induction n as [|n IH]; intros v rest Hv Hr; cbn [ID.format_hex]; [done|].
  destruct (Z.ltb_spec v 16).
  - cbn. constructor; [apply HP; lia|done].
  - apply IH; [div_lia|]. cbn. constructor; [apply HP, Z.mod_pos_bound; lia|done].
Qed.

Lemma ID_chars i : is_u64 i -> no_slash (ID.ID_String i) /\
  forallb plain_char (String.list_ascii_of_string (ID.ID_String i)) = true.
Proof.
  intros [Hi _]. split.
  - apply format_hex_chars; [intros d Hd; by apply hex_char_facts|done|constructor].
  - apply forallb_forall. intros c Hc%list_elem_of_In. revert c Hc. apply Forall_forall.
    apply (format_hex_chars (fun c => plain_char c = true));
      [intros d Hd; by apply hex_char_facts|done|constructor].
Qed.

Lemma list_ascii_app a b : String.list_ascii_of_string (a ++ b)
  = String.list_ascii_of_string a ++ String.list_ascii_of_string b.
Proof.
  induction a as [|c a IH]; [done|].
  change (c :: String.list_ascii_of_string (a ++ b)
    = c :: String.list_ascii_of_string a ++ String.list_ascii_of_string b). by rewrite IH.
Qed.

Lemma ID_nonempty i : exists c s, ID.ID_String i = String c s.
Proof. apply ID.format_hex_cons. lia. Qed.

(** A path whose last element has no slash. *)
Lemma path_Base_app d f c s : no_slash f -> f = String c s ->
  path_Base (d ++ String "/"%char f) = f.
Proof.
  intros Hf Ef. unfold path_Base.
  assert (String.eqb (d ++ String "/"%char f) "" = false) as -> by (by destruct d).
  assert (exists x l, rev (String.list_ascii_of_string (d ++ String "/"%char f)) = x :: l /\
    Ascii.eqb x "/"%char = false) as (x & l & El & Ex).
  { rewrite list_ascii_app. cbn [String.list_ascii_of_string]. rewrite rev_app_distr. cbn [rev].
    unfold no_slash in Hf. rewrite <- (rev_involutive (String.list_ascii_of_string f)) in Hf.
    destruct (rev (String.list_ascii_of_string f)) as [|x l] eqn:Er.
    - rewrite Ef in Er. cbn in Er. by destruct (rev (String.list_ascii_of_string s)).
    - cbn [rev] in Hf. apply Forall_app in Hf as [_ [Hx _]%Forall_cons].
      by eexists _, _. }
  rewrite El. cbn [trim_slashes]. rewrite Ex, <- El, rev_involutive.
  rewrite String.string_of_list_ascii_of_string, path_split_app by done.
  by rewrite Ef.
Qed.

Lemma stream_path t i : is_u64 i -> let p := (endpoint t ++ "/" ++ ID.ID_String i)%string in
  stream_of p = Some t /\ path_Base p = ID.ID_String i /\ plain_path p = true.
Proof.
  intros Hi. cbv zeta. destruct (ID_chars i Hi) as [Hn Hp], (ID_nonempty i) as (c & s & Es).
  change (endpoint t ++ "/" ++ ID.ID_String i)%string
    with (endpoint t ++ String "/"%char (ID.ID_String i))%string.
  split; [|split].
  - unfold stream_of, path_Dir. rewrite path_split_app by done. by destruct t.
  - by eapply path_Base_app.
  - unfold plain_path. rewrite list_ascii_app, forallb_app. cbn [String.list_ascii_of_string forallb].
    rewrite Hp. by destruct t.
Qed.

(** ** Both sides *)

Section Both.
Context `{RaftCodec} `{MessageCodecLaws} `{UrlLaws} `{SemverLaws}.
Implicit Types (t : rafthttp.Transport) (m : raftpb.Message).

(** Looks a header up. *)
Local Ltac headers :=
  unfold request_headers, header in *;
  repeat first [by rewrite lookup_insert_eq | rewrite lookup_insert_ne by done].

Lemma h_Get_insert (h : header) k v : h_Get (<[k := v]> h) k = v.
Proof. unfold h_Get, header in *. by rewrite lookup_insert_eq. Qed.

(** The headers of a request without URLs. *)
Lemma request_headers_checked from cid cid' h : is_u64 cid -> is_u64 cid' ->
  checkClusterCompatibilityFromHeader (request_headers from cid h) cid'
    = Ret (if cid =? cid' then None else Some ErrClusterIDMismatch).
Proof.
  intros Hc Hc'. apply own_headers_checked; [headers..|done|done].
Qed.

Lemma no_remote from cid h t : h !! "X-PeerURLs" = None ->
  add_remote t (request_headers from cid h) = Ret t.
Proof.
  intros Hh. unfold add_remote, addRemoteFromRequest.
  destruct (ID.IDFromString (h_Get (request_headers from cid h) "X-Server-From")); [done|].
  assert (h_Get (request_headers from cid h) "X-PeerURLs" = "") as ->; [|done].
  unfold h_Get, request_headers, header in *. by rewrite !lookup_insert_ne, Hh by done.
Qed.

Definition post_request (path : string) (body : codec.reader) (ct : string) (from cid : Z)
    : request :=
  Request "POST" path (request_headers from cid (<["Content-Type" := ct]> ∅)) body.

Lemma createPostRequest_ok u x path body ct from cid : url_Parse x = inr u ->
  plain_path path = true ->
  createPostRequest u path body ct None from cid = Ret (post_request path body ct from cid).
Proof.
  intros Ex Hp. destruct (with_path x u path Ex Hp) as (u' & Eu & Ep).
  unfold createPostRequest, NewRequest. rewrite Eu. cbn. by rewrite Ep.
Qed.

(** What the handler of another node makes of a post. *)
Lemma post_served m ct from cid cid' Step removed t : is_u64 cid -> is_u64 cid' ->
  let req := post_request RaftPrefix (codec.Reader (Message_Marshal m) EOF) ct from cid in
  exists sv, pipeline_ServeHTTP cid' (node_raft Step removed) t req = Ret sv /\ sv_tr sv = t /\
    sv_fx sv = (if cid =? cid' then [Process m] else []) /\
    checkPostResponse (sv_resp sv)
    = if cid =? cid'
      then match Step m with
           | None => None
           | Some _ => Some (OtherError "unexpected http status while posting")
           end
      else Some ErrClusterIDMismatch.
Proof.
  intros Hc Hc'. unfold pipeline_ServeHTTP. cbn [rq_Path rq_Method rq_Header rq_Body post_request].
  rewrite request_headers_checked, ret_bind by done. cbn [String.eqb Ascii.eqb Bool.eqb negb].
  destruct (cid =? cid').
  - rewrite no_remote by reflexivity. rewrite ret_bind. unfold ReadAll.
    rewrite decide_True by done. cbn [codec.r_bytes]. rewrite message_codec.
    cbn [node_raft r_Process]. destruct (Step m); eexists; (split; [reflexivity|]); done.
  - eexists. split; [reflexivity|]. split; [done|]. split; [done|]. reflexivity.
Qed.

(** A picker of URLs that were parsed. *)
Definition dialable (k : urlPicker) : Prop :=
  picker_ok k /\ Forall (fun u => exists x, url_Parse x = inr u) (p_urls k).

Lemma dialable_pick k : dialable k -> exists u x, pick k = Ret u /\ url_Parse x = inr u.
Proof.
  intros [Hk Hu]. destruct (pick_ok k Hk) as (u & E & Hi). rewrite Forall_forall in Hu.
  destruct (Hu u Hi) as [x Ex]. eauto.
Qed.

(** The end of a post that was answered. *)
Lemma posted listening now u resp k st m : dialable k -> exists k' st' fx,
  peer.post_end listening (inr resp) u k = Ret (k', checkPostResponse resp, fx) /\ dialable k' /\
  (checkPostResponse resp <> Some errMemberRemoved -> fx = []) /\
  peer.handle_end now m (checkPostResponse resp) st
    = (st', match checkPostResponse resp with
            | None => Posted m :: if isMsgSnap m then [ReportSnapshot (raftpb.m_To m) true] else []
            | Some _ => peer.dropped m
            end).
Proof.
  intros [Hk Hu]. unfold peer.post_end, peer.handle_end.
  destruct (checkPostResponse resp) as [e|].
  - destruct (unreachable_ok k u Hk) as (k' & -> & Hk' & Eu). rewrite ret_bind.
    do 3 eexists. split; [reflexivity|]. split; [by split; [|rewrite Eu]|]. split; [|reflexivity].
    intros Hn. by rewrite decide_False by congruence.
  - do 3 eexists. split; [reflexivity|]. split; [done|]. by split.
Qed.

(** C23: a post is processed once, and its sender knows.  A peer takes the next
    message of its pipeline and posts it; the handler of the other node hands
    it to raft, once and unchanged, when both belong to the same cluster, and
    not otherwise.  The peer then counts the message as posted exactly when
    raft accepted it, and reports the node unreachable when it did not; the
    goroutine that posted it is free again. *)
Theorem post_processed_once (l : peer.local_info) (p : peer.peer) (m : raftpb.Message)
    (rest : chan) (cid' : Z) (Step : raftpb.Message -> option error) (removed : Z -> bool)
    (t : rafthttp.Transport) (listening : bool) (now : Z) :
  dialable (peer.p_picker p) -> peer.pl_msgc (peer.p_pipeline p) = m :: rest ->
  let busy := length (peer.inflight (peer.p_pipeline p)) in
  (busy < peer.handlers (peer.p_pipeline p))%nat -> peer.l_URLs l = None ->
  is_u64 (peer.l_ClusterID l) -> is_u64 cid' ->
  exists p1 req sv p2,
    peer.pipeline_take l p = Ret (p1, Some req) /\ Handler (rq_Path req) = ToPipeline /\
    pipeline_ServeHTTP cid' (node_raft Step removed) t req = Ret sv /\ sv_tr sv = t /\
    peer.pipeline_done listening now busy (inr (sv_resp sv)) p1 = Ret p2 /\
    peer.pl_msgc (peer.p_pipeline p2) = rest /\
    peer.inflight (peer.p_pipeline p2) = peer.inflight (peer.p_pipeline p) /\
    dialable (peer.p_picker p2) /\
    if peer.l_ClusterID l =? cid'
    then sv_fx sv = [Process m] /\
      peer.p_fx p2 = peer.p_fx p ++
        match Step m with
        | None => Posted m :: if isMsgSnap m then [ReportSnapshot (raftpb.m_To m) true] else []
        | Some _ => peer.dropped m
        end
    else sv_fx sv = [] /\ peer.p_fx p2 = peer.p_fx p ++ peer.dropped m.
Proof.
  intros Hk Em busy Hb Hus Hc Hc'. destruct (dialable_pick _ Hk) as (u & x & Eu & Ex).
  destruct (post_served m "application/protobuf" (peer.l_ID l) (peer.l_ClusterID l) cid' Step removed
    t Hc Hc') as (sv & Es & Et & Ef & Ec).
  destruct (posted listening now u (sv_resp sv) _ (peer.p_status p) m Hk)
    as (k' & st' & fx & Ep & Hk' & Hfx & Eh').
  assert (fx = []) as ->.
  { apply Hfx. rewrite Ec. destruct (_ =? _), (Step m); done. }
  unfold peer.pipeline_take, peer.h_take, peer.pipeline_done, peer.h_done.
  rewrite Em, Eu, Hus, ret_bind, (createPostRequest_ok u x), ret_bind by done. fold busy. destruct (Nat.ltb_spec busy
    (peer.handlers (peer.p_pipeline p))) as [_|Hn]; [|lia]. rewrite ret_bind.
  do 4 eexists. split; [reflexivity|]. split; [reflexivity|]. split; [exact Es|]. split; [exact Et|].
  cbn [peer.p_pipeline peer.set_pipeline peer.inflight peer.p_picker peer.p_status].
  rewrite list_lookup_middle by done. rewrite Ep, ret_bind, Eh'.
  cbv beta iota. rewrite ret_bind. split; [reflexivity|].
  cbn [peer.add_fx peer.p_pipeline peer.set_pipeline peer.inflight peer.p_picker peer.pl_msgc
    peer.set_picker peer.set_status peer.p_fx app].
  split; [done|]. split; [unfold busy; by rewrite delete_middle, app_nil_r|]. split; [done|].
  rewrite Ef, Ec. by destruct (_ =? _), (Step m).
Qed.

(** Why a node does not serve a stream to another one. *)
Definition refusal (cid cid' id id' to : Z) (removed : Z -> bool) (t : rafthttp.Transport)
    : option error :=
  if negb (cid =? cid') then Some ErrClusterIDMismatch
  else if removed id then Some errMemberRemoved
  else match rafthttp.Get t id with
       | None => Some (OtherError "peer failed to find local node")
       | Some _ => if to =? id' then None
                   else Some (OtherError "unhandled error when precondition failed")
       end.

Lemma refusal_supported cid cid' id id' to removed t :
  refusal cid cid' id id' to removed t <> Some errUnsupportedStreamType.
Proof.
  unfold refusal. destruct (negb _), (removed id), (rafthttp.Get t id), (to =? id'); discriminate.
Qed.

(** The answer of a node of this version. *)
Lemma dial_answer_own ty st h body b : h !! "X-Server-Version" = Some version_Version ->
  dial_answer ty (Response st h body) b = Ret (
    if st =? StatusGone then inl errMemberRemoved
    else if st =? StatusOK then inr b
    else if st =? StatusNotFound then inl (OtherError "peer failed to find local node")
    else if st =? StatusPreconditionFailed then
      let text := trim_newline body in
      if String.eqb text (error_text errIncompatibleVersion) then inl errIncompatibleVersion
      else if String.eqb text (error_text ErrClusterIDMismatch) then inl ErrClusterIDMismatch
      else inl (OtherError "unhandled error when precondition failed")
    else inl (OtherError "unhandled http status")).
Proof.
  intros Eh. unfold dial_answer, serverVersion, version_of, h_Get. cbn [rs_Header]. rewrite Eh.
  change (String.eqb (default "" (Some version_Version)) "") with false. cbn [default Datatypes.id].
  unfold semver_Must, version_Version. by rewrite semver_local, !ret_bind, compare_spec.
Qed.

Local Ltac serve Eh :=
  eexists; split; [reflexivity|]; split; [exact Eh|]; split; [reflexivity|]; split; [done|];
  split; [intros body; unfold http_Error; cbn [sv_resp];
          rewrite dial_answer_own by (unfold header in *; headers); reflexivity|try done].

(** The request of a dial, and what the handler of another node answers. *)
Lemma dial_served u x ty id cid to now w id' cid' Step removed t : url_Parse x = inr u ->
  is_u64 id -> is_u64 cid -> is_u64 cid' -> is_u64 to -> is_u64 id' -> exists req sv,
  dial_request u ty id cid to None = inr req /\ Handler (rq_Path req) = ToStream /\
  stream_ServeHTTP now w id' cid' (node_raft Step removed) t req = Ret sv /\
  sv_fx sv = [] /\ (forall body, dial_answer ty (sv_resp sv) body
    = Ret (match refusal cid cid' id id' to removed t with Some e => inl e | None => inr body end)) /\
  match refusal cid cid' id id' to removed t with
  | Some _ => sv_tr sv = t
  | None => exists p, rafthttp.Get t id = Some p /\
      rafthttp.Get (sv_tr sv) id = Some (fst (peer.attachOutgoingConn now (MkConn ty w) p)) /\
      forall j, j <> id -> rafthttp.Get (sv_tr sv) j = rafthttp.Get t j
  end.
Proof.
  intros Ex Hid Hc Hc' Ht Hid'. destruct (stream_path ty id Hid) as (Es & Eb & Epl).
  destruct (with_path x u _ Ex Epl) as (u' & Eu & Ep). unfold dial_request, NewRequest.
  rewrite Eu. cbn [mbind result_bind setPeerURLsHeader].
  exists (Request "GET" (u_Path u') (<["X-Raft-To" := ID.ID_String to]> (request_headers id cid ∅))
            (codec.Reader [] EOF)).
  unfold stream_ServeHTTP, refusal. cbn [rq_Path rq_Method rq_Header rq_Body].
  rewrite Ep, Es, Eb, ID.IDFromString_String, own_headers_checked
    with (cid := cid), ret_bind by (headers || done).
  cbn [String.eqb Ascii.eqb Bool.eqb negb node_raft r_IsIDRemoved].
  assert (Handler (endpoint ty ++ "/" ++ ID.ID_String id) = ToStream) as Eh.
  { unfold Handler. destruct ty; reflexivity. }
  destruct (cid =? cid'); cbn [negb]; [|serve Eh]. destruct (removed id); [serve Eh|].
  destruct (rafthttp.Get t id) as [p|] eqn:Eg; [|serve Eh].
  rewrite (h_Get_insert _ "X-Raft-To"), ID_String_eqb by done. destruct (to =? id'); cbn [negb]; [|serve Eh].
  serve Eh. exists p. split; [done|]. cbn [sv_tr]. unfold rafthttp.Get in *. cbn [rafthttp.peers].
  destruct (rafthttp.peers t) as [ps|]; [|done]. cbn.
  split; [apply lookup_insert_eq|]. intros j Hj. by apply lookup_insert_ne.
Qed.

(** A stream is set up on both sides or on neither.  A reader of a peer
    that dials another node makes a request that is routed to the stream
    handler.  The handler refuses a node of another cluster, a removed member,
    one it does not know and one that means another node; then its table of
    peers stays as it was, and the reader gives up, tries another URL the next
    time and reports a removal to the node.  Otherwise the connection is
    attached to the writer of the same type, no other peer is touched, and the
    reader decodes what comes over it. *)
Theorem dial_outcomes (l : peer.local_info) (p : peer.peer) (ty : streamType) (listening : bool)
    (now : Z) (w : codec.writer) (body : codec.reader) (id' cid' : Z)
    (Step : raftpb.Message -> option error) (removed : Z -> bool) (t : rafthttp.Transport) :
  dialable (peer.p_picker p) -> typ (peer.reader_of ty p) = ty ->
  closer (peer.reader_of ty p) = None -> sr_done (peer.reader_of ty p) = false ->
  cancelled (peer.reader_of ty p) = false ->
  peer.l_URLs l = None -> is_u64 (peer.l_ID l) -> is_u64 (peer.l_ClusterID l) ->
  is_u64 (peer.p_id p) -> is_u64 id' -> is_u64 cid' ->
  exists u req sv,
    pick (peer.p_picker p) = Ret u /\
    dial_request u ty (peer.l_ID l) (peer.l_ClusterID l) (peer.p_id p) None = inr req /\
    Handler (rq_Path req) = ToStream /\
    stream_ServeHTTP now w id' cid' (node_raft Step removed) t req = Ret sv /\ sv_fx sv = [] /\
    forall rt, rt req = inr (sv_resp sv, body) -> exists q,
      peer.reader_dial l rt listening now ty p = Ret q /\ dialable (peer.p_picker q) /\
      match refusal (peer.l_ClusterID l) cid' (peer.l_ID l) id' (peer.p_id p) removed t with
      | Some e =>
          sv_tr sv = t /\ closer (peer.reader_of ty q) = None /\
          active (peer.p_status q) = false /\
          peer.p_fx q = peer.p_fx p ++
            (if decide (e = errMemberRemoved) then if listening then [ErrorC e] else [] else [])
      | None =>
          closer (peer.reader_of ty q)
            = Some (new_decoder ty (peer.l_ID l) (peer.p_id p) body) /\
          active (peer.p_status q) = true /\ peer.p_picker q = peer.p_picker p /\
          peer.p_fx q = peer.p_fx p /\
          exists to, rafthttp.Get t (peer.l_ID l) = Some to /\
            rafthttp.Get (sv_tr sv) (peer.l_ID l)
              = Some (fst (peer.attachOutgoingConn now (MkConn ty w) to)) /\
            forall j, j <> peer.l_ID l -> rafthttp.Get (sv_tr sv) j = rafthttp.Get t j
      end.
Proof.
  intros Hk Hty Hcl Hdn Hca Hus Hid Hc Hto Hid' Hc'.
  destruct (dialable_pick _ Hk) as (u & x & Eu & Ex).
  destruct (dial_served u x ty (peer.l_ID l) (peer.l_ClusterID l) (peer.p_id p) now w id' cid'
    Step removed t Ex Hid Hc Hc' Hto Hid') as (req & sv & Er & Eh & Es & Ef & Ea & Em).
  exists u, req, sv. do 5 (split; [assumption|]). intros rt Ert.
  unfold peer.reader_dial, on_dial, dial, after_wait. rewrite Hdn, Hcl. cbn [orb].
  rewrite bool_decide_eq_false_2 by (by intros [? ?]).
  rewrite Eu, ret_bind, Hty, Hus, Er, Hca, Ert, Ea, ret_bind.
  pose proof (refusal_supported (peer.l_ClusterID l) cid' (peer.l_ID l) id' (peer.p_id p) removed t)
    as Hs.
  set (why := refusal _ _ _ _ _ _ _) in *. clearbody why. destruct why as [e|].
  - destruct Hk as [Hk Hu]. destruct (unreachable_ok _ u Hk) as (k & Ek & Hk' & Eus).
    rewrite Ek, !ret_bind. eexists. split; [reflexivity|].
    rewrite (decide_False (P := e = errUnsupportedStreamType)) by congruence.
    split; [destruct ty; (split; [done|cbn; by rewrite Eus])|]. split; [done|].
    destruct ty, (active (peer.p_status p)) eqn:Eac, (decide (e = errMemberRemoved)), listening;
      cbn in *; unfold deactivate; by rewrite ?Eac.
  - rewrite !ret_bind. unfold decode_start. rewrite Hca, ret_bind, Hty. eexists.
    split; [reflexivity|]. destruct ty, (active (peer.p_status p)) eqn:Eac;
      cbn in *; unfold activate; rewrite ?Eac, ?app_nil_r; by repeat (split; [done|]).
Qed.

(** Reading a snapshot to its end: the reader gives no empty chunk. *)
Lemma exact_read_spec cs br total : Forall (fun c => c <> []) cs -> 0 <= br ->
  let n := br + Z.of_nat (length (concat cs)) in
  if n =? total then peer.exact_read br total cs = (concat cs, EOF)
  else snd (peer.exact_read br total cs) <> EOF.
Proof.
  intros Hcs. revert br. induction Hcs as [|c cs Hc _ IH]; intros br Hbr; cbv zeta.
  - cbn [concat length peer.exact_read]. rewrite Z.add_0_r.
    destruct (Z.eqb_spec br total) as [->|]; [by rewrite Z.ltb_irrefl|].
    destruct (Z.ltb_spec total br), (Z.ltb_spec br total); (done || lia).
  - cbn [concat peer.exact_read]. rewrite length_app.
    specialize (IH (br + Z.of_nat (length c)) ltac:(lia)). cbv zeta in IH.
    replace (br + Z.of_nat (length c) + Z.of_nat (length (concat cs)))
      with (br + Z.of_nat (length c + length (concat cs))) in IH by lia.
    destruct (Z.ltb_spec total (br + Z.of_nat (length c))) as [Hlt|Hle].
    + destruct (Z.eqb_spec (br + Z.of_nat (length c + length (concat cs))) total); [lia|done].
    + assert (length c =? 0 = false)%nat as -> by (destruct c; done). rewrite andb_false_r.
      destruct (peer.exact_read (br + Z.of_nat (length c)) total cs) as [b e].
      destruct (_ =? total); [by injection IH as -> ->|done].
Qed.

Lemma createSnapBody_ok merged :
  let '(b, e) := peer.exact_read 0 (peer.sm_rcSize merged) (peer.sm_chunks merged) in
  peer.createSnapBody merged
    = Ret (codec.Reader (codec.message_frame (peer.sm_Message merged) ++ b) e).
Proof.
  unfold peer.createSnapBody.
  destruct (codec.m_encode_emits (peer.sm_Message merged) (codec.Writer [] 0 None))
    as (w & -> & Ho & _).
  rewrite ret_bind. destruct (peer.exact_read _ _ _) as [b e]. by rewrite Ho.
Qed.

(** What the handler of another node makes of the post of a snapshot. *)
Lemma snapshot_served m s b e ct from cid cid' Step removed tmp d t :
  is_u64 cid -> is_u64 cid' -> isMsgSnap m = true -> raftpb.m_Snapshot m = Some s ->
  Z.of_nat (length (Message_Marshal m)) <= snapshotLimitByte ->
  let req := post_request RaftSnapshotPrefix (codec.Reader (codec.message_frame m ++ b) e) ct
    from cid in
  let ok := (cid =? cid') && bool_decide (e = EOF) in
  exists d' sv,
  snapshot_ServeHTTP cid' (node_raft Step removed) tmp d t req = Ret (d', sv) /\ sv_tr sv = t /\
  sv_fx sv = (if ok then [Process m] else []) /\
  d' = (if cid =? cid'
        then fst (Snap.SaveDBFrom tmp d (codec.Reader b e) (raftpb.md_Index (raftpb.Metadata s)))
        else d) /\
  (checkPostResponse (sv_resp sv) = None <-> ok = true /\ Step m = None) /\
  checkPostResponse (sv_resp sv) <> Some errMemberRemoved.
Proof.
  intros Hc Hc' Hm Es Hl. unfold snapshot_ServeHTTP.
  cbn [rq_Path rq_Method rq_Header rq_Body post_request].
  rewrite request_headers_checked, ret_bind by done. cbn [String.eqb Ascii.eqb Bool.eqb negb].
  destruct (cid =? cid'); cbn [andb].
  2: { do 2 eexists. split; [reflexivity|]. do 3 (split; [done|]). split; [|done].
       split; [discriminate|by intros [? _]]. }
  rewrite no_remote by reflexivity. rewrite ret_bind.
  assert (snapshotLimitByte < 2 ^ 63) as Hb by (unfold snapshotLimitByte; lia).
  destruct (codec.decodeLimit_consumes snapshotLimitByte m (conj Hl Hb)) as [-> _].
  rewrite ret_bind, Hm, Es. cbn [negb]. unfold Snap.SaveDBFrom. cbn [codec.r_end codec.r_bytes].
  destruct (bool_decide_reflect (e = EOF)) as [He|He]; cbn [negb].
  - cbn [node_raft r_Process].
    destruct (dir_get _ (Snap.dbFilePath _)), (Step m); do 2 eexists;
      (split; [reflexivity|]); do 3 (split; [done|]); (split; [split|done]);
      try done; try discriminate; by intros [_ ?].
  - do 2 eexists. split; [reflexivity|]. do 3 (split; [done|]). split; [|done].
    split; [discriminate|by intros [? _]].
Qed.

(** What the sender of a snapshot makes of the answer. *)
Lemma snap_answered l listening now rt cerr merged p body resp u x :
  dialable (peer.p_picker p) -> pick (peer.p_picker p) = Ret u -> url_Parse x = inr u ->
  peer.snap_stopped p = false -> peer.closeC merged = [] -> peer.l_URLs l = None ->
  peer.createSnapBody merged = Ret body ->
  rt (post_request RaftSnapshotPrefix body "application/octet-stream" (peer.l_ID l)
        (peer.l_ClusterID l)) = inr resp ->
  checkPostResponse resp <> Some errMemberRemoved ->
  exists q merged', peer.snap_send l listening now rt cerr merged p = Ret (q, merged') /\
    let finished := bool_decide (checkPostResponse resp = None) in
    let to := raftpb.m_To (peer.sm_Message merged) in
    peer.closeC merged' = [finished && bool_decide (cerr = None)] /\
    peer.p_fx q = peer.p_fx p ++
      if finished then [ReportSnapshot to true]
      else [ReportUnreachable to; ReportSnapshot to false].
Proof.
  intros [Hk _] Eu Ex Hst Hcl Hus Hb Ert Hn. unfold peer.snap_send.
  rewrite Hb, ret_bind, Eu, ret_bind, Hus, (createPostRequest_ok u x), ret_bind by done.
  unfold peer.snap_post. rewrite Hst, Ert. unfold peer.CloseWithError. rewrite Hcl, ret_bind.
  destruct (checkPostResponse resp) as [err|].
  - destruct (unreachable_ok _ u Hk) as (k & Ek & _). rewrite Ek, ret_bind.
    rewrite (decide_False (P := err = errMemberRemoved)) by congruence.
    do 2 eexists. split; [reflexivity|]. by destruct cerr.
  - do 2 eexists. split; [reflexivity|]. by destruct cerr.
Qed.


End Both.

(** ** Two nodes *)

Section Samples.
Import MemUrl MemSemver.

(** Node 2 of cluster 7 has node 3 as a peer, and the other way round. *)
Definition url_of (host : string) : URL := MemUrl.Url host "".
Definition node2 : peer.local_info := peer.MkLocal 2 7 None.
Definition to_node3 : peer.peer := peer.startPeer [url_of "b:7002"] 3.
Definition node3_transport : rafthttp.Transport :=
  rafthttp.MkTransport true (Some ∅) (Some {[ 2 := peer.startPeer [url_of "a:7001"] 2 ]}).

Lemma to_node3_dialable : dialable (peer.p_picker to_node3).
Proof.
  split; [unfold picker_ok; simpl; lia|]. repeat constructor. by exists "http://b:7002".
Qed.

Definition steps (m : raftpb.Message) : option error := None.
Definition nobody (i : Z) : bool := false.

Lemma post_processed_once_witness : let m := codec.append_to 5 4 10 [] 9 in exists req sv q,
  Handler (rq_Path req) = ToPipeline /\
  pipeline_ServeHTTP 7 (node_raft steps nobody) node3_transport req = Ret sv /\
  sv_fx sv = [Process m] /\ peer.p_fx q = [Posted m].
Proof.
  intros m.
  destruct (post_processed_once node2 (peer.send to_node3 m) m [] 7 steps nobody node3_transport
    false 100) as (p1 & req & sv & p2 & _ & E1 & E2 & _ & _ & _ & _ & _ & E3 & E4).
  - exact to_node3_dialable.
  - reflexivity.
  - apply Nat.ltb_lt. reflexivity.
  - reflexivity.
  - done.
  - done.
  - exists req, sv, p2. split; [exact E1|]. split; [exact E2|]. by split.
Defined.

Lemma dial_outcomes_witness : exists u req sv,
  pick (peer.p_picker to_node3) = Ret u /\
  dial_request u streamTypeMsgAppV2 2 7 3 None = inr req /\
  stream_ServeHTTP 100 (codec.Writer [] 0 None) 3 7 (node_raft steps nobody) node3_transport req
    = Ret sv /\
  option_map (fun p => working (peer.writer_of streamTypeMsgAppV2 p)) (rafthttp.Get (sv_tr sv) 2)
    = Some true.
Proof.
  destruct (dial_outcomes node2 to_node3 streamTypeMsgAppV2 false 100 (codec.Writer [] 0 None)
    (codec.Reader [] EOF) 3 7 steps nobody node3_transport)
    as (u & req & sv & E1 & E2 & _ & E3 & _ & E4); try done; try exact to_node3_dialable.
  exists u, req, sv. split; [exact E1|]. split; [exact E2|]. split; [exact E3|].
  destruct (E4 (fun _ => inr (sv_resp sv, codec.Reader [] EOF)) eq_refl)
    as (q & _ & _ & _ & _ & _ & _ & to & Et & Ea & _).
  change (peer.l_ID node2) with 2 in Ea. rewrite Ea.
  assert (Some to = Some (peer.startPeer [url_of "a:7001"] 2)) as [= ->] by (by rewrite <- Et).
  reflexivity.
Defined.

(** A database of five bytes, read in two chunks. *)
Definition some_snapshot : raftpb.Snapshot :=
  raftpb.MkSnapshot [] (raftpb.MkMeta (raftpb.MkConfState [2; 3] []) 9 4).

Definition some_snap_message : peer.snap_Message :=
  peer.NewMessage
    (raftpb.MkMessage raftpb.MsgSnap 3 2 4 0 0 [] 0 0 (Some some_snapshot) false 0 [])
    [[Byte.x61; Byte.x62; Byte.x63]; [Byte.x64; Byte.x65]] 5.


End Samples.
End handlers.
