(* ===== verification/Storage.v ===== *)
(** * wal.go and storage.go: omashu's raft storage

    [Wal] keeps the hard state and the log in etcd's write-ahead log and the
    snapshots in etcd's snapshot files; [Storage] keeps them in raft's memory
    storage as well and serves raft from there.

    A directory is the list of its files; making the directories and the locks
    of the methods are not modelled. *)

From S2P Require Import Prelude Errors Utils RaftApi WalRecord WalIo WalFrame WalNames EtcdWal.
From S2P Require Import Snapshotter.
From Stdlib Require Import Strings.Byte.

(** The files under the base directory: [wal/] and [snap/]. *)
Record disk := Disk {
  dk_wal : dir;
  dk_snap : dir
}.

(** ** wal.go *)

Module Wal.
Section Wal.
Context `{L : RaftLib} `{C : RaftCodec}.
Variable SegmentSizeBytes : nat.

(** While a log is open the files of the directory are the log's. *)
Record Wal := MkWal {
  waldir : dir;
  snapdir : dir;
  wal : option WAL;
  existingWAL : bool
}.

Definition files (w : Wal) : dir :=
  match wal w with Some x => w_dir x | None => waldir w end.

Definition on_disk (w : Wal) : disk := Disk (files w) (snapdir w).

Definition with_wal (w : Wal) (x : WAL) : Wal :=
  MkWal (waldir w) (snapdir w) (Some x) (existingWAL w).
Definition with_snapdir (w : Wal) (d : dir) : Wal :=
  MkWal (waldir w) d (wal w) (existingWAL w).

(** [newWal]: temporary snapshot files are removed. *)
Definition newWal (d : disk) : Wal :=
  MkWal (dk_wal d) (List.filter (fun f => negb (has_prefix "tmp" (fst f))) (dk_snap d)) None
    (EtcdWal.Exist (dk_wal d)).

(** A fresh directory has no log, and recovery starts from the empty snapshot;
    when no snapshot file matches the log there is none. *)
Definition loadLatestSnapshot (w : Wal) : outcome (Wal * result (option raftpb.Snapshot)) :=
  if negb (EtcdWal.Exist (files w)) then Ret (w, inr (Some raftpb.emptySnapshot))
  else
    r ← ValidSnapshotEntries (files w);
    match r with
    | inl e => Ret (w, inl e)
    | inr walSnaps =>
        let '(d, r) := Snap.LoadNewestAvailable (snapdir w) walSnaps in
        let w1 := with_snapdir w d in
        match r with
        | inr s => Ret (w1, inr (Some s))
        | inl e => if decide (e = ErrNoSnapshot) then Ret (w1, inr None) else Ret (w1, inl e)
        end
    end.

(** The position in the log of a snapshot, for opening: no configuration. *)
Definition walsnap (snapshot : option raftpb.Snapshot) : walpb.Snapshot :=
  match snapshot with
  | Some s => walpb.MkSnapshot (raftpb.md_Index (raftpb.Metadata s))
                (raftpb.md_Term (raftpb.Metadata s)) None []
  | None => walpb.empty_Snapshot
  end.

(** [openWAL]: the files afterwards, and the log. *)
Definition openWAL (w : Wal) (snapshot : option raftpb.Snapshot)
    : outcome (dir * result WAL) :=
  let open d := r ← EtcdWal.Open d (walsnap snapshot); Ret (d, r) in
  if negb (EtcdWal.Exist (files w)) then
    '(d, r) ← EtcdWal.Create SegmentSizeBytes (files w) None;
    match r with
    | inl e => Ret (d, inl e)
    | inr x => '(x', _) ← EtcdWal.Close x; open (w_dir x')
    end
  else open (files w).

Definition opening : Type := option raftpb.Snapshot * raftpb.HardState * list raftpb.Entry.

Definition Open (w : Wal) : outcome (Wal * result opening) :=
  '(w1, r) ← loadLatestSnapshot w;
  match r with
  | inl e => Ret (w1, inl e)
  | inr snapshot =>
      '(d, r) ← openWAL w1 snapshot;
      match r with
      | inl e => Ret (MkWal d (snapdir w1) None (existingWAL w1), inl e)
      | inr x =>
          '(x', (_, hardState, entries, err)) ← ReadAll x;
          let w2 := with_wal w1 x' in
          match err with
          | Some e => Ret (w2, inl e)
          | None => Ret (w2, inr (snapshot, hardState, entries))
          end
      end
  end.

Definition SaveState (w : Wal) (hardState : raftpb.HardState) (entries : list raftpb.Entry)
    : outcome (Wal * option error) :=
  match wal w with
  | None => nil_deref
  | Some x => x' ← Save SegmentSizeBytes x hardState entries; Ret (with_wal w x', None)
  end.

(** The record of a snapshot in the log. *)
Definition wal_record (s : raftpb.Snapshot) : walpb.Snapshot :=
  walpb.MkSnapshot (raftpb.md_Index (raftpb.Metadata s)) (raftpb.md_Term (raftpb.Metadata s))
    (Some (raftpb.md_ConfState (raftpb.Metadata s))) [].

(** [SaveSnap]: the file first, then the record. *)
Definition SaveSnap (w : Wal) (s : raftpb.Snapshot) : outcome (Wal * option error) :=
  let w1 := with_snapdir w (Snap.SaveSnap (snapdir w) s) in
  match wal w1 with
  | None => nil_deref
  | Some x => '(x', err) ← SaveSnapshot x (wal_record s); Ret (with_wal w1 x', err)
  end.

Definition Release (w : Wal) (index : Z) : outcome (Wal * option error) :=
  match wal w with
  | None => nil_deref
  | Some x => '(x', err) ← ReleaseLockTo x index; Ret (with_wal w x', err)
  end.

Definition Sync (w : Wal) : outcome (Wal * option error) :=
  match wal w with
  | None => nil_deref
  | Some x => x' ← sync x; Ret (with_wal w x', None)
  end.

Definition ExistingWAL (w : Wal) : bool := existingWAL w.

Definition Exists (w : Wal) : Wal * (bool * bool * option error) :=
  let walExists := EtcdWal.Exist (files w) in
  let '(d, r) := Snap.Load (snapdir w) in
  (with_snapdir w d,
   match r with
   | inr _ => (walExists, true, None)
   | inl e => if decide (e = ErrNoSnapshot) then (walExists, false, None)
              else (walExists, false, Some e)
   end).

Definition Close (w : Wal) : outcome (Wal * option error) :=
  match wal w with
  | None => Ret (w, None)
  | Some x => '(x', err) ← EtcdWal.Close x; Ret (with_wal w x', err)
  end.

End Wal.
End Wal.

(** ** storage.go *)

Module Storage.
Section Storage.
Context `{L : RaftLib} `{C : RaftCodec} `{S : MemoryStorageLib}.
Variable SegmentSizeBytes : nat.

(** The memory storage is nil until [Initialize]. *)
Record Storage := MkStorage {
  wal : Wal.Wal;
  memStorage : option MStorage
}.

Definition newStorage (d : disk) : Storage := MkStorage (Wal.newWal d) None.

(** Use of the memory storage. *)
Definition mem {A} (s : Storage) (f : MStorage -> outcome A) : outcome A :=
  match memStorage s with Some m => f m | None => nil_deref end.

(** The three steps of [Initialize]; a failing one closes the log. *)
Definition fail_init (w : Wal.Wal) (m : MStorage) (e : error)
    : outcome (Storage * option error) :=
  '(w', _) ← Wal.Close w; Ret (MkStorage w' (Some m), Some e).

Definition init_snapshot (m : MStorage) (snap : option raftpb.Snapshot) : MStorage * option error :=
  match snap with
  | Some s => if IsEmptySnap s then (m, None) else MS_ApplySnapshot m s
  | None => (m, None)
  end.

Definition init_hard (m : MStorage) (hs : raftpb.HardState) : MStorage * option error :=
  if IsEmptyHardState hs then (m, None) else MS_SetHardState m hs.

Definition init_entries (m : MStorage) (entries : list raftpb.Entry)
    : outcome (MStorage * option error) :=
  if (0 <? length entries)%nat then MS_Append m entries else Ret (m, None).

Definition Initialize (s : Storage) : outcome (Storage * option error) :=
  let m0 := NewMemoryStorage in
  '(w, r) ← Wal.Open SegmentSizeBytes (wal s);
  match r with
  | inl e => Ret (MkStorage w (Some m0), Some e)
  | inr (latestSnap, hardState, entries) =>
      let '(m1, err) := init_snapshot m0 latestSnap in
      match err with
      | Some e => fail_init w m1 e
      | None =>
          let '(m2, err) := init_hard m1 hardState in
          match err with
          | Some e => fail_init w m2 e
          | None =>
              '(m3, err) ← init_entries m2 entries;
              match err with
              | Some e => fail_init w m3 e
              | None => Ret (MkStorage w (Some m3), None)
              end
          end
      end
  end.

(** [saveStateToWal]. *)
Definition saveStateToWal (s : Storage) (rd : Ready) : outcome (Storage * option error) :=
  let st w := MkStorage w (memStorage s) in
  '(w1, err) ← (if IsEmptySnap (rd_Snapshot rd) then Ret (wal s, None)
                else Wal.SaveSnap (wal s) (rd_Snapshot rd));
  match err with
  | Some e => Ret (st w1, Some e)
  | None =>
      '(w2, err) ← Wal.SaveState SegmentSizeBytes w1 (rd_HardState rd) (rd_Entries rd);
      match err with
      | Some e => Ret (st w2, Some e)
      | None =>
          '(w3, err) ← Wal.Sync w2;
          match err with
          | Some e => Ret (st w3, Some e)
          | None =>
              '(w4, err) ← Wal.Release w3 (raftpb.md_Index (raftpb.Metadata (rd_Snapshot rd)));
              Ret (st w4, err)
          end
      end
  end.

(** An error that is not one here. *)
Definition swallow (benign : error) (err : option error) : option error :=
  match err with
  | Some e => if decide (e = benign) then None else Some e
  | None => None
  end.

(** What [SaveState] does to the memory storage: an old snapshot is no error. *)
Definition save_mem (m : MStorage) (rd : Ready) : outcome (MStorage * option error) :=
  let '(m1, err) := if IsEmptySnap (rd_Snapshot rd) then (m, None)
                    else MS_ApplySnapshot m (rd_Snapshot rd) in
  match swallow ErrSnapOutOfDate err with
  | Some e => Ret (m1, Some e)
  | None =>
      let '(m2, err) := init_hard m1 (rd_HardState rd) in
      match err with
      | Some e => Ret (m2, Some e)
      | None => MS_Append m2 (rd_Entries rd)
      end
  end.

Definition SaveState (s : Storage) (rd : Ready) : outcome (Storage * option error) :=
  '(s1, err) ← saveStateToWal s rd;
  match err with
  | Some e => Ret (s1, Some e)
  | None => mem s1 (fun m =>
      '(m', err) ← save_mem m rd; Ret (MkStorage (wal s1) (Some m'), err))
  end.

Definition Existing (s : Storage) : bool := Wal.ExistingWAL (wal s).

Definition LastSnapshotIndex (s : Storage) : outcome Z :=
  mem s (fun m => Ret (raftpb.md_Index (raftpb.Metadata (MS_Snapshot m)))).

(** [compact]: being compacted already is no error. *)
Definition compact_mem (m : MStorage) (index : Z) : outcome (MStorage * option error) :=
  '(m', err) ← MS_Compact m index; Ret (m', swallow ErrCompacted err).

Definition Compact (s : Storage) (index : Z) : outcome (Storage * option error) :=
  mem s (fun m => '(m', err) ← compact_mem m index; Ret (MkStorage (wal s) (Some m'), err)).

(** The end of [CreateSnapshot]: sync, release the log, compact the memory. *)
Definition sync_release (w : Wal.Wal) (m : MStorage) (index : Z)
    : outcome (Storage * option error) :=
  '(w2, err) ← Wal.Sync w;
  match err with
  | Some e => Ret (MkStorage w2 (Some m), Some e)
  | None =>
      '(w3, err) ← Wal.Release w2 index;
      match err with
      | Some e => Ret (MkStorage w3 (Some m), Some e)
      | None =>
          '(m', err) ← compact_mem m index;
          Ret (MkStorage w3 (Some m'), err)
      end
  end.

Definition CreateSnapshot (s : Storage) (index : Z) (confState : raftpb.ConfState) (data : bytes)
    : outcome (Storage * option error) :=
  mem s (fun m =>
    match MS_Term m index with
    | inl _ => Ret (s, Some (OtherError "failed to get term for index"))
    | inr term =>
        let snapshot := raftpb.MkSnapshot data (raftpb.MkMeta confState index term) in
        '(w1, err) ← Wal.SaveSnap (wal s) snapshot;
        match err with
        | Some e => Ret (MkStorage w1 (Some m), Some e)
        | None =>
            let '(m1, err) := MS_ApplySnapshot m snapshot in
            match swallow ErrSnapOutOfDate err with
            | Some _ => Ret (MkStorage w1 (Some m1),
                             Some (OtherError "failed to apply snapshot to memory storage"))
            | None => sync_release w1 m1 (raftpb.md_Index (raftpb.Metadata snapshot))
            end
        end
    end).

Definition Close (s : Storage) : outcome (Storage * option error) :=
  '(w, err) ← Wal.Close (wal s); Ret (MkStorage w (memStorage s), err).

(** *** What raft reads *)

Definition InitialState (s : Storage) : outcome (raftpb.HardState * raftpb.ConfState) :=
  mem s (fun m => Ret (MS_InitialState m)).
Definition Entries (s : Storage) (lo hi maxSize : Z) : outcome (result (list raftpb.Entry)) :=
  mem s (fun m => Ret (MS_Entries m lo hi maxSize)).
Definition Term (s : Storage) (i : Z) : outcome (result Z) := mem s (fun m => Ret (MS_Term m i)).
Definition LastIndex (s : Storage) : outcome Z := mem s (fun m => Ret (MS_LastIndex m)).
Definition FirstIndex (s : Storage) : outcome Z := mem s (fun m => Ret (MS_FirstIndex m)).
Definition Snapshot (s : Storage) : outcome raftpb.Snapshot := mem s (fun m => Ret (MS_Snapshot m)).

End Storage.
End Storage.
