(* ===== verification/StorageLog.v ===== *)
(** * What omashu's raft storage recovers

    A node's storage is initialised on a fresh directory, saves hard states,
    entries and snapshots, and is closed.  The theorem shows what the next
    [Initialize] finds on the disk: the newest snapshot that is committed, the
    last hard state and the entries after the snapshot. *)

From S2P Require Import Prelude Errors Utils RaftApi WalRecord WalIo WalFrame WalNames EtcdWal.
From S2P Require Import WalRep WalRead WalLog Snapshotter Storage MemRaftCodec.
From Stdlib Require Import Strings.Byte.
Import WalLog.

Module StorageLog.

Abbreviation index s := (raftpb.md_Index (raftpb.Metadata s)).
Abbreviation term s := (raftpb.md_Term (raftpb.Metadata s)).

Section Recovery.
Context `{HC : RaftCodecLaws} `{HL : RaftLaws} `{HS : MemoryStorageLaws}.
Variable n : nat.

(** ** The calls on the log *)

Inductive wop : Type :=
  | WSave (st : raftpb.HardState) (ents : list raftpb.Entry)
  | WSnap (s : raftpb.Snapshot)
  | WSync
  | WRelease (i : Z).

Definition wstep (w : Wal.Wal) (op : wop) : outcome (Wal.Wal * option error) :=
  match op with
  | WSave st ents => Wal.SaveState n w st ents
  | WSnap s => Wal.SaveSnap w s
  | WSync => Wal.Sync w
  | WRelease i => Wal.Release w i
  end.

(** What they write: records of the log and snapshot files. *)
Definition wal_ops (ops : list wop) : list wal_op :=
  omap (fun op => match op with
                  | WSave st ents => Some (OpSave st ents)
                  | WSnap s => Some (OpSnap (Wal.wal_record s))
                  | _ => None
                  end) ops.

Definition snaps_of (ops : list wop) : list raftpb.Snapshot :=
  omap (fun op => match op with WSnap s => Some s | _ => None end) ops.

Definition wop_ok (op : wop) : Prop :=
  match op with
  | WSave st ents => op_ok (OpSave st ents)
  | WSnap s => op_ok (OpSnap (Wal.wal_record s)) /\ Snap.snap_ok s
  | _ => True
  end.

(** The log is open and represents the records; the snapshot files are those
    of the snapshots saved. *)
Definition winv (w : Wal.Wal) (ops : list wop) : Prop :=
  (exists x, Wal.wal w = Some x /\ represents x (wal_ops ops) None) /\
  Wal.snapdir w = Snap.saved (snaps_of ops) [].

(** ** Each call keeps the invariant *)

Lemma represents_kept x x' ops m : represents x ops m ->
  (forall older idx tl, rep x older idx tl -> rep x' older idx tl) ->
  w_enti x' = w_enti x -> w_state x' = w_state x -> w_metadata x' = w_metadata x ->
  represents x' ops m.
Proof.
  intros (lg & (Hr & E1 & E2 & E3 & H1 & H2) & Hi & Em) Hrep Ee Es Emm.
  exists lg. split; [|done]. unfold rep_log. rewrite Ee, Es, Emm.
  refine (conj (Hrep _ _ _ Hr) (conj _ (conj _ (conj _ (conj _ _))))); done.
Qed.

Lemma sync_represents x ops m : represents x ops m ->
  exists x', sync x = Ret x' /\ represents x' ops m.
Proof.
  intros H. pose proof H as (lg & (Hr & _) & _).
  destruct (sync_step x _ _ _ Hr) as (x' & E & Hr' & [Hm _] & Hs & He).
  exists x'. split; [done|]. eapply represents_kept; [exact H| |done..].
  intros older idx tl Hr2. destruct (sync_step x _ _ _ Hr2) as (x2 & E2 & H2 & _). congruence.
Qed.

(** The locks are those of the last segments. *)
Lemma first_at_some names idx : forall i, Forall (fun s => exists p, parseWALName s = inr p) names ->
  exists r, first_at (map Some names) idx i = Ret (inr r) /\
    match r with Some j => (i <= j < i + length names)%nat | None => True end.
Proof.
  induction names as [|s names IH]; intros i H; cbn [map first_at]; [by exists None|].
  apply Forall_cons in H as [[[a b] E] H]. rewrite E. destruct (idx <=? b).
  - exists (Some i). split; [done|]. simpl. lia.
  - destruct (IH (S i) H) as (r & -> & Hr). exists r. split; [done|]. simpl.
    destruct r; [lia|done].
Qed.

Lemma release_rep x older idx tl i : rep x older idx tl ->
  exists x', ReleaseLockTo x i = Ret (x', None) /\ rep x' older idx tl /\
    w_enti x' = w_enti x /\ w_state x' = w_state x /\ w_metadata x' = w_metadata x.
Proof.
  intros (f & e & z & k & H). destruct (rep_locks _ _ _ _ _ _ _ _ H) as [Hk El].
  set (names := drop k (seg_names older ++ [tail_name older idx])) in *.
  assert (length names = S (length older - k)) as Hlen.
  { unfold names. rewrite length_drop, length_app, length_seg_names. simpl. lia. }
  assert (Forall (fun s => exists p, parseWALName s = inr p) names) as Hp.
  { apply Forall_drop. pose proof (rep_count _ _ _ _ _ _ _ _ H).
    destruct (rep_idx _ _ _ _ _ _ _ _ H) as [Hi1 Hi2].
    rewrite <- (seg_names_snoc older idx tl). unfold seg_names, names_of.
    apply Forall_map. eapply Forall_impl.
    { apply (pairs_u64 0 (older ++ [(idx, tl)])); [lia|rewrite length_app; simpl; lia|].
      apply Forall_app. split; [done|]. by constructor. }
    intros [s i0] [H1 H2]. simpl in *. eexists. by apply parse_walName. }
  unfold ReleaseLockTo. rewrite El. destruct names as [|a ns] eqn:En; [done|].
  rewrite <- En in *. destruct (first_at_some names i 0 Hp) as (r & Er & Hr).
  replace (map Some names) with (Some a :: map Some ns) by (by rewrite En).
  cbv iota. replace (Some a :: map Some ns) with (map Some names) by (by rewrite En).
  rewrite Er. cbn [mbind outcome_bind].
  set (sm := match r with Some j => _ | None => _ end).
  assert (sm <= Z.of_nat (length older - k)) as Hsm.
  { unfold sm. destruct r as [j|]; [|rewrite length_map]; lia. }
  destruct (Z.leb_spec sm 0).
  { exists x. split; [done|]. split; [by exists f, e, z, k|done]. }
  eexists. split; [reflexivity|]. split; [|done].
  exists f, e, z, (k + Z.to_nat sm)%nat. destruct H. constructor; try done.
  split; [lia|]. simpl. rewrite skipn_map. f_equal. unfold names. by rewrite drop_drop.
Qed.

Lemma release_represents x ops m i : represents x ops m ->
  exists x', ReleaseLockTo x i = Ret (x', None) /\ represents x' ops m.
Proof.
  intros H. pose proof H as (lg & (Hr & _) & _).
  destruct (release_rep x _ _ _ i Hr) as (x' & E & Hr' & He & Hs & Hm).
  exists x'. split; [done|]. eapply represents_kept; [exact H| |done..].
  intros older idx tl Hr2. destruct (release_rep x _ _ _ i Hr2) as (x2 & E2 & H2 & _). congruence.
Qed.

Lemma wal_ops_app a b : wal_ops (a ++ b) = wal_ops a ++ wal_ops b.
Proof. apply omap_app. Qed.

Lemma snaps_of_app a b : snaps_of (a ++ b) = snaps_of a ++ snaps_of b.
Proof. apply omap_app. Qed.

Lemma saved_app a b d : Snap.saved (a ++ b) d = Snap.saved b (Snap.saved a d).
Proof. apply fold_left_app. Qed.

(** The conditions under which the log can be written. *)
Definition writable (i : Z) (ops : list wop) : Prop :=
  Forall wop_ok ops /\ valid i 0 0 (hist_recs (wal_ops ops)) /\
  Z.of_nat (length (wal_ops ops)) + 2 < two64.

Lemma writable_app i a b : writable i (a ++ b) -> writable i a.
Proof.
  intros (H1 & H2 & H3). apply Forall_app in H1 as [H1 _]. rewrite wal_ops_app in H2, H3.
  unfold hist_recs in H2. rewrite map_app, concat_app, app_comm_cons in H2.
  apply valid_app in H2 as [H2 _]. rewrite length_app in H3. split; [done|]. split; [done|lia].
Qed.

Lemma wstep_inv w ops op i : Z.of_nat n mod 8 = 0 -> winv w ops -> writable i (ops ++ [op]) ->
  exists w', wstep w op = Ret (w', None) /\ winv w' (ops ++ [op]).
Proof.
  intros Hn ((x & Ex & Hx) & Ed) (Hok & Hv & Hc).
  apply Forall_app in Hok as [_ Hok]. apply Forall_cons in Hok as [Hok _].
  unfold winv. rewrite wal_ops_app, snaps_of_app in *.
  destruct op as [st ents|sn| |j]; cbn [wstep wop_ok wal_ops snaps_of omap list_omap] in *;
    unfold Wal.SaveState, Wal.SaveSnap, Wal.Sync, Wal.Release, Wal.with_snapdir; cbn [Wal.wal];
    rewrite Ex; rewrite ?app_nil_r in *.
  - destruct (run_op_rep n x (wal_ops ops) None (OpSave st ents) i Hx Hok Hv Hn) as (x' & E & Hx').
    { rewrite length_app in Hc. simpl in Hc. lia. }
    simpl in E. rewrite E. cbn [mbind outcome_bind]. eexists. split; [reflexivity|].
    split; [by eexists|done].
  - destruct Hok as [Hok Hsn].
    destruct (run_op_rep n x (wal_ops ops) None (OpSnap (Wal.wal_record sn)) i Hx Hok Hv Hn)
      as (x' & E & Hx').
    { rewrite length_app in Hc. simpl in Hc. lia. }
    pose proof Hx as (lg & Hlg & _).
    destruct (SaveSnapshot_log x lg (Wal.wal_record sn) Hlg) as (x2 & E2 & _); [apply Hok..|].
    simpl in E. rewrite E2 in *. injection E as ->. cbn [mbind outcome_bind].
    eexists. split; [reflexivity|]. split; [by eexists|].
    simpl. by rewrite saved_app, <- Ed.
  - destruct (sync_represents x _ _ Hx) as (x' & -> & Hx'). cbn [mbind outcome_bind].
    eexists. split; [reflexivity|]. split; [by eexists|done].
  - destruct (release_represents x _ _ j Hx) as (x' & -> & Hx'). cbn [mbind outcome_bind].
    eexists. split; [reflexivity|]. split; [by eexists|done].
Qed.

Lemma wrun_inv ops2 : forall w ops1 i, Z.of_nat n mod 8 = 0 -> winv w ops1 ->
  writable i (ops1 ++ ops2) ->
  exists w', run wstep w ops2 = Ret (w', replicate (length ops2) None) /\ winv w' (ops1 ++ ops2).
Proof.
  induction ops2 as [|op ops2 IH]; intros w ops1 i Hn Hw Hok; cbn [run].
  - rewrite app_nil_r. eauto.
  - rewrite cons_middle, app_assoc in Hok |- *.
    destruct (wstep_inv w ops1 op i Hn Hw) as (w1 & -> & H1); [by eapply writable_app|].
    cbn [mbind outcome_bind]. destruct (IH w1 _ i Hn H1 Hok) as (w2 & -> & H2).
    cbn [mbind outcome_bind]. eauto.
Qed.

(** ** A fresh directory *)

Lemma fresh_read : gather (lread walpb.empty_Snapshot) fresh_gather (suffix (created None) 0)
  = inr (MkGathered [] raftpb.emptyState None true 0).
Proof. done. Qed.

Lemma open_fresh : Z.of_nat n mod 8 = 0 -> lrec_ok (LMeta None) ->
  lrec_ok (LState raftpb.emptyState) -> lrec_ok (LSnap walpb.empty_Snapshot) ->
  exists w, Wal.Open n (Wal.newWal (Disk [] []))
      = Ret (w, inr (Some raftpb.emptySnapshot, raftpb.emptyState, [])) /\ winv w [].
Proof.
  intros Hn Hm Hst Hsn. set (w0 := Wal.newWal (Disk [] [])).
  assert (Wal.files w0 = []) as Ef by done. assert (Wal.snapdir w0 = []) as Esd by done.
  assert (EtcdWal.Exist [] = false) as Ee by done. clearbody w0.
  assert (Wal.loadLatestSnapshot w0 = Ret (w0, inr (Some raftpb.emptySnapshot))) as El.
  { unfold Wal.loadLatestSnapshot. by rewrite Ef, Ee. }
  assert (Wal.walsnap (Some raftpb.emptySnapshot) = walpb.empty_Snapshot) as Es by done.
  unfold Wal.Open. rewrite El. rewrite ret_bind. unfold Wal.openWAL.
  rewrite Ef, Ee, Es. cbn [negb].
  destruct (Create_rep n [] None) as (x & -> & Hr); try done. rewrite ret_bind.
  destruct (Close_disk x _ Hr) as (x1 & z & -> & Ed & Hz). rewrite ret_bind. rewrite Ed.
  pose proof (rep_names_ok _ _ Hr) as Hno. pose proof (rep_recs_ok _ _ Hr) as Hro.
  pose proof (inv_headed _ _ (inv_created None)) as Hhd.
  destruct (Open_disk (created None) (replicate z x00) walpb.empty_Snapshot Hno)
    as (k & sg & Ek & _ & _ & Eo).
  { by exists 0%nat, (0, [LCrc; LMeta None; LSnap walpb.empty_Snapshot]). }
  cbv zeta beta. unfold WalRead.disk. rewrite Eo. repeat (rewrite ret_bind; cbv beta iota).
  assert (k = 0%nat) as ->.
  { apply lookup_lt_Some in Ek. simpl in Ek. lia. }
  destruct (ReadAll_disk (created None) z walpb.empty_Snapshot 0 _ Hno Hro Hhd Hz
    ltac:(simpl; lia) fresh_read) as (x2 & -> & Hr2 & He & Hs & Hmm).
  rewrite ret_bind. cbn [g_metadata g_state g_ents].
  eexists. split; [reflexivity|]. split; [|exact Esd]. eexists. split; [reflexivity|].
  exists (created None). split; [|split; [apply inv_created|done]].
  refine (conj Hr2 (conj He (conj Hs (conj Hmm (conj Hm Hst))))).
Qed.

(** ** Memory *)

(** What the memory storage holds after [Initialize]. *)
Definition position (snap : option raftpb.Snapshot) : Z :=
  match snap with Some s => raftpb.md_Index (raftpb.Metadata s) | None => 0 end.

Definition loaded (m : MStorage) (snap : option raftpb.Snapshot) (hs : raftpb.HardState)
    (ents : list raftpb.Entry) : Prop :=
  MS_Snapshot m = (if position snap =? 0 then raftpb.emptySnapshot
                   else default raftpb.emptySnapshot snap) /\
  ms_offset m = position snap /\ ms_hard m = hs /\ ms_log m = ents.

Lemma init_snapshot_ok snap : 0 <= position snap ->
  exists m, Storage.init_snapshot NewMemoryStorage snap = (m, None) /\
    loaded m snap raftpb.emptyState [].
Proof.
  intros Hp. destruct new_storage as (E1 & _ & E3 & E4 & E5). unfold loaded.
  destruct snap as [s|]; simpl in *; [|exists NewMemoryStorage; by rewrite E1, E3, E4, E5].
  destruct (IsEmptySnap s) eqn:Ee.
  - exists NewMemoryStorage. apply IsEmptySnap_spec in Ee. rewrite Ee. by rewrite E1, E3, E4, E5.
  - assert (raftpb.md_Index (raftpb.Metadata s) <> 0) as Hne.
    { intros E. apply IsEmptySnap_spec in E. congruence. }
    destruct (apply_snapshot_new NewMemoryStorage s) as (m & -> & F1 & F2 & F3 & _ & F5).
    { rewrite E5. simpl. lia. }
    exists m. rewrite (proj2 (Z.eqb_neq _ _)) by done. rewrite F1, F2, F3, F5, E4. done.
Qed.

Lemma init_hard_ok m snap hs : loaded m snap raftpb.emptyState [] ->
  exists m', Storage.init_hard m hs = (m', None) /\ loaded m' snap hs [].
Proof.
  intros (H1 & H2 & H3 & H4). unfold Storage.init_hard.
  destruct (IsEmptyHardState hs) eqn:E.
  - apply IsEmptyHardState_spec in E as ->. by exists m.
  - destruct (set_hard_state m hs) as (m' & -> & F1 & F2 & F3 & F4 & F5). exists m'.
    split; [done|]. unfold loaded. rewrite F1, F2, F4, F5. done.
Qed.

Lemma init_entries_ok m snap hs ents : loaded m snap hs [] -> contiguous (position snap + 1) ents ->
  exists m', Storage.init_entries m ents = Ret (m', None) /\ loaded m' snap hs ents.
Proof.
  intros (H1 & H2 & H3 & H4) Hc. unfold Storage.init_entries.
  destruct ents as [|e ents]; simpl; [by exists m|].
  destruct (append_ok m (e :: ents)) as (m' & -> & F1 & F2 & _ & F4 & F5).
  - by rewrite H4.
  - rewrite last_index, H2, H4. simpl in *. lia.
  - eauto.
  - exists m'. split; [done|]. unfold loaded. rewrite F1, F2, F4, F5, H4. simpl.
    by rewrite take_nil.
Qed.

Lemma Initialize_ok s w snap hs ents :
  Wal.Open n (Storage.wal s) = Ret (w, inr (snap, hs, ents)) ->
  0 <= position snap -> contiguous (position snap + 1) ents ->
  exists m, Storage.Initialize n s = Ret (Storage.MkStorage w (Some m), None) /\
    loaded m snap hs ents.
Proof.
  intros Eo Hp Hc. unfold Storage.Initialize. rewrite Eo, ret_bind. cbv beta iota.
  destruct (init_snapshot_ok snap Hp) as (m1 & -> & H1). cbv beta iota.
  destruct (init_hard_ok m1 snap hs H1) as (m2 & -> & H2). cbv beta iota.
  destruct (init_entries_ok m2 snap hs ents H2 Hc) as (m3 & -> & H3). rewrite ret_bind.
  cbv beta iota. eauto.
Qed.

(** ** The disk after closing *)

(** The files that represent the calls. *)
Definition stored (d : disk) (ops : list wop) : Prop :=
  exists lg z, dk_wal d = WalRead.disk lg z /\ zeros_ok z /\ names_ok lg /\ recs_ok lg /\
    headed lg /\ inv lg (wal_ops ops) /\ ll_meta lg = None /\
    dk_snap d = Snap.saved (snaps_of ops) [].

Lemma close_stored w ops : winv w ops ->
  exists w', Wal.Close w = Ret (w', None) /\ stored (Wal.on_disk w') ops.
Proof.
  intros ((x & Ex & lg & Hr & Hi & Em) & Ed). unfold Wal.Close. rewrite Ex.
  destruct (Close_disk x lg Hr) as (x' & z & -> & Edir & Hz). cbn [mbind outcome_bind].
  eexists. split; [reflexivity|]. exists lg, z. simpl.
  pose proof (rep_names_ok _ _ Hr). pose proof (rep_recs_ok _ _ Hr).
  pose proof (inv_headed _ _ Hi). auto 10.
Qed.

(** Snapshot records of a list of records. *)
Definition snap_recs (ls : list lrec) : list walpb.Snapshot :=
  omap (fun l => match l with LSnap s => Some s | _ => None end) ls.

Lemma gather_lsnaps ls : forall acc st,
  gather lsnaps (acc, st) ls = inr (acc ++ snap_recs ls, state_of st ls).
Proof.
  induction ls as [|l ls IH]; intros acc st; [simpl; by rewrite app_nil_r|].
  destruct l; cbn [gather lsnaps fst snd snap_recs omap list_omap]; rewrite IH; try done.
  cbn. by rewrite <- app_assoc.
Qed.

Lemma snap_recs_es ls : snap_recs (es ls) = snap_recs ls.
Proof. induction ls as [|l ls IH]; [done|]. destruct l; simpl; congruence. Qed.

Lemma snap_recs_save st ents : snap_recs (op_recs (OpSave st ents)) = [].
Proof.
  cbn [op_recs]. induction ents as [|e ents IH]; [|exact IH].
  unfold state_recs. by destruct (IsEmptyHardState st).
Qed.

Lemma snap_recs_hist ops : snap_recs (hist_recs (wal_ops ops))
  = walpb.empty_Snapshot :: map Wal.wal_record (snaps_of ops).
Proof.
  unfold hist_recs. change (snap_recs (LSnap ?e :: ?l)) with (e :: snap_recs l). f_equal.
  induction ops as [|op ops IH]; [done|].
  destruct op as [st ents|s| |j].
  - change (wal_ops (WSave st ents :: ops)) with (OpSave st ents :: wal_ops ops).
    cbn [map concat]. unfold snap_recs at 1. rewrite omap_app.
    fold (snap_recs (op_recs (OpSave st ents))). rewrite snap_recs_save. exact IH.
  - change (wal_ops (WSnap s :: ops)) with (OpSnap (Wal.wal_record s) :: wal_ops ops).
    change (snaps_of (WSnap s :: ops)) with (s :: snaps_of ops).
    cbn [map concat op_recs app]. change (snap_recs (LSnap ?e :: ?l)) with (e :: snap_recs l).
    by rewrite IH.
  - exact IH.
  - exact IH.
Qed.

(** The snapshots that the last hard state has committed. *)
Definition committed (ops : list wop) (s : raftpb.Snapshot) : Prop :=
  raftpb.md_Index (raftpb.Metadata s)
    <= raftpb.hs_Commit (state_of raftpb.emptyState (hist_recs (wal_ops ops))).

(** Their records in the log. *)
Definition committed_recs (ops : list wop) : list walpb.Snapshot :=
  List.filter
    (fun s => walpb.Index s <=? raftpb.hs_Commit (state_of raftpb.emptyState (hist_recs (wal_ops ops))))
    (walpb.empty_Snapshot :: map Wal.wal_record (snaps_of ops)).

(** The snapshot records are found also in a log that ends in a torn record. *)
Lemma snaps_found lg ops t d r e : recs_ok lg -> inv lg (wal_ops ops) ->
  at_end t (frames_len (tail_recs lg)) (crc_after 0 (all_recs (lsegs lg))) false = (d, (r, Some e)) ->
  e = EOF \/ e = ErrUnexpectedEOF -> forall dr,
  readWALNames dr = inr (seg_names (lsegs lg)) ->
  omap (dir_get dr) (seg_names (lsegs lg)) = files_of lg t ->
  ValidSnapshotEntries dr = Ret (inr (committed_recs ops)).
Proof.
  intros Hro Hi Hend He dr Hnames Hfiles. pose proof (inv_headed _ _ Hi) as Hhd.
  assert ((0 < length (lsegs lg))%nat) as Hk.
  { unfold lsegs. rewrite length_app. simpl. lia. }
  unfold ValidSnapshotEntries. rewrite Hnames. unfold openWALFiles. rewrite drop_0, Hfiles.
  pose proof (read_suffix snaps_body lsnaps lg t 0 ([], raftpb.emptyState) snaps_acts
    Hro Hhd Hk) as H. cbv zeta in H. rewrite gather_lsnaps, drop_0 in H.
  rewrite (H _ _ _ Hend), ret_bind. cbv beta iota.
  assert (negb (bool_decide (e = EOF)) && negb (bool_decide (e = ErrUnexpectedEOF)) = false) as ->.
  { by destruct He as [-> | ->]. }
  rewrite (inv_state _ _ Hi 0 Hk), (inv_last _ _ Hi). do 2 f_equal. unfold committed_recs.
  f_equal. change (suffix lg 0) with (all_recs (lsegs lg)).
  rewrite <- snap_recs_es, (inv_es _ _ Hi), snap_recs_es. apply snap_recs_hist.
Qed.

Lemma names_exist d ns : readWALNames d = inr ns -> EtcdWal.Exist d = true.
Proof.
  unfold readWALNames, EtcdWal.Exist. destruct (checkWALNames (ReadDir d)) as [|m l] eqn:E; [done|].
  intros _. apply existsb_exists. exists m.
  assert (In m (checkWALNames (ReadDir d))) as Hm by (rewrite E; by left).
  apply filter_In in Hm as [Hin Hm]. split; [done|]. unfold is_wal_name, parseWALName in Hm.
  by destruct (has_suffix ".wal" m).
Qed.

Lemma stored_snaps d ops : stored d ops ->
  EtcdWal.Exist (dk_wal d) = true /\ ValidSnapshotEntries (dk_wal d) = Ret (inr (committed_recs ops)).
Proof.
  intros (lg & z & Ed & Hz & Hno & Hro & _ & Hi & _). rewrite Ed. unfold WalRead.disk.
  pose proof (read_names lg (replicate z x00) Hno) as Hnames.
  split; [by eapply names_exist|].
  eapply (snaps_found lg); [done|done|apply at_end_zeros; by apply zeros_end|by left|done|].
  apply (open_files _ _ 0); [by apply seg_names_NoDup|].
  by rewrite length_seg_names, length_files_of.
Qed.

(** ** Opening again *)

Lemma snap_index_pos s : Snap.snap_ok s -> 0 < index s.
Proof.
  intros (He & _ & Hi & _). destruct (decide (index s = 0)) as [E|E].
  - apply IsEmptySnap_spec in E. congruence.
  - unfold is_u64 in Hi. lia.
Qed.

Lemma in_wal_committed ops s : s ∈ snaps_of ops -> Snap.snap_ok s ->
  Snap.in_wal (committed_recs ops) s = true <-> committed ops s.
Proof.
  intros Hs Hok. pose proof (snap_index_pos s Hok) as Hpos.
  unfold Snap.in_wal. rewrite existsb_exists. split.
  - intros (w & Hw & E). apply in_rev in Hw. apply filter_In in Hw as [_ Hw].
    apply andb_true_iff in E as [_ E]. apply Z.eqb_eq in E. apply Z.leb_le in Hw.
    unfold committed. lia.
  - intros Hc. exists (Wal.wal_record s). split.
    + apply in_rev. rewrite rev_involutive. apply filter_In. split.
      * right. apply in_map. by apply list_elem_of_In.
      * apply Z.leb_le. exact Hc.
    + simpl. by rewrite !Z.eqb_refl.
Qed.

Lemma name_not_tmp s : has_prefix "tmp" (Snap.name_of s) = false.
Proof.
  unfold Snap.name_of, snapName. apply not_true_iff_false. unfold has_prefix.
  cbn [put_hex String.prefix].
  match goal with |- context [Ascii.ascii_dec ?a ?b] => destruct (Ascii.ascii_dec a b) as [E|]; [|done] end.
  rewrite digit_shift in E. set (z := term s / _) in E.
  pose proof (hex_value_char _ (Z.mod_pos_bound z 16 eq_refl)) as E'. by rewrite <- E in E'.
Qed.

Lemma saved_kept snaps : Forall Snap.snap_ok snaps ->
  List.filter (fun f => negb (has_prefix "tmp" (fst f))) (Snap.saved snaps [])
  = Snap.saved snaps [].
Proof.
  intros Hok. destruct (Snap.saved_read snaps Hok) as (_ & _ & Hn).
  assert (Forall (fun f => negb (has_prefix "tmp" (fst f)) = true) (Snap.saved snaps [])) as H.
  { apply Forall_forall. intros f Hf.
    destruct (proj1 (Hn (fst f))) as (s & _ & ->); [|by rewrite name_not_tmp].
    unfold ReadDir. by apply list_elem_of_fmap_2. }
  revert H. generalize (Snap.saved snaps []). intros d H.
  induction H as [|f d Hf _ IH]; [done|]. cbn [List.filter]. rewrite Hf, IH. done.
Qed.

(** The index of the newest committed snapshot, or zero. *)
Definition newest_index (i : Z) (ops : list wop) : Prop :=
  (forall s, s ∈ snaps_of ops -> committed ops s -> index s <= i) /\
  (i = 0 \/ exists s, s ∈ snaps_of ops /\ committed ops s /\ index s = i).

(** Terms do not go down along the log. *)
Definition terms_ordered (ops : list wop) : Prop :=
  forall s s', s ∈ snaps_of ops -> s' ∈ snaps_of ops -> index s <= index s' -> term s <= term s'.

Definition found (i : Z) (ops : list wop) (snap : option raftpb.Snapshot) : Prop :=
  position snap = i /\ match snap with Some s => s ∈ snaps_of ops | None => True end.

Lemma wop_snaps ops : Forall wop_ok ops -> Forall Snap.snap_ok (snaps_of ops).
Proof.
  induction 1 as [|op ops Ho _ IH]; [constructor|].
  destruct op; try done. constructor; [apply Ho|done].
Qed.

Lemma load_found d ops i : EtcdWal.Exist (dk_wal d) = true ->
  ValidSnapshotEntries (dk_wal d) = Ret (inr (committed_recs ops)) ->
  dk_snap d = Snap.saved (snaps_of ops) [] ->
  Forall wop_ok ops -> newest_index i ops -> terms_ordered ops ->
  exists w snap, Wal.loadLatestSnapshot (Wal.newWal d) = Ret (w, inr snap) /\
    Wal.files w = dk_wal d /\ found i ops snap.
Proof.
  intros Ee Ev Es Hok [Hle Hex] Ht. apply wop_snaps in Hok as Hso. set (w0 := Wal.newWal d).
  assert (Wal.files w0 = dk_wal d) as Ef by done.
  assert (Wal.wal w0 = None) as Ewn by done. assert (Wal.waldir w0 = dk_wal d) as Ewd by done.
  assert (Wal.snapdir w0 = Snap.saved (snaps_of ops) []) as Esd.
  { simpl. rewrite Es. by apply saved_kept. }
  clearbody w0. unfold Wal.loadLatestSnapshot. rewrite Ef, Ee. cbn [negb].
  rewrite Ev, ret_bind. cbv beta iota.
  set (ws := committed_recs ops) in *. rewrite Esd.
  pose proof (Snap.load_newest (snaps_of ops) ws _ Hso (Snap.saved_holds _ Hso)) as [_ H].
  destruct (Snap.LoadNewestAvailable _ ws) as [d1 [e|s]]; cbn [fst snd] in H.
  - destruct H as [-> H]. rewrite decide_True by done. eexists _, None.
    split; [reflexivity|]. split; [unfold Wal.files; simpl; by rewrite Ewn|]. split; [|done].
    destruct Hex as [->|(s & Hs & Hc & _)]; [done|].
    apply (in_wal_committed ops s Hs) in Hc; [|by eapply Forall_forall in Hso].
    fold ws in Hc. by rewrite H in Hc.
  - destruct H as (Hs & _ & Hw & Hmax). eexists _, (Some s). split; [reflexivity|].
    split; [unfold Wal.files; simpl; by rewrite Ewn|]. split; [|done]. simpl.
    assert (Snap.snap_ok s) as Hsok by (by eapply Forall_forall in Hso).
    apply (in_wal_committed ops s Hs Hsok) in Hw. pose proof (snap_index_pos s Hsok).
    specialize (Hle s Hs Hw) as Hsi. destruct Hex as [->|(s' & Hs' & Hc' & <-)]; [lia|].
    assert (Snap.snap_ok s') as Hsok' by (by eapply Forall_forall in Hso).
    pose proof (Hmax s' Hs' (proj2 (in_wal_committed ops s' Hs' Hsok') Hc')) as Hk.
    unfold Snap.key_le, Snap.key in Hk; simpl in Hk.
    pose proof (Ht s s' Hs Hs'). lia.
Qed.

Lemma hist_snap ops s' : LSnap s' ∈ hist_recs (wal_ops ops) ->
  s' = walpb.empty_Snapshot \/ exists s, s ∈ snaps_of ops /\ s' = Wal.wal_record s.
Proof.
  intros H. assert (s' ∈ snap_recs (hist_recs (wal_ops ops))) as H'.
  { apply list_elem_of_omap. by exists (LSnap s'). }
  rewrite snap_recs_hist in H'. apply elem_of_cons in H' as [->|H']; [by left|right].
  apply list_elem_of_fmap in H' as (s & -> & Hs). eauto.
Qed.

Lemma found_terms ops i snap s' : Forall wop_ok ops -> terms_ordered ops -> found i ops snap ->
  LSnap s' ∈ hist_recs (wal_ops ops) -> walpb.Index s' = i ->
  walpb.Term s' = walpb.Term (Wal.walsnap snap).
Proof.
  intros Hok Ht [<- Hin] H E. apply wop_snaps in Hok.
  assert (forall s, s ∈ snaps_of ops -> 0 < index s) as Hpos.
  { intros s Hs. apply snap_index_pos. by eapply Forall_forall in Hok. }
  destruct (hist_snap ops s' H) as [->|(s & Hs & ->)]; destruct snap as [s0|]; simpl in *; try done.
  - specialize (Hpos s0 Hin). lia.
  - pose proof (Ht s s0 Hs Hin). pose proof (Ht s0 s Hin Hs). lia.
  - specialize (Hpos s Hs). lia.
Qed.

(** [Open] of a log whose newest snapshot is found. *)
Lemma Open_found d w snap x x' m hs ents err : EtcdWal.Exist (dk_wal d) = true ->
  Wal.loadLatestSnapshot (Wal.newWal d) = Ret (w, inr snap) -> Wal.files w = dk_wal d ->
  EtcdWal.Open (dk_wal d) (Wal.walsnap snap) = Ret (inr x) ->
  ReadAll x = Ret (x', (m, hs, ents, err)) ->
  exists w', Wal.Open n (Wal.newWal d)
    = Ret (w', match err with Some e => inl e | None => inr (snap, hs, ents) end).
Proof.
  intros Ee El Ef Eo Er. unfold Wal.Open. rewrite El, ret_bind. cbv beta iota.
  unfold Wal.openWAL. rewrite Ef, Ee. cbn [negb]. cbv zeta beta. rewrite Eo.
  repeat (rewrite ret_bind; cbv beta iota). rewrite Er. repeat (rewrite ret_bind; cbv beta iota).
  destruct err; eauto.
Qed.

Lemma reopen_stored d ops i : stored d ops -> writable i ops -> newest_index i ops ->
  terms_ordered ops -> 0 <= i < two64 ->
  exists w snap ents, Wal.Open n (Wal.newWal d)
      = Ret (w, inr (snap, state_of raftpb.emptyState (hist_recs (wal_ops ops)), ents)) /\
    found i ops snap /\ live i (hist_recs (wal_ops ops)) `prefix_of` ents /\
    contiguous (i + 1) ents.
Proof.
  intros Hd (Hok & Hv & Hc) Hn Ht Hi. destruct (stored_snaps d ops Hd) as [Ee Ev].
  destruct Hd as (lg & z & Ed & Hz & Hno & Hro & Hhd & Hinv & Em & Es).
  destruct (load_found d ops i Ee Ev Es Hok Hn Ht) as (w & snap & El & Ef & Hf).
  assert (walpb.Index (Wal.walsnap snap) = i) as Ei.
  { destruct Hf as [<- _]. by destruct snap. }
  destruct (read_disk lg (wal_ops ops) (Wal.walsnap snap) z Hno Hro Hinv Hz)
    as (k & x' & ents & _ & Eo & Er & Hp & Hct).
  { by rewrite Ei. } { by rewrite Ei. }
  { rewrite Ei. intros s' Hs' E. by eapply found_terms. }
  rewrite <- Ed in Eo. destruct (Open_found d w snap _ _ _ _ _ _ Ee El Ef Eo Er) as (w' & Ew).
  rewrite Ei in *. exists w', snap, ents. auto.
Qed.

(** C13: a node recovers its raft state.  A storage is initialised on an empty
    disk, saves hard states, entries and snapshots through its log in any order
    raft may ask for, syncing and releasing segments in between, and is
    closed; every call succeeds.  [Initialize] on what is left on the disk
    succeeds, and the memory storage then holds the newest snapshot that the
    last hard state has committed (saved snapshots that are not committed are
    passed over), that hard state, and a contiguous log after the snapshot
    which starts with the live entries of the raft log. *)
Theorem restart_recovers ops i :
  Z.of_nat n mod 8 = 0 -> lrec_ok (LMeta None) -> lrec_ok (LState raftpb.emptyState) ->
  lrec_ok (LSnap walpb.empty_Snapshot) ->
  writable i ops -> newest_index i ops -> terms_ordered ops -> 0 <= i < two64 ->
  exists w0 m0 w1 w2 w3 m snap ents,
    Storage.Initialize n (Storage.newStorage (Disk [] []))
      = Ret (Storage.MkStorage w0 (Some m0), None) /\
    run wstep w0 ops = Ret (w1, replicate (length ops) None) /\
    Wal.Close w1 = Ret (w2, None) /\
    Storage.Initialize n (Storage.newStorage (Wal.on_disk w2))
      = Ret (Storage.MkStorage w3 (Some m), None) /\
    loaded m snap (state_of raftpb.emptyState (hist_recs (wal_ops ops))) ents /\
    found i ops snap /\ live i (hist_recs (wal_ops ops)) `prefix_of` ents /\
    contiguous (i + 1) ents.
Proof.
  intros Hn Hm Hst Hsn Hw Hnew Ht Hi.
  destruct (open_fresh Hn Hm Hst Hsn) as (w0 & E0 & Hw0).
  destruct (Initialize_ok (Storage.newStorage (Disk [] [])) w0 _ _ _ E0) as (m0 & I0 & _);
    [done|done|].
  destruct (wrun_inv ops w0 [] i Hn Hw0 Hw) as (w1 & E1 & Hw1).
  destruct (close_stored w1 ops Hw1) as (w2 & E2 & Hd).
  destruct (reopen_stored _ ops i Hd Hw Hnew Ht Hi) as (w3 & snap & ents & E3 & Hf & Hp & Hc).
  destruct (Initialize_ok (Storage.newStorage (Wal.on_disk w2)) w3 snap _ ents E3) as (m & I3 & Hl).
  - destruct Hf as [-> _]. lia.
  - by destruct Hf as [-> _].
  - exists w0, m0, w1, w2, w3, m, snap, ents. auto 10.
Qed.

End Recovery.

Import MemRaft.

(** Three entries, a snapshot after the second, the third rewritten by a new
    leader, and a snapshot of it that is not committed yet. *)
Definition sample : list wop :=
  [WSave (raftpb.MkHardState 1 1 0) [ent 1 1; ent 1 2; ent 1 3];
   WSave (raftpb.MkHardState 1 1 2) [];
   WSnap (Snap.snap_at 1 2); WSync; WRelease 2;
   WSave (raftpb.MkHardState 2 0 2) [ent 2 3];
   WSnap (Snap.snap_at 2 3)].

Lemma sample_snaps s : s ∈ snaps_of sample -> s = Snap.snap_at 1 2 \/ s = Snap.snap_at 2 3.
Proof.
  change (snaps_of sample) with [Snap.snap_at 1 2; Snap.snap_at 2 3]. rewrite !elem_of_cons.
  intros [->|[->|H]]; [auto..|by apply not_elem_of_nil in H].
Qed.

Lemma sample_writable : writable 2 sample.
Proof.
  split; [|split; [vm_compute; intuition discriminate|reflexivity]].
  repeat constructor; vm_compute; intuition discriminate.
Qed.

Lemma restart_recovers_witness :
  live 2 (hist_recs (wal_ops sample)) = [ent 2 3] /\
  exists w0 m0 w1 w2 w3 m snap ents,
    Storage.Initialize 64 (Storage.newStorage (Disk [] []))
      = Ret (Storage.MkStorage w0 (Some m0), None) /\
    run (wstep 64) w0 sample = Ret (w1, replicate 7 None) /\
    Wal.Close w1 = Ret (w2, None) /\
    Storage.Initialize 64 (Storage.newStorage (Wal.on_disk w2))
      = Ret (Storage.MkStorage w3 (Some m), None) /\
    loaded m snap (state_of raftpb.emptyState (hist_recs (wal_ops sample))) ents /\
    found 2 sample snap /\ live 2 (hist_recs (wal_ops sample)) `prefix_of` ents /\
    contiguous (2 + 1) ents.
Proof.
  split; [vm_compute; reflexivity|].
  apply (restart_recovers 64 sample 2).
  - reflexivity.
  - split; [reflexivity|exact I].
  - split; [vm_compute; reflexivity|exact I].
  - split; [vm_compute; reflexivity|]. vm_compute. intuition discriminate.
  - exact sample_writable.
  - split.
    + intros s Hs Hc. destruct (sample_snaps s Hs) as [-> | ->]; [discriminate|].
      by vm_compute in Hc.
    + right. exists (Snap.snap_at 1 2). split; [|split; [|reflexivity]].
      * change (snaps_of sample) with [Snap.snap_at 1 2; Snap.snap_at 2 3]. left.
      * vm_compute. discriminate.
  - intros s s' Hs Hs' Hle. destruct (sample_snaps s Hs) as [-> | ->], (sample_snaps s' Hs') as [-> | ->];
      vm_compute in *; congruence.
  - vm_compute. intuition discriminate.
Defined.

End StorageLog.
