(* ===== verification/StorageCrash.v ===== *)
(** * omashu's raft storage after a crash

    [Initialize] on the disk that a process leaves when it dies while it
    appends to its log.  The log of etcd comes with [Repair] for this case;
    omashu opens its log without it. *)

From S2P Require Import Prelude Errors Utils RaftApi WalRecord WalIo WalFrame WalNames EtcdWal.
From S2P Require Import WalRep WalRead WalLog WalCrash Snapshotter Storage StorageLog MemRaftCodec.
From Stdlib Require Import Strings.Byte.
Import WalLog WalCrash StorageLog.

Module StorageCrash.

Section Crashed.
Context `{HC : RaftCodecLaws} `{HL : RaftLaws} `{HS : MemoryStorageLaws}.
Variable n : nat.

(** The calls, and the first [j] entries of a batch. *)
Definition with_entries (ops : list wop) (es : list raftpb.Entry) : list wop :=
  ops ++ [WSave raftpb.emptyState es].

Lemma entries_hist ops es :
  hist_recs (wal_ops (with_entries ops es)) = hist_recs (wal_ops ops) ++ map LEntry es.
Proof. unfold with_entries. rewrite wal_ops_app. simpl. by rewrite hist_snoc, batch_recs. Qed.

Lemma entries_snaps ops es : snaps_of (with_entries ops es) = snaps_of ops.
Proof. unfold with_entries. rewrite snaps_of_app. apply app_nil_r. Qed.

Lemma entries_state ops es : state_of raftpb.emptyState (hist_recs (wal_ops (with_entries ops es)))
  = state_of raftpb.emptyState (hist_recs (wal_ops ops)).
Proof. by rewrite entries_hist, state_entries. Qed.

Lemma entries_newest i ops es : newest_index i ops -> newest_index i (with_entries ops es).
Proof.
  unfold newest_index, committed. rewrite entries_snaps, entries_state. done.
Qed.

(** The disk holds the segments of [lg], read up to [e], and maybe files that
    are no segments. *)
Lemma load_disk lg ops t d e r i dk : names_ok lg -> recs_ok lg -> inv lg (wal_ops ops) ->
  at_end t (frames_len (tail_recs lg)) (crc_after 0 (all_recs (lsegs lg))) false = (d, (r, Some e)) ->
  e = EOF \/ e = ErrUnexpectedEOF -> extends (disk_with lg t) (dk_wal dk) ->
  dk_snap dk = Snap.saved (snaps_of ops) [] ->
  Forall wop_ok ops -> newest_index i ops -> terms_ordered ops ->
  EtcdWal.Exist (dk_wal dk) = true /\
  exists w snap, Wal.loadLatestSnapshot (Wal.newWal dk) = Ret (w, inr snap) /\
    Wal.files w = dk_wal dk /\ found i ops snap.
Proof.
  intros Hn Hr Hi Hend He Hx Es Hok Hnew Ht.
  assert (readWALNames (dk_wal dk) = inr (seg_names (lsegs lg))) as En.
  { rewrite (proj1 Hx). by apply read_names. }
  split; [by eapply names_exist|]. apply load_found; try done; [by eapply names_exist|].
  eapply (snaps_found lg); try done.
  rewrite (omap_extends (disk_with lg t)) by first [done|intros m; by apply segs_there].
  apply (open_files _ _ 0); [by apply seg_names_NoDup|].
  by rewrite length_seg_names, length_files_of.
Qed.

Lemma found_unique i ops a b : Forall wop_ok ops -> terms_ordered ops ->
  found i ops a -> found i ops b -> Wal.walsnap a = Wal.walsnap b.
Proof.
  intros Hok Ht [Ea Ha] [Eb Hb]. apply wop_snaps in Hok.
  assert (forall s, s ∈ snaps_of ops -> 0 < index s) as Hpos.
  { intros s Hs. apply snap_index_pos. by eapply Forall_forall in Hok. }
  destruct a as [sa|], b as [sb|]; simpl in *; try done.
  - pose proof (Ht sa sb Ha Hb). pose proof (Ht sb sa Hb Ha).
    assert (term sa = term sb) as -> by lia. assert (index sa = index sb) as -> by lia. done.
  - specialize (Hpos sa Ha). lia.
  - specialize (Hpos sb Hb). lia.
Qed.

(** [Initialize] finds the newest committed snapshot, the last hard state and
    the log after the snapshot. *)
Definition recovers (dk : disk) (ops : list wop) (i : Z) : Prop :=
  exists w m snap ents,
    Storage.Initialize n (Storage.newStorage dk) = Ret (Storage.MkStorage w (Some m), None) /\
    loaded m snap (state_of raftpb.emptyState (hist_recs (wal_ops ops))) ents /\
    found i ops snap /\ live i (hist_recs (wal_ops ops)) `prefix_of` ents /\
    contiguous (i + 1) ents.

Definition refused (dk : disk) (e : error) : Prop :=
  exists s, Storage.Initialize n (Storage.newStorage dk) = Ret (s, Some e).

Lemma crashed_storage lg ops i t sd : names_ok lg -> recs_ok lg -> inv lg (wal_ops ops) ->
  file_end lg t -> writable i ops -> newest_index i ops -> terms_ordered ops -> 0 <= i < two64 ->
  sd = Snap.saved (snaps_of ops) [] ->
  exists d, Repair (disk_with lg t) = Ret (d, true) /\ recovers (Disk d sd) ops i /\
    (d = disk_with lg t \/ refused (Disk (disk_with lg t) sd) ErrUnexpectedEOF).
Proof.
  intros Hn Hr Hinv Hend (Hok & Hv & _) Hnew Ht Hi Es.
  assert (exists d r e, at_end t (frames_len (tail_recs lg)) (crc_after 0 (all_recs (lsegs lg))) false
    = (d, (r, Some e)) /\ (e = EOF \/ e = ErrUnexpectedEOF)) as (d0 & r & e & Ed & He).
  { destruct Hend as [(z & -> & Hz)|(d0 & Ed & _)]; [|eauto 6].
    rewrite at_end_zeros by (by apply zeros_end). eauto 6. }
  destruct (load_disk lg ops t d0 e r i (Disk (disk_with lg t) sd)) as (Ee & w & snap & El & Ef & Hf);
    try done.
  assert (walpb.Index (Wal.walsnap snap) = i) as Ei.
  { destruct Hf as [<- _]. by destruct snap. }
  destruct (crashed_read lg (wal_ops ops) (Wal.walsnap snap) t Hn Hr Hinv Hend)
    as (d & z & x2 & x3 & ents & Erep & Hz & Hx & Eo & Er & Hp & Hct & Hu).
  { by rewrite Ei. } { by rewrite Ei. }
  { rewrite Ei. intros s' Hs' E. by eapply found_terms. }
  exists d. split; [done|]. split.
  - destruct (load_disk lg ops (replicate z x00) _ EOF _ i (Disk d sd) Hn Hr Hinv
      (at_end_zeros z _ _ _ (zeros_end _ Hz))) as (Ee' & w' & snap' & El' & Ef' & Hf'); auto.
    rewrite (found_unique i ops snap snap') in Eo by done.
    destruct (Open_found n (Disk d sd) w' snap' _ _ _ _ _ _ Ee' El' Ef' Eo Er) as (w1 & Ew).
    destruct (Initialize_ok n (Storage.newStorage (Disk d sd)) w1 snap' _ ents Ew) as (m & Em & Hl).
    + destruct Hf' as [-> _]. lia.
    + destruct Hf' as [-> _]. by rewrite Ei in Hct.
    + exists w1, m, snap', ents. rewrite Ei in Hp, Hct. auto.
  - destruct Hu as [->|(x4 & x5 & Eo4 & Er5)]; [by left|right].
    destruct (Open_found n (Disk (disk_with lg t) sd) w snap _ _ _ _ _ _ Ee El Ef Eo4 Er5) as (w1 & Ew).
    unfold refused, Storage.Initialize, Storage.newStorage. cbn [Storage.wal]. rewrite Ew, ret_bind.
    cbv beta iota. eauto.
Qed.

Lemma synced w ops : winv w ops -> exists w' x, wstep n w WSync = Ret (w', None) /\
  Wal.wal w' = Some x /\ pending x = [] /\ winv w' (ops ++ [WSync]).
Proof.
  intros ((x0 & Ex & Hx) & Ed). cbn [wstep]. unfold Wal.Sync. rewrite Ex.
  destruct (sync_represents x0 _ _ Hx) as (x & E & Hx').
  rewrite E, ret_bind. eexists _, x. split; [reflexivity|]. split; [done|]. split.
  - destruct Hx as (lg & ((f & e & z & k & H) & _) & _).
    destruct (sync_rep _ _ _ _ _ _ _ _ H) as (x' & f' & e' & E' & H' & Hb & _).
    rewrite E in E'. injection E' as <-. unfold pending.
    by rewrite (rep_encoder _ _ _ _ _ _ _ _ H').
  - unfold winv. rewrite wal_ops_app, snaps_of_app, !app_nil_r. split; [by eexists|done].
Qed.

Lemma writable_take i ops es j : writable i (with_entries ops es) ->
  writable i (with_entries ops (take j es)).
Proof.
  intros (Hok & Hv & Hc). unfold writable. rewrite entries_hist in Hv |- *. split; [|split].
  - apply Forall_app in Hok as [H1 H2]. apply Forall_cons in H2 as [[H2 H3] _].
    apply Forall_app. split; [done|]. constructor; [|done]. split; [by apply Forall_take|done].
  - apply valid_app in Hv as [H1 H2]. apply valid_app. split; [done|].
    rewrite <- (take_drop j es), map_app in H2. by apply valid_app in H2 as [H2 _].
  - unfold with_entries in *. rewrite wal_ops_app, length_app in *. done.
Qed.

(** C19: what a crash does to a node.  A storage is initialised on an empty disk
    and written through its log in any order raft may ask for, the log is
    synced, and the process dies while it appends the entries of a further
    batch; killing the process is one of the [crash_point]s.  Were the log
    repaired, [Initialize] would recover the newest committed snapshot, the
    last hard state, and the entries of everything synced and of a prefix of
    the batch.  omashu does not call [Repair]: unless the crash left whole
    records, [Initialize] answers [ErrUnexpectedEOF] and the node does not
    start again. *)
Theorem crash_stops_node ops es i w0 m0 w1 rs x :
  Z.of_nat n mod 8 = 0 -> lrec_ok (LMeta None) -> lrec_ok (LState raftpb.emptyState) ->
  lrec_ok (LSnap walpb.empty_Snapshot) ->
  writable i (with_entries ops es) -> newest_index i ops -> terms_ordered ops -> 0 <= i < two64 ->
  Storage.Initialize n (Storage.newStorage (Disk [] []))
    = Ret (Storage.MkStorage w0 (Some m0), None) ->
  run (wstep n) w0 (ops ++ [WSync]) = Ret (w1, rs) -> Wal.wal w1 = Some x ->
  checksums_tell (chain x) es ->
  exists x', save_entries x es = Ret x' /\
    (exists z, w_dir x' = crash x' (w_pos x') z /\ crash_point x x' (w_pos x') z) /\
    forall q z, crash_point x x' q z ->
    exists j d, Repair (crash x' q z) = Ret (d, true) /\
      recovers (Disk d (Wal.snapdir w1)) (with_entries ops (take j es)) i /\
      (d = crash x' q z \/ refused (Disk (crash x' q z) (Wal.snapdir w1)) ErrUnexpectedEOF).
Proof.
  intros Hn Hm Hst Hsn Hw Hnew Ht Hi I0 Erun Ex Hck.
  destruct (open_fresh n Hn Hm Hst Hsn) as (w0' & E0 & Hw0).
  destruct (Initialize_ok n (Storage.newStorage (Disk [] [])) w0' _ _ _ E0) as (m0' & I0' & _);
    [done|done|]. rewrite I0 in I0'. injection I0' as <- <-.
  destruct (wrun_inv n ops w0 [] i Hn Hw0 (writable_app _ _ _ Hw)) as (wa & Ea & Hwa).
  destruct (synced wa ops Hwa) as (w1' & x' & Es & Ex' & Hp & (x0 & Ex0 & lg & Hr & Hinv & _) & Hsd).
  assert (w1' = w1) as ->.
  { rewrite run_app, Ea in Erun. cbn [run] in Erun. rewrite ret_bind in Erun. cbv beta iota in Erun.
    rewrite Es in Erun. by injection Erun. }
  assert (x' = x) as -> by congruence. assert (x0 = x) as -> by congruence.
  rewrite wal_ops_app, app_nil_r in Hinv. rewrite snaps_of_app, app_nil_r in Hsd.
  assert (Forall (fun e => lrec_ok (LEntry e)) es) as Hes.
  { destruct Hw as (Hok & _). apply Forall_app in Hok as [_ Hok].
    by apply Forall_cons in Hok as [[Hok _] _]. }
  destruct (save_entries_rep es x _ _ _ (proj1 Hr) Hes) as (y & Ey & Hry & _).
  exists y. split; [done|]. split; [exact (killed x y _ _ _ es (proj1 Hr) Hes Ey)|].
  intros q z Hcp. destruct (crash_shape x y lg es q z Hr Hp Hry Hck Hcp) as (j & t & Ec & Hend).
  destruct (batch_facts lg (wal_ops ops) es j (rep_names_ok x lg Hr) (rep_recs_ok x lg Hr) Hinv Hes)
    as (Hn' & Hro' & Hi').
  exists j. rewrite Ec. clear - HC HL HS Hn' Hro' Hi' Hend Hw Hnew Ht Hi Hsd.
  apply (crashed_storage _ (with_entries ops (take j es)) i t _ Hn' Hro'); [|exact Hend|..|exact Hi|].
  - unfold with_entries. by rewrite wal_ops_app.
  - by apply writable_take.
  - by apply entries_newest.
  - unfold terms_ordered. by rewrite entries_snaps.
  - by rewrite entries_snaps.
Qed.

End Crashed.

Import MemRaft.

(** Two entries committed; twelve bytes of a third are written when the process
    dies. *)
Definition torn_ops : list wop :=
  [WSave (raftpb.MkHardState 1 1 0) [ent 1 1; ent 1 2]; WSave (raftpb.MkHardState 1 1 2) []].

Definition torn_batch : list raftpb.Entry := [ent 1 3].

(** What [Initialize] answers on the disk, [k] bytes of the batch written. *)
Definition torn_restart (k : nat) : outcome (option error) :=
  '(st, _) ← Storage.Initialize 256 (Storage.newStorage (Disk [] []));
  '(w, _) ← run (wstep 256) (Storage.wal st) (torn_ops ++ [WSync]);
  match Wal.wal w with
  | Some x =>
      x' ← save_entries x torn_batch;
      '(_, err) ← Storage.Initialize 256
                    (Storage.newStorage (Disk (crash x' (w_pos x + k) 0) (Wal.snapdir w)));
      Ret err
  | None => Panic ""
  end.

Lemma torn_detected : checksums_tell 3219817871 torn_batch.
Proof.
  intros j e k E. destruct j as [|j]; [injection E as <-|done].
  apply detected_all; apply (bool_decide_unpack _); vm_compute; exact I.
Qed.

Lemma torn_no_snaps s : s ∈ snaps_of torn_ops -> False.
Proof. change (snaps_of torn_ops) with (@nil raftpb.Snapshot). apply not_elem_of_nil. Qed.

Lemma torn_writable : writable 0 (with_entries torn_ops torn_batch).
Proof.
  split; [|split; [vm_compute; intuition discriminate|reflexivity]].
  repeat constructor; vm_compute; intuition discriminate.
Qed.

Definition torn_facts (x : WAL) : Prop :=
  chain x = 3219817871 /\ w_pos x = 176%nat /\
  match save_entries x torn_batch with
  | Ret x' => length (stream x') = 216%nat
  | _ => False
  end.

Lemma torn_run : exists w0 m0 w1 rs x,
  Storage.Initialize 256 (Storage.newStorage (Disk [] []))
    = Ret (Storage.MkStorage w0 (Some m0), None) /\
  run (wstep 256) w0 (torn_ops ++ [WSync]) = Ret (w1, rs) /\ Wal.wal w1 = Some x /\ torn_facts x.
Proof.
  assert (Hw : match Storage.Initialize 256 (Storage.newStorage (Disk [] [])) with
               | Ret (Storage.MkStorage w0 (Some _), None) =>
                   match run (wstep 256) w0 (torn_ops ++ [WSync]) with
                   | Ret (w1, _) =>
                       match Wal.wal w1 with Some x => torn_facts x | None => False end
                   | _ => False
                   end
               | _ => False
               end) by (vm_compute; repeat split).
  destruct (Storage.Initialize _ _) as [[[w0 [m0|]] [e0|]]| |]; try destruct Hw.
  destruct (run _ w0 _) as [[w1 rs]| |] eqn:E1; try destruct Hw.
  destruct (Wal.wal w1) as [x|] eqn:Ex; [|destruct Hw].
  exists w0, m0, w1, rs, x. exact (conj eq_refl (conj E1 (conj Ex Hw))).
Qed.

Lemma crash_stops_node_witness :
  torn_restart 12 = Ret (Some ErrUnexpectedEOF) /\
  exists w0 m0 w1 rs x x' j d,
    Storage.Initialize 256 (Storage.newStorage (Disk [] []))
      = Ret (Storage.MkStorage w0 (Some m0), None) /\
    run (wstep 256) w0 (torn_ops ++ [WSync]) = Ret (w1, rs) /\ Wal.wal w1 = Some x /\
    save_entries x torn_batch = Ret x' /\ Repair (crash x' 188 0) = Ret (d, true) /\
    recovers 256 (Disk d (Wal.snapdir w1)) (with_entries torn_ops (take j torn_batch)) 0.
Proof.
  split; [vm_compute; reflexivity|].
  destruct torn_run as (w0 & m0 & w1 & rs & x & E0 & E1 & Ex & Hc & Hp & Hs).
  destruct (crash_stops_node 256 torn_ops torn_batch 0 w0 m0 w1 rs x) as (x' & E' & _ & H).
  - reflexivity.
  - split; [reflexivity|exact I].
  - split; [vm_compute; reflexivity|exact I].
  - split; [vm_compute; reflexivity|]. vm_compute. intuition discriminate.
  - exact torn_writable.
  - split; [intros s Hs'; destruct (torn_no_snaps s Hs')|left; reflexivity].
  - intros s s' Hs'. destruct (torn_no_snaps s Hs').
  - vm_compute. intuition discriminate.
  - exact E0.
  - exact E1.
  - exact Ex.
  - rewrite Hc. exact torn_detected.
  - rewrite E' in Hs. destruct (H 188%nat 0%nat) as (j & d & Hr & Hrec & _).
    { split; [rewrite Hp, Hs; lia|left; reflexivity]. }
    exists w0, m0, w1, rs, x, x', j, d.
    exact (conj E0 (conj E1 (conj Ex (conj E' (conj Hr Hrec))))).
Defined.

End StorageCrash.
