(* ===== verification/StorageMem.v ===== *)
(** * The memory storage and the log

    [SaveState] writes a batch of raft's work to the disk and to the memory
    storage.  The theorems show that the memory storage is at every point what
    a restart would load, and that [CreateSnapshot] breaks this: it empties the
    memory log past the snapshot. *)

From S2P Require Import Prelude Errors Utils RaftApi WalRecord WalIo WalFrame WalNames EtcdWal.
From S2P Require Import WalRep WalRead WalLog Snapshotter Storage StorageLog MemRaftCodec.
From Stdlib Require Import Strings.Byte.
Import WalLog StorageLog.

Module StorageMem.

(** ** Entries written over the live ones *)

Lemma live_entries i ents : forall enti acc f, i < f -> contiguous f ents ->
  f - i - 1 <= Z.of_nat (length acc) ->
  snd (live_from i (enti, acc) (map LEntry ents)) = overlay (i + 1) acc ents.
Proof.
  induction ents as [|e ents IH]; intros enti acc f Hf Hc Hl; [done|].
  destruct Hc as [Ee Hc]. unfold live_from. cbn [map fold_left live_step overlay]. rewrite Ee.
  rewrite (proj2 (Z.leb_gt f i)) by lia. fold (live_from i).
  assert (length (take (Z.to_nat (f - i - 1)) acc ++ [e]) = Z.to_nat (f - i)) as Hlen.
  { rewrite length_app, length_take. simpl. lia. }
  unfold live_from in IH. rewrite (IH _ _ (f + 1)); [|lia|done|rewrite Hlen; lia].
  replace (f - (i + 1)) with (f - i - 1) by lia.
  destruct ents as [|e' ents]; [done|]. cbn [overlay]. destruct Hc as [Ee' _]. rewrite Ee'.
  replace (Z.to_nat (f + 1 - (i + 1))) with (Z.to_nat (f - i)) by lia.
  rewrite take_ge by (rewrite Hlen; lia). by rewrite <- app_assoc.
Qed.

Lemma live_state `{RaftLib} i st enti acc : live_from i (enti, acc) (state_recs st) = (enti, acc).
Proof. unfold state_recs. by destruct (IsEmptyHardState st). Qed.

Section Mem.
Context `{HC : RaftCodecLaws} `{HL : RaftLaws} `{HS : MemoryStorageLaws}.
Variable n : nat.

(** The calls on the log that [SaveState] makes. *)
Definition ops_of (rd : Ready) : list wop :=
  (if IsEmptySnap (rd_Snapshot rd) then [] else [WSnap (rd_Snapshot rd)]) ++
  [WSave (rd_HardState rd) (rd_Entries rd); WSync; WRelease (index (rd_Snapshot rd))].

(** The memory storage holds the live entries of the log, the last hard state,
    and starts after its snapshot. *)
Record tracks (m : MStorage) (ops : list wop) : Prop := {
  tr_log : live (ms_offset m) (hist_recs (wal_ops ops)) = ms_log m;
  tr_hard : state_of raftpb.emptyState (hist_recs (wal_ops ops)) = ms_hard m;
  tr_last : enti_of 0 (hist_recs (wal_ops ops)) = MS_LastIndex m;
  tr_snap : index (MS_Snapshot m) = ms_offset m;
  tr_offset : 0 <= ms_offset m;
  tr_contiguous : contiguous (ms_offset m + 1) (ms_log m);
  tr_newest : forall s, s ∈ snaps_of ops ->
    index s <= ms_offset m /\ (index s = ms_offset m -> s = MS_Snapshot m);
  tr_source : (ms_offset m = 0 /\ MS_Snapshot m = raftpb.emptySnapshot) \/
    MS_Snapshot m ∈ snaps_of ops
}.

(** A batch that raft may hand out when its log reaches from [off] to [last]:
    a snapshot is ahead of the log, and the entries continue or overwrite it. *)
Definition ready_ok (off last : Z) (rd : Ready) : Prop :=
  let j := index (rd_Snapshot rd) in
  (IsEmptySnap (rd_Snapshot rd) = true \/ off < j /\ last < j) /\
  match rd_Entries rd with
  | [] => True
  | e :: _ =>
      (if IsEmptySnap (rd_Snapshot rd) then off else j) < raftpb.Index e /\
      raftpb.Index e <= (if IsEmptySnap (rd_Snapshot rd) then last else j) + 1 /\
      contiguous (raftpb.Index e) (rd_Entries rd)
  end.

Lemma hist_app ops1 ops2 :
  hist_recs (wal_ops (ops1 ++ ops2)) = hist_recs (wal_ops ops1) ++ concat (map op_recs (wal_ops ops2)).
Proof. unfold hist_recs. by rewrite wal_ops_app, map_app, concat_app. Qed.

Lemma save_recs st ents i :
  concat (map op_recs (wal_ops [WSave st ents; WSync; WRelease i]))
  = map LEntry ents ++ state_recs st.
Proof. simpl. by rewrite app_nil_r. Qed.

(** *** A snapshot from the leader *)

Lemma track_snapshot m ops s : tracks m ops -> IsEmptySnap s = false ->
  ms_offset m < index s -> MS_LastIndex m < index s ->
  exists m', MS_ApplySnapshot m s = (m', None) /\ tracks m' (ops ++ [WSnap s]) /\
    ms_offset m' = index s /\ MS_LastIndex m' = index s.
Proof.
  intros [T1 T2 T3 T4 T5 T6 T7 T8] He Ho Hl.
  destruct (apply_snapshot_new m s) as (m' & E & F1 & F2 & F3 & _ & F5); [lia|].
  assert (MS_LastIndex m' = index s) as El by (rewrite last_index, F2, F3; simpl; lia).
  exists m'. split; [done|]. split; [|done].
  assert (hist_recs (wal_ops (ops ++ [WSnap s])) = hist_recs (wal_ops ops) ++ [LSnap (Wal.wal_record s)])
    as Eh by apply hist_app.
  constructor; rewrite ?F1, ?F2, ?F3, ?F5, ?El, ?Eh.
  - unfold live, live_from. rewrite fold_left_app. cbn [fold_left].
    pose proof (live_enti (index s) (hist_recs (wal_ops ops)) (0, [])) as Hen.
    unfold live_from in Hen. destruct (fold_left _ _ _) as [en acc]. cbn [fst] in Hen. subst en.
    cbn [live_step snd]. rewrite T3. by rewrite (proj2 (Z.ltb_lt _ _)).
  - unfold state_of. rewrite fold_left_app. exact T2.
  - unfold enti_of. rewrite fold_left_app. fold (enti_of 0 (hist_recs (wal_ops ops))).
    rewrite T3. cbn [fold_left enti_step Wal.wal_record walpb.Index]. lia.
  - done.
  - lia.
  - done.
  - intros s0. rewrite snaps_of_app. intros [Hs|Hs]%elem_of_app.
    + destruct (T7 s0 Hs). lia.
    + by apply list_elem_of_singleton in Hs as ->.
  - right. rewrite snaps_of_app. apply elem_of_app. right. by left.
Qed.

(** *** A hard state and entries *)

Lemma enti_contiguous ents : forall f enti, contiguous f ents -> ents <> [] ->
  enti_of enti (map LEntry ents) = f + Z.of_nat (length ents) - 1.
Proof.
  induction ents as [|e ents IH]; intros f enti Hc Hne; [done|]. destruct Hc as [Ee Hc].
  unfold enti_of. cbn [map fold_left enti_step]. fold (enti_of (raftpb.Index e) (map LEntry ents)).
  destruct ents as [|e' ents]; [simpl; lia|]. rewrite (IH (f + 1)) by done. cbn [length]. lia.
Qed.

(** Entries that raft may append to the memory log. *)
Definition follows (m : MStorage) (ents : list raftpb.Entry) : Prop :=
  match ents with
  | [] => True
  | e :: _ => ms_offset m < raftpb.Index e /\ raftpb.Index e <= MS_LastIndex m + 1 /\
              contiguous (raftpb.Index e) ents
  end.

(** A hard state and entries saved to the memory storage. *)
Lemma mem_saved m st ents : contiguous (ms_offset m + 1) (ms_log m) -> follows m ents ->
  exists m2 m', Storage.init_hard m st = (m2, None) /\ MS_Append m2 ents = Ret (m', None) /\
    ms_log m' = overlay (ms_offset m + 1) (ms_log m) ents /\ ms_offset m' = ms_offset m /\
    ms_hard m' = (if IsEmptyHardState st then ms_hard m else st) /\
    MS_Snapshot m' = MS_Snapshot m /\ contiguous (ms_offset m + 1) (ms_log m') /\
    MS_LastIndex m' = enti_of (MS_LastIndex m) (map LEntry ents).
Proof.
  intros Hc Hents.
  assert (exists m2, Storage.init_hard m st = (m2, None) /\
    ms_hard m2 = (if IsEmptyHardState st then ms_hard m else st) /\ ms_offset m2 = ms_offset m /\
    ms_log m2 = ms_log m /\ MS_Snapshot m2 = MS_Snapshot m) as (m2 & E2 & G1 & G2 & G3 & G4).
  { unfold Storage.init_hard. destruct (IsEmptyHardState st); [by exists m|].
    destruct (set_hard_state m st) as (m2 & E & ? & ? & ? & ? & ?). eauto 10. }
  assert (MS_LastIndex m2 = MS_LastIndex m) as Gl by (by rewrite !last_index, G2, G3).
  destruct (append_ok m2 ents) as (m' & E & F1 & F2 & _ & F4 & F5).
  { by rewrite G2, G3. }
  { destruct ents as [|e ents]; [done|]. rewrite G2, Gl. unfold follows in Hents. tauto. }
  { destruct ents as [|e ents]; [by exists 0|]. exists (raftpb.Index e). apply Hents. }
  rewrite G2, G3 in F1. exists m2, m'. rewrite F2, F4, F5, G2, G1, G4.
  do 6 (split; [done|]). set (o := ms_offset m) in *. set (lg := ms_log m) in *.
  rewrite !last_index, F1, F2, G2. fold o lg. destruct ents as [|e ents]; [done|].
  destruct Hents as (H1 & H2 & H3). rewrite last_index in H2. fold o lg in H1, H2.
  cbn [overlay]. rewrite (enti_contiguous _ (raftpb.Index e)) by done. split.
  - apply contiguous_app. split; [by apply contiguous_take|].
    rewrite length_take. replace (o + 1 + _) with (raftpb.Index e); [done|lia].
  - rewrite length_app, length_take. lia.
Qed.

Lemma track_save m ops st ents i : tracks m ops -> follows m ents ->
  exists m', (let '(m2, _) := Storage.init_hard m st in MS_Append m2 ents) = Ret (m', None) /\
    snd (Storage.init_hard m st) = None /\
    tracks m' (ops ++ [WSave st ents; WSync; WRelease i]) /\ ms_offset m' = ms_offset m /\
    MS_LastIndex m' = enti_of (MS_LastIndex m) (map LEntry ents).
Proof.
  intros [T1 T2 T3 T4 T5 T6 T7 T8] Hents.
  destruct (mem_saved m st ents) as (m2 & m' & -> & E & F1 & F2 & F4 & F5 & Hc' & El'); [done|done|].
  exists m'. split; [exact E|]. split; [done|].
  set (o := ms_offset m) in *. set (lg := ms_log m) in *.
  split; [|by rewrite F2].
  assert (hist_recs (wal_ops (ops ++ [WSave st ents; WSync; WRelease i]))
    = hist_recs (wal_ops ops) ++ map LEntry ents ++ state_recs st) as Eh.
  { by rewrite hist_app, save_recs. }
  constructor; rewrite ?Eh, ?F2, ?F5; fold o; try done.
  - unfold live, live_from. rewrite !fold_left_app.
    pose proof (live_enti o (hist_recs (wal_ops ops)) (0, [])) as Hen. unfold live in T1.
    unfold live_from in Hen, T1. destruct (fold_left (live_step o) (hist_recs _) (0, [])) as [en acc].
    cbn [fst snd] in Hen, T1. subst en acc. rewrite T3.
    pose proof (fun en ac => live_state o st en ac) as Hls. unfold live_from in Hls.
    destruct (fold_left _ (map LEntry ents) _) as [en ac] eqn:Ef. rewrite Hls. simpl.
    rewrite F1. destruct ents as [|e ents].
    { injection Ef as _ <-. done. }
    destruct Hents as (H1 & H2 & H3). rewrite last_index in H2. fold o lg in H2.
    pose proof (live_entries o (e :: ents) (MS_LastIndex m) lg (raftpb.Index e) H1 H3) as Hle.
    unfold live_from in Hle. rewrite Ef in Hle. apply Hle. lia.
  - unfold state_of. rewrite fold_left_app. fold (state_of raftpb.emptyState (hist_recs (wal_ops ops))).
    rewrite T2. fold (state_of (ms_hard m) (map LEntry ents ++ state_recs st)).
    rewrite <- saved_state, F4. done.
  - unfold enti_of. rewrite !fold_left_app. fold (enti_of 0 (hist_recs (wal_ops ops))). rewrite T3.
    fold (enti_of (MS_LastIndex m) (map LEntry ents)). rewrite El'.
    unfold state_recs. by destruct (IsEmptyHardState st).
  - intros s0. rewrite snaps_of_app. simpl. rewrite app_nil_r. apply T7.
  - rewrite snaps_of_app. simpl. by rewrite app_nil_r.
Qed.

(** ** Batches *)

Lemma saveStateToWal_ok w mem ops rd i : Z.of_nat n mod 8 = 0 -> winv w ops ->
  writable i (ops ++ ops_of rd) ->
  exists w', Storage.saveStateToWal n (Storage.MkStorage w mem) rd
      = Ret (Storage.MkStorage w' mem, None) /\ winv w' (ops ++ ops_of rd).
Proof.
  intros Hn Hw Hok. destruct (wrun_inv n (ops_of rd) w ops i Hn Hw Hok) as (w' & E & Hw').
  exists w'. split; [|done]. clear Hw Hok Hw'. unfold ops_of in E.
  unfold Storage.saveStateToWal. cbn [Storage.wal Storage.memStorage].
  destruct (IsEmptySnap (rd_Snapshot rd)); cbn [app run wstep length replicate] in E.
  2: destruct (Wal.SaveSnap w (rd_Snapshot rd)) as [[w0 r0]| |]; try done;
    rewrite ret_bind in E; cbv beta iota in E.
  1: set (w0 := w) in *; set (r0 := @None error).
  all: rewrite ret_bind; cbv beta iota;
    destruct (Wal.SaveState n w0 (rd_HardState rd) (rd_Entries rd)) as [[w1 r1]| |]; try done;
    rewrite ret_bind in E; cbv beta iota in E;
    destruct (Wal.Sync w1) as [[w2 r2]| |] eqn:E2; try done;
    rewrite ret_bind in E; cbv beta iota in E;
    destruct (Wal.Release w2 (index (rd_Snapshot rd))) as [[w3 r3]| |] eqn:E3; try done;
    rewrite !ret_bind in E; cbv beta iota in E; injection E; intros; subst.
  all: rewrite ret_bind; cbv beta iota; rewrite E2, ret_bind; cbv beta iota;
    rewrite E3, ret_bind; done.
Qed.

(** Where raft's log reaches after a batch. *)
Definition after (off last : Z) (rd : Ready) : Z * Z :=
  let e := IsEmptySnap (rd_Snapshot rd) in
  let j := index (rd_Snapshot rd) in
  (if e then off else j, enti_of (if e then last else j) (map LEntry (rd_Entries rd))).

Lemma save_mem_tracks m ops rd : tracks m ops -> ready_ok (ms_offset m) (MS_LastIndex m) rd ->
  exists m', Storage.save_mem m rd = Ret (m', None) /\ tracks m' (ops ++ ops_of rd) /\
    (ms_offset m', MS_LastIndex m') = after (ms_offset m) (MS_LastIndex m) rd.
Proof.
  intros Ht [Hs He]. unfold Storage.save_mem, ops_of, after.
  destruct (IsEmptySnap (rd_Snapshot rd)) eqn:Ee; cbn [app Storage.swallow].
  - destruct (track_save m ops (rd_HardState rd) (rd_Entries rd) (index (rd_Snapshot rd)) Ht He)
      as (m' & E & E1 & Ht' & Eo & El).
    destruct (Storage.init_hard m (rd_HardState rd)) as [m2 err]. simpl in E1. subst err.
    exists m'. split; [done|]. split; [done|]. by rewrite Eo, El.
  - destruct Hs as [|[Hs1 Hs2]]; [done|].
    destruct (track_snapshot m ops (rd_Snapshot rd) Ht Ee Hs1 Hs2) as (m1 & -> & Ht1 & Eo1 & El1).
    cbn [Storage.swallow].
    destruct (track_save m1 _ (rd_HardState rd) (rd_Entries rd) (index (rd_Snapshot rd)) Ht1)
      as (m' & E & E1 & Ht' & Eo & El).
    { unfold follows. destruct (rd_Entries rd); [done|]. by rewrite Eo1, El1. }
    destruct (Storage.init_hard m1 (rd_HardState rd)) as [m2 err]. simpl in E1. subst err.
    exists m'. split; [done|]. rewrite <- app_assoc in Ht'. split; [done|].
    by rewrite Eo, El, Eo1, El1.
Qed.

Lemma SaveState_tracks w m ops rd i : Z.of_nat n mod 8 = 0 -> winv w ops -> tracks m ops ->
  writable i (ops ++ ops_of rd) -> ready_ok (ms_offset m) (MS_LastIndex m) rd ->
  exists w' m', Storage.SaveState n (Storage.MkStorage w (Some m)) rd
      = Ret (Storage.MkStorage w' (Some m'), None) /\
    winv w' (ops ++ ops_of rd) /\ tracks m' (ops ++ ops_of rd) /\
    (ms_offset m', MS_LastIndex m') = after (ms_offset m) (MS_LastIndex m) rd.
Proof.
  intros Hn Hw Ht Hok Hr.
  destruct (saveStateToWal_ok w (Some m) ops rd i Hn Hw Hok) as (w' & E & Hw').
  destruct (save_mem_tracks m ops rd Ht Hr) as (m' & Em & Ht' & Ea).
  exists w', m'. unfold Storage.SaveState. rewrite E, ret_bind. cbv beta iota.
  unfold Storage.mem. cbn [Storage.memStorage]. rewrite Em, ret_bind. done.
Qed.

Fixpoint readies_ok (off last : Z) (rds : list Ready) : Prop :=
  match rds with
  | [] => True
  | rd :: rds' =>
      ready_ok off last rd /\ readies_ok (fst (after off last rd)) (snd (after off last rd)) rds'
  end.

Fixpoint reach (off last : Z) (rds : list Ready) : Z * Z :=
  match rds with
  | [] => (off, last)
  | rd :: rds' => reach (fst (after off last rd)) (snd (after off last rd)) rds'
  end.

Definition all_ops (rds : list Ready) : list wop := concat (map ops_of rds).

Lemma SaveStates_tracks rds : forall w m ops i, Z.of_nat n mod 8 = 0 -> winv w ops ->
  tracks m ops -> writable i (ops ++ all_ops rds) ->
  readies_ok (ms_offset m) (MS_LastIndex m) rds ->
  exists w' m', run (Storage.SaveState n) (Storage.MkStorage w (Some m)) rds
      = Ret (Storage.MkStorage w' (Some m'), replicate (length rds) None) /\
    winv w' (ops ++ all_ops rds) /\ tracks m' (ops ++ all_ops rds) /\
    (ms_offset m', MS_LastIndex m') = reach (ms_offset m) (MS_LastIndex m) rds.
Proof.
  induction rds as [|rd rds IH]; intros w m ops i Hn Hw Ht Hok Hr; cbn [run].
  { unfold all_ops. simpl. rewrite app_nil_r. eauto 10. }
  unfold all_ops in *. cbn [map concat reach] in *. rewrite app_assoc in Hok |- *. destruct Hr as [Hr Hrs].
  destruct (SaveState_tracks w m ops rd i Hn Hw Ht) as (w1 & m1 & -> & Hw1 & Ht1 & Ea);
    [by eapply writable_app|done|]. rewrite <- Ea in Hrs |- *.
  rewrite ret_bind. cbv beta iota.
  destruct (IH w1 m1 _ i Hn Hw1 Ht1 Hok Hrs) as (w2 & m2 & -> & H2 & H3 & H4).
  rewrite ret_bind. eauto 10.
Qed.

Lemma tracks_fresh m : loaded m (Some raftpb.emptySnapshot) raftpb.emptyState [] -> tracks m [].
Proof.
  intros (H1 & H2 & H3 & H4). simpl in H1, H2.
  constructor; rewrite ?last_index, ?H1, ?H2, ?H3, ?H4; try done.
  - intros s Hs. by apply not_elem_of_nil in Hs.
  - by left.
Qed.

Lemma tracks_newest m ops : tracks m ops -> Forall wop_ok ops ->
  (forall s, s ∈ snaps_of ops -> committed ops s) ->
  newest_index (ms_offset m) ops /\ 0 <= ms_offset m < two64.
Proof.
  intros Ht Hok Hc. destruct (tr_source _ _ Ht) as [[E _]|Hin].
  - rewrite E. split; [|done]. split; [|by left]. intros s Hs _. rewrite <- E.
    by apply (tr_newest _ _ Ht).
  - split.
    + split; [intros s Hs _; by apply (tr_newest _ _ Ht)|]. right.
      exists (MS_Snapshot m). split; [done|]. split; [auto|apply (tr_snap _ _ Ht)].
    + apply wop_snaps in Hok. eapply Forall_forall in Hok; [|exact Hin].
      destruct Hok as (_ & _ & Hi & _). rewrite (tr_snap _ _ Ht) in Hi. exact Hi.
Qed.

Lemma tracks_snapshot m m' ops snap st ents : tracks m ops -> Forall wop_ok ops ->
  found (ms_offset m) ops snap -> loaded m' snap st ents -> MS_Snapshot m' = MS_Snapshot m.
Proof.
  intros Ht Hok [Hf1 Hf2] (-> & _). rewrite Hf1.
  destruct (Z.eqb_spec (ms_offset m) 0) as [E|E].
  - destruct (tr_source _ _ Ht) as [[_ ->]|Hin]; [done|].
    apply wop_snaps in Hok. eapply Forall_forall in Hok; [|exact Hin].
    apply snap_index_pos in Hok. rewrite (tr_snap _ _ Ht) in Hok. lia.
  - destruct snap as [s|]; [|done]. simpl in *. by apply (tr_newest _ _ Ht s Hf2).
Qed.

(** C6: the memory storage is what a restart loads.  Whatever batches raft
    hands out, each [SaveState] succeeds, and when the storage is then closed
    and initialised again from the disk, the new memory storage has the hard
    state, the snapshot and the offset of the old one, and its log starts with
    the old log; this when the snapshots in the batches are committed by the
    time the storage is closed. *)
Theorem restart_keeps_memory rds :
  Z.of_nat n mod 8 = 0 -> lrec_ok (LMeta None) -> lrec_ok (LState raftpb.emptyState) ->
  lrec_ok (LSnap walpb.empty_Snapshot) ->
  readies_ok 0 0 rds -> writable (fst (reach 0 0 rds)) (all_ops rds) ->
  (forall s, s ∈ snaps_of (all_ops rds) -> committed (all_ops rds) s) ->
  terms_ordered (all_ops rds) ->
  exists s0 w m s1 w' m',
    Storage.Initialize n (Storage.newStorage (Disk [] [])) = Ret (s0, None) /\
    run (Storage.SaveState n) s0 rds
      = Ret (Storage.MkStorage w (Some m), replicate (length rds) None) /\
    Storage.Close (Storage.MkStorage w (Some m)) = Ret (s1, None) /\
    Storage.Initialize n (Storage.newStorage (Wal.on_disk (Storage.wal s1)))
      = Ret (Storage.MkStorage w' (Some m'), None) /\
    ms_hard m' = ms_hard m /\ MS_Snapshot m' = MS_Snapshot m /\ ms_offset m' = ms_offset m /\
    ms_log m `prefix_of` ms_log m'.
Proof.
  intros Hn Hm Hst Hsn Hr Hw Hc Ht.
  destruct (open_fresh n Hn Hm Hst Hsn) as (w0 & E0 & Hw0).
  destruct (Initialize_ok n (Storage.newStorage (Disk [] [])) w0 _ _ _ E0) as (m0 & I0 & Hl0);
    [done|done|].
  pose proof (tracks_fresh m0 Hl0) as Ht0.
  assert (ms_offset m0 = 0 /\ MS_LastIndex m0 = 0) as [Eo0 El0].
  { rewrite last_index. destruct Hl0 as (_ & -> & _ & ->). split; reflexivity. }
  destruct (SaveStates_tracks rds w0 m0 [] _ Hn Hw0 Ht0 Hw) as (w1 & m1 & E1 & Hw1 & Ht1 & Er);
    [by rewrite Eo0, El0|]. cbn [app] in *. rewrite Eo0, El0 in Er.
  destruct (close_stored w1 _ Hw1) as (w2 & E2 & Hd).
  apply (f_equal fst) in Er. cbn [fst] in Er. rewrite <- Er in Hw.
  destruct (tracks_newest m1 _ Ht1 (proj1 Hw) Hc) as [Hnew Hb].
  destruct (reopen_stored n _ _ _ Hd Hw Hnew Ht Hb) as (w3 & snap & ents & E3 & Hf & Hp & Hct).
  pose proof Hf as [Hf1 _]. rewrite <- Hf1 in Hb, Hct.
  destruct (Initialize_ok n (Storage.newStorage (Wal.on_disk w2)) w3 snap _ ents E3 (proj1 Hb) Hct)
    as (m & I3 & Hl).
  eexists _, w1, m1, (Storage.MkStorage w2 (Some m1)), w3, m.
  split; [exact I0|]. split; [exact E1|].
  split; [unfold Storage.Close; cbn [Storage.wal]; rewrite E2, ret_bind; reflexivity|].
  split; [exact I3|]. pose proof (tracks_snapshot _ _ _ _ _ _ Ht1 (proj1 Hw) Hf Hl) as Es.
  destruct Hl as (_ & L2 & L3 & L4). rewrite L2, L3, L4, Hf1, Es.
  split; [apply (tr_hard _ _ Ht1)|]. split; [reflexivity|]. split; [reflexivity|].
  rewrite <- (tr_log _ _ Ht1). exact Hp.
Qed.

(** ** A snapshot of the node's own *)

Definition own_snapshot (index term : Z) (cs : raftpb.ConfState) (data : bytes) : raftpb.Snapshot :=
  raftpb.MkSnapshot data (raftpb.MkMeta cs index term).

(** The calls on the log that [CreateSnapshot] makes. *)
Definition snap_ops (s : raftpb.Snapshot) : list wop := [WSnap s; WSync; WRelease (index s)].

Lemma CreateSnapshot_ok w m ops idx t cs data i : Z.of_nat n mod 8 = 0 -> winv w ops ->
  MS_Term m idx = inr t -> index (MS_Snapshot m) < idx ->
  writable i (ops ++ snap_ops (own_snapshot idx t cs data)) ->
  exists w' m', Storage.CreateSnapshot (Storage.MkStorage w (Some m)) idx cs data
      = Ret (Storage.MkStorage w' (Some m'), None) /\
    winv w' (ops ++ snap_ops (own_snapshot idx t cs data)) /\
    ms_log m' = [] /\ ms_offset m' = idx /\ ms_hard m' = ms_hard m.
Proof.
  intros Hn Hw Et Hidx Hok.
  destruct (wrun_inv n _ w ops i Hn Hw Hok) as (w' & E & Hw'). clear Hw Hok.
  unfold Storage.CreateSnapshot, Storage.mem. cbn [Storage.memStorage]. rewrite Et. cbv zeta.
  fold (own_snapshot idx t cs data). set (sn := own_snapshot idx t cs data) in *.
  destruct (apply_snapshot_new m sn) as (m' & Ea & F1 & F2 & F3 & _ & F5); [exact Hidx|].
  exists w', m'. split; [|split; [done|split; [done|split; done]]].
  cbn [snap_ops run wstep length replicate Storage.wal] in E |- *.
  destruct (Wal.SaveSnap w sn) as [[w1 r1]| |]; try done.
  rewrite ret_bind in E. rewrite ret_bind. cbv beta iota in E |- *.
  destruct (Wal.Sync w1) as [[w2 r2]| |] eqn:E2; try done.
  rewrite ret_bind in E. cbv beta iota in E.
  destruct (Wal.Release w2 (index sn)) as [[w3 r3]| |] eqn:E3; try done.
  rewrite !ret_bind in E. cbv beta iota in E. injection E; intros; subst r1 r2 r3 w3.
  rewrite Ea. cbn [Storage.swallow]. unfold Storage.sync_release. rewrite E2, ret_bind. cbv beta iota.
  rewrite E3, ret_bind. cbv beta iota. unfold Storage.compact_mem.
  rewrite compact_done by (rewrite F3; done). rewrite !ret_bind. cbv beta iota.
  unfold Storage.swallow. by rewrite decide_True.
Qed.

(** C37: taking a snapshot loses the end of the log.  [CreateSnapshot] at an
    applied index that is not the end of the log applies the snapshot to the
    memory storage, which throws away every entry, those after the snapshot
    too: the storage that held entries up to its last index reports the
    snapshot's index as the last.  When raft then hands out the entries that
    follow the ones lost, [SaveState] panics. *)
Theorem snapshot_drops_log w m ops idx t cs data i rd e ents :
  Z.of_nat n mod 8 = 0 -> winv w ops -> tracks m ops -> MS_Term m idx = inr t ->
  ms_offset m < idx -> idx < MS_LastIndex m ->
  writable i ((ops ++ snap_ops (own_snapshot idx t cs data)) ++ ops_of rd) ->
  IsEmptySnap (rd_Snapshot rd) = true -> rd_Entries rd = e :: ents ->
  contiguous (MS_LastIndex m + 1) (e :: ents) ->
  exists w' m' msg,
    Storage.CreateSnapshot (Storage.MkStorage w (Some m)) idx cs data
      = Ret (Storage.MkStorage w' (Some m'), None) /\
    ms_log m' = [] /\ MS_LastIndex m' = idx /\
    Storage.SaveState n (Storage.MkStorage w' (Some m')) rd = Panic msg.
Proof.
  intros Hn Hw Ht Et Hlo Hhi Hok He Ee Hc.
  destruct (CreateSnapshot_ok w m ops idx t cs data i Hn Hw Et) as (w' & m' & E & Hw' & F1 & F2 & F3).
  { by rewrite (tr_snap _ _ Ht). } { by eapply writable_app. }
  destruct (saveStateToWal_ok w' (Some m') _ rd i Hn Hw' Hok) as (w2 & E2 & _).
  assert (exists m2, Storage.init_hard m' (rd_HardState rd) = (m2, None) /\
    ms_offset m2 = idx /\ MS_LastIndex m2 = idx) as (m2 & Eh & Eo & El).
  { unfold Storage.init_hard. destruct (IsEmptyHardState _).
    - exists m'. rewrite last_index, F1, F2. simpl. split; [done|lia].
    - destruct (set_hard_state m' (rd_HardState rd)) as (m2 & -> & _ & G1 & _ & G2 & _).
      exists m2. rewrite last_index, G1, G2, F1, F2. simpl. split; [done|lia]. }
  pose proof (tr_offset _ _ Ht). pose proof (proj1 Hc) as Hidx.
  destruct (append_gap m2 e ents) as [msg Ep]; [lia|by rewrite Hidx|lia|].
  exists w', m', msg. split; [done|]. split; [done|].
  split; [rewrite last_index, F1, F2; simpl; lia|].
  unfold Storage.SaveState. rewrite E2, ret_bind. cbv beta iota.
  unfold Storage.mem. cbn [Storage.memStorage Storage.wal]. unfold Storage.save_mem.
  rewrite He. cbn [Storage.swallow]. rewrite Eh, Ee. cbv beta iota. by rewrite Ep.
Qed.

End Mem.

(** ** Witnesses *)

Import MemRaft.

Definition batch (hs : raftpb.HardState) (snap : raftpb.Snapshot) (ents : list raftpb.Entry) : Ready :=
  MkReady None hs [] ents snap [] [].

(** Three entries, their commit, and a snapshot from a new leader with the
    entry after it. *)
Definition batches : list Ready :=
  [batch (raftpb.MkHardState 1 1 0) raftpb.emptySnapshot [ent 1 1; ent 1 2; ent 1 3];
   batch (raftpb.MkHardState 1 1 2) raftpb.emptySnapshot [];
   batch (raftpb.MkHardState 2 0 5) (Snap.snap_at 2 5) [ent 2 6]].

Lemma batches_snaps s : s ∈ snaps_of (all_ops batches) -> s = Snap.snap_at 2 5.
Proof.
  change (snaps_of (all_ops batches)) with [Snap.snap_at 2 5]. by rewrite list_elem_of_singleton.
Qed.

Lemma small_recs : lrec_ok (LMeta None) /\ lrec_ok (LState raftpb.emptyState) /\
  lrec_ok (LSnap walpb.empty_Snapshot).
Proof. split; [|split]; (split; [vm_compute; reflexivity|]); vm_compute; intuition discriminate. Qed.

Lemma restart_keeps_memory_witness :
  exists s0 w m s1 w' m',
    Storage.Initialize 64 (Storage.newStorage (Disk [] [])) = Ret (s0, None) /\
    run (Storage.SaveState 64) s0 batches
      = Ret (Storage.MkStorage w (Some m), replicate 3 None) /\
    Storage.Close (Storage.MkStorage w (Some m)) = Ret (s1, None) /\
    Storage.Initialize 64 (Storage.newStorage (Wal.on_disk (Storage.wal s1)))
      = Ret (Storage.MkStorage w' (Some m'), None) /\
    ms_hard m' = ms_hard m /\ MS_Snapshot m' = MS_Snapshot m /\ ms_offset m' = ms_offset m /\
    ms_log m `prefix_of` ms_log m'.
Proof.
  apply (restart_keeps_memory 64 batches).
  - reflexivity.
  - apply small_recs.
  - apply small_recs.
  - apply small_recs.
  - vm_compute. intuition discriminate.
  - split; [|split; [vm_compute; intuition discriminate|reflexivity]].
    repeat constructor; vm_compute; intuition discriminate.
  - intros s Hs. rewrite (batches_snaps s Hs). vm_compute. discriminate.
  - intros s s' Hs Hs' _. rewrite (batches_snaps s Hs), (batches_snaps s' Hs'). reflexivity.
Defined.

(** Three entries of which two are applied, and the batch with the fourth. *)
Definition three : list Ready :=
  [batch (raftpb.MkHardState 1 1 2) raftpb.emptySnapshot [ent 1 1; ent 1 2; ent 1 3]].
Definition fourth : Ready :=
  batch (raftpb.MkHardState 1 1 3) raftpb.emptySnapshot [ent 1 4].

Lemma three_saved : exists w m, winv w (all_ops three) /\ tracks m (all_ops three) /\
  ms_offset m = 0 /\ MS_LastIndex m = 3.
Proof.
  destruct small_recs as (H1 & H2 & H3).
  destruct (open_fresh 64 eq_refl H1 H2 H3) as (w0 & E0 & Hw0).
  destruct (Initialize_ok 64 (Storage.newStorage (Disk [] [])) w0 _ _ _ E0) as (m0 & _ & Hl0);
    [reflexivity|exact I|].
  pose proof Hl0 as (_ & Eo & _ & El).
  destruct (SaveStates_tracks 64 three w0 m0 [] 0 eq_refl Hw0 (tracks_fresh m0 Hl0))
    as (w & m & _ & Hw & Ht & Er).
  - split; [|split; [vm_compute; intuition discriminate|reflexivity]].
    repeat constructor; vm_compute; intuition discriminate.
  - rewrite last_index, Eo, El. vm_compute. intuition discriminate.
  - exists w, m. split; [exact Hw|]. split; [exact Ht|].
    rewrite (last_index m0), Eo, El in Er.
    change (reach _ _ three) with (0, 3) in Er. split; congruence.
Qed.

Lemma snapshot_drops_log_witness : exists w m w' m' msg,
  MS_LastIndex m = 3 /\
  Storage.CreateSnapshot (Storage.MkStorage w (Some m)) 2 (raftpb.MkConfState [1] []) [x61]
    = Ret (Storage.MkStorage w' (Some m'), None) /\
  ms_log m' = [] /\ MS_LastIndex m' = 2 /\
  Storage.SaveState 64 (Storage.MkStorage w' (Some m')) fourth = Panic msg.
Proof.
  destruct three_saved as (w & m & Hw & Ht & Eo & El).
  assert (ms_log m !! 1%nat = Some (ent 1 2)) as E.
  { rewrite <- (tr_log _ _ Ht), Eo. vm_compute. reflexivity. }
  destruct (snapshot_drops_log 64 w m (all_ops three) 2 1 (raftpb.MkConfState [1] []) [x61] 2 fourth
    (ent 1 4) []) as (w' & m' & msg & H).
  - reflexivity.
  - exact Hw.
  - exact Ht.
  - pose proof (term_entry m 1 _ E) as Hterm. rewrite Eo in Hterm. exact Hterm.
  - rewrite Eo. reflexivity.
  - rewrite El. reflexivity.
  - split; [|split; [vm_compute; intuition discriminate|reflexivity]].
    repeat constructor; vm_compute; intuition discriminate.
  - reflexivity.
  - reflexivity.
  - rewrite El. vm_compute. split; [reflexivity|exact I].
  - exists w, m, w', m', msg. split; [exact El|exact H].
Defined.

End StorageMem.
