(* ===== verification/Node.v ===== *)
(** * node.go: the Raft node

    One member of the cluster: the ready loop with everything it does for a
    batch ([processReady]), the proposal handler, snapshots, read states and
    membership changes, over the storage, the transport, the state machine
    and the raft library.  The two goroutines are two step functions over one
    state; a channel is the list of what waits in it, and a send that finds
    the buffer full, or no receiver, is [Hang]. *)

From S2P Require Import Prelude Errors Utils Mvcc BadgerApi Codecs Badger Command Fsm.
From S2P Require Import RaftApi Config Urls Transport Replication WalRecord Storage.

Definition defaultSnapshotCount : Z := 100000.

(** What the two callbacks were called with. *)
Inductive event : Type :=
  | LeaderChanged (prevLeader newLeader : Z)
  | RemovedSelf.

Section Node.
Context `{BadgerAPI} `{JsonLib} `{ProtoLib} `{CommandCodec}.
Context `{L : RaftLib} `{C : RaftCodec} `{S : MemoryStorageLib} `{U : UrlLib}.

(** [responses] is [proposeRespNotifier], [read_states] is
    [readStatesNotifier]; [ready_up] and [propose_up]: the goroutines running;
    [events]: the calls made to the callbacks that are set. *)
Record Node := MkNode {
  id : Z;
  n : RNode;
  storage : Storage.Storage;
  transport : Transport.Transport;
  fsm : Badger.store;
  confState : raftpb.ConfState;
  appliedIndex : Z;
  lead : Z;
  selfRemoved : bool;
  read_states : list ReadState;
  responses : list (string * option error);
  onLeaderChange : bool;
  onRemovedSelf : bool;
  events : list event;
  ready_up : bool;
  propose_up : bool
}.

End Node.

Module Node.
Section Ops.
Context `{BadgerAPI} `{JsonLib} `{ProtoLib} `{CommandCodec}.
Context `{L : RaftLib} `{C : RaftCodec} `{S : MemoryStorageLib} `{U : UrlLib}.
Context (SegmentSizeBytes : nat) (cache : option Dynamic.protoDescriptorStore).

(** *** Field assignments *)

Definition set_n (d : Node) (v : RNode) : Node :=
  MkNode (id d) v (storage d) (transport d) (fsm d) (confState d) (appliedIndex d) (lead d)
    (selfRemoved d) (read_states d) (responses d) (onLeaderChange d) (onRemovedSelf d) (events d)
    (ready_up d) (propose_up d).
Definition set_storage (d : Node) (v : Storage.Storage) : Node :=
  MkNode (id d) (n d) v (transport d) (fsm d) (confState d) (appliedIndex d) (lead d)
    (selfRemoved d) (read_states d) (responses d) (onLeaderChange d) (onRemovedSelf d) (events d)
    (ready_up d) (propose_up d).
Definition set_transport (d : Node) (v : Transport.Transport) : Node :=
  MkNode (id d) (n d) (storage d) v (fsm d) (confState d) (appliedIndex d) (lead d)
    (selfRemoved d) (read_states d) (responses d) (onLeaderChange d) (onRemovedSelf d) (events d)
    (ready_up d) (propose_up d).
Definition set_fsm (d : Node) (v : Badger.store) : Node :=
  MkNode (id d) (n d) (storage d) (transport d) v (confState d) (appliedIndex d) (lead d)
    (selfRemoved d) (read_states d) (responses d) (onLeaderChange d) (onRemovedSelf d) (events d)
    (ready_up d) (propose_up d).
Definition setConfState (d : Node) (v : raftpb.ConfState) : Node :=
  MkNode (id d) (n d) (storage d) (transport d) (fsm d) v (appliedIndex d) (lead d)
    (selfRemoved d) (read_states d) (responses d) (onLeaderChange d) (onRemovedSelf d) (events d)
    (ready_up d) (propose_up d).
Definition setAppliedIndex (d : Node) (v : Z) : Node :=
  MkNode (id d) (n d) (storage d) (transport d) (fsm d) (confState d) v (lead d)
    (selfRemoved d) (read_states d) (responses d) (onLeaderChange d) (onRemovedSelf d) (events d)
    (ready_up d) (propose_up d).
Definition setLead (d : Node) (v : Z) : Node :=
  MkNode (id d) (n d) (storage d) (transport d) (fsm d) (confState d) (appliedIndex d) v
    (selfRemoved d) (read_states d) (responses d) (onLeaderChange d) (onRemovedSelf d) (events d)
    (ready_up d) (propose_up d).
Definition setSelfRemoved (d : Node) (v : bool) : Node :=
  MkNode (id d) (n d) (storage d) (transport d) (fsm d) (confState d) (appliedIndex d) (lead d)
    v (read_states d) (responses d) (onLeaderChange d) (onRemovedSelf d) (events d)
    (ready_up d) (propose_up d).
Definition set_read_states (d : Node) (v : list ReadState) : Node :=
  MkNode (id d) (n d) (storage d) (transport d) (fsm d) (confState d) (appliedIndex d) (lead d)
    (selfRemoved d) v (responses d) (onLeaderChange d) (onRemovedSelf d) (events d)
    (ready_up d) (propose_up d).
Definition set_responses (d : Node) (v : list (string * option error)) : Node :=
  MkNode (id d) (n d) (storage d) (transport d) (fsm d) (confState d) (appliedIndex d) (lead d)
    (selfRemoved d) (read_states d) v (onLeaderChange d) (onRemovedSelf d) (events d)
    (ready_up d) (propose_up d).
Definition set_events (d : Node) (v : list event) : Node :=
  MkNode (id d) (n d) (storage d) (transport d) (fsm d) (confState d) (appliedIndex d) (lead d)
    (selfRemoved d) (read_states d) (responses d) (onLeaderChange d) (onRemovedSelf d) v
    (ready_up d) (propose_up d).
Definition set_up (d : Node) (r p : bool) : Node :=
  MkNode (id d) (n d) (storage d) (transport d) (fsm d) (confState d) (appliedIndex d) (lead d)
    (selfRemoved d) (read_states d) (responses d) (onLeaderChange d) (onRemovedSelf d) (events d)
    r p.

Definition WithLeaderChangeHook (d : Node) : Node :=
  MkNode (id d) (n d) (storage d) (transport d) (fsm d) (confState d) (appliedIndex d) (lead d)
    (selfRemoved d) (read_states d) (responses d) true (onRemovedSelf d) (events d)
    (ready_up d) (propose_up d).
Definition WithRemovedSelfHook (d : Node) : Node :=
  MkNode (id d) (n d) (storage d) (transport d) (fsm d) (confState d) (appliedIndex d) (lead d)
    (selfRemoved d) (read_states d) (responses d) (onLeaderChange d) true (events d)
    (ready_up d) (propose_up d).

Definition IsLeader (d : Node) : bool := lead d =? id d.

Definition Leader (d : Node) : Z := lead d.

(** *** The parts of [processReady] *)

Definition handleLeaderChange (d : Node) (newLeader : Z) : Node :=
  if newLeader =? lead d then d
  else
    let prevLeader := lead d in
    let d := setLead d newLeader in
    if onLeaderChange d then set_events d (events d ++ [LeaderChanged prevLeader newLeader]) else d.

(** [node.readStatesNotifier <- rs]: two fit. *)
Definition notify_read (d : Node) (rs : ReadState) : outcome Node :=
  if (length (read_states d) <? 2)%nat then Ret (set_read_states d (read_states d ++ [rs]))
  else Hang.

(** The loop from the last read state of [l] down: the position of the first
    that is met with the index applied. *)
Fixpoint last_met (applied : Z) (l : list ReadState) : option nat :=
  match l with
  | [] => None
  | rs :: l =>
      match last_met applied l with
      | Some i => Some (Datatypes.S i)
      | None => if rs_Index rs <=? applied then Some O else None
      end
  end.

Definition respondToReadStates (d : Node) (readStates : list ReadState)
    : outcome (Node * list ReadState) :=
  match last readStates with
  | None => Ret (d, [])
  | Some rs =>
      if rs_Index rs <=? appliedIndex d then d ← notify_read d rs; Ret (d, [])
      else
        match last_met (appliedIndex d) readStates with
        | Some i =>
            match readStates !! i with
            | Some rs => d ← notify_read d rs; Ret (d, drop (Datatypes.S i) readStates)
            | None => Panic "index out of range"
            end
        | None => Ret (d, readStates)
        end
  end.

Definition patch_conf (cs : raftpb.ConfState) (m : raftpb.Message) : outcome raftpb.Message :=
  match raftpb.m_Type m, raftpb.m_Snapshot m with
  | raftpb.MsgSnap, Some s =>
      let md := raftpb.Metadata s in
      Ret (raftpb.set_Snapshot m
             (Some (raftpb.MkSnapshot (raftpb.sn_Data s)
                      (raftpb.MkMeta cs (raftpb.md_Index md) (raftpb.md_Term md)))))
  | raftpb.MsgSnap, None => Panic "invalid memory address or nil pointer dereference"
  | _, _ => Ret m
  end.

Fixpoint patch_all (cs : raftpb.ConfState) (l : list raftpb.Message)
    : outcome (list raftpb.Message) :=
  match l with
  | [] => Ret []
  | m :: l => m ← patch_conf cs m; l ← patch_all cs l; Ret (m :: l)
  end.

Definition getMessagesToPublish (d : Node) (rd : Ready) : outcome (list raftpb.Message) :=
  patch_all (confState d) (rd_Messages rd).

Definition applySnapshotToFSM (d : Node) (snapshot : raftpb.Snapshot) : Node * option error :=
  if IsEmptySnap snapshot then (d, None)
  else
    let md := raftpb.Metadata snapshot in
    if raftpb.md_Index md <=? appliedIndex d
    then (d, Some (OtherError "snapshot index less then applied index"))
    else
      match Replicate.RestoreSnapshot (fsm d) snapshot with
      | (b, Some _) => (set_fsm d b, Some (OtherError "failed to restore FSM snapshot"))
      | (b, None) =>
          (setConfState (setAppliedIndex (set_fsm d b) (raftpb.md_Index md)) (raftpb.md_ConfState md),
           None)
      end.

(** The differences are of [uint64]s. *)
Definition getEntriesToApply (d : Node) (committedEntries : list raftpb.Entry)
    : outcome (list raftpb.Entry) :=
  match committedEntries with
  | [] => Ret []
  | e :: _ =>
      let firstIndex := raftpb.Index e in
      if u64 (appliedIndex d + 1) <? firstIndex
      then Panic "First index of committed entries is greater than applied index + 1"
      else
        let skip := u64 (appliedIndex d - firstIndex + 1) in
        if skip <? Z.of_nat (length committedEntries)
        then Ret (drop (Z.to_nat skip) committedEntries)
        else Ret []
  end.

(** [clk i] is what the application of the entry [i] meets: the node's clock
    and whether its context is done. *)
Definition applyNormalEntry (clk : Z -> env) (d : Node) (entry : raftpb.Entry)
    : outcome (Node * option error) :=
  if raftpb.Index entry <=? appliedIndex d then Ret (d, None)
  else
    '(b, err) ← Fsm.Apply cache (clk (raftpb.Index entry)) (fsm d) (raftpb.Data entry);
    Ret (set_fsm d b, err).

Definition applyConfChange (d : Node) (entry : raftpb.Entry)
    : outcome (Node * (bool * option error)) :=
  match ConfChange_Unmarshal (raftpb.Data entry) with
  | inl err => Ret (d, (false, Some err))
  | inr cc =>
      let '(n', cs) := RN_ApplyConfChange (n d) cc in
      let d := setConfState (set_n d n') cs in
      match raftpb.cc_Type cc with
      | raftpb.ConfChangeAddNode | raftpb.ConfChangeAddLearnerNode =>
          if decide (raftpb.Context_ cc = "") then Ret (d, (false, None))
          else tr ← Transport.AddPeer (transport d) (raftpb.NodeID cc) (raftpb.Context_ cc);
               Ret (set_transport d tr, (false, None))
      | raftpb.ConfChangeRemoveNode =>
          if raftpb.NodeID cc =? id d then Ret (d, (true, None))
          else tr ← Transport.RemovePeer (transport d) (raftpb.NodeID cc);
               Ret (set_transport d tr, (false, None))
      | raftpb.ConfChangeUpdateNode =>
          if decide (raftpb.Context_ cc = "") then Ret (d, (false, None))
          else tr ← Transport.UpdatePeer (transport d) (raftpb.NodeID cc) (raftpb.Context_ cc);
               Ret (set_transport d tr, (false, None))
      end
  end.

(** The loop: [selfRemove] is assigned by every membership change. *)
Fixpoint apply_loop (clk : Z -> env) (d : Node) (selfRemove : bool) (entries : list raftpb.Entry)
    : outcome (Node * (bool * option error)) :=
  match entries with
  | [] => Ret (d, (selfRemove, None))
  | e :: entries =>
      match raftpb.Type_ e with
      | raftpb.EntryNormal =>
          if (length (raftpb.Data e) =? 0)%nat then apply_loop clk d selfRemove entries
          else
            '(d, err) ← applyNormalEntry clk d e;
            match err with
            | Some err => Ret (d, (selfRemove, Some err))
            | None => apply_loop clk d selfRemove entries
            end
      | raftpb.EntryConfChange =>
          '(d, (selfRemove, err)) ← applyConfChange d e;
          match err with
          | Some err => Ret (d, (selfRemove, Some err))
          | None => apply_loop clk d selfRemove entries
          end
      | raftpb.EntryConfChangeV2 => Ret (d, (selfRemove, Some (OtherError "unknown entry type")))
      end
  end.

Definition applyEntries (clk : Z -> env) (d : Node) (entries : list raftpb.Entry)
    : outcome (Node * (bool * option error)) :=
  '(d, (selfRemove, err)) ← apply_loop clk d false entries;
  match err with
  | Some err => Ret (d, (selfRemove, Some err))
  | None =>
      match last entries with
      | Some e => Ret (setAppliedIndex d (raftpb.Index e), (selfRemove, None))
      | None => Panic "index out of range [-1]"
      end
  end.

(** [stopNotifier <- struct{}{}] from the ready loop: the proposal handler is
    the only other receiver, and it returns. *)
Definition scheduleSelfRemoval (d : Node) : outcome Node :=
  let d := setSelfRemoved d true in
  let d := if onRemovedSelf d then set_events d (events d ++ [RemovedSelf]) else d in
  if propose_up d then Ret (set_up d (ready_up d) false) else Hang.

(** The read states are answered before and after the entries are applied;
    those still pending then are dropped. *)
Definition finish_ready (d : Node) (rd : Ready) (pending : list ReadState) : outcome Node :=
  d ← (match rd_ReadStates rd with
       | [] => Ret d
       | _ => '(d, _) ← respondToReadStates d pending; Ret d
       end);
  Ret (set_n d (RN_Advance (n d))).

Definition apply_committed (clk : Z -> env) (d : Node) (rd : Ready)
    : outcome (Node * (bool * option error)) :=
  entries ← getEntriesToApply d (rd_CommittedEntries rd);
  match entries with
  | [] => Ret (d, (false, None))
  | _ => applyEntries clk d entries
  end.

(** The snapshot is taken by a goroutine of its own, [takeSnapshotIfNeeded]. *)
Definition processReady (clk : Z -> env) (d : Node) (rd : Ready) : outcome (Node * option error) :=
  let d := match rd_Lead rd with Some l => handleLeaderChange d l | None => d end in
  '(d, pending) ← (match rd_ReadStates rd with
                   | [] => Ret (d, [])
                   | rss => respondToReadStates d rss
                   end);
  '(st, err) ← Storage.SaveState SegmentSizeBytes (storage d) rd;
  let d := set_storage d st in
  match err with
  | Some err => Ret (d, Some err)
  | None =>
      msgs ← getMessagesToPublish d rd;
      tr ← Transport.Send (transport d) msgs;
      let d := set_transport d tr in
      let '(d, err) := if IsEmptySnap (rd_Snapshot rd) then (d, None)
                       else applySnapshotToFSM d (rd_Snapshot rd) in
      match err with
      | Some err => Ret (d, Some err)
      | None =>
          '(d, (selfRemove, err)) ← apply_committed clk d rd;
          match err with
          | Some err => Ret (d, Some err)
          | None =>
              if (selfRemove : bool) then d ← scheduleSelfRemoval d; Ret (d, None)
              else d ← finish_ready d rd pending; Ret (d, None)
          end
      end
  end.

Definition takeSnapshotIfNeeded (d : Node) (force : bool) : outcome Node :=
  snapshotIndex ← Storage.LastSnapshotIndex (storage d);
  if negb force && (u64 (appliedIndex d - snapshotIndex) <? defaultSnapshotCount) then Ret d
  else
    match Replicate.CreateSnapshot (fsm d) with
    | inl _ => Ret d
    | inr (_, data) =>
        '(st, _) ← Storage.CreateSnapshot (storage d) (appliedIndex d) (confState d) data;
        Ret (set_storage d st)
    end.

(** *** Read index *)

Definition ReadIndex (d : Node) (rctx : string) : Node * result Z :=
  match RN_ReadIndex (n d) rctx with
  | (n', Some err) => (set_n d n', inl err)
  | (n', None) => (set_n d n', inr (appliedIndex d))
  end.

(** Whoever waits takes the oldest read state; [ended] is the error when the
    timeout or the context comes first. *)
Definition WaitForReadState (d : Node) (ended : error) : Node * result ReadState :=
  match read_states d with
  | rs :: l => (set_read_states d l, inr rs)
  | [] => (d, inl ended)
  end.

(** *** The goroutines *)

(** [shutdown] is what the HTTP server's shutdown answers. *)
Definition Stop (shutdown : option error) (d : Node) : outcome Node :=
  '(tr, _) ← Transport.Stop shutdown (transport d);
  '(st, _) ← Storage.Close (storage d);
  Ret (set_n (set_storage (set_transport d tr) st) (RN_Stop (n d))).

(** The ready loop returns: the deferred [Stop]. *)
Definition stop_ready (shutdown : option error) (d : Node) : outcome Node :=
  d ← Stop shutdown d; Ret (set_up d false (propose_up d)).

(** Before the loop. *)
Definition ready_init (d : Node) : outcome Node :=
  snap ← Storage.Snapshot (storage d);
  let md := raftpb.Metadata snap in
  let d := setAppliedIndex (setConfState d (raftpb.md_ConfState md)) (raftpb.md_Index md) in
  Ret (setLead d (RN_Lead (n d))).

Inductive ready_event : Type :=
  | Tick
  | ErrReceived (err : error)
  | ReadyBatch (clk : Z -> env) (rd : Ready)
  | CtxDone
  | StopReceived.

Definition readyHandler (shutdown : option error) (d : Node) (ev : ready_event) : outcome Node :=
  match ev with
  | Tick => Ret (set_n d (RN_Tick (n d)))
  | ErrReceived _ | CtxDone | StopReceived => stop_ready shutdown d
  | ReadyBatch clk rd =>
      if selfRemoved d then Ret d
      else
        '(d, err) ← processReady clk d rd;
        match err with
        | Some _ => stop_ready shutdown d
        | None => Ret d
        end
  end.

Inductive propose_event : Type :=
  | Proposal (cmdID : string) (cmd : bytes)
  | ConfProposal (cc : raftpb.ConfChange)
  | ProposeCtxDone
  | ProposeStop.

(** [node.proposeRespNotifier <- resp]: one fits. *)
Definition respond (d : Node) (cmdID : string) (err : option error) : outcome Node :=
  if (length (responses d) <? 1)%nat then Ret (set_responses d (responses d ++ [(cmdID, err)]))
  else Hang.

(** [node.errChan <- err; return]: the ready loop receives the error and
    stops. *)
Definition fail_propose (shutdown : option error) (d : Node) (err : error) : outcome Node :=
  if ready_up d then
    d ← readyHandler shutdown (set_up d true false) (ErrReceived err); Ret d
  else Hang.

Definition proposeHandler (shutdown : option error) (d : Node) (ev : propose_event)
    : outcome Node :=
  match ev with
  | Proposal cmdID cmd =>
      if selfRemoved d
      then respond d cmdID (Some (OtherError "node has been removed from cluster"))
      else
        match RN_Propose (n d) cmd with
        | (n', Some err) => fail_propose shutdown (set_n d n') err
        | (n', None) => respond (set_n d n') cmdID None
        end
  | ConfProposal cc =>
      if selfRemoved d then Ret d
      else
        match RN_ProposeConfChange (n d) cc with
        | (n', Some err) => fail_propose shutdown (set_n d n') err
        | (n', None) => Ret (set_n d n')
        end
  | ProposeCtxDone | ProposeStop => Ret (set_up d (ready_up d) false)
  end.

(** *** What rafthttp calls *)

Definition Process (d : Node) (m : raftpb.Message) : Node * option error :=
  let '(n', err) := RN_Step (n d) m in (set_n d n', err).

Definition IsIDRemoved (cluster : Cluster) (i : Z) : bool := IsNodeRemoved cluster i.

Definition ReportUnreachable (d : Node) (i : Z) : Node := set_n d (RN_ReportUnreachable (n d) i).

Definition ReportSnapshot (d : Node) (i : Z) (ok : bool) : Node :=
  set_n d (RN_ReportSnapshot (n d) i ok).

(** *** Starting *)

(** The fields of the configuration the node passes on to raft. *)
Definition raft_config (rc : raft_Config) : raft_Config :=
  MkRaftConfig (rc_ID rc) (ElectionTick rc) (HeartbeatTick rc) 0 false (MaxSizePerMsg rc)
    (MaxCommittedSizePerReady rc) (MaxUncommittedEntriesSize rc) (MaxInflightMsgs rc)
    (MaxInflightBytes rc) (CheckQuorum rc) (PreVote rc) (ReadOnlyOption rc)
    (DisableProposalForwarding rc) (DisableConfChangeValidation rc) (StepDownOnRemoval rc).

(** [newNode] and [Start] on the disk [dk] with the state machine's store:
    the transport is started before the ready loop, so nobody receives from
    the error channel; [started] is what rafthttp's [Start] answers.  The
    hooks are set later. *)
Definition Start (dk : disk) (b : Badger.store) (rc : RaftConfig) (started : option error)
    : outcome (result Node) :=
  '(st, err) ← Storage.Initialize SegmentSizeBytes (Storage.newStorage dk);
  match err with
  | Some err => Ret (inl err)
  | None =>
      let conf := raft_config (rcfg rc) in
      let rn := if Storage.Existing st then RestartNode conf
                else StartNode conf (map_to_list (Peers rc)).*1 in
      tr ← Transport.Start false started (Transport.NewTransport (rc_ID (rcfg rc)) (Peers rc));
      d ← ready_init (MkNode (rc_ID (rcfg rc)) rn st tr b (raftpb.MkConfState [] []) 0 0 false
                        [] [] false false [] true true);
      Ret (inr d)
  end.

End Ops.
End Node.
