(* ===== verification/NodeLog.v ===== *)
(** * What the ready loop does to the state machine

    Batches of committed entries overlap and repeat; the node applies each
    entry once, in order.  The theorems follow the entries through
    [processReady]: what the state machine holds after any number of batches,
    what a restarted node ends with, what happens to an entry that cannot be
    applied, and what read states and membership changes do. *)

From S2P Require Import Prelude Errors Utils Mvcc BadgerApi MemBadger Codecs MemCodecs Badger.
From S2P Require Import BadgerReads BadgerWrites Command MemCommand Fsm FsmLog RaftApi Config.
From S2P Require Import Urls Transport Replication WalRecord MemRaftCodec WalRep WalLog Snapshotter.
From S2P Require Import Storage StorageLog StorageMem Node.
Import WalLog StorageLog StorageMem.

Module NodeLog.

(** ** Applying the pending entries *)

Section Apply.
Context `{BA : BadgerAPI} `{JL : JsonLib} `{PL : ProtoLib} `{CC : CommandCodec}.
Context `{L : RaftLib} `{C : RaftCodec} `{S : MemoryStorageLib} `{U : UrlLib}.
Context (cache : option Dynamic.protoDescriptorStore) (clk : Z -> env).

(** The commands among the entries, each with what its application meets. *)
Definition payload (ents : list raftpb.Entry) : list (env * bytes) :=
  omap (fun e =>
    match raftpb.Type_ e, raftpb.Data e with
    | raftpb.EntryNormal, _ :: _ => Some (clk (raftpb.Index e), raftpb.Data e)
    | _, _ => None
    end) ents.

(** Commands one after the other, up to the first that fails. *)
Fixpoint apply_until (b : Badger.store) (l : list (env * bytes))
    : outcome (Badger.store * option error) :=
  match l with
  | [] => Ret (b, None)
  | (e, data) :: l =>
      '(b, err) ← Fsm.Apply cache e b data;
      match err with Some _ => Ret (b, err) | None => apply_until b l end
  end.

(** A membership change that takes this node out. *)
Definition removes (i : Z) (cc : raftpb.ConfChange) : bool :=
  match raftpb.cc_Type cc with
  | raftpb.ConfChangeRemoveNode => raftpb.NodeID cc =? i
  | _ => false
  end.

(** Whether the last membership change among the entries does. *)
Definition removal (i : Z) (r : bool) (ents : list raftpb.Entry) : bool :=
  fold_left (fun r e =>
    match raftpb.Type_ e, ConfChange_Unmarshal (raftpb.Data e) with
    | raftpb.EntryConfChange, inr cc => removes i cc
    | _, _ => r
    end) ents r.

(** Entries raft can commit: membership changes are readable, and not in the
    newer format, which is never proposed. *)
Definition entry_ok (e : raftpb.Entry) : Prop :=
  match raftpb.Type_ e with
  | raftpb.EntryNormal => True
  | raftpb.EntryConfChange => exists cc, ConfChange_Unmarshal (raftpb.Data e) = inr cc
  | raftpb.EntryConfChangeV2 => False
  end.

(** What applying entries may change in a node. *)
Definition evolve (d : Node) (b : Badger.store) (rn : RNode) (cs : raftpb.ConfState)
    (tr : Transport.Transport) : Node :=
  Node.set_transport (Node.setConfState (Node.set_n (Node.set_fsm d b) rn) cs) tr.

Lemma evolve_same d : d = evolve d (fsm d) (n d) (confState d) (transport d).
Proof. by destruct d. Qed.

(** One membership change: the state machine does not see it. *)
Lemma applyConfChange_ok d e cc : ConfChange_Unmarshal (raftpb.Data e) = inr cc ->
  Transport.transport_up (transport d) ->
  exists rn cs tr, Node.applyConfChange d e
      = Ret (evolve d (fsm d) rn cs tr, (removes (id d) cc, None)) /\ Transport.transport_up tr.
Proof.
  intros E Ht. unfold Node.applyConfChange, removes. rewrite E.
  destruct (RN_ApplyConfChange (n d) cc) as [rn cs]. exists rn, cs.
  destruct (raftpb.cc_Type cc).
  - case_decide; [by exists (transport d)|].
    destruct (Transport.AddPeer_up (transport d) (raftpb.NodeID cc) (raftpb.Context_ cc) Ht) as (tr & E' & ?).
    exists tr. cbn [transport Node.setConfState Node.set_n]. by rewrite E', ret_bind.
  - cbn [id Node.setConfState Node.set_n]. destruct (raftpb.NodeID cc =? id d).
    + by exists (transport d).
    + destruct (Transport.RemovePeer_up (transport d) (raftpb.NodeID cc) Ht) as (tr & E' & ?).
      exists tr. cbn [transport Node.setConfState Node.set_n]. by rewrite E', ret_bind.
  - case_decide; [by exists (transport d)|].
    destruct (Transport.UpdatePeer_up (transport d) (raftpb.NodeID cc) (raftpb.Context_ cc) Ht) as (tr & E' & ?).
    exists tr. cbn [transport Node.setConfState Node.set_n]. by rewrite E', ret_bind.
  - case_decide; [by exists (transport d)|].
    destruct (Transport.AddPeer_up (transport d) (raftpb.NodeID cc) (raftpb.Context_ cc) Ht) as (tr & E' & ?).
    exists tr. cbn [transport Node.setConfState Node.set_n]. by rewrite E', ret_bind.
Qed.

Lemma apply_loop_ok ents : forall d r,
  Forall (fun e => appliedIndex d < raftpb.Index e) ents -> Forall entry_ok ents ->
  Transport.transport_up (transport d) ->
  match apply_until (fsm d) (payload ents) with
  | Ret (b, err) => exists rn cs tr r',
      Node.apply_loop cache clk d r ents = Ret (evolve d b rn cs tr, (r', err)) /\
      Transport.transport_up tr /\ (err = None -> r' = removal (id d) r ents)
  | Panic s => Node.apply_loop cache clk d r ents = Panic s
  | Hang => Node.apply_loop cache clk d r ents = Hang
  end.
Proof.
  induction ents as [|e ents IH]; intros d r Hi Hok Ht.
  { exists (n d), (confState d), (transport d), r. simpl. by rewrite <- evolve_same. }
  apply Forall_cons in Hi as [Hi His], Hok as [Hok Hoks].
  unfold removal. cbn [Node.apply_loop fold_left]. fold (removal (id d)).
  unfold payload. cbn [omap list_omap]. fold (payload ents). unfold entry_ok in Hok.
  destruct (raftpb.Type_ e); [|destruct Hok as [cc Ecc]|done].
  - destruct (raftpb.Data e) as [|x data] eqn:Ed; [by apply IH|].
    cbn [length Nat.eqb apply_until]. unfold Node.applyNormalEntry.
    rewrite (proj2 (Z.leb_gt _ _)) by done. rewrite Ed.
    destruct (Fsm.Apply _ _ _ _) as [[b [err|]]|s|]; [| |done|done]; rewrite !ret_bind; cbv beta iota.
    + exists (n d), (confState d), (transport d), r. split; [by destruct d|]. split; done.
    + exact (IH (Node.set_fsm d b) r His Hoks Ht).
  - destruct (applyConfChange_ok d e cc Ecc Ht) as (rn & cs & tr & -> & Htr).
    rewrite ret_bind. cbv beta iota. rewrite Ecc.
    exact (IH (evolve d (fsm d) rn cs tr) (removes (id d) cc) His Hoks Htr).
Qed.

(** ** The entries of a batch *)

Definition pending (a : Z) (ents : list raftpb.Entry) : list raftpb.Entry :=
  filter (fun e => a < raftpb.Index e) ents.

Lemma pending_all a ents : forall f, contiguous f ents -> a < f -> pending a ents = ents.
Proof.
  unfold pending. induction ents as [|e ents IH]; intros f Hc Hf; [done|].
  destruct Hc as [Ee Hc]. rewrite filter_cons_True by lia. f_equal. apply (IH (f + 1)); [done|lia].
Qed.

Lemma pending_drop a ents : forall f, contiguous f ents -> f <= a + 1 ->
  pending a ents = drop (Z.to_nat (a - f + 1)) ents.
Proof.
  induction ents as [|e ents IH]; intros f Hc Hf; [by rewrite drop_nil|].
  destruct (decide (a < f)) as [Hi|Hi].
  - rewrite (pending_all a _ f) by done. by replace (Z.to_nat (a - f + 1)) with O by lia.
  - destruct Hc as [Ee Hc]. unfold pending in *. rewrite filter_cons_False by lia.
    rewrite (IH (f + 1)) by (done || lia).
    replace (Z.to_nat (a - f + 1)) with (Datatypes.S (Z.to_nat (a - (f + 1) + 1))) by lia. done.
Qed.

Lemma pending_contiguous a ents f : contiguous f ents -> f <= a + 1 ->
  contiguous (a + 1) (pending a ents).
Proof.
  intros Hc Hf. rewrite (pending_drop _ _ f) by done.
  rewrite <- (take_drop (Z.to_nat (a - f + 1)) ents) in Hc.
  apply contiguous_app in Hc as [_ Hc]. rewrite length_take in Hc.
  destruct (decide (Z.to_nat (a - f + 1) <= length ents)%nat) as [Hl|Hl].
  - rewrite Nat.min_l in Hc by done.
    by replace (a + 1) with (f + Z.of_nat (Z.to_nat (a - f + 1))) by lia.
  - by rewrite drop_ge by lia.
Qed.

Lemma pending_length a ents f : contiguous f ents -> f <= a + 1 ->
  Z.of_nat (length (pending a ents)) = Z.max 0 (f + Z.of_nat (length ents) - 1 - a).
Proof. intros Hc Hf. rewrite (pending_drop _ _ f), length_drop by done. lia. Qed.

Lemma pending_ok a ents : Forall entry_ok ents ->
  Forall (fun e => a < raftpb.Index e) (pending a ents) /\ Forall entry_ok (pending a ents).
Proof.
  intros Hok. split; apply Forall_forall; intros e He; apply list_elem_of_filter in He as [? He];
    [done|by eapply Forall_forall in Hok].
Qed.

Lemma getEntriesToApply_ok d ents f : contiguous f ents -> 0 <= f <= appliedIndex d + 1 ->
  appliedIndex d + 1 < two64 ->
  Node.getEntriesToApply d ents = Ret (pending (appliedIndex d) ents).
Proof.
  intros Hc Hf Ha. unfold Node.getEntriesToApply.
  destruct ents as [|e l]; [done|]. rewrite (proj1 Hc).
  unfold u64. rewrite !Z.mod_small by lia.
  destruct (Z.ltb_spec (appliedIndex d + 1) f); [lia|].
  rewrite (pending_drop _ _ f) by (done || lia).
  destruct (Z.ltb_spec (appliedIndex d - f + 1) (Z.of_nat (length (e :: l)))); [done|].
  by rewrite drop_ge by lia.
Qed.

Lemma contiguous_last f ents e : contiguous f ents -> last ents = Some e ->
  raftpb.Index e = f + Z.of_nat (length ents) - 1.
Proof.
  revert f. induction ents as [|x ents IH]; intros f Hc El; [done|]. destruct Hc as [Ex Hc].
  destruct ents as [|y ents]; [injection El as <-; simpl; lia|].
  rewrite (IH (f + 1) Hc El). cbn [length]. lia.
Qed.

(** Where a batch takes the applied index. *)
Definition advance (a f : Z) (ents : list raftpb.Entry) : Z :=
  Z.max a (f + Z.of_nat (length ents) - 1).

Lemma apply_committed_ok d rd f : let ents := rd_CommittedEntries rd in
  contiguous f ents -> 0 <= f <= appliedIndex d + 1 -> appliedIndex d + 1 < two64 ->
  Forall entry_ok ents -> Transport.transport_up (transport d) ->
  match apply_until (fsm d) (payload (pending (appliedIndex d) ents)) with
  | Ret (b, None) => exists rn cs tr,
      Node.apply_committed cache clk d rd
        = Ret (Node.setAppliedIndex (evolve d b rn cs tr) (advance (appliedIndex d) f ents),
               (removal (id d) false (pending (appliedIndex d) ents), None)) /\ Transport.transport_up tr
  | Ret (b, Some err) => exists rn cs tr r,
      Node.apply_committed cache clk d rd = Ret (evolve d b rn cs tr, (r, Some err)) /\
      Transport.transport_up tr
  | Panic s => Node.apply_committed cache clk d rd = Panic s
  | Hang => Node.apply_committed cache clk d rd = Hang
  end.
Proof.
  intros ents Hc Hf Ha Hok Ht. unfold Node.apply_committed.
  rewrite (getEntriesToApply_ok d _ f) by done. rewrite ret_bind. fold ents.
  pose proof (pending_contiguous _ _ _ Hc (proj2 Hf)) as Hcp.
  pose proof (pending_length _ _ _ Hc (proj2 Hf)) as Hlen.
  destruct (pending_ok (appliedIndex d) ents Hok) as [Hi Hokp].
  unfold advance. destruct (pending (appliedIndex d) ents) as [|e0 es] eqn:Ep.
  - simpl in Hlen |- *. exists (n d), (confState d), (transport d). split; [|done].
    rewrite <- evolve_same. rewrite Z.max_l by lia. by destruct d.
  - rewrite <- Ep in *. unfold Node.applyEntries.
    pose proof (apply_loop_ok (pending (appliedIndex d) ents) d false Hi Hokp Ht) as Hl.
    destruct (apply_until _ _) as [[b [err|]]|s|]; [| |by rewrite Hl|by rewrite Hl].
    + destruct Hl as (rn & cs & tr & r & -> & ? & _). rewrite ret_bind. cbv beta iota. eauto 10.
    + destruct Hl as (rn & cs & tr & r & -> & ? & ->); [|done]. rewrite ret_bind. cbv beta iota.
      destruct (last (pending (appliedIndex d) ents)) as [e|] eqn:El;
        [|apply last_None in El; congruence].
      exists rn, cs, tr. split; [|done]. rewrite (contiguous_last _ _ _ Hcp El).
      assert (0 < Z.of_nat (length (pending (appliedIndex d) ents))) by (rewrite Ep; simpl; lia).
      do 3 f_equal. lia.
Qed.


(** ** A batch *)

Context (sz : nat).

(** A batch without read states and without a snapshot; its snapshot messages
    carry one. *)
Definition plain (rd : Ready) : Prop :=
  rd_ReadStates rd = [] /\ IsEmptySnap (rd_Snapshot rd) = true /\
  Forall (fun m => raftpb.m_Type m = raftpb.MsgSnap -> is_Some (raftpb.m_Snapshot m)) (rd_Messages rd).

Lemma patch_all_ok cs l :
  Forall (fun m => raftpb.m_Type m = raftpb.MsgSnap -> is_Some (raftpb.m_Snapshot m)) l ->
  exists l', Node.patch_all cs l = Ret l'.
Proof.
  induction 1 as [|m l Hm _ [l' IH]]; simpl; [eauto|].
  assert (exists m', Node.patch_conf cs m = Ret m') as [m' ->].
  { unfold Node.patch_conf. destruct (raftpb.m_Type m); try by eauto.
    destruct Hm as [s ->]; eauto. }
  rewrite ret_bind, IH. eauto.
Qed.

(** What the leader hook may have changed: the leader and the calls made. *)
Definition soft (d : Node) (rd : Ready) : Node :=
  match rd_Lead rd with Some l => Node.handleLeaderChange d l | None => d end.

Lemma soft_same d rd : id (soft d rd) = id d /\ storage (soft d rd) = storage d /\
  transport (soft d rd) = transport d /\ fsm (soft d rd) = fsm d /\
  appliedIndex (soft d rd) = appliedIndex d /\ selfRemoved (soft d rd) = selfRemoved d /\
  propose_up (soft d rd) = propose_up d /\ ready_up (soft d rd) = ready_up d.
Proof.
  unfold soft. destruct (rd_Lead rd) as [l|]; [|done]. unfold Node.handleLeaderChange.
  destruct (l =? lead d); [done|]. by destruct (onLeaderChange d) eqn:E; cbn; rewrite E.
Qed.

(** [d'] is [d] after the batch saved as [st], but for the applied index. *)
Definition went (d d' : Node) (st : Storage.Storage) (b : Badger.store) : Prop :=
  id d' = id d /\ storage d' = st /\ fsm d' = b /\ Transport.transport_up (transport d') /\
  selfRemoved d' = selfRemoved d /\ propose_up d' = propose_up d /\ ready_up d' = ready_up d.

Lemma processReady_ok d rd f st : let ents := rd_CommittedEntries rd in
  plain rd -> Storage.SaveState sz (storage d) rd = Ret (st, None) ->
  contiguous f ents -> 0 <= f <= appliedIndex d + 1 -> appliedIndex d + 1 < two64 ->
  Forall entry_ok ents -> Transport.transport_up (transport d) ->
  match apply_until (fsm d) (payload (pending (appliedIndex d) ents)) with
  | Ret (b, None) =>
      if removal (id d) false (pending (appliedIndex d) ents)
      then propose_up d = true ->
        exists d', Node.processReady sz cache clk d rd = Ret (d', None) /\
          storage d' = st /\ fsm d' = b /\ selfRemoved d' = true /\ ready_up d' = ready_up d /\
          propose_up d' = false
      else
        exists d', Node.processReady sz cache clk d rd = Ret (d', None) /\ went d d' st b /\
          appliedIndex d' = advance (appliedIndex d) f ents
  | Ret (b, Some err) =>
      exists d', Node.processReady sz cache clk d rd = Ret (d', Some err) /\ went d d' st b /\
        appliedIndex d' = appliedIndex d
  | Panic s => Node.processReady sz cache clk d rd = Panic s
  | Hang => Node.processReady sz cache clk d rd = Hang
  end.
Proof.
  intros ents (Hr & Hs & Hm) Hst Hc Hf Ha Hok Ht. unfold Node.processReady.
  fold (soft d rd). destruct (soft_same d rd) as (E1 & E2 & E3 & E4 & E5 & E6 & E7 & E8).
  set (d0 := soft d rd) in *. clearbody d0. rewrite Hr, ret_bind. cbv beta iota.
  rewrite E2, Hst, ret_bind. cbv beta iota. unfold Node.getMessagesToPublish.
  destruct (patch_all_ok (confState (Node.set_storage d0 st)) _ Hm) as [msgs ->]. rewrite ret_bind.
  cbn [transport Node.set_storage]. rewrite E3. destruct (Transport.Send_up _ msgs Ht) as (tr & -> & Htr).
  rewrite ret_bind, Hs. cbv beta iota zeta.
  set (d1 := Node.set_transport (Node.set_storage d0 st) tr).
  pose proof (apply_committed_ok d1 rd f) as Hac. cbv zeta in Hac.
  change (fsm d1) with (fsm d0) in Hac. change (appliedIndex d1) with (appliedIndex d0) in Hac.
  change (id d1) with (id d0) in Hac. rewrite E1, E4, E5 in Hac.
  specialize (Hac Hc Hf Ha Hok Htr). fold ents in Hac.
  destruct (apply_until _ _) as [[b [err|]]|s|]; [| |by rewrite Hac|by rewrite Hac].
  - destruct Hac as (rn & cs & tr' & r & -> & Htr'). rewrite ret_bind. cbv beta iota.
    eexists. split; [done|]. unfold went. cbn. by rewrite E1, E5, E6, E7, E8.
  - destruct Hac as (rn & cs & tr' & -> & Htr'). rewrite ret_bind. cbv beta iota.
    destruct (removal (id d) false (pending (appliedIndex d) ents)).
    + intros Hpu. unfold Node.scheduleSelfRemoval. cbv zeta.
      destruct (onRemovedSelf _); cbn; rewrite E7, Hpu; cbn;
        (eexists; split; [reflexivity|]); cbn; by rewrite E8.
    + unfold Node.finish_ready. rewrite Hr, !ret_bind.
      eexists. split; [done|]. unfold went. cbn. by rewrite E1, E6, E7, E8.
Qed.


(** ** Many batches of one log *)

Lemma payload_app l1 l2 : payload (l1 ++ l2) = payload l1 ++ payload l2.
Proof. apply omap_app. Qed.

Lemma apply_until_app l1 : forall b l2 b2, apply_until b (l1 ++ l2) = Ret (b2, None) ->
  exists b1, apply_until b l1 = Ret (b1, None) /\ apply_until b1 l2 = Ret (b2, None).
Proof.
  induction l1 as [|[e data] l1 IH]; intros b l2 b2; [by exists b|]. cbn [apply_until app].
  destruct (Fsm.Apply cache e b data) as [[b1 [err|]]|s|]; [done| |done|done].
  rewrite !ret_bind. cbv beta iota. apply IH.
Qed.

Lemma apply_until_log l : forall b b',
  FsmLog.apply_log cache b l = Ret (b', replicate (length l) None) ->
  apply_until b l = Ret (b', None).
Proof.
  unfold FsmLog.apply_log. induction l as [|[e data] l IH]; intros b b'; cbn [run apply_until].
  { by intros [= <-]. }
  cbn [fst snd]. destruct (Fsm.Apply cache e b data) as [[b1 r]|s|]; [|done|done].
  rewrite !ret_bind. cbv beta iota. destruct (run _ b1 l) as [[b2 rs]|s|] eqn:E; [|done|done].
  rewrite ret_bind. cbv beta iota. cbn [length replicate]. intros [= -> -> ->]. by apply IH.
Qed.

(** The entry does not take the node [i] out. *)
Definition keeps (i : Z) (e : raftpb.Entry) : Prop := removal i false [e] = false.

Lemma removal_keeps i ents : Forall (keeps i) ents -> removal i false ents = false.
Proof.
  induction 1 as [|e ents He _ IH]; [done|]. unfold keeps, removal in *. cbn [fold_left] in *.
  by rewrite He.
Qed.

(** Each batch carries a stretch of the log [lg] that starts at or before the
    first entry not applied; [a] and [a'] are what is applied before and
    after all of them. *)
Fixpoint windows (lg : list raftpb.Entry) (a : nat) (rds : list Ready) (a' : nat) : Prop :=
  match rds with
  | [] => a = a'
  | rd :: rds => exists j, (j <= a)%nat /\
      let c := rd_CommittedEntries rd in
      c = take (length c) (drop j lg) /\ (j + length c <= length lg)%nat /\
      windows lg (Nat.max a (j + length c)) rds a'
  end.

Lemma windows_le lg rds : forall a a', windows lg a rds a' -> (a <= a')%nat.
Proof.
  induction rds as [|rd rds IH]; intros a a'; simpl; [lia|].
  intros (j & _ & _ & _ & Hw%IH). lia.
Qed.

Definition stretch (lg : list raftpb.Entry) (a a' : nat) : list raftpb.Entry :=
  take (a' - a) (drop a lg).

Lemma stretch_split lg a a1 a' : (a <= a1 <= a')%nat ->
  stretch lg a a' = stretch lg a a1 ++ stretch lg a1 a'.
Proof.
  intros Ha. unfold stretch.
  replace (drop a1 lg) with (drop (a1 - a) (drop a lg)) by (rewrite drop_drop; f_equal; lia).
  rewrite take_take_drop. f_equal. lia.
Qed.

Lemma take_stretch lg a : take a lg = stretch lg 0 a.
Proof. unfold stretch. by rewrite Nat.sub_0_r. Qed.

Lemma window_contiguous lg j k : contiguous 1 lg -> (j <= length lg)%nat ->
  contiguous (Z.of_nat j + 1) (take k (drop j lg)).
Proof.
  intros Hc Hj. apply contiguous_take. rewrite <- (take_drop j lg) in Hc.
  apply contiguous_app in Hc as [_ Hc]. rewrite length_take, Nat.min_l in Hc by done.
  by rewrite Z.add_comm.
Qed.

Lemma window_pending lg j k a : contiguous 1 lg -> (j <= a)%nat -> (j + k <= length lg)%nat ->
  pending (Z.of_nat a) (take k (drop j lg)) = stretch lg a (Nat.max a (j + k)).
Proof.
  intros Hc Hj Hk. rewrite (pending_drop _ _ (Z.of_nat j + 1)); [|apply window_contiguous; [done|lia]|lia].
  replace (Z.to_nat (Z.of_nat a - (Z.of_nat j + 1) + 1)) with (a - j)%nat by lia.
  unfold stretch. destruct (decide (j + k <= a)%nat) as [Hle|Hle].
  - rewrite Nat.max_l, Nat.sub_diag by done. rewrite drop_ge; [done|]. rewrite length_take. lia.
  - replace k with (a - j + (j + k - a))%nat at 1 by lia.
    rewrite <- take_drop_commute, drop_drop. f_equal; [lia|f_equal; lia].
Qed.

Lemma run_batches lg rds : forall d a a' st b,
  contiguous 1 lg -> Z.of_nat (length lg) + 1 < two64 ->
  Forall entry_ok lg -> Forall (keeps (id d)) lg -> Forall plain rds ->
  (a <= length lg)%nat -> windows lg a rds a' -> appliedIndex d = Z.of_nat a ->
  Transport.transport_up (transport d) ->
  run (Storage.SaveState sz) (storage d) rds = Ret (st, replicate (length rds) None) ->
  apply_until (fsm d) (payload (stretch lg a a')) = Ret (b, None) ->
  exists d', run (Node.processReady sz cache clk) d rds = Ret (d', replicate (length rds) None) /\
    went d d' st b /\ appliedIndex d' = Z.of_nat a'.
Proof.
  induction rds as [|rd rds IH]; intros d a a' st b Hc Hlg Hok Hk Hp Ha Hw Ea Ht Hst Hb.
  { cbn [run] in *. simpl in Hw. subst a'. unfold stretch in Hb.
    rewrite Nat.sub_diag in Hb. simpl in Hb. injection Hb as <-. injection Hst as <-.
    exists d. unfold went. eauto 10. }
  apply Forall_cons in Hp as [Hp Hps]. destruct Hw as (j & Hj & Ew & Hl & Hw).
  pose proof (windows_le _ _ _ _ Hw) as Hle. cbn [run] in Hst.
  destruct (Storage.SaveState sz (storage d) rd) as [[st1 r]|s|] eqn:Es; [|done|done].
  rewrite ret_bind in Hst. cbv beta iota in Hst.
  destruct (run _ st1 rds) as [[st2 rs]|s|] eqn:Es'; [|done|done].
  rewrite ret_bind in Hst. injection Hst as -> -> ->.
  set (c := rd_CommittedEntries rd) in *. set (a1 := Nat.max a (j + length c)) in *.
  rewrite (stretch_split lg a a1 a') in Hb by lia. rewrite payload_app in Hb.
  apply apply_until_app in Hb as (b1 & Hb1 & Hb).
  assert (contiguous (Z.of_nat j + 1) c) as Hcc by (rewrite Ew; apply window_contiguous; [done|lia]).
  assert (forall P, Forall P lg -> Forall P c) as Hsub
    by (intros P HP; rewrite Ew; by apply Forall_take, Forall_drop).
  pose proof (processReady_ok d rd (Z.of_nat j + 1) st1 Hp Es Hcc) as Hr. fold c in Hr.
  specialize (Hr ltac:(lia) ltac:(lia) (Hsub _ Hok) Ht).
  assert (pending (Z.of_nat a) c = stretch lg a a1) as Epe
    by (rewrite Ew at 1; by apply window_pending).
  rewrite Ea, Epe, Hb1, removal_keeps in Hr by (by apply Forall_take, Forall_drop).
  destruct Hr as (d1 & E1 & (W1 & W2 & W3 & W4 & W5 & W6 & W7) & A1).
  destruct (IH d1 a1 a' st b) as (d2 & E2 & W & A2); rewrite ?W1, ?W2, ?W3; try done.
  { lia. } { rewrite A1. unfold advance. lia. }
  exists d2. cbn [run]. rewrite E1, ret_bind. cbv beta iota. rewrite E2, ret_bind. split; [done|].
  split; [|done]. unfold went in *. destruct W as (V1 & V2 & V3 & V4 & V5 & V6 & V7).
  repeat split; congruence || done.
Qed.

End Apply.

(** ** Starting *)

Section Lives.
Context `{HB : BadgerLaws} `{JL : JsonLib} `{PL : ProtoLib} `{CC : CommandCodec}.
Context `{HC : RaftCodecLaws} `{HL : RaftLaws} `{HS : MemoryStorageLaws} `{U : UrlLib}.
Context (cache : option Dynamic.protoDescriptorStore) (sz : nat).

Lemma Start_inv dk b rc d : Node.Start sz dk b rc None = Ret (inr d) ->
  fsm d = b /\ Transport.transport_up (transport d) /\ id d = rc_ID (rcfg rc) /\
  selfRemoved d = false /\ ready_up d = true /\ propose_up d = true /\ read_states d = [].
Proof.
  unfold Node.Start.
  destruct (Storage.Initialize sz (Storage.newStorage dk)) as [[st [err|]]|s|];
    [done| |done|done]. rewrite ret_bind. cbv beta iota zeta.
  destruct (Peers rc !! rc_ID (rcfg rc)) as [addr|] eqn:Ea.
  2:{ unfold Transport.Start. cbn [Transport.peers Transport.id Transport.NewTransport].
      by rewrite Ea. }
  destruct (url_Parse addr) as [err|u] eqn:Eu.
  { unfold Transport.Start. cbn [Transport.peers Transport.id Transport.NewTransport].
    rewrite Ea. cbn [default]. unfold Datatypes.id. by rewrite Eu. }
  destruct (Transport.Start_ok _ _ addr u false Ea Eu) as (t & -> & Hu & _).
  rewrite ret_bind. unfold Node.ready_init. cbn [storage].
  destruct (Storage.Snapshot st) as [sn|s|]; [|done|done]. rewrite !ret_bind.
  intros [= <-]. split; [done|]. split; [by exists t|done].
Qed.

Lemma Start_fresh b rc addr u : Z.of_nat sz mod 8 = 0 -> lrec_ok (LMeta None) ->
  lrec_ok (LState raftpb.emptyState) -> lrec_ok (LSnap walpb.empty_Snapshot) ->
  Peers rc !! rc_ID (rcfg rc) = Some addr -> url_Parse addr = inr u ->
  exists d w m, Node.Start sz (Disk [] []) b rc None = Ret (inr d) /\ appliedIndex d = 0 /\
    storage d = Storage.MkStorage w (Some m) /\ winv w [] /\ tracks m [] /\
    ms_offset m = 0 /\ MS_LastIndex m = 0.
Proof.
  intros Hn Hm Hst Hsn Ea Eu.
  destruct (open_fresh sz Hn Hm Hst Hsn) as (w & E0 & Hw).
  destruct (Initialize_ok sz (Storage.newStorage (Disk [] [])) w _ _ _ E0) as (m & I0 & Hl0);
    [done|done|].
  pose proof Hl0 as (E1 & E2 & _ & E4). simpl in E1, E2.
  unfold Node.Start. rewrite I0, ret_bind. cbv beta iota zeta.
  destruct (Transport.Start_ok _ _ addr u false Ea Eu) as (t & -> & _). rewrite ret_bind.
  unfold Node.ready_init. cbn [storage]. unfold Storage.Snapshot, Storage.mem.
  cbn [Storage.memStorage]. rewrite !ret_bind.
  eexists _, w, m. split; [done|]. cbn. rewrite E1. split; [done|]. split; [done|]. split; [done|].
  split; [by apply tracks_fresh|]. split; [done|]. rewrite last_index, E2, E4. done.
Qed.


(** *** A restart *)

(** The commands among the entries. *)
Definition commands (ents : list raftpb.Entry) : list bytes :=
  omap (fun e =>
    match raftpb.Type_ e, raftpb.Data e with
    | raftpb.EntryNormal, _ :: _ => Some (raftpb.Data e)
    | _, _ => None
    end) ents.

Lemma payload_commands clk ents : map snd (payload clk ents) = commands ents.
Proof.
  unfold payload, commands. induction ents as [|e ents IH]; [done|]. cbn [omap list_omap].
  destruct (raftpb.Type_ e), (raftpb.Data e); cbn [map snd]; by rewrite ?IH.
Qed.

Lemma commands_app l1 l2 : commands (l1 ++ l2) = commands l1 ++ commands l2.
Proof. apply omap_app. Qed.

Lemma replayable_app l1 l2 : FsmLog.replayable (l1 ++ l2) -> FsmLog.replayable l1.
Proof.
  intros [H1 H2]. apply Forall_app in H1 as [H1 _]. split; [done|].
  by apply StronglySorted_app_1_l in H2.
Qed.

Lemma log_hist b l b' : FsmLog.replica_ok b -> Forall FsmLog.ok_entry l ->
  FsmLog.apply_log cache b l = Ret (b', replicate (length l) None) ->
  run (FsmLog.step_entry cache 0) (hist (Badger.db b)) (map snd l)
    = Ret (hist (Badger.db b'), replicate (length l) None) /\ FsmLog.replica_ok b'.
Proof.
  intros Hb Hl E. pose proof (FsmLog.apply_log_hist cache l b Hb Hl) as Ha.
  destruct (run _ _ _) as [[h rs]|s|]; [|congruence|congruence].
  destruct Ha as (b1 & E1 & <- & Hb1). rewrite E in E1. by injection E1 as <- <-.
Qed.

(** Commands already applied, some of them again, and then the rest. *)
Lemma replay_rest h h1 h2 c1 c2 c3 : FsmLog.replayable (c1 ++ c2) ->
  run (FsmLog.step_entry cache 0) h (c1 ++ c2) = Ret (h1, replicate (length (c1 ++ c2)) None) ->
  run (FsmLog.step_entry cache 0) h (c1 ++ c2 ++ c3)
    = Ret (h2, replicate (length (c1 ++ c2 ++ c3)) None) ->
  run (FsmLog.step_entry cache 0) h1 (c2 ++ c3) = Ret (h2, replicate (length (c2 ++ c3)) None).
Proof.
  intros Hr E1 E2. pose proof (FsmLog.run_absorbed cache _ _ _ _ Hr E1) as Ha.
  rewrite app_assoc, run_app, E1, ret_bind in E2. cbv beta iota in E2.
  destruct (run _ h1 c3) as [[h3 rs]|s|] eqn:E3; [|done|done]. rewrite ret_bind in E2.
  cbv beta iota in E2. injection E2 as -> E2.
  rewrite (length_app _ c3), replicate_add in E2. apply app_inv_head in E2. subst rs.
  rewrite length_app, replicate_add in Ha. apply Forall2_app_inv_l in Ha as (r1 & r2 & H1 & H2 & Er).
  apply app_inj_1 in Er as [<- <-]; [|by rewrite <- (Forall2_length _ _ _ H1), length_replicate].
  rewrite run_app, (FsmLog.absorbed_replay cache _ _ _ H2), ret_bind. cbv beta iota.
  rewrite E3, ret_bind. by rewrite length_app, replicate_add.
Qed.


(** *** A command that fails *)

Lemma apply_until_ok l1 : forall b b1 l2, apply_until cache b l1 = Ret (b1, None) ->
  apply_until cache b (l1 ++ l2) = apply_until cache b1 l2.
Proof.
  induction l1 as [|[e data] l1 IH]; intros b b1 l2; cbn [apply_until app]; [by intros [= <-]|].
  destruct (Fsm.Apply cache e b data) as [[b2 [err|]]|s|]; [done| |done|done].
  rewrite !ret_bind. cbv beta iota. apply IH.
Qed.

(** Whichever replica, and at whichever clock: the command fails. *)
Lemma Apply_fails b b' err b1 e e1 data : FsmLog.replica_ok b -> FsmLog.replica_ok b1 ->
  hist (Badger.db b1) = hist (Badger.db b) ->
  FsmLog.ok_entry (e, data) -> FsmLog.ok_entry (e1, data) ->
  Fsm.Apply cache e b data = Ret (b', Some err) ->
  exists b1', Fsm.Apply cache e1 b1 data = Ret (b1', Some err) /\
    hist (Badger.db b1') = hist (Badger.db b).
Proof.
  intros [Hd Hn] [Hd1 Hn1] Hh (Hc & Hl & Ht) (Hc1 & _ & _) E. simpl in *.
  pose proof (FsmLog.Apply_hist cache e b data Hd Hc Hl) as H1.
  pose proof (FsmLog.Apply_hist cache e1 b1 data Hd1 Hc1 Hl) as H2. rewrite Hh in H2.
  rewrite (FsmLog.step_entry_clock cache (now e1) (now e)) in H2 by done.
  destruct (FsmLog.step_entry cache (now e) _ data) as [[h r]|s|] eqn:Es; [|congruence|congruence].
  destruct H1 as (b2 & E2 & Hb2 & _). rewrite E in E2. injection E2 as <- <-.
  assert (h = hist (Badger.db b)) as ->.
  { unfold FsmLog.step_entry, FsmLog.step_hist in Es.
    destruct (Commands.DecodeCommand data); [congruence|].
    by destruct (Fsm.cmd_spec _ _ _ _ _) as [[? [?|]]| |]; simplify_eq. }
  destruct H2 as (b3 & E3 & Hb3 & _). eauto.
Qed.

(** The log up to entry [k] applies from [b] and leaves [b1]; the command of
    the entry after it, [e], fails there. *)
Definition fails_at (clk : Z -> env) (b b1 : Badger.store) (lg : list raftpb.Entry) (k : nat)
    (e : raftpb.Entry) (err : error) : Prop :=
  FsmLog.apply_log cache b (payload clk (take k lg))
    = Ret (b1, replicate (length (payload clk (take k lg))) None) /\
  lg !! k = Some e /\ raftpb.Type_ e = raftpb.EntryNormal /\ raftpb.Data e <> [] /\
  exists bf, Fsm.Apply cache (clk (raftpb.Index e)) b1 (raftpb.Data e) = Ret (bf, Some err).

Lemma payload_command clk e : raftpb.Type_ e = raftpb.EntryNormal -> raftpb.Data e <> [] ->
  payload clk [e] = [(clk (raftpb.Index e), raftpb.Data e)].
Proof.
  intros Et Hd. unfold payload. cbn [omap list_omap]. rewrite Et. by destruct (raftpb.Data e).
Qed.

Lemma fails_again clk clk' b b1 b2 lg k e err s a : fails_at clk b b1 lg k e err ->
  FsmLog.replica_ok b -> FsmLog.replica_ok b2 -> hist (Badger.db b2) = hist (Badger.db b1) ->
  Forall FsmLog.ok_entry (payload clk (take (Datatypes.S k) lg)) ->
  Forall FsmLog.ok_entry (payload clk' (take (Datatypes.S k) lg)) ->
  FsmLog.replayable (commands (take k lg)) -> (s <= k < a)%nat ->
  exists b3, apply_until cache b2 (payload clk' (stretch lg s a)) = Ret (b3, Some err) /\
    hist (Badger.db b3) = hist (Badger.db b1).
Proof.
  intros (E1 & Ek & Et & Hd & bf & Ef) Hb Hb2 Hh Ho Ho' Hrep Hs.
  pose proof (payload_command clk e Et Hd) as P1. pose proof (payload_command clk' e Et Hd) as P2.
  rewrite (take_S_r _ _ _ Ek), payload_app in Ho, Ho'. rewrite P1 in Ho. rewrite P2 in Ho'.
  apply Forall_app in Ho as [Ho Hoe], Ho' as [Ho' Hoe'].
  rewrite Forall_singleton in Hoe, Hoe'.
  destruct (log_hist _ _ _ Hb Ho E1) as [R1 Hb1].
  assert (take k lg = stretch lg 0 s ++ stretch lg s k) as Etk
    by (rewrite take_stretch, (stretch_split lg 0 s k) by lia; done).
  rewrite <- (length_map snd), payload_commands, Etk, commands_app in R1.
  rewrite Etk, commands_app in Hrep.
  pose proof (replay_rest _ _ (hist (Badger.db b1)) _ _ [] Hrep R1) as R2. rewrite !app_nil_r in R2.
  specialize (R2 R1). rewrite <- (payload_commands clk'), length_map, <- Hh in R2.
  assert (Forall FsmLog.ok_entry (payload clk' (stretch lg s k))) as Hok2
    by (rewrite Etk, payload_app in Ho'; by apply Forall_app in Ho' as [_ ?]).
  pose proof (FsmLog.apply_log_hist cache _ b2 Hb2 Hok2) as Ha. rewrite R2 in Ha.
  destruct Ha as (b4 & E4 & Hh4 & Hb4). apply apply_until_log in E4.
  destruct (Apply_fails b1 bf err b4 (clk (raftpb.Index e)) (clk' (raftpb.Index e)) _ Hb1 Hb4
    (eq_trans Hh4 Hh) Hoe Hoe' Ef) as (b5 & E5 & Hh5).
  exists b5. split; [|done].
  rewrite (stretch_split lg s k a), payload_app by lia. rewrite (apply_until_ok _ _ _ _ E4).
  assert (stretch lg k a = e :: stretch lg (Datatypes.S k) a) as ->.
  { rewrite (stretch_split lg k (Datatypes.S k) a) by lia. unfold stretch at 1.
    replace (Datatypes.S k - k)%nat with 1%nat by lia. by rewrite (drop_S _ _ _ Ek). }
  change (e :: ?l) with ([e] ++ l). rewrite payload_app, P2. cbn [app apply_until]. by rewrite E5, ret_bind.
Qed.

(** A node in service, whose storage has saved [ops]. *)
Definition in_service (d : Node) (ops : list wop) : Prop :=
  selfRemoved d = false /\ Transport.transport_up (transport d) /\
  exists w m, storage d = Storage.MkStorage w (Some m) /\ winv w ops /\ tracks m ops.

(** A batch the storage can save. *)
Definition savable (i : Z) (d : Node) (ops : list wop) (rd : Ready) : Prop :=
  writable i (ops ++ ops_of rd) /\ forall w m, storage d = Storage.MkStorage w (Some m) ->
    ready_ok (ms_offset m) (MS_LastIndex m) rd.

Lemma stop_ready_ok d w m ops sh : storage d = Storage.MkStorage w m -> winv w ops ->
  Transport.transport_up (transport d) ->
  exists d', Node.stop_ready sh d = Ret d' /\ ready_up d' = false /\
    propose_up d' = propose_up d /\ appliedIndex d' = appliedIndex d /\ fsm d' = fsm d /\
    responses d' = responses d /\
    (exists t, Transport.raftTr (transport d') = Some t /\ rafthttp.peers t = None) /\
    exists w', Wal.Close w = Ret (w', None) /\ storage d' = Storage.MkStorage w' m.
Proof.
  intros Es Hw Ht. unfold Node.stop_ready, Node.Stop.
  destruct (Transport.Stop_up _ sh Ht) as (tr & r & -> & Htr). rewrite !ret_bind. cbv beta iota.
  destruct (close_stored w ops Hw) as (w' & E & _).
  unfold Storage.Close. rewrite Es. cbn [Storage.wal]. rewrite E, !ret_bind. cbv beta iota.
  eexists. split; [done|]. cbn. repeat (split; [done|]). by exists w'.
Qed.


End Lives.

(** ** Three commands, handed out twice *)

Import MemRaft MemUrl.

Definition command_at (i : Z) (c : Command) : raftpb.Entry :=
  raftpb.MkEntry 1 i raftpb.EntryNormal (FsmLog.enc c).

Definition three_commands : list raftpb.Entry :=
  [command_at 1 FsmLog.set_cmd; command_at 2 FsmLog.incr_cmd; command_at 3 FsmLog.txn_cmd].

Definition cbatch (commit : Z) (ents committed : list raftpb.Entry) : Ready :=
  MkReady None (raftpb.MkHardState 1 1 commit) [] ents raftpb.emptySnapshot committed [].

Definition overlapping : list Ready :=
  [cbatch 0 three_commands []; cbatch 2 [] (take 2 three_commands);
   cbatch 3 [] (drop 1 three_commands)].

Definition node_one : RaftConfig :=
  MkRaftCfg (MkRaftConfig 1 10 1 0 false 1024 1024 1024 256 0 true true 0 false false false) "one"
    Transport.three_nodes.

Definition at_clock (t : Z) : Z -> env := fun _ => Reads.quiet t.


Lemma three_payload t : payload (at_clock t) three_commands = FsmLog.log_at t.
Proof. vm_compute. reflexivity. Qed.

Lemma three_ok : contiguous 1 three_commands /\ Forall entry_ok three_commands /\
  Forall (keeps 1) three_commands.
Proof. split; [repeat split|]. split; repeat constructor. Qed.

(** A node that died after the second command is started again. *)
Definition again : list Ready :=
  [cbatch 2 three_commands (take 2 three_commands); cbatch 3 [] (drop 2 three_commands)].

Lemma again_writable : writable 0 (all_ops again).
Proof.
  split; [|split; [vm_compute; intuition discriminate|reflexivity]].
  repeat constructor; vm_compute; intuition discriminate.
Qed.

Lemma start_one b rds : writable 0 (all_ops rds) -> readies_ok 0 0 rds ->
  exists d st, Node.Start 64 (Disk [] []) b node_one None = Ret (inr d) /\ appliedIndex d = 0 /\
    in_service d [] /\ run (Storage.SaveState 64) (Node.storage d) rds
      = Ret (st, replicate (length rds) None) /\
    (forall w m, Node.storage d = Storage.MkStorage w (Some m) -> ms_offset m = 0 /\ MS_LastIndex m = 0).
Proof.
  intros Hw Hr. destruct small_recs as (H1 & H2 & H3).
  destruct (Start_fresh (U := url) 64 b node_one "http://a:7001" (MemUrl.Url "a:7001" "") eq_refl H1 H2 H3
    eq_refl eq_refl) as (d & w & m & E & A & Es & Hw0 & Ht & Eo & El).
  destruct (SaveStates_tracks 64 rds w m [] 0 eq_refl Hw0 Ht Hw) as (w' & m' & E1 & _);
    [by rewrite Eo, El|]. rewrite <- Es in E1.
  destruct (Start_inv 64 _ _ _ _ E) as (_ & Htr & _ & Hsr & _).
  exists d, (Storage.MkStorage w' (Some m')). split; [exact E|]. split; [exact A|]. split; [|split].
  - exact (conj Hsr (conj Htr (ex_intro _ w (ex_intro _ m (conj Es (conj Hw0 Ht)))))).
  - exact E1.
  - intros w2 m2. rewrite Es. intros [= <- <-]. exact (conj Eo El).
Qed.


(** The fourth entry is a transaction with a prefix deletion. *)
Definition four_commands : list raftpb.Entry :=
  three_commands ++ [command_at 4 FsmLog.bad_txn_cmd].

Lemma four_ok_entries t : Forall FsmLog.ok_entry (payload (at_clock t) four_commands).
Proof.
  unfold four_commands. rewrite payload_app, three_payload. apply Forall_app.
  split; [apply FsmLog.log_is_ok|].
  replace (payload (at_clock t) [command_at 4 FsmLog.bad_txn_cmd])
    with [(Reads.quiet t, FsmLog.enc FsmLog.bad_txn_cmd)] by (vm_compute; reflexivity).
  apply Forall_singleton, FsmLog.ok_enc; [|repeat constructor].
  unfold Fsm.legal_cmd. simpl. repeat constructor; simpl; try word; reflexivity.
Qed.

Definition poison : Ready := cbatch 4 four_commands four_commands.

Lemma poison_writable : writable 0 (all_ops [poison]).
Proof.
  split; [|split; [vm_compute; intuition discriminate|reflexivity]].
  repeat constructor; vm_compute; intuition discriminate.
Qed.

Lemma poison_fails b1 :
  FsmLog.apply_log None FsmLog.replica (payload (at_clock 3) three_commands)
    = Ret (b1, [None; None; None]) ->
  exists bf, Fsm.Apply None (at_clock 3 4) b1 (FsmLog.enc FsmLog.bad_txn_cmd)
    = Ret (bf, Some ErrUnknownOp).
Proof.
  intros E1. destruct (answers (apply_until None FsmLog.replica (payload (at_clock 3) four_commands))
    (Some ErrUnknownOp)) as [bf Ef]; [vm_compute; reflexivity|].
  unfold four_commands in Ef. rewrite payload_app in Ef.
  rewrite (apply_until_ok None _ _ _ _ (apply_until_log None _ _ _ E1)) in Ef.
  rewrite payload_command in Ef; [|done|vm_compute; discriminate].
  cbn [apply_until] in Ef. exists bf.
  change (raftpb.Data (command_at 4 FsmLog.bad_txn_cmd)) with (FsmLog.enc FsmLog.bad_txn_cmd) in Ef.
  destruct (Fsm.Apply None _ b1 _) as [[b2 [err|]]|s|]; [| |done|done]; rewrite ret_bind in Ef;
    cbv beta iota in Ef; congruence.
Qed.


End NodeLog.
