(* ===== verification/NodeEvents.v ===== *)
(** * Read states, membership changes and proposals

    What the other events of a node do: read states are answered only when
    their index is applied, but those that are not met by the end of a batch
    are dropped; of the membership changes in a batch the last decides whether
    the node counts as removed, and a removed node's ready loop goes on; a
    proposal that raft refuses stops the node. *)

From S2P Require Import Prelude Errors Utils Mvcc BadgerApi MemBadger Codecs MemCodecs Badger.
From S2P Require Import BadgerReads BadgerWrites Command MemCommand Fsm FsmLog RaftApi Config.
From S2P Require Import Urls Transport Replication WalRecord MemRaftCodec WalRep WalLog Snapshotter.
From S2P Require Import Storage StorageLog StorageMem Node NodeLog.
Import WalLog StorageLog StorageMem NodeLog.

Module NodeEvents.

(** ** Read states are answered after their index is applied *)

Section Reads.
Context `{BA : BadgerAPI} `{JL : JsonLib} `{PL : ProtoLib} `{CC : CommandCodec}.
Context `{L : RaftLib} `{C : RaftCodec} `{S : MemoryStorageLib} `{U : UrlLib}.
Context (sz : nat) (cache : option Dynamic.protoDescriptorStore) (sh : option error).

(** Everything that can happen to a node; a waiting reader gets an answer. *)
Inductive node_event : Type :=
  | OnReady (ev : Node.ready_event)
  | OnPropose (ev : Node.propose_event)
  | OnSnapshot (force : bool)
  | OnReadIndex (rctx : string)
  | OnWait (ended : error).

Definition node_step (d : Node) (ev : node_event) : outcome (Node * option ReadState) :=
  match ev with
  | OnReady ev => d ← Node.readyHandler sz cache sh d ev; Ret (d, None)
  | OnPropose ev => d ← Node.proposeHandler sz cache sh d ev; Ret (d, None)
  | OnSnapshot force => d ← Node.takeSnapshotIfNeeded d force; Ret (d, None)
  | OnReadIndex rctx => Ret ((Node.ReadIndex d rctx).1, None)
  | OnWait ended =>
      match Node.WaitForReadState d ended with
      | (d, inr rs) => Ret (d, Some rs)
      | (d, inl _) => Ret (d, None)
      end
  end.

(** The committed entries of a batch follow one another; indices are 64-bit
    words, and the largest is not reached. *)
Definition batch_event (ev : node_event) : Prop :=
  match ev with
  | OnReady (Node.ReadyBatch _ rd) =>
      raftpb.md_Index (raftpb.Metadata (rd_Snapshot rd)) < max_u64 /\
      exists f, 0 <= f /\ contiguous f (rd_CommittedEntries rd) /\
        f + Z.of_nat (length (rd_CommittedEntries rd)) <= max_u64
  | _ => True
  end.

(** The read states that wait in the channel are met. *)
Definition answers_ok (d : Node) : Prop :=
  Forall (fun rs => rs_Index rs <= appliedIndex d) (read_states d).

Definition grows (d d' : Node) : Prop :=
  0 <= appliedIndex d < max_u64 ->
  appliedIndex d <= appliedIndex d' < max_u64 /\ (answers_ok d -> answers_ok d').

Lemma grows_refl d d' : appliedIndex d' = appliedIndex d -> read_states d' = read_states d ->
  grows d d'.
Proof. intros E1 E2 Ha. unfold answers_ok. rewrite E1, E2. split; [lia|done]. Qed.

Lemma grows_trans d1 d2 d3 : grows d1 d2 -> grows d2 d3 -> grows d1 d3.
Proof. intros G1 G2 Ha. destruct (G1 Ha) as [? ?], G2 as [? ?]; [lia|]. split; [lia|auto]. Qed.

Lemma grows_applied d d' : appliedIndex d <= appliedIndex d' < max_u64 ->
  read_states d' = read_states d -> grows d d'.
Proof.
  intros Ha E _. split; [done|]. unfold answers_ok. rewrite E. intros Hd.
  eapply Forall_impl; [exact Hd|]. simpl. lia.
Qed.

Lemma notify_grows d rs d' : rs_Index rs <= appliedIndex d -> Node.notify_read d rs = Ret d' ->
  grows d d'.
Proof.
  unfold Node.notify_read. intros Hi. destruct (length (read_states d) <? 2)%nat; [|done].
  intros [= <-] Ha. split; [simpl; lia|]. intros Hd. apply Forall_app. split; [done|].
  by apply Forall_singleton.
Qed.

Lemma last_met_spec a l i : Node.last_met a l = Some i ->
  exists rs, l !! i = Some rs /\ rs_Index rs <= a.
Proof.
  revert i. induction l as [|rs l IH]; intros i; [done|]. simpl.
  destruct (Node.last_met a l) as [i'|] eqn:E.
  - intros [= <-]. by apply IH.
  - destruct (Z.leb_spec (rs_Index rs) a); [|done]. intros [= <-]. by exists rs.
Qed.

Lemma respond_grows d rss d' rest : Node.respondToReadStates d rss = Ret (d', rest) -> grows d d'.
Proof.
  unfold Node.respondToReadStates. destruct (last rss) as [rs|]; [|intros [= <- _]; by apply grows_refl].
  destruct (Z.leb_spec (rs_Index rs) (appliedIndex d)).
  - destruct (Node.notify_read d rs) as [d1|s|] eqn:E; [|done|done]. rewrite ret_bind.
    intros [= <- _]. by eapply notify_grows.
  - destruct (Node.last_met (appliedIndex d) rss) as [i|] eqn:El; [|intros [= <- _]; by apply grows_refl].
    destruct (last_met_spec _ _ _ El) as (rs' & -> & Hi).
    destruct (Node.notify_read d rs') as [d1|s|] eqn:E; [|done|done]. rewrite ret_bind.
    intros [= <- _]. by eapply notify_grows.
Qed.

Lemma conf_change_same d e d' r err : Node.applyConfChange d e = Ret (d', (r, err)) ->
  appliedIndex d' = appliedIndex d /\ read_states d' = read_states d.
Proof.
  unfold Node.applyConfChange. destruct (ConfChange_Unmarshal _) as [?|cc]; [by intros [= <- _ _]|].
  destruct (RN_ApplyConfChange (n d) cc) as [rn cs].
  destruct (raftpb.cc_Type cc); try case_decide; try (by intros [= <- _ _]);
    try (destruct (raftpb.NodeID cc =? _); [by intros [= <- _ _]|]);
    match goal with |- context [?m ≫= _] => destruct m as [tr|s|]; [|done|done] end;
    rewrite ret_bind; by intros [= <- _ _].
Qed.

Lemma apply_loop_same clk ents : forall d r d' r' err,
  Node.apply_loop cache clk d r ents = Ret (d', (r', err)) ->
  appliedIndex d' = appliedIndex d /\ read_states d' = read_states d.
Proof.
  induction ents as [|e ents IH]; intros d r d' r' err; cbn [Node.apply_loop]; [by intros [= <- _ _]|].
  destruct (raftpb.Type_ e).
  - destruct (length (raftpb.Data e) =? 0)%nat; [apply IH|]. unfold Node.applyNormalEntry.
    destruct (raftpb.Index e <=? appliedIndex d); [rewrite ret_bind; apply IH|].
    destruct (Fsm.Apply _ _ _ _) as [[b [er|]]|s|]; [| |done|done]; rewrite !ret_bind; cbv beta iota.
    + by intros [= <- _ _].
    + intros E. by apply IH in E.
  - destruct (Node.applyConfChange d e) as [[d1 [r1 [er|]]]|s|] eqn:Ec; [| |done|done];
      rewrite ret_bind; cbv beta iota; apply conf_change_same in Ec as [E1 E2].
    + by intros [= <- _ _].
    + intros E. apply IH in E. by rewrite E1, E2 in E.
  - by intros [= <- _ _].
Qed.

Lemma last_drop {A} (l : list A) k : (k < length l)%nat -> last (drop k l) = last l.
Proof. intros Hk. rewrite !last_lookup, lookup_drop, length_drop. f_equal. lia. Qed.

Lemma entries_last d c f ents e : 0 <= appliedIndex d < max_u64 -> 0 <= f -> contiguous f c ->
  f + Z.of_nat (length c) <= max_u64 ->
  Node.getEntriesToApply d c = Ret ents -> last ents = Some e ->
  appliedIndex d <= raftpb.Index e < max_u64.
Proof.
  intros Ha Hf Hc Hm. unfold Node.getEntriesToApply. destruct c as [|e1 c]; [by intros [= <-]|].
  unfold u64. rewrite (proj1 Hc), (Z.mod_small (appliedIndex d + 1)) by (unfold max_u64 in *; lia).
  destruct (Z.ltb_spec (appliedIndex d + 1) f); [done|].
  rewrite (Z.mod_small (appliedIndex d - f + 1)) by (unfold max_u64 in *; lia).
  destruct (Z.ltb_spec (appliedIndex d - f + 1) (Z.of_nat (length (e1 :: c)))) as [Hl|];
    [|by intros [= <-]].
  intros [= <-] El. rewrite last_drop in El by lia.
  rewrite (contiguous_last _ _ _ Hc El). lia.
Qed.

Lemma committed_grows clk d rd d' r err f : 0 <= f -> contiguous f (rd_CommittedEntries rd) ->
  f + Z.of_nat (length (rd_CommittedEntries rd)) <= max_u64 ->
  Node.apply_committed cache clk d rd = Ret (d', (r, err)) -> grows d d'.
Proof.
  intros Hf Hc Hm E Ha. revert E. unfold Node.apply_committed.
  destruct (Node.getEntriesToApply d (rd_CommittedEntries rd)) as [ents|s|] eqn:Eg; [|done|done].
  rewrite ret_bind. destruct ents as [|e0 es] eqn:Ee; [intros [= <- _ _]; by apply grows_refl|].
  rewrite <- Ee in *. unfold Node.applyEntries.
  destruct (Node.apply_loop cache clk d false ents) as [[d1 [r1 [er|]]]|s|] eqn:El; [| |done|done];
    rewrite ret_bind; cbv beta iota; apply apply_loop_same in El as [E1 E2].
  { intros [= <- _ _]. by apply grows_refl. }
  destruct (last ents) as [e|] eqn:Ela; [|done]. intros [= <- _ _].
  apply grows_applied; [|done|done]. cbn. by eapply entries_last.
Qed.

Lemma snapshot_grows d sn d' err : raftpb.md_Index (raftpb.Metadata sn) < max_u64 ->
  Node.applySnapshotToFSM d sn = (d', err) -> grows d d'.
Proof.
  intros Hm. unfold Node.applySnapshotToFSM. destruct (IsEmptySnap sn); [intros [= <- _]; by apply grows_refl|].
  destruct (Z.leb_spec (raftpb.md_Index (raftpb.Metadata sn)) (appliedIndex d));
    [intros [= <- _]; by apply grows_refl|].
  destruct (Replicate.RestoreSnapshot (fsm d) sn) as [b [er|]]; intros [= <- _];
    [by apply grows_refl|]. apply grows_applied; [simpl; lia|done].
Qed.

Lemma finish_grows d rd pend d' : Node.finish_ready d rd pend = Ret d' -> grows d d'.
Proof.
  unfold Node.finish_ready. destruct (rd_ReadStates rd).
  { rewrite ret_bind. intros [= <-]. by apply grows_refl. }
  destruct (Node.respondToReadStates d pend) as [[d1 rest]|s|] eqn:E; [|done|done].
  rewrite !ret_bind. intros [= <-].
  eapply grows_trans; [by eapply respond_grows|by apply grows_refl].
Qed.

Lemma removal_grows d d' : Node.scheduleSelfRemoval d = Ret d' -> grows d d'.
Proof.
  unfold Node.scheduleSelfRemoval. destruct (onRemovedSelf (Node.setSelfRemoved d true));
    destruct (propose_up _); try done; intros [= <-]; by apply grows_refl.
Qed.

Lemma soft_grows d rd : grows d (soft d rd).
Proof.
  unfold soft. destruct (rd_Lead rd) as [l|]; [|by apply grows_refl].
  unfold Node.handleLeaderChange. destruct (l =? lead d); [by apply grows_refl|].
  destruct (onLeaderChange _); by apply grows_refl.
Qed.

Lemma after_save_grows clk d rd pend d' err f :
  raftpb.md_Index (raftpb.Metadata (rd_Snapshot rd)) < max_u64 ->
  0 <= f -> contiguous f (rd_CommittedEntries rd) ->
  f + Z.of_nat (length (rd_CommittedEntries rd)) <= max_u64 ->
  (let '(d, err) := if IsEmptySnap (rd_Snapshot rd) then (d, None)
                    else Node.applySnapshotToFSM d (rd_Snapshot rd) in
   match err with
   | Some err => Ret (d, Some err)
   | None =>
       '(d, (selfRemove, err)) ← Node.apply_committed cache clk d rd;
       match err with
       | Some err => Ret (d, Some err)
       | None =>
           if (selfRemove : bool) then d ← Node.scheduleSelfRemoval d; Ret (d, None)
           else d ← Node.finish_ready d rd pend; Ret (d, None)
       end
   end) = Ret (d', err) -> grows d d'.
Proof.
  intros Hs Hf Hc Hm.
  destruct (if IsEmptySnap (rd_Snapshot rd) then (d, None) else _) as [d1 [er|]] eqn:E1;
    assert (grows d d1) as G1 by (destruct (IsEmptySnap (rd_Snapshot rd));
      [injection E1; intros; subst; by apply grows_refl|by eapply snapshot_grows]).
  { by intros [= <- _]. }
  destruct (Node.apply_committed cache clk d1 rd) as [[d2 [r [er|]]]|s|] eqn:E2; [| |done|done];
    rewrite ret_bind; cbv beta iota; apply (committed_grows _ _ _ _ _ _ f Hf Hc Hm) in E2.
  { intros [= <- _]. by eapply grows_trans. }
  destruct r.
  - destruct (Node.scheduleSelfRemoval d2) as [d3|s|] eqn:E3; [|done|done]. rewrite ret_bind.
    intros [= <- _]. eauto using grows_trans, removal_grows.
  - destruct (Node.finish_ready d2 rd pend) as [d3|s|] eqn:E3; [|done|done]. rewrite ret_bind.
    intros [= <- _]. eauto using grows_trans, finish_grows.
Qed.

Lemma processReady_grows clk d rd d' err : batch_event (OnReady (Node.ReadyBatch clk rd)) ->
  Node.processReady sz cache clk d rd = Ret (d', err) -> grows d d'.
Proof.
  intros (Hs & f & Hf & Hc & Hm). unfold Node.processReady. fold (soft d rd).
  destruct (match rd_ReadStates rd with [] => _ | _ => _ end) as [[d1 pend]|s|] eqn:E1; [|done|done].
  assert (grows (soft d rd) d1) as G1.
  { destruct (rd_ReadStates rd); [injection E1; intros; subst; by apply grows_refl|].
    by eapply respond_grows. }
  rewrite ret_bind. cbv beta iota.
  destruct (Storage.SaveState sz (storage d1) rd) as [[st [er|]]|s|]; [| |done|done];
    rewrite ret_bind; cbv beta iota zeta.
  { intros [= <- _]. eapply grows_trans; [apply soft_grows|].
    eapply grows_trans; [exact G1|by apply grows_refl]. }
  destruct (Node.getMessagesToPublish _ rd) as [msgs|s|]; [|done|done]. rewrite ret_bind.
  destruct (Transport.Send _ msgs) as [tr|s|]; [|done|done]. rewrite ret_bind.
  intros E%(after_save_grows clk _ rd pend d' err f); [|done..].
  eapply grows_trans; [apply soft_grows|]. eapply grows_trans; [exact G1|].
  eapply grows_trans; [|exact E]. by apply grows_refl.
Qed.

Lemma stop_grows d d' : Node.stop_ready sh d = Ret d' -> grows d d'.
Proof.
  unfold Node.stop_ready, Node.Stop.
  destruct (Transport.Stop sh (transport d)) as [[tr r]|s|]; [|done|done]. rewrite ret_bind.
  cbv beta iota. destruct (Storage.Close (storage d)) as [[st r']|s|]; [|done|done].
  rewrite !ret_bind. intros [= <-]. by apply grows_refl.
Qed.

Lemma ready_grows d ev d' : batch_event (OnReady ev) ->
  Node.readyHandler sz cache sh d ev = Ret d' -> grows d d'.
Proof.
  intros Hb. destruct ev as [|err|clk rd| |]; cbn [Node.readyHandler];
    try apply stop_grows; [intros [= <-]; by apply grows_refl|].
  destruct (selfRemoved d); [intros [= <-]; by apply grows_refl|].
  destruct (Node.processReady sz cache clk d rd) as [[d1 [err|]]|s|] eqn:E; [| |done|done];
    rewrite ret_bind; cbv beta iota; apply processReady_grows in E; try done.
  - intros E2%stop_grows. by eapply grows_trans.
  - by intros [= <-].
Qed.

Lemma fail_grows d err d' : Node.fail_propose sz cache sh d err = Ret d' -> grows d d'.
Proof.
  unfold Node.fail_propose. destruct (ready_up d); [|done].
  destruct (Node.readyHandler sz cache sh _ _) as [d1|s|] eqn:E; [|done|done]. rewrite ret_bind.
  intros [= <-]. apply ready_grows in E; [|done]. eapply grows_trans; [|exact E]. by apply grows_refl.
Qed.

Lemma propose_grows d ev d' : Node.proposeHandler sz cache sh d ev = Ret d' -> grows d d'.
Proof.
  destruct ev as [cmdID cmd|cc| |]; cbn [Node.proposeHandler];
    try (intros [= <-]; by apply grows_refl).
  - unfold Node.respond. destruct (selfRemoved d).
    + destruct (length _ <? 1)%nat; [|done]. intros [= <-]. by apply grows_refl.
    + destruct (RN_Propose (n d) cmd) as [n' [err|]].
      * intros E%fail_grows. eapply grows_trans; [|exact E]. by apply grows_refl.
      * destruct (length _ <? 1)%nat; [|done]. intros [= <-]. by apply grows_refl.
  - destruct (selfRemoved d); [intros [= <-]; by apply grows_refl|].
    destruct (RN_ProposeConfChange (n d) cc) as [n' [err|]].
    + intros E%fail_grows. eapply grows_trans; [|exact E]. by apply grows_refl.
    + intros [= <-]. by apply grows_refl.
Qed.

Lemma snapshot_step_grows d force d' : Node.takeSnapshotIfNeeded d force = Ret d' -> grows d d'.
Proof.
  unfold Node.takeSnapshotIfNeeded.
  destruct (Storage.LastSnapshotIndex (storage d)) as [si|s|]; [|done|done]. rewrite ret_bind.
  destruct (negb force && _); [intros [= <-]; by apply grows_refl|].
  destruct (Replicate.CreateSnapshot (fsm d)) as [er|[upto data]]; [intros [= <-]; by apply grows_refl|].
  destruct (Storage.CreateSnapshot _ _ _ _) as [[st r]|s|]; [|done|done]. rewrite ret_bind.
  intros [= <-]. by apply grows_refl.
Qed.

Lemma wait_grows d ended d' r : node_step d (OnWait ended) = Ret (d', r) ->
  grows d d' /\ (answers_ok d -> from_option (fun rs => rs_Index rs <= appliedIndex d') True r).
Proof.
  unfold node_step, Node.WaitForReadState. destruct (read_states d) as [|rs l] eqn:E.
  { intros [= <- <-]. split; [by apply grows_refl|done]. }
  intros [= <- <-]. unfold answers_ok. rewrite E. split; [|by intros Hd%Forall_inv].
  intros Ha. split; [simpl; lia|]. unfold answers_ok. rewrite E. by intros Hd%Forall_inv_tail.
Qed.

Lemma step_grows d ev d' r : batch_event ev -> node_step d ev = Ret (d', r) ->
  grows d d' /\ (answers_ok d -> from_option (fun rs => rs_Index rs <= appliedIndex d') True r).
Proof.
  intros Hb. destruct ev as [ev|ev|force|rctx|ended]; [| | | |apply wait_grows]; cbn [node_step].
  - destruct (Node.readyHandler sz cache sh d ev) as [d1|s|] eqn:E; [|done|done]. rewrite ret_bind.
    intros [= <- <-]. split; [by eapply ready_grows|done].
  - destruct (Node.proposeHandler sz cache sh d ev) as [d1|s|] eqn:E; [|done|done]. rewrite ret_bind.
    intros [= <- <-]. split; [by eapply propose_grows|done].
  - destruct (Node.takeSnapshotIfNeeded d force) as [d1|s|] eqn:E; [|done|done]. rewrite ret_bind.
    intros [= <- <-]. split; [by eapply snapshot_step_grows|done].
  - intros [= <- <-]. unfold Node.ReadIndex. destruct (RN_ReadIndex (n d) rctx) as [n' [er|]];
      (split; [by apply grows_refl|done]).
Qed.

(** C24: a linearizable read is never answered early.  Whatever happens to a
    node, in any order (batches, ticks, errors, proposals, snapshots, read
    requests, readers taking an answer), its applied index never goes back,
    and every read state that waits in the channel or was given to a reader
    has an index that is applied. *)
Theorem read_states_applied (d d' : Node) (evs : list node_event) (rs : list (option ReadState)) :
  Forall batch_event evs -> 0 <= appliedIndex d < max_u64 -> answers_ok d ->
  run node_step d evs = Ret (d', rs) ->
  appliedIndex d <= appliedIndex d' /\ answers_ok d' /\
  forall x, Some x ∈ rs -> rs_Index x <= appliedIndex d'.
Proof.
  intros Hb. revert d rs. induction Hb as [|ev evs Hev _ IH]; intros d rs Ha Hd; cbn [run].
  { intros [= <- <-]. split; [lia|]. split; [done|]. by intros x ?%not_elem_of_nil. }
  destruct (node_step d ev) as [[d1 r]|s|] eqn:E; [|done|done]. rewrite ret_bind. cbv beta iota.
  destruct (run node_step d1 evs) as [[d2 rs']|s|] eqn:E2; [|done|done]. rewrite ret_bind.
  intros [= <- <-]. destruct (step_grows d ev d1 r Hev E) as [G Hr]. destruct (G Ha) as [Ha1 Hd1].
  destruct (IH d1 rs' ltac:(lia) (Hd1 Hd) E2) as (Ha2 & Hd2 & Hx). split; [lia|]. split; [done|].
  intros x [Ex|Hin]%elem_of_cons; [|by apply Hx]. subst r. specialize (Hr Hd). simpl in Hr. lia.
Qed.

(** A read state can get lost, and a reader can get another's.  A batch
    confirms two reads, the first at an applied index, the second at a later
    one, and commits no entries: after the batch the channel holds the first
    read state only, which the next reader takes whatever it asked for; the
    second read is never answered. *)
Theorem pending_read_states_dropped (d : Node) (rd : Ready) (st : Storage.Storage)
    (clk : Z -> env) (r1 r2 : ReadState) (ended : error) :
  rd_ReadStates rd = [r1; r2] -> rs_Index r1 <= appliedIndex d < rs_Index r2 ->
  rd_CommittedEntries rd = [] -> IsEmptySnap (rd_Snapshot rd) = true -> rd_Messages rd = [] ->
  Storage.SaveState sz (storage d) rd = Ret (st, None) -> Transport.transport_up (transport d) ->
  read_states d = [] ->
  exists d' d'', Node.processReady sz cache clk d rd = Ret (d', None) /\ read_states d' = [r1] /\
    Node.WaitForReadState d' ended = (d'', inr r1) /\
    Node.WaitForReadState d'' ended = (d'', inl ended).
Proof.
  intros Er Hi Ec Hs Hm Hst Ht Hrs. unfold Node.processReady. fold (soft d rd).
  destruct (soft_same d rd) as (_ & E2 & E3 & _ & E5 & _).
  assert (read_states (soft d rd) = []) as E6.
  { unfold soft. destruct (rd_Lead rd) as [l|]; [|done]. unfold Node.handleLeaderChange.
    destruct (l =? lead d); [done|]. by destruct (onLeaderChange _). }
  set (d0 := soft d rd) in *. clearbody d0. rewrite Er.
  unfold Node.respondToReadStates at 1. cbn [last Node.last_met].
  rewrite E5, (proj2 (Z.leb_gt _ _)), (proj2 (Z.leb_le _ _)) by lia. cbn [lookup list_lookup].
  unfold Node.notify_read. rewrite E6. cbn [length Nat.ltb Nat.leb app drop]. rewrite !ret_bind. cbv beta iota.
  cbn [storage Node.set_read_states]. rewrite E2, Hst, ret_bind. cbv beta iota zeta.
  unfold Node.getMessagesToPublish. rewrite Hm. cbn [Node.patch_all]. rewrite ret_bind.
  cbn [transport Node.set_storage Node.set_read_states]. rewrite E3.
  destruct (Transport.Send_up _ [] Ht) as (tr & -> & _). rewrite ret_bind, Hs. cbv beta iota zeta.
  unfold Node.apply_committed. rewrite Ec. cbn [Node.getEntriesToApply]. rewrite !ret_bind. cbv beta iota.
  unfold Node.finish_ready. rewrite Er. unfold Node.respondToReadStates. cbn [last Node.last_met].
  cbn [appliedIndex Node.set_transport Node.set_storage Node.set_read_states].
  rewrite E5, (proj2 (Z.leb_gt _ _)) by lia. rewrite !ret_bind.
  eexists _, _. split; [reflexivity|]. split; [reflexivity|]. split; reflexivity.
Qed.

(** ** Membership changes *)

Lemma payload_changes clk a ents : Forall (fun e => raftpb.Type_ e = raftpb.EntryConfChange) ents ->
  payload clk (pending a ents) = [].
Proof.
  unfold payload, pending. induction 1 as [|e es He _ IH]; [done|]. rewrite filter_cons.
  case_decide; [|exact IH]. cbn [omap list_omap]. by rewrite He.
Qed.

(** The last membership change of a batch decides.  A batch commits only
    membership changes; after it the node counts as removed exactly when the
    last of them removes it, whatever those before did.  A node that counts
    as removed is not stopped: its stop signal was taken by the proposal
    handler, and its ready loop goes on, skipping every batch. *)
Theorem removal_by_last_change (d : Node) (rd : Ready) (st : Storage.Storage) (clk : Z -> env)
    (f : Z) : let ents := rd_CommittedEntries rd in
  plain rd -> Storage.SaveState sz (storage d) rd = Ret (st, None) ->
  contiguous f ents -> 0 <= f <= appliedIndex d + 1 -> appliedIndex d + 1 < two64 ->
  Forall entry_ok ents -> Forall (fun e => raftpb.Type_ e = raftpb.EntryConfChange) ents ->
  Transport.transport_up (transport d) -> propose_up d = true -> selfRemoved d = false -> ready_up d = true ->
  exists d', Node.processReady sz cache clk d rd = Ret (d', None) /\
    selfRemoved d' = removal (id d) false (pending (appliedIndex d) ents) /\
    ready_up d' = true /\
    (selfRemoved d' = true -> propose_up d' = false /\
       forall clk' rd', Node.readyHandler sz cache sh d' (Node.ReadyBatch clk' rd') = Ret d').
Proof.
  intros ents Hp Hst Hc Hf Ha Hok Hcc Ht Hpu Hsr Hru.
  pose proof (processReady_ok cache clk sz d rd f st Hp Hst Hc Hf Ha Hok Ht) as Hr. fold ents in Hr.
  rewrite (payload_changes clk _ _ Hcc) in Hr. cbn [apply_until] in Hr.
  destruct (removal (id d) false _).
  - destruct (Hr Hpu) as (d' & E & _ & _ & S1 & R1 & P1). exists d'. split; [exact E|].
    split; [exact S1|]. split; [congruence|]. intros _. split; [exact P1|].
    intros clk' rd'. unfold Node.readyHandler. by rewrite S1.
  - destruct Hr as (d' & E & (_ & _ & _ & _ & S1 & _ & R1) & _). exists d'. split; [exact E|].
    split; [congruence|]. split; [congruence|]. congruence.
Qed.

End Reads.

(** ** Proposals *)

Section Proposals.
Context `{BA : BadgerAPI} `{JL : JsonLib} `{PL : ProtoLib} `{CC : CommandCodec}.
Context `{HC : RaftCodecLaws} `{HL : RaftLaws} `{HS : MemoryStorageLaws} `{U : UrlLib}.
Context (sz : nat) (cache : option Dynamic.protoDescriptorStore) (sh : option error).

(** A refused proposal stops the node.  When raft refuses a proposal (it
    drops proposals while there is no leader), both loops of the node return:
    the transport is stopped and the log closed, and the proposer gets no
    answer. *)
Theorem refused_proposal_stops_node (d : Node) (ops : list wop) (cmdID : string) (cmd : bytes)
    (n' : RNode) (err : error) :
  in_service d ops -> ready_up d = true -> RN_Propose (n d) cmd = (n', Some err) ->
  exists d', Node.proposeHandler sz cache sh d (Node.Proposal cmdID cmd) = Ret d' /\
    ready_up d' = false /\ propose_up d' = false /\ responses d' = responses d /\
    (exists t, Transport.raftTr (transport d') = Some t /\ rafthttp.peers t = None) /\
    (exists w w', Storage.wal (storage d) = w /\ Wal.Close w = Ret (w', None) /\
       Storage.wal (storage d') = w').
Proof.
  intros (Hsr & Ht & w & m & Es & Hw & _) Hru Ep. cbn [Node.proposeHandler]. rewrite Hsr, Ep.
  unfold Node.fail_propose. cbn [ready_up Node.set_n]. rewrite Hru. cbn [Node.readyHandler].
  destruct (stop_ready_ok (Node.set_up (Node.set_n d n') true false) w (Some m) ops sh Es Hw Ht)
    as (d' & -> & H1 & H2 & _ & _ & H5 & H6 & w' & E7 & H8).
  rewrite ret_bind. exists d'. split; [done|]. split; [done|]. split; [done|]. split; [done|].
  split; [done|]. exists w, w'. by rewrite Es, H8.
Qed.

(** A node whose own address is not among its peers never starts: the error
    is sent to the ready loop, which is not running yet. *)
Lemma start_without_address_hangs (b : Badger.store) (rc : RaftConfig) :
  Z.of_nat sz mod 8 = 0 -> lrec_ok (LMeta None) -> lrec_ok (LState raftpb.emptyState) ->
  lrec_ok (LSnap walpb.empty_Snapshot) -> Peers rc !! rc_ID (rcfg rc) = None ->
  Node.Start sz (Disk [] []) b rc None = Hang.
Proof.
  intros Hn Hm Hst Hsn Ea. destruct (open_fresh sz Hn Hm Hst Hsn) as (w & E0 & Hw).
  destruct (Initialize_ok sz (Storage.newStorage (Disk [] [])) w _ _ _ E0) as (m & I0 & _);
    [done|done|].
  unfold Node.Start. rewrite I0, ret_bind. cbv beta iota zeta. unfold Transport.Start.
  cbn [Transport.peers Transport.id Transport.NewTransport]. by rewrite Ea, ret_bind.
Qed.

End Proposals.
(** ** Witnesses *)

Import MemRaft MemUrl.

(** A batch with read states. *)
Definition rbatch (commit : Z) (rss : list ReadState) (ents committed : list raftpb.Entry) : Ready :=
  MkReady None (raftpb.MkHardState 1 1 commit) rss ents raftpb.emptySnapshot committed [].

Definition timed_out : error := OtherError "read state timeout".

(** Two entries are applied and confirm a read, a reader takes the answer,
    and the third entry is applied. *)
Definition served : list node_event :=
  [OnReadIndex "k"; OnReady (Node.ReadyBatch (at_clock 3) (rbatch 0 [] three_commands []));
   OnReady (Node.ReadyBatch (at_clock 3) (rbatch 2 [MkReadState 2 "k"] [] (take 2 three_commands)));
   OnWait timed_out; OnReady (Node.ReadyBatch (at_clock 3) (rbatch 3 [] [] (drop 2 three_commands)));
   OnWait timed_out].

Definition started : outcome (result Node) :=
  Node.Start 64 (Disk [] []) FsmLog.replica node_one None.

Lemma served_runs : exists d d', started = Ret (inr d) /\ appliedIndex d = 0 /\ read_states d = [] /\
  run (node_step 64 None None) d served
    = Ret (d', [None; None; None; Some (MkReadState 2 "k"); None; None]).
Proof.
  assert (match started with
          | Ret (inr d) => appliedIndex d = 0 /\ read_states d = [] /\
              snd <$> run (node_step 64 None None) d served
                = Ret [None; None; None; Some (MkReadState 2 "k"); None; None]
          | _ => False
          end) as H by (vm_compute; repeat split).
  destruct started as [[err|d]|s|]; try done. destruct H as (A & R & H).
  destruct (answers _ _ H) as [d' E]. by exists d, d'.
Qed.

Lemma read_states_applied_witness : exists d d', started = Ret (inr d) /\
  run (node_step 64 None None) d served
    = Ret (d', [None; None; None; Some (MkReadState 2 "k"); None; None]) /\
  appliedIndex d <= appliedIndex d' /\ answers_ok d' /\ rs_Index (MkReadState 2 "k") <= appliedIndex d'.
Proof.
  destruct served_runs as (d & d' & E & A & R & H).
  destruct (read_states_applied 64 None None d d' served
    [None; None; None; Some (MkReadState 2 "k"); None; None]) as (H1 & H2 & H3).
  - repeat (apply Forall_cons; split); try exact I; try apply Forall_nil, I;
      (split; [reflexivity|]); [exists 1|exists 1|exists 3]; vm_compute; intuition discriminate.
  - rewrite A. vm_compute. intuition discriminate.
  - unfold answers_ok. rewrite R. constructor.
  - exact H.
  - exists d, d'. split; [exact E|]. split; [exact H|]. split; [exact H1|]. split; [exact H2|].
    apply H3. do 3 right. left.
Defined.

Definition two_reads : Ready := rbatch 0 [MkReadState 0 "a"; MkReadState 5 "b"] [] [].

(** Node 1 is removed, and node 2 updated. *)
Definition change (i kind node : Byte.byte) : raftpb.Entry :=
  raftpb.MkEntry 1 (Z.of_N (Byte.to_N i)) raftpb.EntryConfChange [kind; node].
Definition two_changes : Ready :=
  rbatch 0 [] [] [change Byte.x01 Byte.x01 Byte.x01; change Byte.x02 Byte.x02 Byte.x02].

Lemma started_saves rd : snd <$> (match started with
    | Ret (inr d) => Storage.SaveState 64 (Node.storage d) rd | _ => Hang end) = Ret None ->
  exists d st, started = Ret (inr d) /\ Storage.SaveState 64 (Node.storage d) rd = Ret (st, None) /\
    appliedIndex d = 0 /\ Transport.transport_up (transport d) /\ id d = 1 /\ selfRemoved d = false /\
    ready_up d = true /\ propose_up d = true /\ read_states d = [].
Proof.
  intros H. destruct served_runs as (d & _ & E & A & _ & _). rewrite E in H.
  destruct (answers _ _ H) as [st Es]. exists d, st.
  destruct (Start_inv 64 _ _ _ _ E) as (_ & Ht & Hi & H1 & H2 & H3 & H4).
  split; [exact E|]. split; [exact Es|]. split; [exact A|]. split; [exact Ht|]. auto 10.
Qed.

Lemma pending_read_states_dropped_witness : exists d d' d'', started = Ret (inr d) /\
  Node.processReady 64 None (at_clock 3) d two_reads = Ret (d', None) /\
  read_states d' = [MkReadState 0 "a"] /\
  Node.WaitForReadState d' timed_out = (d'', inr (MkReadState 0 "a")) /\
  Node.WaitForReadState d'' timed_out = (d'', inl timed_out).
Proof.
  destruct (started_saves two_reads) as (d & st & E & Es & A & Ht & _ & _ & _ & _ & R);
    [vm_compute; reflexivity|].
  destruct (pending_read_states_dropped 64 None d two_reads st (at_clock 3) (MkReadState 0 "a")
    (MkReadState 5 "b") timed_out) as (d' & d'' & H).
  - reflexivity.
  - rewrite A. simpl. lia.
  - reflexivity.
  - reflexivity.
  - reflexivity.
  - exact Es.
  - exact Ht.
  - exact R.
  - exists d, d', d''. split; [exact E|]. exact H.
Defined.

Lemma removal_by_last_change_witness : exists d d', started = Ret (inr d) /\
  Node.processReady 64 None (at_clock 3) d two_changes = Ret (d', None) /\
  selfRemoved d' = false /\ ready_up d' = true.
Proof.
  destruct (started_saves two_changes) as (d & st & E & Es & A & Ht & Hi & S1 & R1 & P1 & _);
    [vm_compute; reflexivity|].
  destruct (removal_by_last_change 64 None None d two_changes st (at_clock 3) 1) as (d' & H1 & H2 & H3 & _).
  - repeat constructor.
  - exact Es.
  - repeat split.
  - rewrite A. lia.
  - rewrite A. reflexivity.
  - repeat constructor; eexists; reflexivity.
  - repeat constructor.
  - exact Ht.
  - exact P1.
  - exact S1.
  - exact R1.
  - exists d, d'. rewrite A, Hi in H2. auto.
Defined.

Lemma refused_proposal_stops_node_witness : exists d d', started = Ret (inr d) /\
  Node.proposeHandler 64 None None (Node.set_n d (raftpb.MkConfState [] [])) (Node.Proposal "1" [])
    = Ret d' /\ ready_up d' = false /\ propose_up d' = false /\ responses d' = responses d.
Proof.
  assert (writable 0 (all_ops [])) as Hw 
    by (split; [apply Forall_nil, I|split; [vm_compute; intuition discriminate|reflexivity]]).
  destruct (start_one FsmLog.replica [] Hw I) as (d & st & E & _ & Hin & _).
  destruct (Start_inv 64 _ _ _ _ E) as (_ & _ & _ & _ & R1 & _).
  destruct (refused_proposal_stops_node 64 None None (Node.set_n d (raftpb.MkConfState [] [])) []
    "1" [] (raftpb.MkConfState [] []) (OtherError "raft proposal dropped"))
    as (d' & H1 & H2 & H3 & H4 & _).
  - exact Hin.
  - exact R1.
  - reflexivity.
  - exists d, d'. auto.
Defined.

End NodeEvents.
