(* ===== verification/Cluster.v ===== *)
(** * The wiring of a distributed store

    What [src/distributed.go] puts around the node: [initDistributed], the
    leader-change callback that starts and stops the timestamp oracle, the
    read-index protocol, and the table of waiting proposals between
    [proposeAndWait] and [listenProposeResponses], whose goroutines share
    unbuffered channels. *)

From S2P Require Import Prelude Errors Utils Mvcc BadgerApi MemBadger Codecs MemCodecs Badger.
From S2P Require Import BadgerReads Command MemCommand Fsm FsmLog WaterMark Tso TsoSafety RaftApi.
From S2P Require Import Config Urls Transport WalRecord MemRaftCodec WalRep WalLog Storage StorageLog StorageMem.
From S2P Require Import Node NodeLog.

(** ** Waiting proposals *)

Module Proposals.

(** [table]: the commands in [s.proposals]; [waiting]: the callers in the
    [select] of [proposeAndWait]; [closed]: the channels closed; [loaded]: the
    response [listenProposeResponses] has found a channel for and is sending;
    [answers]: what callers returned with, [None] for the timeout. *)
Record state := MkState {
  table : gset string;
  waiting : gset string;
  closed : gset string;
  loaded : option (string * option error);
  answers : list (string * option (option error))
}.

Definition init : state := MkState ∅ ∅ ∅ None [].

Inductive event : Type :=
  (** A caller stores its channel, sends its request and waits. *)
  | Propose (cmdID : string)
  (** The listener receives a response and looks its channel up. *)
  | Receive (cmdID : string) (err : option error)
  (** The listener's send meets the caller. *)
  | Deliver
  (** A caller's timer fires first. *)
  | Timeout (cmdID : string).

(** The caller deletes its entry, closes the channel and returns. *)
Definition return_ (s : state) (cmdID : string) (r : option (option error)) : state :=
  MkState (table s ∖ {[cmdID]}) (waiting s ∖ {[cmdID]}) (closed s ∪ {[cmdID]}) (loaded s)
    (answers s ++ [(cmdID, r)]).

Definition with_loaded (s : state) (l : option (string * option error)) : state :=
  MkState (table s) (waiting s) (closed s) l (answers s).

(** A send on a closed channel panics, also one that was already blocked. *)
Definition step (s : state) (ev : event) : outcome (state * unit) :=
  match ev with
  | Propose i =>
      Ret (MkState (table s ∪ {[i]}) (waiting s ∪ {[i]}) (closed s) (loaded s) (answers s), tt)
  | Receive i err =>
      match loaded s with
      | Some _ => Hang
      | None => Ret (if decide (i ∈ table s) then with_loaded s (Some (i, err)) else s, tt)
      end
  | Deliver =>
      match loaded s with
      | None => Hang
      | Some (i, err) =>
          if decide (i ∈ closed s) then Panic "send on closed channel"
          else if decide (i ∈ waiting s) then Ret (return_ (with_loaded s None) i (Some err), tt)
          else Hang
      end
  | Timeout i =>
      if decide (i ∈ waiting s) then Ret (return_ s i None, tt) else Hang
  end.

(** The identifiers proposed; [uuid.New] does not repeat one. *)
Definition proposed (evs : list event) : list string :=
  omap (fun ev => match ev with Propose i => Some i | _ => None end) evs.

Definition no_timeout (ev : event) : Prop :=
  match ev with Timeout _ => False | _ => True end.

(** While nobody gives up: whoever is in the table waits, on an open channel. *)
Definition patient (fresh : list string) (s : state) : Prop :=
  table s ⊆ waiting s /\ waiting s ## closed s /\
  (forall i, i ∈ fresh -> i ∉ waiting s ∪ closed s) /\
  match loaded s with Some (i, _) => i ∈ waiting s | None => True end.

Lemma patient_step s ev evs : patient (proposed (ev :: evs)) s -> NoDup (proposed (ev :: evs)) ->
  no_timeout ev ->
  match step s ev with
  | Ret (s', _) => patient (proposed evs) s'
  | Panic _ => False
  | Hang => True
  end.
Proof.
  intros (H1 & H2 & H3 & H4) Hnd Hev. destruct ev as [i|i err| |]; cbn [step]; [| | |done].
  - cbn in H3, Hnd. apply NoDup_cons in Hnd as [Hi Hnd]. unfold patient; cbn.
    split; [set_solver|]. split; [|split; [|destruct (loaded s) as [[? ?]|]; set_solver]].
    + specialize (H3 i). set_solver.
    + intros k Hk. specialize (H3 k). set_solver.
  - destruct (loaded s) as [?|] eqn:El; [done|]. case_decide; unfold patient; cbn.
    + repeat split; set_solver.
    + rewrite El. repeat split; set_solver.
  - destruct (loaded s) as [[i err]|] eqn:El; [|done]. rewrite decide_False by set_solver.
    rewrite decide_True by done. unfold patient; cbn. repeat split; set_solver.
Qed.

Lemma patient_run evs : forall s, patient (proposed evs) s -> NoDup (proposed evs) ->
  Forall no_timeout evs -> forall msg, run step s evs <> Panic msg.
Proof.
  induction evs as [|ev evs IH]; intros s Hs Hnd Hev msg; [done|]. cbn [run].
  apply Forall_cons in Hev as [Hev Hevs]. pose proof (patient_step s ev evs Hs Hnd Hev) as Hst.
  destruct (step s ev) as [[s' []]|m|]; [|done|done]. rewrite ret_bind.
  assert (NoDup (proposed evs)) as Hnd'.
  { cbn in Hnd. destruct ev; cbn in Hnd; [by apply NoDup_cons in Hnd as [_ ?]|done..]. }
  specialize (IH s' Hst Hnd' Hevs msg). destruct (run step s' evs) as [[s2 rs]|m|]; [done| |done].
  intros [= ->]. by apply IH.
Qed.

(** C39: a late response, and nothing else, crashes the process.  When a caller
    gives up between the listener's lookup of its channel and the send, it
    closes the channel and the send panics, whatever else was going on; as
    long as no caller gives up, no sequence of proposals and responses ends
    in a panic. *)
Theorem late_response_panics (s : state) (i : string) (err : option error) (evs : list event) :
  loaded s = None -> i ∈ table s -> i ∈ waiting s ->
  NoDup (proposed evs) -> Forall no_timeout evs ->
  run step s [Receive i err; Timeout i; Deliver] = Panic "send on closed channel" /\
  forall msg, run step init evs <> Panic msg.
Proof.
  intros El Ht Hw Hnd Hev. split.
  - cbn [run step]. rewrite El, decide_True, ret_bind by done.
    cbn [run step waiting with_loaded]. rewrite decide_True, ret_bind by done.
    cbn [run step loaded closed return_ with_loaded]. by rewrite decide_True by set_solver.
  - apply patient_run; [|done|done]. repeat split; set_solver.
Qed.

Lemma late_response_panics_witness :
  exists s, run step init [Propose "1"; Propose "2"] = Ret (s, [tt; tt]) /\
    run step s [Receive "2" None; Timeout "2"; Deliver] = Panic "send on closed channel" /\
    forall msg, run step init [Propose "1"; Receive "1" None; Propose "2"; Deliver] <> Panic msg.
Proof.
  eexists. split; [reflexivity|].
  apply late_response_panics; [reflexivity|cbn; set_solver|cbn; set_solver|cbn|repeat constructor].
  apply (bool_decide_unpack _). reflexivity.
Defined.
End Proposals.

(** ** Leadership *)

Module Leadership.
Section Leadership.
Context `{WM0 : WaterMarkLib} `{DL : DurationLib}.

(** [leaderChangeNotifier], the goroutines in [listenProposeResponses] and
    the calls of the user's hook; the node is its identifier. *)
Record inst := MkInst {
  self : Z;
  tso : TSO;
  leaderChangeNotifier : notifier;
  listeners : nat;
  onLeaderChangeHook : bool;
  hook_calls : list (Z * Z)
}.

(** What [tso.StartServing] meets. *)
Record serve := MkServe {
  sv_val : result (option bytes);
  sv_now : Z;
  sv_propose : Command -> outcome (option error);
  sv_id : string
}.

Definition start_serving (v : serve) (t : TSO) : outcome (TSO * option error) :=
  Tso.StartServing (sv_val v) (sv_now v) (sv_propose v) (sv_id v) t.

(** On gaining the leadership. *)
Definition gained (v : serve) (s : inst) : outcome inst :=
  '(t, err) ← start_serving v (tso s);
  match err with
  | Some _ => Panic "Failed to start TSO server on leadership gain"
  | None => Ret (MkInst (self s) t OpenChan (listeners s + 1) (onLeaderChangeHook s) (hook_calls s))
  end.

(** On losing it: closing the notifier ends the listener that captured it. *)
Definition lost (s : inst) : outcome inst :=
  t ← Tso.Close (tso s);
  let n := match leaderChangeNotifier s with
           | OpenChan => Nat.pred (listeners s)
           | _ => listeners s
           end in
  Ret (MkInst (self s) t NilChan n (onLeaderChangeHook s) (hook_calls s)).

Definition onLeaderChange (v : serve) (s : inst) (prevLeader newLeader : Z) : outcome inst :=
  s ← (if newLeader =? self s then gained v s else Ret s);
  s ← (if prevLeader =? self s then lost s else Ret s);
  Ret (if onLeaderChangeHook s
       then MkInst (self s) (tso s) (leaderChangeNotifier s) (listeners s) true
              (hook_calls s ++ [(prevLeader, newLeader)])
       else s).

(** The node's side ([handleLeaderChange]): the callback is called when the
    leader is another. *)
Definition leader_step (ls : Z * inst) (vl : serve * Z) : outcome ((Z * inst) * unit) :=
  if vl.2 =? ls.1 then Ret (ls, tt)
  else s ← onLeaderChange vl.1 ls.2 ls.1 vl.2; Ret ((vl.2, s), tt).

(** The first part of [DistributedBadger.Close]. *)
Definition close_tso (s : inst) : outcome inst :=
  t ← Tso.Close (tso s);
  Ret (MkInst (self s) t (leaderChangeNotifier s) (listeners s) (onLeaderChangeHook s) (hook_calls s)).

(** The stored bound can be read, and the proposal that moves it goes through. *)
Definition serve_ok (v : serve) : Prop :=
  (match sv_val v with
   | inl _ => False
   | inr (Some b) => (8 <= length b)%nat
   | inr None => True
   end) /\ forall c, sv_propose v c = Ret None.

Lemma start_serving_ok v t : serve_ok v ->
  exists t', start_serving v t = Ret (t', None) /\ stopNotifier t' = OpenChan.
Proof.
  intros [Hv Hp]. unfold start_serving, Tso.StartServing.
  destruct (sv_val v) as [?|[b|]]; [done| |].
  - unfold BytesToUint64. destruct (Nat.ltb_spec (length b) 8); [lia|]. rewrite !ret_bind.
    unfold Tso.persistUpperboundOnStartup. rewrite Hp, !ret_bind. by eexists.
  - rewrite ret_bind. unfold Tso.persistUpperboundOnStartup. rewrite Hp, !ret_bind. by eexists.
Qed.

(** [led]: whether the node has been the leader. *)
Definition follows (l : Z) (led : bool) (s : inst) : Prop :=
  if l =? self s
  then stopNotifier (tso s) = OpenChan /\ leaderChangeNotifier s = OpenChan /\ listeners s = 1%nat
  else stopNotifier (tso s) = (if led then ClosedChan else NilChan) /\
       leaderChangeNotifier s = NilChan /\ listeners s = 0%nat.

Lemma leader_step_follows l led s v l' : self s <> 0 -> serve_ok v -> follows l led s ->
  ((l =? self s) = true -> led = true) ->
  exists s', leader_step (l, s) (v, l') = Ret ((l', s'), tt) /\ self s' = self s /\
    follows l' (led || (l' =? self s)) s'.
Proof.
  intros Hs0 Hv Hf Hled. unfold leader_step. cbn [fst snd]. destruct (Z.eqb_spec l' l) as [->|Hne].
  { exists s. split; [done|]. split; [done|]. destruct (l =? self s) eqn:E.
    - rewrite orb_true_r. unfold follows in *. by rewrite E in *.
    - by rewrite orb_false_r. }
  unfold onLeaderChange, follows in *. destruct (Z.eqb_spec l' (self s)) as [El|El].
  - unfold gained. destruct (start_serving_ok v (tso s) Hv) as (t' & -> & Ht').
    rewrite !ret_bind. cbn [self]. destruct (Z.eqb_spec l (self s)); [congruence|].
    rewrite !ret_bind. destruct Hf as (_ & _ & Hl). rewrite Hl. cbn.
    destruct (onLeaderChangeHook s); eexists; (split; [reflexivity|]); cbn;
      rewrite (proj2 (Z.eqb_eq _ _)) by done; done.
  - rewrite ret_bind. destruct (Z.eqb_spec l (self s)) as [El'|El'].
    + destruct Hf as (H1 & H2 & H3). unfold lost, Tso.Close. rewrite H1, H2, H3, !ret_bind.
      rewrite (Hled eq_refl). cbn. destruct (onLeaderChangeHook s); eexists; (split; [reflexivity|]);
        cbn; rewrite (proj2 (Z.eqb_neq _ _)) by done; done.
    + rewrite !ret_bind, orb_false_r. destruct (onLeaderChangeHook s); eexists;
        (split; [reflexivity|]); cbn; rewrite (proj2 (Z.eqb_neq _ _)) by done; done.
Qed.

(** Whether the node is one of the leaders. *)
Definition among (s : inst) (vls : list (serve * Z)) : bool :=
  existsb (fun l => l =? self s) (map snd vls).

Lemma last_default {A} (x d : A) xs : List.last (x :: xs) d = List.last xs x.
Proof.
  revert x d. induction xs as [|y xs IH]; intros x d; [done|].
  change (List.last (y :: xs) d = List.last (y :: xs) x). by rewrite !IH.
Qed.

Lemma leader_run vls : forall l led s, self s <> 0 -> Forall (fun vl => serve_ok vl.1) vls ->
  follows l led s -> ((l =? self s) = true -> led = true) ->
  exists s', run leader_step (l, s) vls
      = Ret ((List.last (map snd vls) l, s'), replicate (length vls) tt) /\ self s' = self s /\
    follows (List.last (map snd vls) l) (led || among s vls) s'.
Proof.
  induction vls as [|[v l'] vls IH]; intros l led s Hs0 Hv Hf Hl.
  { exists s. by rewrite orb_false_r. }
  apply Forall_cons in Hv as [Hv Hvs].
  destruct (leader_step_follows l led s v l' Hs0 Hv Hf Hl) as (s1 & E1 & S1 & F1).
  destruct (IH l' (led || (l' =? self s)) s1) as (s2 & E2 & S2 & F2);
    [by rewrite S1|done|done|by rewrite S1; intros ->; rewrite orb_true_r|].
  exists s2. cbn [run]. rewrite E1, ret_bind. cbv beta iota. rewrite E2, ret_bind.
  split; [|split; [congruence|]].
  - cbn [map snd length replicate]. by rewrite last_default.
  - unfold among in *. cbn [map snd existsb]. rewrite S1, <- orb_assoc in F2.
    by rewrite last_default.
Qed.

(** C34: the oracle serves exactly while the node leads.  Over any history of
    leader changes, when each start of the oracle goes through, the oracle is
    open, one goroutine listens for responses, and the notifier is set if and
    only if the node is the leader at the end.  Closing the store then panics
    exactly when the node has been the leader and is no longer: the oracle's
    channel is closed twice. *)
Theorem serving_iff_leader (s : inst) (vls : list (serve * Z)) :
  self s <> 0 -> stopNotifier (tso s) = NilChan -> leaderChangeNotifier s = NilChan ->
  listeners s = 0%nat -> Forall (fun vl => serve_ok vl.1) vls ->
  exists l s', run leader_step (0, s) vls = Ret ((l, s'), replicate (length vls) tt) /\
    l = List.last (map snd vls) 0 /\
    (stopNotifier (tso s') = OpenChan <-> l = self s) /\
    listeners s' = (if l =? self s then 1%nat else 0%nat) /\
    ((exists msg, close_tso s' = Panic msg) <-> l <> self s /\ among s vls = true).
Proof.
  intros Hs0 H1 H2 H3 Hv.
  destruct (leader_run vls 0 false s Hs0 Hv) as (s' & E & Es & F).
  { unfold follows. rewrite (proj2 (Z.eqb_neq _ _)) by done. done. }
  { rewrite (proj2 (Z.eqb_neq _ _)) by done. done. }
  eexists _, s'. split; [exact E|]. split; [done|]. set (l := List.last (map snd vls) 0) in *.
  unfold follows in F. rewrite Es in F. unfold close_tso, Tso.Close.
  destruct (Z.eqb_spec l (self s)) as [El|El]; destruct F as (F1 & F2 & F3).
  - rewrite F1. split; [done|]. split; [done|]. rewrite ret_bind. split; [by intros [? ?]|tauto].
  - cbn [orb] in F1. rewrite F1.
    split; [destruct (among s vls); split; intros; by try congruence|]. split; [done|].
    destruct (among s vls).
    + split; [done|]. by eexists.
    + rewrite ret_bind. split; [by intros [? ?]|by intros [_ ?]].
Qed.

End Leadership.

(** *** Node 1 leads, loses, and another election goes by *)

Definition fresh_store : serve := MkServe (inr None) 1000 (fun _ => Ret None) "id".

Definition node_1 : inst :=
  MkInst 1 (Tso.newTSO (MemWM 0 ∅ 0) (MemWM 0 ∅ 0)) NilChan 0 true [].

Lemma serving_iff_leader_witness : exists s',
  run leader_step (0, node_1) [(fresh_store, 1); (fresh_store, 1); (fresh_store, 2)]
    = Ret ((2, s'), [tt; tt; tt]) /\ listeners s' = 0%nat /\
  exists msg, close_tso s' = Panic msg.
Proof.
  destruct (serving_iff_leader node_1 [(fresh_store, 1); (fresh_store, 1); (fresh_store, 2)])
    as (l & s' & E & El & _ & Hl & Hc).
  - discriminate.
  - reflexivity.
  - reflexivity.
  - reflexivity.
  - repeat (apply Forall_cons; split; [split; [exact I|reflexivity]|]). apply Forall_nil, I.
  - rewrite El in *. exists s'. split; [exact E|]. split; [exact Hl|].
    apply Hc. split; [discriminate|reflexivity].
Defined.
End Leadership.

(** ** Opening and reading *)

Module Wiring.
Section Wiring.
Context `{BA : BadgerAPI} `{JL : JsonLib} `{PL : ProtoLib} `{CC : CommandCodec}.
Context `{L : RaftLib} `{C : RaftCodec} `{S : MemoryStorageLib} `{U : UrlLib}.
Context (sz : nat) (cache : option Dynamic.protoDescriptorStore).

(** The store gets its oracle, the node is started, and the hooks are set
    once it runs; [before] is what the ready loop processes in between. *)
Definition initDistributed (dk : disk) (b : Badger.store) (rc : RaftConfig)
    (started : option error) (before : list ((Z -> env) * Ready)) : outcome (result Node) :=
  let b := Badger.Store (Badger.managed b) (Badger.db b) true in
  r ← Node.Start sz dk b rc started;
  match r with
  | inl err => Ret (inl err)
  | inr d =>
      '(d, _) ← run (fun d cr => d ← Node.readyHandler sz cache None d (Node.ReadyBatch cr.1 cr.2);
                                 Ret (d, tt)) d before;
      Ret (inr (Node.WithRemovedSelfHook (Node.WithLeaderChangeHook d)))
  end.

Definition isLeader (d : Node) : bool := Node.IsLeader d.

(** [waitForReadState]: the indices are only logged. *)
Definition waitForReadState (d : Node) (key : string) (ended : error) : Node * option error :=
  match Node.ReadIndex d key with
  | (d, inl err) => (d, Some err)
  | (d, inr _) =>
      match Node.WaitForReadState d ended with
      | (d, inl err) => (d, Some err)
      | (d, inr _) => (d, None)
      end
  end.

(** A leader that was elected before the hooks were set is never told: as
    long as it leads, no batch calls the hook. *)
Lemma early_leader_not_told d rd : lead d = id d -> rd_Lead rd = Some (id d) ->
  events (NodeLog.soft d rd) = events d.
Proof.
  intros El Er. unfold NodeLog.soft. rewrite Er. unfold Node.handleLeaderChange.
  by rewrite El, Z.eqb_refl.
Qed.

End Wiring.
End Wiring.
