(* ===== verification/KvPb.v ===== *)
(** * api/mvccpb/kv.pb.go

    The key-value pairs of etcd's store on the wire.  The varints, the skipping
    of unknown fields and the errors are those of every generated file, from
    [WalRecord]. *)

From S2P Require Import Prelude Errors Utils WalRecord.
From Stdlib Require Import Strings.Byte.

Module mvccpb.
Import walpb RecordCodec.

(** A [[]byte] that the store uses as a key is a string. *)
Record KeyValue := MkKV {
  Key : string;
  CreateRevision : Z;
  ModRevision : Z;
  Version : Z;
  Value : bytes;
  Lease : Z;
  kv_unrecognized : bytes
}.

Definition kv_Reset : KeyValue := MkKV "" 0 0 0 [] 0 [].

(** A field that proto3 leaves out when it is zero, or empty. *)
Definition int_field (tag : Byte.byte) (v : Z) : bytes :=
  if v =? 0 then [] else tag :: encodeVarintRecord (u64 v).

Definition bytes_field (tag : Byte.byte) (b : bytes) : bytes :=
  match b with [] => [] | _ => tag :: put_bytes b end.

Definition KeyValue_Marshal (m : KeyValue) : bytes :=
  bytes_field x0a (String.list_byte_of_string (Key m)) ++
  int_field x10 (CreateRevision m) ++
  int_field x18 (ModRevision m) ++
  int_field x20 (Version m) ++
  bytes_field x2a (Value m) ++
  int_field x30 (Lease m) ++
  kv_unrecognized m.

Definition int_size (v : Z) : Z := if v =? 0 then 0 else 1 + sovRecord (u64 v).

Definition bytes_size (b : bytes) : Z :=
  let l := Z.of_nat (length b) in if l =? 0 then 0 else 1 + l + sovRecord l.

Definition KeyValue_Size (m : KeyValue) : Z :=
  bytes_size (String.list_byte_of_string (Key m)) + int_size (CreateRevision m) +
  int_size (ModRevision m) + int_size (Version m) + bytes_size (Value m) + int_size (Lease m) +
  Z.of_nat (length (kv_unrecognized m)).

(** [KeyValue.Unmarshal]: a round per field; [b] is what is left. *)
Fixpoint KeyValue_loop (fuel : nat) (l : Z) (m : KeyValue) (b : bytes) : result KeyValue :=
  match fuel, b with
  | _, [] => inr m
  | O, _ => inl ErrUnexpectedEOF
  | S f, _ =>
      '(wire, r) ← read_varint u64 b;
      let w := Z.land wire 7 in
      let int (field : string) (set : Z -> KeyValue) :=
        if negb (w =? 0) then wrong_type w field else
        '(v, r') ← read_varint i64 r; KeyValue_loop f l (set v) r' in
      let chunk (field : string) (set : bytes -> KeyValue) :=
        if negb (w =? 2) then wrong_type w field else
        '(n, r') ← read_varint i64 r;
        '(d, r'') ← take_field l n r';
        KeyValue_loop f l (set d) r'' in
      let '(MkKV k c mo v va le u) := m in
      if w =? 4 then inl (OtherError "proto: KeyValue: wiretype end group for non-group")
      else if fieldNum wire <=? 0 then inl (OtherError "proto: KeyValue: illegal tag")
      else match fieldNum wire with
      | 1 => chunk "Key" (fun d => MkKV (String.string_of_list_byte d) c mo v va le u)
      | 2 => int "CreateRevision" (fun c => MkKV k c mo v va le u)
      | 3 => int "ModRevision" (fun mo => MkKV k c mo v va le u)
      | 4 => int "Version" (fun v => MkKV k c mo v va le u)
      | 5 => chunk "Value" (fun va => MkKV k c mo v va le u)
      | 6 => int "Lease" (fun le => MkKV k c mo v va le u)
      | _ =>
          '(x, r') ← unknown_field l b;
          KeyValue_loop f l (MkKV k c mo v va le (u ++ x)) r'
      end
  end.

(** Decoding into a value that was reset. *)
Definition KeyValue_Unmarshal (b : bytes) : result KeyValue :=
  KeyValue_loop (length b) (Z.of_nat (length b)) kv_Reset b.

(** ** Round trip *)

(** Every round that is left reads at least a byte. *)
Definition parses (l : Z) (m : KeyValue) (b : bytes) (m' : KeyValue) : Prop :=
  forall f, (length b <= f)%nat -> KeyValue_loop f l m b = inr m'.

Lemma parses_nil l m : parses l m [] m.
Proof. intros [|f] _; done. Qed.

(** The record with the [n]-th field set. *)
Definition set_int (n : Z) (m : KeyValue) (x : Z) : KeyValue :=
  let '(MkKV k c mo v va le u) := m in
  match n with
  | 2 => MkKV k x mo v va le u
  | 3 => MkKV k c x v va le u
  | 4 => MkKV k c mo x va le u
  | _ => MkKV k c mo v va x u
  end.

Definition set_bytes (n : Z) (m : KeyValue) (x : bytes) : KeyValue :=
  let '(MkKV k c mo v va le u) := m in
  match n with
  | 1 => MkKV (String.string_of_list_byte x) c mo v va le u
  | _ => MkKV k c mo v x le u
  end.

Ltac next_kv b :=
  cbn [KeyValue_loop]; rewrite read_tag by done; unfold mbind, result_bind at 1;
  let z := eval vm_compute in (Z_of_byte b) in change (Z_of_byte b) with z;
  simpl fieldNum; cbn -[read_varint encodeVarintRecord put_bytes take_field].

Lemma parses_int n tag l m v r m' :
  (n, tag) ∈ [(2, x10); (3, x18); (4, x20); (6, x30)] -> 0 <= v < 2 ^ 63 ->
  (v = 0 -> set_int n m v = m) ->
  parses l (set_int n m v) r m' -> parses l m (int_field tag v ++ r) m'.
Proof.
  intros Hn Hv H0 Hp f Hf. unfold int_field in *. destruct (Z.eqb_spec v 0) as [->|Hz].
  { cbn [app] in *. rewrite <- (H0 eq_refl). by apply Hp. }
  rewrite u64_small in * by word. destruct f as [|f]; [cbn in Hf; lia|]. cbn [app] in *.
  assert (length r <= f)%nat as Hr.
  { cbn [length] in Hf. rewrite length_app in Hf. lia. }
  specialize (Hp f Hr). destruct m as [k c mo ve va le u].
  repeat (apply elem_of_cons in Hn as [[= -> ->]|Hn]);
    [next_kv x10|next_kv x18|next_kv x20|next_kv x30|by apply not_elem_of_nil in Hn];
    rewrite read_i64 by done; exact Hp.
Qed.

Lemma parses_bytes n tag l m d r m' : (n, tag) ∈ [(1, x0a); (5, x2a)] ->
  Z.of_nat (length d + length r) <= l < 2 ^ 63 ->
  (d = [] -> set_bytes n m d = m) ->
  parses l (set_bytes n m d) r m' -> parses l m (bytes_field tag d ++ r) m'.
Proof.
  intros Hn Hl H0 Hp f Hf. unfold bytes_field in *. destruct d as [|b d].
  { cbn [app] in *. rewrite <- (H0 eq_refl). by apply Hp. }
  set (e := b :: d) in *. clearbody e.
  destruct f as [|f]; [cbn in Hf; lia|]. cbn [app] in *. unfold put_bytes in *.
  assert (length r <= f)%nat as Hr.
  { cbn [length] in Hf. rewrite !length_app in Hf. lia. }
  specialize (Hp f Hr). destruct m as [k c mo ve va le u].
  repeat (apply elem_of_cons in Hn as [[= -> ->]|Hn]);
    [next_kv x0a|next_kv x2a|by apply not_elem_of_nil in Hn];
    (rewrite <- app_assoc, read_i64 by lia;
     cbn -[read_varint encodeVarintRecord put_bytes take_field];
     rewrite take_field_app by done; exact Hp).
Qed.

(** What the store writes: no negative number, nothing unknown, and lengths
    far below the largest one. *)
Definition kv_fits (m : KeyValue) : Prop :=
  0 <= CreateRevision m < 2 ^ 63 /\ 0 <= ModRevision m < 2 ^ 63 /\ 0 <= Version m < 2 ^ 63 /\
  0 <= Lease m < 2 ^ 63 /\ kv_unrecognized m = [] /\
  Z.of_nat (length (String.list_byte_of_string (Key m)) + length (Value m)) < 2 ^ 62.

Lemma length_int_field tag v : (length (int_field tag v) <= 11)%nat.
Proof.
  unfold int_field. destruct (v =? 0); cbn [length]; [lia|].
  pose proof (length_varint (u64 v)). lia.
Qed.

Lemma length_bytes_field tag d : (length d <= length (bytes_field tag d) <= length d + 11)%nat.
Proof.
  unfold bytes_field, put_bytes. destruct d as [|b d]; cbn [length]; [lia|].
  rewrite length_app. cbn [length]. pose proof (length_varint (Z.of_nat (S (length d)))). lia.
Qed.

Lemma KeyValue_roundtrip m : kv_fits m -> KeyValue_Unmarshal (KeyValue_Marshal m) = inr m.
Proof.
  destruct m as [k c mo ve va le u]. unfold kv_fits. cbn [Key CreateRevision ModRevision Version Value Lease kv_unrecognized].
  intros (Hc & Hm & Hv & Hle & -> & Hlen). unfold KeyValue_Unmarshal.
  set (b := KeyValue_Marshal _). set (l := Z.of_nat (length b)).
  assert (parses l kv_Reset b (MkKV k c mo ve va le [])) as Hp; [|by apply Hp].
  assert (Z.of_nat (length (String.list_byte_of_string k) + length va) <= l /\ l < 2 ^ 63) as [Hlo Hhi].
  { unfold l, b, KeyValue_Marshal. cbn [Key CreateRevision ModRevision Version Value Lease kv_unrecognized].
    pose proof (length_int_field x10 c). pose proof (length_int_field x18 mo).
    pose proof (length_int_field x20 ve). pose proof (length_int_field x30 le).
    pose proof (length_bytes_field x0a (String.list_byte_of_string k)). pose proof (length_bytes_field x2a va).
    rewrite !length_app. cbn [length]. lia. }
  assert (l = Z.of_nat (length (KeyValue_Marshal (MkKV k c mo ve va le [])))) as El by done.
  clearbody l. unfold b, KeyValue_Marshal in *. clear b.
  cbn [Key CreateRevision ModRevision Version Value Lease kv_unrecognized] in *.
  rewrite !length_app in El.
  pose proof (length_bytes_field x0a (String.list_byte_of_string k)). pose proof (length_bytes_field x2a va).
  apply (parses_bytes 1); [by left|rewrite !length_app; lia|by destruct k|].
  apply (parses_int 2); [set_solver|done|by intros ->|].
  apply (parses_int 3); [set_solver|done|by intros ->|].
  apply (parses_int 4); [set_solver|done|by intros ->|].
  apply (parses_bytes 5); [set_solver|rewrite !length_app; lia|by intros ->|].
  apply (parses_int 6); [set_solver|done|by intros ->|].
  cbn. rewrite String.string_of_list_byte_of_string. apply parses_nil.
Qed.

(** [Size] is exact: [Marshal] fills its buffer. *)
Lemma KeyValue_Size_exact m : Z.of_nat (length (String.list_byte_of_string (Key m)) + length (Value m)) < 2 ^ 62 ->
  Z.of_nat (length (KeyValue_Marshal m)) = KeyValue_Size m.
Proof.
  assert (forall tag v, Z.of_nat (length (int_field tag v)) = int_size v) as Hi.
  { intros tag v. unfold int_field, int_size. destruct (v =? 0); [done|]. cbn [length].
    rewrite <- sov_exact by apply u64_range. lia. }
  assert (forall tag d, Z.of_nat (length d) < 2 ^ 62 -> Z.of_nat (length (bytes_field tag d)) = bytes_size d) as Hb.
  { intros tag d Hd. unfold bytes_field, bytes_size. destruct d as [|b d]; [done|].
    rewrite (proj2 (Z.eqb_neq _ _)) by (cbn [length]; lia).
    rewrite <- sov_exact by word. unfold put_bytes. cbn [length]. rewrite length_app. cbn [length]. lia. }
  intros Hl. unfold KeyValue_Marshal, KeyValue_Size. rewrite !length_app.
  rewrite <- !(Hi x10), <- !(Hb x0a) by lia.
  assert (forall t t' v, length (int_field t v) = length (int_field t' v)) as Ht.
  { intros t t' v. unfold int_field. by destruct (v =? 0). }
  assert (length (bytes_field x2a (Value m)) = length (bytes_field x0a (Value m))) as -> by (by destruct (Value m)).
  rewrite !(Ht x18 x10), !(Ht x20 x10), !(Ht x30 x10). lia.
Qed.

End mvccpb.
