(* ===== verification/BoltApi.v ===== *)
(** * bbolt

    The database file below etcd's store, go.etcd.io/bbolt, as the interface
    that [server/storage/backend] uses: named buckets of pairs, visited in the
    order of their keys.  A transaction is what it sees: a read-only one keeps
    the state it began with, a writable one becomes the state of the file when
    it commits.  Instance: [MemBolt]. *)

From S2P Require Import Prelude Errors Utils KeyIndex RevBytes.
From Stdlib Require Import Strings.Byte.

(** ** Pairs in the order of their keys *)

Abbreviation kvp := (bytes * bytes)%type.

Module Pairs.
Import RevBytes.

Definition klt (x y : kvp) : Prop := bytes_ltb (fst x) (fst y) = true.

(** A pair put among pairs in order. *)
Fixpoint ins (x : kvp) (l : list kvp) : list kvp :=
  match l with
  | [] => [x]
  | y :: l' =>
      if bytes_ltb (fst x) (fst y) then x :: l
      else if bool_decide (fst x = fst y) then x :: l'
      else y :: ins x l'
  end.

Definition del (k : bytes) (l : list kvp) : list kvp :=
  List.filter (fun x => negb (bool_decide (fst x = k))) l.

(** Puts one after the other. *)
Definition upd (l ps : list kvp) : list kvp := fold_left (fun l x => ins x l) ps l.

Definition find (k : bytes) (l : list kvp) : option bytes :=
  snd <$> List.find (fun x => bool_decide (fst x = k)) l.

Definition sorted (l : list kvp) : Prop := StronglySorted klt l.

(** *** The order *)

Lemma Z_of_byte_inj a b : Z_of_byte a = Z_of_byte b -> a = b.
Proof.
  unfold Z_of_byte. intros E%N2Z.inj.
  assert (Some a = Some b) as [= ->]; [|done]. rewrite <- (Byte.of_to_N a), <- (Byte.of_to_N b). by rewrite E.
Qed.

Lemma bytes_ltb_irrefl a : bytes_ltb a a = false.
Proof. induction a as [|x a IH]; [done|]. cbn. by rewrite Z.ltb_irrefl, Z.eqb_refl, IH. Qed.

Lemma bytes_ltb_trans a b c : bytes_ltb a b = true -> bytes_ltb b c = true -> bytes_ltb a c = true.
Proof.
  revert b c. induction a as [|x a IH]; intros [|y b] [|z c]; cbn; try done.
  rewrite !orb_true_iff, !andb_true_iff, !Z.ltb_lt, !Z.eqb_eq.
  intros [?|[? ?]] [?|[? ?]]; [left; lia..|right; split; [lia|by eapply IH]].
Qed.

Lemma bytes_ltb_total a b : bytes_ltb a b = false -> a = b \/ bytes_ltb b a = true.
Proof.
  revert b. induction a as [|x a IH]; intros [|y b]; cbn; try done; [by left|by right|].
  rewrite orb_false_iff, andb_false_iff, !Z.ltb_ge, !Z.eqb_neq. rewrite orb_true_iff, andb_true_iff, Z.ltb_lt, Z.eqb_eq.
  intros [Hle [Hne|Hlt]]; [right; left; lia|].
  destruct (Z.eq_dec (Z_of_byte x) (Z_of_byte y)) as [E|Hne]; [|right; left; lia].
  destruct (IH b Hlt) as [->|?]; [left; by rewrite (Z_of_byte_inj _ _ E)|right; right; done].
Qed.

Lemma bytes_ltb_ne a b : bytes_ltb a b = true -> a <> b.
Proof. intros Hlt ->. by rewrite bytes_ltb_irrefl in Hlt. Qed.

Lemma bytes_ltb_asym a b : bytes_ltb a b = true -> bytes_ltb b a = false.
Proof.
  intros Hab. destruct (bytes_ltb b a) eqn:E; [|done].
  pose proof (bytes_ltb_trans _ _ _ Hab E) as Hx. by rewrite bytes_ltb_irrefl in Hx.
Qed.

#[global] Instance klt_trans : Transitive klt.
Proof. intros x y z. apply bytes_ltb_trans. Qed.

(** *** Insertion *)

Lemma elem_of_ins x l y : sorted l -> y ∈ ins x l <-> y = x \/ (y ∈ l /\ fst y <> fst x).
Proof.
  induction 1 as [|z l Hs IH Hz]; cbn [ins].
  { rewrite list_elem_of_singleton, elem_of_nil. tauto. }
  rewrite Forall_forall in Hz. destruct (bytes_ltb (fst x) (fst z)) eqn:E.
  - rewrite elem_of_cons. split; [|tauto]. intros [->|Hy]; [by left|right]. split; [done|].
    apply elem_of_cons in Hy as [->|Hy]; [intros E'; by apply (bytes_ltb_ne _ _ E)|].
    intros E'. apply (bytes_ltb_ne (fst x) (fst y)); [|done].
    eapply bytes_ltb_trans; [exact E|]. by apply Hz.
  - case_bool_decide as Ek.
    + rewrite !elem_of_cons. split.
      * intros [->|Hy]; [by left|right]. split; [by right|]. intros E'.
        apply (bytes_ltb_ne (fst z) (fst y)); [by apply Hz|congruence].
      * intros [->|[[->|Hy] Hn]]; [by left|congruence|by right].
    + rewrite !elem_of_cons, IH. split.
      * intros [->|[->|[Hy Hn]]]; [right; split; [by left|congruence]|by left|right; split; [by right|done]].
      * intros [->|[[->|Hy] Hn]]; [by right; left|by left|by right; right].
Qed.

Lemma ins_sorted x l : sorted l -> sorted (ins x l).
Proof.
  induction 1 as [|z l Hs IH Hz]; cbn [ins]; [by repeat constructor|].
  destruct (bytes_ltb (fst x) (fst z)) eqn:E.
  - constructor; [by constructor|]. constructor; [done|]. rewrite Forall_forall in *.
    intros y Hy. eapply bytes_ltb_trans; [exact E|]. by apply Hz.
  - case_bool_decide as Ek.
    + constructor; [done|]. rewrite Forall_forall in *. intros y Hy. unfold klt. rewrite Ek. by apply Hz.
    + constructor; [done|]. rewrite Forall_forall in *. intros y [->|[Hy _]]%elem_of_ins; [|by apply Hz|done].
      destruct (bytes_ltb_total _ _ E); [done|]. done.
Qed.

Lemma upd_sorted l ps : sorted l -> sorted (upd l ps).
Proof. revert l. induction ps as [|x ps IH]; intros l Hl; [done|]. apply IH. by apply ins_sorted. Qed.

Lemma upd_app l a b : upd l (a ++ b) = upd (upd l a) b.
Proof. apply fold_left_app. Qed.

(** A pair after all others is put at the end. *)
Lemma ins_end x l : (forall y, y ∈ l -> klt y x) -> ins x l = l ++ [x].
Proof.
  induction l as [|y l IH]; intros Hl; [done|]. cbn [ins app].
  assert (klt y x) as Hy by (apply Hl; by left). unfold klt in Hy.
  rewrite (bytes_ltb_asym _ _ Hy), bool_decide_false, IH; [done| |].
  - intros z Hz. apply Hl. by right.
  - intros E. by apply (bytes_ltb_ne _ _ Hy).
Qed.

Lemma upd_end l ps : sorted (l ++ ps) -> upd l ps = l ++ ps.
Proof.
  revert l. induction ps as [|x ps IH]; intros l Hs; [by rewrite app_nil_r|].
  cbn [upd fold_left]. fold (upd (ins x l) ps). rewrite ins_end.
  - rewrite IH; rewrite <- app_assoc; done.
  - apply StronglySorted_app in Hs as (Hx & _). intros y Hy. apply Hx; [done|by left].
Qed.

Lemma upd_nil l : sorted l -> upd [] l = l.
Proof. intros Hl. by apply upd_end. Qed.

(** *** Lists in order are equal when they have the same pairs *)

Lemma sorted_fst l x y : sorted l -> x ∈ l -> y ∈ l -> fst x = fst y -> x = y.
Proof.
  induction 1 as [|z l Hs IH Hz]; [by intros ?%not_elem_of_nil|]. rewrite Forall_forall in Hz.
  intros [->|Hx]%elem_of_cons [->|Hy]%elem_of_cons E; [done|..|by apply IH].
  - exfalso. apply (bytes_ltb_ne (fst z) (fst y)); [by apply Hz|done].
  - exfalso. apply (bytes_ltb_ne (fst z) (fst x)); [by apply Hz|done].
Qed.

Lemma sorted_ext l l' : sorted l -> sorted l' -> (forall x, x ∈ l <-> x ∈ l') -> l = l'.
Proof.
  intros Hl. revert l'. induction Hl as [|x l Hl IH Hx]; intros l' Hl' He.
  - destruct l' as [|y l']; [done|]. assert (y ∈ @nil kvp) as ?%not_elem_of_nil; [|done].
    apply He. by left.
  - rewrite Forall_forall in Hx. destruct Hl' as [|y l' Hl' Hy].
    { assert (x ∈ @nil kvp) as ?%not_elem_of_nil; [|done]. apply He. by left. }
    rewrite Forall_forall in Hy.
    assert (x = y) as <-.
    { assert (x ∈ y :: l') as [?|Hx']%elem_of_cons by (apply He; by left); [done|].
      assert (y ∈ x :: l) as [?|Hy']%elem_of_cons by (apply He; by left); [done|].
      pose proof (Hx y Hy') as H1. pose proof (Hy x Hx') as H2. unfold klt in *.
      by rewrite (bytes_ltb_asym _ _ H1) in H2. }
    f_equal. apply IH; [done|]. intros z. split; intros Hz.
    + assert (z ∈ x :: l') as [->|?]%elem_of_cons by (apply He; by right); [|done].
      specialize (Hx x Hz). unfold klt in Hx. by rewrite bytes_ltb_irrefl in Hx.
    + assert (z ∈ x :: l) as [->|?]%elem_of_cons by (apply He; by right); [|done].
      specialize (Hy x Hz). unfold klt in Hy. by rewrite bytes_ltb_irrefl in Hy.
Qed.

Lemma sorted_lookup l i j x y : sorted l -> l !! i = Some x -> l !! j = Some y -> (i < j)%nat -> klt x y.
Proof.
  intros Hs. revert i j. induction Hs as [|z l Hs IH Hz]; intros i j Hi Hj Hij; [done|].
  destruct j as [|j]; [lia|]. cbn in Hj. destruct i as [|i]; [|by eapply IH; [..|apply Nat.succ_lt_mono]].
  cbn in Hi. injection Hi as <-. rewrite Forall_forall in Hz. apply Hz. by eapply list_elem_of_lookup_2.
Qed.

Lemma ins_comm x y l : sorted l -> fst x <> fst y -> ins x (ins y l) = ins y (ins x l).
Proof.
  intros Hl Hn. apply sorted_ext; [by repeat apply ins_sorted..|]. intros z.
  rewrite !elem_of_ins by (by repeat apply ins_sorted). naive_solver.
Qed.

(** Puts of different keys may be made in any order. *)
Lemma upd_perm l ps qs : ps ≡ₚ qs -> NoDup (map fst ps) -> sorted l -> upd l ps = upd l qs.
Proof.
  intros Hp. revert l. induction Hp as [|x ps qs Hp IH|x y ps|ps qs rs Hp1 IH1 Hp2 IH2]; intros l Hd Hl.
  - done.
  - cbn [map] in Hd. apply NoDup_cons in Hd as [_ Hd]. cbn [upd fold_left]. apply IH; [done|].
    by apply ins_sorted.
  - cbn [map] in Hd. apply NoDup_cons in Hd as [Hx _]. cbn [upd fold_left]. rewrite ins_comm; [done|done|].
    intros E. apply Hx. rewrite E. by left.
  - rewrite IH1 by done. apply IH2; [|done]. by rewrite <- (Permutation_map fst Hp1).
Qed.

(** *** Lookup *)

Lemma find_Some k l v : sorted l -> find k l = Some v <-> (k, v) ∈ l.
Proof.
  intros Hl. unfold find. destruct (List.find _ l) as [[k' v']|] eqn:E; cbn.
  - apply find_some in E as [Hin Hk]. apply bool_decide_eq_true in Hk. cbn in Hk. subst k'.
    apply list_elem_of_In in Hin. split; [by intros [= ->]|]. intros Hv.
    by assert ((k, v') = (k, v)) as [= ->] by (by eapply sorted_fst).
  - split; [done|]. intros Hin%list_elem_of_In. eapply find_none in E; [|exact Hin].
    apply bool_decide_eq_false in E. done.
Qed.

Lemma find_ins x l k : sorted l -> find k (ins x l) = if decide (fst x = k) then Some (snd x) else find k l.
Proof.
  intros Hl. apply option_eq. intros v. rewrite find_Some by (by apply ins_sorted). rewrite elem_of_ins by done.
  destruct x as [k' v']. cbn. case_decide as Hk.
  - split; [intros [[= -> ->]|[_ ?]]; [done|congruence]|]. intros [= ->]. left. congruence.
  - rewrite find_Some by done. split; [intros [[= -> ->]|[? _]]; done|]. intros ?. right. split; [done|congruence].
Qed.

Lemma find_upd l ps k : sorted l ->
  find k (upd l ps) = match find k (upd [] ps) with Some v => Some v | None => find k l end.
Proof.
  intros Hl. induction ps as [|x ps IH] using rev_ind; [done|].
  rewrite !upd_app. cbn [upd fold_left]. rewrite !find_ins by (by apply upd_sorted; done || constructor).
  case_decide; [done|exact IH].
Qed.

Lemma sorted_find_ext l l' : sorted l -> sorted l' -> (forall k, find k l = find k l') -> l = l'.
Proof.
  intros Hl Hl' He. apply sorted_ext; [done..|]. intros [k v]. by rewrite <- !find_Some, He.
Qed.

Lemma upd_upd l a b : sorted l -> sorted a -> upd l (upd a b) = upd (upd l a) b.
Proof.
  intros Hl Ha. apply sorted_find_ext; [by repeat apply upd_sorted..|]. intros k.
  rewrite (find_upd l), (find_upd (upd l a)), (find_upd l a), (upd_nil (upd a b)), (upd_nil a), (find_upd a)
    by (done || by repeat apply upd_sorted).
  by destruct (find k (upd [] b)).
Qed.

Lemma upd_idem l a : sorted l -> sorted a -> upd (upd l a) a = upd l a.
Proof.
  intros Hl Ha. apply sorted_find_ext; [by repeat apply upd_sorted..|]. intros k.
  rewrite (find_upd (upd l a)), (find_upd l), (upd_nil a) by (done || by apply upd_sorted).
  by destruct (find k a).
Qed.

Lemma elem_of_del k l x : x ∈ del k l <-> x ∈ l /\ fst x <> k.
Proof.
  unfold del. rewrite !list_elem_of_In, filter_In, negb_true_iff, bool_decide_eq_false. done.
Qed.

Lemma filter_pairs_sorted (f : kvp -> bool) l : sorted l -> sorted (List.filter f l).
Proof.
  induction 1 as [|x l Hs IH Hx]; cbn [List.filter]; [constructor|]. destruct (f x); [|done].
  constructor; [done|]. rewrite Forall_forall in *. intros y [Hy _]%list_elem_of_In%filter_In.
  apply Hx. by apply list_elem_of_In.
Qed.

(** *** Ranges *)

(** The first [n] elements, without counting to [n] when it is far beyond the
    end. *)
Fixpoint ztake {A} (n : Z) (l : list A) : list A :=
  match l with
  | [] => []
  | x :: l => if n <=? 0 then [] else x :: ztake (n - 1) l
  end.

Lemma ztake_take {A} n (l : list A) : ztake n l = take (Z.to_nat n) l.
Proof.
  revert n. induction l as [|x l IH]; intros n; cbn [ztake]; [by rewrite take_nil|].
  destruct (Z.leb_spec n 0) as [Hn|Hn].
  - replace (Z.to_nat n) with 0%nat by lia. done.
  - replace (Z.to_nat n) with (S (Z.to_nat (n - 1))) by lia. cbn [take]. by rewrite IH.
Qed.

Lemma ztake_nil {A} n : ztake n (@nil A) = [].
Proof. done. Qed.

(** What a range read returns: with an empty [endKey] the pair of [key]. *)
Definition range (key endKey : bytes) (limit : Z) (l : list kvp) : list kvp :=
  match endKey with
  | [] => List.filter (fun x => bool_decide (fst x = key)) l
  | _ => ztake limit
           (List.filter (fun x => negb (bytes_ltb (fst x) key) && bytes_ltb (fst x) endKey) l)
  end.

Lemma below_mono k x y : klt x y -> bytes_ltb (fst y) k = true -> bytes_ltb (fst x) k = true.
Proof. intros Hxy. by apply bytes_ltb_trans. Qed.

Lemma drop_while_below k l : sorted l ->
  drop_while (fun x => bytes_ltb (fst x) k) l = List.filter (fun x => negb (bytes_ltb (fst x) k)) l.
Proof. intros Hl. apply (drop_while_filter _ klt); [done|]. intros x y. apply below_mono. Qed.

Lemma take_while_below k l : sorted l ->
  take_while (fun x => bytes_ltb (fst x) k) l = List.filter (fun x => bytes_ltb (fst x) k) l.
Proof. intros Hl. apply (take_while_filter _ klt); [done|]. intros x y. apply below_mono. Qed.

Lemma filter_filter_and (f g : kvp -> bool) l :
  List.filter g (List.filter f l) = List.filter (fun x => f x && g x) l.
Proof.
  induction l as [|x l IH]; [done|]. cbn [List.filter]. destruct (f x); cbn [List.filter andb]; by rewrite IH.
Qed.

(** A cursor from [k] on reads the pair of [k] first, when there is one. *)
Lemma head_from k l : sorted l ->
  match drop_while (fun x => bytes_ltb (fst x) k) l with
  | x :: _ => if bool_decide (k = fst x) then [x] else []
  | [] => []
  end = List.filter (fun x => bool_decide (fst x = k)) l.
Proof.
  induction 1 as [|x l Hs IH Hx]; [done|]. cbn [drop_while List.filter].
  destruct (bytes_ltb (fst x) k) eqn:E.
  - rewrite IH, (bool_decide_false (fst x = k)); [done|]. by apply bytes_ltb_ne.
  - assert (List.filter (fun x => bool_decide (fst x = k)) l = []) as ->.
    { clear IH Hs. induction Hx as [|y l Hy Hx IH]; [done|]. cbn [List.filter]. rewrite IH.
      rewrite bool_decide_false; [done|]. intros E'. unfold klt in Hy. congruence. }
    destruct (decide (fst x = k)) as [Ek|Ek].
    + by rewrite !bool_decide_true.
    + by rewrite !bool_decide_false.
Qed.

Lemma range_from key endKey limit l : sorted l -> endKey <> [] ->
  ztake limit (take_while (fun x => bytes_ltb (fst x) endKey)
    (drop_while (fun x => bytes_ltb (fst x) key) l)) = range key endKey limit l.
Proof.
  intros Hl He. unfold range. destruct endKey as [|e es]; [done|]. f_equal.
  rewrite drop_while_below by done. rewrite take_while_below by (by apply filter_pairs_sorted).
  apply filter_filter_and.
Qed.

Lemma find_range key limit l : sorted l ->
  range key [] limit l = match find key l with Some v => [(key, v)] | None => [] end.
Proof.
  intros Hl. unfold range, find. induction Hl as [|x l Hs IH Hx]; [done|]. cbn [List.filter List.find].
  case_bool_decide as E; [|exact IH]. cbn. rewrite <- E.
  assert (List.filter (fun x0 => bool_decide (fst x0 = fst x)) l = []) as ->; [|by destruct x].
  clear IH Hs. induction Hx as [|y l Hy Hx IH]; [done|]. cbn [List.filter]. rewrite IH.
  rewrite bool_decide_false; [done|]. intros E'. by apply (bytes_ltb_ne _ _ Hy).
Qed.

End Pairs.

(** ** Buckets *)

Class BoltLib := {
  bolt : Type;
  (** [tx.Bucket(name)]: nil, or the pairs that its cursor visits. *)
  bolt_Bucket : bolt -> bytes -> option (list kvp);
  (** The names that the cursor of the transaction visits. *)
  bolt_Names : bolt -> list bytes;
  (** [Cursor.Seek(key)] and then [Next], as long as they find a key. *)
  bolt_Seek : bolt -> bytes -> bytes -> list kvp;
  bolt_CreateBucketIfNotExists : bolt -> bytes -> result bolt;
  bolt_DeleteBucket : bolt -> bytes -> result bolt;
  bolt_Put : bolt -> bytes -> bytes -> bytes -> result bolt;
  bolt_Delete : bolt -> bytes -> bytes -> result bolt;
  (** A file that was just created. *)
  bolt_New : bolt
}.

Definition ErrBucketNotFound : error := OtherError "bucket not found".

(** bbolt's limits: a key is not empty and has at most 32768 bytes, a value
    has at most [2^31 - 2]. *)
Definition storable (x : kvp) : Prop :=
  fst x <> [] /\ (Z.of_nat (length (fst x)) <= 32768) /\ Z.of_nat (length (snd x)) <= 2 ^ 31 - 2.

Section Laws.
Context `{B : BoltLib}.
Import Pairs.

(** The bucket [n] of [b'] is [l], and the others are those of [b]. *)
Definition changed (b b' : bolt) (n : bytes) (l : option (list kvp)) : Prop :=
  bolt_Bucket b' n = l /\ forall m, m <> n -> bolt_Bucket b' m = bolt_Bucket b m.

Class BoltLaws : Prop := {
  bolt_sorted : forall b n l, bolt_Bucket b n = Some l -> sorted l;
  bolt_names : forall b, NoDup (bolt_Names b);
  bolt_named : forall b n, n ∈ bolt_Names b <-> is_Some (bolt_Bucket b n);
  bolt_seek : forall b n k l, bolt_Bucket b n = Some l ->
    bolt_Seek b n k = drop_while (fun x => RevBytes.bytes_ltb (fst x) k) l;
  bolt_create : forall b n, n <> [] -> exists b', bolt_CreateBucketIfNotExists b n = inr b' /\
    changed b b' n (Some (default [] (bolt_Bucket b n)));
  bolt_drop : forall b n, match bolt_Bucket b n with
    | Some _ => exists b', bolt_DeleteBucket b n = inr b' /\ changed b b' n None
    | None => bolt_DeleteBucket b n = inl ErrBucketNotFound
    end;
  bolt_put : forall b n k v l, bolt_Bucket b n = Some l -> storable (k, v) ->
    exists b', bolt_Put b n k v = inr b' /\ changed b b' n (Some (ins (k, v) l));
  bolt_delete : forall b n k l, bolt_Bucket b n = Some l ->
    exists b', bolt_Delete b n k = inr b' /\ changed b b' n (Some (del k l));
  bolt_new : forall n, bolt_Bucket bolt_New n = None
}.

End Laws.
Arguments BoltLaws : clear implicits.
Arguments BoltLaws {_}.

(** ** Maps of lists *)

Module MemBolt.
Import Pairs.

#[export] Instance byte_countable : Countable Byte.byte.
Proof.
  refine (inj_countable Byte.to_N Byte.of_N _). apply Byte.of_to_N.
Defined.

#[export] Instance storable_dec x : Decision (storable x).
Proof. unfold storable. apply _. Defined.

Definition bucket (b : gmap bytes (list kvp)) (n : bytes) : option (list kvp) := upd [] <$> b !! n.

#[export] Instance mem_bolt : BoltLib := {
  bolt := gmap bytes (list kvp);
  bolt_Bucket := bucket;
  bolt_Names b := map fst (map_to_list b);
  bolt_Seek b n k := drop_while (fun x => RevBytes.bytes_ltb (fst x) k) (default [] (bucket b n));
  bolt_CreateBucketIfNotExists b n :=
    if decide (n = []) then inl (OtherError "bucket name required")
    else inr (<[n := default [] (b !! n)]> b);
  bolt_DeleteBucket b n :=
    match b !! n with Some _ => inr (delete n b) | None => inl ErrBucketNotFound end;
  bolt_Put b n k v :=
    match bucket b n with
    | Some l => if decide (storable (k, v)) then inr (<[n := ins (k, v) l]> b)
                else inl (OtherError "key required or too large")
    | None => inl ErrBucketNotFound
    end;
  bolt_Delete b n k :=
    match bucket b n with
    | Some l => inr (<[n := del k l]> b)
    | None => inl ErrBucketNotFound
    end;
  bolt_New := ∅
}.

Lemma changed_insert (b : gmap bytes (list kvp)) n l : sorted l -> changed b (<[n := l]> b) n (Some l).
Proof.
  intros Hl. split; cbn; unfold bucket.
  - rewrite lookup_insert_eq. cbn. by rewrite upd_nil.
  - intros m Hm. by rewrite lookup_insert_ne.
Qed.

#[export] Instance mem_bolt_laws : BoltLaws.
Proof.
  constructor; cbn; unfold bucket.
  - intros b n l. destruct (b !! n); [|done]. intros [= <-]. apply upd_sorted. constructor.
  - intros b. apply NoDup_fst_map_to_list.
  - intros b n. rewrite list_elem_of_fmap. rewrite fmap_is_Some. split.
    + intros ([n' l] & -> & Hin%elem_of_map_to_list). eauto.
    + intros [l Hl]. exists (n, l). split; [done|]. by apply elem_of_map_to_list.
  - intros b n k l ->. done.
  - intros b n Hn. rewrite decide_False by done. eexists. split; [done|].
    split; cbn; unfold bucket.
    + rewrite lookup_insert_eq. cbn. by destruct (b !! n).
    + intros m Hm. by rewrite lookup_insert_ne.
  - intros b n. destruct (b !! n) as [l|] eqn:E; cbn; [|done]. eexists. split; [done|].
    split; cbn; unfold bucket; [by rewrite lookup_delete_eq|]. intros m Hm. by rewrite lookup_delete_ne.
  - intros b n k v l El Hs. rewrite El, decide_True by done. eexists. split; [done|].
    apply changed_insert. apply ins_sorted. destruct (b !! n); [|done]. injection El as <-.
    apply upd_sorted. constructor.
  - intros b n k l El. rewrite El. eexists. split; [done|]. apply changed_insert. apply filter_pairs_sorted.
    destruct (b !! n); [|done]. injection El as <-. apply upd_sorted. constructor.
  - intros n. by rewrite lookup_empty.
Qed.

End MemBolt.
