(* ===== verification/TxBuffer.v ===== *)
(** * server/storage/backend/tx_buffer.go

    The pairs that were put since the last commit of the database, per bucket,
    for the readers: a write buffer that the holder of the lock fills, and a
    read buffer it is written back to. *)

From S2P Require Import Prelude Errors Utils KeyIndex RevBytes BoltApi.
From Stdlib Require Import Strings.Byte.

Module txBuffer.
Import RevBytes Pairs.

(** [backend.Bucket], as [schema] fills it. *)
Record Bucket := MkBucket {
  ID : Z;
  Name : bytes;
  IsSafeRangeBucket : bool
}.

#[global] Instance Bucket_eq_dec : EqDecision Bucket.
Proof. solve_decision. Defined.

(** ** bucketBuffer *)

(** [buf] is as long as it was made, of which [used] elements count. *)
Record bucketBuffer := MkBuffer {
  buf : list kvp;
  used : nat
}.

Definition bucketBufferInitialSize : nat := 512.

Definition newBucketBuffer : bucketBuffer :=
  MkBuffer (repeat ([], []) bucketBufferInitialSize) 0.

Definition contents (bb : bucketBuffer) : list kvp := take (used bb) (buf bb).

(** [sort.Search]: the loop halves [j - i], so that [j - i] rounds are
    enough. *)
Fixpoint search (fuel : nat) (f : nat -> bool) (i j : nat) : nat :=
  match fuel with
  | O => i
  | S fuel =>
      if (i <? j)%nat then
        let h := ((i + j) / 2)%nat in
        if f h then search fuel f i h else search fuel f (S h) j
      else i
  end.

Definition Search (n : nat) (f : nat -> bool) : nat := search n f 0 n.

(** [endKey] is empty when it is nil. *)
Definition Range (bb : bucketBuffer) (key endKey : bytes) (limit : Z) : list kvp :=
  let f i := match buf bb !! i with Some x => negb (bytes_ltb (fst x) key) | None => true end in
  let idx := Search (used bb) f in
  match drop idx (contents bb) with
  | [] => []
  | (x :: _) as l =>
      match endKey with
      | [] => if bool_decide (key = fst x) then [x] else []
      | _ =>
          if negb (bytes_ltb (fst x) endKey) then []
          else ztake limit (take_while (fun x => bytes_ltb (fst x) endKey) l)
      end
  end.

(** What [ForEach] visits. *)
Definition ForEach (bb : bucketBuffer) : list kvp := contents bb.

Definition add (bb : bucketBuffer) (x : kvp) : outcome bucketBuffer :=
  if (used bb <? length (buf bb))%nat then
    let b := <[used bb := x]> (buf bb) in
    let n := S (used bb) in
    Ret (MkBuffer (if (n =? length b)%nat
                   then b ++ repeat ([], []) (3 * length b / 2 - length b) else b) n)
  else Panic "index out of range".

Fixpoint add_all (bb : bucketBuffer) (l : list kvp) : outcome bucketBuffer :=
  match l with
  | [] => Ret bb
  | x :: l => bb ← add bb x; add_all bb l
  end.

(** [sort.Stable]: a pair goes behind those with the same key. *)
Fixpoint place_stable (x : kvp) (l : list kvp) : list kvp :=
  match l with
  | [] => [x]
  | y :: l' => if bytes_ltb (fst x) (fst y) then x :: l else y :: place_stable x l'
  end.

Definition stable_sort (l : list kvp) : list kvp := fold_left (fun l x => place_stable x l) l [].

(** The loop of [dedupe] over sorted pairs keeps the last one of a key. *)
Fixpoint newest (l : list kvp) : list kvp :=
  match l with
  | [] => []
  | x :: l' =>
      match l' with
      | y :: _ => if bool_decide (fst y = fst x) then newest l' else x :: newest l'
      | [] => [x]
      end
  end.

(** The pairs that are kept are written over the first ones. *)
Definition dedupe (bb : bucketBuffer) : bucketBuffer :=
  if (used bb <=? 1)%nat then bb
  else
    let l := stable_sort (contents bb) in
    let d := newest l in
    MkBuffer (d ++ drop (length d) l ++ drop (used bb) (buf bb)) (length d).

Definition merge (bb bbsrc : bucketBuffer) : outcome bucketBuffer :=
  bb ← add_all bb (contents bbsrc);
  if (used bb =? used bbsrc)%nat then Ret bb
  else
    match buf bb !! (used bb - used bbsrc - 1)%nat, buf bbsrc !! 0%nat with
    | Some x, Some y => Ret (if bytes_ltb (fst x) (fst y) then bb else dedupe bb)
    | _, _ => Panic "index out of range"
    end.

(** [sort.Sort(bb)].  Go does not say in which order pairs of the same key
    end up; up to twelve pairs it is an insertion sort, which keeps it. *)
Definition Sort (bb : bucketBuffer) : bucketBuffer :=
  MkBuffer (stable_sort (contents bb) ++ drop (used bb) (buf bb)) (used bb).

Definition CopyUsed (bb : bucketBuffer) : bucketBuffer := MkBuffer (contents bb) (used bb).

(** ** txBuffer *)

Abbreviation buffers := (gmap Z bucketBuffer).

(** A bucket that was not used since the last reset is dropped. *)
Definition reset (bs : buffers) : buffers :=
  omap (fun bb => if (used bb =? 0)%nat then None else Some (MkBuffer (buf bb) 0)) bs.

Record txWriteBuffer := MkWrite {
  wbuckets : buffers;
  (** Whether the keys of a bucket were put in increasing order. *)
  bucket2seq : gmap Z bool
}.

Record txReadBuffer := MkRead {
  rbuckets : buffers;
  bufVersion : Z
}.

Definition putInternal (txw : txWriteBuffer) (b : Bucket) (k v : bytes) : outcome txWriteBuffer :=
  bb ← add (default newBucketBuffer (wbuckets txw !! ID b)) (k, v);
  Ret (MkWrite (<[ID b := bb]> (wbuckets txw)) (bucket2seq txw)).

Definition put (txw : txWriteBuffer) (b : Bucket) (k v : bytes) : outcome txWriteBuffer :=
  putInternal (MkWrite (wbuckets txw) (<[ID b := false]> (bucket2seq txw))) b k v.

(** The check of the order in [putSeq] only runs in tests. *)
Definition putSeq (txw : txWriteBuffer) (b : Bucket) (k v : bytes) : outcome txWriteBuffer :=
  putInternal txw b k v.

Definition w_reset (txw : txWriteBuffer) : txWriteBuffer :=
  let bs := reset (wbuckets txw) in
  MkWrite bs (map_imap (fun k seq =>
                          match bs !! k with
                          | None => None
                          | Some bb => Some (if (used bb =? 0)%nat then true else seq)
                          end) (bucket2seq txw)).

(** The step of [writeback] for a bucket: the buffer of the writer is handed
    over when the readers have none, and merged into theirs otherwise. *)
Definition handover (unordered : bool) (wb : bucketBuffer) (ro : option bucketBuffer)
    : outcome (option bucketBuffer * bucketBuffer) :=
  match ro with
  | None => Ret (None, if unordered then dedupe wb else wb)
  | Some rb =>
      let wb := if unordered && (1 <? used wb)%nat then Sort wb else wb in
      rb ← merge rb wb;
      Ret (Some wb, rb)
  end.

Definition writeback_one (b2s : gmap Z bool) (st : buffers * buffers) (k : Z)
    : outcome (buffers * buffers) :=
  let '(ws, rs) := st in
  match ws !! k with
  | None => Ret st
  | Some wb =>
      let unordered := match b2s !! k with Some seq => negb seq | None => false end in
      '(wo, rb) ← handover unordered wb (rs !! k);
      Ret (match wo with Some wb => <[k := wb]> ws | None => delete k ws end, <[k := rb]> rs)
  end.

Fixpoint writeback_all (b2s : gmap Z bool) (st : buffers * buffers) (ks : list Z)
    : outcome (buffers * buffers) :=
  match ks with
  | [] => Ret st
  | k :: ks => st ← writeback_one b2s st k; writeback_all b2s st ks
  end.

(** Go visits the buckets in any order: they do not depend on each other. *)
Definition writeback (txw : txWriteBuffer) (txr : txReadBuffer)
    : outcome (txWriteBuffer * txReadBuffer) :=
  '(ws, rs) ← writeback_all (bucket2seq txw) (wbuckets txw, rbuckets txr)
                (map fst (map_to_list (wbuckets txw)));
  Ret (w_reset (MkWrite ws (bucket2seq txw)), MkRead rs (u64 (bufVersion txr + 1))).

Definition r_Range (txr : txReadBuffer) (b : Bucket) (key endKey : bytes) (limit : Z) : list kvp :=
  match rbuckets txr !! ID b with
  | Some bb => Range bb key endKey limit
  | None => []
  end.

Definition r_ForEach (txr : txReadBuffer) (b : Bucket) : list kvp :=
  match rbuckets txr !! ID b with
  | Some bb => ForEach bb
  | None => []
  end.

Definition unsafeCopy (txr : txReadBuffer) : txReadBuffer :=
  MkRead (CopyUsed <$> rbuckets txr) 0.

(** [readTx.buf.reset()]. *)
Definition r_reset (txr : txReadBuffer) : txReadBuffer := MkRead (reset (rbuckets txr)) (bufVersion txr).

End txBuffer.

(** ** What the operations do to the pairs *)

Module TxBufferSpec.
Import RevBytes Pairs txBuffer.

(** There is room for another pair, and room to grow. *)
Definition ok (bb : bucketBuffer) : Prop :=
  (used bb < length (buf bb))%nat /\ (2 <= length (buf bb))%nat.

Lemma new_ok : ok newBucketBuffer.
Proof. unfold ok, newBucketBuffer. cbn [used buf]. rewrite repeat_length. unfold bucketBufferInitialSize. lia. Qed.

Lemma contents_length bb : ok bb -> length (contents bb) = used bb.
Proof. intros [Hu _]. unfold contents. rewrite length_take. lia. Qed.

Lemma add_spec bb x : ok bb ->
  exists bb', add bb x = Ret bb' /\ ok bb' /\ contents bb' = contents bb ++ [x].
Proof.
  intros [Hu Hl]. unfold add. rewrite (proj2 (Nat.ltb_lt _ _)) by done.
  eexists. split; [reflexivity|]. unfold ok, contents. cbn [used buf]. rewrite length_insert.
  destruct (Nat.eqb_spec (S (used bb)) (length (buf bb))) as [E|Hn].
  - split.
    + rewrite length_app, length_insert, repeat_length.
      pose proof (Nat.div_le_lower_bound (3 * length (buf bb)) 2 (S (length (buf bb)))). lia.
    + rewrite take_app_le by (rewrite length_insert; lia).
      by rewrite (take_S_r _ _ x), take_insert_ge by (lia || by apply list_lookup_insert_eq).
  - split; [rewrite length_insert; lia|].
    by rewrite (take_S_r _ _ x), take_insert_ge by (lia || by apply list_lookup_insert_eq).
Qed.

Lemma add_all_spec l bb : ok bb ->
  exists bb', add_all bb l = Ret bb' /\ ok bb' /\ contents bb' = contents bb ++ l.
Proof.
  revert bb. induction l as [|x l IH]; intros bb Hok; cbn [add_all].
  - exists bb. by rewrite app_nil_r.
  - destruct (add_spec bb x Hok) as (b1 & -> & Hok1 & E1). rewrite ret_bind.
    destruct (IH b1 Hok1) as (b2 & -> & Hok2 & E2). exists b2. split; [done|]. split; [done|].
    by rewrite E2, E1, <- app_assoc.
Qed.

(** *** Sorting and removing duplicates *)

Definition kle (x y : kvp) : Prop := bytes_ltb (fst y) (fst x) = false.

Lemma klt_kle x y : klt x y -> kle x y.
Proof. apply bytes_ltb_asym. Qed.

Lemma kle_trans x y z : kle x y -> kle y z -> kle x z.
Proof.
  unfold kle. intros Hxy Hyz. destruct (bytes_ltb (fst z) (fst x)) eqn:E; [|done].
  destruct (bytes_ltb_total _ _ Hxy) as [E'|Hlt]; [by rewrite <- Hyz, E'|].
  rewrite (bytes_ltb_trans _ _ _ E Hlt) in Hyz. done.
Qed.

Lemma elem_of_place x l y : y ∈ place_stable x l <-> y = x \/ y ∈ l.
Proof.
  induction l as [|z l IH]; cbn [place_stable]; [rewrite list_elem_of_singleton, elem_of_nil; tauto|].
  destruct (bytes_ltb (fst x) (fst z)); rewrite !elem_of_cons; [tauto|]. rewrite IH. tauto.
Qed.

Lemma place_kle x l : StronglySorted kle l -> StronglySorted kle (place_stable x l).
Proof.
  induction 1 as [|z l Hs IH Hz]; cbn [place_stable]; [by repeat constructor|].
  destruct (bytes_ltb (fst x) (fst z)) eqn:E.
  - assert (kle x z) as Hxz by (by apply bytes_ltb_asym). constructor; [by constructor|].
    constructor; [done|]. eapply Forall_impl; [exact Hz|]. intros y Hy. by eapply kle_trans.
  - constructor; [done|]. rewrite Forall_forall in *. intros y [->|Hy]%elem_of_place; [done|by apply Hz].
Qed.

Lemma newest_head y l : exists z l', newest (y :: l) = z :: l' /\ fst z = fst y.
Proof.
  revert y. induction l as [|z l IH]; intros y; [by exists y, []|].
  cbn [newest]. case_bool_decide as E; [|by do 2 eexists].
  destruct (IH z) as (w & l' & Ew & Ez). exists w, l'. split; [exact Ew|congruence].
Qed.

(** A stable sort puts a pair behind those of the same key, so that it is the
    one that stays. *)
Lemma newest_place x l : StronglySorted kle l -> newest (place_stable x l) = ins x (newest l).
Proof.
  induction 1 as [|y l Hs IH Hy]; [done|]. cbn [place_stable].
  destruct (bytes_ltb (fst x) (fst y)) eqn:Exy.
  { destruct (newest_head y l) as (z & l' & E & Ez). rewrite E.
    cbn [ins]. rewrite Ez, Exy, <- E. cbn [newest].
    rewrite bool_decide_false; [done|]. intros E'. by apply (bytes_ltb_ne _ _ Exy). }
  destruct l as [|z l].
  { cbn. rewrite Exy. done. }
  apply Forall_cons in Hy as [Hyz _]. cbn [place_stable] in *.
  destruct (bytes_ltb (fst x) (fst z)) eqn:Exz.
  - change (newest (y :: x :: z :: l)) with
      (if bool_decide (fst x = fst y) then newest (x :: z :: l) else y :: newest (x :: z :: l)).
    rewrite IH. change (newest (y :: z :: l)) with
      (if bool_decide (fst z = fst y) then newest (z :: l) else y :: newest (z :: l)).
    assert (fst z <> fst y) as Hzy.
    { intros E. rewrite E in Exz. congruence. }
    rewrite (bool_decide_false (fst z = fst y)) by done. cbn [ins]. rewrite Exy.
    case_bool_decide as E; [|done].
    destruct (newest_head z l) as (w & l' & Ew & Ez). rewrite Ew. cbn [ins]. by rewrite Ez, Exz.
  - change (newest (y :: z :: place_stable x l)) with
      (if bool_decide (fst z = fst y) then newest (z :: place_stable x l) else y :: newest (z :: place_stable x l)).
    rewrite IH. change (newest (y :: z :: l)) with
      (if bool_decide (fst z = fst y) then newest (z :: l) else y :: newest (z :: l)).
    case_bool_decide as E; [done|]. cbn [ins]. rewrite Exy, bool_decide_false; [done|].
    intros E'. destruct (bytes_ltb_total _ _ Exz) as [?|Hlt]; [congruence|].
    unfold kle in Hyz. rewrite <- E' in Hyz. congruence.
Qed.

Lemma sort_app l x : stable_sort (l ++ [x]) = place_stable x (stable_sort l).
Proof. unfold stable_sort. by rewrite fold_left_app. Qed.

Lemma sort_kle l : StronglySorted kle (stable_sort l).
Proof. induction l as [|x l IH] using rev_ind; [constructor|]. rewrite sort_app. by apply place_kle. Qed.

Lemma newest_sort l : newest (stable_sort l) = upd [] l.
Proof.
  induction l as [|x l IH] using rev_ind; [done|].
  rewrite sort_app, newest_place, IH, upd_app by apply sort_kle. done.
Qed.

Lemma place_perm x l : place_stable x l ≡ₚ x :: l.
Proof.
  induction l as [|y l IH]; [done|]. cbn [place_stable]. destruct (bytes_ltb (fst x) (fst y)); [done|].
  rewrite IH. apply Permutation_swap.
Qed.

Lemma sort_perm l : stable_sort l ≡ₚ l.
Proof.
  induction l as [|x l IH] using rev_ind; [done|]. rewrite sort_app, place_perm, IH.
  apply Permutation_cons_append.
Qed.

(** Pairs with different keys end up in strict order. *)
Lemma sort_sorted l : NoDup (map fst l) -> sorted (stable_sort l).
Proof.
  intros Hd. pose proof (sort_kle l) as Hs.
  rewrite <- (Permutation_map fst (sort_perm l)) in Hd.
  induction Hs as [|x k Hs IH Hx]; [constructor|]. cbn [map] in Hd. apply NoDup_cons in Hd as [Hn Hd].
  constructor; [by apply IH|]. rewrite Forall_forall in *. intros y Hy. specialize (Hx y Hy).
  destruct (bytes_ltb_total _ _ Hx) as [E|?]; [|done]. exfalso. apply Hn. rewrite <- E.
  by apply list_elem_of_In, in_map, list_elem_of_In.
Qed.

Lemma length_newest l : (length (newest l) <= length l)%nat.
Proof.
  induction l as [|x [|y l] IH]; [done|done|]. cbn [newest] in *.
  case_bool_decide; cbn [length] in *; lia.
Qed.

Lemma dedupe_spec bb : ok bb -> ok (dedupe bb) /\ contents (dedupe bb) = upd [] (contents bb).
Proof.
  intros Hok. pose proof (contents_length bb Hok) as Hl. unfold dedupe.
  destruct (Nat.leb_spec (used bb) 1) as [Hu|Hu].
  - split; [done|]. symmetry. apply upd_nil. destruct (contents bb) as [|x [|y l]]; cbn in Hl; [constructor| |lia].
    repeat constructor.
  - destruct Hok as [Hu1 Hl1]. set (l := stable_sort (contents bb)).
    assert (length l = used bb) as El by (unfold l; by rewrite (Permutation_length (sort_perm _))).
    pose proof (length_newest l) as Hn. split.
    + unfold ok. cbn [used buf]. rewrite !length_app, !length_drop. lia.
    + unfold contents at 1. cbn [used buf]. rewrite take_app_length. apply newest_sort.
Qed.

Lemma buf_contents bb i : (i < used bb)%nat -> buf bb !! i = contents bb !! i.
Proof. intros Hi. unfold contents. by rewrite lookup_take_lt. Qed.

(** The readers' pairs get the puts of the writer. *)
Lemma merge_spec bb src : ok bb -> ok src -> sorted (contents bb) -> sorted (contents src) ->
  exists bb', merge bb src = Ret bb' /\ ok bb' /\ contents bb' = upd (contents bb) (contents src).
Proof.
  intros Hok Hsrc Hs1 Hs2. unfold merge.
  destruct (add_all_spec (contents src) bb Hok) as (b1 & -> & Hok1 & E1). rewrite ret_bind.
  pose proof (contents_length b1 Hok1) as L1. pose proof (contents_length bb Hok) as L0.
  pose proof (contents_length src Hsrc) as Ls. rewrite E1, length_app, L0, Ls in L1.
  destruct (Nat.eqb_spec (used b1) (used src)) as [E|Hn].
  { exists b1. split; [done|]. split; [done|]. rewrite E1.
    assert (contents bb = []) as -> by (apply nil_length_inv; lia). by rewrite upd_nil. }
  rewrite buf_contents by lia. rewrite E1.
  destruct (contents bb !! (used b1 - used src - 1)%nat) as [x|] eqn:Ex.
  2: { apply lookup_ge_None in Ex. lia. }
  rewrite (lookup_app_l_Some _ _ _ _ Ex).
  destruct (buf src !! 0%nat) as [y|] eqn:Ey.
  2: { apply lookup_ge_None in Ey. destruct Hsrc. lia. }
  eexists. split; [reflexivity|]. destruct (bytes_ltb (fst x) (fst y)) eqn:Exy.
  - split; [done|]. rewrite E1. symmetry. apply upd_end. apply StronglySorted_app.
    split; [|done]. intros a b Ha Hb.
    assert (kle a x) as Hax.
    { apply list_elem_of_lookup in Ha as [i Hi]. apply lookup_lt_Some in Hi as Hil.
      destruct (decide (i = used b1 - used src - 1)%nat) as [->|Hne].
      - rewrite Hi in Ex. injection Ex as ->. apply bytes_ltb_irrefl.
      - apply klt_kle. eapply (sorted_lookup (contents bb)); [exact Hs1|exact Hi|exact Ex|lia]. }
    assert (kle y b) as Hyb.
    { rewrite buf_contents in Ey by (destruct (contents src); [by apply not_elem_of_nil in Hb|cbn in Ls; lia]).
      apply list_elem_of_lookup in Hb as [[|i] Hi]; [rewrite Hi in Ey; injection Ey as ->; apply bytes_ltb_irrefl|].
      apply klt_kle. eapply (sorted_lookup (contents src)); [exact Hs2|exact Ey|exact Hi|lia]. }
    unfold klt. destruct (bytes_ltb (fst a) (fst b)) eqn:Eab; [done|].
    assert (kle y x) as Hyx by (eapply kle_trans; [exact Hyb|]; by eapply kle_trans; [exact Eab|]).
    unfold kle in Hyx. congruence.
  - destruct (dedupe_spec b1 Hok1) as [Hd ->]. split; [done|]. by rewrite E1, upd_app, upd_nil.
Qed.

(** *** Reading *)

Lemma search_spec n f fuel i j : (forall h h', (h <= h' < n)%nat -> f h = true -> f h' = true) ->
  (j - i <= fuel)%nat -> (i <= j <= n)%nat -> (forall h, (h < i)%nat -> f h = false) ->
  (forall h, (j <= h < n)%nat -> f h = true) ->
  let r := search fuel f i j in
  (r <= n)%nat /\ (forall h, (h < r)%nat -> f h = false) /\ (forall h, (r <= h < n)%nat -> f h = true).
Proof.
  intros Hm. revert i j. induction fuel as [|fuel IH]; intros i j Hf Hij Hlo Hhi; cbn [search].
  { assert (i = j) as -> by lia. split; [lia|done]. }
  destruct (Nat.ltb_spec i j) as [Hlt|Hge].
  2: { assert (i = j) as -> by lia. split; [lia|done]. }
  pose proof (Nat.div_mod_eq (i + j) 2) as Hd. pose proof (Nat.mod_upper_bound (i + j) 2).
  set (h := ((i + j) / 2)%nat) in *. destruct (f h) eqn:E.
  - apply IH; [lia|lia|done|]. intros h' Hh'. by apply (Hm h h'); [lia|].
  - apply IH; [lia|lia| |done]. intros h' Hh'. destruct (f h') eqn:E'; [|done].
    rewrite (Hm h' h) in E; [done|lia|done].
Qed.

Lemma drop_while_drop {A} (p : A -> bool) r (l : list A) :
  (forall i x, (i < r)%nat -> l !! i = Some x -> p x = true) ->
  (forall x, l !! r = Some x -> p x = false) -> drop_while p l = drop r l.
Proof.
  revert r. induction l as [|x l IH]; intros [|r] Hlo Hhi; try done; cbn [drop_while drop].
  - by rewrite (Hhi x).
  - rewrite (Hlo 0%nat x) by (done || lia). apply IH; [|done].
    intros i y Hi Hy. apply (Hlo (S i) y); [lia|done].
Qed.

Lemma Range_spec bb key endKey limit : (used bb <= length (buf bb))%nat -> sorted (contents bb) ->
  Range bb key endKey limit = range key endKey limit (contents bb).
Proof.
  intros Hok Hs. assert (length (contents bb) = used bb) as Hlen by (unfold contents; rewrite length_take; lia).
  unfold Range, Search.
  set (f := fun i => match buf bb !! i with Some x => negb (bytes_ltb (fst x) key) | None => true end).
  assert (forall i, (i < used bb)%nat -> exists x, contents bb !! i = Some x /\ f i = negb (bytes_ltb (fst x) key)) as Hf.
  { intros i Hi. destruct (lookup_lt_is_Some_2 (contents bb) i) as [x Hx]; [by rewrite Hlen|].
    exists x. split; [done|]. unfold f. by rewrite buf_contents, Hx. }
  destruct (search_spec (used bb) f (used bb) 0 (used bb)) as (Hr & Hlo & Hhi).
  { intros h h' Hh. destruct (decide (h = h')) as [->|Hne]; [done|].
    destruct (Hf h) as (x & Hx & ->); [lia|]. destruct (Hf h') as (y & Hy & ->); [lia|].
    rewrite !negb_true_iff. intros Ex. destruct (bytes_ltb (fst y) key) eqn:Ey; [|done].
    rewrite <- Ex. symmetry. eapply below_mono; [|exact Ey]. apply (sorted_lookup (contents bb) h h'); [done..|lia]. }
  { lia. } { lia. } { lia. } { lia. }
  set (r := search (used bb) f 0 (used bb)) in *.
  assert (drop r (contents bb) = drop_while (fun x => bytes_ltb (fst x) key) (contents bb)) as ->.
  { symmetry. apply drop_while_drop.
    - intros i x Hi Hx. destruct (Hf i) as (y & Hy & Ey); [lia|]. rewrite Hx in Hy. injection Hy as <-.
      rewrite (Hlo i Hi) in Ey. by destruct (bytes_ltb (fst x) key).
    - intros x Hx. apply lookup_lt_Some in Hx as Hlt. rewrite Hlen in Hlt.
      destruct (Hf r) as (y & Hy & Ey); [lia|]. rewrite Hx in Hy. injection Hy as <-.
      rewrite (Hhi r) in Ey by lia. by destruct (bytes_ltb (fst x) key). }
  destruct endKey as [|e es]; [by apply head_from|]. rewrite <- range_from by done.
  destruct (drop_while _ (contents bb)) as [|x l]; cbn [take_while]; [done|].
  destruct (bytes_ltb (fst x) (e :: es)) eqn:E; cbn [negb take_while]; rewrite ?E; done.
Qed.

(** *** Writing back *)

Definition conts (o : option bucketBuffer) : list kvp :=
  match o with Some bb => contents bb | None => [] end.

(** What the buffer of the readers is. *)
Definition readable (o : option bucketBuffer) : Prop :=
  match o with Some bb => ok bb /\ sorted (contents bb) | None => True end.

(** Enough to read from a buffer, as from a copy that has no room. *)
Definition legible (o : option bucketBuffer) : Prop :=
  match o with
  | Some bb => (used bb <= length (buf bb))%nat /\ sorted (contents bb)
  | None => True
  end.

Lemma readable_legible o : readable o -> legible o.
Proof. destruct o as [bb|]; [|done]. intros [[Hu _] Hs]. split; [lia|done]. Qed.

Lemma legible_sorted o : legible o -> sorted (conts o).
Proof. destruct o as [bb|]; [by intros []|constructor]. Qed.

Lemma copy_spec o : legible o -> legible (CopyUsed <$> o) /\ conts (CopyUsed <$> o) = conts o.
Proof.
  destruct o as [bb|]; [|done]. intros [Hu Hs]. cbn [fmap option_fmap option_map legible conts].
  assert (contents (CopyUsed bb) = contents bb) as E.
  { unfold CopyUsed, contents. cbn [used buf]. by rewrite take_take, Nat.min_id. }
  rewrite E. split; [|done]. split; [|done]. unfold CopyUsed, contents. cbn [used buf]. rewrite length_take. lia.
Qed.

(** What a write buffer has to be: its keys were put in order, or it is marked
    as unordered and no key was put twice. *)
Definition writable (sq : option bool) (o : option bucketBuffer) : Prop :=
  match o with
  | Some bb => ok bb /\ (sorted (contents bb) \/ sq = Some false /\ NoDup (map fst (contents bb)))
  | None => True
  end.

Lemma readable_sorted o : readable o -> sorted (conts o).
Proof. destruct o as [bb|]; [by intros []|constructor]. Qed.

Lemma Sort_spec bb : ok bb -> ok (Sort bb) /\ used (Sort bb) = used bb /\ contents (Sort bb) = stable_sort (contents bb).
Proof.
  intros Hok. pose proof (contents_length bb Hok) as Hl. destruct Hok as [Hu H2].
  assert (length (stable_sort (contents bb)) = used bb) as El by (by rewrite (Permutation_length (sort_perm _))).
  unfold ok, Sort. cbn [used buf]. rewrite length_app, length_drop, El. split; [lia|]. split; [done|].
  unfold contents at 1. cbn [used buf]. rewrite <- El at 1. by rewrite take_app_length.
Qed.

Lemma sorted_NoDup l : sorted l -> NoDup (map fst l).
Proof.
  induction 1 as [|x l Hs IH Hx]; [constructor|]. cbn [map]. constructor; [|done].
  intros (y & E & Hy%list_elem_of_In)%list_elem_of_In%in_map_iff. rewrite Forall_forall in Hx.
  apply (bytes_ltb_ne (fst x) (fst y)); [by apply Hx|done].
Qed.

Lemma handover_spec sq wb ro : writable sq (Some wb) -> readable ro ->
  exists wo rb, handover (match sq with Some s => negb s | None => false end) wb ro = Ret (wo, rb) /\
    ok rb /\ contents rb = upd (conts ro) (contents wb) /\
    match wo with Some wb' => ok wb' /\ used wb' = used wb | None => True end.
Proof.
  intros [Hok Hw] Hr. assert (NoDup (map fst (contents wb))) as Hd.
  { destruct Hw as [Hs|[_ Hd]]; [by apply sorted_NoDup|done]. }
  assert (sq <> Some false -> sorted (contents wb)) as Hseq by (by destruct Hw as [|[]]).
  set (un := match sq with Some s => negb s | None => false end).
  assert (un = true \/ sorted (contents wb)) as Hun.
  { unfold un. destruct sq as [[]|]; [right; by apply Hseq|by left|right; by apply Hseq]. }
  unfold handover. destruct ro as [rb|]; cbn [conts readable] in *.
  - destruct Hr as [Hrok Hrs].
    set (wb' := if un && (1 <? used wb)%nat then Sort wb else wb).
    assert (ok wb' /\ used wb' = used wb /\ sorted (contents wb') /\ contents wb ≡ₚ contents wb') as (H1 & H2 & H3 & H4).
    { unfold wb'. destruct (Sort_spec wb Hok) as (? & ? & Es). destruct un; cbn [andb].
      - destruct (Nat.ltb_spec 1 (used wb)) as [|Hu].
        + split; [done|]. split; [done|]. rewrite Es. split; [by apply sort_sorted|]. symmetry. apply sort_perm.
        + split; [done|]. split; [done|]. split; [|done]. rewrite <- (contents_length wb Hok) in Hu.
          destruct (contents wb) as [|x [|y l]]; cbn in Hu; [constructor|repeat constructor|lia].
      - split; [done|]. split; [done|]. split; [|done]. by destruct Hun. }
    destruct (merge_spec rb wb' Hrok H1 Hrs H3) as (rb' & -> & Hrok' & Ec). rewrite ret_bind.
    exists (Some wb'), rb'. split; [done|]. split; [done|]. split; [|done].
    rewrite Ec. symmetry. by apply upd_perm.
  - destruct (dedupe_spec wb Hok) as [Hdok Hdc]. exists None, (if un then dedupe wb else wb).
    split; [done|]. destruct Hun as [->|Hs]; [done|]. destruct un; [done|]. split; [done|].
    split; [by rewrite upd_nil|done].
Qed.

Lemma writeback_all_spec b2s ks ws rs : NoDup ks ->
  (forall k, k ∈ ks -> writable (b2s !! k) (ws !! k)) ->
  (forall k, k ∈ ks -> readable (rs !! k)) ->
  exists ws' rs', writeback_all b2s (ws, rs) ks = Ret (ws', rs') /\
    (forall k, k ∉ ks -> ws' !! k = ws !! k /\ rs' !! k = rs !! k) /\
    (forall k, k ∈ ks -> readable (rs' !! k) /\ conts (rs' !! k) = upd (conts (rs !! k)) (conts (ws !! k)) /\
       forall wb, ws' !! k = Some wb -> ok wb).
Proof.
  revert ws rs. induction ks as [|k ks IH]; intros ws rs Hd Hw Hr.
  { exists ws, rs. split; [done|]. split; [done|]. by intros k ?%not_elem_of_nil. }
  apply NoDup_cons in Hd as [Hk Hd]. cbn [writeback_all writeback_one].
  pose proof (Hw k (list_elem_of_here _ _)) as Hwk. pose proof (Hr k (list_elem_of_here _ _)) as Hrk.
  assert (forall k', k' ∈ ks -> k' <> k) as Hne by (intros k' Hk' ->; done).
  destruct (ws !! k) as [wb|] eqn:Ew; rewrite ?ret_bind.
  - destruct (handover_spec (b2s !! k) wb (rs !! k) Hwk Hrk) as (wo & rb & Eh & Hrok & Ec & Hwo).
    rewrite Eh, ret_bind. set (ws1 := match wo with Some wb => <[k := wb]> ws | None => delete k ws end).
    assert (forall k', k' <> k -> ws1 !! k' = ws !! k') as Hws1.
    { intros k' Hk'. unfold ws1. destruct wo; [by rewrite lookup_insert_ne|by rewrite lookup_delete_ne]. }
    assert (sorted (contents rb)) as Hrs.
    { rewrite Ec. apply upd_sorted. by apply readable_sorted. }
    destruct (IH ws1 (<[k := rb]> rs) Hd) as (ws' & rs' & E & Hout & Hin).
    { intros k' Hk'. rewrite Hws1 by (by apply Hne). apply Hw. by right. }
    { intros k' Hk'. rewrite lookup_insert_ne by (symmetry; by apply Hne). apply Hr. by right. }
    exists ws', rs'. split; [done|]. split.
    + intros k' [Hk1 Hk2]%not_elem_of_cons. destruct (Hout k' Hk2) as [-> ->].
      by rewrite Hws1, lookup_insert_ne.
    + intros k' [->|Hk']%elem_of_cons.
      * destruct (Hout k Hk) as [Ews Ers]. rewrite Ers, lookup_insert_eq. cbn [readable conts].
        split; [done|]. split; [by rewrite Ec, Ew|]. intros wb'. rewrite Ews. unfold ws1.
        destruct wo as [wb1|]; [rewrite lookup_insert_eq; intros [= <-]; apply Hwo|by rewrite lookup_delete_eq].
      * destruct (Hin k' Hk') as (H1 & H2 & H3). split; [done|]. split; [|done].
        by rewrite H2, lookup_insert_ne, Hws1 by (done || (symmetry; by apply Hne) || by apply Hne).
  - destruct (IH ws rs Hd) as (ws' & rs' & E & Hout & Hin).
    { intros k' Hk'. apply Hw. by right. }
    { intros k' Hk'. apply Hr. by right. }
    exists ws', rs'. split; [done|]. split.
    + intros k' [Hk1 Hk2]%not_elem_of_cons. by apply Hout.
    + intros k' [->|Hk']%elem_of_cons; [|by apply Hin]. destruct (Hout k Hk) as [-> ->].
      rewrite Ew. cbn [conts]. by split.
Qed.

Lemma reset_lookup bs k : reset bs !! k =
  bb ← bs !! k; if (used bb =? 0)%nat then None else Some (MkBuffer (buf bb) 0).
Proof. unfold reset. by rewrite lookup_omap. Qed.

Lemma writeback_spec txw txr :
  (forall k, writable (bucket2seq txw !! k) (wbuckets txw !! k)) ->
  (forall k, readable (rbuckets txr !! k)) ->
  exists w r, writeback txw txr = Ret (w, r) /\ bufVersion r = u64 (bufVersion txr + 1) /\
    (forall k, readable (rbuckets r !! k) /\
       conts (rbuckets r !! k) = upd (conts (rbuckets txr !! k)) (conts (wbuckets txw !! k))) /\
    (forall k, conts (wbuckets w !! k) = [] /\ bucket2seq w !! k <> Some false /\
       writable None (wbuckets w !! k)).
Proof.
  intros Hw Hr. unfold writeback.
  destruct (writeback_all_spec (bucket2seq txw) (map fst (map_to_list (wbuckets txw))) (wbuckets txw) (rbuckets txr))
    as (ws & rs & -> & Hout & Hin); [apply NoDup_fst_map_to_list|done|done|].
  rewrite ret_bind. eexists _, _. split; [reflexivity|]. split; [done|].
  assert (forall k, k ∉ map fst (map_to_list (wbuckets txw)) -> wbuckets txw !! k = None) as Hnone.
  { intros k Hk. apply eq_None_not_Some. intros [bb Hbb]. apply Hk. apply list_elem_of_fmap.
    exists (k, bb). split; [done|]. by apply elem_of_map_to_list. }
  assert (forall k wb, ws !! k = Some wb -> ok wb) as Hok.
  { intros k wb Hwb. destruct (decide (k ∈ map fst (map_to_list (wbuckets txw)))) as [Hk|Hk].
    - destruct (Hin k Hk) as (_ & _ & Hok). by apply Hok.
    - destruct (Hout k Hk) as [E _]. rewrite E, Hnone in Hwb; done. }
  split; intros k.
  - cbn [rbuckets]. destruct (decide (k ∈ map fst (map_to_list (wbuckets txw)))) as [Hk|Hk].
    + by destruct (Hin k Hk) as (? & ? & _).
    + destruct (Hout k Hk) as [_ ->]. rewrite Hnone by done. cbn [conts]. split; [apply Hr|done].
  - unfold w_reset. cbn [wbuckets bucket2seq].
    assert (forall bb, reset ws !! k = Some bb -> ok bb /\ used bb = 0%nat) as Hreset.
    { intros bb. rewrite reset_lookup. destruct (ws !! k) as [wb|] eqn:E; [|done]. cbn.
      destruct (used wb =? 0)%nat; [done|]. intros [= <-]. destruct (Hok k wb E). split; [|done].
      split; cbn [used buf]; lia. }
    split; [|split].
    + destruct (reset ws !! k) as [bb|] eqn:E; [|done]. destruct (Hreset bb eq_refl) as [_ Hu].
      cbn [conts]. unfold contents. by rewrite Hu.
    + rewrite map_lookup_imap. destruct (bucket2seq txw !! k) as [sq|]; [|done]. cbn.
      destruct (reset ws !! k) as [bb|] eqn:E; [|done]. destruct (Hreset bb eq_refl) as [_ ->]. done.
    + destruct (reset ws !! k) as [bb|] eqn:E; [|done]. destruct (Hreset bb eq_refl) as [Hok' Hu].
      split; [done|]. left. unfold contents. rewrite Hu. constructor.
Qed.

End TxBufferSpec.
