(* ===== verification/Backend.v ===== *)
(** * server/storage/backend: backend.go, batch_tx.go, read_tx.go

    etcd's database: writes go to a bbolt transaction that is committed from
    time to time, and to the buffers of [TxBuffer], so that readers see them
    before the commit; a reader looks into the buffer first and then into the
    bbolt transaction of the last commit. *)

From S2P Require Import Prelude Errors Utils WalIo KeyIndex RevBytes BoltApi TxBuffer.
From Stdlib Require Import Strings.Byte.

(** ** schema/bucket.go *)

Module schema.
Import txBuffer.

Definition name (s : string) : bytes := String.list_byte_of_string s.

Definition Key : Bucket := MkBucket 1 (name "key") true.
Definition Meta : Bucket := MkBucket 2 (name "meta") false.
Definition Lease : Bucket := MkBucket 3 (name "lease") false.
Definition Alarm : Bucket := MkBucket 4 (name "alarm") false.
Definition Cluster : Bucket := MkBucket 5 (name "cluster") false.
Definition Members : Bucket := MkBucket 10 (name "members") false.
Definition MembersRemoved : Bucket := MkBucket 11 (name "members_removed") false.
Definition Auth : Bucket := MkBucket 20 (name "auth") false.
Definition AuthUsers : Bucket := MkBucket 21 (name "authUsers") false.
Definition AuthRoles : Bucket := MkBucket 22 (name "authRoles") false.

Definition AllBuckets : list Bucket :=
  [Key; Meta; Lease; Alarm; Cluster; Members; MembersRemoved; Auth; AuthUsers; AuthRoles].

Definition ScheduledCompactKeyName : bytes := name "scheduledCompactRev".
Definition FinishedCompactKeyName : bytes := name "finishedCompactRev".
Definition MetaConsistentIndexKeyName : bytes := name "consistent_index".
Definition MetaTermKeyName : bytes := name "term".
Definition MetaStorageVersionName : bytes := name "storageVersion".

Definition DefaultIgnores (bucket key : bytes) : bool :=
  bool_decide (bucket = Name Meta) &&
  (bool_decide (key = MetaTermKeyName) || bool_decide (key = MetaConsistentIndexKeyName)
   || bool_decide (key = MetaStorageVersionName)).

End schema.

Module backend.
Import RevBytes Pairs txBuffer.

Definition MaxInt64 : Z := 2 ^ 63 - 1.

Section Backend.
Context `{BoltLib}.

(** ** Reading *)

(** [unsafeRange] over the cursor of a bucket. *)
Definition unsafeRange (t : bolt) (n key endKey : bytes) (limit : Z) : list kvp :=
  let limit := if limit <=? 0 then MaxInt64 else limit in
  match endKey with
  | [] => take 1 (take_while (fun x => bool_decide (fst x = key)) (bolt_Seek t n key))
  | _ => ztake limit (take_while (fun x => bytes_ltb (fst x) endKey) (bolt_Seek t n key))
  end.

(** [baseReadTx]: a buffer over a bbolt transaction.  Its table of buckets only
    saves calls of [tx.Bucket]. *)
Record baseReadTx := MkReadTx {
  rbuf : txReadBuffer;
  rtx : option bolt
}.

Definition nil_deref {A} : outcome A := Panic "invalid memory address or nil pointer dereference".

(** [endKey] is [None] when it is nil. *)
Definition r_UnsafeRange (rt : baseReadTx) (b : Bucket) (key : bytes) (endKey : option bytes)
    (limit : Z) : outcome (list kvp) :=
  let limit := match endKey with None => 1 | Some _ => limit end in
  let limit := if limit <=? 0 then MaxInt64 else limit in
  if (1 <? limit) && negb (IsSafeRangeBucket b)
  then Panic "do not use unsafeRange on non-keys bucket"
  else
    let e := default [] endKey in
    let found := r_Range (rbuf rt) b key e limit in
    if Z.of_nat (length found) =? limit then Ret found
    else
      match rtx rt with
      | None => nil_deref
      | Some t =>
          match bolt_Bucket t (Name b) with
          | None => Ret found
          | Some _ => Ret (unsafeRange t (Name b) key e (limit - Z.of_nat (length found)) ++ found)
          end
      end.

(** The pairs that [UnsafeForEach] visits: those of bbolt that the buffer does
    not have, then those of the buffer. *)
Definition r_UnsafeForEach (rt : baseReadTx) (b : Bucket) : outcome (list kvp) :=
  let buffered := r_ForEach (rbuf rt) b in
  match rtx rt with
  | None => nil_deref
  | Some t =>
      let stored := default [] (bolt_Bucket t (Name b)) in
      Ret (List.filter (fun x => negb (existsb (fun y => bool_decide (fst y = fst x)) buffered)) stored
           ++ buffered)
  end.

(** ** The backend *)

Record txReadBufferCache := MkCache {
  c_buf : option txReadBuffer;
  c_bufVersion : Z
}.

(** The bbolt transaction of [batchTx]: nil, open, or ended. *)
Inductive batch_tx : Type :=
  | NilTx
  | OpenTx (t : bolt)
  | EndedTx.

(** [db] is what the file holds. *)
Record backend := MkBackend {
  db : bolt;
  batchLimit : Z;
  commits : Z;
  tx : batch_tx;
  pending : Z;
  wbuf : txWriteBuffer;
  pendingDeleteOperations : Z;
  readTx : baseReadTx;
  cache : txReadBufferCache
}.

(** [begin]: a transaction starts with what the file holds. *)
Definition begin (b : backend) : bolt := db b.

(** The batch transaction after an operation on it. *)
Definition with_tx (b : backend) (t : bolt) : backend :=
  MkBackend (db b) (batchLimit b) (commits b) (OpenTx t) (pending b + 1) (wbuf b)
    (pendingDeleteOperations b) (readTx b) (cache b).

Definition with_wbuf (b : backend) (w : txWriteBuffer) : backend :=
  MkBackend (db b) (batchLimit b) (commits b) (tx b) (pending b) w
    (pendingDeleteOperations b) (readTx b) (cache b).

Definition with_delete (b : backend) : backend :=
  MkBackend (db b) (batchLimit b) (commits b) (tx b) (pending b) (wbuf b)
    (pendingDeleteOperations b + 1) (readTx b) (cache b).

Definition with_read (b : backend) (rt : baseReadTx) : backend :=
  MkBackend (db b) (batchLimit b) (commits b) (tx b) (pending b) (wbuf b)
    (pendingDeleteOperations b) rt (cache b).

(** A failing bbolt operation ends the process. *)
Definition or_fatal (b : backend) (r : result bolt) (msg : string) : outcome backend :=
  match r with
  | inr t => Ret (with_tx b t)
  | inl _ => Panic msg
  end.

Definition open_tx {A} (b : backend) (f : bolt -> outcome A) : outcome A :=
  match tx b with
  | NilTx => nil_deref
  | OpenTx t => f t
  | EndedTx => Panic "tx closed"
  end.

Definition with_bucket {A} (b : backend) (bk : Bucket) (f : bolt -> outcome A) : outcome A :=
  open_tx b (fun t =>
    match bolt_Bucket t (Name bk) with
    | None => Panic "failed to find a bucket"
    | Some _ => f t
    end).

(** *** batchTx *)

Definition b_UnsafeCreateBucket (b : backend) (bk : Bucket) : outcome backend :=
  open_tx b (fun t => or_fatal b (bolt_CreateBucketIfNotExists t (Name bk)) "failed to create a bucket").

Definition b_UnsafeDeleteBucket (b : backend) (bk : Bucket) : outcome backend :=
  open_tx b (fun t =>
    match bolt_DeleteBucket t (Name bk) with
    | inr t' => Ret (with_tx b t')
    | inl err =>
        if bool_decide (err = ErrBucketNotFound) then Ret (with_tx b t)
        else Panic "failed to delete a bucket"
    end).

Definition b_unsafePut (b : backend) (bk : Bucket) (k v : bytes) : outcome backend :=
  with_bucket b bk (fun t => or_fatal b (bolt_Put t (Name bk) k v) "failed to write to a bucket").

Definition b_UnsafeDelete (b : backend) (bk : Bucket) (k : bytes) : outcome backend :=
  with_bucket b bk (fun t => or_fatal b (bolt_Delete t (Name bk) k) "failed to delete a key").

Definition b_UnsafeRange (b : backend) (bk : Bucket) (key endKey : bytes) (limit : Z)
    : outcome (list kvp) :=
  with_bucket b bk (fun t => Ret (unsafeRange t (Name bk) key endKey limit)).

Definition b_UnsafeForEach (b : backend) (bk : Bucket) : outcome (list kvp) :=
  open_tx b (fun t => Ret (default [] (bolt_Bucket t (Name bk)))).

(** [batchTx.commit]. *)
Definition b_commit (b : backend) (stop : bool) : outcome backend :=
  let started b := if stop then b
                   else MkBackend (db b) (batchLimit b) (commits b) (OpenTx (begin b)) (pending b) (wbuf b)
                          (pendingDeleteOperations b) (readTx b) (cache b) in
  match tx b with
  | NilTx => Ret (started b)
  | OpenTx t =>
      Ret (if (pending b =? 0) && negb stop then b
           else started (MkBackend t (batchLimit b) (commits b + 1) EndedTx 0 (wbuf b)
                           (pendingDeleteOperations b) (readTx b) (cache b)))
  | EndedTx => if (pending b =? 0) && negb stop then Ret b else Panic "failed to commit tx"
  end.

(** *** batchTxBuffered *)

(** [Hooks.OnPreCommitUnsafe]; the identity when there are no hooks. *)
Context (OnPreCommitUnsafe : backend -> outcome backend).

Definition unsafeCommit (b : backend) (stop : bool) : outcome backend :=
  b ← OnPreCommitUnsafe b;
  let b := match rtx (readTx b) with
           | Some _ => with_read b (MkReadTx (r_reset (rbuf (readTx b))) None)
           | None => b
           end in
  b ← b_commit b stop;
  let b := MkBackend (db b) (batchLimit b) (commits b) (tx b) (pending b) (wbuf b) 0 (readTx b) (cache b) in
  Ret (if stop then b else with_read b (MkReadTx (rbuf (readTx b)) (Some (begin b)))).

(** The locks are held: [commit] is [unsafeCommit]. *)
Definition Unlock (b : backend) : outcome backend :=
  b ← (if negb (pending b =? 0) then
         '(w, r) ← writeback (wbuf b) (rbuf (readTx b));
         let b := with_read (with_wbuf b w) (MkReadTx r (rtx (readTx b))) in
         if (batchLimit b <=? pending b) || (0 <? pendingDeleteOperations b)
         then unsafeCommit b false else Ret b
       else Ret b);
  if batchLimit b <=? pending b then b_commit b false else Ret b.

Definition Commit (b : backend) : outcome backend := b ← unsafeCommit b false; Unlock b.

Definition CommitAndStop (b : backend) : outcome backend := b ← unsafeCommit b true; Unlock b.

Definition UnsafeCreateBucket := b_UnsafeCreateBucket.

Definition UnsafePut (b : backend) (bk : Bucket) (k v : bytes) : outcome backend :=
  b ← b_unsafePut b bk k v;
  w ← put (wbuf b) bk k v;
  Ret (with_wbuf b w).

Definition UnsafeSeqPut (b : backend) (bk : Bucket) (k v : bytes) : outcome backend :=
  b ← b_unsafePut b bk k v;
  w ← putSeq (wbuf b) bk k v;
  Ret (with_wbuf b w).

Definition UnsafeDelete (b : backend) (bk : Bucket) (k : bytes) : outcome backend :=
  b ← b_UnsafeDelete b bk k; Ret (with_delete b).

Definition UnsafeDeleteBucket (b : backend) (bk : Bucket) : outcome backend :=
  b ← b_UnsafeDeleteBucket b bk; Ret (with_delete b).

(** ** backend.go *)

Definition ForceCommit (b : backend) : outcome backend := Commit b.

(** [ConcurrentReadTx], up to the copy of the buffer: what it has read of the
    cache, and the buffer it will use. *)
Record opening := MkOpening {
  o_empty : bool;
  o_cacheVer : Z;
  o_bufVer : Z;
  o_buf : txReadBuffer
}.

Definition crt_start (b : backend) : opening :=
  let ver := bufVersion (rbuf (readTx b)) in
  match c_buf (cache b) with
  | None => MkOpening true (c_bufVersion (cache b)) ver (unsafeCopy (rbuf (readTx b)))
  | Some c =>
      MkOpening false (c_bufVersion (cache b)) ver
        (if c_bufVersion (cache b) =? ver then c else unsafeCopy (rbuf (readTx b)))
  end.

(** The rest: another call may have set the cache while the buffer was
    copied. *)
Definition crt_finish (b : backend) (o : opening) : backend * baseReadTx :=
  let c := if o_empty o || (o_cacheVer o =? c_bufVersion (cache b))
           then MkCache (Some (o_buf o)) (o_bufVer o) else cache b in
  (MkBackend (db b) (batchLimit b) (commits b) (tx b) (pending b) (wbuf b)
     (pendingDeleteOperations b) (readTx b) c,
   MkReadTx (o_buf o) (rtx (readTx b))).

Definition ConcurrentReadTx (b : backend) : backend * baseReadTx := crt_finish b (crt_start b).

(** A tick of [run]. *)
Definition run_tick (b : backend) : outcome backend :=
  if negb (pending b =? 0) then Commit b else Ret b.

(** [run] at the end, and [Close]. *)
Definition Close (b : backend) : outcome backend := CommitAndStop b.

(** [Hash]: the checksum of the file, without the ignored pairs; without
    [ignores] no pair goes into it. *)
Definition Hash_pair (ignores : option (bytes -> bytes -> bool)) (n : bytes) (h : Z) (x : kvp) : Z :=
  match ignores with
  | Some f => if f n (fst x) then h else crc_Write (crc_Write h (fst x)) (snd x)
  | None => h
  end.

Fixpoint Hash_buckets (t : bolt) (ignores : option (bytes -> bytes -> bool)) (names : list bytes) (h : Z)
    : result Z :=
  match names with
  | [] => inr (crc_Sum32 h)
  | n :: names =>
      match bolt_Bucket t n with
      | None => inl (OtherError "cannot get hash of bucket")
      | Some l => Hash_buckets t ignores names (fold_left (Hash_pair ignores n) l (crc_Write h n))
      end
  end.

Definition Hash (b : backend) (ignores : option (bytes -> bytes -> bool)) : result Z :=
  Hash_buckets (db b) ignores (bolt_Names (db b)) (crc_New 0).

(** [defragdb]: the pairs of a bucket, then the other buckets.  Committing
    what was copied every [limit] pairs does not change what is copied. *)
Fixpoint defrag_pairs (t : bolt) (n : bytes) (l : list kvp) : result bolt :=
  match l with
  | [] => inr t
  | x :: l => t ← bolt_Put t n (fst x) (snd x); defrag_pairs t n l
  end.

Fixpoint defrag_buckets (o t : bolt) (names : list bytes) : result bolt :=
  match names with
  | [] => inr t
  | n :: names =>
      match bolt_Bucket o n with
      | None => inl (OtherError "backend: cannot defrag bucket")
      | Some l =>
          t ← bolt_CreateBucketIfNotExists t n;
          t ← defrag_pairs t n l;
          defrag_buckets o t names
      end
  end.

Definition defragdb (o t : bolt) : result bolt := defrag_buckets o t (bolt_Names o).

(** [defrag]: the new file replaces the old one, or the old one is kept when
    the copy fails. *)
Definition defrag (b : backend) : outcome (backend * option error) :=
  b ← unsafeCommit b true;
  let restart b file :=
    MkBackend file (batchLimit b) (commits b) (OpenTx file) (pending b) (wbuf b)
      (pendingDeleteOperations b) (MkReadTx (rbuf (readTx b)) (Some file)) (cache b) in
  '(b, err) ← match defragdb (db b) bolt_New with
              | inl err => Ret (restart b (db b), Some err)
              | inr file =>
                  let b := with_read b (MkReadTx (r_reset (rbuf (readTx b))) (rtx (readTx b))) in
                  Ret (restart b file, None)
              end;
  b ← Unlock b; Ret (b, err).

End Backend.

(** [newBackend]: the hooks are set after the first commit. *)
Definition newBackend `{BoltLib} (file : bolt) (limit : Z) : outcome backend :=
  Commit (fun b => Ret b)
    (MkBackend file limit 0 NilTx 0 (MkWrite ∅ ∅) 0 (MkReadTx (MkRead ∅ 0) None) (MkCache None 0)).

End backend.
