(* ===== verification/BackendLog.v ===== *)
(** * The backend against a map of buckets

    Whatever writers, commits and readers do, a reader sees what the last
    writer left that has released the lock, whether it is committed or still
    in the buffers; and the file holds what readers saw at an earlier time. *)

From S2P Require Import Prelude Errors Utils KeyIndex RevBytes BoltApi TxBuffer Backend.
From Stdlib Require Import Strings.Byte.

Module BackendLog.
Import RevBytes Pairs txBuffer TxBufferSpec schema backend.

Lemma ID_inj b b' : b ∈ AllBuckets -> b' ∈ AllBuckets -> ID b = ID b' -> b = b'.
Proof.
  intros Hb Hb'. unfold AllBuckets in *.
  repeat (apply elem_of_cons in Hb as [->|Hb]); try (by apply not_elem_of_nil in Hb);
    repeat (apply elem_of_cons in Hb' as [->|Hb']); try (by apply not_elem_of_nil in Hb'); done.
Qed.

Lemma Name_inj b b' : b ∈ AllBuckets -> b' ∈ AllBuckets -> Name b = Name b' -> b = b'.
Proof.
  intros Hb Hb'. unfold AllBuckets in *.
  repeat (apply elem_of_cons in Hb as [->|Hb]); try (by apply not_elem_of_nil in Hb);
    repeat (apply elem_of_cons in Hb' as [->|Hb']); try (by apply not_elem_of_nil in Hb'); done.
Qed.

Lemma Name_nonempty b : b ∈ AllBuckets -> Name b <> [].
Proof.
  intros Hb. unfold AllBuckets in Hb.
  repeat (apply elem_of_cons in Hb as [->|Hb]; [done|]). by apply not_elem_of_nil in Hb.
Qed.

(** ** The map *)

Abbreviation state := (gmap Z (list kvp)).

Inductive wop : Type :=
  | WCreate (b : Bucket)
  | WPut (b : Bucket) (k v : bytes)
  | WSeqPut (b : Bucket) (k v : bytes)
  | WDelete (b : Bucket) (k : bytes)
  | WDeleteBucket (b : Bucket).

Definition w_bucket (o : wop) : Bucket :=
  match o with WCreate b | WPut b _ _ | WSeqPut b _ _ | WDelete b _ | WDeleteBucket b => b end.

Definition spec_op (m : state) (o : wop) : state :=
  match o with
  | WCreate b => <[ID b := default [] (m !! ID b)]> m
  | WPut b k v | WSeqPut b k v => <[ID b := ins (k, v) (default [] (m !! ID b))]> m
  | WDelete b k => <[ID b := del k (default [] (m !! ID b))]> m
  | WDeleteBucket b => delete (ID b) m
  end.

(** The keys that an operation puts. *)
Definition puts (o : wop) : list (Z * bytes) :=
  match o with WPut b k _ | WSeqPut b k _ => [(ID b, k)] | _ => [] end.

(** What a writer that holds the lock may do, having put [done]: the buckets
    exist, the keys of [Key] increase, and in the others no key is put
    twice. *)
Definition legal_op (m : state) (done : list (Z * bytes)) (o : wop) : Prop :=
  w_bucket o ∈ AllBuckets /\
  match o with
  | WCreate b | WDeleteBucket b => True
  | WPut b k v => b <> Key /\ is_Some (m !! ID b) /\ storable (k, v) /\ (ID b, k) ∉ done
  | WSeqPut b k v => b = Key /\ is_Some (m !! ID b) /\ storable (k, v) /\
      (forall x, x ∈ default [] (m !! ID b) -> bytes_ltb (fst x) k = true) /\
      (forall k', (ID b, k') ∈ done -> bytes_ltb k' k = true)
  | WDelete b k => is_Some (m !! ID b)
  end.

(** ** The invariant *)

Section Log.
Context `{BL : BoltLaws}.
Implicit Types (t R W : bolt) (m : state).

(** No hooks. *)
Definition no_hooks (b : backend) : outcome backend := Ret b.

Definition holds (t : bolt) (m : state) : Prop :=
  forall b, b ∈ AllBuckets -> bolt_Bucket t (Name b) = m !! ID b.

(** What readers see of a bucket: the pairs of bbolt with those of the buffer
    put on top; the keys of [Key] in the buffer follow those in bbolt. *)
Definition sees (b : Bucket) (r : option (list kvp)) (c : list kvp) (l : option (list kvp)) : Prop :=
  match l with
  | Some l => l = upd (default [] r) c /\ (b = Key -> sorted (default [] r ++ c))
  | None => r = None /\ c = []
  end.

Definition reads (rt : baseReadTx) (m : state) : Prop :=
  exists R, rtx rt = Some R /\ (forall k, readable (rbuckets (rbuf rt) !! k)) /\
    forall b, b ∈ AllBuckets ->
      sees b (bolt_Bucket R (Name b)) (conts (rbuckets (rbuf rt) !! ID b)) (m !! ID b).

(** Enough to read a key: the buffer may also have pairs that bbolt has. *)
Definition reads_keys (rt : baseReadTx) (m : state) : Prop :=
  exists R, rtx rt = Some R /\ (forall k, legible (rbuckets (rbuf rt) !! k)) /\
    forall b, b ∈ AllBuckets ->
      match m !! ID b with
      | Some l => l = upd (default [] (bolt_Bucket R (Name b))) (conts (rbuckets (rbuf rt) !! ID b))
      | None => bolt_Bucket R (Name b) = None /\ conts (rbuckets (rbuf rt) !! ID b) = []
      end.

Lemma reads_reads_keys rt m : reads rt m -> reads_keys rt m.
Proof.
  intros (R & HR & Hrd & Hsee). exists R. split; [done|].
  split; [intros k; by apply readable_legible|]. intros b Hb.
  specialize (Hsee b Hb). unfold sees in Hsee. destruct (m !! ID b); [by destruct Hsee|done].
Qed.

(** What the writer has put into its buffer. *)
Definition written (b : Bucket) (o : option bucketBuffer) (m0 m : option (list kvp)) : Prop :=
  match m with
  | Some l => l = upd (default [] m0) (conts o) /\ (b = Key -> sorted (default [] m0 ++ conts o))
  | None => m0 = None /\ conts o = []
  end.

Definition buffered (done : list (Z * bytes)) (w : txWriteBuffer) : Prop :=
  forall k, writable (bucket2seq w !! k) (wbuckets w !! k) /\
    (forall x, x ∈ conts (wbuckets w !! k) -> (k, fst x) ∈ done) /\
    (k = ID Key -> bucket2seq w !! k <> Some false /\ sorted (conts (wbuckets w !! k))).

(** The lock is held: readers see [m0], the writer is at [m], the file holds
    [dk]. *)
Record locked (b : backend) (m0 m dk : state) (done : list (Z * bytes)) : Prop := {
  l_tx : exists W, tx b = OpenTx W /\ holds W m;
  l_db : holds (db b) dk;
  l_rtx : rtx (readTx b) = Some (db b);
  l_reads : reads (readTx b) m0;
  l_buf : buffered done (wbuf b);
  l_written : pendingDeleteOperations b = 0 -> forall bk, bk ∈ AllBuckets ->
    written bk (wbuckets (wbuf b) !! ID bk) (m0 !! ID bk) (m !! ID bk);
  l_pending : 0 <= pending b /\ 0 <= pendingDeleteOperations b /\
    (pending b = 0 -> tx b = OpenTx (db b) /\ m = m0 /\ dk = m0 /\ pendingDeleteOperations b = 0 /\
       (forall k, conts (rbuckets (rbuf (readTx b)) !! k) = []) /\
       (forall k, conts (wbuckets (wbuf b) !! k) = []))
}.

(** Nobody holds the lock. *)
Definition unlocked (b : backend) (m dk : state) : Prop :=
  locked b m m dk [] /\ pendingDeleteOperations b = 0.

(** ** Reads *)

Lemma conts_nil o k : (forall x, x ∈ conts o -> (k, fst x) ∈ @nil (Z * bytes)) -> conts o = [].
Proof.
  intros Hx. destruct (conts o) as [|x l]; [done|].
  destruct (not_elem_of_nil (A := Z * bytes) (k, fst x)). apply Hx. by left.
Qed.

Lemma unsafeRange_spec t n key endKey limit l : bolt_Bucket t n = Some l -> 0 < limit ->
  unsafeRange t n key endKey limit = range key endKey limit l.
Proof.
  intros El Hlim. pose proof (bolt_sorted _ _ _ El) as Hs. unfold unsafeRange.
  rewrite (bolt_seek _ _ _ _ El), (proj2 (Z.leb_gt limit 0)) by lia.
  destruct endKey as [|e es]; [|by apply range_from].
  cbn [range]. rewrite <- head_from by done.
  destruct (drop_while _ l) as [|x l']; [done|]. cbn [take_while].
  destruct (decide (fst x = key)) as [E|E].
  - rewrite !bool_decide_true by done. done.
  - rewrite !bool_decide_false by done. done.
Qed.

Lemma range_nil key e limit : range key e limit [] = [].
Proof. by destruct e. Qed.

Lemma r_Range_spec rt b key e limit : legible (rbuckets (rbuf rt) !! ID b) ->
  r_Range (rbuf rt) b key e limit = range key e limit (conts (rbuckets (rbuf rt) !! ID b)).
Proof.
  intros Hrd. unfold r_Range. destruct (rbuckets (rbuf rt) !! ID b) as [bb|]; cbn [conts].
  - destruct Hrd. by apply Range_spec.
  - by rewrite range_nil.
Qed.

(** A single key. *)
Lemma read_key rt m b key limit : b ∈ AllBuckets -> reads_keys rt m ->
  r_UnsafeRange rt b key None limit = Ret (match find key (default [] (m !! ID b)) with
                                           | Some v => [(key, v)] | None => [] end).
Proof.
  intros Hb (R & HR & Hrd & Hsee). unfold r_UnsafeRange. cbn [from_option id]. rewrite HR.
  specialize (Hsee b Hb). specialize (Hrd (ID b)). change (1 <=? 0) with false. change (1 <? 1) with false. cbn [andb].
  rewrite r_Range_spec, find_range by (done || by apply legible_sorted).
  pose proof (legible_sorted _ Hrd) as Hc. set (c := conts (rbuckets (rbuf rt) !! ID b)) in *.
  destruct (m !! ID b) as [l|]; cbn [from_option id] in *.
  - subst l. assert (sorted (default [] (bolt_Bucket R (Name b)))) as HsR.
    { destruct (bolt_Bucket R (Name b)) as [r|] eqn:Er; [by eapply bolt_sorted|constructor]. }
    rewrite find_upd, (upd_nil c) by done. destruct (find key c) as [v|]; [done|].
    cbn [length]. change (0 =? 1) with false. cbn iota.
    destruct (bolt_Bucket R (Name b)) as [r|] eqn:Er; [|done]. cbn [from_option id] in *.
    rewrite (unsafeRange_spec _ _ _ _ _ _ Er) by lia. rewrite app_nil_r. f_equal. by apply find_range.
  - destruct Hsee as [-> ->]. done.
Qed.

Lemma bolt_default_sorted t n : sorted (default [] (bolt_Bucket t n)).
Proof. destruct (bolt_Bucket t n) as [r|] eqn:Er; [by eapply bolt_sorted|constructor]. Qed.

Lemma length_range key e limit l : (length (range key e limit l) <= length l)%nat.
Proof.
  unfold range. destruct e; [apply filter_length_le|]. rewrite ztake_take, length_take.
  pose proof (filter_length_le (fun x => negb (bytes_ltb (fst x) key) && bytes_ltb (fst x) (b :: e)) l). lia.
Qed.

Lemma range_app key e limit l l' : e <> [] -> Z.of_nat (length l + length l') <= limit ->
  forall n, Z.of_nat (length l) <= n ->
  range key e n l ++ range key e limit l' = range key e limit (l ++ l').
Proof.
  intros He Hl n Hn. unfold range. destruct e as [|x e]; [done|]. rewrite List.filter_app, !ztake_take, !take_ge; [done|..].
  - rewrite <- List.filter_app. rewrite <- length_app in Hl.
    pose proof (filter_length_le (fun y => negb (bytes_ltb (fst y) key) && bytes_ltb (fst y) (x :: e)) (l ++ l')). lia.
  - pose proof (filter_length_le (fun y => negb (bytes_ltb (fst y) key) && bytes_ltb (fst y) (x :: e)) l'). lia.
  - pose proof (filter_length_le (fun y => negb (bytes_ltb (fst y) key) && bytes_ltb (fst y) (x :: e)) l). lia.
Qed.

(** All keys of [Key] in a range. *)
Lemma read_range rt m l key e : reads rt m -> m !! ID Key = Some l -> e <> [] ->
  Z.of_nat (length l) < MaxInt64 ->
  r_UnsafeRange rt Key key (Some e) 0 = Ret (range key e MaxInt64 l).
Proof.
  intros (R & HR & Hrd & Hsee) El He Hl. specialize (Hsee Key (list_elem_of_here _ _)). rewrite El in Hsee.
  unfold r_UnsafeRange. rewrite HR, r_Range_spec by (by apply readable_legible). cbn [sees from_option id] in *.
  set (c := conts (rbuckets (rbuf rt) !! ID Key)) in *. destruct Hsee as [-> Hs]. specialize (Hs eq_refl).
  rewrite upd_end, length_app in * by done.
  pose proof (length_range key e MaxInt64 c). change (0 <=? 0) with true. cbn iota.
  change ((1 <? MaxInt64) && negb (IsSafeRangeBucket Key)) with false. cbn iota.
  rewrite (proj2 (Z.eqb_neq _ _)) by lia.
  destruct (bolt_Bucket R (Name Key)) as [r|] eqn:Er; cbn [from_option id] in *; [|done].
  rewrite (unsafeRange_spec _ _ _ _ _ _ Er) by lia. f_equal. apply range_app; [done|lia|]. lia.
Qed.

(** With a limit, as long as nothing is buffered. *)
Lemma read_clean rt m l key e limit : reads rt m -> m !! ID Key = Some l -> e <> [] -> 0 < limit ->
  conts (rbuckets (rbuf rt) !! ID Key) = [] ->
  r_UnsafeRange rt Key key (Some e) limit = Ret (range key e limit l).
Proof.
  intros (R & HR & Hrd & Hsee) El He Hl Hc. specialize (Hsee Key (list_elem_of_here _ _)). rewrite El, Hc in Hsee.
  unfold r_UnsafeRange. rewrite HR, r_Range_spec, Hc by (by apply readable_legible). cbn [sees from_option id] in *.
  destruct Hsee as [-> _]. rewrite (proj2 (Z.leb_gt limit 0)) by lia.
  change (IsSafeRangeBucket Key) with true. rewrite andb_false_r, range_nil.
  cbn [length]. rewrite (proj2 (Z.eqb_neq _ _)) by lia.
  destruct (bolt_Bucket R (Name Key)) as [r|] eqn:Er; cbn [from_option id upd fold_left].
  - rewrite Z.sub_0_r, (unsafeRange_spec _ _ _ _ _ _ Er) by lia. by rewrite app_nil_r.
  - by rewrite range_nil.
Qed.

(** The pairs of [Key] in order. *)
Lemma read_each rt m l : reads rt m -> m !! ID Key = Some l -> r_UnsafeForEach rt Key = Ret l.
Proof.
  intros (R & HR & Hrd & Hsee) El. specialize (Hsee Key (list_elem_of_here _ _)). rewrite El in Hsee.
  unfold r_UnsafeForEach. rewrite HR.
  assert (r_ForEach (rbuf rt) Key = conts (rbuckets (rbuf rt) !! ID Key)) as ->.
  { unfold r_ForEach, ForEach. by destruct (rbuckets (rbuf rt) !! ID Key). }
  set (c := conts (rbuckets (rbuf rt) !! ID Key)) in *. destruct Hsee as [-> Hs]. specialize (Hs eq_refl).
  rewrite upd_end by done. do 2 f_equal. apply StronglySorted_app in Hs as (Hlt & _ & _).
  rewrite <- (List.filter_ext_in (fun _ => true)).
  { clear. induction (default [] (bolt_Bucket R (Name Key))) as [|x r IH]; [done|]. cbn. by f_equal. }
  intros x Hx%list_elem_of_In. symmetry. apply negb_true_iff, not_true_iff_false.
  intros (y & Hy%list_elem_of_In & E%bool_decide_eq_true)%existsb_exists.
  apply (bytes_ltb_ne (fst x) (fst y)); [by apply Hlt|done].
Qed.

(** ** Writing *)

Definition run_op (b : backend) (o : wop) : outcome backend :=
  match o with
  | WCreate bk => UnsafeCreateBucket b bk
  | WPut bk k v => UnsafePut b bk k v
  | WSeqPut bk k v => UnsafeSeqPut b bk k v
  | WDelete bk k => UnsafeDelete b bk k
  | WDeleteBucket bk => UnsafeDeleteBucket b bk
  end.

Lemma holds_changed W W' m m' bk l : bk ∈ AllBuckets -> holds W m -> changed W W' (Name bk) l ->
  m' !! ID bk = l -> (forall z, z <> ID bk -> m' !! z = m !! z) -> holds W' m'.
Proof.
  intros Hbk HW [Hl Ho] Hm Hz b Hb. destruct (decide (ID b = ID bk)) as [E|Hne].
  - rewrite (ID_inj b bk Hb Hbk E). congruence.
  - rewrite Hz by done. rewrite Ho; [by apply HW|]. intros E. apply Hne. by rewrite (Name_inj b bk Hb Hbk E).
Qed.

Lemma writable_new_sorted sq o : writable sq o -> NoDup (map fst (conts o)).
Proof.
  destruct o as [bb|]; [|constructor]. intros [_ [Hs|[_ Hd]]]; [by apply sorted_NoDup|done].
Qed.

(** A pair goes into the buffer of its bucket. *)
Lemma put_buffer w bk k v (done : list (Z * bytes)) sq :
  buffered done w -> (bk = Key -> (forall k', (ID bk, k') ∈ done -> bytes_ltb k' k = true) /\ sq = bucket2seq w) ->
  (bk <> Key -> (ID bk, k) ∉ done /\ ID bk <> ID Key /\ sq = <[ID bk := false]> (bucket2seq w)) ->
  exists w', putInternal (MkWrite (wbuckets w) sq) bk k v = Ret w' /\
    buffered ((ID bk, k) :: done) w' /\
    conts (wbuckets w' !! ID bk) = conts (wbuckets w !! ID bk) ++ [(k, v)] /\
    forall z, z <> ID bk -> wbuckets w' !! z = wbuckets w !! z.
Proof.
  intros Hb HK Hn. unfold putInternal. cbn [wbuckets bucket2seq].
  destruct (Hb (ID bk)) as (Hw & Hdone & HK1).
  set (bb := default newBucketBuffer (wbuckets w !! ID bk)).
  assert (ok bb /\ contents bb = conts (wbuckets w !! ID bk)) as [Hok Ec].
  { unfold bb. destruct (wbuckets w !! ID bk) as [b0|]; cbn; [by destruct Hw|]. by split; [apply new_ok|]. }
  destruct (add_spec bb (k, v) Hok) as (b1 & -> & Hok1 & Ec1). rewrite ret_bind. rewrite Ec in Ec1.
  eexists. split; [reflexivity|]. cbn [wbuckets bucket2seq]. split; [|split].
  - intros z. destruct (Hb z) as (Hwz & Hdz & HKz). cbn [wbuckets bucket2seq].
    destruct (decide (z = ID bk)) as [->|Hz].
    + rewrite !lookup_insert_eq. cbn [conts writable]. rewrite Ec1.
      assert (forall x, x ∈ conts (wbuckets w !! ID bk) ++ [(k, v)] -> (ID bk, fst x) ∈ (ID bk, k) :: done) as Hin.
      { intros x [Hx| ->%list_elem_of_singleton]%elem_of_app; [right; by apply Hdone|by left]. }
      destruct (decide (bk = Key)) as [Ek|Ek].
      * destruct (HK Ek) as [Hlt ->]. subst bk. destruct (HK1 eq_refl) as [Hsq Hs].
        assert (sorted (conts (wbuckets w !! ID Key) ++ [(k, v)])) as Hs'.
        { apply StronglySorted_app. split; [|split; [done|repeat constructor]].
          intros x y Hx ->%list_elem_of_singleton. apply Hlt. by apply Hdone. }
        split; [by split; [|left]|]. split; [done|]. by split.
      * destruct (Hn Ek) as (Hnk & Hid & ->). rewrite lookup_insert_eq. split; [|by split].
        split; [done|]. right. split; [done|]. rewrite map_app. apply NoDup_app.
        split; [by eapply writable_new_sorted|]. split; [|repeat constructor; apply not_elem_of_nil].
        cbn [map fst]. intros k' Hk' E%list_elem_of_singleton. subst k'. apply Hnk.
        apply list_elem_of_In, in_map_iff in Hk' as (x & <- & Hx%list_elem_of_In). by apply Hdone.
    + rewrite lookup_insert_ne by done.
      assert (sq !! z = bucket2seq w !! z) as ->.
      { destruct (decide (bk = Key)) as [Ek|Ek]; [by destruct (HK Ek) as [_ ->]|].
        destruct (Hn Ek) as (_ & _ & ->). by rewrite lookup_insert_ne. }
      split; [done|]. split; [|done]. intros x Hx. right. by apply Hdz.
  - by rewrite lookup_insert_eq.
  - intros z Hz. by rewrite lookup_insert_ne.
Qed.

Lemma ID_Key bk : bk ∈ AllBuckets -> ID bk = ID Key -> bk = Key.
Proof. intros Hb. apply ID_inj; [done|]. by left. Qed.

(** The part of the invariant that a put of a pair keeps. *)
Lemma written_put bk a0 a o o' k v l : a = Some l -> written bk o a0 a ->
  conts o' = conts o ++ [(k, v)] ->
  (bk = Key -> forall x, x ∈ l -> bytes_ltb (fst x) k = true) ->
  written bk o' a0 (Some (ins (k, v) l)).
Proof.
  intros -> [-> Hs] Hc HK. unfold written. rewrite Hc, upd_app. split; [done|].
  intros Ek. specialize (Hs Ek). specialize (HK Ek). rewrite upd_end in HK by done.
  rewrite app_assoc. apply StronglySorted_app. split; [|split; [done|repeat constructor]].
  intros x y Hx ->%list_elem_of_singleton. by apply HK.
Qed.

Lemma put_locked b m0 m dk (done : list (Z * bytes)) bk k v sq l :
  locked b m0 m dk done -> bk ∈ AllBuckets -> m !! ID bk = Some l -> storable (k, v) ->
  (bk = Key -> (forall x, x ∈ l -> bytes_ltb (fst x) k = true) /\
     (forall k', (ID bk, k') ∈ done -> bytes_ltb k' k = true) /\ sq = bucket2seq (wbuf b)) ->
  (bk <> Key -> (ID bk, k) ∉ done /\ sq = <[ID bk := false]> (bucket2seq (wbuf b))) ->
  exists b', (b ← b_unsafePut b bk k v; w ← putInternal (MkWrite (wbuckets (wbuf b)) sq) bk k v;
              Ret (with_wbuf b w)) = Ret b' /\
    locked b' m0 (<[ID bk := ins (k, v) l]> m) dk ((ID bk, k) :: done).
Proof.
  intros [(W & Htx & HW) Hdb Hrtx Hrd Hbuf Hwr Hp] Hbk El Hst HK Hn.
  unfold b_unsafePut, with_bucket, open_tx. rewrite Htx, (HW bk Hbk), El.
  destruct (bolt_put W (Name bk) k v l) as (W' & EW & Hch); [by rewrite HW|done|].
  rewrite EW. cbn [or_fatal]. rewrite ret_bind. cbn [wbuf with_tx].
  destruct (put_buffer (wbuf b) bk k v done sq Hbuf) as (w' & -> & Hbuf' & Hc & Ho).
  { intros Ek. destruct (HK Ek) as (_ & ? & ?). done. }
  { intros Ek. destruct (Hn Ek) as [? ?]. split; [done|]. split; [|done]. intros E. apply Ek. by apply ID_Key. }
  rewrite ret_bind. eexists. split; [reflexivity|].
  constructor; cbn [tx db readTx wbuf pendingDeleteOperations pending with_wbuf with_tx].
  - exists W'. split; [done|]. eapply (holds_changed W W' m); [exact Hbk|exact HW|exact Hch|by rewrite lookup_insert_eq|].
    intros z Hz. by rewrite lookup_insert_ne.
  - done.
  - done.
  - done.
  - done.
  - intros Hd bk' Hbk'. specialize (Hwr Hd). destruct (decide (ID bk' = ID bk)) as [E|Hne].
    + rewrite (ID_inj bk' bk Hbk' Hbk E), lookup_insert_eq.
      eapply (written_put bk (m0 !! ID bk) (m !! ID bk)); [exact El|by apply Hwr|done|]. intros Ek. by destruct (HK Ek).
    + rewrite lookup_insert_ne by done. unfold written. rewrite Ho by done. by apply Hwr.
  - split; [lia|]. split; [lia|]. lia.
Qed.

(** Creating and deleting do not touch the buffers. *)
Lemma other_locked b m0 m m' dk (done : list (Z * bytes)) bk W W' o : locked b m0 m dk done ->
  bk ∈ AllBuckets -> tx b = OpenTx W -> changed W W' (Name bk) (m' !! ID bk) ->
  (forall z, z <> ID bk -> m' !! z = m !! z) ->
  (o = 0 -> m' !! ID bk = Some (default [] (m !! ID bk))) -> 0 <= o ->
  locked (MkBackend (db b) (batchLimit b) (commits b) (OpenTx W') (pending b + 1) (wbuf b)
            (pendingDeleteOperations b + o) (readTx b) (cache b)) m0 m' dk done.
Proof.
  intros [(W0 & Htx & HW) Hdb Hrtx Hrd Hbuf Hwr Hp] Hbk Ht Hch Hz Ho H0. rewrite Ht in Htx. injection Htx as <-.
  constructor; cbn [tx db readTx wbuf pendingDeleteOperations pending]; try done.
  - exists W'. split; [done|]. by eapply (holds_changed W W' m).
  - intros Hd bk' Hbk'. assert (pendingDeleteOperations b = 0) as Hd0 by lia. specialize (Hwr Hd0 bk' Hbk').
    destruct (decide (ID bk' = ID bk)) as [E|Hne]; [|by rewrite Hz].
    rewrite (ID_inj bk' bk Hbk' Hbk E) in *. rewrite Ho by lia.
    destruct (m !! ID bk) as [l|]; cbn [from_option id written] in *; [done|]. destruct Hwr as [-> ->]. cbn. split; [done|].
    intros _. constructor.
  - split; [lia|]. split; [lia|]. lia.
Qed.

Lemma unsafePut_wbuf b bk k v b1 : b_unsafePut b bk k v = Ret b1 -> wbuf b1 = wbuf b.
Proof.
  unfold b_unsafePut, with_bucket, open_tx, or_fatal. destruct (tx b) as [|W|]; [done| |done].
  destruct (bolt_Bucket W (Name bk)); [|done]. destruct (bolt_Put W (Name bk) k v); [done|].
  by intros [= <-].
Qed.

Lemma op_locked b m0 m dk (done : list (Z * bytes)) o : locked b m0 m dk done -> legal_op m done o ->
  exists b', run_op b o = Ret b' /\ locked b' m0 (spec_op m o) dk (puts o ++ done).
Proof.
  intros Hl [Hbk Hop]. pose proof Hl as [(W & Htx & HW) _ _ _ _ _ _].
  destruct o as [bk|bk k v|bk k v|bk k|bk]; cbn [w_bucket run_op spec_op puts app] in *.
  - unfold UnsafeCreateBucket, b_UnsafeCreateBucket, open_tx. rewrite Htx.
    destruct (bolt_create W (Name bk) (Name_nonempty bk Hbk)) as (W' & -> & Hch). eexists. split; [reflexivity|].
    unfold with_tx. rewrite <- (Z.add_0_r (pendingDeleteOperations b)).
    eapply (other_locked b m0 m _ dk done bk W W' 0); [done..|rewrite lookup_insert_eq, <- (HW bk Hbk); exact Hch| |by rewrite lookup_insert_eq|done].
    intros z Hz. by rewrite lookup_insert_ne.
  - destruct Hop as (Hn & [l El] & Hst & Hnd). rewrite El. cbn [from_option id].
    destruct (put_locked b m0 m dk done bk k v (<[ID bk := false]> (bucket2seq (wbuf b))) l Hl Hbk El Hst)
      as (b' & E & Hl'); [done|done|].
    exists b'. split; [|done]. rewrite <- E. unfold UnsafePut, put.
    destruct (b_unsafePut b bk k v) as [b1| |] eqn:E1; [|done..]. rewrite !ret_bind.
    by rewrite (unsafePut_wbuf _ _ _ _ _ E1).
  - destruct Hop as (-> & [l El] & Hst & Hlt & Hd). rewrite El in *. cbn [from_option id] in *.
    destruct (put_locked b m0 m dk done Key k v (bucket2seq (wbuf b)) l Hl Hbk El Hst)
      as (b' & E & Hl'); [done|done|].
    exists b'. split; [|done]. rewrite <- E. unfold UnsafeSeqPut, putSeq.
    destruct (b_unsafePut b Key k v) as [b1| |] eqn:E1; [|done..]. rewrite !ret_bind.
    rewrite (unsafePut_wbuf _ _ _ _ _ E1). by destruct (wbuf b).
  - destruct Hop as [l El]. rewrite El. cbn [from_option id]. unfold UnsafeDelete, b_UnsafeDelete, with_bucket, open_tx.
    rewrite Htx, (HW bk Hbk), El.
    destruct (bolt_delete W (Name bk) k l) as (W' & -> & Hch); [by rewrite HW|]. cbn [or_fatal]. rewrite ret_bind.
    eexists. split; [reflexivity|].
    eapply (other_locked b m0 m _ dk done bk W W' 1); [done..|by rewrite lookup_insert_eq| |lia|lia].
    intros z Hz. by rewrite lookup_insert_ne.
  - unfold UnsafeDeleteBucket, b_UnsafeDeleteBucket, open_tx. rewrite Htx.
    pose proof (bolt_drop W (Name bk)) as Hdrop. destruct (bolt_Bucket W (Name bk)) as [l|] eqn:El.
    + destruct Hdrop as (W' & -> & Hch). rewrite ret_bind. eexists. split; [reflexivity|].
      eapply (other_locked b m0 m _ dk done bk W W' 1); [done..|by rewrite lookup_delete_eq| |lia|lia].
      intros z Hz. by rewrite lookup_delete_ne.
    + rewrite Hdrop, bool_decide_true, ret_bind by done. eexists. split; [reflexivity|].
      eapply (other_locked b m0 m _ dk done bk W W 1); [done..| | |lia|lia].
      * rewrite lookup_delete_eq. by split.
      * intros z Hz. by rewrite lookup_delete_ne.
Qed.

(** ** Releasing the lock, and committing *)

(** The state after a commit. *)
Definition clean (b : backend) : Prop :=
  pending b = 0 /\ forall k, conts (rbuckets (rbuf (readTx b)) !! k) = [].

Lemma reset_readable bs k : readable (bs !! k) -> readable (reset bs !! k) /\ conts (reset bs !! k) = [].
Proof.
  rewrite reset_lookup. destruct (bs !! k) as [bb|]; cbn; [|done]. intros [[Hu Hl] _].
  destruct (used bb =? 0)%nat; cbn; [done|]. split; [|done]. split; [split; cbn; lia|constructor].
Qed.

Lemma holds_sees W m (c : Z -> list kvp) b : holds W m -> (forall k, c k = []) -> b ∈ AllBuckets ->
  sees b (bolt_Bucket W (Name b)) (c (ID b)) (m !! ID b).
Proof.
  intros HW Hc Hb. rewrite Hc, (HW b Hb). destruct (m !! ID b) as [l|] eqn:E; cbn; [|done].
  split; [done|]. intros _. rewrite app_nil_r. apply (bolt_sorted W (Name b)). by rewrite HW.
Qed.

Lemma commit_spec b m W : tx b = OpenTx W -> holds W m -> (exists R, rtx (readTx b) = Some R) ->
  (forall k, readable (rbuckets (rbuf (readTx b)) !! k)) ->
  buffered [] (wbuf b) -> 0 <= pending b -> (pending b = 0 -> W = db b) ->
  exists b', unsafeCommit no_hooks b false = Ret b' /\ unlocked b' m m /\ clean b' /\ db b' = W /\
    cache b' = cache b /\ batchLimit b' = batchLimit b /\
    bufVersion (rbuf (readTx b')) = bufVersion (rbuf (readTx b)).
Proof.
  intros Htx HW [R HR] Hrd Hbuf Hp Hp0. unfold unsafeCommit, no_hooks. rewrite ret_bind, HR.
  unfold b_commit. cbn [tx with_read pending]. rewrite Htx, ret_bind.
  assert (forall k, conts (wbuckets (wbuf b) !! k) = []) as Hwc.
  { intros k. destruct (Hbuf k) as (_ & Hx & _). by eapply conts_nil. }
  set (b1 := if (pending b =? 0) && negb false then _ else _).
  assert (db b1 = W /\ tx b1 = OpenTx W /\ pending b1 = 0 /\ wbuf b1 = wbuf b /\ cache b1 = cache b /\
    batchLimit b1 = batchLimit b /\ rbuf (readTx b1) = r_reset (rbuf (readTx b))) as (E1 & E2 & E3 & E4 & E5 & E6 & E7).
  { unfold b1. destruct (Z.eqb_spec (pending b) 0) as [E|E]; cbn; [|done].
    rewrite (Hp0 E) in *. done. }
  clearbody b1. eexists. split; [reflexivity|]. unfold unlocked, clean.
  cbn [with_read tx db readTx wbuf pendingDeleteOperations pending cache batchLimit rtx rbuf].
  assert (forall k, conts (rbuckets (rbuf (readTx b1)) !! k) = []) as Hrc.
  { intros k. rewrite E7. cbn [r_reset rbuckets]. by apply reset_readable. }
  split; [split; [|done]|by split; [split|split; [|split; [|split; [|rewrite E7]]]]].
  constructor; cbn [with_read tx db readTx wbuf pendingDeleteOperations pending rtx rbuf].
  - exists W. by rewrite E2.
  - by rewrite E1.
  - done.
  - exists W. cbn [rtx rbuf]. unfold begin. cbn [db]. rewrite E1. split; [done|]. split.
    + intros k. rewrite E7. cbn [r_reset rbuckets]. by apply reset_readable.
    + intros bk Hbk. by apply (holds_sees W m (fun k => conts (rbuckets (rbuf (readTx b1)) !! k))).
  - by rewrite E4.
  - intros _ bk Hbk. unfold written. rewrite E4, Hwc. destruct (m !! ID bk) as [l|] eqn:El; [|done].
    split; [done|]. intros _. rewrite app_nil_r. apply (bolt_sorted W (Name bk)). by rewrite HW.
  - rewrite E1, E2, E4, E3. done.
Qed.

Lemma limit_noop b : pending b = 0 -> (exists W, tx b = OpenTx W) ->
  (if batchLimit b <=? pending b then b_commit b false else Ret b) = Ret b.
Proof.
  intros Hp [W Htx]. destruct (batchLimit b <=? pending b); [|done]. unfold b_commit. by rewrite Htx, Hp.
Qed.

Lemma sees_writeback bk r c w (m0 m : option (list kvp)) :
  sorted (default [] r) -> sorted c -> sees bk r c m0 ->
  match m with
  | Some l => l = upd (default [] m0) w /\ (bk = Key -> sorted (default [] m0 ++ w))
  | None => m0 = None /\ w = []
  end -> sees bk r (upd c w) m.
Proof.
  intros Hr Hc Hs Hw. destruct m as [l|]; cbn [sees].
  - destruct Hw as [-> Hk]. destruct m0 as [l0|]; cbn [sees from_option id] in *.
    + destruct Hs as [-> Hk0]. split; [by rewrite upd_upd|]. intros E. specialize (Hk0 E). specialize (Hk E).
      rewrite upd_end, <- app_assoc in Hk by done.
      rewrite upd_end; [done|]. by apply StronglySorted_app in Hk as (_ & _ & Hk).
    + destruct Hs as [-> ->]. cbn in *. split; [|exact (fun E => upd_sorted [] w (SSorted_nil _))].
      by rewrite (upd_nil (upd [] w)) by (apply upd_sorted; constructor).
  - destruct Hw as [-> ->]. cbn [sees] in Hs. by destruct Hs as [-> ->].
Qed.

Lemma reads_bolt rt m R : reads rt m -> rtx rt = Some R ->
  (forall k, readable (rbuckets (rbuf rt) !! k)) /\ forall b, b ∈ AllBuckets ->
    sees b (bolt_Bucket R (Name b)) (conts (rbuckets (rbuf rt) !! ID b)) (m !! ID b).
Proof. intros (R' & HR & Hrd & Hsee) HR'. rewrite HR in HR'. by injection HR' as <-. Qed.

(** The readers see what the writer did, which may be committed. *)
Lemma Unlock_spec b m0 m dk (done : list (Z * bytes)) : locked b m0 m dk done ->
  exists b' dk', Unlock no_hooks b = Ret b' /\ unlocked b' m dk' /\ (dk' = dk \/ dk' = m) /\
    cache b' = cache b /\
    (b' = b /\ m = m0 \/ bufVersion (rbuf (readTx b')) = u64 (bufVersion (rbuf (readTx b)) + 1)).
Proof.
  intros [(W & Htx & HW) Hdb Hrtx Hrd Hbuf Hwr (Hp & Hpd & Hp0)]. unfold Unlock.
  destruct (Z.eqb_spec (pending b) 0) as [E|Hne]; cbn [negb].
  - rewrite ret_bind. rewrite limit_noop by eauto. destruct (Hp0 E) as (Et & -> & -> & Ed & Hrc & Hwc).
    exists b, m0. split; [done|]. split; [|split; [by left|by split; [|left]]]. split; [|done].
    constructor; [eauto|done..| |done|done].
    intros k. destruct (Hbuf k) as (H1 & _ & H3). split; [done|]. split; [|done]. rewrite Hwc. by intros x ?%not_elem_of_nil.
  - destruct (reads_bolt _ _ _ Hrd Hrtx) as [Hrr Hrs].
    destruct (writeback_spec (wbuf b) (rbuf (readTx b))) as (w & r & -> & Ever & Hr & Hw); [intros k; by destruct (Hbuf k)|done|].
    rewrite ret_bind. set (b1 := with_read (with_wbuf b w) (MkReadTx r (rtx (readTx b)))).
    assert (buffered [] w) as Hbuf'.
    { intros k. destruct (Hw k) as (Hc & Hsq & Hwk). rewrite Hc. split.
      - destruct (wbuckets w !! k) as [bb|]; [|done]. cbn [writable conts] in *. destruct Hwk as [Hok _].
        split; [done|]. left. rewrite Hc. constructor.
      - split; [by intros x ?%not_elem_of_nil|]. intros _. split; [done|constructor]. }
    change (batchLimit b1) with (batchLimit b). change (pending b1) with (pending b).
    change (pendingDeleteOperations b1) with (pendingDeleteOperations b).
    destruct ((batchLimit b <=? pending b) || (0 <? pendingDeleteOperations b)) eqn:Ec.
    + destruct (commit_spec b1 m W) as (b' & -> & Hu & [Hcp Hcr] & _ & Hca & _ & Hv); [done|done|eauto|apply Hr|done|done|by intros|].
      rewrite ret_bind. pose proof Hu as [[(W' & Htx' & _) _ _ _ _ _ _] _].
      rewrite limit_noop by eauto. exists b', m. split; [done|]. split; [done|]. split; [by right|].
      split; [done|]. right. by rewrite Hv.
    + apply orb_false_iff in Ec as [Ec1 Ec2]. assert (pendingDeleteOperations b = 0) as Ed by lia.
      rewrite ret_bind. change (batchLimit b1) with (batchLimit b). change (pending b1) with (pending b). rewrite Ec1.
      exists b1, dk. split; [done|]. split; [|split; [by left|split; [done|by right]]]. split; [|done].
      constructor; cbn [b1 with_read with_wbuf tx db readTx wbuf pendingDeleteOperations pending rtx rbuf]; try done.
      * eauto.
      * exists (db b). cbn [rtx rbuf]. split; [done|]. split; [apply Hr|]. intros bk Hbk. destruct (Hr (ID bk)) as [_ ->].
        apply (sees_writeback bk _ _ _ (m0 !! ID bk)); [apply bolt_default_sorted|by apply readable_sorted|by apply Hrs|].
        by apply (Hwr Ed bk Hbk).
      * intros _ bk Hbk. unfold written. destruct (Hw (ID bk)) as (-> & _). destruct (m !! ID bk) as [l|] eqn:El; [|done].
        split; [done|]. intros _. rewrite app_nil_r. apply (bolt_sorted W (Name bk)). by rewrite HW.
Qed.

Lemma Commit_spec b m dk : unlocked b m dk ->
  exists b', Commit no_hooks b = Ret b' /\ unlocked b' m m /\ clean b' /\ cache b' = cache b /\
    bufVersion (rbuf (readTx b')) = bufVersion (rbuf (readTx b)).
Proof.
  intros [[(W & Htx & HW) Hdb Hrtx Hrd Hbuf Hwr (Hp & Hpd & Hp0)] Hd]. unfold Commit.
  destruct (reads_bolt _ _ _ Hrd Hrtx) as [Hrr _].
  destruct (commit_spec b m W) as (b' & -> & Hu & Hcl & _ & Hca & _ & Hv); [done|done|eauto|done|done|done| |].
  { intros E. destruct (Hp0 E) as (Et & _). rewrite Htx in Et. by injection Et. }
  rewrite ret_bind. pose proof Hcl as [Hc0 _]. pose proof Hu as [[(W' & Htx' & _) _ _ _ _ _ _] _].
  unfold Unlock. rewrite (proj2 (Z.eqb_eq _ _) Hc0). cbn [negb]. rewrite ret_bind, limit_noop by eauto.
  exists b'. done.
Qed.

Definition opened (file : bolt) (limit : Z) : backend :=
  MkBackend file limit 0 (OpenTx file) 0 (MkWrite ∅ ∅) 0 (MkReadTx (MkRead ∅ 0) (Some file)) (MkCache None 0).

Lemma opened_unlocked file limit m : holds file m -> unlocked (opened file limit) m m.
Proof.
  intros Hm. split; [|done].
  constructor; cbn [opened tx db readTx wbuf pendingDeleteOperations pending rtx rbuf rbuckets wbuckets bucket2seq].
  - by exists file.
  - done.
  - done.
  - exists file. cbn. split; [done|]. split; [intros k; by rewrite lookup_empty|]. intros bk Hbk. rewrite lookup_empty.
    by apply (holds_sees file m (fun _ => [])).
  - intros k. cbn. rewrite !lookup_empty. cbn. split; [done|]. split; [by intros x ?%not_elem_of_nil|].
    intros _. split; [done|constructor].
  - intros _ bk Hbk. rewrite lookup_empty. unfold written. cbn. destruct (m !! ID bk) as [l|] eqn:El; [|done].
    split; [done|]. intros _. rewrite app_nil_r. apply (bolt_sorted file (Name bk)). by rewrite Hm.
  - split; [done|]. split; [done|]. intros _. do 4 (split; [done|]). split; intros k; by rewrite lookup_empty.
Qed.

Lemma newBackend_opened file limit : newBackend file limit = Ret (opened file limit).
Proof.
  unfold newBackend, Commit, unsafeCommit. rewrite ret_bind. cbn -[Unlock].
  unfold Unlock. cbn -[b_commit]. by apply (limit_noop (opened file limit)); [|exists file].
Qed.

(** ** Concurrent readers *)

Lemma copy_reads rt m : reads_keys rt m -> reads_keys (MkReadTx (unsafeCopy (rbuf rt)) (rtx rt)) m.
Proof.
  intros (R & HR & Hrd & Hsee). exists R. split; [done|]. cbn [rbuf unsafeCopy rbuckets]. split.
  - intros k. rewrite lookup_fmap. by apply copy_spec.
  - intros b Hb. specialize (Hsee b Hb). rewrite lookup_fmap. by destruct (copy_spec _ (Hrd (ID b))) as [_ ->].
Qed.

(** A buffer that was copied before a commit may still be read after it. *)
Lemma reads_committed c R R' m : holds R' m -> reads_keys (MkReadTx c (Some R)) m ->
  reads_keys (MkReadTx c (Some R')) m.
Proof.
  intros HR' (R0 & [= <-] & Hrd & Hsee). exists R'. cbn [rtx rbuf] in *. split; [done|]. split; [done|].
  intros b Hb. specialize (Hsee b Hb). rewrite (HR' b Hb). destruct (m !! ID b) as [l|]; [|by destruct Hsee].
  cbn [from_option id]. subst l. symmetry. apply upd_idem; [apply bolt_default_sorted|by apply legible_sorted].
Qed.

Definition version (b : backend) : Z := bufVersion (rbuf (readTx b)).

(** The cache is older than the buffer, or readers may use it. *)
Definition cache_ok (b : backend) (m : state) (n : Z) : Prop :=
  0 <= c_bufVersion (cache b) <= version b /\ version b <= n /\
  forall c, c_buf (cache b) = Some c -> c_bufVersion (cache b) = version b ->
    reads_keys (MkReadTx c (rtx (readTx b))) m.

Definition opening_ok (b : backend) (m : state) (o : opening) : Prop :=
  o_bufVer o = version b /\ reads_keys (MkReadTx (o_buf o) (rtx (readTx b))) m.

Lemma start_ok b m n : cache_ok b m n -> reads (readTx b) m -> opening_ok b m (crt_start b).
Proof.
  intros (_ & _ & Hc) Hr%reads_reads_keys. pose proof (copy_reads _ _ Hr) as Hcp.
  unfold crt_start. destruct (c_buf (cache b)) as [c|] eqn:E; [|by split].
  destruct (Z.eqb_spec (c_bufVersion (cache b)) (bufVersion (rbuf (readTx b)))) as [Ev|_]; [|by split].
  split; [done|]. by apply Hc.
Qed.

(** ** Runs *)

Inductive event : Type :=
  | EOp (o : wop)
  | EUnlock
  | ECommit
  (** [ConcurrentReadTx] up to the copy, and its end. *)
  | EStart
  | EFinish (i : nat).

Definition step (st : backend * list opening) (e : event)
    : outcome (backend * list opening * option baseReadTx) :=
  let '(b, os) := st in
  match e with
  | EOp o => b ← run_op b o; Ret (b, os, None)
  | EUnlock => b ← Unlock no_hooks b; Ret (b, os, None)
  | ECommit => b ← ForceCommit no_hooks b; Ret (b, os, None)
  | EStart => Ret (b, os ++ [crt_start b], None)
  | EFinish i =>
      match os !! i with
      | None => Panic "not opening"
      | Some o => let '(b, rt) := crt_finish b o in Ret (b, delete i os, Some rt)
      end
  end.

(** What readers see, what the writer has made of it, what it has put, whether
    there is a writer, and how many readers are opening a transaction. *)
Record spec := MkSpec {
  seen : state;
  cur : state;
  done_ : list (Z * bytes);
  held : bool;
  openings : nat
}.

Definition spec_step (s : spec) (e : event) : spec :=
  match e with
  | EOp o => MkSpec (seen s) (spec_op (cur s) o) (puts o ++ done_ s) true (openings s)
  | EUnlock => MkSpec (cur s) (cur s) [] false (openings s)
  | ECommit => s
  | EStart => MkSpec (seen s) (cur s) (done_ s) (held s) (S (openings s))
  | EFinish _ => MkSpec (seen s) (cur s) (done_ s) (held s) (pred (openings s))
  end.

(** The locks: a writer that releases its lock, and a commit, wait for the
    readers that are opening a transaction. *)
Definition legal_event (s : spec) (e : event) : Prop :=
  match e with
  | EOp o => legal_op (cur s) (done_ s) o
  | EUnlock => openings s = 0%nat
  | ECommit => openings s = 0%nat /\ held s = false
  | EStart => True
  | EFinish i => (i < openings s)%nat
  end.

Fixpoint legal (s : spec) (evs : list event) : Prop :=
  match evs with
  | [] => True
  | e :: evs => legal_event s e /\ legal (spec_step s e) evs
  end.

Definition spec_run (s : spec) (evs : list event) : spec := fold_left spec_step evs s.

(** What readers see before each event. *)
Fixpoint seens (s : spec) (evs : list event) : list state :=
  match evs with
  | [] => []
  | e :: evs => seen s :: seens (spec_step s e) evs
  end.

Definition rep (st : backend * list opening) (s : spec) (dk : state) (n : Z) : Prop :=
  let '(b, os) := st in
  locked b (seen s) (cur s) dk (done_ s) /\
  (held s = false -> unlocked b (seen s) dk /\ cur s = seen s /\ done_ s = []) /\
  cache_ok b (seen s) n /\ length os = openings s /\ Forall (opening_ok b (seen s)) os.

Lemma op_frame b o b' : run_op b o = Ret b' ->
  readTx b' = readTx b /\ cache b' = cache b.
Proof.
  assert (forall bk k v b1, b_unsafePut b bk k v = Ret b1 -> readTx b1 = readTx b /\ cache b1 = cache b) as Hput.
  { intros bk k v b1. unfold b_unsafePut, with_bucket, open_tx, or_fatal. destruct (tx b) as [|W|]; [done| |done].
    destruct (bolt_Bucket W (Name bk)); [|done]. destruct (bolt_Put W (Name bk) k v); [done|]. by intros [= <-]. }
  destruct o as [bk|bk k v|bk k v|bk k|bk]; cbn [run_op].
  - unfold UnsafeCreateBucket, b_UnsafeCreateBucket, open_tx, or_fatal. destruct (tx b) as [|W|]; [done| |done].
    destruct (bolt_CreateBucketIfNotExists W (Name bk)); [done|]. by intros [= <-].
  - unfold UnsafePut. destruct (b_unsafePut b bk k v) as [b1| |] eqn:E; [|done..]. rewrite ret_bind.
    destruct (put _ _ _ _); [|done..]. rewrite ret_bind. intros [= <-]. by apply Hput in E.
  - unfold UnsafeSeqPut. destruct (b_unsafePut b bk k v) as [b1| |] eqn:E; [|done..]. rewrite ret_bind.
    destruct (putSeq _ _ _ _); [|done..]. rewrite ret_bind. intros [= <-]. by apply Hput in E.
  - unfold UnsafeDelete, b_UnsafeDelete, with_bucket, open_tx, or_fatal. destruct (tx b) as [|W|]; [done| |done].
    destruct (bolt_Bucket W (Name bk)); [|done]. destruct (bolt_Delete W (Name bk) k); [done|]. by intros [= <-].
  - unfold UnsafeDeleteBucket, b_UnsafeDeleteBucket, open_tx. destruct (tx b) as [|W|]; [done| |done].
    destruct (bolt_DeleteBucket W (Name bk)); [case_bool_decide; [|done]|]; by intros [= <-].
Qed.

Lemma locked_cache b m0 m dk (done : list (Z * bytes)) c : locked b m0 m dk done ->
  locked (MkBackend (db b) (batchLimit b) (commits b) (tx b) (pending b) (wbuf b)
            (pendingDeleteOperations b) (readTx b) c) m0 m dk done.
Proof. intros [H1 H2 H3 H4 H5 H6 H7]. by constructor. Qed.

(** An operation of the writer: neither the file nor the buffers of the
    readers change. *)
Lemma op_step b os s dk n o : rep (b, os) s dk n -> legal_op (cur s) (done_ s) o ->
  exists b', run_op b o = Ret b' /\ rep (b', os) (spec_step s (EOp o)) dk n.
Proof.
  intros (Hl & Hh & Hc & Hlen & Hos) Hleg.
  destruct (op_locked b _ _ _ _ o Hl Hleg) as (b' & E & Hl'). exists b'. split; [done|].
  destruct (op_frame b o b' E) as [Er Ec]. split; [done|]. split; [done|].
  unfold cache_ok, opening_ok, version in *. cbn [spec_step seen]. by rewrite Er, Ec.
Qed.

(** An event does what it says. *)
Lemma event_step st s dk n e : rep st s dk n -> legal_event s e -> n < two64 - 1 ->
  exists st' dk' r, step st e = Ret (st', r) /\ rep st' (spec_step s e) dk' (n + 1) /\
    (dk' = dk /\ e <> ECommit \/ dk' = seen (spec_step s e)) /\
    forall rt, r = Some rt -> reads_keys rt (seen s).
Proof.
  destruct st as [b os]. intros (Hl & Hh & Hc & Hlen & Hos) Hleg Hn.
  pose proof Hc as (Hv & Hvn & Hcr).
  destruct e as [o| | | |i]; cbn [step spec_step legal_event] in *.
  - destruct (op_step b os s dk n o) as (b' & -> & Hr'); [by split|done|]. rewrite ret_bind.
    eexists _, dk, _. split; [reflexivity|]. split; [|split; [by left|done]].
    destruct Hr' as (? & ? & (? & ? & ?) & ?). do 2 (split; [done|]). split; [|done]. split; [done|]. split; [lia|done].
  - destruct (Unlock_spec b _ _ _ _ Hl) as (b' & dk' & -> & Hu & Hdk & Ec & Hver). rewrite ret_bind.
    assert (os = []) as -> by (apply nil_length_inv; lia).
    eexists _, dk', _. split; [reflexivity|]. split; [|split; [destruct Hdk as [->| ->]; [by left|by right]|done]].
    pose proof Hu as [Hu1 _]. split; [done|]. split; [done|]. split; [|done].
    unfold cache_ok, version in *. cbn [seen]. rewrite Ec. destruct Hver as [[-> ->]|Hver].
    + split; [done|]. split; [lia|done].
    + rewrite Hver. rewrite u64_small by (unfold is_u64, two64 in *; lia). split; [lia|]. split; [lia|]. intros c _ E. lia.
  - destruct Hleg as [Ho Hf]. destruct (Hh Hf) as (Hu & Ecur & Ed). unfold ForceCommit.
    destruct (Commit_spec b _ _ Hu) as (b' & -> & Hu' & _ & Ec & Hver). rewrite ret_bind.
    assert (os = []) as -> by (apply nil_length_inv; lia).
    eexists _, (seen s), _. split; [reflexivity|]. split; [|split; [by right|done]].
    pose proof Hu' as [Hu1 _]. cbn [seen]. split; [by rewrite Ecur, Ed|]. split; [done|]. split; [|done].
    unfold cache_ok, version in *. rewrite Ec, Hver. split; [done|]. split; [lia|]. intros c Hc1 Hc2.
    destruct Hu1 as [_ Hdb Hrtx' _ _ _ _]. destruct Hl as [_ _ Hrtx _ _ _ _]. rewrite Hrtx'.
    eapply reads_committed; [exact Hdb|]. rewrite <- Hrtx. by apply Hcr.
  - eexists _, dk, _. split; [reflexivity|]. split; [|split; [by left|done]].
    split; [done|]. split; [done|]. split; [by split; [|split; [lia|]]|]. cbn [openings seen].
    split; [rewrite length_app; cbn; lia|]. apply Forall_app. split; [done|]. constructor; [|done].
    eapply start_ok; [exact Hc|]. by destruct Hl.
  - destruct (lookup_lt_is_Some_2 os i) as [o Ho]; [lia|]. rewrite Ho. unfold crt_finish.
    rewrite Forall_forall in Hos. destruct (Hos o) as [Hov Hor]; [by eapply list_elem_of_lookup_2|].
    eexists _, dk, _. split; [reflexivity|]. split; [|split; [by left|by intros rt [= <-]]].
    cbn [seen cur done_ held openings].
    split; [by apply locked_cache|]. split.
    { intros Hf. destruct (Hh Hf) as ([Hu Hd] & ? & ?). split; [split; [by apply locked_cache|done]|done]. }
    unfold cache_ok, version. cbn [cache readTx]. fold (version b). split; [|split].
    + destruct (o_empty o || (o_cacheVer o =? c_bufVersion (cache b))); cbn [c_buf c_bufVersion].
      * rewrite Hov. split; [lia|]. split; [lia|]. intros c [= <-] _. done.
      * split; [done|]. split; [lia|done].
    + assert (i < length os)%nat by lia. rewrite length_delete by (by rewrite Ho). cbn [openings]. lia.
    + apply Forall_forall. intros o' Ho'. apply (Hos o'). by eapply list_elem_of_delete_inv.
Qed.

(** The pair of a key. *)
Definition pair_of (key : bytes) (l : option (list kvp)) : list kvp :=
  match find key (default [] l) with Some v => [(key, v)] | None => [] end.

(** A reader that was given out sees one state for good. *)
Definition reader_of (m : state) (r : option baseReadTx) : Prop :=
  forall rt, r = Some rt -> forall bk key, bk ∈ AllBuckets ->
    r_UnsafeRange rt bk key None 0 = Ret (pair_of key (m !! ID bk)).

Lemma run_rep evs st s dk n : rep st s dk n -> legal s evs -> n + Z.of_nat (length evs) < two64 ->
  exists st' dk' rs, run step st evs = Ret (st', rs) /\
    rep st' (spec_run s evs) dk' (n + Z.of_nat (length evs)) /\
    Forall2 reader_of (seens s evs) rs /\
    (dk' = dk /\ ECommit ∉ evs \/
     exists evs1 evs2, evs = evs1 ++ evs2 /\ ECommit ∉ evs2 /\ dk' = seen (spec_run s evs1)).
Proof.
  revert st s dk n. induction evs as [|e evs IH]; intros st s dk n Hr Hleg Hn.
  - exists st, dk, []. split; [done|]. rewrite Z.add_0_r. split; [done|]. split; [constructor|].
    left. split; [done|apply not_elem_of_nil].
  - destruct Hleg as [He Hleg]. cbn [length] in Hn.
    destruct (event_step st s dk n e Hr He) as (st1 & dk1 & r & E & Hr1 & Hdk1 & Hrd); [lia|].
    destruct (IH st1 (spec_step s e) dk1 (n + 1) Hr1 Hleg) as (st2 & dk2 & rs & E2 & Hr2 & Hrs & Hdk2); [lia|].
    exists st2, dk2, (r :: rs). cbn [run]. rewrite E, ret_bind, E2, ret_bind. split; [done|]. split.
    { cbn [length]. replace (n + Z.of_nat (S (length evs))) with (n + 1 + Z.of_nat (length evs)) by lia. done. }
    split.
    { cbn [seens]. constructor; [|done]. intros rt Hrt bk key Hbk. by apply read_key, Hrd. }
    destruct Hdk2 as [[-> Hno]|(e1 & e2 & -> & Hno & ->)].
    + destruct Hdk1 as [[-> Hne]| ->].
      * left. split; [done|]. intros [E'|?]%elem_of_cons; done.
      * right. exists [e], evs. done.
    + right. exists (e :: e1), e2. done.
Qed.

Definition spec_of (m : state) : spec := MkSpec m m [] false 0.


(** ** Defragmentation *)

Lemma defrag_pairs_spec n l t done : bolt_Bucket t n = Some done -> Forall storable l ->
  exists t', defrag_pairs t n l = inr t' /\ changed t t' n (Some (upd done l)).
Proof.
  intros Hd Hl. revert t done Hd. induction Hl as [|[k v] l Hx Hl IH]; intros t done Hd; cbn [defrag_pairs].
  - exists t. split; [done|]. by split.
  - destruct (bolt_put t n k v done Hd Hx) as (t1 & E & [Hc Ho]). cbn [fst snd]. rewrite E. unfold mbind, result_bind.
    destruct (IH t1 _ Hc) as (t' & -> & [Hc' Ho']). exists t'. split; [done|]. split; [done|].
    intros m Hm. by rewrite Ho', Ho.
Qed.

Lemma defrag_buckets_spec o names t : NoDup names ->
  (forall n, n ∈ names -> n <> [] /\ bolt_Bucket t n = None /\
     exists l, bolt_Bucket o n = Some l /\ Forall storable l) ->
  exists t', defrag_buckets o t names = inr t' /\
    forall n, bolt_Bucket t' n = if decide (n ∈ names) then bolt_Bucket o n else bolt_Bucket t n.
Proof.
  intros Hd. revert t. induction Hd as [|n names Hn Hd IH]; intros t Hok; cbn [defrag_buckets].
  - exists t. split; [done|]. intros n. rewrite decide_False; [done|apply not_elem_of_nil].
  - destruct (Hok n (list_elem_of_here _ _)) as (Hne & Ht & l & El & Hl). rewrite El.
    destruct (bolt_create t n Hne) as (t1 & -> & [Hc Ho]). rewrite Ht in Hc. cbn in Hc.
    destruct (defrag_pairs_spec n l t1 [] Hc Hl) as (t2 & E2 & [Hc2 Ho2]).
    unfold mbind, result_bind. rewrite E2.
    destruct (IH t2) as (t' & -> & Ht').
    { intros m Hm. destruct (Hok m (list_elem_of_further _ _ _ Hm)) as (? & Htm & ?).
      assert (m <> n) by (by intros ->). split; [done|]. split; [by rewrite Ho2, Ho|done]. }
    exists t'. split; [done|]. intros m. rewrite Ht'. destruct (decide (m ∈ names)) as [Hm|Hm].
    + by rewrite decide_True by (by right).
    + destruct (decide (m = n)) as [->|Hmn].
      * rewrite decide_True by left. rewrite Hc2, El. f_equal. apply upd_nil. by eapply bolt_sorted.
      * rewrite decide_False, Ho2, Ho; [done..|]. by intros [?|?]%elem_of_cons.
Qed.

(** A file of storable pairs. *)
Definition all_storable (t : bolt) : Prop :=
  forall n l, bolt_Bucket t n = Some l -> n <> [] /\ Forall storable l.

Lemma defragdb_spec o : all_storable o ->
  exists t, defragdb o bolt_New = inr t /\ forall n, bolt_Bucket t n = bolt_Bucket o n.
Proof.
  intros Ho. unfold defragdb. destruct (defrag_buckets_spec o (bolt_Names o) bolt_New) as (t & E & Ht).
  - apply bolt_names.
  - intros n [l El]%bolt_named. destruct (Ho n l El). split; [done|]. split; [apply bolt_new|eauto].
  - exists t. split; [done|]. intros n. rewrite Ht. case_decide as Hn; [done|].
    rewrite bolt_new. symmetry. apply eq_None_not_Some. by rewrite <- bolt_named.
Qed.

(** Defragmenting gives a file with the same buckets and pairs, commits
    what was pending, and readers and writers see what they saw. *)
Theorem defrag_keeps_pairs b m dk : unlocked b m dk ->
  (forall W, tx b = OpenTx W -> all_storable W) ->
  exists b' W, tx b = OpenTx W /\ defrag no_hooks b = Ret (b', None) /\ unlocked b' m m /\
    forall n, bolt_Bucket (db b') n = bolt_Bucket W n.
Proof.
  intros [[(W & Htx & HW) Hdb Hrtx Hrd Hbuf Hwr (Hp & Hpd & Hp0)] Hd] Hst. specialize (Hst W Htx).
  destruct (defragdb_spec W Hst) as (f & Ef & Hf). destruct (reads_bolt _ _ _ Hrd Hrtx) as [Hrr _].
  assert (forall x, no_hooks x = Ret x) as Hnh by done. unfold defrag, unsafeCommit. rewrite Hnh, ret_bind, Hrtx.
  unfold b_commit. cbn [tx with_read pending negb]. rewrite Htx, andb_false_r, ret_bind. cbn [db]. rewrite ret_bind. cbn [db].
  rewrite Ef. cbn [with_read db batchLimit commits tx pending wbuf pendingDeleteOperations readTx cache rbuf rtx].
  rewrite ret_bind. set (b1 := MkBackend f _ _ _ _ _ _ _ _).
  assert (forall k, conts (wbuckets (wbuf b) !! k) = []) as Hwc.
  { intros k. destruct (Hbuf k) as (_ & Hx & _). by eapply conts_nil. }
  assert (holds f m) as Hfm by (intros bk Hbk; by rewrite Hf, HW).
  assert (forall k, readable (rbuckets (rbuf (readTx b1)) !! k) /\ conts (rbuckets (rbuf (readTx b1)) !! k) = []) as Hrc.
  { intros k. cbn [b1 readTx rbuf r_reset rbuckets]. apply reset_readable. by apply reset_readable. }
  assert (unlocked b1 m m) as Hu.
  { split; [|done]. constructor; cbn [b1 tx db readTx wbuf pendingDeleteOperations pending rtx]; try done.
    - by exists f.
    - exists f. split; [done|]. split; [apply Hrc|]. intros bk Hbk.
      apply (holds_sees f m (fun k => conts (rbuckets (rbuf (readTx b1)) !! k))); [done|apply Hrc|done].
    - intros _ bk Hbk. unfold written. rewrite Hwc. destruct (m !! ID bk) as [l|] eqn:El; [|done].
      split; [done|]. intros _. rewrite app_nil_r. apply (bolt_sorted f (Name bk)). by rewrite Hfm.
    - split; [done|]. split; [done|]. intros _. do 4 (split; [done|]). split; [apply Hrc|done]. }
  assert (Unlock no_hooks b1 = Ret b1) as ->.
  { unfold Unlock. change (pending b1) with 0. change (negb (0 =? 0)) with false. cbn iota. rewrite ret_bind.
    apply (limit_noop b1); [done|by exists f]. }
  rewrite ret_bind. exists b1, W. split; [done|]. split; [done|]. split; [done|]. exact Hf.
Qed.

End Log.
(** ** On a concrete database *)

Definition k_ (n : Z) : bytes := Uint64ToBytes n.

(** A writer makes the buckets and puts two keys; a reader comes in; the file
    is committed; another key is put and one deleted. *)
Definition sample_events : list event :=
  [EOp (WCreate Key); EOp (WCreate Meta); EUnlock;
   EOp (WSeqPut Key (k_ 1) [x61]); EOp (WPut Meta (k_ 7) [x62]); EUnlock; EStart; EFinish 0;
   ECommit; EOp (WSeqPut Key (k_ 2) [x63]); EOp (WDelete Key (k_ 1)); EStart; EFinish 0; EUnlock].

Lemma sample_events_legal : legal (spec_of ∅) sample_events.
Proof.
  unfold sample_events. cbn [legal].
  repeat match goal with
  | |- legal_event _ _ => unfold legal_event, legal_op; cbn [w_bucket]
  | |- _ /\ _ => split
  | |- True => exact I
  | |- _ ∈ AllBuckets => repeat (first [left | right])
  | |- forall x, x ∈ _ -> _ =>
      intros x Hin; apply list_elem_of_In in Hin; vm_compute in Hin;
      repeat (destruct Hin as [Hin|Hin]; [subst; vm_compute; reflexivity|]); destruct Hin
  | |- forall k', (_, k') ∈ _ -> _ =>
      intros x Hin; apply list_elem_of_In in Hin; vm_compute in Hin;
      repeat (destruct Hin as [Hin|Hin]; [try discriminate Hin; injection Hin; intros; subst; vm_compute; reflexivity|]);
      destruct Hin
  | |- is_Some _ => eexists; vm_compute; reflexivity
  | |- _ ∉ _ => intros Hin; apply list_elem_of_In in Hin; vm_compute in Hin;
      repeat (destruct Hin as [Hin|Hin]; [discriminate Hin|]); destruct Hin
  | |- storable _ => apply (bool_decide_unpack _); vm_compute; exact I
  | |- _ => first [discriminate | reflexivity | vm_compute; lia]
  end.
Qed.


(** The events of a run that is not legal, or whose answers show it. *)
Definition asked (evs : list event) (ask : backend -> outcome (list kvp)) : outcome (list kvp) :=
  '(b, _, _) ← run step (opened (bolt_New : @bolt MemBolt.mem_bolt) 10000, []) evs; ask b.

(** A concurrent reader that is opened after a commit gets the buffer that was
    cached before it, because a commit empties the buffer without changing its
    version: a range over it returns every pair twice. *)
Theorem cached_buffer_read_twice :
  asked [EOp (WCreate Key); EUnlock; EOp (WSeqPut Key (k_ 1) [x61]); EUnlock; EStart; EFinish 0; ECommit]
    (fun b => r_UnsafeRange (snd (ConcurrentReadTx b)) Key (k_ 0) (Some (k_ 9)) 0)
  = Ret [(k_ 1, [x61]); (k_ 1, [x61])].
Proof. vm_compute. reflexivity. Qed.

(** A key that is put twice under one lock, in a bucket whose buffer was
    emptied by a commit, is read with its first value. *)
Theorem put_twice_reads_first :
  asked [EOp (WCreate Meta); EUnlock; EOp (WPut Meta (k_ 1) [x61]); EUnlock; ECommit;
           EOp (WPut Meta (k_ 1) [x62]); EOp (WPut Meta (k_ 1) [x63]); EUnlock]
    (fun b => r_UnsafeRange (readTx b) Meta (k_ 1) None 0)
  = Ret [(k_ 1, [x62])].
Proof. vm_compute. reflexivity. Qed.

(** A range with a limit prefers the newest pairs, which are in the buffer. *)
Theorem limited_range_skips :
  asked [EOp (WCreate Key); EUnlock; EOp (WSeqPut Key (k_ 1) [x61]); EOp (WSeqPut Key (k_ 2) [x61]); EUnlock;
           ECommit; EOp (WSeqPut Key (k_ 3) [x61]); EUnlock]
    (fun b => r_UnsafeRange (readTx b) Key (k_ 0) (Some (k_ 9)) 2)
  = Ret [(k_ 1, [x61]); (k_ 3, [x61])].
Proof. vm_compute. reflexivity. Qed.

End BackendLog.
