(* ===== verification/LeasePb.v ===== *)
(** * server/lease/leasepb/lease.pb.go

    A lease as it is stored. *)

From S2P Require Import Prelude Errors Utils WalRecord KvPb.
From Stdlib Require Import Strings.Byte.

Module leasepb.
Import walpb RecordCodec mvccpb.

Record Lease := MkLease {
  ID : Z;
  TTL : Z;
  RemainingTTL : Z;
  l_unrecognized : bytes
}.

Definition Lease_Reset : Lease := MkLease 0 0 0 [].

Definition Lease_Marshal (l : Lease) : bytes :=
  int_field x08 (ID l) ++ int_field x10 (TTL l) ++ int_field x18 (RemainingTTL l) ++ l_unrecognized l.

Definition Lease_Size (l : Lease) : Z :=
  int_size (ID l) + int_size (TTL l) + int_size (RemainingTTL l) + Z.of_nat (length (l_unrecognized l)).

(** [Lease.Unmarshal]: a round per field; [b] is what is left. *)
Fixpoint Lease_loop (fuel : nat) (n : Z) (l : Lease) (b : bytes) : result Lease :=
  match fuel, b with
  | _, [] => inr l
  | O, _ => inl ErrUnexpectedEOF
  | S f, _ =>
      '(wire, r) ← read_varint u64 b;
      let w := Z.land wire 7 in
      let int (field : string) (set : Z -> Lease) :=
        if negb (w =? 0) then wrong_type w field else
        '(v, r') ← read_varint i64 r; Lease_loop f n (set v) r' in
      let '(MkLease i t rt u) := l in
      if w =? 4 then inl (OtherError "proto: Lease: wiretype end group for non-group")
      else if fieldNum wire <=? 0 then inl (OtherError "proto: Lease: illegal tag")
      else match fieldNum wire with
      | 1 => int "ID" (fun i => MkLease i t rt u)
      | 2 => int "TTL" (fun t => MkLease i t rt u)
      | 3 => int "RemainingTTL" (fun rt => MkLease i t rt u)
      | _ => '(x, r') ← unknown_field n b; Lease_loop f n (MkLease i t rt (u ++ x)) r'
      end
  end.

Definition Lease_Unmarshal (b : bytes) : result Lease :=
  Lease_loop (length b) (Z.of_nat (length b)) Lease_Reset b.

(** ** Round trip *)

Definition reads (n : Z) (l : Lease) (b : bytes) (l' : Lease) : Prop :=
  forall f, (length b <= f)%nat -> Lease_loop f n l b = inr l'.

(** The record with the [k]-th field set. *)
Definition set_field (k : Z) (l : Lease) (x : Z) : Lease :=
  let '(MkLease i t rt u) := l in
  match k with
  | 1 => MkLease x t rt u
  | 2 => MkLease i x rt u
  | _ => MkLease i t x u
  end.

Ltac next_field b :=
  cbn [Lease_loop]; rewrite read_tag by done; unfold mbind, result_bind at 1;
  let z := eval vm_compute in (Z_of_byte b) in change (Z_of_byte b) with z;
  simpl fieldNum; cbn -[read_varint encodeVarintRecord put_bytes take_field].

Lemma reads_field k tag n l v r l' : (k, tag) ∈ [(1, x08); (2, x10); (3, x18)] -> 0 <= v < 2 ^ 63 ->
  (v = 0 -> set_field k l v = l) -> reads n (set_field k l v) r l' -> reads n l (int_field tag v ++ r) l'.
Proof.
  intros Hk Hv Hz Hp f Hf. unfold int_field in *. destruct (Z.eqb_spec v 0) as [->|Hn].
  { cbn [app] in *. rewrite <- (Hz eq_refl). by apply Hp. }
  rewrite u64_small in * by word. destruct f as [|f]; [cbn in Hf; lia|]. cbn [app] in *.
  assert (length r <= f)%nat as Hr.
  { cbn [length] in Hf. rewrite length_app in Hf. lia. }
  specialize (Hp f Hr). destruct l as [i t rt u].
  repeat (apply elem_of_cons in Hk as [[= -> ->]|Hk]);
    [next_field x08|next_field x10|next_field x18|by apply not_elem_of_nil in Hk];
    rewrite read_i64 by done; exact Hp.
Qed.

(** What the lessor writes. *)
Definition lease_fits (l : Lease) : Prop :=
  0 <= ID l < 2 ^ 63 /\ 0 <= TTL l < 2 ^ 63 /\ 0 <= RemainingTTL l < 2 ^ 63 /\ l_unrecognized l = [].

Lemma Lease_roundtrip l : lease_fits l -> Lease_Unmarshal (Lease_Marshal l) = inr l.
Proof.
  destruct l as [i t rt u]. intros (Hi & Ht & Hrt & Hu). cbn in Hi, Ht, Hrt, Hu. subst u. unfold Lease_Unmarshal, Lease_Marshal.
  cbn [ID TTL RemainingTTL l_unrecognized]. set (n := Z.of_nat _).
  assert (reads n Lease_Reset (int_field x08 i ++ int_field x10 t ++ int_field x18 rt ++ []) (MkLease i t rt [])) as Hp;
    [|by apply Hp].
  apply (reads_field 1); [set_solver|done|by intros ->|].
  apply (reads_field 2); [set_solver|done|by intros ->|].
  apply (reads_field 3); [set_solver|done|by intros ->|].
  by intros [|f] _.
Qed.

End leasepb.
