(* ===== verification/LeaseQueue.v ===== *)
(** * server/lease/lease_queue.go

    The queue of the times at which leases expire, over Go's [container/heap]:
    a heap in an array whose items know their place, and a map from leases to
    their items.  An item that the map points to is the one of the queue with
    that lease. *)

From S2P Require Import Prelude Errors Utils.

Module leaseQueue.

(** Times are nanoseconds. *)
Record LeaseWithTime := MkLWT {
  lt_id : Z;
  lt_time : Z;
  lt_index : Z
}.

Abbreviation LeaseQueue := (list LeaseWithTime).

Definition with_time (x : LeaseWithTime) (t : Z) : LeaseWithTime := MkLWT (lt_id x) t (lt_index x).
Definition with_index (x : LeaseWithTime) (i : Z) : LeaseWithTime := MkLWT (lt_id x) (lt_time x) i.

(** ** The heap *)

(** [Less] and [Swap] at places of the array; others would panic. *)
Definition Less (q : LeaseQueue) (i j : nat) : bool :=
  match q !! i, q !! j with
  | Some x, Some y => lt_time x <? lt_time y
  | _, _ => false
  end.

Definition Swap (q : LeaseQueue) (i j : nat) : LeaseQueue :=
  match q !! i, q !! j with
  | Some x, Some y => <[j := with_index x (Z.of_nat j)]> (<[i := with_index y (Z.of_nat i)]> q)
  | _, _ => q
  end.

(** [heap.up]; the rounds are at most the places below [j]. *)
Fixpoint up_from (fuel : nat) (q : LeaseQueue) (j : nat) : LeaseQueue :=
  match fuel with
  | O => q
  | S fuel =>
      let i := Nat.div2 (j - 1) in
      if Nat.eqb i j || negb (Less q j i) then q
      else up_from fuel (Swap q i j) i
  end.

Definition up (q : LeaseQueue) (j : nat) : LeaseQueue := up_from (S j) q j.

(** [heap.down]: the place at which the item ends. *)
Fixpoint down_from (fuel : nat) (q : LeaseQueue) (i n : nat) : LeaseQueue * nat :=
  match fuel with
  | O => (q, i)
  | S fuel =>
      let j1 := (2 * i + 1)%nat in
      if (n <=? j1)%nat then (q, i)
      else
        let j2 := (j1 + 1)%nat in
        let j := if (j2 <? n)%nat && Less q j2 j1 then j2 else j1 in
        if negb (Less q j i) then (q, i)
        else down_from fuel (Swap q i j) j n
  end.

Definition down (q : LeaseQueue) (i0 n : nat) : LeaseQueue * bool :=
  let '(q, i) := down_from n q i0 n in (q, (i0 <? i)%nat).

Fixpoint init_from (q : LeaseQueue) (i : nat) : LeaseQueue :=
  match i with
  | O => q
  | S i => init_from (fst (down q i (length q))) i
  end.

Definition heap_Init (q : LeaseQueue) : LeaseQueue := init_from q (Nat.div2 (length q)).

Definition heap_Push (q : LeaseQueue) (x : LeaseWithTime) : LeaseQueue :=
  up (q ++ [with_index x (Z.of_nat (length q))]) (length q).

(** The queue that is left, and the item. *)
Definition heap_Pop (q : LeaseQueue) : outcome (LeaseQueue * LeaseWithTime) :=
  let n := (length q - 1)%nat in
  let q := fst (down (Swap q 0 n) 0 n) in
  match q !! n with
  | Some x => Ret (take n q, with_index x (-1))
  | None => Panic "runtime error: index out of range"
  end.

Definition heap_Fix (q : LeaseQueue) (i : Z) : outcome LeaseQueue :=
  if (i <? 0) || (Z.of_nat (length q) <=? i) then Panic "runtime error: index out of range"
  else
    let '(q, moved) := down q (Z.to_nat i) (length q) in
    Ret (if moved then q else up q (Z.to_nat i)).

(** ** LeaseExpiredNotifier *)

Record LeaseExpiredNotifier := MkNotifier {
  m : gset Z;
  queue : LeaseQueue
}.

Definition newLeaseExpiredNotifier : LeaseExpiredNotifier := MkNotifier ∅ [].

Definition Init (mq : LeaseExpiredNotifier) : LeaseExpiredNotifier :=
  let q := heap_Init (queue mq) in MkNotifier (list_to_set (map lt_id q)) q.

(** Setting the time of the item of a lease. *)
Definition retime (q : LeaseQueue) (id t : Z) : LeaseQueue :=
  map (fun x => if lt_id x =? id then with_time x t else x) q.

Definition item_of (q : LeaseQueue) (id : Z) : option LeaseWithTime :=
  List.find (fun x => lt_id x =? id) q.

Definition RegisterOrUpdate (mq : LeaseExpiredNotifier) (id t : Z) : outcome LeaseExpiredNotifier :=
  if bool_decide (id ∈ m mq) then
    match item_of (queue mq) id with
    | Some old => q ← heap_Fix (retime (queue mq) id t) (lt_index old); Ret (MkNotifier (m mq) q)
    | None => Panic "an item that is not in the queue"
    end
  else Ret (MkNotifier ({[id]} ∪ m mq) (heap_Push (queue mq) (MkLWT id t 0))).

Definition Unregister (mq : LeaseExpiredNotifier) : outcome (LeaseExpiredNotifier * LeaseWithTime) :=
  '(q, item) ← heap_Pop (queue mq);
  Ret (MkNotifier (m mq ∖ {[lt_id item]}) q, item).

(** [Len() == 0]. *)
Definition empty (mq : LeaseExpiredNotifier) : bool := bool_decide (m mq = ∅).

Definition Peek (mq : LeaseExpiredNotifier) : outcome (option LeaseWithTime) :=
  if empty mq then Ret None
  else match queue mq with
       | item :: _ => Ret (Some item)
       | [] => Panic "runtime error: index out of range"
       end.

(** ** Places, times and items *)

Definition parent (k : nat) : nat := Nat.div2 (k - 1).

Lemma parent_spec k : (0 < k)%nat -> (k = 2 * parent k + 1 \/ k = 2 * parent k + 2)%nat.
Proof. intros Hk. unfold parent. pose proof (Nat.div2_odd (k - 1)). destruct (Nat.odd (k - 1)); cbn [Nat.b2n] in *; lia. Qed.

(** The time at a place. *)
Definition tm (q : LeaseQueue) (k : nat) : Z := default 0 (lt_time <$> q !! k).

Lemma tm_lookup q k x : q !! k = Some x -> tm q k = lt_time x.
Proof. intros E. unfold tm. by rewrite E. Qed.

Lemma Less_spec q i j : (i < length q)%nat -> (j < length q)%nat -> Less q i j = (tm q i <? tm q j).
Proof.
  intros [x Hx]%lookup_lt_is_Some_2 [y Hy]%lookup_lt_is_Some_2. unfold Less, tm. by rewrite Hx, Hy.
Qed.

Definition swapped (i j k : nat) : nat := if decide (k = i) then j else if decide (k = j) then i else k.

Lemma Swap_lookup q i j k : (i < length q)%nat -> (j < length q)%nat ->
  Swap q i j !! k = (fun x => if decide (k = i \/ k = j) then with_index x (Z.of_nat k) else x) <$> q !! swapped i j k.
Proof.
  intros Hi Hj. pose proof (lookup_lt_is_Some_2 _ _ Hi) as [x Hx]. pose proof (lookup_lt_is_Some_2 _ _ Hj) as [y Hy].
  unfold Swap, swapped. rewrite Hx, Hy. destruct (decide (k = j)) as [->|Hkj].
  - rewrite list_lookup_insert_eq by (by rewrite length_insert). repeat case_decide; simplify_eq/=; rewrite ?Hx; tauto.
  - rewrite list_lookup_insert_ne by done. destruct (decide (k = i)) as [->|Hki].
    + rewrite list_lookup_insert_eq, Hy by done. repeat case_decide; tauto.
    + rewrite list_lookup_insert_ne by done. destruct (q !! k); [|done]. cbn. by rewrite decide_False by tauto.
Qed.

Lemma Swap_length q i j : length (Swap q i j) = length q.
Proof. unfold Swap. destruct (q !! i), (q !! j); rewrite ?length_insert; done. Qed.

Lemma Swap_tm q i j k : (i < length q)%nat -> (j < length q)%nat -> tm (Swap q i j) k = tm q (swapped i j k).
Proof.
  intros Hi Hj. unfold tm. rewrite Swap_lookup by done. destruct (q !! swapped i j k) as [x|]; [|done].
  cbn. by destruct (decide (k = i \/ k = j)).
Qed.

(** What an item is but for its place. *)
Definition core (x : LeaseWithTime) : Z * Z := (lt_id x, lt_time x).

Lemma Swap_core q i j : map core (Swap q i j) ≡ₚ map core q.
Proof.
  unfold Swap. destruct (q !! i) as [x|] eqn:Hx; [|done]. destruct (q !! j) as [y|] eqn:Hy; [|done].
  assert (map core (<[j := with_index x (Z.of_nat j)]> (<[i := with_index y (Z.of_nat i)]> q)) =
    <[j := core x]> (<[i := core y]> (map core q))) as ->.
  { change (map core) with (fmap (M := list) core). by rewrite !list_fmap_insert. }
  apply Permutation_inj. rewrite !length_insert. split; [done|].
  exists (swapped i j). split.
  - intros a b. unfold swapped. repeat case_decide; congruence.
  - intros k. change (map core) with (fmap (M := list) core). rewrite (list_lookup_fmap core q (swapped i j k)). unfold swapped.
    destruct (decide (k = j)) as [->|].
    + rewrite list_lookup_insert_eq by (rewrite length_insert, length_fmap; by eapply lookup_lt_Some).
      destruct (decide (j = i)) as [->|]; by rewrite Hx.
    + rewrite list_lookup_insert_ne by done. destruct (decide (k = i)) as [->|].
      * rewrite list_lookup_insert_eq by (rewrite length_fmap; by eapply lookup_lt_Some). by rewrite Hy.
      * by rewrite list_lookup_insert_ne, list_lookup_fmap by done.
Qed.

(** Every item knows its place. *)
Definition indexed (q : LeaseQueue) : Prop := forall k x, q !! k = Some x -> lt_index x = Z.of_nat k.

Lemma Swap_indexed q i j : (i < length q)%nat -> (j < length q)%nat -> indexed q -> indexed (Swap q i j).
Proof.
  intros Hi Hj Hq k x. rewrite Swap_lookup by done. unfold swapped. intros E.
  destruct (q !! _) as [y|] eqn:Ey; [|done]. injection E as <-. destruct (decide (k = i \/ k = j)) as [Hk|Hk]; [done|].
  rewrite !decide_False in Ey by tauto. by apply Hq.
Qed.

(** ** Order *)

Definition ord (q : LeaseQueue) (k : nat) : Prop := tm q (parent k) <= tm q k.

Definition heap (q : LeaseQueue) (n : nat) : Prop := forall k, (0 < k < n)%nat -> ord q k.

(** The order below the places from [lo] on. *)
Definition heap_from (q : LeaseQueue) (lo n : nat) : Prop :=
  forall k, (0 < k < n)%nat -> (lo <= parent k)%nat -> ord q k.

(** Only at [i] may that order be broken. *)
Definition almost (q : LeaseQueue) (lo n i : nat) : Prop :=
  (forall k, (0 < k < n)%nat -> (lo <= parent k)%nat -> k <> i -> parent k <> i -> ord q k) /\
  ((0 < i)%nat -> (lo <= parent i)%nat -> forall k, (0 < k < n)%nat -> parent k = i -> tm q (parent i) <= tm q k).

(** What the operations keep, from a queue to the next. *)
Record kept (q q' : LeaseQueue) : Prop := {
  k_core : map core q' ≡ₚ map core q;
  k_indexed : indexed q -> indexed q'
}.

Lemma kept_refl q : kept q q.
Proof. by split. Qed.

Lemma kept_trans q1 q2 q3 : kept q1 q2 -> kept q2 q3 -> kept q1 q3.
Proof. intros [H1 H2] [H3 H4]. split; [by rewrite H3|auto]. Qed.

Lemma kept_swap q i j : (i < length q)%nat -> (j < length q)%nat -> kept q (Swap q i j).
Proof. intros Hi Hj. split; [apply Swap_core|by apply Swap_indexed]. Qed.

Lemma kept_length q q' : kept q q' -> length q' = length q.
Proof. intros [Hc _]. apply Permutation_length in Hc. by rewrite !length_map in Hc. Qed.

Ltac places k := let H := fresh in pose proof (parent_spec k) as H; specialize (H ltac:(lia)).

Lemma down_swap q lo n i j : (n <= length q)%nat -> (lo <= i)%nat -> almost q lo n i -> (0 < j < n)%nat -> parent j = i ->
  (forall k, (0 < k < n)%nat -> parent k = i -> tm q j <= tm q k) -> tm q j < tm q i ->
  almost (Swap q i j) lo n j /\ ord (Swap q i j) j.
Proof.
  intros Hn Hlo [Ho Hg] Hj Hp Hmin Hlt. places j. assert (i < length q /\ j < length q)%nat as [Hi' Hj'] by lia.
  split; [split|].
  - intros k Hk Hlk Hkj Hpk. places k. unfold ord. rewrite !Swap_tm by done. unfold swapped.
    destruct (decide (k = i)) as [->|Hki].
    + rewrite (decide_False (P := parent i = i)), (decide_False (P := parent i = j)) by lia. apply Hg; [lia|done|done|done].
    + destruct (decide (parent k = i)) as [Hpi|Hpi]; [rewrite decide_False by done; by apply Hmin|].
      rewrite !decide_False by done. by apply Ho.
  - intros _ _ k Hk Hpk. places k. rewrite !Swap_tm by done. unfold swapped.
    rewrite Hp, (decide_True (P := i = i)) by done. rewrite !decide_False by lia. rewrite <- Hpk. apply Ho; lia.
  - unfold ord. rewrite !Swap_tm by done. unfold swapped. rewrite Hp, (decide_True (P := i = i)) by done.
    rewrite decide_False by lia. rewrite decide_True by done. lia.
Qed.

Lemma down_from_spec fuel q lo i n q' i' : (n <= length q)%nat -> (n <= fuel + i)%nat -> (lo <= i)%nat -> almost q lo n i ->
  down_from fuel q i n = (q', i') ->
  kept q q' /\ (forall k, (n <= k)%nat -> q' !! k = q !! k) /\
  (i' = i /\ q' = q /\ (forall k, (0 < k < n)%nat -> parent k = i -> ord q k) \/ (i < i')%nat /\ heap_from q' lo n).
Proof.
  revert q i. induction fuel as [|fuel IH]; intros q i Hn Hf Hlo Ha E; cbn [down_from] in E.
  { injection E as <- <-. split; [apply kept_refl|]. split; [done|]. left. split; [done|]. split; [done|].
    intros k Hk Hp. places k. lia. }
  destruct (Nat.leb_spec n (2 * i + 1)) as [Hle|Hgt].
  { injection E as <- <-. split; [apply kept_refl|]. split; [done|]. left. split; [done|]. split; [done|].
    intros k Hk Hp. places k. lia. }
  set (j := if _ && _ then _ else _) in E.
  assert ((0 < j < n)%nat /\ parent j = i /\ forall k, (0 < k < n)%nat -> parent k = i -> tm q j <= tm q k) as (Hj & Hpj & Hmin).
  { unfold j. destruct (Nat.ltb_spec (2 * i + 1 + 1) n) as [H2|H2]; cbn [andb].
    - rewrite Less_spec by lia. destruct (Z.ltb_spec (tm q (2 * i + 1 + 1)) (tm q (2 * i + 1))); (split; [lia|]).
      + places (2 * i + 1 + 1)%nat. split; [lia|]. intros k Hk Hp. places k.
        assert (k = 2 * i + 1 \/ k = 2 * i + 1 + 1)%nat as [->| ->] by lia; lia.
      + places (2 * i + 1)%nat. split; [lia|]. intros k Hk Hp. places k.
        assert (k = 2 * i + 1 \/ k = 2 * i + 1 + 1)%nat as [->| ->] by lia; lia.
    - split; [lia|]. places (2 * i + 1)%nat. split; [lia|]. intros k Hk Hp. places k.
      assert (k = 2 * i + 1)%nat as -> by lia. lia. }
  clearbody j. rewrite Less_spec in E by lia. destruct (Z.ltb_spec (tm q j) (tm q i)) as [Hlt|Hge]; cbn [negb] in E.
  - destruct (down_swap q lo n i j Hn Hlo Ha Hj Hpj Hmin Hlt) as [Ha' Hoj]. places j.
    destruct (IH (Swap q i j) j) as (Hk & Hsame & Hr); [by rewrite Swap_length|lia|lia|done|done|].
    split; [apply (kept_trans q (Swap q i j)); [apply kept_swap; lia|done]|]. split.
    + intros k Hkn. rewrite Hsame, Swap_lookup by lia. unfold swapped. rewrite !decide_False by lia.
      destruct (q !! k); [|done]. cbn. by rewrite decide_False by lia.
    + right. destruct Hr as [(-> & -> & Hc)|[Hij Hh]]; [|split; [lia|done]]. split; [lia|]. intros k Hk' Hlk.
      destruct (decide (k = j)) as [->|]; [done|]. destruct (decide (parent k = j)); [by apply Hc|]. by apply Ha'.
  - injection E as <- <-. split; [apply kept_refl|]. split; [done|]. left. split; [done|]. split; [done|].
    intros k Hk Hp. unfold ord. rewrite Hp. pose proof (Hmin k Hk Hp). lia.
Qed.

Lemma down_spec q lo i n : (n <= length q)%nat -> (lo <= i)%nat -> almost q lo n i ->
  exists q' moved, down q i n = (q', moved) /\ kept q q' /\ (forall k, (n <= k)%nat -> q' !! k = q !! k) /\
    if moved then heap_from q' lo n else q' = q /\ forall k, (0 < k < n)%nat -> parent k = i -> ord q k.
Proof.
  intros Hn Hlo Ha. unfold down. destruct (down_from n q i n) as [q' i'] eqn:E.
  destruct (down_from_spec n q lo i n q' i' Hn ltac:(lia) Hlo Ha E) as (Hk & Hs & Hr).
  exists q', (i <? i')%nat. split; [done|]. split; [done|]. split; [done|].
  destruct Hr as [(-> & -> & Hc)|[Hi Hh]]; [by rewrite Nat.ltb_irrefl|]. by rewrite (proj2 (Nat.ltb_lt _ _) Hi).
Qed.

(** The order may be broken between [j] and its parent. *)
Definition rising (q : LeaseQueue) (n j : nat) : Prop :=
  (forall k, (0 < k < n)%nat -> k <> j -> ord q k) /\
  ((0 < j)%nat -> forall k, (0 < k < n)%nat -> parent k = j -> tm q (parent j) <= tm q k).

Lemma up_swap q n j : (n <= length q)%nat -> (0 < j < n)%nat -> rising q n j -> tm q j < tm q (parent j) ->
  rising (Swap q (parent j) j) n (parent j).
Proof.
  intros Hn Hj [Ho Hg] Hlt. places j. set (i := parent j) in *. assert (i < length q /\ j < length q)%nat as [Hi' Hj'] by lia.
  split.
  - intros k Hk Hki. places k. unfold ord. rewrite !Swap_tm by done. unfold swapped.
    rewrite (decide_False (P := k = i)) by done. destruct (decide (k = j)) as [->|Hkj].
    + rewrite decide_True by done. lia.
    + destruct (decide (parent k = i)) as [Hpi|Hpi].
      * pose proof (Ho k Hk Hkj) as Hok. unfold ord in Hok. rewrite Hpi in Hok. lia.
      * destruct (decide (parent k = j)) as [Hpj|Hpj]; [apply Hg; [lia|done|done]|by apply Ho].
  - intros Hi k Hk Hpk. places k. places i. pose proof (Ho i ltac:(lia) ltac:(lia)) as Hoi. unfold ord in Hoi.
    rewrite !Swap_tm by done. unfold swapped. rewrite (decide_False (P := parent i = i)), (decide_False (P := parent i = j)) by lia.
    rewrite (decide_False (P := k = i)) by lia. destruct (decide (k = j)) as [->|Hkj]; [done|].
    pose proof (Ho k Hk Hkj) as Hok. unfold ord in Hok. rewrite Hpk in Hok. lia.
Qed.

Lemma up_from_spec fuel q n j : (n <= length q)%nat -> (j < n)%nat -> (j < fuel)%nat -> rising q n j ->
  kept q (up_from fuel q j) /\ heap (up_from fuel q j) n.
Proof.
  revert q j. induction fuel as [|fuel IH]; intros q j Hn Hj Hf Hr; [lia|]. cbn [up_from]. fold (parent j).
  assert (ord q j -> heap q n) as Hstop.
  { intros Hoj k Hk. destruct (decide (k = j)) as [->|]; [done|]. by apply Hr. }
  destruct (decide (j = 0)%nat) as [->|Hj0].
  { cbn [Nat.eqb parent Nat.sub Nat.div2 orb]. split; [apply kept_refl|]. intros k Hk. apply Hr; lia. }
  places j. rewrite (proj2 (Nat.eqb_neq (parent j) j)) by lia. rewrite Less_spec by lia. cbn [orb].
  destruct (Z.ltb_spec (tm q j) (tm q (parent j))) as [Hlt|Hge]; cbn [negb].
  - destruct (IH (Swap q (parent j) j) (parent j)) as [Hk Hh]; [by rewrite Swap_length|lia|lia|by apply up_swap; [|lia|..]|].
    split; [|done]. apply (kept_trans q (Swap q (parent j) j)); [apply kept_swap; lia|done].
  - split; [apply kept_refl|]. by apply Hstop.
Qed.

Lemma up_spec q n j : (n <= length q)%nat -> (j < n)%nat -> rising q n j -> kept q (up q j) /\ heap (up q j) n.
Proof. intros Hn Hj Hr. by apply up_from_spec; [| |lia|]. Qed.

(** ** The operations *)

Lemma heap_Push_spec q x : indexed q -> heap q (length q) ->
  let q' := heap_Push q x in map core q' ≡ₚ core x :: map core q /\ indexed q' /\ heap q' (length q').
Proof.
  intros Hi Hh. cbv zeta. unfold heap_Push. set (q1 := q ++ _).
  assert (forall k, (k < length q)%nat -> tm q1 k = tm q k) as Ht.
  { intros k Hk. unfold tm, q1. by rewrite lookup_app_l. }
  destruct (up_spec q1 (S (length q)) (length q)) as [Hk Hheap].
  - unfold q1. rewrite length_app. cbn. lia.
  - lia.
  - split.
    + intros k Hk Hne. places k. unfold ord. rewrite !Ht by lia. apply Hh. lia.
    + intros _ k Hk Hp. places k. lia.
  - split; [|split].
    + rewrite (k_core _ _ Hk). unfold q1. rewrite map_app. cbn. symmetry. apply Permutation_cons_append.
    + apply (k_indexed _ _ Hk). intros k y Hy. unfold q1 in Hy. apply lookup_app_Some in Hy as [Hy|[Hle Hy]]; [by apply Hi|].
      apply list_lookup_singleton_Some in Hy as [Hz <-]. cbn. lia.
    + rewrite (kept_length _ _ Hk). unfold q1. rewrite length_app. cbn. by rewrite Nat.add_1_r.
Qed.

(** Nothing is before the first item. *)
Lemma heap_head q n k : heap q n -> (k < n)%nat -> tm q 0 <= tm q k.
Proof.
  intros Hh. induction k as [k IH] using lt_wf_ind. intros Hk. destruct (decide (k = 0)%nat) as [->|]; [lia|].
  places k. specialize (IH (parent k) ltac:(lia) ltac:(lia)). pose proof (Hh k ltac:(lia)) as Ho. unfold ord in Ho. lia.
Qed.

Lemma heap_Pop_spec q x q0 : indexed q -> heap q (length q) -> q = x :: q0 ->
  exists q', heap_Pop q = Ret (q', with_index x (-1)) /\ map core q' ≡ₚ map core q0 /\ indexed q' /\ heap q' (length q').
Proof.
  intros Hi Hh Eq. unfold heap_Pop. set (n := (length q - 1)%nat). assert (n < length q /\ 0 < length q)%nat as [Hn Hl] by (subst q; cbn in *; lia).
  assert (almost (Swap q 0 n) 0 n 0) as Ha.
  { split; [|lia]. intros k Hk _ Hk0 Hp. places k. unfold ord. rewrite !Swap_tm by done. unfold swapped.
    rewrite !decide_False by lia. apply Hh. lia. }
  destruct (down_spec (Swap q 0 n) 0 0 n) as (q' & moved & E & Hk & Hsame & Hr); [rewrite Swap_length; lia|done|done|].
  rewrite E. cbn [fst]. assert (q' !! n = Some (with_index x (Z.of_nat n))) as Hx.
  { rewrite Hsame, Swap_lookup by lia. unfold swapped. destruct (decide (n = 0)%nat) as [Hn0|].
    - rewrite Hn0, Eq. cbn. done.
    - rewrite decide_True by done. rewrite Eq. cbn. by rewrite decide_True by tauto. }
  rewrite Hx. exists (take n q'). split; [done|]. pose proof (kept_length _ _ Hk) as Hlen. rewrite Swap_length in Hlen.
  assert (q' = take n q' ++ [with_index x (Z.of_nat n)]) as Eq'.
  { rewrite <- (take_drop n q') at 1. f_equal. rewrite (drop_S _ _ _ Hx), drop_ge by lia. done. }
  assert (length (take n q') = n) as Htk by (rewrite length_take; lia). split; [|split].
  - pose proof (k_core _ _ Hk) as Hc. rewrite Swap_core, Eq, Eq', map_app in Hc. cbn in Hc.
    rewrite <- Permutation_cons_append in Hc. by apply Permutation_cons_inv in Hc.
  - assert (indexed q') as Hi' by (apply (k_indexed _ _ Hk), Swap_indexed; [lia|lia|done]).
    intros k y Hy. apply Hi'. rewrite Eq'. by apply lookup_app_l_Some.
  - rewrite Htk. assert (heap q' n) as Hh'.
    { destruct moved; [intros k Hkn; apply Hr; lia|]. destruct Hr as [-> Hc]. intros k Hkn.
      destruct (decide (parent k = 0)%nat); [by apply Hc|]. apply Ha; lia. }
    intros k Hkn. places k. specialize (Hh' k Hkn). unfold ord, tm in *.
    by rewrite !lookup_take_lt by lia.
Qed.

Lemma heap_Fix_spec q k : (k < length q)%nat -> almost q 0 (length q) k ->
  exists q', heap_Fix q (Z.of_nat k) = Ret q' /\ kept q q' /\ heap q' (length q').
Proof.
  intros Hk Ha. unfold heap_Fix. rewrite (proj2 (Z.ltb_ge _ _)), (proj2 (Z.leb_gt _ _)), Nat2Z.id by lia. cbn [orb].
  destruct (down_spec q 0 k (length q)) as (q' & moved & E & Hkp & _ & Hr); [lia|lia|done|]. rewrite E.
  destruct moved.
  - exists q'. split; [done|]. split; [done|]. rewrite (kept_length _ _ Hkp). intros i Hi. apply Hr; lia.
  - destruct Hr as [-> Hc]. destruct (up_spec q (length q) k) as [Hup Hh]; [lia|done| |].
    + split.
      * intros i Hi Hne. destruct (decide (parent i = k)); [by apply Hc|]. apply Ha; [done|lia|done|done].
      * intros H0 i Hi Hp. apply Ha; [done|lia|done|done].
    + exists (up q k). split; [done|]. split; [done|]. by rewrite (kept_length _ _ Hup).
Qed.

Lemma init_from_spec i q : (2 * i <= length q)%nat -> heap_from q i (length q) ->
  kept q (init_from q i) /\ heap (init_from q i) (length q).
Proof.
  revert q. induction i as [|i IH]; intros q Hi Hh; cbn [init_from].
  { split; [apply kept_refl|]. intros k Hk. apply Hh; lia. }
  destruct (down_spec q i i (length q)) as (q' & moved & E & Hk & _ & Hr); [lia|lia| |].
  { split; [intros k Hkl Hlo Hki Hp; apply Hh; lia|]. intros H0 Hlo. places i. lia. }
  rewrite E. cbn [fst]. pose proof (kept_length _ _ Hk) as Hlen. rewrite <- Hlen.
  destruct (IH q') as [Hk' Hh']; [lia| |split; [by apply (kept_trans q q')|done]].
  rewrite Hlen. destruct moved; [done|]. destruct Hr as [-> Hc]. intros k Hkl Hlo.
  destruct (decide (parent k = i)); [by apply Hc|]. apply Hh; lia.
Qed.

Lemma heap_Init_spec q : kept q (heap_Init q) /\ heap (heap_Init q) (length q).
Proof.
  pose proof (Nat.div2_odd (length q)) as Hd. apply init_from_spec.
  - destruct (Nat.odd (length q)); cbn [Nat.b2n] in Hd; lia.
  - intros k Hk Hlo. places k. destruct (Nat.odd (length q)); cbn [Nat.b2n] in Hd; lia.
Qed.

(** ** The notifier as a map from leases to times *)

Record nrep (mq : LeaseExpiredNotifier) (times : gmap Z Z) : Prop := {
  n_items : map core (queue mq) ≡ₚ map_to_list times;
  n_indexed : indexed (queue mq);
  n_heap : heap (queue mq) (length (queue mq));
  n_m : m mq = dom times
}.

Lemma new_nrep : nrep newLeaseExpiredNotifier ∅.
Proof. split; [done|by intros k x|intros k Hk; cbn in Hk; lia|by rewrite dom_empty_L]. Qed.

Lemma elem_core q x : x ∈ q -> core x ∈ map core q.
Proof. intros Hx. apply list_elem_of_fmap. eauto. Qed.

Lemma nrep_elem mq times id t : nrep mq times ->
  times !! id = Some t <-> exists x, x ∈ queue mq /\ core x = (id, t).
Proof.
  intros [Hi _ _ _]. rewrite <- elem_of_map_to_list, <- Hi. split.
  - intros (x & -> & Hx)%list_elem_of_fmap. eauto.
  - intros (x & Hx & <-). by apply elem_core.
Qed.

Lemma nrep_ids mq times : nrep mq times -> NoDup (map lt_id (queue mq)).
Proof.
  intros [Hi _ _ _]. pose proof (NoDup_fst_map_to_list times) as Hn. rewrite <- Hi in Hn.
  by rewrite <- list_fmap_compose in Hn.
Qed.

(** A new time at one place. *)
Lemma retime_insert q id t k x : NoDup (map lt_id q) -> q !! k = Some x -> lt_id x = id ->
  retime q id t = <[k := with_time x t]> q.
Proof.
  intros Hn Hx Hid. apply list_eq. intros i. unfold retime. change (map ?f q) with (f <$> q). rewrite list_lookup_fmap.
  destruct (decide (i = k)) as [->|Hik].
  - rewrite Hx, list_lookup_insert_eq by (by eapply lookup_lt_Some). cbn. by rewrite Hid, Z.eqb_refl.
  - rewrite list_lookup_insert_ne by done. destruct (q !! i) as [y|] eqn:Hy; [|done]. cbn.
    destruct (Z.eqb_spec (lt_id y) id) as [Hy'|]; [|done]. destruct Hik. eapply (NoDup_lookup (map lt_id q)); [done| |].
    + change (map lt_id q) with (lt_id <$> q). by rewrite list_lookup_fmap, Hy.
    + change (map lt_id q) with (lt_id <$> q). rewrite list_lookup_fmap, Hx. cbn. congruence.
Qed.

Lemma insert_almost q k x t : q !! k = Some x -> heap q (length q) -> almost (<[k := with_time x t]> q) 0 (length q) k.
Proof.
  intros Hx Hh. pose proof (lookup_lt_Some _ _ _ Hx) as Hk.
  assert (forall i, i <> k -> tm (<[k := with_time x t]> q) i = tm q i) as Ht.
  { intros i Hi. unfold tm. by rewrite list_lookup_insert_ne. }
  split.
  - intros i Hi _ Hik Hp. unfold ord. rewrite !Ht by done. by apply Hh.
  - intros H0 _ i Hi Hp. places i. places k. rewrite !Ht by lia. pose proof (Hh k ltac:(lia)) as Hok. pose proof (Hh i Hi) as Hoi.
    unfold ord in *. rewrite Hp in Hoi. lia.
Qed.

Lemma retime_items mq times k x t : nrep mq times -> queue mq !! k = Some x ->
  map core (<[k := with_time x t]> (queue mq)) ≡ₚ map_to_list (<[lt_id x := t]> times).
Proof.
  intros Hr Hk. change (map core ?q) with (core <$> q). rewrite list_fmap_insert.
  assert (times !! lt_id x = Some (lt_time x)) as Ht.
  { apply (nrep_elem _ _ _ _ Hr). exists x. split; [by eapply list_elem_of_lookup_2|done]. }
  pose proof (n_items _ _ Hr) as Hp. change (map core (queue mq)) with (core <$> queue mq) in Hp.
  rewrite <- (take_drop_middle (core <$> queue mq) k (core x)) in Hp by (by rewrite list_lookup_fmap, Hk).
  rewrite <- Permutation_middle, <- (map_to_list_delete times _ _ Ht) in Hp. apply Permutation_cons_inv in Hp.
  rewrite insert_take_drop by (rewrite length_fmap; by eapply lookup_lt_Some).
  rewrite <- Permutation_middle, <- insert_delete_eq, map_to_list_insert by apply lookup_delete_eq. by constructor.
Qed.

Lemma RegisterOrUpdate_spec mq times id t : nrep mq times ->
  exists mq', RegisterOrUpdate mq id t = Ret mq' /\ nrep mq' (<[id := t]> times).
Proof.
  intros Hr. pose proof (nrep_ids _ _ Hr) as Hnd. pose proof Hr as [Hi Hx Hh Hm]. unfold RegisterOrUpdate. rewrite Hm.
  case_bool_decide as Hin.
  - apply elem_of_dom in Hin as [t0 Ht0]. pose proof Ht0 as Hel. apply (nrep_elem _ _ _ _ Hr) in Hel as (x & Hel & Ex).
    destruct (item_of (queue mq) id) as [old|] eqn:Eo; cycle 1.
    { apply list_elem_of_In in Hel. apply (find_none _ _ Eo) in Hel. injection Ex as Hid _. apply Z.eqb_neq in Hel. congruence. }
    apply find_some in Eo as [Hold Eid%Z.eqb_eq]. apply list_elem_of_In, list_elem_of_lookup in Hold as [k Hk].
    rewrite (Hx k old Hk), (retime_insert _ _ _ k old Hnd Hk Eid).
    pose proof (lookup_lt_Some _ _ _ Hk) as Hkl.
    destruct (heap_Fix_spec (<[k := with_time old t]> (queue mq)) k) as (q' & E & Hkp & Hh').
    { by rewrite length_insert. }
    { rewrite length_insert. by apply insert_almost. }
    rewrite E, ret_bind. eexists. split; [reflexivity|]. split; cbn [queue m].
    + rewrite (k_core _ _ Hkp), <- Eid. by apply retime_items.
    + apply (k_indexed _ _ Hkp). intros i y Hy. apply list_lookup_insert_Some in Hy as [(<- & <- & _)|[_ Hy]]; [by apply (Hx k old)|by apply Hx].
    + done.
    + rewrite dom_insert_L. apply elem_of_dom_2 in Ht0. set_solver.
  - destruct (heap_Push_spec (queue mq) (MkLWT id t 0) Hx Hh) as (Hc & Hx' & Hh'). eexists. split; [reflexivity|].
    split; cbn [queue m]; [|done|done|by rewrite dom_insert_L].
    rewrite Hc, Hi. apply not_elem_of_dom in Hin. by rewrite map_to_list_insert.
Qed.

(** The map is empty, or the first item of the queue is the earliest of it. *)
Lemma nrep_head mq times : nrep mq times ->
  match queue mq with
  | [] => times = ∅
  | x :: _ => times !! lt_id x = Some (lt_time x) /\ forall id t, times !! id = Some t -> lt_time x <= t
  end.
Proof.
  intros Hr. pose proof Hr as [Hi _ Hh _]. destruct (queue mq) as [|x q] eqn:Eq.
  - apply map_to_list_empty_iff. symmetry in Hi. by apply Permutation_nil_r in Hi.
  - split.
    + apply (nrep_elem _ _ _ _ Hr). exists x. rewrite Eq. split; [by left|done].
    + intros id t Ht. apply (nrep_elem _ _ _ _ Hr) in Ht as (y & Hy & [= _ <-]). rewrite Eq in Hy.
      apply list_elem_of_lookup in Hy as [k Hk]. pose proof (heap_head (x :: q) _ k Hh (lookup_lt_Some _ _ _ Hk)) as Hle.
      by rewrite (tm_lookup _ k y Hk) in Hle.
Qed.

Lemma Peek_spec mq times : nrep mq times ->
  match queue mq with
  | [] => empty mq = true
  | x :: _ => empty mq = false /\ Peek mq = Ret (Some x)
  end.
Proof.
  intros Hr. pose proof (nrep_head _ _ Hr) as Hh. unfold Peek, empty. rewrite (n_m _ _ Hr).
  destruct (queue mq) as [|x q] eqn:Eq.
  - rewrite Hh. apply bool_decide_eq_true. apply dom_empty_L.
  - assert (bool_decide (dom times = ∅) = false) as ->; [|done]. apply bool_decide_eq_false.
    destruct Hh as [Hx _]. apply elem_of_dom_2 in Hx. set_solver.
Qed.

Lemma Unregister_spec mq times x q : nrep mq times -> queue mq = x :: q ->
  exists mq', Unregister mq = Ret (mq', with_index x (-1)) /\ nrep mq' (delete (lt_id x) times).
Proof.
  intros Hr Eq. pose proof (nrep_head _ _ Hr) as Hh. rewrite Eq in Hh. destruct Hh as [Ht _]. pose proof Hr as [Hi Hx Hheap Hm].
  destruct (heap_Pop_spec (queue mq) x q Hx Hheap Eq) as (q' & E & Hc & Hx' & Hh').
  unfold Unregister. rewrite E, ret_bind. eexists. split; [reflexivity|]. split; cbn [queue m lt_id with_index]; [|done|done|].
  - rewrite Hc. rewrite Eq in Hi. cbn [map] in Hi. rewrite <- (map_to_list_delete times _ _ Ht) in Hi.
    by apply Permutation_cons_inv in Hi.
  - rewrite Hm. by rewrite dom_delete_L.
Qed.

Lemma Init_spec mq times : nrep mq times -> nrep (Init mq) times.
Proof.
  intros [Hi Hx Hh Hm]. destruct (heap_Init_spec (queue mq)) as [Hk Hh']. split; cbn [Init queue m].
  - by rewrite (k_core _ _ Hk).
  - by apply (k_indexed _ _ Hk).
  - by rewrite (kept_length _ _ Hk).
  - apply set_eq. intros id. rewrite elem_of_list_to_set, elem_of_dom.
    assert (map lt_id (heap_Init (queue mq)) ≡ₚ (map_to_list times).*1) as ->.
    { rewrite <- Hi, <- (k_core _ _ Hk), <- list_fmap_compose. done. }
    split.
    + intros ([i t] & -> & Hin)%list_elem_of_fmap. apply elem_of_map_to_list in Hin. by exists t.
    + intros [t Ht]. apply list_elem_of_fmap. exists (id, t). split; [done|]. by apply elem_of_map_to_list.
Qed.

End leaseQueue.
