(* ===== verification/Lease.v ===== *)
(** * server/lease: lease.go, lessor.go, and storage/schema/lease.go

    Leases, the keys that are attached to them, and the lessor, which reports
    the leases that have expired and asks for checkpoints of those that live
    long.  A time is in nanoseconds since the epoch; the clock is an argument
    and stands still during a call that holds the lock.  Where a call goes
    through a map, or through what an unstable sort leaves, the order is an
    argument as well.  [Revoke] needs the store, and is in [KvLease]. *)

From S2P Require Import Prelude Errors Utils BoltApi TxBuffer Backend LeasePb LeaseQueue.
From Stdlib Require Import SpecFloat.

Module lease.
Import leaseQueue.

Definition NoLease : Z := 0.
Definition MaxLeaseTTL : Z := 9000000000.

Definition defaultLeaseRevokeRate : Z := 1000.
Definition leaseCheckpointRate : nat := 1000.
Definition defaultLeaseCheckpointInterval : Z := 300 * 10 ^ 9.
Definition maxLeaseCheckpointBatchSize : nat := 1000.
Definition defaultExpiredleaseRetryInterval : Z := 3 * 10 ^ 9.

Definition ErrNotPrimary : error := OtherError "not a primary lessor".
Definition ErrLeaseNotFound : error := OtherError "lease not found".
Definition ErrLeaseExists : error := OtherError "lease already exists".
Definition ErrLeaseTTLTooLarge : error := OtherError "too large lease TTL".

(** ** Durations and floats *)

Definition Second : Z := 10 ^ 9.

Definition MinInt64 : Z := - 2 ^ 63.

(** The zero time, the first of January of the year 1. *)
Definition forever : Z := - 62135596800 * 10 ^ 9.

(** [Time.Sub] of two times saturates. *)
Definition time_Sub (t u : Z) : Z := Z.max MinInt64 (Z.min backend.MaxInt64 (t - u)).

(** [float64]: the binary format of 64 bits. *)
Definition float64 (z : Z) : spec_float := binary_normalize 53 1024 z 0 false.
Definition fadd : spec_float -> spec_float -> spec_float := SFadd 53 1024.
Definition fsub : spec_float -> spec_float -> spec_float := SFsub 53 1024.
Definition fmul : spec_float -> spec_float -> spec_float := SFmul 53 1024.
Definition fdiv : spec_float -> spec_float -> spec_float := SFdiv 53 1024.

(** The conversion to [int64] of the value rounded to an integer by [round],
    which is given the value as a fraction; what does not fit gives the
    smallest integer, as on amd64. *)
Definition to_int64 (round : Z -> Z -> Z) (f : spec_float) : Z :=
  match f with
  | S754_zero _ => 0
  | S754_finite s m e =>
      let n := (if s then -1 else 1) * Z.pos m * 2 ^ Z.max 0 e in
      let v := round n (2 ^ Z.max 0 (- e)) in
      if (MinInt64 <=? v) && (v <=? backend.MaxInt64) then v else MinInt64
  | _ => MinInt64
  end.

Definition trunc : spec_float -> Z := to_int64 Z.quot.
Definition ceil : spec_float -> Z := to_int64 (fun n d => - ((- n) / d)).

Definition Seconds (d : Z) : spec_float :=
  fadd (float64 (Z.quot d Second)) (fdiv (float64 (Z.rem d Second)) (float64 Second)).

(** ** lease.go *)

(** [revokec] when it is closed. *)
Record Lease := MkLease {
  ID : Z;
  ttl : Z;
  remainingTTL : Z;
  expiry : Z;
  itemSet : gset string;
  revokec : bool
}.

Definition NewLease (id ttl : Z) : Lease := MkLease id ttl 0 forever ∅ false.

Definition with_expiry (l : Lease) (t : Z) : Lease :=
  MkLease (ID l) (ttl l) (remainingTTL l) t (itemSet l) (revokec l).

Definition with_items (l : Lease) (items : gset string) : Lease :=
  MkLease (ID l) (ttl l) (remainingTTL l) (expiry l) items (revokec l).

Definition with_remaining (l : Lease) (rt : Z) : Lease :=
  MkLease (ID l) (ttl l) rt (expiry l) (itemSet l) (revokec l).

Definition Remaining (now : Z) (l : Lease) : Z :=
  if expiry l =? forever then backend.MaxInt64 else time_Sub (expiry l) now.

Definition expired (now : Z) (l : Lease) : bool := Remaining now l <=? 0.

Definition getRemainingTTL (l : Lease) : Z := if 0 <? remainingTTL l then remainingTTL l else ttl l.

Definition refresh (now : Z) (l : Lease) (extend : Z) : Lease :=
  with_expiry l (now + i64 (extend + i64 (getRemainingTTL l * Second))).

Definition Demoted (l : Lease) : bool := expiry l =? forever.

(** ** schema/lease.go *)

Section Disk.
Context `{BoltLib} (hook : backend.backend -> outcome backend.backend).

Definition leaseIDToBytes (n : Z) : bytes := Uint64ToBytes (u64 n).

Fixpoint unmarshal_all (l : list kvp) : outcome (list leasepb.Lease) :=
  match l with
  | [] => Ret []
  | x :: l =>
      match leasepb.Lease_Unmarshal (snd x) with
      | inl _ => Panic "failed to Unmarshal lease proto item"
      | inr lpb => ls ← unmarshal_all l; Ret (lpb :: ls)
      end
  end.

Definition MustUnsafeGetAllLeases (b : backend.backend) : outcome (list leasepb.Lease) :=
  l ← backend.b_UnsafeForEach b schema.Lease; unmarshal_all l.

Definition MustUnsafePutLease (b : backend.backend) (lpb : leasepb.Lease) : outcome backend.backend :=
  backend.UnsafePut b schema.Lease (leaseIDToBytes (leasepb.ID lpb)) (leasepb.Lease_Marshal lpb).

Definition UnsafeDeleteLease (b : backend.backend) (id : Z) : outcome backend.backend :=
  backend.UnsafeDelete b schema.Lease (leaseIDToBytes id).

Definition persistTo (b : backend.backend) (l : Lease) : outcome backend.backend :=
  b ← MustUnsafePutLease b (leasepb.MkLease (ID l) (ttl l) (remainingTTL l) []);
  backend.Unlock hook b.

End Disk.

(** ** lessor.go *)

(** [primary] when [demotec] is set; [rd] and [cp] when there are a range
    deleter and a checkpointer. *)
Record lessor := MkLessor {
  primary : bool;
  leaseMap : gmap Z Lease;
  leaseExpiredNotifier : LeaseExpiredNotifier;
  leaseCheckpointHeap : LeaseQueue;
  itemMap : gmap string Z;
  rd : bool;
  cp : bool;
  minLeaseTTL : Z;
  leaseRevokeRate : Z;
  expiredC : list (list Lease);
  checkpointInterval : Z;
  expiredLeaseRetryInterval : Z;
  checkpointPersist : bool
}.

Definition with_maps (le : lessor) (ls : gmap Z Lease) (items : gmap string Z) : lessor :=
  MkLessor (primary le) ls (leaseExpiredNotifier le) (leaseCheckpointHeap le) items (rd le) (cp le)
    (minLeaseTTL le) (leaseRevokeRate le) (expiredC le) (checkpointInterval le) (expiredLeaseRetryInterval le)
    (checkpointPersist le).

Definition with_lease (le : lessor) (id : Z) (l : Lease) : lessor :=
  with_maps le (<[id := l]> (leaseMap le)) (itemMap le).

Definition with_queues (le : lessor) (n : LeaseExpiredNotifier) (h : LeaseQueue) : lessor :=
  MkLessor (primary le) (leaseMap le) n h (itemMap le) (rd le) (cp le)
    (minLeaseTTL le) (leaseRevokeRate le) (expiredC le) (checkpointInterval le) (expiredLeaseRetryInterval le)
    (checkpointPersist le).

Definition with_primary (le : lessor) (p : bool) : lessor :=
  MkLessor p (leaseMap le) (leaseExpiredNotifier le) (leaseCheckpointHeap le) (itemMap le) (rd le) (cp le)
    (minLeaseTTL le) (leaseRevokeRate le) (expiredC le) (checkpointInterval le) (expiredLeaseRetryInterval le)
    (checkpointPersist le).

Definition with_hooks (le : lessor) (rd cp : bool) : lessor :=
  MkLessor (primary le) (leaseMap le) (leaseExpiredNotifier le) (leaseCheckpointHeap le) (itemMap le) rd cp
    (minLeaseTTL le) (leaseRevokeRate le) (expiredC le) (checkpointInterval le) (expiredLeaseRetryInterval le)
    (checkpointPersist le).

Definition with_expiredC (le : lessor) (c : list (list Lease)) : lessor :=
  MkLessor (primary le) (leaseMap le) (leaseExpiredNotifier le) (leaseCheckpointHeap le) (itemMap le) (rd le) (cp le)
    (minLeaseTTL le) (leaseRevokeRate le) c (checkpointInterval le) (expiredLeaseRetryInterval le)
    (checkpointPersist le).

Definition SetRangeDeleter (le : lessor) : lessor := with_hooks le true (cp le).
Definition SetCheckpointer (le : lessor) : lessor := with_hooks le (rd le) true.

Definition scheduleCheckpointIfNeeded (now : Z) (le : lessor) (l : Lease) : lessor :=
  if negb (cp le) then le
  else if trunc (Seconds (checkpointInterval le)) <? getRemainingTTL l
  then with_queues le (leaseExpiredNotifier le)
         (heap_Push (leaseCheckpointHeap le) (MkLWT (ID l) (now + checkpointInterval le) 0))
  else le.

(** The lease is entered into the queue of expiries. *)
Definition register (le : lessor) (l : Lease) : outcome lessor :=
  n ← RegisterOrUpdate (leaseExpiredNotifier le) (ID l) (expiry l);
  Ret (with_queues le n (leaseCheckpointHeap le)).

(** What [Grant] does in memory. *)
Definition grant (now : Z) (le : lessor) (id ttl : Z) : outcome (lessor * result Lease) :=
  if id =? NoLease then Ret (le, inl ErrLeaseNotFound)
  else if MaxLeaseTTL <? ttl then Ret (le, inl ErrLeaseTTLTooLarge)
  else if bool_decide (is_Some (leaseMap le !! id)) then Ret (le, inl ErrLeaseExists)
  else
    let l := NewLease id (Z.max ttl (minLeaseTTL le)) in
    let l := if primary le then refresh now l 0 else l in
    let le := with_lease le id l in
    le ← (if primary le then le ← register le l; Ret (scheduleCheckpointIfNeeded now le l) else Ret le);
    Ret (le, inr l).

Definition Grant `{BoltLib} (hook : backend.backend -> outcome backend.backend) (now : Z) (le : lessor)
    (b : backend.backend) (id ttl : Z) : outcome (lessor * backend.backend * result Lease) :=
  '(le, r) ← grant now le id ttl;
  b ← match r with inl _ => Ret b | inr l => persistTo hook b l end;
  Ret (le, b, r).

(** What [Checkpoint] does in memory. *)
Definition checkpoint (now : Z) (le : lessor) (id rt : Z) : lessor :=
  match leaseMap le !! id with
  | None => le
  | Some l =>
      let l := with_remaining l rt in
      let le := with_lease le id l in
      if primary le then scheduleCheckpointIfNeeded now le l else le
  end.

(** [v36] when the version of the cluster is 3.6 or later. *)
Definition shouldPersistCheckpoints (le : lessor) (v36 : bool) : bool := checkpointPersist le || v36.

Definition Checkpoint `{BoltLib} (hook : backend.backend -> outcome backend.backend) (v36 : bool) (now : Z)
    (le : lessor) (b : backend.backend) (id rt : Z) : outcome (lessor * backend.backend) :=
  b ← match leaseMap le !! id with
      | Some l => if shouldPersistCheckpoints le v36 then persistTo hook b (with_remaining l rt) else Ret b
      | None => Ret b
      end;
  Ret (checkpoint now le id rt, b).

(** What wakes a caller that waits for an expired lease. *)
Inductive wake : Type := WRevoked | WDemoted | WStopped.

(** [Renew] up to the call of the checkpointer: whether it is to be called. *)
Definition renew_first (now : Z) (le : lessor) (id : Z) (w : wake) : result bool :=
  if negb (primary le) then inl ErrNotPrimary
  else match leaseMap le !! id with
  | None => inl ErrLeaseNotFound
  | Some l =>
      if expired now l then inl (match w with WRevoked => ErrLeaseNotFound | _ => ErrNotPrimary end)
      else inr (cp le && (0 <? remainingTTL l))
  end.

(** [Renew] from where it takes the lock again. *)
Definition renew_last (now : Z) (le : lessor) (id : Z) : outcome (lessor * result Z) :=
  match leaseMap le !! id with
  | None => Ret (le, inl ErrLeaseNotFound)
  | Some l =>
      let l := refresh now l 0 in
      le ← register (with_lease le id l) l;
      Ret (le, inr (ttl l))
  end.

(** [le'] is the lessor after what happened in between, and [cpr] what the
    checkpointer answered. *)
Definition Renew (now : Z) (le : lessor) (id : Z) (w : wake) (cpr : option error) (now' : Z) (le' : lessor)
    : outcome (lessor * result Z) :=
  match renew_first now le id w with
  | inl err => Ret (le', inl err)
  | inr clear =>
      match clear, cpr with
      | true, Some err => Ret (le', inl err)
      | _, _ => renew_last now' le' id
      end
  end.

Definition Lookup (le : lessor) (id : Z) : option Lease := leaseMap le !! id.

Definition Attach (le : lessor) (id : Z) (items : list string) : lessor * option error :=
  match leaseMap le !! id with
  | None => (le, Some ErrLeaseNotFound)
  | Some l =>
      (with_maps le (<[id := with_items l (list_to_set items ∪ itemSet l)]> (leaseMap le))
         (fold_left (fun m it => <[it := id]> m) items (itemMap le)), None)
  end.

Definition GetLease (le : lessor) (item : string) : Z := default NoLease (itemMap le !! item).

Definition Detach (le : lessor) (id : Z) (items : list string) : lessor * option error :=
  match leaseMap le !! id with
  | None => (le, Some ErrLeaseNotFound)
  | Some l =>
      (with_maps le (<[id := with_items l (itemSet l ∖ list_to_set items)]> (leaseMap le))
         (fold_left (fun m it => delete it m) items (itemMap le)), None)
  end.

(** ** Promotion *)

(** The body of the loops of [Promote] for a lease. *)
Definition promote_one (now extend : Z) (le : lessor) (id : Z) : outcome lessor :=
  match leaseMap le !! id with
  | None => Ret le
  | Some l =>
      let l := refresh now l extend in
      le ← register (with_lease le id l) l;
      Ret (scheduleCheckpointIfNeeded now le l)
  end.

Fixpoint promote_all (now extend : Z) (le : lessor) (ids : list Z) : outcome lessor :=
  match ids with
  | [] => Ret le
  | id :: ids => le ← promote_one now extend le id; promote_all now extend le ids
  end.

Definition rateDelay (expires target remaining baseWindow : Z) : Z :=
  trunc (fsub (fmul (float64 Second) (fdiv (float64 expires) (float64 target)))
              (float64 (i64 (remaining - baseWindow)))).

(** The loop that spreads leases that would expire together. *)
Fixpoint spread (now extend target : Z) (le : lessor) (baseWindow nextWindow expires : Z) (ids : list Z)
    : outcome lessor :=
  match ids with
  | [] => Ret le
  | id :: ids =>
      let remaining := match leaseMap le !! id with Some l => Remaining now l | None => 0 end in
      if nextWindow <? remaining then spread now extend target le remaining (i64 (remaining + Second)) 1 ids
      else
        let expires := expires + 1 in
        if expires <=? target then spread now extend target le baseWindow nextWindow expires ids
        else
          let delay := rateDelay expires target remaining baseWindow in
          le ← promote_one now (i64 (delay + extend)) le id;
          spread now extend target le baseWindow (i64 (baseWindow + delay)) expires ids
  end.

(** [order] is the order in which the map is gone through, and [sorted] that in
    which [sort.Sort] leaves the leases. *)
Definition Promote (now extend : Z) (order sorted : list Z) (le : lessor) : outcome lessor :=
  le ← promote_all now extend (with_primary le true) order;
  if Z.of_nat (length order) <? leaseRevokeRate le then Ret le
  else match sorted with
  | [] => Panic "runtime error: index out of range"
  | id :: _ =>
      let baseWindow := match leaseMap le !! id with Some l => Remaining now l | None => 0 end in
      spread now extend (Z.quot (3 * leaseRevokeRate le) 4) le baseWindow (i64 (baseWindow + Second)) 0 sorted
  end.

Definition Demote (le : lessor) : lessor :=
  with_primary
    (with_queues (with_maps le ((fun l => with_expiry l forever) <$> leaseMap le) (itemMap le))
       newLeaseExpiredNotifier []) false.

(** ** Expired leases *)

(** The lease that is due, and whether there may be another one. *)
Definition expireExists (now : Z) (le : lessor) : outcome (lessor * option Lease * bool) :=
  if empty (leaseExpiredNotifier le) then Ret (le, None, false)
  else
    item ← Peek (leaseExpiredNotifier le);
    match item with
    | None => Panic "runtime error: invalid memory address or nil pointer dereference"
    | Some item =>
        match leaseMap le !! lt_id item with
        | None =>
            '(n, _) ← Unregister (leaseExpiredNotifier le);
            Ret (with_queues le n (leaseCheckpointHeap le), None, true)
        | Some l =>
            if now <? lt_time item then Ret (le, None, false)
            else
              n ← RegisterOrUpdate (leaseExpiredNotifier le) (lt_id item) (now + expiredLeaseRetryInterval le);
              Ret (with_queues le n (leaseCheckpointHeap le), Some l, false)
        end
    end.

(** The loop of [findExpiredLeases]; [fuel] bounds its rounds. *)
Fixpoint find_expired (fuel : nat) (now : Z) (limit : Z) (le : lessor) (leases : list Lease)
    : outcome (lessor * list Lease) :=
  match fuel with
  | O => Hang
  | S fuel =>
      '(le, l, next) ← expireExists now le;
      match l, next with
      | None, false => Ret (le, leases)
      | _, true => find_expired fuel now limit le leases
      | Some l, false =>
          if expired now l then
            let leases := leases ++ [l] in
            if Z.of_nat (length leases) =? limit then Ret (le, leases)
            else find_expired fuel now limit le leases
          else find_expired fuel now limit le leases
      end
  end.

(** Every round takes an item out of the queue, or one that is due out of those
    that are due. *)
Definition findExpiredLeases (now limit : Z) (le : lessor) : outcome (lessor * list Lease) :=
  find_expired (S (length (queue (leaseExpiredNotifier le)))) now limit le [].

(** The channel holds sixteen lists; what does not fit is found again. *)
Definition revokeExpiredLeases (now : Z) (le : lessor) : outcome lessor :=
  if negb (primary le) then Ret le
  else
    '(le, ls) ← findExpiredLeases now (Z.quot (leaseRevokeRate le) 2) le;
    Ret (match ls with
         | [] => le
         | _ => if (length (expiredC le) <? 16)%nat then with_expiredC le (expiredC le ++ [ls]) else le
         end).

(** ** Checkpoints *)

Record LeaseCheckpoint := MkCheckpoint {
  cp_ID : Z;
  Remaining_TTL : Z
}.

Fixpoint find_due (fuel : nat) (now : Z) (limit : nat) (le : lessor) (cps : list LeaseCheckpoint)
    : outcome (lessor * list LeaseCheckpoint) :=
  match fuel, leaseCheckpointHeap le with
  | O, _ | _, [] => Ret (le, cps)
  | S fuel, lt :: _ =>
      if (limit <=? length cps)%nat || (now <? lt_time lt) then Ret (le, cps)
      else
        '(h, _) ← heap_Pop (leaseCheckpointHeap le);
        let le := with_queues le (leaseExpiredNotifier le) h in
        match leaseMap le !! lt_id lt with
        | None => find_due fuel now limit le cps
        | Some l =>
            if negb (now <? expiry l) then find_due fuel now limit le cps
            else
              let remainingTTL := ceil (Seconds (time_Sub (expiry l) now)) in
              if ttl l <=? remainingTTL then find_due fuel now limit le cps
              else find_due fuel now limit le (cps ++ [MkCheckpoint (lt_id lt) remainingTTL])
        end
  end.

(** Every round takes an item off the heap. *)
Definition findDueScheduledCheckpoints (now : Z) (limit : nat) (le : lessor)
    : outcome (lessor * list LeaseCheckpoint) :=
  if negb (cp le) then Ret (le, [])
  else find_due (length (leaseCheckpointHeap le)) now limit le [].

(** The requests that the checkpointer is called with; [cpr i] is what it
    answers to the [i]-th. *)
Fixpoint checkpoint_rounds (n : nat) (cpr : nat -> option error) (i : nat) (now : Z) (le : lessor)
    : outcome (lessor * list (list LeaseCheckpoint)) :=
  match n with
  | O => Ret (le, [])
  | S n =>
      '(le, cps) ← (if primary le then findDueScheduledCheckpoints now maxLeaseCheckpointBatchSize le else Ret (le, []));
      let sent := match cps with [] => [] | _ => [cps] end in
      let failed := match cps with [] => None | _ => cpr i end in
      if bool_decide (is_Some failed) || (length cps <? maxLeaseCheckpointBatchSize)%nat then Ret (le, sent)
      else '(le, more) ← checkpoint_rounds n cpr (S i) now le; Ret (le, sent ++ more)
  end.

Definition checkpointScheduledLeases (cpr : nat -> option error) (now : Z) (le : lessor)
    : outcome (lessor * list (list LeaseCheckpoint)) :=
  checkpoint_rounds (leaseCheckpointRate / 2) cpr 0 now le.

(** ** Starting *)

Definition recovered (le : lessor) (lpb : leasepb.Lease) : Lease :=
  MkLease (leasepb.ID lpb) (Z.max (leasepb.TTL lpb) (minLeaseTTL le)) (leasepb.RemainingTTL lpb) forever ∅ false.

Section Start.
Context `{BoltLib} (hook : backend.backend -> outcome backend.backend).

Definition initAndRecover (le : lessor) (b : backend.backend) : outcome (lessor * backend.backend) :=
  b ← backend.UnsafeCreateBucket b schema.Lease;
  lpbs ← MustUnsafeGetAllLeases b;
  b ← backend.Unlock hook b;
  let ls := fold_left (fun m lpb => <[leasepb.ID lpb := recovered le lpb]> m) lpbs (leaseMap le) in
  let le := with_queues (with_maps le ls (itemMap le)) (Init (leaseExpiredNotifier le))
              (heap_Init (leaseCheckpointHeap le)) in
  b ← backend.ForceCommit hook b;
  Ret (le, b).

Definition newLessor (b : backend.backend) (minTTL interval retry rate : Z) (persist : bool)
    : outcome (lessor * backend.backend) :=
  let interval := if interval =? 0 then defaultLeaseCheckpointInterval else interval in
  let retry := if retry =? 0 then defaultExpiredleaseRetryInterval else retry in
  let rate := if rate =? 0 then defaultLeaseRevokeRate else rate in
  initAndRecover (MkLessor false ∅ newLeaseExpiredNotifier [] ∅ false false minTTL rate [] interval retry persist) b.

Definition Recover (le : lessor) (b : backend.backend) (has_rd : bool) : outcome (lessor * backend.backend) :=
  initAndRecover (with_maps (with_hooks le has_rd (cp le)) ∅ ∅) b.

End Start.
End lease.
