(* ===== verification/LeaseLog.v ===== *)
(** * The lessor over its history

    In every sequence of grants, renewals, checkpoints, promotions and rounds
    of its loop, the lessor that is primary reports every lease that has
    expired, only such ones, and reports it again until it is revoked. *)

From S2P Require Import Prelude Errors Utils BoltApi TxBuffer Backend LeasePb LeaseQueue Lease.

Module LeaseLog.
Import leaseQueue lease.

(** ** Events *)

(** [LRevoked] when [Revoke] takes the lease out of the map, [LRenewed] when
    [Renew] takes the lock again, [LTick] for the round of the loop that looks
    for expired leases, and [LDue] for the one that looks for checkpoints. *)
Inductive op : Type :=
  | LGrant (id ttl : Z)
  | LRevoked (id : Z)
  | LCheckpoint (id rt : Z)
  | LRenewed (id : Z)
  | LPromote (extend : Z) (order sorted : list Z)
  | LDemote
  | LAttach (id : Z) (items : list string)
  | LDetach (id : Z) (items : list string)
  | LTick
  | LDue (cpr : nat -> option error).

Record event := MkEvent {
  at_ : Z;
  what : op
}.

Definition revoked (le : lessor) (id : Z) : lessor := with_maps le (delete id (leaseMap le)) (itemMap le).

(** The lessor after the event, and the leases that are reported. *)
Definition step (le : lessor) (e : event) : outcome (lessor * list Lease) :=
  let now := at_ e in
  match what e with
  | LGrant id ttl => '(le, _) ← grant now le id ttl; Ret (le, [])
  | LRevoked id => Ret (revoked le id, [])
  | LCheckpoint id rt => Ret (checkpoint now le id rt, [])
  | LRenewed id => '(le, _) ← renew_last now le id; Ret (le, [])
  | LPromote extend order sorted => le ← Promote now extend order sorted le; Ret (le, [])
  | LDemote => Ret (Demote le, [])
  | LAttach id items => Ret (fst (Attach le id items), [])
  | LDetach id items => Ret (fst (Detach le id items), [])
  | LTick => if primary le then findExpiredLeases now (Z.quot (leaseRevokeRate le) 2) le else Ret (le, [])
  | LDue cpr => '(le, _) ← checkpointScheduledLeases cpr now le; Ret (le, [])
  end.

(** A promotion goes through all leases, twice. *)
Definition legal_op (le : lessor) (o : op) : Prop :=
  match o with
  | LPromote _ order sorted => order ≡ₚ (map_to_list (leaseMap le)).*1 /\ sorted ≡ₚ order
  | _ => True
  end.

Fixpoint legal (clock : Z) (le : lessor) (evs : list event) : Prop :=
  match evs with
  | [] => True
  | e :: evs => clock <= at_ e /\ legal_op le (what e) /\
      match step le e with Ret (le', _) => legal (at_ e) le' evs | _ => True end
  end.

(** A lessor that was just made: it is not primary, and its queues are empty. *)
Record started (le : lessor) : Prop := {
  s_primary : primary le = false;
  s_notifier : leaseExpiredNotifier le = newLeaseExpiredNotifier;
  s_heap : leaseCheckpointHeap le = [];
  s_ids : forall id l, leaseMap le !! id = Some l -> ID l = id;
  s_retry : 0 < expiredLeaseRetryInterval le;
  s_rate : 0 < leaseRevokeRate le
}.

(** [newLessor] makes such a lessor, with the leases that it finds on the disk. *)
Lemma newLessor_started `{BoltLib} hook b minTTL interval retry rate persist le b' : 0 <= retry -> 0 <= rate ->
  newLessor hook b minTTL interval retry rate persist = Ret (le, b') -> started le.
Proof.
  unfold newLessor, initAndRecover. intros Hretry Hrate E. destruct (backend.UnsafeCreateBucket b schema.Lease) as [b1| |]; [|done..].
  rewrite ret_bind in E. destruct (MustUnsafeGetAllLeases b1) as [lpbs| |]; [|done..]. rewrite ret_bind in E.
  destruct (backend.Unlock hook b1) as [b2| |]; [|done..]. rewrite ret_bind in E.
  destruct (backend.ForceCommit hook b2) as [b3| |]; [|done..]. rewrite ret_bind in E. injection E as <- _.
  split; try done; cbn [with_queues with_maps leaseMap expiredLeaseRetryInterval leaseRevokeRate].
  - set (le0 := MkLessor _ _ _ _ _ _ _ _ _ _ _ _ _). assert (forall m : gmap Z Lease, (forall id l, m !! id = Some l -> ID l = id) ->
      forall id l, fold_left (fun m lpb => <[leasepb.ID lpb := recovered le0 lpb]> m) lpbs m !! id = Some l -> ID l = id) as Hfold.
    { induction lpbs as [|x lpbs IH]; intros m Hm; [done|]. apply IH. intros id l [[<- <-]|[_ Hl]]%lookup_insert_Some; [done|by apply Hm]. }
    apply Hfold. intros id l Hl. by rewrite lookup_empty in Hl.
  - destruct (Z.eqb_spec retry 0); [done|lia].
  - destruct (Z.eqb_spec rate 0); [done|lia].
Qed.

(** ** The invariant *)

(** The item of the lease is there: for the expiry, or for the next report
    after the last one. *)
Definition registered (retry : Z) (times last : gmap Z Z) (l : Lease) : Prop :=
  expiry l <> forever /\ exists t, times !! ID l = Some t /\
    (t = expiry l \/ exists t0, last !! ID l = Some t0 /\ expiry l <= t0 /\ t = t0 + retry).

(** The leases of [on] are registered. *)
Record plinv (on : Z -> Prop) (le : lessor) (times last : gmap Z Z) : Prop := {
  v_rep : nrep (leaseExpiredNotifier le) times;
  v_indexed : indexed (leaseCheckpointHeap le);
  v_heap : heap (leaseCheckpointHeap le) (length (leaseCheckpointHeap le));
  v_ids : forall id l, leaseMap le !! id = Some l -> ID l = id;
  v_registered : forall id l, on id -> leaseMap le !! id = Some l ->
    registered (expiredLeaseRetryInterval le) times last l;
  v_retry : 0 < expiredLeaseRetryInterval le;
  v_rate : 0 < leaseRevokeRate le
}.

Definition linv (le : lessor) : gmap Z Z -> gmap Z Z -> Prop := plinv (fun _ => primary le = true) le.

Lemma plinv_weaken (on on' : Z -> Prop) le times last : (forall id, is_Some (leaseMap le !! id) -> on' id -> on id) ->
  plinv on le times last -> plinv on' le times last.
Proof. intros Hon [Hr Hx Hh Hi Hg Hre Hra]. split; [done..| |done|done]. intros id l Ho Hl. eauto. Qed.

Lemma started_linv le : started le -> linv le ∅ ∅.
Proof.
  intros [Hp Hn Hh Hi Hr Hra]. split; rewrite ?Hn, ?Hh, ?Hp; [apply new_nrep|done| |done..].
  intros k Hk. cbn in Hk. lia.
Qed.

Lemma expired_spec now l : expired now l = true <-> expiry l <> forever /\ expiry l <= now.
Proof.
  unfold expired, Remaining, time_Sub, MinInt64, backend.MaxInt64. rewrite Z.leb_le.
  destruct (Z.eqb_spec (expiry l) forever) as [->|Hn]; [|lia]. split; [lia|tauto].
Qed.

(** ** The small steps *)

Lemma schedule_plinv on now le l times last : plinv on le times last ->
  plinv on (scheduleCheckpointIfNeeded now le l) times last.
Proof.
  intros [Hr Hx Hh Hi Hg Hre Hra]. unfold scheduleCheckpointIfNeeded. destruct (cp le); cbn [negb]; [|done].
  destruct (trunc _ <? _); [|done].
  destruct (heap_Push_spec (leaseCheckpointHeap le) (MkLWT (ID l) (now + checkpointInterval le) 0) Hx Hh) as (_ & Hx' & Hh').
  done.
Qed.

(** What the steps within a call leave as it is. *)
Definition same (le le' : lessor) : Prop :=
  primary le' = primary le /\ leaseRevokeRate le' = leaseRevokeRate le /\ itemMap le' = itemMap le.

Lemma schedule_same now le l : leaseMap (scheduleCheckpointIfNeeded now le l) = leaseMap le /\
  same le (scheduleCheckpointIfNeeded now le l).
Proof. unfold scheduleCheckpointIfNeeded. destruct (cp le), (trunc _ <? _); done. Qed.

Lemma register_spec le l times : nrep (leaseExpiredNotifier le) times ->
  exists n, register le l = Ret (with_queues le n (leaseCheckpointHeap le)) /\ nrep n (<[ID l := expiry l]> times).
Proof.
  intros Hr. destruct (RegisterOrUpdate_spec _ times (ID l) (expiry l) Hr) as (n & E & Hn).
  exists n. split; [|done]. unfold register. by rewrite E, ret_bind.
Qed.

Lemma refresh_finite now l extend : 0 <= now -> expiry (refresh now l extend) <> forever.
Proof.
  intros Hn. cbn. unfold i64 at 1. pose proof (Z.mod_pos_bound (extend + i64 (getRemainingTTL l * Second) + 2 ^ 63) two64 ltac:(done)).
  unfold forever, two64 in *. lia.
Qed.

(** A lease that is refreshed and entered is registered, the others stay. *)
Lemma enter_plinv on now le id l extend times last : 0 <= now -> plinv on le times last -> ID l = id ->
  let l' := refresh now l extend in
  exists le', register (with_lease le id l') l' = Ret le' /\ leaseMap le' = <[id := l']> (leaseMap le) /\ same le le' /\
    plinv (fun i => on i \/ i = id) le' (<[id := expiry l']> times) last.
Proof.
  intros Hn [Hr Hx Hh Hi Hg Hre Hra] <-. set (l' := refresh now l extend). cbv zeta.
  destruct (register_spec (with_lease le (ID l) l') l' times Hr) as (n & E & Hn').
  rewrite E. eexists. split; [reflexivity|]. split; [done|]. split; [done|].
  split; cbn [with_queues with_lease with_maps leaseExpiredNotifier leaseCheckpointHeap leaseMap expiredLeaseRetryInterval leaseRevokeRate];
    [exact Hn'|done|done| | |done|done].
  - intros id x [[<- <-]|[_ Hxl]]%lookup_insert_Some; [done|by apply Hi].
  - intros id x Hon [[<- <-]|[Hne Hxl]]%lookup_insert_Some.
    + split; [by apply refresh_finite|]. exists (expiry l'). rewrite lookup_insert_eq. split; [done|by left].
    + destruct Hon as [Hon|]; [|congruence]. destruct (Hg id x Hon Hxl) as (Hf & t & Ht & Hd). split; [done|].
      exists t. rewrite lookup_insert_ne; [done|]. rewrite (Hi id x Hxl). done.
Qed.

(** ** Promotion *)

Lemma promote_one_spec on now extend le id times last : 0 <= now -> plinv on le times last ->
  exists le' times', promote_one now extend le id = Ret le' /\ same le le' /\
    dom (leaseMap le') = dom (leaseMap le) /\ plinv (fun i => on i \/ i = id) le' times' last.
Proof.
  intros Hn Hi. unfold promote_one. destruct (leaseMap le !! id) as [l|] eqn:El.
  - destruct (enter_plinv on now le id l extend times last Hn Hi (v_ids _ _ _ _ Hi _ _ El)) as (le' & E & Hm & Hs & Hi').
    rewrite E, ret_bind. destruct (schedule_same now le' (refresh now l extend)) as [Em Es].
    eexists _, _. split; [reflexivity|]. split; [|split].
    + destruct Hs as (? & ? & ?), Es as (? & ? & ?). split_and!; congruence.
    + rewrite Em, Hm, dom_insert_L. apply elem_of_dom_2 in El. set_solver.
    + apply schedule_plinv. exact Hi'.
  - exists le, times. split; [done|]. split; [done|]. split; [done|]. eapply plinv_weaken; [|exact Hi].
    intros i [x Hx] [?| ->]; [done|congruence].
Qed.

Lemma promote_all_spec ids on now extend le times last : 0 <= now -> plinv on le times last ->
  exists le' times', promote_all now extend le ids = Ret le' /\ same le le' /\
    dom (leaseMap le') = dom (leaseMap le) /\ plinv (fun i => on i \/ i ∈ ids) le' times' last.
Proof.
  intros Hn. revert on le times. induction ids as [|id ids IH]; intros on le times Hi; cbn [promote_all].
  - exists le, times. split; [done|]. split; [done|]. split; [done|]. eapply plinv_weaken; [|exact Hi].
    intros i _ [?|Hin]; [done|]. by apply not_elem_of_nil in Hin.
  - destruct (promote_one_spec on now extend le id times last Hn Hi) as (le1 & t1 & E1 & Hs1 & Hd1 & Hi1). rewrite E1, ret_bind.
    destruct (IH _ le1 t1 Hi1) as (le2 & t2 & E2 & Hs2 & Hd2 & Hi2). exists le2, t2. split; [done|].
    destruct Hs1 as (? & ? & ?), Hs2 as (? & ? & ?). split; [split_and!; congruence|]. split; [congruence|].
    eapply plinv_weaken; [|exact Hi2]. intros i _ [?|[?|?]%elem_of_cons]; tauto.
Qed.

Lemma spread_spec ids on now extend target le base next n times last : 0 <= now -> plinv on le times last ->
  exists le' times', spread now extend target le base next n ids = Ret le' /\ same le le' /\ plinv on le' times' last.
Proof.
  intros Hn. revert le base next n times. induction ids as [|id ids IH]; intros le base next n times Hi; cbn [spread].
  - by exists le, times.
  - destruct (next <? _); [by apply (IH _ _ _ _ times)|]. destruct (n + 1 <=? target); [by apply (IH _ _ _ _ times)|].
    destruct (promote_one_spec on now (i64 (rateDelay (n + 1) target
      match leaseMap le !! id with Some l => Remaining now l | None => 0 end base + extend)) le id times last Hn Hi)
      as (le1 & t1 & E1 & Hs1 & _ & Hi1).
    rewrite E1, ret_bind. destruct (IH le1 base (i64 (base + rateDelay (n + 1) target
      match leaseMap le !! id with Some l => Remaining now l | None => 0 end base)) (n + 1) t1) as (le2 & t2 & E2 & Hs2 & Hi2).
    { eapply plinv_weaken; [|exact Hi1]. intros i _ Hon. by left. }
    exists le2, t2. split; [done|]. split; [|done]. destruct Hs1 as (? & ? & ?), Hs2 as (? & ? & ?). split_and!; congruence.
Qed.

Lemma Promote_spec now extend order sorted le times last : 0 <= now -> linv le times last ->
  order ≡ₚ (map_to_list (leaseMap le)).*1 -> sorted ≡ₚ order ->
  exists le' times', Promote now extend order sorted le = Ret le' /\ linv le' times' last.
Proof.
  intros Hn Hi Ho Hs. unfold Promote.
  destruct (promote_all_spec order (fun _ => False) now extend (with_primary le true) times last Hn) as (le1 & t1 & E1 & Hs1 & Hd1 & Hi1).
  { destruct Hi. split; try done. }
  rewrite E1, ret_bind. assert (plinv (fun _ => primary le1 = true) le1 t1 last) as Hi1'.
  { eapply plinv_weaken; [|exact Hi1]. intros i Hex _. right. rewrite Ho. apply list_elem_of_fmap.
    assert (i ∈ dom (leaseMap le)) as [l Hl]%elem_of_dom by (rewrite <- elem_of_dom, Hd1 in Hex; exact Hex).
    exists (i, l). split; [done|]. by apply elem_of_map_to_list. }
  destruct Hs1 as (Hp1 & Hr1 & _). cbn in Hp1. destruct (Z.ltb_spec (Z.of_nat (length order)) (leaseRevokeRate le1)) as [Hlt|Hge].
  - exists le1, t1. split; [done|exact Hi1'].
  - pose proof (v_rate _ _ _ _ Hi) as Hra. cbn in Hr1. destruct sorted as [|id ids] eqn:Es.
    { apply Permutation_nil_l in Hs. subst order. cbn in Hge. lia. }
    rewrite <- Es. destruct (spread_spec sorted _ now extend (Z.quot (3 * leaseRevokeRate le1) 4) le1
      match leaseMap le1 !! id with Some l => Remaining now l | None => 0 end
      (i64 (match leaseMap le1 !! id with Some l => Remaining now l | None => 0 end + Second)) 0 t1 last Hn Hi1')
      as (le2 & t2 & E2 & (Hp2 & _) & Hi2).
    exists le2, t2. split; [done|]. eapply plinv_weaken; [|exact Hi2]. intros i Hex Hp. exact Hp1.
Qed.

(** ** Expired leases *)

(** An item is handled by a round: its lease is gone, or it is due. *)
Definition waits (le : lessor) (now : Z) (x : Z * Z) : Prop := leaseMap le !! fst x = None \/ snd x <= now.

#[local] Instance waits_dec le now x : Decision (waits le now x).
Proof. unfold waits. apply _. Defined.

Definition left (le : lessor) (now : Z) (times : gmap Z Z) : nat := size (filter (waits le now) times).

Lemma left_delete le now times id t : times !! id = Some t -> waits le now (id, t) ->
  (left le now (delete id times) < left le now times)%nat.
Proof.
  intros Ht Hw. unfold left. rewrite map_filter_delete.
  assert (filter (waits le now) times !! id = Some t) as Hf by (by apply map_lookup_filter_Some_2).
  rewrite map_size_delete, Hf. assert (size (filter (waits le now) times) <> 0)%nat; [|cbn; lia].
  intros H0%map_size_empty_inv. rewrite H0 in Hf. done.
Qed.

Lemma left_insert le now times id t t' : times !! id = Some t -> waits le now (id, t) -> ~ waits le now (id, t') ->
  (left le now (<[id := t']> times) < left le now times)%nat.
Proof.
  intros Ht Hw Hn. pose proof (left_delete le now times id t Ht Hw) as Hl. unfold left in *.
  by rewrite map_filter_insert_False.
Qed.

Definition note (now : Z) (last : gmap Z Z) (ls : list Lease) : gmap Z Z :=
  fold_left (fun m l => <[ID l := now]> m) ls last.

(** A round that takes out the item of a lease that is gone. *)
Lemma drop_plinv on le n times last id : plinv on le times last -> leaseMap le !! id = None -> nrep n (delete id times) ->
  plinv on (with_queues le n (leaseCheckpointHeap le)) (delete id times) last.
Proof.
  intros [Hr Hx Hh Hi Hg Hre Hra] Hno Hn. split; try done. cbn. intros i l Hon Hl.
  destruct (Hg i l Hon Hl) as (Hf & t & Ht & Hd). split; [done|]. exists t. split; [|done]. rewrite lookup_delete_ne; [done|].
  rewrite (Hi i l Hl). congruence.
Qed.

(** A round that reports a lease. *)
Lemma report_plinv on le n times last l now : plinv on le times last -> leaseMap le !! ID l = Some l -> expiry l <= now ->
  nrep n (<[ID l := now + expiredLeaseRetryInterval le]> times) ->
  plinv on (with_queues le n (leaseCheckpointHeap le)) (<[ID l := now + expiredLeaseRetryInterval le]> times) (<[ID l := now]> last).
Proof.
  intros [Hr Hx Hh Hi Hg Hre Hra] Hl He Hn. split; try done. cbn. intros i x Hon Hx'.
  destruct (Hg i x Hon Hx') as (Hf & t & Ht & Hd). split; [done|]. pose proof (Hi i x Hx') as Hix.
  destruct (decide (i = ID l)) as [->|Hne].
  - assert (x = l) as -> by congruence. eexists. rewrite !lookup_insert_eq. split; [done|]. right. by exists now.
  - exists t. rewrite !lookup_insert_ne by congruence. done.
Qed.

(** What the loop of [findExpiredLeases] finds. *)
Record finds (le le' : lessor) (now : Z) (times times' last : gmap Z Z) (ls : list Lease) : Prop := {
  f_same : same le le';
  f_map : leaseMap le' = leaseMap le;
  f_inv : plinv (fun _ => True) le' times' (note now last ls);
  f_only : forall l, l ∈ ls -> leaseMap le !! ID l = Some l /\ expired now l = true /\
    exists t, times !! ID l = Some t /\ t <= now;
  f_nodup : NoDup (map ID ls);
  f_rest : forall id, is_Some (leaseMap le !! id) -> times' !! id = times !! id \/ exists l, l ∈ ls /\ ID l = id
}.

Lemma finds_nil le now times last : plinv (fun _ => True) le times last -> finds le le now times times last [].
Proof. intros Hi. split; try done; [by intros l ?%not_elem_of_nil|constructor|by left]. Qed.

Lemma finds_drop le le' n h now times times' last ls id : leaseMap le !! id = None ->
  finds (with_queues le n h) le' now (delete id times) times' last ls -> finds le le' now times times' last ls.
Proof.
  intros Hno [Hs Hm Hv Ho Hnd Hre]. split; try done.
  - intros y Hy. destruct (Ho y Hy) as (Hy1 & Hy2 & t & [_ Ht]%lookup_delete_Some & Hle). eauto.
  - intros i Hi. destruct (Hre i Hi) as [->|]; [left|by right]. rewrite lookup_delete_ne; [done|].
    intros <-. cbn in Hi. rewrite Hno in Hi. by apply is_Some_None in Hi.
Qed.

Lemma finds_cons le le' n h now retry times times' last l ls t : leaseMap le !! ID l = Some l -> expired now l = true ->
  times !! ID l = Some t -> t <= now -> 0 < retry ->
  finds (with_queues le n h) le' now (<[ID l := now + retry]> times) times' (<[ID l := now]> last) ls ->
  finds le le' now times times' last (l :: ls).
Proof.
  intros Hl Hex Ht Hle Hretry [Hs Hm Hv Ho Hnd Hre]. split; try done.
  - intros y [->|Hy]%elem_of_cons; [eauto|]. destruct (Ho y Hy) as (Hy1 & Hy2 & ty & Hty & Hley).
    split; [done|]. split; [done|]. apply lookup_insert_Some in Hty as [[_ <-]|[_ Hty]]; [lia|eauto].
  - cbn [map]. constructor; [|done]. intros (y & Hy' & Hy)%list_elem_of_fmap. destruct (Ho y Hy) as (_ & _ & ty & Hty & Hley).
    rewrite <- Hy', lookup_insert_eq in Hty. injection Hty as <-. lia.
  - intros i Hi. destruct (decide (i = ID l)) as [->|Hne]; [right; exists l; split; [by left|done]|].
    destruct (Hre i Hi) as [->|(y & Hy & <-)]; [left; by apply lookup_insert_ne|right; exists y; split; [by right|done]].
Qed.

Lemma find_expired_spec fuel now limit le times last leases : (left le now times < fuel)%nat ->
  plinv (fun _ => True) le times last -> (forall id t0, last !! id = Some t0 -> t0 <= now) ->
  exists le' times' ls, find_expired fuel now limit le leases = Ret (le', leases ++ ls) /\
    finds le le' now times times' last ls /\
    (Z.of_nat (length (leases ++ ls)) = limit \/
     forall id t, is_Some (leaseMap le !! id) -> times' !! id = Some t -> now < t).
Proof.
  revert le times last leases. induction fuel as [|fuel IH]; intros le times last leases Hf Hi Hlast; [lia|].
  cbn [find_expired]. unfold expireExists. pose proof (v_rep _ _ _ _ Hi) as Hr.
  pose proof (nrep_head _ _ Hr) as Hh. pose proof (Peek_spec _ _ Hr) as Hpk. pose proof (finds_nil le now times last Hi) as Hstop.
  destruct (queue (leaseExpiredNotifier le)) as [|x q] eqn:Eq.
  { rewrite Hpk, ret_bind. exists le, times, []. rewrite app_nil_r. split; [done|]. split; [done|]. right.
    intros id t _ Ht. rewrite Hh in Ht. done. }
  destruct Hpk as [-> ->]. rewrite ret_bind. destruct Hh as [Hx Hmin].
  destruct (leaseMap le !! lt_id x) as [l|] eqn:El; cycle 1.
  - destruct (Unregister_spec _ _ _ _ Hr Eq) as (n & -> & Hn). rewrite !ret_bind.
    pose proof (left_delete le now times _ _ Hx (or_introl El)) as Hless.
    destruct (IH (with_queues le n (leaseCheckpointHeap le)) (delete (lt_id x) times) last leases) as (le' & times' & ls & E & Hfi & Hend).
    + eapply Nat.lt_le_trans; [exact Hless|]. by apply Nat.lt_succ_r.
    + by apply drop_plinv.
    + done.
    + exists le', times', ls. split; [done|]. split; [|done]. by eapply finds_drop.
  - pose proof (v_ids _ _ _ _ Hi _ _ El) as Hid. destruct (Z.ltb_spec now (lt_time x)) as [Hlt|Hge].
    { rewrite ret_bind. exists le, times, []. rewrite app_nil_r. split; [done|]. split; [done|]. right.
      intros id t _ Ht. specialize (Hmin id t Ht). lia. }
    destruct (v_registered _ _ _ _ Hi _ _ Logic.I El) as (Hfin & t & Ht & Hd). rewrite Hid, Hx in Ht. injection Ht as <-.
    pose proof (v_retry _ _ _ _ Hi) as Hretry. assert (expiry l <= now) as He.
    { destruct Hd as [?|(t0 & Ht0 & ? & ?)]; [lia|]. specialize (Hlast _ _ Ht0). lia. }
    destruct (RegisterOrUpdate_spec _ times (lt_id x) (now + expiredLeaseRetryInterval le) Hr) as (n & -> & Hn). rewrite !ret_bind.
    assert (expired now l = true) as Hex by (by apply expired_spec). rewrite Hex. rewrite <- Hid in *.
    pose proof (report_plinv (fun _ => True) le n times last l now Hi El He Hn) as Hi1.
    destruct (Z.eqb_spec (Z.of_nat (length (leases ++ [l]))) limit) as [Hlim|Hlim].
    + eexists _, _, [l]. split; [done|]. split; [|by left]. eapply finds_cons; [done..|]. by apply finds_nil.
    + pose proof (left_insert le now times (ID l) (lt_time x) (now + expiredLeaseRetryInterval le) Hx) as Hless.
      destruct (IH (with_queues le n (leaseCheckpointHeap le)) (<[ID l := now + expiredLeaseRetryInterval le]> times)
        (<[ID l := now]> last) (leases ++ [l])) as (le' & times' & ls & E & Hfi & Hend).
      * eapply Nat.lt_le_trans; [apply Hless|by apply Nat.lt_succ_r]; [right; cbn; lia|].
        intros [Hno|Hle]; cbn in *; [congruence|lia].
      * exact Hi1.
      * intros id t0 [[_ <-]|[_ Ht0]]%lookup_insert_Some; [lia|eauto].
      * rewrite <- app_assoc in E, Hend. exists le', times', (l :: ls). split; [done|]. split; [|done]. by eapply finds_cons.
Qed.

Lemma waits_bound le now n times : nrep n times -> (left le now times <= length (queue n))%nat.
Proof.
  intros Hr. unfold left. pose proof (map_subseteq_size _ _ (map_filter_subseteq (waits le now) times)) as Hs.
  pose proof (Permutation_length (n_items _ _ Hr)) as Hl. rewrite length_map in Hl. rewrite Hl, length_map_to_list. done.
Qed.

Lemma findExpired_spec now limit le times last : linv le times last -> primary le = true ->
  (forall id t0, last !! id = Some t0 -> t0 <= now) ->
  exists le' times' ls, findExpiredLeases now limit le = Ret (le', ls) /\ finds le le' now times times' last ls /\
    (Z.of_nat (length ls) = limit \/ forall id t, is_Some (leaseMap le !! id) -> times' !! id = Some t -> now < t).
Proof.
  intros Hi Hp Hlast. pose proof (waits_bound le now _ _ (v_rep _ _ _ _ Hi)) as Hb.
  apply (find_expired_spec _ now limit le times last []); [lia| |done].
  eapply plinv_weaken; [|exact Hi]. done.
Qed.

(** ** The other operations *)

Lemma set_lease_plinv on le id l l' items times last : plinv on le times last -> leaseMap le !! id = Some l ->
  ID l' = ID l -> expiry l' = expiry l -> plinv on (with_maps le (<[id := l']> (leaseMap le)) items) times last.
Proof.
  intros [Hr Hx Hh Hi Hg Hre Hra] Hl Hid He. split; try done; cbn.
  - intros i x [[<- <-]|[_ Hxl]]%lookup_insert_Some; [rewrite Hid|]; by apply Hi.
  - intros i x Hon [[<- <-]|[_ Hxl]]%lookup_insert_Some; [|by eapply Hg].
    unfold registered. rewrite Hid, He. by eapply Hg.
Qed.

Lemma grant_spec now le id ttl times last : 0 <= now -> linv le times last ->
  exists le' times' r, grant now le id ttl = Ret (le', r) /\ linv le' times' last.
Proof.
  intros Hn Hi. unfold grant. destruct (id =? NoLease); [by exists le, times, (inl ErrLeaseNotFound)|].
  destruct (MaxLeaseTTL <? ttl); [by exists le, times, (inl ErrLeaseTTLTooLarge)|].
  destruct (bool_decide _); [by exists le, times, (inl ErrLeaseExists)|]. set (l := NewLease id _).
  destruct (primary le) eqn:Hp.
  - destruct (enter_plinv _ now le id l 0 times last Hn Hi eq_refl) as (le' & E & Hm & (Hp' & _) & Hi').
    change (primary (with_lease le id (refresh now l 0))) with (primary le). rewrite Hp, E, !ret_bind.
    eexists _, _, _. split; [reflexivity|]. apply schedule_plinv.
    eapply plinv_weaken; [|exact Hi']. intros i _ _. left. done.
  - change (primary (with_lease le id l)) with (primary le). rewrite Hp, ret_bind. eexists _, times, _. split; [reflexivity|].
    destruct Hi as [Hr Hx Hh Hids Hg Hre Hra]. split; try done; cbn.
    + intros i x [[<- <-]|[_ Hxl]]%lookup_insert_Some; [done|by apply Hids].
    + intros i x Hon. congruence.
Qed.

Lemma renew_spec now le id times last : 0 <= now -> linv le times last ->
  exists le' times' r, renew_last now le id = Ret (le', r) /\ linv le' times' last.
Proof.
  intros Hn Hi. unfold renew_last. destruct (leaseMap le !! id) as [l|] eqn:El; [|by exists le, times, (inl ErrLeaseNotFound)].
  destruct (enter_plinv _ now le id l 0 times last Hn Hi (v_ids _ _ _ _ Hi _ _ El)) as (le' & E & Hm & (Hp' & _) & Hi').
  rewrite E, ret_bind. eexists _, _, _. split; [reflexivity|]. eapply plinv_weaken; [|exact Hi'].
  intros i _ Hp. left. congruence.
Qed.

Lemma checkpoint_linv now le id rt times last : linv le times last -> linv (checkpoint now le id rt) times last.
Proof.
  intros Hi. unfold checkpoint. destruct (leaseMap le !! id) as [l|] eqn:El; [|done].
  assert (linv (with_lease le id (with_remaining l rt)) times last) as Hi' by (by eapply set_lease_plinv).
  destruct (primary (with_lease le id (with_remaining l rt))) eqn:Hp; [|done]. apply schedule_plinv.
  by eapply plinv_weaken; [|exact Hi'].
Qed.

Lemma revoked_linv le id times last : linv le times last -> linv (revoked le id) times last.
Proof.
  intros [Hr Hx Hh Hi Hg Hre Hra]. split; try done; cbn.
  - intros i l [_ Hl]%lookup_delete_Some. by apply Hi.
  - intros i l Hp [_ Hl]%lookup_delete_Some. by eapply Hg.
Qed.

Lemma Demote_linv le times last : linv le times last -> linv (Demote le) ∅ last.
Proof.
  intros [Hr Hx Hh Hi Hg Hre Hra]. split; cbn; [apply new_nrep|done| | |done|done|done].
  - intros k Hk. cbn in Hk. lia.
  - intros i l. rewrite lookup_fmap. destruct (leaseMap le !! i) as [x|] eqn:Ex; [|done]. intros [= <-]. exact (Hi i x Ex).
Qed.

Lemma find_due_spec fuel now limit le cps : indexed (leaseCheckpointHeap le) ->
  heap (leaseCheckpointHeap le) (length (leaseCheckpointHeap le)) ->
  exists h cps', find_due fuel now limit le cps = Ret (with_queues le (leaseExpiredNotifier le) h, cps') /\
    indexed h /\ heap h (length h).
Proof.
  revert le cps. induction fuel as [|fuel IH]; intros le cps Hx Hh; cbn [find_due];
    [exists (leaseCheckpointHeap le), cps; by destruct le|].
  destruct (leaseCheckpointHeap le) as [|x q] eqn:Eq.
  { exists (leaseCheckpointHeap le), cps. split; [by destruct le|]. rewrite Eq in *. done. }
  rewrite <- Eq in *.
  destruct (_ || _); [exists (leaseCheckpointHeap le), cps; by destruct le|].
  destruct (heap_Pop_spec _ x q Hx Hh Eq) as (h & -> & _ & Hx' & Hh'). rewrite ret_bind.
  pose proof (fun cps => IH (with_queues le (leaseExpiredNotifier le) h) cps Hx' Hh') as IH'.
  destruct (_ !! _) as [l|]; [|apply IH']. destruct (negb _); [apply IH'|]. destruct (_ <=? _); apply IH'.
Qed.

Lemma checkpoint_rounds_spec n cpr i now le times last : linv le times last ->
  exists le' sent, checkpoint_rounds n cpr i now le = Ret (le', sent) /\ linv le' times last.
Proof.
  revert i le. induction n as [|n IH]; intros i le Hi; cbn [checkpoint_rounds]; [by exists le, []|].
  assert (exists le1 cps, (if primary le then findDueScheduledCheckpoints now maxLeaseCheckpointBatchSize le else Ret (le, []))
    = Ret (le1, cps) /\ linv le1 times last) as (le1 & cps & -> & Hi1).
  { destruct (primary le) eqn:Hp; [|by exists le, []]. unfold findDueScheduledCheckpoints.
    destruct (cp le); cbn [negb]; [|by exists le, []]. pose proof Hi as [Hr Hx Hh Hids Hg Hre Hra].
    destruct (find_due_spec (length (leaseCheckpointHeap le)) now maxLeaseCheckpointBatchSize le [] Hx Hh) as (h & cps & -> & Hx' & Hh').
    eexists _, _. split; [reflexivity|]. done. }
  rewrite ret_bind. destruct (_ || _); [by eexists _, _|].
  destruct (IH (S i) le1 Hi1) as (le2 & more & -> & Hi2). rewrite ret_bind. by eexists _, _.
Qed.

(** ** Runs *)

Lemma note_Some now ls last id t0 : note now last ls !! id = Some t0 ->
  last !! id = Some t0 \/ t0 = now /\ exists l, l ∈ ls /\ ID l = id.
Proof.
  revert last. induction ls as [|l ls IH]; intros last Ht; [by left|]. cbn in Ht.
  destruct (IH _ Ht) as [[[<- <-]|[_ ?]]%lookup_insert_Some|(-> & y & Hy & Hid)].
  - right. split; [done|]. exists l. split; [by left|done].
  - by left.
  - right. split; [done|]. exists y. split; [by right|done].
Qed.

Lemma step_spec le times last e : linv le times last -> 0 <= at_ e -> (forall id t0, last !! id = Some t0 -> t0 <= at_ e) ->
  legal_op le (what e) ->
  exists le' ls times', step le e = Ret (le', ls) /\ linv le' times' (note (at_ e) last ls).
Proof.
  intros Hi Hn Hlast Hl. unfold step.
  destruct (what e) as [id ttl|id|id rt|id|extend order sorted| |id items|id items| |cpr] eqn:Ew; cbn [legal_op] in Hl.
  - destruct (grant_spec (at_ e) le id ttl times last Hn Hi) as (le' & times' & r & -> & Hi'). by exists le', [], times'.
  - exists (revoked le id), [], times. split; [done|]. by apply revoked_linv.
  - exists (checkpoint (at_ e) le id rt), [], times. split; [done|]. by apply checkpoint_linv.
  - destruct (renew_spec (at_ e) le id times last Hn Hi) as (le' & times' & r & -> & Hi'). by exists le', [], times'.
  - destruct Hl as [Ho Hs]. destruct (Promote_spec (at_ e) extend order sorted le times last Hn Hi Ho Hs) as (le' & times' & -> & Hi').
    by exists le', [], times'.
  - exists (Demote le), [], ∅. split; [done|]. by eapply Demote_linv.
  - unfold Attach. destruct (leaseMap le !! id) as [l|] eqn:El; [|by exists le, [], times].
    eexists _, [], times. split; [done|]. by eapply set_lease_plinv.
  - unfold Detach. destruct (leaseMap le !! id) as [l|] eqn:El; [|by exists le, [], times].
    eexists _, [], times. split; [done|]. by eapply set_lease_plinv.
  - destruct (primary le) eqn:Hp; [|by exists le, [], times].
    destruct (findExpired_spec (at_ e) (Z.quot (leaseRevokeRate le) 2) le times last Hi Hp Hlast) as (le' & times' & ls & E & Hf & _).
    exists le', ls, times'. split; [done|]. eapply plinv_weaken; [|exact (f_inv _ _ _ _ _ _ _ Hf)]. done.
  - destruct (checkpoint_rounds_spec (leaseCheckpointRate / 2) cpr 0 (at_ e) le times last Hi) as (le' & sent & E & Hi').
    unfold checkpointScheduledLeases. rewrite E, ret_bind. by exists le', [], times.
Qed.

(** The lease [id] was reported at [t0]. *)
Definition seen (evs : list event) (rs : list (list Lease)) (id t0 : Z) : Prop :=
  exists i e ls l, evs !! i = Some e /\ rs !! i = Some ls /\ l ∈ ls /\ ID l = id /\ at_ e = t0.

Lemma seen_cons e evs ls rs id t0 : seen evs rs id t0 -> seen (e :: evs) (ls :: rs) id t0.
Proof. intros (i & e' & ls' & l & H). by exists (S i), e', ls', l. Qed.

Definition clock_after (clock : Z) (evs : list event) : Z := fold_left (fun _ e => at_ e) evs clock.

Lemma run_linv evs clock le times last : 0 <= clock -> linv le times last ->
  (forall id t0, last !! id = Some t0 -> t0 <= clock) -> legal clock le evs ->
  exists le' rs times' last', run step le evs = Ret (le', rs) /\ linv le' times' last' /\
    forall id t0, last' !! id = Some t0 -> t0 <= clock_after clock evs /\ (last !! id = Some t0 \/ seen evs rs id t0).
Proof.
  revert clock le times last. induction evs as [|e evs IH]; intros clock le times last Hc Hi Hlast Hl.
  - exists le, [], times, last. split; [done|]. split; [done|]. intros id t0 Ht. split; [by eapply Hlast|by left].
  - destruct Hl as (Hle & Ho & Hl). assert (forall id t0, last !! id = Some t0 -> t0 <= at_ e) as Hlast'.
    { intros id t0 Ht. specialize (Hlast id t0 Ht). lia. }
    destruct (step_spec le times last e Hi ltac:(lia) Hlast' Ho) as (le1 & ls & times1 & E1 & Hi1). rewrite E1 in Hl.
    destruct (IH (at_ e) le1 times1 (note (at_ e) last ls)) as (le2 & rs & times2 & last2 & E2 & Hi2 & Hs2); [lia|done| |done|].
    { intros id t0 [Ht|[-> _]]%note_Some; [by eapply Hlast'|lia]. }
    exists le2, (ls :: rs), times2, last2. cbn [run]. rewrite E1, ret_bind, E2, ret_bind. split; [done|]. split; [done|].
    intros id t0 Ht. destruct (Hs2 id t0 Ht) as [Hca [Hn|Hs]]; (split; [done|]); [|right; by apply seen_cons].
    apply note_Some in Hn as [?|(-> & l & Hl' & <-)]; [by left|]. right. exists O, e, ls, l. done.
Qed.


(** ** Bounds *)

(** No lease is longer than the longest one. *)
Definition fits (l : Lease) : Prop := 0 <= ttl l <= MaxLeaseTTL /\ 0 <= remainingTTL l <= MaxLeaseTTL.

Definition bounded (le : lessor) : Prop :=
  0 <= minLeaseTTL le <= MaxLeaseTTL /\ forall id l, leaseMap le !! id = Some l -> fits l.

(** The checkpoints are of times that were left. *)
Definition fits_op (o : op) : Prop :=
  match o with LCheckpoint _ rt => 0 <= rt <= MaxLeaseTTL | _ => True end.

Definition keeps (le le' : lessor) : Prop := leaseMap le' = leaseMap le /\ minLeaseTTL le' = minLeaseTTL le.

Lemma keeps_bounded le le' : keeps le le' -> bounded le -> bounded le'.
Proof. intros [Hm Ht]. unfold bounded. by rewrite Hm, Ht. Qed.

Lemma set_bounded le id l items : bounded le -> fits l -> bounded (with_maps le (<[id := l]> (leaseMap le)) items).
Proof. intros [Hm Hb] Hl. split; [done|]. cbn. intros i x [[_ <-]|[_ Hx]]%lookup_insert_Some; [done|by eapply Hb]. Qed.

Lemma bind_Ret {A B} (o : outcome A) (k : A -> outcome B) b : (o ≫= k) = Ret b -> exists a, o = Ret a /\ k a = Ret b.
Proof. destruct o as [a| |]; [eauto|done|done]. Qed.

Lemma register_keeps le l le' : register le l = Ret le' -> keeps le le'.
Proof. unfold register. intros (n & _ & [= <-])%bind_Ret. done. Qed.

Lemma schedule_keeps now le l : keeps le (scheduleCheckpointIfNeeded now le l).
Proof. unfold scheduleCheckpointIfNeeded. destruct (cp le), (trunc _ <? _); done. Qed.

Lemma promote_one_bounded now extend le id le' : promote_one now extend le id = Ret le' -> bounded le -> bounded le'.
Proof.
  unfold promote_one. destruct (leaseMap le !! id) as [l|] eqn:El; [|by intros [= <-]].
  intros (le1 & E1%register_keeps & [= <-])%bind_Ret Hb. eapply keeps_bounded; [apply schedule_keeps|].
  eapply keeps_bounded; [exact E1|]. apply set_bounded; [done|]. by apply (proj2 Hb id l).
Qed.

Lemma promote_all_bounded now extend ids le le' : promote_all now extend le ids = Ret le' -> bounded le -> bounded le'.
Proof.
  revert le. induction ids as [|id ids IH]; intros le; cbn [promote_all]; [by intros [= <-]|].
  intros (le1 & E1 & E2)%bind_Ret Hb. eapply IH; [exact E2|]. by eapply promote_one_bounded.
Qed.

Lemma spread_bounded now extend target ids le base next n le' :
  spread now extend target le base next n ids = Ret le' -> bounded le -> bounded le'.
Proof.
  revert le base next n. induction ids as [|id ids IH]; intros le base next n; cbn [spread]; [by intros [= <-]|].
  destruct (next <? _); [apply IH|]. destruct (n + 1 <=? target); [apply IH|].
  intros (le1 & E1 & E2)%bind_Ret Hb. eapply IH; [exact E2|]. by eapply promote_one_bounded.
Qed.

Lemma find_expired_keeps fuel now limit le leases le' ls :
  find_expired fuel now limit le leases = Ret (le', ls) -> keeps le le'.
Proof.
  revert le leases. induction fuel as [|fuel IH]; intros le leases; cbn [find_expired]; [done|].
  intros ([[le1 l] next] & E1 & E2)%bind_Ret. assert (keeps le le1) as [Hm Ht].
  { unfold expireExists in E1. destruct (empty _); [by injection E1 as <- _ _|]. apply bind_Ret in E1 as ([x|] & _ & E1); [|done].
    destruct (_ !! _) as [y|]; [|by apply bind_Ret in E1 as ([n z] & _ & [= <- _ _])].
    destruct (now <? _); [by injection E1 as <- _ _|]. by apply bind_Ret in E1 as (n & _ & [= <- _ _]). }
  enough (keeps le1 le') as [Hm' Ht'] by (split; congruence).
  destruct l as [l|], next; try (by eapply IH); [|by injection E2 as <- _].
  destruct (expired now l); [|by eapply IH]. destruct (_ =? limit); [by injection E2 as <- _|by eapply IH].
Qed.

Lemma find_due_keeps fuel now limit le cps le' cps' : find_due fuel now limit le cps = Ret (le', cps') -> keeps le le'.
Proof.
  revert le cps. induction fuel as [|fuel IH]; intros le cps; cbn [find_due]; [by intros [= <- _]|].
  destruct (leaseCheckpointHeap le) as [|x q] eqn:Eq; [by intros [= <- _]|].
  destruct (_ || _); [by intros [= <- _]|]. intros ([h y] & _ & E)%bind_Ret.
  destruct (_ !! _) as [l|]; [|exact (IH _ _ E)]. destruct (negb _); [exact (IH _ _ E)|]. destruct (_ <=? _); exact (IH _ _ E).
Qed.

Lemma checkpoint_rounds_keeps n cpr i now le le' sent :
  checkpoint_rounds n cpr i now le = Ret (le', sent) -> keeps le le'.
Proof.
  revert i le sent. induction n as [|n IH]; intros i le sent; cbn [checkpoint_rounds]; [by intros [= <- _]|].
  intros ([le1 cps] & E1 & E2)%bind_Ret. assert (keeps le le1) as [Hm Ht].
  { destruct (primary le); [|by injection E1 as <- _]. unfold findDueScheduledCheckpoints in E1.
    destruct (cp le); cbn [negb] in E1; [by eapply find_due_keeps|by injection E1 as <- _]. }
  destruct (_ || _); [by injection E2 as <- _|]. apply bind_Ret in E2 as ([le2 more] & E2 & [= <- _]).
  destruct (IH _ _ _ E2). split; congruence.
Qed.

Lemma step_bounded le e le' ls : step le e = Ret (le', ls) -> fits_op (what e) -> bounded le -> bounded le'.
Proof.
  unfold step. destruct (what e) as [id t|id|id rt|id|extend order sorted| |id items|id items| |cpr]; intros E Hf Hb;
    pose proof Hb as [Hmin Hall].
  - apply bind_Ret in E as ([le1 r] & E & [= <- _]). unfold grant in E. destruct (id =? NoLease); [by injection E as <- _|].
    destruct (Z.ltb_spec MaxLeaseTTL t); [by injection E as <- _|]. destruct (bool_decide _); [by injection E as <- _|].
    apply bind_Ret in E as (le2 & E & [= <- _]).
    set (l := if primary le then _ else _) in E. assert (fits l) as Hl.
    { unfold l. destruct (primary le); unfold fits, MaxLeaseTTL in *; cbn; lia. }
    clearbody l. assert (bounded (with_lease le id l)) as Hb1 by (by apply set_bounded).
    destruct (primary _); [|by injection E as <-]. apply bind_Ret in E as (le3 & E%register_keeps & [= <-]).
    eapply keeps_bounded; [apply schedule_keeps|]. by eapply keeps_bounded.
  - injection E as <- _. split; [done|]. cbn. intros i l [_ Hl]%lookup_delete_Some. eauto.
  - injection E as <- _. unfold checkpoint. destruct (leaseMap le !! id) as [l|] eqn:El; [|done].
    assert (bounded (with_lease le id (with_remaining l rt))) as Hb1.
    { apply set_bounded; [done|]. split; [by apply (Hall id l)|done]. }
    destruct (primary _); [|done]. eapply keeps_bounded; [apply schedule_keeps|done].
  - apply bind_Ret in E as ([le1 r] & E & [= <- _]). unfold renew_last in E.
    destruct (leaseMap le !! id) as [l|] eqn:El; [|by injection E as <- _].
    apply bind_Ret in E as (le2 & E%register_keeps & [= <- _]). eapply keeps_bounded; [exact E|].
    apply set_bounded; [done|]. by apply (Hall id l).
  - apply bind_Ret in E as (le1 & E & [= <- _]). unfold Promote in E. apply bind_Ret in E as (le2 & E2 & E).
    apply promote_all_bounded in E2; [|done]. destruct (_ <? _); [by injection E as <-|]. destruct sorted; [done|].
    by eapply spread_bounded.
  - injection E as <- _. split; [done|]. cbn. intros i l. rewrite lookup_fmap. destruct (leaseMap le !! i) as [x|] eqn:Ex; [|done].
    intros [= <-]. exact (Hall i x Ex).
  - injection E as <- _. unfold Attach. destruct (leaseMap le !! id) as [l|] eqn:El; [|done]. apply set_bounded; [done|].
    exact (Hall id l El).
  - injection E as <- _. unfold Detach. destruct (leaseMap le !! id) as [l|] eqn:El; [|done]. apply set_bounded; [done|].
    exact (Hall id l El).
  - destruct (primary le); [|by injection E as <- _]. eapply keeps_bounded; [by eapply find_expired_keeps|done].
  - apply bind_Ret in E as ([le1 sent] & E & [= <- _]). eapply keeps_bounded; [by eapply checkpoint_rounds_keeps|done].
Qed.

Lemma run_bounded evs le le' rs : run step le evs = Ret (le', rs) -> Forall (fun e => fits_op (what e)) evs ->
  bounded le -> bounded le'.
Proof.
  intros E Hf. revert le rs E. induction Hf as [|e evs He _ IH]; intros le rs E Hb; cbn [run] in E; [by injection E as <- _|].
  apply bind_Ret in E as ([le1 ls] & E1 & E). apply bind_Ret in E as ([le2 rs2] & E2 & [= <- _]).
  eapply IH; [exact E2|]. by eapply step_bounded.
Qed.

(** The longest extension with which the longest lease does not overflow. *)
Definition MaxExtend : Z := 2 ^ 63 - 1 - MaxLeaseTTL * Second.


(** ** Renewals *)

(** Without a checkpointer the time that was left at a checkpoint is not
    cleared by a renewal: the answer is the full time to live, and the lease
    expires earlier. *)
Theorem renewed_lease_expires_early now le id l n : leaseMap le !! id = Some l -> cp le = false -> primary le = true ->
  expired now l = false -> fits l -> 0 < remainingTTL l < ttl l ->
  RegisterOrUpdate (leaseExpiredNotifier le) (ID l) (now + remainingTTL l * Second) = Ret n ->
  exists le' l', Renew now le id WStopped None now le = Ret (le', inr (ttl l)) /\ leaseMap le' !! id = Some l' /\
    expiry l' < now + ttl l * Second.
Proof.
  intros Hl Hcp Hp He [_ Hr] Hrt Hn. unfold Renew, renew_first, renew_last. rewrite Hp, Hl, He, Hcp. cbn [negb andb].
  assert (refresh now l 0 = with_expiry l (now + remainingTTL l * Second)) as ->.
  { unfold refresh, getRemainingTTL. rewrite (proj2 (Z.ltb_lt _ _)) by lia. f_equal.
    unfold MaxLeaseTTL, Second in *. rewrite !i64_small; [lia|..]; unfold is_i64; rewrite ?i64_small; unfold is_i64; lia. }
  unfold register. cbn [with_lease with_maps leaseExpiredNotifier ID expiry with_expiry]. rewrite Hn, !ret_bind.
  eexists _, _. split; [reflexivity|]. split; [apply lookup_insert_eq|]. cbn. unfold Second. lia.
Qed.

(** ** On a concrete lessor *)

Definition sample_lessor : lessor :=
  MkLessor false ∅ newLeaseExpiredNotifier [] ∅ true true 1 1000 [] defaultLeaseCheckpointInterval
    defaultExpiredleaseRetryInterval false.

Lemma sample_lessor_started : started sample_lessor.
Proof. by split. Qed.

(** Two leases; the first is renewed, the second expires and is reported. *)
Definition sample_history : list event :=
  [MkEvent 0 (LPromote 0 [] []); MkEvent 0 (LGrant 7 5); MkEvent 0 (LGrant 8 2); MkEvent (4 * Second) (LRenewed 7);
   MkEvent (5 * Second) LTick].

Lemma sample_history_legal : legal 0 sample_lessor sample_history.
Proof. vm_compute. repeat split; try (intros ?; discriminate); constructor. Qed.



End LeaseLog.
