(* ===== verification/KvHash.v ===== *)
(** * server/storage/mvcc/hash.go

    The checksum over the pairs of the [Key] bucket that is compared between
    the members of a cluster, and the list of the checksums of past
    compactions. *)

From S2P Require Import Prelude Errors Utils WalIo KeyIndex BoltApi TxBuffer Backend.

Module kvhash.
Import mvcc.

Record KeyValueHash := MkHash {
  Hash : Z;
  CompactRevision : Z;
  h_Revision : Z
}.

(** A nil map of revisions to keep is the empty set. *)
Record kvHasher := MkHasher {
  hash : Z;
  compactRevision : Z;
  revision : Z;
  keeps : gset Revision
}.

Definition newKVHasher (compactRev rev : Z) (keep : gset Revision) : kvHasher :=
  MkHasher (crc_Write (crc_New 0) (txBuffer.Name schema.Key)) compactRev rev keep.

Definition WriteKeyValue (h : kvHasher) (k v : bytes) : outcome kvHasher :=
  kr ← BytesToRev k;
  let upper := MkRev (i64 (revision h + 1)) 0 in
  if negb (GreaterThan upper kr) then Ret h
  else
    bk ← BytesToBucketKey k;
    let isTombstone := tombstone_mark bk in
    let lower := MkRev (i64 (compactRevision h + 1)) 0 in
    if GreaterThan lower kr && negb (bool_decide (keeps h = ∅)) && negb (bool_decide (kr ∈ keeps h)) then Ret h
    else if (Main kr =? compactRevision h) && isTombstone then Ret h
    else Ret (MkHasher (crc_Write (crc_Write (hash h) k) v) (compactRevision h) (revision h) (keeps h)).

Fixpoint WriteAll (h : kvHasher) (l : list kvp) : outcome kvHasher :=
  match l with
  | [] => Ret h
  | x :: l => h ← WriteKeyValue h (fst x) (snd x); WriteAll h l
  end.

Definition Sum (h : kvHasher) : KeyValueHash :=
  MkHash (crc_Sum32 (hash h)) (compactRevision h) (revision h).

Definition unsafeHashByRev `{BoltLib} (tx : backend.baseReadTx) (compactRevision revision : Z)
    (keep : gset Revision) : outcome KeyValueHash :=
  l ← backend.r_UnsafeForEach tx schema.Key;
  h ← WriteAll (newKVHasher compactRevision revision keep) l;
  Ret (Sum h).

(** ** hashStorage *)

Definition hashStorageMaxSize : nat := 10.

(** [sort.Slice] of at most twelve elements sorts by insertion. *)
Fixpoint place_hash (x : KeyValueHash) (l : list KeyValueHash) : list KeyValueHash :=
  match l with
  | [] => [x]
  | y :: l' => if h_Revision x <? h_Revision y then x :: l else y :: place_hash x l'
  end.

Definition sort_hashes (l : list KeyValueHash) : list KeyValueHash :=
  fold_left (fun l x => place_hash x l) l [].

Definition Store (hashes : list KeyValueHash) (h : KeyValueHash) : list KeyValueHash :=
  let hashes := sort_hashes (hashes ++ [h]) in
  if (hashStorageMaxSize <? length hashes)%nat
  then drop (length hashes - hashStorageMaxSize) hashes else hashes.

Definition find_hash (hashes : list KeyValueHash) (rev : Z) : option KeyValueHash :=
  List.find (fun h => rev =? h_Revision h) hashes.

End kvhash.
