(* ===== verification/KvStore.v ===== *)
(** * server/storage/mvcc: kvstore.go, kvstore_txn.go, kvstore_compaction.go, store.go

    etcd's store of keys with their past values.  A write transaction writes
    the pairs of its changes into the [Key] bucket of the backend, under their
    revisions, and enters the revisions into the index; a read finds the
    revisions in the index and then their pairs.  A compaction forgets the
    revisions that only earlier reads would need, first in the index and then
    in the backend, as a job that runs beside the transactions. *)

From S2P Require Import Prelude Errors Utils WalIo KeyIndex TreeIndex KvPb BoltApi TxBuffer Backend KvHash.

Module kvstore.
Import mvcc mvccpb kvhash.

Definition ErrCompacted : error := OtherError "mvcc: required revision has been compacted".
Definition ErrFutureRev : error := OtherError "mvcc: required revision is a future revision".

Definition restoreChunkKeys : Z := 10000.
Definition defaultCompactionBatchLimit : Z := 1000.

(** ** The lessor *)

(** What the store uses of [lease.Lessor], for items that are single keys;
    [Lookup] tells which leases there are. *)
Class Lessor := {
  lessor : Type;
  le_Lookup : lessor -> Z -> bool;
  le_GetLease : lessor -> string -> Z;
  le_Attach : lessor -> Z -> string -> lessor * option error;
  le_Detach : lessor -> Z -> string -> lessor * option error
}.

Definition NoLease : Z := 0.

Section Store.
Context `{BTreeLib} `{BoltLib} `{Lessor}.

(** ** Data *)

(** A job of the scheduler, with the channel that is closed when it is done:
    a compaction, or a barrier that only closes the channel. *)
Inductive job : Type :=
  | JCompact (ch : nat) (rev prevCompactRev : Z) (prevCompactionCompleted : bool)
  | JBarrier (ch : nat).

(** Where a running compaction is: the items of the index that are left, with
    the revisions to keep of those before, or the bucket key from which the
    next batch starts. *)
Inductive phase : Type :=
  | Indexing (todo : list keyIndex) (available : gset Revision)
  | Batching (last : bytes) (h : kvHasher).

Record compaction := MkCompaction {
  c_ch : nat;
  c_rev : Z;
  c_prev : Z;
  c_completed : bool;
  c_phase : phase
}.

(** The scheduler runs one job after the other.  [chans] counts the channels,
    [closed] lists those that were closed. *)
Record scheduler := MkSched {
  pendings : list job;
  running : option compaction;
  chans : nat;
  closed : list nat
}.

(** [le] is [None] when it is nil. *)
Record store := MkStore {
  CompactionBatchLimit : Z;
  b : backend.backend;
  kvindex : bt;
  le : option lessor;
  currentRev : Z;
  compactMainRev : Z;
  hashes : list KeyValueHash;
  fifoSched : scheduler
}.

Definition with_b (s : store) (b : backend.backend) : store :=
  MkStore (CompactionBatchLimit s) b (kvindex s) (le s) (currentRev s) (compactMainRev s) (hashes s) (fifoSched s).

Definition with_index (s : store) (t : bt) : store :=
  MkStore (CompactionBatchLimit s) (b s) t (le s) (currentRev s) (compactMainRev s) (hashes s) (fifoSched s).

Definition with_le (s : store) (l : option lessor) : store :=
  MkStore (CompactionBatchLimit s) (b s) (kvindex s) l (currentRev s) (compactMainRev s) (hashes s) (fifoSched s).

Definition with_revs (s : store) (cur comp : Z) : store :=
  MkStore (CompactionBatchLimit s) (b s) (kvindex s) (le s) cur comp (hashes s) (fifoSched s).

Definition with_sched (s : store) (f : scheduler) : store :=
  MkStore (CompactionBatchLimit s) (b s) (kvindex s) (le s) (currentRev s) (compactMainRev s) (hashes s) f.

Definition with_hashes (s : store) (l : list KeyValueHash) : store :=
  MkStore (CompactionBatchLimit s) (b s) (kvindex s) (le s) (currentRev s) (compactMainRev s) l (fifoSched s).

(** [Hooks.OnPreCommitUnsafe] of the backend. *)
Context (hook : backend.backend -> outcome backend.backend).

(** ** store.go *)

(** [tx.UnsafeRange] of a transaction, without an end key. *)
Definition UnsafeReadCompact (tx : backend.baseReadTx) (name : bytes) : outcome (option Z) :=
  l ← backend.r_UnsafeRange tx schema.Meta name None 0;
  match l with
  | [] => Ret None
  | x :: _ => r ← BytesToRev (snd x); Ret (Some (Main r))
  end.

Definition UnsafeReadFinishedCompact (tx : backend.baseReadTx) : outcome (option Z) :=
  UnsafeReadCompact tx schema.FinishedCompactKeyName.

Definition UnsafeReadScheduledCompact (tx : backend.baseReadTx) : outcome (option Z) :=
  UnsafeReadCompact tx schema.ScheduledCompactKeyName.

Definition UnsafeSetScheduledCompact (b : backend.backend) (value : Z) : outcome backend.backend :=
  rbytes ← RevToBytes (MkRev value 0) NewRevBytes;
  backend.UnsafePut b schema.Meta schema.ScheduledCompactKeyName rbytes.

Definition SetScheduledCompact (b : backend.backend) (value : Z) : outcome backend.backend :=
  b ← UnsafeSetScheduledCompact b value; backend.Unlock hook b.

Definition UnsafeSetFinishedCompact (b : backend.backend) (value : Z) : outcome backend.backend :=
  rbytes ← RevToBytes (MkRev value 0) NewRevBytes;
  backend.UnsafePut b schema.Meta schema.FinishedCompactKeyName rbytes.

Definition SetFinishedCompact (b : backend.backend) (value : Z) : outcome backend.backend :=
  b ← UnsafeSetFinishedCompact b value; backend.Unlock hook b.

(** ** kvstore_txn.go *)

Record RangeOptions := MkRange {
  Limit : Z;
  Rev : Z;
  Count : bool
}.

Record RangeResult := MkResult {
  KVs : list KeyValue;
  r_Rev : Z;
  r_Count : Z
}.

Inductive ReadTxMode : Type := ConcurrentReadTxMode | SharedBufReadTxMode.

(** A read transaction holds what it was opened with: the locks keep the
    shared one from changing while it is open. *)
Record storeTxnRead := MkTxnRead {
  tr_tx : backend.baseReadTx;
  firstRev : Z;
  tr_rev : Z
}.

Definition Read (s : store) (mode : ReadTxMode) : store * storeTxnRead :=
  let '(b', tx) := match mode with
                   | ConcurrentReadTxMode => backend.ConcurrentReadTx (b s)
                   | SharedBufReadTxMode => (b s, backend.readTx (b s))
                   end in
  (with_b s b', MkTxnRead tx (compactMainRev s) (currentRev s)).

(** The loop of [rangeKeys] over the revisions; [read] is
    [tx.UnsafeRange(schema.Key, revBytes, nil, 0)], and [done i] is the error
    of the context before the [i]-th round. *)
Fixpoint load_kvs (read : bytes -> outcome (list kvp)) (done : nat -> option error) (i : nat)
    (revs : list Revision) : outcome (error + list KeyValue) :=
  match revs with
  | [] => Ret (inr [])
  | revpair :: revs =>
      match done i with
      | Some err => Ret (inl err)
      | None =>
          revBytes ← RevToBytes revpair NewRevBytes;
          vs ← read revBytes;
          match vs with
          | [x] =>
              match KeyValue_Unmarshal (snd x) with
              | inl _ => Panic "failed to unmarshal mvccpb.KeyValue"
              | inr kv =>
                  r ← load_kvs read done (S i) revs;
                  Ret (match r with inl err => inl err | inr kvs => inr (kv :: kvs) end)
              end
          | _ => Panic "range failed to find revision pair"
          end
      end
  end.

Definition rangeKeys (s : store) (read : bytes -> outcome (list kvp)) (done : nat -> option error)
    (key : string) (end_ : option string) (curRev : Z) (ro : RangeOptions)
    : outcome (option RangeResult * option error) :=
  let rev := Rev ro in
  if curRev <? rev then Ret (Some (MkResult [] curRev (-1)), Some ErrFutureRev)
  else
    let rev := if rev <=? 0 then curRev else rev in
    if rev <? compactMainRev s then Ret (Some (MkResult [] 0 (-1)), Some ErrCompacted)
    else if Count ro then
      total ← treeIndex.CountRevisions (kvindex s) key end_ rev;
      Ret (Some (MkResult [] curRev total), None)
    else
      '(revpairs, total) ← treeIndex.Revisions (kvindex s) key end_ rev (Limit ro);
      match revpairs with
      | [] => Ret (Some (MkResult [] curRev total), None)
      | _ =>
          let len := Z.of_nat (length revpairs) in
          let limit := if (Limit ro <=? 0) || (len <? Limit ro) then len else Limit ro in
          r ← load_kvs read done 0 (take (Z.to_nat limit) revpairs);
          Ret (match r with
               | inl err => (None, Some err)
               | inr kvs => (Some (MkResult kvs curRev total), None)
               end)
      end.

Definition tr_Range (s : store) (tr : storeTxnRead) (done : nat -> option error) (key : string)
    (end_ : option string) (ro : RangeOptions) : outcome (option RangeResult * option error) :=
  rangeKeys s (fun k => backend.r_UnsafeRange (tr_tx tr) schema.Key k None 0) done key end_ (tr_rev tr) ro.

Record storeTxnWrite := MkTxnWrite {
  beginRev : Z;
  changes : list KeyValue
}.

Definition Write (s : store) : storeTxnWrite := MkTxnWrite (currentRev s) [].

(** The revision that reads of the transaction use. *)
Definition tw_rev (tw : storeTxnWrite) : Z :=
  match changes tw with [] => beginRev tw | _ => i64 (beginRev tw + 1) end.

Definition tw_Range (s : store) (tw : storeTxnWrite) (done : nat -> option error) (key : string)
    (end_ : option string) (ro : RangeOptions) : outcome (option RangeResult * option error) :=
  rangeKeys s (fun k => backend.b_UnsafeRange (b s) schema.Key k [] 0) done key end_ (tw_rev tw) ro.

(** The lease of a key moves from [oldLease] to [leaseID]. *)
Definition move_lease (l : option lessor) (oldLease leaseID : Z) (key : string) : outcome (option lessor) :=
  if oldLease =? leaseID then Ret l
  else
    l ← (if oldLease =? NoLease then Ret l
         else match l with
              | None => Panic "no lessor to detach lease"
              | Some l => Ret (Some (fst (le_Detach l oldLease key)))
              end);
    if leaseID =? NoLease then Ret l
    else match l with
         | None => Panic "no lessor to attach lease"
         | Some l =>
             match le_Attach l leaseID key with
             | (l, None) => Ret (Some l)
             | (_, Some _) => Panic "unexpected error from lease Attach"
             end
         end.

(** If the key exists before: its creating revision, lease and version. *)
Definition previous (s : store) (key : string) (rev : Z) (found : result (Revision * Revision * Z))
    : outcome (Z * Z * Z) :=
  match found with
  | inl _ => Ret (rev, NoLease, 0)
  | inr (_, created, ver) =>
      match le s with
      | None => backend.nil_deref
      | Some l => Ret (Main created, le_GetLease l key, ver)
      end
  end.

Definition tw_put (s : store) (tw : storeTxnWrite) (key : string) (value : bytes) (leaseID : Z)
    : outcome (store * storeTxnWrite) :=
  let rev := i64 (beginRev tw + 1) in
  found ← treeIndex.Get (kvindex s) key rev;
  '(c, oldLease, ver) ← previous s key rev found;
  let idxRev := MkRev rev (Z.of_nat (length (changes tw))) in
  ibytes ← RevToBytes idxRev NewRevBytes;
  let kv := MkKV key c rev (i64 (ver + 1)) value leaseID [] in
  b' ← backend.UnsafeSeqPut (b s) schema.Key ibytes (KeyValue_Marshal kv);
  t ← treeIndex.Put (kvindex s) key idxRev;
  l ← move_lease (le s) oldLease leaseID key;
  Ret (with_le (with_index (with_b s b') t) l, MkTxnWrite (beginRev tw) (changes tw ++ [kv])).

Definition tw_delete (s : store) (tw : storeTxnWrite) (key : string) : outcome (store * storeTxnWrite) :=
  let idxRev := newBucketKey (i64 (beginRev tw + 1)) (Z.of_nat (length (changes tw))) true in
  ibytes ← BucketKeyToBytes idxRev NewRevBytes;
  let kv := MkKV key 0 0 0 [] 0 [] in
  b' ← backend.UnsafeSeqPut (b s) schema.Key ibytes (KeyValue_Marshal kv);
  '(t, err) ← treeIndex.Tombstone (kvindex s) key (bk_Revision idxRev);
  match err, le s with
  | Some _, _ => Panic "failed to tombstone an existing key"
  | None, None => backend.nil_deref
  | None, Some l =>
      let leaseID := le_GetLease l key in
      let l := if leaseID =? NoLease then l else fst (le_Detach l leaseID key) in
      Ret (with_le (with_index (with_b s b') t) (Some l), MkTxnWrite (beginRev tw) (changes tw ++ [kv]))
  end.

Fixpoint delete_keys (s : store) (tw : storeTxnWrite) (keys : list string) : outcome (store * storeTxnWrite) :=
  match keys with
  | [] => Ret (s, tw)
  | key :: keys => '(s, tw) ← tw_delete s tw key; delete_keys s tw keys
  end.

Definition deleteRange (s : store) (tw : storeTxnWrite) (key : string) (end_ : option string)
    : outcome (store * storeTxnWrite * Z) :=
  '(keys, _) ← treeIndex.Range (kvindex s) key end_ (tw_rev tw);
  '(s, tw) ← delete_keys s tw keys;
  Ret (s, tw, Z.of_nat (length keys)).

Definition tw_DeleteRange (s : store) (tw : storeTxnWrite) (key : string) (end_ : option string)
    : outcome (store * storeTxnWrite * (Z * Z)) :=
  '(s, tw, n) ← deleteRange s tw key end_;
  Ret (s, tw, if negb (n =? 0) || (0 <? length (changes tw))%nat
              then (n, i64 (beginRev tw + 1)) else (0, beginRev tw)).

Definition tw_Put (s : store) (tw : storeTxnWrite) (key : string) (value : bytes) (leaseID : Z)
    : outcome (store * storeTxnWrite * Z) :=
  '(s, tw) ← tw_put s tw key value leaseID; Ret (s, tw, i64 (beginRev tw + 1)).

Definition tw_End (s : store) (tw : storeTxnWrite) : outcome store :=
  let s := match changes tw with
           | [] => s
           | _ => with_revs s (i64 (currentRev s + 1)) (compactMainRev s)
           end in
  b' ← backend.Unlock hook (b s); Ret (with_b s b').

(** ** kvstore.go: compaction *)

Definition schedule (s : store) (j : nat -> job) : store * nat :=
  let f := fifoSched s in
  (with_sched s (MkSched (pendings f ++ [j (chans f)]) (running f) (S (chans f)) (closed f)), chans f).

Definition close_chan (s : store) (ch : nat) : store :=
  let f := fifoSched s in
  with_sched s (MkSched (pendings f) (running f) (chans f) (ch :: closed f)).

(** The channel is nil unless [rev] is compacted already. *)
Definition updateCompactRev (s : store) (rev : Z) : outcome (store * (option nat * Z * option error)) :=
  if rev <=? compactMainRev s then
    let '(s, ch) := schedule s JBarrier in Ret (s, (Some ch, 0, Some ErrCompacted))
  else if currentRev s <? rev then Ret (s, (None, 0, Some ErrFutureRev))
  else
    let prev := compactMainRev s in
    let s := with_revs s (currentRev s) rev in
    b' ← SetScheduledCompact (b s) rev;
    b' ← backend.ForceCommit hook b';
    Ret (with_b s b', (None, prev, None)).

Definition checkPrevCompactionCompleted (s : store) : outcome bool :=
  scheduled ← UnsafeReadScheduledCompact (backend.readTx (b s));
  finished ← UnsafeReadFinishedCompact (backend.readTx (b s));
  Ret ((default 0 scheduled =? default 0 finished)
       && Bool.eqb (bool_decide (is_Some scheduled)) (bool_decide (is_Some finished))).

Definition compactLockfree (s : store) (rev : Z) : outcome (store * (option nat * option error)) :=
  completed ← checkPrevCompactionCompleted s;
  '(s, (ch, prev, err)) ← updateCompactRev s rev;
  match err with
  | Some _ => Ret (s, (ch, err))
  | None =>
      let '(s, ch) := schedule s (fun ch => JCompact ch rev prev completed) in
      Ret (s, (Some ch, None))
  end.

(** The same, with the lock of the store. *)
Definition Compact (s : store) (rev : Z) : outcome (store * (option nat * option error)) :=
  compactLockfree s rev.

(** ** kvstore_compaction.go *)

(** The loop over the pairs of a batch: the revision of the last one. *)
Fixpoint compact_pairs (keep : gset Revision) (bk : backend.backend) (h : kvHasher) (rev : Revision)
    (l : list kvp) : outcome (backend.backend * kvHasher * Revision) :=
  match l with
  | [] => Ret (bk, h, rev)
  | x :: l =>
      rev ← BytesToRev (fst x);
      bk ← (if bool_decide (rev ∈ keep) then Ret bk else backend.UnsafeDelete bk schema.Key (fst x));
      h ← WriteKeyValue h (fst x) (snd x);
      compact_pairs keep bk h rev l
  end.

(** A round of the loop of [scheduleCompaction]: the checksum when it is the
    last one, or the bucket key to go on from. *)
Definition compact_batch (s : store) (compactMainRev : Z) (last : bytes) (h : kvHasher)
    : outcome (store * (KeyValueHash + bytes * kvHasher)) :=
  let end_ := Uint64ToBytes (u64 (compactMainRev + 1)) in
  let batchNum := CompactionBatchLimit s in
  l ← backend.b_UnsafeRange (b s) schema.Key last end_ batchNum;
  '(b', h, rev) ← compact_pairs (keeps h) (b s) h (MkRev 0 0) l;
  if Z.of_nat (length l) <? batchNum then
    b' ← UnsafeSetFinishedCompact b' compactMainRev;
    b' ← backend.Unlock hook b';
    Ret (with_b s b', inl (Sum h))
  else
    b' ← backend.Unlock hook b';
    last ← RevToBytes (MkRev (Main rev) (i64 (Sub rev + 1))) last;
    b' ← backend.ForceCommit hook b';
    Ret (with_b s b', inr (last, h)).

(** The job ends. *)
Definition finish_job (s : store) (ch : nat) : store :=
  let f := fifoSched s in
  with_sched s (MkSched (pendings f) None (chans f) (ch :: closed f)).

Definition finish_compaction (s : store) (c : compaction) (h : KeyValueHash) : store :=
  finish_job (if c_completed c then with_hashes s (kvhash.Store (hashes s) h) else s) (c_ch c).

Definition with_phase (s : store) (c : compaction) (p : phase) : store :=
  let f := fifoSched s in
  with_sched s (MkSched (pendings f)
    (Some (MkCompaction (c_ch c) (c_rev c) (c_prev c) (c_completed c) p)) (chans f) (closed f)).

(** A step of the scheduler: it takes the next job, compacts an item of the
    index, or deletes a batch of pairs. *)
Definition sched_step (s : store) : outcome store :=
  let f := fifoSched s in
  match running f with
  | None =>
      match pendings f with
      | [] => Ret s
      | JBarrier ch :: js => Ret (with_sched s (MkSched js None (chans f) (ch :: closed f)))
      | JCompact ch rev prev completed :: js =>
          Ret (with_sched s (MkSched js
            (Some (MkCompaction ch rev prev completed (Indexing (bt_Ascend (kvindex s)) ∅)))
            (chans f) (closed f)))
      end
  | Some c =>
      match c_phase c with
      | Indexing (keyi :: todo) available =>
          '(t, available) ← treeIndex.compact_item (c_rev c) (kvindex s) available keyi;
          Ret (with_phase (with_index s t) c (Indexing todo available))
      | Indexing [] keep =>
          Ret (with_phase s c (Batching (repeat Byte.x00 17) (newKVHasher (c_prev c) (c_rev c) keep)))
      | Batching last h =>
          '(s, r) ← compact_batch s (c_rev c) last h;
          Ret (match r with
               | inl hash => finish_compaction s c hash
               | inr (last, h) => with_phase s c (Batching last h)
               end)
      end
  end.

(** [scheduleCompaction] when the store is stopped: the index and one batch,
    then the job is given up and its channel closed. *)
Definition interrupt (s : store) : outcome store :=
  match running (fifoSched s) with
  | None => Ret s
  | Some c =>
      '(s, last, h) ← match c_phase c with
                      | Indexing todo available =>
                          '(t, keep) ← treeIndex.compact_items (c_rev c) (kvindex s) available todo;
                          Ret (with_index s t, repeat Byte.x00 17, newKVHasher (c_prev c) (c_rev c) keep)
                      | Batching last h => Ret (s, last, h)
                      end;
      '(s, r) ← compact_batch s (c_rev c) last h;
      Ret (match r with
           | inl hash => finish_compaction s c hash
           | inr _ => finish_job s (c_ch c)
           end)
  end.

(** Closing the stop channel and stopping the scheduler: the jobs that wait
    end without having closed their channels. *)
Definition stop_sched (s : store) : outcome store :=
  s ← interrupt s;
  let f := fifoSched s in
  Ret (with_sched s (MkSched [] None (chans f) (closed f))).

Definition Close (s : store) : outcome store := stop_sched s.

Definition Commit (s : store) : outcome store :=
  b' ← backend.ForceCommit hook (b s); Ret (with_b s b').

(** ** Checksums *)

Definition hash (s : store) : outcome (store * (result Z * Z)) :=
  b' ← backend.ForceCommit hook (b s);
  Ret (with_b s b', (backend.Hash b' (Some schema.DefaultIgnores), currentRev s)).

Definition hashByRev (s : store) (rev : Z) : outcome (result KeyValueHash * Z) :=
  if (0 <? rev) && (rev <? compactMainRev s) then Ret (inl ErrCompacted, 0)
  else if (0 <? rev) && (currentRev s <? rev) then Ret (inl ErrFutureRev, currentRev s)
  else
    let rev := if rev =? 0 then currentRev s else rev in
    keep ← treeIndex.Keep (kvindex s) rev;
    h ← unsafeHashByRev (backend.readTx (b s)) (compactMainRev s) rev keep;
    Ret (inr h, currentRev s).

Definition HashByRev (s : store) (rev : Z) : outcome (result KeyValueHash * Z) :=
  match find_hash (hashes s) rev with
  | Some h => Ret (inr h, currentRev s)
  | None => hashByRev s rev
  end.

(** ** Restoring *)

(** [restoreIntoIndex] for a pair: its cache holds pointers to items of the
    index, so what it finds is the item of the index.  The largest revision
    seen so far is that of the last pair. *)
Definition restore_index (t : bt) (key : bytes) (kv : KeyValue) : outcome (bt * Z) :=
  rev ← BytesToRev key;
  let ki := newKeyIndex (Key kv) in
  match treeIndex.KeyIndex t ki with
  | Some ki =>
      ki ← (if isTombstone key
            then '(ki, _) ← mvcc.tombstone ki (Main rev) (Sub rev); Ret ki
            else mvcc.put ki (Main rev) (Sub rev));
      Ret (bt_ReplaceOrInsert t ki, Main rev)
  | None =>
      ki ← (if isTombstone key
            then mvcc.restoreTombstone ki (Main rev) (Sub rev)
            else mvcc.restore ki (MkRev (CreateRevision kv) 0) rev (Version kv));
      Ret (treeIndex.Insert t ki, Main rev)
  end.

Record restoring := MkRestoring {
  rs_index : bt;
  rs_rev : Z;
  keyToLease : gmap string Z
}.

(** [restoreChunk], and the index at the other end of the channel. *)
Fixpoint restoreChunk (r : restoring) (l : list kvp) : outcome restoring :=
  match l with
  | [] => Ret r
  | x :: l =>
      match KeyValue_Unmarshal (snd x) with
      | inl _ => Panic "failed to unmarshal mvccpb.KeyValue"
      | inr kv =>
          let leases := if isTombstone (fst x) || (Lease kv =? NoLease)
                        then delete (Key kv) (keyToLease r)
                        else <[Key kv := Lease kv]> (keyToLease r) in
          '(t, rev) ← restore_index (rs_index r) (fst x) kv;
          restoreChunk (MkRestoring t rev leases) l
      end
  end.

(** The loop over the chunks; [fuel] bounds its rounds. *)
Fixpoint restore_chunks (fuel : nat) (chunk : Z) (tx : backend.baseReadTx) (min max : bytes)
    (r : restoring) : outcome restoring :=
  match fuel with
  | O => Hang
  | S fuel =>
      l ← backend.r_UnsafeRange tx schema.Key min (Some max) chunk;
      match last l with
      | None => Ret r
      | Some x =>
          r ← restoreChunk r l;
          if Z.of_nat (length l) <? chunk then Ret r
          else
            newMin ← BytesToRev (take revBytesLen (fst x));
            min ← RevToBytes (MkRev (Main newMin) (i64 (Sub newMin + 1))) min;
            restore_chunks fuel chunk tx min max r
      end
  end.

(** Every round but the last reads a pair. *)
Definition restore_rounds (tx : backend.baseReadTx) : nat :=
  S (length (txBuffer.r_ForEach (backend.rbuf tx) schema.Key)
     + match backend.rtx tx with
       | Some t => length (default [] (bolt_Bucket t (txBuffer.Name schema.Key)))
       | None => 0
       end).

Fixpoint attach_all (l : option lessor) (ks : list (string * Z)) : outcome (option lessor) :=
  match ks with
  | [] => Ret l
  | (key, lid) :: ks =>
      match l with
      | None => Panic "no lessor to attach lease"
      | Some l => attach_all (Some (fst (le_Attach l lid key))) ks
      end
  end.

Definition restore_store (s : store) : outcome store :=
  min ← RevToBytes (MkRev 1 0) NewRevBytes;
  max ← RevToBytes (MkRev backend.MaxInt64 backend.MaxInt64) NewRevBytes;
  let tx := backend.readTx (b s) in
  finished ← UnsafeReadFinishedCompact tx;
  let s := match finished with Some c => with_revs s (currentRev s) c | None => s end in
  scheduled ← UnsafeReadScheduledCompact tx;
  r ← restore_chunks (restore_rounds tx) restoreChunkKeys tx min max (MkRestoring (kvindex s) 1 ∅);
  let scheduledCompact := default 0 scheduled in
  let cur := Z.max (Z.max (rs_rev r) (compactMainRev s)) scheduledCompact in
  let s := with_revs (with_index s (rs_index r)) cur (compactMainRev s) in
  l ← attach_all (le s) (map_to_list (keyToLease r));
  let s := with_le s l in
  if scheduledCompact <=? compactMainRev s then Ret s
  else if scheduledCompact =? 0 then Ret s
  else '(s, _) ← compactLockfree s scheduledCompact; Ret s.

Definition new_sched : scheduler := MkSched [] None 0 [].

Definition NewStore (bk : backend.backend) (l : option lessor) (CompactionBatchLimit : Z) : outcome store :=
  let limit := if CompactionBatchLimit =? 0 then defaultCompactionBatchLimit else CompactionBatchLimit in
  bk ← backend.UnsafeCreateBucket bk schema.Key;
  bk ← backend.UnsafeCreateBucket bk schema.Meta;
  bk ← backend.Unlock hook bk;
  bk ← backend.ForceCommit hook bk;
  restore_store (MkStore limit bk treeIndex.newTreeIndex l 1 (-1) [] new_sched).

Definition Restore (s : store) (bk : backend.backend) : outcome store :=
  s ← stop_sched s;
  let s := with_revs (with_index (with_b s bk) treeIndex.newTreeIndex) 1 (-1) in
  restore_store s.

End Store.
End kvstore.
