(* ===== verification/KvHistory.v ===== *)
(** * Histories of etcd's store

    A history is the list of the changes of keys, in the order of their
    revisions.  It determines the key-value pairs at every revision, and the
    records that the changes leave in the [Key] bucket. *)

From S2P Require Import Prelude Errors Utils KeyIndex KeyTimeline RevBytes TreeIndex IndexLog KvPb BoltApi.

Module KvHistory.
Import mvcc mvccpb Timeline IndexLog RevBytes.

(** A put with its value and its lease, or a deletion. *)
Record kchange := MkChange {
  x_key : string;
  x_rev : Revision;
  x_val : option (bytes * Z)
}.

(** ** The pairs *)

(** What a change makes of its key. *)
Definition kv_of (m : gmap string KeyValue) (x : kchange) : KeyValue :=
  match x_val x with
  | Some (v, lease) =>
      let '(c, ver) := match m !! x_key x with
                       | Some kv => (CreateRevision kv, Version kv)
                       | None => (Main (x_rev x), 0)
                       end in
      MkKV (x_key x) c (Main (x_rev x)) (i64 (ver + 1)) v lease []
  | None => MkKV (x_key x) 0 0 0 [] 0 []
  end.

Definition apply_kv (m : gmap string KeyValue) (x : kchange) : gmap string KeyValue :=
  match x_val x with
  | Some _ => <[x_key x := kv_of m x]> m
  | None => delete (x_key x) m
  end.

Definition kv_now (h : list kchange) : gmap string KeyValue := fold_left apply_kv h ∅.

(** The pairs at a revision. *)
Definition kv_at (h : list kchange) (c : Z) : gmap string KeyValue :=
  kv_now (filter (fun x => Main (x_rev x) <= c) h).

Lemma kv_now_snoc h x : kv_now (h ++ [x]) = apply_kv (kv_now h) x.
Proof. unfold kv_now. by rewrite fold_left_app. Qed.

Lemma kv_at_snoc h x c : kv_at (h ++ [x]) c =
  if decide (Main (x_rev x) <= c) then apply_kv (kv_at h c) x else kv_at h c.
Proof.
  unfold kv_at. rewrite filter_app. case_decide.
  - by rewrite (filter_cons_True _ x []), filter_nil, kv_now_snoc.
  - by rewrite (filter_cons_False _ x []), filter_nil, app_nil_r.
Qed.

(** ** The records *)

Abbreviation record := (BucketKey * KeyValue)%type.

Definition rev_of (x : record) : Revision := bk_Revision (fst x).

Definition rec_of (m : gmap string KeyValue) (x : kchange) : record :=
  (MkBucketKey (x_rev x) (bool_decide (x_val x = None)), kv_of m x).

Fixpoint recs_from (m : gmap string KeyValue) (h : list kchange) : list record :=
  match h with
  | [] => []
  | x :: h => rec_of m x :: recs_from (apply_kv m x) h
  end.

Definition recs (h : list kchange) : list record := recs_from ∅ h.

Lemma recs_from_app m h1 h2 :
  recs_from m (h1 ++ h2) = recs_from m h1 ++ recs_from (fold_left apply_kv h1 m) h2.
Proof. revert m. induction h1 as [|x h1 IH]; intros m; [done|]. cbn. by rewrite IH. Qed.

Lemma recs_snoc h x : recs (h ++ [x]) = recs h ++ [rec_of (kv_now h) x].
Proof. unfold recs. by rewrite recs_from_app. Qed.

(** The pair of a record in the bucket. *)
Definition encode (x : record) : kvp := (key_bytes (fst x), KeyValue_Marshal (snd x)).

Lemma kv_of_Key m x : Key (kv_of m x) = x_key x.
Proof.
  unfold kv_of. destruct (x_val x) as [[v l]|]; [|done].
  by destruct (m !! x_key x).
Qed.

Lemma recs_from_elem h r : r ∈ recs h -> exists h1 x h2, h = h1 ++ x :: h2 /\ r = rec_of (kv_now h1) x.
Proof.
  induction h as [|x h IH] using rev_ind; [by intros ?%not_elem_of_nil|].
  rewrite recs_snoc. intros [Hr|Hr%list_elem_of_singleton]%elem_of_app.
  - destruct (IH Hr) as (h1 & y & h2 & -> & ->). exists h1, y, (h2 ++ [x]).
    split; [|done]. by rewrite <- app_assoc.
  - by exists h, x, [].
Qed.

Lemma recs_change h r : r ∈ recs h -> exists x, x ∈ h /\ x_rev x = rev_of r /\ x_key x = Key (snd r) /\
  tombstone_mark (fst r) = bool_decide (x_val x = None).
Proof.
  intros (h1 & x & h2 & -> & ->)%recs_from_elem. exists x.
  split; [apply elem_of_app; right; by left|]. cbn. by rewrite kv_of_Key.
Qed.

Lemma length_recs h : length (recs h) = length h.
Proof. induction h as [|x h IH] using rev_ind; [done|]. rewrite recs_snoc, !length_app, IH. done. Qed.

(** ** Histories that the store makes *)

(** A record that can be stored and read back. *)
Definition fits (r : record) : Prop := valid (fst r) /\ kv_fits (snd r) /\ storable (encode r).

(** A change that may come next. *)
Definition allowed (h : list kchange) (x : kchange) : Prop :=
  1 < Main (x_rev x) /\ (forall y, y ∈ h -> rev_lt (x_rev y) (x_rev x)) /\
  Sub (x_rev x) < 2 ^ 63 - 1 /\
  (forall y, y ∈ h -> x_key y = x_key x -> x_val y = None -> Main (x_rev y) < Main (x_rev x)) /\
  (x_val x = None -> is_Some (kv_now h !! x_key x)) /\
  fits (rec_of (kv_now h) x).

#[global] Instance rev_lt_dec a b : Decision (rev_lt a b).
Proof. unfold rev_lt. apply _. Defined.

#[global] Instance fits_dec r : Decision (fits r).
Proof. unfold fits, valid, kv_fits. apply _. Defined.

#[global] Instance forall_in_dec {A} (P : A -> Prop) `{forall x, Decision (P x)} (l : list A) : Decision (forall x, x ∈ l -> P x).
Proof. refine (cast_if (decide (Forall P l))); by rewrite <- Forall_forall. Defined.

#[global] Instance allowed_dec h x : Decision (allowed h x).
Proof. unfold allowed. apply _. Defined.

Inductive wf : list kchange -> Prop :=
  | wf_nil : wf []
  | wf_snoc h x : wf h -> allowed h x -> wf (h ++ [x]).

Lemma wf_snoc_inv h x : wf (h ++ [x]) -> wf h /\ allowed h x.
Proof.
  intros Hw. inversion Hw as [E|h' x' Hw' Ha E].
  - by destruct h.
  - apply app_inj_tail in E as [-> ->]. done.
Qed.

Lemma wf_app h1 h2 : wf (h1 ++ h2) -> wf h1.
Proof.
  induction h2 as [|x h2 IH] using rev_ind; [by rewrite app_nil_r|].
  rewrite app_assoc. intros [Hw _]%wf_snoc_inv. by apply IH.
Qed.

Lemma wf_fits h r : wf h -> r ∈ recs h -> fits r.
Proof.
  induction 1 as [|h x Hw IH Ha]; [by intros ?%not_elem_of_nil|]. rewrite recs_snoc.
  intros [Hr| ->%list_elem_of_singleton]%elem_of_app; [by apply IH|]. apply Ha.
Qed.

Definition erase (x : kchange) : change :=
  match x_val x with Some _ => CPut (x_key x) (x_rev x) | None => CDel (x_key x) (x_rev x) end.

Definition erased (h : list kchange) : list change := map erase h.

Lemma erase_key x : c_key (erase x) = x_key x.
Proof. unfold erase. by destruct (x_val x). Qed.

Lemma erase_rev x : c_rev (erase x) = x_rev x.
Proof. unfold erase. by destruct (x_val x). Qed.

Lemma erase_del x k r : erase x = CDel k r -> x_key x = k /\ x_rev x = r /\ x_val x = None.
Proof. unfold erase. destruct (x_val x); [done|]. by intros [= <- <-]. Qed.

Lemma erased_snoc h x : erased (h ++ [x]) = erased h ++ [erase x].
Proof. unfold erased. by rewrite map_app. Qed.

Lemma elem_of_erased h y : y ∈ erased h <-> exists x, x ∈ h /\ y = erase x.
Proof.
  unfold erased. split.
  - intros (x & -> & Hx)%list_elem_of_fmap. eauto.
  - intros (x & Hx & ->). apply list_elem_of_fmap. eauto.
Qed.

Lemma wf_ordered h : wf h -> ordered (erased h).
Proof.
  induction 1 as [|h x Hw IH (_ & Hlt & _ & Hdel & _)]; [constructor|]. rewrite erased_snoc.
  apply StronglySorted_app. split; [|split; [done|repeat constructor]].
  intros y z (u & Hu & ->)%elem_of_erased ->%list_elem_of_singleton. split.
  - rewrite !erase_rev. by apply Hlt.
  - intros (Ek & _ & Ev)%erase_del. rewrite !erase_rev. rewrite erase_key in Ek. by apply Hdel.
Qed.

Lemma state_at_snoc h x c : state_at (h ++ [x]) c =
  if decide (Main (c_rev x) <= c) then apply_change (state_at h c) x else state_at h c.
Proof.
  unfold state_at. rewrite filter_app. case_decide.
  - rewrite (filter_cons_True _ x []), filter_nil, fold_left_app by done. done.
  - by rewrite (filter_cons_False _ x []), filter_nil, app_nil_r.
Qed.

(** What the index knows of a key at a revision is what its pair says, and the
    record of its last change holds the pair. *)
Definition agrees (h : list kchange) (k : string) (o : option kstate) (okv : option KeyValue) : Prop :=
  match o, okv with
  | Some (r, cr, v), Some kv =>
      (MkBucketKey r false, kv) ∈ recs h /\ Key kv = k /\
      ModRevision kv = Main r /\ CreateRevision kv = Main cr /\ Version kv = v
  | None, None => True
  | _, _ => False
  end.

Lemma agrees_snoc h x k o okv : agrees h k o okv -> agrees (h ++ [x]) k o okv.
Proof.
  unfold agrees. destruct o as [[[r cr] v]|], okv as [kv|]; try done.
  rewrite recs_snoc. intros [Hr ?]. split; [|done]. apply elem_of_app. by left.
Qed.

(** The changes up to a revision come first. *)
Lemma upto_prefix h x c : wf (h ++ [x]) -> Main (x_rev x) <= c -> kv_at h c = kv_now h.
Proof.
  intros [_ (_ & Hlt & _)]%wf_snoc_inv Hx. unfold kv_at. rewrite filter_all; [done|].
  apply Forall_forall. intros y Hy. specialize (Hlt y Hy). apply rev_lt_spec in Hlt. lia.
Qed.

Lemma state_agrees h c k : wf h -> agrees h k (state_at (erased h) c !! k) (kv_at h c !! k).
Proof.
  induction 1 as [|h x Hw IH Ha]; [done|]. pose proof (wf_snoc h x Hw Ha) as Hw'.
  rewrite erased_snoc, state_at_snoc, kv_at_snoc, erase_rev. apply (agrees_snoc h x) in IH.
  case_decide as Hc; [|done]. pose proof (upto_prefix h x c Hw' Hc) as Enow.
  unfold apply_change, erase, apply_kv. destruct (x_val x) as [[v l]|] eqn:Ev; cbn [c_key].
  - destruct (decide (x_key x = k)) as [<-|Hk].
    + rewrite !lookup_insert_eq.
      assert (rec_of (kv_now h) x ∈ recs (h ++ [x])) as Hin by (rewrite recs_snoc; apply elem_of_app; right; by left).
      revert IH Hin. unfold rec_of, kv_of. rewrite Ev, Enow. unfold agrees.
      destruct (state_at (erased h) c !! x_key x) as [[[r cr] ver]|], (kv_now h !! x_key x) as [kv|]; try done.
      intros (_ & Ek & _ & Ec & Evv) Hin. cbn. by rewrite <- Ec, <- Evv.
    + by rewrite !lookup_insert_ne.
  - destruct (decide (x_key x = k)) as [<-|Hk].
    + by rewrite !lookup_delete_eq.
    + by rewrite !lookup_delete_ne.
Qed.

(** ** What a compaction keeps *)

Lemma timeline_sorted k h : ordered h -> StronglySorted before (key_timeline k h).
Proof.
  induction h as [|x h IH] using rev_ind; intros Ho; [constructor|].
  apply ordered_snoc in Ho as [Ho Hx]. rewrite key_timeline_snoc. unfold add_entry.
  case_decide as Hk; [|by apply IH]. apply sorted_snoc; [by apply IH|].
  intros e (l & El)%last_Some. assert (e ∈ key_timeline k h) as He by (rewrite El; apply elem_of_app; right; by left).
  apply key_timeline_from in He as (y & Hy & Ek & Er & Ed). destruct (Hx y Hy) as [Hlt Hdel]. rewrite Er in Hlt, Hdel.
  match goal with |- before _ ?e' => assert (fst e' = c_rev x) as Ef end.
  { destruct x as [k' r|k' r]; [|done]. by destruct (next_fst (key_timeline k h) r). }
  unfold before. rewrite Ef. split; [done|]. intros En. apply Hdel. rewrite Hk. by apply Ed.
Qed.

(** The last change of a key up to [c'] is also the last one up to an earlier
    [c] at which it was made already. *)
Lemma live_earlier h c c' r : ordered h -> Main r <= c <= c' -> live h c' r -> live h c r.
Proof.
  intros Ho Hc (k & cr & v & E). exists k, cr, v. rewrite <- read_timeline in * by done.
  unfold read in *. rewrite (last_filter_later c c') in E by (lia || by apply timeline_sorted).
  destruct (last (filter (upto c') _)) as [[r1 [[cr1 v1]|]]|] eqn:El; [|done|done].
  injection E as -> -> ->. apply last_Some in El as [l El].
  assert ((r, Some (cr, v)) ∈ filter (upto c') (filter (fun e => ~ upto c e) (key_timeline k h))) as Hin
    by (rewrite El; apply elem_of_app; right; by left).
  apply list_elem_of_filter in Hin as [_ [Hn _]%list_elem_of_filter]. unfold upto in Hn. cbn in Hn. lia.
Qed.

(** What reads at [c] and later need. *)
Definition needed (h : list change) (c : Z) (r : Revision) : Prop :=
  c < Main r \/ live h c r \/ deleted h c r.

Lemma live_snoc h x c r : c < Main (c_rev x) -> live (h ++ [x]) c r <-> live h c r.
Proof. intros Hx. unfold live. by rewrite state_at_snoc, decide_False by lia. Qed.

Lemma deleted_snoc h x c r : c < Main (c_rev x) -> deleted (h ++ [x]) c r <-> deleted h c r.
Proof.
  intros Hx. unfold deleted. split; intros [Hm [k Hk]]; (split; [done|]); exists k.
  - apply elem_of_app in Hk as [Hk|<-%list_elem_of_singleton]; [done|]. cbn in Hx. lia.
  - apply elem_of_app. by left.
Qed.

Lemma needed_snoc h x c r : c < Main (c_rev x) -> needed (h ++ [x]) c r <-> needed h c r.
Proof. intros Hx. unfold needed. by rewrite live_snoc, deleted_snoc. Qed.

Lemma needed_earlier h c c' r : ordered h -> c <= c' -> needed h c' r -> needed h c r.
Proof.
  intros Ho Hc. destruct (Z.lt_ge_cases c (Main r)) as [?|Hr]; [by left|].
  intros [?|[Hl|[Hm Hd]]]; [lia| |].
  - right. left. by eapply live_earlier.
  - right. right. split; [lia|done].
Qed.

(** ** The bucket *)

(** The records of a history without those that compactions have deleted. *)
Definition bucket_of (h : list kchange) (gone : gset Revision) : list kvp :=
  map encode (filter (fun x => rev_of x ∉ gone) (recs h)).

Lemma rec_of_rev m x : rev_of (rec_of m x) = x_rev x.
Proof. done. Qed.

Lemma bucket_snoc h x gone : x_rev x ∉ gone ->
  bucket_of (h ++ [x]) gone = bucket_of h gone ++ [encode (rec_of (kv_now h) x)].
Proof.
  intros Hx. unfold bucket_of. rewrite recs_snoc, filter_app, map_app.
  by rewrite filter_cons_True, filter_nil.
Qed.

Lemma recs_sorted h : wf h -> StronglySorted (fun a b => rev_lt (rev_of a) (rev_of b)) (recs h).
Proof.
  induction 1 as [|h x Hw IH (_ & Hlt & _)]; [constructor|]. rewrite recs_snoc.
  apply StronglySorted_app. split; [|split; [done|repeat constructor]].
  intros a b (y & Hy & Er & _)%recs_change ->%list_elem_of_singleton. rewrite rec_of_rev, <- Er. by apply Hlt.
Qed.

Lemma recs_unique h a b : wf h -> a ∈ recs h -> b ∈ recs h -> rev_of a = rev_of b -> a = b.
Proof.
  intros Hw%recs_sorted. induction Hw as [|x l Hs IH Hx]; [by intros ?%not_elem_of_nil|].
  rewrite Forall_forall in Hx.
  assert (forall y, y ∈ l -> rev_of x <> rev_of y) as Hne.
  { intros y Hy E. specialize (Hx y Hy). apply rev_lt_spec in Hx. rewrite E in Hx. lia. }
  intros [->|Ha]%elem_of_cons [->|Hb]%elem_of_cons E; [done|..|by apply IH].
  - by destruct (Hne b Hb).
  - by destruct (Hne a Ha).
Qed.

Lemma rev_lt_klt a b : fits a -> fits b -> rev_lt (rev_of a) (rev_of b) -> Pairs.klt (encode a) (encode b).
Proof. intros (Ha & _) (Hb & _) Hlt. unfold Pairs.klt. cbn. apply key_bytes_ltb; [done..|]. by left. Qed.

Lemma map_encode_sorted l : Forall fits l -> StronglySorted (fun a b => rev_lt (rev_of a) (rev_of b)) l ->
  Pairs.sorted (map encode l).
Proof.
  intros Hf. induction 1 as [|x l Hs IH Hx]; [constructor|]. apply Forall_cons in Hf as [Hfx Hf].
  constructor; [by apply IH|]. apply Forall_forall. intros y (z & -> & Hz)%list_elem_of_fmap.
  rewrite Forall_forall in Hx, Hf. apply rev_lt_klt; [done|by apply Hf|by apply Hx].
Qed.

Lemma sorted_filter {A} (R : A -> A -> Prop) (P : A -> Prop) `{forall x, Decision (P x)} l :
  StronglySorted R l -> StronglySorted R (filter P l).
Proof.
  induction 1 as [|x l Hs IH Hx]; [constructor|]. destruct (decide (P x)).
  - rewrite filter_cons_True by done. constructor; [done|]. rewrite Forall_forall in *.
    intros y [_ Hy]%list_elem_of_filter. by apply Hx.
  - by rewrite filter_cons_False.
Qed.

Lemma bucket_sorted h gone : wf h -> Pairs.sorted (bucket_of h gone).
Proof.
  intros Hw. apply map_encode_sorted; [|by apply sorted_filter, recs_sorted].
  apply Forall_forall. intros x [_ Hx]%list_elem_of_filter. by eapply wf_fits.
Qed.

Lemma elem_of_bucket h gone p : p ∈ bucket_of h gone <-> exists x, x ∈ recs h /\ rev_of x ∉ gone /\ p = encode x.
Proof.
  unfold bucket_of. split.
  - intros (x & -> & [Hg Hx]%list_elem_of_filter)%list_elem_of_fmap. eauto.
  - intros (x & Hx & Hg & ->). apply list_elem_of_fmap. exists x. split; [done|]. by apply list_elem_of_filter.
Qed.

Lemma bucket_find h gone x : wf h -> x ∈ recs h -> rev_of x ∉ gone ->
  Pairs.find (key_bytes (fst x)) (bucket_of h gone) = Some (KeyValue_Marshal (snd x)).
Proof.
  intros Hw Hx Hg. apply Pairs.find_Some; [by apply bucket_sorted|]. apply elem_of_bucket. by exists x.
Qed.

Lemma encode_key a b : fits a -> fits b -> key_bytes (fst a) = key_bytes (fst b) -> fst a = fst b.
Proof.
  intros (Ha & _) (Hb & _) E. pose proof (bytes_to_key _ Ha) as Ea. rewrite E, (bytes_to_key _ Hb) in Ea.
  by injection Ea as <-.
Qed.

Lemma bucket_del h gone x : wf h -> x ∈ recs h ->
  Pairs.del (key_bytes (fst x)) (bucket_of h gone) = bucket_of h ({[rev_of x]} ∪ gone).
Proof.
  intros Hw Hx. apply Pairs.sorted_ext; [apply Pairs.filter_pairs_sorted; by apply bucket_sorted|by apply bucket_sorted|].
  intros p. rewrite Pairs.elem_of_del, !elem_of_bucket. split.
  - intros [(y & Hy & Hg & ->) Hne]. exists y. split; [done|]. split; [|done].
    rewrite elem_of_union, elem_of_singleton. intros [E|?]; [|done]. apply Hne. cbn.
    by rewrite (recs_unique h y x).
  - intros (y & Hy & Hg & ->). rewrite elem_of_union, elem_of_singleton in Hg. split; [exists y; naive_solver|].
    cbn. intros E. apply Hg. left. unfold rev_of.
    by rewrite (encode_key y x) by (done || by eapply wf_fits).
Qed.

(** What compactions up to [c] may have deleted: nothing that is needed, and of
    every key the oldest records. *)
Record gone_ok (h : list kchange) (c : Z) (gone : gset Revision) : Prop := {
  g_unneeded : forall x, x ∈ recs h -> rev_of x ∈ gone -> ~ needed (erased h) c (rev_of x);
  g_oldest : forall x y, x ∈ recs h -> y ∈ recs h -> Key (snd x) = Key (snd y) ->
    rev_lt (rev_of x) (rev_of y) -> rev_of y ∈ gone -> rev_of x ∈ gone;
  g_made : forall r, r ∈ gone -> exists x, x ∈ recs h /\ rev_of x = r
}.

Lemma gone_later h c gone r : gone_ok h c gone -> r ∈ gone -> Main r <= c.
Proof.
  intros [Hu _ Hm] Hr. destruct (Hm r Hr) as (x & Hx & <-). specialize (Hu x Hx Hr).
  destruct (Z.le_gt_cases (Main (rev_of x)) c); [done|]. destruct Hu. by left.
Qed.

Lemma gone_snoc h c gone x : gone_ok h c gone -> wf (h ++ [x]) -> c < Main (x_rev x) ->
  gone_ok (h ++ [x]) c gone.
Proof.
  intros Hg Hw Hx. pose proof Hg as [Hu Ho Hm]. apply wf_snoc_inv in Hw as [Hw (_ & Hlt & _)].
  assert (forall y, y ∈ recs (h ++ [x]) -> rev_of y ∈ gone -> y ∈ recs h) as Hin.
  { intros y. rewrite recs_snoc. intros [?| ->%list_elem_of_singleton]%elem_of_app; [done|].
    rewrite rec_of_rev. intros Hgx%(gone_later _ _ _ _ Hg). lia. }
  split.
  - intros y Hy Hgy. rewrite erased_snoc, needed_snoc by (by rewrite erase_rev). apply Hu; [by apply Hin|done].
  - intros y z Hy Hz Ek Hyz Hgz. pose proof (Hin z Hz Hgz) as Hz'. eapply (Ho y z); try done.
    rewrite recs_snoc in Hy. apply elem_of_app in Hy as [?| ->%list_elem_of_singleton]; [done|].
    apply recs_change in Hz' as (u & Hu' & Er & _). specialize (Hlt u Hu'). rewrite rec_of_rev, <- Er in Hyz.
    apply rev_lt_spec in Hlt, Hyz. lia.
  - intros r Hr. destruct (Hm r Hr) as (y & Hy & <-). exists y. split; [|done]. rewrite recs_snoc. apply elem_of_app. by left.
Qed.

Lemma gone_mono h c c' gone : wf h -> c <= c' -> gone_ok h c gone -> gone_ok h c' gone.
Proof.
  intros Hw Hc [Hu Ho Hm]. split; [|done..]. intros x Hx Hg Hn. apply (Hu x Hx Hg).
  eapply needed_earlier; [by apply wf_ordered|exact Hc|done].
Qed.

End KvHistory.
