(* ===== verification/KvReads.v ===== *)
(** * Reads of etcd's store

    A range at a revision that is not compacted returns the pairs that the
    history of the changes leaves at that revision, in the order of their keys,
    up to the limit, and their number. *)

From S2P Require Import Prelude Errors Utils KeyIndex KeyTimeline RevBytes TreeIndex IndexLog KvPb BoltApi Backend KvStore KvHistory.

Module KvReads.
Import mvcc mvccpb Timeline IndexLog RevBytes kvstore KvHistory.

Lemma omap_cons_eq {A B} (f : A -> option B) x l :
  omap f (x :: l) = match f x with Some y => y :: omap f l | None => omap f l end.
Proof. reflexivity. Qed.

(** ** Keys in order *)

Definition in_end (key : string) (end_ : option string) (k : string) : bool :=
  match end_ with None => String.eqb k key | Some e => in_range key e k end.

Fixpoint place_key (k : string) (l : list string) : list string :=
  match l with
  | [] => [k]
  | y :: l' => if str_ltb k y then k :: l else if String.eqb k y then l else y :: place_key k l'
  end.

(** The keys of a range, in order. *)
Definition keys_in (m : gmap string KeyValue) (key : string) (end_ : option string) : list string :=
  fold_right place_key [] (List.filter (in_end key end_) (map fst (map_to_list m))).

Definition kvs_in (m : gmap string KeyValue) (key : string) (end_ : option string) : list KeyValue :=
  omap (fun k => m !! k) (keys_in m key end_).

Lemma elem_of_place_key k l x : x ∈ place_key k l <-> x = k \/ x ∈ l.
Proof.
  induction l as [|y l IH]; cbn [place_key]; [rewrite list_elem_of_singleton, elem_of_nil; tauto|].
  destruct (str_ltb k y); [by rewrite !elem_of_cons|].
  destruct (String.eqb_spec k y) as [->|_]; rewrite !elem_of_cons; [tauto|]. rewrite IH. tauto.
Qed.

Lemma place_key_sorted k l : StronglySorted str_lt l -> StronglySorted str_lt (place_key k l).
Proof.
  induction 1 as [|y l Hs IH Hy]; cbn [place_key]; [by repeat constructor|].
  destruct (str_ltb k y) eqn:E.
  - constructor; [by constructor|]. constructor; [exact E|]. eapply Forall_impl; [exact Hy|].
    intros z Hz. by eapply str_lt_trans.
  - destruct (String.eqb_spec k y) as [->|Hne]; [by constructor|]. constructor; [done|].
    apply Forall_forall. intros z [->|Hz]%elem_of_place_key; [|by rewrite Forall_forall in Hy; apply Hy].
    by destruct (str_ltb_false _ _ E).
Qed.

Lemma keys_in_sorted m key end_ : StronglySorted str_lt (keys_in m key end_).
Proof. unfold keys_in. induction (List.filter _ _); [constructor|]. by apply place_key_sorted. Qed.

Lemma elem_of_keys_in m key end_ k : k ∈ keys_in m key end_ <-> in_end key end_ k = true /\ is_Some (m !! k).
Proof.
  assert (k ∈ keys_in m key end_ <-> k ∈ List.filter (in_end key end_) (map fst (map_to_list m))) as ->.
  { unfold keys_in. induction (List.filter _ _) as [|y l IH]; [done|]. cbn [fold_right].
    by rewrite elem_of_place_key, elem_of_cons, IH. }
  rewrite !list_elem_of_In, filter_In, in_map_iff. split.
  - intros [([k' kv] & <- & Hin) Hk]. split; [done|]. exists kv. by apply elem_of_map_to_list, list_elem_of_In.
  - intros [Hk [kv Ekv]]. split; [|done]. exists (k, kv). split; [done|].
    by apply list_elem_of_In, elem_of_map_to_list.
Qed.

Lemma sorted_keys_eq (l l' : list string) : StronglySorted str_lt l -> StronglySorted str_lt l' ->
  (forall k, k ∈ l <-> k ∈ l') -> l = l'.
Proof.
  intros Hs. revert l'. induction Hs as [|x l Hs IH Hx]; intros l' Hs' Hm.
  - destruct l' as [|y l']; [done|]. assert (y ∈ @nil string) as ?%not_elem_of_nil by (apply Hm; by left). done.
  - destruct Hs' as [|y l' Hs' Hy]; [assert (x ∈ @nil string) as ?%not_elem_of_nil by (apply Hm; by left); done|].
    rewrite Forall_forall in Hx, Hy. assert (x = y) as <-.
    { destruct (proj1 (elem_of_cons l' x y) (proj1 (Hm x) (list_elem_of_here _ _))) as [?|H1]; [done|].
      destruct (proj1 (elem_of_cons l y x) (proj2 (Hm y) (list_elem_of_here _ _))) as [?|H2]; [done|].
      destruct (str_lt_irrefl x). by eapply str_lt_trans; [apply Hx|apply Hy]. }
    f_equal. apply IH; [done|]. intros k. specialize (Hm k). rewrite !elem_of_cons in Hm. split; intros Hk.
    + destruct (proj1 Hm (or_intror Hk)) as [->|?]; [|done]. by destruct (str_lt_irrefl x); apply Hx.
    + destruct (proj2 Hm (or_intror Hk)) as [->|?]; [|done]. by destruct (str_lt_irrefl x); apply Hy.
Qed.

(** ** What a range returns *)

(** The error of the context that [n] rounds meet first. *)
Fixpoint first_err (done : nat -> option error) (i n : nat) : option error :=
  match n with
  | O => None
  | S n => match done i with Some err => Some err | None => first_err done (S i) n end
  end.

Definition spec_range (h : list kchange) (compactRev curRev : Z) (done : nat -> option error)
    (key : string) (end_ : option string) (ro : RangeOptions) : option RangeResult * option error :=
  if curRev <? Rev ro then (Some (MkResult [] curRev (-1)), Some ErrFutureRev)
  else
    let rev := if Rev ro <=? 0 then curRev else Rev ro in
    if rev <? compactRev then (Some (MkResult [] 0 (-1)), Some ErrCompacted)
    else
      let all := kvs_in (kv_at h rev) key end_ in
      let total := Z.of_nat (length all) in
      if Count ro then (Some (MkResult [] curRev total), None)
      else
        let kvs := if Limit ro <=? 0 then all else take (Z.to_nat (Limit ro)) all in
        match first_err done 0 (length kvs) with
        | Some err => (None, Some err)
        | None => (Some (MkResult kvs curRev total), None)
        end.

Lemma rev_bytes r : valid (MkBucketKey r false) -> RevToBytes r NewRevBytes = Ret (key_bytes (MkBucketKey r false)).
Proof. intros Hv. unfold RevToBytes, newBucketKey. destruct r. by apply bytes_of_key. Qed.

(** A revision of which the record can be read gives its pair. *)
Definition loads (read : bytes -> outcome (list kvp)) (r : Revision) (kv : KeyValue) : Prop :=
  fits (MkBucketKey r false, kv) /\
  read (key_bytes (MkBucketKey r false)) = Ret [encode (MkBucketKey r false, kv)].

Lemma load_kvs_spec read done i revs kvs : Forall2 (loads read) revs kvs ->
  load_kvs read done i revs = Ret (match first_err done i (length kvs) with Some err => inl err | None => inr kvs end).
Proof.
  intros Hl. revert i. induction Hl as [|r kv revs kvs [(Hv & Hkv & _) Hr] Hl IH]; intros i; [done|].
  cbn [load_kvs length first_err]. destruct (done i); [done|].
  rewrite rev_bytes, ret_bind, Hr, ret_bind by done. cbn [encode snd fst].
  rewrite KeyValue_roundtrip by done. rewrite IH, ret_bind. by destruct (first_err done (S i) (length kvs)).
Qed.

Section Reads.
Context `{BTreeLaws} `{BoltLib} `{Lessor} (R : Revision -> Revision -> Prop) `{!Reflexive R}.

(** What the index finds of a range: the keys with their revisions. *)
Definition found_of (h : list kchange) (c : Z) (key : string) (end_ : option string)
    (found : list (string * Revision)) : Prop :=
  map fst found = keys_in (kv_at h c) key end_ /\
  forall k r, (k, r) ∈ found -> exists cr v, state_at (erased h) c !! k = Some (r, cr, v).

Lemma state_kv h c k : wf h -> is_Some (state_at (erased h) c !! k) <-> is_Some (kv_at h c !! k).
Proof.
  intros Hw. pose proof (state_agrees h c k Hw) as Ha. unfold agrees in Ha.
  destruct (state_at (erased h) c !! k) as [[[r cr] v]|], (kv_at h c !! k); try done.
Qed.

Lemma range_found h c key e found : wf h -> range_of (state_at (erased h) c) key e found ->
  found_of h c key (Some e) found.
Proof.
  intros Hw [Hs Hm]. split.
  - apply sorted_keys_eq; [done|apply keys_in_sorted|]. intros k.
    rewrite elem_of_keys_in, <- (state_kv h c k Hw). split.
    + intros ([k' r] & -> & Hin)%list_elem_of_fmap. apply Hm in Hin as [Hr (cr & v & E)]. split; [done|]. cbn. eauto.
    + intros [Hr [[[r cr] v] E]]. apply list_elem_of_fmap. exists (k, r). split; [done|]. apply Hm. eauto.
  - intros k r [_ ?]%Hm. done.
Qed.

Lemma keys_in_one m key : keys_in m key None = match m !! key with Some _ => [key] | None => [] end.
Proof.
  apply sorted_keys_eq; [apply keys_in_sorted|destruct (m !! key); repeat constructor|].
  intros k. rewrite elem_of_keys_in. cbn [in_end]. rewrite String.eqb_eq.
  destruct (m !! key) as [kv|] eqn:E.
  - rewrite list_elem_of_singleton. split; [by intros [-> _]|]. intros ->. by rewrite E.
  - rewrite elem_of_nil. split; [|done]. intros [-> Hs]. rewrite E in Hs. by destruct Hs.
Qed.

Lemma index_found t l h c key end_ : rep R t l -> hist l = erased h -> lvl l <= c -> wf h ->
  exists found, found_of h c key end_ found /\
    treeIndex.Range t key end_ c = Ret (map fst found, map snd found) /\
    treeIndex.CountRevisions t key end_ c = Ret (Z.of_nat (length found)) /\
    forall limit, treeIndex.Revisions t key end_ c limit =
      Ret (if (limit <=? 0) || bool_decide (end_ = None) then map snd found
           else take (Z.to_nat limit) (map snd found), Z.of_nat (length found)).
Proof.
  intros Hr Hh Hc Hw. destruct end_ as [e|]; cbn [treeIndex.Range treeIndex.CountRevisions treeIndex.Revisions].
  - destruct (visit_spec R t l key e c Hr Hc) as (found & E & Hf). rewrite Hh in Hf. exists found.
    split; [by apply range_found|]. rewrite E, !ret_bind. split; [done|]. split; [done|]. intros limit.
    by rewrite ret_bind, length_map, bool_decide_false, orb_false_r.
  - destruct (Get_spec R t l key c Hr Hc) as (o & E & Ho). rewrite Hh in Ho. unfold treeIndex.Get in E.
    rewrite E, !ret_bind. pose proof (state_kv h c key Hw) as Hkv.
    assert (found_of h c key None (match o with Some (r, _, _) => [(key, r)] | None => [] end)) as Hf.
    { split.
      - rewrite keys_in_one. revert Hkv. destruct Ho as [[[r cr] v] y Hy|]; intros Hkv.
        + destruct (proj1 Hkv) as [kv ->]; [eauto|done].
        + destruct (kv_at h c !! key) as [kv|]; [|done]. by destruct (proj2 Hkv (ex_intro _ kv eq_refl)).
      - intros k r. inversion Ho as [[[r' cr] v] [[r2 cr2] v2] [E1 _] Eo Es|Eo Es]; [|by intros ?%not_elem_of_nil].
        intros [= -> ->]%list_elem_of_singleton. cbn in E1. subst. eauto. }
    eexists. split; [exact Hf|]. destruct o as [[[r cr] v]|]; (split; [done|]; split; [done|]); intros limit;
      by rewrite bool_decide_true, orb_true_r.
Qed.

(** The records that a read at up to [curRev] looks up can be read. *)
Definition readable (h : list kchange) (compactRev curRev : Z) (read : bytes -> outcome (list kvp)) : Prop :=
  forall x, x ∈ recs h -> Main (rev_of x) <= curRev -> needed (erased h) compactRev (rev_of x) ->
    read (key_bytes (fst x)) = Ret [encode x].

Lemma found_loads h compactRev curRev c key end_ found read : wf h -> readable h compactRev curRev read ->
  compactRev <= c <= curRev -> found_of h c key end_ found ->
  Forall2 (loads read) (map snd found) (kvs_in (kv_at h c) key end_).
Proof.
  intros Hw Hread Hc [Hk Hst]. unfold kvs_in. rewrite <- Hk. clear Hk.
  induction found as [|[k r] found IH]; [constructor|]. cbn [map fst snd].
  destruct (Hst k r (list_elem_of_here _ _)) as (cr & v & E). pose proof (state_agrees h c k Hw) as Ha.
  unfold agrees in Ha. rewrite E in Ha. destruct (kv_at h c !! k) as [kv|] eqn:Ekv; [|done].
  destruct Ha as (Hin & _). rewrite omap_cons_eq, Ekv. constructor; [|apply IH; intros; apply Hst; by right].
  assert (Main r <= c) as Hr.
  { pose proof (wf_ordered h Hw) as Ho. rewrite <- read_timeline in E by done. unfold Timeline.read, at_rev in E.
    destruct (last (filter (upto c) _)) as [[r' [[cr' v']|]]|] eqn:El; [|done|done]. injection E as -> -> ->.
    apply last_Some in El as [l El]. assert ((r, Some (cr, v)) ∈ filter (upto c) (key_timeline k (erased h))) as Hf
      by (rewrite El; apply elem_of_app; right; by left). by apply list_elem_of_filter in Hf as [? _]. }
  split; [by eapply wf_fits|]. apply (Hread _ Hin); [cbn; lia|]. cbn.
  destruct (Z.lt_ge_cases compactRev (Main r)) as [?|Hle]; [by left|]. right. left.
  apply (live_earlier _ compactRev c); [by apply wf_ordered|lia|]. exists k. eauto.
Qed.

Lemma length_kvs_in m key end_ : length (kvs_in m key end_) = length (keys_in m key end_).
Proof.
  unfold kvs_in. assert (forall k, k ∈ keys_in m key end_ -> is_Some (m !! k)) as Hs.
  { by intros k [_ ?]%elem_of_keys_in. }
  induction (keys_in m key end_) as [|k l IH]; [done|].
  rewrite omap_cons_eq. destruct (Hs k (list_elem_of_here _ _)) as [kv ->]. cbn [length]. f_equal. apply IH. intros; apply Hs; by right.
Qed.

Lemma rangeKeys_spec s l h read done key end_ curRev ro :
  rep R (kvindex s) l -> hist l = erased h -> lvl l <= compactMainRev s -> wf h ->
  readable h (compactMainRev s) curRev read ->
  rangeKeys s read done key end_ curRev ro = Ret (spec_range h (compactMainRev s) curRev done key end_ ro).
Proof.
  intros Hr Hh Hl Hw Hread. unfold rangeKeys, spec_range. destruct (Z.ltb_spec curRev (Rev ro)); [done|].
  set (rev := if Rev ro <=? 0 then curRev else Rev ro).
  assert (rev <= curRev) as Hrc by (unfold rev; destruct (Rev ro <=? 0); lia).
  destruct (Z.ltb_spec rev (compactMainRev s)); [done|].
  destruct (index_found (kvindex s) l h rev key end_ Hr Hh) as (found & Hf & _ & Ecnt & Erev); [lia|done|].
  assert (length found = length (kvs_in (kv_at h rev) key end_)) as Hlen.
  { rewrite length_kvs_in, <- (proj1 Hf), length_map. done. }
  destruct (Count ro).
  { by rewrite Ecnt, ret_bind, Hlen. }
  rewrite Erev, ret_bind, Hlen.
  pose proof (found_loads h (compactMainRev s) curRev rev key end_ found read Hw Hread ltac:(lia) Hf) as Hload.
  set (all := kvs_in (kv_at h rev) key end_) in *.
  set (revs := if (Limit ro <=? 0) || bool_decide (end_ = None) then map snd found
               else take (Z.to_nat (Limit ro)) (map snd found)).
  set (kvs := if Limit ro <=? 0 then all else take (Z.to_nat (Limit ro)) all).
  assert (end_ = None -> length found <= 1)%nat as Hone.
  { intros ->. destruct Hf as [Hk _]. rewrite keys_in_one in Hk. rewrite <- (length_map fst), Hk.
    destruct (kv_at h rev !! key); cbn; lia. }
  assert (Z.of_nat (length revs) <= Limit ro \/ Limit ro <= 0) as Hcut.
  { unfold revs. destruct (Z.leb_spec (Limit ro) 0); [by right|left]. cbn [orb].
    case_bool_decide as He; [rewrite length_map; specialize (Hone He); lia|]. rewrite length_take. lia. }
  assert (Forall2 (loads read) revs kvs) as Hlk.
  { unfold revs, kvs. destruct (Z.leb_spec (Limit ro) 0) as [Hlim|Hlim]; [done|]. cbn [orb].
    case_bool_decide as He; [|by apply Forall2_take].
    rewrite take_ge; [done|]. rewrite <- Hlen. specialize (Hone He). lia. }
  destruct revs as [|r0 revs0] eqn:Erevs.
  { assert (kvs = []) as -> by (by inversion Hlk). done. }
  rewrite <- Erevs in *. set (limit := if _ || _ then _ else _).
  assert (take (Z.to_nat limit) revs = revs) as ->.
  { apply take_ge. unfold limit. destruct (Z.leb_spec (Limit ro) 0); cbn [orb]; [lia|].
    destruct (Z.ltb_spec (Z.of_nat (length revs)) (Limit ro)); lia. }
  rewrite (load_kvs_spec read done 0 revs kvs Hlk), ret_bind. by destruct (first_err done 0 (length kvs)).
Qed.

End Reads.
End KvReads.
