(* ===== verification/KvInv.v ===== *)
(** * The invariant of etcd's store

    What the index, the backend and the running compaction have to do with the
    history of the changes, and that the steps of transactions keep it. *)

From S2P Require Import Prelude Errors Utils KeyIndex KeyTimeline RevBytes TreeIndex IndexLog KvPb BoltApi TxBuffer Backend BackendLog KvHash KvStore KvHistory KvReads.

Module KvInv.
Import mvcc mvccpb Timeline RevBytes kvhash kvstore KvHistory KvReads.

(** ** The lessor *)

(** What the documentation of [lease.Lessor] says: a key is attached to an
    existing lease, and detached from it, and then has it, or none. *)
Class LessorLaws `{Lessor} : Prop := {
  le_attach : forall l id k, le_Lookup l id = true -> exists l', le_Attach l id k = (l', None) /\
    (forall i, le_Lookup l' i = le_Lookup l i) /\
    forall k', le_GetLease l' k' = if decide (k' = k) then id else le_GetLease l k';
  le_detach : forall l id k, le_Lookup l id = true -> exists l', le_Detach l id k = (l', None) /\
    (forall i, le_Lookup l' i = le_Lookup l i) /\
    forall k', le_GetLease l' k' = if decide (k' = k) then NoLease else le_GetLease l k'
}.

(** ** A state of the backend *)

(** The history, the revisions that compactions have deleted, and the
    revisions of the last compaction that was scheduled and finished. *)
Record disk := MkDisk {
  d_hist : list kchange;
  d_gone : gset Revision;
  d_sched : option Z;
  d_fin : option Z
}.

Definition enc_rev (c : Z) : bytes := key_bytes (MkBucketKey (MkRev c 0) false).

(** What the buckets hold. *)
Definition on_disk (m : gmap Z (list kvp)) (d : disk) : Prop :=
  m !! txBuffer.ID schema.Key = Some (bucket_of (d_hist d) (d_gone d)) /\
  exists l, m !! txBuffer.ID schema.Meta = Some l /\ Pairs.sorted l /\
    Pairs.find schema.ScheduledCompactKeyName l = enc_rev <$> d_sched d /\
    Pairs.find schema.FinishedCompactKeyName l = enc_rev <$> d_fin d.

(** The revision up to which reads may find nothing. *)
Definition d_lvl (d : disk) : Z := default (-1) (d_sched d).

(** The revision of the last transaction. *)
Definition cur_of (h : list kchange) : Z :=
  match last h with Some x => Main (x_rev x) | None => 1 end.

(** No record up to [f] is left that is not needed there. *)
Definition swept (h : list kchange) (gone : gset Revision) (f : Z) : Prop :=
  forall x, x ∈ recs h -> rev_of x ∉ gone -> Main (rev_of x) <= f -> needed (erased h) f (rev_of x).

Record disk_ok (d : disk) : Prop := {
  d_wf : wf (d_hist d);
  d_gone_ok : gone_ok (d_hist d) (d_lvl d) (d_gone d);
  d_sched_ok : forall c, d_sched d = Some c -> 0 < c <= cur_of (d_hist d);
  d_fin_ok : forall f, d_fin d = Some f -> 0 < f <= d_lvl d /\ swept (d_hist d) (d_gone d) f
}.

(** ** The index *)

(** A creating revision is known by its transaction. *)
Definition same_main (a b : Revision) : Prop := Main a = Main b.
#[export] Instance same_main_refl : Reflexive same_main.
Proof. by intros r. Qed.

Definition end_rev (h : list kchange) : Revision :=
  match last h with Some x => x_rev x | None => MkRev 0 0 end.

Section Inv.
Context `{BTL : BTreeLaws} `{BLL : BoltLaws} `{LEL : LessorLaws}.

(** The leases that exist. *)
Context (has : Z -> bool).

Definition indexed (t : bt) (h : list kchange) (ilvl : Z) : Prop :=
  IndexLog.rep same_main t (IndexLog.MkLog (erased h) (end_rev h) ilvl).

(** ** The scheduler *)

Definition job_rev (j : job) : option Z :=
  match j with JCompact _ rev _ _ => Some rev | JBarrier _ => None end.

Definition job_revs (f : scheduler) : list Z :=
  match running f with Some c => [c_rev c] | None => [] end ++ omap job_rev (pendings f).

(** The channels of the jobs that have not ended. *)
Definition job_ch (j : job) : nat := match j with JCompact ch _ _ _ | JBarrier ch => ch end.

Definition open_chans (f : scheduler) : list nat :=
  match running f with Some c => [c_ch c] | None => [] end ++ map job_ch (pendings f).

(** Where the running compaction is: the revisions to keep of the keys it has
    passed, or what it has deleted. *)
Definition phase_ok (t : bt) (h : list kchange) (gone : gset Revision) (c : Z) (p : phase) : Prop :=
  match p with
  | Indexing todo av =>
      NoDup (map ki_key todo) /\
      (forall k, k ∈ map ki_key todo -> is_Some (IndexLog.item t k)) /\
      forall r, r ∈ av <-> exists k o, k ∉ map ki_key todo /\
        kept c (IndexLog.key_timeline k (erased h)) = Some (r, o)
  | Batching last hs =>
      length last = 17%nat /\
      (forall r, r ∈ keeps hs <-> IndexLog.live (erased h) c r \/ IndexLog.deleted (erased h) c r) /\
      forall x, x ∈ recs h -> rev_of x ∉ gone -> bytes_ltb (key_bytes (fst x)) last = true ->
        Main (rev_of x) <= c -> needed (erased h) c (rev_of x)
  end.

Record sched_ok (f : scheduler) (t : bt) (h : list kchange) (d : disk) (ilvl : Z) : Prop := {
  f_sorted : StronglySorted Z.le (ilvl :: job_revs f ++ [d_lvl d]);
  f_last : match last (job_revs f) with Some c => d_sched d = Some c | None => d_fin d = d_sched d end;
  f_pos : Forall (fun c => 0 < c) (job_revs f);
  f_chans : forall ch, (ch < chans f)%nat -> ch ∈ closed f \/ ch ∈ open_chans f;
  f_running : forall c, running f = Some c -> ilvl = c_rev c /\ phase_ok t h (d_gone d) (c_rev c) (c_phase c)
}.

(** ** Transactions *)

Definition all_hist (d : disk) (txn : option (list kchange)) : list kchange := d_hist d ++ default [] txn.

(** The records that a reader may look up are in [m]. *)
Definition covers (m : gmap Z (list kvp)) (h : list kchange) (c r : Z) : Prop :=
  forall x, x ∈ recs h -> Main (rev_of x) <= r -> needed (erased h) c (rev_of x) ->
    Pairs.find (key_bytes (fst x)) (default [] (m !! txBuffer.ID schema.Key)) = Some (KeyValue_Marshal (snd x)).

Definition reader_ok (h : list kchange) (c : Z) (tr : storeTxnRead) (rev : Z) : Prop :=
  tr_rev tr = rev /\ rev <= cur_of h /\ exists m, BackendLog.reads_keys (tr_tx tr) m /\ covers m h c rev.

Definition txn_ok (s : store) (h : list kchange) (tw : option storeTxnWrite) (txn : option (list kchange)) : Prop :=
  match tw, txn with
  | None, None => True
  | Some tw, Some xs => beginRev tw = cur_of h /\ changes tw = map snd (recs_from (kv_now h) xs) /\
      Forall (fun x => Main (x_rev x) = cur_of h + 1) xs
  | _, _ => False
  end.

(** The lease of a put exists. *)
Definition lease_ok (x : kchange) : Prop :=
  match x_val x with Some (_, id) => id = NoLease \/ has id = true | None => True end.

(** The lessor knows the lease of every key. *)
Definition leases (l : lessor) (m : gmap string KeyValue) : Prop :=
  (forall k, le_GetLease l k = match m !! k with Some kv => Lease kv | None => NoLease end) /\
  forall k kv, m !! k = Some kv -> Lease kv = NoLease \/ has (Lease kv) = true.

(** The writer's state, what it has put, and what readers see. *)
Record backed (bk : backend.backend) (bs : BackendLog.spec) (d : disk) (txn : option (list kchange))
    (dd : disk) (n : Z) : Prop := {
  k_rep : exists dk, BackendLog.rep (bk, []) bs dk n /\ on_disk dk dd;
  k_openings : BackendLog.openings bs = 0%nat;
  k_seen : on_disk (BackendLog.seen bs) d;
  k_cur : on_disk (BackendLog.cur bs) (MkDisk (all_hist d txn) (d_gone d) (d_sched d) (d_fin d));
  k_held : txn = None -> BackendLog.held bs = false;
  k_done : forall k, (txBuffer.ID schema.Key, k) ∈ BackendLog.done_ bs ->
    exists x, x ∈ recs (all_hist d txn) /\ k = key_bytes (fst x)
}.

Record inv (s : store) (tw : option storeTxnWrite) (trs : list storeTxnRead)
    (d : disk) (txn : option (list kchange)) (rds : list Z) (dd : disk) (n : Z) : Prop := {
  i_disk : disk_ok d;
  i_all : wf (all_hist d txn);
  i_dd : disk_ok dd /\ d_hist dd `prefix_of` d_hist d;
  i_limit : 0 < CompactionBatchLimit s;
  i_cur : currentRev s = cur_of (d_hist d);
  i_comp : compactMainRev s = d_lvl d;
  i_backed : exists bs, backed (b s) bs d txn dd n;
  i_sched : exists ilvl, indexed (kvindex s) (all_hist d txn) ilvl /\
    sched_ok (fifoSched s) (kvindex s) (all_hist d txn) d ilvl;
  i_txn : txn_ok s (d_hist d) tw txn;
  i_readers : Forall2 (reader_ok (d_hist d) (d_lvl d)) trs rds;
  i_lease : exists l, le s = Some l /\ (forall i, le_Lookup l i = has i) /\ leases l (kv_now (all_hist d txn));
  i_held : Forall lease_ok (all_hist d txn)
}.

(** ** Changes *)

Lemma cur_bound h x : wf h -> x ∈ h -> Main (x_rev x) <= cur_of h.
Proof.
  intros Hw Hx. unfold cur_of. destruct (snoc_inv h) as [->|(h' & y & ->)]; [by apply not_elem_of_nil in Hx|].
  rewrite last_snoc. apply wf_snoc_inv in Hw as [_ (_ & Hlt & _)].
  apply elem_of_app in Hx as [Hx| ->%list_elem_of_singleton]; [|done]. specialize (Hlt x Hx). apply rev_lt_spec in Hlt. lia.
Qed.

Lemma cur_pos h : wf h -> 1 <= cur_of h.
Proof.
  intros Hw. unfold cur_of. destruct Hw as [|h x Hw (Hm & _)]; [done|]. rewrite last_snoc. lia.
Qed.

Lemma kv_at_all h c : wf h -> cur_of h <= c -> kv_at h c = kv_now h.
Proof.
  intros Hw Hc. unfold kv_at. rewrite filter_all; [done|]. apply Forall_forall. intros x Hx.
  pose proof (cur_bound h x Hw Hx). lia.
Qed.

Lemma end_rev_lt h x : allowed h x -> rev_lt (end_rev h) (x_rev x).
Proof.
  intros (Hm & Hlt & _). unfold end_rev. destruct (snoc_inv h) as [->|(h' & y & ->)].
  - apply rev_lt_spec. cbn. lia.
  - rewrite last_snoc. apply Hlt. apply elem_of_app. right. by left.
Qed.

Lemma allowed_legal t h ilvl x : indexed t h ilvl -> allowed h x -> ilvl < Main (x_rev x) ->
  IndexLog.legal_op (IndexLog.MkLog (erased h) (end_rev h) ilvl) (IndexLog.OPut (x_key x) (x_rev x)).
Proof.
  intros _ Ha Hl. split; [by apply end_rev_lt|]. split; [done|]. intros r' (y & Hy & E)%elem_of_erased.
  symmetry in E. apply erase_del in E as (Ek & <- & Ev). destruct Ha as (_ & _ & _ & Hd & _). by apply Hd.
Qed.

Lemma end_rev_snoc h x : end_rev (h ++ [x]) = x_rev x.
Proof. unfold end_rev. by rewrite last_snoc. Qed.

Lemma put_indexed t h ilvl x v : indexed t h ilvl -> allowed h x -> ilvl < Main (x_rev x) -> x_val x = Some v ->
  exists t', treeIndex.Put t (x_key x) (x_rev x) = Ret t' /\ indexed t' (h ++ [x]) ilvl /\
    forall k, is_Some (IndexLog.item t k) -> is_Some (IndexLog.item t' k).
Proof.
  intros Hi Ha Hl Ev. destruct (IndexLog.put_step same_main t _ (x_key x) (x_rev x) Hi) as (t' & E & Hr).
  { by eapply allowed_legal. }
  exists t'. split; [done|]. split.
  - unfold indexed. rewrite erased_snoc, end_rev_snoc. unfold erase. by rewrite Ev.
  - unfold treeIndex.Put in E. destruct (put _ _ _) as [ki| |]; [|done..]. rewrite ret_bind in E. injection E as <-.
    intros k' Hk. rewrite IndexLog.item_replace. by case_decide.
Qed.

Lemma delete_indexed t h ilvl x : indexed t h ilvl -> allowed h x -> ilvl < Main (x_rev x) -> x_val x = None ->
  wf h -> exists t', treeIndex.Tombstone t (x_key x) (x_rev x) = Ret (t', None) /\ indexed t' (h ++ [x]) ilvl /\
    forall k, is_Some (IndexLog.item t k) -> is_Some (IndexLog.item t' k).
Proof.
  intros Hi Ha Hl Ev Hw. destruct (IndexLog.tombstone_step same_main t _ (x_key x) (x_rev x) Hi) as (t' & E & Hr).
  { by eapply allowed_legal. }
  cbn [IndexLog.spec_step IndexLog.hist IndexLog.lastRev IndexLog.lvl] in *.
  assert (IndexLog.exists_now (IndexLog.MkLog (erased h) (end_rev h) ilvl) (x_key x) = true) as Hex.
  { unfold IndexLog.exists_now. apply bool_decide_eq_true. cbn. apply (state_kv h); [done|].
    destruct Ha as (_ & _ & _ & _ & Hs & _). rewrite kv_at_all; [by apply Hs|done|].
    unfold cur_of, end_rev. destruct (last h) eqn:El; [done|]. apply last_None in El. subst h.
    by destruct (Hs Ev) as [? ?]. }
  rewrite Hex in *. exists t'. split; [done|]. split.
  - unfold indexed. rewrite erased_snoc, end_rev_snoc. unfold erase. by rewrite Ev.
  - unfold treeIndex.Tombstone in E. destruct (bt_Get _ _); [|done]. destruct (tombstone _ _ _) as [[ki err]| |]; [|done..].
    rewrite ret_bind in E. injection E as <- _. intros k' Hk. rewrite IndexLog.item_replace. by case_decide.
Qed.

Lemma kept_later k h x c : c < Main (x_rev x) ->
  kept c (IndexLog.key_timeline k (erased (h ++ [x]))) = kept c (IndexLog.key_timeline k (erased h)).
Proof.
  intros Hx. rewrite erased_snoc, IndexLog.key_timeline_snoc. unfold IndexLog.add_entry. case_decide; [|done].
  rewrite IndexLog.kept_snoc, decide_False; [done|]. unfold upto, erase. destruct (x_val x); cbn; [|lia].
  destruct (next_fst (IndexLog.key_timeline k (erased h)) (x_rev x)) as [-> _]. lia.
Qed.

Lemma phase_snoc t t' h gone c p x : phase_ok t h gone c p -> c < Main (x_rev x) ->
  (forall k, is_Some (IndexLog.item t k) -> is_Some (IndexLog.item t' k)) -> phase_ok t' (h ++ [x]) gone c p.
Proof.
  intros Hp Hx Hi. destruct p as [todo av|last hs]; cbn [phase_ok] in *.
  - destruct Hp as (Hn & Hk & Hav). split; [done|]. split; [intros k ?; by apply Hi, Hk|].
    intros r. rewrite Hav. by setoid_rewrite kept_later.
  - destruct Hp as (Hl & Hk & Hp). split; [done|]. split.
    + intros r. rewrite erased_snoc, live_snoc, deleted_snoc by (by rewrite erase_rev). done.
    + intros y Hy Hg Hlt Hm. rewrite erased_snoc, needed_snoc by (by rewrite erase_rev). apply Hp; try done.
      rewrite recs_snoc in Hy. apply elem_of_app in Hy as [?| ->%list_elem_of_singleton]; [done|].
      rewrite rec_of_rev in Hm. lia.
Qed.

(** ** The backend *)

Lemma all_snoc d xs x : all_hist d (Some (xs ++ [x])) = all_hist d (Some xs) ++ [x].
Proof. unfold all_hist. cbn [default from_option id]. by rewrite app_assoc. Qed.

Lemma Key_All : schema.Key ∈ schema.AllBuckets.
Proof. left. Qed.

Lemma Meta_All : schema.Meta ∈ schema.AllBuckets.
Proof. right. left. Qed.

Lemma bucket_below h gone x p : wf h -> allowed h x -> p ∈ bucket_of h gone ->
  Pairs.klt p (encode (rec_of (kv_now h) x)).
Proof.
  intros Hw Ha (y & Hy & _ & ->)%elem_of_bucket. pose proof Ha as (_ & Hlt & _ & _ & _ & Hf).
  apply rev_lt_klt; [by eapply wf_fits|done|]. apply recs_change in Hy as (z & Hz & <- & _). by apply Hlt.
Qed.

Lemma rec_below h x y : wf h -> allowed h x -> y ∈ recs h ->
  bytes_ltb (key_bytes (fst y)) (key_bytes (fst (rec_of (kv_now h) x))) = true.
Proof.
  intros Hw Ha Hy. apply (bucket_below h ∅ x (encode y) Hw Ha). apply elem_of_bucket.
  exists y. split; [done|]. split; [apply not_elem_of_empty|done].
Qed.

(** A transaction puts a record. *)
Lemma backed_put bk bs d xs dd n x : let h := all_hist d (Some xs) in
  backed bk bs d (Some xs) dd n -> wf h -> allowed h x -> x_rev x ∉ d_gone d ->
  exists bk' bs', backend.UnsafeSeqPut bk schema.Key (key_bytes (fst (rec_of (kv_now h) x)))
      (KeyValue_Marshal (kv_of (kv_now h) x)) = Ret bk' /\
    backed bk' bs' d (Some (xs ++ [x])) dd n.
Proof.
  intros h [(dk & Hrep & Hdk) Ho Hs [Hc Hm] _ Hd] Hw Ha Hg. fold h in Hc, Hm, Hd. cbn [d_hist d_gone d_sched d_fin] in *.
  set (k := key_bytes _). set (v := KeyValue_Marshal _).
  destruct (BackendLog.op_step bk [] bs dk n (BackendLog.WSeqPut schema.Key k v) Hrep) as (bk' & E & Hrep').
  { split; [apply Key_All|]. split; [done|]. rewrite Hc. split; [eauto|].
    split; [apply Ha|]. split.
    - intros p Hp. by apply (bucket_below h (d_gone d) x).
    - intros k' (y & Hy & ->)%Hd. by apply rec_below. }
  exists bk', (BackendLog.spec_step bs (BackendLog.EOp (BackendLog.WSeqPut schema.Key k v))).
  split; [exact E|]. constructor; cbn [BackendLog.spec_step BackendLog.openings BackendLog.seen BackendLog.cur BackendLog.held BackendLog.done_]; [|done|done| |done|].
  - exists dk. split; [exact Hrep'|exact Hdk].
  - rewrite all_snoc. fold h. split; cbn [d_hist d_gone d_sched d_fin].
    + cbn [BackendLog.spec_op]. rewrite lookup_insert_eq, Hc. cbn [default from_option id].
      rewrite bucket_snoc by done. f_equal. apply Pairs.ins_end. intros p Hp. by apply (bucket_below h (d_gone d) x).
    + cbn [BackendLog.spec_op]. rewrite lookup_insert_ne by done. done.
  - intros k' [[= ->]|Hk']%elem_of_cons; rewrite all_snoc, recs_snoc.
    + exists (rec_of (kv_now h) x). split; [apply elem_of_app; right; by left|done].
    + destruct (Hd k' Hk') as (y & Hy & ->). exists y. split; [apply elem_of_app; by left|done].
Qed.

(** The records of a transaction are later than what is compacted. *)
Lemma txn_later d xs x : disk_ok d -> wf (all_hist d (Some xs)) -> Main (x_rev x) = cur_of (d_hist d) + 1 ->
  d_lvl d < Main (x_rev x) /\ x_rev x ∉ d_gone d.
Proof.
  intros [Hw Hg Hs _] _ Hx. assert (d_lvl d <= cur_of (d_hist d)) as Hl.
  { unfold d_lvl. pose proof (cur_pos _ Hw). destruct (d_sched d) as [c|] eqn:E; cbn; [by apply (Hs c)|lia]. }
  split; [lia|]. intros Hin. apply (gone_later _ _ _ _ Hg) in Hin. lia.
Qed.

Lemma sched_snoc f t t' h d ilvl x : sched_ok f t h d ilvl -> d_lvl d < Main (x_rev x) ->
  (forall k, is_Some (IndexLog.item t k) -> is_Some (IndexLog.item t' k)) ->
  sched_ok f t' (h ++ [x]) d ilvl.
Proof.
  intros [Hs Hl Hpos Hch Hr] Hx Hi. split; [done..|]. intros c Ec. destruct (Hr c Ec) as (Ei & Hp).
  split; [done|]. eapply phase_snoc; [exact Hp| |exact Hi].
  apply StronglySorted_inv in Hs as [_ Hf]. rewrite Forall_forall in Hf. rewrite <- Ei.
  specialize (Hf (d_lvl d)). assert (ilvl <= d_lvl d); [|lia]. apply Hf. apply elem_of_app. right. by left.
Qed.

Lemma ilvl_bound f t h d ilvl : sched_ok f t h d ilvl -> ilvl <= d_lvl d.
Proof.
  intros [Hs _ _ _ _]. apply StronglySorted_inv in Hs as [_ Hf]. rewrite Forall_forall in Hf. apply Hf.
  apply elem_of_app. right. by left.
Qed.

(** ** Leases *)

Lemma move_lease_spec l m h x v id kv : leases l m -> (forall i, le_Lookup l i = has i) ->
  kv = kv_of m x -> x_val x = Some (v, id) -> m = kv_now h -> (id = NoLease \/ has id = true) ->
  exists l', move_lease (Some l) (match m !! x_key x with Some kv => Lease kv | None => NoLease end) id (x_key x)
      = Ret (Some l') /\ (forall i, le_Lookup l' i = has i) /\ leases l' (apply_kv m x).
Proof.
  intros [Hg Hh] Hlk -> Ev Em Hid. set (old := match m !! x_key x with Some _ => _ | None => _ end).
  assert (old = NoLease \/ has old = true) as Hold.
  { unfold old. destruct (m !! x_key x) as [kv|] eqn:E; [by eapply Hh|by left]. }
  assert (Lease (kv_of m x) = id) as Elease.
  { unfold kv_of. rewrite Ev. by destruct (m !! x_key x). }
  assert (forall l', (forall i, le_Lookup l' i = has i) ->
    (forall k', le_GetLease l' k' = if decide (k' = x_key x) then id else le_GetLease l k') -> leases l' (apply_kv m x)) as Hend.
  { intros l' _ Hget. unfold apply_kv. rewrite Ev. split.
    - intros k. rewrite Hget. case_decide as Hk; [subst k; by rewrite lookup_insert_eq|].
      by rewrite lookup_insert_ne, Hg.
    - intros k kv. destruct (decide (x_key x = k)) as [<-|Hk].
      + rewrite lookup_insert_eq. intros [= <-]. by rewrite Elease.
      + rewrite lookup_insert_ne by done. apply Hh. }
  assert (le_GetLease l (x_key x) = old) as Hgx by (rewrite Hg; done).
  unfold move_lease. destruct (Z.eqb_spec old id) as [E|Hne].
  { exists l. split; [done|]. split; [done|]. apply Hend; [done|]. intros k'. case_decide as Hk; [|done]. by rewrite Hk, Hgx. }
  assert (exists l1, (if old =? NoLease then Ret (Some l) else Ret (Some (fst (le_Detach l old (x_key x))))) = Ret (Some l1) /\
    (forall i, le_Lookup l1 i = has i) /\
    forall k', le_GetLease l1 k' = if decide (k' = x_key x) then NoLease else le_GetLease l k') as (l1 & E1 & Hlk1 & Hg1).
  { destruct (Z.eqb_spec old NoLease) as [Eo|Hno].
    - exists l. split; [done|]. split; [done|]. intros k'. case_decide as Hk; [|done]. by rewrite Hk, Hgx.
    - destruct Hold as [?|Hho]; [done|]. destruct (le_detach l old (x_key x)) as (l1 & E1 & Hl1 & Hg1); [by rewrite Hlk|].
      exists l1. rewrite E1. split; [done|]. split; [intros i; by rewrite Hl1, Hlk|done]. }
  rewrite E1, ret_bind. destruct (Z.eqb_spec id NoLease) as [Ei|Hni].
  - exists l1. split; [done|]. split; [done|]. apply Hend; [done|]. intros k'. rewrite Hg1. case_decide; [by rewrite Ei|done].
  - destruct Hid as [?|Hid]; [done|]. destruct (le_attach l1 id (x_key x)) as (l2 & -> & Hl2 & Hg2); [by rewrite Hlk1|].
    exists l2. split; [done|]. split; [intros i; by rewrite Hl2, Hlk1|]. apply Hend; [intros i; by rewrite Hl2, Hlk1|].
    intros k'. rewrite Hg2. case_decide as Hk; [done|]. rewrite Hg1. by rewrite decide_False.
Qed.

(** ** A change in a transaction *)

Lemma kv_now_app h xs : kv_now (h ++ xs) = fold_left apply_kv xs (kv_now h).
Proof. unfold kv_now. by rewrite fold_left_app. Qed.

Lemma length_recs_from m xs : length (recs_from m xs) = length xs.
Proof. revert m. induction xs as [|x xs IH]; intros m; [done|]. cbn. by rewrite IH. Qed.

Lemma inv_change s tw trs d xs rds dd n x b' bs' t' l' ilvl : let h := all_hist d (Some xs) in
  inv s (Some tw) trs d (Some xs) rds dd n -> allowed h x -> Main (x_rev x) = cur_of (d_hist d) + 1 ->
  lease_ok x -> backed b' bs' d (Some (xs ++ [x])) dd n ->
  indexed t' (h ++ [x]) ilvl -> sched_ok (fifoSched s) t' (h ++ [x]) d ilvl ->
  (forall i, le_Lookup l' i = has i) -> leases l' (apply_kv (kv_now h) x) ->
  inv (with_le (with_index (with_b s b') t') (Some l'))
    (Some (MkTxnWrite (beginRev tw) (changes tw ++ [kv_of (kv_now h) x]))) trs d (Some (xs ++ [x])) rds dd n.
Proof.
  intros h [Hd Hw Hdd Hlim Hcur Hcomp _ _ Htx Hrd _ Hh] Ha Hm Hx0 Hb Hi Hs Hl Hle.
  constructor; cbn [with_le with_index with_b b kvindex le currentRev compactMainRev CompactionBatchLimit fifoSched];
    rewrite ?all_snoc; fold h; [done| |done|done|done|done|eauto|eauto| |done| |].
  - by constructor.
  - destruct Htx as (Hb0 & Hch & Hx). split; [done|]. cbn [changes]. split.
    + rewrite Hch, recs_from_app, map_app. unfold h, all_hist. cbn [default from_option id]. by rewrite kv_now_app.
    + apply Forall_app. split; [done|]. by constructor.
  - exists l'. split; [done|]. split; [done|]. by rewrite kv_now_snoc.
  - apply Forall_app. split; [done|]. by constructor.
Qed.

Lemma txn_parts s tw trs d xs rds dd n : inv s (Some tw) trs d (Some xs) rds dd n ->
  beginRev tw = cur_of (d_hist d) /\ length (changes tw) = length xs /\
  Forall (fun x => Main (x_rev x) = cur_of (d_hist d) + 1) xs.
Proof.
  intros [_ _ _ _ _ _ _ _ (Hb & Hc & Hx) _ _ _]. split; [done|]. split; [|done].
  by rewrite Hc, length_map, length_recs_from.
Qed.

Lemma tw_put_spec s tw trs d xs rds dd n key v lease : let h := all_hist d (Some xs) in
  let x := MkChange key (MkRev (cur_of (d_hist d) + 1) (Z.of_nat (length xs))) (Some (v, lease)) in
  inv s (Some tw) trs d (Some xs) rds dd n -> allowed h x -> (lease = NoLease \/ has lease = true) ->
  exists s', let tw' := MkTxnWrite (beginRev tw) (changes tw ++ [kv_of (kv_now h) x]) in
    tw_put s tw key v lease = Ret (s', tw') /\ inv s' (Some tw') trs d (Some (xs ++ [x])) rds dd n.
Proof.
  intros h x Hinv Ha Hlease. pose proof Hinv as [Hd Hw _ _ _ _ [bs Hb] (ilvl & Hi & Hs) _ _ (l & Hle & Hlk & Hls) _].
  fold h in Hi, Hs, Hls. destruct (txn_parts _ _ _ _ _ _ _ _ Hinv) as (Hbeg & Hlen & Hxs).
  destruct (txn_later d xs x Hd Hw eq_refl) as [Hlvl Hgone]. pose proof (ilvl_bound _ _ _ _ _ Hs) as Hil.
  pose proof Ha as (_ & _ & _ & _ & _ & (Hv & Hkf & Hst)). cbn [rec_of fst snd x_rev] in Hv.
  assert (i64 (cur_of (d_hist d) + 1) = cur_of (d_hist d) + 1) as Ei.
  { destruct Hv as [[? ?] _]. cbn in *. apply i64_small. word. }
  unfold tw_put. rewrite Hbeg, Ei, Hlen.
  destruct (IndexLog.Get_spec same_main (kvindex s) _ key (cur_of (d_hist d) + 1) Hi) as (o & -> & Ho).
  { cbn [IndexLog.lvl]. cbn in Hlvl. lia. }
  cbn [IndexLog.hist] in Ho. rewrite ret_bind.
  assert (cur_of h <= cur_of (d_hist d) + 1) as Hcur.
  { unfold h, all_hist. cbn [default from_option id]. destruct (snoc_inv xs) as [->|(xs' & y & ->)]; [rewrite app_nil_r; lia|].
    unfold cur_of at 1. rewrite app_assoc, last_snoc. apply Forall_app in Hxs as [_ [-> _]%Forall_cons]. done. }
  pose proof (state_agrees h (cur_of (d_hist d) + 1) key Hw) as Hag. rewrite (kv_at_all h) in Hag by done.
  destruct (put_indexed (kvindex s) h ilvl x (v, lease) Hi Ha) as (t' & Et & Hi' & Hit); [lia|done|].
  destruct (backed_put (b s) bs d xs dd n x Hb Hw Ha Hgone) as (b' & bs' & Eb & Hb').
  destruct (move_lease_spec l (kv_now h) h x v lease (kv_of (kv_now h) x) Hls Hlk) as (l' & El & Hlk' & Hls'); [done..|].
  set (old := match kv_now h !! key with Some kv => Lease kv | None => NoLease end).
  set (cv := match kv_now h !! key with Some kv => (CreateRevision kv, Version kv) | None => (cur_of (d_hist d) + 1, 0) end).
  match goal with |- context [previous s key ?c ?f] => assert (previous s key c f = Ret (fst cv, old, snd cv)) as -> end.
  { unfold cv, old, previous. rewrite Hle. destruct Hls as [Hget _]. revert Hag. unfold agrees.
    destruct Ho as [[[r cr] ver] [[r2 cr2] ver2] (E1 & E2 & E3)|]; cbn in *.
    - destruct (kv_now h !! key) as [kv|] eqn:Ek; [|done]. intros (_ & _ & _ & Ec & Ev). rewrite Hget, Ek.
      cbn. unfold same_main in E2. by rewrite Ec, Ev, E2, E3.
    - by destruct (kv_now h !! key). }
  rewrite ret_bind, rev_bytes, ret_bind by done.
  assert (MkKV key (fst cv) (cur_of (d_hist d) + 1) (i64 (snd cv + 1)) v lease [] = kv_of (kv_now h) x) as ->.
  { unfold kv_of. cbn [x_val x x_key x_rev Main]. fold cv. by destruct cv. }
  fold h in Eb. cbn [rec_of fst snd x_rev x x_val] in Eb. rewrite bool_decide_false in Eb by done. rewrite Eb, ret_bind.
  cbn [x_key x_rev x] in Et. rewrite Et, ret_bind. rewrite Hle. cbn [x_key x] in El. fold old in El. rewrite El, ret_bind.
  eexists. cbv zeta. split; [reflexivity|]. rewrite <- Hbeg. eapply inv_change; try done. eapply sched_snoc; [exact Hs|cbn in *; lia|exact Hit].
Qed.

Lemma drop_lease_spec l m x : leases l m -> (forall i, le_Lookup l i = has i) -> x_val x = None ->
  let l' := if le_GetLease l (x_key x) =? NoLease then l else fst (le_Detach l (le_GetLease l (x_key x)) (x_key x)) in
  (forall i, le_Lookup l' i = has i) /\ leases l' (apply_kv m x).
Proof.
  intros [Hg Hh] Hlk Ev. cbv zeta. set (id := le_GetLease l (x_key x)).
  assert (id = NoLease \/ has id = true) as Hid.
  { unfold id. rewrite Hg. destruct (m !! x_key x) as [kv|] eqn:E; [by eapply Hh|by left]. }
  assert (exists l', (if id =? NoLease then l else fst (le_Detach l id (x_key x))) = l' /\
    (forall i, le_Lookup l' i = has i) /\
    forall k', le_GetLease l' k' = if decide (k' = x_key x) then NoLease else le_GetLease l k') as (l' & -> & Hlk' & Hg').
  { destruct (Z.eqb_spec id NoLease) as [E|Hne].
    - exists l. split; [done|]. split; [done|]. intros k'. case_decide as Hk; [|done]. by rewrite Hk.
    - destruct Hid as [?|Hid]; [done|]. destruct (le_detach l id (x_key x)) as (l' & -> & Hl' & Hg'); [by rewrite Hlk|].
      exists l'. split; [done|]. split; [intros i; by rewrite Hl', Hlk|done]. }
  split; [done|]. unfold apply_kv. rewrite Ev. split.
  - intros k. rewrite Hg'. case_decide as Hk; [subst k; by rewrite lookup_delete_eq|]. by rewrite lookup_delete_ne, Hg.
  - intros k kv. destruct (decide (x_key x = k)) as [<-|Hk]; [by rewrite lookup_delete_eq|].
    rewrite lookup_delete_ne by done. apply Hh.
Qed.

Lemma tw_delete_spec s tw trs d xs rds dd n key : let h := all_hist d (Some xs) in
  let x := MkChange key (MkRev (cur_of (d_hist d) + 1) (Z.of_nat (length xs))) None in
  inv s (Some tw) trs d (Some xs) rds dd n -> allowed h x ->
  exists s', let tw' := MkTxnWrite (beginRev tw) (changes tw ++ [kv_of (kv_now h) x]) in
    tw_delete s tw key = Ret (s', tw') /\ inv s' (Some tw') trs d (Some (xs ++ [x])) rds dd n.
Proof.
  intros h x Hinv Ha. pose proof Hinv as [Hd Hw _ _ _ _ [bs Hb] (ilvl & Hi & Hs) _ _ (l & Hle & Hlk & Hls) _].
  fold h in Hi, Hs, Hls, Hw. destruct (txn_parts _ _ _ _ _ _ _ _ Hinv) as (Hbeg & Hlen & Hxs).
  destruct (txn_later d xs x Hd Hw eq_refl) as [Hlvl Hgone]. pose proof (ilvl_bound _ _ _ _ _ Hs) as Hil.
  pose proof Ha as (_ & _ & _ & _ & _ & (Hv & Hkf & Hst)). cbn [rec_of fst snd x_rev x x_val] in Hv.
  rewrite bool_decide_true in Hv by done.
  assert (i64 (cur_of (d_hist d) + 1) = cur_of (d_hist d) + 1) as Ei.
  { destruct Hv as [[? ?] _]. cbn in *. apply i64_small. word. }
  destruct (delete_indexed (kvindex s) h ilvl x Hi Ha) as (t' & Et & Hi' & Hit); [lia|done|done|].
  destruct (backed_put (b s) bs d xs dd n x Hb Hw Ha Hgone) as (b' & bs' & Eb & Hb').
  destruct (drop_lease_spec l (kv_now h) x Hls Hlk eq_refl) as [Hlk' Hls'].
  unfold tw_delete. rewrite Hbeg, Ei, Hlen. unfold newBucketKey. rewrite bytes_of_key, ret_bind by done.
  fold h in Eb. cbn [rec_of fst snd x_rev x x_val] in Eb. rewrite bool_decide_true in Eb by done.
  change (MkKV key 0 0 0 [] 0 []) with (kv_of (kv_now h) x). rewrite Eb, ret_bind. cbn [bk_Revision].
  cbn [x_key x_rev x] in Et. rewrite Et, ret_bind, Hle. eexists. cbv zeta. split; [reflexivity|].
  rewrite <- Hbeg. eapply inv_change; try done. eapply sched_snoc; [exact Hs|cbn in *; lia|exact Hit].
Qed.

(** The deletions of a range. *)
Fixpoint dels (main sub : Z) (keys : list string) : list kchange :=
  match keys with
  | [] => []
  | k :: keys => MkChange k (MkRev main sub) None :: dels main (sub + 1) keys
  end.

Fixpoint all_allowed (h xs : list kchange) : Prop :=
  match xs with
  | [] => True
  | x :: xs => allowed h x /\ all_allowed (h ++ [x]) xs
  end.

Lemma delete_keys_spec keys s tw trs d xs rds dd n :
  inv s (Some tw) trs d (Some xs) rds dd n ->
  let ys := dels (cur_of (d_hist d) + 1) (Z.of_nat (length xs)) keys in
  all_allowed (all_hist d (Some xs)) ys ->
  exists s' tw', delete_keys s tw keys = Ret (s', tw') /\ beginRev tw' = beginRev tw /\
    inv s' (Some tw') trs d (Some (xs ++ ys)) rds dd n.
Proof.
  revert s tw xs. induction keys as [|key keys IH]; intros s tw xs Hinv ys Hall; unfold ys in *; clear ys; cbn [dels all_allowed delete_keys] in *.
  - exists s, tw. split; [done|]. split; [done|]. by rewrite app_nil_r.
  - destruct Hall as [Ha Hall]. destruct (tw_delete_spec s tw trs d xs rds dd n key Hinv Ha) as (s1 & E & Hinv1).
    cbv zeta in E. rewrite E, ret_bind. specialize (IH s1 _ _ Hinv1). rewrite all_snoc, length_app in IH.
    cbn [length] in IH. replace (Z.of_nat (length xs + 1)) with (Z.of_nat (length xs) + 1) in IH by lia.
    destruct (IH Hall) as (s2 & tw2 & E2 & Hbeg & Hinv2). exists s2, tw2. split; [exact E2|]. split; [done|].
    by rewrite <- app_assoc in Hinv2.
Qed.

(** ** The history grows *)

Lemma needed_app h xs c r : Forall (fun x => c < Main (x_rev x)) xs ->
  needed (erased (h ++ xs)) c r <-> needed (erased h) c r.
Proof.
  induction xs as [|x xs IH] using rev_ind; intros Hx; [by rewrite app_nil_r|].
  apply Forall_app in Hx as [Hxs [Hx _]%Forall_cons]. rewrite app_assoc, erased_snoc, needed_snoc by (by rewrite erase_rev).
  by apply IH.
Qed.

Lemma recs_app h xs y : y ∈ recs (h ++ xs) -> y ∈ recs h \/ exists x, x ∈ xs /\ rev_of y = x_rev x.
Proof.
  induction xs as [|x xs IH] using rev_ind; [rewrite app_nil_r; by left|].
  rewrite app_assoc, recs_snoc. intros [Hy| ->%list_elem_of_singleton]%elem_of_app.
  - destruct (IH Hy) as [?|(z & Hz & E)]; [by left|right]. exists z. split; [apply elem_of_app; by left|done].
  - right. exists x. split; [apply elem_of_app; right; by left|done].
Qed.

Lemma recs_mono h xs y : y ∈ recs h -> y ∈ recs (h ++ xs).
Proof. intros Hy. unfold recs. rewrite recs_from_app. apply elem_of_app. by left. Qed.

Lemma kv_at_app h xs c : Forall (fun x => c < Main (x_rev x)) xs -> kv_at (h ++ xs) c = kv_at h c.
Proof.
  intros Hx. unfold kv_at. rewrite filter_app, (filter_none _ xs), app_nil_r; [done|].
  eapply Forall_impl; [exact Hx|]. cbn. lia.
Qed.

Lemma gone_app h xs c gone : gone_ok h c gone -> wf (h ++ xs) -> Forall (fun x => c < Main (x_rev x)) xs ->
  gone_ok (h ++ xs) c gone.
Proof.
  intros Hg. induction xs as [|x xs IH] using rev_ind; intros Hw Hx; [by rewrite app_nil_r|].
  apply Forall_app in Hx as [Hxs [Hx _]%Forall_cons]. rewrite app_assoc in *.
  apply gone_snoc; [|done|done]. apply IH; [by eapply wf_app|done].
Qed.

Lemma covers_app m h xs c r : covers m h c r -> Forall (fun x => c < Main (x_rev x) /\ r < Main (x_rev x)) xs ->
  covers m (h ++ xs) c r.
Proof.
  intros Hc Hx y Hy Hm Hn. rewrite needed_app in Hn by (eapply Forall_impl; [exact Hx|]; cbn; lia).
  apply recs_app in Hy as [Hy|(x & Hin & E)]; [by apply Hc|].
  rewrite Forall_forall in Hx. destruct (Hx x Hin). rewrite E in Hm. lia.
Qed.

Lemma disk_app d xs : disk_ok d -> wf (d_hist d ++ xs) -> Forall (fun x => Main (x_rev x) = cur_of (d_hist d) + 1) xs ->
  disk_ok (MkDisk (d_hist d ++ xs) (d_gone d) (d_sched d) (d_fin d)) /\
  Forall (fun x => d_lvl d < Main (x_rev x)) xs /\ cur_of (d_hist d) <= cur_of (d_hist d ++ xs).
Proof.
  intros Hd Hw Hx. assert (Forall (fun x => d_lvl d < Main (x_rev x)) xs) as Hl.
  { eapply Forall_impl; [exact Hx|]. intros x E. by apply (txn_later d [] x); [|unfold all_hist; rewrite app_nil_r; apply Hd|]. }
  assert (cur_of (d_hist d) <= cur_of (d_hist d ++ xs)) as Hcur.
  { destruct (snoc_inv xs) as [->|(ys & y & ->)]; [by rewrite app_nil_r|].
    apply Forall_app in Hx as [_ [Hy _]%Forall_cons]. unfold cur_of at 2. rewrite app_assoc, last_snoc. lia. }
  split; [|done]. destruct Hd as [Hw0 Hg Hs Hf]. split; cbn [d_hist d_gone d_sched d_fin]; [done| | |].
  - by apply gone_app.
  - intros c Hc. specialize (Hs c Hc). lia.
  - intros f Hff. destruct (Hf f Hff) as [Hb Hsw]. split; [done|].
    intros y Hy Hgy Hm. rewrite needed_app by (eapply Forall_impl; [exact Hl|]; cbn; lia).
    apply recs_app in Hy as [Hy|(x & Hin & E)]; [by apply Hsw|].
    rewrite Forall_forall in Hl. specialize (Hl x Hin). rewrite E in Hm. lia.
Qed.

(** ** Reads *)

Lemma on_disk_covers m d : disk_ok d -> on_disk m d -> covers m (d_hist d) (d_lvl d) (cur_of (d_hist d)).
Proof.
  intros [Hw Hg _ _] [Hm _] x Hx _ Hn. rewrite Hm. cbn [default from_option id]. apply bucket_find; [done|done|].
  intros Hin. by apply (g_unneeded _ _ _ Hg x).
Qed.

Lemma reader_readable rt m h c r : BackendLog.reads_keys rt m -> covers m h c r ->
  readable h c r (fun k => backend.r_UnsafeRange rt schema.Key k None 0).
Proof.
  intros Hr Hc x Hx Hm Hn. rewrite (BackendLog.read_key rt m schema.Key (key_bytes (fst x)) 0 Key_All Hr).
  by rewrite (Hc x Hx Hm Hn).
Qed.

Lemma writer_read bk os bs dk n bkt k l : BackendLog.rep (bk, os) bs dk n -> bkt ∈ schema.AllBuckets ->
  BackendLog.cur bs !! txBuffer.ID bkt = Some l ->
  backend.b_UnsafeRange bk bkt k [] 0 = Ret (match Pairs.find k l with Some v => [(k, v)] | None => [] end).
Proof.
  intros ([(W & Htx & HW) _ _ _ _ _ _] & _) Hb Hl. unfold backend.b_UnsafeRange, backend.with_bucket, backend.open_tx.
  rewrite Htx, (HW bkt Hb), Hl. change (backend.unsafeRange W (txBuffer.Name bkt) k [] 0) with (backend.unsafeRange W (txBuffer.Name bkt) k [] 1).
  rewrite (BackendLog.unsafeRange_spec W _ k [] 1 l); [|by rewrite HW|done].
  rewrite Pairs.find_range; [done|]. apply (bolt_sorted W (txBuffer.Name bkt)). by rewrite HW.
Qed.

Lemma txn_cur s tw trs d xs rds dd n : inv s (Some tw) trs d (Some xs) rds dd n ->
  tw_rev tw = (match xs with [] => cur_of (d_hist d) | _ => cur_of (d_hist d) + 1 end) /\
  tw_rev tw = cur_of (all_hist d (Some xs)).
Proof.
  intros Hinv. destruct (txn_parts _ _ _ _ _ _ _ _ Hinv) as (Hb & Hl & Hx). unfold tw_rev. rewrite Hb.
  unfold all_hist. cbn [default from_option id].
  destruct xs as [|x0 xs]; [destruct (changes tw); [|done]; by rewrite app_nil_r|].
  destruct (changes tw); [done|]. destruct (snoc_inv (x0 :: xs)) as [?|(ys & y & E)]; [done|].
  assert (y ∈ x0 :: xs) as Hy by (rewrite E; apply elem_of_app; right; by left).
  rewrite Forall_forall in Hx. pose proof (Hx y Hy) as Hm.
  assert (valid (MkBucketKey (x_rev y) (bool_decide (x_val y = None)))) as [[_ Hv] _].
  { pose proof (i_all _ _ _ _ _ _ _ _ Hinv) as Hw. unfold all_hist in Hw. cbn [default from_option id] in Hw.
    rewrite E, app_assoc in Hw. apply wf_snoc_inv in Hw as [_ (_ & _ & _ & _ & _ & Hf & _)]. exact Hf. }
  cbn in Hv. rewrite Hm in Hv. pose proof (cur_pos _ (d_wf _ (i_disk _ _ _ _ _ _ _ _ Hinv))).
  rewrite i64_small by word. split; [done|]. unfold cur_of at 2. rewrite E, app_assoc, last_snoc. done.
Qed.

End Inv.
End KvInv.
