(* ===== verification/KvEvents.v ===== *)
(** * Runs of etcd's store

    Write transactions, read transactions, commits, compactions and the steps
    of the scheduler in any order that the locks allow, what they mean for the
    history, and the transactions among them. *)

From S2P Require Import Prelude Errors Utils KeyIndex KeyTimeline RevBytes TreeIndex IndexLog KvPb BoltApi TxBuffer Backend BackendLog KvHash KvStore KvHistory KvReads KvInv.

Module KvEvents.
Import mvcc mvccpb RevBytes kvstore KvHistory KvReads KvInv.

(** ** Events *)

Inductive event : Type :=
  | KBegin
  | KPut (key : string) (value : bytes) (lease : Z)
  | KDelete (key : string) (end_ : option string)
  | KTxnRange (done : nat -> option error) (key : string) (end_ : option string) (ro : RangeOptions)
  | KEnd
  | KRead (mode : ReadTxMode)
  | KRange (i : nat) (done : nat -> option error) (key : string) (end_ : option string) (ro : RangeOptions)
  | KReadEnd (i : nat)
  | KCompact (rev : Z)
  (** A step of the scheduler. *)
  | KStep
  (** A commit, by the store or by the timer of the backend. *)
  | KCommit.

Inductive answer : Type :=
  | ANone
  | ARev (rev : Z)
  | ADeleted (n rev : Z)
  | ARange (r : option RangeResult * option error)
  | ACompact (err : option error).

Section Events.
Context `{BTL : BTreeLaws} `{BLL : BoltLaws} `{LEL : LessorLaws}.

(** The store with the open transactions. *)
Record state := MkState {
  st : store;
  st_tw : option storeTxnWrite;
  st_trs : list storeTxnRead
}.

(** The scheduler deletes a batch under the lock of the backend, for which it
    waits while a write transaction is open. *)
Definition waits (s : state) : bool :=
  match st_tw s, running (fifoSched (st s)) with
  | Some _, Some c => match c_phase c with Batching _ _ => true | _ => false end
  | _, _ => false
  end.

Definition step (s : state) (e : event) : outcome (state * answer) :=
  match e, st_tw s with
  | KBegin, None => Ret (MkState (st s) (Some (Write (st s))) (st_trs s), ANone)
  | KPut key value lease, Some tw =>
      '(s', tw, rev) ← tw_Put (st s) tw key value lease; Ret (MkState s' (Some tw) (st_trs s), ARev rev)
  | KDelete key end_, Some tw =>
      '(s', tw, (n, rev)) ← tw_DeleteRange (st s) tw key end_; Ret (MkState s' (Some tw) (st_trs s), ADeleted n rev)
  | KTxnRange done key end_ ro, Some tw =>
      r ← tw_Range (st s) tw done key end_ ro; Ret (s, ARange r)
  | KEnd, Some tw => s' ← tw_End BackendLog.no_hooks (st s) tw; Ret (MkState s' None (st_trs s), ANone)
  | KRead mode, tw => let '(s', tr) := Read (st s) mode in Ret (MkState s' tw (st_trs s ++ [tr]), ANone)
  | KRange i done key end_ ro, _ =>
      match st_trs s !! i with
      | Some tr => r ← tr_Range (st s) tr done key end_ ro; Ret (s, ARange r)
      | None => Hang
      end
  | KReadEnd i, tw => Ret (MkState (st s) tw (delete i (st_trs s)), ANone)
  | KCompact rev, None =>
      '(s', (_, err)) ← Compact BackendLog.no_hooks (st s) rev; Ret (MkState s' None (st_trs s), ACompact err)
  | KStep, tw => if waits s then Ret (s, ANone)
                 else s' ← sched_step BackendLog.no_hooks (st s); Ret (MkState s' tw (st_trs s), ANone)
  | KCommit, None => s' ← Commit BackendLog.no_hooks (st s); Ret (MkState s' None (st_trs s), ANone)
  | KCommit, Some _ => Ret (s, ANone)
  | _, _ => Hang
  end.

(** ** Their meaning *)

(** The changes of the transactions that have ended, those of the open one, the
    revision of the last compaction, and the revisions of the readers. *)
Record spec := MkSpec {
  hist : list kchange;
  txn : option (list kchange);
  comp : option Z;
  readers : list Z
}.

Definition level (sp : spec) : Z := default (-1) (comp sp).
Definition all (sp : spec) : list kchange := hist sp ++ default [] (txn sp).

(** The changes that the open transaction makes next. *)
Definition new_put (sp : spec) (key : string) (value : bytes) (lease : Z) : kchange :=
  MkChange key (MkRev (cur_of (hist sp) + 1) (Z.of_nat (length (default [] (txn sp))))) (Some (value, lease)).

Definition new_dels (sp : spec) (key : string) (end_ : option string) : list kchange :=
  dels (cur_of (hist sp) + 1) (Z.of_nat (length (default [] (txn sp)))) (keys_in (kv_now (all sp)) key end_).

Definition with_txn (sp : spec) (xs : option (list kchange)) : spec :=
  MkSpec (hist sp) xs (comp sp) (readers sp).

Definition spec_step (sp : spec) (e : event) : spec * answer :=
  let cur := cur_of (hist sp) in
  let xs := default [] (txn sp) in
  match e with
  | KBegin => (with_txn sp (Some []), ANone)
  | KPut key value lease => (with_txn sp (Some (xs ++ [new_put sp key value lease])), ARev (cur + 1))
  | KDelete key end_ =>
      let ys := new_dels sp key end_ in
      (with_txn sp (Some (xs ++ ys)),
       match ys, xs with [], [] => ADeleted 0 cur | _, _ => ADeleted (Z.of_nat (length ys)) (cur + 1) end)
  | KTxnRange done key end_ ro => (sp, ARange (spec_range (all sp) (level sp) (cur_of (all sp)) done key end_ ro))
  | KEnd => (MkSpec (all sp) None (comp sp) (readers sp), ANone)
  | KRead _ => (MkSpec (hist sp) (txn sp) (comp sp) (readers sp ++ [cur]), ANone)
  | KRange i done key end_ ro =>
      (sp, ARange (spec_range (hist sp) (level sp) (default 0 (readers sp !! i)) done key end_ ro))
  | KReadEnd i => (MkSpec (hist sp) (txn sp) (comp sp) (delete i (readers sp)), ANone)
  | KCompact rev =>
      if rev <=? level sp then (sp, ACompact (Some ErrCompacted))
      else if cur <? rev then (sp, ACompact (Some ErrFutureRev))
      else (MkSpec (hist sp) (txn sp) (Some rev) (readers sp), ACompact None)
  | KStep | KCommit => (sp, ANone)
  end.

(** What the callers and the locks guarantee: one write transaction at a time,
    no compaction is scheduled while a transaction is open, nor at revision 0,
    leases exist, and the changes of a transaction can be stored and do not put
    a key that the transaction has deleted. *)
Definition legal_event (has : Z -> bool) (sp : spec) (e : event) : Prop :=
  match e with
  | KBegin => txn sp = None
  | KPut key value lease => txn sp <> None /\ allowed (all sp) (new_put sp key value lease) /\
      (lease = NoLease \/ has lease = true)
  | KDelete key end_ => txn sp <> None /\ all_allowed (all sp) (new_dels sp key end_)
  | KTxnRange _ _ _ _ | KEnd => txn sp <> None
  | KRange i _ _ _ _ | KReadEnd i => (i < length (readers sp))%nat
  | KCompact rev => txn sp = None /\ readers sp = [] /\ rev <> 0
  | KRead _ | KStep | KCommit => True
  end.

Fixpoint legal (has : Z -> bool) (sp : spec) (evs : list event) : Prop :=
  match evs with
  | [] => True
  | e :: evs => legal_event has sp e /\ legal has (fst (spec_step sp e)) evs
  end.

#[global] Instance all_allowed_dec h xs : Decision (all_allowed h xs).
Proof.
  revert h. induction xs as [|x xs IH]; intros h; [left; exact I|].
  refine (cast_if_and (decide (allowed h x)) (IH (h ++ [x]))); (cbn; tauto).
Defined.

#[global] Instance legal_event_dec has sp e : Decision (legal_event has sp e).
Proof. destruct e; unfold legal_event; apply _. Defined.

#[global] Instance legal_dec has sp evs : Decision (legal has sp evs).
Proof.
  revert sp. induction evs as [|e evs IH]; intros sp; [left; exact I|].
  refine (cast_if_and (decide (legal_event has sp e)) (IH (fst (spec_step sp e)))); (cbn; tauto).
Defined.

Fixpoint spec_run (sp : spec) (evs : list event) : spec * list answer :=
  match evs with
  | [] => (sp, [])
  | e :: evs =>
      let '(sp, r) := spec_step sp e in
      let '(sp, rs) := spec_run sp evs in (sp, r :: rs)
  end.

(** ** The invariant *)

Context (has : Z -> bool).

(** The file holds [dd]; [n] bounds the writers that have ended. *)
Definition related (s : state) (sp : spec) (dd : disk) (n : Z) : Prop :=
  exists gone fin, inv has (st s) (st_tw s) (st_trs s) (MkDisk (hist sp) gone (comp sp) fin) (txn sp) (readers sp) dd n.

(** What an event does to the file: nothing, or it holds what readers see. *)
Definition holds_spec (sp : spec) (dd : disk) : Prop := d_hist dd = hist sp /\ d_sched dd = comp sp.
Definition synced (sp : spec) (dd dd' : disk) : Prop := dd' = dd \/ holds_spec sp dd'.

Lemma txn_related s sp xs dd n gone fin : txn sp = Some xs ->
  inv has (st s) (st_tw s) (st_trs s) (MkDisk (hist sp) gone (comp sp) fin) (txn sp) (readers sp) dd n ->
  exists tw, st_tw s = Some tw /\
    inv has (st s) (Some tw) (st_trs s) (MkDisk (hist sp) gone (comp sp) fin) (Some xs) (readers sp) dd n.
Proof.
  intros Etx Hi. rewrite Etx in Hi. pose proof (i_txn _ _ _ _ _ _ _ _ _ Hi) as Ht.
  destruct (st_tw s) as [tw|]; [|done]. eauto.
Qed.

Lemma none_related s sp dd n gone fin : txn sp = None ->
  inv has (st s) (st_tw s) (st_trs s) (MkDisk (hist sp) gone (comp sp) fin) (txn sp) (readers sp) dd n ->
  st_tw s = None.
Proof.
  intros Etx Hi. rewrite Etx in Hi. pose proof (i_txn _ _ _ _ _ _ _ _ _ Hi) as Ht. by destruct (st_tw s).
Qed.

Lemma begin_step s sp dd n : related s sp dd n -> txn sp = None ->
  exists s', step s KBegin = Ret (s', ANone) /\ related s' (with_txn sp (Some [])) dd n.
Proof.
  intros (gone & fin & Hi) Ht. pose proof (none_related _ _ _ _ _ _ Ht Hi) as Etw.
  cbn [step]. rewrite Etw. eexists. split; [reflexivity|]. exists gone, fin. rewrite Ht, Etw in Hi.
  destruct Hi as [Hd Hw Hdd Hlim Hcur Hcomp [bs [Hr Ho Hs Hc Hh Hdn]] Hsch _ Hrd Hle Hhd].
  constructor; cbn [st st_tw st_trs with_txn hist txn comp readers]; try done.
  exists bs. by constructor.
Qed.

Lemma put_event s sp dd n key value lease : related s sp dd n -> legal_event has sp (KPut key value lease) ->
  exists s', step s (KPut key value lease) = Ret (s', snd (spec_step sp (KPut key value lease))) /\
    related s' (fst (spec_step sp (KPut key value lease))) dd n.
Proof.
  intros (gone & fin & Hi) (Ht & Ha & Hl). destruct (txn sp) as [xs|] eqn:Etx; [|done].
  destruct (txn_related s sp xs dd n gone fin) as (tw & Etw & Hi'); [done|by rewrite Etx|].
  unfold all, new_put in Ha. rewrite Etx in Ha. cbn [default from_option id] in Ha.
  destruct (tw_put_spec has (st s) tw (st_trs s) _ xs (readers sp) dd n key value lease Hi' Ha Hl) as (s' & E & Hi2).
  cbv zeta in E. cbn [step]. rewrite Etw. unfold tw_Put. rewrite E, !ret_bind.
  destruct (txn_parts _ _ _ _ _ _ _ _ _ Hi') as (Hb & _). cbn [d_hist] in *. cbn [beginRev].
  eexists. split.
  - cbn [spec_step snd]. rewrite Hb. do 3 f_equal. destruct Ha as (_ & _ & _ & _ & _ & ([[? ?] _] & _)).
    cbn in *. apply i64_small. word.
  - exists gone, fin. cbn [spec_step fst with_txn hist txn comp readers st st_tw st_trs].
    unfold new_put. rewrite Etx. rewrite Hb in Hi2. exact Hi2.
Qed.

Lemma length_dels m k keys : length (dels m k keys) = length keys.
Proof. revert k. induction keys as [|x keys IH]; intros k; [done|]. cbn. by rewrite IH. Qed.

Lemma delete_event s sp dd n key end_ : related s sp dd n -> legal_event has sp (KDelete key end_) ->
  exists s', step s (KDelete key end_) = Ret (s', snd (spec_step sp (KDelete key end_))) /\
    related s' (fst (spec_step sp (KDelete key end_))) dd n.
Proof.
  intros (gone & fin & Hi) (Ht & Ha). destruct (txn sp) as [xs|] eqn:Etx; [|done].
  destruct (txn_related s sp xs dd n gone fin) as (tw & Etw & Hi'); [done|by rewrite Etx|].
  set (d := MkDisk (hist sp) gone (comp sp) fin) in *.
  assert (all sp = all_hist d (Some xs)) as Eall by (unfold all; by rewrite Etx).
  unfold new_dels in Ha. rewrite Eall, Etx in Ha. cbn [default from_option id] in Ha.
  pose proof Hi' as [Hd Hw _ _ _ _ _ (ilvl & Hidx & Hs) _ _ _ _].
  destruct (txn_cur _ _ _ _ _ _ _ _ _ Hi') as [_ Hcur]. destruct (txn_parts _ _ _ _ _ _ _ _ _ Hi') as (Hb & Hlen & Hxs).
  pose proof (ilvl_bound _ _ _ _ _ Hs) as Hil.
  assert (d_lvl d <= tw_rev tw) as Hlvl.
  { rewrite Hcur. destruct (disk_app d xs Hd Hw Hxs) as (_ & _ & Hle). unfold all_hist. cbn [default from_option id].
    unfold d_lvl. pose proof (cur_pos _ (d_wf _ Hd)). destruct (d_sched d) as [c|] eqn:Ec; cbn [default from_option id]; [|lia].
    pose proof (d_sched_ok _ Hd c Ec). lia. }
  destruct (index_found same_main (kvindex (st s)) _ (all_hist d (Some xs)) (tw_rev tw) key end_ Hidx eq_refl)
    as (found & [Hk _] & Er & _); [cbn; lia|done|].
  rewrite Hcur, kv_at_all in Hk by done. rewrite <- Hk in Ha.
  destruct (delete_keys_spec has (map fst found) (st s) tw (st_trs s) d xs (readers sp) dd n Hi' Ha) as (s' & tw' & E & Hb' & Hi2).
  cbn [step]. rewrite Etw. unfold tw_DeleteRange, deleteRange. rewrite Er, ret_bind, E, !ret_bind.
  destruct (txn_parts _ _ _ _ _ _ _ _ _ Hi2) as (Hb2 & Hlen2 & _). rewrite length_app in Hlen2.
  assert (new_dels sp key end_ = dels (cur_of (hist sp) + 1) (Z.of_nat (length xs)) (map fst found)) as Enew.
  { unfold new_dels. rewrite Eall, Etx, Hk. done. }
  cbn [spec_step snd fst]. rewrite Etx. cbn [default from_option id]. rewrite Enew.
  set (ys := dels _ _ _) in *. assert (length ys = length found) as Hly by (unfold ys; by rewrite length_dels, length_map).
  pose proof (txn_cur _ _ _ _ _ _ _ _ _ Hi2) as [Hc2 _]. unfold tw_rev in Hc2. rewrite Hb2 in *. cbn [d_hist d] in *.
  rewrite length_map, <- Hly. destruct (changes tw') as [|kv kvs] eqn:Ech.
  - cbn [length] in Hlen2. destruct xs; [|cbn in Hlen2; lia]. destruct ys as [|y ys0] eqn:Eys; [|cbn in Hlen2; lia].
    cbn. eexists. split; [reflexivity|]. exists gone, fin. exact Hi2.
  - destruct (xs ++ ys) as [|z zs] eqn:Ez; [by apply app_nil in Ez as [-> ->]|]. rewrite Hc2.
    change (0 <? length (kv :: kvs))%nat with true. rewrite orb_true_r.
    exists (MkState s' (Some tw') (st_trs s)). split; [|exists gone, fin; exact Hi2].
    destruct ys; [destruct xs; [done|]|]; done.
Qed.

(** ** Reads *)

Lemma txn_range_step s sp dd n done key end_ ro : related s sp dd n -> txn sp <> None ->
  step s (KTxnRange done key end_ ro) = Ret (s, snd (spec_step sp (KTxnRange done key end_ ro))).
Proof.
  intros (gone & fin & Hi) Ht. destruct (txn sp) as [xs|] eqn:Etx; [|done].
  destruct (txn_related s sp xs dd n gone fin) as (tw & Etw & Hi'); [done|by rewrite Etx|].
  set (d := MkDisk (hist sp) gone (comp sp) fin) in *.
  pose proof Hi' as [Hd Hw _ _ _ Hcomp [bs [(dk & Hrep & _) _ _ [Hc _] _ _]] (ilvl & Hidx & Hs) _ _ _ _].
  destruct (txn_cur _ _ _ _ _ _ _ _ _ Hi') as [_ Hcur]. destruct (txn_parts _ _ _ _ _ _ _ _ _ Hi') as (_ & _ & Hxs).
  destruct (disk_app d xs Hd Hw Hxs) as (Hd' & _ & _). cbn [d_hist d_gone] in Hc.
  cbn [step]. rewrite Etw. unfold tw_Range. rewrite (rangeKeys_spec same_main (st s) _ (all_hist d (Some xs)) _ done key end_ _ ro Hidx eq_refl).
  - rewrite ret_bind. cbn [spec_step snd]. unfold all. rewrite Etx, Hcur, Hcomp. done.
  - rewrite Hcomp. by eapply ilvl_bound.
  - done.
  - intros x Hx _ Hn. rewrite (writer_read _ _ _ _ _ _ _ _ Hrep Key_All Hc), bucket_find; [done..|].
    intros Hin. apply (g_unneeded _ _ _ (d_gone_ok _ Hd') x Hx Hin). rewrite Hcomp in Hn. exact Hn.
Qed.

Lemma spec_range_app h xs c r done key end_ ro : Forall (fun x => r < Main (x_rev x)) xs ->
  spec_range (h ++ xs) c r done key end_ ro = spec_range h c r done key end_ ro.
Proof.
  intros Hx. unfold spec_range. destruct (Z.ltb_spec r (Rev ro)); [done|]. rewrite kv_at_app; [done|].
  eapply Forall_impl; [exact Hx|]. cbn. intros x. destruct (Rev ro <=? 0); lia.
Qed.

(** The changes of the open transaction are later than what has ended. *)
Lemma txn_tail s tw trs d t rds dd n : inv has s tw trs d t rds dd n ->
  Forall (fun x => d_lvl d < Main (x_rev x) /\ cur_of (d_hist d) < Main (x_rev x)) (default [] t).
Proof.
  intros [Hd Hw _ _ _ _ _ _ Htx _ _ _]. destruct t as [xs|]; [|constructor]. destruct tw as [tw|]; [|done].
  destruct Htx as (_ & _ & Hxs). destruct (disk_app d xs Hd Hw Hxs) as (_ & Hl & _). cbn [default from_option id].
  apply Forall_and. split; [done|]. eapply Forall_impl; [exact Hxs|]. cbn. lia.
Qed.

Lemma range_step s sp dd n i done key end_ ro : related s sp dd n -> (i < length (readers sp))%nat ->
  step s (KRange i done key end_ ro) = Ret (s, snd (spec_step sp (KRange i done key end_ ro))).
Proof.
  intros (gone & fin & Hi) Hl. set (d := MkDisk (hist sp) gone (comp sp) fin) in *.
  pose proof Hi as [Hd Hw _ _ _ Hcomp _ (ilvl & Hidx & Hs) _ Hrd _ _]. pose proof (txn_tail _ _ _ _ _ _ _ _ Hi) as Htl.
  destruct (lookup_lt_is_Some_2 (readers sp) i Hl) as [r Er].
  destruct (Forall2_lookup_r _ _ _ _ _ Hrd Er) as (tr & Etr & Etv & Hcur & m & Hm & Hc).
  cbn [step]. rewrite Etr. unfold tr_Range. cbn [spec_step snd]. rewrite Er, Etv. cbn [default from_option id].
  rewrite (rangeKeys_spec same_main (st s) _ (all_hist d (txn sp)) _ done key end_ _ ro Hidx eq_refl).
  - rewrite ret_bind, Hcomp. unfold all_hist. rewrite spec_range_app; [by destruct (st_tw s)|].
    eapply Forall_impl; [exact Htl|]. cbn. cbn in Hcur. lia.
  - rewrite Hcomp. by eapply ilvl_bound.
  - done.
  - rewrite Hcomp. eapply reader_readable; [exact Hm|]. apply covers_app; [done|].
    eapply Forall_impl; [exact Htl|]. cbn in *. lia.
Qed.

Lemma read_end_step s sp dd n i : related s sp dd n ->
  exists s', step s (KReadEnd i) = Ret (s', ANone) /\ related s' (fst (spec_step sp (KReadEnd i))) dd n.
Proof.
  intros (gone & fin & Hi). exists (MkState (st s) (st_tw s) (delete i (st_trs s))). split; [done|]. exists gone, fin.
  destruct Hi as [Hd Hw Hdd Hlim Hcur Hcomp Hb Hsch Htx Hrd Hle Hhd].
  constructor; cbn [spec_step fst hist txn comp readers st st_tw st_trs]; try done.
  by apply Forall2_delete.
Qed.

(** ** The backend *)

Lemma rep_later st bs dk n n' : BackendLog.rep st bs dk n -> n <= n' -> BackendLog.rep st bs dk n'.
Proof.
  destruct st as [bk os]. intros (Hl & Hh & (Hv & Hn & Hc) & Ho) Hle.
  do 2 (split; [done|]). split; [|done]. split; [done|]. split; [lia|done].
Qed.

(** The disk with the changes of the transaction. *)
Definition with_all (d : disk) (t : option (list kchange)) : disk :=
  MkDisk (all_hist d t) (d_gone d) (d_sched d) (d_fin d).

Lemma all_none d : all_hist d None = d_hist d.
Proof. unfold all_hist. cbn. by rewrite app_nil_r. Qed.

Lemma with_all_none d : with_all d None = d.
Proof. unfold with_all. rewrite all_none. by destruct d. Qed.

(** The writer of [d] releases the lock. *)
Lemma unlock_spec bk bs dk dd d n : BackendLog.rep (bk, []) bs dk n -> on_disk dk dd ->
  BackendLog.openings bs = 0%nat -> on_disk (BackendLog.cur bs) d -> n < two64 - 1 ->
  exists bk' bs' dd', backend.Unlock BackendLog.no_hooks bk = Ret bk' /\ backed bk' bs' d None dd' (n + 1) /\
    (dd' = dd \/ dd' = d).
Proof.
  intros Hr Hdk Ho Hc Hn.
  destruct (BackendLog.event_step (bk, []) bs dk n BackendLog.EUnlock Hr Ho Hn) as ([bk' os] & dk' & r & E & Hr' & Hd & _).
  cbn [BackendLog.step] in E. destruct (backend.Unlock _ bk) as [bk1| |]; [|done..].
  rewrite ret_bind in E. injection E as <- <- <-.
  exists bk1, (BackendLog.spec_step bs BackendLog.EUnlock), (if decide (dk' = dk) then dd else d). split; [done|].
  split; [|case_decide; [by left|by right]]. constructor; cbn [BackendLog.spec_step BackendLog.openings BackendLog.seen BackendLog.cur BackendLog.held BackendLog.done_]; try done.
  - exists dk'. split; [done|]. case_decide as Hdk'; [by subst|].
    destruct Hd as [[-> _]| ->]; [done|]. exact Hc.
  - fold (with_all d None). by rewrite with_all_none.
  - by intros k ?%not_elem_of_nil.
Qed.

Lemma force_commit_spec bk bs d dd n : backed bk bs d None dd n -> n < two64 - 1 ->
  exists bk' bs', backend.ForceCommit BackendLog.no_hooks bk = Ret bk' /\ backed bk' bs' d None d (n + 1).
Proof.
  intros [(dk & Hr & Hdk) Ho Hs Hc Hh Hdn] Hn. specialize (Hh eq_refl).
  destruct (BackendLog.event_step (bk, []) bs dk n BackendLog.ECommit Hr (conj Ho Hh) Hn) as ([bk' os] & dk' & r & E & Hr' & Hd & _).
  cbn [BackendLog.step] in E. destruct (backend.ForceCommit _ bk) as [bk1| |]; [|done..].
  rewrite ret_bind in E. injection E as <- <- <-. exists bk1, bs. split; [done|]. constructor; try done.
  exists dk'. split; [done|]. destruct Hd as [[_ Hd]| ->]; [done|exact Hs].
Qed.

(** A reader is given what has ended. *)
Lemma read_tx_spec bk bs d t dd n mode : backed bk bs d t dd n -> n + 1 < two64 - 1 ->
  exists bk' bs' rt dd', (match mode with ConcurrentReadTxMode => backend.ConcurrentReadTx bk
                      | SharedBufReadTxMode => (bk, backend.readTx bk) end) = (bk', rt) /\
    backed bk' bs' d t dd' (n + 2) /\ (dd' = dd \/ dd' = d) /\ BackendLog.reads_keys rt (BackendLog.seen bs).
Proof.
  intros [(dk & Hr & Hdk) Ho Hs Hc Hh Hdn] Hn. destruct mode.
  - destruct (BackendLog.event_step (bk, []) bs dk n BackendLog.EStart Hr I) as ([bk1 os1] & dk1 & r1 & E1 & Hr1 & Hd1 & _); [lia|].
    cbn [BackendLog.step app] in E1. injection E1 as <- <- <-.
    destruct (BackendLog.event_step _ _ dk1 (n + 1) (BackendLog.EFinish 0) Hr1) as ([bk2 os2] & dk2 & r2 & E2 & Hr2 & Hd2 & Hrd);
      [cbn; lia|lia|].
    cbn [BackendLog.step lookup list_lookup] in E2.
    change (backend.crt_finish bk (backend.crt_start bk)) with (backend.ConcurrentReadTx bk) in E2.
    destruct (backend.ConcurrentReadTx bk) as [bk3 rt] eqn:Ec. injection E2 as <- <- <-.
    exists bk3, (BackendLog.spec_step (BackendLog.spec_step bs BackendLog.EStart) (BackendLog.EFinish 0)), rt, (if decide (dk2 = dk) then dd else d).
    split; [done|]. split; [|split; [case_decide; [by left|by right]|by apply (Hrd rt)]]. rewrite <- Z.add_assoc in Hr2.
    constructor; cbn [BackendLog.spec_step BackendLog.openings BackendLog.seen BackendLog.cur BackendLog.held BackendLog.done_]; try done.
    exists dk2. split; [exact Hr2|]. case_decide as Hdk2; [by subst|].
    destruct Hd2 as [[-> _]| ->]; [destruct Hd1 as [[-> _]| ->]; [done|]|]; exact Hs.
  - exists bk, bs, (backend.readTx bk), dd. split; [done|]. split; [|split; [by left|]].
    + constructor; try done. exists dk. split; [|done]. eapply rep_later; [done|lia].
    + apply BackendLog.reads_reads_keys. by destruct Hr as ([_ _ _ ? _ _ _] & _).
Qed.

Lemma read_step s sp dd n mode : related s sp dd n -> n + 2 < two64 ->
  exists s' dd', step s (KRead mode) = Ret (s', ANone) /\ related s' (fst (spec_step sp (KRead mode))) dd' (n + 2) /\
    synced sp dd dd'.
Proof.
  intros (gone & fin & Hi) Hn. set (d := MkDisk (hist sp) gone (comp sp) fin) in *.
  pose proof Hi as [Hd Hw Hdd Hlim Hcur Hcomp [bs Hb] Hsch Htx Hrd Hle Hhd].
  destruct (read_tx_spec (b (st s)) bs d _ dd n mode Hb) as (bk & bs' & rt & dd' & E & Hb' & Hdd' & Hrt); [lia|].
  cbn [step]. unfold Read. rewrite E.
  exists (MkState (with_b (st s) bk) (st_tw s) (st_trs s ++ [MkTxnRead rt (compactMainRev (st s)) (currentRev (st s))])), dd'.
  split; [done|]. split; [|destruct Hdd' as [->| ->]; [by left|by right]].
  exists gone, fin. constructor; cbn [spec_step fst hist txn comp readers st st_tw st_trs with_b b kvindex le currentRev compactMainRev CompactionBatchLimit fifoSched]; try done.
  - destruct Hdd' as [->| ->]; [done|]. by split.
  - eauto.
  - apply Forall2_app; [done|]. constructor; [|constructor]. split; [done|]. split; [done|].
    exists (BackendLog.seen bs). split; [done|]. apply (on_disk_covers _ d Hd). by destruct Hb.
Qed.

Lemma end_step s sp dd n : related s sp dd n -> txn sp <> None -> n + 1 < two64 ->
  exists s' dd', step s KEnd = Ret (s', ANone) /\ related s' (fst (spec_step sp KEnd)) dd' (n + 1) /\
    synced (fst (spec_step sp KEnd)) dd dd'.
Proof.
  intros (gone & fin & Hi) Ht Hn. destruct (txn sp) as [xs|] eqn:Etx; [|done].
  destruct (txn_related s sp xs dd n gone fin) as (tw & Etw & Hi'); [done|by rewrite Etx|].
  set (d := MkDisk (hist sp) gone (comp sp) fin) in *.
  pose proof Hi' as [Hd Hw [Hdd Hpre] Hlim Hcur Hcomp [bs [(dk & Hr & Hdk) Ho Hs Hc Hh Hdn]] (ilvl & Hidx & Hsc) Htx Hrd Hle Hhd].
  destruct (txn_cur _ _ _ _ _ _ _ _ _ Hi') as [Hrev Hcur2]. destruct (txn_parts _ _ _ _ _ _ _ _ _ Hi') as (Hbeg & Hlen & Hxs).
  destruct (disk_app d xs Hd Hw Hxs) as (Hd' & Hlv & Hle2). fold (all_hist d (Some xs)) in Hd', Hle2.
  destruct (unlock_spec (b (st s)) bs dk dd _ n Hr Hdk Ho Hc) as (bk & bs' & dd' & Eb & Hb' & Hdd'); [lia|].
  cbn [step]. rewrite Etw. unfold tw_End. match goal with |- context [backend.Unlock _ (b ?s0)] => set (s1 := s0) end.
  assert (b s1 = b (st s) /\ kvindex s1 = kvindex (st s) /\ le s1 = le (st s) /\ compactMainRev s1 = compactMainRev (st s) /\
    CompactionBatchLimit s1 = CompactionBatchLimit (st s) /\ fifoSched s1 = fifoSched (st s) /\
    currentRev s1 = cur_of (all_hist d (Some xs))) as (E1 & E2 & E3 & E4 & E5 & E6 & E7).
  { unfold s1. rewrite <- Hcur2. unfold tw_rev. rewrite Hbeg, <- Hcur. by destruct (changes tw). }
  clearbody s1. rewrite E1, Eb, !ret_bind. eexists _, dd'. split; [reflexivity|].
  cbn [spec_step fst]. unfold all. rewrite Etx. fold (all_hist d (Some xs)).
  split; [|destruct Hdd' as [->| ->]; [by left|by right]].
  exists gone, fin. constructor; cbn [hist txn comp readers st st_tw st_trs with_b b kvindex le currentRev compactMainRev CompactionBatchLimit fifoSched];
    rewrite ?E2, ?E3, ?E4, ?E5, ?E6, ?E7, ?all_none; cbn [d_hist]; try done.
  - destruct Hdd' as [->| ->]; [|done]. split; [done|]. etrans; [exact Hpre|]. by apply prefix_app_r.
  - eauto.
  - exists ilvl. split; [done|]. destruct Hsc. by constructor.
  - eapply Forall2_impl; [exact Hrd|]. intros tr r (Hv & Hrc & m & Hm & Hcv). split; [done|]. split; [cbn in *; lia|].
    exists m. split; [done|]. apply covers_app; [done|]. apply Forall_and. split; [done|].
    eapply Forall_impl; [exact Hxs|]. cbn in *. lia.
Qed.

Lemma commit_step s sp dd n : related s sp dd n -> n + 1 < two64 ->
  exists s' dd', step s KCommit = Ret (s', ANone) /\ related s' sp dd' (n + 1) /\
    synced sp dd dd' /\ (txn sp = None -> holds_spec sp dd').
Proof.
  intros (gone & fin & Hi) Hn. destruct (txn sp) as [xs|] eqn:Etx.
  - destruct (txn_related s sp xs dd n gone fin) as (tw & Etw & Hi'); [done|by rewrite Etx|].
    exists s, dd. cbn [step]. rewrite Etw. split; [done|]. split; [|split; [by left|done]].
    exists gone, fin. rewrite Etw, Etx. destruct Hi' as [? ? ? ? ? ? [bs [(dk & Hr & Hdk) ? ? ? ? ?]] ? ? ? ? ?].
    constructor; try done. exists bs. constructor; try done. exists dk. split; [|done]. eapply rep_later; [done|lia].
  - rewrite <- Etx in Hi. pose proof (none_related _ _ _ _ _ _ Etx Hi) as Etw.
    destruct Hi as [Hd Hw Hdd Hlim Hcur Hcomp [bs Hb] Hsch Htx Hrd Hle Hhd]. rewrite Etx, Etw in *.
    destruct (force_commit_spec (b (st s)) bs _ dd n Hb) as (bk & bs' & E & Hb'); [lia|].
    cbn [step]. rewrite Etw. unfold Commit. rewrite E, !ret_bind. eexists _, (MkDisk (hist sp) gone (comp sp) fin). split; [reflexivity|].
    split; [|split; [by right|done]]. exists gone, fin. rewrite Etx. constructor; cbn [st st_tw st_trs with_b b kvindex le currentRev compactMainRev CompactionBatchLimit fifoSched]; try done.
    eauto.
Qed.

End Events.
End KvEvents.
