(* ===== verification/KvCompact.v ===== *)
(** * Compactions of etcd's store

    A compaction is scheduled, takes the items of the index one by one, and
    then deletes the records that are no longer needed in batches, beside the
    transactions; and it ends. *)

From S2P Require Import Prelude Errors Utils KeyIndex KeyTimeline RevBytes TreeIndex IndexLog KvPb BoltApi TxBuffer Backend BackendLog KvHash KvStore KvHistory KvReads KvInv KvEvents.

Module KvCompact.
Import mvcc mvccpb Timeline RevBytes kvhash kvstore KvHistory KvReads KvInv KvEvents.

(** ** A batch of records *)

(** The records from [from] on that a batch of [lim] looks at. *)
Definition batch (h : list kchange) (gone : gset Revision) (from : bytes) (c lim : Z) : list record :=
  take (Z.to_nat lim) (List.filter (fun x => negb (bytes_ltb (key_bytes (fst x)) from) && (Main (rev_of x) <=? c))
    (filter (fun x => rev_of x ∉ gone) (recs h))).

(** What is gone when those of them that are not to be kept are deleted. *)
Fixpoint sweep (keep : gset Revision) (rs : list record) (gone : gset Revision) : gset Revision :=
  match rs with
  | [] => gone
  | x :: rs => sweep keep rs (if decide (rev_of x ∈ keep) then gone else {[rev_of x]} ∪ gone)
  end.

Lemma elem_of_sweep keep rs gone r : r ∈ sweep keep rs gone <->
  r ∈ gone \/ r ∉ keep /\ exists x, x ∈ rs /\ rev_of x = r.
Proof.
  revert gone. induction rs as [|x rs IH]; intros gone; cbn [sweep].
  - split; [by left|]. intros [?|(_ & x & ?%not_elem_of_nil & _)]; done.
  - rewrite IH. setoid_rewrite elem_of_cons. case_decide; [naive_solver|]. rewrite elem_of_union, elem_of_singleton. naive_solver.
Qed.

Lemma end_ltb k c : valid k -> 0 <= c < 2 ^ 63 ->
  bytes_ltb (key_bytes k) (Uint64ToBytes (u64 (c + 1))) = (Main (bk_Revision k) <=? c).
Proof.
  intros [Hm _] Hc. rewrite (u64_small (c + 1)) by word. unfold key_bytes.
  rewrite <- (app_nil_r (Uint64ToBytes (c + 1))), bytes_ltb_app by done.
  rewrite !be_value_Uint64ToBytes by word. cbn [app bytes_ltb]. rewrite andb_false_r, orb_false_r. lia.
Qed.

Lemma filter_map_eq {A B} (f : A -> B) (p : B -> bool) l :
  List.filter p (map f l) = map f (List.filter (fun x => p (f x)) l).
Proof. induction l as [|x l IH]; [done|]. cbn. rewrite IH. by destruct (p (f x)). Qed.

Lemma batch_range h gone from c lim : wf h -> 0 <= c < 2 ^ 63 ->
  Pairs.range from (Uint64ToBytes (u64 (c + 1))) lim (bucket_of h gone) = map encode (batch h gone from c lim).
Proof.
  intros Hw Hc. unfold Pairs.range, batch, bucket_of. destruct (Uint64ToBytes (u64 (c + 1))) eqn:E; [done|]. rewrite <- E.
  rewrite Pairs.ztake_take, filter_map_eq, <- !fmap_take. do 2 f_equal. apply List.filter_ext_in.
  intros x [_ Hx]%list_elem_of_In%list_elem_of_filter. cbn [encode fst]. rewrite end_ltb; [done| |done]. by eapply wf_fits.
Qed.

Lemma take_sorted {A} (R : A -> A -> Prop) n l x y : StronglySorted R l -> (forall a b, R a b -> ~ R b a) ->
  x ∈ l -> y ∈ take n l -> R x y -> x ∈ take n l.
Proof.
  intros Hs Ha. revert n. induction Hs as [|z l Hs IH Hz]; intros [|n] Hx Hy Hr;
    try (by apply not_elem_of_nil in Hy).
  rewrite Forall_forall in Hz. cbn [take] in *. apply elem_of_cons in Hx as [->|Hx]; [by left|]. right.
  apply elem_of_cons in Hy as [->|Hy]; [|by apply IH]. destruct (Ha x z Hr). by apply Hz.
Qed.

Lemma rev_lt_asym a b : rev_lt a b -> ~ rev_lt b a.
Proof. rewrite !rev_lt_spec. lia. Qed.

Lemma sorted_pair {A} (R : A -> A -> Prop) l x y : StronglySorted R l -> x ∈ l -> y ∈ l -> x = y \/ R x y \/ R y x.
Proof.
  induction 1 as [|z l Hs IH Hz]; [by intros ?%not_elem_of_nil|]. rewrite Forall_forall in Hz.
  intros [->|Hx]%elem_of_cons [->|Hy]%elem_of_cons; [by left|right; left; by apply Hz|right; right; by apply Hz|by apply IH].
Qed.

(** Every change of a key is in its timeline. *)
Lemma change_entry h x : x ∈ h -> exists o, (IndexLog.c_rev x, o) ∈ IndexLog.key_timeline (IndexLog.c_key x) h.
Proof.
  induction h as [|y h IH] using rev_ind; [by intros ?%not_elem_of_nil|]. rewrite IndexLog.key_timeline_snoc.
  unfold IndexLog.add_entry. intros [Hx| ->%list_elem_of_singleton]%elem_of_app.
  - destruct (IH Hx) as [o Ho]. exists o. case_decide; [apply elem_of_app; by left|done].
  - rewrite decide_True by done. set (tl := IndexLog.key_timeline _ h). destruct y as [k r|k r].
    + exists (snd (next tl r)). apply elem_of_app. right. destruct (next_fst tl r) as [E _].
      destruct (next tl r) as [r' o]. cbn in *. subst r'. by left.
    + exists None. apply elem_of_app. right. by left.
Qed.

(** Nothing of the key up to [c] follows what a read at [c] finds. *)
Lemma at_rev_last tl c e e' : StronglySorted before tl -> at_rev tl c = Some e -> e' ∈ tl -> upto c e' ->
  ~ rev_lt (fst e) (fst e').
Proof.
  intros Hs El He' Hu Hlt. unfold at_rev in El. apply last_Some in El as [l El].
  assert (e' ∈ filter (upto c) tl) as Hin by (by apply list_elem_of_filter).
  pose proof (sorted_filter before (upto c) tl Hs) as Hs'. rewrite El in Hin, Hs'.
  apply StronglySorted_app in Hs' as (Hb & _). apply elem_of_app in Hin as [Hin| ->%list_elem_of_singleton].
  - destruct (Hb e' e Hin (list_elem_of_here _ _)) as [Hlt' _]. by eapply rev_lt_asym.
  - by eapply rev_lt_asym.
Qed.

Lemma wf_sub h x : wf h -> x ∈ h -> Sub (x_rev x) < 2 ^ 63 - 1.
Proof.
  induction 1 as [|h y Hw IH (_ & _ & Hs & _)]; [by intros ?%not_elem_of_nil|].
  intros [Hx| ->%list_elem_of_singleton]%elem_of_app; [by apply IH|done].
Qed.

(** The bucket key that follows that of a record. *)
Definition after (r : Revision) : bytes := key_bytes (MkBucketKey (MkRev (Main r) (Sub r + 1)) false).

Lemma after_valid h z : wf h -> z ∈ recs h -> valid (MkBucketKey (MkRev (Main (rev_of z)) (Sub (rev_of z) + 1)) false).
Proof.
  intros Hw Hz. pose proof (wf_fits h z Hw Hz) as ([Hv1 Hv2] & _). apply recs_change in Hz as (u & Hu & Eu & _).
  pose proof (wf_sub h u Hw Hu) as Hs. unfold rev_of in *. rewrite Eu in Hs.
  split; cbn [bk_Revision Main Sub]; lia.
Qed.

Section Batch.
Context (h : list kchange) (gone : gset Revision) (from : bytes) (c lvl lim : Z) (keep : gset Revision).
Context (Hw : wf h) (Hg : gone_ok h lvl gone) (Hc : c <= lvl).
Context (Hkeep : forall r, r ∈ keep <-> IndexLog.live (erased h) c r \/ IndexLog.deleted (erased h) c r).
Context (Hlast : forall x, x ∈ recs h -> rev_of x ∉ gone -> bytes_ltb (key_bytes (fst x)) from = true ->
  Main (rev_of x) <= c -> needed (erased h) c (rev_of x)).

Abbreviation rs := (batch h gone from c lim).
Abbreviation gone' := (sweep keep rs gone).

(** What the batch is taken from. *)
Abbreviation left_ := (List.filter (fun x => negb (bytes_ltb (key_bytes (fst x)) from) && (Main (rev_of x) <=? c))
    (filter (fun x => rev_of x ∉ gone) (recs h))).

Lemma elem_of_left x : x ∈ left_ <-> x ∈ recs h /\ rev_of x ∉ gone /\
  bytes_ltb (key_bytes (fst x)) from = false /\ Main (rev_of x) <= c.
Proof.
  rewrite list_elem_of_In, filter_In, <- list_elem_of_In, list_elem_of_filter, andb_true_iff, negb_true_iff, Z.leb_le. tauto.
Qed.

Lemma left_sorted : StronglySorted (fun a b => rev_lt (rev_of a) (rev_of b)) left_.
Proof.
  pose proof (sorted_filter _ (fun x => rev_of x ∉ gone) _ (recs_sorted h Hw)) as Hs.
  induction Hs as [|x l Hs IH Hx]; [constructor|]. cbn. destruct (negb _ && _); [|done]. constructor; [done|].
  rewrite Forall_forall in *. intros y Hy. apply Hx. by apply list_elem_of_In, filter_In in Hy as [?%list_elem_of_In _].
Qed.

Lemma batch_left x : x ∈ rs -> x ∈ left_.
Proof. intros (i & Hi & _)%elem_of_take. by eapply list_elem_of_lookup_2. Qed.

Lemma batch_first x y : x ∈ left_ -> y ∈ rs -> rev_lt (rev_of x) (rev_of y) -> x ∈ rs.
Proof. intros Hx Hy Hlt. eapply take_sorted; [apply left_sorted|intros ? ?; apply rev_lt_asym|done..]. Qed.

(** A record that a later one of its key replaces up to [c] is not needed. *)
Lemma replaced x y : x ∈ recs h -> y ∈ recs h -> Key (snd x) = Key (snd y) ->
  rev_lt (rev_of x) (rev_of y) -> Main (rev_of y) <= c -> ~ needed (erased h) c (rev_of x).
Proof.
  intros Hx Hy Ek Hlt Hm. pose proof (wf_ordered h Hw) as Ho.
  apply recs_change in Hy as (cy & Hcy & Ery & Eky & _). rewrite <- Ery in *.
  assert (erase cy ∈ erased h) as Hey by (apply elem_of_erased; eauto).
  intros [Hn|[(k & cr & v & E)|[Hd [k Hk]]]].
  - apply rev_lt_spec in Hlt. lia.
  - pose proof (state_agrees h c k Hw) as Ha. unfold agrees in Ha. rewrite E in Ha.
    destruct (kv_at h c !! k) as [kv|]; [|done]. destruct Ha as (Hin & Ekv & _).
    rewrite (recs_unique h x _ Hw Hx Hin eq_refl) in Ek. cbn in Ek.
    rewrite <- IndexLog.read_timeline in E by done. unfold Timeline.read in E.
    destruct (at_rev _ c) as [[r [[cr' v']|]]|] eqn:El; [|done|done]. injection E as -> -> ->.
    destruct (change_entry _ _ Hey) as [o Hin']. rewrite erase_key, erase_rev, Eky, <- Ek, Ekv in Hin'.
    by apply (at_rev_last _ _ _ _ (timeline_sorted k _ Ho) El Hin').
  - apply recs_change in Hx as (cx & Hcx & Erx & Ekx & _). rewrite <- Erx in *.
    assert (erase cx ∈ erased h) as Hex by (apply elem_of_erased; eauto).
    assert (erase cx = IndexLog.CDel k (x_rev cx)) as Ecx by (apply (IndexLog.ordered_rev (erased h)); try done; by rewrite erase_rev).
    pose proof (erase_key cx) as Ekk. rewrite Ecx in Ekk. cbn in Ekk. apply rev_lt_spec in Hlt.
    destruct (sorted_pair _ _ _ _ Ho Hex Hey) as [E|[[_ Hc2]|[Hc2 _]]]; rewrite ?E, ?erase_rev in *.
    + rewrite <- (erase_rev cx), E, erase_rev in Hlt. lia.
    + specialize (Hc2 ltac:(rewrite Ecx, erase_key; cbn; congruence)). lia.
    + apply rev_lt_spec in Hc2. lia.
Qed.

Lemma unneeded_swept x : x ∈ rs -> ~ needed (erased h) c (rev_of x) -> rev_of x ∈ gone'.
Proof.
  intros Hx Hn. apply elem_of_sweep. right. split; [|eauto]. rewrite Hkeep. intros Hk. apply Hn. by right.
Qed.

Lemma swept_unneeded x : x ∈ recs h -> rev_of x ∈ gone' -> rev_of x ∉ gone -> x ∈ rs /\ ~ needed (erased h) c (rev_of x).
Proof.
  intros Hx Hin Hn. apply elem_of_sweep in Hin as [?|(Hk & y & Hy & E)]; [done|].
  pose proof (proj1 (elem_of_left y) (batch_left y Hy)) as (Hy' & _ & _ & Hm).
  rewrite <- (recs_unique h y x Hw Hy' Hx E). split; [done|]. rewrite E. rewrite Hkeep in Hk. rewrite <- E in *.
  intros [?|?]; [lia|tauto].
Qed.

(** What is left to look at, or what the batch has passed. *)
Lemma kept_needed x : x ∈ recs h -> rev_of x ∉ gone' -> x ∈ rs \/ bytes_ltb (key_bytes (fst x)) from = true ->
  Main (rev_of x) <= c -> needed (erased h) c (rev_of x).
Proof.
  intros Hx Hn [Hin|Hlt] Hm.
  - destruct (decide (rev_of x ∈ keep)) as [Hk|Hk]; [right; by apply Hkeep|].
    destruct Hn. apply elem_of_sweep. right. eauto.
  - apply Hlast; try done. intros Hin. apply Hn, elem_of_sweep. by left.
Qed.

Lemma batch_gone : gone_ok h lvl gone'.
Proof.
  destruct Hg as [Hu Ho Hm]. split.
  - intros x Hx Hin Hn. destruct (decide (rev_of x ∈ gone)) as [?|Hng]; [by apply (Hu x)|].
    apply (swept_unneeded x Hx Hin Hng). eapply needed_earlier; [by apply wf_ordered|exact Hc|done].
  - intros x y Hx Hy Ek Hlt Hin. destruct (decide (rev_of y ∈ gone)) as [Hyg|Hng].
    { apply elem_of_sweep. left. by apply (Ho x y). }
    destruct (swept_unneeded y Hy Hin Hng) as [Hyr _].
    pose proof (proj1 (elem_of_left y) (batch_left y Hyr)) as (_ & _ & _ & Hmy).
    pose proof (replaced x y Hx Hy Ek Hlt Hmy) as Hun.
    destruct (decide (rev_of x ∈ gone)) as [Hxg|Hxg]; [apply elem_of_sweep; by left|].
    apply unneeded_swept; [|done]. apply (batch_first x y); [|done..]. apply elem_of_left.
    assert (Main (rev_of x) <= c) as Hmx by (apply rev_lt_spec in Hlt; lia).
    split; [done|]. split; [done|]. split; [|done].
    destruct (bytes_ltb (key_bytes (fst x)) from) eqn:E; [|done]. by destruct (Hun (Hlast x Hx Hxg E Hmx)).
  - intros r [Hr|(_ & x & Hx & <-)]%elem_of_sweep; [by apply Hm|]. exists x. split; [|done].
    by apply elem_of_left, batch_left.
Qed.

Lemma batch_all : Z.of_nat (length rs) < lim -> swept h gone' c.
Proof.
  intros Hl x Hx Hn Hm. apply kept_needed; try done.
  destruct (bytes_ltb (key_bytes (fst x)) from) eqn:E; [by right|left].
  unfold batch in *. rewrite length_take in Hl. rewrite take_ge by lia. apply elem_of_left.
  split; [done|]. split; [|done]. intros Hin. apply Hn, elem_of_sweep. by left.
Qed.

Lemma batch_next z : last rs = Some z -> forall x, x ∈ recs h -> rev_of x ∉ gone' ->
  bytes_ltb (key_bytes (fst x)) (after (rev_of z)) = true -> Main (rev_of x) <= c ->
  needed (erased h) c (rev_of x).
Proof.
  intros Hz x Hx Hn Hlt Hm. apply kept_needed; try done.
  destruct (bytes_ltb (key_bytes (fst x)) from) eqn:E; [by right|left].
  assert (z ∈ rs) as Hzr by (apply last_Some in Hz as [l ->]; apply elem_of_app; right; by left).
  assert (x ∈ left_) as Hxl.
  { apply elem_of_left. split; [done|]. split; [|done]. intros Hin. apply Hn, elem_of_sweep. by left. }
  pose proof (proj1 (elem_of_left z) (batch_left z Hzr)) as (Hzh & _).
  destruct (GreaterThan (rev_of z) (rev_of x)) eqn:Hl; [by eapply batch_first|].
  assert (~ rev_lt (rev_of x) (rev_of z)) as Hnl by (unfold rev_lt; congruence).
  assert (rev_of x = rev_of z) as Er.
  { pose proof (wf_fits h x Hw Hx) as [Hvx _].
    apply (proj1 (key_bytes_ltb _ _ Hvx (after_valid h z Hw Hzh))) in Hlt.
    destruct Hlt as [Hlt%rev_lt_spec|(_ & _ & ?)]; [|done].
    rewrite rev_lt_spec in Hnl. unfold rev_of in *. destruct (bk_Revision (fst x)), (bk_Revision (fst z)). cbn in *. f_equal; lia. }
  by rewrite (recs_unique h x z Hw Hx Hzh Er).
Qed.

End Batch.
Lemma bytes_to_rev k : valid k -> BytesToRev (key_bytes k) = Ret (bk_Revision k).
Proof. intros Hv. unfold BytesToRev. by rewrite bytes_to_key, ret_bind. Qed.

(** Into a slice that holds a key already. *)
Lemma rev_bytes_into r buf : valid (MkBucketKey r false) -> length buf = 17%nat ->
  RevToBytes r buf = Ret (key_bytes (MkBucketKey r false)).
Proof.
  intros [Hm Hs] Hl. unfold RevToBytes, BucketKeyToBytes, newBucketKey, key_bytes. destruct r as [m u].
  cbn [bk_Revision Main Sub tombstone_mark] in *. rewrite !u64_rev by done.
  do 17 (destruct buf as [|? buf]; [done|]). destruct buf; [|done]. cbn -[byte_of_Z]. done.
Qed.

Lemma length_rev_bytes r : length (key_bytes (MkBucketKey r false)) = 17%nat.
Proof. done. Qed.

Lemma write_key_value hs k v : valid k -> exists hs', WriteKeyValue hs (key_bytes k) v = Ret hs' /\ keeps hs' = keeps hs.
Proof.
  intros Hv. unfold WriteKeyValue. rewrite bytes_to_rev, ret_bind by done.
  destruct (negb (GreaterThan _ _)); [eauto|]. rewrite bytes_to_key, ret_bind by done.
  destruct (_ && negb (bool_decide _)); [eauto|]. destruct (_ && tombstone_mark k); eauto.
Qed.

Lemma cur_limit h : wf h -> cur_of h < 2 ^ 63.
Proof.
  intros Hw. unfold cur_of. destruct (last h) as [x|] eqn:El; [|done]. apply last_Some in El as [l ->].
  apply wf_snoc_inv in Hw as [_ (_ & _ & _ & _ & _ & ([Hv _] & _))]. cbn in Hv. lia.
Qed.

Definition with_gone (d : disk) (gone : gset Revision) : disk := MkDisk (d_hist d) gone (d_sched d) (d_fin d).
Definition with_compact (d : disk) (sched fin : option Z) : disk := MkDisk (d_hist d) (d_gone d) sched fin.

Section Compact.
Context `{BTL : BTreeLaws} `{BLL : BoltLaws} `{LEL : LessorLaws}.

(** ** A writer of the backend *)

(** The writer is at [d]. *)
Record writing (bk : backend.backend) (bs : BackendLog.spec) (d dd : disk) (n : Z) : Prop := {
  w_rep : exists dk, BackendLog.rep (bk, []) bs dk n /\ on_disk dk dd;
  w_openings : BackendLog.openings bs = 0%nat;
  w_cur : on_disk (BackendLog.cur bs) d;
  w_done : BackendLog.done_ bs = []
}.

Lemma backed_later bk bs d t dd n n' : n <= n' -> backed bk bs d t dd n -> backed bk bs d t dd n'.
Proof.
  intros Hn [(dk & Hr & Hdk) Ho Hs Hc Hh Hdn]. constructor; try done. exists dk. split; [|done]. by eapply rep_later.
Qed.

Lemma backed_writing bk bs d dd n : backed bk bs d None dd n -> writing bk bs d dd n.
Proof.
  intros [(dk & Hr & Hdk) Ho Hs Hc Hh Hdn]. specialize (Hh eq_refl). fold (with_all d None) in Hc. rewrite with_all_none in Hc.
  constructor; [eauto|done..|]. destruct Hr as (_ & Hu & _). by destruct (Hu Hh) as (_ & _ & ?).
Qed.

Lemma writing_unlock bk bs d dd n : writing bk bs d dd n -> n < two64 - 1 ->
  exists bk' bs' dd', backend.Unlock BackendLog.no_hooks bk = Ret bk' /\ backed bk' bs' d None dd' (n + 1) /\
    (dd' = dd \/ dd' = d).
Proof. intros [(dk & Hr & Hdk) Ho Hc _] Hn. by eapply unlock_spec. Qed.

Lemma writing_delete bk bs d dd n x : writing bk bs d dd n -> wf (d_hist d) -> x ∈ recs (d_hist d) ->
  exists bk' bs', backend.UnsafeDelete bk schema.Key (key_bytes (fst x)) = Ret bk' /\
    writing bk' bs' (with_gone d ({[rev_of x]} ∪ d_gone d)) dd n.
Proof.
  intros [(dk & Hr & Hdk) Ho [Hc Hm] Hdn] Hw Hx.
  destruct (BackendLog.op_step bk [] bs dk n (BackendLog.WDelete schema.Key (key_bytes (fst x))) Hr) as (bk' & E & Hr').
  { split; [apply Key_All|]. rewrite Hc. eauto. }
  exists bk', (BackendLog.spec_step bs (BackendLog.EOp (BackendLog.WDelete schema.Key (key_bytes (fst x))))).
  split; [exact E|].
  constructor; cbn [BackendLog.spec_step BackendLog.openings BackendLog.cur BackendLog.done_ BackendLog.puts app]; [eauto|done| |done].
  split; cbn [BackendLog.spec_op with_gone d_hist d_gone d_sched d_fin].
  - rewrite lookup_insert_eq, Hc. cbn [default from_option id]. by rewrite bucket_del.
  - by rewrite lookup_insert_ne.
Qed.

(** The revision of a compaction is recorded. *)
Lemma writing_set bk bs d dd n name c sched fin : writing bk bs d dd n -> 0 <= c < 2 ^ 63 ->
  (name = schema.ScheduledCompactKeyName /\ sched = Some c /\ fin = d_fin d \/
   name = schema.FinishedCompactKeyName /\ sched = d_sched d /\ fin = Some c) ->
  exists bk', (rbytes ← RevToBytes (MkRev c 0) NewRevBytes; backend.UnsafePut bk schema.Meta name rbytes) = Ret bk' /\
    exists dk bs', BackendLog.rep (bk', []) bs' dk n /\ on_disk dk dd /\ BackendLog.openings bs' = 0%nat /\
      on_disk (BackendLog.cur bs') (with_compact d sched fin).
Proof.
  intros [(dk & Hr & Hdk) Ho [Hc (l & Hl & Hs & Hf1 & Hf2)] Hdn] Hcv Hname.
  assert (valid (MkBucketKey (MkRev c 0) false)) as Hv by (split; cbn; lia).
  rewrite rev_bytes, ret_bind by done. fold (enc_rev c).
  destruct (BackendLog.op_step bk [] bs dk n (BackendLog.WPut schema.Meta name (enc_rev c)) Hr) as (bk' & E & Hr').
  { split; [apply Meta_All|]. split; [done|]. rewrite Hl, Hdn. split; [eauto|]. split; [|apply not_elem_of_nil].
    by destruct Hname as [(-> & _)|(-> & _)]. }
  exists bk'. split; [exact E|]. exists dk, (BackendLog.spec_step bs (BackendLog.EOp (BackendLog.WPut schema.Meta name (enc_rev c)))).
  split; [done|]. split; [done|]. split; [done|]. cbn [BackendLog.spec_step BackendLog.cur BackendLog.spec_op].
  split; [by rewrite lookup_insert_ne|]. cbn [with_compact d_sched d_fin].
  eexists. split; [by rewrite lookup_insert_eq|]. rewrite Hl. cbn [default from_option id].
  split; [by apply Pairs.ins_sorted|]. rewrite !Pairs.find_ins by done. cbn [fst snd].
  destruct Hname as [(-> & -> & ->)|(-> & -> & ->)].
  - split; [by rewrite decide_True|by rewrite decide_False].
  - split; [by rewrite decide_False|by rewrite decide_True].
Qed.

(** ** The batches *)

Lemma compact_pairs_spec keep rs bk bs d dd n hs rev : writing bk bs d dd n -> wf (d_hist d) ->
  (forall x, x ∈ rs -> x ∈ recs (d_hist d)) ->
  exists bk' bs' hs', compact_pairs keep bk hs rev (map encode rs)
      = Ret (bk', hs', match last rs with Some z => rev_of z | None => rev end) /\
    keeps hs' = keeps hs /\ writing bk' bs' (with_gone d (sweep keep rs (d_gone d))) dd n.
Proof.
  revert bk bs d hs rev. induction rs as [|x rs IH]; intros bk bs d hs rev Hwr Hw Hin.
  - exists bk, bs, hs. split; [done|]. split; [done|]. by destruct d.
  - assert (x ∈ recs (d_hist d)) as Hx by (apply Hin; by left).
    assert (valid (fst x)) as Hv by (by eapply wf_fits).
    cbn [map compact_pairs encode fst snd sweep]. rewrite bytes_to_rev, ret_bind by done.
    change (bk_Revision (fst x)) with (rev_of x).
    assert (exists bk1 bs1, (if bool_decide (rev_of x ∈ keep) then Ret bk
        else backend.UnsafeDelete bk schema.Key (key_bytes (fst x))) = Ret bk1 /\
      writing bk1 bs1 (with_gone d (if decide (rev_of x ∈ keep) then d_gone d else {[rev_of x]} ∪ d_gone d)) dd n)
      as (bk1 & bs1 & E1 & Hw1).
    { destruct (decide (rev_of x ∈ keep)) as [Hk|Hk].
      - rewrite bool_decide_true by done. exists bk, bs. split; [done|]. by destruct d.
      - rewrite bool_decide_false by done. by eapply writing_delete. }
    rewrite E1, ret_bind. destruct (write_key_value hs (fst x) (KeyValue_Marshal (snd x)) Hv) as (hs1 & E2 & Ek).
    rewrite E2, ret_bind. destruct (IH bk1 bs1 _ hs1 (rev_of x) Hw1 Hw) as (bk' & bs' & hs' & E & Ek' & Hw').
    { intros y Hy. apply Hin. by right. }
    exists bk', bs', hs'. split; [|split; [congruence|exact Hw']].
    rewrite E. rewrite last_cons. by destruct (last rs).
Qed.

Lemma writer_range bk bs d dd n from e lim : writing bk bs d dd n -> 0 < lim ->
  backend.b_UnsafeRange bk schema.Key from e lim = Ret (Pairs.range from e lim (bucket_of (d_hist d) (d_gone d))).
Proof.
  intros [(dk & ([(W & Htx & HW) _ _ _ _ _ _] & _) & _) _ [Hc _] _] Hl.
  unfold backend.b_UnsafeRange, backend.with_bucket, backend.open_tx. rewrite Htx, (HW _ Key_All), Hc.
  f_equal. apply BackendLog.unsafeRange_spec; [|done]. by rewrite (HW _ Key_All).
Qed.

(** A batch, which is the last one or tells from where to go on. *)
Lemma compact_batch_spec s bs d dd n c from hs : backed (b s) bs d None dd n -> wf (d_hist d) -> 0 <= c < 2 ^ 63 ->
  0 < CompactionBatchLimit s -> n + 2 < two64 -> length from = 17%nat ->
  let rs := batch (d_hist d) (d_gone d) from c (CompactionBatchLimit s) in
  let d1 := with_gone d (sweep (keeps hs) rs (d_gone d)) in
  exists bk' bs' dd',
    (Z.of_nat (length rs) < CompactionBatchLimit s /\ let d' := with_compact d1 (d_sched d) (Some c) in
       (exists hash, compact_batch BackendLog.no_hooks s c from hs = Ret (with_b s bk', inl hash)) /\
       backed bk' bs' d' None dd' (n + 2) /\ (dd' = dd \/ dd' = d')) \/
    (exists z hs', last rs = Some z /\
       compact_batch BackendLog.no_hooks s c from hs = Ret (with_b s bk', inr (after (rev_of z), hs')) /\
       keeps hs' = keeps hs /\ backed bk' bs' d1 None dd' (n + 2) /\ (dd' = dd \/ dd' = d1)).
Proof.
  intros Hb Hw Hc Hlim Hn Hfrom rs d1. pose proof (backed_writing _ _ _ _ _ Hb) as Hwr.
  unfold compact_batch. rewrite (writer_range _ _ _ _ _ _ _ _ Hwr Hlim), ret_bind, batch_range by done. fold rs.
  assert (forall x, x ∈ rs -> x ∈ recs (d_hist d)) as Hin.
  { intros x Hx. by eapply elem_of_left, batch_left. }
  destruct (compact_pairs_spec (keeps hs) rs (b s) bs d dd n hs (MkRev 0 0) Hwr Hw Hin) as (bk1 & bs1 & hs1 & E & Ek & Hw1).
  rewrite E, ret_bind. fold d1 in Hw1. rewrite length_map.
  destruct (Z.ltb_spec (Z.of_nat (length rs)) (CompactionBatchLimit s)) as [Hl|Hl].
  - destruct (writing_set bk1 bs1 d1 dd n schema.FinishedCompactKeyName c (d_sched d) (Some c) Hw1 Hc)
      as (bk2 & E2 & dk2 & bs2 & Hr2 & Hdk2 & Ho2 & Hc2); [by right|].
    unfold UnsafeSetFinishedCompact. rewrite E2, ret_bind.
    destruct (unlock_spec bk2 bs2 dk2 dd _ n Hr2 Hdk2 Ho2 Hc2) as (bk3 & bs3 & dd' & E3 & Hb3 & Hdd'); [lia|].
    rewrite E3, ret_bind. exists bk3, bs3, dd'. left. split; [done|]. split; [eauto|]. split; [|done].
    by eapply backed_later; [|exact Hb3]; lia.
  - destruct (last rs) as [z|] eqn:Ez; [|apply last_None in Ez; rewrite Ez in Hl; cbn in Hl; lia].
    destruct (writing_unlock bk1 bs1 d1 dd n Hw1) as (bk2 & bs2 & dd2 & E2 & Hb2 & Hdd2); [lia|].
    rewrite E2, ret_bind. assert (z ∈ recs (d_hist d)) as Hz.
    { apply Hin. apply last_Some in Ez as [l ->]. apply elem_of_app. right. by left. }
    pose proof (after_valid _ _ Hw Hz) as Hv. rewrite (i64_small (Sub (rev_of z) + 1)) by (destruct Hv as [_ Hv]; cbn in Hv; word).
    rewrite rev_bytes_into, ret_bind by done. fold (after (rev_of z)).
    destruct (force_commit_spec bk2 bs2 d1 dd2 (n + 1) Hb2) as (bk3 & bs3 & E3 & Hb3); [lia|].
    rewrite E3, ret_bind. exists bk3, bs3, d1. right. exists z, hs1. split; [done|]. split; [done|]. split; [done|].
    rewrite <- Z.add_assoc in Hb3. split; [exact Hb3|by right].
Qed.

(** ** Scheduling *)

Lemma lvl_limit d : disk_ok d -> d_lvl d <= cur_of (d_hist d) < 2 ^ 63.
Proof.
  intros [Hw _ Hs _]. pose proof (cur_limit _ Hw). pose proof (cur_pos _ Hw). split; [|done].
  unfold d_lvl. destruct (d_sched d) as [c|] eqn:E; cbn [default from_option id]; [by apply (Hs c)|lia].
Qed.

Lemma read_compact rt m d name o : BackendLog.reads_keys rt m -> on_disk m d -> disk_ok d ->
  (name = schema.ScheduledCompactKeyName /\ o = d_sched d \/ name = schema.FinishedCompactKeyName /\ o = d_fin d) ->
  UnsafeReadCompact rt name = Ret o.
Proof.
  intros Hr [_ (l & Hl & Hs & Hf1 & Hf2)] Hd Hname. unfold UnsafeReadCompact.
  rewrite (BackendLog.read_key rt m schema.Meta name 0 Meta_All Hr), ret_bind, Hl. cbn [default from_option id].
  assert (Pairs.find name l = enc_rev <$> o) as -> by (by destruct Hname as [[-> ->]|[-> ->]]).
  pose proof (lvl_limit d Hd) as Hlim. destruct o as [c|]; [|done]. cbn [fmap option_fmap option_map].
  assert (0 <= c < 2 ^ 63) as Hc.
  { destruct Hname as [[_ E]|[_ E]]; symmetry in E.
    - pose proof (d_sched_ok d Hd c E) as ?. unfold d_lvl in Hlim. rewrite E in Hlim. cbn in Hlim. lia.
    - destruct (d_fin_ok d Hd c E) as [? _]. lia. }
  cbn [snd]. unfold enc_rev. rewrite bytes_to_rev, ret_bind; [done|]. split; cbn; lia.
Qed.

Lemma check_prev_spec s bs d t dd n : backed (b s) bs d t dd n -> disk_ok d ->
  exists completed, checkPrevCompactionCompleted s = Ret completed.
Proof.
  intros [(dk & ([_ _ _ Hr _ _ _] & _) & _) _ Hs _ _ _] Hd. apply BackendLog.reads_reads_keys in Hr.
  unfold checkPrevCompactionCompleted, UnsafeReadScheduledCompact, UnsafeReadFinishedCompact.
  rewrite (read_compact _ _ d schema.ScheduledCompactKeyName (d_sched d) Hr Hs Hd), ret_bind by (by left).
  rewrite (read_compact _ _ d schema.FinishedCompactKeyName (d_fin d) Hr Hs Hd), ret_bind by (by right). eauto.
Qed.

(** A compaction is scheduled at [rev]. *)
Lemma disk_sched d rev : disk_ok d -> 0 < rev -> d_lvl d <= rev <= cur_of (d_hist d) ->
  disk_ok (with_compact d (Some rev) (d_fin d)).
Proof.
  intros [Hw Hg Hs Hf] H0 Hrev. constructor; cbn [with_compact d_hist d_gone d_sched d_fin].
  - done.
  - eapply gone_mono; [done| |exact Hg]. cbn. lia.
  - intros c [= <-]. lia.
  - intros f Hff. destruct (Hf f Hff) as [? ?]. split; [cbn; lia|done].
Qed.

Lemma open_snoc f j : job_ch j = chans f -> (forall ch, (ch < chans f)%nat -> ch ∈ closed f \/ ch ∈ open_chans f) ->
  forall ch, (ch < S (chans f))%nat -> ch ∈ closed f \/ ch ∈ open_chans (MkSched (pendings f ++ [j]) (running f) (S (chans f)) (closed f)).
Proof.
  intros Ej Hf ch Hch. unfold open_chans. cbn [pendings running]. rewrite map_app, app_assoc.
  destruct (decide (ch = chans f)) as [->|Hne].
  - right. apply elem_of_app. right. cbn. rewrite Ej. by left.
  - destruct (Hf ch) as [?|?]; [lia|by left|right]. apply elem_of_app. by left.
Qed.

Lemma sched_job f t h d ilvl rev prev completed : sched_ok f t h d ilvl -> 0 < rev -> d_lvl d <= rev ->
  sched_ok (MkSched (pendings f ++ [JCompact (chans f) rev prev completed]) (running f) (S (chans f)) (closed f)) t h
    (with_compact d (Some rev) (d_fin d)) ilvl.
Proof.
  intros [Hs Hl Hp Hch Hr] H0 Hrev.
  assert (job_revs (MkSched (pendings f ++ [JCompact (chans f) rev prev completed]) (running f) (S (chans f)) (closed f)) = job_revs f ++ [rev]) as E.
  { unfold job_revs. cbn [pendings running]. rewrite omap_app. cbn. by rewrite app_assoc. }
  constructor; rewrite ?E; cbn [with_compact d_hist d_gone d_sched d_fin d_lvl running].
  - change (d_lvl (with_compact d (Some rev) (d_fin d))) with rev. rewrite app_comm_cons in Hs.
    apply StronglySorted_app in Hs as (Hlt & Hs & _). rewrite app_comm_cons. apply StronglySorted_app.
    assert (forall x, x ∈ ilvl :: job_revs f -> x <= rev) as Hle.
    { intros x Hx. etrans; [apply (Hlt x (d_lvl d) Hx); by left|done]. }
    split; [|split; [|repeat constructor]].
    + intros x y Hx ->%list_elem_of_singleton. rewrite app_comm_cons in Hx.
      apply elem_of_app in Hx as [Hx| ->%list_elem_of_singleton]; [by apply Hle|lia].
    + rewrite app_comm_cons. apply StronglySorted_app. split; [|split; [done|repeat constructor]].
      intros x y Hx ->%list_elem_of_singleton. by apply Hle.
  - by rewrite last_snoc.
  - apply Forall_app. split; [done|]. by constructor.
  - cbn [chans closed]. by apply open_snoc.
  - done.
Qed.

Lemma sched_barrier f t h d ilvl : sched_ok f t h d ilvl ->
  sched_ok (MkSched (pendings f ++ [JBarrier (chans f)]) (running f) (S (chans f)) (closed f)) t h d ilvl.
Proof.
  intros [Hs Hl Hp Hch Hr].
  assert (job_revs (MkSched (pendings f ++ [JBarrier (chans f)]) (running f) (S (chans f)) (closed f)) = job_revs f) as E.
  { unfold job_revs. cbn [pendings running]. by rewrite omap_app, app_nil_r. }
  constructor; rewrite ?E; try done. cbn [chans closed]. by apply open_snoc.
Qed.

(** [updateCompactRev] when the revision is accepted. *)
Lemma update_spec s bs d dd n rev : backed (b s) bs d None dd n -> disk_ok d ->
  currentRev s = cur_of (d_hist d) -> compactMainRev s < rev <= cur_of (d_hist d) -> 0 < rev -> n + 2 < two64 ->
  let d' := with_compact d (Some rev) (d_fin d) in
  exists bk' bs', updateCompactRev BackendLog.no_hooks s rev
      = Ret (with_b (with_revs s (currentRev s) rev) bk', (None, compactMainRev s, None)) /\
    backed bk' bs' d' None d' (n + 2).
Proof.
  intros Hb Hd Hcur Hrev H0 Hn d'. pose proof (lvl_limit d Hd) as Hlim. unfold updateCompactRev.
  rewrite (proj2 (Z.leb_gt _ _)), (proj2 (Z.ltb_ge _ _)) by lia. cbn [b with_revs]. unfold SetScheduledCompact.
  destruct (writing_set (b s) bs d dd n schema.ScheduledCompactKeyName rev (Some rev) (d_fin d) (backed_writing _ _ _ _ _ Hb))
    as (bk2 & E2 & dk2 & bs2 & Hr2 & Hdk2 & Ho2 & Hc2); [lia|by left|].
  unfold UnsafeSetScheduledCompact. rewrite E2, ret_bind.
  destruct (unlock_spec bk2 bs2 dk2 dd _ n Hr2 Hdk2 Ho2 Hc2) as (bk3 & bs3 & dd' & E3 & Hb3 & Hdd'); [lia|].
  rewrite E3, ret_bind. destruct (force_commit_spec bk3 bs3 _ dd' (n + 1) Hb3) as (bk4 & bs4 & E4 & Hb4); [lia|].
  rewrite E4, ret_bind. exists bk4, bs4. split; [done|]. by rewrite <- Z.add_assoc in Hb4.
Qed.

Context (has : Z -> bool).

Lemma inv_later s tw trs d t rds dd n n' : n <= n' -> inv has s tw trs d t rds dd n -> inv has s tw trs d t rds dd n'.
Proof.
  intros Hn [? ? ? ? ? ? [bs Hb] ? ? ? ? ?]. constructor; try done. exists bs. by eapply backed_later.
Qed.

Lemma compact_step s sp dd n rev : related has s sp dd n -> legal_event has sp (KCompact rev) -> n + 2 < two64 ->
  let sp' := fst (spec_step sp (KCompact rev)) in
  exists s' dd', step s (KCompact rev) = Ret (s', snd (spec_step sp (KCompact rev))) /\
    related has s' sp' dd' (n + 2) /\ synced sp' dd dd'.
Proof.
  intros (gone & fin & Hi) (Ht & Hrds & Hne) Hn sp'. unfold sp'. clear sp'. pose proof (none_related has _ _ _ _ _ _ Ht Hi) as Etw.
  set (d := MkDisk (hist sp) gone (comp sp) fin) in *. rewrite Ht, Hrds, Etw in Hi.
  pose proof Hi as [Hd Hw Hdd Hlim Hcur Hcomp [bs Hb] (ilvl & Hidx & Hs) Htx Hrd Hle Hhd].
  destruct (check_prev_spec (st s) bs d _ dd n Hb Hd) as (completed & E).
  cbn [step]. rewrite Etw. unfold Compact, compactLockfree. rewrite E, ret_bind. cbn [spec_step].
  change (level sp) with (d_lvl d). change (hist sp) with (d_hist d).
  destruct (Z.leb_spec rev (d_lvl d)) as [Hlo|Hlo].
  { unfold updateCompactRev. rewrite Hcomp, (proj2 (Z.leb_le _ _)) by done. cbn [schedule]. rewrite !ret_bind. cbn [fst snd].
    eexists _, dd. split; [reflexivity|]. split; [|by left]. exists gone, fin. rewrite Ht, Hrds.
    constructor; cbn [st st_tw st_trs with_sched b kvindex le currentRev compactMainRev CompactionBatchLimit fifoSched]; try done.
    - exists bs. eapply backed_later; [|done]. lia.
    - exists ilvl. split; [done|]. by apply sched_barrier. }
  destruct (Z.ltb_spec (cur_of (d_hist d)) rev) as [Hhi|Hhi].
  { unfold updateCompactRev. rewrite Hcomp, Hcur, (proj2 (Z.leb_gt _ _)), (proj2 (Z.ltb_lt _ _)) by done.
    rewrite !ret_bind. cbn [fst snd]. eexists _, dd. split; [reflexivity|]. split; [|by left]. exists gone, fin.
    rewrite Ht, Hrds. cbn [st st_tw st_trs]. eapply inv_later; [|exact Hi]. lia. }
  assert (0 < rev) as H0.
  { unfold d_lvl in Hlo. destruct (d_sched d) as [c|] eqn:Ec; cbn [default from_option id] in Hlo; [|lia].
    pose proof (d_sched_ok d Hd c Ec). lia. }
  destruct (update_spec (st s) bs d dd n rev Hb Hd Hcur) as (bk' & bs' & E' & Hb'); [lia|done|done|].
  rewrite E', ret_bind. cbn [schedule]. rewrite ret_bind. cbn [fst snd].
  eexists _, (with_compact d (Some rev) fin). split; [reflexivity|]. split; [|by right].
  exists gone, fin. rewrite Ht, Hrds.
  assert (disk_ok (with_compact d (Some rev) (d_fin d))) as Hd' by (apply disk_sched; [done|done|lia]).
  constructor; cbn [st st_tw st_trs with_sched with_b with_revs b kvindex le currentRev compactMainRev CompactionBatchLimit fifoSched hist txn comp readers]; try done.
  - eauto.
  - exists ilvl. split; [done|]. apply (sched_job (fifoSched (st s)) _ _ d); [done|done|lia].
  - apply Forall2_nil_inv_r in Hrd as ->. constructor.
Qed.

End Compact.
End KvCompact.
