(* ===== verification/KvSched.v ===== *)
(** * The scheduler of etcd's store

    Every step of a compaction keeps the invariant, and after a number of steps
    that the history bounds all jobs have ended. *)

From S2P Require Import Prelude Errors Utils KeyIndex KeyTimeline RevBytes TreeIndex IndexLog KvPb BoltApi TxBuffer Backend BackendLog KvHash KvStore KvHistory KvReads KvInv KvEvents KvCompact.

Module KvSched.
Import mvcc mvccpb Timeline RevBytes kvhash kvstore KvHistory KvReads KvInv KvEvents KvCompact.

Section Sched.
Context `{BTL : BTreeLaws} `{BLL : BoltLaws} `{LEL : LessorLaws}.

(** ** The index *)

Lemma get_item t ki : bt_Get t ki = IndexLog.item t (ki_key ki).
Proof.
  unfold IndexLog.item. rewrite !bt_get.
  assert (forall x, TreeIndex.same ki x = TreeIndex.same (newKeyIndex (ki_key ki)) x) as E by done.
  induction (bt_Ascend t) as [|x xs IH]; [done|]. cbn [List.find]. by rewrite E, IH.
Qed.

(** What an item keeps is what its key keeps. *)
Lemma item_kept t h c k ki r : indexed t h c -> IndexLog.item t k = Some ki ->
  (exists o, kept c (timeline ki) = Some (r, o)) <->
  exists o, kept c (IndexLog.key_timeline k (erased h)) = Some (r, o).
Proof.
  intros (_ & _ & _ & Hi) E. specialize (Hi k). rewrite E in Hi.
  destruct Hi as (_ & _ & _ & tl & Hlk & _ & _ & Hk). cbn [IndexLog.hist IndexLog.lvl] in Hk. rewrite <- Hk by done.
  apply (IndexLog.like_kept same_main c) in Hlk. destruct Hlk as [[r1 o1] [r2 o2] [Er _]|]; [|naive_solver].
  cbn in Er. subst r2. naive_solver.
Qed.

Lemma index_step t h gone c keyi todo av : indexed t h c -> phase_ok t h gone c (Indexing (keyi :: todo) av) ->
  exists t' av', treeIndex.compact_item c t av keyi = Ret (t', av') /\ indexed t' h c /\
    phase_ok t' h gone c (Indexing todo av').
Proof.
  intros Hi (Hnd & Hk & Hav). cbn [map] in *. apply NoDup_cons in Hnd as [Hn Hnd].
  destruct (Hk (ki_key keyi) (list_elem_of_here _ _)) as [ki Eki].
  destruct (IndexLog.compact_item_spec same_main t _ (ki_key keyi) c av ki Hi) as (t' & E & Hother & Hok & _); [done|done|].
  assert (ki_key ki = ki_key keyi) as Ekk by (by apply IndexLog.item_Some in Eki as [_ ?]).
  exists t', (kept_set c (timeline ki) ∪ av). split.
  { rewrite <- E. unfold treeIndex.compact_item. by rewrite !get_item, Ekk. }
  split; [by apply (IndexLog.rep_compact same_main t t' _ (ki_key keyi) c Hi)|].
  split; [done|]. split.
  - intros k Hin. rewrite Hother; [apply Hk; by right|]. by intros <-.
  - intros r. rewrite elem_of_union, elem_of_kept_set, (item_kept t h c (ki_key keyi) ki r Hi Eki), Hav.
    setoid_rewrite not_elem_of_cons. split.
    + intros [[o Eo]|(k & o & Hin & Eo)]; [by exists (ki_key keyi), o|]. exists k, o. tauto.
    + intros (k & o & Hin & Eo). destruct (decide (k = ki_key keyi)) as [->|Hne]; [left; eauto|right].
      exists k, o. tauto.
Qed.

Lemma start_phase t h gone c : indexed t h c -> phase_ok t h gone c (Indexing (bt_Ascend t) ∅).
Proof.
  intros Hi. split; [apply IndexLog.item_keys|].
  assert (forall k, k ∈ map ki_key (bt_Ascend t) <-> is_Some (IndexLog.item t k)) as Hk.
  { intros k. split.
    - intros (ki & -> & Hin)%list_elem_of_fmap. exists ki. by apply IndexLog.item_Some.
    - intros [ki [Hin <-]%IndexLog.item_Some]. apply list_elem_of_fmap. eauto. }
  split; [intros k; apply Hk|]. intros r. rewrite elem_of_empty. split; [done|]. intros (k & o & Hin & E).
  rewrite Hk in Hin. destruct Hi as (_ & _ & _ & Hi). specialize (Hi k).
  destruct (IndexLog.item t k) as [ki|]; [by destruct Hin|]. destruct Hi as (_ & _ & Hkp).
  cbn [IndexLog.hist IndexLog.lvl] in Hkp. by rewrite <- Hkp in E.
Qed.

Lemma zeros_ltb k : valid k -> 0 < Main (bk_Revision k) -> bytes_ltb (key_bytes k) (repeat Byte.x00 17) = false.
Proof.
  intros [Hm _] H0. change (repeat Byte.x00 17) with (Uint64ToBytes 0 ++ repeat Byte.x00 9). unfold key_bytes.
  rewrite bytes_ltb_app, !be_value_Uint64ToBytes by (done || word).
  rewrite (proj2 (Z.ltb_ge _ _)), (proj2 (Z.eqb_neq _ _)) by lia. done.
Qed.

Lemma rec_main h x : wf h -> x ∈ recs h -> 1 < Main (rev_of x).
Proof.
  intros Hw (y & Hy & <- & _)%recs_change. induction Hw as [|h z Hw IH (Hm & _)]; [by apply not_elem_of_nil in Hy|].
  apply elem_of_app in Hy as [Hy| ->%list_elem_of_singleton]; [by apply IH|done].
Qed.

Lemma batch_phase t h gone c av prev : wf h -> phase_ok t h gone c (Indexing [] av) ->
  phase_ok t h gone c (Batching (repeat Byte.x00 17) (newKVHasher prev c av)).
Proof.
  intros Hw (_ & _ & Hav). pose proof (wf_ordered h Hw) as Ho. split; [done|]. split.
  - intros r. cbn [newKVHasher keeps]. rewrite Hav. split.
    + intros (k & [x|] & _ & E).
      * left. exists k. apply IndexLog.kept_live; eauto.
      * right. apply IndexLog.kept_deleted in E as [? ?]; [|done]. split; eauto.
    + intros [(k & [x Hx]%IndexLog.kept_live)|(Hm & k & Hk)]; [|done|].
      * exists k, (Some x). split; [apply not_elem_of_nil|done].
      * exists k, None. split; [apply not_elem_of_nil|]. by apply IndexLog.kept_deleted.
  - intros x Hx _ Hlt _. pose proof (rec_main h x Hw Hx) as Hm. rewrite zeros_ltb in Hlt; [done|by eapply wf_fits|unfold rev_of in Hm; lia].
Qed.

(** ** What is left to do *)

(** The records that a compaction still looks at. *)
Definition left_count (h : list kchange) (gone : gset Revision) (from : bytes) (c : Z) : nat :=
  length (List.filter (fun x => negb (bytes_ltb (key_bytes (fst x)) from) && (Main (rev_of x) <=? c))
    (filter (fun x => rev_of x ∉ gone) (recs h))).

(** A bound of the steps until the jobs have ended. *)
Definition work (f : scheduler) (h : list kchange) (gone : gset Revision) : nat :=
  length (pendings f) * (2 * length h + 4) +
  match running f with
  | None => 0
  | Some c => match c_phase c with
              | Indexing todo _ => length todo + length h + 2
              | Batching from _ => S (left_count h gone from (c_rev c))
              end
  end.

Definition idle (f : scheduler) : Prop := running f = None /\ pendings f = [].

Lemma left_bound h gone from c : (left_count h gone from c <= length h)%nat.
Proof.
  unfold left_count. etrans; [apply filter_length_le|]. rewrite length_filter. by rewrite length_recs.
Qed.

Lemma items_bound t h c : indexed t h c -> (length (bt_Ascend t) <= length h)%nat.
Proof.
  intros (_ & _ & _ & Hi). rewrite <- (length_map ki_key), <- (length_map x_key h). apply submseteq_length, NoDup_submseteq.
  - apply IndexLog.item_keys.
  - intros k (ki & -> & Hin)%list_elem_of_fmap. specialize (Hi (ki_key ki)).
    rewrite (proj2 (IndexLog.item_Some t _ ki)) in Hi by done. destruct Hi as (_ & _ & Hne & tl & Hlk & [pre Ep] & _).
    destruct tl as [|e tl]; [by destruct Hne; apply (IndexLog.like_nil same_main _ _ Hlk)|].
    assert (e ∈ IndexLog.key_timeline (ki_key ki) (erased h)) as He.
    { cbn [IndexLog.hist] in Ep. rewrite Ep. apply elem_of_app. right. by left. }
    apply IndexLog.key_timeline_from in He as (y & (x & Hx & ->)%elem_of_erased & Ek & _).
    rewrite erase_key in Ek. apply list_elem_of_fmap. by exists x.
Qed.

Lemma sorted_distinct {A} (R : A -> A -> Prop) l : StronglySorted R l -> (forall x, ~ R x x) -> NoDup l.
Proof.
  intros Hs Hi. induction Hs as [|x l Hs IH Hx]; constructor; [|done]. intros Hin. rewrite Forall_forall in Hx. by apply (Hi x), Hx.
Qed.

Lemma before_after h z : wf h -> z ∈ recs h -> bytes_ltb (key_bytes (fst z)) (after (rev_of z)) = true.
Proof.
  intros Hw Hz. apply (proj2 (key_bytes_ltb _ _ (proj1 (wf_fits h z Hw Hz)) (after_valid h z Hw Hz))). left.
  change (rev_lt (rev_of z) (MkRev (Main (rev_of z)) (Sub (rev_of z) + 1))). apply rev_lt_spec. cbn. lia.
Qed.

(** A batch leaves less. *)
Lemma left_less h gone gone' from c z lim : wf h -> z ∈ batch h gone from c lim ->
  (forall r, r ∈ gone -> r ∈ gone') -> (left_count h gone' (after (rev_of z)) c < left_count h gone from c)%nat.
Proof.
  intros Hw Hz Hgone. apply batch_left in Hz. pose proof (proj1 (elem_of_left _ _ _ _ _) Hz) as (Hzh & Hzg & Hzf & Hzc).
  pose proof (before_after h z Hw Hzh) as Hza. unfold left_count.
  match goal with |- (length ?a < length ?b)%nat => set (new := a); set (old := b) end.
  assert (forall x, x ∈ new <-> x ∈ recs h /\ rev_of x ∉ gone' /\ bytes_ltb (key_bytes (fst x)) (after (rev_of z)) = false /\
    Main (rev_of x) <= c) as Hnew by (intros x; apply elem_of_left).
  cut (length (z :: new) <= length old)%nat; [cbn; lia|]. apply submseteq_length, NoDup_submseteq.
  - constructor.
    + intros Hin. apply Hnew in Hin as (_ & _ & Hlt & _). congruence.
    + eapply sorted_distinct; [by apply left_sorted|]. intros x Hlt. by eapply rev_lt_asym.
  - intros x [->|Hx]%elem_of_cons; [done|]. apply Hnew in Hx as (Hx & Hg & Hlt & Hc). apply elem_of_left.
    split; [done|]. split; [by intros ?%Hgone|]. split; [|done].
    destruct (bytes_ltb (key_bytes (fst x)) from) eqn:E; [|done].
    apply Pairs.bytes_ltb_total in Hzf as [Ez|Hzf].
    + rewrite <- Ez in E. by rewrite (Pairs.bytes_ltb_trans _ _ _ E Hza) in Hlt.
    + by rewrite (Pairs.bytes_ltb_trans _ _ _ (Pairs.bytes_ltb_trans _ _ _ E Hzf) Hza) in Hlt.
Qed.

(** ** The steps of the scheduler *)

Lemma start_sched f t h d ilvl ch rev prev completed js : indexed t h ilvl -> sched_ok f t h d ilvl ->
  running f = None -> pendings f = JCompact ch rev prev completed :: js ->
  let f' := MkSched js (Some (MkCompaction ch rev prev completed (Indexing (bt_Ascend t) ∅))) (chans f) (closed f) in
  indexed t h rev /\ sched_ok f' t h d rev.
Proof.
  intros Hi [Hs Hl Hp Hch Hr] Er Ep f'.
  assert (job_revs f = rev :: omap job_rev js) as E by (unfold job_revs; by rewrite Er, Ep).
  assert (job_revs f' = rev :: omap job_rev js) as E' by done. rewrite E in *.
  pose proof Hs as [Hs' Hle]%StronglySorted_inv. apply Forall_cons in Hle as [Hle _].
  assert (indexed t h rev) as Hi' by (apply (IndexLog.rep_mono same_main t _ rev Hi); done).
  split; [done|]. constructor; rewrite ?E'; try done.
  - cbn [app] in *. constructor; [done|]. apply StronglySorted_inv in Hs' as [_ Hf]. by constructor.
  - intros ch' Hch'. specialize (Hch ch' Hch'). unfold open_chans in *. rewrite Er, Ep in Hch. done.
  - intros c [= <-]. cbn [c_rev c_phase]. split; [done|]. by apply start_phase.
Qed.

Lemma barrier_sched f t h d ilvl ch js : sched_ok f t h d ilvl -> running f = None -> pendings f = JBarrier ch :: js ->
  sched_ok (MkSched js None (chans f) (ch :: closed f)) t h d ilvl.
Proof.
  intros [Hs Hl Hp Hch Hr] Er Ep.
  assert (job_revs (MkSched js None (chans f) (ch :: closed f)) = job_revs f) as E by (unfold job_revs; by rewrite Er, Ep).
  constructor; rewrite ?E; try done.
  intros ch' Hch'. cbn [closed]. specialize (Hch ch' Hch'). unfold open_chans in *. rewrite Er, Ep in Hch. cbn in *.
  rewrite elem_of_cons in *. tauto.
Qed.

(** The disk after a step of the running compaction. *)
Definition moved (d d' : disk) : Prop := d_hist d' = d_hist d /\ d_sched d' = d_sched d.

Lemma moved_lvl d d' : moved d d' -> d_lvl d' = d_lvl d.
Proof. intros [_ E]. unfold d_lvl. by rewrite E. Qed.

Lemma phase_sched f t t' h d d' ilvl c p : sched_ok f t h d ilvl -> running f = Some c -> moved d d' ->
  phase_ok t' h (d_gone d') (c_rev c) p ->
  sched_ok (MkSched (pendings f) (Some (MkCompaction (c_ch c) (c_rev c) (c_prev c) (c_completed c) p)) (chans f) (closed f))
    t' h d' ilvl.
Proof.
  intros [Hs Hl Hpos Hch Hr] Er Hmv Hp. destruct (Hr c Er) as [Ei _]. set (f' := MkSched _ _ _ _).
  assert (job_revs f' = job_revs f) as E by (unfold job_revs; by rewrite Er).
  constructor; rewrite ?E, ?(moved_lvl d d' Hmv); try done.
  - destruct Hmv as [_ ->]. unfold job_revs in *. rewrite Er in *. cbn [app] in *. rewrite last_cons in *. by destruct (last (omap _ _)).
  - intros ch Hc. specialize (Hch ch Hc). unfold open_chans in *. rewrite Er in Hch. done.
  - intros c' [= <-]. done.
Qed.

Lemma finish_sched f t h d d' ilvl c : sched_ok f t h d ilvl -> running f = Some c -> moved d d' ->
  d_fin d' = Some (c_rev c) ->
  sched_ok (MkSched (pendings f) None (chans f) (c_ch c :: closed f)) t h d' ilvl.
Proof.
  intros [Hs Hl Hpos Hch Hr] Er Hmv Hfin. set (f' := MkSched _ _ _ _).
  assert (job_revs f = c_rev c :: job_revs f') as E by (unfold job_revs; by rewrite Er).
  rewrite E in *. pose proof (moved_lvl d d' Hmv) as El. constructor; rewrite ?El; try done.
  - cbn [app] in Hs. apply StronglySorted_inv in Hs as [Hs Hf]. apply StronglySorted_inv in Hs as [Hs _].
    apply Forall_cons in Hf as [_ Hf]. by constructor.
  - destruct Hmv as [_ Em]. rewrite Em. rewrite last_cons in Hl. destruct (last (job_revs f')) as [c'|]; [done|]. congruence.
  - by apply Forall_cons in Hpos as [_ ?].
  - intros ch Hc. specialize (Hch ch Hc). unfold open_chans in *. rewrite Er in Hch. cbn in *.
    rewrite elem_of_cons in *. tauto.
Qed.

Context (has : Z -> bool).

(** The index and the scheduler move on. *)
Lemma inv_sched s tw trs d t rds dd n t' f ilvl : inv has s tw trs d t rds dd n ->
  indexed t' (all_hist d t) ilvl -> sched_ok f t' (all_hist d t) d ilvl ->
  inv has (with_sched (with_index s t') f) tw trs d t rds dd n.
Proof.
  intros [Hd Hw Hdd Hlim Hcur Hcomp Hb Hsch Htx Hrd Hle Hhd] Hi Hs.
  constructor; cbn [with_sched with_index b kvindex le currentRev compactMainRev CompactionBatchLimit fifoSched]; try done.
  eauto.
Qed.

Definition batching (f : scheduler) : bool :=
  match running f with
  | Some c => match c_phase c with Batching _ _ => true | _ => false end
  | None => false
  end.

(** A step that does not touch the backend. *)
Lemma index_sched s tw trs d t rds dd n : inv has s tw trs d t rds dd n -> batching (fifoSched s) = false ->
  exists s', sched_step BackendLog.no_hooks s = Ret s' /\ inv has s' tw trs d t rds dd n /\
    (idle (fifoSched s) \/
     work (fifoSched s') (all_hist d t) (d_gone d) < work (fifoSched s) (all_hist d t) (d_gone d))%nat.
Proof.
  intros Hinv Hnb. pose proof Hinv as [_ Hw _ _ _ _ _ (ilvl & Hi & Hs) _ _ _ _]. set (h := all_hist d t) in *.
  set (f := fifoSched s) in *. unfold sched_step. fold f.
  destruct (running f) as [c|] eqn:Er.
  - unfold batching in Hnb. rewrite Er in Hnb. destruct (f_running _ _ _ _ _ Hs c Er) as [Ei Hp].
    destruct (c_phase c) as [[|keyi todo] av|from hs] eqn:Eph; [| |done].
    + eexists. split; [reflexivity|]. split.
      * change (with_phase s c ?p) with (with_sched (with_index s (kvindex s)) (fifoSched (with_phase s c p))).
        eapply inv_sched; [exact Hinv|exact Hi|]. eapply (phase_sched f _ _ _ d); [exact Hs|done|done|]. by apply batch_phase.
      * right. unfold work. cbn [with_phase with_sched fifoSched pendings running c_phase c_rev]. fold f. rewrite Er, Eph. cbn [length].
        pose proof (left_bound h (d_gone d) (repeat Byte.x00 17) (c_rev c)). lia.
    + rewrite Ei in Hi. destruct (index_step (kvindex s) h (d_gone d) (c_rev c) keyi todo av Hi Hp) as (t' & av' & -> & Hi' & Hp').
      rewrite ret_bind. eexists. split; [reflexivity|]. split.
      * change (with_phase (with_index s t') c ?p) with (with_sched (with_index s t') (fifoSched (with_phase s c p))).
        eapply inv_sched; [exact Hinv|exact Hi'|]. rewrite <- Ei. by eapply (phase_sched f _ _ _ d).
      * right. unfold work. cbn [with_phase with_sched with_index fifoSched pendings running c_phase]. fold f. rewrite Er, Eph. cbn [length]. lia.
  - destruct (pendings f) as [|[ch rev prev completed|ch] js] eqn:Ep.
    + exists s. split; [done|]. split; [done|]. by left.
    + destruct (start_sched f _ _ d ilvl ch rev prev completed js Hi Hs Er Ep) as [Hi' Hs'].
      eexists. split; [reflexivity|]. split.
      * change (with_sched s ?p) with (with_sched (with_index s (kvindex s)) p). by eapply inv_sched.
      * right. unfold work. cbn [with_sched fifoSched pendings running c_phase]. rewrite Er, Ep. cbn [length].
        pose proof (items_bound _ _ _ Hi). lia.
    + eexists. split; [reflexivity|]. split.
      * change (with_sched s ?p) with (with_sched (with_index s (kvindex s)) p). eapply inv_sched; [done..|]. by apply barrier_sched.
      * right. unfold work. cbn [with_sched fifoSched pendings running c_phase]. rewrite Er, Ep. cbn [length]. lia.
Qed.

(** The disk after a batch. *)
Lemma disk_batch d from c lim keep : disk_ok d -> c <= d_lvl d ->
  (forall r, r ∈ keep <-> IndexLog.live (erased (d_hist d)) c r \/ IndexLog.deleted (erased (d_hist d)) c r) ->
  (forall x, x ∈ recs (d_hist d) -> rev_of x ∉ d_gone d -> bytes_ltb (key_bytes (fst x)) from = true ->
    Main (rev_of x) <= c -> needed (erased (d_hist d)) c (rev_of x)) ->
  let d1 := with_gone d (sweep keep (batch (d_hist d) (d_gone d) from c lim) (d_gone d)) in
  disk_ok d1 /\
  (0 < c -> Z.of_nat (length (batch (d_hist d) (d_gone d) from c lim)) < lim -> disk_ok (with_compact d1 (d_sched d) (Some c))).
Proof.
  intros Hd Hc Hk Hl d1. pose proof Hd as [Hw Hg Hs Hf].
  pose proof (batch_gone (d_hist d) (d_gone d) from c (d_lvl d) lim keep Hw Hg Hc Hk Hl) as Hg'.
  assert (forall f, d_fin d = Some f -> 0 < f <= d_lvl d /\ swept (d_hist d) (d_gone d1) f) as Hf'.
  { intros f Ef. destruct (Hf f Ef) as [Hb Hsw]. split; [done|]. intros x Hx Hn. apply Hsw; [done|].
    intros Hin. apply Hn. apply elem_of_sweep. by left. }
  split; [by constructor|]. intros H0 Hlen. constructor; [done..|]. intros f [= <-].
  split; [done|]. by apply (batch_all (d_hist d) (d_gone d) from c lim keep).
Qed.

(** A batch of the running compaction, when no transaction is open. *)
Lemma batch_sched s trs d rds dd n : inv has s None trs d None rds dd n -> batching (fifoSched s) = true -> n + 2 < two64 ->
  exists s' d' dd', sched_step BackendLog.no_hooks s = Ret s' /\ inv has s' None trs d' None rds dd' (n + 2) /\
    moved d d' /\ (dd' = dd \/ dd' = d') /\
    (work (fifoSched s') (d_hist d) (d_gone d') < work (fifoSched s) (d_hist d) (d_gone d))%nat.
Proof.
  intros Hinv Hbt Hn. pose proof Hinv as [Hd Hw Hdd Hlim Hcur Hcomp [bs Hb] (ilvl & Hi & Hs) Htx Hrd Hle Hhd].
  rewrite all_none in *. set (f := fifoSched s) in *. unfold batching in Hbt. unfold sched_step. fold f.
  destruct (running f) as [c|] eqn:Er; [|done]. destruct (c_phase c) as [|from hs] eqn:Eph; [done|].
  destruct (f_running _ _ _ _ _ Hs c Er) as [Ei Hp]. rewrite Eph in Hp. destruct Hp as (Hfrom & Hk & Hl).
  pose proof (ilvl_bound _ _ _ _ _ Hs) as Hil. pose proof (lvl_limit d Hd) as Hlv.
  assert (0 < c_rev c) as H0.
  { pose proof (f_pos _ _ _ _ _ Hs) as Hp. unfold job_revs in Hp. rewrite Er in Hp. by apply Forall_cons in Hp as [? _]. }
  destruct (disk_batch d from (c_rev c) (CompactionBatchLimit s) (keeps hs) Hd) as [Hd1 Hd2]; [lia|done|done|].
  destruct (compact_batch_spec s bs d dd n (c_rev c) from hs Hb (d_wf _ Hd)) as (bk' & bs' & dd' & Hcase); [lia|done|done|done|].
  set (rs := batch (d_hist d) (d_gone d) from (c_rev c) (CompactionBatchLimit s)) in *.
  set (d1 := with_gone d (sweep (keeps hs) rs (d_gone d))) in *.
  assert (forall d' dd' bk' bs' f' hs', disk_ok d' -> moved d d' -> (dd' = dd \/ dd' = d') -> backed bk' bs' d' None dd' (n + 2) ->
    sched_ok f' (kvindex s) (d_hist d) d' ilvl ->
    inv has (with_sched (with_hashes (with_b s bk') hs') f') None trs d' None rds dd' (n + 2)) as Hnext.
  { intros d' dd1 bk1 bs1 f' hs' Hd' Hmv Hdd1 Hb1 Hs1. pose proof (moved_lvl d d' Hmv) as Elv. destruct Hmv as [Eh Em].
    constructor; cbn [with_sched with_hashes with_b b kvindex le currentRev compactMainRev CompactionBatchLimit fifoSched];
      rewrite ?all_none, ?Eh, ?Elv; try done.
    - destruct Hdd1 as [->| ->]; [done|]. split; [done|]. by rewrite Eh.
    - eauto.
    - eauto. }
  destruct Hcase as [(Hlen & (hash & E) & Hb' & Hdd')|(z & hs' & Ez & E & Ek & Hb' & Hdd')]; rewrite E, ret_bind.
  - eexists _, _, dd'. split; [reflexivity|]. split; [|split; [|split; [exact Hdd'|]]]; [|done|].
    + unfold finish_compaction, finish_job. cbn [with_hashes with_b fifoSched]. fold f.
      destruct (c_completed c); cbn [with_hashes with_b fifoSched hashes]; fold f.
      * apply (Hnext _ _ _ bs'); [by apply Hd2|done|done|exact Hb'|]. by eapply (finish_sched f _ _ d).
      * change (with_b s bk') with (with_hashes (with_b s bk') (hashes s)).
        apply (Hnext _ _ _ bs'); [by apply Hd2|done|done|exact Hb'|]. by eapply (finish_sched f _ _ d).
    + unfold work, finish_compaction, finish_job. cbn [with_sched fifoSched pendings running]. rewrite Er, Eph.
      destruct (c_completed c); cbn [with_hashes with_b fifoSched]; fold f; lia.
  - eexists _, d1, dd'. split; [reflexivity|]. split; [|split; [done|split; [exact Hdd'|]]].
    + unfold with_phase. cbn [with_b fifoSched]. fold f. change (with_b s bk') with (with_hashes (with_b s bk') (hashes s)).
      apply (Hnext _ _ _ bs'); [done|done|done|exact Hb'|]. eapply (phase_sched f _ _ _ d); [exact Hs|done|done|].
      split; [done|]. split; [by rewrite Ek|]. cbn [d1 with_gone d_gone].
      by apply (batch_next (d_hist d) (d_gone d) from (c_rev c) (CompactionBatchLimit s) (keeps hs)).
    + unfold work. cbn [with_phase with_sched fifoSched pendings running c_phase c_rev with_b]. fold f. rewrite Er, Eph.
      apply Nat.add_lt_mono_l. rewrite <- Nat.succ_lt_mono. eapply (left_less _ _ _ _ _ z (CompactionBatchLimit s)); [by apply Hd| |].
      * apply last_Some in Ez as [l El]. fold rs. rewrite El. apply elem_of_app. right. by left.
      * intros r Hr. apply elem_of_sweep. by left.
Qed.

Lemma sched_event s sp dd n : related has s sp dd n -> n + 2 < two64 ->
  exists s' dd', step s KStep = Ret (s', ANone) /\ related has s' sp dd' (n + 2) /\ synced sp dd dd'.
Proof.
  intros (gone & fin & Hi) Hn. cbn [step]. destruct (batching (fifoSched (st s))) eqn:Hb.
  - destruct (txn sp) as [xs|] eqn:Et.
    + destruct (txn_related has s sp xs dd n gone fin) as (tw & Etw & _); [done|by rewrite Et|].
      assert (waits s = true) as ->.
      { unfold waits, batching in *. rewrite Etw. destruct (running _) as [c|]; [|done]. by destruct (c_phase c). }
      exists s, dd. split; [done|]. split; [|by left]. exists gone, fin. rewrite Et. eapply inv_later; [|exact Hi]. lia.
    + rewrite <- Et in Hi. pose proof (none_related has _ _ _ _ _ _ Et Hi) as Etw. rewrite Et, Etw in Hi.
      destruct (batch_sched (st s) (st_trs s) _ _ dd n Hi Hb Hn) as (s' & d' & dd' & E & Hi' & [Eh Es] & Hdd & _).
      assert (waits s = false) as -> by (unfold waits; by rewrite Etw).
      rewrite E, ret_bind, Etw. eexists _, dd'. split; [reflexivity|].
      destruct d' as [h' gone' sched' fin']. cbn in Eh, Es. subst h' sched'.
      split; [|destruct Hdd as [->| ->]; [by left|by right]]. exists gone', fin'. by rewrite Et.
  - destruct (index_sched (st s) (st_tw s) (st_trs s) _ _ _ dd n Hi Hb) as (s' & E & Hi' & _).
    assert (waits s = false) as ->.
    { unfold waits, batching in *. destruct (st_tw s); [|done]. destruct (running _) as [c|]; [|done]. by destruct (c_phase c). }
    rewrite E, ret_bind. eexists _, dd. split; [reflexivity|]. split; [|by left]. exists gone, fin.
    eapply inv_later; [|exact Hi']. lia.
Qed.

(** ** All events *)

Lemma related_later s sp dd n n' : n <= n' -> related has s sp dd n -> related has s sp dd n'.
Proof. intros Hn (gone & fin & Hi). exists gone, fin. by eapply inv_later. Qed.

Lemma event_spec s sp dd n e : related has s sp dd n -> legal_event has sp e -> n + 2 < two64 ->
  let sp' := fst (spec_step sp e) in
  exists s' dd', step s e = Ret (s', snd (spec_step sp e)) /\ related has s' sp' dd' (n + 2) /\ synced sp' dd dd' /\
    (e = KCommit -> txn sp = None -> holds_spec sp dd').
Proof.
  intros Hr Hl Hn. cbv zeta.
  assert (forall s', step s e = Ret (s', snd (spec_step sp e)) -> related has s' (fst (spec_step sp e)) dd n -> e <> KCommit ->
    exists s' dd', step s e = Ret (s', snd (spec_step sp e)) /\ related has s' (fst (spec_step sp e)) dd' (n + 2) /\
      synced (fst (spec_step sp e)) dd dd' /\ (e = KCommit -> txn sp = None -> holds_spec sp dd')) as Hsame.
  { intros s' E Hr' Hne. exists s', dd. split; [done|]. split; [by eapply related_later; [|exact Hr']; lia|]. split; [by left|done]. }
  destruct e as [|key value lease|key end_|done key end_ ro| |mode|i done key end_ ro|i|rev| |].
  - destruct (begin_step has s sp dd n Hr Hl) as (s' & E & Hr'). by eapply Hsame.
  - destruct (put_event has s sp dd n key value lease Hr Hl) as (s' & E & Hr'). by eapply Hsame.
  - destruct (delete_event has s sp dd n key end_ Hr Hl) as (s' & E & Hr'). by eapply Hsame.
  - pose proof (txn_range_step has s sp dd n done key end_ ro Hr Hl) as E. by eapply Hsame.
  - destruct (end_step has s sp dd n Hr Hl) as (s' & dd' & E & Hr' & Hs); [lia|]. exists s', dd'. split; [done|].
    split; [by eapply related_later; [|exact Hr']; lia|]. by split.
  - destruct (read_step has s sp dd n mode Hr) as (s' & dd' & E & Hr' & Hs); [lia|]. exists s', dd'. done.
  - pose proof (range_step has s sp dd n i done key end_ ro Hr Hl) as E. by eapply Hsame.
  - destruct (read_end_step has s sp dd n i Hr) as (s' & E & Hr'). by eapply Hsame.
  - destruct (compact_step has s sp dd n rev Hr Hl Hn) as (s' & dd' & E & Hr' & Hs). exists s', dd'. done.
  - destruct (sched_event s sp dd n Hr Hn) as (s' & dd' & E & Hr' & Hs). exists s', dd'. done.
  - destruct (commit_step has s sp dd n Hr) as (s' & dd' & E & Hr' & Hs & Hc); [lia|]. exists s', dd'. split; [done|].
    split; [by eapply related_later; [|exact Hr']; lia|]. by split.
Qed.

End Sched.
End KvSched.
