(* ===== verification/KvRestore.v ===== *)
(** * Opening etcd's store

    [NewStore] builds the index from the records in the file, of which
    compactions have deleted some.  What it builds answers every read at the
    last compaction and later as the whole history does. *)

From S2P Require Import Prelude Errors Utils KeyIndex KeyTimeline RevBytes TreeIndex IndexLog KvPb BoltApi TxBuffer Backend BackendLog KvHash KvStore KvHistory KvReads KvInv KvEvents KvCompact KvSched.

Module KvRestore.
Import mvcc mvccpb Timeline RevBytes kvhash kvstore KvHistory KvReads KvInv KvEvents KvCompact KvSched.

(** ** Timelines without what is gone *)

Abbreviation here gone := (fun e : entry => fst e ∉ gone).

(** Of every key the oldest entries are gone. *)
Lemma split_gone (gone : gset Revision) tl :
  (forall a e b e' c, tl = a ++ e :: b ++ e' :: c -> fst e' ∈ gone -> fst e ∈ gone) ->
  exists old, tl = old ++ filter (here gone) tl /\ Forall (fun e => fst e ∈ gone) old.
Proof.
  induction tl as [|e tl IH] using rev_ind; intros Hold; [exists []; by split|].
  destruct (decide (fst e ∈ gone)) as [He|He].
  - assert (Forall (fun e => fst e ∈ gone) (tl ++ [e])) as Hf.
    { apply Forall_app. split; [|by constructor]. apply Forall_forall. intros x (a & b & ->)%list_elem_of_split.
      apply (Hold a x b e []); [|done]. by rewrite <- app_assoc. }
    exists (tl ++ [e]). split; [|done]. rewrite filter_none, app_nil_r; [done|].
    eapply Forall_impl; [exact Hf|]. cbn. tauto.
  - destruct IH as (old & E & Hf).
    { intros a x b y c Ex. apply (Hold a x b y (c ++ [e])). rewrite Ex, <- app_assoc. cbn. by rewrite <- app_assoc. }
    exists old. split; [|done]. rewrite filter_app, (filter_cons_True _ e []), filter_nil by done. rewrite E at 1. by rewrite <- app_assoc.
Qed.

Lemma entry_rec h k e : wf h -> e ∈ IndexLog.key_timeline k (erased h) ->
  exists x, x ∈ recs h /\ rev_of x = fst e /\ Key (snd x) = k /\ tombstone_mark (fst x) = bool_decide (snd e = None).
Proof.
  intros Hw (y & (u & Hu & ->)%elem_of_erased & Ek & Er & Ed)%IndexLog.key_timeline_from.
  rewrite erase_key in Ek. rewrite erase_rev in Er.
  apply list_elem_of_split in Hu as (h1 & h2 & ->). exists (rec_of (kv_now h1) u).
  split; [|split; [done|split; [cbn; by rewrite kv_of_Key|]]].
  - rewrite (cons_middle u), app_assoc. apply recs_mono. rewrite recs_snoc. apply elem_of_app. right. by left.
  - cbn. apply bool_decide_ext. rewrite Ed. unfold erase. destruct (x_val u); [done|]. rewrite Ek, Er. done.
Qed.

Section Gone.
Context (h : list kchange) (lvl : Z) (gone : gset Revision) (Hw : wf h) (Hg : gone_ok h lvl gone).

(** The same for the timelines of a beginning of the history. *)
Lemma timeline_gone k h1 h2 : h = h1 ++ h2 -> let tl := IndexLog.key_timeline k (erased h1) in
  exists old, tl = old ++ filter (here gone) tl /\ Forall (fun e => fst e ∈ gone) old.
Proof.
  intros E tl. assert (wf h1) as Hw1 by (apply (wf_app h1 h2); by rewrite <- E).
  apply split_gone. intros a e b e' c Et He'.
  pose proof (timeline_sorted k _ (wf_ordered _ Hw1)) as Hs. fold tl in Hs.
  assert (e ∈ tl) as (x & Hx & Ex & Kx & _)%entry_rec by (rewrite Et; apply elem_of_app; right; by left); [|done].
  assert (e' ∈ tl) as (y & Hy & Ey & Ky & _)%entry_rec.
  { rewrite Et. apply elem_of_app. right. right. apply elem_of_app. right. by left. } 2: done.
  rewrite <- Ex, <- Ey in *. apply (g_oldest _ _ _ Hg x y); [rewrite E; by apply recs_mono..|congruence| |done].
  rewrite Et in Hs. apply StronglySorted_app in Hs as (_ & _ & Hs). apply StronglySorted_inv in Hs as [_ Hs].
  rewrite Forall_forall in Hs. destruct (Hs e') as [Hlt _]; [apply elem_of_app; right; by left|]. by rewrite Ex, Ey.
Qed.

(** What is left answers as the whole. *)
Lemma remains_here k : let tl := IndexLog.key_timeline k (erased h) in
  IndexLog.remains lvl (filter (here gone) tl) tl.
Proof.
  intros tl. destruct (timeline_gone k h [] (eq_sym (app_nil_r h))) as (old & Et & Hold). fold tl in Et.
  pose proof (wf_ordered h Hw) as Ho. pose proof (timeline_sorted k _ Ho) as Hs. fold tl in Hs.
  (* an entry that is gone is not what a read at a later revision finds *)
  assert (forall c e, lvl <= c -> at_rev tl c = Some e -> fst e ∈ gone -> snd e = None /\ Main (fst e) < c) as Hgone.
  { intros c e Hc El Hin. assert (e ∈ tl /\ upto c e) as [He Hu].
    { unfold at_rev in El. apply last_Some in El as [l El].
      assert (e ∈ filter (upto c) tl) as Hf by (rewrite El; apply elem_of_app; right; by left).
      by apply list_elem_of_filter in Hf as [? ?]. }
    destruct (entry_rec h k e Hw He) as (x & Hx & Ex & Kx & Tx).
    assert (~ needed (erased h) lvl (fst e)) as Hn by (rewrite <- Ex; apply (g_unneeded _ _ _ Hg); [done|by rewrite Ex]).
    assert (Main (fst e) <= lvl) as Hml by (destruct (Z.le_gt_cases (Main (fst e)) lvl); [done|by destruct Hn; left]).
    destruct e as [r [[cr v]|]]; cbn in *.
    - destruct Hn. right. left. apply (live_earlier _ lvl c); [done|lia|]. exists k, cr, v.
      rewrite <- IndexLog.read_timeline by done. fold tl. unfold Timeline.read. by rewrite El.
    - split; [done|]. destruct (Z.eq_dec (Main r) lvl) as [Em|]; [|lia]. destruct Hn. right. right. split; [done|].
      exists k. apply IndexLog.key_timeline_from in He as (y & Hy & _ & _ & Ey). cbn in Ey. by rewrite <- (proj1 Ey eq_refl). }
  split; [by exists old|]. split.
  - intros E0 r [cr v] El. rewrite E0, app_nil_r in Et.
    assert (at_rev tl (Z.max lvl (cur_of h)) = Some (r, Some (cr, v))) as Ea.
    { unfold at_rev. rewrite filter_all; [done|]. apply Forall_forall. intros e He.
      destruct (entry_rec h k e Hw He) as (x & (u & Hu & Eu & _)%recs_change & Ex & _). unfold upto.
      rewrite <- Ex, <- Eu. pose proof (cur_bound h u Hw Hu). lia. }
    destruct (Hgone _ _ (Z.le_max_l _ _) Ea) as [? _]; [|done]. apply last_Some in El as [l El].
    rewrite Forall_forall in Hold. apply (Hold (r, Some (cr, v))). rewrite <- Et, El. apply elem_of_app. right. by left.
  - intros c Hc. rewrite Et at 2. unfold kept, at_rev at 1 2. rewrite filter_app, last_app.
    destruct (last (filter (upto c) (filter (here gone) tl))) as [e|] eqn:Ek; [done|].
    destruct (last (filter (upto c) old)) as [e|] eqn:Eo; [|done].
    assert (at_rev tl c = Some e) as Ea by (unfold at_rev; rewrite Et, filter_app, last_app, Ek; done).
    assert (fst e ∈ gone) as Hin.
    { rewrite Forall_forall in Hold. apply Hold. apply last_Some in Eo as [l Eo].
      assert (e ∈ filter (upto c) old) as Hf by (rewrite Eo; apply elem_of_app; right; by left).
      by apply list_elem_of_filter in Hf as [_ ?]. }
    by rewrite decide_True by (by apply Hgone).
Qed.

End Gone.

(** ** The index *)

(** What a key ends with. *)
Lemma last_entry h k : wf h ->
  match last (IndexLog.key_timeline k (erased h)), kv_now h !! k with
  | Some (_, Some (cr, v)), Some kv => CreateRevision kv = Main cr /\ Version kv = v
  | Some (_, Some _), None => False
  | _, okv => okv = None
  end.
Proof.
  intros Hw. pose proof (state_agrees h (cur_of h) k Hw) as Ha. rewrite kv_at_all in Ha by done.
  rewrite <- IndexLog.read_timeline in Ha by (by apply wf_ordered). unfold Timeline.read, at_rev in Ha.
  rewrite filter_all in Ha.
  - unfold agrees in Ha. destruct (last _) as [[r [[cr v]|]]|], (kv_now h !! k) as [kv|]; try done. naive_solver.
  - apply Forall_forall. intros e He. destruct (entry_rec h k e Hw He) as (x & (u & Hu & Eu & _)%recs_change & Ex & _).
    unfold upto. rewrite <- Ex, <- Eu. by apply cur_bound.
Qed.

(** The pair of a put says what the put makes of its key. *)
Lemma kv_next h1 x v l : wf h1 -> x_val x = Some (v, l) -> let kv := kv_of (kv_now h1) x in
  IndexLog.alike same_main (x_rev x, Some (MkRev (CreateRevision kv) 0, i64 (Version kv)))
    (next (IndexLog.key_timeline (x_key x) (erased h1)) (x_rev x)).
Proof.
  intros Hw Ev kv. pose proof (last_entry h1 (x_key x) Hw) as Hl. unfold kv, kv_of, next. rewrite Ev.
  destruct (last _) as [[r1 [[cr vv]|]]|].
  - destruct (kv_now h1 !! x_key x) as [kv0|]; [|done]. destruct Hl as [Hc <-].
    split; [done|]. constructor. split; [exact Hc|]. cbn [snd Version].
    rewrite <- (Z.add_0_r (i64 (Version kv0 + 1))) at 1. by rewrite i64_add, Z.add_0_r.
  - rewrite Hl. split; [done|]. by constructor.
  - rewrite Hl. split; [done|]. by constructor.
Qed.

Lemma is_tombstone k : isTombstone (key_bytes k) = tombstone_mark k.
Proof. unfold isTombstone, key_bytes. by destruct (tombstone_mark k). Qed.

(** The lease of a key, if it has one. *)
Definition lease_of (okv : option KeyValue) : option Z :=
  match okv with Some kv => if Lease kv =? NoLease then None else Some (Lease kv) | None => None end.

Section Restore.
Context `{BTL : BTreeLaws} `{BLL : BoltLaws} `{LEL : LessorLaws}.

(** After the records of [h1] that are left. *)
Definition restored (gone : gset Revision) (h1 : list kchange) (r : restoring) : Prop :=
  forall k, let tl := filter (here gone) (IndexLog.key_timeline k (erased h1)) in
    match IndexLog.item (rs_index r) k with
    | Some ki => ki_key ki = k /\ ki_ok ki /\ timeline ki <> [] /\ IndexLog.like same_main (timeline ki) tl /\
        keyToLease r !! k = lease_of (kv_now h1 !! k)
    | None => tl = [] /\ keyToLease r !! k = None
    end.

Section Gone.
Context (h : list kchange) (lvl : Z) (gone : gset Revision) (Hw : wf h) (Hg : gone_ok h lvl gone).

Lemma restored_follows h1 x h2 ki : h = h1 ++ x :: h2 -> ki_ok ki -> timeline ki <> [] ->
  IndexLog.like same_main (timeline ki) (filter (here gone) (IndexLog.key_timeline (x_key x) (erased h1))) ->
  follows (timeline ki) (modified ki) (x_rev x) /\
  option_Forall2 (IndexLog.alike same_main) (last (timeline ki)) (last (IndexLog.key_timeline (x_key x) (erased h1))).
Proof.
  intros E (_ & _ & Hm) Hne Hlk. set (tl := IndexLog.key_timeline (x_key x) (erased h1)) in *.
  assert (wf (h1 ++ [x])) as [Hw1 (_ & Hlt & _ & Hdel & _)]%wf_snoc_inv
    by (apply (wf_app _ h2); rewrite <- app_assoc; cbn; by rewrite <- E).
  destruct (timeline_gone h lvl gone Hw Hg (x_key x) h1 (x :: h2) E) as (old & Et & _). fold tl in Et.
  assert (filter (here gone) tl <> []) as Hn.
  { intros E0. apply Hne. by apply (IndexLog.like_nil same_main _ _ Hlk). }
  assert (last tl = last (filter (here gone) tl)) as El.
  { rewrite Et at 1. destruct (snoc_inv (filter (here gone) tl)) as [?|(l & e & E0)]; [done|].
    rewrite E0, app_assoc, !last_snoc. done. }
  pose proof (IndexLog.like_last same_main _ _ Hlk) as Hll. rewrite <- El in Hll. split; [|done].
  destruct (snoc_inv (timeline ki)) as [?|(l & e & E0)]; [done|]. rewrite E0, last_snoc in *.
  inversion Hll as [? e' Ha E1 E2|]. symmetry in E2. apply last_Some in E2 as [l' E2].
  assert (e' ∈ tl) as (y & (u & Hu & ->)%elem_of_erased & Ek & Er & Ed)%IndexLog.key_timeline_from
    by (rewrite E2; apply elem_of_app; right; by left).
  rewrite erase_key in Ek. rewrite erase_rev in Er. pose proof Ha as [Ef _].
  unfold follows. rewrite ?last_snoc. split.
  - rewrite (Hm e eq_refl), Ef, <- Er. by apply Hlt.
  - intros t [= ->]. cbn in Ef. apply IndexLog.alike_None in Ha. cbn in Ha.
    rewrite Ef, <- Er. apply Hdel; [done|done|]. specialize (proj1 Ed (proj1 Ha eq_refl)) as Eu.
    by apply erase_del in Eu as (_ & _ & ?).
Qed.

Lemma add_here k h1 x : x_key x = k -> x_rev x ∉ gone -> let tl := IndexLog.key_timeline k (erased h1) in
  filter (here gone) (IndexLog.key_timeline k (erased (h1 ++ [x]))) =
  filter (here gone) tl ++ [match x_val x with Some _ => next tl (x_rev x) | None => (x_rev x, None) end].
Proof.
  intros Ek Hx tl. rewrite erased_snoc, IndexLog.key_timeline_snoc. unfold IndexLog.add_entry.
  rewrite decide_True by (by rewrite erase_key). fold tl. rewrite filter_app. f_equal.
  unfold erase. destruct (x_val x); (rewrite filter_cons_True, filter_nil; [done|]); [|done].
  by destruct (next_fst tl (x_rev x)) as [-> _].
Qed.

Lemma new_item k r cr v : let ki := MkKeyIndex k r [MkGen v cr [r]] in
  ki_ok ki /\ timeline ki = [(r, Some (cr, i64 v))].
Proof.
  intros ki. assert (timeline ki = [(r, Some (cr, i64 v))]) as E.
  { unfold timeline, timeline_of, opened. cbn [generations last removelast map concat app created ver revs length number ki].
    do 4 f_equal. cbn. f_equal. lia. }
  split; [|done]. split; [right; by exists [], (MkGen v cr [r])|]. rewrite E. split; [repeat constructor|]. by intros e [= <-].
Qed.

Lemma new_tomb k r : let ki := MkKeyIndex k r [MkGen 1 (MkRev 0 0) [r]; emptyGeneration] in
  ki_ok ki /\ timeline ki = [(r, None)].
Proof.
  intros ki. assert (timeline ki = [(r, None)]) as E by done.
  split; [|done]. split; [right; exists [MkGen 1 (MkRev 0 0) [r]], emptyGeneration|].
  - split; [done|]. split; [by repeat constructor|done].
  - rewrite E. split; [repeat constructor|]. by intros e [= <-].
Qed.

(** A record that is left goes into the index. *)
Lemma restore_index_spec h1 x h2 r : h = h1 ++ x :: h2 -> restored gone h1 r -> x_rev x ∉ gone ->
  let y := rec_of (kv_now h1) x in
  exists ki', restore_index (rs_index r) (key_bytes (fst y)) (snd y)
      = Ret (bt_ReplaceOrInsert (rs_index r) ki', Main (x_rev x)) /\
    ki_key ki' = x_key x /\ ki_ok ki' /\ timeline ki' <> [] /\
    IndexLog.like same_main (timeline ki') (filter (here gone) (IndexLog.key_timeline (x_key x) (erased (h1 ++ [x])))).
Proof.
  intros E Hr Hx y.
  assert (wf (h1 ++ [x])) as [Hw1 (_ & _ & _ & _ & Hex & (Hv & Hfit & _))]%wf_snoc_inv
    by (apply (wf_app _ h2); rewrite <- app_assoc; cbn; by rewrite <- E).
  pose proof (last_entry h1 (x_key x) Hw1) as Hlast.
  unfold restore_index. rewrite bytes_to_rev, ret_bind by done. cbn [y rec_of fst snd bk_Revision].
  rewrite kv_of_Key, is_tombstone. cbn [tombstone_mark]. rewrite add_here by done. set (tl := IndexLog.key_timeline _ _) in *.
  unfold treeIndex.KeyIndex, treeIndex.keyIndex_. rewrite get_item. cbn [ki_key newKeyIndex].
  specialize (Hr (x_key x)). cbv zeta in Hr. fold tl in Hr.
  replace (MkRev (Main (x_rev x)) (Sub (x_rev x))) with (x_rev x) in * by (by destruct (x_rev x)).
  destruct (IndexLog.item (rs_index r) (x_key x)) as [ki|].
  - destruct Hr as (Hk & Hok & Hne & Hlk & _).
    destruct (restored_follows h1 x h2 ki E Hok Hne Hlk) as [Hf Hl]. fold tl in Hl.
    replace (x_rev x) with (MkRev (Main (x_rev x)) (Sub (x_rev x))) in Hf by (by destruct (x_rev x)).
    destruct (x_val x) as [vl|] eqn:Ev.
    + rewrite bool_decide_false by done. destruct (put_spec ki _ _ Hok Hf) as (ki' & -> & Hk' & Hok' & Et' & _).
      rewrite ret_bind. exists ki'. split; [done|]. split; [congruence|]. split; [done|].
      split; [rewrite Et'; by destruct (timeline ki)|]. rewrite Et'. apply Forall2_app; [done|]. constructor; [|constructor].
      replace (MkRev (Main (x_rev x)) (Sub (x_rev x))) with (x_rev x) by (by destruct (x_rev x)).
      unfold next. destruct Hl as [[r1 o1] [r2 o2] [E1 Ho]|]; [|apply (IndexLog.alike_refl same_main)].
      cbn in Ho. destruct Ho as [[c1 v1] [c2 v2] [Hc Hvv]|]; [|apply (IndexLog.alike_refl same_main)]. cbn in Hc, Hvv. subst v2.
      split; [done|]. by constructor.
    + rewrite bool_decide_true by done. destruct (Hex eq_refl) as [kv Ekv]. rewrite Ekv in Hlast.
      destruct (tombstone_spec ki _ _ Hok Hf Hne) as [[[t' Et] _]|[_ (ki' & -> & Hk' & Hok' & Et')]].
      { rewrite Et in Hl. inversion Hl as [? [r2 o2] Ha Ea1 Ea2|]. rewrite <- Ea2 in Hlast. apply IndexLog.alike_None in Ha.
        cbn in Ha. rewrite (proj1 Ha eq_refl) in Hlast. done. }
      rewrite !ret_bind. exists ki'. split; [done|]. split; [congruence|]. split; [done|].
      split; [rewrite Et'; by destruct (timeline ki)|]. rewrite Et'. apply Forall2_app; [done|]. constructor; [|constructor].
      replace (MkRev (Main (x_rev x)) (Sub (x_rev x))) with (x_rev x) by (by destruct (x_rev x)). apply (IndexLog.alike_refl same_main).
  - destruct Hr as [-> _]. cbn [app]. destruct (x_val x) as [[v l]|] eqn:Ev.
    + rewrite bool_decide_false by done. cbn [restore newKeyIndex generations ki_key]. rewrite ret_bind.
      eexists. split; [reflexivity|]. split; [done|]. destruct (new_item (x_key x) (x_rev x) (MkRev (CreateRevision (kv_of (kv_now h1) x)) 0) (Version (kv_of (kv_now h1) x))) as [Hok ->].
      split; [done|]. split; [done|]. constructor; [|constructor]. by apply (kv_next h1 x v l).
    + rewrite bool_decide_true by done. unfold restoreTombstone, restore. cbn [newKeyIndex generations ki_key]. rewrite !ret_bind.
      cbn [modified generations ki_key app].
      replace (MkRev (Main (x_rev x)) (Sub (x_rev x))) with (x_rev x) by (by destruct (x_rev x)).
      eexists. split; [reflexivity|]. split; [done|]. destruct (new_tomb (x_key x) (x_rev x)) as [Hok ->].
      split; [done|]. split; [done|]. constructor; [apply (IndexLog.alike_refl same_main)|constructor].
Qed.

Lemma other_here k h1 x : x_key x <> k ->
  IndexLog.key_timeline k (erased (h1 ++ [x])) = IndexLog.key_timeline k (erased h1) /\
  kv_now (h1 ++ [x]) !! k = kv_now h1 !! k.
Proof.
  intros Hk. split.
  - rewrite erased_snoc, IndexLog.key_timeline_snoc. apply IndexLog.add_entry_other. by rewrite erase_key.
  - rewrite kv_now_snoc. unfold apply_kv. destruct (x_val x); [by rewrite lookup_insert_ne|by rewrite lookup_delete_ne].
Qed.

(** The records of a beginning that are left. *)
Definition left_of (h1 : list kchange) : list record := filter (fun x => rev_of x ∉ gone) (recs h1).

Lemma restoreChunk_app r l1 l2 : restoreChunk r (l1 ++ l2) = (r ← restoreChunk r l1; restoreChunk r l2).
Proof.
  revert r. induction l1 as [|x l1 IH]; intros r; [done|]. cbn [app restoreChunk].
  destruct (KeyValue_Unmarshal (snd x)); [done|]. destruct (restore_index _ _ _) as [[t rev]| |]; [|done..].
  rewrite !ret_bind. apply IH.
Qed.

Lemma restore_one h1 x h2 r : h = h1 ++ x :: h2 -> restored gone h1 r -> x_rev x ∉ gone ->
  exists r', restoreChunk r [encode (rec_of (kv_now h1) x)] = Ret r' /\ restored gone (h1 ++ [x]) r' /\
    rs_rev r' = Main (x_rev x).
Proof.
  intros E Hr Hx. destruct (restore_index_spec h1 x h2 r E Hr Hx) as (ki & Eri & Hk & Hok & Hne & Hlk).
  assert (wf (h1 ++ [x])) as [_ (_ & _ & _ & _ & _ & (_ & Hfit & _))]%wf_snoc_inv
    by (apply (wf_app _ h2); rewrite <- app_assoc; cbn; by rewrite <- E).
  cbn [restoreChunk encode fst snd]. rewrite KeyValue_roundtrip by done. rewrite Eri, ret_bind.
  eexists. split; [reflexivity|]. split; [|done]. intros k. cbn [rs_index keyToLease]. cbv zeta. rewrite IndexLog.item_replace, Hk.
  cbn [rec_of fst snd]. rewrite is_tombstone, kv_of_Key. cbn [tombstone_mark].
  destruct (decide (x_key x = k)) as [<-|Hne'].
  - do 4 (split; [done|]). rewrite kv_now_snoc. unfold apply_kv. destruct (x_val x) as [[v l]|] eqn:Ev.
    + rewrite bool_decide_false, lookup_insert_eq by done. cbn [orb lease_of].
      destruct (Lease _ =? NoLease); [by rewrite lookup_delete_eq|by rewrite lookup_insert_eq].
    + rewrite bool_decide_true by done. cbn [orb]. by rewrite !lookup_delete_eq.
  - destruct (other_here k h1 x Hne') as [-> ->]. specialize (Hr k). cbv zeta in Hr.
    destruct (bool_decide _ || _); [rewrite lookup_delete_ne by done|rewrite lookup_insert_ne by done]; exact Hr.
Qed.

Lemma restore_skip h1 x h2 r : h = h1 ++ x :: h2 -> restored gone h1 r -> x_rev x ∈ gone -> restored gone (h1 ++ [x]) r.
Proof.
  intros E Hr Hx k. cbv zeta. specialize (Hr k). cbv zeta in Hr. destruct (decide (x_key x = k)) as [Ek|Hne].
  2: { by destruct (other_here k h1 x Hne) as [-> ->]. }
  destruct (timeline_gone h lvl gone Hw Hg k (h1 ++ [x]) h2) as (old & Et & Hold); [by rewrite <- app_assoc|].
  assert (filter (here gone) (IndexLog.key_timeline k (erased (h1 ++ [x]))) = []) as E0.
  { destruct (snoc_inv (filter (here gone) (IndexLog.key_timeline k (erased (h1 ++ [x]))))) as [?|(l & e & El)]; [done|].
    assert (e ∈ filter (here gone) (IndexLog.key_timeline k (erased (h1 ++ [x])))) as [Hn _]%list_elem_of_filter
      by (rewrite El; apply elem_of_app; right; by left).
    rewrite El in Et. rewrite erased_snoc, IndexLog.key_timeline_snoc in Et. unfold IndexLog.add_entry in Et.
    rewrite decide_True in Et by (by rewrite erase_key). rewrite app_assoc in Et. apply app_inj_tail in Et as [_ Ee].
    destruct Hn. rewrite <- Ee. unfold erase. destruct (x_val x); [|done]. by destruct (next_fst (IndexLog.key_timeline k (erased h1)) (x_rev x)) as [-> _]. }
  assert (filter (here gone) (IndexLog.key_timeline k (erased h1)) = []) as E1.
  { rewrite erased_snoc, IndexLog.key_timeline_snoc in E0. unfold IndexLog.add_entry in E0.
    rewrite decide_True in E0 by (by rewrite erase_key). rewrite filter_app in E0. by apply app_nil in E0 as [? _]. }
  rewrite E1 in Hr. rewrite E0. destruct (IndexLog.item (rs_index r) k) as [ki|]; [|done].
  destruct Hr as (_ & _ & Hne & Hlk & _). by destruct Hne; apply (IndexLog.like_nil same_main _ _ Hlk).
Qed.

(** The records that are left, in their order. *)
Lemma restore_all h1 h2 r0 : h = h1 ++ h2 -> restored gone [] r0 ->
  exists r, restoreChunk r0 (map encode (left_of h1)) = Ret r /\ restored gone h1 r /\
    rs_rev r = match last (left_of h1) with Some z => Main (rev_of z) | None => rs_rev r0 end.
Proof.
  revert h2. induction h1 as [|x h1 IH] using rev_ind; intros h2 E Hr0; [by exists r0|].
  rewrite <- app_assoc in E. cbn [app] in E. destruct (IH (x :: h2) E Hr0) as (r & Er & Hr & Hrev).
  unfold left_of in *. rewrite recs_snoc, filter_app. destruct (decide (x_rev x ∈ gone)) as [Hx|Hx].
  - rewrite (filter_cons_False _ _ []), filter_nil, app_nil_r by (rewrite rec_of_rev; tauto).
    exists r. split; [done|]. split; [by eapply restore_skip|done].
  - rewrite (filter_cons_True _ _ []), filter_nil by done. rewrite map_app, restoreChunk_app, Er, ret_bind.
    destruct (restore_one h1 x h2 r E Hr Hx) as (r' & Er' & Hr' & Hrev'). exists r'. rewrite last_snoc. done.
Qed.

(** The index of a store that was opened. *)
Lemma restored_indexed r : restored gone h r -> indexed (rs_index r) h lvl.
Proof.
  intros Hr. split; [by apply wf_ordered|]. cbn [IndexLog.hist IndexLog.lastRev IndexLog.lvl]. split; [|split].
  - intros x (y & Hy & ->)%elem_of_erased. rewrite erase_rev. unfold end_rev.
    destruct (snoc_inv h) as [->|(h1 & z & ->)]; [by apply not_elem_of_nil in Hy|]. rewrite last_snoc.
    apply elem_of_app in Hy as [Hy| ->%list_elem_of_singleton]; [right|by left].
    apply wf_snoc_inv in Hw as [_ (_ & Hlt & _)]. by apply Hlt.
  - unfold end_rev. destruct (snoc_inv h) as [->|(h1 & z & ->)]; [by left|]. rewrite last_snoc. right.
    apply wf_snoc_inv in Hw as [_ (Hm & _)]. apply rev_lt_spec. cbn. lia.
  - intros k. specialize (Hr k). cbv zeta in Hr. pose proof (remains_here h lvl gone Hw Hg k) as Hrem. cbv zeta in Hrem.
    destruct (IndexLog.item (rs_index r) k) as [ki|]; cbn [IndexLog.item_ok IndexLog.hist IndexLog.lvl].
    + destruct Hr as (Hk & Hok & Hne & Hlk & _). eauto 10.
    + destruct Hr as [E _]. by rewrite E in Hrem.
Qed.

End Gone.
End Restore.
End KvRestore.
