(* ===== verification/KvOpen.v ===== *)
(** * Opening etcd's store, from the file

    The chunks in which the records are read, the leases of the keys, and the
    compaction that had not ended. *)

From S2P Require Import Prelude Errors Utils KeyIndex KeyTimeline RevBytes TreeIndex IndexLog KvPb BoltApi TxBuffer Backend BackendLog KvHash KvStore KvHistory KvReads KvInv KvEvents KvCompact KvSched KvRestore.

Module KvOpen.
Import mvcc mvccpb Timeline RevBytes kvhash kvstore KvHistory KvReads KvInv KvEvents KvCompact KvSched KvRestore.

(** ** Chunks *)

Lemma filter_keep {A} (f : A -> bool) l : (forall x, x ∈ l -> f x = true) -> List.filter f l = l.
Proof.
  induction l as [|x l IH]; intros Hf; [done|]. cbn. rewrite Hf by (by left). f_equal. apply IH. intros y Hy. apply Hf. by right.
Qed.

Lemma filter_drop {A} (f : A -> bool) l : (forall x, x ∈ l -> f x = false) -> List.filter f l = [].
Proof.
  induction l as [|x l IH]; intros Hf; [done|]. cbn. rewrite Hf by (by left). apply IH. intros y Hy. apply Hf. by right.
Qed.

(** The end of the records. *)
Definition max_bytes : bytes := key_bytes (MkBucketKey (MkRev backend.MaxInt64 backend.MaxInt64) false).

Lemma below_max h x : wf h -> x ∈ recs h -> bytes_ltb (key_bytes (fst x)) max_bytes = true.
Proof.
  intros Hw Hx. pose proof (wf_fits h x Hw Hx) as [Hv _].
  assert (valid (MkBucketKey (MkRev backend.MaxInt64 backend.MaxInt64) false)) as Hm by done.
  apply (proj2 (key_bytes_ltb _ _ Hv Hm)). left. change (rev_lt (rev_of x) (MkRev backend.MaxInt64 backend.MaxInt64)).
  apply rev_lt_spec. destruct Hv as [Hv1 Hv2]. apply recs_change in Hx as (u & Hu & Eu & _).
  pose proof (wf_sub h u Hw Hu) as Hs. rewrite Eu in Hs. unfold rev_of in *. cbn [Main Sub].
  unfold backend.MaxInt64. lia.
Qed.

Lemma take_rev_bytes k : take revBytesLen (key_bytes k) = key_bytes (MkBucketKey (bk_Revision k) false).
Proof. unfold key_bytes. by destruct (tombstone_mark k). Qed.

Section Chunks.
Context (h : list kchange) (gone : gset Revision) (Hw : wf h).

Lemma elem_of_left_of x : x ∈ left_of gone h -> x ∈ recs h.
Proof. by intros [_ ?]%list_elem_of_filter. Qed.

Lemma from_first : List.filter (fun p => negb (bytes_ltb (fst p) (key_bytes (MkBucketKey (MkRev 1 0) false))) && bytes_ltb (fst p) max_bytes)
  (map encode (left_of gone h)) = map encode (left_of gone h).
Proof.
  apply filter_keep. intros p (x & -> & Hx%elem_of_left_of)%list_elem_of_fmap. cbn [encode fst].
  rewrite (below_max h x Hw Hx), andb_true_r. apply negb_true_iff, not_true_iff_false. intros Hlt.
  assert (valid (MkBucketKey (MkRev 1 0) false)) as Hv by done.
  apply (proj1 (key_bytes_ltb _ _ (proj1 (wf_fits h x Hw Hx)) Hv)) in Hlt. pose proof (rec_main h x Hw Hx) as Hm.
  unfold rev_of in Hm. destruct Hlt as [Hlt%rev_lt_spec|(E & _)]; [cbn in Hlt; lia|]. rewrite E in Hm. done.
Qed.

Lemma from_after a z c : left_of gone h = a ++ z :: c ->
  List.filter (fun p => negb (bytes_ltb (fst p) (after (rev_of z))) && bytes_ltb (fst p) max_bytes)
    (map encode (left_of gone h)) = map encode c.
Proof.
  intros E. pose proof (sorted_filter _ (fun x => rev_of x ∉ gone) _ (recs_sorted h Hw)) as Hs.
  change (filter _ (recs h)) with (left_of gone h) in Hs. rewrite E in Hs.
  assert (forall x, x ∈ a ++ z :: c -> x ∈ recs h) as Hin by (intros x Hx; apply elem_of_left_of; by rewrite E).
  apply StronglySorted_app in Hs as (Ha & _ & [_ Hc]%StronglySorted_inv). rewrite Forall_forall in Hc.
  assert (z ∈ recs h) as Hz by (apply Hin, elem_of_app; right; by left).
  pose proof (before_after h z Hw Hz) as Hza.
  rewrite E, map_app, List.filter_app, (filter_drop _ (map encode a)).
  - cbn [map List.filter encode fst app]. rewrite Hza. cbn [negb andb]. apply filter_keep.
    intros p (x & -> & Hx)%list_elem_of_fmap. cbn [encode fst].
    assert (x ∈ recs h) as Hxh by (apply Hin, elem_of_app; right; by right).
    rewrite (below_max h x Hw Hxh), andb_true_r. apply negb_true_iff, not_true_iff_false. intros Hlt.
    apply (proj1 (key_bytes_ltb _ _ (proj1 (wf_fits h x Hw Hxh)) (after_valid h z Hw Hz))) in Hlt.
    specialize (Hc x Hx). apply rev_lt_spec in Hc. unfold rev_of in Hc.
    destruct Hlt as [Hlt%rev_lt_spec|(_ & _ & ?)]; [|done]. unfold rev_of in Hlt. cbn in Hlt. lia.
  - intros p (x & -> & Hx)%list_elem_of_fmap. cbn [encode fst].
    assert (x ∈ recs h) as Hxh by (apply Hin, elem_of_app; by left).
    assert (bytes_ltb (key_bytes (fst x)) (key_bytes (fst z)) = true) as Hxz.
    { apply (proj2 (key_bytes_ltb _ _ (proj1 (wf_fits h x Hw Hxh)) (proj1 (wf_fits h z Hw Hz)))). left.
      apply (Ha x z Hx). by left. }
    by rewrite (Pairs.bytes_ltb_trans _ _ _ Hxz Hza).
Qed.

Context `{BTL : BTreeLaws} `{BLL : BoltLaws} `{LEL : LessorLaws} (tx : backend.baseReadTx).
Context (Hread : forall key lim, 0 < lim ->
  backend.r_UnsafeRange tx schema.Key key (Some max_bytes) lim
    = Ret (Pairs.range key max_bytes lim (map encode (left_of gone h)))).

(** The loop reads the records in chunks. *)
Lemma restore_chunks_spec fuel chunk a rest min r : 0 < chunk -> left_of gone h = a ++ rest ->
  List.filter (fun p => negb (bytes_ltb (fst p) min) && bytes_ltb (fst p) max_bytes) (map encode (left_of gone h))
    = map encode rest ->
  length min = 17%nat -> (length rest < fuel)%nat ->
  restore_chunks fuel chunk tx min max_bytes r = restoreChunk r (map encode rest).
Proof.
  intros Hch. revert a rest min r. induction fuel as [|fuel IH]; intros a rest min r E Ef Hmin Hlen; [lia|].
  cbn [restore_chunks]. rewrite Hread, ret_bind by done.
  assert (Pairs.range min max_bytes chunk (map encode (left_of gone h)) = map encode (take (Z.to_nat chunk) rest)) as ->.
  { unfold Pairs.range. change max_bytes with (Byte.x7f :: tail max_bytes) at 1. cbn iota.
    rewrite Ef, Pairs.ztake_take. symmetry. apply fmap_take. }
  destruct (snoc_inv (take (Z.to_nat chunk) rest)) as [E0|(c0 & z & E0)]; rewrite E0.
  - cbn. destruct rest as [|y rest]; [done|]. by destruct (Z.to_nat chunk) eqn:Ec; [lia|].
  - assert (last (map encode (c0 ++ [z])) = Some (encode z)) as -> by (rewrite map_app; apply last_snoc).
    assert (map encode rest = map encode (c0 ++ [z]) ++ map encode (drop (Z.to_nat chunk) rest)) as ->
      by (by rewrite <- map_app, <- E0, take_drop).
    rewrite restoreChunk_app. destruct (restoreChunk r (map encode (c0 ++ [z]))) as [r1| |]; [|done..].
    rewrite !ret_bind, length_map. rewrite <- E0, length_take.
    destruct (Z.ltb_spec (Z.of_nat (Z.to_nat chunk `min` length rest)) chunk) as [Hl|Hl].
    + rewrite drop_ge by lia. done.
    + assert (left_of gone h = (a ++ c0) ++ z :: drop (Z.to_nat chunk) rest) as El.
      { rewrite E. rewrite <- (take_drop (Z.to_nat chunk) rest) at 1. by rewrite E0, <- !app_assoc. }
      assert (z ∈ recs h) as Hz by (apply elem_of_left_of; rewrite El; apply elem_of_app; right; by left).
      cbn [encode fst]. rewrite take_rev_bytes, bytes_to_rev, ret_bind by apply (wf_fits h z Hw Hz). cbn [bk_Revision].
      change (bk_Revision (fst z)) with (rev_of z). pose proof (after_valid h z Hw Hz) as Hv.
      rewrite (i64_small (Sub (rev_of z) + 1)) by (destruct Hv as [_ Hv]; cbn in Hv; word).
      rewrite rev_bytes_into, ret_bind by done. fold (after (rev_of z)).
      apply (IH ((a ++ c0) ++ [z])); [by rewrite <- app_assoc|by apply (from_after (a ++ c0))|done|].
      rewrite length_drop. assert (length (take (Z.to_nat chunk) rest) <> 0%nat) by (rewrite E0, length_app; cbn; lia).
      rewrite length_take in *. lia.
Qed.

End Chunks.
Section Open.
Context `{BTL : BTreeLaws} `{BLL : BoltLaws} `{LEL : LessorLaws} (has : Z -> bool).

(** ** Leases *)

Lemma attach_all_spec ks l : NoDup (map fst ks) -> (forall k id, (k, id) ∈ ks -> has id = true) ->
  (forall i, le_Lookup l i = has i) ->
  exists l', attach_all (Some l) ks = Ret (Some l') /\ (forall i, le_Lookup l' i = has i) /\
    forall k, le_GetLease l' k = default (le_GetLease l k) ((list_to_map ks : gmap string Z) !! k).
Proof.
  revert l. induction ks as [|[key id] ks IH]; intros l Hnd Hid Hl; [by exists l|].
  cbn [map fst] in Hnd. apply NoDup_cons in Hnd as [Hn Hnd]. cbn [attach_all].
  destruct (le_attach l id key) as (l1 & -> & Hl1 & Hg1); [rewrite Hl; apply (Hid key); by left|]. cbn [fst].
  destruct (IH l1 Hnd) as (l' & E & Hl' & Hg').
  { intros k i Hin. apply (Hid k). by right. }
  { intros i. by rewrite Hl1. }
  exists l'. split; [done|]. split; [done|]. intros k. rewrite Hg', Hg1. rewrite list_to_map_cons.
  case_decide as Hk; [subst k|by rewrite lookup_insert_ne].
  rewrite lookup_insert_eq, not_elem_of_list_to_map_1 by done. done.
Qed.

Lemma restored_leases h lvl gone r l : wf h -> gone_ok h lvl gone -> restored gone h r -> Forall (lease_ok has) h ->
  (forall i, le_Lookup l i = has i) -> (forall k, le_GetLease l k = NoLease) ->
  exists l', attach_all (Some l) (map_to_list (keyToLease r)) = Ret (Some l') /\ (forall i, le_Lookup l' i = has i) /\
    leases has l' (kv_now h).
Proof.
  intros Hw Hg Hr Hh Hl Hn.
  assert (forall k kv, kv_now h !! k = Some kv -> Lease kv = NoLease \/ has (Lease kv) = true) as Hlease.
  { clear Hg Hr. induction Hw as [|h x Hw IH _]; [done|]. apply Forall_app in Hh as [Hh [Hx _]%Forall_cons].
    intros k kv. rewrite kv_now_snoc. unfold apply_kv. unfold lease_ok in Hx. destruct (x_val x) as [[v id]|] eqn:Ev.
    - destruct (decide (x_key x = k)) as [<-|Hk]; [|rewrite lookup_insert_ne by done; by apply IH].
      rewrite lookup_insert_eq. intros [= <-]. unfold kv_of. rewrite Ev. by destruct (kv_now h !! x_key x).
    - destruct (decide (x_key x = k)) as [<-|Hk]; [by rewrite lookup_delete_eq|]. rewrite lookup_delete_ne by done. by apply IH. }
  assert (forall k, keyToLease r !! k = lease_of (kv_now h !! k)) as Hk.
  { intros k. specialize (Hr k). cbv zeta in Hr. pose proof (remains_here h lvl gone Hw Hg k) as (_ & Hem & _).
    pose proof (last_entry h k Hw) as Hle. destruct (IndexLog.item (rs_index r) k) as [ki|]; [by destruct Hr as (_ & _ & _ & _ & ?)|].
    destruct Hr as [E ->]. specialize (Hem E). destruct (last _) as [[r1 [[cr v]|]]|]; [|by rewrite Hle|by rewrite Hle].
    by destruct (Hem r1 (cr, v)). }
  destruct (attach_all_spec (map_to_list (keyToLease r)) l) as (l' & E & Hl' & Hg').
  - apply NoDup_fst_map_to_list.
  - intros k id Hin%elem_of_map_to_list. rewrite Hk in Hin. unfold lease_of in Hin.
    destruct (kv_now h !! k) as [kv|] eqn:Ekv; [|done]. destruct (Z.eqb_spec (Lease kv) NoLease); [done|].
    injection Hin as <-. by destruct (Hlease k kv Ekv).
  - done.
  - exists l'. split; [done|]. split; [done|]. split; [|done]. intros k. rewrite Hg', list_to_map_to_list, Hk, Hn. unfold lease_of.
    destruct (kv_now h !! k) as [kv|]; [|done]. by destruct (Z.eqb_spec (Lease kv) NoLease).
Qed.

(** ** The records *)

(** The last record is never deleted. *)
Lemma last_left h lvl gone : wf h -> gone_ok h lvl gone -> lvl <= cur_of h ->
  match last (left_of gone h) with Some z => Main (rev_of z) | None => 1 end = cur_of h.
Proof.
  intros Hw Hg Hl. unfold cur_of, left_of in *. destruct (snoc_inv h) as [->|(h1 & x & ->)]; [done|].
  rewrite last_snoc in *. pose proof Hw as [Hw1 Ha]%wf_snoc_inv. rewrite recs_snoc, filter_app, (filter_cons_True _ _ []), filter_nil.
  - by rewrite last_snoc.
  - intros Hin. set (y := rec_of (kv_now h1) x) in *.
    assert (y ∈ recs (h1 ++ [x])) as Hy by (rewrite recs_snoc; apply elem_of_app; right; by left).
    apply (g_unneeded _ _ _ Hg y Hy Hin). unfold y. rewrite rec_of_rev.
    destruct (decide (lvl < Main (x_rev x))) as [?|Hge]; [by left|right]. assert (Main (x_rev x) = lvl) as Em by lia.
    rewrite erased_snoc. unfold erase. destruct (x_val x) eqn:Ev.
    + left. exists (x_key x). rewrite state_at_snoc. cbn [IndexLog.c_rev]. rewrite decide_True by lia.
      unfold IndexLog.apply_change. rewrite lookup_insert_eq.
      destruct (IndexLog.state_at (erased h1) lvl !! x_key x) as [[[r' cr] v]|]; eauto.
    + right. split; [done|]. exists (x_key x). apply elem_of_app. right. by left.
Qed.

(** Nothing is buffered. *)
Definition unbuffered (bk : backend.backend) : Prop :=
  forall k, TxBufferSpec.conts (txBuffer.rbuckets (backend.rbuf (backend.readTx bk)) !! k) = [].

Lemma load_spec bk bs d dd n lvl gone r0 : backed bk bs d None dd n -> unbuffered bk -> wf (d_hist d) ->
  gone = d_gone d -> gone_ok (d_hist d) lvl gone -> restored gone [] r0 ->
  exists r, restore_chunks (restore_rounds (backend.readTx bk)) restoreChunkKeys (backend.readTx bk)
      (key_bytes (MkBucketKey (MkRev 1 0) false)) max_bytes r0 = Ret r /\
    restored gone (d_hist d) r /\
    rs_rev r = match last (left_of gone (d_hist d)) with Some z => Main (rev_of z) | None => rs_rev r0 end.
Proof.
  intros [(dk & ([_ _ _ Hrd _ _ _] & _) & _) _ [Hs _] _ _ _] Hu Hw -> Hg Hr0.
  destruct (restore_all (d_hist d) lvl (d_gone d) Hw Hg (d_hist d) [] r0 (eq_sym (app_nil_r _)) Hr0) as (r & Er & Hr & Hrev).
  exists r. split; [|done]. rewrite <- Er. apply (restore_chunks_spec (d_hist d) (d_gone d) Hw _ ) with (a := []); [|done|done| |done|].
  - intros key lim Hl. by apply (BackendLog.read_clean _ (BackendLog.seen bs) (bucket_of (d_hist d) (d_gone d))).
  - by apply from_first.
  - unfold restore_rounds. destruct Hrd as (R & HR & _ & Hsee). rewrite HR.
    specialize (Hsee schema.Key Key_All). rewrite Hs, Hu in Hsee. destruct Hsee as [E _].
    apply (f_equal length) in E. unfold bucket_of in E. rewrite length_map in E. unfold left_of. rewrite E.
    cbn [Pairs.upd fold_left]. lia.
Qed.

Lemma nothing_restored gone : restored gone [] (MkRestoring treeIndex.newTreeIndex 1 ∅).
Proof.
  intros k. cbv zeta. cbn [rs_index keyToLease]. assert (IndexLog.item treeIndex.newTreeIndex k = None) as ->.
  { apply IndexLog.item_None. unfold treeIndex.newTreeIndex. rewrite bt_new. by intros ki ?%not_elem_of_nil. }
  by split.
Qed.

(** ** The store *)

Lemma with_compact_same d : with_compact d (d_sched d) (d_fin d) = d.
Proof. by destruct d. Qed.

Lemma new_sched_ok t h d : d_fin d = d_sched d -> sched_ok new_sched t h d (d_lvl d).
Proof.
  intros E. constructor; cbn; try done.
  - repeat constructor. lia.
  - intros ch Hch. lia.
Qed.

Lemma resumed_ok t h d c prev completed : d_sched d = Some c -> 0 < c ->
  sched_ok (MkSched [JCompact 0 c prev completed] None 1 []) t h d (d_lvl d).
Proof.
  intros E H0. assert (d_lvl d = c) as El by (unfold d_lvl; by rewrite E). rewrite El. constructor; cbn; rewrite ?El; try done.
  - repeat constructor; lia.
  - by repeat constructor.
  - intros ch Hch. right. assert (ch = 0%nat) as -> by lia. by left.
Qed.

Lemma opened_inv bk bs d n l lim t f cur comp0 : backed bk bs d None d n -> disk_ok d -> 0 < lim ->
  cur = cur_of (d_hist d) -> comp0 = d_lvl d -> indexed t (d_hist d) (d_lvl d) -> sched_ok f t (d_hist d) d (d_lvl d) ->
  (forall i, le_Lookup l i = has i) -> leases has l (kv_now (d_hist d)) -> Forall (lease_ok has) (d_hist d) ->
  inv has (MkStore lim bk t (Some l) cur comp0 [] f) None [] d None [] d n.
Proof.
  intros Hb Hd Hlim -> -> Hi Hs Hl Hle Hh.
  constructor; cbn [b kvindex le currentRev compactMainRev CompactionBatchLimit fifoSched]; rewrite ?all_none; try done.
  - by apply Hd.
  - eauto.
  - eauto.
  - eauto.
Qed.

Lemma restore_store_spec bk bs d n l lim : backed bk bs d None d n -> unbuffered bk -> disk_ok d -> 0 < lim ->
  (forall i, le_Lookup l i = has i) -> (forall k, le_GetLease l k = NoLease) -> Forall (lease_ok has) (d_hist d) ->
  n + 2 < two64 ->
  exists s, restore_store BackendLog.no_hooks (MkStore lim bk treeIndex.newTreeIndex (Some l) 1 (-1) [] new_sched) = Ret s /\
    inv has s None [] d None [] d (n + 2).
Proof.
  intros Hb Hu Hd Hlim Hl Hn Hh Hnn. pose proof Hd as [Hw Hg Hsc Hfi]. pose proof (lvl_limit d Hd) as Hlv.
  unfold restore_store. rewrite !rev_bytes, !ret_bind by done. fold max_bytes. cbn [b currentRev].
  pose proof Hb as [(dk & ([_ _ _ Hrd _ _ _] & _) & _) _ Hs _ _ _]. apply BackendLog.reads_reads_keys in Hrd.
  unfold UnsafeReadScheduledCompact, UnsafeReadFinishedCompact.
  rewrite (read_compact _ _ d schema.FinishedCompactKeyName (d_fin d) Hrd Hs Hd), ret_bind by (by right).
  rewrite (read_compact _ _ d schema.ScheduledCompactKeyName (d_sched d) Hrd Hs Hd), ret_bind by (by left).
  match goal with |- context [match d_fin d with Some c => ?a c | None => ?e end] =>
    assert (match d_fin d with Some c => a c | None => e end =
      MkStore lim bk treeIndex.newTreeIndex (Some l) 1 (default (-1) (d_fin d)) [] new_sched) as -> by (by destruct (d_fin d)) end.
  cbn [kvindex compactMainRev].
  destruct (load_spec bk bs d d n (d_lvl d) (d_gone d) _ Hb Hu Hw eq_refl Hg (nothing_restored _)) as (r & Er & Hr & Hrev).
  rewrite Er, ret_bind. cbn [rs_rev] in Hrev. rewrite (last_left (d_hist d) (d_lvl d)) in Hrev by (done || lia).
  destruct (restored_leases (d_hist d) (d_lvl d) (d_gone d) r l Hw Hg Hr Hh Hl Hn) as (l' & El & Hl' & Hle).
  cbn [with_revs with_index le]. rewrite El, ret_bind. cbn [with_le compactMainRev CompactionBatchLimit b kvindex currentRev hashes fifoSched].
  pose proof (restored_indexed (d_hist d) (d_lvl d) (d_gone d) Hw Hg r Hr) as Hi.
  assert (d_fin d = None \/ exists f, d_fin d = Some f /\ 0 < f <= d_lvl d) as Hfin.
  { destruct (d_fin d) as [f|] eqn:Ef; [right; exists f; split; [done|by apply Hfi]|by left]. }
  assert (Z.max (Z.max (rs_rev r) (default (-1) (d_fin d))) (default 0 (d_sched d)) = cur_of (d_hist d)) as ->.
  { rewrite Hrev. pose proof (cur_pos _ Hw). destruct Hfin as [->|(f & -> & ?)]; cbn [default from_option id];
      (destruct (d_sched d) as [c|] eqn:Ec; cbn [default from_option id]; [pose proof (Hsc c eq_refl)|]; lia). }
  set (s1 := MkStore lim bk (rs_index r) (Some l') (cur_of (d_hist d)) (default (-1) (d_fin d)) [] new_sched).
  match goal with |- context [with_le ?a ?o] => change (with_le a o) with s1 end. change (compactMainRev _) with (default (-1) (d_fin d)).
  destruct (d_sched d) as [c|] eqn:Ec; cbn [default from_option id].
  - pose proof (Hsc c eq_refl) as Hc. assert (d_lvl d = c) as Elv by (unfold d_lvl; by rewrite Ec).
    destruct (Z.leb_spec c (default (-1) (d_fin d))) as [Hle1|Hle1].
    + assert (d_fin d = Some c) as Ef.
      { destruct Hfin as [Ef|(f & Ef & Hf)]; rewrite Ef in *; cbn in Hle1; [lia|]. f_equal. lia. }
      eexists. split; [reflexivity|]. apply (opened_inv bk bs); try done.
      * eapply backed_later; [|exact Hb]. lia.
      * by rewrite Ef.
      * apply new_sched_ok. congruence.
    + rewrite (proj2 (Z.eqb_neq c 0)) by lia. unfold compactLockfree.
      destruct (check_prev_spec s1 bs d _ d n Hb Hd) as (completed & ->). rewrite ret_bind.
      destruct (update_spec s1 bs d d n c Hb Hd eq_refl)
        as (bk' & bs' & -> & Hb'); [cbn; lia|lia|done|].
      rewrite !ret_bind. cbn [schedule]. rewrite ret_bind. eexists. split; [reflexivity|].
      assert (with_compact d (Some c) (d_fin d) = d) as Ed by (rewrite <- Ec; apply with_compact_same).
      rewrite Ed in Hb'. apply (opened_inv bk' bs'); try done. apply (resumed_ok _ _ _ c); [done|lia].
  - assert (d_lvl d = -1) as Elv by (unfold d_lvl; by rewrite Ec).
    assert (d_fin d = None) as Ef by (destruct Hfin as [?|(f & _ & ?)]; [done|lia]). rewrite Ef. cbn [default from_option id].
    change (0 <=? -1) with false. change (0 =? 0) with true. cbn iota.
    eexists. split; [reflexivity|]. apply (opened_inv bk bs); try done.
    + eapply backed_later; [|exact Hb]. lia.
    + by rewrite Elv, Ef.
    + apply new_sched_ok. congruence.
Qed.

(** A file, which may be new. *)
Definition file_holds (file : bolt) (d : disk) : Prop :=
  exists m, BackendLog.holds file m /\
    default [] (m !! txBuffer.ID schema.Key) = bucket_of (d_hist d) (d_gone d) /\
    Pairs.find schema.ScheduledCompactKeyName (default [] (m !! txBuffer.ID schema.Meta)) = enc_rev <$> d_sched d /\
    Pairs.find schema.FinishedCompactKeyName (default [] (m !! txBuffer.ID schema.Meta)) = enc_rev <$> d_fin d.

(** The buckets are created. *)
Lemma created_spec file d limit : file_holds file d ->
  exists bk bs, (bk ← backend.UnsafeCreateBucket (BackendLog.opened file limit) schema.Key;
                 bk ← backend.UnsafeCreateBucket bk schema.Meta;
                 bk ← backend.Unlock BackendLog.no_hooks bk;
                 backend.ForceCommit BackendLog.no_hooks bk) = Ret bk /\
    backed bk bs d None d 2 /\ unbuffered bk.
Proof.
  intros (m & Hm & Hk & Hf1 & Hf2). pose proof (BackendLog.opened_unlocked file limit m Hm) as Hu.
  assert (BackendLog.rep (BackendLog.opened file limit, []) (BackendLog.spec_of m) m 0) as Hr0.
  { split; [apply Hu|]. split; [done|]. split; [|by split]. by split; [|split]. }
  destruct (BackendLog.op_step _ _ _ _ _ (BackendLog.WCreate schema.Key) Hr0) as (bk1 & E1 & Hr1); [split; [apply Key_All|done]|].
  destruct (BackendLog.op_step _ _ _ _ _ (BackendLog.WCreate schema.Meta) Hr1) as (bk2 & E2 & Hr2); [split; [apply Meta_All|done]|].
  cbn [BackendLog.run_op] in E1, E2. rewrite E1, ret_bind, E2, ret_bind. set (bs := BackendLog.spec_step _ _) in Hr2.
  destruct (BackendLog.event_step _ bs m 0 BackendLog.EUnlock Hr2) as ([bk3 os3] & dk3 & r3 & E3 & Hr3 & _ & _); [done|done|].
  cbn [BackendLog.step] in E3. destruct (backend.Unlock _ bk2) as [bk3'| |]; [|done..]. rewrite ret_bind in *. injection E3 as <- <- <-.
  set (bs' := BackendLog.spec_step bs BackendLog.EUnlock) in *.
  destruct (BackendLog.event_step _ bs' dk3 (0 + 1) BackendLog.ECommit Hr3) as ([bk4 os4] & dk4 & r4 & E4 & Hr4 & Hdk4 & _); [done|done|].
  cbn [BackendLog.step] in E4. destruct (backend.ForceCommit _ bk3') as [bk4'| |] eqn:Efc; [|done..]. rewrite ret_bind in E4. injection E4 as <- <- <-.
  assert (dk4 = BackendLog.cur bs) as -> by (by destruct Hdk4 as [[_ ?]| ->]).
  assert (on_disk (BackendLog.cur bs) d) as Hon.
  { unfold bs. cbn [BackendLog.spec_step BackendLog.spec_op BackendLog.cur BackendLog.spec_of]. split.
    - rewrite lookup_insert_ne, lookup_insert_eq, Hk by done. done.
    - rewrite lookup_insert_eq. eexists. split; [reflexivity|]. rewrite lookup_insert_ne by done. split; [|done].
      rewrite <- (Hm schema.Meta Meta_All). apply BackendLog.bolt_default_sorted. }
  exists bk4', bs'. split; [done|]. split.
  - constructor; try done; [by exists (BackendLog.cur bs)|by fold (with_all d None); rewrite with_all_none|].
    by intros k ?%not_elem_of_nil.
  - destruct Hr3 as (_ & Hun & _). destruct (Hun eq_refl) as [Hun' _].
    destruct (BackendLog.Commit_spec _ _ _ Hun') as (b' & Ec & _ & [_ Hcl] & _). unfold backend.ForceCommit in Efc.
    rewrite Efc in Ec. injection Ec as <-. exact Hcl.
Qed.

(** A store that is opened on a file goes on where the file ends. *)
Lemma open_spec file d limit l lim : file_holds file d -> disk_ok d -> 0 <= lim ->
  (forall i, le_Lookup l i = has i) -> (forall k, le_GetLease l k = NoLease) -> Forall (lease_ok has) (d_hist d) ->
  exists bk s, backend.newBackend file limit = Ret bk /\ NewStore BackendLog.no_hooks bk (Some l) lim = Ret s /\
    related has (MkState s None []) (MkSpec (d_hist d) None (d_sched d) []) d 4.
Proof.
  intros Hf Hd Hlim Hl Hn Hh. destruct (created_spec file d limit Hf) as (bk & bs & E & Hb & Hu).
  exists (BackendLog.opened file limit). unfold NewStore.
  destruct (restore_store_spec bk bs d 2 l (if lim =? 0 then defaultCompactionBatchLimit else lim) Hb Hu Hd) as (s & Es & Hi); [|done..|].
  { destruct (Z.eqb_spec lim 0); [done|lia]. }
  exists s. split; [apply BackendLog.newBackend_opened|]. split.
  - revert E. destruct (backend.UnsafeCreateBucket _ _) as [bk1| |]; [|done..]. rewrite !ret_bind.
    destruct (backend.UnsafeCreateBucket _ _) as [bk2| |]; [|done..]. rewrite !ret_bind.
    destruct (backend.Unlock _ _) as [bk3| |]; [|done..]. rewrite !ret_bind. intros ->. rewrite ret_bind. exact Es.
  - exists (d_gone d), (d_fin d). destruct d. exact Hi.
Qed.

End Open.
End KvOpen.
