(* ===== verification/KvRun.v ===== *)
(** * etcd's store against its history

    Over every legal sequence of transactions, reads, commits, compactions and
    steps of the scheduler the store answers as the history of the changes
    says, from whatever file it was opened on; the file it leaves is again one
    that it can be opened on, with the history up to a point that is not before
    the last commit; and compactions end, and leave what is needed. *)

From S2P Require Import Prelude Errors Utils KeyIndex KeyTimeline RevBytes TreeIndex IndexLog KvPb BoltApi TxBuffer Backend BackendLog LeaseQueue Lease LeaseLog KvHash KvStore KvHistory KvReads KvInv KvEvents KvCompact KvSched KvRestore KvOpen.

Module KvRun.
Import mvcc mvccpb Timeline RevBytes kvhash kvstore KvHistory KvReads KvInv KvEvents KvCompact KvSched KvRestore KvOpen.

Section Run.
Context `{BTL : BTreeLaws} `{BLL : BoltLaws} `{LEL : LessorLaws} (has : Z -> bool).

(** ** Runs *)

(** The file holds the state at a point of the run after which no commit could
    take the lock. *)
Definition durable (sp : spec) (evs : list event) (dd : disk) : Prop :=
  exists evs1 evs2, evs = evs1 ++ evs2 /\ holds_spec (fst (spec_run sp evs1)) dd /\
    forall a c, evs2 = a ++ KCommit :: c -> txn (fst (spec_run sp (evs1 ++ a))) <> None.

Lemma spec_run_cons sp e evs : spec_run sp (e :: evs) =
  (fst (spec_run (fst (spec_step sp e)) evs), snd (spec_step sp e) :: snd (spec_run (fst (spec_step sp e)) evs)).
Proof. cbn [spec_run]. destruct (spec_step sp e) as [sp1 r]. cbn [fst snd]. by destruct (spec_run sp1 evs). Qed.

Lemma run_related evs s sp dd n : related has s sp dd n -> legal has sp evs ->
  n + 2 * Z.of_nat (length evs) < two64 ->
  exists s' dd', run step s evs = Ret (s', snd (spec_run sp evs)) /\
    related has s' (fst (spec_run sp evs)) dd' (n + 2 * Z.of_nat (length evs)) /\
    (dd' = dd /\ (forall a c, evs = a ++ KCommit :: c -> txn (fst (spec_run sp a)) <> None) \/ durable sp evs dd').
Proof.
  revert s sp dd n. induction evs as [|e evs IH]; intros s sp dd n Hr Hl Hn.
  - exists s, dd. split; [done|]. cbn [length]. rewrite Z.add_0_r. split; [done|]. left. split; [done|]. by intros [|].
  - destruct Hl as [He Hl]. cbn [length] in *.
    destruct (event_spec has s sp dd n e Hr He) as (s1 & dd1 & E1 & Hr1 & Hs1 & Hc1); [lia|].
    destruct (IH s1 (fst (spec_step sp e)) dd1 (n + 2) Hr1 Hl) as (s2 & dd2 & E2 & Hr2 & Hd); [lia|].
    exists s2, dd2. cbn [run]. rewrite E1, ret_bind, E2, ret_bind, spec_run_cons. cbn [fst snd].
    split; [done|]. split; [by replace (n + 2 * Z.of_nat (S (length evs))) with (n + 2 + 2 * Z.of_nat (length evs)) by lia|].
    destruct Hd as [[-> Hd]|(evs1 & evs2 & -> & Hh & Hd)].
    + assert (dd1 = dd /\ (e = KCommit -> txn sp <> None) \/ holds_spec (fst (spec_step sp e)) dd1) as [[-> Hne]|Hh].
      { destruct Hs1 as [->|Hh]; [|by right]. destruct (txn sp) eqn:Et; [by left|].
        destruct e; try (by left). right. by apply Hc1. }
      * left. split; [done|]. intros [|x a] c [= -> Ea]; [by apply Hne|]. rewrite spec_run_cons. by eapply Hd.
      * right. exists [e], evs. split; [done|]. rewrite spec_run_cons. split; [done|]. intros a c Ea.
        cbn [app]. rewrite spec_run_cons. by eapply Hd.
    + right. exists (e :: evs1), evs2. split; [done|]. rewrite spec_run_cons. split; [done|]. intros a c Ea.
      cbn [app]. rewrite spec_run_cons. by eapply Hd.
Qed.

Lemma related_file s sp dd n : related has s sp dd n ->
  file_holds (backend.db (b (st s))) dd /\ disk_ok dd /\ Forall (lease_ok has) (d_hist dd).
Proof.
  intros (gone & fin & [_ _ [Hdd [xs Hpre]] _ _ _ [bs [(dk & Hr & Hk & l & Hl & Hs & Hf) _ _ _ _ _]] _ _ _ _ Hh]).
  split; [|split; [done|]].
  - exists dk. destruct Hr as ([_ Hdb _ _ _ _ _] & _). split; [done|]. by rewrite Hk, Hl.
  - unfold all_hist in Hh. cbn [d_hist] in *. rewrite Hpre, <- app_assoc in Hh. by apply Forall_app in Hh as [? _].
Qed.

(** ** The scheduler alone *)

Lemma work_bound s tw trs d rds dd n : inv has s tw trs d None rds dd n ->
  (work (fifoSched s) (d_hist d) (d_gone d) <= S (length (pendings (fifoSched s))) * (2 * length (d_hist d) + 4))%nat.
Proof.
  intros [_ _ _ _ _ _ _ (ilvl & Hi & Hs) _ _ _ _]. rewrite all_none in *. unfold work.
  destruct (running (fifoSched s)) as [c|] eqn:Er; [|lia]. destruct (f_running _ _ _ _ _ Hs c Er) as [Ei Hp].
  destruct (c_phase c) as [todo av|from hs].
  - destruct Hp as (Hnd & Hk & _). cbn [phase_ok]. pose proof (items_bound _ _ _ Hi) as Hb.
    assert (length todo <= length (bt_Ascend (kvindex s)))%nat; [|lia].
    rewrite <- (length_map ki_key todo), <- (length_map ki_key (bt_Ascend _)). apply submseteq_length, NoDup_submseteq; [done|].
    intros k Hin. destruct (Hk k Hin) as [ki [Hki <-]%IndexLog.item_Some]. apply list_elem_of_fmap. eauto.
  - pose proof (left_bound (d_hist d) (d_gone d) from (c_rev c)). lia.
Qed.

Lemma drain_spec k s trs d rds dd n : inv has s None trs d None rds dd n ->
  (work (fifoSched s) (d_hist d) (d_gone d) <= k)%nat -> n + 2 * Z.of_nat k < two64 ->
  exists s' d' dd', run step (MkState s None trs) (repeat KStep k) = Ret (MkState s' None trs, repeat ANone k) /\
    inv has s' None trs d' None rds dd' (n + 2 * Z.of_nat k) /\ moved d d' /\ idle (fifoSched s').
Proof.
  revert s d dd n. induction k as [|k IH]; intros s d dd n Hi Hwk Hn.
  - exists s, d, dd. split; [done|]. rewrite Z.add_0_r. split; [done|]. split; [done|]. unfold work in Hwk.
    destruct (pendings (fifoSched s)) eqn:Ep; [|cbn in Hwk; lia]. destruct (running (fifoSched s)) as [c|] eqn:Er; [|done].
    destruct (c_phase c); cbn in Hwk; lia.
  - assert (exists s1 d1 dd1, sched_step BackendLog.no_hooks s = Ret s1 /\ inv has s1 None trs d1 None rds dd1 (n + 2) /\
      moved d d1 /\ (work (fifoSched s1) (d_hist d1) (d_gone d1) <= k)%nat) as (s1 & d1 & dd1 & E1 & Hi1 & Hm1 & Hw1).
    { destruct (batching (fifoSched s)) eqn:Hb.
      - destruct (batch_sched has s trs d rds dd n Hi Hb) as (s1 & d1 & dd1 & E & Hi1 & Hm & _ & Hw); [lia|].
        exists s1, d1, dd1. split; [done|]. split; [done|]. split; [done|]. destruct Hm as [-> _]. lia.
      - destruct (index_sched has s None trs d None rds dd n Hi Hb) as (s1 & E & Hi1 & Hw). exists s1, d, dd. split; [done|].
        split; [eapply inv_later; [|exact Hi1]; lia|]. split; [done|]. rewrite all_none in Hw. destruct Hw as [[Er Ep]|Hw]; [|lia].
        unfold sched_step in E. rewrite Er, Ep in E. injection E as <-. unfold work. rewrite Er, Ep. cbn. lia. }
    destruct (IH s1 d1 dd1 (n + 2) Hi1 Hw1) as (s2 & d2 & dd2 & E2 & Hi2 & Hm2 & Hid); [lia|].
    exists s2, d2, dd2. cbn [repeat run step]. unfold waits. cbn [st_tw st st_trs]. rewrite E1, !ret_bind, E2, ret_bind.
    split; [done|]. split; [|split; [|done]].
    + by replace (n + 2 * Z.of_nat (S k)) with (n + 2 + 2 * Z.of_nat k) by lia.
    + destruct Hm1, Hm2. split; congruence.
Qed.

(** What is left when the jobs have ended. *)
Lemma idle_pairs s trs d rds dd n : inv has s None trs d None rds dd n -> idle (fifoSched s) ->
  (forall ch, (ch < chans (fifoSched s))%nat -> ch ∈ closed (fifoSched s)) /\
  exists pairs, backend.r_UnsafeForEach (backend.readTx (b s)) schema.Key = Ret pairs /\ Pairs.sorted pairs /\
    forall p, p ∈ pairs <-> exists x, x ∈ recs (d_hist d) /\ needed (erased (d_hist d)) (d_lvl d) (rev_of x) /\ p = encode x.
Proof.
  intros [Hd Hw _ _ _ _ [bs [(dk & Hr & _) _ [Hk _] _ _ _]] (ilvl & _ & Hs) _ _ _ _] [Er Ep].
  assert (job_revs (fifoSched s) = []) as Ej by (unfold job_revs; by rewrite Er, Ep).
  assert (open_chans (fifoSched s) = []) as Eo by (unfold open_chans; by rewrite Er, Ep). split.
  - intros ch Hch. destruct (f_chans _ _ _ _ _ Hs ch Hch) as [?|Hin]; [done|]. rewrite Eo in Hin. by apply not_elem_of_nil in Hin.
  - exists (bucket_of (d_hist d) (d_gone d)). destruct Hr as ([_ _ _ Hrd _ _ _] & _).
    split; [by apply (BackendLog.read_each _ (BackendLog.seen bs))|]. split; [apply bucket_sorted, Hd|].
    intros p. rewrite elem_of_bucket. pose proof (f_last _ _ _ _ _ Hs) as Hfin. rewrite Ej in Hfin. cbn in Hfin.
    split; intros (x & Hx & Hc & ->); exists x; (split; [done|split; [|done]]).
    + destruct (Z.lt_ge_cases (d_lvl d) (Main (rev_of x))) as [?|Hle]; [by left|].
      pose proof (rec_main _ _ (d_wf _ Hd) Hx) as Hm. unfold d_lvl in *. destruct (d_sched d) as [c|] eqn:Ec; cbn in *; [|lia].
      destruct (d_fin_ok _ Hd c Hfin) as [_ Hsw]. by apply Hsw.
    + intros Hin. by apply (g_unneeded _ _ _ (d_gone_ok _ Hd) x Hx Hin).
Qed.

End Run.

(** ** The theorems *)

Section Theorems.
Context `{BTL : BTreeLaws} `{BLL : BoltLaws} `{LEL : LessorLaws}.

(** The state of a file. *)
Definition spec_of (d : disk) : spec := MkSpec (d_hist d) None (d_sched d) [].

(** A store that is opened on [file], with a lessor that knows the leases but
    not yet the keys. *)
Definition opens (file : bolt) (d : disk) (l : lessor) (lim : Z) : Prop :=
  file_holds file d /\ disk_ok d /\ 0 <= lim /\ (forall k, le_GetLease l k = NoLease) /\
  Forall (lease_ok (le_Lookup l)) (d_hist d).

Definition open_store (file : bolt) (limit : Z) (l : lessor) (lim : Z) : outcome state :=
  bk ← backend.newBackend file limit; s ← NewStore BackendLog.no_hooks bk (Some l) lim; Ret (MkState s None []).

Lemma open_related file d limit l lim : opens file d l lim ->
  exists s, open_store file limit l lim = Ret s /\ related (le_Lookup l) s (spec_of d) d 4.
Proof.
  intros (Hf & Hd & Hlim & Hn & Hh).
  destruct (open_spec (le_Lookup l) file d limit l lim Hf Hd Hlim (fun _ => eq_refl) Hn Hh) as (bk & s & E1 & E2 & Hr).
  exists (MkState s None []). split; [|done]. unfold open_store. by rewrite E1, ret_bind, E2, ret_bind.
Qed.

(** C4: opened on a file, the store answers every legal sequence of write
    transactions, reads, commits, compactions and steps of the scheduler as the
    history of the changes says: revisions count the transactions that change
    something, a range returns the pairs as they were at its revision (in a
    transaction also its own changes), up to its limit and with the full count,
    and an error for a revision that is compacted or not reached; a compaction
    that runs beside them changes no answer. *)
Theorem store_refines_history file d limit l lim evs : opens file d l lim ->
  legal (le_Lookup l) (spec_of d) evs -> 4 + 2 * Z.of_nat (length evs) < two64 ->
  exists s s', open_store file limit l lim = Ret s /\
    run step s evs = Ret (s', snd (spec_run (spec_of d) evs)).
Proof.
  intros Ho Hl Hn. destruct (open_related file d limit l lim Ho) as (s & E & Hr).
  destruct (run_related (le_Lookup l) evs s _ d 4 Hr Hl Hn) as (s' & dd' & E' & _). eauto.
Qed.

(** C14: whenever the store stops, the file it leaves is one on which it can be
    opened again, with the whole transactions up to a point of the run: none of
    the commits after that point was made while no transaction was open. *)
Theorem store_file_durable file d limit l lim evs s s' rs : opens file d l lim ->
  legal (le_Lookup l) (spec_of d) evs -> 4 + 2 * Z.of_nat (length evs) < two64 ->
  open_store file limit l lim = Ret s -> run step s evs = Ret (s', rs) ->
  exists d', opens (backend.db (b (st s'))) d' l lim /\ durable (spec_of d) evs d'.
Proof.
  intros Ho Hl Hn Es Er. destruct (open_related file d limit l lim Ho) as (s0 & E & Hr). rewrite E in Es. injection Es as <-.
  destruct (run_related (le_Lookup l) evs s0 _ d 4 Hr Hl Hn) as (s1 & dd' & E' & Hr' & Hd). rewrite E' in Er. injection Er as -> <-.
  destruct (related_file (le_Lookup l) s' _ dd' _ Hr') as (Hf & Hdd & Hh). exists dd'.
  destruct Ho as (_ & _ & Hlim & Hnl & _). split; [done|]. destruct Hd as [[-> Hd]|?]; [|done].
  exists [], evs. split; [done|]. split; [done|]. exact Hd.
Qed.

(** C17: the scheduler ends every job that was scheduled, in a number of steps
    that the jobs and the history bound: all channels are closed, and the
    bucket holds exactly the records that a read at the last compaction or
    later, or another compaction at it, needs. *)
Theorem compactions_end file d limit l lim evs s s' rs k : opens file d l lim ->
  legal (le_Lookup l) (spec_of d) evs -> 4 + 2 * Z.of_nat (length evs + k) < two64 ->
  open_store file limit l lim = Ret s -> run step s evs = Ret (s', rs) ->
  let sp := fst (spec_run (spec_of d) evs) in txn sp = None ->
  (S (length (pendings (fifoSched (st s')))) * (2 * length (hist sp) + 4) <= k)%nat ->
  exists s2, run step s' (repeat KStep k) = Ret (s2, repeat ANone k) /\ idle (fifoSched (st s2)) /\
    (forall ch, (ch < chans (fifoSched (st s2)))%nat -> ch ∈ closed (fifoSched (st s2))) /\
    exists pairs, backend.r_UnsafeForEach (backend.readTx (b (st s2))) schema.Key = Ret pairs /\ Pairs.sorted pairs /\
      forall p, p ∈ pairs <-> exists x, x ∈ recs (hist sp) /\ needed (erased (hist sp)) (level sp) (rev_of x) /\ p = encode x.
Proof.
  intros Ho Hl Hn Es Er sp Ht Hk. destruct (open_related file d limit l lim Ho) as (s0 & E & Hr). rewrite E in Es. injection Es as <-.
  destruct (run_related (le_Lookup l) evs s0 _ d 4 Hr Hl) as (s1 & dd' & E' & Hr' & _); [lia|]. rewrite E' in Er. injection Er as -> <-.
  destruct Hr' as (gone & fin & Hi). fold sp in Hi. pose proof (none_related (le_Lookup l) _ _ _ _ _ _ Ht Hi) as Etw. rewrite Ht, Etw in Hi.
  destruct (drain_spec (le_Lookup l) k (st s') (st_trs s') _ _ dd' _ Hi) as (s2 & d2 & dd2 & E2 & Hi2 & Hm & Hid).
  - etrans; [by eapply work_bound|]. exact Hk.
  - lia.
  - exists (MkState s2 None (st_trs s')). split; [|split; [done|]].
    + destruct s' as [s' tw' trs']. cbn in Etw. subst tw'. exact E2.
    + pose proof (moved_lvl _ _ Hm) as El. destruct Hm as [Eh _]. pose proof (idle_pairs (le_Lookup l) _ _ _ _ _ _ Hi2 Hid) as Hp.
      rewrite Eh, El in Hp. exact Hp.
Qed.

End Theorems.

(** ** On a concrete store *)

#[local] Existing Instances MemBTree.btree MemBTree.btree_laws MemBolt.mem_bolt MemBolt.mem_bolt_laws.

(** The lessor of package lease. *)
#[export] Instance etcd_lessor : Lessor := {
  lessor := lease.lessor;
  le_Lookup le id := bool_decide (is_Some (lease.Lookup le id));
  le_GetLease := lease.GetLease;
  le_Attach le id k := lease.Attach le id [k];
  le_Detach le id k := lease.Detach le id [k]
}.

#[export] Instance etcd_lessor_laws : LessorLaws.
Proof.
  split; cbn; unfold lease.Lookup, lease.Attach, lease.Detach, lease.GetLease; intros l id k [x Hx]%bool_decide_eq_true;
    rewrite Hx; eexists; (split; [reflexivity|]); cbn [lease.with_maps lease.leaseMap lease.itemMap fold_left]; split.
  - intros i. apply bool_decide_ext. destruct (decide (i = id)) as [->|Hi]; [rewrite lookup_insert_eq, Hx; split; eauto|].
    by rewrite lookup_insert_ne.
  - intros k'. case_decide as Hk; [subst k'; by rewrite lookup_insert_eq|by rewrite lookup_insert_ne].
  - intros i. apply bool_decide_ext. destruct (decide (i = id)) as [->|Hi]; [rewrite lookup_insert_eq, Hx; split; eauto|].
    by rewrite lookup_insert_ne.
  - intros k'. case_decide as Hk; [subst k'; by rewrite lookup_delete_eq|by rewrite lookup_delete_ne].
Qed.

Definition sample_lessor : @kvstore.lessor etcd_lessor :=
  lease.with_lease LeaseLog.sample_lessor 7 (lease.NewLease 7 60).

Definition whole (rev : Z) : RangeOptions := MkRange 0 rev false.

(** Three transactions, the second one reading itself, readers before and after
    the third one, and a compaction that runs to its end. *)
Definition sample_events : list event :=
  [KBegin; KPut "a" [Byte.x61] 0; KPut "b" [Byte.x62] 7; KEnd;
   KBegin; KPut "a" [Byte.x63] 0; KTxnRange (fun _ => None) "a" None (whole 0); KEnd;
   KRead ConcurrentReadTxMode; KBegin; KDelete "a" (Some "c"); KEnd;
   KRange 0 (fun _ => None) "a" (Some "z") (whole 0); KReadEnd 0; KCommit; KCompact 3] ++ repeat KStep 5 ++
  [KRead SharedBufReadTxMode; KRange 0 (fun _ => None) "a" (Some "z") (whole 3);
   KRange 0 (fun _ => None) "a" (Some "z") (whole 2); KReadEnd 0].

Definition new_disk : disk := MkDisk [] ∅ None None.

Lemma sample_opens : opens (bolt_New : @bolt MemBolt.mem_bolt) new_disk sample_lessor 0.
Proof.
  split; [|split; [|split; [done|split; [done|constructor]]]].
  - exists ∅. split; [|done]. intros bk _. rewrite lookup_empty. apply (@bolt_new _ MemBolt.mem_bolt_laws).
  - constructor; cbn; [constructor| |done|done]. split; set_solver.
Qed.

Lemma sample_store_legal : legal (le_Lookup sample_lessor) (spec_of new_disk) sample_events.
Proof. apply (bool_decide_unpack _). vm_compute. exact I. Qed.

Definition a3 : KeyValue := MkKV "a" 2 3 2 [Byte.x63] 0 [].
Definition b2 : KeyValue := MkKV "b" 2 2 1 [Byte.x62] 7 [].

Abbreviation new_file := (bolt_New : @bolt MemBolt.mem_bolt).
Abbreviation sample_open := (open_store new_file 10000 sample_lessor 0).

Lemma store_refines_history_witness : exists s s', sample_open = Ret s /\
  run step s sample_events = Ret (s',
    [ANone; ARev 2; ARev 2; ANone; ANone; ARev 3; ARange (Some (MkResult [a3] 3 1), None); ANone;
     ANone; ANone; ADeleted 2 4; ANone; ARange (Some (MkResult [a3; b2] 3 2), None); ANone; ANone; ACompact None;
     ANone; ANone; ANone; ANone; ANone;
     ANone; ARange (Some (MkResult [a3; b2] 4 2), None); ARange (Some (MkResult [] 0 (-1)), Some ErrCompacted); ANone]).
Proof.
  apply (store_refines_history new_file new_disk 10000 sample_lessor 0 sample_events sample_opens sample_store_legal).
  vm_compute. reflexivity.
Defined.

(** The first sixteen events, up to the compaction. *)
Definition sample_start : list event := take 16 sample_events.

Lemma sample_start_legal : legal (le_Lookup sample_lessor) (spec_of new_disk) sample_start.
Proof. apply (bool_decide_unpack _). vm_compute. exact I. Qed.

Lemma sample_started : exists s s', sample_open = Ret s /\
  run step s sample_start = Ret (s', snd (spec_run (spec_of new_disk) sample_start)) /\
  length (pendings (fifoSched (st s'))) = 1%nat.
Proof.
  destruct (open_related new_file new_disk 10000 sample_lessor 0 sample_opens) as (s & E & Hr).
  destruct (run_related _ sample_start s _ new_disk 4 Hr sample_start_legal) as (s' & dd' & E' & _); [vm_compute; reflexivity|].
  exists s, s'. split; [done|]. split; [done|].
  assert ((s ← sample_open; '(s', _) ← run step s sample_start; Ret (length (pendings (fifoSched (st s'))))) = Ret 1%nat) as Hp
    by (vm_compute; reflexivity).
  rewrite E, ret_bind, E', ret_bind in Hp. by injection Hp.
Qed.

Lemma store_file_durable_witness : exists s s' d', sample_open = Ret s /\
  run step s sample_start = Ret (s', snd (spec_run (spec_of new_disk) sample_start)) /\
  opens (backend.db (b (st s'))) d' sample_lessor 0 /\ durable (spec_of new_disk) sample_start d'.
Proof.
  destruct sample_started as (s & s' & E & E' & _). exists s, s'.
  destruct (store_file_durable new_file new_disk 10000 sample_lessor 0 sample_start s s' _ sample_opens sample_start_legal
    ltac:(vm_compute; reflexivity) E E') as (d' & Ho & Hd).
  exists d'. split; [exact E|]. split; [exact E'|]. split; [exact Ho|exact Hd].
Defined.

Lemma compactions_end_witness : exists s s' s2, sample_open = Ret s /\
  run step s sample_start = Ret (s', snd (spec_run (spec_of new_disk) sample_start)) /\
  run step s' (repeat KStep 28) = Ret (s2, repeat ANone 28) /\ idle (fifoSched (st s2)).
Proof.
  destruct sample_started as (s & s' & E & E' & Hp). exists s, s'.
  destruct (compactions_end new_file new_disk 10000 sample_lessor 0 sample_start s s' _ 28 sample_opens sample_start_legal
    ltac:(vm_compute; reflexivity) E E') as (s2 & E2 & Hid & _).
  - vm_compute. reflexivity.
  - rewrite Hp. vm_compute. lia.
  - exists s2. split; [exact E|]. split; [exact E'|]. split; [exact E2|exact Hid].
Defined.

End KvRun.
