(* ===== verification/KvHashLog.v ===== *)
(** * The checksums of etcd's store

    [HashByRev] is to be the same on every member of a cluster, however far
    the compactions of the member have come: it is a function of the history
    and the last compaction, as long as some key exists. *)

From S2P Require Import Prelude Errors Utils WalIo KeyIndex KeyTimeline RevBytes TreeIndex IndexLog KvPb BoltApi TxBuffer Backend BackendLog Lease KvHash KvStore KvHistory KvReads KvInv KvEvents KvCompact KvSched KvRestore KvOpen KvRun.

Module KvHashLog.
Import mvcc mvccpb Timeline RevBytes kvhash kvstore KvHistory KvReads KvInv KvEvents KvCompact KvSched KvRun.

(** ** What a checksum is over *)

(** The record is what a read at [c] finds. *)
Definition is_live (h : list kchange) (c : Z) (x : record) : bool :=
  match IndexLog.state_at (erased h) c !! Key (snd x) with
  | Some (r, _, _) => bool_decide (r = rev_of x)
  | None => false
  end.

Lemma is_live_spec h c x : wf h -> x ∈ recs h ->
  is_live h c x = true <-> IndexLog.live (erased h) c (rev_of x).
Proof.
  intros Hw Hx. unfold is_live. split.
  - destruct (IndexLog.state_at (erased h) c !! Key (snd x)) as [[[r cr] v]|] eqn:E; [|done].
    intros <-%bool_decide_eq_true. by exists (Key (snd x)), cr, v.
  - intros (k & cr & v & E). pose proof (state_agrees h c k Hw) as Ha. unfold agrees in Ha. rewrite E in Ha.
    destruct (kv_at h c !! k) as [kv|]; [|done]. destruct Ha as (Hin & Ek & _).
    rewrite (recs_unique h x _ Hw Hx Hin eq_refl) at 1. cbn [snd]. rewrite Ek, E. by apply bool_decide_eq_true.
Qed.

(** The records up to [rev] that are later than the last compaction, or live at
    [rev]; deletions at the compaction are left out. *)
Definition hashed (h : list kchange) (lvl rev : Z) : list record :=
  List.filter (fun x => (Main (rev_of x) <=? rev) && ((lvl <? Main (rev_of x)) || is_live h rev x) &&
    negb ((Main (rev_of x) =? lvl) && tombstone_mark (fst x))) (recs h).

Definition crc_pairs (crc : Z) (l : list record) : Z :=
  fold_left (fun crc x => crc_Write (crc_Write crc (key_bytes (fst x))) (KeyValue_Marshal (snd x))) l crc.

Definition hash_of (h : list kchange) (lvl rev : Z) : KeyValueHash :=
  MkHash (crc_Sum32 (crc_pairs (crc_Write (crc_New 0) (txBuffer.Name schema.Key)) (hashed h lvl rev))) lvl rev.

Definition spec_hash (h : list kchange) (lvl cur rev : Z) : result KeyValueHash * Z :=
  if (0 <? rev) && (rev <? lvl) then (inl ErrCompacted, 0)
  else if (0 <? rev) && (cur <? rev) then (inl ErrFutureRev, cur)
  else (inr (hash_of h lvl (if rev =? 0 then cur else rev)), cur).

(** ** The hasher *)

(** The pairs that the hasher takes. *)
Definition takes (hs : kvHasher) (x : record) : bool :=
  (Main (rev_of x) <=? revision hs) &&
  negb ((Main (rev_of x) <=? compactRevision hs) && negb (bool_decide (keeps hs = ∅)) && negb (bool_decide (rev_of x ∈ keeps hs))) &&
  negb ((Main (rev_of x) =? compactRevision hs) && tombstone_mark (fst x)).

Definition with_hash (hs : kvHasher) (crc : Z) : kvHasher := MkHasher crc (compactRevision hs) (revision hs) (keeps hs).

Lemma greater_next c r : 0 <= Sub r -> GreaterThan (MkRev (c + 1) 0) r = (Main r <=? c).
Proof.
  intros Hs. apply eq_true_iff_eq. fold (rev_lt r (MkRev (c + 1) 0)). rewrite rev_lt_spec, Z.leb_le. cbn. lia.
Qed.

Lemma hash_one_spec hs x : valid (fst x) -> -1 <= compactRevision hs < 2 ^ 63 - 1 -> -1 <= revision hs < 2 ^ 63 - 1 ->
  WriteKeyValue hs (key_bytes (fst x)) (KeyValue_Marshal (snd x))
  = Ret (if takes hs x then with_hash hs (crc_pairs (kvhash.hash hs) [x]) else hs).
Proof.
  intros Hv Hc Hr. pose proof Hv as [_ Hsub]. unfold WriteKeyValue. rewrite bytes_to_rev, ret_bind by done.
  rewrite (i64_small (revision hs + 1)), (i64_small (compactRevision hs + 1)), !greater_next by (lia || word).
  unfold takes, rev_of. destruct (Main (bk_Revision (fst x)) <=? revision hs); cbn [negb andb]; [|done].
  rewrite bytes_to_key, ret_bind by done.
  destruct (_ && negb (bool_decide (bk_Revision (fst x) ∈ keeps hs))); cbn [negb andb]; [done|].
  by destruct (_ && tombstone_mark (fst x)).
Qed.

Lemma hash_all_spec hs l : Forall (fun x => valid (fst x)) l ->
  -1 <= compactRevision hs < 2 ^ 63 - 1 -> -1 <= revision hs < 2 ^ 63 - 1 ->
  WriteAll hs (map encode l) = Ret (with_hash hs (crc_pairs (kvhash.hash hs) (List.filter (takes hs) l))).
Proof.
  intros Hl. revert hs. induction Hl as [|x l Hx Hl IH]; intros hs Hc Hr; [by destruct hs|].
  cbn [map WriteAll encode fst snd]. rewrite hash_one_spec, ret_bind by done. cbn [List.filter].
  assert (takes (if takes hs x then with_hash hs (crc_pairs (kvhash.hash hs) [x]) else hs) = takes hs) as Et by (by destruct (takes hs x)).
  rewrite IH, Et by (by destruct (takes hs x)). by destruct (takes hs x).
Qed.

Lemma live_app h xs c r : Forall (fun x => c < Main (x_rev x)) xs ->
  IndexLog.live (erased (h ++ xs)) c r <-> IndexLog.live (erased h) c r.
Proof.
  induction xs as [|x xs IH] using rev_ind; intros Hx; [by rewrite app_nil_r|].
  apply Forall_app in Hx as [Hxs [Hx _]%Forall_cons]. rewrite app_assoc, erased_snoc, live_snoc by (by rewrite erase_rev).
  by apply IH.
Qed.

(** What is left in the bucket has the records that are taken. *)
Lemma takes_hashed h gone lvl rev kp : wf h -> gone_ok h lvl gone -> lvl <= rev -> (exists r, r ∈ kp) ->
  (forall r, r ∈ kp <-> IndexLog.live (erased h) rev r) ->
  List.filter (takes (newKVHasher lvl rev kp)) (filter (fun x => rev_of x ∉ gone) (recs h)) = hashed h lvl rev.
Proof.
  intros Hw Hg Hl [r0 Hr0] Hk. assert (bool_decide (kp = ∅) = false) as Hsz by (apply bool_decide_eq_false; intros ->; by apply not_elem_of_empty in Hr0).
  assert (forall x, x ∈ recs h -> takes (newKVHasher lvl rev kp) x =
    (Main (rev_of x) <=? rev) && ((lvl <? Main (rev_of x)) || is_live h rev x) && negb ((Main (rev_of x) =? lvl) && tombstone_mark (fst x))) as Et.
  { intros x Hx. unfold takes. cbn [newKVHasher revision compactRevision keeps]. rewrite Hsz; cbn [negb]; rewrite andb_true_r. f_equal. f_equal.
    assert (bool_decide (rev_of x ∈ kp) = is_live h rev x) as ->.
    { apply eq_true_iff_eq. by rewrite bool_decide_eq_true, Hk, is_live_spec. }
    destruct (Z.leb_spec (Main (rev_of x)) lvl), (Z.ltb_spec lvl (Main (rev_of x))); try lia; cbn; by rewrite ?negb_involutive. }
  unfold hashed. assert (forall l, (forall x, x ∈ l -> x ∈ recs h) ->
    List.filter (takes (newKVHasher lvl rev kp)) (filter (fun x => rev_of x ∉ gone) l) =
    List.filter (fun x => (Main (rev_of x) <=? rev) && ((lvl <? Main (rev_of x)) || is_live h rev x) &&
      negb ((Main (rev_of x) =? lvl) && tombstone_mark (fst x))) l) as Hf; [|by apply Hf].
  induction l as [|x l IH]; intros Hin; [done|]. assert (x ∈ recs h) as Hx by (apply Hin; by left).
  cbn [List.filter]. rewrite <- Et by done. destruct (decide (rev_of x ∈ gone)) as [Hgx|Hgx].
  - rewrite filter_cons_False by tauto. rewrite IH by (intros y Hy; apply Hin; by right).
    destruct (takes (newKVHasher lvl rev kp) x) eqn:Etx; [|done]. exfalso. rewrite Et in Etx by done.
    apply andb_prop in Etx as [[Hm Hor]%andb_prop _]. pose proof (gone_later _ _ _ _ Hg Hgx).
    apply orb_prop in Hor as [?|Hlive]; [lia|]. apply is_live_spec in Hlive; [|done..].
    apply (g_unneeded _ _ _ Hg x Hx Hgx). right. left. by apply (live_earlier _ lvl rev); [apply wf_ordered|lia|].
  - rewrite filter_cons_True by done. cbn [List.filter]. rewrite IH by (intros y Hy; apply Hin; by right). done.
Qed.

Section Hash.
Context `{BTL : BTreeLaws} `{BLL : BoltLaws} `{LEL : LessorLaws} (has : Z -> bool).

Lemma hash_spec s tw trs d t rds dd n rev : inv has s tw trs d t rds dd n -> 0 <= rev ->
  (exists r, IndexLog.live (erased (d_hist d)) (if rev =? 0 then cur_of (d_hist d) else rev) r) ->
  cur_of (d_hist d) < 2 ^ 63 - 1 ->
  hashByRev s rev = Ret (spec_hash (d_hist d) (d_lvl d) (cur_of (d_hist d)) rev).
Proof.
  intros Hi H0 [r0 Hr0] Hmax. pose proof (txn_tail has _ _ _ _ _ _ _ _ Hi) as Htl.
  destruct Hi as [Hd Hw _ _ Hcur Hcomp [bs [(dk & Hr & _) _ [Hk _] _ _ _]] (ilvl & Hidx & Hs) _ _ _ _].
  pose proof (lvl_limit d Hd) as Hlv. pose proof (cur_pos _ (d_wf _ Hd)) as Hcp. pose proof (ilvl_bound _ _ _ _ _ Hs) as Hil.
  unfold hashByRev, spec_hash. rewrite Hcur, Hcomp. destruct ((0 <? rev) && (rev <? d_lvl d)) eqn:E1; [done|].
  destruct ((0 <? rev) && (cur_of (d_hist d) <? rev)) eqn:E2; [done|]. set (rv := if rev =? 0 then _ else rev) in *.
  assert (d_lvl d <= rv <= cur_of (d_hist d) /\ 0 <= rv) as [Hrv Hrv0] by (unfold rv; destruct (Z.eqb_spec rev 0); lia).
  assert (forall r, IndexLog.live (erased (all_hist d t)) rv r <-> IndexLog.live (erased (d_hist d)) rv r) as Hla.
  { intros r. apply live_app. eapply Forall_impl; [exact Htl|]. cbn. lia. }
  destruct (IndexLog.Keep_spec same_main (kvindex s) _ rv Hidx) as (kp & Ek & Hkp); [cbn; lia|]. cbn [IndexLog.hist] in Hkp.
  assert (forall r, r ∈ kp <-> IndexLog.live (erased (d_hist d)) rv r) as Hkp' by (intros r; by rewrite Hkp).
  rewrite Ek, ret_bind. unfold unsafeHashByRev. destruct Hr as ([_ _ _ Hrd _ _ _] & _).
  rewrite (BackendLog.read_each _ (BackendLog.seen bs) _ Hrd Hk), ret_bind. unfold bucket_of.
  assert (-1 <= d_lvl d) as Hlo.
  { unfold d_lvl. destruct (d_sched d) as [c|] eqn:Ec; cbn [default from_option id]; [|lia]. pose proof (d_sched_ok _ Hd c Ec). lia. }
  rewrite hash_all_spec, !ret_bind; cbn [newKVHasher compactRevision revision]; [|..]; [| |lia|lia].
  - rewrite takes_hashed; [done|by apply Hd|by apply Hd|lia| |done]. exists r0. by apply Hkp'.
  - apply Forall_forall. intros x [_ Hx]%list_elem_of_filter. eapply wf_fits; [by apply Hd|done].
Qed.

End Hash.

Section Theorems.
Context `{BTL : BTreeLaws} `{BLL : BoltLaws} `{LEL : LessorLaws}.

(** C18: after every legal run the checksum at a revision is that of the records
    of the history: those up to the revision that are later than the last
    compaction or live at the revision.  As long as some key is live there it
    does not depend on how far the compactions have come, nor on the commits
    and the open transaction, so that members with the same history agree. *)
Theorem hash_of_history file d limit l lim evs s s' rs rev : opens file d l lim ->
  legal (le_Lookup l) (spec_of d) evs -> 4 + 2 * Z.of_nat (length evs) < two64 ->
  open_store file limit l lim = Ret s -> run step s evs = Ret (s', rs) ->
  let sp := fst (spec_run (spec_of d) evs) in 0 <= rev ->
  (exists r, IndexLog.live (erased (hist sp)) (if rev =? 0 then cur_of (hist sp) else rev) r) ->
  cur_of (hist sp) < 2 ^ 63 - 1 ->
  hashByRev (st s') rev = Ret (spec_hash (hist sp) (level sp) (cur_of (hist sp)) rev).
Proof.
  intros Ho Hl Hn Es Er sp H0 Hlive Hmax. destruct (open_related file d limit l lim Ho) as (s0 & E & Hr). rewrite E in Es. injection Es as <-.
  destruct (run_related (le_Lookup l) evs s0 _ d 4 Hr Hl Hn) as (s1 & dd' & E' & (gone & fin & Hi) & _). rewrite E' in Er. injection Er as -> <-.
  exact (hash_spec (le_Lookup l) _ _ _ _ _ _ _ _ rev Hi H0 Hlive Hmax).
Qed.

End Theorems.

(** ** On a concrete store *)

#[local] Existing Instances MemBTree.btree MemBTree.btree_laws MemBolt.mem_bolt MemBolt.mem_bolt_laws.

Definition hash_after (evs : list event) (rev : Z) : outcome (result KeyValueHash * Z) :=
  s ← sample_open; '(s', _) ← run step s evs; hashByRev (st s') rev.

Lemma hash_of_history_witness : exists s s', sample_open = Ret s /\
  run step s sample_start = Ret (s', snd (spec_run (spec_of new_disk) sample_start)) /\
  hashByRev (st s') 3 = Ret (spec_hash (hist (fst (spec_run (spec_of new_disk) sample_start))) 3 4 3).
Proof.
  destruct sample_started as (s & s' & E & E' & _). exists s, s'. split; [exact E|]. split; [exact E'|].
  refine (hash_of_history new_file new_disk 10000 sample_lessor 0 sample_start s s' _ 3 sample_opens sample_start_legal _ E E' _ _ _);
    [reflexivity|lia| |reflexivity].
  exists (MkRev 3 0), "a", (MkRev 2 0), 2. vm_compute. reflexivity.
Defined.

(** The only key is put, and deleted again at the revision that is compacted. *)
Definition emptied : list event :=
  [KBegin; KPut "a" [Byte.x61] 0; KEnd; KBegin; KDelete "a" None; KEnd; KCompact 3].

(** With no key left the set of revisions to keep is empty, which the hasher
    takes for no set: the checksum then changes while the compaction runs. *)
Theorem empty_hash_changes : hash_after emptied 3 <> hash_after (emptied ++ repeat KStep 5) 3.
Proof. vm_compute. congruence. Qed.

(** The checksum of revision 3 before the compaction of it, and the one that
    the compaction leaves, name the same revisions and differ. *)
Definition emptied_later : list event :=
  [KBegin; KPut "a" [Byte.x61] 0; KEnd; KCompact 2] ++ repeat KStep 5 ++ [KBegin; KDelete "a" None; KEnd].

Definition stored_after (evs : list event) (rev : Z) : outcome (option KeyValueHash) :=
  s ← sample_open; '(s', _) ← run step s evs; Ret (find_hash (hashes (st s')) rev).

Theorem stored_hash_differs : exists h h', hash_after emptied_later 3 = Ret (inr h, 3) /\
  stored_after (emptied_later ++ KCompact 3 :: repeat KStep 5) 3 = Ret (Some h') /\
  CompactRevision h = CompactRevision h' /\ Hash h <> Hash h'.
Proof. eexists _, _. split; [vm_compute; reflexivity|]. split; [vm_compute; reflexivity|]. by split. Qed.

End KvHashLog.
