(* ===== verification/KvLease.v ===== *)
(** * Revoking a lease of etcd's store

    [Revoke] of [server/lease/lessor.go], with the range deleter that
    [NewStore] sets: the keys of the lease are deleted in one transaction of the
    store, and the lease in the same transaction of the backend.  Also the
    leases that a lessor finds in the backend. *)

From S2P Require Import Prelude Errors Utils KeyIndex TreeIndex KvPb BoltApi TxBuffer Backend BackendLog LeasePb LeaseQueue Lease LeaseLog KvHash KvStore KvHistory KvReads KvInv KvEvents KvRun.

Module KvLease.
Import mvcc mvccpb kvstore KvEvents KvRun.

(** [sort.StringSlice(keys).Sort()]; the keys of a set are different. *)
Definition sorted_keys (items : gset string) : list string := fold_right KvReads.place_key [] (elements items).

Section Revoke.
Context `{BTreeLib} `{BoltLib} (hook : backend.backend -> outcome backend.backend).

(** [txn.DeleteRange] of the keys. *)
Fixpoint delete_all (s : store) (tw : storeTxnWrite) (keys : list string) : outcome (store * storeTxnWrite) :=
  match keys with
  | [] => Ret (s, tw)
  | key :: keys => '(s, tw, _) ← tw_DeleteRange s tw key None; delete_all s tw keys
  end.

Definition close_revokec (l : lease.Lease) : lease.Lease :=
  lease.MkLease (lease.ID l) (lease.ttl l) (lease.remainingTTL l) (lease.expiry l) (lease.itemSet l) true.

Definition Revoke (s : store) (id : Z) : outcome (store * option error) :=
  match le s with
  | None => backend.nil_deref
  | Some l0 =>
      match lease.Lookup l0 id with
      | None => Ret (s, Some lease.ErrLeaseNotFound)
      | Some l =>
          s ← (if negb (lease.rd l0) then Ret (with_le s (Some (lease.with_lease l0 id (close_revokec l))))
               else
                 '(s, tw) ← delete_all s (Write s) (sorted_keys (lease.itemSet l));
                 let l1 := match le s with Some l1 => LeaseLog.revoked l1 (lease.ID l) | None => l0 end in
                 b' ← lease.UnsafeDeleteLease (b s) (lease.ID l);
                 tw_End hook (with_le (with_b s b') (Some l1)) tw);
          (** the deferred close *)
          if lease.revokec l then Panic "close of closed channel" else Ret (s, None)
      end
  end.

(** Without a range deleter the lease stays, with its channel closed: revoking
    it again panics. *)
Theorem revoke_twice_panics s l0 l id : le s = Some l0 -> lease.Lookup l0 id = Some l -> lease.rd l0 = false ->
  lease.revokec l = false ->
  exists s', Revoke s id = Ret (s', None) /\ exists msg, Revoke s' id = Panic msg.
Proof.
  intros Hle Hl Hrd Hc. unfold Revoke. rewrite Hle, Hl, Hrd. cbn [negb]. rewrite ret_bind, Hc. eexists. split; [reflexivity|].
  cbn [with_le le]. unfold lease.Lookup, lease.with_lease. cbn [lease.with_maps lease.leaseMap lease.rd].
  rewrite lookup_insert_eq, Hrd. cbn [negb lease.revokec close_revokec]. rewrite ret_bind. eauto.
Qed.

End Revoke.

(** ** On a concrete store *)

#[local] Existing Instances MemBTree.btree MemBTree.btree_laws MemBolt.mem_bolt MemBolt.mem_bolt_laws.

(** A lessor and a store over one backend: a lease is granted, two of three
    keys are put with it, and it is revoked. *)
Definition revoke_sample : outcome (result lease.Lease * option error * RangeResult * list Z * list kvp) :=
  bk ← backend.newBackend new_file 10000;
  '(l, bk) ← lease.newLessor BackendLog.no_hooks bk 1 0 0 0 false;
  '(l, bk, g) ← lease.Grant BackendLog.no_hooks 0 (lease.SetRangeDeleter l) bk 9 60;
  s ← NewStore BackendLog.no_hooks bk (Some (l : @kvstore.lessor etcd_lessor)) 0;
  '(s, tw) ← tw_put s (Write s) "a" [Byte.x61] 9;
  '(s, tw) ← tw_put s tw "b" [Byte.x62] 0;
  '(s, tw) ← tw_put s tw "c" [Byte.x63] 9;
  s ← tw_End BackendLog.no_hooks s tw;
  '(s, err) ← Revoke BackendLog.no_hooks s 9;
  let '(s, tr) := Read s ConcurrentReadTxMode in
  '(r, _) ← tr_Range s tr (fun _ => None) "a" (Some "z") (whole 0);
  let ids := match le s with Some l => map fst (map_to_list (lease.leaseMap l)) | None => [] end in
  l ← backend.b_UnsafeForEach (b s) schema.Lease;
  Ret (g, err, default (MkResult [] 0 0) r, ids, l).

(** The keys of the lease are gone in one revision, and so is the lease, in
    memory and on the disk; the other key is left. *)
Example revoke_removes_keys :
  revoke_sample = Ret (inr (lease.NewLease 9 60), None, MkResult [MkKV "b" 2 2 1 [Byte.x62] 0 []] 3 1, [], []).
Proof. vm_compute. reflexivity. Qed.

(** A lessor started on the backend of another one, and one that recovers from
    it, find the leases that were granted and not the refused ones. *)
Definition recover_sample : outcome (list (Z * lease.Lease) * list (Z * lease.Lease)) :=
  bk ← backend.newBackend new_file 10000;
  '(l, bk) ← lease.newLessor BackendLog.no_hooks bk 5 0 0 0 false;
  '(l, bk, _) ← lease.Grant BackendLog.no_hooks 0 l bk 9 60;
  '(l, bk, _) ← lease.Grant BackendLog.no_hooks 0 l bk 9 70;
  '(l, bk, _) ← lease.Grant BackendLog.no_hooks 0 l bk 300 1;
  '(l', bk) ← lease.newLessor BackendLog.no_hooks bk 5 0 0 0 false;
  '(l, _) ← lease.Recover BackendLog.no_hooks (lease.with_lease l 1 (lease.NewLease 1 1)) bk true;
  Ret (map_to_list (lease.leaseMap l'), map_to_list (lease.leaseMap l)).

Example recover_finds_leases :
  recover_sample = Ret (let ls := [(9, lease.NewLease 9 60); (300, lease.NewLease 300 5)] in (ls, ls)).
Proof. vm_compute. reflexivity. Qed.

End KvLease.
